(* ===== verification/_CoqProject ===== *)
-Q . S2P
Prelude.v
Store.v
Msgq.v
Streamlog.v
Logstore.v
Jobrun.v
Delivery.v
Ipam.v
Gostd.v
Listq.v
Wildcard.v
Extents.v
Blob.v
Cron.v
Ticker.v
Changelog.v
Sqlite.v
Cached.v
Eventbus.v
Netrules.v
Rwmutex.v
Locks.v
Xdr.v
Health.v
Resp.v
Parsecore.v
Utf8.v
Iam.v
Org.v
Authz.v
Signals.v
Revisions.v
Bigrat.v
Ddbkeys.v
Ddbindex.v
Ddbcond.v
Ddbexpr.v
Ddbquery.v
Replicas.v
S3versions.v
Kinesis.v
Funcrt.v
Slots.v
Blobleases.v
