(* ===== verification/Prelude.v ===== *)
(** * Sockerless Cloud: its shared framework, policy engine and item store, verified

    Sockerless Cloud simulates AWS, Google Cloud and Azure. The three simulators
    under [src/simulator-*] are handlers that translate requests; what a queue,
    a log, a schedule or a network does is decided once, in the framework under
    [src/sim]. This development models that framework's own logic, the policy
    engine that authorizes every request to the AWS simulator, the keys,
    indexes, expressions and queries of its DynamoDB, the object versions of its
    S3 and the shards of its Kinesis, and the blob leases of the Azure simulator,
    and proves them correct. Definitions keep the names of the Go functions they
    translate; a method [M] of a type [T] is [T_M] where [M] alone would be
    ambiguous.

    ** The parts and the files that model them

    Every resource lives in a store, and most components are clients of one.

    - [Store]: the [Store] interface of [sim/state.go] as a class of operations
      ([Store]) with its laws ([StoreSpec]), the in-memory implementation with
      its sorted id list ([ordered_ids.go]), and indexes kept current by a write
      counter ([index.go]).
    - [Sqlite], [Cached]: the two persistent implementations of the same
      interface ([state_sqlite.go], [state_cached.go], [state_prune.go]): the
      blob a value is stored as, prefix ranges, prunes in batches, the memory
      copy, and a restart of the process.
    - [Signals]: the table that wakes goroutines waiting for a key ([signals]) and
      the store that announces its writes to it ([announcing.go]), as a transition
      system over any store.
    - [Streamlog], [Logstore], [Changelog], [Ticker]: numbered record logs
      ([streamlog]), entry logs ([logstore]), change streams
      ([kvstore/changelog.go]) and the schedule ticker ([cron/ticker.go]). They
      are proved against [StoreSpec], so they hold over each of the three stores.
    - [Msgq]: message queues ([msgq]): leases, receipts, deduplication, ordered
      groups, dead letters, expiry.
    - [Jobrun]: executions of tasks with parallelism, retries, timeouts and
      completion policies ([jobrun]). [Delivery]: the dispatcher that retries
      deliveries ([delivery]). [Eventbus]: fan-out of events to subscriptions in
      batches ([eventbus]).
    - [Cron]: cron expressions in the Vixie and AWS grammars and their next
      occurrence over civil days and time zones ([cron/cron.go]).
    - [Revisions], [Replicas]: the weighted choice of a revision ([revisions]) and
      the sets that keep a count of replicas running ([replicas]), the latter as a
      transition system over its goroutines.
    - [Funcrt]: the execution environments of functions, leased to invocations,
      provisioned ahead of them and counted against shared limits ([funcrt]), as a
      transition system over several pools.
    - [Ipam], [Netrules], [Health]: address management ([ipam]), packet rules by
      priority ([netrules]), target health checks ([lbplane/health.go]).
    - [Rwmutex], [Locks]: Go's read-write mutex and the table of locks per key
      with its goroutines, as a transition system ([kvstore/locks.go]).
    - [Listq], [Blob], [Extents], [Wildcard], [Parsecore]: pages of lists
      ([listq/page.go]), object listings, byte ranges and conditional headers
      ([blobstore]), sets of file extents ([sparse/extents.go]), wildcard
      patterns ([wildcard.go]) and parser primitives ([parsecore.go]).
    - [Xdr], [Resp], [Slots]: the codec of the NFS server, the Redis wire protocol
      and the hash slots of a Redis cluster ([cacheengine/slots.go]).
    - [Iam], [Org], [Authz]: evaluation of IAM policies
      ([simulator-aws/iam_policy_sim.go]) over the wildcard matcher of [Wildcard],
      the service control policies of an organization
      ([organizations_scp.go]), and the authorization of a request from both
      ([iam_enforcement.go]).
    - [Ddbkeys], [Ddbindex], [Ddbcond], [Ddbexpr], [Ddbquery]: DynamoDB items
      ([simulator-aws/dynamodb*.go]). Keys encode as texts in their order
      ([dynamodb_keys.go]); items, their names and their index entries are three
      stores kept in step ([dynamodb_index.go]); conditions are tokenized and
      parsed ([dynamodb_expr.go]) and evaluated; a query walks candidate keys
      page by page ([handleDDBQuery], [dynamodb_query_partition.go]). The stores
      are any that satisfy [StoreSpec].
    - [S3versions]: the versions of an object, its tags and its locks
      ([simulator-aws/s3_versioning.go], [s3_bodies.go], [s3_object_lock.go]),
      kept in three stores of that interface.
    - [Kinesis]: the shards of a stream, the requests that split, merge and
      reshard them with their background half as a transition system, and the
      placement of records ([simulator-aws/kinesis_resharding.go], [kinesis.go])
      over the log of [Streamlog].
    - [Blobleases]: the leases of blobs and containers, derived from stored facts
      and the clock ([simulator-azure/blob_state.go], [blob_lease_ops.go]).
    - [Gostd], [Utf8], [Bigrat]: what the components use of Go's [strings], [strconv],
      [sort], [base64], its rune conversions and [math/big]'s
      rationals, as executable definitions. This
      file: arithmetic at machine
      widths, ordered strings, binary search, lemmas on lists and maps, and the
      [sim] hint database.

    ** How code becomes a definition

    A Go function is a Gallina function of the same inputs. State is passed and
    returned, a method that can fail returns an option or a sum, and a panic (an
    index out of range, a row that does not decode) is [None] of an outer option.
    Integers are [Z]; where the code can overflow the wrap is written out. Time
    is an argument. Strings are byte strings. Goroutines, timers and callbacks
    are continuations, or labels of a transition system, that theorems deliver
    in every order ([Jobrun], [Delivery], [Locks], [Signals], [Replicas], [Funcrt]); elsewhere a mutex is taken
    to serialise the operations it guards. Code outside [src] is a parameter
    ([json], [http.ParseTime], case folding) with its documented behaviour as a
    hypothesis, and a witness instantiates each.

    ** What the theorems show

    - Refinement: each store answers as a finite map, whatever the sequence of
      writes, prunes and restarts ([memory_store_refines_map],
      [persistent_stores_refine_map]), the persistent ones over the blobs their own
      codec writes, with what reading a value back zeroes made explicit; each log answers as a map to lists
      ([streamlog_refines_lists], [logstore_refines_lists],
      [change_log_readers_miss_nothing]), imports that leave a gap included; a key of a bucket answers as a stack of
      versions ([keys_are_stacks_of_versions]).
    - Invariants over every sequence of operations: [msgq_invariant],
      [jobrun_invariant], [deliveries_are_tracked], [generation_index_fresh],
      [ipam_leases_stay_in_range], [replica_sets_keep_their_count],
      [secondary_indexes_mirror_the_items], [open_shards_divide_the_keys],
      [limits_account_for_every_unit].
    - Safety and progress: leases, groups, pools and locks exclude each other
      ([lease_is_exclusive], [ordered_group_waits_for_its_head],
      [public_pools_share_no_address], [a_writer_holds_its_keys_alone]); ends are
      final ([jobrun_ends_are_final]); no limit is passed and an environment is
      stopped once, never under an invocation ([limit_is_never_passed],
      [environments_stop_once]), while the provisioned ones are kept
      ([provisioned_environments_are_kept]); a blob's lease excludes everybody else
      ([a_lease_excludes_others]); a locked version outlives every request
      ([compliance_retention_holds]); executions and reshardings end, locks never
      deadlock and no waiter sleeps through a write ([jobrun_terminates],
      [uniform_resharding_reaches_its_target], [locks_never_deadlock],
      [no_write_is_slept_through]); no input makes a decoder or
      a cursor index out of range ([xdr_reads_stay_inside],
      [cursors_stay_in_bounds]).
    - Exact behaviour: what a receive, an allocation, a schedule, a page, a
      range, a rule set or a pattern answers ([receive_contract],
      [reserve_free_takes_the_lowest], [records_join_open_shards],
      [plan_gives_every_primary_its_share], [every_key_has_one_shard],
      [next_is_the_first_occurrence],
      [delimited_listing], [range_serves_the_named_bytes],
      [first_match_by_priority], [match_decides_the_pattern] and others).
    - Items: store keys order as the values they encode
      ([item_keys_follow_the_key_order]), a text compiles exactly by the grammar
      the parser implements, which includes the one it documents
      ([expressions_compile_by_the_grammar]), and following a query's cursor
      returns every match once, in order
      ([queries_return_every_match_once_in_order]).
    - Authorization: policies are deny-overrides whatever order anything comes
      in, context keys that differ only in letter case apart
      ([policy_decision_is_deny_overrides]), an organization caps its members
      by every level ([every_level_must_allow]) and leaves nobody uncovered
      ([entities_keep_a_control_policy]), and a request passes exactly when the
      combination of all policies permits it
      ([authorization_combines_policies]).
    - Round trips: [stored_values_keep_hidden_fields], [commands_roundtrip],
      [xdr_roundtrip].
    - Where the code does not do what it says, a theorem evaluates it on the
      input that shows it: [read_stops_at_import_gap],
      [ordered_receive_passes_a_held_message], [unmasked_subnet_leases_outside],
      [huge_page_size_panics], [leap_sunday_is_missed], [huge_argument_panics],
      [array_error_leaves_the_step], [escaped_star_is_a_wildcard],
      [account_entry_hides_the_name], [negated_operators_want_every_value],
      [failed_add_undoes_a_later_scale],
      [covered_scale_returns_before_its_replicas_run],
      [unreadable_binary_keys_collide], [number_like_strings_compare_as_numbers],
      [nil_text_equals_other_types], [printed_values_collide],
      [case_folded_name_confines_wrongly], [binary_size_counts_base64],
      [loose_between_and_in_compile], [negations_nest_without_limit],
      [segment_count_wraps_to_zero], [overwrite_keeps_tags],
      [nul_keys_share_versions], [interrupted_resharding_stays],
      [limits_count_closed_shards], [negative_shard_count],
      [canceled_wait_panics], [expired_provisioned_is_not_replaced],
      [refused_provision_loses_the_reservation], [break_relocks_an_expired_lease],
      [second_break_lengthens], [container_acquires_race],
      [case_twins_depend_on_order], [cleared_status_loses_versions],
      [twin_indexes_lose_an_entry], [deleting_a_table_takes_its_namesakes].

    ** What the theorems suppose

    A theorem that needs its input restricted says so in its comment, and where
    the source does not enforce the restriction a theorem of the list above shows
    what happens without it. The ones to know:

    - names: log scopes and object keys without a NUL, change streams of which none
      continues another with a slash, tables and indexes named as DynamoDB allows
      ([well_named]), context keys distinct up to letter case ([context_ok]);
    - key conditions that name the hash attribute exactly ([keyed_condition]) and
      key values that are readable texts of their type ([readable_key]);
    - buckets with versions do not return to having no versioning status
      ([may_write]), and retention dates are before the year 10000 ([before]);
    - subnets written with their network address; streams created with no negative
      number of shards; announced lengths that an allocation can hold;
    - time zones whose wall-clock times come in order ([Zone]), which is more than
      [time.Date] documents where a time occurs twice; a fixed offset is one.

    Some steps are coarser than the code. A lookup through a generation index
    reads the counter and the rows in one step; a dispatcher's store call and the
    scheduling after it are one step, as are the walk to the limit that owns a
    pool's capacity with its critical section, and the exchange of a reservation.
    Delivery counts and slot ranges do not wrap, which would take 2^63 deliveries
    of one message or 2^49 shards.

    ** Fuel

    Loops without a structural measure carry fuel that their caller computes, and
    the theorems about them show it is enough: the matcher's is quadratic in the
    pattern and the text ([match_fuel]); a schedule searches one day per unit up
    to its last year; a ticker's gap is at most one occurrence per instant; scans
    of logs take the width of the interval scanned; a prune takes one round per
    row it has left, since each round moves past at least one; readers take the
    bytes left, since each item consumes some; a path to the organization's root
    has the 64 steps the code allows, and the theorem about it says so; a number
    scales by at most the 401 steps after which the code gives up; the expression
    parser takes six units per token, since every token is consumed within six
    calls; the walk over nested values takes their height; merging the pieces of a
    shard range takes one round per open shard, since each round merges two; a
    limit's search for its owner takes one step per limit, since a parent is older.

    ** Not modelled

    The other handlers of the simulators and the UI, which call the framework;
    DynamoDB's update expressions, which mutate decoded documents whose lists
    share backing arrays, with the handlers that apply them;
    the decoding of policy documents and of HTTP requests; containers,
    machines, sidecars and file shares, whose state belongs to an engine or an
    operating system; HTTP serving, TLS, signatures and encryption, which are
    calls to the standard library; list filters and rate limits, which compute in
    floating point; the passes over all stores by reflection. Background loops
    are represented by the step they repeat. *)

From Stdlib Require Export ZArith Lia.
From stdpp Require Export sorting base gmap strings numbers list.
Export stdpp.list_basics.list stdpp.list_relations.list stdpp.list_monad.list
  stdpp.list_misc.list.

#[global] Open Scope Z_scope.

(** ** Automation *)

Create HintDb sim discriminated.

(** Splits every boolean conjunction, disjunction and comparison of the
    context into its propositional form. *)
Ltac bools :=
  repeat match goal with
  | H : (_ && _)%bool = true |- _ => apply andb_true_iff in H as [? ?]
  | H : (_ || _)%bool = false |- _ => apply orb_false_iff in H as [? ?]
  | H : (_ && _)%bool = false |- _ => apply andb_false_iff in H
  | H : (_ || _)%bool = true |- _ => apply orb_true_iff in H
  | H : negb _ = true |- _ => apply negb_true_iff in H
  | H : negb _ = false |- _ => apply negb_false_iff in H
  | H : (_ <=? _)%Z = true |- _ => apply Z.leb_le in H
  | H : (_ <=? _)%Z = false |- _ => apply Z.leb_gt in H
  | H : (_ <? _)%Z = true |- _ => apply Z.ltb_lt in H
  | H : (_ <? _)%Z = false |- _ => apply Z.ltb_ge in H
  | H : (_ =? _)%Z = true |- _ => apply Z.eqb_eq in H
  | H : (_ =? _)%Z = false |- _ => apply Z.eqb_neq in H
  | H : bool_decide _ = true |- _ => apply bool_decide_eq_true in H
  | H : bool_decide _ = false |- _ => apply bool_decide_eq_false in H
  end.

(** Cases on the scrutinee of the first [match] or [if] of the goal, keeping
    the equation. *)
Ltac case_goal :=
  match goal with
  | |- context [match ?x with _ => _ end] =>
      lazymatch x with
      | context [match _ with _ => _ end] => fail
      | _ => destruct x eqn:?
      end
  end.

Ltac case_hyp H :=
  match type of H with
  | context [match ?x with _ => _ end] =>
      lazymatch x with
      | context [match _ with _ => _ end] => fail
      | _ => destruct x eqn:?
      end
  end.

(** [lia] on goals with quotients and remainders by constants. *)
Ltac dlia := Z.to_euclidean_division_equations; lia.

(** ** Results of fallible Go functions *)

Inductive result (E A : Type) : Type :=
| Ok (a : A)
| Err (e : E).
Arguments Ok {E A} a.
Arguments Err {E A} e.

Definition rbind {E A B} (r : result E A) (f : A → result E B) : result E B :=
  match r with Ok a => f a | Err e => Err e end.

Declare Scope go_scope.
Delimit Scope go_scope with go.
Notation "'let?' x := r 'in' k" := (rbind r (fun x => k))
  (at level 10, x binder, r at level 100, k at level 200)
  : go_scope.
#[global] Open Scope go_scope.

(** ** Machine integers *)

(** The value a Go [int64] (also [int]) and a [uint64] hold after an
    operation whose exact result is [z]. *)
Definition i64 (z : Z) : Z := (z + 2 ^ 63) mod 2 ^ 64 - 2 ^ 63.
Definition u64 (z : Z) : Z := z mod 2 ^ 64.

Definition in_i64 (z : Z) : Prop := - 2 ^ 63 ≤ z < 2 ^ 63.
Definition in_u64 (z : Z) : Prop := 0 ≤ z < 2 ^ 64.

Lemma i64_id z : in_i64 z → i64 z = z.
Proof. unfold i64, in_i64. intros. rewrite Z.mod_small; lia. Qed.

Lemma u64_id z : in_u64 z → u64 z = z.
Proof. unfold u64, in_u64. intros. by apply Z.mod_small. Qed.

Lemma i64_range z : in_i64 (i64 z).
Proof.
  unfold i64, in_i64. pose proof (Z.mod_pos_bound (z + 2 ^ 63) (2 ^ 64)). lia.
Qed.

Lemma u64_range z : in_u64 (u64 z).
Proof. unfold u64, in_u64. apply Z.mod_pos_bound. lia. Qed.

#[export] Hint Resolve i64_range u64_range : sim.

(** ** Times and durations

    A [time.Time] is its instant in nanoseconds since the Unix epoch, a
    [time.Duration] a number of nanoseconds. *)
Abbreviation Time := Z (only parsing).
Abbreviation Duration := Z (only parsing).

Definition Millisecond : Duration := 1000000.
Definition Second : Duration := 1000 * Millisecond.
Definition Minute : Duration := 60 * Second.

(** [time.Time.UnixMilli]: the millisecond the instant falls in. *)
Definition UnixMilli (t : Time) : Z := t / Millisecond.

(** [time.Duration.Milliseconds]: Go's integer division truncates. *)
Definition Milliseconds (d : Duration) : Z := Z.quot d Millisecond.

Lemma UnixMilli_mono t t' : t ≤ t' → UnixMilli t ≤ UnixMilli t'.
Proof. intros. unfold UnixMilli, Millisecond. apply Z.div_le_mono; lia. Qed.

Lemma Milliseconds_nonneg d : 0 ≤ d → 0 ≤ Milliseconds d.
Proof. intros. unfold Milliseconds, Millisecond. apply Z.quot_pos; lia. Qed.

#[export] Hint Resolve UnixMilli_mono Milliseconds_nonneg : sim.

(** ** Binary search: [sort.Search]

    The loop of Go's [sort.Search] over the half-open range [i, j); the
    remaining length bounds the iterations. *)
Fixpoint search_loop (fuel : nat) (f : nat → bool) (i j : nat) : nat :=
  match fuel with
  | O => i
  | S fuel =>
      if (i <? j)%nat then
        let h := ((i + j) / 2)%nat in
        if f h then search_loop fuel f i h else search_loop fuel f (S h) j
      else i
  end.

Definition Search (n : nat) (f : nat → bool) : nat := search_loop n f 0 n.

Definition monotone_on (n : nat) (f : nat → bool) : Prop :=
  ∀ i j, (i ≤ j < n)%nat → f i = true → f j = true.

Lemma search_loop_spec fuel f n i j :
  monotone_on n f → (i ≤ j ≤ n)%nat → (j - i ≤ fuel)%nat →
  (∀ k, (k < i)%nat → f k = false) → (∀ k, (j ≤ k < n)%nat → f k = true) →
  let r := search_loop fuel f i j in
  (r ≤ n)%nat ∧ (∀ k, (k < r)%nat → f k = false) ∧
  (∀ k, (r ≤ k < n)%nat → f k = true).
Proof.
  intros Hm. revert i j.
  induction fuel as [|fuel IH]; intros i j Hij Hf Hlo Hhi; cbn [search_loop].
  { replace j with i in * by lia. auto with lia. }
  destruct (Nat.ltb_spec i j) as [Hlt|]; last (replace j with i in * by lia; auto with lia).
  assert (i ≤ (i + j) / 2 < j)%nat as Hh.
  { split; [apply Nat.div_le_lower_bound; lia | apply Nat.Div0.div_lt_upper_bound; lia]. }
  set (h := ((i + j) / 2)%nat) in *. destruct (f h) eqn:E.
  - apply IH; [lia|lia|done|]. intros k Hk. apply (Hm h k); [lia|done].
  - apply IH; [lia|lia| |done]. intros k Hk.
    destruct (f k) eqn:E'; [|done]. rewrite (Hm k h) in E; [done|lia|done].
Qed.

(** On a monotone predicate the search returns the least index that satisfies
    it, or [n]. *)
Lemma Search_spec n f :
  monotone_on n f →
  (Search n f ≤ n)%nat ∧ (∀ k, (k < Search n f)%nat → f k = false) ∧
  (∀ k, (Search n f ≤ k < n)%nat → f k = true).
Proof. intros Hm. apply (search_loop_spec n f n); auto with lia. Qed.

(** ** Stable sorting: [sort.SliceStable]

    The result of a stable sort under a strict weak order [less] is unique;
    insertion sort computes it. *)
Section SliceStable.
Context {A : Type} (less : A → A → bool).

Fixpoint stable_insert (x : A) (l : list A) : list A :=
  match l with
  | [] => [x]
  | y :: l' => if less y x then y :: stable_insert x l' else x :: y :: l'
  end.

Fixpoint SliceStable (l : list A) : list A :=
  match l with
  | [] => []
  | x :: l' => stable_insert x (SliceStable l')
  end.

(** The order the sort establishes: no later element is less. *)
Definition not_after (x y : A) : Prop := less y x = false.

Lemma stable_insert_perm x l : stable_insert x l ≡ₚ x :: l.
Proof.
  induction l as [|y l IH]; simpl; [done|].
  destruct (less y x); [|done]. rewrite IH. constructor.
Qed.

Lemma SliceStable_perm l : SliceStable l ≡ₚ l.
Proof. induction l as [|x l IH]; simpl; [done|]. by rewrite stable_insert_perm, IH. Qed.

Context (less_asym : ∀ x y, less x y = true → less y x = false)
        (not_after_trans : ∀ x y z, not_after x y → not_after y z → not_after x z).

Lemma stable_insert_sorted x l :
  StronglySorted not_after l → StronglySorted not_after (stable_insert x l).
Proof.
  induction 1 as [|y l Hl IH Hy]; simpl; [repeat constructor|].
  destruct (less y x) eqn:E.
  - constructor; [done|]. rewrite Forall_forall in *. intros z.
    rewrite stable_insert_perm. intros [->|?]%elem_of_cons; [by apply less_asym|auto].
  - constructor; [by constructor|]. constructor; [done|].
    rewrite Forall_forall in *. intros z Hz. eapply not_after_trans; [exact E|auto].
Qed.

Lemma SliceStable_sorted l : StronglySorted not_after (SliceStable l).
Proof. induction l; simpl; [constructor|by apply stable_insert_sorted]. Qed.

(** Stability: the elements of one class, pairwise incomparable, keep their
    input order. *)
Lemma stable_insert_filter (P : A → Prop) `{!∀ x, Decision (P x)} x l :
  (∀ y z, P y → P z → less y z = false) →
  filter P (stable_insert x l) = filter P (x :: l).
Proof.
  intros HP. induction l as [|y l IH]; simpl; [done|].
  destruct (less y x) eqn:E; [|done].
  rewrite !filter_cons, IH, !filter_cons.
  destruct (decide (P y)), (decide (P x)); try done.
  rewrite (HP y x) in E; done.
Qed.

Lemma SliceStable_stable (P : A → Prop) `{!∀ x, Decision (P x)} l :
  (∀ y z, P y → P z → less y z = false) →
  filter P (SliceStable l) = filter P l.
Proof.
  intros HP. induction l as [|x l IH]; simpl; [done|].
  rewrite stable_insert_filter by done. rewrite !filter_cons, IH. done.
Qed.
End SliceStable.

#[export] Hint Resolve SliceStable_perm stable_insert_perm : sim.

(** ** Byte strings

    A Go string is a sequence of bytes; its [<] compares bytes. *)
Definition slt (a b : string) : Prop := String.compare a b = Lt.
Definition sltb (a b : string) : bool :=
  match String.compare a b with Lt => true | _ => false end.

Lemma sltb_slt a b : sltb a b = true ↔ slt a b.
Proof. unfold sltb, slt. by destruct (String.compare a b). Qed.

Lemma compare_refl_s a : String.compare a a = Eq.
Proof.
  destruct (String.compare a a) eqn:E; [done| |];
    pose proof (String.compare_antisym a a) as H; by rewrite E in H.
Qed.

Lemma slt_le a b : slt a b ↔ String.le a b ∧ a ≠ b.
Proof.
  unfold slt, String.le, String.leb. split.
  - intros E. rewrite E. split; [done|]. intros ->. by rewrite compare_refl_s in E.
  - intros [H Hne]. destruct (String.compare a b) eqn:E; try done.
    by apply String.compare_eq_iff in E.
Qed.

#[global] Instance slt_strict : StrictOrder slt.
Proof.
  split.
  - intros a. unfold complement, slt. by rewrite compare_refl_s.
  - intros a b c [Hab Hne]%slt_le [Hbc Hne']%slt_le. apply slt_le. split.
    + by etrans.
    + intros ->. apply Hne. by apply (anti_symm String.le).
Qed.

Lemma slt_irrefl a : ¬ slt a a.
Proof. apply irreflexivity, _. Qed.

Lemma slt_trich a b : slt a b ∨ a = b ∨ slt b a.
Proof.
  destruct (String.compare a b) eqn:E.
  - right. left. by apply String.compare_eq_iff.
  - by left.
  - right. right. unfold slt. by rewrite String.compare_antisym, E.
Qed.

#[global] Instance slt_dec : RelDecision slt.
Proof. intros a b. unfold slt. apply _. Defined.

Lemma sltb_false a b : sltb a b = false ↔ a = b ∨ slt b a.
Proof.
  rewrite <- not_true_iff_false, sltb_slt. split.
  - intros H. destruct (slt_trich a b) as [?|[?|?]]; tauto.
  - intros [->|H] H'; [by apply slt_irrefl in H'|].
    eapply slt_irrefl. etrans; [exact H|exact H'].
Qed.

Lemma append_cons_s x (a b : string) : (String x a +:+ b = String x (a +:+ b))%string.
Proof. done. Qed.

Lemma append_assoc_s (a b c : string) : ((a +:+ b) +:+ c = a +:+ (b +:+ c))%string.
Proof. induction a as [|x a IH]; [done|]. rewrite ?append_cons_s. simpl. by rewrite IH. Qed.

Lemma append_nil_s (a : string) : (a +:+ "" = a)%string.
Proof. induction a as [|x a IH]; [done|]. rewrite ?append_cons_s. simpl. by rewrite IH. Qed.

Lemma length_append_s (a b : string) :
  String.length (a +:+ b) = (String.length a + String.length b)%nat.
Proof. induction a as [|x a IH]; [done|]. rewrite ?append_cons_s. simpl. by rewrite IH. Qed.

Lemma compare_append_l p a b : String.compare (p +:+ a) (p +:+ b) = String.compare a b.
Proof.
  induction p as [|x p IH]; [done|]. rewrite !append_cons_s. cbn.
  unfold Ascii.compare. by rewrite N.compare_refl.
Qed.

Lemma slt_append_l p a b : slt (p +:+ a) (p +:+ b) ↔ slt a b.
Proof. unfold slt. by rewrite compare_append_l. Qed.

(** [strings.HasPrefix]. *)
Definition HasPrefix (s p : string) : bool := String.prefix p s.

Lemma HasPrefix_spec s p : HasPrefix s p = true ↔ ∃ r, s = p +:+ r.
Proof.
  unfold HasPrefix. revert s. induction p as [|x p IH]; intros s.
  - split; [by exists s|by destruct s].
  - destruct s as [|y s]; [split; [done|by intros [? ?]]|]. simpl.
    destruct (Ascii.ascii_dec x y) as [->|Hne].
    + rewrite IH. split; intros [r ?]; exists r; rewrite ?append_cons_s in *; congruence.
    + split; [done|]. intros [r ?]. rewrite ?append_cons_s in *. congruence.
Qed.

Lemma HasPrefix_append p r : HasPrefix (p +:+ r) p = true.
Proof. apply HasPrefix_spec. eauto. Qed.

(** The strings with prefix [p] form a run of the order that begins at [p]. *)
Lemma HasPrefix_le s p : HasPrefix s p = true → sltb s p = false.
Proof.
  intros [r ->]%HasPrefix_spec. apply sltb_false.
  destruct r as [|x r]; [left; apply append_nil_s|right].
  rewrite <- (append_nil_s p) at 1. by apply slt_append_l.
Qed.

Lemma slt_cons x a y b :
  slt (String x a) (String y b) ↔
  (Ascii.N_of_ascii x < Ascii.N_of_ascii y)%N ∨ (x = y ∧ slt a b).
Proof.
  unfold slt. cbn. unfold Ascii.compare.
  destruct (N.compare_spec (Ascii.N_of_ascii x) (Ascii.N_of_ascii y)) as [E|E|E].
  - assert (x = y) as ->.
    { rewrite <- (Ascii.ascii_N_embedding x), E. apply Ascii.ascii_N_embedding. }
    split; [by right|intros [?|[_ ?]]; [lia|done]].
  - split; [by left|done].
  - split; [done|intros [?|[-> ?]]; lia].
Qed.

Lemma HasPrefix_cons y s p : HasPrefix (String y s) (String y p) = HasPrefix s p.
Proof. unfold HasPrefix. simpl. by destruct (Ascii.ascii_dec y y). Qed.

Lemma prefix_run p s t :
  HasPrefix s p = false → sltb s p = false → HasPrefix t p = true → slt t s.
Proof.
  intros Hs Hlt [r ->]%HasPrefix_spec. revert s Hs Hlt.
  induction p as [|x p IH]; intros s Hs Hlt; [by destruct s|].
  destruct s as [|y s]; [done|]. rewrite append_cons_s. apply slt_cons.
  apply sltb_false in Hlt as [Heq|Hlt].
  { rewrite Heq in Hs. by rewrite <- (append_nil_s (String x p)), HasPrefix_append in Hs at 1. }
  apply slt_cons in Hlt as [?|[-> Hlt]]; [by left|right; split; [done|]].
  rewrite HasPrefix_cons in Hs. apply IH; [done|]. apply sltb_false. by right.
Qed.

(** ** Fixed-width decimals: [fmt.Sprintf("%0kd", n)] *)

Definition digit (d : Z) : Ascii.ascii := Ascii.ascii_of_N (48 + Z.to_N d).

Fixpoint pad (k : nat) (n : Z) : string :=
  match k with
  | O => ""
  | S k => String (digit (n / 10 ^ Z.of_nat k)) (pad k (n mod 10 ^ Z.of_nat k))
  end.

(** The verb [%020d]: a minus sign (byte 45) counts towards the width. *)
Definition pad20 (n : Z) : string :=
  if n <? 0 then String (Ascii.ascii_of_N 45) (pad 19 (- n)) else pad 20 n.

Lemma N_of_digit d : 0 ≤ d < 10 → Ascii.N_of_ascii (digit d) = (48 + Z.to_N d)%N.
Proof. intros. unfold digit. rewrite Ascii.N_ascii_embedding; lia. Qed.

Lemma length_pad k n : String.length (pad k n) = k.
Proof. revert n. induction k; intros; simpl; auto. Qed.

Lemma length_pad20 n : String.length (pad20 n) = 20%nat.
Proof. unfold pad20. destruct (n <? 0); cbn [String.length]; by rewrite length_pad. Qed.

Lemma digit_bound n k : 0 ≤ n < 10 ^ Z.of_nat (S k) → 0 ≤ n / 10 ^ Z.of_nat k < 10.
Proof.
  intros Hn. assert (0 < 10 ^ Z.of_nat k) by (apply Z.pow_pos_nonneg; lia).
  split; [apply Z.div_pos; lia|]. apply Z.div_lt_upper_bound; [lia|].
  replace (Z.of_nat (S k)) with (Z.of_nat k + 1) in Hn by lia.
  rewrite Z.pow_add_r in Hn by lia. lia.
Qed.

(** Fixed-width decimals sort as the numbers they spell. *)
Lemma pad_compare k n m :
  0 ≤ n < 10 ^ Z.of_nat k → 0 ≤ m < 10 ^ Z.of_nat k →
  String.compare (pad k n) (pad k m) = Z.compare n m.
Proof.
  revert n m. induction k as [|k IH]; intros n m Hn Hm.
  { simpl in *. replace n with 0 by lia. replace m with 0 by lia. done. }
  cbn [pad]. simpl String.compare. unfold Ascii.compare.
  assert (0 < 10 ^ Z.of_nat k) as Hp by (apply Z.pow_pos_nonneg; lia).
  pose proof (digit_bound n k Hn). pose proof (digit_bound m k Hm).
  rewrite !N_of_digit by lia. set (p := 10 ^ Z.of_nat k) in *.
  pose proof (Z.div_mod n p). pose proof (Z.div_mod m p).
  pose proof (Z.mod_pos_bound n p Hp). pose proof (Z.mod_pos_bound m p Hp).
  destruct (N.compare_spec (48 + Z.to_N (n / p)) (48 + Z.to_N (m / p))) as [E|E|E].
  - rewrite IH by lia. assert (n / p = m / p) as Eq by lia.
    destruct (Z.compare_spec (n mod p) (m mod p)); symmetry;
      [apply Z.compare_eq_iff|apply Z.compare_lt_iff|apply Z.compare_gt_iff]; nia.
  - symmetry. apply Z.compare_lt_iff. nia.
  - symmetry. apply Z.compare_gt_iff. nia.
Qed.

Lemma pad20_compare n m :
  in_u64 n → in_u64 m → String.compare (pad20 n) (pad20 m) = Z.compare n m.
Proof.
  unfold in_u64, pad20. intros.
  rewrite !(proj2 (Z.ltb_ge _ 0)) by lia. apply pad_compare; lia.
Qed.

Lemma pad20_inj n m : in_u64 n → in_u64 m → pad20 n = pad20 m → n = m.
Proof.
  intros Hn Hm Heq. apply Z.compare_eq. rewrite <- pad20_compare by done.
  rewrite Heq. apply compare_refl_s.
Qed.

Lemma append_inj_r (a b c d : string) :
  String.length b = String.length d → a +:+ b = c +:+ d → a = c ∧ b = d.
Proof.
  intros Hl. revert c. induction a as [|x a IH]; intros [|y c] H.
  - done.
  - apply (f_equal String.length) in H. rewrite !length_append_s in H. simpl in H. lia.
  - apply (f_equal String.length) in H. rewrite !length_append_s in H. simpl in H. lia.
  - rewrite !append_cons_s in H. injection H as -> H.
    apply IH in H as [-> ->]. done.
Qed.

(** A key that ends in a fixed-width number names its scope and its number. *)
Lemma scoped_key_inj (a b : string) n m :
  in_u64 n → in_u64 m → a +:+ pad20 n = b +:+ pad20 m → a = b ∧ n = m.
Proof.
  intros ?? H. apply append_inj_r in H as [-> H]; [|by rewrite !length_pad20].
  split; [done|]. by apply pad20_inj.
Qed.

(** The byte that separates a name from the rest of a key. A name without it
    is cut off by it: no key of another name begins the same way. *)
Definition NUL : string := String (Ascii.ascii_of_N 0) "".
Definition nul_free (s : string) : Prop := Ascii.ascii_of_N 0 ∉ String.list_ascii_of_string s.

#[global] Instance nul_free_dec s : Decision (nul_free s).
Proof. unfold nul_free. apply _. Defined.

Lemma nul_free_cut (a b x y : string) :
  nul_free a → nul_free b → a +:+ NUL +:+ x = b +:+ NUL +:+ y → a = b ∧ x = y.
Proof.
  unfold nul_free, NUL. revert b. induction a as [|c a IH]; intros [|d b] Ha Hb H.
  - rewrite !append_cons_s in H. by injection H as H.
  - rewrite !append_cons_s in H. injection H as H _. simpl in Hb.
    rewrite <- H in Hb. destruct Hb. by left.
  - rewrite !append_cons_s in H. injection H as H _. simpl in Ha.
    rewrite H in Ha. destruct Ha. by left.
  - rewrite !append_cons_s in H. injection H as -> H. simpl in Ha, Hb.
    apply not_elem_of_cons in Ha as [_ Ha]. apply not_elem_of_cons in Hb as [_ Hb].
    destruct (IH b Ha Hb H) as [-> ->]. done.
Qed.

(** ** Sublists *)

Lemma sublist_Forall {A} (P : A → Prop) l k : l `sublist_of` k → Forall P k → Forall P l.
Proof. rewrite !Forall_forall. intros Hs Hk x Hx. eauto using elem_of_sublist. Qed.

Lemma sublist_fmap {A B} (f : A → B) l k : l `sublist_of` k → f <$> l `sublist_of` f <$> k.
Proof. induction 1; simpl; by constructor. Qed.

Lemma sublist_StronglySorted {A} (R : relation A) l k :
  l `sublist_of` k → StronglySorted R k → StronglySorted R l.
Proof.
  induction 1 as [|x l k Hs IH|x l k Hs IH]; [done|..];
    intros [Hf Hk]%StronglySorted_cons; [|auto].
  constructor; [auto|]. by eapply sublist_Forall.
Qed.

#[export] Hint Resolve sublist_fmap sublist_filter : sim.

(** ** Lists in strict order *)

(** A list in strict order is determined by its elements. *)
Lemma StronglySorted_elem_unique {A} (R : relation A) `{!StrictOrder R} (l k : list A) :
  StronglySorted R l → StronglySorted R k → (∀ x, x ∈ l ↔ x ∈ k) → l = k.
Proof.
  revert k. induction l as [|x l IH]; intros [|y k] Hl Hk He.
  - done.
  - exfalso. apply (not_elem_of_nil y), He. left.
  - exfalso. apply (not_elem_of_nil x), He. left.
  - apply StronglySorted_cons in Hl as [Hx Hl]. apply StronglySorted_cons in Hk as [Hy Hk].
    rewrite Forall_forall in Hx, Hy.
    assert (x = y) as ->.
    { destruct (proj1 (elem_of_cons _ _ _) (proj1 (He x) (list_elem_of_here _ _))) as [|Hxk]; [done|].
      destruct (proj1 (elem_of_cons _ _ _) (proj2 (He y) (list_elem_of_here _ _))) as [|Hyl]; [done|].
      destruct (irreflexivity R x). transitivity y; auto. }
    f_equal. apply IH; [done..|]. intros z. specialize (He z). rewrite !elem_of_cons in He.
    split; intros Hz.
    + destruct (proj1 He (or_intror Hz)) as [->|]; [|done]. by destruct (irreflexivity R y); auto.
    + destruct (proj2 He (or_intror Hz)) as [->|]; [|done]. by destruct (irreflexivity R y); auto.
Qed.

Lemma StronglySorted_NoDup {A} (R : relation A) `{!StrictOrder R} l : StronglySorted R l → NoDup l.
Proof.
  induction 1 as [|x l Hs IH Hx]; [constructor|]. constructor; [|done]. intros Hin. rewrite Forall_forall in Hx. by destruct (irreflexivity R x (Hx x Hin)).
Qed.

Lemma StronglySorted_fmap_in {A B} (R : relation A) (R' : relation B) (f : A → B) l :
  (∀ x y, x ∈ l → y ∈ l → R x y → R' (f x) (f y)) → StronglySorted R l → StronglySorted R' (f <$> l).
Proof.
  induction l as [|x l IH]; intros Hf Hs; [constructor|].
  apply StronglySorted_cons in Hs as [Hx Hs]. simpl. constructor.
  - apply IH; [|done]. intros y z Hy Hz. apply Hf; by apply list_elem_of_further.
  - rewrite Forall_forall in Hx. apply Forall_forall. intros y (z & -> & Hz)%list_elem_of_fmap.
    apply Hf; [apply list_elem_of_here|by apply list_elem_of_further|by apply Hx].
Qed.

Lemma StronglySorted_fmap_inv {A B} (R : relation B) (f : A → B) l :
  StronglySorted R (f <$> l) → StronglySorted (λ x y, R (f x) (f y)) l.
Proof.
  induction l as [|x l IH]; simpl; intros Hs; [constructor|].
  apply StronglySorted_cons in Hs as [Hx Hs]. constructor; [auto|]. exact (proj1 (Forall_fmap f _ l) Hx).
Qed.

Lemma StronglySorted_lookup_lt {A} (R : relation A) l i j a b :
  StronglySorted R l → l !! i = Some a → l !! j = Some b → (i < j)%nat → R a b.
Proof.
  intros Hs Hi Hj Hij.
  rewrite <- (take_drop (S i) l) in Hs.
  eapply (StronglySorted_app_1_elem_of _ _ _ _ _ Hs).
  - apply list_elem_of_lookup. exists i. rewrite lookup_take_lt; [done|lia].
  - apply list_elem_of_lookup. exists (j - S i)%nat.
    rewrite lookup_drop. by replace (S i + (j - S i))%nat with j by lia.
Qed.

Lemma StronglySorted_impl {A} (R R' : relation A) l :
  (∀ x y, R x y → R' x y) → StronglySorted R l → StronglySorted R' l.
Proof.
  intros HR Hs. rewrite <- (list_fmap_id l). by eapply StronglySorted_fmap_in; [|exact Hs]; auto.
Qed.

(** A sort by distinct keys has one result, whatever the order compares
    elsewhere. *)
Lemma SliceStable_by {A} (less : A → A → bool) (f : A → Z) l h :
  (∀ x y, x ∈ h → y ∈ h → less x y = (f x <? f y)) → l ≡ₚ h → StronglySorted (λ a b, f a < f b) h → SliceStable less l = h.
Proof.
  intros Hless Hp Hh. assert (SliceStable less l = SliceStable (λ x y, f x <? f y) l) as ->.
  { assert (∀ x k, x ∈ h → k ⊆ h → stable_insert less x k = stable_insert (λ x y, f x <? f y) x k) as Hins.
    { intros x k Hx. induction k as [|y k IH]; intros Hk; simpl; [done|]. rewrite Hless by set_solver. case_match; [|done].
      f_equal. apply IH. set_solver. }
    assert (l ⊆ h) as Hl by (intros x Hx; by rewrite <- Hp). clear Hp. induction l as [|x l IH]; simpl; [done|].
    rewrite IH by set_solver. apply Hins; [set_solver|]. intros y. rewrite SliceStable_perm. set_solver. }
  apply (StronglySorted_unique_strong (not_after (λ x y, f x <? f y))).
  - intros x y Hx Hy. unfold not_after. rewrite !Z.ltb_ge. intros. rewrite SliceStable_perm, Hp in Hx.
    apply list_elem_of_lookup in Hx as [i Hi], Hy as [j Hj]. destruct (Nat.lt_trichotomy i j) as [Hij|[->|Hij]].
    + pose proof (StronglySorted_lookup_lt _ _ _ _ _ _ Hh Hi Hj Hij). simpl in *. lia.
    + congruence.
    + pose proof (StronglySorted_lookup_lt _ _ _ _ _ _ Hh Hj Hi Hij). simpl in *. lia.
  - apply SliceStable_sorted; unfold not_after; intros *; rewrite ?Z.ltb_ge, ?Z.ltb_lt; lia.
  - eapply StronglySorted_impl; [|exact Hh]. unfold not_after. simpl. intros x y. rewrite Z.ltb_ge. lia.
  - by rewrite SliceStable_perm.
Qed.

Lemma StronglySorted_rev_flip {A} (R : relation A) l : StronglySorted (flip R) l → StronglySorted R (rev l).
Proof.
  induction 1 as [|x l Hl IH Hx]; simpl; [constructor|]. rewrite Forall_forall in Hx.
  apply StronglySorted_app_2; [|done|by repeat constructor].
  intros a b Ha ->%list_elem_of_singleton. apply Hx. by rewrite Permutation_rev.
Qed.

(** A strict order on a projection is a strict order. *)
#[global] Instance strict_on {A B} (R : relation B) (f : A → B) `{!StrictOrder R} :
  StrictOrder (λ x y, R (f x) (f y)).
Proof. split; [intros x; apply (irreflexivity R)|intros x y z; apply (transitivity (R:=R))]. Qed.

(** In strict order every element occurs once. *)
Lemma StronglySorted_split {A} (R : relation A) `{!StrictOrder R} l x k :
  StronglySorted R (l ++ x :: k) → x ∉ l ++ k ∧ StronglySorted R (l ++ k) ∧
  Forall (λ y, R y x) l ∧ Forall (R x) k.
Proof.
  induction l as [|y l IH]; simpl; intros [Hf Hs]%StronglySorted_cons.
  - split; [|done]. intros Hx. rewrite Forall_forall in Hf. by destruct (irreflexivity R x); auto.
  - destruct (IH Hs) as (Hx & Hs' & Hl & Hk). apply Forall_app in Hf as [Hf1 [Hyx Hf2]%Forall_cons].
    split; [|split; [|split; [by constructor|done]]].
    + rewrite not_elem_of_cons. split; [|done]. intros ->. by destruct (irreflexivity R y).
    + constructor; [done|]. by apply Forall_app.
Qed.

Lemma length_omap_le {A B} (f : A → option B) l : (length (omap f l) ≤ length l)%nat.
Proof. induction l as [|x l IH]; csimpl; [done|]. destruct (f x); simpl; lia. Qed.

(** Distinct numbers below a bound are no more than the bound. *)
Lemma StronglySorted_bounded_length (l : list Z) n :
  0 ≤ n → StronglySorted Z.lt l → Forall (λ z, 0 ≤ z < n) l → Z.of_nat (length l) ≤ n.
Proof.
  assert (∀ lo, StronglySorted Z.lt l → Forall (λ z, lo ≤ z < n) l → lo ≤ n →
            Z.of_nat (length l) ≤ n - lo) as H.
  { induction l as [|x l IH]; intros lo Hs Hf Hlo; simpl; [lia|].
    apply StronglySorted_cons in Hs as [Hx Hs]. apply Forall_cons in Hf as [Hb Hf].
    specialize (IH (x + 1) Hs). rewrite Forall_forall in Hx, Hf.
    assert (Forall (λ z, x + 1 ≤ z < n) l) as Hf'.
    { apply Forall_forall. intros z Hz. specialize (Hx z Hz). specialize (Hf z Hz). simpl in Hf. lia. }
    specialize (IH Hf' ltac:(lia)). lia. }
  intros Hn Hs Hf. specialize (H 0 Hs Hf Hn). lia.
Qed.

Lemma StronglySorted_lt_NoDup (l : list Z) : StronglySorted Z.lt l → NoDup l.
Proof.
  induction 1 as [|x l Hl IH Hx]; constructor; [|done].
  intros Hin. rewrite Forall_forall in Hx. specialize (Hx _ Hin). lia.
Qed.

(** A loop over the indices of a list that changes each element in place. *)
Lemma foldl_alter_seq {A} (f : A → A) (l1 l2 : list A) :
  foldl (λ l i, alter f i l) (l1 ++ l2) (seq (length l1) (length l2)) = l1 ++ (f <$> l2).
Proof.
  revert l1. induction l2 as [|x l2 IH]; intros l1; simpl; [done|].
  rewrite <- (Nat.add_0_r (length l1)) at 1. rewrite alter_app_r. simpl.
  specialize (IH (l1 ++ [f x])). rewrite length_app, <- !app_assoc in IH. simpl in IH.
  by rewrite Nat.add_comm in IH.
Qed.

Lemma list_alter_same {A} (f : A → A) (l : list A) (i : nat) :
  (∀ x, l !! i = Some x → f x = x) → alter f i l = l.
Proof.
  intros H. transitivity (alter id i l); [by apply list_alter_ext|by apply list_alter_id].
Qed.

(** ** Sums over a list *)

Definition b2z (b : bool) : Z := if b then 1 else 0.

Section Total.
Context {A : Type}.
Implicit Types (f g : A → Z) (l : list A).

Fixpoint total f l : Z := match l with [] => 0 | x :: l => f x + total f l end.

Lemma total_app f l k : total f (l ++ k) = total f l + total f k.
Proof. induction l as [|x l IH]; cbn; [done|]. rewrite IH. lia. Qed.

#[global] Instance total_perm f : Proper ((≡ₚ) ==> eq) (total f).
Proof. induction 1; cbn; lia. Qed.

Lemma total_nonneg f l : (∀ x, 0 ≤ f x) → 0 ≤ total f l.
Proof. intros Hf. induction l as [|x l IH]; cbn; [done|]. specialize (Hf x). lia. Qed.

Lemma total_ext f g l : (∀ x, x ∈ l → f x = g x) → total f l = total g l.
Proof.
  induction l as [|x l IH]; cbn; intros Hfg; [done|]. rewrite Hfg by left. rewrite IH; [done|]. intros y Hy. apply Hfg. by right.
Qed.

Lemma total_zero f l : (∀ x, x ∈ l → f x = 0) → total f l = 0.
Proof. intros Hf. rewrite (total_ext f (λ _, 0)) by done. clear. by induction l. Qed.

Lemma total_zero_elem f l x : (∀ x, 0 ≤ f x) → total f l = 0 → x ∈ l → f x = 0.
Proof.
  intros Hf. induction l as [|y l IH]; cbn; [by intros _ ?%elem_of_nil|]. intros E [->|Hx]%elem_of_cons;
    pose proof (total_nonneg f l Hf); [specialize (Hf y)|specialize (Hf y); apply IH; [|done]]; lia.
Qed.

Lemma total_positive f l : 0 < total f l → ∃ x, x ∈ l ∧ 0 < f x.
Proof.
  induction l as [|x l IH]; cbn; [lia|]. intros H. destruct (Z.ltb_spec 0 (f x)); [exists x; split; [left|done]|].
  destruct IH as (y & ? & ?); [lia|]. exists y. split; [by right|done].
Qed.

(** Replacing one element changes a sum by the difference. *)
Lemma total_insert f l k x y : l !! k = Some x → total f (<[k:=y]> l) = total f l - f x + f y.
Proof.
  revert k. induction l as [|z l IH]; intros [|k]; cbn; [done|done|intros [= ->]; lia|]. intros Hk.
  change (f z + total f (<[k:=y]> l) = f z + total f l - f x + f y). rewrite (IH _ Hk). lia.
Qed.
End Total.

Lemma total_map {A B} (f : B → Z) (g : A → B) l : total f (map g l) = total (λ x, f (g x)) l.
Proof. induction l as [|x l IH]; cbn; [done|]. by rewrite IH. Qed.

(** ** Filters that keep everything, or nothing *)

Lemma filter_all {A} (P : A → Prop) `{!∀ x, Decision (P x)} l : Forall P l → filter P l = l.
Proof. induction 1; simpl; [done|]. rewrite filter_cons, decide_True by done. by f_equal. Qed.

Lemma filter_none {A} (P : A → Prop) `{!∀ x, Decision (P x)} l : Forall (λ x, ¬ P x) l → filter P l = [].
Proof. induction 1; simpl; [done|]. by rewrite filter_cons, decide_False by done. Qed.

(** Tests of all and of some element do not depend on the order of a list. *)
#[global] Instance forallb_perm {A} (f : A → bool) : Proper ((≡ₚ) ==> eq) (forallb f).
Proof. intros l l' Hl. apply eq_true_iff_eq. rewrite !forallb_forall. by setoid_rewrite <- list_elem_of_In; setoid_rewrite Hl. Qed.

#[global] Instance existsb_perm {A} (f : A → bool) : Proper ((≡ₚ) ==> eq) (existsb f).
Proof. intros l l' Hl. apply eq_true_iff_eq. rewrite !existsb_exists. by setoid_rewrite <- list_elem_of_In; setoid_rewrite Hl. Qed.

Lemma existsb_elem {A} (f : A → bool) l : existsb f l = true ↔ ∃ x, x ∈ l ∧ f x = true.
Proof. rewrite existsb_exists. by setoid_rewrite list_elem_of_In. Qed.

Lemma forallb_elem {A} (f : A → bool) l : forallb f l = true ↔ ∀ x, x ∈ l → f x = true.
Proof. rewrite forallb_forall. by setoid_rewrite list_elem_of_In. Qed.

(** Entries that agree on a test, in the same order. *)
Lemma forallb_Forall2 {A B} (R : A → B → Prop) f g l l' :
  (∀ x y, R x y → f x = g y) → Forall2 R l l' → forallb f l = forallb g l'.
Proof. intros Hfg. induction 1 as [|x y l l' Hxy Hl IH]; [done|]. simpl. by rewrite (Hfg x y), IH. Qed.

Lemma existsb_Forall2 {A B} (R : A → B → Prop) f g l l' :
  (∀ x y, R x y → f x = g y) → Forall2 R l l' → existsb f l = existsb g l'.
Proof. intros Hfg. induction 1 as [|x y l l' Hxy Hl IH]; [done|]. simpl. by rewrite (Hfg x y), IH. Qed.

(** Filters agree where their predicates agree on the elements. *)
Lemma filter_ext_elem {A} (P Q : A → Prop) `{!∀ x, Decision (P x), !∀ x, Decision (Q x)} (l : list A) :
  (∀ x, x ∈ l → P x ↔ Q x) → filter P l = filter Q l.
Proof.
  induction l as [|x l IH]; intros Hl; [done|]. rewrite !filter_cons, IH by (intros; apply Hl; by right).
  by rewrite (decide_ext _ _ _ _ (Hl x (list_elem_of_here _ _))).
Qed.

(** ** Sorted strings: [sort.Strings] *)

Lemma sorted_strict (l : list string) : StronglySorted (not_after sltb) l → NoDup l → StronglySorted slt l.
Proof.
  induction 1 as [|x l Hl IH Hx]; [constructor|]. intros [Hn Hnd]%NoDup_cons. constructor; [auto|].
  rewrite Forall_forall in *. intros y Hy. specialize (Hx y Hy). apply sltb_false in Hx as [->|?]; done.
Qed.

Lemma sltb_asym a b : sltb a b = true → sltb b a = false.
Proof. intros H%sltb_slt. apply sltb_false. by right. Qed.

Lemma not_after_sltb_trans a b c : not_after sltb a b → not_after sltb b c → not_after sltb a c.
Proof.
  unfold not_after. rewrite !sltb_false. intros [->|H1] [->|H2]; auto. right. by transitivity b.
Qed.

(** Distinct strings sort into strict order. *)
Lemma sort_strings_strict (l : list string) : NoDup l → StronglySorted slt (SliceStable sltb l).
Proof.
  intros Hn. apply sorted_strict; [apply SliceStable_sorted; [apply sltb_asym|apply not_after_sltb_trans]|by rewrite SliceStable_perm].
Qed.
