(* ===== verification/Store.v ===== *)
(** * The typed key-value store ([sim/state.go], [sim/ordered_ids.go],
    [sim/state_prune.go], [sim/index.go])

    [Store] is the Go interface [Store[T]] as a type class of operations and
    [StoreSpec] what every implementation promises its clients, stated over
    the finite map the store holds. [MemoryStore] is the in-memory
    implementation, its sorted id list included, and discharges the interface.
    Stored values are immutable in the model, so [cloneStoreValue] is the
    identity. The last part is the process-wide generation counter and the
    index that trusts it. *)

From S2P Require Import Prelude.

(** ** The interface *)

(** The zero value a Go type's variables start from. *)
Class GoZero (T : Type) := zero : T.
#[global] Hint Mode GoZero ! : typeclass_instances.
#[global] Instance GoZero_Z : GoZero Z := 0.
#[global] Instance GoZero_string : GoZero string := "".
#[global] Instance GoZero_bool : GoZero bool := false.

Class Store (S T : Type) := {
  store_get : S → string → option T;
  store_put : S → string → T → S;
  store_delete : S → string → S * bool;
  store_list : S → list T;
  store_list_prefix : S → string → list (string * T);
  store_len : S → nat;
  store_update : S → string → (T → T) → S * bool;
  store_upsert : S → string → (T → T) → S;
  store_prune : S → (T → bool) → S * nat;
}.

(** A listing is the rows of a map whose ids begin with a prefix, in id
    order. *)
Definition prefix_listing {T} (m : gmap string T) (p : string) (l : list (string * T)) : Prop :=
  StronglySorted slt (l.*1) ∧
  ∀ k v, (k, v) ∈ l ↔ m !! k = Some v ∧ HasPrefix k p = true.

Class StoreSpec (S T : Type) `{Store S T, GoZero T} := {
  contents : S → gmap string T;
  store_ok : S → Prop;
  get_spec s k : store_ok s → store_get s k = contents s !! k;
  put_spec s k v : store_ok s →
    store_ok (store_put s k v) ∧ contents (store_put s k v) = <[k:=v]> (contents s);
  delete_spec s k : store_ok s →
    store_ok (store_delete s k).1 ∧
    contents (store_delete s k).1 = delete k (contents s) ∧
    (store_delete s k).2 = bool_decide (is_Some (contents s !! k));
  list_spec s : store_ok s → store_list s ≡ₚ (map_to_list (contents s)).*2;
  list_prefix_spec s p : store_ok s → prefix_listing (contents s) p (store_list_prefix s p);
  len_spec s : store_ok s → store_len s = size (contents s);
  update_spec s k f : store_ok s →
    store_ok (store_update s k f).1 ∧
    contents (store_update s k f).1 = alter f k (contents s) ∧
    (store_update s k f).2 = bool_decide (is_Some (contents s !! k));
  upsert_spec s k f : store_ok s →
    store_ok (store_upsert s k f) ∧
    contents (store_upsert s k f) = <[k:=f (default zero (contents s !! k))]> (contents s);
  prune_spec s f : store_ok s →
    store_ok (store_prune s f).1 ∧
    contents (store_prune s f).1 = filter (λ kv, f kv.2 = false) (contents s) ∧
    (store_prune s f).2 = size (filter (λ kv, f kv.2 = true) (contents s));
}.

(** ** Sorted ids ([orderedIDs]) *)

(** [sort.SearchStrings]: the least index whose string is not below [x]. *)
Definition SearchStrings (ids : list string) (x : string) : nat :=
  Search (length ids) (λ i, negb (sltb (ids !!! i) x)).

Definition orderedIDs_add (ids : list string) (id : string) : list string :=
  let i := SearchStrings ids id in
  if bool_decide (ids !! i = Some id) then ids
  else take i ids ++ id :: drop i ids.

Definition orderedIDs_remove (ids : list string) (id : string) : list string :=
  let i := SearchStrings ids id in
  if bool_decide (ids !! i = Some id) then take i ids ++ drop (S i) ids
  else ids.

(** The run of ids with the prefix that starts at the search's index. *)
Fixpoint prefix_run_of (p : string) (ids : list string) : list string :=
  match ids with
  | id :: ids' => if HasPrefix id p then id :: prefix_run_of p ids' else []
  | [] => []
  end.

Definition orderedIDs_withPrefix (ids : list string) (p : string) : list string :=
  prefix_run_of p (drop (SearchStrings ids p) ids).

Abbreviation ids_sorted := (StronglySorted slt).

Lemma SearchStrings_spec ids x :
  ids_sorted ids →
  let i := SearchStrings ids x in
  (i ≤ length ids)%nat ∧ Forall (λ a, slt a x) (take i ids) ∧
  Forall (λ a, sltb a x = false) (drop i ids).
Proof.
  intros Hs. unfold SearchStrings.
  destruct (Search_spec (length ids) (λ i, negb (sltb (ids !!! i) x))) as (Hle & Hlo & Hhi).
  { intros i j Hij Hi. bools. apply negb_true_iff. apply sltb_false in Hi. apply sltb_false.
    destruct (decide (i = j)) as [->|]; [done|].
    destruct (lookup_lt_is_Some_2 ids i) as [a Ha]; [lia|].
    destruct (lookup_lt_is_Some_2 ids j) as [b Hb]; [lia|].
    rewrite (list_lookup_total_correct _ _ _ Ha) in Hi.
    rewrite (list_lookup_total_correct _ _ _ Hb).
    assert (slt a b) as Hab by (eapply (StronglySorted_lookup_lt slt ids); eauto with lia).
    right. destruct Hi as [->|Hi]; [done|by etrans]. }
  split; [done|]. split; apply Forall_lookup; intros k a Hk.
  - apply lookup_take_Some in Hk as [Hk Hlt]. specialize (Hlo k Hlt). bools.
    rewrite (list_lookup_total_correct _ _ _ Hk) in Hlo. by apply sltb_slt.
  - rewrite lookup_drop in Hk. pose proof (lookup_lt_Some _ _ _ Hk).
    specialize (Hhi _ (conj (Nat.le_add_r _ k) H)). bools.
    by rewrite (list_lookup_total_correct _ _ _ Hk) in Hhi.
Qed.

(** Splits a sorted id list at an id: what is below it, the id itself when it
    is there, and what is above. *)
Lemma SearchStrings_split ids x :
  ids_sorted ids →
  let i := SearchStrings ids x in
  ∃ lo hi, ids = lo ++ (if bool_decide (ids !! i = Some x) then [x] else []) ++ hi ∧
    i = length lo ∧ Forall (λ a, slt a x) lo ∧ Forall (λ a, slt x a) hi.
Proof.
  intros Hs i. destruct (SearchStrings_spec ids x Hs) as (Hle & Hlo & Hhi). fold i in Hle, Hlo, Hhi.
  assert (length (take i ids) = i) as Hl by (rewrite length_take; lia).
  pose proof (eq_sym (take_drop i ids)) as Hids.
  exists (take i ids). destruct (drop i ids) as [|y hi] eqn:E.
  - exists []. rewrite bool_decide_eq_false_2.
    + auto.
    + intros Hx%lookup_lt_Some. apply (f_equal length) in E. rewrite length_drop in E. simpl in E. lia.
  - assert (ids !! i = Some y) as Hy.
    { rewrite <- (Nat.add_0_r i), <- lookup_drop, E. done. }
    apply Forall_cons in Hhi as [Hyx Hhi].
    assert (Forall (λ a, slt y a) hi) as Hyhi.
    { rewrite <- (take_drop i ids), E in Hs. apply StronglySorted_app_1_r in Hs.
      by apply StronglySorted_cons in Hs as [? _]. }
    apply sltb_false in Hyx as [->|Hxy].
    + exists hi. rewrite bool_decide_eq_true_2 by done. auto.
    + exists (y :: hi). rewrite bool_decide_eq_false_2.
      * repeat split; auto.
        constructor; [done|]. eapply Forall_impl; [exact Hyhi|]. intros a Ha. by etrans.
      * rewrite Hy. intros ?. simplify_eq. by apply slt_irrefl in Hxy.
Qed.

Lemma sorted_glue lo x hi :
  ids_sorted (lo ++ hi) → Forall (λ a, slt a x) lo → Forall (λ a, slt x a) hi →
  ids_sorted (lo ++ x :: hi).
Proof.
  intros (Hc & Hl & Hh)%StronglySorted_app Hlo Hhi. apply StronglySorted_app.
  rewrite Forall_forall in Hlo.
  split; [|split; [done|by constructor]].
  intros a b Ha [->|Hb]%elem_of_cons; auto.
Qed.

Lemma orderedIDs_add_spec ids id :
  ids_sorted ids →
  ids_sorted (orderedIDs_add ids id) ∧
  ∀ x, x ∈ orderedIDs_add ids id ↔ x = id ∨ x ∈ ids.
Proof.
  intros Hs. unfold orderedIDs_add.
  destruct (SearchStrings_split ids id Hs) as (lo & hi & Hids & Hi & Hlo & Hhi).
  case_bool_decide as Hx.
  - split; [done|]. intros x. apply list_elem_of_lookup_2 in Hx. set_solver.
  - rewrite Hi. simpl in Hids. rewrite Hids in *.
    rewrite take_app_length, drop_app_length. split; [by apply sorted_glue|set_solver].
Qed.

Lemma orderedIDs_remove_spec ids id :
  ids_sorted ids →
  ids_sorted (orderedIDs_remove ids id) ∧
  ∀ x, x ∈ orderedIDs_remove ids id ↔ x ≠ id ∧ x ∈ ids.
Proof.
  intros Hs. unfold orderedIDs_remove.
  destruct (SearchStrings_split ids id Hs) as (lo & hi & Hids & Hi & Hlo & Hhi).
  rewrite Forall_forall in Hlo, Hhi.
  assert (id ∉ lo ∧ id ∉ hi) as [Hnl Hnh].
  { split; intros H; [apply Hlo in H|apply Hhi in H]; by apply slt_irrefl in H. }
  case_bool_decide as Hx.
  - rewrite Hi. rewrite Hids in *. rewrite take_app_length.
    replace (drop (S (length lo)) (lo ++ [id] ++ hi)) with hi
      by (rewrite drop_app_ge by lia; by rewrite Nat.sub_succ_l, Nat.sub_diag by lia).
    split; [|set_solver].
    apply StronglySorted_app in Hs as (Hc & ? & (_ & _ & ?)%StronglySorted_app).
    apply StronglySorted_app. repeat split; [|done..]. intros. apply Hc; set_solver.
  - split; [done|]. simpl in Hids. rewrite Hids in *. set_solver.
Qed.

Lemma prefix_run_of_elem p ids x :
  ids_sorted ids → Forall (λ a, sltb a p = false) ids →
  x ∈ prefix_run_of p ids ↔ x ∈ ids ∧ HasPrefix x p = true.
Proof.
  induction 1 as [|a ids Hs IH Ha]; intros Hp; simpl; [set_solver|].
  apply Forall_cons in Hp as [Hap Hp]. destruct (HasPrefix a p) eqn:E.
  - rewrite !elem_of_cons, (IH Hp). naive_solver.
  - split; [set_solver|]. intros [[->|Hx]%elem_of_cons Hpx]; [congruence|].
    rewrite Forall_forall in Ha. pose proof (prefix_run p a x E Hap Hpx) as Hxa.
    destruct (slt_irrefl a). etrans; [by apply Ha|done].
Qed.

Lemma prefix_run_of_sorted p ids : ids_sorted ids → ids_sorted (prefix_run_of p ids).
Proof.
  assert (∀ x l, x ∈ prefix_run_of p l → x ∈ l) as Hsub.
  { intros x l. induction l as [|a l IHl]; simpl; [done|]. destruct (HasPrefix a p); set_solver. }
  induction 1 as [|a ids Hs IH Ha]; simpl; [constructor|].
  destruct (HasPrefix a p); [|constructor]. constructor; [done|].
  rewrite Forall_forall in *. auto.
Qed.

Lemma orderedIDs_withPrefix_spec ids p :
  ids_sorted ids →
  ids_sorted (orderedIDs_withPrefix ids p) ∧
  ∀ x, x ∈ orderedIDs_withPrefix ids p ↔ x ∈ ids ∧ HasPrefix x p = true.
Proof.
  intros Hs. destruct (SearchStrings_spec ids p Hs) as (_ & Hlo & Hhi).
  assert (ids_sorted (drop (SearchStrings ids p) ids)) as Hd.
  { rewrite <- (take_drop (SearchStrings ids p) ids) in Hs. by eapply StronglySorted_app_1_r. }
  split; [by apply prefix_run_of_sorted|]. intros x. unfold orderedIDs_withPrefix.
  rewrite prefix_run_of_elem by done.
  rewrite <- (take_drop (SearchStrings ids p) ids) at 3. rewrite elem_of_app.
  split; [naive_solver|]. intros [[Hx|Hx] Hp]; [|done].
  rewrite Forall_forall in Hlo. apply Hlo in Hx. apply HasPrefix_le in Hp.
  apply sltb_slt in Hx. congruence.
Qed.

(** ** The in-memory store *)

Record MemoryStore (T : Type) := mkMemoryStore {
  ms_items : gmap string T;
  ms_order : list string;
  ms_generation : Z;
}.
Arguments mkMemoryStore {T} _ _ _.
Arguments ms_items {T} _.
Arguments ms_order {T} _.
Arguments ms_generation {T} _.

(** [storeGenerations.Add(1)]: the counter's new value is the generation. *)
Definition nextStoreGeneration (counter : Z) : Z := u64 (counter + 1).

Section MemoryStore.
Context {T : Type} `{!GoZero T}.
Implicit Types (s : MemoryStore T) (c : Z).

(** Every operation that may write takes the process-wide counter and
    returns it. *)
Definition NewStateStore (c : Z) : Z * MemoryStore T :=
  let c := nextStoreGeneration c in (c, mkMemoryStore ∅ [] c).

Definition MemoryStore_Get s (id : string) : option T := ms_items s !! id.

Definition MemoryStore_Put c s (id : string) (item : T) : Z * MemoryStore T :=
  let c := nextStoreGeneration c in
  (c, mkMemoryStore (<[id:=item]> (ms_items s)) (orderedIDs_add (ms_order s) id) c).

Definition MemoryStore_Delete c s (id : string) : (Z * MemoryStore T) * bool :=
  match ms_items s !! id with
  | Some _ =>
      let c := nextStoreGeneration c in
      ((c, mkMemoryStore (delete id (ms_items s)) (orderedIDs_remove (ms_order s) id) c), true)
  | None => ((c, s), false)
  end.

(** Go ranges over a map in no particular order; [map_to_list] is one. *)
Definition MemoryStore_List s : list T := (map_to_list (ms_items s)).*2.

Definition MemoryStore_Filter s (fn : T → bool) : list T :=
  filter (λ v, fn v = true) (MemoryStore_List s).

Definition snapshotPrefix (items : gmap string T) (order : list string) (prefix : string)
  : list (string * T) :=
  (λ id, (id, default zero (items !! id))) <$> orderedIDs_withPrefix order prefix.

Definition MemoryStore_ListPrefix s (prefix : string) : list (string * T) :=
  snapshotPrefix (ms_items s) (ms_order s) prefix.

Definition MemoryStore_Len s : nat := size (ms_items s).

Definition MemoryStore_Update c s (id : string) (fn : T → T) : (Z * MemoryStore T) * bool :=
  match ms_items s !! id with
  | None => ((c, s), false)
  | Some v =>
      let c := nextStoreGeneration c in
      ((c, mkMemoryStore (<[id:=fn v]> (ms_items s)) (ms_order s) c), true)
  end.

Definition MemoryStore_Upsert c s (id : string) (fn : T → T) : Z * MemoryStore T :=
  let v := default zero (ms_items s !! id) in
  let c := nextStoreGeneration c in
  (c, mkMemoryStore (<[id:=fn v]> (ms_items s)) (orderedIDs_add (ms_order s) id) c).

Definition MemoryStore_Prune c s (expired : T → bool) : (Z * MemoryStore T) * nat :=
  let doomed := (map_to_list (filter (λ kv, expired kv.2 = true) (ms_items s))).*1 in
  let items := foldr delete (ms_items s) doomed in
  let order := foldl orderedIDs_remove (ms_order s) doomed in
  let pruned := length doomed in
  if (0 <? pruned)%nat then
    let c := nextStoreGeneration c in ((c, mkMemoryStore items order c), pruned)
  else ((c, mkMemoryStore items order (ms_generation s)), pruned).

(** The id list is sorted and lists exactly the stored ids. *)
Definition MemoryStore_wf s : Prop :=
  ids_sorted (ms_order s) ∧ ∀ k, k ∈ ms_order s ↔ is_Some (ms_items s !! k).

Lemma NewStateStore_wf c : MemoryStore_wf (NewStateStore c).2.
Proof.
  split; simpl; [constructor|]. intros k. rewrite lookup_empty.
  split; [set_solver|by intros [? ?]].
Qed.

Lemma Put_wf c s id item : MemoryStore_wf s → MemoryStore_wf (MemoryStore_Put c s id item).2.
Proof.
  intros [Hs Hd]. destruct (orderedIDs_add_spec (ms_order s) id Hs) as [Hs' He].
  split; [done|]. intros k. simpl. rewrite He, Hd, lookup_insert_is_Some.
  destruct (decide (id = k)); naive_solver.
Qed.

Lemma Delete_wf c s id : MemoryStore_wf s → MemoryStore_wf (MemoryStore_Delete c s id).1.2.
Proof.
  intros [Hs Hd]. unfold MemoryStore_Delete. destruct (ms_items s !! id); [|done].
  destruct (orderedIDs_remove_spec (ms_order s) id Hs) as [Hs' He].
  split; [done|]. intros k. simpl. rewrite He, Hd, lookup_delete_is_Some. naive_solver.
Qed.

Lemma Update_wf c s id fn : MemoryStore_wf s → MemoryStore_wf (MemoryStore_Update c s id fn).1.2.
Proof.
  intros [Hs Hd]. unfold MemoryStore_Update. destruct (ms_items s !! id) eqn:E; [|done].
  split; [done|]. intros k. simpl. rewrite Hd, lookup_insert_is_Some.
  destruct (decide (id = k)) as [->|]; [rewrite E|]; naive_solver.
Qed.

Lemma Upsert_wf c s id fn : MemoryStore_wf s → MemoryStore_wf (MemoryStore_Upsert c s id fn).2.
Proof. intros. by apply (Put_wf c s id (fn (default zero (ms_items s !! id)))). Qed.

Lemma foldl_remove_spec doomed ids :
  ids_sorted ids →
  ids_sorted (foldl orderedIDs_remove ids doomed) ∧
  ∀ x, x ∈ foldl orderedIDs_remove ids doomed ↔ x ∉ doomed ∧ x ∈ ids.
Proof.
  revert ids. induction doomed as [|d doomed IH]; intros ids Hs; simpl; [set_solver|].
  destruct (orderedIDs_remove_spec ids d Hs) as [Hs' He].
  destruct (IH _ Hs') as [Hs'' He']. split; [done|]. intros x.
  rewrite He', He. set_solver.
Qed.

Lemma prune_doomed s expired k :
  k ∈ (map_to_list (filter (λ kv, expired kv.2 = true) (ms_items s))).*1 ↔
  ∃ v, ms_items s !! k = Some v ∧ expired v = true.
Proof.
  rewrite list_elem_of_fmap. split.
  - intros [[k' v] [-> Hv%elem_of_map_to_list]]. apply map_lookup_filter_Some in Hv. eauto.
  - intros (v & Hv & He). exists (k, v). split; [done|].
    apply elem_of_map_to_list, map_lookup_filter_Some. done.
Qed.

Lemma prune_items s expired :
  foldr delete (ms_items s) (map_to_list (filter (λ kv, expired kv.2 = true) (ms_items s))).*1
  = filter (λ kv, expired kv.2 = false) (ms_items s).
Proof.
  apply map_eq. intros k. apply option_eq. intros v.
  rewrite lookup_foldr_delete_Some, prune_doomed, map_lookup_filter_Some. simpl.
  split; intros [H1 H2].
  - split; [done|]. destruct (expired v) eqn:E; [|done]. destruct H1. eauto.
  - split; [|done]. intros (v' & Hv' & E). simplify_eq. congruence.
Qed.

Lemma Prune_items c s expired :
  ms_items (MemoryStore_Prune c s expired).1.2 = filter (λ kv, expired kv.2 = false) (ms_items s).
Proof. unfold MemoryStore_Prune. rewrite prune_items. cbv zeta. by case_goal. Qed.

Lemma Prune_wf c s expired :
  MemoryStore_wf s → MemoryStore_wf (MemoryStore_Prune c s expired).1.2.
Proof.
  intros [Hs Hd]. set (doomed := (map_to_list (filter (λ kv, expired kv.2 = true) (ms_items s))).*1).
  destruct (foldl_remove_spec doomed _ Hs) as [Hs' He].
  assert (ms_order (MemoryStore_Prune c s expired).1.2 = foldl orderedIDs_remove (ms_order s) doomed)
    as Ho by (unfold MemoryStore_Prune; cbv zeta; by case_goal).
  split; rewrite Ho; [done|]. intros k. rewrite He, Hd, Prune_items. unfold doomed.
  rewrite prune_doomed. split.
  - intros [Hn [v Hv]]. exists v. apply map_lookup_filter_Some. split; [done|]. simpl.
    destruct (expired v) eqn:E; [|done]. destruct Hn. eauto.
  - intros [v [Hv Hf]%map_lookup_filter_Some]. split; [|eauto].
    intros (v' & Hv' & E). simplify_eq/=. congruence.
Qed.

Lemma ListPrefix_spec s p :
  MemoryStore_wf s → prefix_listing (ms_items s) p (MemoryStore_ListPrefix s p).
Proof.
  intros [Hs Hd]. destruct (orderedIDs_withPrefix_spec (ms_order s) p Hs) as [Hs' He].
  unfold prefix_listing, MemoryStore_ListPrefix, snapshotPrefix. split.
  - rewrite <- list_fmap_compose. erewrite list_fmap_ext; [by rewrite list_fmap_id|done].
  - intros k v. rewrite list_elem_of_fmap. split.
    + intros (id & [= -> ->] & [Hid Hp]%He). apply Hd in Hid as [w Hw].
      by rewrite Hw.
    + intros [Hk Hp]. exists k. rewrite Hk. split; [done|]. apply He.
      split; [apply Hd; eauto|done].
Qed.

(** The store a single owner runs: its state beside the counter it draws
    generations from. *)
#[global] Instance memory_store : Store (Z * MemoryStore T) T := {
  store_get w k := MemoryStore_Get w.2 k;
  store_put w k v := MemoryStore_Put w.1 w.2 k v;
  store_delete w k := MemoryStore_Delete w.1 w.2 k;
  store_list w := MemoryStore_List w.2;
  store_list_prefix w p := MemoryStore_ListPrefix w.2 p;
  store_len w := MemoryStore_Len w.2;
  store_update w k f := MemoryStore_Update w.1 w.2 k f;
  store_upsert w k f := MemoryStore_Upsert w.1 w.2 k f;
  store_prune w f := MemoryStore_Prune w.1 w.2 f;
}.

(** The in-memory store keeps every promise of the interface. *)
#[global, refine] Instance memory_store_spec : StoreSpec (Z * MemoryStore T) T := {
  contents w := ms_items w.2;
  store_ok w := MemoryStore_wf w.2;
}.
Proof.
  - done.
  - intros s k v Hs. split; [by apply Put_wf|done].
  - intros s k Hs. split; [by apply Delete_wf|].
    simpl. unfold MemoryStore_Delete. destruct (ms_items s.2 !! k) eqn:E; simpl; [done|].
    split; [by rewrite delete_id|done].
  - done.
  - intros s p Hs. by apply ListPrefix_spec.
  - done.
  - intros s k f Hs. split; [by apply Update_wf|].
    simpl. unfold MemoryStore_Update. destruct (ms_items s.2 !! k) as [v|] eqn:E; simpl.
    + split; [|done]. apply map_eq. intros j. rewrite lookup_insert, lookup_alter.
      destruct (decide (k = j)) as [<-|]; [by rewrite E|done].
    + split; [|done]. apply map_eq. intros j. rewrite lookup_alter.
      destruct (decide (k = j)) as [<-|]; [by rewrite E|done].
  - intros s k f Hs. split; [by apply Upsert_wf|done].
  - intros s f Hs. split; [by apply Prune_wf|]. split; [apply Prune_items|].
    unfold store_prune, memory_store, MemoryStore_Prune. cbv zeta.
    set (n := length _). assert (n = size (filter (λ kv, f kv.2 = true) (ms_items s.2))) as <-.
    { unfold n. by rewrite length_fmap, length_map_to_list. }
    by case_goal.
Defined.
End MemoryStore.

(** ** Generations

    Every store of the process draws its generations from one counter. A
    process is that counter and its stores; a step creates a store or runs one
    writing operation on one of them. *)
Section Generations.
Context {T : Type} `{!GoZero T}.

Inductive store_write :=
| WPut (id : string) (item : T)
| WDelete (id : string)
| WUpdate (id : string) (fn : T → T)
| WUpsert (id : string) (fn : T → T)
| WPrune (expired : T → bool).

Definition run_write (c : Z) (s : MemoryStore T) (w : store_write) : Z * MemoryStore T :=
  match w with
  | WPut id item => MemoryStore_Put c s id item
  | WDelete id => (MemoryStore_Delete c s id).1
  | WUpdate id fn => (MemoryStore_Update c s id fn).1
  | WUpsert id fn => MemoryStore_Upsert c s id fn
  | WPrune expired => (MemoryStore_Prune c s expired).1
  end.

Record process := mkProcess { p_counter : Z; p_stores : list (MemoryStore T) }.

Inductive process_step : process → process → Prop :=
| step_new c ss :
    process_step (mkProcess c ss)
      (mkProcess (NewStateStore (T:=T) c).1 (ss ++ [(NewStateStore c).2]))
| step_write c ss i s w :
    ss !! i = Some s →
    process_step (mkProcess c ss)
      (mkProcess (run_write c s w).1 (<[i:=(run_write c s w).2]> ss)).

Definition process_start : process := mkProcess 0 [].

(** A write either leaves the store and the counter alone or draws a new
    generation. *)
Lemma run_write_cases c s w :
  run_write c s w = (c, s) ∨
  ((run_write c s w).1 = nextStoreGeneration c ∧
   ms_generation (run_write c s w).2 = nextStoreGeneration c).
Proof.
  destruct w; simpl; try (right; done).
  - unfold MemoryStore_Delete. case_goal; [by right|by left].
  - unfold MemoryStore_Update. case_goal; [by right|by left].
  - unfold MemoryStore_Prune. cbv zeta. destruct (_ <? _)%nat eqn:E; [by right|left].
    apply Nat.ltb_ge, Nat.le_0_r, length_zero_iff_nil in E. rewrite E. by destruct s.
Qed.

Definition gens_ok (n : nat) (p : process) : Prop :=
  0 ≤ p_counter p ≤ Z.of_nat n ∧
  (∀ i s, p_stores p !! i = Some s → 0 < ms_generation s ≤ p_counter p) ∧
  ∀ i j s t, p_stores p !! i = Some s → p_stores p !! j = Some t →
    ms_generation s = ms_generation t → i = j.

(** What a step may do to the stores: each is one of the old ones in its
    place, or presents a generation above the old counter. *)
Definition gens_grow (p p' : process) : Prop :=
  p_counter p ≤ p_counter p' ∧
  ∀ i s, p_stores p' !! i = Some s →
    p_stores p !! i = Some s ∨ p_counter p < ms_generation s.

Lemma next_generation n c :
  0 ≤ c ≤ Z.of_nat n → Z.of_nat n < 2 ^ 64 - 1 → nextStoreGeneration c = c + 1.
Proof. intros. apply u64_id. unfold in_u64. lia. Qed.

Lemma process_step_gens n p p' :
  Z.of_nat n < 2 ^ 64 - 1 → gens_ok n p → process_step p p' →
  gens_ok (S n) p' ∧ gens_grow p p'.
Proof.
  intros Hn Hok Hst. revert Hok. unfold gens_ok, gens_grow.
  destruct Hst as [c ss|c ss i s w Hi]; cbn -[Z.of_nat Z.pow] in *; intros (Hc & Hr & Hd).
  - rewrite (next_generation n c) by lia.
    split; [split; [lia|split]|split; [lia|]].
    + intros j s [Hj|[_ [_ <-]%list_lookup_singleton_Some]]%lookup_app_Some; simpl;
        [apply Hr in Hj|]; lia.
    + intros j k s t [Hj|[Hlj [Hj Ej]%list_lookup_singleton_Some]]%lookup_app_Some
        [Hk|[Hlk [Hk Ek]%list_lookup_singleton_Some]]%lookup_app_Some He; simpl in *.
      * by eapply Hd.
      * subst. simpl in He. apply Hr in Hj. lia.
      * subst. simpl in He. apply Hr in Hk. lia.
      * lia.
    + intros j s [Hj|[_ [_ <-]%list_lookup_singleton_Some]]%lookup_app_Some; [by left|].
      right. simpl. lia.
  - destruct (run_write_cases c s w) as [->|[E1 E2]].
    { simpl. rewrite list_insert_id by done. split; [|split; [lia|auto]].
      split; [lia|done]. }
    rewrite (next_generation n c) in * by lia. rewrite E1.
    assert (∀ j t, <[i:=(run_write c s w).2]> ss !! j = Some t →
      (j = i ∧ ms_generation t = c + 1) ∨ (j ≠ i ∧ ss !! j = Some t)) as Hins.
    { intros j t Hj. destruct (decide (i = j)) as [->|Hne].
      - apply list_lookup_insert_Some in Hj. left. naive_solver congruence.
      - rewrite list_lookup_insert_ne in Hj by done. auto. }
    split; [split; [lia|split]|split; [lia|]].
    + intros j t [[-> ?]|[? Hj]]%Hins; [lia|]. apply Hr in Hj. lia.
    + intros j k t u [[-> ?]|[? Hj]]%Hins [[-> ?]|[? Hk]]%Hins He; [done| | |by eapply Hd];
        [apply Hr in Hk|apply Hr in Hj]; lia.
    + intros j t [[-> ?]|[? Hj]]%Hins; [right; lia|by left].
Qed.

Lemma gens_grow_trans p q r : gens_grow p q → gens_grow q r → gens_grow p r.
Proof.
  intros [H1 H2] [H3 H4]. split; [lia|]. intros i s Hi.
  destruct (H4 i s Hi) as [Hq|]; [|right; lia]. apply H2 in Hq as [?|?]; auto.
Qed.

Lemma process_run_gens n k p p' :
  nsteps process_step k p p' → Z.of_nat (n + k) < 2 ^ 64 → gens_ok n p →
  gens_ok (n + k) p' ∧ gens_grow p p'.
Proof.
  intros Hs. revert n. induction Hs as [p|k p q r Hpq Hqr IH]; intros n Hb Hok.
  - rewrite Nat.add_0_r. split; [done|]. split; [lia|auto].
  - destruct (process_step_gens n p q) as [Hq Hg]; [lia|done..|].
    destruct (IH (S n)) as [Hr Hg']; [lia|done|].
    replace (n + S k)%nat with (S n + k)%nat by lia.
    split; [done|by eapply gens_grow_trans].
Qed.

Lemma process_start_ok : gens_ok 0 process_start.
Proof.
  split; [simpl; lia|]. split; simpl.
  - intros i s Hs. by rewrite lookup_nil in Hs.
  - intros i j s t Hs. by rewrite lookup_nil in Hs.
Qed.

(** Two stores of one execution, read at any two moments, that present the
    same generation are the same store with the same state. *)
Lemma generation_identifies n k p p' i j s t :
  nsteps process_step n process_start p → nsteps process_step k p p' →
  Z.of_nat (n + k) < 2 ^ 64 →
  p_stores p !! i = Some s → p_stores p' !! j = Some t →
  ms_generation s = ms_generation t → i = j ∧ s = t.
Proof.
  intros Hp Hp' Hb Hi Hj He.
  destruct (process_run_gens 0 n _ _ Hp) as [Hok _]; [lia|apply process_start_ok|].
  destruct (process_run_gens n k _ _ Hp') as [Hok' [_ Hg]]; [lia|done|].
  destruct Hok as (_ & Hr & Hd). destruct (Hg j t Hj) as [Hj'|Hlt].
  - assert (i = j) as -> by (by eapply Hd). split; [done|congruence].
  - apply Hr in Hi. lia.
Qed.
End Generations.

(** ** The generation index ([GenerationIndex]) *)
Section GenerationIndex.
Context {T : Type} `{!GoZero T} (keysOf : T → list string).

Record GenerationIndex := mkIndex {
  gi_generation : Z;
  gi_built : bool;
  gi_byKey : gmap string (list T);
}.

Definition add_key (row : T) (m : gmap string (list T)) (k : string) : gmap string (list T) :=
  if bool_decide (k = "") then m else <[k:=default [] (m !! k) ++ [row]]> m.

Definition add_row (m : gmap string (list T)) (row : T) : gmap string (list T) :=
  foldl (add_key row) m (keysOf row).

Definition build_index (rows : list T) : gmap string (list T) := foldl add_row ∅ rows.

(** [LookupAll]: the rows under [key], rebuilding the index when the
    store's generation moved. *)
Definition LookupAll (idx : GenerationIndex) (s : MemoryStore T) (key : string)
  : GenerationIndex * list T :=
  let generation := ms_generation s in
  let idx :=
    if gi_built idx && (gi_generation idx =? generation) then idx
    else mkIndex generation true (build_index (MemoryStore_List s)) in
  (idx, default [] (gi_byKey idx !! key)).

Definition Lookup (idx : GenerationIndex) (s : MemoryStore T) (key : string)
  : GenerationIndex * option T :=
  let '(idx, rows) := LookupAll idx s key in (idx, head rows).

Definition index_start : GenerationIndex := mkIndex 0 false ∅.

(** The rows a fresh scan of the listing finds under a key: one per
    occurrence of the key among the row's keys. *)
Definition rows_under (key : string) (rows : list T) : list T :=
  if bool_decide (key = "") then []
  else rows ≫= λ row, (λ _, row) <$> filter (λ k, k = key) (keysOf row).

Lemma add_keys_lookup row key ks m :
  default [] (foldl (add_key row) m ks !! key) =
  default [] (m !! key) ++
  (if bool_decide (key = "") then [] else (λ _, row) <$> filter (λ k, k = key) ks).
Proof.
  revert m. induction ks as [|k ks IH]; intros m; simpl.
  { case_bool_decide; by rewrite ?app_nil_r. }
  rewrite IH. unfold add_key. rewrite filter_cons.
  destruct (decide (k = key)) as [->|Hne].
  - case_bool_decide; [done|]. rewrite lookup_insert_eq. simpl. by rewrite <- app_assoc.
  - do 2 case_bool_decide; rewrite ?lookup_insert_ne by done; done.
Qed.

Lemma build_index_lookup key rows :
  default [] (build_index rows !! key) = rows_under key rows.
Proof.
  unfold build_index.
  assert (∀ m, default [] (foldl add_row m rows !! key)
               = default [] (m !! key) ++ rows_under key rows) as H.
  { induction rows as [|row rows IH]; intros m; simpl.
    - unfold rows_under. case_bool_decide; by rewrite ?app_nil_r.
    - rewrite IH. unfold add_row. rewrite add_keys_lookup, <- app_assoc. f_equal.
      unfold rows_under. by case_bool_decide. }
  rewrite H. by rewrite lookup_empty.
Qed.

(** What an index shared by an execution's lookups keeps true: whichever
    store presents its generation is the one it was built from. *)
Definition index_ok (p : process) (idx : GenerationIndex) : Prop :=
  gi_generation idx ≤ p_counter p ∧
  (gi_built idx = true → ∀ i s, p_stores p !! i = Some s →
    ms_generation s = gi_generation idx →
    gi_byKey idx = build_index (MemoryStore_List s)).

Lemma index_ok_step n p p' idx :
  Z.of_nat n < 2 ^ 64 - 1 → gens_ok n p → process_step p p' →
  index_ok p idx → index_ok p' idx.
Proof.
  intros Hn Hok Hst [Hc Hb]. destruct (process_step_gens n p p' Hn Hok Hst) as [_ [Hg Hgs]].
  split; [lia|]. intros Hbuilt i s Hi He.
  destruct (Hgs i s Hi) as [Hi'|Hlt]; [by eapply Hb|lia].
Qed.

Lemma index_ok_lookup n p idx i s key :
  gens_ok n p → p_stores p !! i = Some s → index_ok p idx →
  index_ok p (LookupAll idx s key).1 ∧
  (LookupAll idx s key).2 = rows_under key (MemoryStore_List s).
Proof.
  intros (Hc & Hr & Hd) Hi [Hle Hb]. unfold LookupAll. cbv zeta.
  destruct (gi_built idx && (gi_generation idx =? ms_generation s)) eqn:E; bools.
  - split; [by split|]. simpl. by rewrite (Hb H i s Hi), build_index_lookup.
  - split; [|apply build_index_lookup]. split; simpl; [apply Hr in Hi; lia|].
    intros _ j t Hj He. assert (j = i) as -> by (by eapply Hd). congruence.
Qed.

(** An execution of a process whose code looks rows up through one index:
    writes and lookups in any order. *)
Inductive index_step : process * GenerationIndex → process * GenerationIndex → Prop :=
| index_write p p' idx : process_step p p' → index_step (p, idx) (p', idx)
| index_read p idx i s key :
    p_stores p !! i = Some s → index_step (p, idx) (p, (LookupAll idx s key).1).

Lemma index_run n k p idx p' idx' :
  nsteps index_step k (p, idx) (p', idx') → Z.of_nat (n + k) < 2 ^ 64 →
  gens_ok n p → index_ok p idx → gens_ok (n + k) p' ∧ index_ok p' idx'.
Proof.
  intros Hs. remember (p, idx) as x. remember (p', idx') as y.
  revert n p idx Heqx p' idx' Heqy.
  induction Hs as [x|k x y z Hxy Hyz IH]; intros n p idx -> p' idx' Hy Hb Hok Hidx.
  { injection Hy as -> ->. by rewrite Nat.add_0_r. }
  replace (n + S k)%nat with (S n + k)%nat by lia. inversion Hxy; subst.
  - eapply IH; [done..|lia| |].
    + by eapply process_step_gens; [lia|..].
    + by eapply (index_ok_step n); [lia|..].
  - eapply IH; [done..|lia| |].
    + destruct Hok as (? & ? & ?). split; [lia|done].
    + by eapply index_ok_lookup.
Qed.
End GenerationIndex.

(** ** Properties *)

(** The finite map a sequence of writes builds. *)
Definition map_write {T} `{!GoZero T} (m : gmap string T) (w : store_write) : gmap string T :=
  match w with
  | WPut id item => <[id:=item]> m
  | WDelete id => delete id m
  | WUpdate id fn => alter fn id m
  | WUpsert id fn => <[id:=fn (default zero (m !! id))]> m
  | WPrune expired => filter (λ kv, expired kv.2 = false) m
  end.

Definition run_writes {T} `{!GoZero T} (cs : Z * MemoryStore T) (ws : list store_write)
  : Z * MemoryStore T :=
  foldl (λ cs w, run_write cs.1 cs.2 w) cs ws.

Lemma run_write_refines {T} `{!GoZero T} c (s : MemoryStore T) w :
  MemoryStore_wf s →
  MemoryStore_wf (run_write c s w).2 ∧
  ms_items (run_write c s w).2 = map_write (ms_items s) w.
Proof.
  intros Hs. destruct w as [id v|id|id fn|id fn|expired].
  - pose proof (put_spec (T:=T) (c, s) id v) as H. exact (H Hs).
  - pose proof (delete_spec (T:=T) (c, s) id) as H. destruct (H Hs) as (? & ? & _). done.
  - pose proof (update_spec (T:=T) (c, s) id fn) as H. destruct (H Hs) as (? & ? & _). done.
  - pose proof (upsert_spec (T:=T) (c, s) id fn) as H. exact (H Hs).
  - pose proof (prune_spec (T:=T) (c, s) expired) as H. destruct (H Hs) as (? & ? & _). done.
Qed.

Lemma run_writes_refines {T} `{!GoZero T} (cs : Z * MemoryStore T) ws :
  MemoryStore_wf cs.2 →
  MemoryStore_wf (run_writes cs ws).2 ∧
  ms_items (run_writes cs ws).2 = foldl map_write (ms_items cs.2) ws.
Proof.
  revert cs. induction ws as [|w ws IH]; intros [c s] Hs; [done|].
  destruct (run_write_refines c s w Hs) as [Hw He]. simpl in *.
  destruct (IH (run_write c s w) Hw) as [? ?]. by rewrite <- He.
Qed.

(** [C1] After any sequence of writes to a new in-memory store, the store
    answers as the finite map those writes build: [Get] looks an id up, [Len]
    counts the rows, and [ListPrefix] returns exactly the rows whose id has
    the prefix, in increasing id order. *)
Theorem memory_store_refines_map {T} `{!GoZero T} (c : Z) (ws : list (store_write (T:=T))) :
  let s := (run_writes (NewStateStore c) ws).2 in
  let m := foldl map_write ∅ ws in
  (∀ id, MemoryStore_Get s id = m !! id) ∧
  MemoryStore_Len s = size m ∧
  (∀ p, prefix_listing m p (MemoryStore_ListPrefix s p)).
Proof.
  destruct (run_writes_refines (NewStateStore (T:=T) c) ws (NewStateStore_wf c)) as [Hw He].
  change (ms_items (NewStateStore (T:=T) c).2) with (∅ : gmap string T) in He.
  cbv zeta. rewrite <- He. split; [done|]. split; [done|].
  intros p. by apply ListPrefix_spec.
Qed.

(** [C2] A lookup through a generation index answers what a full scan of the
    store would, however many writes, new stores and other lookups came
    before it, as long as the process drew fewer than 2^64 generations. *)
Theorem generation_index_fresh {T} `{!GoZero T} (keysOf : T → list string)
    (n : nat) (p : process) (idx : GenerationIndex) (i : nat) (s : MemoryStore T) (key : string) :
  nsteps (index_step keysOf) n (process_start, index_start) (p, idx) →
  Z.of_nat n < 2 ^ 64 →
  p_stores p !! i = Some s →
  (LookupAll keysOf idx s key).2 = rows_under keysOf key (MemoryStore_List s).
Proof.
  intros Hs Hn Hi.
  destruct (index_run keysOf 0 n _ _ _ _ Hs) as [Hok Hidx]; [lia|apply process_start_ok| |].
  - split; simpl; [lia|done].
  - by eapply index_ok_lookup.
Qed.

Definition witness_keys (v : Z) : list string := ["all"; if v <? 10 then "small" else "big"].

Lemma generation_index_fresh_witness :
  let s := (MemoryStore_Put 1 (NewStateStore (T:=Z) 0).2 "a" 5).2 in
  (LookupAll witness_keys (LookupAll witness_keys index_start s "all").1 s "small").2 = [5].
Proof.
  intros s.
  transitivity (rows_under witness_keys "small" (MemoryStore_List s)); [|reflexivity].
  apply (generation_index_fresh (T:=Z) witness_keys 3
    (mkProcess 2 [s]) (LookupAll witness_keys index_start s "all").1 0 s "small");
    [|reflexivity|reflexivity].
  eapply nsteps_l; [apply index_write, step_new|].
  eapply nsteps_l; [apply index_write;
    apply (step_write 1 [(NewStateStore 0).2] 0 (NewStateStore 0).2 (WPut "a" 5)); reflexivity|].
  eapply nsteps_l; [apply (index_read _ _ _ 0 s "all"); reflexivity|].
  apply nsteps_O.
Defined.

(** ** Path prefixes ([PathPrefixes] of [index.go]) *)

(** The loop from position [len before] on. *)
Fixpoint prefixes_from (before rest : string) : list string :=
  match rest with
  | EmptyString => []
  | String c rest =>
      let p := before +:+ String c "" in
      if String.eqb (String c "") "/" then p :: prefixes_from p rest else prefixes_from p rest
  end.

Definition PathPrefixes (id : string) : list string := prefixes_from "" id.

Lemma elem_of_prefixes_from before rest p :
  p ∈ prefixes_from before rest ↔ ∃ a b, rest = a +:+ "/" +:+ b ∧ p = before +:+ a +:+ "/".
Proof.
  revert before. induction rest as [|c rest IH]; intros before; cbn [prefixes_from].
  { rewrite elem_of_nil. split; [done|]. by intros ([] & b & ? & _). }
  assert (Hrest : p ∈ prefixes_from (before +:+ String c "") rest ↔ ∃ a b, rest = a +:+ "/" +:+ b ∧ p = before +:+ String c a +:+ "/").
  { rewrite IH. setoid_rewrite append_assoc_s. done. }
  destruct (String.eqb_spec (String c "") "/") as [[= ->]|Hc].
  - rewrite elem_of_cons, Hrest. split.
    + intros [->|(a & b & -> & ->)]; [by exists "", rest|]. by exists (String (Ascii.ascii_of_nat 47) a), b.
    + intros ([|x a] & b & E & ->); [by left|right]. injection E as <- ->. by exists a, b.
  - rewrite Hrest. split.
    + intros (a & b & -> & ->). by exists (String c a), b.
    + intros ([|x a] & b & E & ->); [by injection E as ->|]. injection E as <- ->. by exists a, b.
Qed.

(** A row indexed under the prefixes of its id answers every question for the
    rows below a parent, at any depth, exactly. *)
Theorem path_prefixes_answer_parents (id parent : string) :
  parent +:+ "/" ∈ PathPrefixes id ↔ HasPrefix id (parent +:+ "/") = true.
Proof.
  unfold PathPrefixes. rewrite elem_of_prefixes_from, HasPrefix_spec. setoid_rewrite append_assoc_s. split.
  - intros (a & b & -> & E). change ("" +:+ a +:+ "/") with (a +:+ "/") in E. apply append_inj_r in E as [-> _]; [|done]. by exists b.
  - intros [r ->]. by exists parent, r.
Qed.
