(* ===== verification/Msgq.v ===== *)
(** * The leased message queue ([sim/msgq/msgq.go], [NextChange] of
    [sim/msgq/wait.go])

    A queue is plain data that its owner's store row holds; every operation is
    a function from the queue, the policy the cloud built and the instant to
    the queue after it and what the operation returned. Stored times are Unix
    milliseconds, as in the code; an instant is in nanoseconds.

    A random identifier the code draws from [uuid.NewString] is an argument of
    the operation that draws it. A delivery count is a Go [int] in the code and an
    unbounded integer here: it rises by one with each lease, and wrapping it would
    take 2^63 of them. *)

From S2P Require Import Prelude.

(** ** Data *)

Record Message (P : Type) := mkMessage {
  m_ID : string;
  m_Seq : Z;
  m_Payload : P;
  m_EnqueuedAt : Z;
  m_AvailableAt : Z;
  m_DelayedUntil : Z;
  m_ExpiresAt : Z;
  m_Leased : bool;
  m_Receipt : string;
  m_Deliveries : Z;
  m_FirstDeliveredAt : Z;
  m_Group : string;
  m_DedupID : string;
}.
Arguments mkMessage {P} _ _ _ _ _ _ _ _ _ _ _ _ _.
Arguments m_ID {P} _.
Arguments m_Seq {P} _.
Arguments m_Payload {P} _.
Arguments m_EnqueuedAt {P} _.
Arguments m_AvailableAt {P} _.
Arguments m_DelayedUntil {P} _.
Arguments m_ExpiresAt {P} _.
Arguments m_Leased {P} _.
Arguments m_Receipt {P} _.
Arguments m_Deliveries {P} _.
Arguments m_FirstDeliveredAt {P} _.
Arguments m_Group {P} _.
Arguments m_DedupID {P} _.

Record DedupRecord := mkDedupRecord { d_ID : string; d_Seq : Z; d_ExpiresAt : Z }.

Abbreviation Dedup := (gmap string DedupRecord).

Record Queue (P : Type) := mkQueue {
  q_Messages : list (Message P);
  q_Dedup : Dedup;
  q_NextSeq : Z;
}.
Arguments mkQueue {P} _ _ _.
Arguments q_Messages {P} _.
Arguments q_Dedup {P} _.
Arguments q_NextSeq {P} _.

Record Policy := mkPolicy {
  MaxDeliveries : Z;
  Retention : Duration;
  DedupWindow : Duration;
  Ordered : bool;
  ReceiptOutlivesLease : bool;
  Backoff : option (Z → Duration);
}.

Record EnqueueOpts := mkEnqueueOpts {
  eo_ID : string;
  eo_Delay : Duration;
  eo_TTL : Duration;
  eo_DedupKey : string;
  eo_DedupID : string;
  eo_Group : string;
}.

Record ReceiveOpts (P : Type) := mkReceiveOpts {
  ro_Max : Z;
  ro_Lease : Duration;
  ro_Receipt : option (Message P → string);
  ro_Accept : option (Message P → bool);
}.
Arguments mkReceiveOpts {P} _ _ _ _.
Arguments ro_Max {P} _.
Arguments ro_Lease {P} _.
Arguments ro_Receipt {P} _.
Arguments ro_Accept {P} _.

(** What one [Receive] did. *)
Record Received (P : Type) := mkReceived {
  r_Leased : list (Message P);
  r_DeadLettered : list (Message P);
  r_Expired : list (Message P);
}.
Arguments mkReceived {P} _ _ _.
Arguments r_Leased {P} _.
Arguments r_DeadLettered {P} _.
Arguments r_Expired {P} _.

Record Counts := mkCounts { c_Available : Z; c_Held : Z; c_Delayed : Z }.

Definition backoff (p : Policy) (deliveries : Z) : Z :=
  match Backoff p with
  | None => 0
  | Some f => Milliseconds (f deliveries)
  end.

Definition ms (t : Time) : Z := UnixMilli t.

(** The first whole millisecond at or after [t + d]. [UnixNano] and the
    rounding are [int64] arithmetic. *)
Definition deadline (t : Time) (d : Duration) : Z :=
  if d <=? 0 then ms t
  else Z.quot (i64 (i64 (t + d) + Millisecond - 1)) Millisecond.

Section Queue.
Context {P : Type}.
Implicit Types (m : Message P) (q : Queue P) (pol : Policy) (now : Time).

Definition Held m now : bool := m_Leased m && (ms now <? m_AvailableAt m).

Definition Delayed m now : bool := (ms now <? m_DelayedUntil m) && (m_Deliveries m =? 0).

(** Messages whose lease, receipt, availability and delivery count change. *)
Definition with_lease m (leased : bool) (receipt : string) (at_ deliveries : Z) (first : Z)
  : Message P :=
  mkMessage (m_ID m) (m_Seq m) (m_Payload m) (m_EnqueuedAt m) at_ (m_DelayedUntil m)
    (m_ExpiresAt m) leased receipt deliveries first (m_Group m) (m_DedupID m).

(** *** Deduplication *)

Definition Dedup_Lookup (d : Dedup) (key : string) now : Dedup * option DedupRecord :=
  let n := ms now in
  let d := filter (λ kr, n < d_ExpiresAt kr.2) d in
  (d, d !! key).

Definition Dedup_Admit (d : Dedup) (key id : string) (seq : Z) (window : Duration) now
  : Dedup * option DedupRecord :=
  let '(d, found) := Dedup_Lookup d key now in
  match found with
  | Some rec => (d, Some rec)
  | None => (<[key:=mkDedupRecord id seq (ms now + Milliseconds window)]> d, None)
  end.

(** *** Enqueue *)

Definition new_message (uuid : string) (payload : P) (opts : EnqueueOpts) (seq : Z) now
  : Message P :=
  let available := deadline now (eo_Delay opts) in
  mkMessage (if bool_decide (eo_ID opts = "") then uuid else eo_ID opts) seq payload (ms now)
    available
    (if 0 <? eo_Delay opts then available else 0)
    (if 0 <? eo_TTL opts then deadline now (eo_TTL opts) else 0)
    false "" 0 0 (eo_Group opts) (eo_DedupID opts).

(** The message a suppressed resend answers with. *)
Definition duplicate_of (rec : DedupRecord) (payload : P) (opts : EnqueueOpts) : Message P :=
  mkMessage (d_ID rec) (d_Seq rec) payload 0 0 0 0 false "" 0 0 (eo_Group opts) (eo_DedupID opts).

Definition Enqueue q (uuid : string) (payload : P) (opts : EnqueueOpts) pol now
  : Queue P * (Message P * bool) :=
  let id := if bool_decide (eo_ID opts = "") then uuid else eo_ID opts in
  let seq := u64 (q_NextSeq q + 1) in
  let '(dedup, dup) :=
    if negb (bool_decide (eo_DedupKey opts = "")) && (0 <? DedupWindow pol)
    then Dedup_Admit (q_Dedup q) (eo_DedupKey opts) id seq (DedupWindow pol) now
    else (q_Dedup q, None) in
  match dup with
  | Some rec => (mkQueue (q_Messages q) dedup (q_NextSeq q), (duplicate_of rec payload opts, true))
  | None =>
      let m := new_message uuid payload opts seq now in
      (mkQueue (q_Messages q ++ [m]) dedup seq, (m, false))
  end.

(** *** Expiry and availability *)

Definition expired m pol now : bool :=
  ((0 <? Retention pol) && (Milliseconds (Retention pol) <=? ms now - m_EnqueuedAt m)) ||
  ((0 <? m_ExpiresAt m) && (m_ExpiresAt m <=? ms now)).

Definition with_messages q (msgs : list (Message P)) : Queue P :=
  mkQueue msgs (q_Dedup q) (q_NextSeq q).

Definition Remove q (drop : Message P → bool) : Queue P * list (Message P) :=
  (with_messages q (filter (λ m, drop m = false) (q_Messages q)),
   filter (λ m, drop m = true) (q_Messages q)).

Definition Expire q pol now : Queue P * list (Message P) :=
  (with_messages q (filter (λ m, expired m pol now = false) (q_Messages q)),
   filter (λ m, expired m pol now = true) (q_Messages q)).

Definition availableAt m pol : Z :=
  if m_Leased m then m_AvailableAt m + backoff pol (m_Deliveries m) else m_AvailableAt m.

Definition Available m pol now : bool := availableAt m pol <=? ms now.

(** *** Receive *)

Definition ordered m pol : bool := Ordered pol && negb (bool_decide (m_Group m = "")).

Definition accepts (opts : ReceiveOpts P) m : bool :=
  match ro_Accept opts with None => true | Some f => f m end.

(** The message with its delivery counted. *)
Definition counted m now : Message P :=
  with_lease m (m_Leased m) (m_Receipt m) (m_AvailableAt m) (m_Deliveries m + 1)
    (if m_FirstDeliveredAt m =? 0 then ms now else m_FirstDeliveredAt m).

(** The message as a dead-lettered delivery leaves: its count taken back. *)
Definition uncounted m now : Message P :=
  with_lease m (m_Leased m) (m_Receipt m) (m_AvailableAt m) (m_Deliveries m)
    (if m_FirstDeliveredAt m =? 0 then ms now else m_FirstDeliveredAt m).

Definition set_receipt m (receipt : string) : Message P :=
  with_lease m (m_Leased m) receipt (m_AvailableAt m) (m_Deliveries m) (m_FirstDeliveredAt m).

(** The lease of a counted message; [uuid] is the receipt when the options
    spell none. *)
Definition leased m (opts : ReceiveOpts P) now (uuid : string) : Message P :=
  let m := with_lease m true (m_Receipt m) (deadline now (ro_Lease opts)) (m_Deliveries m)
             (m_FirstDeliveredAt m) in
  set_receipt m (match ro_Receipt opts with Some f => f m | None => uuid end).

Definition block m pol (blocked : gset string) : gset string :=
  if ordered m pol then {[m_Group m]} ∪ blocked else blocked.

(** The loop over the stored messages: [n] leases are already out, [uuids]
    are the random receipts by lease number. It returns the messages kept,
    leased and dead-lettered. *)
Fixpoint receive_loop (opts : ReceiveOpts P) pol now (uuids : nat → string)
    (blocked picked : gset string) (n : nat) (msgs : list (Message P))
    : list (Message P) * list (Message P) * list (Message P) :=
  match msgs with
  | [] => ([], [], [])
  | m :: msgs =>
      if ms now <? availableAt m pol then
        let '(kept, out, dead) :=
          receive_loop opts pol now uuids (block m pol blocked) picked n msgs in
        (m :: kept, out, dead)
      else if (ro_Max opts <=? Z.of_nat n) ||
              (ordered m pol && bool_decide (m_Group m ∈ blocked) &&
               negb (bool_decide (m_Group m ∈ picked))) ||
              negb (accepts opts m) then
        let '(kept, out, dead) :=
          receive_loop opts pol now uuids (block m pol blocked) picked n msgs in
        (m :: kept, out, dead)
      else
        let m1 := counted m now in
        if (0 <? MaxDeliveries pol) && (MaxDeliveries pol <? m_Deliveries m1) then
          let '(kept, out, dead) := receive_loop opts pol now uuids blocked picked n msgs in
          (kept, out, uncounted m now :: dead)
        else
          let m2 := leased m1 opts now (uuids n) in
          let picked := if ordered m pol then {[m_Group m]} ∪ picked else picked in
          let '(kept, out, dead) := receive_loop opts pol now uuids blocked picked (S n) msgs in
          (m2 :: kept, m2 :: out, dead)
  end.

Definition Receive q (opts : ReceiveOpts P) pol now (uuids : nat → string)
  : Queue P * Received P :=
  let '(q, gone) := Expire q pol now in
  let '(kept, out, dead) := receive_loop opts pol now uuids ∅ ∅ 0 (q_Messages q) in
  (with_messages q kept, mkReceived out dead gone).

(** *** Receipts *)

Fixpoint index_loop (receipt : string) pol now (msgs : list (Message P)) : option nat :=
  match msgs with
  | [] => None
  | m :: msgs =>
      if bool_decide (m_Receipt m = receipt) then
        if negb (ReceiptOutlivesLease pol) && negb (Held m now) then None else Some 0%nat
      else S <$> index_loop receipt pol now msgs
  end.

Definition index q (receipt : string) pol now : option nat :=
  if bool_decide (receipt = "") then None else index_loop receipt pol now (q_Messages q).

Definition ByReceipt q (receipt : string) pol now : option (Message P) :=
  i ← index q receipt pol now; q_Messages q !! i.

Definition ByID q (id : string) : option (Message P) :=
  head (filter (λ m, m_ID m = id) (q_Messages q)).

(** The operation [f] on the message a receipt names. *)
Definition on_receipt {A} q (receipt : string) pol now (f : nat → Message P → Queue P * A)
  : option (Queue P * A) :=
  i ← index q receipt pol now; m ← q_Messages q !! i; Some (f i m).

Definition removeAt q (i : nat) : Queue P :=
  with_messages q (take i (q_Messages q) ++ drop (S i) (q_Messages q)).

Definition setAt q (i : nat) m : Queue P := with_messages q (<[i:=m]> (q_Messages q)).

(** [Extend]: [None] when the receipt names nothing, else the message and
    whether its lease was live. *)
Definition Extend q (receipt : string) (d : Duration) pol now
  : Queue P * option (Message P * bool) :=
  match on_receipt q receipt pol now (λ i m,
    if Held m now then
      let m' := with_lease m (m_Leased m) (m_Receipt m) (deadline now d) (m_Deliveries m)
                  (m_FirstDeliveredAt m) in
      (setAt q i m', (m', true))
    else (q, (m, false))) with
  | Some (q', r) => (q', Some r)
  | None => (q, None)
  end.

Definition Settle q (receipt : string) pol now : Queue P * option (Message P) :=
  match on_receipt q receipt pol now (λ i m, (removeAt q i, m)) with
  | Some (q', m) => (q', Some m)
  | None => (q, None)
  end.

Definition Abandon q (receipt : string) pol now : Queue P * option (Message P) :=
  match on_receipt q receipt pol now (λ i m,
    let m' := with_lease m false ""
                (deadline now (backoff pol (m_Deliveries m) * Millisecond))
                (m_Deliveries m) (m_FirstDeliveredAt m) in
    (setAt q i m', m')) with
  | Some (q', m) => (q', Some m)
  | None => (q, None)
  end.

Definition Release q (receipt : string) pol now : Queue P * option (Message P) :=
  match on_receipt q receipt pol now (λ i m,
    let m' := with_lease m false "" (ms now)
                (if 0 <? m_Deliveries m then m_Deliveries m - 1 else m_Deliveries m)
                (m_FirstDeliveredAt m) in
    (setAt q i m', m')) with
  | Some (q', m) => (q', Some m)
  | None => (q, None)
  end.

Definition DeadLetter q (receipt : string) pol now : Queue P * option (Message P) :=
  Settle q receipt pol now.

Definition Exhausted q pol now : Queue P * list (Message P) :=
  if MaxDeliveries pol <=? 0 then (q, [])
  else Remove q (λ m, (MaxDeliveries pol <=? m_Deliveries m) && Available m pol now).

(** *** Reads *)

Fixpoint peek_loop (fromSeq n : Z) (availableOnly : bool) pol now (out : Z)
    (msgs : list (Message P)) : list (Message P) :=
  match msgs with
  | [] => []
  | m :: msgs =>
      if n <=? out then []
      else if (m_Seq m <? fromSeq) || (availableOnly && negb (Available m pol now))
      then peek_loop fromSeq n availableOnly pol now out msgs
      else m :: peek_loop fromSeq n availableOnly pol now (out + 1) msgs
  end.

Definition Peek q (fromSeq n : Z) (availableOnly : bool) pol now : list (Message P) :=
  peek_loop fromSeq n availableOnly pol now 0 (q_Messages q).

Definition Purge q : Queue P * Z := (with_messages q [], Z.of_nat (length (q_Messages q))).

Definition count_one pol now (c : Counts) m : Counts :=
  if expired m pol now then c
  else if Delayed m now then mkCounts (c_Available c) (c_Held c) (c_Delayed c + 1)
  else if Available m pol now then mkCounts (c_Available c + 1) (c_Held c) (c_Delayed c)
  else mkCounts (c_Available c) (c_Held c + 1) (c_Delayed c).

Definition Count q pol now : Counts := foldl (count_one pol now) (mkCounts 0 0 0) (q_Messages q).

(** *** The next change ([wait.go]) *)

Definition consider (n next at_ : Z) : Z :=
  if (n <? at_) && ((next =? 0) || (at_ <? next)) then at_ else next.

Definition consider_message pol now (next : Z) m : Z :=
  let next := consider (ms now) next (m_AvailableAt m) in
  if m_Leased m then consider (ms now) next (availableAt m pol) else next.

(** The instant the queue next changes by itself; [None] when it never
    does. *)
Definition NextChange q pol now : option Time :=
  let next := foldl (consider_message pol now) 0 (q_Messages q) in
  if next =? 0 then None else Some (next * Millisecond).
End Queue.

(** ** Lemmas *)

Lemma deadline_zero t d : d ≤ 0 → deadline t d = ms t.
Proof. intros. unfold deadline. by rewrite (proj2 (Z.leb_le _ _)). Qed.

(** Within the range of [UnixNano] the deadline is the instant rounded up to
    a whole millisecond. *)
Lemma deadline_spec t d :
  0 ≤ t → 0 < d → t + d + Millisecond < 2 ^ 63 →
  t + d ≤ deadline t d * Millisecond < t + d + Millisecond.
Proof.
  intros Ht Hd Hr. unfold deadline. rewrite (proj2 (Z.leb_gt _ _)) by lia.
  unfold Millisecond in *.
  rewrite (i64_id (t + d)) by (unfold in_i64; lia).
  rewrite i64_id by (unfold in_i64; lia).
  rewrite Z.quot_div_nonneg by lia.
  pose proof (Z.div_mod (t + d + 1000000 - 1) 1000000).
  pose proof (Z.mod_pos_bound (t + d + 1000000 - 1) 1000000). lia.
Qed.

Lemma ms_lt t k : t < k * Millisecond → ms t < k.
Proof. intros. unfold ms, UnixMilli, Millisecond in *. apply Z.div_lt_upper_bound; lia. Qed.

Lemma ms_le t k : k * Millisecond ≤ t → k ≤ ms t.
Proof. intros. unfold ms, UnixMilli, Millisecond in *. apply Z.div_le_lower_bound; lia. Qed.

Lemma ms_mono t t' : t ≤ t' → ms t ≤ ms t'.
Proof. apply UnixMilli_mono. Qed.

(** A lease of length [d] is live at every instant before its end. *)
Lemma deadline_live t d t' :
  0 ≤ t → 0 < d → t + d + Millisecond < 2 ^ 63 → t' < t + d → ms t' < deadline t d.
Proof. intros. apply ms_lt. pose proof (deadline_spec t d). lia. Qed.

Section Queue_lemmas.
Context {P : Type}.
Implicit Types (m : Message P) (q : Queue P) (pol : Policy) (now : Time)
  (opts : ReceiveOpts P) (msgs kept out dead : list (Message P)).

(** *** What a receive does to each message, in order *)

(** The messages kept, leased and dead-lettered, for each stored one. *)
Inductive receive_rel (opts : ReceiveOpts P) pol now :
  list (Message P) → list (Message P) → list (Message P) → list (Message P) → Prop :=
| rr_nil : receive_rel opts pol now [] [] [] []
| rr_keep m msgs kept out dead :
    receive_rel opts pol now msgs kept out dead →
    receive_rel opts pol now (m :: msgs) (m :: kept) out dead
| rr_dead m msgs kept out dead :
    Available m pol now = true → accepts opts m = true →
    0 < MaxDeliveries pol ≤ m_Deliveries m →
    receive_rel opts pol now msgs kept out dead →
    receive_rel opts pol now (m :: msgs) kept out (uncounted m now :: dead)
| rr_lease m r msgs kept out dead :
    Available m pol now = true → accepts opts m = true →
    (0 < MaxDeliveries pol → m_Deliveries m < MaxDeliveries pol) →
    receive_rel opts pol now msgs kept out dead →
    receive_rel opts pol now (m :: msgs) (leased (counted m now) opts now r :: kept)
      (leased (counted m now) opts now r :: out) dead.

Lemma receive_loop_rel opts pol now uuids blocked picked n msgs kept out dead :
  receive_loop opts pol now uuids blocked picked n msgs = (kept, out, dead) →
  receive_rel opts pol now msgs kept out dead.
Proof.
  revert blocked picked n kept out dead.
  induction msgs as [|m msgs IH]; intros blocked picked n kept out dead; simpl.
  { intros [= <- <- <-]. constructor. }
  destruct (ms now <? availableAt m pol) eqn:Hav.
  { destruct (receive_loop _ _ _ _ _ _ _ msgs) as [[k o] d] eqn:E.
    intros [= <- <- <-]. constructor. eauto. }
  assert (Available m pol now = true) as Ha.
  { unfold Available. bools. by apply Z.leb_le. }
  destruct (_ || negb (accepts opts m)) eqn:Hskip.
  { destruct (receive_loop _ _ _ _ _ _ _ msgs) as [[k o] d] eqn:E.
    intros [= <- <- <-]. constructor. eauto. }
  bools. destruct ((0 <? MaxDeliveries pol) && _) eqn:Hdead.
  - destruct (receive_loop _ _ _ _ _ _ _ msgs) as [[k o] d] eqn:E.
    intros [= <- <- <-]. bools. simpl in *. constructor; eauto. lia.
  - destruct (receive_loop _ _ _ _ _ _ _ msgs) as [[k o] d] eqn:E.
    intros [= <- <- <-]. constructor; eauto. simpl in *.
    intros Hp. bools. destruct Hdead; bools; lia.
Qed.

Lemma receive_loop_count opts pol now uuids blocked picked n msgs kept out dead :
  receive_loop opts pol now uuids blocked picked n msgs = (kept, out, dead) →
  Z.of_nat (length out) ≤ Z.max 0 (ro_Max opts - Z.of_nat n).
Proof.
  revert blocked picked n kept out dead.
  induction msgs as [|m msgs IH]; intros blocked picked n kept out dead; simpl.
  { intros [= <- <- <-]. simpl. lia. }
  repeat (case_goal; try (intros [= <- <- <-]; simpl; eauto; fail)).
  all: intros [= <- <- <-]; bools.
  all: match goal with H : receive_loop _ _ _ _ _ _ _ _ = _ |- _ => apply IH in H end.
  all: simpl; lia.
Qed.

(** A group that was passed over before anything of it was taken is left
    alone for the rest of the call. *)
Lemma receive_loop_blocked opts pol now uuids blocked picked n msgs kept out dead g :
  receive_loop opts pol now uuids blocked picked n msgs = (kept, out, dead) →
  Ordered pol = true → g ≠ "" → g ∈ blocked → g ∉ picked →
  Forall (λ m, m_Group m ≠ g) (out ++ dead) ∧
  filter (λ m, m_Group m = g) kept = filter (λ m, m_Group m = g) msgs.
Proof.
  intros Hl Ho Hg. revert blocked picked n kept out dead Hl.
  induction msgs as [|m msgs IH]; intros blocked picked n kept out dead; simpl.
  { intros [= <- <- <-]. done. }
  assert (∀ b, b ⊆ block m pol b) as Hb by (intros; unfold block; case_goal; set_solver).
  destruct (ms now <? availableAt m pol).
  { destruct (receive_loop _ _ _ _ _ _ _ msgs) as [[k o] d] eqn:E.
    intros [= <- <- <-] ??. rewrite !filter_cons.
    edestruct IH as [? ->]; [exact E|set_solver..|]. done. }
  destruct (_ || negb (accepts opts m)) eqn:Hskip.
  { destruct (receive_loop _ _ _ _ _ _ _ msgs) as [[k o] d] eqn:E.
    intros [= <- <- <-] ??. rewrite !filter_cons.
    edestruct IH as [? ->]; [exact E|set_solver..|]. done. }
  intros Hrest Hbl Hpi.
  assert (m_Group m ≠ g) as Hne.
  { intros <-. revert Hskip. unfold ordered.
    rewrite Ho, (bool_decide_eq_false_2 (m_Group m = "")), (bool_decide_eq_true_2 (_ ∈ blocked)),
      (bool_decide_eq_false_2 (_ ∈ picked)) by done. by rewrite orb_true_r. }
  rewrite filter_cons_False by done.
  destruct ((0 <? MaxDeliveries pol) && _).
  - destruct (receive_loop _ _ _ _ _ _ _ msgs) as [[k o] d] eqn:E.
    injection Hrest as <- <- <-. edestruct IH as [Hf ->]; [exact E|done..|].
    split; [|done]. apply Forall_app in Hf as [? ?]. apply Forall_app. auto.
  - destruct (receive_loop _ _ _ _ _ _ _ msgs) as [[k o] d] eqn:E.
    injection Hrest as <- <- <-. edestruct IH as [Hf Hk]; [exact E|done| |].
    { unfold ordered in *. destruct (Ordered pol && _); set_solver. }
    rewrite filter_cons_False by done. split; [|done]. by constructor.
Qed.

(** The same for a group whose first message is not available. *)
Lemma receive_loop_head opts pol now uuids blocked picked n before m after kept out dead g :
  receive_loop opts pol now uuids blocked picked n (before ++ m :: after) = (kept, out, dead) →
  Ordered pol = true → g ≠ "" → g ∉ picked →
  Forall (λ m', m_Group m' ≠ g) before → m_Group m = g → Available m pol now = false →
  Forall (λ m', m_Group m' ≠ g) (out ++ dead) ∧
  filter (λ m', m_Group m' = g) kept = filter (λ m', m_Group m' = g) (m :: after).
Proof.
  intros E Ho Hg Hpi Hb Hm Ha. revert blocked picked n kept out dead E Hpi.
  induction Hb as [|x before Hx Hb IH]; intros blocked picked n kept out dead E Hpi; simpl in E.
  - assert ((ms now <? availableAt m pol) = true) as Hav
      by (apply Z.ltb_lt; unfold Available in Ha; bools; lia).
    rewrite Hav in E. destruct (receive_loop _ _ _ _ _ _ _ after) as [[k o] d] eqn:E'.
    injection E as <- <- <-. rewrite !filter_cons_True by done.
    edestruct receive_loop_blocked as [? ->]; [exact E'|done|exact Hg| |exact Hpi|done].
    unfold block, ordered. rewrite Ho, bool_decide_eq_false_2 by congruence. set_solver.
  - repeat case_hyp E; injection E as <- <- <-; rewrite ?filter_cons_False by done;
      match goal with H : receive_loop _ _ _ _ _ _ _ _ = _ |- _ =>
        apply IH in H as [Hf Hk]; [|unfold ordered; repeat case_goal; set_solver] end;
      (split; [|done]); try done; [|by constructor..].
    apply Forall_app in Hf as [? ?]. apply Forall_app. split; [done|]. by constructor.
Qed.

Lemma receive_rel_kept opts pol now msgs kept out dead :
  receive_rel opts pol now msgs kept out dead →
  m_Seq <$> kept `sublist_of` m_Seq <$> msgs.
Proof. induction 1; simpl; by constructor. Qed.

Lemma receive_rel_out opts pol now msgs kept out dead :
  receive_rel opts pol now msgs kept out dead → out `sublist_of` kept.
Proof. induction 1; [by constructor|by constructor|done|by constructor]. Qed.

(** Where each message of the queue after a receive comes from. *)
Lemma receive_rel_kept_inv opts pol now msgs kept out dead m :
  receive_rel opts pol now msgs kept out dead → m ∈ kept →
  m ∈ msgs ∨ ∃ m0 r, m0 ∈ msgs ∧ m = leased (counted m0 now) opts now r.
Proof. induction 1; set_solver. Qed.

Lemma receive_rel_stored_inv opts pol now msgs kept out dead m :
  receive_rel opts pol now msgs kept out dead → m ∈ kept → m ∈ msgs ∨ m ∈ out.
Proof. induction 1; set_solver. Qed.

Lemma receive_rel_out_inv opts pol now msgs kept out dead m :
  receive_rel opts pol now msgs kept out dead → m ∈ out →
  ∃ m0 r, m0 ∈ msgs ∧ m = leased (counted m0 now) opts now r ∧
    Available m0 pol now = true ∧ accepts opts m0 = true ∧
    (0 < MaxDeliveries pol → m_Deliveries m0 < MaxDeliveries pol).
Proof. induction 1; set_solver. Qed.

Lemma receive_rel_dead_inv opts pol now msgs kept out dead m :
  receive_rel opts pol now msgs kept out dead → m ∈ dead →
  ∃ m0, m0 ∈ msgs ∧ m = uncounted m0 now ∧
    Available m0 pol now = true ∧ 0 < MaxDeliveries pol ≤ m_Deliveries m0.
Proof. induction 1; set_solver. Qed.

(** *** The fate of each message in a receive *)

(** What a receive does with one stored message: it passes it over,
    dead-letters it or leases it under a receipt. *)
Inductive fate := Passed | DeadLettered | LeasedOut (receipt : string).

Definition is_leased (f : fate) : bool := match f with LeasedOut _ => true | _ => false end.
Definition is_passed (f : fate) : bool := match f with Passed => true | _ => false end.

Definition leases (before : list (Message P * fate)) : nat :=
  length (filter (λ x, is_leased x.2 = true) before).

(** The message under its new lease, its receipt still the old one. *)
Definition on_lease opts now m : Message P :=
  with_lease m true (m_Receipt m) (deadline now (ro_Lease opts)) (m_Deliveries m + 1)
    (if m_FirstDeliveredAt m =? 0 then ms now else m_FirstDeliveredAt m).

(** What the message becomes in the queue, among the leases and among the
    dead letters. *)
Definition stored_as opts now m (f : fate) : list (Message P) :=
  match f with
  | Passed => [m]
  | DeadLettered => []
  | LeasedOut r => [set_receipt (on_lease opts now m) r]
  end.
Definition leased_as opts now m (f : fate) : list (Message P) :=
  match f with LeasedOut r => [set_receipt (on_lease opts now m) r] | _ => [] end.
Definition dead_as now m (f : fate) : list (Message P) :=
  match f with DeadLettered => [uncounted m now] | _ => [] end.

(** A receive takes a message, having dealt with the messages [before] it,
    when it is available and accepted, fewer than [Max] leases are out, and
    no message of its ordered group was passed over before one of the group
    was leased. *)
Definition takes opts pol now (before : list (Message P * fate)) m : Prop :=
  Available m pol now = true ∧ accepts opts m = true ∧
  Z.of_nat (leases before) < ro_Max opts ∧
  (ordered m pol = true →
   (∃ x, x ∈ before ∧ m_Group x.1 = m_Group m ∧ is_passed x.2 = true) →
   ∃ x, x ∈ before ∧ m_Group x.1 = m_Group m ∧ is_leased x.2 = true).

(** The deliveries the policy allows are used up. *)
Definition spent m pol : Prop := 0 < MaxDeliveries pol ≤ m_Deliveries m.

Definition fate_ok opts pol now (uuids : nat → string) (before : list (Message P * fate)) m
    (f : fate) : Prop :=
  match f with
  | Passed => ¬ takes opts pol now before m
  | DeadLettered => takes opts pol now before m ∧ spent m pol
  | LeasedOut r => takes opts pol now before m ∧ ¬ spent m pol ∧
      r = match ro_Receipt opts with
          | Some f => f (on_lease opts now m)
          | None => uuids (leases before)
          end
  end.

(** Every message of [msgs] has the fate the ones before it leave it. *)
Fixpoint fates_ok opts pol now (uuids : nat → string) (before : list (Message P * fate)) msgs
    (fs : list fate) : Prop :=
  match msgs, fs with
  | [], [] => True
  | m :: msgs, f :: fs =>
      fate_ok opts pol now uuids before m f ∧
      fates_ok opts pol now uuids (before ++ [(m, f)]) msgs fs
  | _, _ => False
  end.

Lemma fates_ok_lookup opts pol now uuids before msgs fs :
  fates_ok opts pol now uuids before msgs fs →
  length fs = length msgs ∧
  ∀ i m f, msgs !! i = Some m → fs !! i = Some f →
    fate_ok opts pol now uuids (before ++ zip (take i msgs) (take i fs)) m f.
Proof.
  revert before fs. induction msgs as [|m msgs IH]; intros before [|f fs]; simpl; try done.
  intros [Hf [Hl Hr]%IH]. split; [lia|]. intros [|i] m' f' Hm Hf'; simpl in *.
  - simplify_eq. by rewrite app_nil_r.
  - by rewrite cons_middle, app_assoc; apply Hr.
Qed.

(** The sets the loop keeps are the groups passed over and leased from. *)
Definition tracks pol (before : list (Message P * fate)) (blocked picked : gset string) : Prop :=
  Ordered pol = true → ∀ g, g ≠ "" →
  (g ∈ blocked ↔ ∃ x, x ∈ before ∧ m_Group x.1 = g ∧ is_passed x.2 = true) ∧
  (g ∈ picked ↔ ∃ x, x ∈ before ∧ m_Group x.1 = g ∧ is_leased x.2 = true).

Lemma exists_snoc (before : list (Message P * fate)) m f g (t : fate → bool) :
  (∃ x, x ∈ before ++ [(m, f)] ∧ m_Group x.1 = g ∧ t x.2 = true) ↔
  (∃ x, x ∈ before ∧ m_Group x.1 = g ∧ t x.2 = true) ∨ (m_Group m = g ∧ t f = true).
Proof.
  split.
  - intros (x & [?| ->%list_elem_of_singleton]%elem_of_app & ? & ?); eauto.
  - intros [(x & ? & ?)|?]; [exists x|exists (m, f)]; set_solver.
Qed.

Lemma tracks_snoc pol before blocked picked m f :
  tracks pol before blocked picked →
  tracks pol (before ++ [(m, f)]) (if is_passed f then block m pol blocked else blocked)
    (if is_leased f && ordered m pol then {[m_Group m]} ∪ picked else picked).
Proof.
  intros Ht Ho g Hg. destruct (Ht Ho g Hg) as [Hb Hp].
  rewrite !exists_snoc, <- Hb, <- Hp. clear Ht Hb Hp. unfold block, ordered. rewrite Ho.
  case_bool_decide as Hm; destruct f; simpl; set_solver.
Qed.

Lemma leases_snoc before m f :
  leases (before ++ [(m, f)]) = (leases before + if is_leased f then 1 else 0)%nat.
Proof. unfold leases. rewrite filter_app, length_app. by destruct f. Qed.

(** The loop's guard decides whether an available message is taken. *)
Lemma takes_guard opts pol now before blocked picked m :
  tracks pol before blocked picked → Available m pol now = true →
  ((ro_Max opts <=? Z.of_nat (leases before)) ||
     (ordered m pol && bool_decide (m_Group m ∈ blocked) &&
      negb (bool_decide (m_Group m ∈ picked))) || negb (accepts opts m)) = false ↔
  takes opts pol now before m.
Proof.
  intros Ht Ha. unfold takes. rewrite !orb_false_iff, negb_false_iff, Z.leb_gt.
  assert (ordered m pol && bool_decide (m_Group m ∈ blocked) &&
      negb (bool_decide (m_Group m ∈ picked)) = false ↔
    (ordered m pol = true → m_Group m ∈ blocked → m_Group m ∈ picked)) as ->.
  { destruct (ordered m pol); simpl; [|naive_solver]. repeat case_bool_decide; naive_solver. }
  assert (ordered m pol = true →
    (m_Group m ∈ blocked ↔ ∃ x, x ∈ before ∧ m_Group x.1 = m_Group m ∧ is_passed x.2 = true) ∧
    (m_Group m ∈ picked ↔ ∃ x, x ∈ before ∧ m_Group x.1 = m_Group m ∧ is_leased x.2 = true)) as Hg.
  { unfold ordered. intros Ho. bools. by apply Ht. }
  destruct (ordered m pol); [|naive_solver]. destruct (Hg eq_refl) as [-> ->]. naive_solver.
Qed.

(** The loop gives every message its fate. *)
Lemma receive_loop_fates opts pol now uuids before blocked picked msgs kept out dead :
  tracks pol before blocked picked →
  receive_loop opts pol now uuids blocked picked (leases before) msgs = (kept, out, dead) →
  ∃ fs, fates_ok opts pol now uuids before msgs fs ∧
    kept = mjoin (zip_with (stored_as opts now) msgs fs) ∧
    out = mjoin (zip_with (leased_as opts now) msgs fs) ∧
    dead = mjoin (zip_with (dead_as now) msgs fs).
Proof.
  revert before blocked picked kept out dead.
  induction msgs as [|m msgs IH]; intros before blocked picked kept out dead Ht; simpl.
  { intros [= <- <- <-]. by exists []. }
  assert (∀ f b p n k o d,
    fate_ok opts pol now uuids before m f →
    b = (if is_passed f then block m pol blocked else blocked) →
    p = (if is_leased f && ordered m pol then {[m_Group m]} ∪ picked else picked) →
    n = (leases before + if is_leased f then 1 else 0)%nat →
    receive_loop opts pol now uuids b p n msgs = (k, o, d) →
    ∃ fs, fates_ok opts pol now uuids before (m :: msgs) fs ∧
      stored_as opts now m f ++ k = mjoin (zip_with (stored_as opts now) (m :: msgs) fs) ∧
      leased_as opts now m f ++ o = mjoin (zip_with (leased_as opts now) (m :: msgs) fs) ∧
      dead_as now m f ++ d = mjoin (zip_with (dead_as now) (m :: msgs) fs)) as Hstep.
  { intros f b p n k o d Hf -> -> -> E. rewrite <- (leases_snoc before m f) in E.
    apply IH in E as (fs & ? & -> & -> & ->); [|by apply tracks_snoc]. by exists (f :: fs). }
  clear IH. destruct (ms now <? availableAt m pol) eqn:Hav.
  { destruct (receive_loop _ _ _ _ _ _ _ msgs) as [[k o] d] eqn:E. intros [= <- <- <-].
    apply (Hstep Passed) in E; simpl; try done; try lia.
    intros (Ha & _). unfold Available in Ha. bools. lia. }
  assert (Available m pol now = true) as Ha by (unfold Available; bools; by apply Z.leb_le).
  pose proof (takes_guard opts pol now before blocked picked m Ht Ha) as Hg.
  destruct (_ || negb (accepts opts m)).
  { destruct (receive_loop _ _ _ _ _ _ _ msgs) as [[k o] d] eqn:E. intros [= <- <- <-].
    apply (Hstep Passed) in E; simpl; try done; try lia. by intros ?%Hg. }
  apply proj1 in Hg. specialize (Hg eq_refl).
  destruct ((0 <? MaxDeliveries pol) && _) eqn:Hd;
    destruct (receive_loop _ _ _ _ _ _ _ msgs) as [[k o] d] eqn:E; intros [= <- <- <-].
  - apply (Hstep DeadLettered) in E; simpl in *; try done; try lia.
    split; [done|]. unfold spent. bools. lia.
  - apply (Hstep (LeasedOut (match ro_Receipt opts with
      | Some f => f (on_lease opts now m) | None => uuids (leases before) end))) in E;
      simpl in *; try done; try lia.
    split; [done|]. split; [|done]. unfold spent. intros [H1 H2].
    apply andb_false_iff in Hd as [Hd|Hd]; bools; lia.
Qed.

(** *** Receipts *)

Lemma index_loop_spec receipt pol now msgs i :
  index_loop receipt pol now msgs = Some i →
  ∃ m, msgs !! i = Some m ∧ m_Receipt m = receipt ∧
    (ReceiptOutlivesLease pol = false → Held m now = true).
Proof.
  revert i. induction msgs as [|m msgs IH]; intros i; simpl; [done|].
  case_bool_decide as Hr.
  - destruct (negb _ && negb _) eqn:E; [done|]. intros [= <-]. exists m.
    repeat split; [done..|]. intros Ho. rewrite Ho in E. by destruct (Held m now).
  - intros (j & Hj & ->)%fmap_Some. apply IH in Hj. done.
Qed.

Lemma index_spec q receipt pol now i :
  index q receipt pol now = Some i →
  ∃ m, q_Messages q !! i = Some m ∧ m_Receipt m = receipt ∧ receipt ≠ "" ∧
    (ReceiptOutlivesLease pol = false → Held m now = true).
Proof.
  unfold index. case_bool_decide; [done|]. intros (m & ? & ? & ?)%index_loop_spec. eauto.
Qed.

(** The search finds the first message with the receipt; it answers nothing
    when there is none or its lease lapsed and receipts do not outlive it. *)
Lemma index_loop_cases receipt pol now msgs :
  match index_loop receipt pol now msgs with
  | Some i => ∃ before m after, msgs = before ++ m :: after ∧ i = length before ∧
      m_Receipt m = receipt ∧ Forall (λ x, m_Receipt x ≠ receipt) before ∧
      (ReceiptOutlivesLease pol = false → Held m now = true)
  | None => (∀ m, m ∈ msgs → m_Receipt m ≠ receipt) ∨
      ∃ before m after, msgs = before ++ m :: after ∧ m_Receipt m = receipt ∧
        ReceiptOutlivesLease pol = false ∧ Held m now = false
  end.
Proof.
  induction msgs as [|m msgs IH]; simpl; [left; set_solver|].
  case_bool_decide as Hr.
  - destruct (negb _ && negb _) eqn:E; bools; [right; by exists [], m, msgs|].
    exists [], m, msgs. repeat split; [done|constructor|].
    destruct E as [E|E]; bools; congruence.
  - destruct (index_loop receipt pol now msgs) as [i|]; simpl.
    + destruct IH as (before & m' & after & -> & -> & ? & ? & ?).
      exists (m :: before), m', after. repeat split; [done|by constructor|done].
    + destruct IH as [Hn|(before & m' & after & -> & ? & ? & ?)]; [left; set_solver|].
      right. by exists (m :: before), m', after.
Qed.

(** *** The queue invariant *)

Definition message_wf m : Prop :=
  0 ≤ m_Deliveries m ∧ (m_Leased m = true → 0 < m_Deliveries m) ∧
  (m_Leased m = false → m_Receipt m = "").

Definition seq_within (n : Z) (_ : string) (r : DedupRecord) : Prop := 0 < d_Seq r ≤ n.

Record queue_wf q : Prop := {
  wf_sorted : StronglySorted Z.lt (m_Seq <$> q_Messages q);
  wf_seq : Forall (λ m, 0 < m_Seq m ≤ q_NextSeq q) (q_Messages q);
  wf_messages : Forall message_wf (q_Messages q);
  wf_next : 0 ≤ q_NextSeq q;
  wf_dedup : map_Forall (seq_within (q_NextSeq q)) (q_Dedup q);
}.

Lemma queue_wf_shrink q (msgs : list (Message P)) :
  queue_wf q → (m_Seq <$> msgs) `sublist_of` (m_Seq <$> q_Messages q) →
  Forall message_wf msgs → queue_wf (with_messages q msgs).
Proof.
  intros [Hs Hq Hm Hn Hd] Hsub Hw. constructor; simpl; [|  |done..].
  - by eapply sublist_StronglySorted.
  - rewrite Forall_forall in *. intros m Hm'.
    assert (m_Seq m ∈ m_Seq <$> q_Messages q) as (m' & -> & ?)%list_elem_of_fmap; [|auto].
    eapply elem_of_sublist; [|done]. by apply list_elem_of_fmap_2.
Qed.

Lemma sublist_filter_seq (Q : Message P → Prop) `{!∀ m, Decision (Q m)} msgs :
  (m_Seq <$> filter Q msgs) `sublist_of` (m_Seq <$> msgs).
Proof. apply sublist_fmap, sublist_filter. Qed.

Lemma queue_wf_filter q (Q : Message P → Prop) `{!∀ m, Decision (Q m)} :
  queue_wf q → queue_wf (with_messages q (filter Q (q_Messages q))).
Proof.
  intros Hq. apply queue_wf_shrink; [done|apply sublist_filter_seq|].
  eapply sublist_Forall; [apply sublist_filter|apply Hq].
Qed.

Lemma queue_wf_setAt q i m m' :
  queue_wf q → q_Messages q !! i = Some m → m_Seq m' = m_Seq m → message_wf m' →
  queue_wf (setAt q i m').
Proof.
  intros Hq Hi Hs Hw. apply queue_wf_shrink; [done| |].
  - rewrite list_fmap_insert, Hs, list_insert_id; [done|].
    rewrite list_lookup_fmap, Hi. done.
  - apply Forall_insert; [apply Hq|done].
Qed.

Lemma queue_wf_removeAt q i : queue_wf q → queue_wf (removeAt q i).
Proof.
  intros Hq.
  assert (take i (q_Messages q) ++ drop (S i) (q_Messages q) `sublist_of` q_Messages q) as Hs.
  { rewrite <- delete_take_drop. apply sublist_delete. }
  apply queue_wf_shrink; [done|by apply sublist_fmap|].
  eapply sublist_Forall; [done|apply Hq].
Qed.
End Queue_lemmas.

(** ** Sequences of operations *)

Section Operations.
Context {P : Type}.
Implicit Types (m : Message P) (q : Queue P) (pol : Policy) (now : Time).

Inductive op :=
| OEnqueue (uuid : string) (payload : P) (opts : EnqueueOpts)
| OReceive (opts : ReceiveOpts P) (uuids : nat → string)
| OExpire
| OExtend (receipt : string) (d : Duration)
| OSettle (receipt : string)
| OAbandon (receipt : string)
| ORelease (receipt : string)
| OExhausted
| ORemove (drop : Message P → bool)
| OPurge.

(** An operation under the policy and at the instant its caller gives. *)
Definition run_op q (x : Policy * Time * op) : Queue P :=
  let '(pol, now, o) := x in
  match o with
  | OEnqueue uuid payload opts => (Enqueue q uuid payload opts pol now).1
  | OReceive opts uuids => (Receive q opts pol now uuids).1
  | OExpire => (Expire q pol now).1
  | OExtend receipt d => (Extend q receipt d pol now).1
  | OSettle receipt => (Settle q receipt pol now).1
  | OAbandon receipt => (Abandon q receipt pol now).1
  | ORelease receipt => (Release q receipt pol now).1
  | OExhausted => (Exhausted q pol now).1
  | ORemove drop => (Remove q drop).1
  | OPurge => (Purge q).1
  end.

Definition run_ops q (xs : list (Policy * Time * op)) : Queue P := foldl run_op q xs.

Definition empty_queue : Queue P := mkQueue [] ∅ 0.

(** *** Each operation keeps the invariant *)

Lemma Admit_seqs (d : Dedup) key id (seq : Z) window now (n : Z) :
  map_Forall (seq_within n) d → 0 < seq → n ≤ seq →
  map_Forall (seq_within seq) (Dedup_Admit d key id seq window now).1.
Proof.
  intros Hd Hs Hn. unfold Dedup_Admit. simpl.
  assert (map_Forall (seq_within seq) (filter (λ kr, ms now < d_ExpiresAt kr.2) d)) as Hf.
  { intros k r [Hk _]%map_lookup_filter_Some. apply Hd in Hk. unfold seq_within in *. lia. }
  case_goal; simpl; [done|]. apply map_Forall_insert_2; [unfold seq_within; simpl; lia|done].
Qed.

Lemma Dedup_Admit_dup (d : Dedup) key id seq window now rec :
  (Dedup_Admit d key id seq window now).2 = Some rec →
  (Dedup_Admit d key id seq window now).1 = filter (λ kr, ms now < d_ExpiresAt kr.2) d ∧
  filter (λ kr, ms now < d_ExpiresAt kr.2) d !! key = Some rec.
Proof. unfold Dedup_Admit. simpl. case_goal; simpl; [|done]. by intros [= ->]. Qed.

Lemma Enqueue_wf q uuid payload opts pol now :
  queue_wf q → q_NextSeq q + 1 < 2 ^ 64 → queue_wf (Enqueue q uuid payload opts pol now).1.
Proof.
  intros Hq Hn. pose proof (wf_next _ Hq). unfold Enqueue. cbv zeta.
  rewrite (u64_id (q_NextSeq q + 1)) by (unfold in_u64; lia).
  match goal with |- context [let '(_, _) := ?a in _] => set (adm := a) end.
  assert (map_Forall (seq_within (q_NextSeq q + 1)) adm.1 ∧
          (is_Some adm.2 → map_Forall (seq_within (q_NextSeq q)) adm.1)) as [Hd Hdup].
  { subst adm. pose proof (wf_dedup _ Hq) as Hd. destruct (_ && _).
    - split; [apply (Admit_seqs _ _ _ _ _ _ (q_NextSeq q)); [done|lia|lia]|].
      intros [r [-> Hr]%Dedup_Admit_dup]. by intros k r' [Hk _]%map_lookup_filter_Some; apply Hd in Hk.
    - split; [|done]. intros k r Hk. apply Hd in Hk. unfold seq_within in *. lia. }
  destruct adm as [d [rec|]]; simpl in *.
  { destruct Hq. constructor; simpl; [done..|]. apply Hdup. eauto. }
  destruct Hq as [Hs Hseq Hm _ _]. constructor; simpl; [..|lia|done].
  - rewrite fmap_app. apply StronglySorted_app. repeat split; [|done|repeat constructor].
    intros x y (m & -> & Hx)%list_elem_of_fmap ->%list_elem_of_singleton.
    rewrite Forall_forall in Hseq. apply Hseq in Hx. simpl. lia.
  - apply Forall_app. split; [|repeat constructor; simpl; lia].
    eapply Forall_impl; [exact Hseq|]. simpl. lia.
  - apply Forall_app. split; [done|]. repeat constructor; simpl; done.
Qed.

Lemma leased_wf m opts now r : message_wf m → message_wf (leased (counted m now) opts now r).
Proof. intros (? & ? & ?). unfold message_wf. simpl. repeat split; [lia|lia|done]. Qed.

Lemma Expire_wf q pol now : queue_wf q → queue_wf (Expire q pol now).1.
Proof. apply queue_wf_filter. Qed.

(** A receive is an expiry followed by the loop. *)
Lemma Receive_rel q opts pol now uuids :
  let '(q', r) := Receive q opts pol now uuids in
  receive_rel opts pol now (q_Messages (Expire q pol now).1) (q_Messages q')
    (r_Leased r) (r_DeadLettered r) ∧
  q' = with_messages (Expire q pol now).1 (q_Messages q') ∧
  r_Expired r = (Expire q pol now).2.
Proof.
  unfold Receive. destruct (Expire q pol now) as [q1 gone]. simpl.
  destruct (receive_loop _ _ _ _ _ _ _ _) as [[kept out] dead] eqn:E. simpl.
  split; [by eapply receive_loop_rel|done].
Qed.

Lemma Receive_wf q opts pol now uuids :
  queue_wf q → queue_wf (Receive q opts pol now uuids).1.
Proof.
  intros Hq%(Expire_wf _ pol now). pose proof (Receive_rel q opts pol now uuids) as H.
  destruct (Receive q opts pol now uuids) as [q' r]. destruct H as (Hr & -> & _). simpl.
  apply queue_wf_shrink; [done|by eapply receive_rel_kept|].
  apply Forall_forall. intros m Hm.
  pose proof (wf_messages _ Hq) as Hw. rewrite Forall_forall in Hw.
  eapply receive_rel_kept_inv in Hm as [?|(m0 & u & ? & ->)]; [by apply Hw| |exact Hr].
  by apply leased_wf, Hw.
Qed.

(** The operations on a receipt change one message or remove it. *)
Lemma on_receipt_wf {A} q receipt pol now (f : nat → Message P → Queue P * A) q' a :
  queue_wf q → on_receipt q receipt pol now f = Some (q', a) →
  (∀ i m, q_Messages q !! i = Some m → message_wf m → queue_wf (f i m).1) → queue_wf q'.
Proof.
  intros Hq Hon Hf. unfold on_receipt in Hon.
  apply bind_Some in Hon as (i & Hi & (m & Hm & [= Hr])%bind_Some).
  specialize (Hf i m Hm). rewrite Hr in Hf. apply Hf.
  pose proof (wf_messages _ Hq) as Hw. rewrite Forall_forall in Hw.
  apply Hw, list_elem_of_lookup. eauto.
Qed.

Lemma run_op_wf q x :
  queue_wf q → q_NextSeq q + 1 < 2 ^ 64 → queue_wf (run_op q x).
Proof.
  intros Hq Hn. destruct x as [[pol now] []]; simpl.
  - by apply Enqueue_wf.
  - by apply Receive_wf.
  - by apply Expire_wf.
  - unfold Extend. destruct (on_receipt _ _ _ _ _) as [[q' r]|] eqn:Hon; [simpl|done].
    eapply on_receipt_wf; [done..|]. intros i m Hi (? & ? & ?). destruct (Held m now); [|done].
    by eapply queue_wf_setAt.
  - unfold Settle. destruct (on_receipt _ _ _ _ _) as [[q' r]|] eqn:Hon; [simpl|done].
    eapply on_receipt_wf; [done..|]. intros. by apply queue_wf_removeAt.
  - unfold Abandon. destruct (on_receipt _ _ _ _ _) as [[q' r]|] eqn:Hon; [simpl|done].
    eapply on_receipt_wf; [done..|]. intros i m Hi (? & ? & ?).
    eapply queue_wf_setAt; [done..|]. by repeat split.
  - unfold Release. destruct (on_receipt _ _ _ _ _) as [[q' r]|] eqn:Hon; [simpl|done].
    eapply on_receipt_wf; [done..|]. intros i m Hi (? & ? & ?).
    eapply queue_wf_setAt; [done..|]. repeat split; simpl; [|done..].
    destruct (0 <? m_Deliveries m) eqn:E; bools; lia.
  - unfold Exhausted. case_goal; [done|]. apply queue_wf_filter, Hq.
  - apply queue_wf_filter, Hq.
  - apply queue_wf_shrink; [done|apply sublist_nil_l|constructor].
Qed.

(** Only an enqueue touches the deduplication records and the sequence. *)
Lemma run_op_frame q pol now o :
  (∀ uuid payload opts, o ≠ OEnqueue uuid payload opts) →
  q_Dedup (run_op q (pol, now, o)) = q_Dedup q ∧ q_NextSeq (run_op q (pol, now, o)) = q_NextSeq q.
Proof.
  intros Ho. destruct o; simpl; try done.
  - by edestruct Ho.
  - pose proof (Receive_rel q opts pol now uuids) as H.
    destruct (Receive q opts pol now uuids) as [q' r]. by destruct H as (_ & -> & _).
  - unfold Extend, on_receipt. destruct (index q receipt pol now) as [i|]; [|done]. simpl.
    destruct (q_Messages q !! i); [|done]. simpl. by destruct (Held _ _).
  - unfold Settle, on_receipt. destruct (index q receipt pol now) as [i|]; [|done]. simpl.
    by destruct (q_Messages q !! i).
  - unfold Abandon, on_receipt. destruct (index q receipt pol now) as [i|]; [|done]. simpl.
    by destruct (q_Messages q !! i).
  - unfold Release, on_receipt. destruct (index q receipt pol now) as [i|]; [|done]. simpl.
    by destruct (q_Messages q !! i).
  - unfold Exhausted. by destruct (_ <=? _).
Qed.

Lemma op_cases (o : op) :
  (∃ uuid payload opts, o = OEnqueue uuid payload opts) ∨
  (∀ uuid payload opts, o ≠ OEnqueue uuid payload opts).
Proof. destruct o; eauto; by right. Qed.

Lemma Enqueue_next q uuid payload opts pol now :
  0 ≤ q_NextSeq q → q_NextSeq q + 1 < 2 ^ 64 →
  q_NextSeq q ≤ q_NextSeq (Enqueue q uuid payload opts pol now).1 ≤ q_NextSeq q + 1.
Proof.
  intros H0 Hn. unfold Enqueue. cbv zeta.
  rewrite (u64_id (q_NextSeq q + 1)) by (unfold in_u64; lia).
  match goal with |- context [let '(_, _) := ?a in _] => destruct a as [d [?|]] end; simpl; lia.
Qed.

Lemma run_op_next q x :
  0 ≤ q_NextSeq q → q_NextSeq q + 1 < 2 ^ 64 →
  q_NextSeq q ≤ q_NextSeq (run_op q x) ≤ q_NextSeq q + 1.
Proof.
  intros H0 Hn. destruct x as [[pol now] o].
  destruct (op_cases o) as [(u & p & opts & ->)|Ho]; [by apply Enqueue_next|].
  destruct (run_op_frame q pol now o Ho). lia.
Qed.

Lemma run_ops_wf q xs :
  queue_wf q → q_NextSeq q + Z.of_nat (length xs) < 2 ^ 64 → queue_wf (run_ops q xs).
Proof.
  revert q. induction xs as [|x xs IH]; intros q Hq Hn; [done|].
  cbn [length] in Hn. pose proof (wf_next _ Hq).
  pose proof (run_op_next q x). simpl. apply IH; [apply run_op_wf; [done|lia]|lia].
Qed.

Lemma empty_queue_wf : queue_wf empty_queue.
Proof. constructor; simpl; [constructor..|lia|apply map_Forall_empty]. Qed.
End Operations.

(** ** Properties *)

Section Facts.
Context {P : Type}.
Implicit Types (m : Message P) (q : Queue P) (pol : Policy) (now : Time).

Lemma wf_seq_inj q m m' :
  queue_wf q → m ∈ q_Messages q → m' ∈ q_Messages q → m_Seq m = m_Seq m' → m = m'.
Proof.
  intros [Hs _ _ _ _] [i Hi]%list_elem_of_lookup [j Hj]%list_elem_of_lookup He.
  assert (∀ a b x y, q_Messages q !! a = Some x → q_Messages q !! b = Some y → (a < b)%nat →
    m_Seq x < m_Seq y) as Hlt.
  { intros a b x y Ha Hb Hab. rewrite <- (take_drop b (q_Messages q)), fmap_app in Hs.
    eapply (StronglySorted_app_1_elem_of _ _ _ _ _ Hs); apply list_elem_of_fmap_2, list_elem_of_lookup.
    - exists a. by rewrite lookup_take_lt.
    - exists 0%nat. by rewrite lookup_drop, Nat.add_0_r. }
  destruct (lt_eq_lt_dec i j) as [[H|H]|H].
  - specialize (Hlt _ _ _ _ Hi Hj H). lia.
  - congruence.
  - specialize (Hlt _ _ _ _ Hj Hi H). lia.
Qed.

(** A message under a live lease is not available when the policy's backoff
    is not negative. *)
Lemma held_unavailable m pol now :
  0 ≤ backoff pol (m_Deliveries m) → m_Leased m = true → ms now < m_AvailableAt m →
  Available m pol now = false.
Proof. intros Hb Hl Ha. unfold Available, availableAt. rewrite Hl. apply Z.leb_gt. lia. Qed.

(** *** Messages under a lease *)

(** The operations that change the end of the lease a receipt names. *)
Definition changes_lease (receipt : string) (o : op (P:=P)) : bool :=
  match o with
  | OExtend r _ | OAbandon r | ORelease r => bool_decide (r = receipt)
  | _ => false
  end.

(** Message [m] has a lease until [end_], and is still the only one stored with its
    sequence number, if it is stored. *)
Definition under_lease (end_ : Time) m q : Prop :=
  m_Leased m = true ∧ (∀ t, t < end_ → ms t < m_AvailableAt m) ∧ 0 < m_Seq m ≤ q_NextSeq q ∧
  ∀ m', m' ∈ q_Messages q → m_Seq m' = m_Seq m → m' = m.

(** A receive before the end leaves it alone. *)
Lemma under_lease_taken end_ m q opts pol now uuids :
  under_lease end_ m q → now < end_ → (∀ n, 0 ≤ backoff pol n) →
  let r := (Receive q opts pol now uuids).2 in
  ∀ m', m' ∈ r_Leased r ++ r_DeadLettered r ++ (Exhausted q pol now).2 → m_Seq m' ≠ m_Seq m.
Proof.
  intros (Hl & He & _ & Hm) Hn Hb. cbv zeta. pose proof (Receive_rel q opts pol now uuids) as H.
  destruct (Receive q opts pol now uuids) as [q' r]. destruct H as (Hr & _ & _). simpl.
  assert (∀ m0, m0 ∈ q_Messages q → Available m0 pol now = true → m_Seq m0 ≠ m_Seq m) as Hav.
  { intros m0 Hin Ha Hs. rewrite (Hm m0 Hin Hs), held_unavailable in Ha; [done|apply Hb|done|auto]. }
  intros m' [Ho|[Hd|Hx]%elem_of_app]%elem_of_app.
  - eapply receive_rel_out_inv in Ho as (m0 & u & [_ ?]%list_elem_of_filter & -> & ? & _); [|exact Hr].
    by apply (Hav m0).
  - eapply receive_rel_dead_inv in Hd as (m0 & [_ ?]%list_elem_of_filter & -> & ? & _); [|exact Hr].
    by apply (Hav m0).
  - unfold Exhausted in Hx. destruct (_ <=? 0); [set_solver|].
    apply list_elem_of_filter in Hx as [? ?]. bools. by apply Hav.
Qed.

Lemma under_lease_shrink end_ m q msgs :
  under_lease end_ m q → (∀ m', m' ∈ msgs → m_Seq m' = m_Seq m → m' = m) →
  under_lease end_ m (with_messages q msgs).
Proof. intros (? & ? & ? & _) ?. do 3 (split; [done|]). done. Qed.

Lemma under_lease_filter end_ m q (Q : Message P → Prop) `{!∀ m, Decision (Q m)} :
  under_lease end_ m q → under_lease end_ m (with_messages q (filter Q (q_Messages q))).
Proof.
  intros Hu. apply under_lease_shrink; [done|]. intros m' [_ ?]%list_elem_of_filter. by apply Hu.
Qed.

(** An operation on another receipt leaves the message. *)
Lemma under_lease_setAt end_ m q receipt pol now i m1 m2 :
  under_lease end_ m q → index q receipt pol now = Some i → q_Messages q !! i = Some m1 →
  receipt ≠ m_Receipt m → m_Seq m2 = m_Seq m1 → under_lease end_ m (setAt q i m2).
Proof.
  intros Hu (m1' & Hi' & Hr & _)%index_spec Hi Hne Hs. apply under_lease_shrink; [done|].
  destruct Hu as (_ & _ & _ & Hm). intros m' Hin Hsq.
  apply list_elem_of_lookup in Hin as [j Hj].
  apply list_lookup_insert_Some in Hj as [(-> & <- & _)|[_ Hj]].
  - assert (m1 = m) as -> by (apply Hm; [by eapply list_elem_of_lookup_2|congruence]). congruence.
  - apply Hm; [by eapply list_elem_of_lookup_2|done].
Qed.

Lemma under_lease_removeAt end_ m q i : under_lease end_ m q → under_lease end_ m (removeAt q i).
Proof.
  intros Hu. apply under_lease_shrink; [done|]. intros m' Hin. apply Hu.
  rewrite <- (take_drop i (q_Messages q)).
  apply elem_of_app in Hin as [?|Hin]; apply elem_of_app; [by left|right].
  apply list_elem_of_lookup in Hin as [j Hj]. apply list_elem_of_lookup. exists (S j).
  revert Hj. rewrite !lookup_drop. by replace (i + S j)%nat with (S i + j)%nat by lia.
Qed.

Lemma run_op_under_lease end_ m q x :
  queue_wf q → under_lease end_ m q → q_NextSeq q + 1 < 2 ^ 64 →
  x.1.2 < end_ → (∀ n, 0 ≤ backoff x.1.1 n) → changes_lease (m_Receipt m) x.2 = false →
  under_lease end_ m (run_op q x).
Proof.
  intros Hwf Hu Hn Ht Hb Hc. destruct x as [[pol now] []]; simpl in *.
  - pose proof Hu as (? & ? & ? & Hm).
    pose proof (Enqueue_next q uuid payload opts pol now (wf_next _ Hwf) Hn) as Hnext.
    do 2 (split; [done|]). split; [lia|]. revert Hnext. unfold Enqueue. cbv zeta.
    rewrite (u64_id (q_NextSeq q + 1)) by (pose proof (wf_next _ Hwf); unfold in_u64; lia).
    match goal with |- context [let '(_, _) := ?a in _] => destruct a as [d [?|]] end; simpl; [auto|].
    intros _ m' [?| ->%list_elem_of_singleton]%elem_of_app; [auto|]. simpl. lia.
  - pose proof (Receive_rel q opts pol now uuids) as H.
    pose proof (under_lease_taken _ _ _ opts pol now uuids Hu Ht Hb) as Hno. cbv zeta in Hno.
    destruct (Receive q opts pol now uuids) as [q' r]. destruct H as (Hr & -> & _). simpl in *.
    apply under_lease_shrink; [by apply under_lease_filter|]. intros m' Hin Hs.
    eapply receive_rel_stored_inv in Hin as [Hin|Hin]; [| |exact Hr].
    + apply list_elem_of_filter in Hin as [_ ?]. by apply Hu.
    + destruct (Hno m'); [|done]. apply elem_of_app. by left.
  - by apply under_lease_filter.
  - unfold Extend, on_receipt. destruct (index q receipt pol now) as [i|] eqn:Ei; [|done]. simpl.
    destruct (q_Messages q !! i) eqn:Hi; [|done]. simpl. destruct (Held _ _); [|done]. simpl.
    bools. by eapply under_lease_setAt.
  - unfold Settle, on_receipt. destruct (index q receipt pol now) as [i|]; [|done]. simpl.
    destruct (q_Messages q !! i); [|done]. by apply under_lease_removeAt.
  - unfold Abandon, on_receipt. destruct (index q receipt pol now) as [i|] eqn:Ei; [|done]. simpl.
    destruct (q_Messages q !! i) eqn:Hi; [|done]. simpl. bools. by eapply under_lease_setAt.
  - unfold Release, on_receipt. destruct (index q receipt pol now) as [i|] eqn:Ei; [|done]. simpl.
    destruct (q_Messages q !! i) eqn:Hi; [|done]. simpl. bools. by eapply under_lease_setAt.
  - unfold Exhausted. case_goal; [done|]. by apply under_lease_filter.
  - by apply under_lease_filter.
  - apply under_lease_shrink; [done|]. set_solver.
Qed.

Lemma run_ops_under_lease end_ m q xs :
  queue_wf q → under_lease end_ m q → q_NextSeq q + Z.of_nat (length xs) < 2 ^ 64 →
  Forall (λ x, x.1.2 < end_ ∧ (∀ n, 0 ≤ backoff x.1.1 n) ∧
               changes_lease (m_Receipt m) x.2 = false) xs →
  under_lease end_ m (run_ops q xs).
Proof.
  intros Hwf Hu Hn Hxs. revert q Hwf Hu Hn. induction Hxs as [|x xs (? & ? & ?) _ IH];
    intros q Hwf Hu Hn; [done|].
  cbn [length] in Hn. pose proof (wf_next _ Hwf). pose proof (run_op_next q x). simpl.
  apply IH; [apply run_op_wf; [done|lia]|apply run_op_under_lease; [done|done|lia|done|done|done]|lia].
Qed.

(** The deduplication record of a key outlives every operation at an instant
    before it expires. *)
Lemma run_op_dedup q x key rec :
  q_Dedup q !! key = Some rec → ms x.1.2 < d_ExpiresAt rec →
  q_Dedup (run_op q x) !! key = Some rec.
Proof.
  intros Hk Hx. destruct x as [[pol now] o].
  destruct (op_cases o) as [(u & p & opts & ->)|Ho];
    [|by destruct (run_op_frame q pol now o Ho) as [-> _]].
  simpl in *. unfold Enqueue. cbv zeta.
  match goal with |- context [let '(_, _) := ?a in _] => set (adm := a) end.
  assert (adm.1 !! key = Some rec) as Hadm; [|by destruct adm as [? []]].
  subst adm. destruct (_ && _); [|done]. unfold Dedup_Admit. simpl.
  assert (filter (λ kr, ms now < d_ExpiresAt kr.2) (q_Dedup q) !! key = Some rec) as Hf
    by (by apply map_lookup_filter_Some).
  case_goal; simpl; [done|]. rewrite lookup_insert_ne; [done|]. intros <-. congruence.
Qed.

Lemma run_ops_dedup q xs key rec :
  q_Dedup q !! key = Some rec → Forall (λ x, ms x.1.2 < d_ExpiresAt rec) xs →
  q_Dedup (run_ops q xs) !! key = Some rec.
Proof.
  intros Hk Hxs. revert q Hk. induction Hxs as [|x xs Hx Hxs IH]; intros q Hk; [done|].
  apply IH. by apply run_op_dedup.
Qed.

(** *** The next change *)

Lemma consider_spec n next at_ :
  0 ≤ n → (next = 0 ∨ n < next) →
  let r := consider n next at_ in
  (r = 0 ∨ n < r) ∧ (n < at_ → r ≠ 0 ∧ r ≤ at_) ∧ (next ≠ 0 → r ≠ 0 ∧ r ≤ next) ∧
  (r = next ∨ r = at_).
Proof.
  intros Hn Hx. unfold consider. destruct (_ && _) eqn:E; bools; simpl.
  - destruct H0; bools; lia.
  - destruct E as [E|E]; bools; [lia|]. lia.
Qed.

(** The instants at which a message changes by itself. *)
Definition changes_at m pol (k : Z) : Prop :=
  k = m_AvailableAt m ∨ (m_Leased m = true ∧ k = availableAt m pol).

Lemma consider_message_spec pol now next m :
  0 ≤ ms now → (next = 0 ∨ ms now < next) →
  let r := consider_message pol now next m in
  (r = 0 ∨ ms now < r) ∧ (∀ k, changes_at m pol k → ms now < k → r ≠ 0 ∧ r ≤ k) ∧
  (next ≠ 0 → r ≠ 0 ∧ r ≤ next) ∧ (r = next ∨ changes_at m pol r).
Proof.
  intros Hn Hx. unfold consider_message, changes_at. cbv zeta.
  pose proof (consider_spec (ms now) next (m_AvailableAt m) Hn Hx) as (A1 & A2 & A3 & A4).
  set (a := consider (ms now) next (m_AvailableAt m)) in *.
  destruct (m_Leased m).
  - pose proof (consider_spec (ms now) a (availableAt m pol) Hn A1) as (B1 & B2 & B3 & B4).
    set (b := consider (ms now) a (availableAt m pol)) in *.
    split; [done|]. split; [|split].
    + intros k [->|[_ ->]] Hk; [|by apply B2]. destruct (A2 Hk) as [Ha ?].
      destruct (B3 Ha). lia.
    + intros Hz. destruct (A3 Hz) as [Ha ?]. destruct (B3 Ha). lia.
    + destruct B4 as [->| ->]; [|auto]. destruct A4 as [->| ->]; auto.
  - split; [done|]. split; [|split; [done|]].
    + intros k [->|[? _]] Hk; [by apply A2|done].
    + destruct A4 as [->| ->]; auto.
Qed.

Lemma next_change_fold pol now msgs next :
  0 ≤ ms now → (next = 0 ∨ ms now < next) →
  let r := foldl (consider_message (P:=P) pol now) next msgs in
  (r = 0 ∨ ms now < r) ∧
  (∀ m k, m ∈ msgs → changes_at m pol k → ms now < k → r ≠ 0 ∧ r ≤ k) ∧
  (next ≠ 0 → r ≠ 0 ∧ r ≤ next) ∧
  (r = next ∨ ∃ m, m ∈ msgs ∧ changes_at m pol r).
Proof.
  intros Hn. revert next. induction msgs as [|m msgs IH]; intros next Hx; simpl.
  { repeat split; [done|set_solver..|by left]. }
  destruct (consider_message_spec pol now next m Hn Hx) as (A1 & A2 & A3 & A4).
  set (a := consider_message pol now next m) in *.
  destruct (IH a A1) as (B1 & B2 & B3 & B4). set (b := foldl _ a msgs) in *.
  split; [done|]. split; [|split].
  - intros m' k [->|Hm]%elem_of_cons Hc Hk; [|by eapply B2].
    destruct (A2 k Hc Hk) as [? ?]. destruct (B3 H). lia.
  - intros Hnz. destruct (A3 Hnz) as [? ?]. destruct (B3 H). lia.
  - destruct B4 as [->|(m' & ? & ?)]; [|right; exists m'; set_solver].
    destruct A4 as [->|?]; [by left|right; exists m; set_solver].
Qed.
End Facts.

(** [C5] Whatever operations run on a new queue, fewer than 2^64 of them, the
    stored messages keep strictly increasing sequence numbers that the queue
    has assigned, delivery counts that are never negative and positive under a
    lease, and no receipt once a lease was given back. *)
Theorem msgq_invariant {P} (xs : list (Policy * Time * op (P:=P))) :
  Z.of_nat (length xs) < 2 ^ 64 → queue_wf (run_ops empty_queue xs).
Proof. intros Hn. apply run_ops_wf; [apply empty_queue_wf|done]. Qed.

Definition w_policy : Policy := mkPolicy 3 0 (60 * Second) true false None.
Definition w_plain (id group : string) : EnqueueOpts := mkEnqueueOpts id 0 0 "" "" group.
Definition w_receive (max : Z) : ReceiveOpts Z :=
  mkReceiveOpts max (30 * Second) (Some (λ m, "r" +:+ m_ID m)) None.
Definition w_ops : list (Policy * Time * op) :=
  [(w_policy, Second, OEnqueue "" 7 (w_plain "a" "g"));
   (w_policy, 2 * Second, OReceive (w_receive 5) (λ _, ""));
   (w_policy, 3 * Second, OAbandon "ra")].

Lemma msgq_invariant_witness :
  queue_wf (run_ops empty_queue w_ops) ∧ length (q_Messages (run_ops empty_queue w_ops)) = 1%nat.
Proof. split; [apply msgq_invariant; vm_compute; reflexivity|reflexivity]. Defined.


(** [C7] A lease is exclusive: whatever operations run after the receive that
    leased a message, no receive or removal of exhausted messages at an
    instant before the lease's end leases or dead-letters it, as long as none
    of the operations extends, abandons or releases the message's receipt,
    every one of them runs before the lease's end under a policy whose backoff
    is not negative, the end is within the range of the nanosecond clock, and
    the 64-bit sequence does not wrap. *)
Theorem lease_is_exclusive {P} (q : Queue P) (opts opts' : ReceiveOpts P) (pol pol' : Policy)
    (now now' : Time) (uuids uuids' : nat → string) (xs : list (Policy * Time * op)) (m : Message P) :
  queue_wf q → q_NextSeq q + Z.of_nat (length xs) < 2 ^ 64 →
  0 ≤ now → 0 < ro_Lease opts → now + ro_Lease opts + Millisecond < 2 ^ 63 →
  m ∈ r_Leased (Receive q opts pol now uuids).2 →
  Forall (λ x, x.1.2 < now + ro_Lease opts ∧ (∀ n, 0 ≤ backoff x.1.1 n) ∧
               changes_lease (m_Receipt m) x.2 = false) xs →
  now' < now + ro_Lease opts → (∀ n, 0 ≤ backoff pol' n) →
  let q' := run_ops (Receive q opts pol now uuids).1 xs in
  let r := (Receive q' opts' pol' now' uuids').2 in
  ∀ m', m' ∈ r_Leased r ++ r_DeadLettered r ++ (Exhausted q' pol' now').2 → m_Seq m' ≠ m_Seq m.
Proof.
  intros Hwf Hn H0 Hl Hr Hm Hxs Hn' Hb q' r m' Hm' Heq.
  pose proof (Receive_wf q opts pol now uuids Hwf) as Hwf1.
  pose proof (run_op_frame q pol now (OReceive opts uuids) ltac:(done)) as [_ Hseq1]. simpl in Hseq1.
  pose proof (Receive_rel q opts pol now uuids) as H1.
  assert (under_lease (now + ro_Lease opts) m (Receive q opts pol now uuids).1) as Hu.
  { destruct (Receive q opts pol now uuids) as [q1 r1]. destruct H1 as (Hr1 & _ & _). simpl in *.
    pose proof (elem_of_sublist _ _ _ Hm (receive_rel_out _ _ _ _ _ _ _ Hr1)) as Hin.
    eapply receive_rel_out_inv in Hm as (m1 & u & _ & Em & _); [|exact Hr1].
    split; [by subst m|split]; [subst m; simpl; intros; by apply deadline_live|].
    split; [pose proof (wf_seq _ Hwf1) as Hs; rewrite Forall_forall in Hs; by apply Hs|].
    intros m2 Hm2 ?. by eapply wf_seq_inj. }
  assert (under_lease (now + ro_Lease opts) m q') as Hu'.
  { apply run_ops_under_lease; [done|done|congruence|].
    eapply Forall_impl; [exact Hxs|]. simpl. tauto. }
  clear Hu H1. destruct (under_lease_taken _ _ _ opts' pol' now' uuids' Hu' Hn' Hb m') as []; done.
Qed.

Definition w_queue : Queue Z := (Enqueue empty_queue "" 7 (w_plain "a" "g") w_policy Second).1.

Definition w_between : list (Policy * Time * op) :=
  [(w_policy, 3 * Second, OEnqueue "" 8 (w_plain "b" "h"));
   (w_policy, 4 * Second, OReceive (w_receive 5) (λ _, ""));
   (w_policy, 5 * Second, OAbandon "rb")].

(** The message as the first receive leases it. *)
Definition w_leased : Message Z :=
  set_receipt (on_lease (w_receive 5) (2 * Second) (new_message "" 7 (w_plain "a" "g") 1 Second)) "ra".

Lemma lease_is_exclusive_witness :
  let x := Receive w_queue (w_receive 5) w_policy (2 * Second) (λ _, "") in
  let q' := run_ops x.1 w_between in
  let r := (Receive q' (w_receive 5) w_policy (31 * Second) (λ _, "")).2 in
  r_Leased x.2 = [w_leased] ∧ m_Seq <$> r_Leased r = [2] ∧
  ∀ m', m' ∈ r_Leased r ++ r_DeadLettered r ++ (Exhausted q' w_policy (31 * Second)).2 →
    m_Seq m' ≠ m_Seq w_leased.
Proof.
  intros x q' r. assert (r_Leased x.2 = [w_leased]) as Hx by (vm_compute; reflexivity).
  split; [exact Hx|]. split; [vm_compute; reflexivity|].
  apply (lease_is_exclusive w_queue (w_receive 5) (w_receive 5) w_policy w_policy
    (2 * Second) (31 * Second) (λ _, "") (λ _, "") w_between w_leased).
  - apply Enqueue_wf; [apply empty_queue_wf|vm_compute; reflexivity].
  - vm_compute. reflexivity.
  - vm_compute. discriminate.
  - vm_compute. reflexivity.
  - vm_compute. reflexivity.
  - fold x. rewrite Hx. by apply list_elem_of_singleton.
  - repeat constructor; vm_compute; congruence.
  - vm_compute. reflexivity.
  - vm_compute. congruence.
Defined.

(** In an ordered policy a group whose first stored message is not yet
    available is skipped whole: no message of it is leased or dead-lettered,
    and those stored stay as they were. *)
Theorem ordered_group_waits_for_its_head {P} (q : Queue P) (opts : ReceiveOpts P) (pol : Policy)
    (now : Time) (uuids : nat → string) (g : string) (before after : list (Message P)) (m : Message P) :
  Ordered pol = true → g ≠ "" →
  q_Messages (Expire q pol now).1 = before ++ m :: after →
  Forall (λ m', m_Group m' ≠ g) before → m_Group m = g → Available m pol now = false →
  let '(q', r) := Receive q opts pol now uuids in
  Forall (λ m', m_Group m' ≠ g) (r_Leased r ++ r_DeadLettered r) ∧
  filter (λ m', m_Group m' = g) (q_Messages q') = filter (λ m', m_Group m' = g) (m :: after).
Proof.
  intros Ho Hg Hq Hb Hm Ha. unfold Receive. destruct (Expire q pol now) as [q1 gone]. simpl in Hq.
  rewrite Hq. destruct (receive_loop _ _ _ _ _ _ _ _) as [[kept out] dead] eqn:E.
  by eapply receive_loop_head.
Qed.

Definition w_group_queue : Queue Z :=
  run_ops empty_queue
    [(w_policy, Second, OEnqueue "" 1 (mkEnqueueOpts "a" (60 * Second) 0 "" "" "g"));
     (w_policy, Second, OEnqueue "" 2 (w_plain "b" "g"));
     (w_policy, Second, OEnqueue "" 3 (w_plain "c" "h"))].

Lemma ordered_group_waits_for_its_head_witness :
  let '(q', r) := Receive w_group_queue (w_receive 5) w_policy (2 * Second) (λ _, "") in
  m_ID <$> r_Leased r = ["c"] ∧ Forall (λ m', m_Group m' ≠ "g") (r_Leased r ++ r_DeadLettered r).
Proof.
  pose proof (ordered_group_waits_for_its_head w_group_queue (w_receive 5) w_policy (2 * Second)
    (λ _, "") "g" [] (tail (q_Messages w_group_queue))
    (new_message "" 1 (mkEnqueueOpts "a" (60 * Second) 0 "" "" "g") 1 Second)
    eq_refl ltac:(discriminate) ltac:(vm_compute; reflexivity) ltac:(constructor) eq_refl
    ltac:(vm_compute; reflexivity)) as H.
  split; [vm_compute; reflexivity|exact (proj1 H)].
Defined.

(** Deduplication holds through the whole window: once a send with a key
    was accepted, a resend of the key before the window ends stores nothing
    and answers with the accepted message's identity, whatever happened to the
    queue in between, the settlement of the original included. *)
Theorem dedup_answers_the_original {P} (q : Queue P) (uuid uuid' : string) (payload payload' : P)
    (opts opts' : EnqueueOpts) (pol pol' : Policy) (now now' : Time)
    (xs : list (Policy * Time * op)) (m : Message P) :
  eo_DedupKey opts ≠ "" → eo_DedupKey opts' = eo_DedupKey opts →
  0 < DedupWindow pol → 0 < DedupWindow pol' →
  (Enqueue q uuid payload opts pol now).2 = (m, false) →
  Forall (λ x, ms x.1.2 < ms now + Milliseconds (DedupWindow pol)) xs →
  ms now' < ms now + Milliseconds (DedupWindow pol) →
  let q' := run_ops (Enqueue q uuid payload opts pol now).1 xs in
  let '(q'', (m', dup)) := Enqueue q' uuid' payload' opts' pol' now' in
  dup = true ∧ m_ID m' = m_ID m ∧ m_Seq m' = m_Seq m ∧
  q_Messages q'' = q_Messages q' ∧ q_NextSeq q'' = q_NextSeq q'.
Proof.
  intros Hk Hk' Hw Hw' He Hxs Hn. cbv zeta.
  assert (q_Dedup (Enqueue q uuid payload opts pol now).1 !! eo_DedupKey opts =
    Some (mkDedupRecord (m_ID m) (m_Seq m) (ms now + Milliseconds (DedupWindow pol)))) as Hrec.
  { revert He. unfold Enqueue. cbv zeta. rewrite bool_decide_eq_false_2 by done.
    rewrite (proj2 (Z.ltb_lt 0 _)) by done. simpl. unfold Dedup_Admit. simpl.
    case_goal; simpl; [done|]. intros [= <-]. by rewrite lookup_insert_eq. }
  eapply run_ops_dedup in Hrec; [|exact Hxs].
  set (q' := run_ops _ xs) in *. unfold Enqueue. cbv zeta. rewrite Hk'.
  rewrite bool_decide_eq_false_2 by done. rewrite (proj2 (Z.ltb_lt 0 _)) by done. simpl.
  unfold Dedup_Admit. simpl.
  assert (filter (λ kr, ms now' < d_ExpiresAt kr.2) (q_Dedup q') !! eo_DedupKey opts =
    Some (mkDedupRecord (m_ID m) (m_Seq m) (ms now + Milliseconds (DedupWindow pol)))) as ->
    by (by apply map_lookup_filter_Some).
  done.
Qed.

Definition w_keyed (id : string) : EnqueueOpts := mkEnqueueOpts id 0 0 "key" "key" "".

Lemma dedup_answers_the_original_witness :
  let q1 := (Enqueue (P:=Z) empty_queue "u1" 7 (w_keyed "") w_policy Second).1 in
  let q' := run_ops q1 [(w_policy, 2 * Second, OReceive (w_receive 1) (λ _, ""));
                        (w_policy, 3 * Second, OSettle "ru1")] in
  q_Messages q' = [] ∧
  m_ID (Enqueue q' "u2" 8 (w_keyed "") w_policy (60 * Second)).2.1 = "u1".
Proof.
  intros q1 q'. split; [vm_compute; reflexivity|].
  pose proof (dedup_answers_the_original (P:=Z) empty_queue "u1" "u2" 7 8 (w_keyed "") (w_keyed "")
    w_policy w_policy Second (60 * Second)
    [(w_policy, 2 * Second, OReceive (w_receive 1) (λ _, "")); (w_policy, 3 * Second, OSettle "ru1")]
    (new_message "u1" 7 (w_keyed "") 1 Second)
    ltac:(discriminate) eq_refl eq_refl eq_refl ltac:(vm_compute; reflexivity)
    ltac:(repeat constructor) eq_refl) as H.
  fold q1 in H. cbv zeta in H. fold q' in H. revert H.
  destruct (Enqueue q' "u2" 8 (w_keyed "") w_policy (60 * Second)) as [q'' [m' dup]].
  intros (_ & H & _). exact H.
Defined.

(** [NextChange] names the first instant after [now] at which the queue
    changes by itself: until then every message is exactly as available and as
    held as it is now, some message changes at it, and when it names none
    nothing ever changes without an operation. *)
Theorem next_change_is_first {P} (q : Queue P) (pol : Policy) (now : Time) :
  0 ≤ now →
  let same t := ∀ m, m ∈ q_Messages q →
    Available m pol t = Available m pol now ∧ Held m t = Held m now in
  match NextChange q pol now with
  | Some t => now < t ∧ (∀ t', now ≤ t' < t → same t') ∧
      ∃ m, m ∈ q_Messages q ∧
        (Available m pol t ≠ Available m pol now ∨ Held m t ≠ Held m now)
  | None => ∀ t', now ≤ t' → same t'
  end.
Proof.
  intros Hnow same.
  assert (0 ≤ ms now) as Hn by (apply ms_le; lia).
  destruct (next_change_fold pol now (q_Messages q) 0 Hn) as (Hgt & Hmin & _ & Hex); [by left|].
  assert (∀ t', now ≤ t' → (∀ m k, m ∈ q_Messages q → changes_at m pol k → ms now < k → ms t' < k) →
    same t') as Hsame.
  { intros t' Ht Hk m Hm. pose proof (ms_mono _ _ Ht) as Hmono.
    assert (∀ k, changes_at m pol k → (k <=? ms t') = (k <=? ms now)) as Heq.
    { intros k Hc. destruct (Z.leb_spec k (ms now)); [apply Z.leb_le; lia|].
      apply Z.leb_gt. by eapply Hk. }
    split; [apply Heq; unfold changes_at, availableAt; destruct (m_Leased m); auto|].
    unfold Held. rewrite !Z.ltb_antisym. f_equal. f_equal. apply Heq. by left. }
  unfold NextChange. set (next := foldl _ 0 (q_Messages q)) in *.
  destruct (Z.eqb_spec next 0) as [Hz|Hz].
  - intros t' Ht. apply Hsame; [done|]. intros m k Hm Hc Hk.
    destruct (Hmin m k Hm Hc Hk). done.
  - assert (ms now < next) as Hlt by lia.
    assert (ms (next * Millisecond) = next) as Hms by (unfold ms, UnixMilli; by apply Z.div_mul).
    split; [|split].
    + apply Z.nle_gt. intros Hle%ms_mono. lia.
    + intros t' [Ht Ht']. apply Hsame; [done|]. intros m k Hm Hc Hk.
      destruct (Hmin m k Hm Hc Hk). apply ms_lt. unfold Millisecond in *. lia.
    + destruct Hex as [?|(m & Hm & Hc)]; [done|]. exists m. split; [done|].
      unfold Available, Held. rewrite Hms. destruct Hc as [Hc|[Hl Hc]].
      * destruct (m_Leased m) eqn:E; [right|left].
        { simpl. rewrite <- Hc, Z.ltb_irrefl, (proj2 (Z.ltb_lt _ _)) by done. done. }
        unfold availableAt. rewrite E, <- Hc, Z.leb_refl, (proj2 (Z.leb_gt _ _)) by done. done.
      * left. rewrite <- Hc, Z.leb_refl, (proj2 (Z.leb_gt _ _)) by done. done.
Qed.

Lemma next_change_is_first_witness :
  NextChange w_group_queue w_policy (2 * Second) = Some (61 * Second) ∧
  ∀ t', 2 * Second ≤ t' < 61 * Second → ∀ m, m ∈ q_Messages w_group_queue →
    Available m w_policy t' = Available m w_policy (2 * Second) ∧
    Held m t' = Held m (2 * Second).
Proof.
  assert (NextChange w_group_queue w_policy (2 * Second) = Some (61 * Second)) as E
    by (vm_compute; reflexivity).
  split; [exact E|].
  pose proof (next_change_is_first w_group_queue w_policy (2 * Second)
    ltac:(vm_compute; discriminate)) as H.
  cbv zeta in H. rewrite E in H. exact (proj1 (proj2 H)).
Defined.

(** Settling takes exactly the message the receipt names, whose receipt
    it is and whose lease is live unless receipts outlive leases, and leaves
    every other message in place; a receipt that names none changes nothing. *)
Theorem settle_takes_the_named_message {P} (q : Queue P) (receipt : string) (pol : Policy) (now : Time) :
  match Settle q receipt pol now with
  | (q', Some m) => ∃ before after,
      q_Messages q = before ++ m :: after ∧ q_Messages q' = before ++ after ∧
      m_Receipt m = receipt ∧ receipt ≠ "" ∧ Forall (λ x, m_Receipt x ≠ receipt) before ∧
      (ReceiptOutlivesLease pol = false → Held m now = true)
  | (q', None) => q' = q ∧
      (receipt = "" ∨ (∀ m, m ∈ q_Messages q → m_Receipt m ≠ receipt) ∨
       ∃ before m after, q_Messages q = before ++ m :: after ∧ m_Receipt m = receipt ∧
         ReceiptOutlivesLease pol = false ∧ Held m now = false)
  end.
Proof.
  unfold Settle, on_receipt, index. case_bool_decide as Hr; simpl; [by auto|].
  pose proof (index_loop_cases receipt pol now (q_Messages q)) as H.
  destruct (index_loop _ _ _ _) as [i|]; simpl.
  - destruct H as (before & m & after & Hq & -> & Hm & Hb & Hh).
    rewrite Hq. rewrite (list_lookup_middle _ _ _ _ eq_refl). simpl. exists before, after.
    split; [done|]. rewrite Hq, take_app_length. split; [|auto].
    by rewrite (cons_middle m before after), app_assoc, drop_app_length' by (rewrite length_app; simpl; lia).
  - split; [done|]. by right.
Qed.

(** Three messages of one group: the first two are leased, the first is given
    back and a third arrives. *)
Definition gap_queue : Queue Z :=
  run_ops empty_queue
    [(w_policy, Second, OEnqueue "" 1 (w_plain "a" "g"));
     (w_policy, Second, OEnqueue "" 2 (w_plain "b" "g"));
     (w_policy, 2 * Second, OReceive (w_receive 2) (λ _, ""));
     (w_policy, 3 * Second, OAbandon "ra");
     (w_policy, 3 * Second, OEnqueue "" 3 (w_plain "c" "g"))].

(** Once the head of an ordered group is taken, a later message of the group
    that is not available does not stop the ones after it: the third message
    is delivered while the second is still held. *)
Theorem ordered_receive_passes_a_held_message :
  let r := (Receive gap_queue (w_receive 5) w_policy (4 * Second) (λ _, "")).2 in
  m_ID <$> q_Messages gap_queue = ["a"; "b"; "c"] ∧
  (λ m, Held m (4 * Second)) <$> q_Messages gap_queue = [false; true; false] ∧
  m_ID <$> r_Leased r = ["a"; "c"].
Proof. vm_compute. done. Qed.
