(* ===== verification/Streamlog.v ===== *)
(** * The partitioned record log ([sim/streamlog/streamlog.go])

    A [Log] keeps one row per record and one head row per partition in two
    stores, reached only through the [Store] interface. The abstract log is a
    finite map from partitions to a first sequence number and the list of
    retained values; the refinement theorem says the rows, their keys and the
    heads are only a representation of it. Each operation holds the
    partition's lock from start to end, so operations of one partition run one
    after the other and each is a function of the state. The second part is
    the placement of records by the MD5 hash of their key. *)

From stdpp Require Import functions.
From S2P Require Import Prelude Store.

(** ** Data *)

Record Record_ (V : Type) := MkRecord { rec_Seq : Z; rec_Time : Z; rec_Value : V }.
Arguments MkRecord {V} _ _ _.
Arguments rec_Seq {V} _.
Arguments rec_Time {V} _.
Arguments rec_Value {V} _.

Record Head := MkHead { First : Z; Next : Z }.

#[global] Instance GoZero_Record {V} `{!GoZero V} : GoZero (Record_ V) := MkRecord 0 0 zero.
#[global] Instance GoZero_Head : GoZero Head := MkHead 0 0.

Definition recordKey (partition : string) (seq : Z) : string :=
  partition +:+ NUL +:+ pad20 seq.

Lemma recordKey_inj p q n m :
  in_u64 n → in_u64 m → recordKey p n = recordKey q m → p = q ∧ n = m.
Proof.
  unfold recordKey. rewrite <- !append_assoc_s. intros Hn Hm H.
  apply scoped_key_inj in H as [H ->]; [|done..].
  apply append_inj_r in H as [-> _]; done.
Qed.

(** ** Operations *)

Inductive ImportError :=
| AlreadyHolds (partition : string)
| NotDense (i : nat) (got want : Z)
| NextPrecedes (next last : Z).

Section Log.
Context {Sr Sh V : Type} `{!GoZero V, !Store Sr (Record_ V), !Store Sh Head}.

Record Log := MkLog { records : Sr; heads : Sh }.

Definition head_of (l : Log) (p : string) : Head := default zero (store_get (heads l) p).

Fixpoint append_loop (p : string) (ms : Z) (rs : Sr) (h : Head) (values : list V)
    : Sr * Head * list (Record_ V) :=
  match values with
  | [] => (rs, h, [])
  | v :: vs =>
      let rec := MkRecord (Next h) ms v in
      let rs := store_put rs (recordKey p (rec_Seq rec)) rec in
      let '(rs, h, out) := append_loop p ms rs (MkHead (First h) (i64 (Next h + 1))) vs in
      (rs, h, rec :: out)
  end.

Definition Append (l : Log) (p : string) (now : Time) (values : list V)
    : Log * list (Record_ V) :=
  let '(rs, h, out) := append_loop p (UnixMilli now) (records l) (head_of l p) values in
  (MkLog rs (store_put (heads l) p h), out).

(** The position of the first record whose number is not the first one's
    plus its index. *)
Fixpoint dense_check (first : Z) (i : nat) (recs : list (Record_ V)) : option ImportError :=
  match recs with
  | [] => None
  | rec :: recs =>
      if rec_Seq rec =? i64 (first + Z.of_nat i) then dense_check first (S i) recs
      else Some (NotDense i (rec_Seq rec) (i64 (first + Z.of_nat i)))
  end.

Definition import_check (next : Z) (recs : list (Record_ V)) : result ImportError Head :=
  match recs with
  | [] => Ok (MkHead next next)
  | r0 :: _ =>
      match dense_check (rec_Seq r0) 0 recs with
      | Some e => Err e
      | None =>
          let last := i64 (default 0 (rec_Seq <$> last recs) + 1) in
          if last >? next then Err (NextPrecedes next (i64 (last - 1)))
          else Ok (MkHead (rec_Seq r0) next)
      end
  end.

Definition put_record (p : string) (rs : Sr) (rec : Record_ V) : Sr :=
  store_put rs (recordKey p (rec_Seq rec)) rec.

Definition Import (l : Log) (p : string) (next : Z) (recs : list (Record_ V))
    : Log * result ImportError unit :=
  match store_get (heads l) p with
  | Some _ => (l, Err (AlreadyHolds p))
  | None =>
      match import_check next recs with
      | Err e => (l, Err e)
      | Ok h =>
          (MkLog (foldl (put_record p) (records l) recs) (store_put (heads l) p h), Ok tt)
      end
  end.

Definition HeadOf (l : Log) (p : string) : Head := head_of l p.

(** The loop of [Read]: [fuel] is the number of sequence numbers left. *)
Fixpoint read_loop (l : Log) (p : string) (next limit : Z) (fuel : nat) (seq len : Z)
    : list (Record_ V) :=
  match fuel with
  | O => []
  | S fuel =>
      if (seq <? next) && (len <? limit) then
        match store_get (records l) (recordKey p seq) with
        | None => []
        | Some rec => rec :: read_loop l p next limit fuel (seq + 1) (len + 1)
        end
      else []
  end.

Definition Read (l : Log) (p : string) (from limit : Z) : list (Record_ V) :=
  let h := head_of l p in
  let from := if from <? First h then First h else from in
  read_loop l p (Next h) limit (Z.to_nat (Next h - from)) from 0.

Definition Last (l : Log) (p : string) : option (Record_ V) :=
  let h := head_of l p in
  if Next h =? First h then None else store_get (records l) (recordKey p (Next h - 1)).

(** The binary search of [SeekTime]; the range halves, so its length bounds
    the iterations. *)
Fixpoint seek_loop (l : Log) (p : string) (target : Z) (fuel : nat) (lo hi : Z) : Z :=
  match fuel with
  | O => lo
  | S fuel =>
      if lo <? hi then
        let mid := lo + Z.quot (hi - lo) 2 in
        match store_get (records l) (recordKey p mid) with
        | Some rec =>
            if rec_Time rec <? target then seek_loop l p target fuel (mid + 1) hi
            else seek_loop l p target fuel lo mid
        | None => seek_loop l p target fuel lo mid
        end
      else lo
  end.

Definition SeekTime (l : Log) (p : string) (t : Time) : Z :=
  let h := head_of l p in
  seek_loop l p (UnixMilli t) (Z.to_nat (Next h - First h)) (First h) (Next h).

Fixpoint trim_loop (p : string) (limit : Z) (fuel : nat) (rs : Sr) (h : Head) (n : Z)
    : Sr * Head * Z :=
  match fuel with
  | O => (rs, h, n)
  | S fuel =>
      if First h <? Next h then
        let k := recordKey p (First h) in
        let keep := match store_get rs k with
                    | Some rec => limit <=? rec_Time rec | None => false end in
        if keep then (rs, h, n)
        else trim_loop p limit fuel (store_delete rs k).1 (MkHead (First h + 1) (Next h)) (n + 1)
      else (rs, h, n)
  end.

Definition Trim (l : Log) (p : string) (cutoff : Time) : Log * Z :=
  match store_get (heads l) p with
  | None => (l, 0)
  | Some h =>
      let '(rs, h', n) :=
        trim_loop p (UnixMilli cutoff) (Z.to_nat (Next h - First h)) (records l) h 0 in
      (MkLog rs (if n >? 0 then store_put (heads l) p h' else heads l), n)
  end.

Fixpoint drop_loop (p : string) (fuel : nat) (rs : Sr) (seq next : Z) : Sr :=
  match fuel with
  | O => rs
  | S fuel =>
      if seq <? next then drop_loop p fuel (store_delete rs (recordKey p seq)).1 (seq + 1) next
      else rs
  end.

Definition Drop (l : Log) (p : string) : Log :=
  match store_get (heads l) p with
  | None => l
  | Some h =>
      MkLog (drop_loop p (Z.to_nat (Next h - First h)) (records l) (First h) (Next h))
            (store_delete (heads l) p).1
  end.
End Log.
Arguments Log : clear implicits.
Arguments MkLog {Sr Sh} _ _.
Arguments records {Sr Sh} _.
Arguments heads {Sr Sh} _.

(** ** The abstract log *)

(** A partition is its first sequence number and, for every number from there
    up to the next one, the arrival time and value of its record, or nothing:
    an import may run past its last record, and those numbers have none. *)
Abbreviation plog V := (Z * list (option (Z * V)))%type.
Abbreviation alog V := (gmap string (plog V)).

Fixpoint numbered {V} (n : Z) (rows : list (Z * V)) : list (Record_ V) :=
  match rows with
  | [] => []
  | (t, v) :: rows => MkRecord n t v :: numbered (n + 1) rows
  end.

(** The records of a partition by sequence number. *)
Fixpoint slots {V} (n : Z) (rows : list (option (Z * V))) : list (option (Record_ V)) :=
  match rows with
  | [] => []
  | row :: rows => ((λ tv, MkRecord n tv.1 tv.2) <$> row) :: slots (n + 1) rows
  end.

(** The records up to the first number that has none. *)
Fixpoint unbroken {A} (l : list (option A)) : list A :=
  match l with Some x :: l => x :: unbroken l | _ => [] end.

Definition next_of {V} (pl : plog V) : Z := pl.1 + Z.of_nat (length pl.2).
Definition plog_of {V} (a : alog V) (p : string) : plog V := default (0, []) (a !! p).

Inductive log_op (V : Type) :=
| OpAppend (p : string) (now : Time) (values : list V)
| OpImport (p : string) (next : Z) (recs : list (Record_ V))
| OpHead (p : string)
| OpRead (p : string) (from limit : Z)
| OpLast (p : string)
| OpTrim (p : string) (cutoff : Time)
| OpDrop (p : string).
Arguments OpAppend {V}.
Arguments OpImport {V}.
Arguments OpHead {V}.
Arguments OpRead {V}.
Arguments OpLast {V}.
Arguments OpTrim {V}.
Arguments OpDrop {V}.

Inductive log_answer (V : Type) :=
| ARecords (rs : list (Record_ V))
| AImport (r : result ImportError unit)
| AHead (h : Head)
| ALast (r : option (Record_ V))
| ACount (n : Z)
| ADone.
Arguments ARecords {V}.
Arguments AImport {V}.
Arguments AHead {V}.
Arguments ALast {V}.
Arguments ACount {V}.
Arguments ADone {V}.

(** The oldest numbers whose record arrived before a limit or is missing. *)
Fixpoint aged {V} (limit : Z) (rows : list (option (Z * V))) : nat :=
  match rows with
  | Some (t, _) :: rows => if t <? limit then S (aged limit rows) else O
  | None :: rows => S (aged limit rows)
  | [] => O
  end.

(** The rows of an import, and the numbers between its last record and the
    next one. *)
Definition imported {V} (h : Head) (recs : list (Record_ V)) : list (option (Z * V)) :=
  ((λ r, Some (rec_Time r, rec_Value r)) <$> recs) ++
  replicate (Z.to_nat (Next h - First h) - length recs) None.

Definition abstract_op {V} (a : alog V) (op : log_op V) : alog V * log_answer V :=
  match op with
  | OpAppend p now values =>
      let pl := plog_of a p in
      let new := (λ v, (UnixMilli now, v)) <$> values in
      (<[p := (pl.1, pl.2 ++ (Some <$> new))]> a, ARecords (numbered (next_of pl) new))
  | OpImport p next recs =>
      if bool_decide (is_Some (a !! p)) then (a, AImport (Err (AlreadyHolds p)))
      else match import_check next recs with
           | Err e => (a, AImport (Err e))
           | Ok h => (<[p := (First h, imported h recs)]> a, AImport (Ok tt))
           end
  | OpHead p => (a, AHead (MkHead (plog_of a p).1 (next_of (plog_of a p))))
  | OpRead p from limit =>
      let pl := plog_of a p in
      let skip := Z.to_nat (from - pl.1) in
      (a, ARecords (take (Z.to_nat limit) (unbroken (drop skip (slots pl.1 pl.2)))))
  | OpLast p => (a, ALast (mjoin (last (slots (plog_of a p).1 (plog_of a p).2))))
  | OpTrim p cutoff =>
      let pl := plog_of a p in
      let n := aged (UnixMilli cutoff) pl.2 in
      (if bool_decide (is_Some (a !! p)) then <[p := (pl.1 + Z.of_nat n, drop n pl.2)]> a else a,
       ACount (Z.of_nat n))
  | OpDrop p => (delete p a, ADone)
  end.

(** What a caller owes: sequence numbers are not negative and stay below
    2^63, the one after an imported record included. *)
Definition op_ok {V} (a : alog V) (op : log_op V) : Prop :=
  match op with
  | OpAppend p _ values => next_of (plog_of a p) + Z.of_nat (length values) < 2 ^ 63
  | OpImport p next recs =>
      0 ≤ next < 2 ^ 63 ∧ Forall (λ r, 0 ≤ rec_Seq r < 2 ^ 63 - 1) recs
  | _ => True
  end.

(** *** Numbered rows *)

Lemma numbered_lookup {V} n (rows : list (Z * V)) i r :
  numbered n rows !! i = Some r ↔
  ∃ t v, rows !! i = Some (t, v) ∧ r = MkRecord (n + Z.of_nat i) t v.
Proof.
  revert n i. induction rows as [|[t v] rows IH]; intros n i; simpl.
  - rewrite lookup_nil. split; [done|]. intros (?&?&?&?). done.
  - destruct i as [|i]; simpl.
    + replace (n + Z.of_nat 0) with n by lia. split; [intros [= <-]; eauto|].
      intros (?&?&[= -> ->]&->). done.
    + rewrite IH. by replace (n + 1 + Z.of_nat i) with (n + Z.of_nat (S i)) by lia.
Qed.

Lemma length_numbered {V} n (rows : list (Z * V)) : length (numbered n rows) = length rows.
Proof. revert n. induction rows as [|[] ? IH]; intros; simpl; auto. Qed.

Lemma numbered_app {V} n (r1 r2 : list (Z * V)) :
  numbered n (r1 ++ r2) = numbered n r1 ++ numbered (n + Z.of_nat (length r1)) r2.
Proof.
  revert n. induction r1 as [|[t v] r1 IH]; intros n; simpl.
  - by replace (n + Z.of_nat 0) with n by lia.
  - rewrite IH. by replace (n + 1 + Z.of_nat (length r1)) with (n + Z.of_nat (S (length r1))) by lia.
Qed.

Lemma slots_lookup {V} n (rows : list (option (Z * V))) i :
  slots n rows !! i = (λ row, (λ tv, MkRecord (n + Z.of_nat i) tv.1 tv.2) <$> row) <$> rows !! i.
Proof.
  revert n i. induction rows as [|row rows IH]; intros n [|i]; simpl; [done|done| |].
  - by rewrite Z.add_0_r.
  - rewrite IH. by replace (n + 1 + Z.of_nat i) with (n + Z.of_nat (S i)) by lia.
Qed.

Lemma length_slots {V} n (rows : list (option (Z * V))) : length (slots n rows) = length rows.
Proof. revert n. induction rows as [|[] ? IH]; intros; simpl; auto. Qed.

Lemma dense_check_numbered {V} first i (recs : list (Record_ V)) :
  0 ≤ first → first + Z.of_nat i ≤ 2 ^ 63 → Forall (λ r, 0 ≤ rec_Seq r < 2 ^ 63) recs →
  dense_check first i recs = None →
  recs = numbered (first + Z.of_nat i) ((λ r, (rec_Time r, rec_Value r)) <$> recs).
Proof.
  intros Hf. revert i.
  induction recs as [|[s t v] recs IH]; intros i Hlen Hr Hd; simpl in *; [done|].
  apply Forall_cons in Hr as [Hs Hr]. simpl in Hs.
  case_hyp Hd; [|done]. bools.
  destruct (decide (first + Z.of_nat i = 2 ^ 63)) as [Ew|].
  { rewrite Ew in Heqb. subst s. vm_compute in Hs. destruct Hs as [Hs _]. done. }
  rewrite i64_id in Heqb by (unfold in_i64; lia). subst s. f_equal.
  rewrite IH with (i := S i) at 1; [|lia|done..].
  by replace (first + Z.of_nat (S i)) with (first + Z.of_nat i + 1) by lia.
Qed.

(** ** The rows represent the abstract partitions *)

Definition row_at {V} (pl : plog V) (s : Z) : option (Record_ V) :=
  if s <? pl.1 then None else mjoin (slots pl.1 pl.2 !! Z.to_nat (s - pl.1)).

Definition plog_ok {V} (pl : plog V) : Prop := 0 ≤ pl.1 ∧ next_of pl < 2 ^ 63.

Lemma row_at_Some {V} (pl : plog V) s r :
  row_at pl s = Some r ↔
  ∃ i t v, s = pl.1 + Z.of_nat i ∧ pl.2 !! i = Some (Some (t, v)) ∧ r = MkRecord s t v.
Proof.
  unfold row_at. destruct (Z.ltb_spec s pl.1) as [Hlt|Hge].
  - split; [done|]. intros (i&?&?&?&_). lia.
  - rewrite slots_lookup. split.
    + intros Hr. destruct (pl.2 !! Z.to_nat (s - pl.1)) as [[[t v]|]|] eqn:E; [|done..].
      injection Hr as <-. exists (Z.to_nat (s - pl.1)), t, v. split; [lia|]. split; [done|]. f_equal. simpl. lia.
    + intros (i&t&v&->&Hr&->). replace (Z.to_nat (pl.1 + Z.of_nat i - pl.1)) with i by lia. by rewrite Hr.
Qed.

Lemma row_at_index {V} (pl : plog V) i row :
  pl.2 !! i = Some row →
  row_at pl (pl.1 + Z.of_nat i) = (λ tv, MkRecord (pl.1 + Z.of_nat i) tv.1 tv.2) <$> row.
Proof.
  intros Hi. unfold row_at. rewrite (proj2 (Z.ltb_ge _ _)) by lia.
  replace (Z.to_nat (pl.1 + Z.of_nat i - pl.1)) with i by lia. by rewrite slots_lookup, Hi.
Qed.

Lemma row_at_None {V} (pl : plog V) s : s < pl.1 ∨ next_of pl ≤ s → row_at pl s = None.
Proof.
  unfold row_at, next_of. destruct (Z.ltb_spec s pl.1) as [Hlt|Hge]; [done|]. intros Hs.
  by rewrite (proj2 (lookup_ge_None _ _)) by (rewrite length_slots; lia).
Qed.

Lemma row_at_snoc {V} (f : Z) (rows : list (option (Z * V))) row s :
  row_at (f, rows ++ [row]) s =
  if decide (s = f + Z.of_nat (length rows)) then (λ tv, MkRecord s tv.1 tv.2) <$> row
  else row_at (f, rows) s.
Proof.
  case_decide as Hs.
  - subst s. apply (row_at_index (f, rows ++ [row])). simpl. by apply list_lookup_middle.
  - apply option_eq. intros r. rewrite !row_at_Some; simpl.
    split; intros (i&t'&v'&Hi&Hl&->); exists i, t', v'.
    + apply lookup_app_Some in Hl as [Hl|[Hi' Hl]]; [done|].
      apply list_lookup_singleton_Some in Hl as [? _]. lia.
    + split; [done|]. split; [|done]. apply lookup_app_Some. by left.
Qed.

(** Numbers without a record have no row. *)
Lemma row_at_holes {V} (f : Z) (rows : list (option (Z * V))) k s :
  row_at (f, rows ++ replicate k None) s = row_at (f, rows) s.
Proof.
  apply option_eq. intros r. rewrite !row_at_Some; simpl.
  split; intros (i&t'&v'&Hi&Hl&->); exists i, t', v'; (split; [done|]); (split; [|done]).
  - apply lookup_app_Some in Hl as [Hl|[_ [? _]%lookup_replicate_1]]; done.
  - apply lookup_app_Some. by left.
Qed.

Lemma row_at_tail {V} (f : Z) (x : option (Z * V)) rows s :
  row_at (f + 1, rows) s = if decide (s = f) then None else row_at (f, x :: rows) s.
Proof.
  apply option_eq. intros r. rewrite row_at_Some; simpl. case_decide as Hs.
  - split; [|done]. intros (i&?&?&?&_). lia.
  - rewrite row_at_Some; simpl. split.
    + intros (i&t&v&->&Hl&->). exists (S i), t, v. split; [lia|done].
    + intros ([|i]&t&v&->&Hl&->); [lia|]. exists i, t, v. split; [lia|done].
Qed.

Section Rows.
Context {Sr Sh V : Type} `{!GoZero V, !Store Sr (Record_ V), !Store Sh Head}.
Context `{!StoreSpec Sr (Record_ V), !StoreSpec Sh Head}.

(** The record store holds exactly the rows of the partitions [f]. *)
Definition rows_ok (rs : Sr) (f : string → plog V) : Prop :=
  store_ok rs ∧
  (∀ p s, 0 ≤ s < 2 ^ 63 → contents rs !! recordKey p s = row_at (f p) s) ∧
  (∀ k, is_Some (contents rs !! k) → ∃ p s, 0 ≤ s < 2 ^ 63 ∧ k = recordKey p s).

Lemma rows_ok_ext rs f g :
  rows_ok rs f → (∀ p s, 0 ≤ s < 2 ^ 63 → row_at (f p) s = row_at (g p) s) → rows_ok rs g.
Proof.
  intros (Hs & Hr & Hk) He. split; [done|]. split; [|done]. intros p s Hp.
  rewrite Hr, He; done.
Qed.

(** Naming a partition's rows again, or twice, says nothing new. *)
Lemma rows_ok_same rs f p pl : rows_ok rs f → f p = pl → rows_ok rs (<[p := pl]> f).
Proof.
  intros Hr <-. eapply rows_ok_ext; [exact Hr|]. intros q s _.
  destruct (decide (q = p)) as [->|]; [by rewrite fn_lookup_insert|by rewrite fn_lookup_insert_ne].
Qed.

Lemma rows_ok_twice rs f p pl pl' pl0 :
  rows_ok rs (<[p := pl]> (<[p := pl0]> f)) → pl = pl' → rows_ok rs (<[p := pl']> f).
Proof.
  intros Hr <-. eapply rows_ok_ext; [exact Hr|]. intros q s _.
  destruct (decide (q = p)) as [->|]; [by rewrite !fn_lookup_insert|by rewrite !fn_lookup_insert_ne].
Qed.

Lemma recordKey_ne p q s n :
  0 ≤ s < 2 ^ 63 → 0 ≤ n < 2 ^ 63 → (q, n) ≠ (p, s) → recordKey q n ≠ recordKey p s.
Proof.
  intros Hs Hn Hne H. apply recordKey_inj in H as [-> ->]; [done|unfold in_u64; lia..].
Qed.

(** Writing or deleting one row changes one row. *)
Lemma rows_ok_put rs f p s r pl :
  rows_ok rs f → 0 ≤ s < 2 ^ 63 →
  (∀ n, row_at pl n = if decide (n = s) then Some r else row_at (f p) n) →
  rows_ok (store_put rs (recordKey p s) r) (<[p := pl]> f).
Proof.
  intros (Hs & Hr & Hk) Hb Hpl. destruct (put_spec rs (recordKey p s) r Hs) as [Hok Hc].
  split; [done|]. rewrite Hc. split.
  - intros q n Hn. destruct (decide ((q, n) = (p, s))) as [[= -> ->]|Hne].
    + rewrite lookup_insert_eq, fn_lookup_insert, Hpl. by rewrite decide_True.
    + rewrite lookup_insert_ne by (by apply not_eq_sym, recordKey_ne). rewrite Hr by done.
      destruct (decide (q = p)) as [->|]; [|by rewrite fn_lookup_insert_ne].
      rewrite fn_lookup_insert, Hpl, decide_False; [done|congruence].
  - intros k. destruct (decide (k = recordKey p s)) as [->|]; [eauto|].
    rewrite lookup_insert_ne by done. apply Hk.
Qed.

Lemma rows_ok_delete rs f p s pl :
  rows_ok rs f → 0 ≤ s < 2 ^ 63 →
  (∀ n, row_at pl n = if decide (n = s) then None else row_at (f p) n) →
  rows_ok (store_delete rs (recordKey p s)).1 (<[p := pl]> f).
Proof.
  intros (Hs & Hr & Hk) Hb Hpl. destruct (delete_spec rs (recordKey p s) Hs) as (Hok & Hc & _).
  split; [done|]. rewrite Hc. split.
  - intros q n Hn. destruct (decide ((q, n) = (p, s))) as [[= -> ->]|Hne].
    + rewrite lookup_delete_eq, fn_lookup_insert, Hpl. by rewrite decide_True.
    + rewrite lookup_delete_ne by (by apply not_eq_sym, recordKey_ne). rewrite Hr by done.
      destruct (decide (q = p)) as [->|]; [|by rewrite fn_lookup_insert_ne].
      rewrite fn_lookup_insert, Hpl, decide_False; [done|congruence].
  - intros k [x Hx]. apply lookup_delete_Some in Hx as [_ Hx]. eauto.
Qed.

Lemma get_row (l : Log Sr Sh) f p s :
  rows_ok (records l) f → 0 ≤ s < 2 ^ 63 →
  store_get (records l) (recordKey p s) = row_at (f p) s.
Proof. intros (Hok & Hr & _) Hs. by rewrite get_spec, Hr. Qed.

Lemma append_loop_rows rs f p ms first rows vs :
  rows_ok rs f → f p = (first, rows) → 0 ≤ first →
  first + Z.of_nat (length rows + length vs) < 2 ^ 63 →
  let n := first + Z.of_nat (length rows) in
  let new := (λ v, (ms, v)) <$> vs in
  ∃ rs', append_loop p ms rs (MkHead first n) vs
         = (rs', MkHead first (n + Z.of_nat (length vs)), numbered n new) ∧
    rows_ok rs' (<[p := (first, rows ++ (Some <$> new))]> f).
Proof.
  intros Hr Hf H0 Hb n new. subst n new. revert rs f rows Hr Hf Hb.
  induction vs as [|v vs IH]; intros rs f rows Hr Hf Hb; simpl.
  - exists rs. rewrite app_nil_r. split; [do 3 f_equal; lia|]. by apply rows_ok_same.
  - simpl in Hb. rewrite i64_id by (unfold in_i64; lia).
    set (n := first + Z.of_nat (length rows)).
    destruct (IH (store_put rs (recordKey p n) (MkRecord n ms v))
                (<[p := (first, rows ++ [Some (ms, v)])]> f) (rows ++ [Some (ms, v)])) as (rs' & He & Hr').
    + apply rows_ok_put; [done|lia|]. intros s. rewrite row_at_snoc, Hf. fold n.
      case_decide; by subst.
    + by rewrite fn_lookup_insert.
    + rewrite length_app. simpl. lia.
    + rewrite length_app in He. simpl in He.
      replace (first + Z.of_nat (length rows + 1)) with (n + 1) in He by lia.
      exists rs'. rewrite He. split; [do 3 f_equal; lia|].
      eapply rows_ok_twice; [exact Hr'|]. by rewrite <- app_assoc.
Qed.

Lemma put_records_rows rs f p first rows new :
  rows_ok rs f → f p = (first, rows) → 0 ≤ first →
  first + Z.of_nat (length rows + length new) ≤ 2 ^ 63 →
  rows_ok (foldl (put_record p) rs (numbered (first + Z.of_nat (length rows)) new))
          (<[p := (first, rows ++ (Some <$> new))]> f).
Proof.
  revert rs f rows. induction new as [|[t v] new IH]; intros rs f rows Hr Hf H0 Hb; simpl.
  - rewrite app_nil_r. by apply rows_ok_same.
  - simpl in Hb. set (n := first + Z.of_nat (length rows)).
    assert (rows_ok (put_record p rs (MkRecord n t v)) (<[p:=(first, rows ++ [Some (t, v)])]> f)) as H1.
    { apply rows_ok_put; [done|simpl; lia|]. intros s. simpl. rewrite row_at_snoc, Hf. fold n.
      case_decide; by subst. }
    specialize (IH _ _ (rows ++ [Some (t, v)]) H1). rewrite fn_lookup_insert, length_app in IH. simpl in IH.
    replace (first + Z.of_nat (length rows + 1)) with (n + 1) in IH by lia.
    eapply rows_ok_twice; [apply IH; [done|done|lia]|]. by rewrite <- app_assoc.
Qed.

Lemma read_loop_rows (l : Log Sr Sh) f p limit k len :
  rows_ok (records l) f → plog_ok (f p) → 0 ≤ len →
  let rows := drop k (slots (f p).1 (f p).2) in
  read_loop l p (next_of (f p)) limit (length rows) ((f p).1 + Z.of_nat k) len
  = take (Z.to_nat (limit - len)) (unbroken rows).
Proof.
  intros Hr Hok. intros Hlen rows. subst rows.
  remember (length (drop k (slots (f p).1 (f p).2))) as n eqn:Hn.
  revert k len Hn Hlen. destruct Hok as [H0 Hb].
  induction n as [|n IH]; intros k len Hn Hlen.
  { symmetry in Hn. apply nil_length_inv in Hn. rewrite Hn. simpl. by rewrite take_nil. }
  cbn [read_loop]. unfold next_of in *. rewrite length_drop, length_slots in Hn.
  rewrite (proj2 (Z.ltb_lt _ _)) by lia. simpl.
  destruct (Z.ltb_spec len limit) as [Hlt|Hge];
    [|by replace (Z.to_nat (limit - len)) with 0%nat by lia].
  destruct (lookup_lt_is_Some_2 (f p).2 k) as [row Hk]; [lia|].
  rewrite (get_row l f) by (done || lia). rewrite (row_at_index _ _ _ Hk).
  assert (slots (f p).1 (f p).2 !! k = Some ((λ tv, MkRecord ((f p).1 + Z.of_nat k) tv.1 tv.2) <$> row)) as Hd.
  { by rewrite slots_lookup, Hk. }
  rewrite (drop_S _ _ _ Hd). destruct row as [[t v]|]; simpl; [|by rewrite take_nil].
  replace (Z.to_nat (limit - len)) with (S (Z.to_nat (limit - (len + 1)))) by lia.
  simpl. f_equal.
  replace ((f p).1 + Z.of_nat k + 1) with ((f p).1 + Z.of_nat (S k)) by lia.
  apply IH; [|lia]. rewrite length_drop, length_slots. lia.
Qed.

Lemma trim_loop_rows rs f p limit first rows m :
  rows_ok rs f → f p = (first, rows) → plog_ok (first, rows) →
  let n := aged limit rows in
  ∃ rs', trim_loop p limit (length rows) rs (MkHead first (next_of (first, rows))) m
         = (rs', MkHead (first + Z.of_nat n) (next_of (first, rows)), m + Z.of_nat n) ∧
    rows_ok rs' (<[p := (first + Z.of_nat n, drop n rows)]> f).
Proof.
  intros Hr Hf [H0 Hb]. simpl in *. unfold next_of in *. simpl in *.
  revert rs f first m Hr Hf H0 Hb.
  induction rows as [|row rows IH]; intros rs f first m Hr Hf H0 Hb; simpl.
  - exists rs. replace (first + Z.of_nat 0) with first by lia. rewrite Z.add_0_r.
    split; [done|]. by apply rows_ok_same.
  - simpl in Hb. rewrite (proj2 (Z.ltb_lt _ _)) by lia.
    assert (store_get rs (recordKey p first) = (λ tv, MkRecord first tv.1 tv.2) <$> row) as ->.
    { destruct Hr as (Hok & Hr & _). rewrite get_spec, Hr, Hf by (done || lia).
      pose proof (row_at_index (first, row :: rows) 0 row eq_refl) as Hrow. simpl in Hrow.
      by rewrite Z.add_0_r in Hrow. }
    assert (∃ rs', trim_loop p limit (length rows) (store_delete rs (recordKey p first)).1
        (MkHead (first + 1) (first + Z.of_nat (S (length rows)))) (m + 1) =
        (rs', MkHead (first + Z.of_nat (S (aged limit rows))) (first + Z.of_nat (S (length rows))),
         m + Z.of_nat (S (aged limit rows))) ∧
      rows_ok rs' (<[p := (first + Z.of_nat (S (aged limit rows)), drop (aged limit rows) rows)]> f)) as Hdel.
    { edestruct (IH (store_delete rs (recordKey p first)).1 (<[p := (first + 1, rows)]> f)
                   (first + 1) (m + 1)) as (rs' & He & Hr').
      * apply rows_ok_delete; [done|lia|]. intros s. rewrite Hf. apply row_at_tail.
      * by rewrite fn_lookup_insert.
      * lia.
      * lia.
      * exists rs'. replace (first + Z.of_nat (S (length rows)))
          with (first + 1 + Z.of_nat (length rows)) by lia. rewrite He.
        split; [f_equal; [do 2 f_equal; lia|lia]|].
        eapply rows_ok_twice; [exact Hr'|]. f_equal. lia. }
    destruct row as [[t v]|]; simpl; [|done]. rewrite Z.leb_antisym.
    destruct (Z.ltb_spec t limit) as [Hlt|Hge]; simpl; [done|].
    exists rs. rewrite !Z.add_0_r. split; [done|]. by apply rows_ok_same.
Qed.

Lemma drop_loop_rows rs f p first rows :
  rows_ok rs f → f p = (first, rows) → plog_ok (first, rows) →
  rows_ok (drop_loop p (length rows) rs first (next_of (first, rows)))
          (<[p := (next_of (first, rows), [])]> f).
Proof.
  intros Hr Hf [H0 Hb]. unfold next_of in *. simpl in *. revert rs f first Hr Hf H0 Hb.
  induction rows as [|row rows IH]; intros rs f first Hr Hf H0 Hb; simpl.
  - replace (first + Z.of_nat 0) with first by lia.
    by apply rows_ok_same.
  - simpl in Hb. rewrite (proj2 (Z.ltb_lt _ _)) by lia.
    replace (first + Z.of_nat (S (length rows))) with (first + 1 + Z.of_nat (length rows)) by lia.
    eapply rows_ok_twice; [|done].
    apply (IH _ (<[p := (first + 1, rows)]> f)); [|by rewrite fn_lookup_insert|lia..].
    apply rows_ok_delete; [done|lia|]. intros s. rewrite Hf. apply row_at_tail.
Qed.
End Rows.

(** ** Refinement *)

Definition head_row {V} (pl : plog V) : Head := MkHead pl.1 (next_of pl).

Definition run_op {Sr Sh V} `{!GoZero V, !Store Sr (Record_ V), !Store Sh Head}
    (l : Log Sr Sh) (op : log_op V) : Log Sr Sh * log_answer V :=
  match op with
  | OpAppend p now values => let r := Append l p now values in (r.1, ARecords r.2)
  | OpImport p next recs => let r := Import l p next recs in (r.1, AImport r.2)
  | OpHead p => (l, AHead (HeadOf l p))
  | OpRead p from limit => (l, ARecords (Read l p from limit))
  | OpLast p => (l, ALast (Last l p))
  | OpTrim p cutoff => let r := Trim (V:=V) l p cutoff in (r.1, ACount r.2)
  | OpDrop p => (Drop (V:=V) l p, ADone)
  end.

(** An accepted import is dense from its first record to its last, which
    [next] does not precede. *)
Lemma import_check_numbered {V} next (recs : list (Record_ V)) h :
  0 ≤ next < 2 ^ 63 → Forall (λ r, 0 ≤ rec_Seq r < 2 ^ 63 - 1) recs →
  import_check next recs = Ok h →
  recs = numbered (First h) ((λ r, (rec_Time r, rec_Value r)) <$> recs) ∧
  h = head_row (First h, imported h recs) ∧ plog_ok (First h, imported h recs).
Proof.
  intros Hn Hseq Ec. set (times := (λ r, (rec_Time r, rec_Value r)) <$> recs).
  assert (recs = numbered (First h) times ∧ Next h = next ∧ 0 ≤ First h ∧
          First h + Z.of_nat (length recs) ≤ next) as (Hd & Hx & H0 & Hle).
  { assert (recs = [] ∨ ∃ r0 recs', recs = r0 :: recs') as [E|(r0 & recs' & Er)]
      by (destruct recs; eauto).
    { subst times recs. simpl in Ec. injection Ec as <-. simpl. split; [done|]. lia. }
    rewrite Er in Ec. cbn [import_check] in Ec. rewrite <- Er in Ec.
    destruct (dense_check (rec_Seq r0) 0 recs) eqn:Hd; [done|].
    case_hyp Ec; [done|]. injection Ec as <-. simpl.
    assert (0 ≤ rec_Seq r0 < 2 ^ 63 - 1) as H0 by (rewrite Er in Hseq; by apply Forall_cons in Hseq as [? _]).
    apply dense_check_numbered in Hd; [|lia..|eapply Forall_impl; [exact Hseq|simpl; lia]].
    replace (rec_Seq r0 + Z.of_nat 0) with (rec_Seq r0) in Hd by lia. fold times in Hd.
    split; [done|]. split; [done|]. split; [lia|].
    assert (0 < length recs)%nat as Hl by (rewrite Er; simpl; lia).
    destruct (lookup_lt_is_Some_2 recs (pred (length recs))) as [r Hr']; [lia|].
    assert (last recs = Some r) as Hr by (by rewrite last_lookup). rewrite Hr in Heqb. simpl in Heqb.
    pose proof Hr' as Hb. apply list_elem_of_lookup_2 in Hb. rewrite Forall_forall in Hseq. apply Hseq in Hb.
    assert (numbered (rec_Seq r0) times !! pred (length recs) = Some r) as Hn' by (by rewrite <- Hd).
    apply numbered_lookup in Hn' as (?&?&_&->). simpl in *.
    rewrite Z.gtb_ltb, i64_id in Heqb by (unfold in_i64; lia). apply Z.ltb_ge in Heqb. lia. }
  assert (next_of (First h, imported h recs) = next) as Hnext.
  { unfold next_of, imported. simpl. rewrite length_app, length_fmap, length_replicate. lia. }
  split; [done|]. split.
  - unfold head_row. rewrite Hnext. simpl. destruct h; simpl in *. congruence.
  - split; [done|]. rewrite Hnext. lia.
Qed.

Section Refinement.
Context {Sr Sh V : Type} `{!GoZero V, !Store Sr (Record_ V), !Store Sh Head}.
Context `{!StoreSpec Sr (Record_ V), !StoreSpec Sh Head}.

Definition represents (l : Log Sr Sh) (a : alog V) : Prop :=
  rows_ok (Sr:=Sr) (records l) (plog_of a) ∧ store_ok (heads l) ∧
  (∀ p, contents (heads l) !! p = head_row <$> a !! p) ∧
  map_Forall (λ _, plog_ok) a.

Lemma represents_head l a p : represents l a → head_of l p = head_row (plog_of a p).
Proof.
  intros (_ & Hs & Hh & _). unfold head_of, plog_of. rewrite get_spec, Hh by done.
  by destruct (a !! p).
Qed.

Lemma represents_plog_ok l a p : represents l a → plog_ok (plog_of a p).
Proof.
  intros (_ & _ & _ & Hok). unfold plog_of. destruct (a !! p) as [pl|] eqn:E; [by eapply Hok|].
  done.
Qed.

Lemma plog_of_insert (a : alog V) p pl q : plog_of (<[p := pl]> a) q = (<[p := pl]> (plog_of a)) q.
Proof.
  unfold plog_of. destruct (decide (q = p)) as [->|].
  - by rewrite lookup_insert_eq, fn_lookup_insert.
  - rewrite lookup_insert_ne, fn_lookup_insert_ne; done.
Qed.

(** New rows and a new head for one partition represent the changed
    partition. *)
Lemma represents_insert l a rs p pl :
  represents l a → rows_ok rs (<[p := pl]> (plog_of a)) → plog_ok pl →
  represents (MkLog rs (store_put (heads l) p (head_row pl))) (<[p := pl]> a).
Proof.
  intros (_ & Hs & Hh & Hok) Hr Hpl. destruct (put_spec (heads l) p (head_row pl) Hs) as [Hs' Hc].
  split; [|split; [done|split]].
  - eapply rows_ok_ext; [exact Hr|]. intros q s _. by rewrite plog_of_insert.
  - intros q. simpl. rewrite Hc. destruct (decide (q = p)) as [->|].
    + by rewrite !lookup_insert_eq.
    + by rewrite !lookup_insert_ne.
  - by apply map_Forall_insert_2.
Qed.

Lemma append_refines l a p now vs :
  represents l a → op_ok a (OpAppend p now vs) →
  represents (Append l p now vs).1 (abstract_op a (OpAppend p now vs)).1 ∧
  ARecords (Append l p now vs).2 = (abstract_op a (OpAppend p now vs)).2.
Proof.
  intros Hrep Hb. pose proof (represents_plog_ok l a p Hrep) as [H0 _]. simpl in Hb.
  unfold Append. rewrite (represents_head l a p Hrep). simpl.
  destruct (plog_of a p) as [first rows] eqn:Ep. unfold head_row, next_of in *. simpl in *.
  destruct (append_loop_rows (records l) (plog_of a) p (UnixMilli now) first rows vs)
    as (rs & He & Hr); [apply Hrep|done|lia|lia|]. rewrite He. simpl. split; [|done].
  set (pl := (first, rows ++ _)) in *.
  replace (MkHead first _) with (head_row pl).
  2:{ unfold head_row, next_of, pl. simpl. rewrite length_app, !length_fmap. f_equal. lia. }
  apply represents_insert; [done|done|]. unfold plog_ok, next_of, pl. simpl.
  rewrite length_app, !length_fmap. lia.
Qed.

Lemma import_refines l a p next recs :
  represents l a → op_ok a (OpImport p next recs) →
  represents (Import l p next recs).1 (abstract_op a (OpImport p next recs)).1 ∧
  AImport (Import l p next recs).2 = (abstract_op a (OpImport p next recs)).2.
Proof.
  intros Hrep Hpre. unfold Import. simpl.
  destruct (Hrep) as (Hr & Hs & Hh & Hok). rewrite get_spec, Hh by done.
  destruct (a !! p) as [pl|] eqn:Ep; simpl; [done|].
  destruct (import_check next recs) as [h|e] eqn:Ec; [|done]. simpl. split; [|done].
  assert (plog_of a p = (0, [])) as Hp0 by (unfold plog_of; by rewrite Ep).
  destruct (import_check_numbered next recs h) as (Hrecs & Hhead & Hpl); [apply Hpre..|done|].
  rewrite Hhead at 1. apply represents_insert; [done| |done].
  set (times := (λ r, (rec_Time r, rec_Value r)) <$> recs) in *.
  assert (imported h recs = (Some <$> times) ++
    replicate (Z.to_nat (Next h - First h) - length recs) None) as Him.
  { unfold imported, times. by rewrite <- list_fmap_compose. }
  rewrite Hrecs at 1. destruct Hpl as [H0 Hlt]. unfold next_of in Hlt. rewrite Him in *. simpl in H0, Hlt.
  rewrite length_app, length_fmap in Hlt.
  replace (First h) with (First h + Z.of_nat (length ([] : list (option (Z * V))))) at 1 by (simpl; lia).
  eapply (rows_ok_ext _ (<[p := (First h, [] ++ (Some <$> times))]> (<[p := (First h, [])]> (plog_of a)))).
  - apply put_records_rows; [|by rewrite fn_lookup_insert|done|simpl; lia].
    eapply rows_ok_ext; [exact Hr|]. intros q s _. destruct (decide (q = p)) as [->|].
    + rewrite fn_lookup_insert, Hp0. unfold row_at. simpl. by repeat case_match.
    + by rewrite fn_lookup_insert_ne.
  - intros q s _. destruct (decide (q = p)) as [->|]; [|by rewrite !fn_lookup_insert_ne].
    by rewrite !fn_lookup_insert, row_at_holes.
Qed.

Lemma read_refines l a p from limit :
  represents l a →
  ARecords (Read l p from limit) = (abstract_op a (OpRead p from limit)).2.
Proof.
  intros Hrep. pose proof (represents_plog_ok l a p Hrep) as Hok. simpl. f_equal.
  unfold Read. rewrite (represents_head l a p Hrep). simpl.
  set (pl := plog_of a p) in *. set (k := Z.to_nat (from - pl.1)).
  assert ((if from <? pl.1 then pl.1 else from) = pl.1 + Z.of_nat k) as ->.
  { subst k. destruct (Z.ltb_spec from pl.1); lia. }
  pose proof (read_loop_rows l (plog_of a) p limit k 0 (proj1 Hrep) Hok ltac:(lia)) as H.
  simpl in H. fold pl in H. rewrite Z.sub_0_r in H.
  rewrite length_drop, length_slots in H. rewrite <- H. f_equal.
  unfold next_of. lia.
Qed.

Lemma last_refines l a p :
  represents l a → ALast (Last l p) = (abstract_op a (OpLast p)).2.
Proof.
  intros Hrep. destruct (represents_plog_ok l a p Hrep) as [H0 Hb]. simpl. f_equal.
  unfold Last. rewrite (represents_head l a p Hrep). simpl.
  set (pl := plog_of a p) in *. rewrite last_lookup, length_slots. unfold next_of in *.
  destruct pl as [first rows] eqn:Epl. simpl in *.
  destruct (Z.eqb_spec (first + Z.of_nat (length rows)) first) as [He|Hne].
  - destruct rows; [done|simpl in He; lia].
  - destruct (lookup_lt_is_Some_2 rows (pred (length rows))) as [row Hl]; [lia|].
    replace (first + Z.of_nat (length rows) - 1) with (first + Z.of_nat (pred (length rows))) by lia.
    rewrite (get_row l (plog_of a)) by (apply Hrep || lia). fold pl. rewrite Epl.
    pose proof (row_at_index (first, rows) _ _ Hl) as Hrow. simpl in Hrow. by rewrite Hrow, slots_lookup, Hl.
Qed.

Lemma trim_refines l a p cutoff :
  represents l a →
  represents (Trim (V:=V) l p cutoff).1 (abstract_op a (OpTrim p cutoff)).1 ∧
  ACount (Trim (V:=V) l p cutoff).2 = (abstract_op a (OpTrim p cutoff)).2.
Proof.
  intros Hrep. destruct (Hrep) as (Hr & Hs & Hh & Hok). unfold Trim. rewrite get_spec, Hh by done. simpl.
  destruct (a !! p) as [[first rows]|] eqn:Ep; simpl.
  2:{ split; [done|]. unfold plog_of. by rewrite Ep. }
  assert (plog_of a p = (first, rows)) as Hp by (unfold plog_of; by rewrite Ep).
  pose proof (Hok _ _ Ep) as Hpl. destruct (Hpl) as [H0 Hb]. simpl in H0.
  destruct (trim_loop_rows (records l) (plog_of a) p (UnixMilli cutoff) first rows 0)
    as (rs & He & Hr'); [done..|]. unfold head_row, next_of in *. simpl in *.
  replace (Z.to_nat (first + Z.of_nat (length rows) - first)) with (length rows) by lia.
  rewrite He, Hp. simpl. set (n := aged (UnixMilli cutoff) rows) in *. split; [|done].
  assert (n ≤ length rows)%nat as Hn.
  { unfold n. clear. induction rows as [|[[t v]|] rows IH]; simpl; [lia| |lia]. destruct (_ <? _); lia. }
  destruct (Z.gtb_spec (0 + Z.of_nat n) 0) as [Hgt|Hle].
  - replace (MkHead _ _) with (head_row (first + Z.of_nat n, drop n rows)).
    2:{ unfold head_row, next_of. simpl. rewrite length_drop. f_equal. lia. }
    apply represents_insert; [done|done|]. unfold plog_ok, next_of. simpl. rewrite length_drop. lia.
  - replace n with 0%nat in * by lia. simpl in *. replace (first + Z.of_nat 0) with first in * by lia.
    rewrite drop_0 in *. rewrite (insert_id a p) by exact Ep. split; [|done].
    eapply rows_ok_ext; [exact Hr'|]. intros q s _. destruct (decide (q = p)) as [->|].
    + by rewrite fn_lookup_insert, Hp.
    + by rewrite fn_lookup_insert_ne.
Qed.

Lemma drop_refines l a p :
  represents l a → represents (Drop (V:=V) l p) (delete p a).
Proof.
  intros Hrep. destruct (Hrep) as (Hr & Hs & Hh & Hok). unfold Drop. rewrite get_spec, Hh by done.
  destruct (a !! p) as [[first rows]|] eqn:Ep; simpl; [|by rewrite delete_id].
  assert (plog_of a p = (first, rows)) as Hp by (unfold plog_of; by rewrite Ep).
  pose proof (drop_loop_rows _ _ _ _ _ Hr Hp (Hok _ _ Ep)) as Hd.
  unfold next_of in *. simpl in *.
  replace (Z.to_nat (first + Z.of_nat (length rows) - first)) with (length rows) by lia.
  destruct (delete_spec (heads l) p Hs) as (Hs' & Hc & _).
  split; [|split; [done|split]].
  - eapply rows_ok_ext; [exact Hd|]. intros q s _. unfold plog_of.
    destruct (decide (q = p)) as [->|].
    + rewrite fn_lookup_insert, lookup_delete_eq. unfold row_at. simpl. by repeat case_match.
    + by rewrite fn_lookup_insert_ne, lookup_delete_ne.
  - intros q. simpl. rewrite Hc. destruct (decide (q = p)) as [->|].
    + by rewrite !lookup_delete_eq.
    + by rewrite !lookup_delete_ne, Hh.
  - by apply map_Forall_delete.
Qed.

Lemma run_op_refines l a op :
  represents l a → op_ok a op →
  represents (run_op l op).1 (abstract_op a op).1 ∧ (run_op l op).2 = (abstract_op a op).2.
Proof.
  intros Hrep Hok. destruct op; [by apply append_refines|by apply import_refines|..].
  - split; [done|]. simpl. unfold HeadOf. by rewrite (represents_head l a p Hrep).
  - split; [done|]. by apply read_refines.
  - split; [done|]. by apply last_refines.
  - by apply trim_refines.
  - split; [by apply drop_refines|done].
Qed.
End Refinement.

(** *** Seeking by time *)

Section Seek.
Context {Sr Sh V : Type} `{!GoZero V, !Store Sr (Record_ V), !Store Sh Head}.
Context `{!StoreSpec Sr (Record_ V), !StoreSpec Sh Head}.

(** Below [s] the neighbouring row is too old, from [s] on it is not. *)
Definition seek_below (pl : plog V) (target s : Z) : Prop :=
  s = pl.1 ∨ ∃ r, row_at pl (s - 1) = Some r ∧ rec_Time r < target.
Definition seek_above (pl : plog V) (target s : Z) : Prop :=
  s = next_of pl ∨ ∃ r, row_at pl s = Some r ∧ target ≤ rec_Time r.

Lemma seek_loop_spec (l : Log Sr Sh) f p target fuel lo hi :
  rows_ok (records l) f → plog_ok (f p) → Forall is_Some (f p).2 →
  (f p).1 ≤ lo ≤ hi → hi ≤ next_of (f p) → hi - lo ≤ Z.of_nat fuel →
  seek_below (f p) target lo → seek_above (f p) target hi →
  let r := seek_loop l p target fuel lo hi in
  (f p).1 ≤ r ≤ next_of (f p) ∧ seek_below (f p) target r ∧ seek_above (f p) target r.
Proof.
  intros Hr [H0 Hb] Hw. revert lo hi.
  induction fuel as [|fuel IH]; intros lo hi Hlo Hhi Hf Hbl Hab; cbn [seek_loop].
  { replace hi with lo in * by lia. auto with lia. }
  destruct (Z.ltb_spec lo hi) as [Hlt|]; last (replace hi with lo in * by lia; auto with lia).
  set (mid := lo + Z.quot (hi - lo) 2).
  assert (lo ≤ mid < hi) as Hm.
  { unfold mid. rewrite Z.quot_div_nonneg by lia.
    pose proof (Z.div_mod (hi - lo) 2). pose proof (Z.mod_pos_bound (hi - lo) 2). lia. }
  rewrite (get_row l f) by (done || lia).
  destruct (row_at (f p) mid) as [r|] eqn:E.
  - destruct (Z.ltb_spec (rec_Time r) target) as [Ht|Ht].
    + apply IH; [lia|lia|lia| |done]. right. exists r. split; [|done]. by rewrite Z.add_simpl_r.
    + apply IH; [lia|lia|lia|done|]. right. eauto.
  - assert (Z.to_nat (mid - (f p).1) < length (f p).2)%nat as Hl by (unfold next_of in Hhi; lia).
    destruct (lookup_lt_is_Some_2 _ _ Hl) as [row Hrow]. rewrite Forall_forall in Hw.
    destruct (Hw row) as [tv ->]; [by eapply list_elem_of_lookup_2|].
    apply row_at_index in Hrow. replace ((f p).1 + _) with mid in Hrow by lia. by rewrite Hrow in E.
Qed.

Lemma seek_time_between l a p t :
  represents l a → Forall is_Some (plog_of a p).2 →
  let r := SeekTime l p t in
  let pl := plog_of a p in
  pl.1 ≤ r ≤ next_of pl ∧ seek_below pl (UnixMilli t) r ∧ seek_above pl (UnixMilli t) r.
Proof.
  intros Hrep Hw. destruct (represents_plog_ok l a p Hrep) as [H0 Hb].
  unfold SeekTime. rewrite (represents_head l a p Hrep). simpl.
  assert (plog_ok (plog_of a p)) by done. unfold next_of in *.
  apply (seek_loop_spec l (plog_of a) p); unfold next_of; [apply Hrep|done|done|lia..| |]; by left.
Qed.
End Seek.

(** ** Placing records by key *)

(** *** MD5 ([crypto/md5], RFC 1321) *)

Definition md5_K : list Z :=
  [0xd76aa478; 0xe8c7b756; 0x242070db; 0xc1bdceee; 0xf57c0faf; 0x4787c62a; 0xa8304613; 0xfd469501;
   0x698098d8; 0x8b44f7af; 0xffff5bb1; 0x895cd7be; 0x6b901122; 0xfd987193; 0xa679438e; 0x49b40821;
   0xf61e2562; 0xc040b340; 0x265e5a51; 0xe9b6c7aa; 0xd62f105d; 0x2441453; 0xd8a1e681; 0xe7d3fbc8;
   0x21e1cde6; 0xc33707d6; 0xf4d50d87; 0x455a14ed; 0xa9e3e905; 0xfcefa3f8; 0x676f02d9; 0x8d2a4c8a;
   0xfffa3942; 0x8771f681; 0x6d9d6122; 0xfde5380c; 0xa4beea44; 0x4bdecfa9; 0xf6bb4b60; 0xbebfbc70;
   0x289b7ec6; 0xeaa127fa; 0xd4ef3085; 0x4881d05; 0xd9d4d039; 0xe6db99e5; 0x1fa27cf8; 0xc4ac5665;
   0xf4292244; 0x432aff97; 0xab9423a7; 0xfc93a039; 0x655b59c3; 0x8f0ccc92; 0xffeff47d; 0x85845dd1;
   0x6fa87e4f; 0xfe2ce6e0; 0xa3014314; 0x4e0811a1; 0xf7537e82; 0xbd3af235; 0x2ad7d2bb; 0xeb86d391].

Definition md5_S : list Z :=
  [7; 12; 17; 22; 5; 9; 14; 20; 4; 11; 16; 23; 6; 10; 15; 21].

Definition u32 (z : Z) : Z := z mod 2 ^ 32.
Definition rotl32 (x s : Z) : Z := Z.lor (u32 (Z.shiftl x s)) (Z.shiftr x (32 - s)).

Definition bytes_of (s : string) : list Z :=
  (λ c, Z.of_N (Ascii.N_of_ascii c)) <$> String.list_ascii_of_string s.

Fixpoint le_bytes (k : nat) (n : Z) : list Z :=
  match k with O => [] | S k => n mod 256 :: le_bytes k (n / 256) end.
Fixpoint le_value (bs : list Z) : Z :=
  match bs with [] => 0 | b :: bs => b + 256 * le_value bs end.
Definition be_value (bs : list Z) : Z := foldl (λ acc b, acc * 256 + b) 0 bs.

Definition md5_pad (bs : list Z) : list Z :=
  let n := length bs in
  bs ++ [0x80] ++ replicate (Z.to_nat ((55 - Z.of_nat n) mod 64)) 0
     ++ le_bytes 8 (8 * Z.of_nat n).

(** One of the 64 steps of the compression function over the 16 words of a
    chunk. *)
Definition md5_step (ws : list Z) (st : Z * Z * Z * Z) (i : nat) : Z * Z * Z * Z :=
  let '(a, b, c, d) := st in
  let '(f, g) :=
    match (i / 16)%nat with
    | 0%nat => (Z.lor (Z.land b c) (Z.land (Z.lxor b (2 ^ 32 - 1)) d), i)
    | 1%nat => (Z.lor (Z.land d b) (Z.land (Z.lxor d (2 ^ 32 - 1)) c), (5 * i + 1)%nat)
    | 2%nat => (Z.lxor b (Z.lxor c d), (3 * i + 5)%nat)
    | _ => (Z.lxor c (Z.lor b (Z.lxor d (2 ^ 32 - 1))), (7 * i)%nat)
    end in
  let x := u32 (f + a + md5_K !!! i + ws !!! (g mod 16)%nat) in
  let s := md5_S !!! (4 * (i / 16) + i mod 4)%nat in
  (d, u32 (b + rotl32 x s), b, c).

Definition md5_chunk (st : Z * Z * Z * Z) (chunk : list Z) : Z * Z * Z * Z :=
  let ws := (λ i, le_value (take 4 (drop (4 * i) chunk))) <$> seq 0 16 in
  let '(a, b, c, d) := st in
  let '(a', b', c', d') := foldl (md5_step ws) st (seq 0 64) in
  (u32 (a + a'), u32 (b + b'), u32 (c + c'), u32 (d + d')).

Definition md5_Sum (bs : list Z) : list Z :=
  let m := md5_pad bs in
  let chunks := (λ i, take 64 (drop (64 * i) m)) <$> seq 0 (length m / 64) in
  let '(a, b, c, d) := foldl md5_chunk (0x67452301, 0xefcdab89, 0x98badcfe, 0x10325476) chunks in
  le_bytes 4 a ++ le_bytes 4 b ++ le_bytes 4 c ++ le_bytes 4 d.

(** The digests RFC 1321 lists for two of its test strings, the second of
    which needs two chunks. *)
Example md5_abc : be_value (md5_Sum (bytes_of "abc")) = 0x900150983cd24fb0d6963f7d28e17f72.
Proof. vm_compute. done. Qed.
Example md5_alnum :
  be_value (md5_Sum (bytes_of "ABCDEFGHIJKLMNOPQRSTUVWXYZabcdefghijklmnopqrstuvwxyz0123456789"))
  = 0xd174ab98d277d9f5a5611c2c9f419d9f.
Proof. vm_compute. done. Qed.

(** *** Partitioners *)

Class Partitioner (P : Type) := Partition : P → string → string.

Record HashRange := MkHashRange { hr_ID : string; hr_Start : Z; hr_End : Z }.

Definition KeyHash (key : string) : Z := be_value (md5_Sum (bytes_of key)).

Fixpoint range_of (r : list HashRange) (hash : Z) : option string :=
  match r with
  | [] => None
  | p :: r => if (hr_Start p <=? hash) && (hash <=? hr_End p) then Some (hr_ID p) else range_of r hash
  end.

Definition PartitionHash (r : list HashRange) (hash : Z) : string :=
  match range_of r hash with
  | Some id => id
  | None => match r with [] => "" | p :: _ => hr_ID p end
  end.

Definition HashRanges_Partition (r : list HashRange) (key : string) : string :=
  PartitionHash r (KeyHash key).

Definition Modulo_Partition (m : list string) (key : string) : string :=
  match m with
  | [] => ""
  | _ => m !!! Z.to_nat (be_value (take 8 (md5_Sum (bytes_of key))) mod Z.of_nat (length m))
  end.

#[global] Instance HashRanges : Partitioner (list HashRange) := HashRanges_Partition.
#[global] Instance Modulo : Partitioner (list string) := Modulo_Partition.

Definition is_byte (b : Z) : Prop := 0 ≤ b < 256.

Lemma le_bytes_ok k n : length (le_bytes k n) = k ∧ Forall is_byte (le_bytes k n).
Proof.
  revert n. induction k as [|k IH]; intros n; simpl; [done|].
  destruct (IH (n / 256)) as [-> Hf]. split; [done|]. constructor; [|done].
  apply Z.mod_pos_bound. lia.
Qed.

Lemma be_value_bound acc bs :
  0 ≤ acc → Forall is_byte bs →
  let r := foldl (λ acc b, acc * 256 + b) acc bs in
  0 ≤ r < (acc + 1) * 256 ^ Z.of_nat (length bs).
Proof.
  intros Ha Hb. revert acc Ha. induction Hb as [|b bs Hb Hbs IH]; intros acc Ha; cbn [foldl length].
  { rewrite Z.pow_0_r. lia. }
  unfold is_byte in Hb. destruct (IH (acc * 256 + b)) as [H1 H2]; [lia|]. split; [done|].
  eapply Z.lt_le_trans; [exact H2|].
  replace (Z.of_nat (S (length bs))) with (1 + Z.of_nat (length bs)) by lia.
  rewrite Z.pow_add_r, Z.pow_1_r by lia.
  assert (0 < 256 ^ Z.of_nat (length bs)) by (apply Z.pow_pos_nonneg; lia). nia.
Qed.

Lemma KeyHash_range key : 0 ≤ KeyHash key < 2 ^ 128.
Proof.
  unfold KeyHash, md5_Sum. destruct (foldl md5_chunk _ _) as [[[a b] c] d].
  set (bs := le_bytes 4 a ++ _).
  assert (Forall is_byte bs) as Hb by (repeat apply Forall_app_2; apply le_bytes_ok).
  assert (length bs = 16%nat) as Hl.
  { unfold bs. rewrite !length_app. by rewrite !(proj1 (le_bytes_ok 4 _)). }
  pose proof (be_value_bound 0 bs ltac:(lia) Hb) as H. rewrite Hl in H. exact H.
Qed.

(** Ranges that follow one another from [lo] up to, not including, [hi]. *)
Fixpoint tiles (lo : Z) (rs : list HashRange) (hi : Z) : Prop :=
  match rs with
  | [] => lo = hi
  | p :: rs => hr_Start p = lo ∧ lo ≤ hr_End p ∧ tiles (hr_End p + 1) rs hi
  end.

Definition owns (p : HashRange) (h : Z) : Prop := hr_Start p ≤ h ≤ hr_End p.

Lemma tiles_bounds lo rs hi p : tiles lo rs hi → p ∈ rs → lo ≤ hr_Start p.
Proof.
  revert lo. induction rs as [|q rs IH]; intros lo Ht Hp; [by apply not_elem_of_nil in Hp|].
  destruct Ht as (Hs & He & Ht). apply elem_of_cons in Hp as [->|Hp]; [lia|].
  specialize (IH _ Ht Hp). lia.
Qed.

Lemma tiles_owner lo rs hi h :
  tiles lo rs hi → lo ≤ h < hi → ∃ p, p ∈ rs ∧ owns p h ∧ ∀ q, q ∈ rs → owns q h → q = p.
Proof.
  revert lo. induction rs as [|q rs IH]; intros lo Ht Hh; [simpl in Ht; lia|].
  destruct Ht as (Hs & He & Ht). unfold owns in *. destruct (decide (h ≤ hr_End q)) as [Hle|Hgt].
  - exists q. split; [left|]. split; [lia|]. intros q' [->|Hq]%elem_of_cons Ho; [done|].
    pose proof (tiles_bounds _ _ _ _ Ht Hq). lia.
  - destruct (IH _ Ht ltac:(lia)) as (p & Hp & Ho & Hu). exists p. split; [by right|].
    split; [done|]. intros q' [->|Hq]%elem_of_cons Ho'; [lia|auto].
Qed.

Lemma range_of_spec r h :
  match range_of r h with
  | Some id => ∃ p, p ∈ r ∧ id = hr_ID p ∧ owns p h
  | None => ∀ p, p ∈ r → ¬ owns p h
  end.
Proof.
  unfold owns. induction r as [|q r IH]; simpl.
  - intros p Hp. by apply not_elem_of_nil in Hp.
  - destruct (_ && _) eqn:E; bools.
    + exists q. split; [left|]. done.
    + destruct (range_of r h).
      * destruct IH as (p & ? & ?). exists p. split; [by right|done].
      * intros p [->|Hp]%elem_of_cons; [|by apply IH]. destruct E; bools; lia.
Qed.

(** ** Properties *)

Fixpoint run_log {Sr Sh V} `{!GoZero V, !Store Sr (Record_ V), !Store Sh Head}
    (l : Log Sr Sh) (ops : list (log_op V)) : Log Sr Sh * list (log_answer V) :=
  match ops with
  | [] => (l, [])
  | op :: ops =>
      let r := run_op l op in
      let rs := run_log r.1 ops in (rs.1, r.2 :: rs.2)
  end.

Fixpoint run_abstract {V} (a : alog V) (ops : list (log_op V)) : alog V * list (log_answer V) :=
  match ops with
  | [] => (a, [])
  | op :: ops =>
      let r := abstract_op a op in
      let rs := run_abstract r.1 ops in (rs.1, r.2 :: rs.2)
  end.

Fixpoint ops_ok {V} (a : alog V) (ops : list (log_op V)) : Prop :=
  match ops with
  | [] => True
  | op :: ops => op_ok a op ∧ ops_ok (abstract_op a op).1 ops
  end.

Section Properties.
Context {Sr Sh V : Type} `{!GoZero V, !Store Sr (Record_ V), !Store Sh Head}.
Context `{!StoreSpec Sr (Record_ V), !StoreSpec Sh Head}.

Lemma run_log_refines l (a : alog V) ops :
  represents l a → ops_ok a ops →
  represents (run_log l ops).1 (run_abstract a ops).1 ∧
  (run_log l ops).2 = (run_abstract a ops).2.
Proof.
  revert l a. induction ops as [|op ops IH]; intros l a Hrep Hok; [done|].
  destruct Hok as [H1 H2]. destruct (run_op_refines l a op Hrep H1) as [Hr Ha].
  destruct (IH _ _ Hr H2) as [Hr' Ha']. split; [done|]. simpl. by rewrite Ha, Ha'.
Qed.

Lemma empty_represents (rs : Sr) (hs : Sh) :
  store_ok rs → store_ok hs → contents rs = ∅ → contents hs = ∅ →
  represents (MkLog rs hs) (∅ : alog V).
Proof.
  intros Hr Hh Er Eh. split; [|split; [done|split]].
  - split; [done|]. split.
    + intros p s Hs. simpl. rewrite Er, lookup_empty. symmetry. apply row_at_None.
      unfold plog_of, next_of. rewrite lookup_empty. simpl. lia.
    + intros k [x Hx]. simpl in Hx. by rewrite Er, lookup_empty in Hx.
  - intros p. simpl. by rewrite Eh, !lookup_empty.
  - apply map_Forall_empty.
Qed.
End Properties.

(** [C8] Over any stores that keep the store interface's promises, a log that
    starts empty answers every sequence of Append, Import, Head, Read, Last,
    Trim and Drop calls, on any partitions, exactly as a map from partitions
    to numbered lists does, as long as no sequence number is negative or
    reaches 2^63. An import may run past its last record: the list then has
    numbers without a record, where Read stops, Last finds nothing and Trim
    goes on. The rows and heads stay the representation of that map: no row is
    lost, overwritten by another partition, or left behind. *)
Theorem streamlog_refines_lists {Sr Sh V : Type} `{!GoZero V, !Store Sr (Record_ V), !Store Sh Head}
    `{!StoreSpec Sr (Record_ V), !StoreSpec Sh Head} (rs : Sr) (hs : Sh) (ops : list (log_op V)) :
  store_ok rs → store_ok hs → contents rs = ∅ → contents hs = ∅ → ops_ok ∅ ops →
  (run_log (MkLog rs hs) ops).2 = (run_abstract ∅ ops).2 ∧
  represents (run_log (MkLog rs hs) ops).1 (run_abstract ∅ ops).1.
Proof.
  intros Hr Hh Er Eh Hok.
  destruct (run_log_refines _ _ ops (empty_represents rs hs Hr Hh Er Eh) Hok). done.
Qed.

(** A new in-memory log, and two partitions through appends, a trim that
    drops the first record, and an import that runs past its last record. *)
Definition w_log : Log (Z * MemoryStore (Record_ string)) (Z * MemoryStore Head) :=
  MkLog (NewStateStore 0) (NewStateStore 1).

Definition w_ops : list (log_op string) :=
  [OpAppend "a" Second ["x"]; OpAppend "a" (5 * Second) ["y"; "z"];
   OpImport "b" 9 [MkRecord 6 100 "m"; MkRecord 7 200 "n"];
   OpTrim "a" (2 * Second); OpRead "a" 0 10; OpAppend "b" (6 * Second) ["o"];
   OpLast "b"; OpDrop "b"; OpHead "b"].

Lemma w_ops_ok : ops_ok ∅ w_ops.
Proof.
  unfold w_ops. cbn [ops_ok op_ok].
  repeat match goal with
  | |- _ ∧ _ => split
  | |- True => exact I
  | |- Forall _ _ => constructor
  | |- _ < _ => vm_compute; reflexivity
  | |- _ ≤ _ => vm_compute; discriminate
  | |- _ = _ => reflexivity
  end.
Defined.

Lemma streamlog_refines_lists_witness :
  (run_log w_log w_ops).2 = (run_abstract ∅ w_ops).2 ∧
  (run_abstract ∅ w_ops).2 !! 4%nat
  = Some (ARecords [MkRecord 1 5000 "y"; MkRecord 2 5000 "z"]).
Proof.
  split; [|vm_compute; reflexivity].
  refine (proj1 (streamlog_refines_lists (NewStateStore 0) (NewStateStore 1) w_ops _ _ _ _ w_ops_ok)).
  - apply (NewStateStore_wf 0).
  - apply (NewStateStore_wf 1).
  - reflexivity.
  - reflexivity.
Defined.

(** A partition with a record for every number, whose clock never went back. *)
Definition arrived_in_order {V} (pl : plog V) : Prop :=
  ∃ rows, pl.2 = Some <$> rows ∧ StronglySorted Z.le (rows.*1).

Lemma ordered_rows {V} (pl : plog V) s s' r r' :
  arrived_in_order pl → row_at pl s = Some r → row_at pl s' = Some r' → s ≤ s' →
  rec_Time r ≤ rec_Time r'.
Proof.
  intros (rows & Er & Hs) (i & t & v & -> & Hi & ->)%row_at_Some (j & t' & v' & -> & Hj & ->)%row_at_Some Hle.
  rewrite Er, list_lookup_fmap in Hi, Hj.
  destruct (rows !! i) as [[t0 v0]|] eqn:Ei; [|done]. destruct (rows !! j) as [[t1 v1]|] eqn:Ej; [|done].
  simplify_eq/=.
  destruct (decide (i = j)) as [->|]; [by simplify_eq|].
  rewrite <- (take_drop j (rows.*1)) in Hs.
  apply (StronglySorted_app_1_elem_of _ _ _ _ _ Hs); apply list_elem_of_lookup.
  - exists i. rewrite lookup_take_lt by lia. by rewrite list_lookup_fmap, Ei.
  - exists 0%nat. rewrite lookup_drop, Nat.add_0_r. by rewrite list_lookup_fmap, Ej.
Qed.

(** SeekTime splits a partition at an instant: on a partition whose
    records arrived in order, the retained records numbered below its answer
    are exactly those that arrived before the instant, and the answer lies
    between the oldest retained number and Next. *)
Theorem seek_time_splits {Sr Sh V : Type} `{!GoZero V, !Store Sr (Record_ V), !Store Sh Head}
    `{!StoreSpec Sr (Record_ V), !StoreSpec Sh Head} (l : Log Sr Sh) (a : alog V) (p : string) (t : Time) :
  represents l a → arrived_in_order (plog_of a p) →
  let pl := plog_of a p in
  pl.1 ≤ SeekTime l p t ≤ next_of pl ∧
  ∀ s r, row_at pl s = Some r → s < SeekTime l p t ↔ rec_Time r < UnixMilli t.
Proof.
  intros Hrep Hs pl. destruct (seek_time_between l a p t Hrep) as (Hr & Hlo & Hhi).
  { destruct Hs as (rows & -> & _). apply Forall_fmap, Forall_true. by eexists. }
  split; [done|]. intros s r Hrow. fold pl in Hr, Hlo, Hhi.
  assert (pl.1 ≤ s < next_of pl) as Hb.
  { destruct (decide (pl.1 ≤ s < next_of pl)); [done|].
    assert (row_at pl s = None) as E by (apply row_at_None; lia). by rewrite E in Hrow. }
  split; intros H.
  - destruct Hlo as [E|(r' & Hr' & Ht)]; [lia|].
    pose proof (ordered_rows pl s _ r r' Hs Hrow Hr' ltac:(lia)). lia.
  - apply Z.nle_gt. intros Hle. destruct Hhi as [E|(r' & Hr' & Ht)]; [lia|].
    pose proof (ordered_rows pl _ s r' r Hs Hr' Hrow Hle). lia.
Qed.

(** The log of the witness above after its first three operations. *)
Definition w_log3 := (run_log w_log (take 3 w_ops)).1.

Lemma w_log3_represents : represents w_log3 (run_abstract ∅ (take 3 w_ops)).1.
Proof.
  refine (proj1 (run_log_refines w_log ∅ (take 3 w_ops) _ _)).
  - apply empty_represents; [apply (NewStateStore_wf 0)|apply (NewStateStore_wf 1)|reflexivity..].
  - destruct w_ops_ok as (H1 & H2 & H3 & _). exact (conj H1 (conj H2 (conj H3 I))).
Qed.

Lemma seek_time_splits_witness :
  SeekTime w_log3 "a" (2 * Second) = 1 ∧
  ∀ s r, row_at (plog_of (run_abstract ∅ (take 3 w_ops)).1 "a") s = Some r →
    s < SeekTime w_log3 "a" (2 * Second) ↔ rec_Time r < UnixMilli (2 * Second).
Proof.
  split; [vm_compute; reflexivity|].
  refine (proj2 (seek_time_splits w_log3 _ "a" (2 * Second) w_log3_represents _)).
  exists [(1000, "x"); (5000, "y"); (5000, "z")].
  split; [vm_compute; reflexivity|repeat constructor; discriminate].
Defined.

(** A partition key goes to the one range that owns its hash, whenever
    the ranges, in any order, cut the 128-bit hash space into pieces. *)
Theorem hash_range_owner (r sorted : list HashRange) (key : string) :
  r ≡ₚ sorted → tiles 0 sorted (2 ^ 128) →
  ∃ p, p ∈ r ∧ owns p (KeyHash key) ∧ Partition r key = hr_ID p ∧
    ∀ q, q ∈ r → owns q (KeyHash key) → q = p.
Proof.
  intros Hp Ht. destruct (tiles_owner _ _ _ (KeyHash key) Ht (KeyHash_range key)) as (p & Hin & Ho & Hu).
  assert (p ∈ r) as Hin' by (by rewrite Hp). exists p. split; [done|]. split; [done|]. split.
  - unfold Partition, HashRanges, HashRanges_Partition, PartitionHash.
    pose proof (range_of_spec r (KeyHash key)) as Hs. destruct (range_of r (KeyHash key)) as [id|].
    + destruct Hs as (q & Hq & -> & Hoq). f_equal. apply Hu; [by rewrite <- Hp|done].
    + by destruct (Hs p Hin').
  - intros q Hq. apply Hu. by rewrite <- Hp.
Qed.

Definition w_ranges : list HashRange :=
  [MkHashRange "shard-1" (2 ^ 127) (2 ^ 128 - 1); MkHashRange "shard-0" 0 (2 ^ 127 - 1)].

Lemma hash_range_owner_witness :
  Partition w_ranges "abc" = "shard-1" ∧
  ∃ p, p ∈ w_ranges ∧ owns p (KeyHash "abc") ∧ Partition w_ranges "abc" = hr_ID p ∧
    ∀ q, q ∈ w_ranges → owns q (KeyHash "abc") → q = p.
Proof.
  split; [vm_compute; reflexivity|].
  refine (hash_range_owner w_ranges (rev w_ranges) "abc" _ _).
  - apply perm_swap.
  - simpl. split; [reflexivity|]. split; [discriminate|]. split; [reflexivity|].
    split; [vm_compute; discriminate|reflexivity].
Defined.

(** An import whose [next] runs past its last record leaves a gap that
    Read never crosses: after records 3 and 4 are imported with next 6 and a
    record is appended as number 6, a reader at 5 gets nothing. *)
Theorem read_stops_at_import_gap :
  let r := run_log w_log
    [OpImport "p" 6 [MkRecord 3 10 "a"; MkRecord 4 20 "b"]; OpAppend "p" Second ["c"];
     OpRead "p" 3 10; OpRead "p" 5 10; OpLast "p"] in
  r.2 = [AImport (Ok tt); ARecords [MkRecord 6 1000 "c"];
         ARecords [MkRecord 3 10 "a"; MkRecord 4 20 "b"]; ARecords [];
         ALast (Some (MkRecord 6 1000 "c"))].
Proof. vm_compute. reflexivity. Qed.
