(* ===== verification/Logstore.v ===== *)
(** * The log entry store ([sim/logstore/logstore.go])

    A [Log] keeps one row per entry, keyed by scope and arrival number, and
    one head row per scope with the next number and the count retained. Unlike
    a stream, a scope may have gaps, so reads go by key prefix. The abstract
    log is a map from scopes to the next number and the retained entries; the
    refinement theorem covers every operation, on scope names without NUL
    bytes, over any stores that keep the store interface's promises. The
    scope's lock is held from start to end of each operation, so operations
    are functions of the state. *)

From stdpp Require Import functions.
From S2P Require Import Prelude Store.

(** ** Data *)

Record Entry (V : Type) := MkEntry { e_Seq : Z; e_Time : Z; e_Ingested : Z; e_Value : V }.
Arguments MkEntry {V} _ _ _ _.
Arguments e_Seq {V} _.
Arguments e_Time {V} _.
Arguments e_Ingested {V} _.
Arguments e_Value {V} _.

Record Item (V : Type) := MkItem { i_Time : Z; i_Value : V }.
Arguments MkItem {V} _ _.
Arguments i_Time {V} _.
Arguments i_Value {V} _.

Record Head := MkHead { Next : Z; Count : Z }.

#[global] Instance GoZero_Entry {V} `{!GoZero V} : GoZero (Entry V) := MkEntry 0 0 0 zero.
#[global] Instance GoZero_Head : GoZero Head := MkHead 0 0.

Definition scopePrefix (scope : string) : string := scope +:+ NUL.
Definition entryKey (scope : string) (seq : Z) : string := scopePrefix scope +:+ pad20 seq.

Definition set_Seq {V} (n : Z) (e : Entry V) : Entry V :=
  MkEntry n (e_Time e) (e_Ingested e) (e_Value e).

(** ** Operations *)

Section Log.
Context {Se Sh V : Type} `{!GoZero V, !Store Se (Entry V), !Store Sh Head}.

Record Log := MkLog { entries : Se; heads : Sh }.

Definition HeadOf (l : Log) (scope : string) : Head :=
  default zero (store_get (heads l) scope).

Definition Open (l : Log) (scope : string) : Log :=
  MkLog (entries l) (store_upsert (heads l) scope (λ h, h)).

Definition Exists (l : Log) (scope : string) : bool :=
  match store_get (heads l) scope with Some _ => true | None => false end.

(** The loop [Append] and [Import] share: number an entry, write its row,
    advance the head. *)
Fixpoint put_entries (scope : string) (es : Se) (h : Head) (new : list (Entry V))
    : Se * Head * list (Entry V) :=
  match new with
  | [] => (es, h, [])
  | e :: new =>
      let e := set_Seq (Next h) e in
      let es := store_put es (entryKey scope (e_Seq e)) e in
      let h := MkHead (i64 (Next h + 1)) (i64 (Count h + 1)) in
      let '(es, h, out) := put_entries scope es h new in
      (es, h, e :: out)
  end.

Definition Append (l : Log) (scope : string) (now : Time) (items : list (Item V))
    : Log * list (Entry V) :=
  match items with
  | [] => (l, [])
  | _ =>
      let h := HeadOf l scope in
      let ingested := UnixMilli now in
      let '(es, h, out) :=
        put_entries scope (entries l) h
          ((λ item, MkEntry 0 (i_Time item) ingested (i_Value item)) <$> items) in
      (MkLog es (store_put (heads l) scope h), out)
  end.

Definition Import (l : Log) (scope : string) (new : list (Entry V)) : Log * result string unit :=
  let held := match store_get (heads l) scope with
              | Some h => Next h >? 0 | None => false end in
  if held then (l, Err scope)
  else
    let '(es, h, _) := put_entries scope (entries l) (MkHead 0 0) new in
    (MkLog es (store_put (heads l) scope h), Ok tt).

Definition Entries (l : Log) (scope : string) : list (Entry V) :=
  (store_list_prefix (entries l) (scopePrefix scope)).*2.

Definition Values (l : Log) (scope : string) : list V :=
  e_Value <$> (store_list_prefix (entries l) (scopePrefix scope)).*2.

Definition Scopes (l : Log) (prefix : string) : list string :=
  (store_list_prefix (heads l) prefix).*1.

Definition delete_ids (es : Se) (ids : list string) : Se :=
  foldl (λ es id, (store_delete es id).1) es ids.

Definition remove (l : Log) (scope : string)
    (pick : list (string * Entry V) → list string) : Log * Z :=
  match store_get (heads l) scope with
  | None => (l, 0)
  | Some h =>
      let doomed := pick (store_list_prefix (entries l) (scopePrefix scope)) in
      let n := Z.of_nat (length doomed) in
      (MkLog (delete_ids (entries l) doomed)
         (if n >? 0 then store_put (heads l) scope (MkHead (Next h) (i64 (Count h - n)))
          else heads l), n)
  end.

Definition expire_pick (limit : Z) (rows : list (string * Entry V)) : list string :=
  (filter (λ row, e_Time row.2 < limit) rows).*1.

Definition Expire (l : Log) (scope : string) (cutoff : Time) : Log * Z :=
  remove l scope (expire_pick (UnixMilli cutoff)).

Definition cap_pick (max : Z) (rows : list (string * Entry V)) : list string :=
  if Z.of_nat (length rows) <=? max then []
  else (take (Z.to_nat (Z.of_nat (length rows) - max)) rows).*1.

(** A negative [max] makes the code slice past the rows and panic; the
    theorems about [Cap] ask for one that is not negative. *)
Definition Cap (l : Log) (scope : string) (max : Z) : Log * Z :=
  if Count (HeadOf l scope) <=? max then (l, 0) else remove l scope (cap_pick max).

Definition Drop (l : Log) (scope : string) : Log :=
  MkLog (delete_ids (entries l) (store_list_prefix (entries l) (scopePrefix scope)).*1)
        (store_delete (heads l) scope).1.

Definition DropPrefix (l : Log) (prefix : string) : Log :=
  foldl Drop l (Scopes l prefix).

(** The function [Edit] is given answers the entry it left behind, whether
    to keep it and whether it changed it. *)
Fixpoint edit_loop (f : Entry V → Entry V * bool * bool) (es : Se) (deleted : Z)
    (rows : list (string * Entry V)) : Se * Z :=
  match rows with
  | [] => (es, deleted)
  | (id, e) :: rows =>
      let '(e', keep, changed) := f e in
      if negb keep then edit_loop f (store_delete es id).1 (deleted + 1) rows
      else if changed then edit_loop f (store_put es id e') deleted rows
      else edit_loop f es deleted rows
  end.

Definition Edit (l : Log) (scope : string) (f : Entry V → Entry V * bool * bool) : Log * Z :=
  match store_get (heads l) scope with
  | None => (l, 0)
  | Some h =>
      let '(es, deleted) :=
        edit_loop f (entries l) 0 (store_list_prefix (entries l) (scopePrefix scope)) in
      (MkLog es (if deleted >? 0
                 then store_put (heads l) scope (MkHead (Next h) (i64 (Count h - deleted)))
                 else heads l), deleted)
  end.
End Log.
Arguments Log : clear implicits.
Arguments MkLog {Se Sh} _ _.
Arguments entries {Se Sh} _.
Arguments heads {Se Sh} _.

(** ** The abstract log *)

(** A scope is its next number and its retained entries in arrival order. *)
Abbreviation slog V := (Z * list (Entry V))%type.
Abbreviation alog V := (gmap string (slog V)).

Definition slog_of {V} (a : alog V) (sc : string) : slog V := default (0, []) (a !! sc).

Fixpoint number {V} (n : Z) (es : list (Entry V)) : list (Entry V) :=
  match es with [] => [] | e :: es => set_Seq n e :: number (n + 1) es end.

Inductive log_op (V : Type) :=
| OpOpen (sc : string)
| OpExists (sc : string)
| OpAppend (sc : string) (now : Time) (items : list (Item V))
| OpImport (sc : string) (new : list (Entry V))
| OpEntries (sc : string)
| OpValues (sc : string)
| OpHead (sc : string)
| OpScopes (prefix : string)
| OpExpire (sc : string) (cutoff : Time)
| OpCap (sc : string) (max : Z)
| OpDrop (sc : string)
| OpDropPrefix (prefix : string)
| OpEdit (sc : string) (f : Entry V → Entry V * bool * bool).
Arguments OpOpen {V}.
Arguments OpExists {V}.
Arguments OpAppend {V}.
Arguments OpImport {V}.
Arguments OpEntries {V}.
Arguments OpValues {V}.
Arguments OpHead {V}.
Arguments OpScopes {V}.
Arguments OpExpire {V}.
Arguments OpCap {V}.
Arguments OpDrop {V}.
Arguments OpDropPrefix {V}.
Arguments OpEdit {V}.

Inductive log_answer (V : Type) :=
| AEntries (es : list (Entry V))
| AValues (vs : list V)
| ABool (b : bool)
| AHead (h : Head)
| ANames (ns : list string)
| ACount (n : Z)
| AResult (r : result string unit)
| ADone.
Arguments AEntries {V}.
Arguments AValues {V}.
Arguments ABool {V}.
Arguments AHead {V}.
Arguments ANames {V}.
Arguments ACount {V}.
Arguments AResult {V}.
Arguments ADone {V}.

Definition edited {V} (f : Entry V → Entry V * bool * bool) (e : Entry V) : option (Entry V) :=
  let '(e', keep, changed) := f e in
  if keep then Some (if changed then e' else e) else None.

(** Keeping a scope's entries [es'] and answering how many went. *)
Definition retain {V} (a : alog V) (sc : string) (es' : list (Entry V)) : alog V * log_answer V :=
  let s := slog_of a sc in
  (if bool_decide (is_Some (a !! sc)) then <[sc := (s.1, es')]> a else a,
   ACount (Z.of_nat (length s.2 - length es'))).

Arguments retain : simpl never.

(** The scopes whose name begins with a prefix, in name order. *)
Definition names_under {V} (a : alog V) (prefix : string) : list string :=
  merge_sort String.le (filter (λ sc, HasPrefix sc prefix = true) (elements (dom a))).

Definition abstract_op {V} (a : alog V) (op : log_op V) : alog V * log_answer V :=
  match op with
  | OpOpen sc => (<[sc := slog_of a sc]> a, ADone)
  | OpExists sc => (a, ABool (bool_decide (is_Some (a !! sc))))
  | OpAppend sc now items =>
      let s := slog_of a sc in
      let new := number s.1
        ((λ item, MkEntry 0 (i_Time item) (UnixMilli now) (i_Value item)) <$> items) in
      (match items with
       | [] => a
       | _ => <[sc := (s.1 + Z.of_nat (length items), s.2 ++ new)]> a
       end, AEntries new)
  | OpImport sc new =>
      if (slog_of a sc).1 >? 0 then (a, AResult (Err sc))
      else (<[sc := (Z.of_nat (length new), number 0 new)]> a, AResult (Ok tt))
  | OpEntries sc => (a, AEntries (slog_of a sc).2)
  | OpValues sc => (a, AValues (e_Value <$> (slog_of a sc).2))
  | OpHead sc =>
      (a, AHead (MkHead (slog_of a sc).1 (Z.of_nat (length (slog_of a sc).2))))
  | OpScopes prefix => (a, ANames (names_under a prefix))
  | OpExpire sc cutoff =>
      retain a sc (filter (λ e, UnixMilli cutoff ≤ e_Time e) (slog_of a sc).2)
  | OpCap sc max =>
      retain a sc (drop (length (slog_of a sc).2 - Z.to_nat max) (slog_of a sc).2)
  | OpDrop sc => (delete sc a, ADone)
  | OpDropPrefix prefix => (filter (λ kv, HasPrefix kv.1 prefix = false) a, ADone)
  | OpEdit sc f => retain a sc (omap (edited f) (slog_of a sc).2)
  end.

(** What a caller owes: scope names without NUL bytes, numbers below 2^63, a
    cap that is not negative, an edit that leaves the arrival number alone. *)
Definition op_ok {V} (a : alog V) (op : log_op V) : Prop :=
  match op with
  | OpOpen sc => nul_free sc
  | OpAppend sc _ items =>
      nul_free sc ∧ (slog_of a sc).1 + Z.of_nat (length items) < 2 ^ 63
  | OpImport sc new => nul_free sc ∧ Z.of_nat (length new) < 2 ^ 63
  | OpEntries sc | OpValues sc | OpExpire sc _ | OpDrop sc => nul_free sc
  | OpCap sc max => nul_free sc ∧ 0 ≤ max
  | OpEdit sc f => nul_free sc ∧ ∀ e, e_Seq (f e).1.1 = e_Seq e
  | _ => True
  end.

(** ** Keys *)

Definition seq_lt {V} (x y : Entry V) : Prop := e_Seq x < e_Seq y.

Definition slog_ok {V} (s : slog V) : Prop :=
  0 ≤ s.1 < 2 ^ 63 ∧ StronglySorted seq_lt s.2 ∧ Forall (λ e, 0 ≤ e_Seq e < s.1) s.2.

Lemma entryKey_inj sc sc' n m :
  0 ≤ n < 2 ^ 63 → 0 ≤ m < 2 ^ 63 → entryKey sc n = entryKey sc' m → sc = sc' ∧ n = m.
Proof.
  unfold entryKey, scopePrefix. intros Hn Hm H.
  apply scoped_key_inj in H as [H ->]; [|unfold in_u64; lia..].
  apply append_inj_r in H as [-> _]; done.
Qed.

Lemma entryKey_slt sc n m :
  0 ≤ n < 2 ^ 63 → 0 ≤ m < 2 ^ 63 → n < m → slt (entryKey sc n) (entryKey sc m).
Proof.
  intros Hn Hm Hlt. unfold entryKey. apply slt_append_l. unfold slt.
  rewrite pad20_compare by (unfold in_u64; lia). by apply Z.compare_lt_iff.
Qed.

Lemma entryKey_prefix sc sc' n :
  nul_free sc → nul_free sc' → HasPrefix (entryKey sc' n) (scopePrefix sc) = true ↔ sc' = sc.
Proof.
  intros Hs Hs'. split.
  - intros [r Hr]%HasPrefix_spec. unfold entryKey, scopePrefix in Hr. rewrite !append_assoc_s in Hr.
    by apply nul_free_cut in Hr as [-> _].
  - intros ->. apply HasPrefix_append.
Qed.

Lemma seq_sorted {V} (es : list (Entry V)) :
  StronglySorted seq_lt es ↔ StronglySorted Z.lt (e_Seq <$> es).
Proof.
  split; [by apply StronglySorted_fmap_in|by apply (StronglySorted_fmap_inv Z.lt e_Seq)].
Qed.

#[global] Instance seq_lt_strict {V} : StrictOrder (@seq_lt V).
Proof. apply (strict_on Z.lt e_Seq). Qed.

Lemma seq_lt_unique {V} (es : list (Entry V)) x y :
  StronglySorted seq_lt es → x ∈ es → y ∈ es → e_Seq x = e_Seq y → x = y.
Proof.
  induction 1 as [|z es Hes IH Hz]; intros Hx Hy Heq; [by apply not_elem_of_nil in Hx|].
  rewrite Forall_forall in Hz. unfold seq_lt in Hz.
  apply elem_of_cons in Hx as [->|Hx], Hy as [->|Hy].
  - done.
  - specialize (Hz _ Hy). lia.
  - specialize (Hz _ Hx). lia.
  - auto.
Qed.

(** ** The rows represent the abstract scopes *)

Section Rows.
Context {Se Sh V : Type} `{!GoZero V, !Store Se (Entry V), !Store Sh Head}.
Context `{!StoreSpec Se (Entry V), !StoreSpec Sh Head}.

(** The entry store holds exactly the rows of the scopes [f]. *)
Definition rows_ok (st : Se) (f : string → list (Entry V)) : Prop :=
  store_ok st ∧
  (∀ sc e, e ∈ f sc → nul_free sc ∧ 0 ≤ e_Seq e < 2 ^ 63) ∧
  (∀ k e, contents st !! k = Some e ↔ ∃ sc, e ∈ f sc ∧ k = entryKey sc (e_Seq e)).

Lemma log_rows_ok_ext st f g :
  rows_ok st f → (∀ sc e, e ∈ f sc ↔ e ∈ g sc) → rows_ok st g.
Proof.
  intros (Hs & Hb & Hr) He. split; [done|]. split.
  - intros sc e Hin. apply (Hb sc). by apply He.
  - intros k e. rewrite Hr. split; intros (sc & Hin & ->); exists sc; by rewrite ?He in *.
Qed.

Lemma log_rows_ok_same st f sc es :
  rows_ok st f → (∀ e, e ∈ es ↔ e ∈ f sc) → rows_ok st (<[sc := es]> f).
Proof.
  intros Hr He. eapply log_rows_ok_ext; [exact Hr|]. intros sc' e.
  destruct (decide (sc' = sc)) as [->|].
  - by rewrite fn_lookup_insert, He.
  - by rewrite fn_lookup_insert_ne.
Qed.

Lemma log_rows_ok_twice st f sc es es' es0 :
  rows_ok st (<[sc := es]> (<[sc := es0]> f)) → (∀ e, e ∈ es ↔ e ∈ es') →
  rows_ok st (<[sc := es']> f).
Proof.
  intros Hr He. eapply log_rows_ok_ext; [exact Hr|]. intros sc' e.
  destruct (decide (sc' = sc)) as [->|]; [by rewrite !fn_lookup_insert|by rewrite !fn_lookup_insert_ne].
Qed.

Lemma log_rows_ok_put st f sc e es :
  rows_ok st f → nul_free sc → 0 ≤ e_Seq e < 2 ^ 63 →
  (∀ x, x ∈ es ↔ x = e ∨ (x ∈ f sc ∧ e_Seq x ≠ e_Seq e)) →
  rows_ok (store_put st (entryKey sc (e_Seq e)) e) (<[sc := es]> f).
Proof.
  intros (Hs & Hb & Hr) Hn He Hes.
  destruct (put_spec st (entryKey sc (e_Seq e)) e Hs) as [Hok Hc].
  split; [done|]. rewrite Hc. split.
  - intros sc' x. destruct (decide (sc' = sc)) as [->|].
    + rewrite fn_lookup_insert, Hes. intros [->|[Hx _]]; [done|]. by apply Hb.
    + rewrite fn_lookup_insert_ne by done. apply Hb.
  - intros k x. rewrite lookup_insert_Some, Hr. split.
    + intros [[<- <-]|[Hne (sc' & Hx & ->)]].
      * exists sc. rewrite fn_lookup_insert, Hes. auto.
      * exists sc'. split; [|done]. destruct (decide (sc' = sc)) as [->|];
          [|by rewrite fn_lookup_insert_ne].
        rewrite fn_lookup_insert, Hes. right. split; [done|]. congruence.
    + intros (sc' & Hx & ->). destruct (decide (sc' = sc)) as [->|].
      * rewrite fn_lookup_insert, Hes in Hx. destruct Hx as [->|[Hx Hne]]; [by left|].
        right. split; [|eauto]. destruct (Hb _ _ Hx) as [_ Hxb].
        intros H. apply entryKey_inj in H as [_ ?]; [congruence|done..].
      * rewrite fn_lookup_insert_ne in Hx by done. right. split; [|eauto].
        destruct (Hb _ _ Hx) as [_ Hxb].
        intros H. apply entryKey_inj in H as [? _]; [congruence|done..].
Qed.

Lemma log_rows_ok_delete st f sc n es :
  rows_ok st f → 0 ≤ n < 2 ^ 63 →
  (∀ x, x ∈ es ↔ x ∈ f sc ∧ e_Seq x ≠ n) →
  rows_ok (store_delete st (entryKey sc n)).1 (<[sc := es]> f).
Proof.
  intros (Hs & Hb & Hr) He Hes.
  destruct (delete_spec st (entryKey sc n) Hs) as (Hok & Hc & _).
  split; [done|]. rewrite Hc. split.
  - intros sc' x. destruct (decide (sc' = sc)) as [->|].
    + rewrite fn_lookup_insert, Hes. intros [Hx _]. by apply Hb.
    + rewrite fn_lookup_insert_ne by done. apply Hb.
  - intros k x. rewrite lookup_delete_Some, Hr. split.
    + intros [Hne (sc' & Hx & ->)].
      exists sc'. split; [|done]. destruct (decide (sc' = sc)) as [->|];
        [|by rewrite fn_lookup_insert_ne].
      rewrite fn_lookup_insert, Hes. split; [done|]. congruence.
    + intros (sc' & Hx & ->). destruct (decide (sc' = sc)) as [->|].
      * rewrite fn_lookup_insert, Hes in Hx. destruct Hx as [Hx Hne].
        split; [|eauto]. destruct (Hb _ _ Hx) as [_ Hxb].
        intros H. apply entryKey_inj in H as [_ ?]; [congruence|done..].
      * rewrite fn_lookup_insert_ne in Hx by done. split; [|eauto].
        destruct (Hb _ _ Hx) as [_ Hxb].
        intros H. apply entryKey_inj in H as [? _]; [congruence|done..].
Qed.

Definition keyed (sc : string) (e : Entry V) : string * Entry V := (entryKey sc (e_Seq e), e).

(** Reading a scope by its key prefix returns its entries, in order, and no
    entry of another scope. *)
Lemma scope_listing st f sc :
  rows_ok st f → nul_free sc → StronglySorted seq_lt (f sc) →
  store_list_prefix st (scopePrefix sc) = keyed sc <$> f sc.
Proof.
  intros (Hs & Hb & Hr) Hn Hsort. destruct (list_prefix_spec st (scopePrefix sc) Hs) as [Hl He].
  apply (StronglySorted_elem_unique (λ x y : string * Entry V, slt x.1 y.1)).
  - by apply StronglySorted_fmap_inv.
  - eapply StronglySorted_fmap_in; [|exact Hsort]. intros x y Hx Hy Hlt. simpl.
    apply entryKey_slt; [by apply (Hb sc)..|done].
  - intros [k e]. rewrite He, Hr, list_elem_of_fmap. split.
    + intros [(sc' & Hin & ->) Hp]. destruct (Hb _ _ Hin) as [Hn' _].
      apply (entryKey_prefix sc sc' _ Hn Hn') in Hp. subst sc'. exists e. done.
    + intros (x & [= -> ->] & Hx). split; [eauto|]. by apply entryKey_prefix.
Qed.

Lemma put_entries_rows st f sc n c new :
  rows_ok st f → nul_free sc → 0 ≤ n → 0 ≤ c ≤ n → n + Z.of_nat (length new) < 2 ^ 63 →
  Forall (λ e, e_Seq e < n) (f sc) →
  ∃ st', put_entries sc st (MkHead n c) new
         = (st', MkHead (n + Z.of_nat (length new)) (c + Z.of_nat (length new)), number n new) ∧
    rows_ok st' (<[sc := f sc ++ number n new]> f).
Proof.
  intros Hr Hn. revert st f n c Hr. induction new as [|e new IH];
    intros st f n c Hr H0 Hc Hb Hf; cbn [put_entries number length].
  - exists st. rewrite !Z.add_0_r. split; [done|]. apply log_rows_ok_same; [done|].
    by rewrite app_nil_r.
  - cbn [length] in Hb. simpl. rewrite !i64_id by (unfold in_i64; lia).
    destruct (IH (store_put st (entryKey sc n) (set_Seq n e))
                (<[sc := f sc ++ [set_Seq n e]]> f) (n + 1) (c + 1)) as (st' & He & Hr').
    + apply (log_rows_ok_put st f sc (set_Seq n e)); [done|done|simpl; lia|].
      intros x. rewrite elem_of_app, list_elem_of_singleton. simpl.
      rewrite Forall_forall in Hf. split.
      * intros [Hx| ->]; [|by left]. right. split; [done|]. specialize (Hf _ Hx). simpl in Hf. lia.
      * tauto.
    + lia.
    + lia.
    + lia.
    + rewrite fn_lookup_insert. apply Forall_app. split.
      * eapply Forall_impl; [exact Hf|]. simpl. lia.
      * repeat constructor. simpl. lia.
    + exists st'. rewrite He. split; [f_equal; do 2 f_equal; lia|].
      rewrite fn_lookup_insert in Hr'. eapply log_rows_ok_twice; [exact Hr'|].
      by rewrite <- app_assoc.
Qed.

Lemma delete_ids_rows st f sc es (doomed : list (Entry V)) :
  rows_ok st f → Forall (λ e, 0 ≤ e_Seq e < 2 ^ 63) doomed →
  (∀ x, x ∈ es ↔ x ∈ f sc ∧ e_Seq x ∉ e_Seq <$> doomed) →
  rows_ok (delete_ids st (keyed sc <$> doomed).*1) (<[sc := es]> f).
Proof.
  intros Hr Hd. revert st f Hr. induction Hd as [|e doomed He Hd IH]; intros st f Hr Hes; simpl.
  - apply log_rows_ok_same; [done|]. intros x. rewrite Hes. simpl. split; [tauto|].
    intros. split; [done|]. apply not_elem_of_nil.
  - eapply log_rows_ok_twice; [apply IH|done].
    + apply log_rows_ok_delete with (es := filter (λ x, e_Seq x ≠ e_Seq e) (f sc)); [done|done|].
      intros x. rewrite list_elem_of_filter. tauto.
    + intros x. rewrite fn_lookup_insert, list_elem_of_filter, Hes, fmap_cons, not_elem_of_cons.
      tauto.
Qed.

(** [Edit]'s loop over the entries still to visit, those before done. *)
Lemma edit_loop_rows g st f sc del done todo :
  (∀ e, e_Seq (g e).1.1 = e_Seq e) → nul_free sc →
  rows_ok st f → f sc = done ++ todo → StronglySorted seq_lt (done ++ todo) →
  let kept := omap (edited g) todo in
  ∃ st', edit_loop g st del (keyed sc <$> todo)
         = (st', del + Z.of_nat (length todo - length kept)) ∧
    rows_ok st' (<[sc := done ++ kept]> f).
Proof.
  intros Hg Hn. revert st f del done. induction todo as [|e todo IH];
    intros st f del done Hr Hf Hs; csimpl.
  { exists st. rewrite Z.add_0_r. split; [reflexivity|]. apply log_rows_ok_same; [exact Hr|]. by rewrite Hf. }
  destruct (StronglySorted_split seq_lt done e todo Hs) as (Hne & Hs' & Hd & Ht).
  assert (∀ x, x ∈ done ++ todo ↔ x ∈ f sc ∧ e_Seq x ≠ e_Seq e) as Hrest.
  { assert (∀ x, x ∈ f sc ↔ x = e ∨ x ∈ done ++ todo) as Hf'.
    { intros x. rewrite Hf, !elem_of_app, elem_of_cons. tauto. }
    intros x. rewrite Hf'. split.
    - intros Hx. split; [by right|]. rewrite Forall_forall in Hd, Ht. unfold seq_lt in Hd, Ht.
      apply elem_of_app in Hx as [Hx|Hx]; [specialize (Hd _ Hx)|specialize (Ht _ Hx)];
        simpl in *; lia.
    - intros [[->|Hx] Hq]; [by destruct Hq|exact Hx]. }
  assert (nul_free sc ∧ 0 ≤ e_Seq e < 2 ^ 63) as [_ He].
  { destruct Hr as (_ & Hb & _). apply Hb. rewrite Hf, elem_of_app, elem_of_cons. auto. }
  specialize (Hg e). destruct (g e) as [[e' keep] changed] eqn:Eg. simpl in Hg.
  assert (edited g e = if keep then Some (if changed then e' else e) else None) as ->
    by (unfold edited; by rewrite Eg).
  destruct keep; csimpl; [destruct changed; csimpl|].
  - destruct (IH (store_put st (entryKey sc (e_Seq e)) e') (<[sc := (done ++ [e']) ++ todo]> f)
                del (done ++ [e'])) as (st' & Hl & Hr').
    + rewrite <- Hg. apply log_rows_ok_put; [exact Hr|exact Hn|lia|]. intros x. rewrite Hg, <- Hrest.
      rewrite !elem_of_app, list_elem_of_singleton. tauto.
    + by rewrite fn_lookup_insert.
    + apply seq_sorted in Hs. apply seq_sorted. rewrite <- app_assoc.
      rewrite fmap_app, fmap_cons in *. simpl. by rewrite Hg.
    + exists st'. rewrite Hl. split; [reflexivity|]. eapply log_rows_ok_twice; [exact Hr'|].
      intros x. by rewrite <- app_assoc.
  - destruct (IH st f del (done ++ [e])) as (st' & Hl & Hr'); [exact Hr| | |].
    + by rewrite <- app_assoc.
    + by rewrite <- app_assoc.
    + exists st'. rewrite Hl. split; [reflexivity|]. by rewrite <- app_assoc in Hr'.
  - destruct (IH (store_delete st (entryKey sc (e_Seq e))).1 (<[sc := done ++ todo]> f)
                (del + 1) done) as (st' & Hl & Hr').
    + apply log_rows_ok_delete; [exact Hr|exact He|exact Hrest].
    + by rewrite fn_lookup_insert.
    + exact Hs'.
    + exists st'. rewrite Hl. split; [|eapply log_rows_ok_twice; [exact Hr'|done]].
      f_equal. pose proof (length_omap_le (edited g) todo). lia.
Qed.
End Rows.

(** ** Refinement *)

Definition head_row {V} (s : slog V) : Head := MkHead s.1 (Z.of_nat (length s.2)).

Definition run_op {Se Sh V} `{!GoZero V, !Store Se (Entry V), !Store Sh Head}
    (l : Log Se Sh) (op : log_op V) : Log Se Sh * log_answer V :=
  match op with
  | OpOpen sc => (Open l sc, ADone)
  | OpExists sc => (l, ABool (Exists l sc))
  | OpAppend sc now items => let r := Append l sc now items in (r.1, AEntries r.2)
  | OpImport sc new => let r := Import l sc new in (r.1, AResult r.2)
  | OpEntries sc => (l, AEntries (Entries l sc))
  | OpValues sc => (l, AValues (Values l sc))
  | OpHead sc => (l, AHead (HeadOf l sc))
  | OpScopes prefix => (l, ANames (Scopes l prefix))
  | OpExpire sc cutoff => let r := Expire (V:=V) l sc cutoff in (r.1, ACount r.2)
  | OpCap sc max => let r := Cap (V:=V) l sc max in (r.1, ACount r.2)
  | OpDrop sc => (Drop (V:=V) l sc, ADone)
  | OpDropPrefix prefix => (DropPrefix (V:=V) l prefix, ADone)
  | OpEdit sc f => let r := Edit l sc f in (r.1, ACount r.2)
  end.

Lemma number_seqs {V} n (es : list (Entry V)) :
  length (number n es) = length es ∧ StronglySorted seq_lt (number n es) ∧
  Forall (λ e, n ≤ e_Seq e < n + Z.of_nat (length es)) (number n es).
Proof.
  revert n. induction es as [|e es IH]; intros n; simpl; [repeat constructor|].
  destruct (IH (n + 1)) as (Hl & Hs & Hb). split; [by rewrite Hl|]. split.
  - constructor; [done|]. eapply Forall_impl; [exact Hb|]. unfold seq_lt. simpl. lia.
  - constructor; [simpl; lia|]. eapply Forall_impl; [exact Hb|]. simpl. lia.
Qed.

Lemma slog_ok_append {V} (s : slog V) new :
  slog_ok s → s.1 + Z.of_nat (length new) < 2 ^ 63 →
  slog_ok (s.1 + Z.of_nat (length new), s.2 ++ number s.1 new).
Proof.
  intros (H0 & Hs & Hb) Hn. destruct (number_seqs s.1 new) as (Hl & Hs' & Hb').
  rewrite Forall_forall in Hb, Hb'. simpl in Hb, Hb'.
  split; [simpl; lia|]. simpl. split.
  - apply StronglySorted_app_2; [|done..]. intros x y Hx Hy.
    specialize (Hb _ Hx). specialize (Hb' _ Hy). unfold seq_lt. lia.
  - apply Forall_forall. intros x [Hx|Hx]%elem_of_app;
      [specialize (Hb _ Hx)|specialize (Hb' _ Hx)]; simpl; lia.
Qed.

Section Refinement.
Context {Se Sh V : Type} `{!GoZero V, !Store Se (Entry V), !Store Sh Head}.
Context `{!StoreSpec Se (Entry V), !StoreSpec Sh Head}.

Definition scope_entries (a : alog V) (sc : string) : list (Entry V) := (slog_of a sc).2.

Definition represents (l : Log Se Sh) (a : alog V) : Prop :=
  rows_ok (Se:=Se) (entries l) (scope_entries a) ∧ store_ok (heads l) ∧
  (∀ sc, contents (heads l) !! sc = head_row <$> a !! sc) ∧
  map_Forall (λ sc s, nul_free sc ∧ slog_ok s) a.

Lemma log_represents_head l a sc : represents l a → HeadOf l sc = head_row (slog_of a sc).
Proof.
  intros (_ & Hs & Hh & _). unfold HeadOf, slog_of. rewrite get_spec, Hh by done. by destruct (a !! sc).
Qed.

Lemma represents_slog_ok l a sc : represents l a → slog_ok (slog_of a sc).
Proof.
  intros (_ & _ & _ & Hok). unfold slog_of. destruct (a !! sc) as [s|] eqn:E; [by eapply Hok|].
  split; [simpl; lia|]. repeat constructor.
Qed.

Lemma represents_listing l a sc :
  represents l a → nul_free sc →
  store_list_prefix (entries l) (scopePrefix sc) = keyed sc <$> (slog_of a sc).2.
Proof.
  intros Hrep Hn. apply (scope_listing _ (scope_entries a)); [apply Hrep|done|].
  by destruct (represents_slog_ok l a sc Hrep) as (_ & ? & _).
Qed.

Lemma scope_entries_insert (a : alog V) sc s sc' :
  scope_entries (<[sc := s]> a) sc' = (<[sc := s.2]> (scope_entries a)) sc'.
Proof.
  unfold scope_entries, slog_of. destruct (decide (sc' = sc)) as [->|].
  - by rewrite lookup_insert_eq, fn_lookup_insert.
  - by rewrite lookup_insert_ne, fn_lookup_insert_ne.
Qed.

Lemma log_represents_insert l a st sc s :
  represents l a → nul_free sc → slog_ok s → rows_ok st (<[sc := s.2]> (scope_entries a)) →
  represents (MkLog st (store_put (heads l) sc (head_row s))) (<[sc := s]> a).
Proof.
  intros (_ & Hs & Hh & Hok) Hn Hsl Hr. destruct (put_spec (heads l) sc (head_row s) Hs) as [Hs' Hc].
  split; [|split; [done|split]].
  - eapply log_rows_ok_ext; [exact Hr|]. intros sc' e. by rewrite scope_entries_insert.
  - intros sc'. simpl. rewrite Hc. destruct (decide (sc' = sc)) as [->|].
    + by rewrite !lookup_insert_eq.
    + by rewrite !lookup_insert_ne.
  - by apply map_Forall_insert_2.
Qed.

(** The shared end of every operation that deletes entries of a scope. *)
Lemma represents_retain l a st sc s es n :
  represents l a → a !! sc = Some s →
  StronglySorted Z.lt (e_Seq <$> es) → Forall (λ e, 0 ≤ e_Seq e < s.1) es →
  (length es ≤ length s.2)%nat → n = Z.of_nat (length s.2 - length es) →
  rows_ok st (<[sc := es]> (scope_entries a)) →
  represents
    (MkLog st (if n >? 0
               then store_put (heads l) sc (MkHead s.1 (i64 (Z.of_nat (length s.2) - n)))
               else heads l)) (retain a sc es).1 ∧
  ACount n = (retain a sc es).2.
Proof.
  intros Hrep Ha Hs Hb Hle -> Hr. destruct (Hrep) as (_ & Hok & Hh & Hall).
  destruct (Hall _ _ Ha) as (Hn & H0 & Hs0 & Hb0).
  assert (slog_of a sc = s) as Es by (unfold slog_of; by rewrite Ha).
  unfold retain. rewrite Ha, Es. simpl. split; [|done].
  assert (slog_ok (s.1, es)) as Hsl by (split; [done|]; split; [by apply seq_sorted|done]).
  destruct (Z.gtb_spec (Z.of_nat (length s.2 - length es)) 0) as [Hgt|Heq].
  - rewrite i64_id.
    + replace (Z.of_nat (length s.2) - _) with (Z.of_nat (length es)) by lia.
      by apply (log_represents_insert l a st sc (s.1, es)).
    + unfold in_i64. pose proof (StronglySorted_bounded_length (e_Seq <$> s.2) s.1) as Hlen.
      rewrite length_fmap in Hlen. apply seq_sorted in Hs0. rewrite Forall_fmap in Hlen.
      specialize (Hlen ltac:(lia) Hs0 Hb0). lia.
  - split; [|split; [done|split]].
    + eapply log_rows_ok_ext; [exact Hr|]. intros sc' e. by rewrite scope_entries_insert.
    + intros sc'. simpl. rewrite Hh. destruct (decide (sc' = sc)) as [->|];
        [|by rewrite lookup_insert_ne].
      rewrite lookup_insert_eq, Ha. unfold head_row. simpl. do 3 f_equal. lia.
    + by apply map_Forall_insert_2.
Qed.

Lemma open_refines l a sc :
  represents l a → nul_free sc → represents (Open l sc) (<[sc := slog_of a sc]> a).
Proof.
  intros Hrep Hn. pose proof (represents_slog_ok l a sc Hrep) as Hsl.
  destruct (Hrep) as (Hr & Hs & Hh & Hok).
  destruct (upsert_spec (heads l) sc (λ h, h) Hs) as [Hs' Hc].
  split; [|split; [done|split]].
  - eapply log_rows_ok_ext; [exact Hr|]. intros sc' e. rewrite scope_entries_insert.
    destruct (decide (sc' = sc)) as [->|]; [by rewrite fn_lookup_insert|by rewrite fn_lookup_insert_ne].
  - intros sc'. simpl. rewrite Hc. destruct (decide (sc' = sc)) as [->|].
    + rewrite !lookup_insert_eq, Hh. unfold slog_of. by destruct (a !! sc).
    + by rewrite !lookup_insert_ne.
  - by apply map_Forall_insert_2.
Qed.

(** Both operations that add entries end in a scope with the new ones
    numbered on. *)
Lemma put_entries_refines l a sc new :
  represents l a → nul_free sc →
  let s := slog_of a sc in
  s.1 + Z.of_nat (length new) < 2 ^ 63 →
  ∃ st h, put_entries sc (entries l) (head_row s) new = (st, h, number s.1 new) ∧
    represents (MkLog st (store_put (heads l) sc h))
      (<[sc := (s.1 + Z.of_nat (length new), s.2 ++ number s.1 new)]> a).
Proof.
  intros Hrep Hn s Hb. pose proof (represents_slog_ok l a sc Hrep) as Hsl. fold s in Hsl.
  destruct (Hsl) as (H0 & Hs & Hf).
  pose proof (StronglySorted_bounded_length (e_Seq <$> s.2) s.1) as Hlen.
  rewrite length_fmap, Forall_fmap in Hlen. apply seq_sorted in Hs.
  specialize (Hlen ltac:(lia) Hs Hf).
  destruct (put_entries_rows (entries l) (scope_entries a) sc s.1 (Z.of_nat (length s.2)) new)
    as (st & He & Hr); [apply Hrep|done|lia|lia|lia| |].
  { eapply Forall_impl; [exact Hf|]. simpl. lia. }
  exists st, (head_row (s.1 + Z.of_nat (length new), s.2 ++ number s.1 new)). split.
  - unfold head_row at 1. rewrite He. unfold head_row. simpl.
    destruct (number_seqs s.1 new) as (Hl & _). rewrite length_app, Hl. do 3 f_equal. lia.
  - apply log_represents_insert; [done|done|by apply slog_ok_append|exact Hr].
Qed.

Lemma log_append_refines l a sc now items :
  represents l a → op_ok a (OpAppend sc now items) →
  represents (Append l sc now items).1 (abstract_op a (OpAppend sc now items)).1 ∧
  AEntries (Append l sc now items).2 = (abstract_op a (OpAppend sc now items)).2.
Proof.
  intros Hrep [Hn Hb]. destruct items as [|i0 items'] eqn:Ei; [done|]. rewrite <- Ei in *.
  set (new := (λ item, MkEntry 0 (i_Time item) (UnixMilli now) (i_Value item)) <$> items).
  destruct (put_entries_refines l a sc new Hrep Hn) as (st & h & He & Hr).
  { unfold new. by rewrite length_fmap. }
  unfold new in He, Hr. rewrite length_fmap in Hr. unfold Append, abstract_op.
  rewrite (log_represents_head l a sc Hrep). rewrite Ei in *. rewrite He. done.
Qed.

Lemma log_import_refines l a sc new :
  represents l a → op_ok a (OpImport sc new) →
  represents (Import l sc new).1 (abstract_op a (OpImport sc new)).1 ∧
  AResult (Import l sc new).2 = (abstract_op a (OpImport sc new)).2.
Proof.
  intros Hrep [Hn Hb]. pose proof (represents_slog_ok l a sc Hrep) as (H0 & _ & Hf).
  unfold Import. simpl.
  assert (match store_get (heads l) sc with Some h => Next h >? 0 | None => false end
          = ((slog_of a sc).1 >? 0)) as ->.
  { destruct Hrep as (_ & Hsh & Hh & _). rewrite get_spec, Hh by done. unfold slog_of.
    by destruct (a !! sc). }
  destruct (Z.gtb_spec (slog_of a sc).1 0) as [Hgt|Hle]; [done|].
  assert (slog_of a sc = (0, [])) as Es.
  { destruct (slog_of a sc) as [n es]. simpl in *. assert (n = 0) as -> by lia.
    destruct es as [|e es]; [done|]. apply Forall_cons in Hf as [Hf _]. simpl in Hf. lia. }
  destruct (put_entries_refines l a sc new Hrep Hn) as (st & h & He & Hr).
  { rewrite Es. done. }
  rewrite Es in He, Hr. change (head_row (0, [])) with (MkHead 0 0) in He. simpl in He.
  rewrite He. done.
Qed.

Lemma remove_refines l a sc (pick : list (string * Entry V) → list string) doomed kept :
  represents l a → nul_free sc →
  pick (keyed sc <$> (slog_of a sc).2) = (keyed sc <$> doomed).*1 →
  Permutation (slog_of a sc).2 (doomed ++ kept) → kept `sublist_of` (slog_of a sc).2 →
  represents (remove l sc pick).1 (retain a sc kept).1 ∧
  ACount (remove l sc pick).2 = (retain a sc kept).2.
Proof.
  intros Hrep Hn Hp Hperm Hsub.
  pose proof (Permutation_length Hperm) as Hlen. rewrite length_app in Hlen.
  pose proof (represents_slog_ok l a sc Hrep) as (H0 & Hs & Hf).
  unfold remove. rewrite (represents_listing l a sc Hrep Hn), Hp.
  destruct (Hrep) as (Hr & Hsh & Hh & _). rewrite get_spec, Hh by done.
  destruct (a !! sc) as [s|] eqn:Ea; cbn [fmap option_fmap option_map].
  2:{ unfold retain, slog_of in *. rewrite Ea in *. simpl in *. split; [done|]. f_equal. }
  assert (slog_of a sc = s) as Es by (unfold slog_of; by rewrite Ea). rewrite Es in *.
  rewrite !length_fmap.
  apply (represents_retain l a _ sc s kept (Z.of_nat (length doomed))); [done|done| | |lia|lia|].
  - apply seq_sorted in Hs. eapply sublist_StronglySorted; [by apply sublist_fmap|done].
  - by eapply sublist_Forall.
  - apply delete_ids_rows; [done| |].
    + apply Forall_forall. intros e He. rewrite Forall_forall in Hf.
      assert (e ∈ s.2) as Hin by (rewrite Hperm; apply elem_of_app; by left).
      specialize (Hf e Hin). simpl in Hf. lia.
    + intros x. unfold scope_entries. rewrite Es, Hperm, elem_of_app. split.
      * intros Hx. split; [by right|]. intros (e & He & Hd)%list_elem_of_fmap.
        assert (NoDup s.2) as Hnd.
        { apply (NoDup_fmap_1 e_Seq). apply seq_sorted in Hs. by apply StronglySorted_lt_NoDup. }
        rewrite Hperm in Hnd. apply NoDup_app in Hnd as (_ & Hnd & _).
        apply (Hnd e Hd). rewrite <- (seq_lt_unique s.2 x e Hs); [done|..|done];
          rewrite Hperm; apply elem_of_app; auto.
      * intros [[Hx|Hx] Hni]; [|done]. destruct Hni. apply list_elem_of_fmap. eauto.
Qed.

Lemma expire_refines l a sc cutoff :
  represents l a → nul_free sc →
  represents (Expire l sc cutoff).1 (abstract_op a (OpExpire sc cutoff)).1 ∧
  ACount (Expire l sc cutoff).2 = (abstract_op a (OpExpire sc cutoff)).2.
Proof.
  intros Hrep Hn. set (limit := UnixMilli cutoff).
  apply (remove_refines l a sc _ (filter (λ e, e_Time e < limit) (slog_of a sc).2));
    [done|done| | |apply sublist_filter].
  - unfold expire_pick. fold limit. f_equal.
    induction (slog_of a sc).2 as [|e es IH]; [done|]. rewrite fmap_cons, !filter_cons. simpl.
    destruct (decide (e_Time e < limit)); [|done]. by rewrite fmap_cons, IH.
  - rewrite <- (filter_app_complement (λ e, e_Time e < limit)) at 1.
    apply Permutation_app_head. apply reflexive_eq, list_filter_iff. intros e. lia.
Qed.

Lemma cap_refines l a sc max :
  represents l a → nul_free sc → 0 ≤ max →
  represents (Cap l sc max).1 (abstract_op a (OpCap sc max)).1 ∧
  ACount (Cap l sc max).2 = (abstract_op a (OpCap sc max)).2.
Proof.
  intros Hrep Hn Hm. unfold Cap, abstract_op. rewrite (log_represents_head l a sc Hrep).
  unfold head_row. cbn [Count]. set (es := (slog_of a sc).2).
  destruct (Z.leb_spec (Z.of_nat (length es)) max) as [Hle|Hgt].
  - replace (length es - Z.to_nat max)%nat with 0%nat by lia. rewrite drop_0.
    unfold retain. fold es. rewrite Nat.sub_diag. split; [|done]. simpl.
    case_bool_decide as Hi; [|done]. destruct Hi as [s Hi].
    rewrite insert_id; [done|]. unfold es, slog_of. rewrite Hi. by destruct s.
  - apply (remove_refines l a sc _ (take (length es - Z.to_nat max) es)); [done|done|..].
    + unfold cap_pick. rewrite length_fmap. fold es. rewrite (proj2 (Z.leb_gt _ _)) by lia.
      rewrite <- fmap_take.
      by replace (Z.to_nat (Z.of_nat (length es) - max)) with (length es - Z.to_nat max)%nat by lia.
    + fold es. by rewrite take_drop.
    + apply sublist_drop.
Qed.

Lemma edit_refines l a sc g :
  represents l a → op_ok a (OpEdit sc g) →
  represents (Edit l sc g).1 (abstract_op a (OpEdit sc g)).1 ∧
  ACount (Edit l sc g).2 = (abstract_op a (OpEdit sc g)).2.
Proof.
  intros Hrep [Hn Hg]. pose proof (represents_slog_ok l a sc Hrep) as (H0 & Hs & Hf).
  unfold Edit. rewrite (represents_listing l a sc Hrep Hn).
  destruct (Hrep) as (Hr & Hsh & Hh & _). rewrite get_spec, Hh by done.
  destruct (a !! sc) as [s|] eqn:Ea; cbn [fmap option_fmap option_map].
  2:{ unfold abstract_op, retain, slog_of. rewrite Ea. done. }
  assert (slog_of a sc = s) as Es by (unfold slog_of; by rewrite Ea). rewrite Es in *.
  destruct (edit_loop_rows g (entries l) (scope_entries a) sc 0 [] s.2)
    as (st & He & Hr'); [done|done|done| |done|].
  { unfold scope_entries. by rewrite Es. }
  rewrite He. unfold abstract_op. rewrite Es. simpl in Hr'.
  set (kept := omap (edited g) s.2) in *.
  assert (e_Seq <$> kept `sublist_of` e_Seq <$> s.2) as Hsub.
  { unfold kept. clear - Hg. induction s.2 as [|e es IH]; csimpl; [done|].
    unfold edited at 1. specialize (Hg e). destruct (g e) as [[e' keep] changed]. simpl in Hg.
    destruct keep; csimpl; [|by constructor]. destruct changed; rewrite ?Hg; by constructor. }
  apply (represents_retain l a st sc s kept); [done|done| | | |reflexivity|done].
  - apply seq_sorted in Hs. by eapply sublist_StronglySorted.
  - rewrite <- (Forall_fmap e_Seq (λ n, 0 ≤ n < s.1)). eapply sublist_Forall; [exact Hsub|].
    by apply Forall_fmap.
  - apply length_omap_le.
Qed.

Lemma log_drop_refines l a sc :
  represents l a → nul_free sc → represents (Drop (V:=V) l sc) (delete sc a).
Proof.
  intros Hrep Hn. pose proof (represents_slog_ok l a sc Hrep) as (H0 & _ & Hf).
  unfold Drop. rewrite (represents_listing l a sc Hrep Hn).
  destruct Hrep as (Hr & Hs & Hh & Hok). destruct (delete_spec (heads l) sc Hs) as (Hs' & Hc & _).
  split; [|split; [done|split]]; simpl.
  - eapply log_rows_ok_ext; [apply (delete_ids_rows _ _ sc [] _ Hr)|].
    + eapply Forall_impl; [exact Hf|]. simpl. lia.
    + intros x. split; [by intros ?%not_elem_of_nil|]. intros [Hx Hni]. destruct Hni.
      by apply list_elem_of_fmap_2.
    + intros sc' e. unfold scope_entries, slog_of. destruct (decide (sc' = sc)) as [->|].
      * by rewrite fn_lookup_insert, lookup_delete_eq.
      * by rewrite fn_lookup_insert_ne, lookup_delete_ne.
  - intros sc'. rewrite Hc. destruct (decide (sc' = sc)) as [->|].
    + by rewrite !lookup_delete_eq.
    + by rewrite !lookup_delete_ne.
  - by apply map_Forall_delete.
Qed.

Lemma scopes_refines l a prefix : represents l a → Scopes l prefix = names_under a prefix.
Proof.
  intros (_ & Hs & Hh & _). destruct (list_prefix_spec (heads l) prefix Hs) as [Hl He].
  apply (StronglySorted_elem_unique slt); [done| |].
  - assert (NoDup (names_under a prefix)) as Hnd.
    { unfold names_under. rewrite merge_sort_Permutation. apply NoDup_filter, NoDup_elements. }
    assert (StronglySorted String.le (names_under a prefix)) as Hle
      by (apply StronglySorted_merge_sort; apply _).
    revert Hnd Hle. generalize (names_under a prefix). clear.
    induction l as [|x l IH]; [constructor|].
    intros [Hx Hnd]%NoDup_cons [Hf Hs]%StronglySorted_cons. constructor; [auto|]. rewrite Forall_forall in Hf. apply Forall_forall. intros y Hy.
    apply slt_le. split; [by apply Hf|congruence].
  - intros sc. unfold names_under.
    rewrite merge_sort_Permutation, list_elem_of_filter, elem_of_elements, elem_of_dom.
    unfold Scopes. rewrite list_elem_of_fmap. split.
    + intros ([k h] & -> & [Hk Hp]%He). rewrite Hh in Hk. simpl in *.
      split; [done|]. destruct (a !! k); [eauto|done].
    + intros [Hp [s Ha]]. exists (sc, head_row s). split; [done|]. apply He.
      by rewrite Hh, Ha.
Qed.

Lemma delete_names_lookup (a : alog V) names sc :
  foldl (λ a sc, delete sc a) a names !! sc = if decide (sc ∈ names) then None else a !! sc.
Proof.
  revert a. induction names as [|n names IH]; intros a; simpl; [done|].
  rewrite IH. repeat case_decide; try done; rewrite elem_of_cons in *; try tauto.
  - destruct (decide (sc = n)) as [->|]; [by rewrite lookup_delete_eq|tauto].
  - rewrite lookup_delete_ne; [done|]. intros ->. tauto.
Qed.

Lemma drops_refine l a names :
  represents l a → Forall nul_free names →
  represents (foldl (Drop (V:=V)) l names) (foldl (λ a sc, delete sc a) a names).
Proof.
  intros Hrep Hn. revert l a Hrep. induction Hn as [|sc names Hsc Hn IH]; intros l a Hrep; simpl; [done|].
  by apply IH, log_drop_refines.
Qed.

Lemma drop_prefix_refines l a prefix :
  represents l a →
  represents (DropPrefix (V:=V) l prefix) (abstract_op a (OpDropPrefix prefix)).1.
Proof.
  intros Hrep. unfold DropPrefix. rewrite (scopes_refines l a prefix Hrep). simpl.
  assert (∀ sc, sc ∈ names_under a prefix ↔ HasPrefix sc prefix = true ∧ is_Some (a !! sc)) as Hin.
  { intros sc. unfold names_under.
    by rewrite merge_sort_Permutation, list_elem_of_filter, elem_of_elements, elem_of_dom. }
  replace (filter _ a) with (foldl (λ a sc, delete sc a) a (names_under a prefix)).
  - apply drops_refine; [done|]. apply Forall_forall. intros sc [_ [s Hs]]%Hin.
    destruct Hrep as (_ & _ & _ & Hok). by destruct (Hok _ _ Hs).
  - apply map_eq. intros sc. rewrite delete_names_lookup, map_lookup_filter.
    destruct (a !! sc) as [s|] eqn:Ea; simpl; [|by case_decide].
    case_decide as Hd; rewrite Hin, Ea in Hd.
    + destruct Hd as [Hp _]. rewrite Hp. by case_guard.
    + case_guard as Hg; [done|]. destruct Hd. split; [|done]. by destruct (HasPrefix sc prefix).
Qed.

Lemma log_run_op_refines l a op :
  represents l a → op_ok a op →
  represents (run_op l op).1 (abstract_op a op).1 ∧ (run_op l op).2 = (abstract_op a op).2.
Proof.
  intros Hrep Hok. destruct op; cbn [op_ok] in Hok.
  - split; [by apply open_refines|done].
  - split; [done|]. simpl. f_equal. unfold Exists. destruct Hrep as (_ & Hsh & Hh & _).
    rewrite get_spec, Hh by done. by destruct (a !! sc).
  - by apply log_append_refines.
  - by apply log_import_refines.
  - split; [done|]. simpl. f_equal. unfold Entries. rewrite (represents_listing l a sc) by done.
    by rewrite <- list_fmap_compose, list_fmap_id.
  - split; [done|]. simpl. f_equal. unfold Values. rewrite (represents_listing l a sc) by done.
    by rewrite <- !list_fmap_compose.
  - split; [done|]. simpl. f_equal. by rewrite (log_represents_head l a sc).
  - split; [done|]. simpl. f_equal. by apply scopes_refines.
  - by apply expire_refines.
  - destruct Hok. by apply cap_refines.
  - split; [by apply log_drop_refines|done].
  - split; [by apply drop_prefix_refines|done].
  - by apply edit_refines.
Qed.

Lemma log_empty_represents (es : Se) (hs : Sh) :
  store_ok es → store_ok hs → contents es = ∅ → contents hs = ∅ →
  represents (MkLog es hs) ∅.
Proof.
  intros He Hh Ee Eh. split; [|split; [done|split]].
  - split; [done|]. split.
    + intros sc e. unfold scope_entries, slog_of. rewrite lookup_empty. by intros ?%not_elem_of_nil.
    + intros k e. simpl. rewrite Ee, lookup_empty. split; [done|]. intros (sc & Hin & _).
      unfold scope_entries, slog_of in Hin. rewrite lookup_empty in Hin. by apply not_elem_of_nil in Hin.
  - intros sc. simpl. by rewrite Eh, !lookup_empty.
  - apply map_Forall_empty.
Qed.
End Refinement.

(** ** Properties *)

Fixpoint run_log {Se Sh V} `{!GoZero V, !Store Se (Entry V), !Store Sh Head}
    (l : Log Se Sh) (ops : list (log_op V)) : Log Se Sh * list (log_answer V) :=
  match ops with
  | [] => (l, [])
  | op :: ops =>
      let r := run_op l op in
      let rs := run_log r.1 ops in (rs.1, r.2 :: rs.2)
  end.

Fixpoint run_abstract {V} (a : alog V) (ops : list (log_op V)) : alog V * list (log_answer V) :=
  match ops with
  | [] => (a, [])
  | op :: ops =>
      let r := abstract_op a op in
      let rs := run_abstract r.1 ops in (rs.1, r.2 :: rs.2)
  end.

Fixpoint ops_ok {V} (a : alog V) (ops : list (log_op V)) : Prop :=
  match ops with
  | [] => True
  | op :: ops => op_ok a op ∧ ops_ok (abstract_op a op).1 ops
  end.

Lemma log_run_log_refines {Se Sh V : Type} `{!GoZero V, !Store Se (Entry V), !Store Sh Head}
    `{!StoreSpec Se (Entry V), !StoreSpec Sh Head} (l : Log Se Sh) (a : alog V) ops :
  represents l a → ops_ok a ops →
  represents (run_log l ops).1 (run_abstract a ops).1 ∧ (run_log l ops).2 = (run_abstract a ops).2.
Proof.
  revert l a. induction ops as [|op ops IH]; intros l a Hrep Hok; [done|].
  destruct Hok as [H1 H2]. destruct (log_run_op_refines l a op Hrep H1) as [Hr Ha].
  destruct (IH _ _ Hr H2) as [Hr' Ha']. split; [done|]. simpl. by rewrite Ha, Ha'.
Qed.

(** [C9] Over any stores that keep the store interface's promises, a log store
    that starts empty answers every sequence of its thirteen operations
    exactly as a map from scopes to lists of entries does: entries come back
    in arrival order, retention and caps delete what they should, the head
    count is the number of rows retained, and no scope sees another's rows
    even when its name is a prefix of the other's. *)
Theorem logstore_refines_lists {Se Sh V : Type} `{!GoZero V, !Store Se (Entry V), !Store Sh Head}
    `{!StoreSpec Se (Entry V), !StoreSpec Sh Head} (es : Se) (hs : Sh) (ops : list (log_op V)) :
  store_ok es → store_ok hs → contents es = ∅ → contents hs = ∅ → ops_ok ∅ ops →
  (run_log (MkLog es hs) ops).2 = (run_abstract ∅ ops).2 ∧
  represents (run_log (MkLog es hs) ops).1 (run_abstract ∅ ops).1.
Proof.
  intros He Hh Ee Eh Hok.
  destruct (log_run_log_refines _ _ ops (log_empty_represents es hs He Hh Ee Eh) Hok). done.
Qed.

(** Two scopes, one a prefix of the other, written, expired, capped and
    edited. *)
Definition w_log : Log (Z * MemoryStore (Entry Z)) (Z * MemoryStore Head) :=
  MkLog (NewStateStore 0) (NewStateStore 1).

Definition w_ops : list (log_op Z) :=
  [OpAppend "a" Second [MkItem 500 1; MkItem 100 2; MkItem 900 3; MkItem 950 4];
   OpAppend "ab" Second [MkItem 100 7];
   OpExpire "a" (200 * Millisecond); OpEntries "a"; OpCap "a" 2; OpHead "a";
   OpEdit "a" (λ e, (MkEntry (e_Seq e) (e_Time e) (e_Ingested e) 30, e_Value e =? 3, true));
   OpValues "a"; OpValues "ab"; OpScopes "a"; OpDropPrefix "ab"; OpExists "ab"].

Lemma w_log_ops_ok : ops_ok ∅ w_ops.
Proof.
  unfold w_ops. cbn [ops_ok op_ok].
  repeat match goal with
  | |- _ ∧ _ => split
  | |- True => exact I
  | |- nul_free _ => apply (bool_decide_unpack _); vm_compute; exact I
  | |- ∀ _, _ => reflexivity
  | |- _ < _ => vm_compute; reflexivity
  | |- _ ≤ _ => vm_compute; discriminate
  end.
Defined.

Lemma logstore_refines_lists_witness :
  (run_log w_log w_ops).2 = (run_abstract ∅ w_ops).2 ∧
  (run_log w_log w_ops).2 !! 7%nat = Some (AValues [30]) ∧
  (run_log w_log w_ops).2 !! 9%nat = Some (ANames ["a"; "ab"]).
Proof.
  split; [|split; vm_compute; reflexivity].
  refine (proj1 (logstore_refines_lists (NewStateStore 0) (NewStateStore 1) w_ops _ _ _ _ w_log_ops_ok)).
  - apply (NewStateStore_wf 0).
  - apply (NewStateStore_wf 1).
  - reflexivity.
  - reflexivity.
Defined.
