(* ===== verification/Jobrun.v ===== *)
(** * Executions of tasks ([sim/jobrun/jobrun.go])

    An [Execution] runs its tasks as series of attempts. Its methods and the
    continuations of the goroutines it spawns all run under the execution's
    lock, so the model is a state machine: each handler is a function of the
    state that runs from lock to unlock, [goroutines] holds the continuations
    still to come (a start that has not answered, a workload that has not
    exited, a timer that has not fired), and a step delivers one of them, in
    any order and with any answer, or cancels. The calls the execution makes
    to the cloud's hooks and to workloads are recorded in [calls]. A pointer to
    an attempt is its number. The clock is read once per handler. *)

From S2P Require Import Prelude.

(** ** Data *)

Inductive Status := Pending | Running | Succeeded | Failed | Cancelled.

#[global] Instance Status_eq_dec : EqDecision Status.
Proof. solve_decision. Defined.

(** [s >= Succeeded] in the order of the constants. *)
Definition Terminal (s : Status) : bool :=
  match s with Pending | Running => false | _ => true end.

Inductive Verdict := Undecided | Success | Failure | Cancellation.

#[global] Instance Verdict_eq_dec : EqDecision Verdict.
Proof. solve_decision. Defined.

(** The zero [time.Time] is [None]. *)
Record Exit := MkExit { x_Code : Z; x_Err : option string; x_At : option Time }.

Record Result := MkResult {
  r_Exit : Exit;
  r_Started : option Time;
  r_StartErr : option string;
  r_TimedOut : bool;
  r_Stopped : bool;
  r_Lost : bool;
}.

Definition is_nil {A} (x : option A) : bool := match x with None => true | Some _ => false end.

Definition Result_Succeeded (r : Result) : bool :=
  is_nil (r_StartErr r) && is_nil (x_Err (r_Exit r)) && (x_Code (r_Exit r) =? 0) &&
  negb (r_TimedOut r) && negb (r_Stopped r) && negb (r_Lost r).

Record Task := MkTask {
  t_Index : nat;
  t_Attempt : Z;
  t_Status : Status;
  t_FirstStarted : option Time;
  t_Started : option Time;
  t_Ended : option Time;
  t_Last : option Result;
  t_Stopping : bool;
}.

Definition task_zero (i : nat) : Task := MkTask i 0 Pending None None None None false.

Definition set_Status (s : Status) (t : Task) : Task :=
  MkTask (t_Index t) (t_Attempt t) s (t_FirstStarted t) (t_Started t) (t_Ended t) (t_Last t) (t_Stopping t).
Definition set_Attempt (n : Z) (t : Task) : Task :=
  MkTask (t_Index t) n (t_Status t) (t_FirstStarted t) (t_Started t) (t_Ended t) (t_Last t) (t_Stopping t).
Definition set_FirstStarted (x : option Time) (t : Task) : Task :=
  MkTask (t_Index t) (t_Attempt t) (t_Status t) x (t_Started t) (t_Ended t) (t_Last t) (t_Stopping t).
Definition set_Started (x : option Time) (t : Task) : Task :=
  MkTask (t_Index t) (t_Attempt t) (t_Status t) (t_FirstStarted t) x (t_Ended t) (t_Last t) (t_Stopping t).
Definition set_Ended (x : option Time) (t : Task) : Task :=
  MkTask (t_Index t) (t_Attempt t) (t_Status t) (t_FirstStarted t) (t_Started t) x (t_Last t) (t_Stopping t).
Definition set_Last (x : option Result) (t : Task) : Task :=
  MkTask (t_Index t) (t_Attempt t) (t_Status t) (t_FirstStarted t) (t_Started t) (t_Ended t) x (t_Stopping t).
Definition set_Stopping (b : bool) (t : Task) : Task :=
  MkTask (t_Index t) (t_Attempt t) (t_Status t) (t_FirstStarted t) (t_Started t) (t_Ended t) (t_Last t) b.

Record Counts := MkCounts {
  c_Tasks : nat; c_Pending : nat; c_Running : nat; c_Succeeded : nat; c_Failed : nat;
  c_Cancelled : nat; c_Retried : nat;
}.

Abbreviation Policy := (Counts → Verdict).

Definition AllSucceed (c : Counts) : Verdict :=
  if (0 <? c_Pending c + c_Running c)%nat then Undecided
  else if (c_Succeeded c =? c_Tasks c)%nat then Success
  else Failure.

Definition Completions (n : Z) (c : Counts) : Verdict :=
  if n <=? Z.of_nat (c_Succeeded c) then Success
  else if Z.of_nat (c_Succeeded c + c_Pending c + c_Running c) <? n then Failure
  else Undecided.

Record Spec := MkSpec {
  s_Tasks : Z;
  s_Parallelism : Z;
  s_MaxRetries : Z;
  s_AttemptTimeout : Duration;
  s_TaskTimeout : Duration;
  s_Policy : option Policy;
}.

(** ** The execution *)

Section Execution.
(** Workload handles, and the cloud's [Retry] hook, which may be nil. *)
Context {W : Type} (Retry : option (Task → Result → bool)).

Record attempt := MkAttempt {
  at_id : nat;
  at_workload : option W;
  at_stopped : bool;
  at_timedOut : bool;
  at_taskExpired : bool;
}.

(** Continuations that will take the execution's lock: [Start] returning, the
    workload of an attempt exiting, a timer firing. *)
Inductive goroutine :=
| GoStart (i id : nat) (snapshot : Task)
| GoWatch (i id : nat) (w : W)
| GoTimer (i id : nat) (task : bool) (after : Duration).

Inductive call :=
| CallChanged (t : Task) (c : Counts)
| CallFinished (v : Verdict) (c : Counts)
| CallStop (w : W)
| CallClose.

Record Execution := MkExecution {
  spec : Spec;
  tasks : list Task;
  attempts : list (option attempt);
  verdict : Verdict;
  finished : bool;
  next_id : nat;
  goroutines : list goroutine;
  calls : list call;
}.

Definition with_tasks (e : Execution) ts :=
  MkExecution (spec e) ts (attempts e) (verdict e) (finished e) (next_id e) (goroutines e) (calls e).
Definition with_attempts (e : Execution) ats :=
  MkExecution (spec e) (tasks e) ats (verdict e) (finished e) (next_id e) (goroutines e) (calls e).
Definition with_verdict (e : Execution) v :=
  MkExecution (spec e) (tasks e) (attempts e) v (finished e) (next_id e) (goroutines e) (calls e).
Definition with_finished (e : Execution) b :=
  MkExecution (spec e) (tasks e) (attempts e) (verdict e) b (next_id e) (goroutines e) (calls e).
Definition with_next (e : Execution) n :=
  MkExecution (spec e) (tasks e) (attempts e) (verdict e) (finished e) n (goroutines e) (calls e).
Definition with_goroutines (e : Execution) gs :=
  MkExecution (spec e) (tasks e) (attempts e) (verdict e) (finished e) (next_id e) gs (calls e).
Definition emit (c : call) (e : Execution) :=
  MkExecution (spec e) (tasks e) (attempts e) (verdict e) (finished e) (next_id e) (goroutines e)
    (calls e ++ [c]).

Definition spawn (g : goroutine) (e : Execution) := with_goroutines e (goroutines e ++ [g]).
Definition set_task (i : nat) (f : Task → Task) (e : Execution) :=
  with_tasks e (alter f i (tasks e)).
Definition set_attempt (i : nat) (a : option attempt) (e : Execution) :=
  with_attempts e (<[i := a]> (attempts e)).

(** The attempt task [i] has now. *)
Definition live (e : Execution) (i : nat) : option attempt := mjoin (attempts e !! i).

Definition has_status (s : Status) (ts : list Task) : nat :=
  length (filter (λ t, t_Status t = s) ts).

Definition countsLocked (e : Execution) : Counts :=
  MkCounts (length (tasks e)) (has_status Pending (tasks e)) (has_status Running (tasks e))
    (has_status Succeeded (tasks e)) (has_status Failed (tasks e)) (has_status Cancelled (tasks e))
    (length (filter (λ t, 0 < t_Attempt t) (tasks e))).

Definition taskLocked (e : Execution) (i : nat) : option Task :=
  (λ t, set_Stopping (Terminal (t_Status t) && negb (is_nil (live e i))) t) <$> tasks e !! i.

Definition changedLocked (i : nat) (e : Execution) : Execution :=
  match taskLocked e i with
  | Some t => emit (CallChanged t (countsLocked e)) e
  | None => e
  end.

Definition stopWorkload (w : W) (e : Execution) : Execution := emit (CallStop w) e.

Definition newAttemptLocked (index : nat) (e : Execution) : Execution :=
  with_next (set_attempt index (Some (MkAttempt (next_id e) None false false false)) e)
    (S (next_id e)).

Definition startAttemptLocked (i : nat) (e : Execution) : Execution :=
  match tasks e !! i with
  | None => e
  | Some t =>
      let id := next_id e in
      let snapshot := set_Started None t in
      let e := set_task i (set_Started None) e in
      let e := newAttemptLocked (t_Index t) e in
      let e := changedLocked i e in
      spawn (GoStart i id snapshot) e
  end.

(** [time.Since(x) >= d] for a time that may be zero. *)
Definition expired_since (now : Time) (x : option Time) (d : Duration) : bool :=
  match x with None => false | Some x => d <=? now - x end.

Definition retries (now : Time) (e : Execution) (t : Task) (r : Result) (a : option attempt) : bool :=
  if r_Stopped r || (s_MaxRetries (spec e) <=? t_Attempt t) || negb (bool_decide (verdict e = Undecided))
  then false
  else if match a with Some a => at_taskExpired a | None => false end then false
  else if (0 <? s_TaskTimeout (spec e)) && expired_since now (t_FirstStarted t) (s_TaskTimeout (spec e))
  then false
  else match Retry with None => true | Some f => f t r end.

(** Ending an attempt drops it, its timers and its context. *)
Definition attemptEndedLocked (now : Time) (i : nat) (r : Result) (e : Execution) : Execution :=
  let a := live e i in
  let r := match a with
           | Some a => MkResult (r_Exit r) (r_Started r) (r_StartErr r)
                         (r_TimedOut r || at_timedOut a) (r_Stopped r) (r_Lost r)
           | None => r
           end in
  let e := match a with Some _ => set_attempt i None e | None => e end in
  let e := set_task i (set_Last (Some r)) e in
  match tasks e !! i with
  | None => e
  | Some t =>
      if negb (bool_decide (t_Status t = Running)) then changedLocked i e
      else if Result_Succeeded r then
        changedLocked i (set_task i (λ t, set_Ended (x_At (r_Exit r)) (set_Status Succeeded t)) e)
      else if retries now e t r a then
        startAttemptLocked i (set_task i (λ t, set_Attempt (t_Attempt t + 1) t) e)
      else
        changedLocked i (set_task i (λ t, set_Ended (x_At (r_Exit r)) (set_Status Failed t)) e)
  end.

Definition stop_one (now : Time) (e : Execution) (i : nat) : Execution :=
  match tasks e !! i with
  | None => e
  | Some t =>
      if Terminal (t_Status t) then e
      else
        let e := set_task i (λ t, set_Ended (Some now) (set_Status Cancelled t)) e in
        let e := match live e i with
                 | None => e
                 | Some a =>
                     let e := set_attempt i (Some (MkAttempt (at_id a) (at_workload a) true
                                (at_timedOut a) (at_taskExpired a))) e in
                     match at_workload a with Some w => stopWorkload w e | None => e end
                 end in
        changedLocked i e
  end.

Definition stopRemainingLocked (now : Time) (e : Execution) : Execution :=
  foldl (stop_one now) e (seq 0 (length (tasks e))).

Definition finishIfDoneLocked (e : Execution) : Execution :=
  if finished e || bool_decide (verdict e = Undecided) then e
  else if forallb is_nil (attempts e) then
    emit CallClose (emit (CallFinished (verdict e) (countsLocked e)) (with_finished e true))
  else e.

Definition policy_of (s : Spec) : Policy := default AllSucceed (s_Policy s).

Definition limit_of (e : Execution) : Z :=
  if s_Parallelism (spec e) =? 0 then Z.of_nat (length (tasks e)) else s_Parallelism (spec e).

Fixpoint start_pending (limit running : Z) (e : Execution) (ixs : list nat) : Execution :=
  match ixs with
  | [] => e
  | i :: ixs =>
      if limit <=? running then e
      else match tasks e !! i with
           | Some t =>
               if bool_decide (t_Status t = Pending) then
                 start_pending limit (running + 1)
                   (startAttemptLocked i (set_task i (set_Status Running) e)) ixs
               else start_pending limit running e ixs
           | None => start_pending limit running e ixs
           end
  end.

Definition decide_verdict (now : Time) (e : Execution) : Execution :=
  if bool_decide (verdict e = Undecided) then
    let v := policy_of (spec e) (countsLocked e) in
    if bool_decide (v = Undecided) then e
    else stopRemainingLocked now (with_verdict e v)
  else e.

Definition fill_slots (e : Execution) : Execution :=
  if bool_decide (verdict e = Undecided) then
    start_pending (limit_of e) (Z.of_nat (has_status Running (tasks e))) e (seq 0 (length (tasks e)))
  else e.

Definition advanceLocked (now : Time) (e : Execution) : Execution :=
  finishIfDoneLocked (fill_slots (decide_verdict now e)).

Definition Cancel (now : Time) (e : Execution) : Execution :=
  if bool_decide (verdict e = Undecided) then
    finishIfDoneLocked (stopRemainingLocked now (with_verdict e Cancellation))
  else e.

(** [time.Since] of a zero time is too long ago to leave any delay. *)
Definition delay (now : Time) (d : Duration) (since : option Time) : Duration :=
  match since with None => 0 | Some x => Z.max (d - (now - x)) 0 end.

Definition armTimersLocked (now : Time) (t : Task) (id : nat) (e : Execution) : Execution :=
  let i := t_Index t in
  let e := if 0 <? s_AttemptTimeout (spec e)
           then spawn (GoTimer i id false (delay now (s_AttemptTimeout (spec e)) (t_Started t))) e
           else e in
  if 0 <? s_TaskTimeout (spec e)
  then spawn (GoTimer i id true (delay now (s_TaskTimeout (spec e)) (t_FirstStarted t))) e
  else e.

Definition watchAttempt (i id : nat) (w : W) (e : Execution) : Execution := spawn (GoWatch i id w) e.

(** The attempt [id] of task [i], when it is still the current one. *)
Definition current (e : Execution) (i id : nat) : option attempt :=
  match live e i with
  | Some a => if (at_id a =? id)%nat then Some a else None
  | None => None
  end.

Definition or_now (now : Time) (x : option Time) : option Time :=
  match x with None => Some now | Some _ => x end.

Definition attemptStarted (now : Time) (i id : nat) (w : option W) (err : option string)
    (e : Execution) : Execution :=
  match current e i id with
  | None => match w with Some w => stopWorkload w e | None => e end
  | Some a =>
      match err, w with
      | Some err, _ =>
          advanceLocked now (attemptEndedLocked now i
            (MkResult (MkExit (-1) None (Some now)) None (Some err) (at_taskExpired a) (at_stopped a) false) e)
      | None, None =>
          advanceLocked now (attemptEndedLocked now i
            (MkResult (MkExit (-1) None (Some now)) None (Some "the workload did not start") false false false) e)
      | None, Some w =>
          let e := set_attempt i (Some (MkAttempt id (Some w) (at_stopped a) (at_timedOut a)
                     (at_taskExpired a))) e in
          let e := set_task i (λ t, let t := set_Started (Some now) t in
                     set_FirstStarted (match t_FirstStarted t with None => t_Started t | x => x end) t) e in
          match tasks e !! i with
          | None => e
          | Some t =>
              let e := if at_stopped a || at_taskExpired a then stopWorkload w e
                       else armTimersLocked now t id e in
              let e := if bool_decide (t_Status t = Running) then changedLocked i e else e in
              watchAttempt i id w e
          end
      end
  end.

Definition timedOut (i id : nat) (task : bool) (e : Execution) : Execution :=
  match current e i id with
  | None => e
  | Some a =>
      if at_stopped a then e
      else
        let e := set_attempt i (Some (MkAttempt id (at_workload a) (at_stopped a) true
                   (at_taskExpired a || task))) e in
        match at_workload a with Some w => stopWorkload w e | None => e end
  end.

(** The continuation of [watchAttempt]. *)
Definition attemptExited (now : Time) (i id : nat) (exit : Exit) (e : Execution) : Execution :=
  match current e i id with
  | None => e
  | Some a =>
      let exit := MkExit (x_Code exit) (x_Err exit) (or_now now (x_At exit)) in
      advanceLocked now (attemptEndedLocked now i
        (MkResult exit (mjoin (t_Started <$> tasks e !! i)) None (at_timedOut a) (at_stopped a) false) e)
  end.

Definition newExecution (s : Spec) : result string Execution :=
  if s_Tasks s <? 1 then Err "an execution needs at least one task"
  else if (s_Parallelism s <? 0) || (s_MaxRetries s <? 0) || (s_AttemptTimeout s <? 0) || (s_TaskTimeout s <? 0)
  then Err "parallelism, retries and timeouts cannot be negative"
  else
    let n := Z.to_nat (s_Tasks s) in
    Ok (MkExecution s (replicate n (task_zero 0)) (replicate n None) Undecided false 0 [] []).

Definition Start (now : Time) (s : Spec) : result string Execution :=
  let? e := newExecution s in
  Ok (advanceLocked now (with_tasks e (task_zero <$> seq 0 (length (tasks e))))).

(** [Resume] takes what [Adopt] answers for each running task. *)
Fixpoint place_tasks (n : Z) (slots : list Task) (ts : list Task) : result string (list Task) :=
  match ts with
  | [] => Ok slots
  | t :: ts =>
      if n <=? Z.of_nat (t_Index t) then Err "task index outside the execution"
      else place_tasks n (<[t_Index t := t]> slots) ts
  end.

Definition resume_one (now : Time) (Adopt : Task → option W * option string) (e : Execution) (t : Task)
    : Execution :=
  let i := t_Index t in
  let '(w, err) := Adopt t in
  match w with
  | None =>
      attemptEndedLocked now i
        (MkResult (MkExit (-1) err (Some now)) (t_Started t) None false false true) e
  | Some w =>
      let id := next_id e in
      let e := newAttemptLocked i e in
      let e := set_attempt i (Some (MkAttempt id (Some w) false false false)) e in
      let e := set_task i (λ t, let t := set_Started (or_now now (t_Started t)) t in
                 set_FirstStarted (match t_FirstStarted t with None => t_Started t | x => x end) t) e in
      match tasks e !! i with
      | None => e
      | Some t => watchAttempt i id w (armTimersLocked now t id e)
      end
  end.

Definition Resume (now : Time) (s : Spec) (Adopt : Task → option W * option string)
    (recorded : list Task) : result string Execution :=
  let? e := newExecution s in
  if negb (Z.of_nat (length recorded) =? s_Tasks s)
  then Err "resume of another number of tasks"
  else
    let? ts := place_tasks (s_Tasks s) (tasks e) recorded in
    let e := with_tasks e ts in
    let found := filter (λ t, t_Status t = Running) ts in
    Ok (advanceLocked now (foldl (resume_one now Adopt) e found)).

(** One continuation delivered, with any answer. *)
Inductive deliver : Execution → Execution → Prop :=
| deliver_started now gs1 gs2 i id t w err e :
    goroutines e = gs1 ++ GoStart i id t :: gs2 →
    deliver e (attemptStarted now i id w err (with_goroutines e (gs1 ++ gs2)))
| deliver_exited now gs1 gs2 i id w exit e :
    goroutines e = gs1 ++ GoWatch i id w :: gs2 →
    deliver e (attemptExited now i id exit (with_goroutines e (gs1 ++ gs2)))
| deliver_timer gs1 gs2 i id task d e :
    goroutines e = gs1 ++ GoTimer i id task d :: gs2 →
    deliver e (timedOut i id task (with_goroutines e (gs1 ++ gs2))).

Inductive step : Execution → Execution → Prop :=
| step_deliver e e' : deliver e e' → step e e'
| step_cancel now e : step e (Cancel now e).
End Execution.

(** ** The invariant *)

Section Invariant.
Context {W : Type} (Retry : option (Task → Result → bool)).
Implicit Types (e : Execution (W:=W)) (g : goroutine (W:=W)) (a : attempt (W:=W)).

(** The attempt whose start or exit a continuation will report. *)
Definition gid g : option nat :=
  match g with GoStart _ id _ | GoWatch _ id _ => Some id | GoTimer _ _ _ _ => None end.

Definition serves g (i : nat) a : Prop :=
  match at_workload a with
  | None => ∃ t, g = GoStart i (at_id a) t
  | Some w => g = GoWatch i (at_id a) w
  end.

Definition running_count e : nat := has_status Running (tasks e).

(** What holds of every task, but for the one an operation is working on. *)
Record base (x : list nat) e : Prop := {
  b_len : length (attempts e) = length (tasks e);
  b_task i t : tasks e !! i = Some t →
    t_Index t = i ∧ 0 ≤ t_Attempt t ≤ s_MaxRetries (spec e);
  b_live i t : verdict e = Undecided → i ∉ x → tasks e !! i = Some t →
    t_Status t = Running ↔ is_Some (live e i);
  b_go i a : i ∉ x → live e i = Some a → ∃ g, g ∈ goroutines e ∧ serves g i a;
  b_ids : NoDup (omap gid (goroutines e));
  b_fresh id : id ∈ omap gid (goroutines e) → (id < next_id e)%nat;
  b_run : verdict e = Undecided → Z.of_nat (running_count e) ≤ limit_of e;
}.

(** How often the Finished hook was called. *)
Definition is_finish (c : call (W:=W)) : bool :=
  match c with CallFinished _ _ => true | _ => false end.
Definition finishes e : nat := length (filter (λ c, is_finish c = true) (calls e)).

Lemma finishes_emit c e : finishes (emit c e) = (finishes e + if is_finish c then 1 else 0)%nat.
Proof.
  unfold finishes. simpl. rewrite filter_app, length_app. f_equal. rewrite filter_cons.
  by destruct (is_finish c).
Qed.

(** Everything but the other calls recorded. *)
Definition core e :=
  (spec e, tasks e, attempts e, verdict e, finished e, next_id e, goroutines e, finishes e).

Lemma base_core x e e' : core e = core e' → base x e → base x e'.
Proof.
  unfold core. intros [= Es Et Ea Ev Ef En Eg _] [H1 H2 H3 H4 H5 H6 H7].
  split; unfold live, limit_of, running_count in *;
    rewrite <- ?Es, <- ?Et, <- ?Ea, <- ?Ev, <- ?En, <- ?Eg; done.
Qed.

Lemma changedLocked_core i e : core (changedLocked i e) = core e.
Proof.
  unfold changedLocked. destruct (taskLocked e i); [|done]. unfold core.
  by rewrite finishes_emit, Nat.add_0_r.
Qed.

Lemma stopWorkload_core w e : core (stopWorkload w e) = core e.
Proof. unfold core, stopWorkload. by rewrite finishes_emit, Nat.add_0_r. Qed.

Lemma base_changed x i e : base x e → base x (changedLocked i e).
Proof. apply base_core. symmetry. apply changedLocked_core. Qed.

Lemma base_emit x c e : base x e → base x (emit c e).
Proof. intros [H1 H2 H3 H4 H5 H6 H7]. by split. Qed.

Lemma base_weaken i x e : base x e → base (i :: x) e.
Proof.
  intros [H1 H2 H3 H4 H5 H6 H7]. split; try done.
  - intros j t Hv [_ Hx]%not_elem_of_cons. by apply H3.
  - intros j a [_ Hx]%not_elem_of_cons. by apply H4.
Qed.

Lemma live_set_attempt_ne e i j oa : i ≠ j → live (set_attempt i oa e) j = live e j.
Proof. intros. unfold live, set_attempt. simpl. by rewrite list_lookup_insert_ne. Qed.

Lemma live_set_attempt_eq e i oa : (i < length (attempts e))%nat → live (set_attempt i oa e) i = oa.
Proof. intros. unfold live, set_attempt. simpl. by rewrite list_lookup_insert_eq. Qed.

Lemma live_bound e i a : live e i = Some a → (i < length (attempts e))%nat.
Proof.
  unfold live. intros H. apply lookup_lt_is_Some_1. destruct (attempts e !! i); [eauto|done].
Qed.

Lemma tasks_set_task_eq e i f : tasks (set_task i f e) !! i = f <$> tasks e !! i.
Proof. unfold set_task. simpl. apply list_lookup_alter_eq. Qed.

Lemma tasks_set_task_ne e i j f : i ≠ j → tasks (set_task i f e) !! j = tasks e !! j.
Proof. intros. unfold set_task. simpl. by apply list_lookup_alter_ne. Qed.

Lemma length_set_task e i f : length (tasks (set_task i f e)) = length (tasks e).
Proof. apply length_alter. Qed.

(** How a change of one task moves a count. *)
Lemma has_status_alter s ts i f t :
  ts !! i = Some t →
  (has_status s (alter f i ts) + (if decide (t_Status t = s) then 1 else 0)
   = has_status s ts + (if decide (t_Status (f t) = s) then 1 else 0))%nat.
Proof.
  unfold has_status. revert i. induction ts as [|t0 ts IH]; intros [|i] Hi; [done..| |].
  - injection Hi as ->. change (alter f 0%nat (t :: ts)) with (f t :: ts). rewrite !filter_cons.
    repeat case_decide; simpl; lia.
  - change (alter f (S i) (t0 :: ts)) with (t0 :: alter f i ts). rewrite !filter_cons.
    specialize (IH i Hi). destruct (decide (t_Status t0 = s)); cbn [length]; lia.
Qed.

(** The task an operation works on may change in any way that keeps its index
    and its attempt bound and takes no slot. *)
Lemma base_set_task i x f e t :
  base (i :: x) e → tasks e !! i = Some t →
  t_Index (f t) = t_Index t → 0 ≤ t_Attempt (f t) ≤ s_MaxRetries (spec e) →
  (t_Status (f t) = Running → t_Status t ≠ Running → verdict e = Undecided →
     Z.of_nat (running_count e) < limit_of e) →
  base (i :: x) (set_task i f e).
Proof.
  intros [H1 H2 H3 H4 H5 H6 H7] Ht Hi Ha Hr. split; try done.
  - by rewrite length_set_task.
  - intros j u Hj. destruct (decide (i = j)) as [->|Hne].
    + rewrite tasks_set_task_eq, Ht in Hj. injection Hj as <-. split; [|done].
      rewrite Hi. by apply H2.
    + rewrite tasks_set_task_ne in Hj by done. by apply H2.
  - intros j u Hv Hx Hj. pose proof Hx as [Hne _]%not_elem_of_cons.
    rewrite tasks_set_task_ne in Hj by congruence. by apply (H3 j).
  - intros Hv. specialize (H7 Hv). unfold limit_of, running_count in *.
    rewrite length_set_task. simpl. change (spec (set_task i f e)) with (spec e).
    pose proof (has_status_alter Running (tasks e) i f t Ht) as Hc.
    destruct (decide (t_Status (f t) = Running)), (decide (t_Status t = Running)); try lia.
    specialize (Hr ltac:(done) ltac:(done) Hv). lia.
Qed.

Lemma base_set_attempt i x oa e : base (i :: x) e → base (i :: x) (set_attempt i oa e).
Proof.
  intros [H1 H2 H3 H4 H5 H6 H7]. split; try done.
  - unfold set_attempt. simpl. by rewrite length_insert.
  - intros j t Hv Hx Hj. pose proof Hx as [Hne _]%not_elem_of_cons.
    rewrite live_set_attempt_ne by congruence. by apply H3.
  - intros j a Hx Hj. pose proof Hx as [Hne _]%not_elem_of_cons.
    rewrite live_set_attempt_ne in Hj by congruence. by apply H4.
Qed.

Lemma base_spawn x g e :
  base x e → (∀ id, gid g = Some id → (id < next_id e)%nat ∧ id ∉ omap gid (goroutines e)) →
  base x (spawn g e).
Proof.
  intros [H1 H2 H3 H4 H5 H6 H7] Hg. split; try done.
  - intros i a Hx Hl. destruct (H4 i a Hx Hl) as (g' & Hin & Hs). exists g'. split; [|done].
    simpl. apply elem_of_app. by left.
  - simpl. rewrite omap_app. apply NoDup_app. split; [done|]. simpl.
    destruct (gid g) as [id|] eqn:E; simpl.
    + destruct (Hg id eq_refl) as [_ Hni]. split; [|apply NoDup_singleton].
      intros k Hk ->%list_elem_of_singleton. done.
    + split; [|constructor]. by intros k _ ?%not_elem_of_nil.
  - intros id. simpl. rewrite omap_app, elem_of_app. intros [Hin|Hin]; [by apply H6|].
    simpl in Hin. destruct (gid g) as [id'|] eqn:E; [|by apply not_elem_of_nil in Hin].
    apply list_elem_of_singleton in Hin as ->. by apply Hg.
Qed.

(** An operation is over when its task agrees with its attempt again. *)
Lemma base_close i x e :
  base (i :: x) e →
  (verdict e = Undecided → ∀ t, tasks e !! i = Some t → t_Status t = Running ↔ is_Some (live e i)) →
  (∀ a, live e i = Some a → ∃ g, g ∈ goroutines e ∧ serves g i a) →
  base x e.
Proof.
  intros [H1 H2 H3 H4 H5 H6 H7] Hl Hg. split; try done.
  - intros j t Hv Hx Hj. destruct (decide (i = j)) as [->|]; [by apply Hl|].
    apply H3; [done| |done]. apply not_elem_of_cons. split; [congruence|done].
  - intros j a Hx Hj. destruct (decide (i = j)) as [->|]; [by apply Hg|].
    apply H4; [|done]. apply not_elem_of_cons. split; [congruence|done].
Qed.

(** Taking a continuation out: either it was stale, or it reports the current
    attempt of its task, which nothing else reports. *)
Lemma base_take i id g gs1 gs2 e :
  base [] e → goroutines e = gs1 ++ g :: gs2 →
  (∃ t, g = GoStart i id t) ∨ (∃ w, g = GoWatch i id w) →
  let e' := with_goroutines e (gs1 ++ gs2) in
  base [i] e' ∧ (id < next_id e)%nat ∧ id ∉ omap gid (gs1 ++ gs2) ∧
  (current e' i id = None → base [] e') ∧
  (∀ a, current e' i id = Some a → serves g i a).
Proof.
  intros [H1 H2 H3 H4 H5 H6 H7] Hgs Hg e'.
  assert (gid g = Some id) as Hid by (destruct Hg as [[? ->]|[? ->]]; done).
  assert (∀ j a g', serves g' j a → gid g' = Some (at_id a)) as Hserv.
  { intros j a g'. unfold serves. destruct (at_workload a); [by intros ->|by intros [? ->]]. }
  rewrite Hgs in H5, H6. rewrite omap_app in H5, H6. simpl in H5, H6. rewrite Hid in H5, H6.
  apply NoDup_app in H5 as (N1 & N2 & [N3 N4]%NoDup_cons).
  assert (id ∉ omap gid (gs1 ++ gs2)) as Hni.
  { rewrite omap_app, elem_of_app. intros [Hin|Hin]; [|done].
    apply (N2 id Hin). by left. }
  assert (∀ j a, live e j = Some a →
            (j = i ∧ at_id a = id ∧ serves g i a) ∨ ∃ g', g' ∈ gs1 ++ gs2 ∧ serves g' j a) as Hkeep.
  { intros j a Hj. destruct (H4 j a) as (g' & Hin & Hs); [apply not_elem_of_nil|done|].
    rewrite Hgs, elem_of_app, elem_of_cons in Hin.
    destruct Hin as [Hin|[->|Hin]]; [right|left|right].
    - exists g'. split; [apply elem_of_app; by left|done].
    - assert (j = i ∧ at_id a = id) as [-> <-]; [|done]. unfold serves in Hs.
      destruct Hg as [[? ->]|[? ->]], (at_workload a); try done; try (by destruct Hs; simplify_eq);
        by simplify_eq.
    - exists g'. split; [apply elem_of_app; by right|done]. }
  assert (base [i] e') as Hb.
  { split; try done.
    - intros j t Hv _ Hj. apply H3; [done|apply not_elem_of_nil|done].
    - intros j a Hx Hj. destruct (Hkeep j a Hj) as [(-> & _)|?]; [|done].
      by apply not_elem_of_cons in Hx as [? _].
    - simpl. rewrite omap_app. apply NoDup_app. split; [done|]. split; [|done].
      intros k Hk1 Hk2. apply (N2 k Hk1). by right.
    - intros k. simpl. rewrite omap_app, elem_of_app. intros Hk. apply H6.
      rewrite elem_of_app, elem_of_cons. tauto. }
  split; [done|]. split; [apply H6; rewrite elem_of_app, elem_of_cons; auto|].
  split; [done|]. split.
  - unfold current. change (live e' i) with (live e i). intros Hc.
    eapply base_close; [exact Hb|intros Hv t Ht; apply H3; [done|apply not_elem_of_nil|done]|].
    intros a Ha. change (live e' i) with (live e i) in Ha. rewrite Ha in Hc. destruct (Hkeep i a Ha) as [(_ & Hq & _)|?]; [|done].
    rewrite Hq, Nat.eqb_refl in Hc. done.
  - intros a. unfold current. change (live e' i) with (live e i). destruct (live e i) as [a'|] eqn:Ha; [|done].
    destruct (Nat.eqb_spec (at_id a') id) as [Hq|]; [|done]. intros [= ->].
    destruct (Hkeep i a Ha) as [(_ & _ & ?)|(g' & Hin & Hs)]; [done|].
    destruct Hni. apply list_elem_of_omap. exists g'. split; [done|]. by rewrite (Hserv _ _ _ Hs), Hq.
Qed.

Definition all_done e : Prop :=
  verdict e ≠ Undecided → Forall (λ t, Terminal (t_Status t) = true) (tasks e).

Lemma all_done_core e e' : core e = core e' → all_done e → all_done e'.
Proof. unfold core, all_done. intros [= _ Et _ Ev _ _ _ _]. by rewrite Et, Ev. Qed.

(** What no operation below the verdict touches. *)
Definition frame e e' : Prop :=
  spec e' = spec e ∧ verdict e' = verdict e ∧ finished e' = finished e ∧
  length (tasks e') = length (tasks e) ∧ finishes e' = finishes e.

Lemma frame_trans e1 e2 e3 : frame e1 e2 → frame e2 e3 → frame e1 e3.
Proof. unfold frame. intros (?&?&?&?&?) (?&?&?&?&?). repeat split; congruence. Qed.

Lemma frame_core e e' : core e = core e' → frame e e'.
Proof. unfold core, frame. intros [=]. repeat split; congruence. Qed.

Lemma startAttempt_core i t e :
  tasks e !! i = Some t → t_Index t = i →
  core (startAttemptLocked i e) =
  (spec e, alter (set_Started None) i (tasks e),
   <[i := Some (MkAttempt (next_id e) None false false false)]> (attempts e),
   verdict e, finished e, S (next_id e),
   goroutines e ++ [GoStart i (next_id e) (set_Started None t)], finishes e).
Proof.
  intros Ht Hi. unfold startAttemptLocked. rewrite Ht, Hi. cbv zeta.
  set (e1 := newAttemptLocked i _). pose proof (changedLocked_core i e1) as Hc. unfold core in *.
  injection Hc as H1 H2 H3 H4 H5 H6 H7 H8. unfold spawn. simpl.
  rewrite H1, H2, H3, H4, H5, H6, H7. unfold finishes in *. simpl. by rewrite H8.
Qed.

Lemma startAttempt_tasks i t e :
  tasks e !! i = Some t → t_Index t = i →
  tasks (startAttemptLocked i e) = alter (set_Started None) i (tasks e) ∧ frame e (startAttemptLocked i e).
Proof.
  intros Ht Hi. pose proof (startAttempt_core i t e Ht Hi) as Hc. unfold core in Hc.
  injection Hc as H1 H2 H3 H4 H5 H6 H7 H8. split; [done|]. repeat split; try done.
  rewrite H2. apply length_alter.
Qed.

Lemma startAttempt_base i x t e :
  base (i :: x) e → verdict e = Undecided → tasks e !! i = Some t → t_Status t = Running →
  base x (startAttemptLocked i e).
Proof.
  intros Hb Hv Ht Hs. destruct (b_task _ _ Hb i t Ht) as [Hi Ha].
  assert (i < length (attempts e))%nat as Hlen.
  { rewrite (b_len _ _ Hb). by apply lookup_lt_Some in Ht. }
  set (a := MkAttempt (next_id e) None false false false : attempt (W:=W)).
  set (g := GoStart i (next_id e) (set_Started None t) : goroutine (W:=W)).
  assert (base (i :: x) (set_attempt i (Some a) (set_task i (set_Started None) e))) as Hb1.
  { apply base_set_attempt. apply (base_set_task i x _ e t); try done. }
  set (e2 := spawn g (with_next (set_attempt i (Some a) (set_task i (set_Started None) e))
                        (S (next_id e)))).
  assert (base (i :: x) e2) as Hb2.
  { apply base_spawn.
    - destruct Hb1 as [K1 K2 K3 K4 K5 K6 K7]. split; try done.
      intros id Hid. specialize (K6 id Hid). simpl in *. lia.
    - intros id [= <-]. simpl. split; [lia|]. intros Hin.
      pose proof (b_fresh _ _ Hb _ Hin). lia. }
  apply (base_core _ e2); [symmetry; exact (startAttempt_core i t e Ht Hi)|].
  apply (base_close i x); [exact Hb2| |].
  - intros _ u Hu. unfold live, spawn. simpl. rewrite list_lookup_insert_eq by done.
    simpl in Hu. rewrite list_lookup_alter_eq, Ht in Hu. injection Hu as <-. simpl.
    split; [eauto|done].
  - intros a'. unfold live, spawn. simpl. rewrite list_lookup_insert_eq by done. simpl.
    intros [= <-]. exists g. split; [apply elem_of_app; right; left|]. unfold serves, a, g. simpl. eauto.
Qed.

(** The attempt of task [i] dropped and its result recorded. *)
Lemma base_ended i x r e t :
  base (i :: x) e → tasks e !! i = Some t →
  let e1 := set_task i (set_Last (Some r)) (match live e i with Some _ => set_attempt i None e | None => e end) in
  base (i :: x) e1 ∧ live e1 i = None ∧ tasks e1 !! i = Some (set_Last (Some r) t) ∧ frame e e1.
Proof.
  intros Hb Ht e1. destruct (b_task _ _ Hb i t Ht) as [Hi Ha].
  destruct (live e i) as [a|] eqn:El; unfold e1; clear e1.
  - split; [|split; [|split]].
    + apply (base_set_task i x _ (set_attempt i None e) t); try done. by apply base_set_attempt.
    + change (live (set_attempt i None e) i = None). apply live_set_attempt_eq.
      by eapply live_bound.
    + rewrite tasks_set_task_eq. simpl. by rewrite Ht.
    + repeat split. by rewrite length_set_task.
  - split; [|split; [|split]].
    + by apply (base_set_task i x _ e t).
    + done.
    + by rewrite tasks_set_task_eq, Ht.
    + repeat split. by rewrite length_set_task.
Qed.

Lemma base_finish_task i x e t f :
  base (i :: x) e → tasks e !! i = Some t → live e i = None →
  t_Index (f t) = t_Index t → t_Attempt (f t) = t_Attempt t → t_Status (f t) ≠ Running →
  base x (changedLocked i (set_task i f e)).
Proof.
  intros Hb Ht Hl Hi Ha Hs. apply base_changed. destruct (b_task _ _ Hb i t Ht) as [Hi' Ha'].
  apply (base_close i x).
  - apply (base_set_task i x f e t); [done|done|done|by rewrite Ha|done].
  - intros _ u Hu. rewrite tasks_set_task_eq, Ht in Hu. injection Hu as <-.
    change (live (set_task i f e) i) with (live e i). rewrite Hl. split; [done|]. by intros [? ?].
  - intros a. change (live (set_task i f e) i) with (live e i). by rewrite Hl.
Qed.

Lemma retries_true now e t r oa :
  retries Retry now e t r oa = true → t_Attempt t < s_MaxRetries (spec e) ∧ verdict e = Undecided.
Proof. unfold retries. case_goal; [done|]. bools. done. Qed.

(** The four ways an attempt ends. *)
Lemma attemptEnded_base now i x r e t :
  base (i :: x) e → all_done e → tasks e !! i = Some t →
  base x (attemptEndedLocked Retry now i r e) ∧ all_done (attemptEndedLocked Retry now i r e) ∧
  frame e (attemptEndedLocked Retry now i r e).
Proof.
  intros Hb Hd Ht. unfold attemptEndedLocked.
  set (r' := match live e i with Some a => _ | None => r end).
  destruct (base_ended i x r' e t Hb Ht) as (Hb1 & Hl1 & Ht1 & Hf1).
  set (e1 := set_task i (set_Last (Some r')) _) in *. rewrite Ht1. simpl.
  assert (all_done e1) as Hd1.
  { intros Hv. destruct Hf1 as (_ & Ev & _). rewrite Ev in Hv. specialize (Hd Hv).
    rewrite Forall_lookup in Hd |- *. intros j u Hu. destruct (decide (i = j)) as [<-|Hne].
    - rewrite Ht1 in Hu. injection Hu as <-. by apply (Hd i t).
    - unfold e1 in Hu. rewrite tasks_set_task_ne in Hu by done.
      apply (Hd j). by destruct (live e i). }
  case_bool_decide as Hs; simpl; swap 1 2.
  { split; [|split].
    - apply base_changed, (base_close i x); [done| |].
      + intros _ u Hu. rewrite Ht1 in Hu. injection Hu as <-. rewrite Hl1. simpl.
        split; [done|]. by intros [? ?].
      + intros a. by rewrite Hl1.
    - by apply (all_done_core e1); [by rewrite changedLocked_core|].
    - eapply frame_trans; [exact Hf1|]. apply frame_core. by rewrite changedLocked_core. }
  assert (verdict e = Undecided) as Hv.
  { destruct (decide (verdict e = Undecided)) as [|Hv]; [done|]. specialize (Hd Hv).
    rewrite Forall_lookup in Hd. specialize (Hd i t Ht). by rewrite Hs in Hd. }
  assert (∀ e', frame e1 e' → all_done e') as Hund.
  { intros e' (_ & Ev & _) Hv'. destruct Hf1 as (_ & Ev1 & _). by rewrite Ev, Ev1 in Hv'. }
  assert (∀ f, frame e1 (changedLocked i (set_task i f e1))) as Hfc.
  { intros f. apply (frame_trans _ (set_task i f e1)).
    - repeat split. by rewrite length_set_task.
    - apply frame_core. by rewrite changedLocked_core. }
  repeat case_goal.
  - split; [by eapply base_finish_task|]. split; [by apply Hund|]. by eapply frame_trans.
  - apply retries_true in Heqb0 as [Hlt Hv1].
    pose proof (b_task _ _ Hb1 i _ Ht1) as [Hi1 Ha1]. simpl in Hlt, Ha1.
    set (e2 := set_task i (λ t, set_Attempt (t_Attempt t + 1) t) e1).
    assert (base (i :: x) e2) as Hb2.
    { apply (base_set_task i x _ e1 _ Hb1 Ht1); simpl; [done|lia|done]. }
    assert (tasks e2 !! i = Some (set_Attempt (t_Attempt t + 1) (set_Last (Some r') t))) as Ht2.
    { unfold e2. by rewrite tasks_set_task_eq, Ht1. }
    destruct (startAttempt_tasks i _ e2 Ht2 Hi1) as [_ Hf2].
    assert (frame e1 (startAttemptLocked i e2)) as Hf3.
    { apply (frame_trans _ e2); [|exact Hf2]. repeat split. unfold e2. by rewrite length_set_task. }
    split; [by eapply startAttempt_base|]. split; [by apply Hund|]. by eapply frame_trans.
  - split; [by eapply base_finish_task|]. split; [by apply Hund|]. by eapply frame_trans.
Qed.

(** *** Stopping what remains *)

Definition stopped_task (now : Time) (t : Task) : Task :=
  if Terminal (t_Status t) then t else set_Ended (Some now) (set_Status Cancelled t).

Lemma stop_one_tasks now e i : tasks (stop_one now e i) = alter (stopped_task now) i (tasks e).
Proof.
  unfold stop_one. destruct (tasks e !! i) as [t|] eqn:Et.
  - destruct (Terminal (t_Status t)) eqn:Ht.
    + symmetry. apply list_alter_same. intros u Hu. rewrite Et in Hu. injection Hu as <-.
      unfold stopped_task. by rewrite Ht.
    + assert (alter (stopped_task now) i (tasks e)
              = alter (λ t, set_Ended (Some now) (set_Status Cancelled t)) i (tasks e)) as ->.
      { apply list_alter_ext; [|done]. intros u Hu. rewrite Et in Hu. injection Hu as <-.
        unfold stopped_task. by rewrite Ht. }
      unfold changedLocked. repeat case_goal; done.
  - symmetry. apply list_alter_same. intros u Hu. congruence.
Qed.

Lemma stop_one_base now e i :
  base [] e → verdict e ≠ Undecided → base [] (stop_one now e i) ∧ frame e (stop_one now e i).
Proof.
  intros Hb Hv. unfold stop_one. destruct (tasks e !! i) as [t|] eqn:Et; [|done].
  destruct (Terminal (t_Status t)) eqn:Ht; [done|].
  set (e1 := set_task i _ e).
  assert (frame e e1) as Hf1 by (repeat split; apply length_set_task).
  assert (base [i] e1) as Hb1.
  { apply (base_set_task i [] _ e t); [by apply base_weaken|done|done| |done].
    simpl. by apply (b_task _ _ Hb i t). }
  change (live e1 i) with (live e i).
  assert (∀ e2, core e2 = core e1 → live e i = None →
            base [] (changedLocked i e2) ∧ frame e (changedLocked i e2)) as Hnone.
  { intros e2 Hc Hl. split.
    - apply base_changed, (base_core _ e1); [done|]. apply (base_close i []); [done|done|].
      intros a. change (live e1 i) with (live e i). by rewrite Hl.
    - eapply frame_trans; [exact Hf1|]. apply frame_core. by rewrite changedLocked_core. }
  destruct (live e i) as [a|] eqn:El; [|by apply Hnone].
  set (a' := MkAttempt _ _ true _ _). set (e2 := set_attempt i (Some a') e1).
  assert (base [] e2) as Hb2.
  { apply (base_close i []); [by apply base_set_attempt|done|]. intros b Hb'.
    unfold e2 in Hb'. rewrite live_set_attempt_eq in Hb' by (by eapply live_bound).
    injection Hb' as <-. destruct (b_go _ _ Hb i a) as (g & Hg & Hs); [apply not_elem_of_nil|done|]. by exists g. }
  assert (frame e e2) as Hf2 by (eapply frame_trans; [exact Hf1|repeat split]).
  destruct (at_workload a) as [w|]; split.
  - by apply base_changed, base_emit.
  - eapply frame_trans; [exact Hf2|]. apply frame_core. by rewrite changedLocked_core, stopWorkload_core.
  - by apply base_changed.
  - eapply frame_trans; [exact Hf2|]. apply frame_core. by rewrite changedLocked_core.
Qed.

Lemma stop_loop_base now e ixs :
  base [] e → verdict e ≠ Undecided →
  base [] (foldl (stop_one now) e ixs) ∧ frame e (foldl (stop_one now) e ixs).
Proof.
  revert e. induction ixs as [|i ixs IH]; intros e Hb Hv; simpl; [done|].
  destruct (stop_one_base now e i Hb Hv) as [Hb1 Hf1].
  destruct (IH (stop_one now e i) Hb1) as [Hb2 Hf2].
  { destruct Hf1 as (_ & -> & _). done. }
  split; [done|]. by eapply frame_trans.
Qed.

Lemma stop_loop_tasks now e ixs :
  tasks (foldl (stop_one now) e ixs) = foldl (λ ts i, alter (stopped_task now) i ts) (tasks e) ixs.
Proof.
  revert e. induction ixs as [|i ixs IH]; intros e; simpl; [done|]. by rewrite IH, stop_one_tasks.
Qed.

(** Once the verdict is decided, stopping leaves every task ended; those that
    had ended are as they were. *)
Lemma stopRemaining_base now e :
  base [] e → verdict e ≠ Undecided →
  base [] (stopRemainingLocked now e) ∧ all_done (stopRemainingLocked now e) ∧
  frame e (stopRemainingLocked now e) ∧
  tasks (stopRemainingLocked now e) = stopped_task now <$> tasks e.
Proof.
  intros Hb Hv. unfold stopRemainingLocked.
  destruct (stop_loop_base now e (seq 0 (length (tasks e))) Hb Hv) as [Hb' Hf'].
  pose proof (foldl_alter_seq (stopped_task now) [] (tasks e)) as Ht. simpl in Ht.
  split; [done|]. split; [|by rewrite stop_loop_tasks].
  intros _. rewrite stop_loop_tasks, Ht. apply Forall_fmap, Forall_forall. intros t _.
  unfold stopped_task. simpl. by destruct (Terminal (t_Status t)) eqn:E.
Qed.

(** *** Filling the slots *)

Lemma start_pending_base limit running e ixs :
  base [] e → verdict e = Undecided → limit = limit_of e →
  running = Z.of_nat (running_count e) →
  let e' := start_pending limit running e ixs in
  base [] e' ∧ frame e e' ∧ (running_count e ≤ running_count e')%nat ∧
  ((∃ i t, i ∈ ixs ∧ tasks e !! i = Some t ∧ t_Status t = Pending) → 0 < limit →
   (0 < running_count e')%nat).
Proof.
  revert running e. induction ixs as [|i ixs IH]; intros running e Hb Hv -> ->; simpl.
  { split; [done|]. split; [done|]. split; [lia|]. intros (i & t & Hi & _). by apply not_elem_of_nil in Hi. }
  destruct (Z.leb_spec (limit_of e) (Z.of_nat (running_count e))) as [Hle|Hlt].
  { split; [done|]. split; [done|]. split; [lia|]. intros. lia. }
  assert (∀ t, tasks e !! i = Some t → t_Status t ≠ Pending →
     (∃ j u, j ∈ i :: ixs ∧ tasks e !! j = Some u ∧ t_Status u = Pending) →
     (∃ j u, j ∈ ixs ∧ tasks e !! j = Some u ∧ t_Status u = Pending)) as Hskip.
  { intros t Ht Hs (j & u & [->|Hj]%elem_of_cons & Hu & Hus); [congruence|eauto]. }
  destruct (tasks e !! i) as [t|] eqn:Et.
  2:{ destruct (IH _ e Hb Hv eq_refl eq_refl) as (H1 & H2 & H3 & H4).
      split; [done|]. split; [done|]. split; [done|]. intros (j & u & Hj & Hu & Hus) Hl.
      apply elem_of_cons in Hj as [->|Hj]; [congruence|]. apply H4; eauto. }
  case_bool_decide as Hs.
  2:{ destruct (IH _ e Hb Hv eq_refl eq_refl) as (H1 & H2 & H3 & H4).
      split; [done|]. split; [done|]. split; [done|]. intros Hex Hl.
      apply H4; [|done]. eapply Hskip; done. }
  set (e1 := set_task i (set_Status Running) e).
  destruct (b_task _ _ Hb i t Et) as [Hi Ha].
  assert (tasks e1 !! i = Some (set_Status Running t)) as Et1.
  { unfold e1. by rewrite tasks_set_task_eq, Et. }
  assert (base [i] e1) as Hb1.
  { apply (base_set_task i [] _ e t); [by apply base_weaken|done..|]. intros. lia. }
  destruct (startAttempt_tasks i _ e1 Et1 Hi) as [Hts Hf].
  assert (frame e (startAttemptLocked i e1)) as Hf1.
  { eapply frame_trans; [|exact Hf]. repeat split. apply length_set_task. }
  assert (running_count (startAttemptLocked i e1) = S (running_count e)) as Hcount.
  { unfold running_count. rewrite Hts.
    pose proof (has_status_alter Running (tasks e1) i (set_Started None) _ Et1) as C1.
    pose proof (has_status_alter Running (tasks e) i (set_Status Running) _ Et) as C2.
    simpl in C1, C2. rewrite Hs in C2. simpl in C2. unfold e1 in C1 |- *. simpl in *. lia. }
  destruct (IH (Z.of_nat (running_count e) + 1) (startAttemptLocked i e1)) as (H1 & H2 & H3 & H4).
  - by eapply startAttempt_base.
  - by destruct Hf1 as (_ & -> & _).
  - unfold limit_of. destruct Hf1 as (-> & _ & _ & -> & _). done.
  - rewrite Hcount. lia.
  - split; [done|]. split; [by eapply frame_trans|]. split; [lia|]. intros. lia.
Qed.

(** A policy that decides once nothing waits or runs. *)
Class DecidesAtEnd (p : Policy) : Prop :=
  decides_at_end c : c_Pending c = 0%nat → c_Running c = 0%nat → p c ≠ Undecided.

#[local] Instance AllSucceed_decides : DecidesAtEnd AllSucceed.
Proof. intros c H1 H2. unfold AllSucceed. rewrite H1, H2. simpl. by case_goal. Qed.

#[local] Instance Completions_decides n : DecidesAtEnd (Completions n).
Proof.
  intros c H1 H2. unfold Completions. rewrite H1, H2, !Nat.add_0_r.
  repeat case_goal; try done. bools. lia.
Qed.

(** The invariant between handlers. *)
Record inv e : Prop := {
  i_base : base [] e;
  i_done : all_done e;
  i_finished : finished e = true ↔ verdict e ≠ Undecided ∧ ∀ i, live e i = None;
  i_running : verdict e = Undecided → (0 < running_count e)%nat;
  i_calls : finishes e = if finished e then 1%nat else 0%nat;
}.

Definition spec_ok (s : Spec) (n : nat) : Prop :=
  (0 < n)%nat ∧ 0 ≤ s_Parallelism s ∧ 0 ≤ s_MaxRetries s ∧ DecidesAtEnd (policy_of s).

(** What a handler owes before it checks whether the execution is over. *)
Record almost e : Prop := {
  a_base : base [] e;
  a_done : all_done e;
  a_finished : finished e = true → verdict e ≠ Undecided ∧ ∀ i, live e i = None;
  a_calls : finishes e = if finished e then 1%nat else 0%nat;
}.

Lemma finish_inv e :
  almost e → (verdict e = Undecided → (0 < running_count e)%nat) → inv (finishIfDoneLocked e).
Proof.
  intros [Hb Hd Hf Hc] Hr. unfold finishIfDoneLocked.
  destruct (finished e) eqn:Ef; simpl; [split; rewrite ?Ef; tauto|].
  case_bool_decide as Hv; [split; rewrite ?Ef; tauto|].
  destruct (forallb is_nil (attempts e)) eqn:Ea.
  - assert (∀ i, live e i = None) as Hl.
    { intros i. unfold live. destruct (attempts e !! i) as [[a|]|] eqn:E; try done.
      rewrite forallb_forall in Ea. specialize (Ea (Some a)). simpl in Ea.
      discriminate Ea. apply list_elem_of_In. by eapply list_elem_of_lookup_2. }
    split; [|done| |done|].
    + do 2 apply base_emit. by destruct Hb; split.
    + simpl. split; [|done]. intros _. split; [done|]. intros i. apply Hl.
    + rewrite !finishes_emit. simpl. unfold finishes in *. simpl. lia.
  - split; rewrite ?Ef; [done..| |done|done]. split; [done|]. intros [_ Hl]. exfalso.
    rewrite <- not_true_iff_false, forallb_forall in Ea. apply Ea. intros oa Hoa.
    apply list_elem_of_In, list_elem_of_lookup in Hoa as [i Hi]. specialize (Hl i).
    unfold live in Hl. rewrite Hi in Hl. simpl in Hl. by rewrite Hl.
Qed.

Lemma finish_shape e :
  let e' := finishIfDoneLocked e in
  tasks e' = tasks e ∧ spec e' = spec e ∧ verdict e' = verdict e ∧ goroutines e' = goroutines e.
Proof. unfold finishIfDoneLocked. repeat case_goal; done. Qed.

Lemma base_with_verdict e v : base [] e → v ≠ Undecided → base [] (with_verdict e v).
Proof. intros [H1 H2 H3 H4 H5 H6 H7] Hv. by split. Qed.

Lemma almost_stop now e v :
  base [] e → finished e = false → finishes e = 0%nat → v ≠ Undecided →
  almost (stopRemainingLocked now (with_verdict e v)).
Proof.
  intros Hb Hf Hc Hv.
  destruct (stopRemaining_base now (with_verdict e v)) as (H1 & H2 & (H3 & H4 & H5 & H6 & H7) & _);
    [by apply base_with_verdict|done|]. simpl in *.
  split; [done|done| |].
  - rewrite H5, Hf. done.
  - rewrite H7, H5, Hf. done.
Qed.

Lemma almost_undecided e : almost e → verdict e = Undecided → finished e = false ∧ finishes e = 0%nat.
Proof.
  intros [Hb Hd Hf Hc] Hv. destruct (finished e); [by destruct Hf|done].
Qed.

Lemma has_status_pos s ts : (0 < has_status s ts)%nat → ∃ i t, ts !! i = Some t ∧ t_Status t = s.
Proof.
  unfold has_status. intros H. destruct (filter _ ts) as [|t l] eqn:E; [simpl in H; lia|].
  assert (t ∈ filter (λ t, t_Status t = s) ts) as Hin by (rewrite E; left).
  apply list_elem_of_filter in Hin as [Hs Hin]. apply list_elem_of_lookup in Hin as [i Hi]. eauto.
Qed.

Lemma advance_inv now e :
  almost e → spec_ok (spec e) (length (tasks e)) → inv (advanceLocked now e).
Proof.
  intros Ha (Hn & Hp & _ & Hdec). unfold advanceLocked, decide_verdict.
  case_bool_decide as Hv.
  2:{ unfold fill_slots. rewrite bool_decide_eq_false_2 by done. apply finish_inv; [done|].
      intros ?. done. }
  destruct (almost_undecided e Ha Hv) as [Hf Hc].
  case_bool_decide as Hpol; swap 1 2.
  { set (v := policy_of (spec e) (countsLocked e)) in *.
    pose proof (almost_stop now e v (a_base _ Ha) Hf Hc Hpol) as Hs.
    destruct (stopRemaining_base now (with_verdict e v)) as (_ & _ & (_ & Hvs & _) & _);
      [apply base_with_verdict; [apply Ha|done]|done|]. simpl in Hvs.
    unfold fill_slots. rewrite bool_decide_eq_false_2 by (by rewrite Hvs).
    apply finish_inv; [done|]. rewrite Hvs. done. }
  unfold fill_slots. rewrite bool_decide_eq_true_2 by done. fold (running_count e).
  destruct (start_pending_base (limit_of e) (Z.of_nat (running_count e)) e (seq 0 (length (tasks e))))
    as (H1 & (H2 & H3 & H4 & H5 & H6) & H7 & H8); [apply Ha|done..|].
  apply finish_inv.
  - split; [done| |by rewrite H4, Hf|by rewrite H6, H4, Hf].
    intros Hv'. by rewrite H3 in Hv'.
  - intros _. destruct (Nat.eq_0_gt_0_cases (has_status Pending (tasks e))) as [Hz|Hz].
    + assert (0 < running_count e)%nat; [|lia]. apply Nat.neq_0_lt_0. intros Hr0.
      by apply (Hdec (countsLocked e)).
    + apply H8.
      * apply has_status_pos in Hz as (i & t & Hi & Hs). exists i, t. split; [|done].
        apply list_elem_of_In, in_seq. apply lookup_lt_Some in Hi. lia.
      * unfold limit_of. destruct (Z.eqb_spec (s_Parallelism (spec e)) 0); lia.
Qed.

Lemma almost_inv e : inv e → almost e.
Proof. intros [H1 H2 H3 H4 H5]. split; [done..| |done]. tauto. Qed.

Lemma almost_ended now i r e t :
  base [i] e → all_done e → finished e = false → finishes e = 0%nat → tasks e !! i = Some t →
  almost (attemptEndedLocked Retry now i r e) ∧ spec (attemptEndedLocked Retry now i r e) = spec e ∧
  length (tasks (attemptEndedLocked Retry now i r e)) = length (tasks e).
Proof.
  intros Hb Hd Hf Hc Ht.
  destruct (attemptEnded_base now i [] r e t Hb Hd Ht) as (H1 & H2 & (H3 & H4 & H5 & H6 & H7)).
  split; [|done]. split; [done|done|by rewrite H5, Hf|by rewrite H7, H5, Hf].
Qed.

(** *** Every step keeps the invariant *)

Lemma inv_core e e' : core e = core e' → inv e → inv e'.
Proof.
  intros Hc [Hb Hd Hf Hr Hn]. split.
  - by eapply base_core.
  - by eapply all_done_core.
  - unfold core in Hc. injection Hc as _ _ Ea Ev Ef _ _ _. unfold live in *. by rewrite <- Ef, <- Ev, <- Ea.
  - unfold core in Hc. injection Hc as _ Et _ Ev _ _ _ _. unfold running_count in *. by rewrite <- Ev, <- Et.
  - unfold core in Hc. injection Hc as _ _ _ _ Ef _ _ En. by rewrite <- En, <- Ef.
Qed.

Lemma inv_goroutines e gs : inv e → base [] (with_goroutines e gs) → inv (with_goroutines e gs).
Proof. intros [H1 H2 H3 H4 H5] Hb. by split. Qed.

Lemma inv_live e i a : inv e → live e i = Some a → finished e = false ∧ finishes e = 0%nat.
Proof.
  intros [_ _ Hf _ Hc] Hl. destruct (finished e); [|done].
  destruct (proj1 Hf eq_refl) as [_ Hn]. by rewrite Hn in Hl.
Qed.

Lemma live_task e i a : base [] e → live e i = Some a → ∃ t, tasks e !! i = Some t.
Proof.
  intros Hb Hl%live_bound. rewrite (b_len _ _ Hb) in Hl. by apply lookup_lt_is_Some_2.
Qed.

Lemma current_live e i id a : current e i id = Some a → live e i = Some a ∧ at_id a = id.
Proof.
  unfold current. destruct (live e i) as [a'|]; [|done].
  destruct (Nat.eqb_spec (at_id a') id); [|done]. by intros [= ->].
Qed.

(** An attempt that ended, from either continuation. *)
Lemma ended_inv now i r e0 e :
  inv e0 → spec_ok (spec e0) (length (tasks e0)) →
  base [i] e → (∃ gs, e = with_goroutines e0 gs) → (∃ a, live e i = Some a) →
  inv (advanceLocked now (attemptEndedLocked Retry now i r e)).
Proof.
  intros Hi Hs Hb [gs ->] [a Ha]. change (live e0 i = Some a) in Ha.
  destruct (inv_live e0 i a Hi Ha) as [Hf Hc].
  destruct (live_task e0 i a (i_base _ Hi) Ha) as [t Ht].
  destruct (almost_ended now i r (with_goroutines e0 gs) t) as (H1 & H2 & H3);
    [done|by apply Hi|done..|].
  apply advance_inv; [done|]. rewrite H2, H3. done.
Qed.

Lemma armTimers_frame now t id e x :
  base x e → let e' := armTimersLocked now t id e in
  base x e' ∧ frame e e' ∧ tasks e' = tasks e ∧ attempts e' = attempts e ∧ next_id e' = next_id e ∧
  omap gid (goroutines e') = omap gid (goroutines e).
Proof.
  intros Hb. unfold armTimersLocked.
  assert (∀ e i task d, base x e → base x (spawn (GoTimer i id task d) e)) as Hsp.
  { intros. by apply base_spawn. }
  repeat case_goal; (split; [auto|]); (split; [done|]); do 3 (split; [done|]);
    simpl; rewrite ?omap_app; simpl; by rewrite ?app_nil_r.
Qed.

(** Setting the attempt's workload is the end of a start. *)
Lemma started_inv now i id g gs1 gs2 w a e0 :
  inv e0 → goroutines e0 = gs1 ++ g :: gs2 → (∃ t, g = GoStart i id t) →
  current (with_goroutines e0 (gs1 ++ gs2)) i id = Some a →
  inv (attemptStarted Retry now i id (Some w) None (with_goroutines e0 (gs1 ++ gs2))).
Proof.
  intros Hi Hgs Hg Hcur. set (e := with_goroutines e0 (gs1 ++ gs2)) in *.
  destruct (base_take i id g gs1 gs2 e0 (i_base _ Hi) Hgs ltac:(by left)) as (Hb & Hid & Hni & _ & _).
  fold e in Hb. destruct (current_live e i id a Hcur) as [Hl Hida].
  destruct (live_task e0 i a (i_base _ Hi) Hl) as [t Ht].
  destruct (inv_live e0 i a Hi Hl) as [Hf Hc].
  pose proof (b_task _ _ Hb i t Ht) as [Hti Hta].
  unfold attemptStarted. rewrite Hcur. cbv zeta.
  set (a' := MkAttempt id (Some w) _ _ _). set (e1 := set_attempt i (Some a') e).
  set (f := λ t : Task, set_FirstStarted _ _). set (e2 := set_task i f e1).
  assert (t_Status (f t) = t_Status t ∧ t_Index (f t) = t_Index t ∧ t_Attempt (f t) = t_Attempt t)
    as (F1 & F2 & F3) by (unfold f; destruct (t_FirstStarted _); done).
  assert (tasks e2 !! i = Some (f t)) as Ht2.
  { unfold e2. rewrite tasks_set_task_eq. simpl. by rewrite Ht. }
  rewrite Ht2.
  assert (base [i] e2) as Hb2.
  { apply (base_set_task i [] f e1 t); [by apply base_set_attempt|done|done|by rewrite F3|].
    intros Hr Hnr. by rewrite F1 in Hr. }
  assert (running_count e2 = running_count e0) as Hrc.
  { unfold running_count. pose proof (has_status_alter Running (tasks e0) i f t Ht) as Hh.
    rewrite F1 in Hh. change (tasks e2) with (alter f i (tasks e0)). lia. }
  set (e3 := if at_stopped a || at_taskExpired a then _ else _).
  assert (base [i] e3 ∧ frame e2 e3 ∧ tasks e3 = tasks e2 ∧ attempts e3 = attempts e2 ∧
          next_id e3 = next_id e2 ∧ omap gid (goroutines e3) = omap gid (gs1 ++ gs2))
    as (Hb3 & Hf3 & Ht3 & Ha3 & Hn3 & Ho3).
  { unfold e3. destruct (at_stopped a || at_taskExpired a).
    - split; [by apply base_emit|]. split; [|done]. apply frame_core. by rewrite stopWorkload_core.
    - by apply armTimers_frame. }
  set (e4 := if bool_decide _ then changedLocked i e3 else e3).
  assert (core e4 = core e3) as Hc4.
  { unfold e4. case_goal; [apply changedLocked_core|done]. }
  assert (base [i] e4) as Hb4 by (by apply (base_core _ e3)).
  unfold core in Hc4. injection Hc4 as C1 C2 C3 C4 C5 C6 C7 C8.
  destruct Hf3 as (G1 & G2 & G3 & G4 & G5).
  assert (live e4 i = Some a') as Hl4.
  { unfold live. rewrite C3, Ha3. apply (live_set_attempt_eq e i (Some a')).
    by apply (live_bound e0 i a). }
  unfold watchAttempt. split.
  - apply (base_close i []).
    + apply base_spawn; [done|]. intros k [= <-]. rewrite C6, Hn3, C7, Ho3. done.
    + intros Hv u Hu. change (live (spawn _ e4) i) with (live e4 i). rewrite Hl4.
      simpl in Hu, Hv. rewrite C2, Ht3, Ht2 in Hu. injection Hu as <-. rewrite F1.
      rewrite C4, G2 in Hv. change (verdict e0 = Undecided) in Hv.
      pose proof (b_live _ _ (i_base _ Hi) i t Hv (not_elem_of_nil i) Ht) as Hiff.
      rewrite Hl in Hiff || (change (live e i) with (live e0 i) in Hl; rewrite Hl in Hiff).
      split; [eauto|]. intros _. apply Hiff. eauto.
    + intros b Hlb. change (live e4 i = Some b) in Hlb. rewrite Hl4 in Hlb. injection Hlb as <-.
      exists (GoWatch i id w). split; [apply elem_of_app; right; left|done].
  - intros Hv. simpl in Hv |- *. rewrite C4, G2 in Hv. rewrite C2, Ht3.
    pose proof (i_done _ Hi Hv) as Hd. rewrite Forall_lookup in Hd |- *. intros j u Hu.
    destruct (decide (i = j)) as [<-|Hne].
    + rewrite Ht2 in Hu. injection Hu as <-. rewrite F1. by apply (Hd i).
    + unfold e2 in Hu. rewrite tasks_set_task_ne in Hu by done. by apply (Hd j).
  - simpl. rewrite C5, G3. change (finished e2) with (finished e0). rewrite Hf. split; [done|].
    intros [_ Hnone]. specialize (Hnone i). change (live e4 i = None) in Hnone. by rewrite Hl4 in Hnone.
  - intros Hv. simpl in Hv. rewrite C4, G2 in Hv. unfold running_count. simpl. rewrite C2, Ht3.
    fold (running_count e2). rewrite Hrc. by apply Hi.
  - change (finishes (spawn (GoWatch i id w) e4)) with (finishes e4). simpl.
    rewrite C8, C5, G5, G3. change (finishes e2) with (finishes e0).
    change (finished e2) with (finished e0). by rewrite Hc, Hf.
Qed.

Lemma timer_inv i id task d gs1 gs2 e0 :
  inv e0 → goroutines e0 = gs1 ++ GoTimer i id task d :: gs2 →
  inv (timedOut i id task (with_goroutines e0 (gs1 ++ gs2))).
Proof.
  intros Hi Hgs. set (e := with_goroutines e0 (gs1 ++ gs2)).
  assert (base [] e) as Hb.
  { destruct (i_base _ Hi) as [H1 H2 H3 H4 H5 H6 H7].
    assert (omap gid (gs1 ++ gs2) = omap gid (goroutines e0)) as Ho.
    { by rewrite Hgs, !omap_app. }
    split; try done; unfold e; simpl; rewrite ?Ho; try done.
    intros j a _ Hj. destruct (H4 j a (not_elem_of_nil j) Hj) as (g & Hg & Hs). exists g. split; [|done].
    rewrite Hgs, elem_of_app, elem_of_cons in Hg. apply elem_of_app.
    destruct Hg as [?|[->|?]]; [by left| |by right].
    unfold serves in Hs. destruct (at_workload a); [done|by destruct Hs]. }
  assert (inv e) as Hie by (by apply inv_goroutines).
  unfold timedOut. destruct (current e i id) as [a|] eqn:Hcur; [|done].
  destruct (at_stopped a); [done|]. apply current_live in Hcur as [Hl Hida].
  set (a' := MkAttempt id (at_workload a) _ true _). set (e1 := set_attempt i (Some a') e).
  assert (live e1 i = Some a') as Hl1.
  { apply live_set_attempt_eq. by eapply live_bound. }
  assert (∀ j, is_Some (live e1 j) ↔ is_Some (live e j)) as Hsame.
  { intros j. destruct (decide (i = j)) as [<-|].
    - rewrite Hl1, Hl. split; eauto.
    - unfold e1. by rewrite live_set_attempt_ne. }
  assert (inv e1) as Hi1.
  { destruct Hie as [B1 B2 B3 B4 B5]. split; [|done| |done|done].
    - apply (base_close i []); [by apply base_set_attempt, base_weaken| |].
      + intros Hv t Ht. rewrite Hsame. apply (b_live _ _ B1 i t); [done|apply not_elem_of_nil|done].
      + intros b Hlb. rewrite Hl1 in Hlb. injection Hlb as <-.
        destruct (b_go _ _ B1 i a) as (g & Hg & Hs); [apply not_elem_of_nil|done|]. exists g. split; [done|].
        unfold serves in *. simpl. by rewrite Hida in Hs.
    - change (finished e1) with (finished e). rewrite B3. change (verdict e1) with (verdict e).
      split; intros [Hv Hn]; (split; [done|]); intros j; apply eq_None_not_Some.
      + rewrite Hsame, Hn. by intros [? ?].
      + rewrite <- Hsame, Hn. by intros [? ?]. }
  destruct (at_workload a); [|done]. apply (inv_core e1); [|done]. by rewrite stopWorkload_core.
Qed.

(** *** What a step never undoes, and what it uses up *)

(** A decided verdict, a finished execution and an ended task are final. *)
Definition settled e e' : Prop :=
  spec e' = spec e ∧ length (tasks e') = length (tasks e) ∧
  (verdict e ≠ Undecided → verdict e' = verdict e) ∧
  (finished e = true → finished e' = true) ∧
  (∀ i t, tasks e !! i = Some t → Terminal (t_Status t) = true →
     ∃ t', tasks e' !! i = Some t' ∧ t_Status t' = t_Status t ∧ t_Ended t' = t_Ended t).

(** The attempts a task may still start. *)
Definition rem (retries : Z) (t : Task) : nat :=
  match t_Status t with
  | Pending => Z.to_nat (retries + 1 - t_Attempt t)
  | Running => Z.to_nat (retries - t_Attempt t)
  | _ => 0
  end.

Definition slack e : nat := sum_list_with (rem (s_MaxRetries (spec e))) (tasks e).

(** A start may spawn a watch and two timers. *)
Definition weight g : nat := match g with GoStart _ _ _ => 4 | _ => 1 end.

Definition measure e : nat := sum_list_with weight (goroutines e) + 6 * slack e.

(** A step that undoes nothing and adds no work. *)
Definition calm e e' : Prop := settled e e' ∧ (measure e' ≤ measure e)%nat.

Lemma calm_refl e : calm e e.
Proof. split; [|lia]. repeat split; eauto. Qed.

Lemma settled_trans e1 e2 e3 : settled e1 e2 → settled e2 e3 → settled e1 e3.
Proof.
  intros (A1 & A2 & A3 & A4 & A5) (B1 & B2 & B3 & B4 & B5).
  split; [congruence|]. split; [congruence|]. split.
  { intros Hv. rewrite B3, A3; [done|done|]. by rewrite A3. }
  split; [auto|]. intros i t Ht Hs. destruct (A5 i t Ht Hs) as (t' & Ht' & E1 & E2).
  destruct (B5 i t' Ht') as (t'' & Ht'' & E3 & E4); [by rewrite E1|].
  exists t''. split; [done|]. split; congruence.
Qed.

Lemma calm_trans e1 e2 e3 : calm e1 e2 → calm e2 e3 → calm e1 e3.
Proof. intros [A1 A2] [B1 B2]. split; [by eapply settled_trans|lia]. Qed.

(** Steps that leave the tasks alone. *)
Lemma calm_same e e' :
  spec e' = spec e → tasks e' = tasks e → (verdict e ≠ Undecided → verdict e' = verdict e) →
  (finished e = true → finished e' = true) →
  (sum_list_with weight (goroutines e') ≤ sum_list_with weight (goroutines e))%nat → calm e e'.
Proof.
  intros Hs Ht Hv Hf Hg. split.
  - split; [done|]. split; [by rewrite Ht|]. split; [done|]. split; [done|].
    intros i t Hi _. exists t. by rewrite Ht.
  - unfold measure, slack. rewrite Hs, Ht. lia.
Qed.

Lemma calm_core e e' : core e = core e' → calm e e'.
Proof.
  unfold core. intros [= Es Et Ea Ev Ef En Eg Ec]. apply calm_same; rewrite ?Eg; congruence || lia || auto.
Qed.

Lemma rem_alter m ts i f t :
  ts !! i = Some t →
  (sum_list_with (rem m) (alter f i ts) + rem m t = sum_list_with (rem m) ts + rem m (f t))%nat.
Proof.
  revert i. induction ts as [|t0 ts IH]; intros [|i] Hi; [done..| |].
  - injection Hi as ->. simpl. lia.
  - change (alter f (S i) (t0 :: ts)) with (t0 :: alter f i ts). specialize (IH i Hi). simpl. lia.
Qed.

(** Changing one task: an ended one keeps its end, any other uses up its
    attempts. *)
Lemma calm_set_task i f e t :
  tasks e !! i = Some t →
  (Terminal (t_Status t) = true → t_Status (f t) = t_Status t ∧ t_Ended (f t) = t_Ended t) →
  (rem (s_MaxRetries (spec e)) (f t) ≤ rem (s_MaxRetries (spec e)) t)%nat →
  calm e (set_task i f e).
Proof.
  intros Ht Hf Hr. split.
  - split; [done|]. split; [apply length_set_task|]. split; [done|]. split; [done|].
    intros j u Hu Hs. destruct (decide (i = j)) as [<-|].
    + rewrite Ht in Hu. injection Hu as <-. rewrite tasks_set_task_eq, Ht. eauto.
    + rewrite tasks_set_task_ne by done. eauto.
  - unfold measure, slack. simpl.
    pose proof (rem_alter (s_MaxRetries (spec e)) (tasks e) i f t Ht). lia.
Qed.

Lemma measure_start i t e :
  tasks e !! i = Some t → t_Index t = i → measure (startAttemptLocked i e) = (measure e + 4)%nat.
Proof.
  intros Ht Hi. pose proof (startAttempt_core i t e Ht Hi) as Hc. unfold core in Hc.
  injection Hc as H1 H2 H3 H4 H5 H6 H7 H8. unfold measure, slack. rewrite H1, H2, H7.
  rewrite sum_list_with_app. simpl.
  pose proof (rem_alter (s_MaxRetries (spec e)) (tasks e) i (set_Started None) t Ht) as Hr.
  unfold rem in Hr at 2 4. simpl in Hr. lia.
Qed.

(** Using an attempt up pays for starting it. *)
Lemma calm_start i f e t :
  tasks e !! i = Some t → t_Index (f t) = i → Terminal (t_Status t) = false →
  (S (rem (s_MaxRetries (spec e)) (f t)) ≤ rem (s_MaxRetries (spec e)) t)%nat →
  calm e (startAttemptLocked i (set_task i f e)).
Proof.
  intros Ht Hi Hs Hr.
  destruct (calm_set_task i f e t Ht) as [Hset _]; [congruence|lia|].
  assert (tasks (set_task i f e) !! i = Some (f t)) as Ht' by (by rewrite tasks_set_task_eq, Ht).
  pose proof (measure_start i (f t) _ Ht' Hi) as Hm.
  destruct (startAttempt_tasks i (f t) _ Ht' Hi) as [Hts (G1 & G2 & G3 & G4 & G5)].
  split.
  - destruct Hset as (S1 & S2 & S3 & S4 & S5).
    split; [by rewrite G1|]. split; [by rewrite G4|]. split; [by rewrite G2|]. split; [by rewrite G3|].
    intros j u Hu Hus. destruct (decide (i = j)) as [<-|]; [congruence|].
    exists u. rewrite Hts. rewrite list_lookup_alter_ne by done.
    rewrite tasks_set_task_ne by done. done.
  - unfold measure, slack in *. rewrite Hm. simpl.
    pose proof (rem_alter (s_MaxRetries (spec e)) (tasks e) i f t Ht). lia.
Qed.

Lemma calm_changed i e : calm e (changedLocked i e).
Proof. apply calm_core. by rewrite changedLocked_core. Qed.

Lemma rem_done m t : Terminal (t_Status t) = true → rem m t = 0%nat.
Proof. unfold rem. by destruct (t_Status t). Qed.

Lemma attemptEnded_calm now i r e t :
  base [i] e → tasks e !! i = Some t → calm e (attemptEndedLocked Retry now i r e).
Proof.
  intros Hb Ht. unfold attemptEndedLocked.
  set (r' := match live e i with Some a => _ | None => r end).
  set (e0 := match live e i with Some _ => set_attempt i None e | None => e end).
  assert (calm e e0 ∧ tasks e0 = tasks e) as [Hc0 Ht0].
  { unfold e0. destruct (live e i); (split; [by apply calm_same|done]). }
  destruct (base_ended i [] r' e t Hb Ht) as (Hb1 & Hl1 & Ht1 & Hf1). fold e0 in Hb1, Hl1, Ht1, Hf1.
  rewrite <- Ht0 in Ht. set (e1 := set_task i (set_Last (Some r')) e0) in *. rewrite Ht1.
  assert (calm e e1) as Hc1.
  { eapply calm_trans; [exact Hc0|]. by apply (calm_set_task i _ e0 t). }
  pose proof (b_task _ _ Hb1 i _ Ht1) as [Hi1 Ha1].
  assert (∀ f, t_Status t = Running → Terminal (t_Status (f (set_Last (Some r') t))) = true →
            calm e (changedLocked i (set_task i f e1))) as Hend.
  { intros f Hr Hf. eapply calm_trans; [exact Hc1|]. eapply calm_trans; [|apply calm_changed].
    apply (calm_set_task i f e1 _ Ht1); [simpl; by rewrite Hr|]. rewrite (rem_done _ _ Hf). lia. }
  simpl. case_bool_decide as Hs; simpl; [|by eapply calm_trans; [exact Hc1|apply calm_changed]].
  repeat case_goal; [by apply Hend| |by apply Hend].
  apply retries_true in Heqb0 as [Hlt Hv1].
  eapply calm_trans; [exact Hc1|].
  apply (calm_start i (λ t, set_Attempt (t_Attempt t + 1) t) e1 _ Ht1); [exact Hi1|simpl; by rewrite Hs|].
  unfold rem. simpl in *. rewrite Hs. lia.
Qed.

Lemma stop_one_calm now e i : calm e (stop_one now e i).
Proof.
  pose proof (stop_one_tasks now e i) as Ht. split.
  - assert (spec (stop_one now e i) = spec e ∧ verdict (stop_one now e i) = verdict e ∧
            finished (stop_one now e i) = finished e ∧ goroutines (stop_one now e i) = goroutines e)
      as (H1 & H2 & H3 & H4) by (unfold stop_one, changedLocked; repeat case_goal; done).
    split; [done|]. split; [rewrite Ht; apply length_alter|]. split; [done|]. split; [congruence|].
    intros j u Hu Hs. rewrite Ht. destruct (decide (i = j)) as [<-|].
    + rewrite list_lookup_alter_eq, Hu. simpl. unfold stopped_task. rewrite Hs. eauto.
    + rewrite list_lookup_alter_ne by done. eauto.
  - assert (spec (stop_one now e i) = spec e ∧ goroutines (stop_one now e i) = goroutines e)
      as (H1 & H4) by (unfold stop_one, changedLocked; repeat case_goal; done).
    unfold measure, slack. rewrite H1, H4, Ht.
    destruct (tasks e !! i) as [t|] eqn:E.
    + pose proof (rem_alter (s_MaxRetries (spec e)) (tasks e) i (stopped_task now) t E) as Hr.
      assert (rem (s_MaxRetries (spec e)) (stopped_task now t) ≤ rem (s_MaxRetries (spec e)) t)%nat;
        [|lia]. unfold stopped_task. destruct (Terminal (t_Status t)); [lia|].
      rewrite rem_done by done. lia.
    + rewrite list_alter_same; [lia|]. congruence.
Qed.

Lemma advance_calm now e : base [] e → calm e (advanceLocked now e).
Proof.
  intros Hb. unfold advanceLocked.
  assert (∀ e, calm e (finishIfDoneLocked e)) as Hfin.
  { intros e'. destruct (finish_shape e') as (H1 & H2 & H3 & H4).
    apply calm_same; rewrite ?H4; try done. unfold finishIfDoneLocked. intros Hf. by rewrite Hf. }
  eapply calm_trans; [|apply Hfin].
  assert (∀ e ixs, calm e (foldl (stop_one now) e ixs)) as Hstop.
  { intros e' ixs. revert e'. induction ixs as [|i ixs IH]; intros e'; simpl; [apply calm_refl|].
    eapply calm_trans; [apply stop_one_calm|apply IH]. }
  assert (calm e (decide_verdict now e)) as Hdec.
  { unfold decide_verdict. case_bool_decide as Hv; [|apply calm_refl].
    case_bool_decide; [apply calm_refl|]. eapply calm_trans; [|apply Hstop]. by apply calm_same. }
  unfold fill_slots. case_bool_decide as Hv; [|done].
  assert (decide_verdict now e = e) as He.
  { unfold decide_verdict in *. case_bool_decide as Hv0; [|done].
    case_bool_decide as Hp; [done|]. exfalso.
    destruct (stopRemaining_base now (with_verdict e (policy_of (spec e) (countsLocked e))))
      as (_ & _ & (_ & Hvs & _) & _); [by apply base_with_verdict|done|].
    rewrite Hvs in Hv. done. }
  rewrite He in *. clear He Hdec.
  assert (∀ limit running, calm e (start_pending limit running e (seq 0 (length (tasks e))))) as Hfill;
    [|apply Hfill].
  generalize (seq 0 (length (tasks e))). intros ixs limit running.
  assert (∀ i t, tasks e !! i = Some t → t_Index t = i ∧ t_Attempt t ≤ s_MaxRetries (spec e)) as Hix.
  { intros i t Ht. destruct (b_task _ _ Hb i t Ht) as [? [? ?]]. done. }
  clear Hb Hv. revert running e Hix.
  induction ixs as [|i ixs IH]; intros running e Hix; simpl; [apply calm_refl|].
  case_goal; [apply calm_refl|]. destruct (tasks e !! i) as [t|] eqn:Et; [|by apply IH].
  case_bool_decide as Hs; [|by apply IH]. destruct (Hix i t Et) as [Hi Ha].
  assert (calm e (startAttemptLocked i (set_task i (set_Status Running) e))) as Hc.
  { apply (calm_start i (set_Status Running) e t Et); [exact Hi|by rewrite Hs|]. unfold rem. simpl. rewrite Hs. lia. }
  eapply calm_trans; [exact Hc|]. apply IH.
  assert (tasks (set_task i (set_Status Running) e) !! i = Some (set_Status Running t)) as Et'
    by (by rewrite tasks_set_task_eq, Et).
  destruct (startAttempt_tasks i _ _ Et' Hi) as [Hts (Hsp & _)].
  intros j u Hu. rewrite Hsp. rewrite Hts in Hu. simpl in *.
  destruct (decide (i = j)) as [<-|].
  - rewrite !list_lookup_alter_eq, Et in Hu. injection Hu as <-. done.
  - rewrite !list_lookup_alter_ne in Hu by done. by apply Hix.
Qed.

Lemma deliver_inv e e' :
  inv e → spec_ok (spec e) (length (tasks e)) → deliver Retry e e' → inv e'.
Proof.
  intros Hi Hs Hd. revert Hi Hs.
  destruct Hd as [now gs1 gs2 i id t w err e0 Hgs|now gs1 gs2 i id w exit e0 Hgs|gs1 gs2 i id task d e0 Hgs];
    intros Hi Hs.
  - destruct (base_take i id _ gs1 gs2 e0 (i_base _ Hi) Hgs ltac:(eauto)) as (Hb & _ & _ & Hstale & _).
    set (e1 := with_goroutines e0 (gs1 ++ gs2)) in *.
    destruct (current e1 i id) as [a|] eqn:Hcur.
    + destruct err as [err|], w as [w|];
        try (by eapply started_inv; [done|exact Hgs|eauto|exact Hcur]);
        unfold attemptStarted; rewrite Hcur; apply (ended_inv now i _ e0);
        try done; try (by eexists); exists a; by apply current_live in Hcur as [? _].
    + unfold attemptStarted. rewrite Hcur.
      assert (inv e1) as Hi1 by (apply inv_goroutines; auto).
      destruct w; [|done]. apply (inv_core e1); [by rewrite stopWorkload_core|done].
  - destruct (base_take i id _ gs1 gs2 e0 (i_base _ Hi) Hgs ltac:(eauto)) as (Hb & _ & _ & Hstale & _).
    set (e1 := with_goroutines e0 (gs1 ++ gs2)) in *. unfold attemptExited.
    destruct (current e1 i id) as [a|] eqn:Hcur.
    + apply (ended_inv now i _ e0); try done; [by eexists|].
      exists a. by apply current_live in Hcur as [? _].
    + apply inv_goroutines; auto.
  - by eapply timer_inv.
Qed.

Lemma spawn_settled g e : settled e (spawn g e) ∧ measure (spawn g e) = (measure e + weight g)%nat.
Proof.
  split; [repeat split; eauto|]. unfold measure, slack. simpl. rewrite sum_list_with_app. simpl. lia.
Qed.

Lemma take_settled g gs1 gs2 e :
  goroutines e = gs1 ++ g :: gs2 →
  settled e (with_goroutines e (gs1 ++ gs2)) ∧
  (measure (with_goroutines e (gs1 ++ gs2)) + weight g = measure e)%nat.
Proof.
  intros Hg. split; [repeat split; eauto|]. unfold measure, slack. simpl.
  rewrite Hg, !sum_list_with_app. simpl. lia.
Qed.

Lemma armTimers_settled now t id e :
  settled e (armTimersLocked now t id e) ∧ (measure (armTimersLocked now t id e) ≤ measure e + 2)%nat.
Proof.
  unfold armTimersLocked.
  destruct (0 <? s_AttemptTimeout (spec e)), (0 <? s_TaskTimeout _); cbv zeta.
  - destruct (spawn_settled (GoTimer (t_Index t) id false (delay now (s_AttemptTimeout (spec e)) (t_Started t))) e) as [H1 H2].
    set (e1 := spawn _ e) in *.
    destruct (spawn_settled (GoTimer (t_Index t) id true (delay now (s_TaskTimeout (spec e1)) (t_FirstStarted t))) e1) as [H3 H4].
    split; [by eapply settled_trans|]. rewrite H4, H2. simpl. lia.
  - edestruct spawn_settled as [H1 H2]. split; [exact H1|]. rewrite H2. simpl. lia.
  - edestruct spawn_settled as [H1 H2]. split; [exact H1|]. rewrite H2. simpl. lia.
  - split; [apply calm_refl|lia].
Qed.

(** A start that succeeds adds a watch and at most two timers. *)
Lemma started_settled now i id w a e :
  current e i id = Some a → is_Some (tasks e !! i) →
  settled e (attemptStarted Retry now i id (Some w) None e) ∧
  (measure (attemptStarted Retry now i id (Some w) None e) ≤ measure e + 3)%nat.
Proof.
  intros Hcur [t Ht]. unfold attemptStarted. rewrite Hcur. cbv zeta.
  set (e1 := set_attempt i _ e). set (f := λ t : Task, set_FirstStarted _ _).
  set (e2 := set_task i f e1).
  assert (tasks e2 !! i = Some (f t)) as Ht2.
  { unfold e2. rewrite tasks_set_task_eq. simpl. by rewrite Ht. }
  rewrite Ht2.
  assert (calm e e2) as Hc2.
  { apply (calm_trans _ e1); [by apply calm_same|].
    apply (calm_set_task i f e1 t Ht); unfold f; destruct (t_FirstStarted _); done. }
  set (e3 := if at_stopped a || at_taskExpired a then _ else _).
  assert (settled e2 e3 ∧ (measure e3 ≤ measure e2 + 2)%nat) as [Hs3 Hm3].
  { unfold e3. destruct (_ || _); [|apply armTimers_settled].
    destruct (calm_core e2 (stopWorkload w e2)) as [H1 H2]; [by rewrite stopWorkload_core|].
    split; [done|lia]. }
  set (e4 := if bool_decide _ then changedLocked i e3 else e3).
  assert (calm e3 e4) as [Hs4 Hm4].
  { unfold e4. case_goal; [apply calm_changed|apply calm_refl]. }
  destruct (spawn_settled (GoWatch i id w) e4) as [Hs5 Hm5]. destruct Hc2 as [Hs2 Hm2].
  unfold watchAttempt. split; [|rewrite Hm5; simpl; lia].
  eapply settled_trans; [exact Hs2|]. eapply settled_trans; [exact Hs3|].
  by eapply settled_trans.
Qed.

Lemma ended_calm now i r e a :
  base [i] e → all_done e → live e i = Some a →
  calm e (advanceLocked now (attemptEndedLocked Retry now i r e)).
Proof.
  intros Hb Hd Hl. assert (is_Some (tasks e !! i)) as [t Ht].
  { apply lookup_lt_is_Some_2. rewrite <- (b_len _ _ Hb). by eapply live_bound. }
  eapply calm_trans; [by eapply attemptEnded_calm|].
  destruct (attemptEnded_base now i [] r e t Hb Hd Ht) as (Hb' & _). by apply advance_calm.
Qed.

(** Every delivery undoes nothing and uses up work. *)
Lemma deliver_settled e e' :
  inv e → deliver Retry e e' → settled e e' ∧ (measure e' < measure e)%nat.
Proof.
  intros Hi Hd. revert Hi.
  destruct Hd as [now gs1 gs2 i id t w err e0 Hgs|now gs1 gs2 i id w exit e0 Hgs|gs1 gs2 i id task d e0 Hgs];
    intros Hi; destruct (take_settled _ _ _ _ Hgs) as [Hs1 Hm1]; simpl in Hm1;
    set (e1 := with_goroutines e0 (gs1 ++ gs2)) in *.
  - destruct (base_take i id _ gs1 gs2 e0 (i_base _ Hi) Hgs ltac:(eauto)) as (Hb & _). fold e1 in Hb.
    destruct (current e1 i id) as [a|] eqn:Hcur.
    + destruct (current_live _ _ _ _ Hcur) as [Hl _].
      assert (∀ r, settled e0 (advanceLocked now (attemptEndedLocked Retry now i r e1)) ∧
                   (measure (advanceLocked now (attemptEndedLocked Retry now i r e1)) < measure e0)%nat) as He.
      { intros r. destruct (ended_calm now i r e1 a Hb (i_done _ Hi) Hl) as [H1 H2].
        split; [exact (settled_trans _ _ _ Hs1 H1)|lia]. }
      destruct err as [err|], w as [w|]; try (unfold attemptStarted; rewrite Hcur; apply He).
      destruct (started_settled now i id w a e1 Hcur) as [H1 H2].
      { destruct (live_task e0 i a (i_base _ Hi) Hl) as [t' Ht']. by exists t'. }
      split; [exact (settled_trans _ _ _ Hs1 H1)|lia].
    + unfold attemptStarted. rewrite Hcur. destruct w as [w|]; [|split; [done|lia]].
      destruct (calm_core e1 (stopWorkload w e1)) as [H1 H2]; [by rewrite stopWorkload_core|].
      split; [exact (settled_trans _ _ _ Hs1 H1)|lia].
  - destruct (base_take i id _ gs1 gs2 e0 (i_base _ Hi) Hgs ltac:(eauto)) as (Hb & _). fold e1 in Hb.
    unfold attemptExited. destruct (current e1 i id) as [a|] eqn:Hcur; [|split; [done|lia]].
    destruct (current_live _ _ _ _ Hcur) as [Hl _].
    edestruct (ended_calm now i) as [H1 H2]; [exact Hb|exact (i_done _ Hi)|exact Hl|].
    split; [eapply settled_trans; [exact Hs1|exact H1]|]. eapply Nat.le_lt_trans; [exact H2|lia].
  - unfold timedOut. destruct (current e1 i id) as [a|]; [|split; [done|lia]].
    destruct (at_stopped a); [split; [done|lia]|].
    set (e2 := set_attempt i _ e1).
    assert (calm e1 e2) as [H1 H2] by (by apply calm_same).
    destruct (at_workload a) as [w|].
    + destruct (calm_core e2 (stopWorkload w e2)) as [H3 H4]; [by rewrite stopWorkload_core|].
      split; [|lia]. eapply settled_trans; [exact Hs1|]. by eapply settled_trans.
    + split; [exact (settled_trans _ _ _ Hs1 H1)|lia].
Qed.

Lemma cancel_step now e : inv e → inv (Cancel now e) ∧ calm e (Cancel now e).
Proof.
  intros Hi. unfold Cancel. case_bool_decide as Hv; [|split; [done|apply calm_refl]].
  destruct (almost_undecided e (almost_inv _ Hi) Hv) as [Hf Hc]. split.
  - apply finish_inv; [apply almost_stop; [apply Hi|done..]|].
    destruct (stopRemaining_base now (with_verdict e Cancellation)) as (_ & _ & (_ & Hvs & _) & _);
      [apply base_with_verdict; [apply Hi|done]|done|]. by rewrite Hvs.
  - destruct (finish_shape (stopRemainingLocked now (with_verdict e Cancellation))) as (H1 & H2 & H3 & H4).
    apply (calm_trans _ (stopRemainingLocked now (with_verdict e Cancellation))).
    + apply (calm_trans _ (with_verdict e Cancellation)); [by apply calm_same|].
      unfold stopRemainingLocked. generalize (seq 0 (length (tasks (with_verdict e Cancellation)))).
      generalize (with_verdict e Cancellation). intros e' ixs. revert e'.
      induction ixs as [|i ixs IH]; intros e'; simpl; [apply calm_refl|].
      eapply calm_trans; [apply stop_one_calm|apply IH].
    + apply calm_same; rewrite ?H4; try done. unfold finishIfDoneLocked. intros E. by rewrite E.
Qed.

(** The invariant and what it needs of the spec, over any run. *)
Lemma step_ok e e' :
  inv e → spec_ok (spec e) (length (tasks e)) → step Retry e e' →
  inv e' ∧ spec_ok (spec e') (length (tasks e')) ∧ settled e e'.
Proof.
  intros Hi Hs Hst.
  assert (inv e' ∧ settled e e') as [Hi' Hse].
  { destruct Hst as [e e' Hd|now e].
    - split; [by eapply deliver_inv|by eapply deliver_settled].
    - destruct (cancel_step now e Hi) as [? [? _]]. done. }
  split; [done|]. split; [|done]. destruct Hse as (-> & -> & _). done.
Qed.

Lemma steps_ok e e' :
  inv e → spec_ok (spec e) (length (tasks e)) → rtc (step Retry) e e' →
  inv e' ∧ spec_ok (spec e') (length (tasks e')) ∧ settled e e'.
Proof.
  intros Hi Hs Hr. revert Hi Hs. induction Hr as [e|e1 e2 e3 Hst Hr IH]; intros Hi Hs.
  - split; [done|]. split; [done|]. apply calm_refl.
  - destruct (step_ok _ _ Hi Hs Hst) as (Hi2 & Hs2 & Hse). destruct (IH Hi2 Hs2) as (H1 & H2 & H3).
    split; [done|]. split; [done|]. by eapply settled_trans.
Qed.

(** *** How an execution begins *)

Lemma newExecution_ok s e :
  newExecution (W:=W) s = Ok e →
  0 < s_Tasks s ∧ 0 ≤ s_Parallelism s ∧ 0 ≤ s_MaxRetries s ∧
  e = MkExecution s (replicate (Z.to_nat (s_Tasks s)) (task_zero 0))
        (replicate (Z.to_nat (s_Tasks s)) None) Undecided false 0 [] [].
Proof.
  unfold newExecution. intros H. case_hyp H; [done|]. case_hyp H; [done|]. injection H as <-. bools.
  repeat split; lia.
Qed.

(** An execution with no attempts yet, its running tasks excepted. *)
Lemma fresh_base s (ts : list Task) n x :
  length ts = n →
  (∀ i t, ts !! i = Some t → t_Index t = i ∧ 0 ≤ t_Attempt t ≤ s_MaxRetries s) →
  (∀ i t, ts !! i = Some t → i ∉ x → t_Status t ≠ Running) →
  Z.of_nat (has_status Running ts) ≤ (if s_Parallelism s =? 0 then Z.of_nat n else s_Parallelism s) →
  base x (MkExecution s ts (replicate n None) Undecided false 0 [] [] : Execution (W:=W)).
Proof.
  intros Hn Ht Hr Hl.
  assert (∀ i, live (MkExecution s ts (replicate n None) Undecided false 0 [] [] : Execution (W:=W)) i = None)
    as Hlive.
  { intros i. unfold live. simpl. destruct (replicate n None !! i) as [oa|] eqn:E; [|done].
    apply lookup_replicate in E as [-> _]. done. }
  split.
  - simpl. by rewrite length_replicate.
  - exact Ht.
  - intros i t _ Hx Hi. rewrite Hlive. split; [|by intros [? ?]]. intros Hs. by destruct (Hr i t Hi Hx).
  - intros i a _ Ha. by rewrite Hlive in Ha.
  - constructor.
  - intros id Hid. by apply not_elem_of_nil in Hid.
  - intros _. unfold running_count, limit_of. simpl. by rewrite Hn.
Qed.

(** An execution about to advance for the first time. *)
Definition begun (now : Time) (s : Spec) e : Prop :=
  ∃ e1, e = advanceLocked now e1 ∧ almost e1 ∧ spec_ok (spec e1) (length (tasks e1)) ∧
    verdict e1 = Undecided ∧ spec e1 = s ∧ length (tasks e1) = Z.to_nat (s_Tasks s).

Lemma start_begun now s e :
  DecidesAtEnd (policy_of s) → Start now s = Ok e → begun now s e.
Proof.
  intros Hdec. unfold Start. destruct (newExecution s) as [e0|] eqn:E; [|done]. simpl.
  intros [= <-]. apply newExecution_ok in E as (Hn & Hp & Hm & ->).
  set (n := Z.to_nat (s_Tasks s)) in *. unfold with_tasks. simpl. rewrite length_replicate.
  set (ts := task_zero <$> seq 0 n).
  assert (∀ i t, ts !! i = Some t → t = task_zero i) as Hts.
  { intros i t Hi. unfold ts in Hi. apply list_lookup_fmap_Some in Hi as (j & -> & Hj).
    apply lookup_seq in Hj as [-> _]. done. }
  assert (length ts = n) as Hlen by (unfold ts; by rewrite length_fmap, length_seq).
  set (e1 := MkExecution s ts (replicate n None) Undecided false 0 [] [] : Execution (W:=W)).
  assert (base [] e1) as Hb.
  { apply fresh_base; [done| | |].
    - intros i t ->%Hts. simpl. lia.
    - intros i t ->%Hts _. done.
    - assert (has_status Running ts = 0%nat) as ->; [|case_match; lia].
      apply Nat.le_0_r, Nat.nlt_ge. intros (i & t & Hi & Hs)%has_status_pos.
      apply Hts in Hi as ->. done. }
  assert (almost e1) as Ha by (split; [done|intros Hv; by destruct Hv|done|done]).
  assert (spec_ok (spec e1) (length (tasks e1))) as Hs.
  { split; [simpl; rewrite Hlen; unfold n; lia|]. done. }
  exists e1. do 5 (split; [done|]). exact Hlen.
Qed.

Lemma attemptEnded_other now i r e t j :
  tasks e !! i = Some t → t_Index t = i → j ≠ i →
  tasks (attemptEndedLocked Retry now i r e) !! j = tasks e !! j.
Proof.
  intros Ht Hi Hj. unfold attemptEndedLocked.
  set (r' := match live e i with Some a => _ | None => r end).
  set (e0 := match live e i with Some _ => set_attempt i None e | None => e end).
  assert (tasks e0 = tasks e) as H0 by (unfold e0; by destruct (live e i)).
  set (e1 := set_task i (set_Last (Some r')) e0).
  assert (tasks e1 !! i = Some (set_Last (Some r') t)) as Ht1.
  { unfold e1. by rewrite tasks_set_task_eq, H0, Ht. }
  assert (tasks e1 !! j = tasks e !! j) as Hj1.
  { unfold e1. rewrite tasks_set_task_ne by done. by rewrite H0. }
  assert (∀ k e', tasks (changedLocked k e') = tasks e') as Hch.
  { intros k e'. pose proof (changedLocked_core k e') as Hc. unfold core in Hc. by injection Hc. }
  rewrite Ht1. simpl. repeat case_goal; rewrite ?Hch; rewrite ?tasks_set_task_ne by done; try done.
  set (e2 := set_task i _ e1).
  assert (tasks e2 !! i = Some (set_Attempt (t_Attempt t + 1) (set_Last (Some r') t))) as Ht2.
  { unfold e2. by rewrite tasks_set_task_eq, Ht1. }
  destruct (startAttempt_tasks i _ e2 Ht2 Hi) as [-> _]. rewrite list_lookup_alter_ne by done.
  unfold e2. by rewrite tasks_set_task_ne.
Qed.

(** Taking one running task over, whether or not its workload survived. *)
Lemma resume_one_base now Adopt x e t :
  base (t_Index t :: x) e → verdict e = Undecided → tasks e !! t_Index t = Some t →
  t_Status t = Running →
  let e' := resume_one Retry now Adopt e t in
  base x e' ∧ frame e e' ∧ ∀ j, j ≠ t_Index t → tasks e' !! j = tasks e !! j.
Proof.
  intros Hb Hv Ht Hs. unfold resume_one. destruct (Adopt t) as [[w|] err]; cbv zeta.
  2:{ destruct (attemptEnded_base now (t_Index t) x
                  (MkResult (MkExit (-1) err (Some now)) (t_Started t) None false false true) e t Hb)
        as (H1 & _ & H3); [by intros ?|done|].
      split; [done|]. split; [done|]. intros j Hj. by apply (attemptEnded_other _ _ _ _ t); auto. }
  set (i := t_Index t) in *. set (id := next_id e).
  set (f := λ t : Task, set_FirstStarted _ _).
  set (a := MkAttempt id (Some w) false false false).
  set (e2 := set_task i f (set_attempt i (Some a) (newAttemptLocked i e))).
  assert (t_Status (f t) = t_Status t ∧ t_Index (f t) = i ∧ t_Attempt (f t) = t_Attempt t)
    as (F1 & F2 & F3) by (unfold f; destruct (t_FirstStarted _); done).
  assert (tasks e2 !! i = Some (f t)) as Ht2.
  { unfold e2. rewrite tasks_set_task_eq. simpl. by rewrite Ht. }
  rewrite Ht2.
  assert (i < length (attempts e))%nat as Hlen.
  { rewrite (b_len _ _ Hb). by apply lookup_lt_Some in Ht. }
  assert (base (i :: x) e2) as Hb2.
  { apply (base_set_task i x f _ t); [|done|done| |intros _ Hn; by destruct Hn].
    - apply base_set_attempt. unfold newAttemptLocked.
      destruct (base_set_attempt i x (Some (MkAttempt (next_id e) None false false false)) e Hb)
        as [K1 K2 K3 K4 K5 K6 K7].
      split; try done. intros k Hk. specialize (K6 k Hk). simpl in *. lia.
    - rewrite F3. by apply (b_task _ _ Hb i t). }
  assert (frame e e2) as Hf2 by (repeat split; apply (length_alter f)).
  destruct (armTimers_frame now (f t) id e2 (i :: x) Hb2) as (Hb3 & Hf3 & Ht3 & Ha3 & Hn3 & Ho3).
  set (e3 := armTimersLocked now (f t) id e2) in *.
  assert (live e3 i = Some a) as Hl3.
  { unfold live. rewrite Ha3. simpl. rewrite list_insert_insert_eq.
    by rewrite list_lookup_insert_eq. }
  unfold watchAttempt. split; [|split].
  - apply (base_close i x).
    + apply base_spawn; [done|]. intros k [= <-]. rewrite Hn3, Ho3. simpl.
      split; [unfold id; lia|]. intros Hin. pose proof (b_fresh _ _ Hb _ Hin). unfold id in *. lia.
    + intros _ u Hu. change (live (spawn _ e3) i) with (live e3 i). rewrite Hl3.
      simpl in Hu. rewrite Ht3, Ht2 in Hu. injection Hu as <-. rewrite F1. split; [eauto|done].
    + intros b Hlb. change (live e3 i = Some b) in Hlb. rewrite Hl3 in Hlb. injection Hlb as <-.
      exists (GoWatch i id w). split; [apply elem_of_app; right; left|done].
  - eapply frame_trans; [exact Hf2|]. eapply frame_trans; [exact Hf3|]. repeat split.
  - intros j Hj. simpl. rewrite Ht3. unfold e2. by rewrite tasks_set_task_ne by congruence.
Qed.

Lemma resume_loop_base now Adopt e found :
  base (t_Index <$> found) e → verdict e = Undecided → NoDup (t_Index <$> found) →
  (∀ t, t ∈ found → tasks e !! t_Index t = Some t ∧ t_Status t = Running) →
  base [] (foldl (resume_one Retry now Adopt) e found) ∧
  frame e (foldl (resume_one Retry now Adopt) e found).
Proof.
  revert e. induction found as [|t found IH]; intros e Hb Hv Hnd Hf; simpl; [done|].
  rewrite fmap_cons in *. apply NoDup_cons in Hnd as [Hni Hnd].
  destruct (Hf t) as [Ht Hs]; [left|].
  destruct (resume_one_base now Adopt _ e t Hb Hv Ht Hs) as (H1 & H2 & H3).
  destruct (IH (resume_one Retry now Adopt e t)) as [H4 H5].
  - done.
  - destruct H2 as (_ & -> & _). done.
  - done.
  - intros u Hu. destruct (Hf u) as [Hu' Hus]; [by right|]. split; [|done]. rewrite H3; [done|].
    intros Heq. apply Hni. rewrite <- Heq. by apply list_elem_of_fmap_2.
  - split; [done|]. by eapply frame_trans.
Qed.

(** The records of an execution an earlier process ran: one task per index,
    within the retries, no more running than there are slots. *)
Definition resumable (s : Spec) (recorded : list Task) : Prop :=
  t_Index <$> recorded ≡ₚ seq 0 (Z.to_nat (s_Tasks s)) ∧
  Forall (λ t, 0 ≤ t_Attempt t ≤ s_MaxRetries s) recorded ∧
  Z.of_nat (has_status Running recorded) ≤
    (if s_Parallelism s =? 0 then s_Tasks s else s_Parallelism s).

Lemma place_tasks_spec n slots ts out :
  place_tasks n slots ts = Ok out → NoDup (t_Index <$> ts) →
  length out = length slots ∧
  (∀ t, t ∈ ts → (t_Index t < length slots)%nat → out !! t_Index t = Some t) ∧
  (∀ i, i ∉ t_Index <$> ts → out !! i = slots !! i).
Proof.
  revert slots. induction ts as [|t ts IH]; intros slots H Hnd; simpl in H.
  { injection H as <-. split; [done|]. split; [|done]. by intros t ?%not_elem_of_nil. }
  case_hyp H; [done|]. rewrite fmap_cons in Hnd. apply NoDup_cons in Hnd as [Hni Hnd].
  destruct (IH _ H Hnd) as (Hl & Hin & Hout). rewrite length_insert in Hl, Hin.
  split; [done|]. split.
  - intros u [->|Hu]%elem_of_cons Hlt; [|by apply Hin].
    rewrite Hout by done. by rewrite list_lookup_insert_eq.
  - intros i Hi. rewrite fmap_cons, not_elem_of_cons in Hi. destruct Hi as [Hne Hi].
    rewrite Hout by done. by rewrite list_lookup_insert_ne.
Qed.

Lemma resume_begun now s Adopt recorded e :
  DecidesAtEnd (policy_of s) → resumable s recorded → Resume Retry now s Adopt recorded = Ok e →
  begun now s e.
Proof.
  intros Hdec (Hperm & Hatt & Hrun). unfold Resume.
  destruct (newExecution s) as [e0|] eqn:E; [|done]. simpl.
  apply newExecution_ok in E as (Hn & Hp & Hm & ->).
  case_goal; [done|]. simpl. set (n := Z.to_nat (s_Tasks s)) in *.
  destruct (place_tasks (s_Tasks s) (replicate n (task_zero 0)) recorded) as [ts|] eqn:Ep; [|done].
  simpl. unfold with_tasks. simpl. intros [= <-].
  assert (NoDup (t_Index <$> recorded)) as Hnd by (rewrite Hperm; apply NoDup_seq).
  destruct (place_tasks_spec _ _ _ _ Ep Hnd) as (Hl & Hin & _). rewrite length_replicate in Hl, Hin.
  assert (∀ i t, ts !! i = Some t ↔ t ∈ recorded ∧ t_Index t = i) as Hts.
  { intros i t. split.
    - intros Hi. assert (i ∈ t_Index <$> recorded) as Hi'.
      { rewrite Hperm. apply elem_of_seq. apply lookup_lt_Some in Hi. lia. }
      apply list_elem_of_fmap in Hi' as (u & -> & Hu). rewrite Hin in Hi; [by simplify_eq|done|].
      assert (t_Index u ∈ seq 0 n) as Hs by (rewrite <- Hperm; by apply list_elem_of_fmap_2).
      apply elem_of_seq in Hs. lia.
    - intros [Ht <-]. apply Hin; [done|].
      assert (t_Index t ∈ seq 0 n) as Hs by (rewrite <- Hperm; by apply list_elem_of_fmap_2).
      apply elem_of_seq in Hs. lia. }
  assert (NoDup ts) as Hnd'.
  { apply NoDup_alt. intros i j t Hi Hj. apply Hts in Hi as [_ <-]. by apply Hts in Hj as [_ <-]. }
  assert (ts ≡ₚ recorded) as Hpt.
  { apply NoDup_Permutation; [done|by eapply NoDup_fmap_1|]. intros t. rewrite list_elem_of_lookup.
    split; [by intros [i [? _]%Hts]|]. intros Ht. exists (t_Index t). by apply Hts. }
  set (found := filter (λ t, t_Status t = Running) ts).
  set (e0 := MkExecution s ts (replicate n None) Undecided false 0 [] [] : Execution (W:=W)).
  rewrite Forall_forall in Hatt.
  destruct (resume_loop_base now Adopt e0 found) as [Hb Hf].
  - apply fresh_base; [done| | |].
    + intros i t [Ht <-]%Hts. split; [done|]. by apply Hatt.
    + intros i t Hi Hni Hs. apply Hni. destruct (proj1 (Hts _ _) Hi) as [_ <-].
      apply list_elem_of_fmap_2, list_elem_of_filter. split; [done|]. by eapply list_elem_of_lookup_2.
    + unfold has_status in *. rewrite Hpt. case_match; [|done]. unfold n. lia.
  - done.
  - unfold found. eapply sublist_NoDup; [|apply sublist_fmap, sublist_filter]. by rewrite Hpt.
  - intros t Ht. apply list_elem_of_filter in Ht as [Hs Ht]. split; [|done].
    apply Hts. split; [by rewrite <- Hpt|done].
  - set (e1 := foldl _ e0 found) in *. destruct Hf as (F1 & F2 & F3 & F4 & F5).
    assert (almost e1) as Ha.
    { split; [done| |by rewrite F3|by rewrite F5, F3]. intros Hv. by rewrite F2 in Hv. }
    assert (spec_ok (spec e1) (length (tasks e1))) as Hs.
    { rewrite F1, F4. simpl. split; [rewrite Hl; unfold n; lia|done]. }
    exists e1. do 4 (split; [done|]). split; [done|]. rewrite F4. exact Hl.
Qed.

Lemma begun_inv now s e :
  begun now s e →
  inv e ∧ spec_ok (spec e) (length (tasks e)) ∧ spec e = s ∧ length (tasks e) = Z.to_nat (s_Tasks s).
Proof.
  intros (e1 & -> & Ha & Hs & _ & E3 & E4).
  destruct (advance_calm now e1 (a_base _ Ha)) as [(E1 & E2 & _) _].
  split; [by apply advance_inv|]. rewrite E1, E2. done.
Qed.

(** *** The verdict is the policy's *)

(** The policy's answer to counts with as many tasks and as many successes as
    the execution has. *)
Definition judged e : Prop :=
  verdict e = Undecided ∨ verdict e = Cancellation ∨
  ∃ c, policy_of (spec e) c = verdict e ∧ c_Tasks c = length (tasks e) ∧
    c_Succeeded c = has_status Succeeded (tasks e).

Lemma has_status_pointwise s (ts ts' : list Task) :
  Forall2 (λ t t', t_Status t' = t_Status t) ts ts' → has_status s ts' = has_status s ts.
Proof.
  unfold has_status. induction 1 as [|t t' ts ts' Ht Hts IH]; [done|]. rewrite !filter_cons, Ht.
  destruct (decide (t_Status t = s)); simpl; by rewrite IH.
Qed.

Lemma judged_settled e e' :
  settled e e' → all_done e → verdict e ≠ Undecided → judged e → judged e'.
Proof.
  intros (H1 & H2 & H3 & _ & H5) Hd Hv Hj. specialize (H3 Hv). unfold judged. rewrite H3, H1, H2.
  destruct Hj as [?|[?|(c & Hc1 & Hc2 & Hc3)]]; [by left|by right; left|right; right].
  exists c. split; [done|]. split; [done|]. rewrite Hc3. symmetry. apply has_status_pointwise.
  specialize (Hd Hv). rewrite Forall_lookup in Hd. apply Forall2_same_length_lookup. split; [done|].
  intros i t t' Ht Ht'. destruct (H5 i t Ht) as (u & Hu & Hs & _); [by apply (Hd i)|]. by simplify_eq.
Qed.

Lemma judged_advance now e : base [] e → verdict e = Undecided → judged (advanceLocked now e).
Proof.
  intros Hb Hv. unfold advanceLocked.
  destruct (finish_shape (fill_slots (decide_verdict now e))) as (F1 & F2 & F3 & _).
  unfold judged. rewrite F1, F2, F3. clear F1 F2 F3.
  unfold decide_verdict. rewrite bool_decide_eq_true_2 by done. case_bool_decide as Hp.
  - left. unfold fill_slots. rewrite bool_decide_eq_true_2 by done. fold (running_count e).
    destruct (start_pending_base (limit_of e) (Z.of_nat (running_count e)) e (seq 0 (length (tasks e))))
      as (_ & (_ & -> & _) & _); done.
  - set (v := policy_of (spec e) (countsLocked e)) in *.
    destruct (stopRemaining_base now (with_verdict e v)) as (_ & _ & (S1 & S2 & _ & S4 & _) & S5);
      [by apply base_with_verdict|done|]. simpl in *.
    unfold fill_slots. rewrite bool_decide_eq_false_2 by (by rewrite S2).
    right. right. exists (countsLocked e). rewrite S1, S2, S4, S5. split; [done|]. split; [done|].
    simpl. symmetry. unfold has_status. clear. induction (tasks e) as [|t ts IH]; [done|].
    assert (t_Status (stopped_task now t) = Succeeded ↔ t_Status t = Succeeded) as Hiff.
    { unfold stopped_task. destruct (Terminal (t_Status t)) eqn:E; [done|]. simpl.
      split; [done|]. intros Hs. by rewrite Hs in E. }
    rewrite fmap_cons, !filter_cons. repeat case_decide; try tauto; simpl; auto.
Qed.

Lemma judged_deliver e e' : inv e → deliver Retry e e' → judged e → judged e'.
Proof.
  intros Hi Hd Hj. destruct (decide (verdict e = Undecided)) as [Hv|Hv].
  2:{ destruct (deliver_settled e e' Hi Hd) as [Hs _]. eapply judged_settled; eauto. apply Hi. }
  revert Hi Hv. clear Hj.
  destruct Hd as [now gs1 gs2 i id t w err e0 Hgs|now gs1 gs2 i id w exit e0 Hgs|gs1 gs2 i id task d e0 Hgs];
    intros Hi Hv; set (e1 := with_goroutines e0 (gs1 ++ gs2)) in *.
  1,2: destruct (base_take i id _ gs1 gs2 e0 (i_base _ Hi) Hgs ltac:(eauto)) as (Hb & _); fold e1 in Hb;
    assert (∀ r a, current e1 i id = Some a →
              judged (advanceLocked now (attemptEndedLocked Retry now i r e1))) as He
      by (intros r a [Hl _]%current_live; destruct (live_task e0 i a (i_base _ Hi) Hl) as [u Hu];
          destruct (attemptEnded_base now i [] r e1 u Hb (i_done _ Hi) Hu) as (Hb' & _ & (_ & Hv' & _));
          apply judged_advance; [done|by rewrite Hv']).
  - unfold attemptStarted. destruct (current e1 i id) as [a|] eqn:Hcur.
    + destruct err as [err|], w as [w|]; try (by eapply He). left. cbv zeta.
      set (e2 := set_task i _ _). destruct (tasks e2 !! i) as [u|]; [|exact Hv].
      unfold watchAttempt. cbn [spawn with_goroutines verdict].
      assert (∀ k e', verdict (changedLocked (W:=W) k e') = verdict e') as Hch
        by (intros; unfold changedLocked; by case_match).
      destruct (bool_decide _); rewrite ?Hch; destruct (_ || _); try exact Hv;
        unfold armTimersLocked; destruct (0 <? _), (0 <? _); exact Hv.
    + left. by destruct w.
  - unfold attemptExited. destruct (current e1 i id) as [a|] eqn:Hcur; [by eapply He|by left].
  - left. unfold timedOut. repeat case_goal; exact Hv.
Qed.

Lemma judged_step e e' : inv e → step Retry e e' → judged e → judged e'.
Proof.
  intros Hi Hs. revert Hi. destruct Hs as [e e' Hd|now e]; intros Hi Hj; [by eapply judged_deliver|].
  destruct (decide (verdict e = Undecided)) as [Hv|Hv].
  - right. left. unfold Cancel. rewrite bool_decide_eq_true_2 by done.
    destruct (finish_shape (stopRemainingLocked now (with_verdict e Cancellation))) as (_ & _ & -> & _).
    destruct (stopRemaining_base now (with_verdict e Cancellation)) as (_ & _ & (_ & -> & _) & _); [|done..].
    apply base_with_verdict; [apply Hi|done].
  - unfold Cancel. by rewrite bool_decide_eq_false_2.
Qed.
End Invariant.

(** ** Properties *)

(** An execution begins with [Start] or with [Resume] over consistent
    records, and takes steps from there. *)
Inductive begins {W} (Retry : option (Task → Result → bool)) (s : Spec) : Execution (W:=W) → Prop :=
| begins_start now e : Start now s = Ok e → begins Retry s e
| begins_resume now Adopt recorded e :
    resumable s recorded → Resume Retry now s Adopt recorded = Ok e → begins Retry s e.

Definition reachable {W} Retry (s : Spec) (e : Execution (W:=W)) : Prop :=
  ∃ e0, begins Retry s e0 ∧ rtc (step Retry) e0 e.

Lemma begins_begun {W} Retry s (e : Execution (W:=W)) :
  DecidesAtEnd (policy_of s) → begins Retry s e → ∃ now, begun now s e.
Proof.
  intros Hd [now e' He|now Adopt recorded e' Hr He]; exists now; [by apply start_begun|by eapply resume_begun].
Qed.

Lemma reachable_inv {W} Retry s (e : Execution (W:=W)) :
  DecidesAtEnd (policy_of s) → reachable Retry s e →
  inv e ∧ spec_ok (spec e) (length (tasks e)) ∧ spec e = s ∧ judged e.
Proof.
  intros Hd (e0 & Hb & Hr). destruct (begins_begun Retry s e0 Hd Hb) as [now Hbg].
  destruct (begun_inv _ _ _ Hbg) as (Hi & Hs & E1 & E2).
  destruct (steps_ok Retry e0 e Hi Hs Hr) as (Hi' & Hs' & (E3 & E4 & _)).
  split; [done|]. split; [done|]. split; [congruence|].
  assert (judged e0) as Hj.
  { destruct Hbg as (e1 & -> & Ha & _ & Hv & _). apply judged_advance; [apply Ha|done]. }
  clear - Hr Hj Hi Hs. induction Hr as [|e1 e2 e3 Hst Hr IH]; [done|].
  destruct (step_ok Retry e1 e2 Hi Hs Hst) as (Hi2 & Hs2 & _).
  apply IH; [done|done|]. exact (judged_step Retry e1 e2 Hi Hst Hj).
Qed.

(** [C10] In every state an execution reaches, by any order of starts, exits,
    timeouts and cancels, from a start or from a resume: while the verdict is
    open no more tasks run than the parallelism allows and the running tasks
    are exactly those with an attempt; once it is decided every task has
    ended; no task is retried more than MaxRetries times; and the execution
    has finished, and has called Finished once, exactly when the verdict is
    decided and no attempt is left. *)
Theorem jobrun_invariant {W} Retry (s : Spec) (e : Execution (W:=W)) :
  DecidesAtEnd (policy_of s) → reachable Retry s e →
  (verdict e = Undecided →
     Z.of_nat (running_count e) ≤ limit_of e ∧
     ∀ i t, tasks e !! i = Some t → t_Status t = Running ↔ is_Some (live e i)) ∧
  (verdict e ≠ Undecided → Forall (λ t, Terminal (t_Status t) = true) (tasks e)) ∧
  Forall (λ t, 0 ≤ t_Attempt t ≤ s_MaxRetries s) (tasks e) ∧
  (finished e = true ↔ verdict e ≠ Undecided ∧ ∀ i, live e i = None) ∧
  finishes e = (if finished e then 1%nat else 0%nat).
Proof.
  intros Hd Hr. destruct (reachable_inv Retry s e Hd Hr) as ([Hb Hdn Hf _ Hc] & _ & <- & _).
  split; [|split; [done|split; [|done]]].
  - intros Hv. split; [by apply (b_run _ _ Hb)|]. intros i t. apply (b_live _ _ Hb i t Hv), not_elem_of_nil.
  - apply Forall_lookup. intros i t Ht. by apply (b_task _ _ Hb i t).
Qed.

(** A decided verdict never changes, a finished execution stays finished
    and a task that has ended keeps its status and its end time, whatever
    steps follow. *)
Theorem jobrun_ends_are_final {W} Retry (s : Spec) (e e' : Execution (W:=W)) :
  DecidesAtEnd (policy_of s) → reachable Retry s e → rtc (step Retry) e e' →
  (verdict e ≠ Undecided → verdict e' = verdict e) ∧
  (finished e = true → finished e' = true) ∧
  ∀ i t, tasks e !! i = Some t → Terminal (t_Status t) = true →
    ∃ t', tasks e' !! i = Some t' ∧ t_Status t' = t_Status t ∧ t_Ended t' = t_Ended t.
Proof.
  intros Hd Hr Hs. destruct (reachable_inv Retry s e Hd Hr) as (Hi & Hok & _).
  by destruct (steps_ok Retry e e' Hi Hok Hs) as (_ & _ & (_ & _ & ? & ? & ?)).
Qed.

(** An execution that has not finished waits for some continuation. *)
Lemma unfinished_waits {W} (e : Execution (W:=W)) :
  inv e → finished e = false → ∃ i a, live e i = Some a.
Proof.
  intros Hi Hf. destruct (decide (verdict e = Undecided)) as [Hv|Hv].
  - destruct (has_status_pos Running (tasks e)) as (i & t & Ht & Hs); [by apply Hi|].
    apply (b_live _ _ (i_base _ Hi) i t Hv (not_elem_of_nil i) Ht) in Hs as [a Ha]. eauto.
  - destruct (decide (Forall (λ oa, is_nil oa = true) (attempts e))) as [Ha|Ha].
    + rewrite (proj2 (i_finished _ Hi)) in Hf; [done|]. split; [done|]. intros i. unfold live.
      destruct (attempts e !! i) as [[a|]|] eqn:E; try done. rewrite Forall_lookup in Ha.
      by specialize (Ha _ _ E).
    + apply not_Forall_Exists in Ha; [|apply _]. apply Exists_exists in Ha as (oa & Hin & Hoa).
      apply list_elem_of_lookup in Hin as [i Hi']. destruct oa as [a|]; [|by destruct Hoa].
      exists i, a. unfold live. by rewrite Hi'.
Qed.

(** [C11] An execution runs to its end: from any state it reaches at most
    [measure] continuations can be delivered, and one that has none left to
    deliver has finished, for any policy that decides once no task waits or
    runs. *)
Theorem jobrun_terminates {W} Retry (s : Spec) (e : Execution (W:=W)) :
  DecidesAtEnd (policy_of s) → reachable Retry s e →
  (∀ n e', nsteps (deliver Retry) n e e' → (n ≤ measure e)%nat) ∧
  ((¬ ∃ e', deliver Retry e e') → finished e = true).
Proof.
  intros Hd Hr. destruct (reachable_inv Retry s e Hd Hr) as (Hi & Hok & _). split.
  - intros n e' Hn. clear Hr Hd. revert Hi Hok. induction Hn as [|n e1 e2 e3 H1 H2 IH]; intros Hi Hok; [lia|].
    destruct (deliver_settled Retry e1 e2 Hi H1) as [_ Hm].
    destruct (step_ok Retry e1 e2 Hi Hok (step_deliver _ _ _ H1)) as (Hi2 & Hok2 & _).
    specialize (IH Hi2 Hok2). lia.
  - intros Hno. destruct (finished e) eqn:Hf; [done|]. exfalso. apply Hno.
    destruct (unfinished_waits e Hi Hf) as (i & a & Ha).
    destruct (b_go _ _ (i_base _ Hi) i a (not_elem_of_nil i) Ha) as (g & Hg & Hs).
    apply list_elem_of_split in Hg as (gs1 & gs2 & Hgs). unfold serves in Hs.
    destruct (at_workload a) as [w|].
    + subst g. eexists. exact (deliver_exited Retry 0 gs1 gs2 i (at_id a) w (MkExit 0 None None) e Hgs).
    + destruct Hs as [t ->]. eexists. exact (deliver_started Retry 0 gs1 gs2 i (at_id a) t None None e Hgs).
Qed.

Lemma has_status_all st (ts : list Task) :
  has_status st ts = length ts ↔ Forall (λ t, t_Status t = st) ts.
Proof.
  unfold has_status. induction ts as [|t ts IH]; [done|]. rewrite filter_cons, Forall_cons.
  pose proof (length_filter (λ t, t_Status t = st) ts). destruct (decide (t_Status t = st)); simpl.
  - rewrite <- IH. split; [intros; split; [done|lia]|intros [_ ?]; lia].
  - split; [lia|]. by intros [? _].
Qed.

(** The verdict means what the policy says: under AllSucceed a success
    has every task succeeded and a failure has one that did not; under
    Completions a success has at least n tasks succeeded and a failure has
    fewer. *)
Theorem jobrun_verdict_sound {W} Retry (s : Spec) (e : Execution (W:=W)) (n : Z) :
  reachable Retry s e →
  (policy_of s = AllSucceed →
     (verdict e = Success → Forall (λ t, t_Status t = Succeeded) (tasks e)) ∧
     (verdict e = Failure → ∃ t, t ∈ tasks e ∧ t_Status t ≠ Succeeded)) ∧
  (policy_of s = Completions n →
     (verdict e = Success → n ≤ Z.of_nat (has_status Succeeded (tasks e))) ∧
     (verdict e = Failure → Z.of_nat (has_status Succeeded (tasks e)) < n)).
Proof.
  intros Hr.
  assert (∀ p, policy_of s = p → DecidesAtEnd p → ∀ v, verdict e = v → v = Success ∨ v = Failure →
            ∃ c, p c = v ∧ c_Tasks c = length (tasks e) ∧
              c_Succeeded c = has_status Succeeded (tasks e)) as Hc.
  { intros p Hp Hd v Hv Hvv. rewrite <- Hp in Hd.
    destruct (reachable_inv Retry s e Hd Hr) as (_ & _ & Hs & [E|[E|(c & Hc & Hc')]]);
      [destruct Hvv; congruence..|]. exists c. rewrite Hs, Hp, Hv in Hc. done. }
  split; intros Hp.
  - specialize (Hc _ Hp AllSucceed_decides). split; intros Hv;
      destruct (Hc _ Hv ltac:(auto)) as (c & Hcv & Hct & Hcs); unfold AllSucceed in Hcv;
      repeat case_hyp Hcv; try done.
    + apply Nat.eqb_eq in Heqb0. rewrite Hct, Hcs in Heqb0. by apply has_status_all.
    + apply Nat.eqb_neq in Heqb0. rewrite Hct, Hcs in Heqb0.
      destruct (decide (Forall (λ t, t_Status t = Succeeded) (tasks e))) as [Ha|Ha].
      * destruct Heqb0. by apply has_status_all.
      * apply not_Forall_Exists in Ha; [|apply _]. by apply Exists_exists in Ha.
  - specialize (Hc _ Hp (Completions_decides n)). split; intros Hv;
      destruct (Hc _ Hv ltac:(auto)) as (c & Hcv & Hct & Hcs); unfold Completions in Hcv;
      repeat case_hyp Hcv; try done; bools; lia.
Qed.

(** Two tasks, one slot, one retry: the first task fails once, is retried and
    succeeds, then the second runs. *)
Definition w_spec : Spec := MkSpec 2 1 1 0 0 None.

Definition w_e0 : Execution (W:=nat) :=
  match Start 0 w_spec with Ok e => e | Err _ => MkExecution w_spec [] [] Undecided false 0 [] [] end.

(** One attempt of the execution's only outstanding start, to its exit. *)
Definition w_started (e : Execution (W:=nat)) (i id : nat) : Execution :=
  attemptStarted None 1 i id (Some id) None (with_goroutines e []).
Definition w_run (e : Execution (W:=nat)) (i id : nat) (code : Z) : Execution :=
  attemptExited None 2 i id (MkExit code None None) (with_goroutines (w_started e i id) []).

Definition w_e1 := w_run w_e0 0 0 1.
Definition w_e2 := w_run w_e1 0 1 0.
Definition w_e3 := w_run w_e2 1 2 0.

Lemma w_run_steps e i id code t :
  goroutines e = [GoStart i id t] → goroutines (w_started e i id) = [GoWatch i id id] →
  rtc (step None) e (w_run e i id code).
Proof.
  intros H1 H2. eapply rtc_l.
  - apply step_deliver, (deliver_started None 1 [] [] i id t (Some id) None e H1).
  - eapply rtc_l; [|apply rtc_refl].
    apply step_deliver, (deliver_exited None 2 [] [] i id id (MkExit code None None) _ H2).
Qed.

Lemma w_e0_reachable : reachable None w_spec w_e0.
Proof.
  exists w_e0. split; [apply (begins_start None w_spec 0); reflexivity|apply rtc_refl].
Qed.

Definition w_snapshot (e : Execution (W:=nat)) : Task :=
  match goroutines e with GoStart _ _ t :: _ => t | _ => task_zero 0 end.

Lemma w_steps : rtc (step None) w_e0 w_e3.
Proof.
  transitivity w_e1.
  { apply (w_run_steps w_e0 0 0 1 (w_snapshot w_e0)); vm_compute; reflexivity. }
  transitivity w_e2.
  { apply (w_run_steps w_e1 0 1 0 (w_snapshot w_e1)); vm_compute; reflexivity. }
  apply (w_run_steps w_e2 1 2 0 (w_snapshot w_e2)); vm_compute; reflexivity.
Qed.

Lemma w_e3_reachable : reachable None w_spec w_e3.
Proof.
  destruct w_e0_reachable as (e0 & Hb & Hr). exists e0. split; [done|]. etrans; [exact Hr|apply w_steps].
Qed.

Lemma jobrun_invariant_witness :
  finishes w_e3 = 1%nat ∧ (finished w_e3 = true ↔ verdict w_e3 ≠ Undecided ∧ ∀ i, live w_e3 i = None).
Proof.
  split; [vm_compute; reflexivity|].
  exact (proj1 (proj2 (proj2 (proj2 (jobrun_invariant None w_spec w_e3 AllSucceed_decides w_e3_reachable))))).
Defined.

Lemma jobrun_ends_are_final_witness :
  finished w_e3 = true ∧ (finished w_e0 = true → finished w_e3 = true).
Proof.
  split; [vm_compute; reflexivity|].
  exact (proj1 (proj2 (jobrun_ends_are_final None w_spec w_e0 w_e3 AllSucceed_decides w_e0_reachable w_steps))).
Defined.

Lemma jobrun_terminates_witness :
  measure w_e0 = 22%nat ∧ ∀ n e', nsteps (deliver None) n w_e0 e' → (n ≤ measure w_e0)%nat.
Proof.
  split; [vm_compute; reflexivity|].
  exact (proj1 (jobrun_terminates None w_spec w_e0 AllSucceed_decides w_e0_reachable)).
Defined.

Lemma jobrun_verdict_sound_witness :
  verdict w_e3 = Success ∧ (verdict w_e3 = Success → Forall (λ t, t_Status t = Succeeded) (tasks w_e3)).
Proof.
  split; [vm_compute; reflexivity|].
  exact (proj1 (proj1 (jobrun_verdict_sound None w_spec w_e3 0 w_e3_reachable) eq_refl)).
Defined.
