(* ===== verification/Delivery.v ===== *)
(** * At-least-once deliveries ([sim/delivery/delivery.go])

    A [Dispatcher] persists every pending delivery and attempts it until its
    policy ends it. The lock protects the timers; the attempt itself runs
    without it, so a run is two steps: [run_begin], up to the call of the
    handler's Attempt, and [run_end], from its answer on. Timers, runs in
    flight and the calls of Finish are part of the state, and the step relation
    interleaves them in any order with submissions, removals of the record by
    the store's other users, and shutdown. Between those two points a step is
    whole: the store calls of a submission and its scheduling are one step, as
    are the re-read, the write and the scheduling of a retry, which the code
    makes without a common lock. The store is the finite map its
    interface promises. Instants are exact: the saturation of [time.Sub] beyond
    292 years is left out. *)

From S2P Require Import Prelude.

(** ** Data *)

Record Outcome := MkOutcome {
  o_Err : option string;
  o_Retry : bool;
  o_Status : Z;
  o_Response : string;
  o_Defer : Duration;
}.

Definition Delivered : Outcome := MkOutcome None false 0 "" 0.
Definition Retryable (err : string) : Outcome := MkOutcome (Some err) true 0 "" 0.
Definition Permanent (err : string) : Outcome := MkOutcome (Some err) false 0 "" 0.
Definition Deferred (err : string) (wait : Duration) : Outcome :=
  MkOutcome (Some err) true 0 "" (Z.max wait 1).
Definition OK (o : Outcome) : bool := match o_Err o with None => true | Some _ => false end.
Definition errorText (err : option string) : string := default "" err.

Record Policy := MkPolicy {
  p_MaxAttempts : Z;
  p_MaxAge : Duration;
  p_Backoff : option (Z → Duration);
  p_MinWait : option (Outcome → Duration);
  p_BothLimits : bool;
}.

Inductive Reason := Succeeded | AttemptsExhausted | AgeExceeded | Rejected.

#[global] Instance Reason_eq_dec : EqDecision Reason.
Proof. solve_decision. Defined.

Definition exhausted (p : Policy) (attempts : Z) (age : Duration) : Reason * bool :=
  let attemptsUsed := (0 <? p_MaxAttempts p) && (p_MaxAttempts p <=? attempts) in
  if negb (p_BothLimits p) then (AttemptsExhausted, attemptsUsed)
  else
    let attemptsUsed := attemptsUsed || (p_MaxAttempts p =? 0) in
    let ageUsed := (p_MaxAge p =? 0) || (p_MaxAge p <=? age) in
    if (0 <? p_MaxAge p) && ageUsed then (AgeExceeded, attemptsUsed)
    else (AttemptsExhausted, attemptsUsed && ageUsed).

Section Dispatcher.
Context {T : Type}.

(** The zero time of [NextAttemptAt] and [LastAttemptAt] is [None]. *)
Record Item := MkItem {
  i_ID : string;
  i_Payload : T;
  i_EnqueuedAt : Time;
  i_NextAttemptAt : option Time;
  i_Attempts : Z;
  i_LastError : string;
  i_LastStatus : Z;
  i_LastResponse : string;
  i_LastAttemptAt : option Time;
}.

Definition new_item (id : string) (payload : T) (now : Time) : Item :=
  MkItem id payload now None 0 "" 0 "" None.
Definition with_payload (x : Item) (payload : T) : Item :=
  MkItem (i_ID x) payload (i_EnqueuedAt x) (i_NextAttemptAt x) (i_Attempts x) (i_LastError x)
    (i_LastStatus x) (i_LastResponse x) (i_LastAttemptAt x).
Definition with_attempts (x : Item) (n : Z) : Item :=
  MkItem (i_ID x) (i_Payload x) (i_EnqueuedAt x) (i_NextAttemptAt x) n (i_LastError x)
    (i_LastStatus x) (i_LastResponse x) (i_LastAttemptAt x).
Definition with_next (x : Item) (at_ : option Time) : Item :=
  MkItem (i_ID x) (i_Payload x) (i_EnqueuedAt x) at_ (i_Attempts x) (i_LastError x)
    (i_LastStatus x) (i_LastResponse x) (i_LastAttemptAt x).
Definition attempted (x : Item) (now : Time) : Item :=
  MkItem (i_ID x) (i_Payload x) (i_EnqueuedAt x) None (i_Attempts x + 1) (i_LastError x)
    (i_LastStatus x) (i_LastResponse x) (Some now).
Definition answered (x : Item) (o : Outcome) : Item :=
  MkItem (i_ID x) (i_Payload x) (i_EnqueuedAt x) (i_NextAttemptAt x) (i_Attempts x)
    (errorText (o_Err o)) (o_Status o) (o_Response o) (i_LastAttemptAt x).

(** The handler's policy of a payload. *)
Context (policy_for : T → Policy).

(** [pending] maps an id to the wait its timer was armed with; [flight] holds
    the item and the policy of each run between its two steps; [finishes]
    lists the calls of Finish. *)
Record Dispatcher := MkDispatcher {
  store : gmap string Item;
  pending : gmap string Duration;
  flight : gmap string (Item * Policy);
  stopped : bool;
  cancelled : bool;
  finishes : list (Item * Reason);
}.

Definition with_store (d : Dispatcher) s :=
  MkDispatcher s (pending d) (flight d) (stopped d) (cancelled d) (finishes d).
Definition with_pending (d : Dispatcher) p :=
  MkDispatcher (store d) p (flight d) (stopped d) (cancelled d) (finishes d).
Definition with_flight (d : Dispatcher) f :=
  MkDispatcher (store d) (pending d) f (stopped d) (cancelled d) (finishes d).

Definition finish (item : Item) (reason : Reason) (d : Dispatcher) : Dispatcher :=
  MkDispatcher (delete (i_ID item) (store d)) (pending d) (flight d) (stopped d) (cancelled d)
    (finishes d ++ [(item, reason)]).

Definition schedule (id : string) (at_ : option Time) (now : Time) (d : Dispatcher) : Dispatcher :=
  if stopped d then d
  else match pending d !! id with
       | Some _ => d
       | None =>
           let wait := match at_ with None => 0 | Some t => t - now end in
           with_pending d (<[id := Z.max wait 0]> (pending d))
       end.

Definition run_begin (id : string) (now : Time) (d : Dispatcher) : Dispatcher :=
  let d := with_pending d (delete id (pending d)) in
  if stopped d then d
  else match store d !! id with
       | None => d
       | Some item =>
           let policy := policy_for (i_Payload item) in
           if negb (p_BothLimits policy) && (0 <? p_MaxAge policy) &&
              (p_MaxAge policy <? now - i_EnqueuedAt item)
           then finish item AgeExceeded d
           else
             let item := attempted item now in
             with_flight (with_store d (<[id := item]> (store d)))
               (<[id := (item, policy)]> (flight d))
       end.

(** A retry is stored and scheduled unless the record has been removed. *)
Definition retry_at (id : string) (item : Item) (at_ now : Time) (d : Dispatcher) : Dispatcher :=
  let item := with_next item (Some at_) in
  match store d !! id with
  | None => d
  | Some _ => schedule id (i_NextAttemptAt item) now (with_store d (<[id := item]> (store d)))
  end.

(** The answer of Attempt: its outcome and the payload it left. *)
Definition run_end (id : string) (o : Outcome) (payload : T) (now : Time) (d : Dispatcher)
    : Dispatcher :=
  match flight d !! id with
  | None => d
  | Some (item, policy) =>
      let d := with_flight d (delete id (flight d)) in
      let item := with_payload item payload in
      if negb (OK o) && cancelled d then
        with_store d (<[id := with_attempts item (i_Attempts item - 1)]> (store d))
      else
        let item := answered item o in
        if (0 <? o_Defer o) && negb (OK o) then
          let item := with_attempts item (i_Attempts item - 1) in
          if (0 <? p_MaxAge policy) && (p_MaxAge policy <? now + o_Defer o - i_EnqueuedAt item)
          then finish item AgeExceeded d
          else retry_at id item (now + o_Defer o) now d
        else if OK o then finish item Succeeded d
        else if negb (o_Retry o) then finish item Rejected d
        else
          let '(reason, done) := exhausted policy (i_Attempts item) (now - i_EnqueuedAt item) in
          if done then finish item reason d
          else
            let wait := match p_Backoff policy with None => 0 | Some f => f (i_Attempts item) end in
            let wait := match p_MinWait policy with None => wait | Some f => Z.max wait (f o) end in
            retry_at id item (now + wait) now d
  end.

Definition Submit (id : string) (payload : T) (now : Time) (d : Dispatcher) : Dispatcher :=
  schedule id None now (with_store d (<[id := new_item id payload now]> (store d))).

(** The first step of [SubmitAttempted]; its run ends with [run_end]. *)
Definition SubmitAttempted (id : string) (payload : T) (now : Time) (d : Dispatcher) : Dispatcher :=
  run_begin id now (with_store d (<[id := new_item id payload now]> (store d))).

Definition Resume (now : Time) (d : Dispatcher) : Dispatcher :=
  foldl (λ d kv, schedule (i_ID kv.2) (i_NextAttemptAt kv.2) now d) d (map_to_list (store d)).

(** [stop] marks the dispatcher and stops its timers under the lock, then
    cancels the context of the attempts. *)
Definition stop_timers (d : Dispatcher) : Dispatcher :=
  MkDispatcher (store d) ∅ (flight d) true (cancelled d) (finishes d).
Definition cancel (d : Dispatcher) : Dispatcher :=
  MkDispatcher (store d) (pending d) (flight d) (stopped d) (stopped d) (finishes d).

(** A dispatcher over the records of an earlier process. *)
Definition New (s : gmap string Item) : Dispatcher := MkDispatcher s ∅ ∅ false false [].

(** ** Steps *)

(** The ids handed to the dispatcher so far and those whose record the store's
    other users removed travel beside it: a caller gives each delivery an id of
    its own. *)
Inductive step : gset string * gset string * Dispatcher → gset string * gset string * Dispatcher → Prop :=
| step_submit ids gone id payload now d :
    id ∉ ids → step (ids, gone, d) ({[id]} ∪ ids, gone, Submit id payload now d)
| step_submit_attempted ids gone id payload now d :
    id ∉ ids → step (ids, gone, d) ({[id]} ∪ ids, gone, SubmitAttempted id payload now d)
| step_fire ids gone id now d :
    is_Some (pending d !! id) → step (ids, gone, d) (ids, gone, run_begin id now d)
| step_answer ids gone id o payload now d :
    is_Some (flight d !! id) → step (ids, gone, d) (ids, gone, run_end id o payload now d)
| step_remove ids gone id d :
    is_Some (store d !! id) → step (ids, gone, d) (ids, {[id]} ∪ gone, with_store d (delete id (store d)))
| step_stop ids gone d : step (ids, gone, d) (ids, gone, stop_timers d)
| step_cancel ids gone d : step (ids, gone, d) (ids, gone, cancel d).
End Dispatcher.
Arguments Item : clear implicits.
Arguments Dispatcher : clear implicits.

Arguments MkItem {T}.
Arguments finish {T} item reason d : simpl never.

(** ** The invariant *)

Section Invariant.
Context {T : Type} (policy_for : T → Policy).
Implicit Types (d : Dispatcher T) (x : Item T).

Definition fin_ids d : list string := (λ f, i_ID f.1) <$> finishes d.

(** Every record has a timer or a run, but for one an operation holds. *)
Record inv (hold : option string) (ids : gset string) d : Prop := {
  v_store id x : store d !! id = Some x → i_ID x = id ∧ id ∈ ids ∧ id ∉ fin_ids d;
  v_pending id : is_Some (pending d !! id) → id ∈ ids ∧ id ∉ fin_ids d ∧ flight d !! id = None;
  v_flight id x p : flight d !! id = Some (x, p) → i_ID x = id ∧ id ∈ ids ∧ id ∉ fin_ids d;
  v_kept id : Some id ≠ hold → stopped d = false → is_Some (store d !! id) →
    is_Some (pending d !! id) ∨ is_Some (flight d !! id);
  v_once : NoDup (fin_ids d);
  v_fin id : id ∈ fin_ids d → id ∈ ids;
  v_stopped : cancelled d = true → stopped d = true;
}.

Lemma fin_ids_finish y r d : fin_ids (finish y r d) = fin_ids d ++ [i_ID y].
Proof. unfold fin_ids, finish. simpl. by rewrite fmap_app. Qed.

Lemma elem_fin_ids y r d id : id ∈ fin_ids (finish y r d) ↔ id ∈ fin_ids d ∨ id = i_ID y.
Proof. by rewrite fin_ids_finish, elem_of_app, list_elem_of_singleton. Qed.

(** Ending a delivery that is neither scheduled nor in flight any more. *)
Lemma inv_finish hold ids d y r :
  inv hold ids d → i_ID y ∈ ids → i_ID y ∉ fin_ids d → pending d !! i_ID y = None →
  flight d !! i_ID y = None → inv hold ids (finish y r d).
Proof.
  intros [H1 H2 H3 H4 H5 H6 H7] Hi Hf Hp Hfl.
  split; [intros id x Hx|intros id Hid|intros id x p Hx|intros id Hne Hs Hx| |intros id|done];
    rewrite ?elem_fin_ids.
  - unfold finish in Hx. simpl in Hx. apply lookup_delete_Some in Hx as [Hne Hx].
    destruct (H1 id x Hx) as (? & ? & ?). split; [done|]. split; [done|]. intros [?|?]; congruence.
  - destruct (H2 id Hid) as (? & ? & ?). split; [done|]. split; [|done].
    intros [?| ->]; [done|]. unfold finish in Hid. simpl in Hid. rewrite Hp in Hid. by destruct Hid.
  - destruct (H3 id x p Hx) as (? & ? & ?). split; [done|]. split; [done|].
    intros [?| ->]; [done|]. unfold finish in Hx. simpl in Hx. by rewrite Hfl in Hx.
  - unfold finish in Hx. simpl in Hx. destruct Hx as [x Hx]. apply lookup_delete_Some in Hx as [_ Hx].
    apply H4; eauto.
  - rewrite fin_ids_finish. apply NoDup_app. split; [done|].
    split; [|apply NoDup_singleton]. intros id Hid ->%list_elem_of_singleton. done.
  - intros [?| ->]; auto.
Qed.

(** Storing a record that is scheduled, or was stopped. *)
Lemma inv_schedule ids d id x at_ now :
  inv (Some id) ids d → i_ID x = id → id ∈ ids → id ∉ fin_ids d → flight d !! id = None →
  inv None ids (schedule id at_ now (with_store d (<[id := x]> (store d)))).
Proof.
  intros [H1 H2 H3 H4 H5 H6 H7] Hx Hi Hf Hfl. unfold schedule. simpl.
  assert (∀ k y, <[id := x]> (store d) !! k = Some y → i_ID y = k ∧ k ∈ ids ∧ k ∉ fin_ids d) as Hs.
  { intros k y Hy. apply lookup_insert_Some in Hy as [[<- <-]|[_ Hy]]; [done|by apply H1]. }
  destruct (stopped d) eqn:Est; [split; simpl; rewrite ?Est; done|].
  destruct (pending d !! id) as [w|] eqn:Ep.
  - split; simpl; rewrite ?Est; try done. intros k _ _ [y Hy]. destruct (decide (k = id)) as [->|Hne]; [left; eauto|].
    rewrite lookup_insert_ne in Hy by done. apply H4; [congruence|done|eauto].
  - split; simpl; rewrite ?Est; try done.
    + intros k Hk. destruct (decide (k = id)) as [->|Hne]; [done|].
      rewrite lookup_insert_ne in Hk by done. by apply H2.
    + intros k _ _ [y Hy]. destruct (decide (k = id)) as [->|Hne].
      * left. rewrite lookup_insert_eq. eauto.
      * rewrite lookup_insert_ne in Hy by done. rewrite lookup_insert_ne by done.
        apply H4; [congruence|done|eauto].
Qed.

(** Taking a delivery out of the timers; it is not scheduled any more. *)
Lemma run_begin_inv ids d id now :
  inv (Some id) ids d → flight d !! id = None → inv None ids (run_begin policy_for id now d).
Proof.
  intros Hinv Hfl. unfold run_begin. set (d1 := with_pending d (delete id (pending d))).
  change (stopped d1) with (stopped d). change (store d1) with (store d).
  destruct Hinv as [H1 H2 H3 H4 H5 H6 H7].
  destruct (stopped d) eqn:Est.
  { split; unfold d1; simpl; rewrite ?Est; try done.
    intros k Hk. apply lookup_delete_is_Some in Hk as [_ Hk]. by apply H2. }
  assert (∀ k, is_Some (delete id (pending d) !! k) → k ≠ id ∧ k ∈ ids ∧ k ∉ fin_ids d ∧ flight d !! k = None) as Hp.
  { intros k [Hne Hk]%lookup_delete_is_Some. destruct (H2 k Hk) as (?&?&?). done. }
  assert (∀ k, is_Some (store d !! k) → k ≠ id → is_Some (delete id (pending d) !! k) ∨ is_Some (flight d !! k)) as Hk'.
  { intros k Hk Hne. destruct (H4 k ltac:(congruence) eq_refl Hk); [left|by right].
    by rewrite lookup_delete_ne. }
  destruct (store d !! id) as [item|] eqn:Ei.
  2:{ split; unfold d1; simpl; rewrite ?Est; try done.
      - intros k Hk. by destruct (Hp k Hk) as (_&?&?&?).
      - intros k _ _ Hk. apply Hk'; [done|]. intros ->. rewrite Ei in Hk. by destruct Hk. }
  destruct (H1 id item Ei) as (Hid & Hin & Hnf). cbv zeta. case_goal.
  - assert (inv None ids (finish item AgeExceeded (with_store d1 (delete id (store d))))) as Hinv'.
    { apply inv_finish; rewrite ?Hid; try done.
      - split; unfold d1; simpl; rewrite ?Est; try done.
        + intros k y [_ Hy]%lookup_delete_Some. by apply H1.
        + intros k Hk. by destruct (Hp k Hk) as (_&?&?&?).
        + intros k _ _ [y [Hne Hy]%lookup_delete_Some]. apply Hk'; [eauto|done].
      - unfold d1. simpl. apply lookup_delete_eq. }
    unfold finish in *. simpl in *. by rewrite Hid, delete_delete_eq in Hinv'; rewrite Hid.
  - split; unfold d1; simpl; rewrite ?Est; try done.
    + intros k y Hy. apply lookup_insert_Some in Hy as [[<- <-]|[_ Hy]]; [done|by apply H1].
    + intros k Hk. destruct (Hp k Hk) as (?&?&?&?). by rewrite lookup_insert_ne.
    + intros k y p Hy. apply lookup_insert_Some in Hy as [[<- [= <- <-]]|[_ Hy]]; [done|by eapply H3].
    + intros k _ _ Hk. destruct (decide (k = id)) as [->|Hne]; [right; rewrite lookup_insert_eq; eauto|].
      rewrite lookup_insert_ne in Hk by done. rewrite lookup_insert_ne by done. by apply Hk'.
Qed.

Lemma inv_weaken hold ids d : inv None ids d → inv hold ids d.
Proof. intros [H1 H2 H3 H4 H5 H6 H7]. split; try done. intros id _. by apply H4. Qed.

Lemma inv_grow hold ids ids' d : inv hold ids d → ids ⊆ ids' → inv hold ids' d.
Proof.
  intros [H1 H2 H3 H4 H5 H6 H7] Hsub. split; try done.
  - intros id x Hx. destruct (H1 id x Hx) as (?&?&?). set_solver.
  - intros id Hx. destruct (H2 id Hx) as (?&?&?). set_solver.
  - intros id x p Hx. destruct (H3 id x p Hx) as (?&?&?). set_solver.
  - intros id Hid. apply Hsub. by apply H6.
Qed.

(** A run that answered leaves its delivery held by nobody. *)
Lemma inv_unfly ids d id x p :
  inv None ids d → flight d !! id = Some (x, p) →
  let d1 := with_flight d (delete id (flight d)) in
  inv (Some id) ids d1 ∧ pending d1 !! id = None ∧ flight d1 !! id = None ∧
  i_ID x = id ∧ id ∈ ids ∧ id ∉ fin_ids d1.
Proof.
  intros [H1 H2 H3 H4 H5 H6 H7] Hx d1. destruct (H3 id x p Hx) as (Hid & Hin & Hnf).
  assert (pending d !! id = None) as Hp.
  { destruct (pending d !! id) eqn:E; [|done]. destruct (H2 id) as (_ & _ & E'); [eauto|]. congruence. }
  split; [|split; [done|split; [apply lookup_delete_eq|done]]].
  split; simpl; try done.
  - intros k Hk. destruct (H2 k Hk) as (?&?&?). split; [done|]. split; [done|].
    rewrite lookup_delete_None. by right.
  - intros k y q [_ Hy]%lookup_delete_Some. by eapply H3.
  - intros k Hne Hs Hk. destruct (H4 k) as [?|?]; [done..|by left|right].
    rewrite lookup_delete_ne; [done|congruence].
Qed.

Lemma retry_inv ids d id y at_ now :
  inv (Some id) ids d → i_ID y = id → id ∈ ids → id ∉ fin_ids d → flight d !! id = None →
  inv None ids (retry_at id y at_ now d).
Proof.
  intros Hinv Hy Hin Hnf Hfl. unfold retry_at. destruct (store d !! id) as [z|] eqn:E.
  - by apply inv_schedule.
  - destruct Hinv as [H1 H2 H3 H4 H5 H6 H7]. split; try done.
    intros k _ Hs Hk. apply H4; [|done|done]. intros [= ->]. rewrite E in Hk. by destruct Hk.
Qed.

(** After a finish nothing of the delivery is left to hold. *)
Lemma inv_release ids d y r :
  inv (Some (i_ID y)) ids d → i_ID y ∈ ids → i_ID y ∉ fin_ids d → pending d !! i_ID y = None →
  flight d !! i_ID y = None → inv None ids (finish y r d).
Proof.
  intros Hinv Hi Hf Hp Hfl. destruct (inv_finish _ _ _ y r Hinv Hi Hf Hp Hfl) as [H1 H2 H3 H4 H5 H6 H7].
  split; try done. intros k _ Hs Hk. apply H4; [|done|done]. intros [= ->].
  unfold finish in Hk. simpl in Hk. rewrite lookup_delete_eq in Hk. by destruct Hk.
Qed.

Lemma run_end_inv ids d id o payload now :
  inv None ids d → inv None ids (run_end id o payload now d).
Proof.
  intros Hinv. unfold run_end. destruct (flight d !! id) as [[item policy]|] eqn:Ef; [|done].
  destruct (inv_unfly ids d id item policy Hinv Ef) as (Hd1 & Hp & Hfl & Hid & Hin & Hnf).
  set (d1 := with_flight d (delete id (flight d))) in *.
  assert (∀ y, i_ID y = id → ∀ r, inv None ids (finish y r d1)) as Hfin.
  { intros y <- r. by apply inv_release. }
  assert (∀ y at_, i_ID y = id → inv None ids (retry_at id y at_ now d1)) as Hret.
  { intros y at_ Hy. by apply retry_inv. }
  change (cancelled d1) with (cancelled d). cbv zeta.
  destruct (negb (OK o) && cancelled d) eqn:Ec.
  - bools. pose proof (v_stopped _ _ _ Hinv H0) as Hst.
    destruct Hd1 as [H1 H2 H3 H4 H5 H6 H7]. split; simpl; try done; [|by rewrite Hst].
    intros k y Hy. apply lookup_insert_Some in Hy as [[<- <-]|[_ Hy]]; [done|by apply H1].
  - repeat lazymatch goal with
    | |- inv _ _ (finish _ _ _) => by apply Hfin
    | |- inv _ _ (retry_at _ _ _ _ _) => by apply Hret
    | |- _ => case_match
    end.
Qed.

Lemma submit_inv ids d id payload now :
  inv None ids d → id ∉ ids →
  inv None ({[id]} ∪ ids) (Submit id payload now d) ∧
  inv None ({[id]} ∪ ids) (SubmitAttempted policy_for id payload now d).
Proof.
  intros Hinv Hni.
  assert (id ∉ fin_ids d ∧ flight d !! id = None) as [Hnf Hfl].
  { destruct Hinv as [_ _ H3 _ _ H6 _]. split; [intros ?%H6; done|].
    destruct (flight d !! id) as [[x p]|] eqn:E; [|done]. by destruct (H3 _ _ _ E) as (_ & ? & _). }
  assert (inv (Some id) ({[id]} ∪ ids) d) as Hg.
  { apply inv_weaken, (inv_grow _ ids); [done|set_solver]. }
  split; [by apply inv_schedule; [| |set_solver| |]|].
  apply run_begin_inv; [|done]. destruct Hg as [H1 H2 H3 H4 H5 H6 H7]. split; simpl; try done.
  - intros k y Hy. apply lookup_insert_Some in Hy as [[<- <-]|[_ Hy]]; [set_solver|by apply H1].
  - intros k Hk Hs [y Hy]. rewrite lookup_insert_ne in Hy by congruence. apply H4; eauto.
Qed.

Lemma step_inv ids gone d ids' gone' d' :
  inv None ids d → step policy_for (ids, gone, d) (ids', gone', d') → inv None ids' d'.
Proof.
  intros Hinv Hst. inversion Hst; subst; clear Hst.
  - by apply submit_inv.
  - by apply submit_inv.
  - apply run_begin_inv; [by apply inv_weaken|]. by apply (v_pending _ _ _ Hinv).
  - by apply run_end_inv.
  - destruct Hinv as [H1 H2 H3 H4 H5 H6 H7]. split; simpl; try done.
    + intros k y [_ Hy]%lookup_delete_Some. by apply H1.
    + intros k _ Hs [y [_ Hy]%lookup_delete_Some]. apply H4; eauto.
  - destruct Hinv as [H1 H2 H3 H4 H5 H6 H7]. split; simpl; try done.
    intros k [w Hk]. by rewrite lookup_empty in Hk.
  - destruct Hinv as [H1 H2 H3 H4 H5 H6 H7]. by split.
Qed.

(** *** No delivery is dropped *)

(** A delivery that is stored or finished. *)
Definition accounted d (id : string) : Prop := is_Some (store d !! id) ∨ id ∈ fin_ids d.
Definition keeps d d' : Prop := ∀ id, accounted d id → accounted d' id.

Lemma keeps_finish y r d : keeps d (finish y r d).
Proof.
  intros id [[x Hx]|Hid].
  - destruct (decide (id = i_ID y)) as [->|Hne]; [right; rewrite elem_fin_ids; by right|].
    left. unfold finish. simpl. exists x. by rewrite lookup_delete_ne.
  - right. rewrite elem_fin_ids. by left.
Qed.

Lemma keeps_put d id x : keeps d (with_store d (<[id := x]> (store d))).
Proof.
  intros k [Hk|Hk]; [left|by right]. simpl. destruct (decide (k = id)) as [->|Hne]; [rewrite lookup_insert_eq; eauto|].
  by rewrite lookup_insert_ne.
Qed.

Lemma keeps_schedule id at_ now d d' : keeps d' d → keeps d' (schedule id at_ now d).
Proof. intros Hk k Hd%Hk. unfold schedule. by repeat case_match. Qed.

Lemma keeps_retry id x at_ now d : keeps d (retry_at id x at_ now d).
Proof. unfold retry_at. destruct (store d !! id); [|by intros k]. apply keeps_schedule, keeps_put. Qed.

Lemma keeps_run_begin id now d : keeps d (run_begin policy_for id now d).
Proof.
  unfold run_begin. set (d1 := with_pending d _). destruct (stopped d1); [by intros k|].
  destruct (store d1 !! id) as [x|]; [|by intros k]. cbv zeta. case_match; [exact (keeps_finish x AgeExceeded d1)|].
  exact (keeps_put d id _).
Qed.

Lemma keeps_run_end id o payload now d : keeps d (run_end id o payload now d).
Proof.
  unfold run_end. destruct (flight d !! id) as [[x q]|]; [|by intros k]. cbv zeta.
  set (d1 := with_flight d _).
  repeat lazymatch goal with
  | |- keeps _ (finish ?y ?r _) => exact (keeps_finish y r d1)
  | |- keeps _ (retry_at ?i ?y ?a ?n _) => exact (keeps_retry i y a n d1)
  | |- keeps _ (with_store _ (<[_ := ?y]> _)) => exact (keeps_put d1 id y)
  | |- context [match ?x with _ => _ end] => destruct x
  end.
Qed.

(** Every delivery handed over is stored, finished or was removed. *)
Definition none_dropped (ids gone : gset string) d : Prop := ∀ id, id ∈ ids → accounted d id ∨ id ∈ gone.

Lemma step_none_dropped ids gone d ids' gone' d' :
  none_dropped ids gone d → step policy_for (ids, gone, d) (ids', gone', d') → none_dropped ids' gone' d'.
Proof.
  intros Hd Hst.
  assert (∀ d1, keeps d d1 → none_dropped ids gone d1) as Hk.
  { intros d1 H1 id [?|?]%Hd; [left; by apply H1|by right]. }
  assert (∀ id payload now d1, keeps (with_store d (<[id := new_item id payload now]> (store d))) d1 →
    none_dropped ({[id]} ∪ ids) gone d1) as Hnew.
  { intros id payload now d1 H1 k [->%elem_of_singleton|Hk']%elem_of_union.
    - left. apply H1. left. simpl. rewrite lookup_insert_eq. eauto.
    - destruct (Hd k Hk') as [Ha|?]; [left|by right]. by apply H1, keeps_put. }
  inversion Hst; subst; clear Hst.
  - eapply Hnew. apply keeps_schedule. by intros k.
  - eapply Hnew. apply keeps_run_begin.
  - apply Hk, keeps_run_begin.
  - apply Hk, keeps_run_end.
  - intros k [[Hs|Hf]|Hg]%Hd; [|left; by right|right; set_solver].
    destruct (decide (k = id)) as [->|Hne]; [right; set_solver|]. left. left. simpl. by rewrite lookup_delete_ne.
  - apply Hk. by intros k.
  - apply Hk. by intros k.
Qed.

(** *** Resuming an earlier process's records *)

Lemma schedule_shape id at_ now d :
  stopped d = false →
  let d' := schedule id at_ now d in
  store d' = store d ∧ flight d' = flight d ∧ stopped d' = false ∧ cancelled d' = cancelled d ∧
  finishes d' = finishes d ∧
  ∀ k, is_Some (pending d' !! k) ↔ is_Some (pending d !! k) ∨ k = id.
Proof.
  intros Hs. unfold schedule. rewrite Hs. destruct (pending d !! id) eqn:Ep; simpl.
  - repeat split; try done; [tauto|]. intros [?| ->]; eauto.
  - do 5 (split; [done|]). intros k. rewrite lookup_insert_is_Some'. split; intros [?|?]; auto.
Qed.

Lemma resume_loop now d (l : list (string * Item T)) :
  stopped d = false →
  let d' := foldl (λ d kv, schedule (i_ID kv.2) (i_NextAttemptAt kv.2) now d) d l in
  store d' = store d ∧ flight d' = flight d ∧ stopped d' = false ∧ cancelled d' = cancelled d ∧
  finishes d' = finishes d ∧
  ∀ k, is_Some (pending d' !! k) ↔ is_Some (pending d !! k) ∨ k ∈ (λ kv, i_ID kv.2) <$> l.
Proof.
  revert d. induction l as [|[k x] l IH]; intros d Hs; simpl.
  - do 5 (split; [done|]). intros k. split; [by left|]. by intros [?|?%not_elem_of_nil].
  - destruct (schedule_shape (i_ID x) (i_NextAttemptAt x) now d Hs) as (E1 & E2 & E3 & E4 & E5 & E6).
    destruct (IH _ E3) as (F1 & F2 & F3 & F4 & F5 & F6).
    rewrite F1, F2, F4, F5. do 5 (split; [done|]). intros j. rewrite F6, E6, elem_of_cons. tauto.
Qed.

Definition records_ok (s : gmap string (Item T)) : Prop := ∀ id x, s !! id = Some x → i_ID x = id.

Lemma resume_inv now s :
  records_ok s → inv None (dom s) (Resume now (New s)) ∧
  store (Resume now (New s)) = s ∧ flight (Resume now (New s)) = ∅ ∧ finishes (Resume now (New s)) = [].
Proof.
  intros Hs. unfold Resume. destruct (resume_loop now (New s) (map_to_list s)) as (E1 & E2 & E3 & E4 & E5 & E6);
    [done|]. simpl in *. split; [|done].
  assert (∀ k, k ∈ (λ kv : string * Item T, i_ID kv.2) <$> map_to_list s ↔ k ∈ dom s) as Hk.
  { intros k. rewrite list_elem_of_fmap, elem_of_dom. split.
    - intros ([j x] & -> & Hx%elem_of_map_to_list). simpl. rewrite (Hs _ _ Hx). eauto.
    - intros [x Hx]. exists (k, x). split; [symmetry; by apply Hs|]. by apply elem_of_map_to_list. }
  split; rewrite ?E1, ?E2, ?E3, ?E4; unfold fin_ids; rewrite ?E5; simpl.
  - intros id x Hx. split; [by apply Hs|]. split; [by eapply elem_of_dom_2|apply not_elem_of_nil].
  - intros id Hid%E6. rewrite lookup_empty in *. rewrite Hk in Hid.
    destruct Hid as [[? ?]|?]; [done|]. split; [done|]. split; [apply not_elem_of_nil|done].
  - intros id x p Hx. by rewrite lookup_empty in Hx.
  - intros id _ _ Hid. left. apply E6. right. apply Hk. by apply elem_of_dom.
  - constructor.
  - intros id Hid. by apply not_elem_of_nil in Hid.
  - done.
Qed.

(** *** The attempts a policy allows *)

Context (p : Policy).
Definition limited : Prop := p_BothLimits p = false ∧ 0 < p_MaxAttempts p.

Definition ends_within (f : Item T * Reason) : Prop :=
  i_Attempts f.1 ≤ p_MaxAttempts p ∧ (f.2 = AttemptsExhausted → i_Attempts f.1 = p_MaxAttempts p).

Record limits d : Prop := {
  l_wait id x : store d !! id = Some x → flight d !! id = None → 0 ≤ i_Attempts x < p_MaxAttempts p;
  l_run id x q : flight d !! id = Some (x, q) → q = p ∧ 0 < i_Attempts x ≤ p_MaxAttempts p;
  l_end : Forall ends_within (finishes d);
}.

Lemma limits_finish d y r :
  limits d → ends_within (y, r) → limits (finish y r d).
Proof.
  intros [H1 H2 H3] Hy. split; unfold finish; simpl; try done.
  - intros id x [_ Hx]%lookup_delete_Some. by eapply H1.
  - apply Forall_app. split; [done|]. by constructor.
Qed.

Lemma limits_store d id y :
  limits d → 0 ≤ i_Attempts y < p_MaxAttempts p → limits (with_store d (<[id := y]> (store d))).
Proof.
  intros [H1 H2 H3] Hy. split; simpl; try done.
  intros k x Hx Hf. apply lookup_insert_Some in Hx as [[<- <-]|[_ Hx]]; [done|by eapply H1].
Qed.

Lemma limits_schedule d id at_ now : limits d → limits (schedule id at_ now d).
Proof. intros [H1 H2 H3]. unfold schedule. by repeat case_match; split. Qed.

Lemma limits_run_begin d id now :
  (∀ t, policy_for t = p) → limited → limits d → flight d !! id = None →
  limits (run_begin policy_for id now d).
Proof.
  intros Hp [Hb Hm] Hd Hf. unfold run_begin. set (d1 := with_pending d _).
  assert (limits d1) as Hd1 by (destruct Hd; by split).
  change (stopped d1) with (stopped d). change (store d1) with (store d).
  destruct (stopped d); [done|]. destruct (store d !! id) as [x|] eqn:Ex; [|done].
  pose proof (l_wait _ Hd id x Ex Hf) as Hx. rewrite Hp. cbv zeta. case_match.
  - apply limits_finish; [done|]. split; [simpl; lia|done].
  - destruct Hd1 as [H1 H2 H3]. split; simpl; try done.
    + intros k y Hy Hk. destruct (decide (k = id)) as [->|Hne]; [by rewrite lookup_insert_eq in Hk|].
      rewrite lookup_insert_ne in Hy by done. rewrite lookup_insert_ne in Hk by done. by eapply H1.
    + intros k y q Hy. apply lookup_insert_Some in Hy as [[<- [= <- <-]]|[_ Hy]]; [|by eapply H2].
      split; [done|]. simpl. lia.
Qed.

Lemma limits_retry d id y at_ now :
  limits d → 0 ≤ i_Attempts y < p_MaxAttempts p → limits (retry_at id y at_ now d).
Proof.
  intros Hd Hy. unfold retry_at. case_match; [|done]. by apply limits_schedule, limits_store.
Qed.

Lemma limits_run_end ids d id o payload now :
  limited → inv None ids d → limits d → limits (run_end id o payload now d).
Proof.
  intros [Hb Hm] Hinv Hd. unfold run_end. destruct (flight d !! id) as [[item policy]|] eqn:Ef; [|done].
  destruct (l_run _ Hd _ _ _ Ef) as [-> Hn]. set (d1 := with_flight d _).
  assert (∀ y r, i_ID y = i_ID item → ends_within (y, r) → limits (finish y r d1)) as Hfin.
  { intros y r Hy Hr. destruct (v_flight _ _ _ Hinv _ _ _ Ef) as (Hid & _ & _).
    destruct Hd as [H1 H2 H3]. split; unfold finish; simpl.
    - intros k x [Hne Hx]%lookup_delete_Some Hk. apply (H1 k x Hx).
      rewrite lookup_delete_ne in Hk; [done|]. congruence.
    - intros k x q [_ Hx]%lookup_delete_Some. by eapply H2.
    - apply Forall_app. split; [done|]. by constructor. }
  assert (∀ y, 0 ≤ i_Attempts y < p_MaxAttempts p → limits (with_store d1 (<[id := y]> (store d1)))) as Hst.
  { intros y Hy. destruct Hd as [H1 H2 H3]. split; simpl; try done.
    - intros k x Hx Hk. apply lookup_insert_Some in Hx as [[<- <-]|[Hne Hx]]; [done|].
      apply (H1 k x Hx). by rewrite lookup_delete_ne in Hk.
    - intros k x q [_ Hx]%lookup_delete_Some. by eapply H2. }
  assert (∀ y at_, 0 ≤ i_Attempts y < p_MaxAttempts p → limits (retry_at id y at_ now d1)) as Hret.
  { intros y at_ Hy. unfold retry_at. destruct (store d1 !! id) eqn:Es.
    - apply limits_schedule, Hst. done.
    - destruct Hd as [H1 H2 H3]. split; simpl; try done.
      + intros k x Hx Hk. apply (H1 k x Hx). destruct (decide (k = id)) as [->|].
        * change (store d !! id = None) in Es. congruence.
        * by rewrite lookup_delete_ne in Hk.
      + intros k x q [_ Hx]%lookup_delete_Some. by eapply H2. }
  cbv zeta. change (cancelled d1) with (cancelled d).
  unfold exhausted. rewrite Hb. cbn [negb].
  repeat lazymatch goal with
  | |- limits (finish _ _ _) => apply Hfin; [done|]; split; cbn [fst snd i_Attempts answered with_payload with_attempts];
      [lia|intros ?; first [done|simpl in *; bools; lia]]
  | |- limits (retry_at _ _ _ _ _) => apply Hret; simpl in *; bools; destruct_or?; bools; first [done|lia]
  | |- limits (with_store _ _) => apply Hst; simpl; lia
  | |- context [match ?x with _ => _ end] => destruct x eqn:?
  end.
Qed.

Lemma limits_step ids gone d ids' gone' d' :
  (∀ t, policy_for t = p) → limited → inv None ids d → limits d →
  step policy_for (ids, gone, d) (ids', gone', d') → limits d'.
Proof.
  intros Hp Hl Hinv Hd Hst. pose proof Hl as [_ Hm]. inversion Hst; subst; clear Hst.
  - apply limits_schedule, limits_store; [done|simpl; lia].
  - apply limits_run_begin; [done|done| |].
    + apply limits_store; [done|simpl; lia].
    + simpl. destruct (flight d !! id) as [[x q]|] eqn:E; [|done].
      by destruct (v_flight _ _ _ Hinv _ _ _ E) as (_ & ? & _).
  - apply limits_run_begin; try done. by apply (v_pending _ _ _ Hinv).
  - by eapply limits_run_end.
  - destruct Hd as [H1 H2 H3]. split; simpl; try done.
    intros k x [_ Hx]%lookup_delete_Some. by eapply H1.
  - destruct Hd. by split.
  - destruct Hd. by split.
Qed.
End Invariant.

(** ** Properties *)

(** A dispatcher resumes the records of an earlier process, none at the very
    first start, and takes steps from there. *)
Definition reachable {T} (policy_for : T → Policy) (s : gmap string (Item T))
    (ids gone : gset string) (d : Dispatcher T) : Prop :=
  ∃ now, rtc (step policy_for) (dom s, ∅, Resume now (New s)) (ids, gone, d).

Lemma dispatcher_inv {T} (policy_for : T → Policy) s ids gone (d : Dispatcher T) :
  records_ok s → reachable policy_for s ids gone d → inv None ids d ∧ none_dropped ids gone d.
Proof.
  intros Hs [now Hr]. destruct (resume_inv now s Hs) as (Hi & Es & _).
  assert (∀ y z, rtc (step policy_for) y z → inv None y.1.1 y.2 → none_dropped y.1.1 y.1.2 y.2 →
    inv None z.1.1 z.2 ∧ none_dropped z.1.1 z.1.2 z.2) as H.
  { clear. intros y z Hz. induction Hz as [|[[i1 g1] d1] [[i2 g2] d2] z H1 H2 IH]; [done|].
    intros Hi Hd. apply IH; [by eapply step_inv|by eapply step_none_dropped]. }
  apply (H _ _ Hr Hi). intros id Hid. left. left. simpl. rewrite Es. by apply elem_of_dom.
Qed.

(** [C12] No delivery is lost and none ends twice: in every state a dispatcher
    reaches, over submissions under ids of their own, timers, answers, removals
    and a shutdown in any order, every delivery it was handed, and every one an
    earlier process left, is still stored, or Finish has been called for it, or
    the store's other users removed its record; Finish has been called at most
    once for each delivery; one that finished is neither stored, scheduled nor
    running any more; and while the dispatcher is not stopped every stored
    delivery has its timer armed or an attempt in flight, never both. *)
Theorem deliveries_are_tracked {T} (policy_for : T → Policy) s ids gone (d : Dispatcher T) :
  records_ok s → reachable policy_for s ids gone d →
  (∀ id, id ∈ ids → is_Some (store d !! id) ∨ id ∈ fin_ids d ∨ id ∈ gone) ∧
  NoDup (fin_ids d) ∧
  (∀ id, id ∈ fin_ids d → store d !! id = None ∧ pending d !! id = None ∧ flight d !! id = None) ∧
  (stopped d = false → ∀ id, is_Some (store d !! id) →
     is_Some (pending d !! id) ∨ is_Some (flight d !! id)) ∧
  (∀ id, is_Some (pending d !! id) → flight d !! id = None).
Proof.
  intros Hs Hr. destruct (dispatcher_inv policy_for s ids gone d Hs Hr) as [[H1 H2 H3 H4 H5 H6 H7] Hd].
  split; [|split; [done|split; [|split]]].
  - intros id [[?|?]|?]%Hd; auto.
  - intros id Hid. split; [|split].
    + destruct (store d !! id) as [x|] eqn:E; [|done]. by destruct (H1 _ _ E) as (_ & _ & ?).
    + destruct (pending d !! id) as [x|] eqn:E; [|done]. by destruct (H2 id) as (_ & ? & _); [eauto|].
    + destruct (flight d !! id) as [[x q]|] eqn:E; [|done]. by destruct (H3 _ _ _ E) as (_ & _ & ?).
  - intros Hst id Hid. by apply H4.
  - intros id Hid. by apply H2.
Qed.

(** Under a policy that limits attempts alone, no delivery is attempted
    more than MaxAttempts times, and one that ends as out of attempts was
    attempted exactly that often: answers, deferrals that give an attempt back
    and cancelled attempts included. *)
Theorem attempts_are_bounded {T} (policy_for : T → Policy) (p : Policy) s ids gone (d : Dispatcher T) :
  (∀ t, policy_for t = p) → limited p → records_ok s →
  (∀ id x, s !! id = Some x → 0 ≤ i_Attempts x < p_MaxAttempts p) →
  reachable policy_for s ids gone d →
  (∀ id x q, flight d !! id = Some (x, q) → 0 < i_Attempts x ≤ p_MaxAttempts p) ∧
  ∀ x r, (x, r) ∈ finishes d →
    i_Attempts x ≤ p_MaxAttempts p ∧ (r = AttemptsExhausted → i_Attempts x = p_MaxAttempts p).
Proof.
  intros Hp Hl Hs Ha [now Hr]. destruct (resume_inv now s Hs) as (Hi & E1 & E2 & E3).
  assert (limits p (Resume now (New s))) as Hlim.
  { split; rewrite ?E1, ?E2, ?E3; [intros id x Hx _; by apply (Ha id)| |constructor].
    intros id x q Hx. by rewrite lookup_empty in Hx. }
  assert (∀ y z, rtc (step policy_for) y z → inv None y.1.1 y.2 → limits p y.2 → limits p z.2) as H.
  { clear - Hp Hl. intros y z Hz. induction Hz as [|[[i1 g1] d1] [[i2 g2] d2] z H1 H2 IH]; intros Hi Hd; [done|].
    apply IH; [by eapply step_inv|by eapply (limits_step policy_for p i1 g1 d1)]. }
  destruct (H _ _ Hr Hi Hlim) as [L1 L2 L3]. split.
  - intros id x q Hx. by destruct (L2 _ _ _ Hx).
  - intros x r Hx. rewrite Forall_forall in L3. by destruct (L3 _ Hx).
Qed.

(** A delivery with two attempts fails, is retried after its backoff and fails
    again. *)
Definition w_policy : Policy := MkPolicy 2 0 (Some (λ n, n * Second)) None false.
Definition w_start : Dispatcher Z := Resume 0 (New ∅).
Definition w_d1 := Submit "a" 7 0 w_start.
Definition w_f1 := run_begin (λ _, w_policy) "a" 0 w_d1.
Definition w_d2 := run_end "a" (Retryable "no") 7 1 w_f1.
Definition w_f2 := run_begin (λ _, w_policy) "a" (2 * Second) w_d2.
Definition w_d3 := run_end "a" (Retryable "no") 7 (3 * Second) w_f2.
Definition w_ids : gset string := {["a"]} ∪ dom (∅ : gmap string (Item Z)).

Lemma w_d3_reachable : reachable (λ _ : Z, w_policy) ∅ w_ids ∅ w_d3.
Proof.
  exists 0. apply (rtc_l _ _ (w_ids, ∅, w_d1)).
  { refine (step_submit (λ _, w_policy) (dom ∅) ∅ "a" 7 0 w_start _). set_solver. }
  apply (rtc_l _ _ (w_ids, ∅, w_f1)).
  { refine (step_fire (λ _, w_policy) w_ids ∅ "a" 0 w_d1 _). vm_compute. by eexists. }
  apply (rtc_l _ _ (w_ids, ∅, w_d2)).
  { refine (step_answer (λ _, w_policy) w_ids ∅ "a" (Retryable "no") 7 1 w_f1 _). vm_compute. by eexists. }
  apply (rtc_l _ _ (w_ids, ∅, w_f2)).
  { refine (step_fire (λ _, w_policy) w_ids ∅ "a" (2 * Second) w_d2 _). vm_compute. by eexists. }
  apply (rtc_l _ _ (w_ids, ∅, w_d3)); [|apply rtc_refl].
  refine (step_answer (λ _, w_policy) w_ids ∅ "a" (Retryable "no") 7 (3 * Second) w_f2 _).
  vm_compute. by eexists.
Qed.

Lemma w_records_ok : records_ok (∅ : gmap string (Item Z)).
Proof. intros id x Hx. by rewrite lookup_empty in Hx. Qed.

Lemma deliveries_are_tracked_witness :
  fin_ids w_d3 = ["a"] ∧ NoDup (fin_ids w_d3).
Proof.
  split; [vm_compute; reflexivity|].
  exact (proj1 (proj2 (deliveries_are_tracked (λ _ : Z, w_policy) ∅ w_ids ∅ w_d3 w_records_ok w_d3_reachable))).
Defined.

Lemma attempts_are_bounded_witness :
  (λ f, f.2) <$> finishes w_d3 = [AttemptsExhausted] ∧
  ∀ x r, (x, r) ∈ finishes w_d3 →
    i_Attempts x ≤ p_MaxAttempts w_policy ∧ (r = AttemptsExhausted → i_Attempts x = p_MaxAttempts w_policy).
Proof.
  split; [vm_compute; reflexivity|].
  refine (proj2 (attempts_are_bounded (λ _ : Z, w_policy) w_policy ∅ w_ids ∅ w_d3 _ _ w_records_ok _ w_d3_reachable)).
  - reflexivity.
  - split; reflexivity.
  - intros id x Hx. by rewrite lookup_empty in Hx.
Defined.
