(* ===== verification/Ipam.v ===== *)
(** * Address allocation ([sim/ipam/ipam.go], [public_ip.go], [names.go])

    An [IPAM] leases the IPv4 addresses of one subnet. An address is its
    32-bit number, which is also the key of the lease map ([IP.String] is
    one-to-one on IPv4 addresses); an address with no IPv4 form is [IPv6]. A
    CIDR string is given as what [net.ParseCIDR] makes of it. Every method holds
    the allocator's lock from start to end and is a function of its state. *)

From S2P Require Import Prelude.

Inductive IP := IPv4 (n : Z) | IPv6 (n : Z).

Definition To4 (ip : IP) : option Z := match ip with IPv4 n => Some n | IPv6 _ => None end.

Inductive cidr := BadCIDR | CIDR6 | CIDR4 (ip ones : Z).

(** What a 4-byte address and a 32-bit mask hold. *)
Definition cidr_ok (c : cidr) : Prop :=
  match c with CIDR4 ip ones => 0 ≤ ip < 2 ^ 32 ∧ 0 ≤ ones ≤ 32 | _ => True end.

Definition masked (ip ones : Z) : Z := ip - ip mod 2 ^ (32 - ones).

Record IPNet := MkIPNet { net_IP : Z; net_Ones : Z }.

(** [IPNet.Contains] masks both addresses. *)
Definition Contains (n : IPNet) (ip : Z) : bool :=
  masked ip (net_Ones n) =? masked (net_IP n) (net_Ones n).

Record IPAM := MkIPAM {
  network : IPNet;
  gateway : Z;
  reserved : gmap Z string;
  first : Z;
  last : Z;
}.

Inductive IPAMError :=
| BadReservation | InvalidCIDR | NotIPv4 | GatewayOutside
| NotUsable | HostReserved | AddressInUse (owner : string) | NoAvailableIP | Panicked.

Record HostReservation := MkReservation { keep_First : Z; keep_Last : Z }.

(** The network keeps the address as it was written, host bits included. *)
Definition NewIPAMWithReserved (c : cidr) (gw : IP) (keep : HostReservation) : result IPAMError IPAM :=
  if (keep_First keep <? 1) || (keep_Last keep <? 1) then Err BadReservation
  else match c with
       | BadCIDR => Err InvalidCIDR
       | CIDR6 => Err NotIPv4
       | CIDR4 ip ones =>
           match To4 gw with
           | Some g =>
               if Contains (MkIPNet ip ones) g
               then Ok (MkIPAM (MkIPNet ip ones) g {[g := "gateway"]} (keep_First keep) (keep_Last keep))
               else Err GatewayOutside
           | None => Err GatewayOutside
           end
       end.

Definition NewIPAM (c : cidr) (gw : IP) : result IPAMError IPAM :=
  NewIPAMWithReserved c gw (MkReservation 1 1).

Definition broadcastBig (n : IPNet) : Z := net_IP n + (Z.shiftl 1 (32 - net_Ones n) - 1).

Definition low_host (i : IPAM) : Z := net_IP (network i) + first i.
Definition high_host (i : IPAM) : Z := broadcastBig (network i) - (last i - 1).

Definition hostReserved (i : IPAM) (n : Z) : bool := (n <? low_host i) || (high_host i <=? n).

(** The copy into four bytes panics on a number of more than four. *)
Definition bigToIPv4 (n : Z) : option Z := if n <? 2 ^ 32 then Some n else None.

Definition lease (i : IPAM) (ip : Z) (owner : string) : IPAM :=
  MkIPAM (network i) (gateway i) (<[ip := owner]> (reserved i)) (first i) (last i).

(** The loop over the addresses from [n] up to, not including, [high_host];
    [fuel] counts them. A nil [usable] accepts every address. *)
Fixpoint free_loop (i : IPAM) (owner : string) (usable : option (Z → bool)) (fuel : nat) (n : Z)
    : IPAM * result IPAMError Z :=
  match fuel with
  | O => (i, Err NoAvailableIP)
  | S fuel =>
      if n <? high_host i then
        match bigToIPv4 n with
        | None => (i, Err Panicked)
        | Some ip =>
            match reserved i !! ip with
            | Some _ => free_loop i owner usable fuel (n + 1)
            | None =>
                if match usable with None => true | Some f => f ip end
                then (lease i ip owner, Ok ip)
                else free_loop i owner usable fuel (n + 1)
            end
        end
      else (i, Err NoAvailableIP)
  end.

Definition reserveFree (i : IPAM) (owner : string) (usable : option (Z → bool))
    : IPAM * result IPAMError Z :=
  free_loop i owner usable (Z.to_nat (high_host i - low_host i)) (low_host i).

Definition Reserve (i : IPAM) (owner : string) (requested : option IP) : IPAM * result IPAMError Z :=
  match requested with
  | Some r =>
      match To4 r with
      | None => (i, Err NotUsable)
      | Some ip =>
          if negb (Contains (network i) ip) then (i, Err NotUsable)
          else if hostReserved i ip then (i, Err HostReserved)
          else match reserved i !! ip with
               | Some current => (i, Err (AddressInUse current))
               | None => (lease i ip owner, Ok ip)
               end
      end
  | None => reserveFree i owner None
  end.

Definition ReserveFree (i : IPAM) (owner : string) (usable : option (Z → bool)) :=
  reserveFree i owner usable.

Definition Release (i : IPAM) (ip : option IP) : IPAM :=
  match ip with
  | None => i
  | Some ip =>
      match To4 ip with
      | None => i
      | Some n =>
          if bool_decide (default "" (reserved i !! n) = "gateway") then i
          else MkIPAM (network i) (gateway i) (delete n (reserved i)) (first i) (last i)
      end
  end.

(** [FirstHostGateway]: the increment of the last octet wraps in its byte. *)
Definition FirstHostGateway (c : cidr) : option Z :=
  match c with
  | CIDR4 ip ones =>
      if 32 <=? ones then None
      else
        let base := masked ip ones in
        Some (base - base mod 256 + (base mod 256 + 1) mod 256)
  | _ => None
  end.

(** ** Derived MAC addresses *)

Definition lower (c : Ascii.ascii) : Ascii.ascii :=
  let n := Ascii.N_of_ascii c in
  if (65 <=? n)%N && (n <=? 90)%N then Ascii.ascii_of_N (n + 32) else c.
Definition ToLower (s : string) : string :=
  String.string_of_list_ascii (lower <$> String.list_ascii_of_string s).

(** FNV-1a, 32 bits ([hash/fnv]). *)
Definition fnv32a (bs : list Z) : Z :=
  foldl (λ h b, (Z.lxor h b * 16777619) mod 2 ^ 32) 2166136261 bs.

Definition hex_digit (d : Z) : Ascii.ascii :=
  Ascii.ascii_of_N (if d <? 10 then (48 + Z.to_N d)%N else (87 + Z.to_N d)%N).
Definition hex2 (b : Z) : string := String (hex_digit (b / 16)) (String (hex_digit (b mod 16)) "").

Definition DeriveMAC (oui id : string) : string :=
  let bytes := (λ c, Z.of_N (Ascii.N_of_ascii c)) <$> String.list_ascii_of_string (ToLower id) in
  let sum := fnv32a bytes in
  oui +:+ ":" +:+ hex2 (Z.shiftr sum 16 mod 256) +:+ ":" +:+ hex2 (Z.shiftr sum 8 mod 256)
      +:+ ":" +:+ hex2 (sum mod 256).

(** ** The public pools *)

Definition ip4 (a b c d : Z) : Z := ((a * 256 + b) * 256 + c) * 256 + d.

Definition pool_specs : list (string * cidr * IP) :=
  [("default", CIDR4 (ip4 8 35 210 0) 24, IPv4 (ip4 8 35 210 1));
   ("aws", CIDR4 (ip4 3 2 0 0) 24, IPv4 (ip4 3 2 0 1));
   ("gcp", CIDR4 (ip4 8 34 210 0) 24, IPv4 (ip4 8 34 210 1));
   ("azure", CIDR4 (ip4 13 82 0 0) 24, IPv4 (ip4 13 82 0 1))].

Definition mustPublicIPAMs : gmap string IPAM :=
  list_to_map (omap (λ s, match NewIPAM s.1.2 s.2 with Ok i => Some (s.1.1, i) | Err _ => None end) pool_specs).

Definition reservePublicIPv4 (pools : gmap string IPAM) (pool owner : string) (requested : option IP)
    : gmap string IPAM * result IPAMError Z :=
  match pools !! pool with
  | None => (pools, Err Panicked)
  | Some i => let r := Reserve i owner requested in (<[pool := r.1]> pools, r.2)
  end.

Definition ReleasePublicIPv4 (pools : gmap string IPAM) (ip : option IP) : gmap string IPAM :=
  (λ i, Release i ip) <$> pools.

Example derive_mac_example : DeriveMAC "02:0a:ec" "ENI-1" = DeriveMAC "02:0a:ec" "eni-1".
Proof. reflexivity. Qed.

(** ** The invariant *)

(** A subnet written with its network address, as [net.ParseCIDR] masks it. *)
Definition canonical (n : IPNet) : Prop :=
  0 ≤ net_Ones n ≤ 32 ∧ 0 ≤ net_IP n < 2 ^ 32 ∧ net_IP n mod 2 ^ (32 - net_Ones n) = 0.

Definition hosts (n : IPNet) : Z := 2 ^ (32 - net_Ones n).

Lemma canonical_bounds n :
  canonical n → 0 < hosts n ∧ net_IP n + hosts n ≤ 2 ^ 32 ∧ broadcastBig n = net_IP n + hosts n - 1.
Proof.
  intros (Ho & Hi & Hm). unfold hosts in *.
  assert (0 < 2 ^ (32 - net_Ones n)) as Hp by (apply Z.pow_pos_nonneg; lia).
  split; [done|]. split.
  - assert (2 ^ 32 = 2 ^ (32 - net_Ones n) * 2 ^ net_Ones n) as E.
    { rewrite <- Z.pow_add_r by lia. f_equal. lia. }
    set (p := 2 ^ (32 - net_Ones n)) in *. pose proof (Z.div_mod (net_IP n) p ltac:(lia)) as Hd.
    assert (net_IP n / p < 2 ^ net_Ones n) as Hq
      by (apply Z.div_lt_upper_bound; [lia|]; rewrite <- E; lia).
    rewrite E. nia.
  - unfold broadcastBig. rewrite Z.shiftl_1_l. lia.
Qed.

(** The addresses of the subnet are those that agree with it under the mask. *)
Lemma contains_range n ip :
  canonical n → 0 ≤ ip → Contains n ip = true ↔ net_IP n ≤ ip < net_IP n + hosts n.
Proof.
  intros Hc Hip. destruct (canonical_bounds n Hc) as (Hh & _ & _). destruct Hc as (_ & _ & Hm).
  unfold Contains, masked, hosts in *. set (p := 2 ^ (32 - net_Ones n)) in *. rewrite Z.eqb_eq, Hm.
  pose proof (Z.div_mod ip p ltac:(lia)). pose proof (Z.mod_pos_bound ip p Hh).
  pose proof (Z.div_mod (net_IP n) p ltac:(lia)) as Hd. rewrite Hm in Hd. split; [lia|].
  intros Hr. assert (ip / p = net_IP n / p) by nia. nia.
Qed.

Record wf (i : IPAM) : Prop := {
  w_net : canonical (network i);
  w_keep : 1 ≤ first i ∧ 1 ≤ last i;
  w_gw : 0 ≤ gateway i ∧ Contains (network i) (gateway i) = true ∧ reserved i !! gateway i = Some "gateway";
  w_leases ip o : reserved i !! ip = Some o → ip = gateway i ∨ low_host i ≤ ip < high_host i;
}.

(** A tenant address is inside the subnet and is neither its network nor its
    broadcast address. *)
Lemma tenant_range i ip :
  wf i → low_host i ≤ ip < high_host i →
  Contains (network i) ip = true ∧ net_IP (network i) < ip < broadcastBig (network i) ∧ 0 ≤ ip < 2 ^ 32.
Proof.
  intros [Hc Hk _ _] Hip. destruct (canonical_bounds _ Hc) as (Hh & Hb & Eb).
  pose proof Hc as (_ & Hi & _). unfold low_host, high_host in Hip. rewrite Eb in *.
  split; [apply contains_range; [done|lia|lia]|]. lia.
Qed.

Lemma wf_lease i ip owner :
  wf i → low_host i ≤ ip < high_host i → reserved i !! ip = None → wf (lease i ip owner).
Proof.
  intros [Hc Hk (H0 & Hg & Hr) Hl] Hip Hf. split; try done; simpl.
  - split; [done|]. split; [done|]. rewrite lookup_insert_ne; [done|]. congruence.
  - intros k o Hk'. apply lookup_insert_Some in Hk' as [[<- _]|[_ Hk']]; [by right|].
    by eapply Hl.
Qed.

(** *** Searching for a free address *)

Definition takes (usable : option (Z → bool)) (ip : Z) : bool :=
  match usable with None => true | Some f => f ip end.

Lemma free_loop_spec i owner usable fuel n :
  wf i → low_host i ≤ n → high_host i - n ≤ Z.of_nat fuel →
  let skipped := λ k, is_Some (reserved i !! k) ∨ takes usable k = false in
  match free_loop i owner usable fuel n with
  | (i', Ok ip) =>
      n ≤ ip < high_host i ∧ reserved i !! ip = None ∧ takes usable ip = true ∧
      i' = lease i ip owner ∧ ∀ k, n ≤ k < ip → skipped k
  | (i', Err e) => e = NoAvailableIP ∧ i' = i ∧ ∀ k, n ≤ k < high_host i → skipped k
  end.
Proof.
  intros Hw. revert n. induction fuel as [|fuel IH]; intros n Hn Hf; simpl.
  { split; [done|]. split; [done|]. intros. lia. }
  destruct (Z.ltb_spec n (high_host i)) as [Hlt|Hge]; [|split; [done|]; split; [done|]; intros; lia].
  destruct (tenant_range i n Hw ltac:(lia)) as (_ & _ & H32).
  unfold bigToIPv4. rewrite (proj2 (Z.ltb_lt _ _)) by lia.
  specialize (IH (n + 1) ltac:(lia) ltac:(lia)).
  assert (is_Some (reserved i !! n) ∨ takes usable n = false →
          match free_loop i owner usable fuel (n + 1) with
          | (i', Ok ip) =>
              n ≤ ip < high_host i ∧ reserved i !! ip = None ∧ takes usable ip = true ∧
              i' = lease i ip owner ∧ ∀ k, n ≤ k < ip → is_Some (reserved i !! k) ∨ takes usable k = false
          | (i', Err e) => e = NoAvailableIP ∧ i' = i ∧
              ∀ k, n ≤ k < high_host i → is_Some (reserved i !! k) ∨ takes usable k = false
          end) as Hskip.
  { intros Hs. destruct (free_loop i owner usable fuel (n + 1)) as [i' [ip|e]].
    - destruct IH as (? & ? & ? & ? & Hk). repeat (split; [done || lia|]).
      intros k Hk'. destruct (decide (k = n)) as [->|]; [done|]. apply Hk. lia.
    - destruct IH as (? & ? & Hk). split; [done|]. split; [done|]. intros k Hk'.
      destruct (decide (k = n)) as [->|]; [done|]. apply Hk. lia. }
  destruct (reserved i !! n) as [o|] eqn:En; [apply Hskip; eauto|].
  fold (takes usable n). destruct (takes usable n) eqn:Et; [|apply Hskip; auto].
  repeat (split; [done || lia|]). intros. lia.
Qed.

(** Automatic allocation returns the lowest tenant address that is free
    and acceptable, leases it to the caller and changes no other lease; it
    fails only with ErrNoAvailableIP, without changing anything, when every
    tenant address is leased or refused. The address lies inside the subnet
    and is neither its network nor its broadcast address. *)
Theorem reserve_free_takes_the_lowest (i : IPAM) (owner : string) (usable : option (Z → bool)) :
  wf i →
  let skipped := λ k, is_Some (reserved i !! k) ∨ takes usable k = false in
  match ReserveFree i owner usable with
  | (i', Ok ip) =>
      low_host i ≤ ip < high_host i ∧ Contains (network i) ip = true ∧
      net_IP (network i) < ip < broadcastBig (network i) ∧
      reserved i !! ip = None ∧ takes usable ip = true ∧
      reserved i' = <[ip := owner]> (reserved i) ∧ (∀ k, low_host i ≤ k < ip → skipped k)
  | (i', Err e) => e = NoAvailableIP ∧ i' = i ∧ ∀ k, low_host i ≤ k < high_host i → skipped k
  end.
Proof.
  intros Hw skipped. unfold ReserveFree, reserveFree.
  pose proof (free_loop_spec i owner usable (Z.to_nat (high_host i - low_host i)) (low_host i) Hw
                ltac:(lia) ltac:(lia)) as H.
  destruct (free_loop i owner usable _ (low_host i)) as [i' [ip|e]]; [|done].
  destruct H as (H1 & H2 & H3 & -> & H5). destruct (tenant_range i ip Hw H1) as (H6 & H7 & _).
  repeat (split; [done|]). done.
Qed.

(** *** Sequences of operations *)

Inductive ipam_op :=
| OpReserve (owner : string) (requested : option IP)
| OpReserveFree (owner : string) (usable : option (Z → bool))
| OpRelease (ip : option IP).

Definition run_op (i : IPAM) (op : ipam_op) : IPAM :=
  match op with
  | OpReserve owner requested => (Reserve i owner requested).1
  | OpReserveFree owner usable => (ReserveFree i owner usable).1
  | OpRelease ip => Release i ip
  end.

Lemma reserveFree_wf i owner usable : wf i → wf (reserveFree i owner usable).1.
Proof.
  intros Hw. unfold reserveFree.
  pose proof (free_loop_spec i owner usable (Z.to_nat (high_host i - low_host i)) (low_host i) Hw
                ltac:(lia) ltac:(lia)) as H.
  destruct (free_loop i owner usable _ (low_host i)) as [i' [ip|e]]; simpl.
  - destruct H as (H1 & H2 & _ & -> & _). by apply wf_lease.
  - by destruct H as (_ & -> & _).
Qed.

Lemma ipam_run_op_wf i op : wf i → wf (run_op i op).
Proof.
  intros Hw. destruct op as [owner [r|]|owner usable|[ip|]]; simpl;
    [| |by apply reserveFree_wf| |done]; [|by apply reserveFree_wf|].
  - destruct (To4 r) as [ip|]; [|done]. destruct (negb _); [done|].
    destruct (hostReserved i ip) eqn:Eh; [done|]. destruct (reserved i !! ip) eqn:Er; [done|].
    unfold hostReserved in Eh. bools. apply wf_lease; [done|lia|done].
  - destruct (To4 ip) as [n|]; [|done]. case_bool_decide as Hg; [done|].
    destruct Hw as [Hc Hk (H0 & Hgw & Hr) Hl]. split; try done; simpl.
    + split; [done|]. split; [done|]. rewrite lookup_delete_ne; [done|].
      intros ->. by rewrite Hr in Hg.
    + intros k o [_ Hk']%lookup_delete_Some. by eapply Hl.
Qed.

Lemma new_ipam_wf c gw keep i :
  cidr_ok c → NewIPAMWithReserved c gw keep = Ok i →
  (∃ ip ones, c = CIDR4 ip ones ∧ masked ip ones = ip) → (∀ n, To4 gw = Some n → 0 ≤ n) → wf i.
Proof.
  intros Hc Hn (ip & ones & -> & Hm) Hgw. unfold NewIPAMWithReserved in Hn.
  case_hyp Hn; [done|]. bools. simpl in Hn. destruct (To4 gw) as [g|] eqn:Eg; [|done].
  case_hyp Hn; [|done]. injection Hn as <-. simpl in Hc.
  split; simpl.
  - destruct Hc as [Hc1 Hc2]. split; [exact Hc2|]. split; [exact Hc1|]. simpl.
    unfold masked in Hm. generalize dependent (ip mod 2 ^ (32 - ones)). intros. lia.
  - lia.
  - split; [by apply Hgw|]. split; [done|]. apply lookup_singleton_eq.
  - intros k o Hk. apply lookup_singleton_Some in Hk as [-> _]. by left.
Qed.

(** [C13] Over any sequence of reservations and releases on a subnet written
    with its network address, every lease other than the gateway's is an
    address of the subnet outside the reserved ends, and the gateway stays
    reserved. *)
Theorem ipam_leases_stay_in_range (c : cidr) (gw : IP) (keep : HostReservation) (i0 : IPAM)
    (ops : list ipam_op) :
  cidr_ok c → (∃ ip ones, c = CIDR4 ip ones ∧ masked ip ones = ip) →
  (∀ n, To4 gw = Some n → 0 ≤ n) → NewIPAMWithReserved c gw keep = Ok i0 →
  let i := foldl run_op i0 ops in
  reserved i !! gateway i = Some "gateway" ∧ Contains (network i) (gateway i) = true ∧
  ∀ ip owner, reserved i !! ip = Some owner → ip ≠ gateway i →
    low_host i ≤ ip < high_host i ∧ Contains (network i) ip = true ∧
    net_IP (network i) < ip < broadcastBig (network i).
Proof.
  intros Hc Hm Hg Hn i. assert (wf i) as Hw.
  { unfold i. clear i. assert (wf i0) as H0 by (by eapply new_ipam_wf). clear Hn. revert i0 H0.
    induction ops as [|op ops IH]; intros i0 H0; simpl; [done|]. by apply IH, ipam_run_op_wf. }
  destruct (Hw) as [_ _ (_ & H1 & H2) Hl]. split; [done|]. split; [done|].
  intros ip owner Hr Hne. destruct (Hl ip owner Hr) as [?|Hin]; [done|].
  destruct (tenant_range i ip Hw Hin) as (? & ? & _). done.
Qed.

(** A /29 with the Amazon reservation: one address asked for by name, one
    taken automatically, one released. *)
Definition w_cidr : cidr := CIDR4 (ip4 10 0 0 8) 29.
Definition w_ipam : IPAM :=
  match NewIPAMWithReserved w_cidr (IPv4 (ip4 10 0 0 9)) (MkReservation 4 1) with
  | Ok i => i | Err _ => MkIPAM (MkIPNet 0 32) 0 ∅ 1 1 end.
Definition w_ops : list ipam_op :=
  [OpReserve "a" (Some (IPv4 (ip4 10 0 0 12))); OpReserveFree "b" None; OpRelease (Some (IPv4 (ip4 10 0 0 12)))].

Lemma w_gateway_nonneg : ∀ n, To4 (IPv4 (ip4 10 0 0 9)) = Some n → 0 ≤ n.
Proof. intros n [= <-]. vm_compute. discriminate. Qed.

Lemma w_cidr_masked : ∃ ip ones, w_cidr = CIDR4 ip ones ∧ masked ip ones = ip.
Proof. exists (ip4 10 0 0 8), 29. split; reflexivity. Qed.

Lemma w_cidr_ok : cidr_ok w_cidr.
Proof. vm_compute. repeat split; discriminate. Qed.

Lemma ipam_leases_stay_in_range_witness :
  map_to_list (reserved (foldl run_op w_ipam w_ops)) = [(ip4 10 0 0 13, "b"); (ip4 10 0 0 9, "gateway")] ∧
  reserved (foldl run_op w_ipam w_ops) !! gateway (foldl run_op w_ipam w_ops) = Some "gateway".
Proof.
  split; [vm_compute; reflexivity|].
  refine (proj1 (ipam_leases_stay_in_range w_cidr (IPv4 (ip4 10 0 0 9)) (MkReservation 4 1) w_ipam w_ops
    w_cidr_ok w_cidr_masked w_gateway_nonneg _)).
  reflexivity.
Defined.

Lemma reserve_free_takes_the_lowest_witness :
  (ReserveFree w_ipam "b" None).2 = Ok (ip4 10 0 0 12) ∧
  match ReserveFree w_ipam "b" None with
  | (i', Ok ip) => reserved i' = <[ip := "b"]> (reserved w_ipam)
  | (i', Err e) => e = NoAvailableIP
  end.
Proof.
  split; [vm_compute; reflexivity|].
  pose proof (reserve_free_takes_the_lowest w_ipam "b" None
    (new_ipam_wf w_cidr (IPv4 (ip4 10 0 0 9)) (MkReservation 4 1) w_ipam w_cidr_ok eq_refl
       w_cidr_masked w_gateway_nonneg)) as H.
  cbv zeta in H. destruct (ReserveFree w_ipam "b" None) as [i' [ip|e]]; destruct_and! H; assumption.
Defined.

(** Releasing a lease undoes its reservation: a requested address that
    was free, in the subnet and outside its reserved ends is leased, and
    releasing it gives back the leases there were. *)
Theorem release_undoes_reserve (i : IPAM) (owner : string) (ip : Z) :
  Contains (network i) ip = true → hostReserved i ip = false → reserved i !! ip = None →
  owner ≠ "gateway" →
  let r := Reserve i owner (Some (IPv4 ip)) in
  r.2 = Ok ip ∧ reserved r.1 = <[ip := owner]> (reserved i) ∧ Release r.1 (Some (IPv4 ip)) = i.
Proof.
  intros Hc Hh Hf Ho. unfold Reserve. simpl. rewrite Hc, Hh, Hf. simpl.
  split; [done|]. split; [done|]. rewrite lookup_insert_eq. simpl.
  rewrite bool_decide_eq_false_2 by done. rewrite delete_insert_id by done. by destruct i.
Qed.

Lemma release_undoes_reserve_witness :
  Release (Reserve w_ipam "a" (Some (IPv4 (ip4 10 0 0 12)))).1 (Some (IPv4 (ip4 10 0 0 12))) = w_ipam.
Proof.
  refine (proj2 (proj2 (release_undoes_reserve w_ipam "a" (ip4 10 0 0 12) _ _ _ _))).
  - reflexivity.
  - reflexivity.
  - reflexivity.
  - discriminate.
Defined.

(** *** The public pools *)

Inductive pool_op :=
| PoolReserve (pool owner : string) (requested : option IP)
| PoolRelease (ip : option IP).

Definition run_pool (pools : gmap string IPAM) (op : pool_op) : gmap string IPAM :=
  match op with
  | PoolReserve pool owner requested => (reservePublicIPv4 pools pool owner requested).1
  | PoolRelease ip => ReleasePublicIPv4 pools ip
  end.

(** The subnet each pool was made with. *)
Definition pool_net (pool : string) : option IPNet := network <$> mustPublicIPAMs !! pool.

Definition pools_ok (pools : gmap string IPAM) : Prop :=
  ∀ pool i, pools !! pool = Some i → wf i ∧ pool_net pool = Some (network i).

Lemma free_loop_network i owner usable fuel n :
  network (free_loop i owner usable fuel n).1 = network i.
Proof.
  revert n. induction fuel as [|fuel IH]; intros n; simpl; [done|].
  repeat case_match; try done; apply IH.
Qed.

Lemma run_op_network i op : network (run_op i op) = network i.
Proof.
  destruct op as [owner [r|]|owner usable|[ip|]]; simpl; try done; try apply free_loop_network.
  - unfold Reserve. repeat case_match; done.
  - repeat case_match; done.
Qed.

Lemma pool_specs_init pool i :
  mustPublicIPAMs !! pool = Some i →
  ∃ c gw, (pool, c, gw) ∈ pool_specs ∧ NewIPAM c gw = Ok i.
Proof.
  unfold mustPublicIPAMs. intros Hi%elem_of_list_to_map_2.
  apply list_elem_of_omap in Hi as ([[p c] gw] & Hin & Hi). simpl in Hi.
  destruct (NewIPAM c gw) as [j|] eqn:E; [|done]. injection Hi as <- <-. eauto.
Qed.

Lemma pool_specs_ok pool c gw :
  (pool, c, gw) ∈ pool_specs →
  cidr_ok c ∧ (∃ ip ones, c = CIDR4 ip ones ∧ masked ip ones = ip) ∧ ∀ n, To4 gw = Some n → 0 ≤ n.
Proof.
  unfold pool_specs. rewrite !elem_of_cons.
  intros [[= -> -> ->]|[[= -> -> ->]|[[= -> -> ->]|[[= -> -> ->]|H%not_elem_of_nil]]]];
    [..|done]; (split; [vm_compute; repeat split; discriminate|]);
    (split; [do 2 eexists; split; reflexivity|]); intros n [= <-]; vm_compute; discriminate.
Qed.

Lemma pools_init_ok : pools_ok mustPublicIPAMs.
Proof.
  intros pool i Hi. unfold pool_net. rewrite Hi. split; [|done].
  destruct (pool_specs_init pool i Hi) as (c & gw & Hin & Hn).
  destruct (pool_specs_ok pool c gw Hin) as (H1 & H2 & H3). by eapply new_ipam_wf.
Qed.

Lemma run_pool_ok pools op : pools_ok pools → pools_ok (run_pool pools op).
Proof.
  intros Hp pool i Hi. destruct op as [p owner requested|ip]; simpl in Hi.
  - unfold reservePublicIPv4 in Hi. destruct (pools !! p) as [j|] eqn:Ej; [|by apply Hp].
    simpl in Hi. apply lookup_insert_Some in Hi as [[<- <-]|[_ Hi]]; [|by apply Hp].
    destruct (Hp _ _ Ej) as [Hw Hn]. split; [apply (ipam_run_op_wf j (OpReserve owner requested) Hw)|].
    rewrite Hn. f_equal. symmetry. apply (run_op_network j (OpReserve owner requested)).
  - unfold ReleasePublicIPv4 in Hi. apply lookup_fmap_Some in Hi as (j & <- & Ej).
    destruct (Hp _ _ Ej) as [Hw Hn]. split; [apply (ipam_run_op_wf j (OpRelease ip) Hw)|].
    rewrite Hn. f_equal. symmetry. apply (run_op_network j (OpRelease ip)).
Qed.

(** The four subnets do not overlap. *)
Lemma pool_nets_disjoint p q n m ip :
  pool_net p = Some n → pool_net q = Some m → p ≠ q → 0 ≤ ip →
  Contains n ip = true → Contains m ip = true → False.
Proof.
  unfold pool_net. intros Hn Hm Hne H0 Hc1 Hc2.
  destruct (mustPublicIPAMs !! p) as [i|] eqn:Ei; [|done].
  destruct (mustPublicIPAMs !! q) as [j|] eqn:Ej; [|done]. simpl in *. injection Hn as <-. injection Hm as <-.
  destruct (pools_init_ok p i Ei) as [Hwi _]. destruct (pools_init_ok q j Ej) as [Hwj _].
  apply contains_range in Hc1; [|apply Hwi|done]. apply contains_range in Hc2; [|apply Hwj|done].
  destruct (pool_specs_init p i Ei) as (c & gw & Hin & Hi').
  destruct (pool_specs_init q j Ej) as (c' & gw' & Hin' & Hj').
  unfold pool_specs in Hin, Hin'. rewrite !elem_of_cons in Hin, Hin'.
  destruct Hin as [[= -> -> ->]|[[= -> -> ->]|[[= -> -> ->]|[[= -> -> ->]|H%not_elem_of_nil]]]]; [..|done];
  destruct Hin' as [[= -> -> ->]|[[= -> -> ->]|[[= -> -> ->]|[[= -> -> ->]|H%not_elem_of_nil]]]]; try done;
  vm_compute in Hi', Hj'; injection Hi' as <-; injection Hj' as <-; unfold hosts in *; simpl in *; lia.
Qed.

(** The public pools never share an address: over any sequence of
    reservations and releases no address is leased in two pools, so releasing
    an address from every pool frees at most one lease. *)
Theorem public_pools_share_no_address (ops : list pool_op) (p q : string) (i j : IPAM) (ip : Z) :
  let pools := foldl run_pool mustPublicIPAMs ops in
  pools !! p = Some i → pools !! q = Some j → p ≠ q →
  is_Some (reserved i !! ip) → reserved j !! ip = None.
Proof.
  intros pools Hi Hj Hne [o Ho].
  assert (pools_ok pools) as Hok.
  { unfold pools. clear. generalize pools_init_ok. generalize mustPublicIPAMs.
    induction ops as [|op ops IH]; intros m Hm; simpl; [done|]. by apply IH, run_pool_ok. }
  destruct (Hok p i Hi) as [Hwi Hni], (Hok q j Hj) as [Hwj Hnj].
  assert (∀ k o, wf k → reserved k !! ip = Some o → 0 ≤ ip ∧ Contains (network k) ip = true) as Hin.
  { intros k o' Hw Hr. destruct (w_leases _ Hw ip o' Hr) as [->|Hin].
    - by destruct (w_gw _ Hw) as (? & ? & _).
    - destruct (tenant_range k ip Hw Hin) as (? & _ & ?). split; [lia|done]. }
  destruct (reserved j !! ip) as [o'|] eqn:E; [exfalso|done].
  destruct (Hin i o Hwi Ho), (Hin j o' Hwj E).
  by eapply (pool_nets_disjoint p q _ _ ip Hni Hnj).
Qed.

Definition w_pool_ops : list pool_op := [PoolReserve "aws" "vm" None; PoolReserve "gcp" "vm" None].
Definition w_pool (p : string) : IPAM := default w_ipam (foldl run_pool mustPublicIPAMs w_pool_ops !! p).

Lemma public_pools_share_no_address_witness :
  reserved (w_pool "aws") !! ip4 3 2 0 2 = Some "vm" ∧ reserved (w_pool "gcp") !! ip4 3 2 0 2 = None.
Proof.
  split; [vm_compute; reflexivity|].
  refine (public_pools_share_no_address w_pool_ops "aws" "gcp" (w_pool "aws") (w_pool "gcp") (ip4 3 2 0 2) _ _ _ _).
  - vm_compute. reflexivity.
  - vm_compute. reflexivity.
  - discriminate.
  - vm_compute. by eexists.
Defined.

(** The gateway clouds put after a subnet's network address exists for
    every IPv4 CIDR shorter than /32, lies inside the subnet and is not the
    network address: the last octet never wraps. *)
Theorem first_host_gateway_inside (ip ones : Z) :
  0 ≤ ip < 2 ^ 32 → 0 ≤ ones < 32 →
  FirstHostGateway (CIDR4 ip ones) = Some (masked ip ones + 1) ∧
  Contains (MkIPNet ip ones) (masked ip ones + 1) = true.
Proof.
  intros Hip Ho. unfold FirstHostGateway. rewrite (proj2 (Z.leb_gt _ _)) by lia. cbv zeta.
  assert (2 ^ (32 - ones) = 2 * 2 ^ (31 - ones)) as E.
  { rewrite <- Z.pow_succ_r by lia. f_equal. lia. }
  assert (0 < 2 ^ (31 - ones)) as Hp by (apply Z.pow_pos_nonneg; lia).
  set (h := 2 ^ (31 - ones)) in *.
  pose proof (Z.div_mod ip (2 * h) ltac:(lia)) as Hd. pose proof (Z.mod_pos_bound ip (2 * h) ltac:(lia)).
  assert (masked ip ones = 2 * (h * (ip / (2 * h)))) as Em by (unfold masked; rewrite E; lia).
  split.
  - f_equal. set (b := masked ip ones) in *.
    pose proof (Z.mod_pos_bound b 256). pose proof (Z.div_mod b 256).
    assert (b mod 256 ≠ 255) by lia.
    rewrite (Z.mod_small (b mod 256 + 1)) by lia. lia.
  - unfold Contains. simpl. apply Z.eqb_eq. unfold masked at 1. rewrite E, Em.
    replace (2 * (h * (ip / (2 * h))) + 1) with (1 + (ip / (2 * h)) * (2 * h)) by lia.
    rewrite Z.mod_add, Z.mod_small by lia. lia.
Qed.

Lemma first_host_gateway_inside_witness :
  FirstHostGateway (CIDR4 (ip4 10 1 2 255) 16) = Some (masked (ip4 10 1 2 255) 16 + 1) ∧
  masked (ip4 10 1 2 255) 16 + 1 = ip4 10 1 0 1.
Proof.
  split; [|reflexivity].
  refine (proj1 (first_host_gateway_inside (ip4 10 1 2 255) 16 _ _)); (split; [vm_compute; discriminate|reflexivity]).
Defined.

(** A subnet written with host bits set is allocated from the address as
    written: 10.0.0.250/24 hands out 10.0.0.251 to 10.0.1.248, of which those
    past 10.0.0.255 lie outside the subnet. *)
Theorem unmasked_subnet_leases_outside :
  match NewIPAM (CIDR4 (ip4 10 0 0 250) 24) (IPv4 (ip4 10 0 0 1)) with
  | Ok i =>
      let r := ReserveFree i "vm" (Some (λ ip, ip4 10 0 0 255 <? ip)) in
      r.2 = Ok (ip4 10 0 1 0) ∧ Contains (network i) (ip4 10 0 1 0) = false
  | Err _ => False
  end.
Proof. vm_compute. split; reflexivity. Qed.
