(* ===== verification/Gostd.v ===== *)
(** * The parts of Go's standard library the components call

    Byte strings ([strings], [bytes]), decimal numbers ([strconv]) and base64
    ([encoding/base64]), each as an executable definition, with the lemmas the
    components use: what a decimal or a base64 text decodes to, where a cut
    falls, and that trimming leaves a trimmed text alone. *)

From S2P Require Import Prelude.
Abbreviation ascii := Ascii.ascii.

(** ** Bytes *)

Definition chars (s : string) : list ascii := String.list_ascii_of_string s.
Definition text (l : list ascii) : string := String.string_of_list_ascii l.
Definition byte_of (c : ascii) : Z := Z.of_N (Ascii.N_of_ascii c).
Definition char_of (b : Z) : ascii := Ascii.ascii_of_N (Z.to_N b).

Lemma text_chars s : text (chars s) = s.
Proof. apply String.string_of_list_ascii_of_string. Qed.

Lemma chars_text l : chars (text l) = l.
Proof. apply String.list_ascii_of_string_of_list_ascii. Qed.

Lemma chars_inj a b : chars a = chars b → a = b.
Proof. intros H. rewrite <- (text_chars a), H. apply text_chars. Qed.

Lemma chars_app a b : chars (a +:+ b) = chars a ++ chars b.
Proof. induction a as [|c a IH]; [done|]. rewrite append_cons_s. simpl. by rewrite <- IH. Qed.

Lemma byte_of_range c : 0 ≤ byte_of c < 256.
Proof. unfold byte_of. pose proof (Ascii.N_ascii_bounded c). lia. Qed.

Lemma char_of_byte c : char_of (byte_of c) = c.
Proof. unfold char_of, byte_of. rewrite N2Z.id. apply Ascii.ascii_N_embedding. Qed.

Lemma byte_of_char b : 0 ≤ b < 256 → byte_of (char_of b) = b.
Proof. intros Hb. unfold byte_of, char_of. rewrite Ascii.N_ascii_embedding; lia. Qed.

(** ** [strings]: prefixes, cuts and white space *)

(** [strings.CutPrefix] and [strings.TrimPrefix]. *)
Fixpoint CutPrefix (s p : string) : option string :=
  match p, s with
  | EmptyString, _ => Some s
  | String c p, String d s => if Ascii.eqb c d then CutPrefix s p else None
  | String _ _, EmptyString => None
  end.

Definition TrimPrefix (s p : string) : string := default s (CutPrefix s p).

(** [strings.Cut]: the text before and after the first [sep]; [strings.Index]
    is the length of the text before. *)
Fixpoint Cut (s sep : string) : option (string * string) :=
  match CutPrefix s sep with
  | Some rest => Some ("", rest)
  | None =>
      match s with
      | EmptyString => None
      | String c s' =>
          match Cut s' sep with Some (a, b) => Some (String c a, b) | None => None end
      end
  end.

Definition Index (s sep : string) : option nat := (String.length ∘ fst) <$> Cut s sep.
Definition ContainsStr (s sep : string) : bool := bool_decide (is_Some (Cut s sep)).

(** [strings.Split] at a separator that is not empty: each round consumes the
    separator, so the length bounds the rounds. *)
Fixpoint split_loop (fuel : nat) (s sep : string) : list string :=
  match fuel with
  | O => [s]
  | S fuel =>
      match Cut s sep with
      | Some (a, b) => a :: split_loop fuel b sep
      | None => [s]
      end
  end.

Definition Split (s sep : string) : list string := split_loop (String.length s) s sep.

(** The UTF-8 encodings of the runes [unicode.IsSpace] accepts. *)
Definition spaces : list (list ascii) :=
  map (map char_of)
    ([[9]; [10]; [11]; [12]; [13]; [32]; [194; 133]; [194; 160]; [225; 154; 128]]
     ++ map (λ k, [226; 128; 128 + k]) (seqZ 0 11)
     ++ [[226; 128; 168]; [226; 128; 169]; [226; 128; 175]; [226; 129; 159]; [227; 128; 128]]).

Fixpoint strip (p l : list ascii) : option (list ascii) :=
  match p, l with
  | [], _ => Some l
  | c :: p, d :: l => if Ascii.eqb c d then strip p l else None
  | _ :: _, [] => None
  end.

Definition strip_any (ps : list (list ascii)) (l : list ascii) : option (list ascii) :=
  foldr (λ p r, match strip p l with Some l' => Some l' | None => r end) None ps.

Fixpoint trim_left (fuel : nat) (ps : list (list ascii)) (l : list ascii) : list ascii :=
  match fuel with
  | O => l
  | S fuel => match strip_any ps l with Some l' => trim_left fuel ps l' | None => l end
  end.

(** [strings.TrimSpace]: a rune boundary can be found from either end of a
    UTF-8 text, so the right end is trimmed with the encodings reversed. *)
Definition trim (ps : list (list ascii)) (l : list ascii) : list ascii :=
  let l := trim_left (length l) ps l in
  rev (trim_left (length l) (map (@rev ascii) ps) (rev l)).

Definition TrimSpace (s : string) : string := text (trim spaces (chars s)).

(** [strings.Trim] with a cutset of one ASCII character. *)
Definition TrimChar (c : ascii) (s : string) : string := text (trim [[c]] (chars s)).

(** [strings.CutSuffix], [strings.HasSuffix] and [strings.TrimSuffix]; the text
    after the last of a byte, all of it where there is none; [strings.SplitN] at
    a separator that is not empty. *)
Definition CutSuffix (s p : string) : option string := (λ l, text (rev l)) <$> strip (rev (chars p)) (rev (chars s)).
Definition HasSuffix (s p : string) : bool := match CutSuffix s p with Some _ => true | None => false end.
Definition TrimSuffix (s p : string) : string := default s (CutSuffix s p).

Fixpoint until (c : ascii) (l : list ascii) : list ascii :=
  match l with [] => [] | d :: l => if Ascii.eqb d c then [] else d :: until c l end.
Definition AfterLast (s : string) (c : ascii) : string := text (rev (until c (rev (chars s)))).

Definition SplitN (s sep : string) (n : nat) : list string := split_loop (n - 1) s sep.

Lemma CutPrefix_append p r : CutPrefix (p +:+ r) p = Some r.
Proof.
  induction p as [|c p IH]; [by destruct r|]. rewrite append_cons_s. simpl. by rewrite Ascii.eqb_refl.
Qed.

Lemma CutPrefix_Some s p r : CutPrefix s p = Some r ↔ s = p +:+ r.
Proof.
  split; [|intros ->; apply CutPrefix_append].
  revert s. induction p as [|c p IH]; intros s H; [destruct s; by injection H as <-|].
  destruct s as [|d s]; [done|]. simpl in H. destruct (Ascii.eqb_spec c d) as [->|]; [|done].
  rewrite append_cons_s. by rewrite (IH s H).
Qed.

Lemma TrimPrefix_append p r : TrimPrefix (p +:+ r) p = r.
Proof. unfold TrimPrefix. by rewrite CutPrefix_append. Qed.

Lemma Cut_Some s d a b : Cut s d = Some (a, b) → s = a +:+ d +:+ b.
Proof.
  revert a b. induction s as [|c s IH]; intros a b H; cbn [Cut] in H.
  - destruct (CutPrefix "" d) eqn:E; [|done]. injection H as <- <-. by apply CutPrefix_Some in E.
  - destruct (CutPrefix (String c s) d) eqn:E.
    + injection H as <- <-. by apply CutPrefix_Some in E.
    + destruct (Cut s d) as [[a' b']|]; [|done]. injection H as <- <-.
      rewrite append_cons_s. by rewrite (IH a' b').
Qed.

(** Whether a text begins with [d] depends on as many bytes as [d] has. *)
Lemma CutPrefix_None_app d x r r' :
  (String.length d ≤ String.length x)%nat → CutPrefix (x +:+ r) d = None → CutPrefix (x +:+ r') d = None.
Proof.
  revert x. induction d as [|c d IH]; intros [|y x] Hl H; simpl in Hl; try lia; [by destruct r|done|].
  rewrite append_cons_s in *. simpl in *. destruct (Ascii.eqb c y); [|done]. apply IH; [lia|done].
Qed.

Lemma Cut_begin d r : Cut (d +:+ r) d = Some ("", r).
Proof. destruct (d +:+ r) eqn:E; cbn [Cut]; by rewrite <- ?E, CutPrefix_append. Qed.

(** The first separator stays the first whatever follows it. *)
Lemma Cut_stable s d a b b' : Cut s d = Some (a, b) → Cut (a +:+ d +:+ b') d = Some (a, b').
Proof.
  revert a b. induction s as [|c s IH]; intros a b H; cbn [Cut] in H.
  - destruct (CutPrefix "" d) eqn:E; [|done]. injection H as <- <-. exact (Cut_begin d b').
  - destruct (CutPrefix (String c s) d) eqn:E.
    + injection H as <- <-. exact (Cut_begin d b').
    + destruct (Cut s d) as [[a' b1]|] eqn:Ec; [|done]. injection H as <- <-.
      pose proof (Cut_Some _ _ _ _ Ec) as ->. rewrite append_cons_s. cbn [Cut].
      assert (CutPrefix (String c (a' +:+ d) +:+ b') d = None) as E'.
      { apply (CutPrefix_None_app d _ b1 b').
        - simpl. rewrite length_append_s. lia.
        - by rewrite append_cons_s, append_assoc_s. }
      rewrite append_cons_s, append_assoc_s in E'. rewrite E'. by rewrite (IH a' b1 eq_refl).
Qed.

Lemma substring_app a b : String.substring 0 (String.length a) (a +:+ b) = a.
Proof. induction a as [|c a IH]; [by destruct b|]. rewrite append_cons_s. simpl. by rewrite IH. Qed.

Lemma Cut_char c a r : c ∉ chars a → Cut (a +:+ String c "" +:+ r) (String c "") = Some (a, r).
Proof.
  induction a as [|d a IH]; intros Ha; [exact (Cut_begin (String c "") r)|].
  rewrite append_cons_s. simpl in Ha. apply not_elem_of_cons in Ha as [Hc Ha].
  cbn [Cut CutPrefix]. destruct (Ascii.eqb_spec c d); [done|]. by rewrite IH.
Qed.

Lemma Cut_char_none c s : c ∉ chars s → Cut s (String c "") = None.
Proof.
  induction s as [|d s IH]; intros Hs; [done|]. simpl in Hs. apply not_elem_of_cons in Hs as [Hc Hs].
  cbn [Cut CutPrefix]. destruct (Ascii.eqb_spec c d); [done|]. by rewrite IH.
Qed.

(** Trimming takes nothing from a text whose first and last bytes no trimmed
    sequence begins or ends with. *)
Definition edges (ps : list (list ascii)) (c : ascii) : Prop := Forall (λ p, p ≠ [] ∧ head p ≠ Some c) ps.

Lemma strip_any_edge ps l : (∀ c, head l = Some c → edges ps c) → Forall (λ p, p ≠ []) ps → strip_any ps l = None.
Proof.
  intros He Hne. induction ps as [|p ps IH]; [done|]. simpl. apply Forall_cons in Hne as [Hp Hne].
  destruct p as [|d p]; [done|]. destruct l as [|c l]; simpl.
  - apply IH; [done|done].
  - destruct (Ascii.eqb_spec d c) as [->|Hdc].
    + specialize (He c eq_refl). apply Forall_cons in He as [[_ He] _]. done.
    + apply IH; [|done]. intros c' [= <-]. specialize (He c eq_refl). by apply Forall_cons in He as [_ He].
Qed.

Lemma trim_id ps l :
  Forall (λ p, p ≠ []) ps → Forall (λ p, p ≠ []) (map (@rev ascii) ps) →
  (∀ c, c ∈ l → edges ps c ∧ edges (map (@rev ascii) ps) c) → trim ps l = l.
Proof.
  intros Hne Hne' He. unfold trim.
  assert (∀ n qs k, (∀ c, c ∈ k → edges qs c) → Forall (λ p, p ≠ []) qs → trim_left n qs k = k) as Ht.
  { intros [|n] qs k Hk Hq; [done|]. simpl. rewrite strip_any_edge; [done| |done].
    intros c Hc. apply Hk. destruct k; [done|]. injection Hc as ->. left. }
  rewrite (Ht _ ps) by (done || (intros c Hc; by apply He)).
  rewrite Ht by (done || (intros c Hc; apply He; by rewrite Permutation_rev)). apply rev_involutive.
Qed.

(** Graphic ASCII characters are no part of a space. *)
Definition graphic (c : ascii) : Prop := 33 ≤ byte_of c ≤ 126.

Lemma edges_check ps :
  forallb (λ p, match p with [] => false | c :: _ => negb ((33 <=? byte_of c) && (byte_of c <=? 126)) end) ps = true →
  Forall (λ p, p ≠ []) ps ∧ ∀ c, graphic c → edges ps c.
Proof.
  intros H. rewrite forallb_forall in H. split.
  - apply Forall_forall. intros p Hp ->. apply list_elem_of_In in Hp. by specialize (H _ Hp).
  - intros c [H1 H2]. apply Forall_forall. intros p Hp. apply list_elem_of_In in Hp. specialize (H p Hp).
    destruct p as [|d p]; [done|]. split; [done|]. intros [= ->]. bools. destruct H; bools; lia.
Qed.

Lemma TrimSpace_graphic s : Forall graphic (chars s) → TrimSpace s = s.
Proof.
  intros Hs. unfold TrimSpace. rewrite Forall_forall in Hs.
  destruct (edges_check spaces) as [N1 E1]; [by vm_compute|].
  destruct (edges_check (map (@rev ascii) spaces)) as [N2 E2]; [by vm_compute|].
  rewrite trim_id, text_chars; auto.
Qed.

(** ** [strconv] *)

Definition digit_val (c : ascii) : option Z :=
  let b := byte_of c in if (48 <=? b) && (b <=? 57) then Some (b - 48) else None.

Fixpoint parse_digits (s : string) (acc : Z) : option Z :=
  match s with
  | EmptyString => Some acc
  | String c s => match digit_val c with Some d => parse_digits s (acc * 10 + d) | None => None end
  end.

Definition plus : ascii := char_of 43.
Definition minus : ascii := char_of 45.

(** [strconv.ParseInt(s, 10, 64)] and [strconv.Atoi]: a sign, then at least one
    digit, within the range of [int64]. *)
Definition ParseInt (s : string) : option Z :=
  let (neg, ds) :=
    match s with
    | String c r => if Ascii.eqb c minus then (true, r) else if Ascii.eqb c plus then (false, r) else (false, s)
    | EmptyString => (false, s)
    end in
  if bool_decide (ds = EmptyString) then None
  else match parse_digits ds 0 with
       | Some n => let n := if neg : bool then - n else n in
                   if (- 2 ^ 63 <=? n) && (n <? 2 ^ 63) then Some n else None
       | None => None
       end.

Definition Atoi := ParseInt.

(** [strconv.Itoa]: an [int64] has at most nineteen digits. *)
Fixpoint dec_loop (fuel : nat) (n : Z) (acc : string) : string :=
  match fuel with
  | O => acc
  | S fuel =>
      let acc := String (digit (n mod 10)) acc in
      if n / 10 =? 0 then acc else dec_loop fuel (n / 10) acc
  end.

Definition Itoa (n : Z) : string :=
  if n <? 0 then String minus (dec_loop 19 (- n) "") else dec_loop 19 n "".

Lemma digit_val_digit d : 0 ≤ d < 10 → digit_val (digit d) = Some d.
Proof.
  intros. unfold digit_val, byte_of. rewrite N_of_digit by done.
  rewrite (proj2 (Z.leb_le _ _)), (proj2 (Z.leb_le _ _)) by lia. simpl. f_equal. lia.
Qed.

Lemma parse_dec_loop fuel n acc :
  0 ≤ n < 10 ^ Z.of_nat (S fuel) → parse_digits (dec_loop (S fuel) n acc) 0 = parse_digits acc n.
Proof.
  revert n acc. induction fuel as [|fuel IH]; intros n acc Hn.
  - change (10 ^ _) with 10 in Hn. cbn [dec_loop].
    replace (n / 10) with 0 by (symmetry; apply Z.div_small; lia). simpl.
    rewrite digit_val_digit, Z.mod_small by (apply Z.mod_pos_bound || lia; lia). f_equal.
  - cbn [dec_loop]. pose proof (Z.mod_pos_bound n 10 ltac:(lia)).
    destruct (Z.eqb_spec (n / 10) 0) as [E|E].
    + simpl. rewrite digit_val_digit by done. f_equal. pose proof (Z.div_mod n 10). lia.
    + cbn [dec_loop] in IH. rewrite (IH (n / 10)).
      * simpl. rewrite digit_val_digit by done. f_equal. pose proof (Z.div_mod n 10). lia.
      * replace (Z.of_nat (S (S fuel))) with (Z.of_nat (S fuel) + 1) in Hn by lia.
        rewrite Z.pow_add_r in Hn by lia.
        split; [apply Z.div_pos; lia|apply Z.div_lt_upper_bound; lia].
Qed.

(** A minus sign and a digit are different characters. *)
Lemma dec_loop_head fuel n acc :
  0 ≤ n → ∃ d r, 0 ≤ d < 10 ∧ dec_loop (S fuel) n acc = String (digit d) r.
Proof.
  revert n acc. induction fuel as [|fuel IH]; intros n acc Hn; cbn [dec_loop];
    pose proof (Z.mod_pos_bound n 10 ltac:(lia)); destruct (n / 10 =? 0); eauto.
  cbn [dec_loop] in IH. apply IH, Z.div_pos; lia.
Qed.

Lemma digit_not_sign d : 0 ≤ d < 10 → Ascii.eqb (digit d) minus = false ∧ Ascii.eqb (digit d) plus = false.
Proof.
  intros Hd. rewrite !Ascii.eqb_neq. split; intros E;
    apply (f_equal Ascii.N_of_ascii) in E; rewrite N_of_digit in E by done;
    vm_compute (Ascii.N_of_ascii _) in E; lia.
Qed.

(** A decimal parses back to the number it spells. *)
Lemma ParseInt_Itoa n : in_i64 n → ParseInt (Itoa n) = Some n.
Proof.
  intros Hn. assert (∀ z, in_i64 z → (- 2 ^ 63 <=? z) && (z <? 2 ^ 63) = true) as Hb.
  { intros z [??]. apply andb_true_iff. split; [by apply Z.leb_le|by apply Z.ltb_lt]. }
  unfold in_i64 in Hn. unfold ParseInt, Itoa. destruct (Z.ltb_spec n 0).
  - rewrite Ascii.eqb_refl. destruct (dec_loop_head 18 (- n) "") as (d & r & _ & E); [lia|].
    rewrite E. rewrite bool_decide_eq_false_2 by done. rewrite <- E.
    rewrite parse_dec_loop by (change (10 ^ _) with 10000000000000000000; lia). simpl.
    rewrite Z.opp_involutive. by rewrite Hb.
  - destruct (dec_loop_head 18 n "") as (d & r & Hd & E); [lia|]. rewrite E.
    destruct (digit_not_sign d Hd) as [-> ->]. rewrite bool_decide_eq_false_2 by done. rewrite <- E.
    rewrite parse_dec_loop by (change (10 ^ _) with 10000000000000000000; lia). simpl. by rewrite Hb.
Qed.

(** The characters of a decimal without a sign are digits. *)
Definition is_digit (c : ascii) : Prop := 48 ≤ byte_of c ≤ 57.

Lemma is_digit_digit d : 0 ≤ d < 10 → is_digit (digit d).
Proof. intros. unfold is_digit, byte_of. rewrite N_of_digit by done. lia. Qed.

Lemma dec_loop_digits fuel n acc :
  Forall is_digit (chars acc) → Forall is_digit (chars (dec_loop fuel n acc)).
Proof.
  revert n acc. induction fuel as [|fuel IH]; intros n acc Ha; cbn [dec_loop]; [done|].
  assert (Forall is_digit (chars (String (digit (n mod 10)) acc))) as Ha'.
  { constructor; [|done]. apply is_digit_digit, Z.mod_pos_bound. lia. }
  destruct (n / 10 =? 0); auto.
Qed.

Lemma Itoa_digits n : 0 ≤ n → Forall is_digit (chars (Itoa n)).
Proof.
  intros Hn. unfold Itoa. rewrite (proj2 (Z.ltb_ge n 0)) by done. apply dec_loop_digits. constructor.
Qed.

Lemma digits_graphic s : Forall is_digit (chars s) → Forall graphic (chars s).
Proof. intros H. eapply Forall_impl; [exact H|]. unfold is_digit, graphic. lia. Qed.

Lemma not_digit c s : ¬ is_digit c → Forall is_digit (chars s) → c ∉ chars s.
Proof. intros Hc Hs Hin. rewrite Forall_forall in Hs. by apply Hc, Hs. Qed.

Lemma pad_digits k n : 0 ≤ n < 10 ^ Z.of_nat k → Forall is_digit (chars (pad k n)).
Proof.
  revert n. induction k as [|k IH]; intros n Hn; [constructor|]. cbn [pad].
  assert (0 < 10 ^ Z.of_nat k) by (apply Z.pow_pos_nonneg; lia).
  constructor; [apply is_digit_digit; by apply digit_bound|]. apply IH, Z.mod_pos_bound. done.
Qed.

Lemma pad20_digits n : in_u64 n → Forall is_digit (chars (pad20 n)).
Proof.
  unfold in_u64, pad20. intros. rewrite (proj2 (Z.ltb_ge n 0)) by lia. apply pad_digits.
  change (10 ^ Z.of_nat 20) with 100000000000000000000. lia.
Qed.

Lemma Itoa_nonempty n : Itoa n ≠ "".
Proof.
  unfold Itoa. destruct (Z.ltb_spec n 0); [done|].
  destruct (dec_loop_head 18 n "") as (d & r & _ & ->); [lia|done].
Qed.

(** ** [encoding/base64] *)

Definition alphabet64 (c62 c63 : Z) (v : Z) : ascii :=
  char_of (if v <? 26 then 65 + v else if v <? 52 then 97 + (v - 26) else if v <? 62 then 48 + (v - 52)
           else if v =? 62 then c62 else c63).

Definition value64 (c62 c63 : Z) (c : ascii) : option Z :=
  let b := byte_of c in
  if (65 <=? b) && (b <=? 90) then Some (b - 65)
  else if (97 <=? b) && (b <=? 122) then Some (b - 97 + 26)
  else if (48 <=? b) && (b <=? 57) then Some (b - 48 + 52)
  else if b =? c62 then Some 62 else if b =? c63 then Some 63 else None.

Record Encoding := MkEncoding { enc_62 : Z; enc_63 : Z; enc_padded : bool }.
Definition StdEncoding : Encoding := MkEncoding 43 47 true.
Definition RawURLEncoding : Encoding := MkEncoding 45 95 false.

Definition equals : ascii := char_of 61.

Fixpoint encode64 (e : Encoding) (bs : list Z) : list ascii :=
  let chr := alphabet64 (enc_62 e) (enc_63 e) in
  let padding k := if enc_padded e then repeat equals k else [] in
  match bs with
  | [] => []
  | [a] => chr (a / 4) :: chr (a mod 4 * 16) :: padding 2%nat
  | [a; b] => chr (a / 4) :: chr (a mod 4 * 16 + b / 16) :: chr (b mod 16 * 4) :: padding 1%nat
  | a :: b :: c :: r =>
      chr (a / 4) :: chr (a mod 4 * 16 + b / 16) :: chr (b mod 16 * 4 + c / 64) :: chr (c mod 64)
      :: encode64 e r
  end.

Definition is_newline (c : ascii) : bool := Ascii.eqb c (char_of 10) || Ascii.eqb c (char_of 13).

Fixpoint quanta64 (e : Encoding) (l : list ascii) : option (list Z) :=
  let val := value64 (enc_62 e) (enc_63 e) in
  match l with
  | [] => Some []
  | [_] => None
  | [a; b] =>
      if enc_padded e then None
      else match val a, val b with
           | Some x, Some y => Some [x * 4 + y / 16]
           | _, _ => None
           end
  | [a; b; c] =>
      if enc_padded e then None
      else match val a, val b, val c with
           | Some x, Some y, Some z => Some [x * 4 + y / 16; y mod 16 * 16 + z / 4]
           | _, _, _ => None
           end
  | a :: b :: c :: d :: r =>
      match val a, val b with
      | Some x, Some y =>
          match val c, val d with
          | Some z, Some w =>
              match quanta64 e r with
              | Some bs => Some (x * 4 + y / 16 :: y mod 16 * 16 + z / 4 :: z mod 4 * 64 + w :: bs)
              | None => None
              end
          | Some z, None =>
              if enc_padded e && Ascii.eqb d equals && bool_decide (r = [])
              then Some [x * 4 + y / 16; y mod 16 * 16 + z / 4] else None
          | None, _ =>
              if enc_padded e && Ascii.eqb c equals && Ascii.eqb d equals && bool_decide (r = [])
              then Some [x * 4 + y / 16] else None
          end
      | _, _ => None
      end
  end.

(** [Encoding.EncodeToString] and [Encoding.DecodeString], which skips
    newlines anywhere. *)
Definition EncodeToString (e : Encoding) (s : string) : string :=
  text (encode64 e (byte_of <$> chars s)).

Definition DecodeString (e : Encoding) (s : string) : option string :=
  (λ bs, text (char_of <$> bs)) <$> quanta64 e (filter (λ c, is_newline c = false) (chars s)).

(** Laws of an alphabet; both encodings have them, checked letter by letter. *)
Definition alphabet_ok (e : Encoding) : Prop :=
  ∀ v, 0 ≤ v < 64 →
    value64 (enc_62 e) (enc_63 e) (alphabet64 (enc_62 e) (enc_63 e) v) = Some v ∧
    is_newline (alphabet64 (enc_62 e) (enc_63 e) v) = false.

Lemma alphabet_check e :
  forallb (λ v, bool_decide (value64 (enc_62 e) (enc_63 e) (alphabet64 (enc_62 e) (enc_63 e) v) = Some v)
                && negb (is_newline (alphabet64 (enc_62 e) (enc_63 e) v))) (seqZ 0 64) = true →
  alphabet_ok e.
Proof.
  rewrite forallb_forall. intros H v Hv. specialize (H v).
  rewrite <- list_elem_of_In, elem_of_seqZ in H. specialize (H ltac:(lia)). by bools.
Qed.

Lemma StdEncoding_ok : alphabet_ok StdEncoding.
Proof. apply alphabet_check. by vm_compute. Qed.

Lemma RawURLEncoding_ok : alphabet_ok RawURLEncoding.
Proof. apply alphabet_check. by vm_compute. Qed.

Lemma value64_equals e : alphabet_ok e → enc_62 e ≠ 61 → enc_63 e ≠ 61 →
  value64 (enc_62 e) (enc_63 e) equals = None.
Proof.
  intros _ ??. unfold value64. change (byte_of equals) with 61.
  by rewrite (proj2 (Z.eqb_neq 61 (enc_62 e))), (proj2 (Z.eqb_neq 61 (enc_63 e))) by congruence.
Qed.

(** Lists taken three at a time, as an encoder takes them. *)
Lemma list_ind3 {A} (P : list A → Prop) :
  P [] → (∀ a, P [a]) → (∀ a b, P [a; b]) → (∀ a b c l, P l → P (a :: b :: c :: l)) → ∀ l, P l.
Proof.
  intros H0 H1 H2 H3. assert (∀ n l, (length l ≤ n)%nat → P l) as H; [|intros l; by apply (H (length l))].
  induction n as [|n IH]; intros [|a [|b [|c l]]] Hl; simpl in Hl; auto with lia.
Qed.

Section base64.
Context (e : Encoding) (He : alphabet_ok e) (H62 : enc_62 e ≠ 61) (H63 : enc_63 e ≠ 61).

(** What holds of the letters and of the padding holds of the text. *)
Lemma encode64_letters (P : ascii → Prop) bs :
  (∀ v, 0 ≤ v < 64 → P (alphabet64 (enc_62 e) (enc_63 e) v)) → P equals →
  Forall (λ b, 0 ≤ b < 256) bs → Forall P (encode64 e bs).
Proof.
  intros HP Hq. induction bs as [|a|a b|a b c bs IH] using list_ind3; intros Hb; cbn [encode64].
  - constructor.
  - apply Forall_cons in Hb as [Ha _]. do 2 (constructor; [apply HP; dlia|]).
    destruct (enc_padded e); simpl; auto.
  - apply Forall_cons in Hb as [Ha [Hb _]%Forall_cons]. do 3 (constructor; [apply HP; dlia|]).
    destruct (enc_padded e); simpl; auto.
  - apply Forall_cons in Hb as [Ha [Hb [Hc Hr]%Forall_cons]%Forall_cons].
    do 4 (constructor; [apply HP; dlia|]). auto.
Qed.

Lemma encode64_plain bs :
  Forall (λ b, 0 ≤ b < 256) bs → Forall (λ c, is_newline c = false) (encode64 e bs).
Proof. apply encode64_letters; [|done]. intros v Hv. by apply He. Qed.

Lemma quanta64_encode64 bs :
  Forall (λ b, 0 ≤ b < 256) bs → quanta64 e (encode64 e bs) = Some bs.
Proof.
  pose proof (value64_equals e He H62 H63) as Heq.
  induction bs as [|a|a b|a b c bs IH] using list_ind3; intros Hb; cbn [encode64].
  - done.
  - apply Forall_cons in Hb as [Ha _].
    destruct (He (a / 4) ltac:(dlia)) as [V1 _]. destruct (He (a mod 4 * 16) ltac:(dlia)) as [V2 _].
    destruct (enc_padded e) eqn:E; simpl; rewrite ?E, ?V1, ?V2, ?Heq; simpl; do 2 f_equal; dlia.
  - apply Forall_cons in Hb as [Ha [Hb _]%Forall_cons].
    destruct (He (a / 4) ltac:(dlia)) as [V1 _]. destruct (He (a mod 4 * 16 + b / 16) ltac:(dlia)) as [V2 _].
    destruct (He (b mod 16 * 4) ltac:(dlia)) as [V3 _].
    destruct (enc_padded e) eqn:E; simpl; rewrite ?E, ?V1, ?V2, ?V3, ?Heq; simpl; do 2 f_equal; [dlia| |dlia|];
      f_equal; dlia.
  - apply Forall_cons in Hb as [Ha [Hb [Hc Hr]%Forall_cons]%Forall_cons].
    destruct (He (a / 4) ltac:(dlia)) as [V1 _]. destruct (He (a mod 4 * 16 + b / 16) ltac:(dlia)) as [V2 _].
    destruct (He (b mod 16 * 4 + c / 64) ltac:(dlia)) as [V3 _]. destruct (He (c mod 64) ltac:(dlia)) as [V4 _].
    cbn [quanta64]. rewrite V1, V2, V3, V4, IH by done. do 2 f_equal; [dlia|]. f_equal; [dlia|]. f_equal. dlia.
Qed.

Lemma char_of_bytes (l : list ascii) : char_of <$> (byte_of <$> l) = l.
Proof. rewrite <- list_fmap_compose. rewrite <- (list_fmap_id l) at 2. apply list_fmap_ext. intros. apply char_of_byte. Qed.

Lemma bytes_range (l : list ascii) : Forall (λ b, 0 ≤ b < 256) (byte_of <$> l).
Proof. apply Forall_fmap, Forall_true. intros. apply byte_of_range. Qed.

(** A base64 text decodes to the bytes it encodes. *)
Lemma Decode_Encode s : DecodeString e (EncodeToString e s) = Some s.
Proof.
  unfold DecodeString, EncodeToString. rewrite chars_text.
  rewrite filter_all by (apply encode64_plain, bytes_range).
  rewrite quanta64_encode64 by apply bytes_range. simpl.
  by rewrite char_of_bytes, text_chars.
Qed.

Lemma Encode_nonempty s : s ≠ "" → EncodeToString e s ≠ "".
Proof. destruct s as [|a [|b [|c s]]]; [done|..]; intros _; unfold EncodeToString; done. Qed.
End base64.

Definition Decode_Encode_Std s : DecodeString StdEncoding (EncodeToString StdEncoding s) = Some s :=
  Decode_Encode StdEncoding StdEncoding_ok ltac:(done) ltac:(done) s.
Definition Decode_Encode_RawURL s : DecodeString RawURLEncoding (EncodeToString RawURLEncoding s) = Some s :=
  Decode_Encode RawURLEncoding RawURLEncoding_ok ltac:(done) ltac:(done) s.
