(* ===== verification/Listq.v ===== *)
(** * List pagination: [src/sim/listq/page.go]

    Offset pages ([Window], [TokenPage]) with both token spellings, and key
    cursor pages ([ColumnPage], [KeyPage]) whose token carries the sort values
    of the last item returned. [json.Unmarshal] of a token's body is a
    parameter of the cursor pages; everything else is executable. *)

From S2P Require Import Prelude Gostd.

(** ** Offset pages *)

Record Tokens := MkTokens {
  Encode : Z → string;
  Decode : string → option Z;
  Strict : bool
}.

Definition Strictly (t : Tokens) : Tokens := MkTokens (Encode t) (Decode t) true.

Definition Decimal : Tokens := MkTokens Itoa Atoi false.

Definition Base64Decimal : Tokens := MkTokens
  (λ offset, EncodeToString StdEncoding (Itoa offset))
  (λ token, match DecodeString StdEncoding token with Some raw => Atoi raw | None => None end)
  false.

Inductive PageError := ErrBadToken | Panic.

(** The page size that size, def and max come to; zero or less is no bound. *)
Definition page_limit (size def max : Z) : Z :=
  let limit := if size <=? 0 then def else size in
  if (0 <? max) && ((limit <=? 0) || (max <? limit)) then max else limit.

Definition Window (t : Tokens) (total : Z) (token : string) (size def max : Z)
  : result PageError (Z * Z * string) :=
  let? start :=
    if bool_decide (token = "") then Ok 0
    else match Decode t token with
         | None => Err ErrBadToken
         | Some n => if (n <? 0) || (Strict t && (total <? n)) then Err ErrBadToken else Ok (Z.min n total)
         end in
  let limit := page_limit size def max in
  if (0 <? limit) && (i64 (start + limit) <? total)
  then Ok (start, i64 (start + limit), Encode t (i64 (start + limit)))
  else Ok (start, total, "").

(** The slice expression [l[i:j]]: bounds out of order or out of range panic. *)
Definition slice {A} (l : list A) (i j : Z) : option (list A) :=
  if (0 <=? i) && (i <=? j) && (j <=? Z.of_nat (length l))
  then Some (take (Z.to_nat (j - i)) (drop (Z.to_nat i) l)) else None.

Definition TokenPage {T} (t : Tokens) (items : list T) (token : string) (size def max : Z)
  : result PageError (list T * string) :=
  let? r := Window t (Z.of_nat (length items)) token size def max in
  match slice items r.1.1 r.1.2 with
  | Some page => Ok (page, r.2)
  | None => Err Panic
  end.

Definition OffsetPage {T} := @TokenPage T Decimal.

(** ** Key cursor pages *)

Record Column := MkColumn {
  Value : nat → string;
  Compare : option (string → string → Z);
  Desc : bool
}.

Definition strings_Compare (a b : string) : Z :=
  match String.compare a b with Lt => -1 | Eq => 0 | Gt => 1 end.

Definition column_compare (c : Column) (a b : string) : Z :=
  let order := match Compare c with Some f => f a b | None => strings_Compare a b end in
  if Desc c then i64 (- order) else order.

Fixpoint compare_rows (columns : list Column) (a b : list string) : Z :=
  match columns, a, b with
  | c :: columns, x :: a, y :: b =>
      let order := column_compare c x y in
      if order =? 0 then compare_rows columns a b else order
  | _, _, _ => 0
  end.

Definition quote : string := String (char_of 34) "".

(** [json.Marshal] of a list of byte slices: an array of base64 strings. *)
Definition marshal (values : list string) : string :=
  "[" +:+ String.concat "," (map (λ v, quote +:+ EncodeToString StdEncoding v +:+ quote) values) +:+ "]".

Definition columnTokenTag : string := "after" +:+ NUL.

Definition column_token (values : list string) : string :=
  EncodeToString RawURLEncoding (columnTokenTag +:+ marshal values).

Section ColumnPage.
Context (Unmarshal : string → option (list string)).

Definition columnMarker (token : string) (terms : nat) : option (list string) :=
  match DecodeString RawURLEncoding token with
  | None => None
  | Some decoded =>
      match CutPrefix decoded columnTokenTag with
      | None => None
      | Some body =>
          match Unmarshal body with
          | Some values => if bool_decide (length values = terms) then Some values else None
          | None => None
          end
      end
  end.

Definition row_of (columns : list Column) (i : nat) : list string := map (λ c, Value c i) columns.

Definition sorted_index (columns : list Column) (n : nat) : list nat :=
  SliceStable (λ i j, compare_rows columns (row_of columns i) (row_of columns j) <? 0) (seq 0 n).

Definition ColumnPage {T} (items : list T) (columns : list Column) (token : string) (size def max : Z)
  : result PageError (list T * string) :=
  let rows i := row_of columns i in
  let index := sorted_index columns (length items) in
  let? start :=
    if bool_decide (token = "") then Ok 0%nat
    else match columnMarker token (length columns) with
         | None => Err ErrBadToken
         | Some after =>
             Ok (Search (length index) (λ i, match index !! i with
                                              | Some j => 0 <? compare_rows columns (rows j) after
                                              | None => false
                                              end))
         end in
  let? w := Window Decimal (Z.of_nat (length index) - Z.of_nat start) "" size def max in
  let stop := w.1.2 + Z.of_nat start in
  match slice index (Z.of_nat start) stop with
  | None => Err Panic
  | Some shown =>
      let next := if (stop <? Z.of_nat (length index)) && (Z.of_nat start <? stop)
                  then match index !! Z.to_nat (stop - 1) with
                       | Some i => column_token (rows i)
                       | None => ""
                       end
                  else "" in
      Ok (omap (λ i, items !! i) shown, next)
  end.

Definition KeyPage {T} (items : list T) (key : T → string) (token : string) (size def max : Z) :=
  ColumnPage items [MkColumn (λ i, match items !! i with Some x => key x | None => "" end) None false]
    token size def max.
End ColumnPage.

(** [IntKey]: the offset binary of [n] in twenty digits. *)
Definition IntKey (n : Z) : string := pad20 (Z.lxor (u64 n) (Z.shiftl 1 63)).

(** ** Offset tokens: what a page relies on *)

Class TokenLaws (t : Tokens) : Prop := {
  decode_encode n : 0 ≤ n < 2 ^ 63 → Decode t (Encode t n) = Some n;
  encode_nonempty n : Encode t n ≠ ""
}.

#[global] Instance Decimal_laws : TokenLaws Decimal.
Proof.
  split; intros n; [intros Hn; apply ParseInt_Itoa; unfold in_i64; lia|apply Itoa_nonempty].
Qed.

#[global] Instance Base64Decimal_laws : TokenLaws Base64Decimal.
Proof.
  split; intros n; unfold Base64Decimal; cbn [Decode Encode].
  - intros Hn. rewrite Decode_Encode_Std. apply ParseInt_Itoa. unfold in_i64. lia.
  - apply Encode_nonempty, Itoa_nonempty.
Qed.

#[global] Instance Strictly_laws t : TokenLaws t → TokenLaws (Strictly t).
Proof. intros [? ?]. by split. Qed.

Section offset_pages.
Context {T : Type} (t : Tokens) `{!TokenLaws t} (items : list T) (size def max : Z).
Let limit := page_limit size def max.
Context (Hlen : Z.of_nat (length items) < 2 ^ 63) (Hroom : Z.of_nat (length items) + limit < 2 ^ 63).

(** The token of a page that starts at offset [k]. *)
Definition token_of (k : nat) (token : string) : Prop :=
  (k = 0%nat ∧ token = "") ∨ ((k ≤ length items)%nat ∧ token = Encode t (Z.of_nat k)).

Lemma Window_at k token :
  token_of k token →
  Window t (Z.of_nat (length items)) token size def max =
    if (0 <? limit) && (Z.of_nat k + limit <? Z.of_nat (length items))
    then Ok (Z.of_nat k, Z.of_nat k + limit, Encode t (Z.of_nat k + limit))
    else Ok (Z.of_nat k, Z.of_nat (length items), "").
Proof.
  intros Hk. unfold Window. fold limit.
  assert (Z.of_nat k ≤ Z.of_nat (length items)) as Hle by (destruct Hk as [[-> _]|[? _]]; lia).
  assert ((if bool_decide (token = "") then Ok 0
           else match Decode t token with
                | None => Err ErrBadToken
                | Some n => if (n <? 0) || (Strict t && (Z.of_nat (length items) <? n))
                            then Err ErrBadToken else Ok (Z.min n (Z.of_nat (length items)))
                end) = Ok (E:=PageError) (Z.of_nat k)) as ->.
  { destruct Hk as [[-> ->]|[Hk ->]]; [done|].
    rewrite bool_decide_eq_false_2 by apply encode_nonempty.
    rewrite decode_encode by lia.
    rewrite (proj2 (Z.ltb_ge (Z.of_nat k) 0)) by lia. rewrite (proj2 (Z.ltb_ge _ _)) by lia.
    rewrite andb_false_r. simpl. f_equal. lia. }
  simpl. destruct (Z.ltb_spec 0 limit); [|done]. by rewrite i64_id by (unfold in_i64; lia).
Qed.

(** The page at offset [k]. *)
Lemma TokenPage_at k token :
  token_of k token →
  ∃ next, TokenPage t items token size def max
            = Ok ((if 0 <? limit then take (Z.to_nat limit) else id) (drop k items), next) ∧
          (if (0 <? limit) && (Z.of_nat k + limit <? Z.of_nat (length items))
           then token_of (k + Z.to_nat limit) next ∧ next ≠ "" else next = "").
Proof.
  intros Hk. assert ((k ≤ length items)%nat) as Hle by (destruct Hk as [[-> _]|[? _]]; lia).
  unfold TokenPage. rewrite (Window_at k token Hk).
  destruct (Z.ltb_spec 0 limit) as [Hl|]; [destruct (Z.ltb_spec (Z.of_nat k + limit) (Z.of_nat (length items)))|];
    simpl; unfold slice.
  - rewrite !(proj2 (Z.leb_le _ _)) by lia. simpl.
    exists (Encode t (Z.of_nat k + limit)). split; [|split].
    + by rewrite Nat2Z.id, Z.add_simpl_l.
    + right. split; [lia|]. f_equal. lia.
    + apply encode_nonempty.
  - rewrite !(proj2 (Z.leb_le _ _)) by lia. simpl. exists "". split; [|done]. rewrite Nat2Z.id.
    rewrite !take_ge; [done|rewrite length_drop; lia..].
  - rewrite !(proj2 (Z.leb_le _ _)) by lia. simpl. exists "". split; [|done]. rewrite Nat2Z.id.
    rewrite take_ge; [done|rewrite length_drop; lia].
Qed.

(** A client that follows next tokens; [None] is an error, or a token left
    when the fuel is gone. *)
Fixpoint token_walk (fuel : nat) (token : string) : option (list T) :=
  match fuel with
  | O => None
  | S fuel =>
      match TokenPage t items token size def max with
      | Err _ => None
      | Ok (page, next) => if bool_decide (next = "") then Some page else (app page) <$> token_walk fuel next
      end
  end.

Lemma token_walk_at fuel k token :
  token_of k token → (length items - k < fuel)%nat → token_walk fuel token = Some (drop k items).
Proof.
  revert k token. induction fuel as [|fuel IH]; intros k token Hk Hf; [lia|]. cbn [token_walk].
  destruct (TokenPage_at k token Hk) as (next & -> & Hn).
  destruct (Z.ltb_spec 0 limit) as [Hl|]; simpl in Hn; [|by subst].
  destruct (Z.ltb_spec (Z.of_nat k + limit) (Z.of_nat (length items))).
  - destruct Hn as [Hn Hne]. rewrite bool_decide_eq_false_2 by done.
    rewrite (IH _ next Hn) by lia. simpl. f_equal.
    rewrite <- drop_drop. apply take_drop.
  - subst next. simpl. f_equal. apply take_ge. rewrite length_drop. lia.
Qed.
End offset_pages.

(** Offset paging lists everything once: a client that starts without a
    token and follows each page's next token gets the list's items in their
    order, in at most one call per item and one more, whatever the page size,
    default and cap, as long as their sum with the list's length fits an
    [int]. Each page is no longer than the page size. *)
Theorem token_pages_list_everything_once {T} (t : Tokens) (items : list T) (size def max : Z) :
  TokenLaws t →
  Z.of_nat (length items) < 2 ^ 63 →
  Z.of_nat (length items) + page_limit size def max < 2 ^ 63 →
  token_walk t items size def max (S (length items)) "" = Some items ∧
  ∀ k, (k ≤ length items)%nat → 0 < page_limit size def max → ∃ next,
    TokenPage t items (Encode t (Z.of_nat k)) size def max
      = Ok (take (Z.to_nat (page_limit size def max)) (drop k items), next).
Proof.
  intros Ht Hlen Hroom. split.
  - rewrite (token_walk_at t items size def max Hlen Hroom _ 0); [done|by left|lia].
  - intros k Hk Hl. destruct (TokenPage_at t items size def max Hlen Hroom k (Encode t (Z.of_nat k)))
      as (next & Hp & _); [by right|]. rewrite (proj2 (Z.ltb_lt _ _)) in Hp by done. eauto.
Qed.

Lemma token_pages_list_everything_once_witness :
  token_walk (Strictly Base64Decimal) [10; 20; 30; 40; 50] 2 0 0 6 "" = Some [10; 20; 30; 40; 50].
Proof.
  destruct (token_pages_list_everything_once (Strictly Base64Decimal) [10; 20; 30; 40; 50] 2 0 0) as [H _].
  - apply _.
  - by vm_compute.
  - by vm_compute.
  - exact H.
Defined.

(** A page size near the largest [int] overflows: the end of the page
    wraps around to a negative offset, which passes for one before the end of
    the list, and the slice expression panics. *)
Theorem huge_page_size_panics :
  OffsetPage [10; 20] "1" (2 ^ 63 - 1) 0 0 = Err Panic.
Proof. by vm_compute. Qed.

(** ** Key cursor pages: order laws *)

(** A comparison as Go's [cmp] functions give it: signs agree both ways, and
    it is transitive. Negating one must not overflow. *)
Record order_law {A} (cmp : A → A → Z) : Prop := {
  ol_bounds x y : - 2 ^ 63 < cmp x y < 2 ^ 63;
  ol_antisym x y : cmp x y < 0 ↔ 0 < cmp y x;
  ol_trans x y z : cmp x y ≤ 0 → cmp y z ≤ 0 → cmp x z ≤ 0
}.

Lemma strings_Compare_law : order_law strings_Compare.
Proof.
  assert (∀ x y, strings_Compare x y ≤ 0 ↔ x = y ∨ slt x y) as Hle.
  { intros x y. unfold strings_Compare. destruct (String.compare x y) eqn:E.
    - apply String.compare_eq_iff in E. split; [by left|lia].
    - split; [by right|lia].
    - split; [lia|]. intros [->|H]; [by rewrite compare_refl_s in E|]. unfold slt in H. congruence. }
  split.
  - intros x y. unfold strings_Compare. destruct (String.compare x y); lia.
  - intros x y. unfold strings_Compare. rewrite (String.compare_antisym y x).
    destruct (String.compare x y); simpl; lia.
  - intros x y z. rewrite !Hle. intros [->|H1] [->|H2]; auto. right. by etrans.
Qed.

(** What a list of columns promises: every column's comparison is an order. *)
Definition columns_ok (columns : list Column) : Prop :=
  Forall (λ c, match Compare c with Some f => order_law f | None => True end) columns.

Lemma column_compare_law c :
  match Compare c with Some f => order_law f | None => True end → order_law (column_compare c).
Proof.
  intros Hc. set (f := match Compare c with Some f => f | None => strings_Compare end).
  assert (order_law f) as [Hb Ha Ht].
  { unfold f. destruct (Compare c); [done|apply strings_Compare_law]. }
  assert (∀ x y, column_compare c x y = if Desc c then - f x y else f x y) as E.
  { intros x y. pose proof (Hb x y). unfold column_compare, f in *.
    destruct (Compare c), (Desc c); try done; apply i64_id; unfold in_i64; lia. }
  split.
  - intros x y. pose proof (Hb x y). rewrite E. destruct (Desc c); lia.
  - intros x y. rewrite !E. pose proof (Ha x y). pose proof (Ha y x). destruct (Desc c); lia.
  - intros x y z. rewrite !E. pose proof (Ht x y z). pose proof (Ht z y x).
    pose proof (Ha x y). pose proof (Ha y x). pose proof (Ha y z). pose proof (Ha z y).
    pose proof (Ha x z). pose proof (Ha z x). destruct (Desc c); lia.
Qed.

Lemma order_zero {A} (cmp : A → A → Z) x y z : order_law cmp →
  (cmp x y ≤ 0 → cmp y z ≤ 0 → cmp x z = 0 → cmp x y = 0 ∧ cmp y z = 0).
Proof.
  intros [_ Ha Ht] H1 H2 H3.
  pose proof (Ht y z x). pose proof (Ht z x y). pose proof (Ha x y). pose proof (Ha y x).
  pose proof (Ha y z). pose proof (Ha z y). pose proof (Ha x z). pose proof (Ha z x). lia.
Qed.

Lemma compare_rows_antisym columns a b :
  columns_ok columns → compare_rows columns a b < 0 ↔ 0 < compare_rows columns b a.
Proof.
  intros Hc. revert a b. induction Hc as [|c columns Hc Hcs IH]; intros [|x a] [|y b]; simpl; try lia.
  pose proof (ol_antisym _ (column_compare_law c Hc) x y). pose proof (ol_antisym _ (column_compare_law c Hc) y x).
  specialize (IH a b).
  destruct (Z.eqb_spec (column_compare c x y) 0), (Z.eqb_spec (column_compare c y x) 0); lia.
Qed.

Lemma compare_rows_trans columns a b d :
  columns_ok columns → length a = length columns → length b = length columns → length d = length columns →
  compare_rows columns a b ≤ 0 → compare_rows columns b d ≤ 0 → compare_rows columns a d ≤ 0.
Proof.
  intros Hc. revert a b d. induction Hc as [|c columns Hc Hcs IH]; intros [|x a] [|y b] [|z d] La Lb Ld;
    simpl in *; try lia.
  pose proof (column_compare_law c Hc) as Hl. specialize (IH a b d ltac:(lia) ltac:(lia) ltac:(lia)).
  pose proof (ol_trans _ Hl x y z) as Ht. pose proof (order_zero _ x y z Hl) as Hz.
  destruct (Z.eqb_spec (column_compare c x y) 0), (Z.eqb_spec (column_compare c y z) 0),
    (Z.eqb_spec (column_compare c x z) 0); try lia; intros H1 H2; try (apply IH; lia).
Qed.

(** ** Key cursor pages over the items themselves *)

(** A term of the order, by item instead of by position. *)
Record term (T : Type) := MkTerm {
  term_value : T → string;
  term_Compare : option (string → string → Z);
  term_Desc : bool
}.
Arguments MkTerm {T}. Arguments term_value {T}. Arguments term_Compare {T}. Arguments term_Desc {T}.

Definition columns_of {T} (terms : list (term T)) (items : list T) : list Column :=
  map (λ s, MkColumn (λ i, match items !! i with Some x => term_value s x | None => "" end)
              (term_Compare s) (term_Desc s)) terms.

Definition row {T} (terms : list (term T)) (x : T) : list string := map (λ s, term_value s x) terms.

Lemma SliceStable_fmap {A B} (f : A → B) (less : B → B → bool) l :
  f <$> SliceStable (λ a b, less (f a) (f b)) l = SliceStable less (f <$> l).
Proof.
  assert (∀ x l, f <$> stable_insert (λ a b, less (f a) (f b)) x l = stable_insert less (f x) (f <$> l)) as Hi.
  { intros x k. induction k as [|y k IH]; csimpl; [done|]. destruct (less (f y) (f x)); csimpl; by rewrite ?IH. }
  induction l as [|x l IH]; csimpl; [done|]. by rewrite Hi, IH.
Qed.

(** Where a monotone search splits a list. *)
Lemma drop_search {A} (P : A → Prop) `{!∀ x, Decision (P x)} (l : list A) k :
  (k ≤ length l)%nat → (∀ i x, l !! i = Some x → (i < k)%nat → ¬ P x) →
  (∀ i x, l !! i = Some x → (k ≤ i)%nat → P x) → drop k l = filter P l.
Proof.
  intros Hk Hlo Hhi. rewrite <- (take_drop k l) at 2. rewrite filter_app.
  assert (filter P (take k l) = []) as ->.
  { apply filter_none, Forall_lookup. intros i x Hx.
    apply lookup_take_Some in Hx as [Hx Hi]. by eapply Hlo. }
  rewrite filter_all; [done|]. apply Forall_lookup. intros i x Hx.
  rewrite lookup_drop in Hx. eapply Hhi; [exact Hx|lia].
Qed.

Section cursor_pages.
Context {T : Type} (terms : list (term T)).
Context (Hterms : columns_ok (columns_of terms [])).
Context (Unmarshal : string → option (list string)).
Context (HUnmarshal : ∀ values, Unmarshal (marshal values) = Some values).

Definition row_cmp : list string → list string → Z := compare_rows (columns_of terms []).
Definition item_less (x y : T) : bool := row_cmp (row terms x) (row terms y) <? 0.

Lemma row_length x : length (row terms x) = length (columns_of terms []).
Proof. unfold row, columns_of. by rewrite !length_map. Qed.

Lemma columns_compare items a b : compare_rows (columns_of terms items) a b = row_cmp a b.
Proof.
  unfold row_cmp, columns_of. clear Hterms. revert a b.
  induction terms as [|s l IH]; intros [|x a] [|y b]; [done..|]. simpl. by rewrite IH.
Qed.

(** The row a position holds; one past the end holds none. *)
Definition orow (o : option T) : list string :=
  match o with Some x => row terms x | None => map (λ _, "") terms end.

Lemma row_of_items items i : row_of (columns_of terms items) i = orow (items !! i).
Proof.
  unfold row_of, columns_of, orow, row. rewrite map_map. cbn [Value]. by destruct (items !! i).
Qed.

Lemma sorted_index_items items :
  (items !!.) <$> sorted_index (columns_of terms items) (length items) = Some <$> SliceStable item_less items.
Proof.
  unfold sorted_index.
  trans (SliceStable (λ a b, row_cmp (orow a) (orow b) <? 0) ((items !!.) <$> seq 0 (length items))).
  - rewrite <- (SliceStable_fmap (λ i : nat, items !! i)). f_equal.
    pose proof (row_of_items items) as E. pose proof (columns_compare items) as E'. clear -E E'.
    induction (seq 0 (length items)) as [|k l IH]; [done|]. cbn [SliceStable]. rewrite IH.
    generalize (SliceStable (λ a b, row_cmp (orow (items !! a)) (orow (items !! b)) <? 0) l). intros m.
    induction m as [|y m IHm]; [done|]. cbn [stable_insert]. by rewrite !E, E', IHm.
  - assert ((items !!.) <$> seq 0 (length items) = Some <$> items) as ->.
    { apply list_eq. intros i. rewrite !list_lookup_fmap. destruct (items !! i) as [x|] eqn:E.
      - rewrite lookup_seq_lt by (by eapply lookup_lt_Some). simpl. by rewrite E.
      - rewrite lookup_seq_ge by (by apply lookup_ge_None). done. }
    by rewrite <- (SliceStable_fmap Some).
Qed.

(** The items in listing order. *)
Definition listing (items : list T) : list T := SliceStable item_less items.

Lemma row_cmp_antisym a b : row_cmp a b < 0 ↔ 0 < row_cmp b a.
Proof. by apply compare_rows_antisym. Qed.

Lemma row_cmp_trans x y z :
  row_cmp (row terms x) (row terms y) ≤ 0 → length z = length terms →
  row_cmp (row terms y) z ≤ 0 → row_cmp (row terms x) z ≤ 0.
Proof.
  intros Hxy Hz Hyz. assert (length (columns_of terms []) = length terms) as Hl by apply length_map.
  eapply compare_rows_trans; [done|..|exact Hxy|exact Hyz]; rewrite ?row_length; congruence.
Qed.

Lemma listing_sorted items :
  StronglySorted (λ x y, row_cmp (row terms x) (row terms y) ≤ 0) (listing items).
Proof.
  assert (∀ x y, item_less y x = false ↔ row_cmp (row terms x) (row terms y) ≤ 0) as E.
  { intros x y. unfold item_less. rewrite Z.ltb_ge. pose proof (row_cmp_antisym (row terms y) (row terms x)).
    pose proof (row_cmp_antisym (row terms x) (row terms y)). lia. }
  eapply StronglySorted_impl; [|apply (SliceStable_sorted item_less)].
  - intros x y. unfold not_after. apply E.
  - intros x y H. apply E. unfold item_less in H. bools. lia.
  - unfold not_after. intros x y z. rewrite !E. intros H1 H2.
    eapply row_cmp_trans; [exact H1|apply length_map|done].
Qed.

Lemma listing_perm items : listing items ≡ₚ items.
Proof. apply SliceStable_perm. Qed.

(** The items that follow a marker; without one, every item. *)
Definition after (m : option (list string)) (x : T) : Prop :=
  match m with None => True | Some v => 0 < row_cmp (row terms x) v end.
#[local] Instance after_dec m x : Decision (after m x).
Proof. destruct m; simpl; apply _. Defined.

Definition token_at (m : option (list string)) (token : string) : Prop :=
  match m with
  | None => token = ""
  | Some v => length v = length terms ∧ token = column_token v
  end.

Lemma column_token_nonempty v : column_token v ≠ "".
Proof. by apply Encode_nonempty. Qed.

Lemma columnMarker_token v : columnMarker Unmarshal (column_token v) (length v) = Some v.
Proof.
  unfold columnMarker, column_token. rewrite Decode_Encode_RawURL, CutPrefix_append, HUnmarshal.
  by rewrite bool_decide_eq_true_2.
Qed.

Lemma after_mono m x y :
  match m with Some v => length v = length terms | None => True end →
  row_cmp (row terms x) (row terms y) ≤ 0 → after m x → after m y.
Proof.
  destruct m as [v|]; [|done]. simpl. intros Hv Hxy Hx.
  destruct (Z.lt_ge_cases 0 (row_cmp (row terms y) v)) as [|Hle]; [done|].
  pose proof (row_cmp_trans x y v Hxy Hv Hle). lia.
Qed.

(** Where the page begins. *)
Lemma page_start items v (Hv : length v = length terms) :
  let index := sorted_index (columns_of terms items) (length items) in
  let k := Search (length index) (λ i, match index !! i with
             | Some j => 0 <? compare_rows (columns_of terms items) (row_of (columns_of terms items) j) v
             | None => false end) in
  (k ≤ length (listing items))%nat ∧ drop k (listing items) = filter (after (Some v)) (listing items).
Proof.
  intros index k. pose proof (sorted_index_items items) as HI. fold index in HI.
  assert (length index = length (listing items)) as Hlen.
  { apply (f_equal length) in HI. by rewrite !length_fmap in HI. }
  set (f := λ i, match index !! i with
             | Some j => 0 <? compare_rows (columns_of terms items) (row_of (columns_of terms items) j) v
             | None => false end) in *.
  assert (∀ i x, listing items !! i = Some x → f i = true ↔ after (Some v) x) as Hf.
  { intros i x Hx. unfold f. apply (f_equal (.!! i)) in HI. unfold listing in Hx.
    rewrite !list_lookup_fmap, Hx in HI. destruct (index !! i) as [j|]; [|done].
    simpl in HI. injection HI as HI. rewrite columns_compare, row_of_items, HI. simpl. apply Z.ltb_lt. }
  assert (monotone_on (length index) f) as Hm.
  { intros i j Hij Hi. rewrite Hlen in Hij.
    destruct (lookup_lt_is_Some_2 (listing items) i ltac:(lia)) as [x Hx].
    destruct (lookup_lt_is_Some_2 (listing items) j ltac:(lia)) as [y Hy].
    apply (Hf j y Hy). apply (Hf i x Hx) in Hi. destruct (decide (i = j)) as [->|]; [congruence|].
    eapply (after_mono (Some v)); [done| |exact Hi].
    eapply (StronglySorted_lookup_lt _ _ i j _ _ (listing_sorted items)); [done..|lia]. }
  destruct (Search_spec _ _ Hm) as (Hk & Hlo & Hhi). fold k in Hk, Hlo, Hhi. rewrite <- Hlen.
  split; [done|]. apply drop_search; [lia|..]; intros i x Hx Hi.
  - rewrite <- (Hf i x Hx), Hlo by done. done.
  - apply (Hf i x Hx), Hhi. apply lookup_lt_Some in Hx. lia.
Qed.

(** What a run of positions of the sorted index shows. *)
Lemma shown_items items k n :
  let index := sorted_index (columns_of terms items) (length items) in
  (n ≤ length (listing items) - k)%nat → (k + n ≤ length index)%nat →
  omap (λ i, items !! i) (take n (drop k index)) = take n (drop k (listing items)) ∧
  ∀ x, last (take n (drop k (listing items))) = Some x →
    ∃ j, index !! (k + n - 1)%nat = Some j ∧ items !! j = Some x.
Proof.
  intros index Hn Hn'. pose proof (sorted_index_items items) as HI. fold index in HI.
  assert ((items !!.) <$> take n (drop k index) = Some <$> take n (drop k (listing items))) as HP.
  { by rewrite !fmap_take, !fmap_drop, HI. }
  split.
  - revert HP. generalize (take n (drop k index)) (take n (drop k (listing items))).
    induction l as [|i l IH]; intros [|x l'] H; [done..|]. csimpl in *. injection H as Hi H.
    rewrite Hi. f_equal. auto.
  - intros x Hx. apply (f_equal last) in HP. rewrite !fmap_last, Hx in HP.
    destruct (last (take n (drop k index))) as [j|] eqn:El; [|done]. injection HP as HP.
    exists j. split; [|done]. rewrite last_lookup, length_take, length_drop in El.
    apply lookup_take_Some in El as [El _]. rewrite lookup_drop in El. rewrite <- El. f_equal.
    destruct n; [by rewrite take_0 in Hx|]. lia.
Qed.

(** One call: the items after the marker, cut at the page size, and a token
    that carries the last one's row when items remain. *)
Lemma ColumnPage_at items m token size def max :
  token_at m token → page_limit size def max < 2 ^ 63 →
  let limit := page_limit size def max in
  let rest := filter (after m) (listing items) in
  let page := if 0 <? limit then take (Z.to_nat limit) rest else rest in
  ∃ next, ColumnPage Unmarshal items (columns_of terms items) token size def max = Ok (page, next) ∧
    (if (0 <? limit) && (limit <? Z.of_nat (length rest))
     then ∃ x, last page = Some x ∧ next = column_token (row terms x) else next = "").
Proof.
  intros Ht Hmax limit rest page. pose proof (sorted_index_items items) as HI.
  set (index := sorted_index (columns_of terms items) (length items)) in *.
  assert (length index = length (listing items)) as Hlen.
  { apply (f_equal length) in HI. by rewrite !length_fmap in HI. }
  assert (∃ k, (k ≤ length (listing items))%nat ∧ drop k (listing items) = rest ∧
    (if bool_decide (token = "") then Ok 0%nat
    else match columnMarker Unmarshal token (length (columns_of terms items)) with
         | None => Err ErrBadToken
         | Some after =>
             Ok (Search (length index) (λ i, match index !! i with
                | Some j => 0 <? compare_rows (columns_of terms items) (row_of (columns_of terms items) j) after
                | None => false end))
         end) = Ok (E:=PageError) k) as (k & Hk & Hdrop & Hs).
  { destruct m as [v|]; simpl in Ht.
    - destruct Ht as [Hv ->]. destruct (page_start items v Hv) as [Hk Hd].
      eexists. split; [exact Hk|]. split; [exact Hd|].
      rewrite bool_decide_eq_false_2 by apply column_token_nonempty.
      unfold columns_of at 1. rewrite length_map, <- Hv, columnMarker_token. done.
    - subst token. exists 0%nat. split; [lia|]. split; [|done]. symmetry. by apply filter_all, Forall_true. }
  unfold ColumnPage. fold index. rewrite Hs. simpl rbind. clear Hs.
  assert (length rest = (length (listing items) - k)%nat) as Hr by (by rewrite <- Hdrop, length_drop).
  unfold Window. rewrite bool_decide_eq_true_2 by done. simpl rbind. fold limit.
  rewrite Z.add_0_l.
  set (full := (0 <? limit) && (limit <? Z.of_nat (length rest))).
  assert ((0 <? limit) && (i64 limit <? Z.of_nat (length index) - Z.of_nat k) = full) as ->.
  { unfold full. rewrite Hr, Hlen. destruct (Z.ltb_spec 0 limit); [|done].
    rewrite i64_id by (unfold in_i64; lia). f_equal. f_equal. lia. }
  assert (∀ n, (k + n ≤ length index)%nat →
    omap (λ i, items !! i) (take n (drop k index)) = take n rest ∧
    ∀ x, last (take n rest) = Some x → ∃ j, index !! (k + n - 1)%nat = Some j ∧ items !! j = Some x) as Hpage.
  { intros n Hn. rewrite <- Hdrop. apply shown_items; [lia|done]. }
  assert (length index - k = length rest)%nat as Hlr by lia.
  destruct full eqn:Efull; cbn [rbind fst snd]; unfold slice; rewrite !(proj2 (Z.leb_le _ _)) by (unfold full in Efull; bools; lia);
    cbn [andb]; rewrite Nat2Z.id.
  - unfold full in Efull. bools. rewrite i64_id by (unfold in_i64; lia).
    rewrite !(proj2 (Z.leb_le _ _)) by lia. cbn [andb].
    replace (Z.to_nat (limit + Z.of_nat k - Z.of_nat k)) with (Z.to_nat limit) by lia.
    destruct (Hpage (Z.to_nat limit)) as [-> Hl]; [lia|].
    rewrite !(proj2 (Z.ltb_lt _ _)) by lia. cbn [andb].
    eexists. unfold page. rewrite (proj2 (Z.ltb_lt 0 limit)) by done. split; [done|].
    destruct (last (take (Z.to_nat limit) rest)) as [x|] eqn:El.
    + exists x. split; [done|]. destruct (Hl x eq_refl) as (j & Hj & Hx).
      replace (Z.to_nat (limit + Z.of_nat k - 1)) with (k + Z.to_nat limit - 1)%nat by lia.
      rewrite Hj, row_of_items, Hx. done.
    + exfalso. apply last_None in El. apply (f_equal length) in El.
      rewrite length_take in El. simpl in El. lia.
  - rewrite (proj2 (Z.ltb_ge _ _)) by lia. cbn [andb]. eexists. split; [|done].
    destruct (Hpage (length rest)) as [Hp _]; [lia|].
    replace (Z.to_nat _) with (length rest) by lia. rewrite Hp, take_ge by done.
    unfold page, full in *. destruct (0 <? limit) eqn:E0; [|done]. bools. destruct Efull; [done|].
    bools. by rewrite take_ge by lia.
Qed.
(** ** A client that pages through a list that changes between its calls *)

Context (size def max : Z) (Hlimit : page_limit size def max < 2 ^ 63).

(** Each call sees the next snapshot; the flag says that a page came without a
    next token. *)
Fixpoint column_walk (snaps : list (list T)) (token : string) : list T * bool :=
  match snaps with
  | [] => ([], false)
  | items :: snaps =>
      match ColumnPage Unmarshal items (columns_of terms items) token size def max with
      | Err _ => ([], false)
      | Ok (page, next) =>
          if bool_decide (next = "") then (page, true)
          else let (more, fin) := column_walk snaps next in (page ++ more, fin)
      end
  end.

Definition item_lt (x y : T) : Prop := row_cmp (row terms x) (row terms y) < 0.

(** Snapshots whose items the columns tell apart. *)
Definition keyed (snaps : list (list T)) : Prop :=
  (∀ s, s ∈ snaps → NoDup s) ∧
  ∀ s s' x y, s ∈ snaps → s' ∈ snaps → x ∈ s → y ∈ s' → row_cmp (row terms x) (row terms y) = 0 → x = y.

Lemma item_le_lt_trans x y z : row_cmp (row terms x) (row terms y) ≤ 0 → item_lt y z → item_lt x z.
Proof.
  unfold item_lt. intros Hxy Hyz. apply row_cmp_antisym.
  destruct (Z.lt_ge_cases 0 (row_cmp (row terms z) (row terms x))) as [|Hle]; [done|].
  pose proof (row_cmp_trans z x (row terms y) Hle ltac:(apply length_map) Hxy).
  apply row_cmp_antisym in Hyz. lia.
Qed.

Lemma StronglySorted_strict l :
  NoDup l → (∀ x y, x ∈ l → y ∈ l → row_cmp (row terms x) (row terms y) = 0 → x = y) →
  StronglySorted (λ x y, row_cmp (row terms x) (row terms y) ≤ 0) l → StronglySorted item_lt l.
Proof.
  induction l as [|x l IH]; intros Hnd Hinj Hs; [constructor|].
  apply StronglySorted_cons in Hs as [Hx Hs]. apply NoDup_cons in Hnd as [Hxl Hnd]. constructor.
  - apply IH; [done| |done]. intros a b Ha Hb. apply Hinj; by apply list_elem_of_further.
  - rewrite Forall_forall in Hx |- *. intros y Hy. specialize (Hx y Hy). simpl in Hx. unfold item_lt.
    destruct (decide (row_cmp (row terms x) (row terms y) = 0)) as [E|]; [|lia].
    rewrite (Hinj x y) in Hxl; [done|apply list_elem_of_here|by apply list_elem_of_further|done].
Qed.

Lemma rest_strict snaps items m :
  keyed snaps → items ∈ snaps → StronglySorted item_lt (filter (after m) (listing items)).
Proof.
  intros [Hnd Hinj] Hi.
  assert (StronglySorted item_lt (listing items)) as Hs.
  { apply StronglySorted_strict; [by rewrite listing_perm; apply Hnd| |apply listing_sorted].
    intros x y. rewrite !listing_perm. by apply Hinj. }
  eapply sublist_StronglySorted; [apply sublist_filter|exact Hs].
Qed.

(** A strictly sorted list cut in two around its first part's last element. *)
Lemma cut_last l n x :
  StronglySorted item_lt l → last (take n l) = Some x →
  x ∈ l ∧ Forall (λ y, row_cmp (row terms y) (row terms x) ≤ 0) (take n l) ∧ Forall (item_lt x) (drop n l).
Proof.
  intros Hs (l' & Hl)%last_Some. pose proof (take_drop n l) as Htd. rewrite Hl, <- app_assoc in Htd.
  assert (row_cmp (row terms x) (row terms x) ≤ 0) as Hr.
  { pose proof (row_cmp_antisym (row terms x) (row terms x)). lia. }
  rewrite <- Htd in Hs. rewrite <- Htd at 1. rewrite Hl. simpl in Hs. clear Htd Hl.
  assert (Forall (λ y, item_lt y x) l' ∧ Forall (item_lt x) (drop n l)) as [H1 H2].
  { induction l' as [|y l' IH]; apply StronglySorted_cons in Hs as [Hy Hs]; [by split; [constructor|]|].
    destruct (IH Hs) as [H1 H2]. apply Forall_app in Hy as [_ [Hyx _]%Forall_cons].
    split; [by constructor|done]. }
  split; [set_solver|]. split; [|done]. apply Forall_app. split; [|by constructor].
  eapply Forall_impl; [exact H1|]. unfold item_lt. simpl. lia.
Qed.
(** The two shapes a call's answer has. *)
Lemma ColumnPage_cases items m token :
  token_at m token →
  let rest := filter (after m) (listing items) in
  ColumnPage Unmarshal items (columns_of terms items) token size def max = Ok (rest, "") ∨
  ∃ n x, (0 < n)%nat ∧ (n < length rest)%nat ∧ last (take n rest) = Some x ∧
    ColumnPage Unmarshal items (columns_of terms items) token size def max
      = Ok (take n rest, column_token (row terms x)).
Proof.
  intros Ht rest. destruct (ColumnPage_at items m token size def max Ht Hlimit) as (next & Hp & Hn).
  fold rest in Hp, Hn. set (limit := page_limit size def max) in *.
  destruct (Z.ltb_spec 0 limit); simpl in Hn; [|left; by subst].
  destruct (Z.ltb_spec limit (Z.of_nat (length rest))).
  - right. destruct Hn as (x & Hx & ->). exists (Z.to_nat limit), x. split_and!; [lia|lia|done|done].
  - left. subst. rewrite take_ge in Hp by lia. done.
Qed.

Lemma after_last m x y : after m x → (match m with Some v => length v = length terms | None => True end) →
  item_lt x y → after m y.
Proof. intros Hx Hm Hxy. eapply after_mono; [done| |exact Hx]. unfold item_lt in Hxy. lia. Qed.

Lemma token_at_length m token : token_at m token → match m with Some v => length v = length terms | None => True end.
Proof. destruct m; [by intros [? _]|done]. Qed.

Lemma column_walk_from snaps m token res fin :
  keyed snaps → token_at m token → column_walk snaps token = (res, fin) →
  StronglySorted item_lt res ∧ Forall (after m) res ∧
  (∀ x, x ∈ res → ∃ s, s ∈ snaps ∧ x ∈ s) ∧
  (fin = true → ∀ x, (∀ s, s ∈ snaps → x ∈ s) → after m x → x ∈ res).
Proof.
  revert m token res fin. induction snaps as [|items snaps IH]; intros m token res fin Hk Ht Hw.
  { simpl in Hw. injection Hw as <- <-. split_and!; [constructor|constructor|intros x Hx; by apply not_elem_of_nil in Hx|done]. }
  assert (keyed snaps) as Hk'.
  { destruct Hk as [H1 H2]. split; [intros s Hs; apply H1; by right|].
    intros s s' x y Hs Hs'. apply H2; by right. }
  pose proof (rest_strict _ items m Hk ltac:(by left)) as Hs.
  cbn [column_walk] in Hw. set (rest := filter (after m) (listing items)) in *.
  assert (Forall (after m) rest) as Hall by (apply Forall_forall; intros x [? _]%list_elem_of_filter; done).
  assert (∀ x, x ∈ rest ↔ after m x ∧ x ∈ items) as Hrest.
  { intros x. unfold rest. by rewrite list_elem_of_filter, listing_perm. }
  destruct (ColumnPage_cases items m token Ht) as [Hp|(n & x & Hn & Hlt & Hx & Hp)]; fold rest in Hp; rewrite Hp in Hw.
  { rewrite bool_decide_eq_true_2 in Hw by done. injection Hw as <- <-. split_and!; [done|done| |].
    - intros y [_ Hy]%Hrest. exists items. split; [by left|done].
    - intros _ y Hy Ha. apply Hrest. split; [done|]. apply Hy. by left. }
  rewrite bool_decide_eq_false_2 in Hw by apply column_token_nonempty. fold rest in Hx.
  destruct (column_walk snaps (column_token (row terms x))) as [more fin'] eqn:Ew.
  injection Hw as <- <-.
  destruct (IH (Some (row terms x)) _ _ _ Hk' ltac:(by split; [apply length_map|]) Ew) as (I1 & I2 & I3 & I4).
  destruct (cut_last rest n x Hs Hx) as (Hxr & Hle & Hgt).
  assert (∀ y, y ∈ more → item_lt x y) as Hmore.
  { intros y Hy. rewrite Forall_forall in I2. apply row_cmp_antisym. by apply I2. }
  rewrite Forall_forall in Hle, Hgt, Hall. split_and!.
  - apply StronglySorted_app. split_and!; [|eapply sublist_StronglySorted; [apply sublist_take|exact Hs]|done].
    intros a b Ha Hb. eapply item_le_lt_trans; [by apply Hle|by apply Hmore].
  - apply Forall_app. split; apply Forall_forall; intros y Hy.
    + apply Hall. eapply elem_of_sublist; [exact Hy|apply sublist_take].
    + eapply after_last; [by apply Hall|by eapply token_at_length|by apply Hmore].
  - intros y [Hy|Hy]%elem_of_app.
    + exists items. split; [by left|]. apply Hrest. eapply elem_of_sublist; [exact Hy|apply sublist_take].
    + destruct (I3 y Hy) as (s & ? & ?). exists s. split; [by right|done].
  - intros Hf y Hy Ha. apply elem_of_app.
    assert (y ∈ take n rest ++ drop n rest) as [|Hd]%elem_of_app.
    { rewrite take_drop. apply Hrest. split; [done|]. apply Hy. by left. }
    + by left.
    + right. apply I4; [done| |].
      * intros s Hs'. apply Hy. by right.
      * simpl. apply row_cmp_antisym. by apply Hgt.
Qed.

(** On a list that stays as it is, every page brings the walk closer to its end. *)
Lemma column_walk_finishes items n m token :
  keyed [items] → token_at m token → (length (filter (after m) (listing items)) < n)%nat →
  (column_walk (replicate n items) token).2 = true.
Proof.
  intros Hk. revert m token. induction n as [|n IH]; intros m token Ht Hn; [lia|]. cbn [replicate column_walk].
  pose proof (rest_strict _ items m Hk ltac:(by left)) as Hs.
  set (rest := filter (after m) (listing items)) in *.
  destruct (ColumnPage_cases items m token Ht) as [Hp|(k & x & Hk0 & Hlt & Hx & Hp)]; fold rest in Hp; rewrite Hp.
  { by rewrite bool_decide_eq_true_2. }
  rewrite bool_decide_eq_false_2 by apply column_token_nonempty. fold rest in Hx, Hlt.
  assert ((column_walk (replicate n items) (column_token (row terms x))).2 = true) as Hf.
  { apply (IH (Some (row terms x))); [by split; [apply length_map|]|].
    destruct (cut_last rest k x Hs Hx) as (Hxr & Hle & Hgt).
    assert (filter (after (Some (row terms x))) (listing items) = filter (after (Some (row terms x))) rest) as ->.
    { symmetry. apply list_filter_filter_l. intros y Hy. apply list_elem_of_filter in Hxr as [Hxa _].
      eapply after_last; [exact Hxa|by eapply token_at_length|apply row_cmp_antisym; exact Hy]. }
    rewrite <- (take_drop k rest), filter_app, filter_none, app_nil_l.
    - eapply Nat.le_lt_trans; [apply length_filter|]. rewrite length_drop. lia.
    - eapply Forall_impl; [exact Hle|]. simpl. lia. }
  by destruct (column_walk (replicate n items) (column_token (row terms x))).
Qed.
End cursor_pages.

(** Cursor paging over a list that changes between the calls: whatever the
    list holds at each call, the pages a client collects by following next
    tokens are in strict listing order, so no item comes twice, and hold only
    items the list held; when the walk ends, every item that was there
    throughout has been returned. On a list that stays as it is the walk ends
    after at most one call per item and one more. The column comparisons are
    orders, and [json.Unmarshal] reads back what [json.Marshal] wrote. *)
Theorem cursor_pages_skip_and_repeat_nothing {T} (terms : list (term T))
    (Unmarshal : string → option (list string)) (size def max : Z) (snaps : list (list T)) :
  columns_ok (columns_of terms []) →
  (∀ values, Unmarshal (marshal values) = Some values) →
  page_limit size def max < 2 ^ 63 →
  keyed terms snaps →
  let res := column_walk terms Unmarshal size def max snaps "" in
  StronglySorted (item_lt terms) res.1 ∧
  (∀ x, x ∈ res.1 → ∃ s, s ∈ snaps ∧ x ∈ s) ∧
  (res.2 = true → ∀ x, (∀ s, s ∈ snaps → x ∈ s) → x ∈ res.1) ∧
  (∀ items n, snaps = replicate (S n) items → (length items ≤ n)%nat → res.2 = true).
Proof.
  intros Hc Hu Hl Hk res. destruct (column_walk _ _ _ _ _ _ _) as [got fin] eqn:E in res.
  destruct (column_walk_from terms Hc Unmarshal Hu size def max Hl snaps None "" got fin Hk eq_refl E)
    as (H1 & _ & H2 & H3).
  split_and!; [done|done|intros Hf x Hx; by apply H3|]. intros items n -> Hn.
  assert (keyed terms [items]) as Hk1.
  { destruct Hk as [K1 K2]. split.
    - intros s ->%list_elem_of_singleton. apply K1. by left.
    - intros s s' x y ->%list_elem_of_singleton ->%list_elem_of_singleton. apply K2; by left. }
  pose proof (column_walk_finishes terms Hc Unmarshal Hu size def max Hl items (S n) None "" Hk1 eq_refl) as Hf.
  rewrite E in Hf. apply Hf. eapply Nat.le_lt_trans; [apply length_filter|].
  rewrite (Permutation_length (listing_perm terms items)). lia.
Qed.

Lemma top_bit a : 0 ≤ a < 2 ^ 63 → Z.lxor a (2 ^ 63) = a + 2 ^ 63.
Proof.
  intros Ha. symmetry. apply Z.add_nocarry_lxor. apply Z.bits_inj'. intros k Hk.
  rewrite Z.land_spec, Z.pow2_bits_eqb, Z.bits_0 by lia.
  destruct (Z.eqb_spec 63 k) as [<-|]; [|by rewrite andb_false_r].
  rewrite <- (Z.mod_small a (2 ^ 63)) by done. by rewrite Z.mod_pow2_bits_high by lia.
Qed.

(** [IntKey] spells an [int64] so that strings sort as the numbers do. *)
Theorem int_key_order n m :
  in_i64 n → in_i64 m → String.compare (IntKey n) (IntKey m) = Z.compare n m.
Proof.
  assert (∀ z, in_i64 z → Z.lxor (u64 z) (Z.shiftl 1 63) = z + 2 ^ 63) as H.
  { intros z Hz. unfold in_i64 in Hz. change (Z.shiftl 1 63) with (2 ^ 63).
    destruct (Z.lt_ge_cases z 0).
    - unfold u64. replace (z mod 2 ^ 64) with ((z + 2 ^ 63) + 2 ^ 63).
      + rewrite <- (top_bit (z + 2 ^ 63)) at 1 by lia.
        by rewrite Z.lxor_assoc, Z.lxor_nilpotent, Z.lxor_0_r.
      + rewrite <- (Z.mod_unique_pos z (2 ^ 64) (-1) (z + 2 ^ 64)); lia.
    - rewrite u64_id by (unfold in_u64; lia). apply top_bit. lia. }
  intros Hn Hm. unfold IntKey. rewrite !H by done. unfold in_i64 in *.
  rewrite pad20_compare by (unfold in_u64; lia).
  destruct (Z.compare_spec n m); [apply Z.compare_eq_iff|apply Z.compare_lt_iff|apply Z.compare_gt_iff]; lia.
Qed.

Lemma int_key_order_witness : String.compare (IntKey (-5)) (IntKey 3) = Lt.
Proof. apply (int_key_order (-5) 3); unfold in_i64; lia. Defined.

(** ** A reader of marshalled rows, for the witness *)

Fixpoint read_array (fuel : nat) (s : string) : option (list string) :=
  match fuel, CutPrefix s quote with
  | S fuel, Some s =>
      match Cut s quote with
      | Some (v, s) =>
          match DecodeString StdEncoding v with
          | Some v => if bool_decide (s = "]") then Some [v]
                      else match CutPrefix s "," with
                           | Some s => (cons v) <$> read_array fuel s
                           | None => None
                           end
          | None => None
          end
      | None => None
      end
  | _, _ => None
  end.

Definition read_rows (s : string) : option (list string) :=
  if bool_decide (s = "[]") then Some []
  else match CutPrefix s "[" with
       | Some r => read_array (String.length r) r
       | None => None
       end.

Lemma Cut_quote a r : char_of 34 ∉ chars a → Cut (a +:+ quote +:+ r) quote = Some (a, r).
Proof. apply Cut_char. Qed.

Lemma base64_no_quote v : char_of 34 ∉ chars (EncodeToString StdEncoding v).
Proof.
  unfold EncodeToString. rewrite chars_text. intros Hin.
  assert (Forall (λ c, c ≠ char_of 34) (encode64 StdEncoding (byte_of <$> chars v))) as Hf.
  { apply encode64_letters; [|done|apply bytes_range]. intros x Hx E.
    destruct (StdEncoding_ok x Hx) as [Hv _]. rewrite E in Hv. by vm_compute in Hv. }
  rewrite Forall_forall in Hf. by apply (Hf _ Hin).
Qed.

Lemma read_array_marshal fuel vs :
  vs ≠ [] → (length vs ≤ fuel)%nat →
  read_array fuel (String.concat "," (map (λ v, quote +:+ EncodeToString StdEncoding v +:+ quote) vs) +:+ "]") = Some vs.
Proof.
  revert fuel. induction vs as [|v vs IH]; intros [|fuel] Hne Hl; simpl in Hl; [done|done|lia|].
  destruct vs as [|w vs].
  - cbn [map String.concat]. rewrite !append_assoc_s. cbn [read_array]. rewrite CutPrefix_append.
    rewrite Cut_quote by apply base64_no_quote. by rewrite Decode_Encode_Std.
  - specialize (IH fuel ltac:(done) ltac:(simpl in *; lia)). cbn [map] in *.
    change (String.concat "," (?x :: ?y :: ?l)) with (x +:+ "," +:+ String.concat "," (y :: l)).
    rewrite !append_assoc_s. cbn [read_array]. rewrite CutPrefix_append.
    rewrite Cut_quote by apply base64_no_quote. rewrite Decode_Encode_Std.
    rewrite bool_decide_eq_false_2 by done. rewrite CutPrefix_append, IH. done.
Qed.

Lemma length_concat (f : string → string) vs :
  (∀ v, 1 ≤ String.length (f v))%nat → (length vs ≤ String.length (String.concat "," (map f vs)))%nat.
Proof.
  intros Hf. induction vs as [|v [|w vs] IH]; [done|simpl; apply Hf|].
  change (String.concat "," (map f (v :: w :: vs))) with (f v +:+ "," +:+ String.concat "," (map f (w :: vs))).
  rewrite !length_append_s. specialize (Hf v). cbn [length] in *. lia.
Qed.

Lemma read_rows_marshal vs : read_rows (marshal vs) = Some vs.
Proof.
  unfold read_rows, marshal. destruct vs as [|v vs]; [done|].
  rewrite bool_decide_eq_false_2 by (by destruct vs). rewrite CutPrefix_append.
  apply read_array_marshal; [done|]. rewrite length_append_s.
  eapply Nat.le_trans; [apply length_concat|apply Nat.le_add_r].
  intros x. cbn beta. rewrite length_append_s. simpl. lia.
Qed.

Definition w_terms : list (term (Z * string)) :=
  [MkTerm (λ x, IntKey x.1) None true; MkTerm snd None false].
Definition w_snaps : list (list (Z * string)) :=
  [[(1, "a"); (3, "b"); (2, "c")]; [(1, "a"); (2, "c"); (9, "d")]; [(5, "e"); (1, "a"); (2, "c")]].

Lemma w_snaps_keyed : keyed w_terms w_snaps.
Proof.
  split.
  - apply Forall_forall. repeat constructor; set_solver.
  - assert (Forall (λ s, Forall (λ s', Forall (λ x, Forall (λ y,
      row_cmp w_terms (row w_terms x) (row w_terms y) = 0 → x = y) s') s) w_snaps) w_snaps) as H.
    { repeat constructor; vm_compute; congruence. }
    intros s s' x y Hs Hs' Hx Hy. rewrite !Forall_forall in H. specialize (H s Hs).
    rewrite Forall_forall in H. specialize (H s' Hs'). rewrite Forall_forall in H. specialize (H x Hx).
    rewrite Forall_forall in H. by apply H.
Qed.

Lemma cursor_pages_skip_and_repeat_nothing_witness :
  column_walk w_terms read_rows 1 0 0 w_snaps "" = ([(3, "b"); (2, "c"); (1, "a")], true) ∧
  (1, "a") ∈ (column_walk w_terms read_rows 1 0 0 w_snaps "").1.
Proof.
  destruct (cursor_pages_skip_and_repeat_nothing w_terms read_rows 1 0 0 w_snaps) as (_ & _ & H & _).
  - repeat constructor.
  - exact read_rows_marshal.
  - by vm_compute.
  - exact w_snaps_keyed.
  - split; [by vm_compute|]. apply H; [by vm_compute|]. apply Forall_forall. repeat constructor.
Defined.
