(* ===== verification/Wildcard.v ===== *)
(** * Wildcard patterns: [src/sim/wildcard.go]

    The pattern tokenizer and the backtracking matcher that IAM policies, load
    balancer rules, role actions and event filters share. A string is the
    sequence of its runes, which is what the code works on ([[]rune(s)]).
    [unicode.SimpleFold] is a parameter. The reference semantics is the
    inductive relation [glob]. *)

From S2P Require Import Prelude.

Abbreviation rune := Z (only parsing).

Record Wildcard := MkWildcard { AnyOne : bool; Escapes : list rune; FoldCase : bool }.

Inductive wildcardToken := Literal (r : rune) | Star | One.

Definition backslash : rune := 92.
Definition asterisk : rune := 42.
Definition question : rune := 63.

(** One rune that no backslash escapes. *)
Definition plain_token (w : Wildcard) (r : rune) : wildcardToken :=
  if r =? asterisk then Star else if AnyOne w && (r =? question) then One else Literal r.

Fixpoint tokens (w : Wildcard) (pattern : list rune) : list wildcardToken :=
  match pattern with
  | [] => []
  | r :: rest =>
      match rest with
      | e :: rest' =>
          if (r =? backslash) && bool_decide (e ∈ Escapes w) then Literal e :: tokens w rest'
          else plain_token w r :: tokens w rest
      | [] => [plain_token w r]
      end
  end.

Section Match.
Context (SimpleFold : rune → rune).

(** The orbit of [a] under [SimpleFold], which has at most four runes. *)
Fixpoint same_loop (fuel : nat) (a b f : rune) : bool :=
  match fuel with
  | O => false
  | S fuel => if f =? a then false else if f =? b then true else same_loop fuel a b (SimpleFold f)
  end.

Definition same (w : Wildcard) (a b : rune) : bool :=
  if a =? b then true else if negb (FoldCase w) then false else same_loop 4 a b (SimpleFold a).

(** [p[pi].kind == wildcardOne || p[pi].kind == wildcardLiteral && w.same(...)]. *)
Definition takes_one (w : Wildcard) (t : wildcardToken) (r : rune) : bool :=
  match t with One => true | Literal l => same w l r | Star => false end.

Definition only_stars (p : list wildcardToken) : bool :=
  forallb (λ t, match t with Star => true | _ => false end) p.

(** The loop of [Match]; [star] is the last star passed and the position its
    run is taken to end at. *)
Fixpoint match_loop (fuel : nat) (w : Wildcard) (p : list wildcardToken) (v : list rune)
    (pi vi : nat) (star : option (nat * nat)) : option bool :=
  match fuel with
  | O => None
  | S fuel =>
      match v !! vi with
      | None => Some (only_stars (drop pi p))
      | Some r =>
          let retry :=
            match star with
            | Some (s, mark) => match_loop fuel w p v (s + 1) (mark + 1) (Some (s, (mark + 1)%nat))
            | None => Some false
            end in
          match p !! pi with
          | Some Star => match_loop fuel w p v (pi + 1) vi (Some (pi, vi))
          | Some t => if takes_one w t r then match_loop fuel w p v (pi + 1) (vi + 1) star else retry
          | None => retry
          end
      end
  end.

Definition match_fuel (p : list wildcardToken) (v : list rune) : nat :=
  S ((S (length v)) * (length p + length v + 1)).

Definition Match (w : Wildcard) (pattern s : list rune) : bool :=
  let p := tokens w pattern in
  default false (match_loop (match_fuel p s) w p s 0 0 None).

(** ** What a pattern means *)

Inductive glob (w : Wildcard) : list wildcardToken → list rune → Prop :=
| glob_end : glob w [] []
| glob_one t p r v : takes_one w t r = true → glob w p v → glob w (t :: p) (r :: v)
| glob_star_end p v : glob w p v → glob w (Star :: p) v
| glob_star_take p r v : glob w (Star :: p) v → glob w (Star :: p) (r :: v).

Lemma glob_star w p v : glob w (Star :: p) v ↔ ∃ k, (k ≤ length v)%nat ∧ glob w p (drop k v).
Proof.
  split.
  - intros H. remember (Star :: p) as q eqn:E. induction H as [|t q r v Ht|q v H|q r v H IH]; simplify_eq.
    + exists 0%nat. by split; [lia|].
    + destruct (IH eq_refl) as (k & Hk & Hg). exists (S k). by split; [simpl; lia|].
  - intros (k & Hk & Hg). revert k Hk Hg. induction v as [|r v IH]; intros [|k] Hk Hg; simpl in *; try lia.
    + by constructor.
    + by constructor.
    + apply glob_star_take, (IH k); [lia|done].
Qed.

Lemma glob_nonstar w t p v :
  t ≠ Star → glob w (t :: p) v ↔ ∃ r v', v = r :: v' ∧ takes_one w t r = true ∧ glob w p v'.
Proof.
  intros Ht. split.
  - intros H. inversion H; subst; try done. eauto.
  - intros (r & v' & -> & ? & ?). by constructor.
Qed.

(** A run of tokens without a star takes one rune each. *)
Definition starless (q : list wildcardToken) : Prop := Forall (λ t, t ≠ Star) q.

Lemma glob_starless w q p v :
  starless q → glob w (q ++ p) v → (length q ≤ length v)%nat ∧ glob w p (drop (length q) v).
Proof.
  intros Hq. revert v. induction Hq as [|t q Ht Hq IH]; intros v H; simpl in *; [split; [lia|done]|].
  apply glob_nonstar in H as (r & v' & -> & _ & H); [|done]. destruct (IH _ H). simpl. split; [lia|done].
Qed.

Lemma only_stars_glob w p : only_stars p = true ↔ glob w p [].
Proof.
  induction p as [|t p IH]; simpl; [split; [constructor|done]|].
  destruct t; simpl.
  - split; [done|]. by inversion 1.
  - rewrite IH. split; [by constructor|]. by inversion 1.
  - split; [done|]. by inversion 1.
Qed.
(** ** The loop decides the relation *)

Section loop.
Context (w : Wildcard) (p : list wildcardToken) (v : list rune).

(** The rest of the pattern from [pi] matches the rest of the text from [vi]. *)
Definition rest_matches (pi vi : nat) : Prop := glob w (drop pi p) (drop vi v).

(** What the loop knows: without a star the whole question is the question of
    the rests; with one, the run of the star may end at [mark] or later, and the
    tokens since the star, none of them a star, match the runes since [mark]. *)
Definition loop_inv (pi vi : nat) (star : option (nat * nat)) : Prop :=
  (pi ≤ length p)%nat ∧ (vi ≤ length v)%nat ∧
  match star with
  | None => glob w p v ↔ rest_matches pi vi
  | Some (s, mark) =>
      (s < pi)%nat ∧ (mark ≤ vi)%nat ∧ (pi - (s + 1) = vi - mark)%nat ∧
      starless (take (pi - (s + 1)) (drop (s + 1) p)) ∧
      (glob w p v ↔ ∃ k, (mark ≤ k ≤ length v)%nat ∧ rest_matches (s + 1) k) ∧
      (rest_matches (s + 1) mark ↔ rest_matches pi vi)
  end.

Definition loop_measure (pi vi : nat) (star : option (nat * nat)) : nat :=
  (length v - match star with Some (_, m) => m | None => 0 end) * (length p + length v + 1)
  + (length v - vi) + (length p - pi).

Lemma rest_star pi vi :
  p !! pi = Some Star → (vi ≤ length v)%nat →
  rest_matches pi vi ↔ ∃ k, (vi ≤ k ≤ length v)%nat ∧ rest_matches (pi + 1) k.
Proof.
  intros Hp Hvi. unfold rest_matches. rewrite (drop_S p Star pi Hp), glob_star, length_drop.
  split; intros (k & Hk & Hg).
  - exists (vi + k)%nat. split; [lia|]. rewrite drop_drop in Hg. by rewrite Nat.add_1_r.
  - exists (k - vi)%nat. split; [lia|]. rewrite drop_drop, Nat.add_1_r in *.
    by replace (vi + (k - vi))%nat with k by lia.
Qed.

(** The tokens since the star, tried at a later mark. *)
Lemma later_mark s pi mark k :
  (s < pi ≤ length p)%nat → starless (take (pi - (s + 1)) (drop (s + 1) p)) →
  (mark ≤ k ≤ length v)%nat → rest_matches (s + 1) k →
  (k + (pi - (s + 1)) ≤ length v)%nat ∧ rest_matches pi (k + (pi - (s + 1))).
Proof.
  unfold rest_matches. intros Hs Hq Hk Hg.
  rewrite <- (take_drop (pi - (s + 1)) (drop (s + 1) p)) in Hg.
  apply glob_starless in Hg as [Hl Hg]; [|done].
  rewrite length_take, !length_drop in Hl, Hg. rewrite Nat.min_l in Hl, Hg by lia.
  rewrite !drop_drop in Hg. rewrite length_drop in Hl. split; [lia|].
  by replace (s + 1 + (pi - (s + 1)))%nat with pi in Hg by lia.
Qed.

Lemma inv_star pi vi star :
  loop_inv pi vi star → p !! pi = Some Star → loop_inv (pi + 1) vi (Some (pi, vi)).
Proof.
  intros (Hpi & Hvi & Hs) Hp. pose proof (lookup_lt_Some _ _ _ Hp).
  pose proof (rest_star pi vi Hp Hvi) as Hr. split_and!; [lia|done|lia|lia|lia| | |done].
  { by rewrite Nat.sub_diag, take_0; constructor. }
  rewrite <- Hr. destruct star as [[s mark]|]; [|done].
  destruct Hs as (Hspi & Hm & Hlen & Hq & HG & Heq). rewrite HG. split.
  - intros (k & Hk & Hg). destruct (later_mark s pi mark k ltac:(lia) Hq Hk Hg) as [Hb Hg'].
    apply (rest_star pi _ Hp Hb) in Hg' as (j & Hj & Hgj). apply Hr. exists j. split; [lia|done].
  - intros Hg. exists mark. split; [lia|]. by apply Heq.
Qed.

Lemma rest_step pi vi t r :
  p !! pi = Some t → v !! vi = Some r → t ≠ Star →
  rest_matches pi vi ↔ takes_one w t r = true ∧ rest_matches (pi + 1) (vi + 1).
Proof.
  intros Hp Hv Ht. unfold rest_matches.
  rewrite (drop_S p t pi Hp), (drop_S v r vi Hv), glob_nonstar, !Nat.add_1_r by done.
  split; [by intros (r' & v' & [= <- <-] & ? & ?)|intros [? ?]; eauto].
Qed.

Lemma inv_step pi vi star t r :
  loop_inv pi vi star → p !! pi = Some t → v !! vi = Some r → t ≠ Star → takes_one w t r = true →
  loop_inv (pi + 1) (vi + 1) star.
Proof.
  intros (Hpi & Hvi & Hs) Hp Hv Ht Hone. pose proof (lookup_lt_Some _ _ _ Hp). pose proof (lookup_lt_Some _ _ _ Hv).
  assert (rest_matches pi vi ↔ rest_matches (pi + 1) (vi + 1)) as Hr by (rewrite (rest_step pi vi t r); tauto).
  split_and!; [lia|lia|]. destruct star as [[s mark]|]; [|tauto].
  destruct Hs as (Hspi & Hm & Hlen & Hq & HG & Heq). split_and!; [lia|lia|lia| |done|tauto].
  replace (pi + 1 - (s + 1))%nat with (S (pi - (s + 1))) by lia.
  rewrite (take_S_r _ _ t); [by apply Forall_app; split; [|constructor]|].
  rewrite lookup_drop. by replace (s + 1 + (pi - (s + 1)))%nat with pi by lia.
Qed.

(** A text that goes on where the pattern does not take its next rune. *)
Definition stuck (pi vi : nat) : Prop :=
  (vi < length v)%nat ∧ ¬ rest_matches pi vi.

Lemma inv_retry pi vi s mark :
  loop_inv pi vi (Some (s, mark)) → stuck pi vi → loop_inv (s + 1) (mark + 1) (Some (s, (mark + 1)%nat)).
Proof.
  intros (Hpi & Hvi & Hspi & Hm & Hlen & Hq & HG & Heq) [Hlt Hstuck].
  split_and!; [lia|lia|lia|lia|lia| | |done].
  { by rewrite Nat.sub_diag, take_0; constructor. }
  rewrite HG. split; intros (k & Hk & Hg).
  - exists k. split; [|done]. destruct (decide (k = mark)) as [->|]; [tauto|lia].
  - exists k. split; [lia|done].
Qed.

Lemma inv_end pi vi star :
  loop_inv pi vi star → vi = length v → only_stars (drop pi p) = true ↔ glob w p v.
Proof.
  intros (Hpi & _ & Hs) ->.
  assert (only_stars (drop pi p) = true ↔ rest_matches pi (length v)) as Hr.
  { unfold rest_matches. rewrite drop_all. apply only_stars_glob. }
  rewrite Hr. destruct star as [[s mark]|]; [|tauto].
  destruct Hs as (Hspi & Hm & Hlen & Hq & HG & Heq). rewrite HG, <- Heq. split.
  - intros Hg. exists mark. split; [lia|done].
  - intros (k & Hk & Hg). destruct (later_mark s pi mark k ltac:(lia) Hq Hk Hg) as [Hb _].
    by replace mark with k by lia.
Qed.

Lemma match_loop_correct fuel pi vi star :
  loop_inv pi vi star → (loop_measure pi vi star < fuel)%nat →
  ∃ b, match_loop fuel w p v pi vi star = Some b ∧ (b = true ↔ glob w p v).
Proof.
  revert pi vi star. induction fuel as [|fuel IH]; intros pi vi star Hinv Hf; [lia|]. cbn [match_loop].
  pose proof Hinv as (Hpi & Hvi & Hs).
  destruct (v !! vi) as [r|] eqn:Ev; cycle 1.
  { eexists. split; [done|]. eapply inv_end; [exact Hinv|]. apply lookup_ge_None in Ev. lia. }
  pose proof (lookup_lt_Some _ _ _ Ev) as Hlt.
  assert (stuck pi vi → ∃ b,
    match star with
    | Some (s, mark) => match_loop fuel w p v (s + 1) (mark + 1) (Some (s, (mark + 1)%nat))
    | None => Some false
    end = Some b ∧ (b = true ↔ glob w p v)) as Hretry.
  { intros Hst. destruct star as [[s mark]|].
    - apply IH; [by eapply inv_retry|]. destruct Hs as (? & ? & _). unfold loop_measure in *. nia.
    - exists false. split; [done|]. split; [done|]. intros Hg. destruct Hst as [_ Hn]. by destruct Hn; apply Hs. }
  destruct (p !! pi) as [t|] eqn:Ep; cycle 1.
  { apply Hretry. split; [done|]. unfold rest_matches. apply lookup_ge_None in Ep.
    rewrite drop_ge by done. rewrite (drop_S v r vi Ev). by inversion 1. }
  pose proof (lookup_lt_Some _ _ _ Ep) as Hlp.
  assert (t ≠ Star → ∃ b,
    (if takes_one w t r then match_loop fuel w p v (pi + 1) (vi + 1) star
     else match star with
          | Some (s, mark) => match_loop fuel w p v (s + 1) (mark + 1) (Some (s, (mark + 1)%nat))
          | None => Some false
          end) = Some b ∧ (b = true ↔ glob w p v)) as Hone.
  { intros Ht. destruct (takes_one w t r) eqn:Eo.
    - apply IH; [by eapply inv_step|]. unfold loop_measure in *. destruct star as [[s mark]|]; nia.
    - apply Hretry. split; [done|]. rewrite (rest_step pi vi t r) by done. by intros [? _]; congruence. }
  destruct t; [by apply Hone| |by apply Hone].
  apply IH; [by eapply inv_star|]. unfold loop_measure in *. destruct star as [[s mark]|]; [|nia].
  destruct Hs as (? & ? & _). nia.
Qed.
End loop.
End Match.

(** [C40] [Match] decides the pattern language: for every syntax, pattern and
    text, the backtracking loop, which remembers only the last star, ends and
    answers true exactly when the text can be split among the pattern's tokens,
    stars taking any run, [?] any one rune, and literals the same rune up to
    case when the syntax folds it. *)
Theorem match_decides_the_pattern (SimpleFold : Z → Z) (w : Wildcard) (pattern s : list Z) :
  (Match SimpleFold w pattern s = true ↔ glob SimpleFold w (tokens w pattern) s) ∧
  match_loop SimpleFold (match_fuel (tokens w pattern) s) w (tokens w pattern) s 0 0 None ≠ None.
Proof.
  unfold Match. destruct (match_loop_correct SimpleFold w (tokens w pattern) s
    (match_fuel (tokens w pattern) s) 0 0 None) as (b & -> & Hb); [|unfold match_fuel, loop_measure; lia|done].
  split_and!; [lia|lia|]. unfold rest_matches. by rewrite !drop_0.
Qed.

(** The pattern [a*b?c] of a syntax with [?], on [axxbyc], where the star first
    has to give back what it took, and on [axxbc]. *)
Example match_examples :
  let w := MkWildcard true [42; 63] false in
  Match (λ r, r) w [97; 42; 98; 63; 99] [97; 98; 120; 98; 121; 99] = true ∧
  Match (λ r, r) w [97; 42; 98; 63; 99] [97; 120; 120; 98; 99] = false ∧
  Match (λ r, r) w [97; 92; 42] [97; 42] = true ∧ Match (λ r, r) w [97; 92; 42] [97; 98] = false.
Proof. by vm_compute. Qed.
