(* ===== verification/Extents.v ===== *)
(** * Extent sets: [src/sim/sparse/extents.go]

    Sorted, disjoint sets of inclusive byte ranges and the arithmetic on them.
    The reference is the set of offsets an extent set covers. [sort.Slice],
    which is not stable, is a parameter: any function that permutes its input
    into ascending order of Start. *)

From S2P Require Import Prelude.

Record Extent := MkExtent { Start : Z; End_ : Z }.

(** The loop of [Merge]; the slice it builds, last extent first. It reuses the
    array it reads, but never writes past the extent it has just read. *)
Fixpoint merge_loop (merged out : list Extent) : list Extent :=
  match out with
  | [] => rev merged
  | e :: out =>
      match merged with
      | m :: rest =>
          if Start e <=? i64 (End_ m + 1)
          then merge_loop (MkExtent (Start m) (Z.max (End_ m) (End_ e)) :: rest) out
          else merge_loop (e :: merged) out
      | [] => merge_loop [e] out
      end
  end.

Definition Merge (sort_Slice : list Extent → list Extent) (set : list Extent) (start stop : Z) : list Extent :=
  merge_loop [] (sort_Slice (set ++ [MkExtent start stop])).

Definition subtract_one (start stop : Z) (e : Extent) : list Extent :=
  if (End_ e <? start) || (stop <? Start e) then [e]
  else (if Start e <? start then [MkExtent (Start e) (i64 (start - 1))] else [])
       ++ (if stop <? End_ e then [MkExtent (i64 (stop + 1)) (End_ e)] else []).

Definition Subtract (set : list Extent) (start stop : Z) : list Extent :=
  set ≫= subtract_one start stop.

Definition Clip (set : list Extent) (start stop : Z) : list Extent :=
  omap (λ e, let lo := Z.max (Start e) start in let hi := Z.min (End_ e) stop in
             if lo <=? hi then Some (MkExtent lo hi) else None) set.

Definition Diff (a b : list Extent) : list Extent :=
  foldl (λ out e, Subtract out (Start e) (End_ e)) a b.

(** ** The offsets a set covers *)

Definition covers (set : list Extent) (x : Z) : Prop := ∃ e, e ∈ set ∧ Start e ≤ x ≤ End_ e.

Definition extent_ok (e : Extent) : Prop := 0 ≤ Start e ∧ Start e ≤ End_ e ∧ End_ e < 2 ^ 63 - 1.
Definition before (a b : Extent) : Prop := End_ a < Start b.
Definition apart (a b : Extent) : Prop := End_ a + 1 < Start b.

(** Sorted and disjoint; [Merge] also leaves a gap between extents. *)
Record extents_ok (set : list Extent) : Prop := {
  eo_each : Forall extent_ok set;
  eo_order : StronglySorted before set
}.

Lemma covers_app a b x : covers (a ++ b) x ↔ covers a x ∨ covers b x.
Proof.
  unfold covers. split.
  - intros (e & [He|He]%elem_of_app & Hx); eauto.
  - intros [(e & He & Hx)|(e & He & Hx)]; exists e; rewrite elem_of_app; auto.
Qed.

Lemma covers_cons e a x : covers (e :: a) x ↔ Start e ≤ x ≤ End_ e ∨ covers a x.
Proof.
  unfold covers. split.
  - intros (e' & [->|He]%elem_of_cons & Hx); eauto.
  - intros [?|(e' & He & Hx)]; [exists e|exists e']; rewrite elem_of_cons; auto.
Qed.

Lemma covers_nil x : covers [] x ↔ False.
Proof. split; [|done]. intros (e & He & _). by apply not_elem_of_nil in He. Qed.

Lemma covers_perm a b x : a ≡ₚ b → covers a x ↔ covers b x.
Proof. intros Hp. unfold covers. by setoid_rewrite Hp. Qed.

#[global] Instance covers_proper : Proper ((≡ₚ) ==> eq ==> iff) covers.
Proof. intros a b Hp x y ->. by apply covers_perm. Qed.

(** Merging a list sorted by Start; [merged] holds gap-separated extents, the
    last one first, and starts no later than what is still to come. *)
Lemma merge_loop_spec merged out :
  Forall extent_ok merged → Forall extent_ok out →
  StronglySorted (flip apart) merged → StronglySorted (λ a b, Start a ≤ Start b) out →
  (∀ m e, head merged = Some m → e ∈ out → Start m ≤ Start e) →
  let r := merge_loop merged out in
  Forall extent_ok r ∧ StronglySorted apart r ∧ ∀ x, covers r x ↔ covers merged x ∨ covers out x.
Proof.
  revert merged. induction out as [|e out IH]; intros merged Hm Ho Sm So Hh; cbn [merge_loop].
  { split_and!; [by apply Forall_rev|by apply StronglySorted_rev_flip|].
    intros x. rewrite <- (covers_perm merged (rev merged)) by apply Permutation_rev.
    rewrite covers_nil. tauto. }
  apply Forall_cons in Ho as [He Ho]. apply StronglySorted_cons in So as [Hes So].
  rewrite Forall_forall in Hes. destruct He as (E1 & E2 & E3).
  destruct merged as [|m rest].
  { destruct (IH [e]) as (I1 & I2 & I3);
      [by repeat constructor|done|by repeat constructor|done|by intros m e' [= <-]; apply Hes|].
    split_and!; [done|done|]. intros x. rewrite I3, !covers_cons, covers_nil. tauto. }
  apply Forall_cons in Hm as [(M1 & M2 & M3) Hm]. apply StronglySorted_cons in Sm as [Hmr Sm].
  rewrite i64_id by (unfold in_i64; lia).
  assert (Start m ≤ Start e) as Hme by (apply Hh; [done|left]).
  destruct (Z.leb_spec (Start e) (End_ m + 1)) as [Hle|Hgt].
  - destruct (IH (MkExtent (Start m) (Z.max (End_ m) (End_ e)) :: rest)) as (I1 & I2 & I3).
    + constructor; [|done]. unfold extent_ok. simpl. lia.
    + done.
    + constructor; [done|]. exact Hmr.
    + done.
    + intros m' e' [= <-] He'. simpl. specialize (Hes e' He'). simpl in Hes. lia.
    + split_and!; [done|done|]. intros x. rewrite I3, !covers_cons. simpl.
      assert (Start m ≤ x ≤ Z.max (End_ m) (End_ e) ↔ Start m ≤ x ≤ End_ m ∨ Start e ≤ x ≤ End_ e) by lia. tauto.
  - destruct (IH (e :: m :: rest)) as (I1 & I2 & I3).
    + by repeat constructor.
    + done.
    + constructor; [by constructor|]. constructor; [unfold apart; simpl; lia|].
      eapply Forall_impl; [exact Hmr|]. unfold apart. simpl. lia.
    + done.
    + intros m' e' [= <-]. apply Hes.
    + split_and!; [done|done|]. intros x. rewrite I3, !covers_cons. tauto.
Qed.

Lemma subtract_one_spec start stop e :
  0 ≤ start ≤ stop → stop < 2 ^ 63 - 1 → extent_ok e →
  Forall (λ p, extent_ok p ∧ Start e ≤ Start p ∧ End_ p ≤ End_ e) (subtract_one start stop e) ∧
  StronglySorted before (subtract_one start stop e) ∧
  ∀ x, covers (subtract_one start stop e) x ↔ Start e ≤ x ≤ End_ e ∧ ¬ (start ≤ x ≤ stop).
Proof.
  intros Hs Hst (E1 & E2 & E3). unfold subtract_one.
  destruct (Z.ltb_spec (End_ e) start), (Z.ltb_spec stop (Start e)); cbn [orb];
    try (split_and!; [rewrite Forall_cons, Forall_nil; unfold extent_ok; lia|repeat constructor|];
         intros x; rewrite covers_cons, covers_nil; lia).
  rewrite !i64_id by (unfold in_i64; lia).
  destruct (Z.ltb_spec (Start e) start), (Z.ltb_spec stop (End_ e)); cbn [app];
    (split_and!; [rewrite ?Forall_cons, ?Forall_nil; unfold extent_ok; simpl; lia
                 |repeat (apply SSorted_cons || apply SSorted_nil);
                  rewrite ?Forall_cons, ?Forall_nil; unfold before; simpl; lia|]);
    intros x; rewrite ?covers_cons, covers_nil; simpl; lia.
Qed.
Lemma Subtract_spec set start stop :
  0 ≤ start ≤ stop → stop < 2 ^ 63 - 1 → extents_ok set →
  extents_ok (Subtract set start stop) ∧
  (∀ p, p ∈ Subtract set start stop → ∃ e, e ∈ set ∧ Start e ≤ Start p ∧ End_ p ≤ End_ e) ∧
  ∀ x, covers (Subtract set start stop) x ↔ covers set x ∧ ¬ (start ≤ x ≤ stop).
Proof.
  intros Hs Hst [He Ho]. induction set as [|e set IH]; unfold Subtract; csimpl.
  { split_and!; [by split; constructor|by intros p Hp%not_elem_of_nil|intros x; rewrite covers_nil; tauto]. }
  apply Forall_cons in He as [He Hes]. apply StronglySorted_cons in Ho as [Hb Ho].
  destruct (IH Hes Ho) as ([I1 I2] & I3 & I4). fold (Subtract set start stop).
  destruct (subtract_one_spec start stop e Hs Hst He) as (S1 & S2 & S3).
  rewrite Forall_forall in S1, Hb. split_and!.
  - split.
    + apply Forall_app. split; [|done]. apply Forall_forall. intros p Hp. by apply S1.
    + apply StronglySorted_app_2; [|done|done]. intros a b Ha Hb'.
      destruct (S1 a Ha) as (_ & _ & Hae). destruct (I3 b Hb') as (e' & He' & Hb1 & _).
      specialize (Hb e' He'). unfold before in *. lia.
  - intros p [Hp|Hp]%elem_of_app.
    + exists e. destruct (S1 p Hp) as (_ & ? & ?). split; [left|lia].
    + destruct (I3 p Hp) as (e' & ? & ?). exists e'. split; [by right|done].
  - intros x. rewrite covers_app, covers_cons, S3, I4. tauto.
Qed.

Lemma Clip_spec set start stop :
  extents_ok set →
  extents_ok (Clip set start stop) ∧
  (∀ p, p ∈ Clip set start stop → ∃ e, e ∈ set ∧ Start e ≤ Start p ∧ End_ p ≤ End_ e) ∧
  ∀ x, covers (Clip set start stop) x ↔ covers set x ∧ start ≤ x ≤ stop.
Proof.
  intros [He Ho]. induction set as [|e set IH]; unfold Clip; csimpl.
  { split_and!; [by split; constructor|by intros p Hp%not_elem_of_nil|intros x; rewrite covers_nil; tauto]. }
  apply Forall_cons in He as [(E1 & E2 & E3) Hes]. apply StronglySorted_cons in Ho as [Hb Ho].
  destruct (IH Hes Ho) as ([I1 I2] & I3 & I4). fold (Clip set start stop). rewrite Forall_forall in Hb.
  destruct (Z.leb_spec (Z.max (Start e) start) (Z.min (End_ e) stop)).
  - split_and!.
    + split; constructor; [unfold extent_ok; simpl; lia|done|done|].
      apply Forall_forall. intros b Hb'. destruct (I3 b Hb') as (e' & He' & Hb1 & _).
      specialize (Hb e' He'). unfold before in *. simpl. lia.
    + intros p [->|Hp]%elem_of_cons; [exists e; split; [left|simpl; lia]|].
      destruct (I3 p Hp) as (e' & ? & ?). exists e'. split; [by right|done].
    + intros x. rewrite !covers_cons, I4. simpl. split; [intros [?|?]; split; (left; lia) || (right; tauto) || lia|].
      intros [[?|?] ?]; [left; lia|right; tauto].
  - split_and!; [done| |].
    + intros p Hp. destruct (I3 p Hp) as (e' & ? & ?). exists e'. split; [by right|done].
    + intros x. rewrite covers_cons, I4. split; [tauto|]. intros [[?|?] ?]; [lia|tauto].
Qed.

Lemma Diff_spec a b :
  extents_ok a → Forall extent_ok b →
  extents_ok (Diff a b) ∧ ∀ x, covers (Diff a b) x ↔ covers a x ∧ ¬ covers b x.
Proof.
  intros Ha Hb. revert a Ha. induction Hb as [|e b (E1 & E2 & E3) Hb IH]; intros a Ha; unfold Diff; simpl.
  { split; [done|]. intros x. rewrite covers_nil. tauto. }
  destruct (Subtract_spec a (Start e) (End_ e) ltac:(lia) E3 Ha) as (H1 & _ & H2).
  destruct (IH _ H1) as [I1 I2]. split; [done|]. intros x. unfold Diff in I2. rewrite I2, H2, covers_cons. tauto.
Qed.

Section Merge.
Context (sort_Slice : list Extent → list Extent).
Context (sort_perm : ∀ l, sort_Slice l ≡ₚ l)
        (sort_sorted : ∀ l, StronglySorted (λ a b, Start a ≤ Start b) (sort_Slice l)).

Lemma Merge_spec set start stop :
  0 ≤ start ≤ stop → stop < 2 ^ 63 - 1 → Forall extent_ok set →
  Forall extent_ok (Merge sort_Slice set start stop) ∧ StronglySorted apart (Merge sort_Slice set start stop) ∧
  ∀ x, covers (Merge sort_Slice set start stop) x ↔ covers set x ∨ start ≤ x ≤ stop.
Proof.
  intros Hs Hst He. unfold Merge.
  destruct (merge_loop_spec [] (sort_Slice (set ++ [MkExtent start stop]))) as (I1 & I2 & I3).
  - constructor.
  - rewrite sort_perm. apply Forall_app. split; [done|]. constructor; [unfold extent_ok; simpl; lia|constructor].
  - constructor.
  - apply sort_sorted.
  - done.
  - split_and!; [done|done|]. intros x. rewrite I3, sort_perm, covers_app, covers_cons, !covers_nil. simpl. tauto.
Qed.
End Merge.

(** Extent sets behave as sets of offsets: on a sorted, disjoint set below
    the largest offset, [Merge] adds a range, [Subtract] removes one, [Clip]
    keeps a window and [Diff] takes one set from another; each result is again
    sorted and disjoint, and after [Merge] no two extents touch. [sort.Slice]
    may leave extents with equal starts in any order. *)
Theorem extent_sets_are_sets (sort_Slice : list Extent → list Extent) (set other : list Extent) (start stop : Z) :
  (∀ l, sort_Slice l ≡ₚ l) → (∀ l, StronglySorted (λ a b, Start a ≤ Start b) (sort_Slice l)) →
  extents_ok set → extents_ok other → 0 ≤ start ≤ stop → stop < 2 ^ 63 - 1 →
  (extents_ok (Merge sort_Slice set start stop) ∧ StronglySorted apart (Merge sort_Slice set start stop) ∧
   ∀ x, covers (Merge sort_Slice set start stop) x ↔ covers set x ∨ start ≤ x ≤ stop) ∧
  (extents_ok (Subtract set start stop) ∧
   ∀ x, covers (Subtract set start stop) x ↔ covers set x ∧ ¬ (start ≤ x ≤ stop)) ∧
  (extents_ok (Clip set start stop) ∧
   ∀ x, covers (Clip set start stop) x ↔ covers set x ∧ start ≤ x ≤ stop) ∧
  (extents_ok (Diff set other) ∧
   ∀ x, covers (Diff set other) x ↔ covers set x ∧ ¬ covers other x).
Proof.
  intros Hp Hs Hset Hother Hb Hst.
  destruct (Merge_spec sort_Slice Hp Hs set start stop Hb Hst (eo_each _ Hset)) as (M1 & M2 & M3).
  destruct (Subtract_spec set start stop Hb Hst Hset) as (S1 & _ & S2).
  destruct (Clip_spec set start stop Hset) as (C1 & _ & C2).
  split_and!; try done; [|apply (Diff_spec set other Hset (eo_each _ Hother))..].
  split; [done|]. eapply StronglySorted_impl; [|exact M2]. unfold apart, before. lia.
Qed.

Definition by_start (a b : Extent) : bool := Start a <? Start b.

Lemma by_start_sorted l : StronglySorted (λ a b, Start a ≤ Start b) (SliceStable by_start l).
Proof.
  eapply StronglySorted_impl; [|apply SliceStable_sorted]; unfold not_after, by_start.
  - intros a b H. bools. lia.
  - intros a b H. bools. apply Z.ltb_ge. lia.
  - intros a b c H1 H2. bools. apply Z.ltb_ge. lia.
Qed.

Lemma extent_sets_are_sets_witness :
  Merge (SliceStable by_start) [MkExtent 0 9; MkExtent 20 29] 10 19 = [MkExtent 0 29] ∧
  covers (Merge (SliceStable by_start) [MkExtent 0 9; MkExtent 20 29] 10 19) 15.
Proof.
  destruct (extent_sets_are_sets (SliceStable by_start) [MkExtent 0 9; MkExtent 20 29] [MkExtent 5 24] 10 19)
    as ((_ & _ & H) & _).
  - apply SliceStable_perm.
  - apply by_start_sorted.
  - split; [repeat constructor; simpl; lia|]. repeat constructor.
  - split; [repeat constructor; simpl; lia|]. repeat constructor.
  - lia.
  - lia.
  - split; [by vm_compute|]. apply H. right. lia.
Defined.
