(* ===== verification/Blob.v ===== *)
(** * Object listings, ranges and conditions: [src/sim/blobstore]

    Delimited listings and their pages ([listing.go]), byte ranges
    ([ranges.go]) and conditional requests ([conditions.go]). The HTTP replies
    themselves are not modelled; [http.ParseTime] is a parameter. *)

From S2P Require Import Prelude Gostd.

(** ** Delimited listings *)

Record Entry (T : Type) := MkEntry {
  Key : string;
  Prefix : bool;
  Item : option T;
  Cursor : string;
  last_ : string
}.
Arguments MkEntry {T}. Arguments Key {T}. Arguments Prefix {T}. Arguments Item {T}.
Arguments Cursor {T}. Arguments last_ {T}.

(** What the loop does with a name: list it, roll it into a common prefix, or
    panic on a slice past the end of a name outside the prefix. *)
Inductive rolled := Listed | Rolled (common : string) | RollPanic.

Definition roll (prefix delimiter key : string) : rolled :=
  if bool_decide (delimiter = "") then Listed
  else match Index (TrimPrefix key prefix) delimiter with
       | None => Listed
       | Some at_ =>
           let n := (String.length prefix + at_ + String.length delimiter)%nat in
           if (n <=? String.length key)%nat then Rolled (String.substring 0 n key) else RollPanic
       end.

Section listing.
Context {T : Type} (name cursor : T → string) (prefix delimiter : string).

(** The loop of [RollUp]; the entries so far, the last one first. *)
Fixpoint roll_loop (entries : list (Entry T)) (items : list T) : option (list (Entry T)) :=
  match items with
  | [] => Some (rev entries)
  | item :: items =>
      match roll prefix delimiter (name item) with
      | RollPanic => None
      | Rolled common =>
          match entries with
          | e :: rest =>
              if Prefix e && bool_decide (Key e = common)
              then roll_loop (MkEntry (Key e) (Prefix e) (Item e) (Cursor e) (cursor item) :: rest) items
              else roll_loop (MkEntry common true None common (cursor item) :: entries) items
          | [] => roll_loop [MkEntry common true None common (cursor item)] items
          end
      | Listed => roll_loop (MkEntry (name item) false (Some item) (cursor item) (cursor item) :: entries) items
      end
  end.
End listing.

Definition RollUp {T} (items : list T) (name : T → string) (cursor : option (T → string))
    (prefix delimiter : string) : option (list (Entry T)) :=
  roll_loop name (default name cursor) prefix delimiter [] items.

(** The loop of [PageAfter] that passes the entries up to the marker. *)
Fixpoint skip_to {T} (marker : string) (entries : list (Entry T)) : list (Entry T) :=
  match entries with
  | [] => []
  | e :: rest =>
      if sltb marker (last_ e) && (negb (Prefix e) || negb (bool_decide (Key e = marker)))
      then entries else skip_to marker rest
  end.

Definition PageAfter {T} (entries : list (Entry T)) (marker : string) (limit : Z)
  : list (Entry T) * bool * string :=
  let page := if bool_decide (marker = "") then entries else skip_to marker entries in
  if (0 <=? limit) && (limit <? Z.of_nat (length page))
  then let page := take (Z.to_nat limit) page in
       (page, true, if 0 <? limit then match last page with Some e => Cursor e | None => "" end else "")
  else (page, false, "").

(** ** Byte ranges *)

Record RangeOpts := MkRangeOpts { AllowSuffix : bool; AllowOpenEnd : bool; ClampEnd : bool }.

Record ByteRange := MkByteRange {
  br_first : Z; br_last : Z; br_suffix : bool; br_openEnd : bool; br_clamp : bool
}.

(** The [number] closure of [ParseRange]: digits without a sign other than a
    minus, which only zero survives. *)
Definition number (s : string) : option Z :=
  match ParseInt s with
  | Some n => if (0 <=? n) && negb (HasPrefix s "+") then Some n else None
  | None => None
  end.

Definition ParseRange (header : string) (opts : RangeOpts) : option ByteRange :=
  match CutPrefix (TrimSpace header) "bytes=" with
  | None => None
  | Some spec =>
      if ContainsStr spec "," then None
      else match Cut spec "-" with
           | None => None
           | Some (lo, hi) =>
               let lo := TrimSpace lo in
               let hi := TrimSpace hi in
               if bool_decide (lo = "") then
                 match number hi with
                 | Some n => if AllowSuffix opts then Some (MkByteRange 0 n true false (ClampEnd opts)) else None
                 | None => None
                 end
               else if bool_decide (hi = "") then
                 match number lo with
                 | Some n => if AllowOpenEnd opts then Some (MkByteRange n 0 false true (ClampEnd opts)) else None
                 | None => None
                 end
               else match number lo, number hi with
                    | Some first, Some last =>
                        if last <? first then None
                        else Some (MkByteRange first last false false (ClampEnd opts))
                    | _, _ => None
                    end
           end
  end.

Definition Bounds (b : ByteRange) : option (Z * Z) :=
  if negb (br_suffix b) && negb (br_openEnd b) then Some (br_first b, br_last b) else None.

Definition Resolve (b : ByteRange) (size : Z) : option (Z * Z) :=
  if br_suffix b then
    if (br_last b =? 0) || (size =? 0) then None
    else Some (Z.max (i64 (size - br_last b)) 0, i64 (size - 1))
  else if size <=? br_first b then None
  else if br_openEnd b then Some (br_first b, i64 (size - 1))
  else if size <=? br_last b then
    if negb (br_clamp b) then None else Some (br_first b, i64 (size - 1))
  else Some (br_first b, br_last b).

(** ** Conditional requests *)

Inductive Access := ReadAccess | ModifyAccess | CreateAccess.
#[global] Instance Access_eq_dec : EqDecision Access.
Proof. solve_decision. Defined.

Record Validators := MkValidators { ETag : string; Modified : Time; ValidatorsExists : bool }.

Inductive Outcome := Proceed | NotModified | PreconditionFailed | AlreadyExists.

(** The headers [EvaluateHTTP] reads; an absent header reads as empty. *)
Record Conditions := MkConditions {
  IfMatch : string; IfUnmodifiedSince : string; IfNoneMatch : string; IfModifiedSince : string
}.

Definition dquote : ascii := char_of 34.

Definition ETagListMatches (header etag : string) : bool :=
  existsb (λ candidate,
    let candidate := TrimSpace candidate in
    bool_decide (candidate = "*") || bool_decide (TrimChar dquote candidate = TrimChar dquote etag))
  (Split header ",").

Definition EvaluateHTTP (ParseTime : string → option Time) (h : Conditions) (v : Validators)
    (access : Access) : Outcome :=
  let modified := Modified v - Modified v mod Second in
  let failed :=
    if bool_decide (IfMatch h ≠ "") then negb (ValidatorsExists v) || negb (ETagListMatches (IfMatch h) (ETag v))
    else match ParseTime (IfUnmodifiedSince h) with
         | Some since => ValidatorsExists v && (since <? modified)
         | None => false
         end in
  if failed then PreconditionFailed
  else
    let (unchanged, exists_) :=
      if bool_decide (IfNoneMatch h ≠ "") then
        let unchanged := ValidatorsExists v && ETagListMatches (IfNoneMatch h) (ETag v) in
        (unchanged, unchanged && bool_decide (access = CreateAccess) && bool_decide (TrimSpace (IfNoneMatch h) = "*"))
      else match ParseTime (IfModifiedSince h) with
           | Some since => (ValidatorsExists v && negb (since <? modified), false)
           | None => (false, false)
           end in
    if exists_ then AlreadyExists
    else if negb unchanged then Proceed
    else if bool_decide (access = ReadAccess) then NotModified
    else PreconditionFailed.

(** ** Listings: what rolling up leaves *)

(** The line a name under the prefix is listed on: its key, and whether it is a
    common prefix. *)
Definition line_of (prefix delimiter key : string) : string * bool :=
  match roll prefix delimiter key with Rolled common => (common, true) | _ => (key, false) end.

Section roll_up.
Context (prefix delimiter : string).
Abbreviation roll' := (roll prefix delimiter).
Abbreviation line := (line_of prefix delimiter).

Lemma roll_under rest :
  roll' (prefix +:+ rest) =
    if bool_decide (delimiter = "") then Listed
    else match Cut rest delimiter with
         | None => Listed
         | Some (a, _) => Rolled (prefix +:+ a +:+ delimiter)
         end.
Proof.
  unfold roll. destruct (bool_decide_reflect (delimiter = "")); [done|].
  rewrite TrimPrefix_append. unfold Index. destruct (Cut rest delimiter) as [[a b]|] eqn:E; [|done].
  simpl. apply Cut_Some in E as ->.
  assert (prefix +:+ a +:+ delimiter +:+ b = (prefix +:+ a +:+ delimiter) +:+ b) as -> by (by rewrite !append_assoc_s).
  assert (String.length prefix + String.length a + String.length delimiter = String.length (prefix +:+ a +:+ delimiter))%nat
    as -> by (rewrite !length_append_s; lia).
  rewrite (proj2 (Nat.leb_le _ _)) by (rewrite (length_append_s _ b); lia). by rewrite substring_app.
Qed.

(** A common prefix begins every name it stands for, and stands for every name
    under the listing's prefix that it begins. *)
Lemma rolled_spec key common :
  HasPrefix key prefix = true → roll' key = Rolled common →
  HasPrefix key common = true ∧
  ∀ key', HasPrefix key' common = true → HasPrefix key' prefix = true ∧ roll' key' = Rolled common.
Proof.
  intros [rest ->]%HasPrefix_spec. rewrite roll_under.
  destruct (bool_decide_reflect (delimiter = "")) as [|Hd]; [done|].
  destruct (Cut rest delimiter) as [[a b]|] eqn:E; [|done]. intros [= <-]. split.
  - apply Cut_Some in E as ->. apply HasPrefix_spec. exists b. by rewrite !append_assoc_s.
  - intros key' [r ->]%HasPrefix_spec. rewrite !append_assoc_s. split; [apply HasPrefix_append|].
    rewrite roll_under, bool_decide_eq_false_2 by done. by rewrite (Cut_stable _ _ _ _ r E).
Qed.

Lemma roll_never_panics key : HasPrefix key prefix = true → roll' key ≠ RollPanic.
Proof.
  intros [rest ->]%HasPrefix_spec. rewrite roll_under.
  destruct (bool_decide _); [done|]. by destruct (Cut rest delimiter) as [[? ?]|].
Qed.

(** A listed name is not a common prefix. *)
Lemma listed_not_common key key' common :
  HasPrefix key prefix = true → HasPrefix key' prefix = true →
  roll' key = Listed → roll' key' = Rolled common → key ≠ common.
Proof.
  intros Hk Hk' Hl Hr ->. destruct (rolled_spec key' common Hk' Hr) as [_ H].
  destruct (H common) as [_ H']; [|congruence]. rewrite <- (append_nil_s common) at 1. apply HasPrefix_append.
Qed.

(** What an entry says of the names listed so far. *)
Definition entry_ok {T} (name : T → string) (items : list T) (e : Entry T) : Prop :=
  HasPrefix (last_ e) prefix = true ∧ (Key e, Prefix e) = line (last_ e) ∧ Cursor e = Key e ∧
  (∃ item, item ∈ items ∧ name item = last_ e) ∧
  (Prefix e = false → ∃ item, item ∈ items ∧ Item e = Some item ∧ name item = Key e).

Lemma entry_cursor_le {T} (name : T → string) items e : entry_ok name items e → sltb (last_ e) (Cursor e) = false.
Proof.
  intros (Hp & Hl & -> & _). unfold line_of in Hl. destruct (roll' (last_ e)) eqn:Er.
  - injection Hl as -> _. apply sltb_false. by left.
  - injection Hl as -> _. apply HasPrefix_le. by eapply rolled_spec.
  - by apply roll_never_panics in Er.
Qed.

Lemma line_key_inj key key' :
  HasPrefix key prefix = true → HasPrefix key' prefix = true → (line key).1 = (line key').1 → line key = line key'.
Proof.
  intros Hk Hk'. pose proof (listed_not_common key key'). pose proof (listed_not_common key' key).
  pose proof (roll_never_panics key Hk). pose proof (roll_never_panics key' Hk').
  unfold line_of. destruct (roll' key) eqn:E1, (roll' key') eqn:E2; simpl; try done; intros Heq.
  - by subst.
  - by destruct (H common Hk Hk' eq_refl eq_refl).
  - by destruct (H0 common Hk' Hk eq_refl eq_refl).
  - by subst.
Qed.

(** The entries of a listing of [items], whose names ascend, last first. *)
Record listing_ok {T} (name : T → string) (items : list T) (entries : list (Entry T)) : Prop := {
  lo_entries : Forall (entry_ok name items) entries;
  lo_order : StronglySorted (λ a b, slt (last_ b) (Cursor a)) entries;
  lo_last : ∀ e, head entries = Some e → ∀ item, item ∈ items → name item = last_ e ∨ slt (name item) (last_ e);
  lo_all : ∀ item, item ∈ items → ∃ e, e ∈ entries ∧ (Key e, Prefix e) = line (name item)
}.

Lemma entry_ok_more {T} (name : T → string) items more e :
  entry_ok name items e → entry_ok name (items ++ more) e.
Proof.
  intros (H1 & H2 & H3 & (i & H4 & H4') & H5). split_and!; [done..| |].
  - exists i. split; [apply elem_of_app; by left|done].
  - intros Hp. destruct (H5 Hp) as (j & ? & ?). exists j. split; [apply elem_of_app; by left|done].
Qed.

(** Two entries in listing order: the second begins after the first ends. *)
Lemma entry_after {T} (name : T → string) items e key :
  entry_ok name items e → HasPrefix key prefix = true → slt (last_ e) key →
  (Key e, Prefix e) ≠ line key → slt (last_ e) (line key).1.
Proof.
  intros (Hp & Hl & _) Hk Hlt Hne. rewrite Hl in Hne. unfold line_of in Hne |- *.
  destruct (roll' key) as [|common|] eqn:Er; simpl in *; [done| |done].
  destruct (rolled_spec key common Hk Er) as [Hc Hall].
  destruct (HasPrefix (last_ e) common) eqn:Hec.
  - destruct (Hall _ Hec) as [_ Hr]. by rewrite Hr in Hne.
  - destruct (sltb (last_ e) common) eqn:Hs; [by apply sltb_slt|].
    pose proof (prefix_run common (last_ e) key Hec Hs Hc) as Hlt'.
    exfalso. eapply slt_irrefl. etrans; [exact Hlt|exact Hlt'].
Qed.

Lemma listing_grow {T} (name : T → string) items entries item e :
  listing_ok name items entries → entry_ok name (items ++ [item]) e → last_ e = name item →
  (∀ i, i ∈ items → slt (name i) (name item)) →
  (∀ m, head entries = Some m → slt (last_ m) (Cursor e)) →
  (Key e, Prefix e) = line (name item) →
  listing_ok name (items ++ [item]) (e :: entries).
Proof.
  intros [L1 L2 L3 L4] He Hl Hlt Hhead Hline. split.
  - constructor; [done|]. eapply Forall_impl; [exact L1|]. intros m. apply entry_ok_more.
  - constructor; [done|]. apply Forall_forall. intros m Hm. destruct entries as [|m0 rest]; [by apply not_elem_of_nil in Hm|].
    specialize (Hhead m0 eq_refl). apply elem_of_cons in Hm as [->|Hm]; [done|].
    apply StronglySorted_cons in L2 as [L2 _]. rewrite Forall_forall in L2. specialize (L2 m Hm). simpl in L2.
    apply Forall_cons in L1 as [L1 _]. apply entry_cursor_le in L1. apply sltb_false in L1 as [L1|L1].
    + rewrite <- L1 in L2. by etrans.
    + etrans; [exact L2|]. by etrans.
  - intros m [= <-] i Hi. rewrite Hl. apply elem_of_app in Hi as [Hi| ->%list_elem_of_singleton]; [right; auto|by left].
  - intros i Hi. apply elem_of_app in Hi as [Hi| ->%list_elem_of_singleton].
    + destruct (L4 i Hi) as (m & ? & ?). exists m. split; [by right|done].
    + exists e. split; [left|done].
Qed.

Lemma listing_extend {T} (name : T → string) items e rest item :
  listing_ok name items (e :: rest) → HasPrefix (name item) prefix = true →
  (∀ i, i ∈ items → slt (name i) (name item)) →
  Prefix e = true → roll' (name item) = Rolled (Key e) →
  listing_ok name (items ++ [item]) (MkEntry (Key e) (Prefix e) (Item e) (Cursor e) (name item) :: rest).
Proof.
  intros [L1 L2 L3 L4] Hp Hlt Hpre Hroll. apply Forall_cons in L1 as [He L1].
  apply StronglySorted_cons in L2 as [L2' L2]. assert (line (name item) = (Key e, true)) as Hline by (unfold line_of; by rewrite Hroll).
  split.
  - constructor; [|eapply Forall_impl; [exact L1|intros m; apply entry_ok_more]].
    destruct He as (H1 & H2 & H3 & H4 & H5). split_and!; simpl; [done|by rewrite Hline, Hpre|done| |by rewrite Hpre].
    exists item. split; [apply elem_of_app; right; left|done].
  - constructor; [done|]. exact L2'.
  - intros m [= <-] i Hi. simpl. apply elem_of_app in Hi as [Hi| ->%list_elem_of_singleton]; [right; auto|by left].
  - intros i Hi. apply elem_of_app in Hi as [Hi| ->%list_elem_of_singleton].
    + destruct (L4 i Hi) as (m & [->|Hm]%elem_of_cons & Hml).
      * eexists. split; [left|done].
      * exists m. split; [by right|done].
    + eexists. split; [left|]. simpl. by rewrite Hline, Hpre.
Qed.

Lemma roll_loop_ok {T} (name : T → string) todo : ∀ items entries,
  listing_ok name items entries →
  Forall (λ t, HasPrefix (name t) prefix = true) todo →
  StronglySorted (λ a b, slt (name a) (name b)) todo →
  (∀ i t, i ∈ items → t ∈ todo → slt (name i) (name t)) →
  ∃ out, roll_loop name name prefix delimiter entries todo = Some (rev out) ∧ listing_ok name (items ++ todo) out.
Proof.
  induction todo as [|t todo IH]; intros items entries Hok Hp Hs Hlt; cbn [roll_loop].
  { exists entries. by rewrite app_nil_r. }
  apply Forall_cons in Hp as [Hpt Hp]. apply StronglySorted_cons in Hs as [Ht Hs]. rewrite Forall_forall in Ht.
  assert (∀ i, i ∈ items → slt (name i) (name t)) as Hit by (intros i Hi; apply Hlt; [done|left]).
  assert (∀ i t', i ∈ items ++ [t] → t' ∈ todo → slt (name i) (name t')) as Hlt'.
  { intros i t' [Hi| ->%list_elem_of_singleton]%elem_of_app Ht'; [apply Hlt; [done|by right]|by apply Ht]. }
  assert (∀ entries', listing_ok name (items ++ [t]) entries' →
    ∃ out, roll_loop name name prefix delimiter entries' todo = Some (rev out) ∧ listing_ok name (items ++ t :: todo) out) as Hgo.
  { intros entries' Hok'. destruct (IH (items ++ [t]) entries' Hok' Hp Hs Hlt') as (out & ? & Ho).
    exists out. by rewrite <- app_assoc in Ho. }
  (* the entry that opens a new line *)
  assert (∀ e, last_ e = name t → Cursor e = Key e → (Key e, Prefix e) = line (name t) →
            (Prefix e = false → Item e = Some t) →
            (∀ m, head entries = Some m → (Key m, Prefix m) ≠ line (name t)) →
            listing_ok name (items ++ [t]) (e :: entries)) as Hnew.
  { intros e Hl Hc Hline Hitem Hhead. apply listing_grow; try done.
    - split_and!; [by rewrite Hl|by rewrite Hl|done| |].
      + exists t. split; [apply elem_of_app; right; left|done].
      + intros Hpre. exists t. split; [apply elem_of_app; right; left|]. split; [auto|].
        unfold line_of in Hline. destruct (roll' (name t)); [|congruence|]; by injection Hline as -> _.
    - intros m Hm. rewrite Hc. replace (Key e) with (line (name t)).1 by (by rewrite <- Hline).
      assert (entry_ok name items m) as Hmok.
      { pose proof (lo_entries _ _ _ Hok) as Hf. destruct entries; [done|]. injection Hm as ->. by apply Forall_cons in Hf as [? _]. }
      eapply entry_after; [done|done| |by apply Hhead].
      destruct Hmok as (_ & _ & _ & (i & Hi & <-) & _). auto. }
  destruct (roll' (name t)) as [|common|] eqn:Er.
  - apply Hgo, Hnew; try done; [unfold line_of; by rewrite Er|].
    intros m Hm Heq. unfold line_of in Heq. rewrite Er in Heq. injection Heq as Hk Hpm.
    pose proof (lo_entries _ _ _ Hok) as Hf. destruct entries as [|m' rest]; [done|]. injection Hm as ->.
    apply Forall_cons in Hf as [(_ & _ & _ & _ & H5) _]. destruct (H5 Hpm) as (i & Hi & _ & Hn).
    apply (slt_irrefl (name t)). rewrite <- Hk at 1. rewrite <- Hn. auto.
  - destruct entries as [|e rest].
    { apply Hgo, Hnew; try done. unfold line_of. by rewrite Er. }
    destruct (Prefix e && bool_decide (Key e = common)) eqn:Em.
    + bools. subst common. apply Hgo. by apply listing_extend.
    + apply Hgo, Hnew; try done; [unfold line_of; by rewrite Er|].
      intros m [= <-] Heq. unfold line_of in Heq. rewrite Er in Heq. injection Heq as Hk Hpm.
      rewrite Hk, Hpm, bool_decide_eq_true_2 in Em; done.
  - by apply roll_never_panics in Er.
Qed.

(** ** Listings: pages *)

Lemma skip_to_cursor {T} (name : T → string) items (l1 l2 : list (Entry T)) e :
  Forall (entry_ok name items) (l1 ++ e :: l2) →
  StronglySorted (λ a b, slt (last_ a) (Cursor b)) (l1 ++ e :: l2) →
  skip_to (Cursor e) (l1 ++ e :: l2) = l2.
Proof.
  intros Hok Hs. induction l1 as [|a l1 IH]; cbn [app skip_to] in *.
  - apply Forall_cons in Hok as [He Hok]. apply StronglySorted_cons in Hs as [Hs _].
    assert (sltb (Cursor e) (last_ e) && (negb (Prefix e) || negb (bool_decide (Key e = Cursor e))) = false) as ->.
    { destruct He as (_ & Hl & Hc & _). destruct (Prefix e) eqn:Ep.
      - rewrite Hc, bool_decide_eq_true_2 by done. apply andb_false_r.
      - unfold line_of in Hl. rewrite Hc. destruct (roll' (last_ e)); injection Hl as ->; try done;
          rewrite (proj2 (sltb_false _ _)) by (by left); done. }
    destruct l2 as [|b l2]; [done|]. cbn [skip_to]. apply Forall_cons in Hs as [Hs _]. apply Forall_cons in Hok as [Hb _].
    pose proof (entry_cursor_le _ _ _ Hb) as Hcb. pose proof (entry_cursor_le _ _ _ He) as Hce.
    assert (slt (Cursor e) (Cursor b)) as Hlt.
    { apply sltb_false in Hce as [<-|Hce]; [done|]. by etrans. }
    assert (slt (Cursor e) (last_ b)) as Hlt'.
    { apply sltb_false in Hcb as [->|Hcb]; [done|]. by etrans. }
    rewrite (proj2 (sltb_slt _ _) Hlt'). destruct Hb as (_ & _ & Hbc & _). rewrite <- Hbc.
    rewrite bool_decide_eq_false_2; [by destruct (Prefix b)|]. intros Heq. rewrite Heq in Hlt. by apply slt_irrefl in Hlt.
  - apply Forall_cons in Hok as [_ Hok]. apply StronglySorted_cons in Hs as [Ha Hs].
    apply Forall_app in Ha as [_ [Ha _]%Forall_cons].
    rewrite (proj2 (sltb_false _ _)) by (by right). cbn [andb]. auto.
Qed.
End roll_up.

(** A client that follows a listing's markers. *)
Fixpoint listing_walk {T} (fuel : nat) (entries : list (Entry T)) (marker : string) (limit : Z)
  : option (list (Entry T)) :=
  match fuel with
  | O => None
  | S fuel =>
      let '(page, truncated, next) := PageAfter entries marker limit in
      if truncated : bool then (app page) <$> listing_walk fuel entries next limit else Some page
  end.

Lemma listing_walk_from {T} prefix delimiter (name : T → string) items entries limit fuel l1 l2 marker :
  Forall (entry_ok prefix delimiter name items) entries →
  StronglySorted (λ a b, slt (last_ a) (Cursor b)) entries →
  Forall (λ e, Cursor e ≠ "") entries → 0 < limit →
  entries = l1 ++ l2 → marker = match last l1 with Some e => Cursor e | None => "" end →
  (length l2 < fuel)%nat → listing_walk fuel entries marker limit = Some l2.
Proof.
  intros Hok Hs Hne Hlim. revert l1 l2 marker. induction fuel as [|fuel IH]; intros l1 l2 marker -> -> Hf; [lia|].
  cbn [listing_walk]. unfold PageAfter.
  assert ((if bool_decide (match last l1 with Some e => Cursor e | None => "" end = "") then l1 ++ l2
           else skip_to match last l1 with Some e => Cursor e | None => "" end (l1 ++ l2)) = l2) as ->.
  { destruct (last l1) as [e|] eqn:El.
    - apply last_Some in El as [l' ->]. rewrite <- !app_assoc in *. simpl in *.
      apply Forall_app in Hne as [_ [Hne _]%Forall_cons]. rewrite bool_decide_eq_false_2 by done.
      by eapply skip_to_cursor.
    - apply last_None in El as ->. done. }
  rewrite (proj2 (Z.leb_le 0 limit)) by lia. cbn [andb].
  destruct (Z.ltb_spec limit (Z.of_nat (length l2))); [|done].
  rewrite (proj2 (Z.ltb_lt 0 limit)) by done.
  rewrite (IH (l1 ++ take (Z.to_nat limit) l2) (drop (Z.to_nat limit) l2)).
  - simpl. by rewrite take_drop.
  - by rewrite <- app_assoc, take_drop.
  - rewrite last_app. destruct (last (take (Z.to_nat limit) l2)) eqn:El; [done|].
    apply last_None in El. apply (f_equal length) in El. rewrite length_take in El. simpl in El. lia.
  - rewrite length_drop. lia.
Qed.

(** The line that [rest], what follows the prefix in a name, belongs on: up to
    and including the first delimiter, or the whole name. *)
Definition line_under (prefix delimiter rest : string) : string * bool :=
  if bool_decide (delimiter = "") then (prefix +:+ rest, false)
  else match Cut rest delimiter with
       | Some (a, _) => (prefix +:+ a +:+ delimiter, true)
       | None => (prefix +:+ rest, false)
       end.

Lemma line_of_under prefix delimiter rest :
  line_of prefix delimiter (prefix +:+ rest) = line_under prefix delimiter rest.
Proof.
  unfold line_of, line_under. rewrite roll_under. destruct (bool_decide _); [done|].
  by destruct (Cut rest delimiter) as [[? ?]|].
Qed.

(** A delimited listing of items whose names ascend under the prefix: the
    keys listed are exactly the lines the names belong on, a common prefix up to
    the first delimiter or the name itself, each once and in ascending order,
    and an item's own line holds the item. A client that pages through the
    listing, resuming each time from the cursor it was given, gets every line
    once, in order, whatever the page size. *)
Theorem delimited_listing {T} (items : list T) (name : T → string) (prefix delimiter : string) :
  Forall (λ t, HasPrefix (name t) prefix = true ∧ name t ≠ "") items →
  StronglySorted (λ a b, slt (name a) (name b)) items →
  ∃ entries, RollUp items name None prefix delimiter = Some entries ∧
    (∀ key pre, (∃ e, e ∈ entries ∧ Key e = key ∧ Prefix e = pre) ↔
                ∃ t rest, t ∈ items ∧ name t = prefix +:+ rest ∧ line_under prefix delimiter rest = (key, pre)) ∧
    StronglySorted (λ a b, slt (Key a) (Key b)) entries ∧
    (∀ e, e ∈ entries → Prefix e = false → ∃ t, t ∈ items ∧ Item e = Some t ∧ name t = Key e) ∧
    (∀ limit, 0 < limit → listing_walk (S (length entries)) entries "" limit = Some entries).
Proof.
  intros Hp Hs.
  destruct (roll_loop_ok prefix delimiter name items [] []) as (out & Hout & Hok).
  { split; [constructor|constructor|done|]. intros i Hi. by apply not_elem_of_nil in Hi. }
  { eapply Forall_impl; [exact Hp|]. by intros t [? _]. }
  { done. }
  { intros i t Hi. by apply not_elem_of_nil in Hi. }
  destruct Hok as [L1 L2 _ L4]. exists (rev out). split; [exact Hout|].
  assert (Forall (entry_ok prefix delimiter name items) (rev out)) as Hentries by (by rewrite <- Permutation_rev).
  assert (StronglySorted (λ a b, slt (last_ a) (Cursor b)) (rev out)) as Horder by (by apply StronglySorted_rev_flip).
  assert (∀ e, e ∈ rev out → ∃ t rest, t ∈ items ∧ name t = prefix +:+ rest ∧
            last_ e = name t ∧ line_under prefix delimiter rest = (Key e, Prefix e)) as Hline.
  { intros e He. rewrite Forall_forall in Hentries.
    destruct (Hentries e He) as ((rest & Hr)%HasPrefix_spec & Hl & _ & (t & Ht & Hn) & _).
    exists t, rest. split_and!; [done|congruence|done|]. by rewrite <- line_of_under, <- Hr. }
  split; [|split_and!].
  - intros key pre. split.
    + intros (e & He & <- & <-). destruct (Hline e He) as (t & rest & ? & ? & _ & ?). eauto.
    + intros (t & rest & Ht & Hn & Hl). destruct (L4 t Ht) as (e & He & Hk). exists e.
      rewrite Hn, line_of_under, Hl in Hk. injection Hk as -> ->. split; [by rewrite <- Permutation_rev|done].
  - clear Hline Hout L1 L2 L4. revert Hentries. induction Horder as [|a l Hl IH Ha]; intros Hentries; [constructor|]. apply Forall_cons in Hentries as [Hea Hl'].
    constructor; [by apply IH|]. rewrite Forall_forall in Ha, Hl' |- *. intros b Hb. specialize (Ha b Hb). simpl in Ha.
    destruct (Hl' b Hb) as (_ & _ & <- & _). pose proof (entry_cursor_le _ _ _ _ _ Hea) as Hca.
    destruct Hea as (_ & _ & <- & _). apply sltb_false in Hca as [<-|Hca]; [done|]. by etrans.
  - intros e He Hpe. rewrite Forall_forall in Hentries. by apply (Hentries e He).
  - intros limit Hlim. eapply (listing_walk_from _ _ _ _ _ _ _ []); try done; [|lia].
    rewrite Forall_forall in Hp. apply Forall_forall. intros e He Hc. rewrite Forall_forall in Hentries.
    destruct (Hentries e He) as (_ & _ & Hck & _). rewrite Hck in Hc.
    destruct (Hline e He) as (t & rest & Ht & Hn & _ & Hl). destruct (Hp t Ht) as [_ Hne].
    unfold line_under in Hl. destruct (bool_decide_reflect (delimiter = "")) as [|Hd].
    { injection Hl as Hl _. congruence. }
    destruct (Cut rest delimiter) as [[a b]|]; injection Hl as Hl _; [|congruence].
    rewrite Hc in Hl. apply (f_equal String.length) in Hl. rewrite !length_append_s in Hl. simpl in Hl.
    destruct delimiter; [done|]. simpl in Hl. lia.
Qed.

Definition w_names : list string := ["p/a"; "p/d/1"; "p/d/2"; "p/e"; "p/f/x"].

Lemma delimited_listing_witness :
  ∃ entries, RollUp w_names id None "p/" "/" = Some entries ∧
    Key <$> entries = ["p/a"; "p/d/"; "p/e"; "p/f/"] ∧
    listing_walk 5 entries "" 1 = Some entries.
Proof.
  destruct (delimited_listing w_names id "p/" "/") as (entries & He & _ & _ & _ & Hw).
  - apply Forall_forall. intros t Ht. repeat (apply elem_of_cons in Ht as [->|Ht]; [done|]). by apply not_elem_of_nil in Ht.
  - repeat constructor.
  - exists entries. split; [exact He|]. vm_compute in He. injection He as <-. split; [done|]. by apply (Hw 1).
Defined.

(** ** Byte ranges *)

Lemma number_range s n : number s = Some n → 0 ≤ n < 2 ^ 63.
Proof.
  unfold number. destruct (ParseInt s) as [m|] eqn:E; [|done].
  destruct (Z.leb_spec 0 m), (HasPrefix s "+"); intros [= <-]. split; [done|].
  unfold ParseInt in E. destruct (match s with EmptyString => _ | String _ _ => _ end) as [neg ds].
  destruct (bool_decide (ds = "")); [done|]. destruct (parse_digits ds 0) as [k|]; [|done].
  destruct (_ && _) eqn:Eb in E; [|done]. injection E as <-. by bools.
Qed.

Lemma number_Itoa n : 0 ≤ n < 2 ^ 63 → number (Itoa n) = Some n.
Proof.
  intros Hn. unfold number. rewrite ParseInt_Itoa by (unfold in_i64; lia).
  rewrite (proj2 (Z.leb_le 0 n)) by lia. destruct (HasPrefix (Itoa n) "+") eqn:E; [|done].
  apply HasPrefix_spec in E as [r E]. pose proof (Itoa_digits n ltac:(lia)) as Hd. rewrite E in Hd.
  apply Forall_cons in Hd as [Hd _]. by vm_compute in Hd; destruct Hd.
Qed.

(** The bytes of a resource that a range names, whatever the size. *)
Definition names_byte (b : ByteRange) (size x : Z) : Prop :=
  if br_suffix b then size - br_last b ≤ x
  else if br_openEnd b then br_first b ≤ x
  else br_first b ≤ x ≤ br_last b.

Lemma ParseRange_bounds header opts b :
  ParseRange header opts = Some b →
  0 ≤ br_first b ∧ 0 ≤ br_last b < 2 ^ 63 ∧
  (br_suffix b = false → br_openEnd b = false → br_first b ≤ br_last b).
Proof.
  unfold ParseRange. destruct (CutPrefix _ _) as [spec|]; [|done]. destruct (ContainsStr spec ","); [done|].
  destruct (Cut spec "-") as [[lo hi]|]; [|done].
  destruct (bool_decide (TrimSpace lo = "")).
  { destruct (number (TrimSpace hi)) as [n|] eqn:E; [|done]. apply number_range in E.
    destruct (AllowSuffix opts); [|done]. intros [= <-]. simpl. split_and!; done || lia. }
  destruct (bool_decide (TrimSpace hi = "")).
  { destruct (number (TrimSpace lo)) as [n|] eqn:E; [|done]. apply number_range in E.
    destruct (AllowOpenEnd opts); [|done]. intros [= <-]. simpl. split_and!; done || lia. }
  destruct (number (TrimSpace lo)) as [n|] eqn:E; [|done]. apply number_range in E.
  destruct (number (TrimSpace hi)) as [m|] eqn:E'; [|done]. apply number_range in E'.
  destruct (Z.ltb_spec m n); [done|]. intros [= <-]. simpl. lia.
Qed.

(** A range serves the bytes it names: whatever range header a service
    accepts, resolving it against a resource of any size gives a run inside the
    resource that holds exactly the bytes the range names, or nothing; nothing
    means that it names no byte, or that it runs past the end and the service
    does not clamp. *)
Theorem range_serves_the_named_bytes header opts b size :
  ParseRange header opts = Some b → 0 ≤ size < 2 ^ 63 →
  match Resolve b size with
  | Some (start, stop) =>
      0 ≤ start ∧ start ≤ stop ∧ stop < size ∧ ∀ x, 0 ≤ x < size → (start ≤ x ≤ stop ↔ names_byte b size x)
  | None =>
      (∀ x, 0 ≤ x < size → ¬ names_byte b size x) ∨
      (br_clamp b = false ∧ br_suffix b = false ∧ br_openEnd b = false ∧ size ≤ br_last b)
  end.
Proof.
  intros Hp Hsize. destruct (ParseRange_bounds _ _ _ Hp) as (Hf & Hl & Hfl). clear Hp.
  unfold Resolve, names_byte. destruct (br_suffix b) eqn:Es.
  - destruct (Z.eqb_spec (br_last b) 0), (Z.eqb_spec size 0); simpl; try (left; lia).
    rewrite !i64_id by (unfold in_i64; lia). split_and!; try intros; lia.
  - destruct (Z.leb_spec size (br_first b)).
    { left. intros x Hx. destruct (br_openEnd b); lia. }
    destruct (br_openEnd b) eqn:Eo; [rewrite i64_id by (unfold in_i64; lia); split_and!; try intros; lia|].
    specialize (Hfl eq_refl eq_refl). destruct (Z.leb_spec size (br_last b)); [|split_and!; try intros; lia].
    destruct (br_clamp b) eqn:Ec; simpl; [rewrite i64_id by (unfold in_i64; lia); split_and!; try intros; lia|right; auto].
Qed.

(** The three forms a client writes a range in parse to the range they
    mean, for every pair of offsets. *)
Theorem range_forms_parse opts first last :
  0 ≤ first ≤ last → last < 2 ^ 63 →
  ParseRange ("bytes=" +:+ Itoa first +:+ "-" +:+ Itoa last) opts
    = Some (MkByteRange first last false false (ClampEnd opts)) ∧
  (AllowOpenEnd opts = true → ParseRange ("bytes=" +:+ Itoa first +:+ "-") opts
    = Some (MkByteRange first 0 false true (ClampEnd opts))) ∧
  (AllowSuffix opts = true → ParseRange ("bytes=-" +:+ Itoa last) opts
    = Some (MkByteRange 0 last true false (ClampEnd opts))).
Proof.
  intros Hf Hl.
  pose proof (Itoa_digits first ltac:(lia)) as D1. pose proof (Itoa_digits last ltac:(lia)) as D2.
  assert (∀ spec, Forall graphic (chars spec) → char_of 44 ∉ chars spec →
    ∀ a b, char_of 45 ∉ chars a → spec = a +:+ "-" +:+ b →
    ParseRange ("bytes=" +:+ spec) opts =
      let lo := TrimSpace a in let hi := TrimSpace b in
      if bool_decide (lo = "") then
        match number hi with
        | Some n => if AllowSuffix opts then Some (MkByteRange 0 n true false (ClampEnd opts)) else None
        | None => None end
      else if bool_decide (hi = "") then
        match number lo with
        | Some n => if AllowOpenEnd opts then Some (MkByteRange n 0 false true (ClampEnd opts)) else None
        | None => None end
      else match number lo, number hi with
           | Some first, Some last => if last <? first then None else Some (MkByteRange first last false false (ClampEnd opts))
           | _, _ => None end) as Hparse.
  { intros spec Hg Hc a b Ha Hspec. unfold ParseRange.
    rewrite TrimSpace_graphic; [|rewrite chars_app; apply Forall_app; split; [|done]].
    - rewrite CutPrefix_append. unfold ContainsStr.
      rewrite (Cut_char_none (char_of 44) spec Hc : Cut spec "," = None).
      rewrite Hspec, (Cut_char (char_of 45) a b Ha : Cut (a +:+ "-" +:+ b) "-" = _). done.
    - repeat constructor; by vm_compute. }
  assert (∀ s, Forall is_digit (chars s) → char_of 44 ∉ chars s ∧ char_of 45 ∉ chars s) as Hno.
  { intros s Hs. split; apply not_digit; try done; intros [H1 _]; exact (H1 eq_refl). }
  assert (∀ a b, Forall is_digit (chars a) → Forall is_digit (chars b) →
    Forall graphic (chars (a +:+ "-" +:+ b)) ∧ char_of 44 ∉ chars (a +:+ "-" +:+ b)) as Hjoin.
  { intros a b Ha Hb. rewrite !chars_app. split.
    - apply Forall_app. split; [by apply digits_graphic|]. constructor; [by vm_compute|by apply digits_graphic].
    - rewrite not_elem_of_app. split; [by apply Hno|]. apply not_elem_of_cons. split; [done|by apply Hno]. }
  assert (Forall is_digit (chars "")) as D0 by constructor.
  pose proof (TrimSpace_graphic _ (digits_graphic _ D1)) as T1.
  pose proof (TrimSpace_graphic _ (digits_graphic _ D2)) as T2.
  split_and!.
  - destruct (Hjoin _ _ D1 D2) as [G C]. rewrite (Hparse _ G C _ _ (proj2 (Hno _ D1)) eq_refl).
    cbn zeta. rewrite T1, T2, !bool_decide_eq_false_2 by apply Itoa_nonempty. rewrite !number_Itoa by lia.
    by rewrite (proj2 (Z.ltb_ge _ _)) by lia.
  - intros Ho. destruct (Hjoin _ _ D1 D0) as [G C].
    change ("bytes=" +:+ Itoa first +:+ "-") with ("bytes=" +:+ Itoa first +:+ "-" +:+ ""). rewrite (Hparse _ G C _ _ (proj2 (Hno _ D1)) eq_refl).
    cbn zeta. rewrite T1, bool_decide_eq_false_2 by apply Itoa_nonempty. rewrite number_Itoa, Ho by lia. done.
  - intros Ho. destruct (Hjoin _ _ D0 D2) as [G C].
    change ("bytes=-" +:+ Itoa last) with ("bytes=" +:+ ("" +:+ "-" +:+ Itoa last)).
    rewrite (Hparse _ G C _ _ (proj2 (Hno _ D0)) eq_refl).
    cbn zeta. rewrite T2, number_Itoa, Ho by lia. done.
Qed.

Lemma range_serves_the_named_bytes_witness :
  match Resolve (MkByteRange 0 5 true false true) 20 with
  | Some (start, stop) => 0 ≤ start ∧ start ≤ stop ∧ stop < 20 ∧
      ∀ x, 0 ≤ x < 20 → (start ≤ x ≤ stop ↔ names_byte (MkByteRange 0 5 true false true) 20 x)
  | None => False
  end.
Proof.
  exact (range_serves_the_named_bytes "bytes=-5" (MkRangeOpts true true true) (MkByteRange 0 5 true false true) 20
           ltac:(by vm_compute) ltac:(lia)).
Defined.

Lemma range_forms_parse_witness :
  ParseRange ("bytes=" +:+ Itoa 7 +:+ "-" +:+ Itoa 12) (MkRangeOpts false false false)
    = Some (MkByteRange 7 12 false false false).
Proof. apply (range_forms_parse (MkRangeOpts false false false) 7 12); lia. Defined.

(** ** Conditional requests *)

(** An entity tag as the services make them: letters, digits, dashes. *)
Definition tag_char (c : ascii) : Prop :=
  48 ≤ byte_of c ≤ 57 ∨ 65 ≤ byte_of c ≤ 90 ∨ 97 ≤ byte_of c ≤ 122 ∨ byte_of c = 45.

Definition quoted (tag : string) : string := String dquote "" +:+ tag +:+ String dquote "".

Lemma trim_quotes tag : Forall tag_char (chars tag) → TrimChar dquote tag = tag ∧ TrimChar dquote (quoted tag) = tag.
Proof.
  intros Ht.
  assert (∀ c, c ∈ chars tag → edges [[dquote]] c) as He.
  { intros c Hc. rewrite Forall_forall in Ht. specialize (Ht c Hc). constructor; [|constructor].
    split; [done|]. intros [= <-]. unfold tag_char in Ht. change (byte_of dquote) with 34 in Ht. lia. }
  assert (∀ n l, (∀ c, head l = Some c → edges [[dquote]] c) → trim_left n [[dquote]] l = l) as Hid.
  { intros [|n] l Hl; [done|]. cbn [trim_left]. rewrite strip_any_edge; [done|done|by repeat constructor]. }
  assert (∀ (l : list ascii) c, head l = Some c → c ∈ l) as Hhead by (intros [|x l] c [= ->]; left).
  assert (TrimChar dquote tag = tag) as H1.
  { unfold TrimChar. rewrite trim_id, text_chars; [done|by repeat constructor|by repeat constructor|].
    intros c Hc. split; [by apply He|exact (He c Hc)]. }
  split; [exact H1|]. unfold TrimChar, trim, quoted. rewrite !chars_app.
  change (chars (String dquote "")) with [dquote]. simpl app.
  cbn [length trim_left]. change (strip_any [[dquote]] (dquote :: chars tag ++ [dquote])) with (Some (chars tag ++ [dquote])).
  cbn iota.
  destruct (decide (chars tag = [])) as [E0|Hne].
  { assert (tag = "") as -> by (rewrite <- (text_chars tag), E0; done). by vm_compute. }
  rewrite (Hid _ (chars tag ++ [dquote])) by (intros c Hc; apply He; destruct (chars tag); [done|simpl in Hc; injection Hc as ->; left]).
  rewrite rev_app_distr. simpl rev at 1. simpl app. rewrite length_app. simpl length. rewrite Nat.add_comm. cbn [Nat.add trim_left].
  change (map (@rev ascii) [[dquote]]) with [[dquote]].
  change (strip_any [[dquote]] (dquote :: rev (chars tag))) with (Some (rev (chars tag))). cbn iota.
  rewrite Hid by (intros c Hc; apply He; apply Hhead in Hc; by rewrite Permutation_rev).
  by rewrite rev_involutive, text_chars.
Qed.

Lemma split_concat n l :
  l ≠ [] → Forall (λ s, char_of 44 ∉ chars s) l → (length l ≤ S n)%nat →
  split_loop n (String.concat "," l) "," = l.
Proof.
  revert n. induction l as [|s [|t l] IH]; intros n Hne Hc Hn; [done|..];
    apply Forall_cons in Hc as [Hs Hc].
  - destruct n; [done|]. cbn [split_loop String.concat].
    by rewrite (Cut_char_none (char_of 44) s Hs : Cut s "," = None).
  - destruct n as [|n]; [simpl in Hn; lia|].
    change (String.concat "," (s :: t :: l)) with (s +:+ "," +:+ String.concat "," (t :: l)). cbn [split_loop].
    rewrite (Cut_char (char_of 44) s _ Hs : Cut (s +:+ "," +:+ _) "," = _). f_equal. apply IH; [done|done|simpl in *; lia].
Qed.

Lemma quoted_chars tag :
  Forall tag_char (chars tag) →
  Forall graphic (chars (quoted tag)) ∧ char_of 44 ∉ chars (quoted tag) ∧ quoted tag ≠ "*".
Proof.
  intros Ht. unfold quoted. rewrite !chars_app. change (chars (String dquote "")) with [dquote].
  split_and!; [|rewrite !not_elem_of_app; split_and!|done].
  - repeat (apply Forall_app; split); [by repeat constructor| |by repeat constructor].
    eapply Forall_impl; [exact Ht|]. unfold tag_char, graphic. lia.
  - by intros ?%list_elem_of_singleton.
  - intros Hc. rewrite Forall_forall in Ht. specialize (Ht _ Hc). unfold tag_char in Ht.
    change (byte_of (char_of 44)) with 44 in Ht. lia.
  - by intros ?%list_elem_of_singleton.
Qed.

(** A header that lists entity tags names the tags it lists. *)
Lemma ETagListMatches_tags tags etag :
  tags ≠ [] → Forall (λ t, Forall tag_char (chars t)) tags → Forall tag_char (chars etag) →
  ETagListMatches (String.concat "," (map quoted tags)) (quoted etag) = true ↔ etag ∈ tags.
Proof.
  intros Hne Ht He. unfold ETagListMatches, Split. rewrite split_concat.
  - rewrite existsb_exists. rewrite Forall_forall in Ht. destruct (trim_quotes etag He) as [_ ->]. split.
    + intros (x & (t & <- & Hin)%in_map_iff & Hx). apply list_elem_of_In in Hin.
      destruct (quoted_chars t (Ht t Hin)) as (Hg & _ & Hstar). rewrite TrimSpace_graphic in Hx by done.
      rewrite bool_decide_eq_false_2 in Hx by done. simpl in Hx. bools.
      destruct (trim_quotes t (Ht t Hin)) as [_ Hq]. rewrite Hq in Hx. by subst.
    + intros Hin. exists (quoted etag). split; [by apply in_map, list_elem_of_In|].
      destruct (quoted_chars etag He) as (Hg & _). rewrite TrimSpace_graphic by done.
      destruct (trim_quotes etag He) as [_ ->]. rewrite (bool_decide_eq_true_2 (etag = etag)) by done. apply orb_true_r.
  - by destruct tags.
  - apply Forall_map. eapply Forall_impl; [exact Ht|]. intros t Htt. by apply quoted_chars.
  - assert (∀ l, (length l ≤ S (String.length (String.concat "," (map quoted l))))%nat) as Hl.
    { induction l as [|t [|u l] IH]; [simpl; lia|simpl; lia|].
      change (String.concat "," (map quoted (t :: u :: l))) with (quoted t +:+ "," +:+ String.concat "," (map quoted (u :: l))).
      rewrite !length_append_s. change (String.length ",") with 1%nat. cbn [length] in *. lia. }
    rewrite length_map. apply Hl.
Qed.

Lemma bool_decide_ext_b (P : Prop) `{!Decision P} (b : bool) : (P ↔ b = true) → bool_decide P = b.
Proof. intros H. destruct b; [by apply bool_decide_eq_true_2, H|]. apply bool_decide_eq_false_2. by intros ?%H. Qed.

Lemma header_graphic tags :
  Forall (λ t, Forall tag_char (chars t)) tags → Forall graphic (chars (String.concat "," (map quoted tags))).
Proof.
  induction 1 as [|t l Ht Hl IH]; [constructor|]. destruct (quoted_chars t Ht) as (Hg & _).
  destruct l as [|u l]; [done|].
  change (String.concat "," (map quoted (t :: u :: l))) with (quoted t +:+ "," +:+ String.concat "," (map quoted (u :: l))).
  rewrite !chars_app. apply Forall_app. split; [done|]. constructor; [by vm_compute|done].
Qed.

(** Conditional requests on a resource whose entity tag is known: If-Match
    with a list of tags lets a request through exactly when the resource exists
    and its tag is listed; If-None-Match: * lets a create through exactly when
    the resource does not exist, and reports it otherwise; If-None-Match with a
    list of tags answers a read with 304 exactly when the caller lists the
    current tag, and refuses a change of it. *)
Theorem conditional_requests (ParseTime : string → option Z) (v : Validators) (etag : string)
    (tags : list string) (access : Access) :
  ParseTime "" = None → tags ≠ [] → Forall (λ t, Forall tag_char (chars t)) (etag :: tags) →
  ETag v = quoted etag →
  let header := String.concat "," (map quoted tags) in
  EvaluateHTTP ParseTime (MkConditions header "" "" "") v access
    = (if bool_decide (ValidatorsExists v = true ∧ etag ∈ tags) then Proceed else PreconditionFailed) ∧
  EvaluateHTTP ParseTime (MkConditions "" "" "*" "") v CreateAccess
    = (if ValidatorsExists v then AlreadyExists else Proceed) ∧
  EvaluateHTTP ParseTime (MkConditions "" "" header "") v access
    = (if bool_decide (ValidatorsExists v = true ∧ etag ∈ tags)
       then if bool_decide (access = ReadAccess) then NotModified else PreconditionFailed
       else Proceed).
Proof.
  intros Hpt Hne [He Ht]%Forall_cons Hv header.
  pose proof (ETagListMatches_tags tags etag Hne Ht He) as Hm. fold header in Hm.
  assert (header ≠ "") as Hh by (unfold header; destruct tags as [|t [|u l]]; done).
  assert (TrimSpace header ≠ "*") as Hstar.
  { unfold header. rewrite TrimSpace_graphic by (by apply header_graphic). destruct tags as [|t [|u l]]; done. }
  assert (bool_decide (ValidatorsExists v = true ∧ etag ∈ tags) = ValidatorsExists v && ETagListMatches header (quoted etag)) as ->.
  { apply bool_decide_ext_b. rewrite andb_true_iff. by rewrite Hm. }
  unfold EvaluateHTTP. cbn [IfMatch IfUnmodifiedSince IfNoneMatch IfModifiedSince].
  rewrite Hpt, Hv, (bool_decide_eq_true_2 (header ≠ "")) by done. split_and!.
  - by destruct (ValidatorsExists v), (ETagListMatches header (quoted etag)).
  - by destruct (ValidatorsExists v).
  - rewrite (bool_decide_eq_false_2 (TrimSpace header = "*")) by done. rewrite andb_false_r. simpl.
    by destruct (ValidatorsExists v), (ETagListMatches header (quoted etag)).
Qed.

Lemma conditional_requests_witness :
  EvaluateHTTP (λ _, None) (MkConditions (String.concat "," (map quoted ["a1"; "b2"])) "" "" "")
    (MkValidators (quoted "b2") 0 true) ModifyAccess = Proceed.
Proof.
  destruct (conditional_requests (λ _, None) (MkValidators (quoted "b2") 0 true) "b2" ["a1"; "b2"] ModifyAccess)
    as (H & _ & _).
  - done.
  - done.
  - repeat constructor; vm_compute; intuition congruence.
  - done.
  - rewrite H. by vm_compute.
Defined.
