(* ===== verification/Cron.v ===== *)
(** * Cron schedules: [src/sim/cron/cron.go]

    The two cron grammars, the day qualifiers and the search for the next
    occurrence. A civil day is its number of days since 1 January of year 1; a
    time zone is a record of the functions the search calls
    ([time.Time.In], [time.Date]). [strings.ToUpper] is a parameter. Error
    texts are not modelled. *)

From S2P Require Import Prelude Gostd.

(** ** The proleptic Gregorian calendar of Go's [time] *)

Definition leap (y : Z) : bool := (y mod 4 =? 0) && (negb (y mod 100 =? 0) || (y mod 400 =? 0)).

(** Days before 1 January of year [y]. *)
Definition days_before_year (y : Z) : Z := 365 * (y - 1) + (y - 1) / 4 - (y - 1) / 100 + (y - 1) / 400.

(** Days of a year before the first of month [m], counted from 1. *)
Definition days_before_month (y m : Z) : Z :=
  (if m =? 1 then 0 else if m =? 2 then 31 else if m =? 3 then 59 else if m =? 4 then 90
   else if m =? 5 then 120 else if m =? 6 then 151 else if m =? 7 then 181 else if m =? 8 then 212
   else if m =? 9 then 243 else if m =? 10 then 273 else if m =? 11 then 304 else if m =? 12 then 334 else 365)
  + (if (2 <? m) && leap y then 1 else 0).

(** The day that [time.Date(y, m, d, ...)] falls on: months and days outside
    their ranges are normalized. *)
Definition date_day (y m d : Z) : Z :=
  let y' := y + (m - 1) / 12 in
  let m' := (m - 1) mod 12 + 1 in
  days_before_year y' + days_before_month y' m' + (d - 1).

(** [Time.Year], [Time.Month], [Time.Day] and [Time.Weekday] of a day. *)
Definition Year (day : Z) : Z :=
  let y := day * 400 / 146097 + 1 in
  if day <? days_before_year y then y - 1
  else if days_before_year (y + 1) <=? day then y + 1 else y.

Fixpoint month_loop (fuel : nat) (y n m : Z) : Z :=
  match fuel with
  | O => m
  | S fuel => if n <? days_before_month y (m + 1) then m else month_loop fuel y n (m + 1)
  end.

Definition Month (day : Z) : Z := month_loop 11 (Year day) (day - days_before_year (Year day)) 1.
Definition Day (day : Z) : Z :=
  day - days_before_year (Year day) - days_before_month (Year day) (Month day) + 1.
Definition Weekday (day : Z) : Z := (day + 1) mod 7.

(** ** Field syntax *)

Definition has (b v : Z) : bool := negb (Z.land b (Z.shiftl 1 v) =? 0).

Definition monthNames : list (string * Z) :=
  [("JAN", 1); ("FEB", 2); ("MAR", 3); ("APR", 4); ("MAY", 5); ("JUN", 6);
   ("JUL", 7); ("AUG", 8); ("SEP", 9); ("OCT", 10); ("NOV", 11); ("DEC", 12)].
Definition vixieDays : list (string * Z) :=
  [("SUN", 0); ("MON", 1); ("TUE", 2); ("WED", 3); ("THU", 4); ("FRI", 5); ("SAT", 6)].
Definition awsDays : list (string * Z) :=
  [("SUN", 1); ("MON", 2); ("TUE", 3); ("WED", 4); ("THU", 5); ("FRI", 6); ("SAT", 7)].

Definition lookup_name (names : list (string * Z)) (s : string) : option Z :=
  snd <$> find (λ p, String.eqb p.1 s) names.

(** [strings.Fields]: the runs between white space. *)
Fixpoint fields_loop (fuel : nat) (word : list ascii) (l : list ascii) : list string :=
  let flush := if bool_decide (word = []) then [] else [text (rev word)] in
  match fuel with
  | O => flush
  | S fuel =>
      match strip_any spaces l, l with
      | Some l', _ => flush ++ fields_loop fuel [] l'
      | None, c :: l' => fields_loop fuel (c :: word) l'
      | None, [] => flush
      end
  end.
Definition Fields (s : string) : list string := fields_loop (S (String.length s)) [] (chars s).

Definition HasSuffix (s p : string) : bool := HasPrefix (text (rev (chars s))) (text (rev (chars p))).
Definition TrimSuffix1 (s : string) : string := String.substring 0 (String.length s - 1) s.

Section Parse.
Context (ToUpper : string → string).

Definition value (s : string) (names : list (string * Z)) : option Z :=
  match lookup_name names (ToUpper s) with Some v => Some v | None => Atoi s end.

(** The values [from], [from + step], ... up to [to]. *)
Definition stepped (from to step : Z) : list Z :=
  map (λ k, from + k * step) (seqZ 0 ((to - from) / step + 1)).

(** One comma-separated term of [parseValues]. *)
Definition parse_term (part : string) (lo hi : Z) (names : list (string * Z)) : option (list Z) :=
  if bool_decide (part = "") then None
  else
    match match Cut part "/" with
          | None => Some (part, 1, false)
          | Some (rng, st) =>
              match Atoi st with
              | Some n => if (n <=? 0) || (hi <? n) then None else Some (rng, n, true)
              | None => None
              end
          end with
    | None => None
    | Some (rng, step, hasStep) =>
        match
          (if bool_decide (rng = "*") then Some (lo, hi)
           else match Cut rng "-" with
                | Some (a, b) =>
                    match value a names, value b names with
                    | Some a, Some b => Some (a, b)
                    | _, _ => None
                    end
                | None =>
                    match value rng names with
                    | Some v => Some (v, if hasStep : bool then hi else v)
                    | None => None
                    end
                end)
        with
        | None => None
        | Some (from, to) =>
            if (from <? lo) || (hi <? to) || (to <? from) then None
            else Some (stepped from to step)
        end
    end.

Fixpoint parse_terms (parts : list string) (lo hi : Z) (names : list (string * Z)) : option (list Z) :=
  match parts with
  | [] => Some []
  | part :: parts =>
      match parse_term part lo hi names with
      | None => None
      | Some vs => (app vs) <$> parse_terms parts lo hi names
      end
  end.

Definition parseValues (spec : string) (lo hi : Z) (names : list (string * Z)) : option (list Z) :=
  parse_terms (Split spec ",") lo hi names.

Definition set_bits (values : list Z) : Z := foldl (λ b v, Z.lor b (Z.shiftl 1 v)) 0 values.

Definition parseBits (spec : string) (lo hi : Z) (names : list (string * Z)) : option Z :=
  set_bits <$> parseValues spec lo hi names.

(** ** Day qualifiers *)

Definition lastDay (t : Z) : Z := Day (date_day (Year t) (Month t + 1) 0).

Definition nearestWeekday (t n : Z) : Z :=
  let last := lastDay t in
  let n := if last <? n then last else n in
  let wd := Weekday (date_day (Year t) (Month t) n) in
  if wd =? 6 then (if 1 <? n then n - 1 else n + 2)
  else if wd =? 0 then (if n <? last then n + 1 else n - 2)
  else n.

Definition awsWeekday (t : Z) : Z := Weekday t + 1.

Definition awsDayOfMonth (spec : string) : option (Z → bool) :=
  if bool_decide (spec = "?") then Some (λ _, true)
  else if bool_decide (spec = "L") then Some (λ t, Day t =? lastDay t)
  else if bool_decide (spec = "LW") then Some (λ t, Day t =? nearestWeekday t (lastDay t))
  else if HasSuffix spec "W" then
    match Atoi (TrimSuffix1 spec) with
    | Some n => if (n <? 1) || (31 <? n) then None else Some (λ t, Day t =? nearestWeekday t n)
    | None => None
    end
  else match parseBits spec 1 31 [] with
       | Some b => Some (λ t, has b (Day t))
       | None => None
       end.

Definition awsDayOfWeek (spec : string) : option (Z → bool) :=
  if bool_decide (spec = "?") then Some (λ _, true)
  else if bool_decide (spec = "L") then Some (λ t, awsWeekday t =? 7)
  else if HasSuffix spec "L" then
    match value (TrimSuffix1 spec) awsDays with
    | Some d => if (d <? 1) || (7 <? d) then None
                else Some (λ t, (awsWeekday t =? d) && (lastDay t - 7 <? Day t))
    | None => None
    end
  else match Cut spec "#" with
       | Some (day, nth) =>
           match value day awsDays, Atoi nth with
           | Some d, Some n =>
               if (d <? 1) || (7 <? d) || (n <? 1) || (5 <? n) then None
               else Some (λ t, (awsWeekday t =? d) && ((Day t - 1) / 7 + 1 =? n))
           | _, _ => None
           end
       | None =>
           match parseBits spec 1 7 awsDays with
           | Some b => Some (λ t, has b (awsWeekday t))
           | None => None
           end
       end.

(** ** Schedules *)

Inductive Dialect := Vixie | AWS.

Record Schedule := MkSchedule {
  minute : Z; hour : Z; month : Z;
  years : option (list Z);
  maxYear : Z;
  dom : Z → bool; dow : Z → bool;
  domStar : bool; dowStar : bool; orDays : bool
}.

Definition parseVixieDays (dom dow : string) : option ((Z → bool) * (Z → bool) * bool * bool) :=
  match parseBits dom 1 31 [], parseBits dow 0 7 vixieDays with
  | Some domBits, Some dowBits =>
      let dowBits := if has dowBits 7 then Z.lor dowBits 1 else dowBits in
      Some (λ t, has domBits (Day t), λ t, has dowBits (Weekday t), HasPrefix dom "*", HasPrefix dow "*")
  | _, _ => None
  end.

Definition parseAWSDays (dom dow : string) : option ((Z → bool) * (Z → bool)) :=
  if Bool.eqb (bool_decide (dom = "?")) (bool_decide (dow = "?")) then None
  else match awsDayOfMonth dom, awsDayOfWeek dow with
       | Some f, Some g => Some (f, g)
       | _, _ => None
       end.

Definition parseYears (spec : string) : option (list Z * Z) :=
  (λ values, (values, foldl Z.max 0 values)) <$> parseValues spec 1970 2199 [].

Definition Parse (expr : string) (d : Dialect) : option Schedule :=
  match d, Fields expr with
  | Vixie, [f0; f1; f2; f3; f4] =>
      match parseBits f0 0 59 [], parseBits f1 0 23 [], parseBits f3 1 12 monthNames, parseVixieDays f2 f4 with
      | Some mi, Some ho, Some mo, Some (f, g, fs, gs) =>
          Some (MkSchedule mi ho mo None 0 f g fs gs (negb fs && negb gs))
      | _, _, _, _ => None
      end
  | AWS, [f0; f1; f2; f3; f4; f5] =>
      match parseBits f0 0 59 [], parseBits f1 0 23 [], parseBits f3 1 12 monthNames,
            parseAWSDays f2 f4, parseYears f5 with
      | Some mi, Some ho, Some mo, Some (f, g), Some (ys, my) =>
          Some (MkSchedule mi ho mo (Some ys) my f g false false false)
      | _, _, _, _, _ => None
      end
  | _, _ => None
  end.
End Parse.

(** ** The next occurrence *)

Record Location := MkLocation {
  local_day : Time → Z;
  local_hour : Time → Z;
  local_minute : Time → Z;
  Date : Z → Z → Z → Time
}.

Definition dayMatches (s : Schedule) (day : Z) : bool :=
  if orDays s then dom s day || dow s day else dom s day && dow s day.

(** The wall-clock time exists: the zone gives it back. *)
Definition wall_exists (loc : Location) (day h m : Z) : bool :=
  let t := Date loc day h m in
  (Day (local_day loc t) =? Day day) && (local_hour loc t =? h) && (local_minute loc t =? m).

Definition in_years (s : Schedule) (y : Z) : bool :=
  match years s with Some ys => bool_decide (y ∈ ys) | None => true end.

(** The first match of a day, hours and minutes ascending. *)
Definition day_times : list (Z * Z) := h ← seqZ 0 24; m ← seqZ 0 60; [(h, m)].

Definition day_hit (s : Schedule) (loc : Location) (after : Time) (day : Z) (hm : Z * Z) : bool :=
  has (hour s) hm.1 && has (minute s) hm.2 && wall_exists loc day hm.1 hm.2 && (after <? Date loc day hm.1 hm.2).

Fixpoint next_loop (fuel : nat) (s : Schedule) (loc : Location) (after : Time) (lastYear day : Z) : option Time :=
  match fuel with
  | O => None
  | S fuel =>
      if lastYear <? Year day then None
      else if negb (in_years s (Year day)) then next_loop fuel s loc after lastYear (date_day (Year day + 1) 1 1)
      else if negb (has (month s) (Month day)) then next_loop fuel s loc after lastYear (date_day (Year day) (Month day + 1) 1)
      else match (if dayMatches s day then find (day_hit s loc after day) day_times else None) with
           | Some hm => Some (Date loc day hm.1 hm.2)
           | None => next_loop fuel s loc after lastYear (day + 1)
           end
  end.

Definition last_year (s : Schedule) (loc : Location) (after : Time) : Z :=
  match years s with Some _ => maxYear s | None => Year (local_day loc after) + 8 end.

(** Each round moves to a later day, so the days left bound the rounds. *)
Definition Next (s : Schedule) (loc : Location) (after : Time) : option Time :=
  let day := local_day loc after in
  let lastYear := last_year s loc after in
  next_loop (Z.to_nat (days_before_year (lastYear + 1) - day + 1)) s loc after lastYear day.

(** ** The calendar *)

Lemma year_length y : days_before_year (y + 1) = days_before_year y + 365 + (if leap y then 1 else 0).
Proof.
  unfold days_before_year, leap.
  destruct (Z.eqb_spec (y mod 4) 0), (Z.eqb_spec (y mod 100) 0), (Z.eqb_spec (y mod 400) 0); cbn [andb orb negb]; dlia.
Qed.

Lemma year_mono y y' : y < y' → days_before_year y + 365 ≤ days_before_year y'.
Proof. unfold days_before_year. intros. dlia. Qed.

Lemma Year_spec d : days_before_year (Year d) ≤ d < days_before_year (Year d + 1).
Proof.
  unfold Year. set (y := d * 400 / 146097 + 1).
  assert (days_before_year (y - 1) ≤ d < days_before_year (y + 2)) as H.
  { unfold days_before_year, y. dlia. }
  destruct (Z.ltb_spec d (days_before_year y)); [replace (y - 1 + 1) with y by lia; lia|].
  destruct (Z.leb_spec (days_before_year (y + 1)) d); [replace (y + 1 + 1) with (y + 2) by lia; lia|lia].
Qed.

Lemma Year_unique d y : days_before_year y ≤ d < days_before_year (y + 1) → Year d = y.
Proof.
  intros H. pose proof (Year_spec d) as H'.
  destruct (Z.lt_total (Year d) y) as [Hlt|[?|Hlt]]; [|done|].
  - destruct (Z.eq_dec (Year d + 1) y) as [<-|]; [lia|]. pose proof (year_mono (Year d + 1) y ltac:(lia)). lia.
  - destruct (Z.eq_dec (y + 1) (Year d)) as [E|]; [rewrite <- E in H'; lia|].
    pose proof (year_mono (y + 1) (Year d) ltac:(lia)). lia.
Qed.

Lemma Year_mono d d' : d ≤ d' → Year d ≤ Year d'.
Proof.
  intros H. destruct (Z.le_gt_cases (Year d) (Year d')) as [|Hlt]; [done|].
  pose proof (Year_spec d). pose proof (Year_spec d') as H'.
  destruct (Z.eq_dec (Year d' + 1) (Year d)) as [E|]; [rewrite E in H'; lia|].
  pose proof (year_mono (Year d' + 1) (Year d) ltac:(lia)). lia.
Qed.

(** Cases on a month. *)
Ltac month_cases m :=
  let H := fresh in
  assert (m = 1 ∨ m = 2 ∨ m = 3 ∨ m = 4 ∨ m = 5 ∨ m = 6 ∨ m = 7 ∨ m = 8 ∨ m = 9 ∨ m = 10 ∨ m = 11 ∨ m = 12)
    as H by lia;
  destruct H as [->|[->|[->|[->|[->|[->|[->|[->|[->|[->|[->| ->]]]]]]]]]]].

Lemma month_length y m : 1 ≤ m ≤ 12 →
  28 ≤ days_before_month y (m + 1) - days_before_month y m ≤ 31.
Proof. intros Hm. unfold days_before_month. month_cases m; destruct (leap y); vm_compute; split; congruence. Qed.

Lemma month_loop_spec fuel y n m :
  1 ≤ m → m + Z.of_nat fuel ≤ 12 → days_before_month y m ≤ n → n < days_before_month y (m + Z.of_nat fuel + 1) →
  let r := month_loop fuel y n m in
  m ≤ r ≤ m + Z.of_nat fuel ∧ days_before_month y r ≤ n < days_before_month y (r + 1).
Proof.
  revert m. induction fuel as [|fuel IH]; intros m Hm Hf Hlo Hhi; cbn [month_loop].
  { replace (m + Z.of_nat 0 + 1) with (m + 1) in Hhi by lia. lia. }
  destruct (Z.ltb_spec n (days_before_month y (m + 1))); [lia|].
  destruct (IH (m + 1)) as [H1 H2]; [lia|lia|done| |split; [lia|done]].
  by replace (m + 1 + Z.of_nat fuel + 1) with (m + Z.of_nat (S fuel) + 1) by lia.
Qed.

Lemma Month_spec d :
  1 ≤ Month d ≤ 12 ∧
  days_before_month (Year d) (Month d) ≤ d - days_before_year (Year d) < days_before_month (Year d) (Month d + 1).
Proof.
  pose proof (Year_spec d) as [H1 H2]. rewrite year_length in H2.
  destruct (month_loop_spec 11 (Year d) (d - days_before_year (Year d)) 1) as [H3 H4].
  - lia.
  - lia.
  - change (days_before_month (Year d) 1) with 0. lia.
  - change (days_before_month (Year d) (1 + Z.of_nat 11 + 1)) with (365 + (if leap (Year d) then 1 else 0)). lia.
  - fold (Month d) in H3, H4. split; [lia|done].
Qed.

Lemma month_before y m m' : 1 ≤ m → m' ≤ 13 → m < m' → days_before_month y (m + 1) ≤ days_before_month y m'.
Proof.
  intros H1 H2 Hlt. assert (∀ k, 0 ≤ k → m + 1 + k ≤ 13 → days_before_month y (m + 1) ≤ days_before_month y (m + 1 + k)) as H.
  { apply (natlike_ind (λ k, m + 1 + k ≤ 13 → days_before_month y (m + 1) ≤ days_before_month y (m + 1 + k))).
    - intros _. by rewrite Z.add_0_r.
    - intros k Hk IH Hb. pose proof (month_length y (m + 1 + k) ltac:(lia)).
      specialize (IH ltac:(lia)). replace (m + 1 + Z.succ k) with (m + 1 + k + 1) by lia. lia. }
  replace m' with (m + 1 + (m' - m - 1)) by lia. apply H; lia.
Qed.

Lemma Month_unique d y m :
  1 ≤ m ≤ 12 → Year d = y → days_before_month y m ≤ d - days_before_year y < days_before_month y (m + 1) → Month d = m.
Proof.
  intros Hm <- H. destruct (Month_spec d) as [H1 H2].
  destruct (Z.lt_total (Month d) m) as [Hlt|[?|Hlt]]; [|done|].
  - pose proof (month_before (Year d) (Month d) m). lia.
  - pose proof (month_before (Year d) m (Month d)). lia.
Qed.

(** The days a jump to the next year or month passes share its year, or its
    year and month. *)
Lemma next_year_day y : date_day (y + 1) 1 1 = days_before_year (y + 1).
Proof.
  unfold date_day. change ((1 - 1) / 12) with 0. change ((1 - 1) mod 12 + 1) with 1. rewrite (Z.add_0_r (y + 1)).
  change (days_before_month (y + 1) 1) with 0. lia.
Qed.

Lemma next_month_day y m : 1 ≤ m ≤ 12 → date_day y (m + 1) 1 = days_before_year y + days_before_month y (m + 1).
Proof.
  intros Hm. unfold date_day. destruct (Z.eq_dec m 12) as [->|].
  - change ((12 + 1 - 1) / 12) with 1. change ((12 + 1 - 1) mod 12 + 1) with 1.
    rewrite year_length. change (days_before_month (y + 1) 1) with 0.
    change (days_before_month y (12 + 1)) with (365 + (if leap y then 1 else 0)). lia.
  - replace (m + 1 - 1) with m by lia. rewrite Z.div_small, Z.mod_small by lia. rewrite (Z.add_0_r y). lia.
Qed.

Lemma same_year d x : d ≤ x < date_day (Year d + 1) 1 1 → Year x = Year d.
Proof. rewrite next_year_day. intros H. apply Year_unique. pose proof (Year_spec d). lia. Qed.

Lemma same_month d x : d ≤ x < date_day (Year d) (Month d + 1) 1 → Year x = Year d ∧ Month x = Month d.
Proof.
  destruct (Month_spec d) as [Hm H]. rewrite next_month_day by done. intros Hx.
  pose proof (Year_spec d). pose proof (month_before (Year d) (Month d) 13).
  assert (days_before_month (Year d) (Month d + 1) ≤ 365 + (if leap (Year d) then 1 else 0)) as Hb.
  { change (365 + (if leap (Year d) then 1 else 0)) with (days_before_month (Year d) 13). lia. }
  assert (Year x = Year d) as Hy by (apply Year_unique; rewrite year_length; lia).
  split; [done|]. apply (Month_unique x (Year d)); [done|done|lia].
Qed.

(** Year, month and day of month name a day. *)
Lemma date_day_id d : date_day (Year d) (Month d) (Day d) = d.
Proof.
  destruct (Month_spec d) as [Hm _]. unfold date_day, Day.
  rewrite Z.div_small, Z.mod_small by lia. rewrite (Z.add_0_r (Year d)). replace (Month d - 1 + 1) with (Month d) by lia. lia.
Qed.

(** ** The search finds the first occurrence *)

(** What a time zone promises: wall-clock times that exist come in the order of
    the clock, and no later instant falls on an earlier day. A zone with a fixed
    offset is one (below). *)
Definition wall_lt (d h m d' h' m' : Z) : Prop := d < d' ∨ (d = d' ∧ h * 60 + m < h' * 60 + m').

Class Zone (loc : Location) : Prop := {
  date_mono d h m d' h' m' :
    0 ≤ h < 24 → 0 ≤ m < 60 → 0 ≤ h' < 24 → 0 ≤ m' < 60 →
    wall_exists loc d h m = true → wall_exists loc d' h' m' = true →
    wall_lt d h m d' h' m' → Date loc d h m < Date loc d' h' m';
  later_day after d h m :
    0 ≤ h < 24 → 0 ≤ m < 60 → wall_exists loc d h m = true → after < Date loc d h m → local_day loc after ≤ d
}.

(** The schedule fires at [h]:[m] of [day]. *)
Record occurs (s : Schedule) (loc : Location) (day h m : Z) : Prop := {
  oc_h : 0 ≤ h < 24;
  oc_m : 0 ≤ m < 60;
  oc_year : in_years s (Year day) = true;
  oc_month : has (month s) (Month day) = true;
  oc_day : dayMatches s day = true;
  oc_hour : has (hour s) h = true;
  oc_minute : has (minute s) m = true;
  oc_wall : wall_exists loc day h m = true
}.

Definition clock (hm : Z * Z) : Z := hm.1 * 60 + hm.2.

Lemma day_times_clock : map clock day_times = seqZ 0 1440.
Proof. by vm_compute. Qed.

Lemma day_times_sorted : StronglySorted (λ a b, clock a < clock b) day_times.
Proof.
  apply (StronglySorted_fmap_inv Z.lt clock). change (clock <$> day_times) with (map clock day_times).
  rewrite day_times_clock. assert (∀ n k, StronglySorted Z.lt (seqZ k (Z.of_nat n))) as H; [|apply (H 1440%nat)].
  induction n as [|n IH]; intros k; [constructor|].
  rewrite seqZ_cons by lia. replace (Z.pred (Z.of_nat (S n))) with (Z.of_nat n) by lia.
  constructor; [apply IH|]. apply Forall_forall. intros z Hz. apply elem_of_seqZ in Hz. lia.
Qed.

Lemma elem_of_day_times h m : (h, m) ∈ day_times ↔ 0 ≤ h < 24 ∧ 0 ≤ m < 60.
Proof.
  unfold day_times. rewrite list_elem_of_bind. split.
  - intros (h' & H & Hh). apply list_elem_of_bind in H as (m' & H & Hm).
    apply list_elem_of_singleton in H as [= -> ->]. apply elem_of_seqZ in Hh, Hm. lia.
  - intros [Hh Hm]. exists h. split; [|apply elem_of_seqZ; lia].
    apply list_elem_of_bind. exists m. split; [by left|apply elem_of_seqZ; lia].
Qed.

Lemma find_first {A} (f : A → bool) (R : relation A) l x :
  StronglySorted R l → find f l = Some x → x ∈ l ∧ f x = true ∧ ∀ y, y ∈ l → f y = true → y = x ∨ R x y.
Proof.
  induction 1 as [|a l Hl IH Ha]; [done|]. simpl. rewrite Forall_forall in Ha. destruct (f a) eqn:E.
  - intros [= <-]. split_and!; [left|done|]. intros y [->|Hy]%elem_of_cons _; [by left|right; auto].
  - intros Hf. destruct (IH Hf) as (H1 & H2 & H3). split_and!; [by right|done|].
    intros y [->|Hy]%elem_of_cons Hfy; [congruence|auto].
Qed.

Lemma day_search s loc after day `{!Zone loc} :
  in_years s (Year day) = true → has (month s) (Month day) = true →
  match (if dayMatches s day then find (day_hit s loc after day) day_times else None) with
  | Some hm => occurs s loc day hm.1 hm.2 ∧ after < Date loc day hm.1 hm.2 ∧
               ∀ h m, occurs s loc day h m → after < Date loc day h m → Date loc day hm.1 hm.2 ≤ Date loc day h m
  | None => ∀ h m, occurs s loc day h m → ¬ after < Date loc day h m
  end.
Proof.
  intros Hy Hm. destruct (dayMatches s day) eqn:Ed; [|intros h m []; congruence].
  assert (∀ h m, occurs s loc day h m → after < Date loc day h m → day_hit s loc after day (h, m) = true) as Hhit.
  { intros h m [] Hlt. unfold day_hit. simpl. rewrite oc_hour0, oc_minute0, oc_wall0. by apply Z.ltb_lt. }
  destruct (find (day_hit s loc after day) day_times) as [[h m]|] eqn:Ef.
  - destruct (find_first _ _ _ _ day_times_sorted Ef) as (Hin & Hh & Hfirst).
    apply elem_of_day_times in Hin as [Hh0 Hm0]. unfold day_hit in Hh. simpl in *. bools.
    assert (occurs s loc day h m) as Ho by (by constructor). split_and!; [done|done|].
    intros h' m' Ho' Hlt. pose proof Ho' as [].
    destruct (Hfirst (h', m')) as [[= -> ->]|Hcl]; [by apply elem_of_day_times|by apply Hhit|done|].
    apply Z.lt_le_incl, date_mono; [done..|]. right. split; [done|]. exact Hcl.
  - intros h m Ho Hlt. specialize (Hhit h m Ho Hlt). pose proof Ho as [].
    rewrite (find_none _ _ Ef (h, m)) in Hhit; [done|]. by apply list_elem_of_In, elem_of_day_times.
Qed.

Lemma next_loop_spec fuel s loc after lastYear day `{!Zone loc} :
  (days_before_year (lastYear + 1) - day < Z.of_nat fuel) →
  match next_loop fuel s loc after lastYear day with
  | Some t => ∃ d h m, day ≤ d ∧ Year d ≤ lastYear ∧ occurs s loc d h m ∧ t = Date loc d h m ∧ after < t ∧
      ∀ d' h' m', day ≤ d' → occurs s loc d' h' m' → after < Date loc d' h' m' → t ≤ Date loc d' h' m'
  | None => ∀ d h m, day ≤ d → Year d ≤ lastYear → occurs s loc d h m → ¬ after < Date loc d h m
  end.
Proof.
  (* skipping to a later day without an occurrence in between *)
  assert (∀ fuel day day', day < day' →
    (∀ d h m, day ≤ d < day' → occurs s loc d h m → ¬ after < Date loc d h m) →
    match next_loop fuel s loc after lastYear day' with
    | Some t => ∃ d h m, day' ≤ d ∧ Year d ≤ lastYear ∧ occurs s loc d h m ∧ t = Date loc d h m ∧ after < t ∧
        ∀ d' h' m', day' ≤ d' → occurs s loc d' h' m' → after < Date loc d' h' m' → t ≤ Date loc d' h' m'
    | None => ∀ d h m, day' ≤ d → Year d ≤ lastYear → occurs s loc d h m → ¬ after < Date loc d h m
    end →
    match next_loop fuel s loc after lastYear day' with
    | Some t => ∃ d h m, day ≤ d ∧ Year d ≤ lastYear ∧ occurs s loc d h m ∧ t = Date loc d h m ∧ after < t ∧
        ∀ d' h' m', day ≤ d' → occurs s loc d' h' m' → after < Date loc d' h' m' → t ≤ Date loc d' h' m'
    | None => ∀ d h m, day ≤ d → Year d ≤ lastYear → occurs s loc d h m → ¬ after < Date loc d h m
    end) as Hskip.
  { intros f d0 d1 Hlt Hnone H. destruct (next_loop f s loc after lastYear d1) as [t|].
    - destruct H as (d & h & m & Hd & Hy & Ho & Ht & Ha & Hmin). exists d, h, m. split_and!; try done; [lia|].
      intros d' h' m' Hd' Ho' Ha'. destruct (Z.lt_ge_cases d' d1); [|by eapply Hmin].
      by destruct (Hnone d' h' m').
    - intros d h m Hd Hy Ho. destruct (Z.lt_ge_cases d d1); [by apply Hnone|by apply H]. }
  revert day. induction fuel as [|fuel IH]; intros day Hf; cbn [next_loop].
  { intros d h m Hd Hy Ho. pose proof (Year_spec d). pose proof (year_mono (Year d + 1) (lastYear + 1)).
    destruct (Z.eq_dec (Year d) lastYear) as [E|]; [rewrite E in *|]; lia. }
  destruct (Z.ltb_spec lastYear (Year day)).
  { intros d h m Hd Hy. pose proof (Year_mono day d Hd). lia. }
  destruct (in_years s (Year day)) eqn:Ey; cbn [negb]; cycle 1.
  { pose proof (Year_spec day). rewrite <- next_year_day in *. apply Hskip; [lia| |apply IH; lia].
    intros d h m Hd []. rewrite (same_year day d Hd) in oc_year0. congruence. }
  destruct (has (month s) (Month day)) eqn:Em; cbn [negb]; cycle 1.
  { destruct (Month_spec day) as [Hm Hmd].
    pose proof (next_month_day (Year day) (Month day) Hm).
    apply Hskip; [lia| |apply IH; lia].
    intros d h m Hd []. destruct (same_month day d Hd) as [_ E]. congruence. }
  pose proof (day_search s loc after day Ey Em) as Hday.
  destruct (if dayMatches s day then _ else None) as [[h m]|].
  - destruct Hday as (Ho & Ha & Hmin). exists day, h, m. split_and!; try done.
    intros d' h' m' Hd' Ho' Ha'. destruct (Z.eq_dec d' day) as [->|]; [by apply Hmin|].
    pose proof Ho as []. pose proof Ho' as []. apply Z.lt_le_incl, date_mono; try done. left. simpl in *. lia.
  - apply Hskip; [lia| |apply IH; lia]. intros d h m Hd. replace d with day by lia. apply Hday.
Qed.

(** A zone with a fixed offset in seconds; UTC is offset zero. *)
Definition epoch_day : Z := 719162.

Definition FixedZone (offset : Z) : Location := MkLocation
  (λ t, (t / Second + offset) / 86400 + epoch_day)
  (λ t, (t / Second + offset) mod 86400 / 3600)
  (λ t, (t / Second + offset) mod 3600 / 60)
  (λ d h m, ((d - epoch_day) * 86400 + h * 3600 + m * 60 - offset) * Second).

#[global] Instance FixedZone_zone offset : Zone (FixedZone offset).
Proof.
  split; cbn [Date local_day FixedZone].
  - intros d h m d' h' m' Hh Hm Hh' Hm' _ _ [?|[-> ?]]; unfold Second, Millisecond; lia.
  - intros after d h m Hh Hm _ Ha. unfold Second, Millisecond, epoch_day in *. dlia.
Qed.

Lemma parsed_years ToUpper expr s :
  Parse ToUpper expr AWS = Some s → ∀ y, in_years s y = true → y ≤ maxYear s.
Proof.
  unfold Parse. intros H y. repeat (case_hyp H; try done).
  injection H as <-. unfold in_years. simpl. rewrite bool_decide_eq_true.
  match goal with E : parseYears _ _ = Some _ |- _ => unfold parseYears in E; apply fmap_Some in E as (vs & _ & [= -> ->]) end.
  clear. assert (∀ l a, a ≤ foldl Z.max a l ∧ ∀ y, y ∈ l → y ≤ foldl Z.max a l) as H; [|apply H].
  induction l as [|x l IH]; intros a; simpl; [split; [lia|by intros z ?%not_elem_of_nil]|].
  destruct (IH (Z.max a x)) as [I1 I2]. split; [lia|]. intros z [->|Hz]%elem_of_cons; [lia|auto].
Qed.

(** [C35] [Next] finds the first occurrence: in any zone whose existing
    wall-clock times come in order, the time it returns is an occurrence
    strictly after the given instant, and no occurrence lies between them; when
    it returns none, every occurrence after the instant lies past the last year
    it searches, and for an AWS schedule, whose years are listed, there is no
    occurrence at all. The day-by-day search with its jumps over years and
    months always ends. *)
Theorem next_is_the_first_occurrence (s : Schedule) (loc : Location) (after : Z) :
  Zone loc →
  match Next s loc after with
  | Some t =>
      ∃ d h m, occurs s loc d h m ∧ t = Date loc d h m ∧ after < t ∧
        ∀ d' h' m', occurs s loc d' h' m' → after < Date loc d' h' m' → t ≤ Date loc d' h' m'
  | None =>
      (∀ d h m, occurs s loc d h m → after < Date loc d h m → last_year s loc after < Year d) ∧
      (∀ ToUpper expr, Parse ToUpper expr AWS = Some s → ∀ d h m, occurs s loc d h m → ¬ after < Date loc d h m)
  end.
Proof.
  intros Hz. pose proof (next_loop_spec (Z.to_nat (days_before_year (last_year s loc after + 1) - local_day loc after + 1))
    s loc after (last_year s loc after) (local_day loc after) ltac:(lia)) as H.
  assert (∀ d h m, occurs s loc d h m → after < Date loc d h m → local_day loc after ≤ d) as Hlater.
  { intros d h m [] Ha. by eapply later_day. }
  unfold Next. destruct (next_loop _ _ _ _ _ _) as [t|].
  - destruct H as (d & h & m & _ & _ & Ho & Ht & Ha & Hmin). exists d, h, m. split_and!; try done.
    intros d' h' m' Ho' Ha'. eapply Hmin; eauto.
  - assert (∀ d h m, occurs s loc d h m → after < Date loc d h m → last_year s loc after < Year d) as Hnone.
    { intros d h m Ho Ha. destruct (Z.lt_ge_cases (last_year s loc after) (Year d)); [done|].
      by destruct (H d h m (Hlater _ _ _ Ho Ha)). }
    split; [done|]. intros ToUpper expr Hp d h m Ho Ha. specialize (Hnone d h m Ho Ha).
    pose proof (parsed_years _ _ _ Hp (Year d) (oc_year _ _ _ _ _ Ho)) as Hy.
    assert (years s ≠ None) as Hys by (unfold Parse in Hp; repeat (case_hyp Hp; try done); by injection Hp as <-).
    unfold last_year in Hnone. destruct (years s); [lia|done].
Qed.

Definition upper (c : ascii) : ascii :=
  let b := byte_of c in if (97 <=? b) && (b <=? 122) then char_of (b - 32) else c.
Definition ASCIIUpper (s : string) : string := text (map upper (chars s)).

Definition no_schedule : Schedule := MkSchedule 0 0 0 None 0 (λ _, false) (λ _, false) false false false.

(** 09:30 on the weekday nearest the 15th of every third month, in a zone five
    hours west; from the start of 2024. *)
Definition w_schedule : Schedule :=
  default no_schedule (Parse ASCIIUpper "30 9 15W */3 ? 2024-2026" AWS).
Definition w_zone : Location := FixedZone (- 18000).
Definition w_start : Z := Date w_zone (date_day 2024 1 1) 0 0.

Lemma next_is_the_first_occurrence_witness :
  Next w_schedule w_zone w_start = Some (Date w_zone (date_day 2024 1 15) 9 30) ∧
  ∀ d h m, occurs w_schedule w_zone d h m → w_start < Date w_zone d h m →
    Date w_zone (date_day 2024 1 15) 9 30 ≤ Date w_zone d h m.
Proof.
  assert (Next w_schedule w_zone w_start = Some (Date w_zone (date_day 2024 1 15) 9 30)) as E by (by vm_compute).
  pose proof (next_is_the_first_occurrence w_schedule w_zone w_start (FixedZone_zone _)) as H.
  rewrite E in H. destruct H as (_ & _ & _ & _ & _ & _ & Hmin). split; [exact E|exact Hmin].
Defined.

Definition w_leap : Schedule := default no_schedule (Parse ASCIIUpper "0 0 29 2 */7" Vixie).

Lemma w_leap_parses : Parse ASCIIUpper "0 0 29 2 */7" Vixie = Some w_leap.
Proof.
  assert (match Parse ASCIIUpper "0 0 29 2 */7" Vixie with Some _ => true | None => false end = true) as H by (by vm_compute).
  unfold w_leap. by destruct (Parse ASCIIUpper "0 0 29 2 */7" Vixie).
Qed.

(** A day-of-week field that begins with a star and a day of month combine
    with and, not or: [0 0 29 2 */7] asks for 29 February on a Sunday, which
    comes every 28 years. The search gives up after eight years and answers
    that there is none, although 29 February 2032 is one. *)
Theorem leap_sunday_is_missed :
  ∃ s, Parse ASCIIUpper "0 0 29 2 */7" Vixie = Some s ∧
    Next s (FixedZone 0) (Date (FixedZone 0) (date_day 2021 1 1) 0 0) = None ∧
    occurs s (FixedZone 0) (date_day 2032 2 29) 0 0.
Proof.
  exists w_leap. split; [apply w_leap_parses|]. split; [by vm_compute|].
  constructor; try lia; by vm_compute.
Qed.

(** ** Day qualifiers *)

Lemma lastDay_length t : lastDay t = days_before_month (Year t) (Month t + 1) - days_before_month (Year t) (Month t).
Proof.
  destruct (Month_spec t) as [Hm Ht]. unfold lastDay. set (x := date_day (Year t) (Month t + 1) 0).
  assert (x = date_day (Year t) (Month t + 1) 1 - 1) as Hx by (unfold x, date_day; lia).
  pose proof (next_month_day (Year t) (Month t) Hm) as Hn.
  destruct (same_month t x) as [Ey Em]; [lia|]. unfold Day. rewrite Ey, Em. lia.
Qed.

Lemma date_day_in_month t n : date_day (Year t) (Month t) n = date_day (Year t) (Month t) 1 + (n - 1).
Proof. unfold date_day. lia. Qed.

(** Monday to Friday. *)
Definition weekday (t n : Z) : Prop := 1 ≤ Weekday (date_day (Year t) (Month t) n) ≤ 5.

(** The [W] qualifier: the day [nearestWeekday] gives is a Monday to Friday
    of the same month, and no weekday of the month is closer to the day asked
    for, which is the last of the month when the month is shorter. *)
Theorem nearest_weekday_is_nearest t n :
  1 ≤ n →
  let r := nearestWeekday t n in
  let n' := Z.min n (lastDay t) in
  1 ≤ r ≤ lastDay t ∧ weekday t r ∧
  ∀ d, 1 ≤ d ≤ lastDay t → weekday t d → Z.abs (r - n') ≤ Z.abs (d - n').
Proof.
  intros Hn r n'. destruct (Month_spec t) as [Hm _]. pose proof (month_length (Year t) (Month t) Hm) as Hl.
  rewrite <- lastDay_length in Hl. unfold r, nearestWeekday, weekday, Weekday.
  replace (if lastDay t <? n then lastDay t else n) with n' by (unfold n'; destruct (Z.ltb_spec (lastDay t) n); lia).
  assert (1 ≤ n' ≤ lastDay t) as Hn' by (unfold n'; lia). clearbody n'. clear r Hn.
  generalize dependent (lastDay t). intros last Hlast Hn'.
  rewrite (date_day_in_month t n'). set (base := date_day (Year t) (Month t) 1).
  assert (∀ k, date_day (Year t) (Month t) k = base + (k - 1)) as Hk by apply date_day_in_month.
  setoid_rewrite Hk. clearbody base. clear Hk.
  destruct (Z.eqb_spec ((base + (n' - 1) + 1) mod 7) 6) as [E6|].
  { destruct (Z.ltb_spec 1 n'); (split; [lia|split; [dlia|]]); intros d Hd Hw; [|assert (d ≠ n' + 1) by dlia];
      assert (d ≠ n') by dlia; lia. }
  destruct (Z.eqb_spec ((base + (n' - 1) + 1) mod 7) 0) as [E0|].
  { destruct (Z.ltb_spec n' last); (split; [lia|split; [dlia|]]); intros d Hd Hw; [|assert (d ≠ n' - 1) by dlia];
      assert (d ≠ n') by dlia; lia. }
  split; [lia|]. split; [|intros; lia]. pose proof (Z.mod_pos_bound (base + (n' - 1) + 1) 7). lia.
Qed.

Lemma nearest_weekday_is_nearest_witness :
  nearestWeekday (date_day 2024 6 1) 15 = 14 ∧ weekday (date_day 2024 6 1) 14.
Proof.
  assert (nearestWeekday (date_day 2024 6 1) 15 = 14) as E by (by vm_compute).
  destruct (nearest_weekday_is_nearest (date_day 2024 6 1) 15) as (_ & H & _); [lia|].
  rewrite E in H. split; [exact E|exact H].
Defined.
