(* ===== verification/Ticker.v ===== *)
(** * Persisted schedules: [src/sim/cron/ticker.go]

    A [Ticker] keeps the next occurrence of every schedule in a store and, once
    per tick, fires what is due. An entry's callbacks are functions: [First] and
    [Next] of the instant, [Fire] of the ticker's store, which it may change (a
    schedule can delete itself). A call of a nil callback panics, which is
    [None]. *)

From S2P Require Import Prelude Store.

Record Record_ := MkRecord { Spec : string; NextAt : Time; Done : bool }.
#[global] Instance GoZero_Record : GoZero Record_ := MkRecord "" 0 false.

Section Ticker.
Context {St : Type} `{!Store St Record_}.

Record Entry := MkEntry {
  Key : string;
  EntrySpec : string;
  First : option (Time → option Time);
  Next : option (Time → option Time);
  MaxLate : Duration;
  Paused : bool;
  Fire : St → Time → St
}.

(** The inner loop of [tickEntry]: the last occurrence that is not after now. *)
Fixpoint latest (fuel : nat) (next : Time → option Time) (now scheduled : Time) : option Time :=
  match fuel with
  | O => None
  | S fuel =>
      match next scheduled with
      | None => Some scheduled
      | Some later => if now <? later then Some scheduled else latest fuel next now later
      end
  end.

Definition latest_fuel (now scheduled : Time) : nat := Z.to_nat (now - scheduled + 1).

(** The record of a schedule that is new or changed; its time means nothing
    when it is done. *)
Definition fresh_record (s : St) (e : Entry) (now : Time) : option (St * Record_) :=
  match (match First e with Some f => Some f | None => Next e end) with
  | None => None
  | Some first =>
      let rec := match first now with
                 | Some t => MkRecord (EntrySpec e) t false
                 | None => MkRecord (EntrySpec e) 0 true
                 end in
      Some (store_put s (Key e) rec, rec)
  end.

(** The record a tick works with. *)
Definition current (s : St) (e : Entry) (now : Time) : option (St * Record_) :=
  match store_get s (Key e) with
  | Some rec => if bool_decide (Spec rec = EntrySpec e) then Some (s, rec) else fresh_record s e now
  | None => fresh_record s e now
  end.

Definition tickEntry (s : St) (e : Entry) (now : Time) : option (St * list (string * Time)) :=
  match current s e now with
  | None => None
  | Some (s, rec) =>
      if Done rec || Paused e || (now <? NextAt rec) then Some (s, [])
      else
        match (match Next e with
               | Some next => latest (latest_fuel now (NextAt rec)) next now (NextAt rec)
               | None => Some (NextAt rec)
               end) with
        | None => None
        | Some scheduled =>
            let fires := (MaxLate e <=? 0) || (now - scheduled <=? MaxLate e) in
            let s := if fires then Fire e s scheduled else s in
            let rec := match (match Next e with Some next => next scheduled | None => None end) with
                       | Some t => MkRecord (Spec rec) t false
                       | None => MkRecord (Spec rec) (NextAt rec) true
                       end in
            let s := match store_get s (Key e) with Some _ => store_put s (Key e) rec | None => s end in
            Some (s, if fires then [(Key e, scheduled)] else [])
        end
  end.

Fixpoint tick_entries (s : St) (entries : list Entry) (now : Time) : option (St * list (string * Time)) :=
  match entries with
  | [] => Some (s, [])
  | e :: entries =>
      match tickEntry s e now with
      | None => None
      | Some (s, fired) =>
          match tick_entries s entries now with
          | None => None
          | Some (s, more) => Some (s, fired ++ more)
          end
      end
  end.

Definition Tick (s : St) (entries : list Entry) (now : Time) : option (St * list (string * Time)) :=
  match tick_entries s entries now with
  | None => None
  | Some (s, fired) =>
      Some (foldl (λ s row, if bool_decide (row.1 ∈ map Key entries) then s else (store_delete s row.1).1)
              s (store_list_prefix s ""), fired)
  end.

Definition Forget (s : St) (key : string) : St := (store_delete s key).1.

(** ** One tick of one schedule *)

Context `{!StoreSpec St Record_}.

(** An occurrence function that moves forward, as cron's does. *)
Definition forward (f : Time → option Time) : Prop := ∀ t t', f t = Some t' → t < t'.

(** The occurrences from [t] on. *)
Inductive occurs_from (f : Time → option Time) : Time → Time → Prop :=
| occurs_here t : occurs_from f t t
| occurs_later t t' u : f t = Some t' → occurs_from f t' u → occurs_from f t u.

Definition last_due (f : Time → option Time) (now t : Time) : Prop :=
  match f t with Some t' => now < t' | None => True end.

Lemma latest_spec fuel next now scheduled :
  forward next → scheduled ≤ now → now - scheduled < Z.of_nat fuel →
  ∃ t, latest fuel next now scheduled = Some t ∧ occurs_from next scheduled t ∧ scheduled ≤ t ≤ now ∧ last_due next now t.
Proof.
  intros Hf. revert scheduled. induction fuel as [|fuel IH]; intros u Hu Hfuel; [lia|]. cbn [latest].
  destruct (next u) as [later|] eqn:En.
  - pose proof (Hf _ _ En). destruct (Z.ltb_spec now later).
    + exists u. split_and!; [done|constructor|lia|lia|unfold last_due; by rewrite En].
    + destruct (IH later) as (t & H1 & H2 & H3 & H4); [lia|lia|]. exists t. split_and!; [done|by econstructor|lia|lia|done].
  - exists u. split_and!; [done|constructor|lia|lia|unfold last_due; by rewrite En].
Qed.

Record entry_ok (e : Entry) : Prop := {
  eo_next : match Next e with Some f => forward f | None => True end;
  eo_callback : First e ≠ None ∨ Next e ≠ None;
  eo_fire s t : store_ok s → store_ok (Fire e s t)
}.

Lemma current_spec s e now :
  store_ok s → entry_ok e →
  ∃ s' rec, current s e now = Some (s', rec) ∧ store_ok s' ∧ contents s' !! Key e = Some rec ∧ Spec rec = EntrySpec e ∧
    (∀ r, contents s !! Key e = Some r → Spec r = EntrySpec e → s' = s ∧ rec = r).
Proof.
  intros Hok [_ Hcb _].
  assert (∃ s' rec, fresh_record s e now = Some (s', rec) ∧
    store_ok s' ∧ contents s' !! Key e = Some rec ∧ Spec rec = EntrySpec e) as (s' & rec & Hf & H1 & H2 & H3).
  { unfold fresh_record. destruct (match First e with Some f => Some f | None => Next e end) as [first|] eqn:Ef.
    - set (rec := match first now with Some t => MkRecord (EntrySpec e) t false | None => MkRecord (EntrySpec e) 0 true end).
      exists (store_put s (Key e) rec), rec. destruct (put_spec s (Key e) rec Hok) as [P1 P2].
      split_and!; [done|done|by rewrite P2, lookup_insert_eq|]. unfold rec. by destruct (first now).
    - exfalso. destruct (First e); [done|]. destruct Hcb; done. }
  unfold current. rewrite get_spec by done. destruct (contents s !! Key e) as [r|] eqn:Er.
  - destruct (bool_decide_reflect (Spec r = EntrySpec e)) as [Hs|Hs].
    + exists s, r. split_and!; try done. intros r' [= <-] _. done.
    + rewrite Hf. exists s', rec. split_and!; try done. intros r' [= <-]. done.
  - rewrite Hf. exists s', rec. by split_and!.
Qed.

(** What one tick of a schedule does, from the record [rec] it works with. *)
Record tick_result (e : Entry) (rec : Record_) (now : Time) (s' : St) (fired : list (string * Time)) : Prop := {
  tr_fired k t : (k, t) ∈ fired →
    k = Key e ∧ NextAt rec ≤ t ≤ now ∧ Done rec = false ∧ Paused e = false ∧
    match Next e with Some f => occurs_from f (NextAt rec) t ∧ last_due f now t | None => t = NextAt rec end ∧
    (MaxLate e ≤ 0 ∨ now - t ≤ MaxLate e);
  tr_once : (length fired ≤ 1)%nat;
  tr_after r : contents s' !! Key e = Some r → Paused e = false → Done r = true ∨ now < NextAt r;
  tr_spec r : contents s' !! Key e = Some r → Spec r = EntrySpec e;
  tr_idle : Done rec = true ∨ Paused e = true ∨ now < NextAt rec → fired = [] ∧ contents s' !! Key e = Some rec;
  tr_due : Done rec = false → Paused e = false → NextAt rec ≤ now → MaxLate e ≤ 0 → length fired = 1%nat
}.

Lemma tickEntry_spec s e now :
  store_ok s → entry_ok e →
  ∃ s' fired s1 rec, tickEntry s e now = Some (s', fired) ∧ store_ok s' ∧
    current s e now = Some (s1, rec) ∧ tick_result e rec now s' fired.
Proof.
  intros Hok He. destruct (current_spec s e now Hok He) as (s1 & rec & Hc & Hok1 & Hrec & Hspec & _).
  unfold tickEntry. rewrite Hc.
  destruct (Done rec || Paused e || (now <? NextAt rec)) eqn:Eidle.
  { exists s1, [], s1, rec. split_and!; try done. split.
    - intros k t Hin. by apply not_elem_of_nil in Hin.
    - simpl. lia.
    - intros r Hr Hp. rewrite Hrec in Hr. injection Hr as <-. rewrite Hp, orb_false_r in Eidle. bools.
      destruct Eidle; bools; auto.
    - intros r Hr. congruence.
    - done.
    - intros Hd Hp Hn. rewrite Hd, Hp in Eidle. simpl in Eidle. bools. lia. }
  bools.
  assert (∃ t, match Next e with
               | Some next => latest (latest_fuel now (NextAt rec)) next now (NextAt rec)
               | None => Some (NextAt rec) end = Some t ∧ NextAt rec ≤ t ≤ now ∧
    match Next e with Some f => occurs_from f (NextAt rec) t ∧ last_due f now t | None => t = NextAt rec end)
    as (t & -> & Ht & Hlast).
  { pose proof (eo_next e He) as Hn. destruct (Next e) as [f|]; [|eexists; split_and!; [done|lia|lia|done]].
    destruct (latest_spec (latest_fuel now (NextAt rec)) f now (NextAt rec) Hn) as (t & ? & ? & ? & ?);
      [lia|unfold latest_fuel; lia|]. by exists t. }
  set (fires := (MaxLate e <=? 0) || (now - t <=? MaxLate e)).
  set (s2 := if fires then Fire e s1 t else s1).
  assert (store_ok s2) as Hok2 by (unfold s2; destruct fires; [by apply eo_fire|done]).
  set (rec' := match match Next e with Some next => next t | None => None end with
               | Some u => MkRecord (Spec rec) u false | None => MkRecord (Spec rec) (NextAt rec) true end).
  assert (Done rec' = true ∨ now < NextAt rec') as Hrec'.
  { unfold rec'. destruct (Next e) as [f|]; [|by left]. destruct Hlast as [_ Hl]. unfold last_due in Hl.
    destruct (f t); simpl; [by right|by left]. }
  eexists _, _, s1, rec. split; [done|]. rewrite get_spec by done.
  destruct (put_spec s2 (Key e) rec' Hok2) as [P1 P2].
  split; [by destruct (contents s2 !! Key e)|]. split; [done|]. split.
  - intros k u Hin. destruct fires eqn:Ef; [|by apply not_elem_of_nil in Hin].
    apply list_elem_of_singleton in Hin as [= -> ->]. split_and!; try done; [lia|lia|].
    unfold fires in Ef. bools. destruct Ef; bools; auto.
  - by destruct fires; simpl; lia.
  - intros r Hr _. destruct (contents s2 !! Key e) eqn:E2.
    + rewrite P2, lookup_insert_eq in Hr. injection Hr as <-. done.
    + congruence.
  - intros r Hr. destruct (contents s2 !! Key e) eqn:E2; [|congruence].
    rewrite P2, lookup_insert_eq in Hr. injection Hr as <-. unfold rec'.
    by destruct (match Next e with Some next => next t | None => None end).
  - intros [?|[?|?]]; [congruence|congruence|lia].
  - intros _ _ _ Hl. unfold fires. by rewrite (proj2 (Z.leb_le _ _) Hl).
Qed.

Lemma tick_entries_ok s entries now :
  store_ok s → Forall entry_ok entries →
  ∃ s' fired, tick_entries s entries now = Some (s', fired) ∧ store_ok s' ∧ (length fired ≤ length entries)%nat.
Proof.
  intros Hok He. revert s Hok. induction He as [|e entries He Hes IH]; intros s Hok; cbn [tick_entries].
  { by exists s, []. }
  destruct (tickEntry_spec s e now Hok He) as (s1 & f1 & _ & rec & -> & Hok1 & _ & Hr).
  destruct (IH s1 Hok1) as (s2 & f2 & -> & Hok2 & Hl). exists s2, (f1 ++ f2). split_and!; [done|done|].
  rewrite length_app. pose proof (tr_once _ _ _ _ _ Hr). simpl. lia.
Qed.

(** The loop that forgets what is no longer scheduled. *)
Lemma forget_loop (keep : list string) (rows : list (string * Record_)) s :
  store_ok s →
  let s' := foldl (λ s row, if bool_decide (row.1 ∈ keep) then s else (store_delete s row.1).1) s rows in
  store_ok s' ∧ ∀ k, contents s' !! k = if decide (k ∈ rows.*1 ∧ k ∉ keep) then None else contents s !! k.
Proof.
  revert s. induction rows as [|[k0 r] rows IH]; intros s Hok; cbn [foldl].
  { split; [done|]. intros k. rewrite decide_False; [done|]. intros [H _]. by apply not_elem_of_nil in H. }
  set (s1 := if bool_decide (k0 ∈ keep) then s else (store_delete s k0).1).
  assert (store_ok s1 ∧ ∀ k, contents s1 !! k = if decide (k = k0 ∧ k ∉ keep) then None else contents s !! k) as [Hok1 H1].
  { unfold s1. destruct (bool_decide_reflect (k0 ∈ keep)).
    - split; [done|]. intros k. rewrite decide_False; [done|]. intros [-> ?]. done.
    - destruct (delete_spec s k0 Hok) as (D1 & D2 & _). split; [done|]. intros k. rewrite D2.
      destruct (decide (k = k0 ∧ k ∉ keep)) as [[-> _]|Hk]; [by rewrite lookup_delete_eq|].
      rewrite lookup_delete_ne; [done|]. intros ->. by apply Hk. }
  destruct (IH s1 Hok1) as [I1 I2]. split; [done|]. intros k. cbn [fst]. rewrite I2, H1. csimpl.
  destruct (decide (k ∈ rows.*1 ∧ k ∉ keep)), (decide (k = k0 ∧ k ∉ keep)), (decide (k ∈ k0 :: rows.*1 ∧ k ∉ keep));
    try done; exfalso; set_solver.
Qed.

Lemma Tick_ok s entries now :
  store_ok s → Forall entry_ok entries →
  ∃ s' fired, Tick s entries now = Some (s', fired) ∧ store_ok s' ∧ (length fired ≤ length entries)%nat ∧
    ∀ k, is_Some (contents s' !! k) → k ∈ map Key entries.
Proof.
  intros Hok He. destruct (tick_entries_ok s entries now Hok He) as (s1 & fired & Ht & Hok1 & Hl).
  unfold Tick. rewrite Ht. destruct (forget_loop (map Key entries) (store_list_prefix s1 "") s1 Hok1) as [Hok2 H].
  eexists _, fired. split_and!; [done|done|done|]. intros k [r Hk]. rewrite H in Hk.
  destruct (decide (k ∈ map Key entries)) as [|Hn]; [done|]. exfalso.
  rewrite decide_True in Hk; [done|]. split; [|done].
  destruct (decide (k ∈ (store_list_prefix s1 "").*1)) as [|Hnk]; [done|].
  rewrite decide_False in Hk by (by intros [? _]).
  destruct (list_prefix_spec s1 "" Hok1) as [_ Hrows]. destruct Hnk. apply list_elem_of_fmap.
  exists (k, r). split; [done|]. apply Hrows. by destruct k.
Qed.
End Ticker.

(** A tick fires each due schedule once, at its latest occurrence: whatever
    the records in the store, an entry that is neither done nor paused and whose
    occurrence has come fires at most once per tick, exactly once when no
    occurrence is too late, at the last occurrence not after now that its
    recorded one leads to; otherwise nothing fires and its record stays. The
    record it leaves, if the schedule did not remove itself, is done or lies in
    the future, so a later tick fires only later occurrences. A whole tick keeps
    the records of the schedules that still exist and no others. Occurrence
    functions move forward, so the catch-up loop ends. *)
Theorem ticker_fires_the_latest_once {St} `{!Store St Record_, !StoreSpec St Record_} (s : St) (e : Entry) (now : Z)
    (entries : list (Entry (St:=St))) :
  store_ok s → entry_ok e → Forall entry_ok entries →
  (∃ s' fired s1 rec, tickEntry s e now = Some (s', fired) ∧ store_ok s' ∧
     current s e now = Some (s1, rec) ∧ tick_result e rec now s' fired ∧
     ∀ now' s'' fired' k t, is_Some (contents s' !! Key e) →
       tickEntry s' e now' = Some (s'', fired') → (k, t) ∈ fired' → now < t ≤ now') ∧
  (∃ s' fired, Tick s entries now = Some (s', fired) ∧ store_ok s' ∧ (length fired ≤ length entries)%nat ∧
     ∀ k, is_Some (contents s' !! k) → k ∈ map Key entries).
Proof.
  intros Hok He Hes. split; [|by apply Tick_ok].
  destruct (tickEntry_spec s e now Hok He) as (s' & fired & s1 & rec & Ht & Hok' & Hc & Hr).
  exists s', fired, s1, rec. split_and!; try done. intros now' s'' fired' k t [r Hk] Ht' Hin.
  destruct (tickEntry_spec s' e now' Hok' He) as (s3 & f3 & s2 & rec2 & Ht2 & _ & Hc2 & Hr2).
  rewrite Ht' in Ht2. injection Ht2 as <- <-.
  destruct (current_spec s' e now' Hok' He) as (s4 & rec4 & Hc4 & _ & _ & _ & Hsame).
  destruct (Hsame r Hk (tr_spec _ _ _ _ _ Hr r Hk)) as [-> ->]. rewrite Hc4 in Hc2. injection Hc2 as <- <-.
  destruct (tr_fired _ _ _ _ _ Hr2 k t Hin) as (_ & Hb & Hd & Hp & _).
  destruct (tr_after _ _ _ _ _ Hr r Hk Hp) as [Hdone|]; [congruence|lia].
Qed.

(** A schedule due every ten units, last recorded for 10, at 35: it fires once,
    for 30, and next at 40; another record has no schedule any more. *)
Definition w_entry : Entry (St := Z * MemoryStore Record_) :=
  MkEntry "a" "every 10" None (Some (λ t, Some (t + 10))) 0 false (λ s _, s).
Definition w_store : Z * MemoryStore Record_ :=
  store_put (store_put (NewStateStore 0) "a" (MkRecord "every 10" 10 false)) "gone" (MkRecord "" 5 true).

Lemma w_store_ok : store_ok w_store.
Proof.
  unfold w_store. apply put_spec, put_spec. apply NewStateStore_wf.
Qed.

Lemma w_entry_ok : entry_ok w_entry.
Proof. split; [|by right|done]. intros t t' [= <-]. lia. Qed.

Lemma ticker_fires_the_latest_once_witness :
  (∃ s' fired s1 rec, tickEntry w_store w_entry 35 = Some (s', fired) ∧ fired = [("a", 30)] ∧
     current w_store w_entry 35 = Some (s1, rec) ∧ tick_result w_entry rec 35 s' fired) ∧
  ∃ s' fired, Tick w_store [w_entry] 35 = Some (s', fired) ∧
    (∀ k, is_Some (contents s' !! k) → k ∈ ["a"]).
Proof.
  destruct (ticker_fires_the_latest_once w_store w_entry 35 [w_entry]) as [H1 H2].
  - exact w_store_ok.
  - exact w_entry_ok.
  - constructor; [exact w_entry_ok|constructor].
  - split.
    + destruct H1 as (s' & fired & s1 & rec & Ht & _ & Hc & Hr & _). exists s', fired, s1, rec.
      split; [exact Ht|]. split; [|split; [exact Hc|exact Hr]].
      assert (snd <$> tickEntry w_store w_entry 35 = Some [("a", 30)]) as E by (by vm_compute).
      rewrite Ht in E. simpl in E. congruence.
    + destruct H2 as (s' & fired & Ht & _ & _ & Hk). exists s', fired. split; [exact Ht|exact Hk].
Defined.
