(* ===== verification/Changelog.v ===== *)
(** * Change logs: [src/sim/kvstore/changelog.go]

    The log of every write to a set of streams, over the store interface. A
    change is filed under its stream and its sequence number, which the caller
    assigns; readers resume after the last number they saw. Stream names must
    not run into each other: no name followed by a slash begins another. *)

From S2P Require Import Prelude Store Gostd.

Inductive ChangeOp := OpCreate | OpReplace | OpDelete.

Record Change (T : Type) := MkChange {
  Seq : Z; Key : string; Op : ChangeOp; Current : option T; Previous : option T; At : Time; Expired : bool
}.
Arguments MkChange {T}. Arguments Seq {T}. Arguments Key {T}. Arguments Op {T}.
Arguments Current {T}. Arguments Previous {T}. Arguments At {T}. Arguments Expired {T}.
#[global] Instance GoZero_Change {T} : GoZero (Change T) := MkChange 0 "" OpCreate None None 0 false.

Definition changeID (stream : string) (seq : Z) : string := stream +:+ "/" +:+ pad20 seq.

Section ChangeLog.
Context {St T : Type} `{!Store St (Change T)}.

Record ChangeLog := MkChangeLog { store : St; Retention : Duration }.

Definition Append (l : ChangeLog) (stream : string) (change : Change T) : ChangeLog :=
  MkChangeLog (store_put (store l) (changeID stream (Seq change)) change) (Retention l).

(** The loop of [Read]: skip what was seen, stop at max. *)
Fixpoint read_rows (rows : list (string * Change T)) (afterSeq max : Z) (out : list (Change T)) : list (Change T) :=
  match rows with
  | [] => out
  | row :: rows =>
      if Seq row.2 <=? afterSeq then read_rows rows afterSeq max out
      else let out := out ++ [row.2] in
           if (0 <? max) && (Z.of_nat (length out) =? max) then out else read_rows rows afterSeq max out
  end.

Definition Read (l : ChangeLog) (stream : string) (afterSeq max : Z) : list (Change T) :=
  read_rows (store_list_prefix (store l) (stream +:+ "/")) afterSeq max [].

Definition LastSeq (l : ChangeLog) : Z :=
  foldl (λ last row, Z.max last (Seq row.2)) 0 (store_list_prefix (store l) "").

Definition Prune (l : ChangeLog) (now : Time) : ChangeLog * nat :=
  let cutoff := now - Retention l in
  let (s, n) := store_prune (store l) (λ c, At c <? cutoff) in
  (MkChangeLog s (Retention l), n).

Definition Drop (l : ChangeLog) (prefix : string) : ChangeLog :=
  MkChangeLog (foldl (λ s row, (store_delete s row.1).1) (store l) (store_list_prefix (store l) prefix)) (Retention l).

(** ** The abstract log: changes by stream and number *)

Context `{!StoreSpec St (Change T)}.

Inductive op := OpAppend (stream : string) (change : Change T) | OpPrune (now : Time) | OpDrop (prefix : string).

Definition run_op (l : ChangeLog) (o : op) : ChangeLog :=
  match o with
  | OpAppend stream change => Append l stream change
  | OpPrune now => (Prune l now).1
  | OpDrop prefix => Drop l prefix
  end.

Definition abstract_op (retention : Duration) (m : gmap (string * Z) (Change T)) (o : op) : gmap (string * Z) (Change T) :=
  match o with
  | OpAppend stream change => <[(stream, Seq change):=change]> m
  | OpPrune now => filter (λ kv, now - retention ≤ At kv.2) m
  | OpDrop prefix => filter (λ kv, HasPrefix (changeID kv.1.1 kv.1.2) prefix = false) m
  end.

Definition op_ok (streams : list string) (o : op) : Prop :=
  match o with OpAppend stream change => stream ∈ streams ∧ in_u64 (Seq change) | _ => True end.

(** The rows hold the abstract log. *)
Record log_ok (streams : list string) (l : ChangeLog) (m : gmap (string * Z) (Change T)) : Prop := {
  lg_store : store_ok (store l);
  lg_keys k c : contents (store l) !! k = Some c →
    ∃ st, st ∈ streams ∧ in_u64 (Seq c) ∧ k = changeID st (Seq c);
  lg_rows st q : in_u64 q → contents (store l) !! changeID st q = m !! (st, q)
}.

Lemma changeID_inj a b n m : in_u64 n → in_u64 m → changeID a n = changeID b m → a = b ∧ n = m.
Proof.
  unfold changeID. intros Hn Hm H. rewrite <- !append_assoc_s in H. apply scoped_key_inj in H as [H ->]; [|done..].
  split; [|done]. by apply append_inj_r in H as [-> _].
Qed.

Lemma delete_rows (rows : list (string * Change T)) s :
  store_ok s →
  let s' := foldl (λ s row, (store_delete s row.1).1) s rows in
  store_ok s' ∧ ∀ k, contents s' !! k = if decide (k ∈ rows.*1) then None else contents s !! k.
Proof.
  revert s. induction rows as [|[k0 r] rows IH]; intros s Hok; cbn [foldl].
  { split; [done|]. intros k. rewrite decide_False; [done|]. apply not_elem_of_nil. }
  destruct (delete_spec s k0 Hok) as (D1 & D2 & _). destruct (IH _ D1) as [I1 I2]. split; [done|].
  intros k. cbn [fst]. rewrite I2, D2. csimpl.
  destruct (decide (k ∈ rows.*1)), (decide (k ∈ k0 :: rows.*1)) as [Hk|Hk]; try done.
  - destruct Hk. by right.
  - apply elem_of_cons in Hk as [->|]; [by rewrite lookup_delete_eq|done].
  - rewrite lookup_delete_ne; [done|]. intros ->. apply Hk. left.
Qed.

Lemma run_op_ok streams l m o :
  log_ok streams l m → op_ok streams o →
  log_ok streams (run_op l o) (abstract_op (Retention l) m o) ∧ Retention (run_op l o) = Retention l.
Proof.
  intros [Hs Hk Hr] Ho. destruct o as [stream c|now|prefix]; simpl.
  - destruct Ho as [Hst Hq]. destruct (put_spec (store l) (changeID stream (Seq c)) c Hs) as [P1 P2]. split; [|done]. split.
    + done.
    + simpl. rewrite P2. intros k c' [[<- <-]|[_ H]]%lookup_insert_Some; [eauto|eauto].
    + simpl. rewrite P2. intros st q Hq'. destruct (decide ((stream, Seq c) = (st, q))) as [[= <- <-]|Hne].
      * by rewrite !lookup_insert_eq.
      * rewrite !lookup_insert_ne; [by apply Hr|done|]. intros E. apply changeID_inj in E as [E1 E2]; congruence || done.
  - unfold Prune. pose proof (prune_spec (store l) (λ c, At c <? now - Retention l) Hs) as H.
    destruct (store_prune (store l) (λ c, At c <? now - Retention l)) as [s n]. simpl in H. destruct H as (P1 & P2 & _).
    split; [|done]. split; simpl; [done|..].
    + rewrite P2. intros k c [H _]%map_lookup_filter_Some. eauto.
    + rewrite P2. intros st q Hq. specialize (Hr st q Hq). apply option_eq. intros c.
      rewrite !map_lookup_filter_Some, Hr. simpl. rewrite Z.ltb_ge. done.
  - split; [|done].
    destruct (delete_rows (store_list_prefix (store l) prefix) (store l) Hs) as [D1 D2].
    destruct (list_prefix_spec (store l) prefix Hs) as [_ Hrows].
    assert (∀ k, k ∈ (store_list_prefix (store l) prefix).*1 ↔ is_Some (contents (store l) !! k) ∧ HasPrefix k prefix = true) as Hin.
    { intros k. rewrite list_elem_of_fmap. split.
      - intros ([k' c] & -> & [H1 H2]%Hrows). by split; [exists c|].
      - intros [[c H1] H2]. exists (k, c). split; [done|]. by apply Hrows. }
    split; simpl; [done|..].
    + intros k c. rewrite D2. destruct (decide _); [done|]. apply Hk.
    + intros st q Hq. rewrite D2. specialize (Hr st q Hq). apply option_eq. intros c. rewrite map_lookup_filter_Some. simpl.
      destruct (decide _) as [Hd|Hd]; rewrite Hin in Hd.
      * split; [done|]. intros [_ H]. destruct Hd as [_ Hd]. congruence.
      * rewrite Hr. split; [|by intros [? _]]. intros Hm. split; [done|].
        destruct (HasPrefix (changeID st q) prefix) eqn:E; [|done]. destruct Hd. split; [|done]. exists c. congruence.
Qed.

(** ** Reading a stream *)

(** No stream's name, closed by a slash, begins another's. *)
Definition apart (streams : list string) : Prop :=
  ∀ a b, a ∈ streams → b ∈ streams → HasPrefix (b +:+ "/") (a +:+ "/") = true → a = b.

Lemma stream_of_row streams a b q :
  apart streams → a ∈ streams → b ∈ streams → in_u64 q → HasPrefix (changeID b q) (a +:+ "/") = true → b = a.
Proof.
  intros Hap Ha Hb Hq [r Hr]%HasPrefix_spec. symmetry. apply Hap; [done|done|].
  unfold changeID in Hr. rewrite <- append_assoc_s in Hr. apply (f_equal chars) in Hr.
  rewrite chars_app, (chars_app (a +:+ "/")) in Hr.
  apply app_eq_inv in Hr as [(x & Hx & _)|(x & Hx & Hp)].
  - apply HasPrefix_spec. exists (text x). apply chars_inj.
    by rewrite (chars_app (a +:+ "/")), chars_text.
  - destruct x as [|y x] using rev_ind.
    { rewrite app_nil_r in Hx. apply HasPrefix_spec. exists "". rewrite append_nil_s. by apply chars_inj. }
    exfalso. rewrite !chars_app, app_assoc in Hx. apply app_inj_tail in Hx as [_ <-].
    assert (Forall is_digit (chars (pad20 q))) as Hd by (by apply pad20_digits). rewrite Hp in Hd.
    apply Forall_app in Hd as [[_ [Hd _]%Forall_cons]%Forall_app _]. by destruct Hd.
Qed.

Definition newer (afterSeq : Z) (c : Change T) : Prop := afterSeq < Seq c.
#[local] Instance newer_dec afterSeq c : Decision (newer afterSeq c).
Proof. unfold newer. apply _. Defined.

Lemma read_rows_spec rows afterSeq max out :
  (0 < max → Z.of_nat (length out) < max) →
  read_rows rows afterSeq max out =
    out ++ (if 0 <? max then take (Z.to_nat max - length out) else id) (filter (newer afterSeq) rows.*2).
Proof.
  revert out. induction rows as [|[k c] rows IH]; intros out Hmax; cbn [read_rows].
  { assert (filter (newer afterSeq) (@nil (string * Change T)).*2 = []) as -> by done.
    destruct (0 <? max); unfold id; by rewrite ?take_nil, app_nil_r. }
  csimpl.
  rewrite filter_cons. destruct (Z.leb_spec (Seq c) afterSeq).
  - rewrite decide_False by (unfold newer; lia). by apply IH.
  - rewrite decide_True by (unfold newer; lia). rewrite length_app. simpl length.
    destruct (Z.ltb_spec 0 max); cbn [andb].
    + destruct (Z.eqb_spec (Z.of_nat (length out + 1)) max) as [E|E].
      * replace (Z.to_nat max - length out)%nat with 1%nat by lia. done.
      * rewrite IH by (rewrite length_app; simpl; lia).
        rewrite length_app. simpl length. rewrite <- app_assoc. f_equal. simpl.
        replace (Z.to_nat max - length out)%nat with (S (Z.to_nat max - (length out + 1)))%nat by lia. done.
    + rewrite IH by lia. by rewrite <- app_assoc.
Qed.

(** The changes of a stream, in sequence order. *)
Definition stream_changes (m : gmap (string * Z) (Change T)) (stream : string) (afterSeq : Z) (l : list (Change T)) : Prop :=
  StronglySorted (λ a b, Seq a < Seq b) l ∧
  ∀ c, c ∈ l ↔ in_u64 (Seq c) ∧ afterSeq < Seq c ∧ m !! (stream, Seq c) = Some c.

Lemma Read_spec streams l m stream afterSeq max :
  log_ok streams l m → apart streams → stream ∈ streams →
  ∃ all, stream_changes m stream afterSeq all ∧
    Read l stream afterSeq max = (if 0 <? max then take (Z.to_nat max) else id) all.
Proof.
  intros [Hs Hk Hr] Hap Hst. set (rows := store_list_prefix (store l) (stream +:+ "/")).
  destruct (list_prefix_spec (store l) (stream +:+ "/") Hs) as [Hsort Hrows]. fold rows in Hsort, Hrows.
  assert (∀ k c, (k, c) ∈ rows → in_u64 (Seq c) ∧ k = changeID stream (Seq c)) as Hrow.
  { intros k c [Hc Hp]%Hrows. destruct (Hk k c Hc) as (st & Hst' & Hq & ->). split; [done|].
    by rewrite (stream_of_row streams stream st (Seq c)). }
  exists (filter (newer afterSeq) rows.*2). split; [split|].
  - eapply sublist_StronglySorted; [apply sublist_filter|].
    apply (StronglySorted_fmap_inv slt fst) in Hsort.
    eapply (StronglySorted_fmap_in _ _ snd); [|exact Hsort]. intros [k c] [k' c'] H1 H2 Hlt. simpl in *.
    destruct (Hrow _ _ H1) as [Q1 ->]. destruct (Hrow _ _ H2) as [Q2 ->]. unfold changeID in Hlt.
    rewrite slt_append_l, slt_append_l in Hlt. unfold slt in Hlt. by rewrite pad20_compare in Hlt by done.
  - intros c. rewrite list_elem_of_filter, list_elem_of_fmap. unfold newer. split.
    + intros (Hn & [k c'] & -> & Hin). destruct (Hrow _ _ Hin) as [Hq E]. apply Hrows in Hin as [Hc _]. simpl in *.
      rewrite E, Hr in Hc by done. done.
    + intros (Hq & Hn & Hc). split; [done|]. exists (changeID stream (Seq c), c). split; [done|].
      apply Hrows. rewrite Hr by done. split; [done|]. unfold changeID. rewrite <- append_assoc_s. apply HasPrefix_append.
  - unfold Read. fold rows. rewrite read_rows_spec by (simpl; lia). simpl. by rewrite Nat.sub_0_r.
Qed.

(** A reader that resumes after the last number it saw, until a read is empty. *)
Fixpoint read_walk (fuel : nat) (l : ChangeLog) (stream : string) (afterSeq max : Z) : list (Change T) :=
  match fuel with
  | O => []
  | S fuel =>
      let page := Read l stream afterSeq max in
      match last page with
      | None => []
      | Some c => page ++ read_walk fuel l stream (Seq c) max
      end
  end.

Lemma stream_changes_unique m stream afterSeq l l' :
  stream_changes m stream afterSeq l → stream_changes m stream afterSeq l' → l = l'.
Proof.
  intros [S1 E1] [S2 E2]. apply (StronglySorted_elem_unique (λ a b, Seq a < Seq b)); [done|done|].
  intros c. by rewrite E1, E2.
Qed.

(** What follows the last change of a first part. *)
Lemma stream_changes_resume m stream afterSeq l n c :
  stream_changes m stream afterSeq l → last (take n l) = Some c → stream_changes m stream (Seq c) (drop n l).
Proof.
  intros [Hs He] (l' & Hl)%last_Some. pose proof (take_drop n l) as Htd. rewrite Hl, <- app_assoc in Htd.
  split.
  - eapply sublist_StronglySorted; [apply sublist_drop|exact Hs].
  - rewrite <- Htd in Hs. apply (StronglySorted_split (λ a b, Seq a < Seq b)) in Hs as (_ & _ & H1 & H2).
    rewrite Forall_forall in H1, H2. intros d. split.
    + intros Hd. assert (d ∈ l) as (Hq & Hn & Hm)%He by (rewrite <- Htd; set_solver). split_and!; [done|by apply H2|done].
    + intros (Hq & Hn & Hm). assert (afterSeq < Seq c) by (apply (He c); rewrite <- Htd; set_solver).
      assert (d ∈ l) as Hd by (apply He; split_and!; [done|lia|done]). rewrite <- Htd in Hd.
      apply elem_of_app in Hd as [Hd|[->|Hd]%elem_of_cons]; [|lia|done].
      specialize (H1 d Hd). simpl in H1. lia.
Qed.

Lemma read_walk_spec streams l m stream max :
  log_ok streams l m → apart streams → stream ∈ streams → 0 < max →
  ∀ fuel afterSeq all, stream_changes m stream afterSeq all → (length all < fuel)%nat →
  read_walk fuel l stream afterSeq max = all.
Proof.
  intros Hok Hap Hst Hmax. induction fuel as [|fuel IH]; intros afterSeq all Hall Hf; [lia|]. cbn [read_walk].
  destruct (Read_spec streams l m stream afterSeq max Hok Hap Hst) as (all' & Hall' & ->).
  rewrite (stream_changes_unique _ _ _ _ _ Hall' Hall). rewrite (proj2 (Z.ltb_lt 0 max)) by done.
  destruct (last (take (Z.to_nat max) all)) as [c|] eqn:El.
  - rewrite (IH (Seq c) (drop (Z.to_nat max) all)); [apply take_drop|by eapply stream_changes_resume|].
    rewrite length_drop. destruct all; [by rewrite take_nil in El|]. simpl in *. lia.
  - apply last_None in El. destruct all as [|c all]; [done|]. destruct (Z.to_nat max) eqn:E; [lia|done].
Qed.

Lemma LastSeq_spec streams l m st q c :
  log_ok streams l m → in_u64 q → m !! (st, q) = Some c → Seq c = q → q ≤ LastSeq l.
Proof.
  intros [Hs Hk Hr] Hq Hm <-. unfold LastSeq. destruct (list_prefix_spec (store l) "" Hs) as [_ Hrows].
  assert ((changeID st (Seq c), c) ∈ store_list_prefix (store l) "") as Hin.
  { apply Hrows. rewrite Hr by done. split; [done|]. by destruct (changeID st (Seq c)). }
  assert (∀ (rows : list (string * Change T)) a,
    a ≤ foldl (λ last row, Z.max last (Seq row.2)) a rows ∧
    ∀ row, row ∈ rows → Seq row.2 ≤ foldl (λ last row, Z.max last (Seq row.2)) a rows) as H; [|by apply (H _ 0) in Hin].
  induction rows as [|r rows IH]; intros a; simpl; [split; [lia|by intros x ?%not_elem_of_nil]|].
  destruct (IH (Z.max a (Seq r.2))) as [I1 I2]. split; [lia|]. intros x [->|Hx]%elem_of_cons; [lia|auto].
Qed.

Lemma run_ops_ok streams ops : ∀ l m,
  log_ok streams l m → Forall (op_ok streams) ops →
  log_ok streams (foldl run_op l ops) (foldl (abstract_op (Retention l)) m ops).
Proof.
  induction ops as [|o ops IH]; intros l m Hok Ho; [done|]. apply Forall_cons in Ho as [H1 H2]. simpl.
  destruct (run_op_ok streams l m o Hok H1) as [Hok' Hret]. specialize (IH _ _ Hok' H2). by rewrite Hret in IH.
Qed.

Definition seqs_ok (m : gmap (string * Z) (Change T)) : Prop := ∀ st q c, m !! (st, q) = Some c → Seq c = q.

Lemma abstract_seqs ret ops m : seqs_ok m → seqs_ok (foldl (abstract_op ret) m ops).
Proof.
  revert m. induction ops as [|o ops IH]; intros m Hm; [done|]. simpl. apply IH.
  intros st q c. destruct o as [stream c0|now|prefix]; simpl.
  - intros [[[= <- <-] <-]|[_ H]]%lookup_insert_Some; [done|by eapply Hm].
  - intros [H _]%map_lookup_filter_Some. by eapply Hm.
  - intros [H _]%map_lookup_filter_Some. by eapply Hm.
Qed.
End ChangeLog.

(** [C39] A change log answers as a map from streams and sequence numbers to
    changes: over any sequence of appends, prunes and drops on a conforming
    store, a read returns the stream's changes numbered after the given one, in
    sequence order, up to max of them; a reader that resumes each time after the
    last number it saw gets every such change exactly once; and the last
    sequence number is above every change the log holds. *)
Theorem change_log_readers_miss_nothing {St T} `{!Store St (Change T), !StoreSpec St (Change T)}
    (s : St) (retention : Z) (streams : list string) (ops : list (op (T:=T))) (stream : string) (afterSeq : Z) :
  store_ok s → contents s = ∅ → Forall (op_ok streams) ops → apart streams → stream ∈ streams →
  let l := foldl run_op (MkChangeLog s retention) ops in
  let m := foldl (abstract_op retention) ∅ ops in
  ∃ all, stream_changes m stream afterSeq all ∧
    (∀ max, Read l stream afterSeq max = (if 0 <? max then take (Z.to_nat max) else id) all) ∧
    (∀ max, 0 < max → read_walk (S (length all)) l stream afterSeq max = all) ∧
    (∀ st q c, in_u64 q → m !! (st, q) = Some c → q ≤ LastSeq l).
Proof.
  intros Hs He Ho Hap Hst l m.
  assert (log_ok streams l m) as Hok.
  { apply (run_ops_ok streams ops (MkChangeLog s retention)); [|done]. split; simpl; [done|..]; rewrite He.
    - intros k c Hk. by rewrite lookup_empty in Hk.
    - intros st q _. by rewrite !lookup_empty. }
  destruct (Read_spec streams l m stream afterSeq 0 Hok Hap Hst) as (all & Hall & _). exists all.
  split_and!; [done|..].
  - intros max. destruct (Read_spec streams l m stream afterSeq max Hok Hap Hst) as (all' & Hall' & ->).
    by rewrite (stream_changes_unique _ _ _ _ _ Hall' Hall).
  - intros max Hmax. eapply read_walk_spec; [done..|lia].
  - intros st q c Hq Hc. eapply LastSeq_spec; [done|done|done|].
    eapply (abstract_seqs retention ops ∅); [|exact Hc]. intros st' q' c' H. by rewrite lookup_empty in H.
Qed.

Definition w_change (seq : Z) (key : string) (at_ : Z) : Change Z := MkChange seq key OpCreate (Some seq) None at_ false.
Definition w_ops : list (op (T:=Z)) :=
  [OpAppend "db/a" (w_change 1 "x" 100); OpAppend "db/ab" (w_change 2 "y" 200);
   OpAppend "db/a" (w_change 3 "x" 300); OpPrune 350; OpAppend "db/a" (w_change 12 "z" 400)].

Lemma w_streams_apart : apart ["db/a"; "db/ab"].
Proof.
  intros a b Ha Hb. repeat (apply elem_of_cons in Ha as [->|Ha]); try (by apply not_elem_of_nil in Ha);
    repeat (apply elem_of_cons in Hb as [->|Hb]); try (by apply not_elem_of_nil in Hb); done.
Qed.

Lemma w_change_ops_ok : Forall (op_ok ["db/a"; "db/ab"]) w_ops.
Proof.
  unfold w_ops. rewrite !Forall_cons, Forall_nil. unfold op_ok, in_u64. simpl.
  split_and!; try done; try lia; try (by left); by right; left.
Qed.

Lemma change_log_readers_miss_nothing_witness :
  read_walk 3 (foldl run_op (MkChangeLog (NewStateStore 0) 200) w_ops) "db/a" 0 1 = [w_change 3 "x" 300; w_change 12 "z" 400].
Proof.
  destruct (change_log_readers_miss_nothing (NewStateStore 0) 200 ["db/a"; "db/ab"] w_ops "db/a" 0)
    as (all & Hall & Hread & Hwalk & _).
  - apply NewStateStore_wf.
  - reflexivity.
  - exact w_change_ops_ok.
  - exact w_streams_apart.
  - left.
  - assert (all = [w_change 3 "x" 300; w_change 12 "z" 400]) as ->.
    { specialize (Hread 0). simpl in Hread. rewrite <- Hread. by vm_compute. }
    exact (Hwalk 1 ltac:(lia)).
Defined.
