(* ===== verification/Sqlite.v ===== *)
(** * The SQLite store ([sim/state_sqlite.go], [sim/state_prune.go])

    A second implementation of the interface of [Store], over one table of keys
    and blobs. A table is a finite map; a statement that fails
    and a row that does not decode are panics, [None], as [fatalDBErr] makes
    them. SQLite answers the statements here; the one failure the code expects,
    a busy database during a prune, is an argument. The first part is the blob a
    value is stored as; [encoding/json] and the fields [reflect] finds are its
    parameters. *)

From S2P Require Import Prelude Gostd Store.

(** ** The blob of a value

    A Go struct is the values of its fields that are not zero, by name. *)
Record StructField := MkField { f_Name : string; f_Exported : bool; f_JsonDash : bool; f_PersistDash : bool }.

Definition persistenceEnvelopeMagic : string := "SLP1".

Section Envelope.
Context {V : Type} (fields : list StructField).

(** [json.Marshal] and [json.Unmarshal] of the struct's own JSON, of one field,
    and of the envelope. *)
Context (json_struct : gmap string V → option string) (struct_of : string → option (gmap string V)).
Context (json_field : V → option string) (field_of : string → option V).
Context (json_envelope : string → gmap string string → option string)
        (envelope_of : string → option (string * gmap string string)).

(** The fields the sidecar keeps: exported, hidden from JSON, not disposable. *)
Definition hidden (f : StructField) : bool := f_Exported f && f_JsonDash f && negb (f_PersistDash f).
Definition visible (f : StructField) : bool := f_Exported f && negb (f_JsonDash f).

Context (zero_field : V).

Fixpoint marshal_hidden (v : gmap string V) (fs : list StructField) (acc : gmap string string) : option (gmap string string) :=
  match fs with
  | [] => Some acc
  | f :: fs =>
      if hidden f
      then match json_field (default zero_field (v !! f_Name f)) with
           | Some enc => marshal_hidden v fs (<[f_Name f:=enc]> acc)
           | None => None
           end
      else marshal_hidden v fs acc
  end.

Definition marshalPersistentValue (v : gmap string V) : option string :=
  match json_struct v with
  | None => None
  | Some data =>
      match marshal_hidden v fields ∅ with
      | None => None
      | Some h => match json_envelope data h with
                  | Some encoded => Some (persistenceEnvelopeMagic +:+ encoded)
                  | None => None
                  end
      end
  end.

(** The loop over the sidecar: fields the type no longer has are skipped. *)
Fixpoint set_fields (l : list (string * string)) (out : gmap string V) : option (gmap string V) :=
  match l with
  | [] => Some out
  | (name, encoded) :: l =>
      if existsb (λ f, String.eqb (f_Name f) name && f_Exported f) fields
      then match field_of encoded with
           | Some x => set_fields l (<[name:=x]> out)
           | None => None
           end
      else set_fields l out
  end.

Definition unmarshalPersistentValue (data : string) : option (gmap string V) :=
  match CutPrefix data persistenceEnvelopeMagic with
  | None => struct_of data
  | Some rest =>
      match envelope_of rest with
      | None => None
      | Some (d, h) => match struct_of d with Some out => set_fields (map_to_list h) out | None => None end
      end
  end.
End Envelope.

(** ** The SQLite store *)

Record SQLiteStore := MkSQLite { rows : gmap string string; sq_generation : Z }.

Definition pruneBatch : nat := 500.

(** [ORDER BY key]. *)
Definition by_key (l : list (string * string)) : list (string * string) := SliceStable (λ a b, sltb a.1 b.1) l.

(** The least string above every string with the prefix. *)
Fixpoint end_loop (bytes : list ascii) : option (list ascii) :=
  match bytes with
  | [] => None
  | c :: bytes => if byte_of c <? 255 then Some (rev (char_of (byte_of c + 1) :: bytes)) else end_loop bytes
  end.
Definition prefixEnd (prefix : string) : option string := text <$> end_loop (rev (chars prefix)).

Section SQLiteStore.
Context {T : Type} `{!GoZero T} (marshal : T → option string) (unmarshal : string → option T).
Implicit Types (s : SQLiteStore) (c : Z).

Definition NewSQLiteStore c (table : gmap string string) : Z * SQLiteStore :=
  let c := nextStoreGeneration c in (c, MkSQLite table c).

Definition SQLiteStore_Get s (id : string) : option (option T) :=
  match rows s !! id with
  | None => Some None
  | Some data => match unmarshal data with Some v => Some (Some v) | None => None end
  end.

Definition SQLiteStore_Put c s (id : string) (item : T) : option (Z * SQLiteStore) :=
  match marshal item with
  | None => None
  | Some data => let c := nextStoreGeneration c in Some (c, MkSQLite (<[id:=data]> (rows s)) c)
  end.

Definition SQLiteStore_Delete c s (id : string) : (Z * SQLiteStore) * bool :=
  match rows s !! id with
  | Some _ => let c := nextStoreGeneration c in ((c, MkSQLite (delete id (rows s)) c), true)
  | None => ((c, s), false)
  end.

Definition SQLiteStore_keys s : list string := (map_to_list (rows s)).*1.
Definition SQLiteStore_List s : option (list T) := mapM unmarshal (map_to_list (rows s)).*2.

Definition SQLiteStore_Filter s (fn : T → bool) : option (list T) :=
  match SQLiteStore_List s with Some l => Some (filter (λ v, fn v = true) l) | None => None end.

Definition decode_row (r : string * string) : option (string * T) :=
  match unmarshal r.2 with Some v => Some (r.1, v) | None => None end.

Definition SQLiteStore_ListPrefix s (prefix : string) : option (list (string * T)) :=
  let selected := match prefixEnd prefix with
    | Some stop => filter (λ r, sltb r.1 prefix = false ∧ sltb r.1 stop = true) (map_to_list (rows s))
    | None => filter (λ r, sltb r.1 prefix = false) (map_to_list (rows s))
    end in
  mapM decode_row (by_key selected).

Definition SQLiteStore_Len s : nat := size (rows s).

Definition SQLiteStore_Update c s (id : string) (fn : T → T) : option ((Z * SQLiteStore) * bool) :=
  match rows s !! id with
  | None => Some ((c, s), false)
  | Some data =>
      match unmarshal data with
      | None => None
      | Some v =>
          match marshal (fn v) with
          | None => None
          | Some data => let c := nextStoreGeneration c in Some ((c, MkSQLite (<[id:=data]> (rows s)) c), true)
          end
      end
  end.

Definition SQLiteStore_Upsert c s (id : string) (fn : T → T) : option (Z * SQLiteStore) :=
  match match rows s !! id with None => Some zero | Some data => unmarshal data end with
  | None => None
  | Some v =>
      match marshal (fn v) with
      | None => None
      | Some data => let c := nextStoreGeneration c in Some (c, MkSQLite (<[id:=data]> (rows s)) c)
      end
  end.

(** *** Pruning *)

(** One batch in key order after [after]: its keys and those of its rows that
    have expired. *)
Fixpoint scan_rows (expired : T → bool) (l : list (string * string)) : option (list string * list string) :=
  match l with
  | [] => Some ([], [])
  | (key, data) :: l =>
      match unmarshal data with
      | None => None
      | Some v =>
          match scan_rows expired l with
          | None => None
          | Some (keys, doomed) => Some (key :: keys, if expired v then key :: doomed else doomed)
          end
      end
  end.

Definition past (after : option string) (key : string) : bool :=
  match after with Some a => sltb a key | None => true end.

Definition rows_after s (after : option string) : list (string * string) :=
  by_key (filter (λ r, past after r.1 = true) (map_to_list (rows s))).

Definition pruneScan s (after : option string) (expired : T → bool) : option (list string * list string) :=
  scan_rows expired (take pruneBatch (rows_after s after)).

(** The transaction: each key is read again and deleted if it is still there
    and still expired. *)
Fixpoint delete_loop (expired : T → bool) (keys : list string) (m : gmap string string) : option (gmap string string * list string) :=
  match keys with
  | [] => Some (m, [])
  | key :: keys =>
      match m !! key with
      | None => delete_loop expired keys m
      | Some data =>
          match unmarshal data with
          | None => None
          | Some v =>
              if expired v
              then match delete_loop expired keys (delete key m) with
                   | Some (m, deleted) => Some (m, key :: deleted)
                   | None => None
                   end
              else delete_loop expired keys m
          end
      end
  end.

(** [deleteExpired]: a busy database rolls back. *)
Definition deleteExpired c s (busy : bool) (keys : list string) (expired : T → bool) : option ((Z * SQLiteStore) * (list string * bool)) :=
  if busy then Some ((c, s), ([], true))
  else match delete_loop expired keys (rows s) with
       | None => None
       | Some (m, deleted) =>
           match deleted with
           | [] => Some ((c, MkSQLite m (sq_generation s)), ([], false))
           | _ => let c := nextStoreGeneration c in Some ((c, MkSQLite m c), (deleted, false))
           end
       end.

(** The sweep; [busy n] says what statement [n] of it meets. Every round moves
    past at least one row, so the rows bound the rounds. *)
Fixpoint prune_loop (fuel : nat) (busy : nat → bool) (n : nat) c s (after : option string) (expired : T → bool) (pruned : nat)
    : option ((Z * SQLiteStore) * nat) :=
  match fuel with
  | O => Some ((c, s), pruned)
  | S fuel =>
      if busy n then Some ((c, s), pruned)
      else match pruneScan s after expired with
           | None => None
           | Some (keys, doomed) =>
               match last keys with
               | None => Some ((c, s), pruned)
               | Some key =>
                   match doomed with
                   | [] => prune_loop fuel busy (S n) c s (Some key) expired pruned
                   | _ =>
                       match deleteExpired c s (busy (S n)) doomed expired with
                       | None => None
                       | Some ((c, s), (deleted, stop)) =>
                           if stop : bool then Some ((c, s), (pruned + length deleted)%nat)
                           else prune_loop fuel busy (S (S n)) c s (Some key) expired (pruned + length deleted)
                       end
                   end
               end
           end
  end.

Definition SQLiteStore_Prune (busy : nat → bool) c s (expired : T → bool) : option ((Z * SQLiteStore) * nat) :=
  prune_loop (S (size (rows s))) busy 0 c s None expired 0.
End SQLiteStore.

(** ** The end of a prefix *)

(** [prefixEnd] by recursion on the prefix. *)
Fixpoint prefix_end (p : string) : option string :=
  match p with
  | EmptyString => None
  | String c p =>
      match prefix_end p with
      | Some e => Some (String c e)
      | None => if byte_of c <? 255 then Some (String (char_of (byte_of c + 1)) "") else None
      end
  end.

Lemma end_loop_snoc l c :
  end_loop (l ++ [c]) = match end_loop l with
                        | Some e => Some (c :: e)
                        | None => if byte_of c <? 255 then Some [char_of (byte_of c + 1)] else None
                        end.
Proof.
  induction l as [|x l IH]; [done|]. cbn [app end_loop]. destruct (byte_of x <? 255); [|done].
  cbn [rev]. by rewrite rev_app_distr.
Qed.

Lemma prefixEnd_eq p : prefixEnd p = prefix_end p.
Proof.
  unfold prefixEnd. induction p as [|c p IH]; [done|]. cbn [prefix_end]. rewrite <- IH.
  change (chars (String c p)) with (c :: chars p). cbn [rev]. rewrite end_loop_snoc.
  destruct (end_loop (rev (chars p))) as [e|]; simpl; [done|]. by destruct (byte_of c <? 255).
Qed.

Lemma sltb_cons x a y b :
  sltb (String x a) (String y b) = if byte_of x <? byte_of y then true else if byte_of y <? byte_of x then false else sltb a b.
Proof.
  apply eq_true_iff_eq. rewrite sltb_slt, slt_cons. unfold byte_of.
  destruct (Z.ltb_spec (Z.of_N (Ascii.N_of_ascii x)) (Z.of_N (Ascii.N_of_ascii y))) as [H1|H1]; [split; [done|left; lia]|].
  destruct (Z.ltb_spec (Z.of_N (Ascii.N_of_ascii y)) (Z.of_N (Ascii.N_of_ascii x))) as [H2|H2].
  - split; [intros [?|[-> _]]; lia|done].
  - rewrite sltb_slt. split; [intros [?|[_ ?]]; [lia|done]|]. intros H. right. split; [|done].
    assert (Ascii.N_of_ascii x = Ascii.N_of_ascii y) as E by lia. rewrite <- (Ascii.ascii_N_embedding x), E. apply Ascii.ascii_N_embedding.
Qed.

Lemma HasPrefix_String x k c p :
  HasPrefix (String x k) (String c p) = if (byte_of c <? byte_of x) || (byte_of x <? byte_of c) then false else HasPrefix k p.
Proof.
  destruct (decide (x = c)) as [->|Hne].
  - rewrite Z.ltb_irrefl. simpl. apply HasPrefix_cons.
  - assert (byte_of x ≠ byte_of c) as Hb by (intros E; apply Hne; by rewrite <- (char_of_byte x), E, char_of_byte).
    replace ((byte_of c <? byte_of x) || (byte_of x <? byte_of c)) with true
      by (symmetry; apply orb_true_iff; rewrite !Z.ltb_lt; lia).
    unfold HasPrefix. simpl. destruct (Ascii.ascii_dec c x); [congruence|done].
Qed.

(** The range of keys the store selects is exactly the keys with the prefix. *)
Lemma prefix_range k p :
  HasPrefix k p = true ↔ sltb k p = false ∧ match prefixEnd p with Some e => sltb k e = true | None => True end.
Proof.
  rewrite prefixEnd_eq. revert k. induction p as [|c p IH]; intros k.
  { split; [|by destruct k]. intros _. split; [by destruct k|done]. }
  destruct k as [|x k]; [split; [done|by intros [? _]]|].
  rewrite HasPrefix_String, sltb_cons. pose proof (byte_of_range x) as Hx. pose proof (byte_of_range c) as Hc.
  cbn [prefix_end]. destruct (Z.ltb_spec (byte_of c) (byte_of x)) as [H1|H1]; cbn [orb].
  - split; [done|]. intros [_ He]. exfalso. destruct (prefix_end p) as [e|].
    + rewrite sltb_cons in He. rewrite (proj2 (Z.ltb_ge _ _)), (proj2 (Z.ltb_lt _ _)) in He by lia. done.
    + rewrite (proj2 (Z.ltb_lt (byte_of c) 255)) in He by lia. rewrite sltb_cons in He.
      assert (byte_of (char_of (byte_of c + 1)) = byte_of c + 1) as Eb by (unfold byte_of, char_of; rewrite Ascii.N_ascii_embedding; unfold byte_of in *; lia).
      rewrite Eb, (proj2 (Z.ltb_ge _ _)) in He by lia. destruct (_ <? byte_of x); [done|]. by destruct k.
  - destruct (Z.ltb_spec (byte_of x) (byte_of c)) as [H2|H2]; [by split; [|intros [? _]]|].
    rewrite IH. destruct (prefix_end p) as [e|].
    + by rewrite sltb_cons, !(proj2 (Z.ltb_ge _ _)) by lia.
    + destruct (Z.ltb_spec (byte_of c) 255) as [H3|H3]; [|done]. rewrite sltb_cons.
      assert (byte_of (char_of (byte_of c + 1)) = byte_of c + 1) as Eb by (unfold byte_of, char_of; rewrite Ascii.N_ascii_embedding; unfold byte_of in *; lia).
      rewrite Eb, (proj2 (Z.ltb_lt (byte_of x) _)) by lia. tauto.
Qed.

(** ** Rows in key order *)

Lemma by_key_perm l : by_key l ≡ₚ l.
Proof. apply SliceStable_perm. Qed.

Lemma by_key_sorted l : NoDup l.*1 → StronglySorted slt (by_key l).*1.
Proof.
  intros Hn. assert (NoDup (by_key l).*1) as Hn' by (by rewrite by_key_perm).
  assert (StronglySorted (not_after (λ a b, sltb a.1 b.1)) (by_key l)) as Hs.
  { apply SliceStable_sorted.
    - intros x y H%sltb_slt. apply sltb_false. by right.
    - intros x y z. unfold not_after. rewrite !sltb_false. intros [->|H1] [->|H2]; auto. right. by transitivity y.1. }
  revert Hn'. induction Hs as [|x l' Hl IH Hx]; intros Hn'; csimpl in *; [constructor|].
  apply NoDup_cons in Hn' as [Hnx Hn']. constructor; [auto|]. rewrite Forall_forall in Hx. apply Forall_forall.
  intros k (y & -> & Hy)%list_elem_of_fmap. specialize (Hx y Hy). apply sltb_false in Hx as [E|?]; [|done].
  destruct Hnx. rewrite <- E. apply list_elem_of_fmap. by exists y.
Qed.

Lemma NoDup_filter_keys (P : string * string → Prop) `{!∀ x, Decision (P x)} (m : gmap string string) :
  NoDup (filter P (map_to_list m)).*1.
Proof. eapply sublist_NoDup; [exact (NoDup_fst_map_to_list m)|]. apply sublist_fmap, sublist_filter. Qed.

(** A total decoder maps over the rows. *)
Lemma mapM_total {A B} (f : A → option B) (g : A → B) l : (∀ x, x ∈ l → f x = Some (g x)) → mapM f l = Some (g <$> l).
Proof.
  intros H. apply mapM_Some. induction l as [|x l IH]; csimpl; constructor; [apply H; by left|].
  apply IH. intros y Hy. apply H. by right.
Qed.

Lemma lookup_filter_bool {A} (p : string * A → bool) (m : gmap string A) k :
  filter (λ r, p r = true) m !! k = match m !! k with Some d => if p (k, d) then Some d else None | None => None end.
Proof.
  rewrite map_lookup_filter. destruct (m !! k) as [d|]; [|done]. simpl.
  destruct (p (k, d)) eqn:E; [by rewrite option_guard_True|by rewrite option_guard_False by congruence].
Qed.

(** ** What the SQLite store holds *)

(** Every value can be written, and reads back as what the blob keeps of it. *)
Definition codec_keeps {T} (keep : T → T) (marshal : T → option string) (unmarshal : string → option T) : Prop :=
  ∀ v, ∃ data, marshal v = Some data ∧ unmarshal data = Some (keep v).

Section SQLiteSpec.
Context {T : Type} `{!GoZero T} (marshal : T → option string) (unmarshal : string → option T).
Context (keep : T → T) (Hcodec : codec_keeps keep marshal unmarshal).

(** A table whose rows decode, and what they decode to. *)
Definition table_ok (m : gmap string string) : Prop := ∀ k data, m !! k = Some data → is_Some (unmarshal data).
Definition decoded (m : gmap string string) : gmap string T := omap unmarshal m.
Definition decode (data : string) : T := default zero (unmarshal data).

Lemma decoded_fmap m : table_ok m → decoded m = decode <$> m.
Proof.
  intros Hm. apply map_eq. intros k. unfold decoded, decode. rewrite lookup_omap, lookup_fmap.
  destruct (m !! k) as [data|] eqn:E; simpl; [|done]. destruct (Hm k data E) as [v Hv]. by rewrite Hv.
Qed.

Lemma decoded_lookup m k : decoded m !! k = m !! k ≫= unmarshal.
Proof. apply lookup_omap. Qed.

Lemma decoded_insert m k v data : unmarshal data = Some v → decoded (<[k:=data]> m) = <[k:=v]> (decoded m).
Proof. intros E. apply map_eq. intros j. rewrite decoded_lookup, !lookup_insert, decoded_lookup. by case_decide. Qed.

Lemma decoded_delete m k : decoded (delete k m) = delete k (decoded m).
Proof. apply map_eq. intros j. rewrite decoded_lookup, !lookup_delete, decoded_lookup. by case_decide. Qed.

Lemma table_ok_insert m k data : table_ok m → is_Some (unmarshal data) → table_ok (<[k:=data]> m).
Proof. intros Hm Hd j d [[-> ->]|[_ E]]%lookup_insert_Some; [done|by eapply Hm]. Qed.

Lemma table_ok_sub m m' : table_ok m → m' ⊆ m → table_ok m'.
Proof. intros Hm Hs k d E. apply (Hm k). by eapply lookup_weaken. Qed.

(** Whether the value of a row has expired. *)
Definition row_expired (expired : T → bool) (data : string) : bool := expired (decode data).

Lemma decode_Some m k data : table_ok m → m !! k = Some data → unmarshal data = Some (decode data).
Proof. intros Hm E. destruct (Hm k data E) as [v Hv]. unfold decode. by rewrite Hv. Qed.

Lemma decoded_filter (expired : T → bool) b m :
  table_ok m → decoded (filter (λ r, row_expired expired r.2 = b) m) = filter (λ r, expired r.2 = b) (decoded m).
Proof.
  intros Hm. apply map_eq. intros k. rewrite decoded_lookup, !map_lookup_filter, decoded_lookup.
  destruct (m !! k) as [data|] eqn:E; [|done]. simpl. rewrite (decode_Some m k data Hm E). simpl. unfold row_expired.
  destruct (decide (expired (decode data) = b)) as [H|H].
  - rewrite !option_guard_True by done. simpl. by apply (decode_Some m k).
  - by rewrite !option_guard_False by done.
Qed.

Lemma decoded_size m : table_ok m → size (decoded m) = size m.
Proof. intros Hm. rewrite decoded_fmap by done. apply map_size_fmap. Qed.

Lemma List_total s : table_ok (rows s) → SQLiteStore_List unmarshal s = Some (decode <$> (map_to_list (rows s)).*2).
Proof.
  intros Hm. apply mapM_total. intros d ([k d'] & -> & Hin)%list_elem_of_fmap.
  apply elem_of_map_to_list in Hin. by eapply decode_Some.
Qed.

Lemma List_perm s : table_ok (rows s) → decode <$> (map_to_list (rows s)).*2 ≡ₚ (map_to_list (decoded (rows s))).*2.
Proof.
  intros Hm. rewrite decoded_fmap by done. rewrite map_to_list_fmap. rewrite <- !list_fmap_compose.
  by apply reflexive_eq, list_fmap_ext; intros ? [].
Qed.

Lemma ListPrefix_total s p :
  table_ok (rows s) → ∃ l, SQLiteStore_ListPrefix unmarshal s p = Some l ∧ prefix_listing (decoded (rows s)) p l.
Proof.
  intros Hm. unfold SQLiteStore_ListPrefix. set (sel := match prefixEnd p with Some _ => _ | None => _ end).
  assert (NoDup sel.*1) as Hn by (subst sel; destruct (prefixEnd p); apply NoDup_filter_keys).
  assert (∀ k d, (k, d) ∈ sel ↔ rows s !! k = Some d ∧ HasPrefix k p = true) as Hsel.
  { intros k d. rewrite prefix_range. subst sel.
    destruct (prefixEnd p); rewrite list_elem_of_filter, elem_of_map_to_list; simpl; tauto. }
  rewrite (mapM_total _ (λ r, (r.1, decode r.2))).
  - eexists. split; [done|]. split.
    + rewrite <- list_fmap_compose. by apply by_key_sorted.
    + intros k v. rewrite list_elem_of_fmap. split.
      * intros ([k' d] & [= -> ->] & Hin). rewrite by_key_perm in Hin. apply Hsel in Hin as [Hr Hp].
        split; [|done]. rewrite decoded_lookup, Hr. simpl. by eapply decode_Some.
      * rewrite decoded_lookup. intros [Hv Hp]. destruct (rows s !! k) as [d|] eqn:Hr; [|done]. simpl in Hv.
        exists (k, d). unfold decode. simpl. rewrite Hv. split; [done|]. rewrite by_key_perm. by apply Hsel.
  - intros [k d] Hin. rewrite by_key_perm in Hin. apply Hsel in Hin as [Hr _]. unfold decode_row. simpl.
    by rewrite (decode_Some _ _ _ Hm Hr).
Qed.

(** *** Pruning *)

Definition doomed_in (expired : T → bool) (m : gmap string string) (k : string) : bool :=
  match m !! k with Some d => row_expired expired d | None => false end.

(** The transaction deletes the keys it is given that are expired now, and no
    other row. *)
Lemma delete_loop_spec expired keys m :
  table_ok m → NoDup keys →
  delete_loop unmarshal expired keys m =
    Some (filter (λ r, negb (bool_decide (r.1 ∈ keys) && row_expired expired r.2) = true) m, filter (λ k, doomed_in expired m k = true) keys).
Proof.
  revert m. induction keys as [|key keys IH]; intros m Hm Hn.
  { simpl. do 2 f_equal. symmetry. apply map_filter_id. by intros k d _. }
  apply NoDup_cons in Hn as [Hk Hn]. cbn [delete_loop]. rewrite filter_cons.
  assert (doomed_in expired m key = match m !! key with Some d => row_expired expired d | None => false end) as Hd by done.
  destruct (m !! key) as [d|] eqn:Ed.
  - rewrite (decode_Some m key d Hm Ed). fold (row_expired expired d). destruct (row_expired expired d) eqn:Ex.
    + rewrite decide_True by congruence. rewrite IH; [|by eapply table_ok_sub, delete_subseteq|done]. do 2 f_equal.
      * apply map_eq. intros k. rewrite !map_lookup_filter, lookup_delete. destruct (decide (key = k)) as [<-|Hkk].
        { rewrite Ed. simpl. rewrite bool_decide_eq_true_2 by left. rewrite Ex. done. }
        destruct (m !! k) as [d'|]; [|done]. simpl.
        rewrite (bool_decide_ext (k ∈ key :: keys) (k ∈ keys)); [done|]. rewrite elem_of_cons. naive_solver.
      * f_equal. apply filter_ext_elem. intros k Hin. unfold doomed_in. by rewrite lookup_delete_ne by (intros ->; done).
    + rewrite decide_False by congruence. rewrite IH by done. do 2 f_equal. apply map_filter_ext. intros k d' Ed'. simpl.
      destruct (decide (k = key)) as [->|Hkk]; [simplify_eq; by rewrite Ex, !andb_false_r|].
      rewrite (bool_decide_ext (k ∈ key :: keys) (k ∈ keys)); [done|]. rewrite elem_of_cons. naive_solver.
  - rewrite decide_False by congruence. rewrite IH by done. do 2 f_equal. apply map_filter_ext. intros k d' Ed'. simpl.
    rewrite (bool_decide_ext (k ∈ key :: keys) (k ∈ keys)); [done|]. rewrite elem_of_cons. naive_solver.
Qed.

Abbreviation key_lt := (λ x y : string * string, slt x.1 y.1).

Lemma rows_after_spec s a :
  StronglySorted key_lt (rows_after s a) ∧
  ∀ k d, (k, d) ∈ rows_after s a ↔ rows s !! k = Some d ∧ past a k = true.
Proof.
  split.
  - apply StronglySorted_fmap_inv. apply by_key_sorted, NoDup_filter_keys.
  - intros k d. unfold rows_after. rewrite by_key_perm, list_elem_of_filter, elem_of_map_to_list. simpl. tauto.
Qed.

Lemma sorted_keys_NoDup (l : list (string * string)) : StronglySorted key_lt l → NoDup l.*1.
Proof.
  induction 1 as [|x l Hl IH Hx]; csimpl; constructor; [|done]. intros (y & E & Hy)%list_elem_of_fmap.
  rewrite Forall_forall in Hx. specialize (Hx y Hy). simpl in Hx. rewrite E in Hx. by eapply slt_irrefl.
Qed.

(** A scan goes on after the last key of its batch. *)
Lemma rows_after_next s s' a B R key d :
  rows_after s a = (B ++ [(key, d)]) ++ R → (∀ k, sltb key k = true → rows s' !! k = rows s !! k) →
  rows_after s' (Some key) = R.
Proof.
  intros E Hsame. destruct (rows_after_spec s a) as [Hs Hin]. rewrite E in Hs.
  apply StronglySorted_app in Hs as (Hcross & Hs1 & HsR). apply StronglySorted_app in Hs1 as (HcrossB & _ & _).
  destruct (rows_after_spec s' (Some key)) as [Hs' Hin'].
  apply (StronglySorted_elem_unique key_lt); [done|done|]. intros [k d']. rewrite Hin'. simpl. split.
  - intros [Hr Hk]. rewrite Hsame in Hr by done.
    assert ((key, d) ∈ rows_after s a) as Hkey by (rewrite E, !elem_of_app; left; right; by left).
    apply Hin in Hkey as [_ Hpast].
    assert ((k, d') ∈ rows_after s a) as Hk'.
    { apply Hin. split; [done|]. destruct a as [a|]; [|done]. simpl in *. apply sltb_slt. apply sltb_slt in Hk, Hpast. by transitivity key. }
    rewrite E, !elem_of_app in Hk'. destruct Hk' as [[HB|HB]|?]; [| |done]; exfalso; apply sltb_slt in Hk.
    + assert (slt k key) as Hlt by (apply (HcrossB (k, d') (key, d)); [done|by left]). eapply slt_irrefl. by transitivity k.
    + apply list_elem_of_singleton in HB as [= -> ->]. by eapply slt_irrefl.
  - intros HR. assert (slt key k) as Hlt by (apply (Hcross (key, d) (k, d')); [apply elem_of_app; right; by left|done]).
    assert ((k, d') ∈ rows_after s a) as Hk' by (rewrite E, elem_of_app; by right). apply Hin in Hk' as [Hr _].
    apply sltb_slt in Hlt. by rewrite Hsame.
Qed.

Lemma scan_rows_spec expired l :
  (∀ k d, (k, d) ∈ l → unmarshal d = Some (decode d)) →
  scan_rows unmarshal expired l = Some (l.*1, (filter (λ r, row_expired expired r.2 = true) l).*1).
Proof.
  induction l as [|[k d] l IH]; intros H; csimpl; [done|]. rewrite (H k d) by left. rewrite IH by (intros; eapply H; by right).
  rewrite filter_cons. change (expired (decode d)) with (row_expired expired d). cbn [snd]. by destruct (row_expired expired d).
Qed.

Lemma pruneBatch_pos : (0 < pruneBatch)%nat.
Proof. unfold pruneBatch. lia. Qed.
#[local] Opaque pruneBatch.

(** One batch of a sweep: the rows up to [key], of which the expired are
    deleted, and those the sweep still has to see. *)
Section Batch.
Context (expired : T → bool) (s : SQLiteStore) (a : option string).
Context (B R : list (string * string)) (key d : string) (ER : rows_after s a = (B ++ [(key, d)]) ++ R).

Definition batch_doomed : list string := (filter (λ r, row_expired expired r.2 = true) (B ++ [(key, d)])).*1.
Definition batch_left : gmap string string :=
  filter (λ r, negb (bool_decide (r.1 ∈ batch_doomed) && row_expired expired r.2) = true) (rows s).

Lemma batch_row k d' : (k, d') ∈ B ++ [(key, d)] → rows s !! k = Some d'.
Proof. intros Hb. apply (rows_after_spec s a). rewrite ER. apply elem_of_app. by left. Qed.

Lemma batch_after : rows_after s (Some key) = R.
Proof. by eapply rows_after_next. Qed.

Lemma batch_past k d' : rows s !! k = Some d' → past a k = true ↔ (k, d') ∈ B ++ [(key, d)] ∨ sltb key k = true.
Proof.
  intros Hr. destruct (rows_after_spec s a) as [_ Hin]. destruct (rows_after_spec s (Some key)) as [_ Hin'].
  rewrite batch_after in Hin'. simpl in Hin'. specialize (Hin k d'). rewrite ER, elem_of_app in Hin. specialize (Hin' k d'). tauto.
Qed.

Lemma elem_of_doomed k d' : rows s !! k = Some d' → k ∈ batch_doomed ↔ (k, d') ∈ B ++ [(key, d)] ∧ row_expired expired d' = true.
Proof.
  intros Hr. unfold batch_doomed. rewrite list_elem_of_fmap. split.
  - intros ([k0 d0] & -> & [Hx Hb]%list_elem_of_filter). pose proof (batch_row k0 d0 Hb). simpl in *. by simplify_eq.
  - intros [Hb Hx]. exists (k, d'). split; [done|]. by apply list_elem_of_filter.
Qed.

Lemma batch_left_after c : rows_after (MkSQLite batch_left c) (Some key) = R.
Proof.
  eapply rows_after_next; [exact ER|]. intros k Hk. unfold batch_left. simpl rows. rewrite lookup_filter_bool.
  destruct (rows s !! k) as [d'|] eqn:Hr; [|done]. simpl.
  rewrite bool_decide_eq_false_2; [done|]. intros [Hb _]%(elem_of_doomed k d' Hr).
  destruct (rows_after_spec s a) as [Hsort _]. destruct (rows_after_spec s (Some key)) as [_ Hin].
  rewrite ER in Hsort. apply StronglySorted_app in Hsort as (Hcross & _ & _).
  assert ((k, d') ∈ R) as HkR by (rewrite <- batch_after; by apply Hin).
  by apply (slt_irrefl k), (Hcross (k, d') (k, d')).
Qed.

(** Deleting the batch and then the rows after it is deleting all of them. *)
Lemma batch_then_rest :
  filter (λ r, negb (past (Some key) r.1 && row_expired expired r.2) = true) batch_left =
  filter (λ r, negb (past a r.1 && row_expired expired r.2) = true) (rows s).
Proof.
  unfold batch_left. apply map_eq. intros k. rewrite !lookup_filter_bool. destruct (rows s !! k) as [d'|] eqn:Hr; [|done]. simpl.
  pose proof (batch_past k d' Hr) as Hpast. pose proof (elem_of_doomed k d' Hr) as Hdoom.
  destruct (row_expired expired d') eqn:Ex; rewrite ?andb_false_r, ?andb_true_r; [|simpl; by rewrite Ex, andb_false_r].
  destruct (bool_decide_reflect (k ∈ batch_doomed)); destruct (past a k) eqn:Ep; simpl; [done|naive_solver| |]; rewrite ?Ex, ?andb_true_r;
    destruct (sltb key k) eqn:Ek; simpl; try done; exfalso; naive_solver.
Qed.

(** Nothing changes between the scan and the transaction here, so the
    transaction deletes every key it is given. *)
Lemma delete_doomed : table_ok (rows s) → delete_loop unmarshal expired batch_doomed (rows s) = Some (batch_left, batch_doomed).
Proof.
  intros Hm. destruct (rows_after_spec s a) as [Hsort _]. rewrite ER in Hsort. apply StronglySorted_app in Hsort as (_ & Hsort & _).
  rewrite delete_loop_spec; [|done|].
  - unfold batch_left. do 2 f_equal. apply filter_all, Forall_forall.
    intros k ([k1 d1] & -> & [Hx Hb]%list_elem_of_filter)%list_elem_of_fmap. unfold doomed_in. simpl. by rewrite (batch_row k1 d1 Hb).
  - unfold batch_doomed. eapply sublist_NoDup; [by apply sorted_keys_NoDup|apply sublist_fmap, sublist_filter].
Qed.
End Batch.

(** What a sweep that meets no busy database leaves. *)
Lemma prune_loop_spec expired fuel n c s a pruned :
  table_ok (rows s) → (length (rows_after s a) < fuel)%nat →
  ∃ c' s', prune_loop unmarshal fuel (λ _, false) n c s a expired pruned =
      Some ((c', s'), (pruned + length (filter (λ r, row_expired expired r.2 = true) (rows_after s a)))%nat) ∧
    rows s' = filter (λ r, negb (past a r.1 && row_expired expired r.2) = true) (rows s).
Proof.
  revert n c s a pruned. induction fuel as [|fuel IH]; intros n c s a pruned Hm Hf; [lia|]. cbn [prune_loop]. unfold pruneScan.
  pose proof pruneBatch_pos. destruct (rows_after_spec s a) as [_ Hin]. rewrite scan_rows_spec.
  2: { intros k d Hkd. apply elem_of_take in Hkd as (i & Hi & _). apply list_elem_of_lookup_2 in Hi. apply Hin in Hi as [Hr _]. by eapply decode_Some. }
  destruct (take pruneBatch (rows_after s a)) as [|[key d] B _] eqn:EB using rev_ind.
  - assert (rows_after s a = []) as HR.
    { destruct (rows_after s a) as [|r R0]; [done|]. apply (f_equal length) in EB. rewrite length_take in EB. cbn [length] in EB. lia. }
    rewrite HR in *. csimpl. exists c, s. split; [f_equal; f_equal; simpl; lia|]. symmetry. apply map_filter_id. intros k d Hr. simpl.
    destruct (past a k) eqn:Ep; [|done]. by destruct (elem_of_nil (k, d)) as [[] _]; apply Hin.
  - assert (rows_after s a = (B ++ [(key, d)]) ++ drop pruneBatch (rows_after s a)) as ER by (rewrite <- EB; by rewrite take_drop).
    set (R := drop pruneBatch (rows_after s a)) in *. fold (batch_doomed expired B key d).
    assert (last (B ++ [(key, d)]).*1 = Some key) as -> by (rewrite fmap_app; apply last_snoc).
    assert (Hnext : ∀ c1 s1 n1, rows s1 = batch_left expired s B key d → rows_after s1 (Some key) = R →
      ∃ c' s', prune_loop unmarshal fuel (λ _, false) n1 c1 s1 (Some key) expired (pruned + length (batch_doomed expired B key d)) =
          Some ((c', s'), (pruned + length (filter (λ r, row_expired expired r.2 = true) (rows_after s a)))%nat) ∧
        rows s' = filter (λ r, negb (past a r.1 && row_expired expired r.2) = true) (rows s)).
    { intros c1 s1 n1 Hs1 HR1. destruct (IH n1 c1 s1 (Some key) (pruned + length (batch_doomed expired B key d))%nat) as (c' & s' & E1 & E2).
      - eapply table_ok_sub; [exact Hm|]. rewrite Hs1. apply map_filter_subseteq.
      - rewrite HR1. rewrite ER, !length_app in Hf. simpl in Hf. lia.
      - exists c', s'. rewrite E1, HR1, E2, Hs1. rewrite (batch_then_rest expired s a B R key d ER). split; [|done].
        rewrite ER, filter_app, length_app. unfold batch_doomed. rewrite length_fmap. do 2 f_equal. lia. }
    assert (Hdel := delete_doomed expired s a B R key d ER Hm).
    destruct (batch_doomed expired B key d) as [|k0 doomed] eqn:Edoom.
    + rewrite Nat.add_0_r in Hnext. apply Hnext; [|by eapply batch_after]. cbn [delete_loop] in Hdel. congruence.
    + unfold deleteExpired. rewrite Hdel. apply Hnext; [done|]. by eapply batch_left_after.
Qed.

Lemma length_filter_map (P : string * string → Prop) `{!∀ x, Decision (P x)} (m : gmap string string) :
  length (filter P (map_to_list m)) = size (filter P m).
Proof.
  rewrite <- length_map_to_list. apply Permutation_length, NoDup_Permutation.
  - apply NoDup_filter, NoDup_map_to_list.
  - apply NoDup_map_to_list.
  - intros [k d]. rewrite list_elem_of_filter, !elem_of_map_to_list, map_lookup_filter_Some. tauto.
Qed.

Lemma Prune_total c s expired :
  table_ok (rows s) →
  ∃ c' s', SQLiteStore_Prune unmarshal (λ _, false) c s expired = Some ((c', s'), size (filter (λ r, expired r.2 = true) (decoded (rows s)))) ∧
    table_ok (rows s') ∧ decoded (rows s') = filter (λ r, expired r.2 = false) (decoded (rows s)).
Proof.
  intros Hm. assert (rows_after s None ≡ₚ map_to_list (rows s)) as HR.
  { unfold rows_after. rewrite by_key_perm. by rewrite filter_all by (apply Forall_forall; done). }
  destruct (prune_loop_spec expired (S (size (rows s))) 0 c s None 0 Hm) as (c' & s' & E1 & E2).
  { rewrite HR, length_map_to_list. lia. }
  exists c', s'. split; [|split].
  - unfold SQLiteStore_Prune. rewrite E1. do 2 f_equal. rewrite Nat.add_0_l, HR, length_filter_map.
    rewrite <- decoded_filter by done. symmetry. apply decoded_size. eapply table_ok_sub; [done|apply map_filter_subseteq].
  - eapply table_ok_sub; [exact Hm|]. rewrite E2. apply map_filter_subseteq.
  - rewrite E2, <- decoded_filter by done. f_equal. apply map_filter_ext. intros k d _. simpl. by destruct (row_expired expired d).
Qed.

(** Whatever it meets, the transaction removes the keys it reports, all of
    them expired. *)
Lemma delete_loop_gone expired keys m :
  table_ok m → ∃ m' gone, delete_loop unmarshal expired keys m = Some (m', gone) ∧
    (∀ k, m' !! k = if decide (k ∈ gone) then None else m !! k) ∧ (∀ k, k ∈ gone → doomed_in expired m k = true).
Proof.
  clear marshal keep Hcodec. revert m. induction keys as [|key keys IH]; intros m Hm; simpl.
  { exists m, []. split; [done|]. split; [|set_solver]. intros k. by rewrite decide_False by set_solver. }
  destruct (m !! key) as [d|] eqn:Ed; [|by apply IH].
  rewrite (decode_Some m key d Hm Ed). fold (row_expired expired d). destruct (row_expired expired d) eqn:Ex; [|by apply IH].
  destruct (IH (delete key m)) as (m' & gone & -> & H1 & H2); [by eapply table_ok_sub, delete_subseteq|].
  exists m', (key :: gone). split; [done|]. split.
  - intros k. rewrite H1, lookup_delete. repeat case_decide; set_solver.
  - intros k [->|Hk]%elem_of_cons; [unfold doomed_in; by rewrite Ed|]. specialize (H2 k Hk). revert H2. unfold doomed_in.
    rewrite lookup_delete. by case_decide.
Qed.

(** A sweep of expired rows: it takes nothing else away. *)
Definition swept (expired : T → bool) (m m' : gmap string string) : Prop :=
  m' ⊆ m ∧ ∀ k d, m !! k = Some d → m' !! k = None → row_expired expired d = true.

Lemma swept_refl expired m : swept expired m m.
Proof. split; [done|]. intros. congruence. Qed.

Lemma swept_trans expired m1 m2 m3 : swept expired m1 m2 → swept expired m2 m3 → swept expired m1 m3.
Proof.
  intros [S1 E1] [S2 E2]. split; [by transitivity m2|]. intros k d Hk Hn.
  destruct (m2 !! k) as [d'|] eqn:E; [|by eapply E1]. pose proof (lookup_weaken _ _ _ _ E S1). simplify_eq. by eapply E2.
Qed.

Lemma deleteExpired_swept expired c s b keys :
  table_ok (rows s) → ∃ c' s' gone, deleteExpired unmarshal c s b keys expired = Some ((c', s'), (gone, b)) ∧
    swept expired (rows s) (rows s') ∧ (∀ k, rows s' !! k = if decide (k ∈ gone) then None else rows s !! k) ∧
    (∀ k, k ∈ gone → doomed_in expired (rows s) k = true).
Proof.
  clear marshal keep Hcodec. intros Hm. unfold deleteExpired. destruct b.
  { exists c, s, []. split; [done|]. split; [apply swept_refl|]. split; [|set_solver].
    intros k. by rewrite decide_False by set_solver. }
  destruct (delete_loop_gone expired keys (rows s) Hm) as (m' & gone & -> & H1 & H2).
  assert (swept expired (rows s) m') as Hs.
  { split.
    - apply map_subseteq_spec. intros k d. rewrite H1. by case_decide.
    - intros k d Hk. rewrite H1. case_decide as Hin; [|congruence]. intros _. specialize (H2 k Hin).
      unfold doomed_in in H2. by rewrite Hk in H2. }
  destruct gone; (eexists _, _, _; split; [done|done]).
Qed.

(** A sweep that may meet a busy database and stop early. *)
Lemma prune_loop_swept expired fuel busy n c s a pruned :
  table_ok (rows s) → ∃ c' s' pruned', prune_loop unmarshal fuel busy n c s a expired pruned = Some ((c', s'), pruned') ∧
    swept expired (rows s) (rows s').
Proof.
  revert n c s a pruned. induction fuel as [|fuel IH]; intros n c s a pruned Hm; simpl.
  { exists c, s, pruned. split; [done|apply swept_refl]. }
  destruct (busy n); [exists c, s, pruned; split; [done|apply swept_refl]|].
  unfold pruneScan. destruct (rows_after_spec s a) as [_ Hin]. rewrite scan_rows_spec.
  2: { intros k d Hkd. apply elem_of_take in Hkd as (i & Hi & _). apply list_elem_of_lookup_2 in Hi. apply Hin in Hi as [Hr _]. by eapply decode_Some. }
  destruct (last _) as [key|]; [|exists c, s, pruned; split; [done|apply swept_refl]].
  destruct (_.*1) as [|k0 doomed] eqn:Ed; [by apply IH|].
  destruct (deleteExpired_swept expired c s (busy (S n)) (k0 :: doomed) Hm) as (c1 & s1 & gone & -> & H1 & _).
  destruct (busy (S n)); [by eexists _, _, _|].
  destruct (IH (S (S n)) c1 s1 (Some key) (pruned + length gone)%nat) as (c' & s' & p' & -> & H2).
  - eapply table_ok_sub; [exact Hm|apply H1].
  - eexists _, _, _. split; [done|]. by eapply swept_trans.
Qed.

Lemma Put_total c s id v :
  table_ok (rows s) →
  ∃ c' s', SQLiteStore_Put marshal c s id v = Some (c', s') ∧ table_ok (rows s') ∧ decoded (rows s') = <[id:=keep v]> (decoded (rows s)).
Proof.
  intros Hm. unfold SQLiteStore_Put. destruct (Hcodec v) as (data & E1 & E2). rewrite E1. eexists _, _. split; [done|]. split.
  - by apply table_ok_insert; [|rewrite E2].
  - by apply decoded_insert.
Qed.

Lemma Get_total s id : table_ok (rows s) → SQLiteStore_Get unmarshal s id = Some (decoded (rows s) !! id).
Proof.
  intros Hm. unfold SQLiteStore_Get. rewrite decoded_lookup. destruct (rows s !! id) as [d|] eqn:E; [|done]. simpl.
  by rewrite (decode_Some _ _ _ Hm E).
Qed.

Lemma Update_total c s id fn :
  table_ok (rows s) →
  ∃ c' s', SQLiteStore_Update marshal unmarshal c s id fn = Some ((c', s'), bool_decide (is_Some (decoded (rows s) !! id))) ∧
    table_ok (rows s') ∧ decoded (rows s') = alter (λ v, keep (fn v)) id (decoded (rows s)).
Proof.
  intros Hm. unfold SQLiteStore_Update. destruct (rows s !! id) as [d|] eqn:E.
  - pose proof (decode_Some _ _ _ Hm E) as Ed. rewrite Ed. destruct (Hcodec (fn (decode d))) as (data & E1 & E2). rewrite E1.
    assert (decoded (rows s) !! id = Some (decode d)) as El by (by rewrite decoded_lookup, E). eexists _, _. split; [by rewrite El|].
    split; [by apply table_ok_insert; [|rewrite E2]|]. simpl. rewrite (decoded_insert _ _ _ _ E2). apply map_eq. intros j.
    rewrite lookup_insert, lookup_alter. case_decide; [subst; by rewrite El|done].
  - assert (decoded (rows s) !! id = None) as El by (by rewrite decoded_lookup, E). eexists _, _. split; [by rewrite El|].
    split; [done|]. apply map_eq. intros j. rewrite lookup_alter. case_decide; [subst; by rewrite El|done].
Qed.

Lemma Upsert_total c s id fn :
  table_ok (rows s) →
  ∃ c' s', SQLiteStore_Upsert marshal unmarshal c s id fn = Some (c', s') ∧ table_ok (rows s') ∧
    decoded (rows s') = <[id:=keep (fn (default zero (decoded (rows s) !! id)))]> (decoded (rows s)).
Proof.
  intros Hm. unfold SQLiteStore_Upsert.
  assert (match rows s !! id with None => Some zero | Some d => unmarshal d end = Some (default zero (decoded (rows s) !! id))) as ->.
  { rewrite decoded_lookup. destruct (rows s !! id) as [d|] eqn:E; [|done]. simpl. by rewrite (decode_Some _ _ _ Hm E). }
  destruct (Hcodec (fn (default zero (decoded (rows s) !! id)))) as (data & E1 & E2). rewrite E1. eexists _, _. split; [done|].
  split; [by apply table_ok_insert; [|rewrite E2]|]. by apply decoded_insert.
Qed.

Lemma Delete_total c s id :
  table_ok (rows s) →
  let r := SQLiteStore_Delete c s id in
  table_ok (rows r.1.2) ∧ decoded (rows r.1.2) = delete id (decoded (rows s)) ∧ r.2 = bool_decide (is_Some (decoded (rows s) !! id)).
Proof.
  intros Hs. unfold SQLiteStore_Delete. destruct (rows s !! id) as [d|] eqn:E; simpl.
  - split_and!; [by eapply table_ok_sub, delete_subseteq|by apply decoded_delete|].
    by rewrite decoded_lookup, E; simpl; rewrite (decode_Some _ _ _ Hs E).
  - split_and!; [done| |by rewrite decoded_lookup, E]. rewrite delete_id; [done|]. by rewrite decoded_lookup, E.
Qed.
End SQLiteSpec.

(** ** The interface *)

Section SQLiteInterface.
Context {T : Type} `{!GoZero T} (marshal : T → option string) (unmarshal : string → option T).
Context (Hcodec : codec_keeps id marshal unmarshal).

Definition sqlite_store : Store (Z * SQLiteStore) T := {|
  store_get w k := default None (SQLiteStore_Get unmarshal w.2 k);
  store_put w k v := default w (SQLiteStore_Put marshal w.1 w.2 k v);
  store_delete w k := SQLiteStore_Delete w.1 w.2 k;
  store_list w := default [] (SQLiteStore_List unmarshal w.2);
  store_list_prefix w p := default [] (SQLiteStore_ListPrefix unmarshal w.2 p);
  store_len w := SQLiteStore_Len w.2;
  store_update w k f := default (w, false) (SQLiteStore_Update marshal unmarshal w.1 w.2 k f);
  store_upsert w k f := default w (SQLiteStore_Upsert marshal unmarshal w.1 w.2 k f);
  store_prune w f := default (w, 0%nat) (SQLiteStore_Prune unmarshal (λ _, false) w.1 w.2 f);
|}.
#[local] Existing Instance sqlite_store.

(** With a codec that keeps all of a value, the SQLite store keeps every
    promise of the interface. *)
#[local, refine] Instance sqlite_store_spec : StoreSpec (Z * SQLiteStore) T := {
  contents w := decoded unmarshal (rows w.2);
  store_ok w := table_ok unmarshal (rows w.2);
}.
Proof.
  - intros [c s] k Hs. simpl in *. by rewrite Get_total.
  - intros [c s] k v Hs. simpl in *. by destruct (Put_total marshal unmarshal id Hcodec c s k v Hs) as (c' & s' & -> & ? & ?).
  - intros [c s] k Hs. exact (Delete_total unmarshal c s k Hs).
  - intros [c s] Hs. simpl in *. rewrite List_total by done. simpl. by apply List_perm.
  - intros [c s] p Hs. simpl in *. by destruct (ListPrefix_total unmarshal s p Hs) as (l & -> & ?).
  - intros [c s] Hs. simpl in *. symmetry. by apply decoded_size.
  - intros [c s] k f Hs. simpl in *. by destruct (Update_total marshal unmarshal id Hcodec c s k f Hs) as (c' & s' & -> & ? & ?).
  - intros [c s] k f Hs. simpl in *. by destruct (Upsert_total marshal unmarshal id Hcodec c s k f Hs) as (c' & s' & -> & ? & ?).
  - intros [c s] f Hs. simpl in *. by destruct (Prune_total unmarshal c s f Hs) as (c' & s' & -> & ? & ?).
Defined.
End SQLiteInterface.

(** ** Values read back *)

Section Roundtrip.
Context {V : Type} (fields : list StructField) (zero_field : V).
Context (json_struct : gmap string V → option string) (struct_of : string → option (gmap string V)).
Context (json_field : V → option string) (field_of : string → option V).
Context (json_envelope : string → gmap string string → option string)
        (envelope_of : string → option (string * gmap string string)).

Definition named (p : StructField → bool) (n : string) : bool := existsb (λ f, String.eqb (f_Name f) n && p f) fields.
Definition value (v : gmap string V) (n : string) : V := default zero_field (v !! n).

(** What [encoding/json] documents: a struct's JSON carries its exported fields
    not tagged ["-"], and decoding leaves the others zero; a field's value and
    the envelope read back. *)
Definition json_ok : Prop :=
  (∀ v, ∃ data out, json_struct v = Some data ∧ struct_of data = Some out ∧
     ∀ n, value out n = if named visible n then value v n else zero_field) ∧
  (∀ x, ∃ e, json_field x = Some e ∧ field_of e = Some x) ∧
  (∀ d h, ∃ e, json_envelope d h = Some e ∧ envelope_of e = Some (d, h)).

Lemma marshal_hidden_spec v fs acc :
  json_ok → ∃ h, marshal_hidden json_field zero_field v fs acc = Some h ∧
    ∀ n, h !! n = if existsb (λ f, String.eqb (f_Name f) n && hidden f) fs then json_field (value v n) else acc !! n.
Proof.
  intros (_ & Hf & _). revert acc. induction fs as [|f fs IH]; intros acc; [by exists acc|]. cbn [marshal_hidden existsb].
  destruct (hidden f) eqn:Eh.
  - destruct (Hf (value v (f_Name f))) as (e & He & _). unfold value in He. rewrite He. destruct (IH (<[f_Name f:=e]> acc)) as (h & E & Hh).
    exists h. split; [done|]. intros n. rewrite Hh, andb_true_r. destruct (existsb _ fs); [by rewrite orb_true_r|]. rewrite orb_false_r.
    destruct (String.eqb_spec (f_Name f) n) as [<-|Hne]; [by rewrite lookup_insert_eq|by rewrite lookup_insert_ne].
  - destruct (IH acc) as (h & E & Hh). exists h. split; [done|]. intros n. by rewrite Hh, andb_false_r.
Qed.

Lemma set_fields_spec l out :
  NoDup l.*1 → (∀ n e, (n, e) ∈ l → named f_Exported n = true ∧ is_Some (field_of e)) →
  ∃ out', set_fields fields field_of l out = Some out' ∧
    (∀ n e, (n, e) ∈ l → out' !! n = field_of e) ∧ (∀ n, n ∉ l.*1 → out' !! n = out !! n).
Proof.
  revert out. induction l as [|[n e] l IH]; intros out Hn Hl.
  { exists out. split_and!; [done| |done]. intros n e Hin. by apply elem_of_nil in Hin. }
  csimpl in Hn. apply NoDup_cons in Hn as [Hnn Hn]. destruct (Hl n e) as [Hx [x Hf]]; [by left|]. cbn [set_fields].
  unfold named in Hx. rewrite Hx, Hf. destruct (IH (<[n:=x]> out) Hn) as (out' & E & H1 & H2); [intros; apply Hl; by right|].
  exists out'. split; [done|]. split.
  - intros n' e' [[= -> ->]|Hin]%elem_of_cons; [|by apply H1]. by rewrite H2, lookup_insert_eq by done.
  - csimpl. intros n' [Hne Hin]%not_elem_of_cons. by rewrite H2, lookup_insert_ne by done.
Qed.

(** The fields a value keeps: all exported ones but those tagged both out of
    JSON and as disposable. *)
Definition kept (f : StructField) : bool := f_Exported f && negb (f_JsonDash f && f_PersistDash f).

Lemma named_kept n : named kept n = named visible n || named hidden n.
Proof.
  unfold named. induction fields as [|f fs IH]; [done|]. simpl. rewrite IH. unfold kept, visible, hidden.
  by destruct (String.eqb _ _), (f_Exported f), (f_JsonDash f), (f_PersistDash f); simpl; rewrite ?orb_true_r.
Qed.

Lemma hidden_exported n : named hidden n = true → named f_Exported n = true.
Proof.
  unfold named. rewrite !existsb_exists. intros (f & Hin & H). exists f. split; [done|].
  apply andb_true_iff in H as [Hn Hh]. unfold hidden in Hh. bools. by rewrite Hn.
Qed.
End Roundtrip.

(** What a stored value reads back as. *)
Lemma envelope_roundtrip {V} (fields : list StructField) (zero_field : V)
    json_struct struct_of json_field field_of json_envelope envelope_of :
  json_ok fields zero_field json_struct struct_of json_field field_of json_envelope envelope_of →
  ∀ v, ∃ data out,
    marshalPersistentValue fields json_struct json_field json_envelope zero_field v = Some data ∧
    unmarshalPersistentValue fields struct_of field_of envelope_of data = Some out ∧
    ∀ n, value zero_field out n = if named fields kept n then value zero_field v n else zero_field.
Proof.
  intros Hok. destruct Hok as (Hs & Hf & He) eqn:Eok. clear Eok. intros v. destruct (Hs v) as (data & out & E1 & E2 & Hout).
  destruct (marshal_hidden_spec fields zero_field json_struct struct_of json_field field_of json_envelope envelope_of v fields ∅ Hok) as (h & E3 & Hh).
  destruct (He data h) as (e & E4 & E5).
  destruct (set_fields_spec fields field_of (map_to_list h) out) as (out' & E6 & H1 & H2).
  { apply NoDup_fst_map_to_list. }
  { intros n x Hin%elem_of_map_to_list. rewrite Hh in Hin. fold (named fields hidden n) in Hin. destruct (named fields hidden n) eqn:En; [|done].
    split; [by apply hidden_exported|]. destruct (Hf (value zero_field v n)) as (y & Hy & Hy'). rewrite Hin in Hy. injection Hy as ->. by exists (value zero_field v n). }
  exists (persistenceEnvelopeMagic +:+ e), out'. split_and!.
  + unfold marshalPersistentValue. by rewrite E1, E3, E4.
  + unfold unmarshalPersistentValue. by rewrite CutPrefix_append, E5, E2.
  + intros n. rewrite named_kept. specialize (Hh n). fold (named fields hidden n) in Hh. destruct (named fields hidden n) eqn:En; rewrite ?orb_true_r, ?orb_false_r.
    * destruct (Hf (value zero_field v n)) as (y & Hy & Hy'). rewrite Hy in Hh. unfold value. rewrite (H1 n y) by (by apply elem_of_map_to_list).
      by rewrite Hy'.
    * rewrite <- Hout. unfold value. rewrite H2; [done|]. rewrite list_elem_of_fmap. intros ([n' x] & -> & Hin%elem_of_map_to_list). simpl in *. rewrite lookup_empty in Hh. congruence.
Qed.


(** A JSON for structs of one visible field, and an envelope as the digits of a
    number. *)
Definition w_fields : list StructField :=
  [MkField "Name" true false false; MkField "Secret" true true false; MkField "done" true true true; MkField "mu" false false false].

Fixpoint digits_of (p : positive) : string :=
  match p with xH => "" | xO p => String (char_of 48) (digits_of p) | xI p => String (char_of 49) (digits_of p) end.
Fixpoint number_of (s : string) : positive :=
  match s with EmptyString => xH | String c s => if byte_of c =? 48 then xO (number_of s) else xI (number_of s) end.

Lemma number_of_digits p : number_of (digits_of p) = p.
Proof. induction p as [p IH|p IH|]; simpl; by rewrite ?IH. Qed.

Definition w_struct (v : gmap string string) : option string := Some (value "" v "Name").
Definition w_struct_of (d : string) : option (gmap string string) := Some {[ "Name" := d ]}.
Definition w_envelope (d : string) (h : gmap string string) : option string := Some (digits_of (encode (d, h))).
Definition w_envelope_of (s : string) : option (string * gmap string string) := countable.decode (number_of s).

Lemma w_visible n : named w_fields visible n = bool_decide ("Name" = n).
Proof.
  assert (E : ∀ f, existsb f w_fields = f (MkField "Name" true false false) || (f (MkField "Secret" true true false) ||
    (f (MkField "done" true true true) || (f (MkField "mu" false false false) || false)))) by done.
  unfold named. rewrite E. unfold visible. cbn [f_Name f_Exported f_JsonDash negb andb].
  rewrite !andb_false_r, !orb_false_r, andb_true_r.
  destruct (String.eqb_spec "Name" n); case_bool_decide; done.
Qed.

Lemma w_json_ok : json_ok w_fields "" w_struct w_struct_of Some Some w_envelope w_envelope_of.
Proof.
  split_and!.
  - intros v. eexists _, _. split; [reflexivity|]. split; [reflexivity|]. intros n. rewrite w_visible. unfold value.
    case_bool_decide as Hn; [subst n; by rewrite lookup_singleton_eq|by rewrite lookup_singleton_ne].
  - intros x. by exists x.
  - intros d h. eexists. split; [reflexivity|]. unfold w_envelope_of. rewrite number_of_digits. apply countable.decode_encode.
Qed.

