(* ===== verification/Cached.v ===== *)
(** * The cached SQLite store ([sim/state_cached.go], [sim/state_prune.go])

    A third implementation of the interface of [Store]: it answers reads from a
    map in memory with its sorted ids and writes through to a [SQLiteStore]. The
    last part says what every persistent store promises over its life, a restart
    of the process included. *)

From S2P Require Import Prelude Gostd Store Sqlite.

(** ** The cached store *)

Record CachedSQLiteStore (T : Type) := MkCached { disk : SQLiteStore; items : gmap string T; order : list string }.
Arguments MkCached {T} _ _ _.
Arguments disk {T} _.
Arguments items {T} _.
Arguments order {T} _.

Section CachedStore.
Context {T : Type} `{!GoZero T} (marshal : T → option string) (unmarshal : string → option T).
Implicit Types (s : CachedSQLiteStore T) (c : Z).

(** [orderedIDsOf]. *)
Definition orderedIDsOf (m : gmap string T) : list string := SliceStable sltb (map_to_list m).*1.

Fixpoint load (d : SQLiteStore) (keys : list string) (m : gmap string T) : option (gmap string T) :=
  match keys with
  | [] => Some m
  | key :: keys =>
      match SQLiteStore_Get unmarshal d key with
      | None => None
      | Some (Some v) => load d keys (<[key:=v]> m)
      | Some None => load d keys m
      end
  end.

Definition NewCachedSQLiteStore c (table : gmap string string) : option (Z * CachedSQLiteStore T) :=
  let '(c, d) := NewSQLiteStore c table in
  match load d (SQLiteStore_keys d) ∅ with
  | Some m => Some (c, MkCached d m (orderedIDsOf m))
  | None => None
  end.

Definition CachedSQLiteStore_Get s (id : string) : option T := items s !! id.

Definition CachedSQLiteStore_Put c s (id : string) (item : T) : option (Z * CachedSQLiteStore T) :=
  match SQLiteStore_Put marshal c (disk s) id item with
  | Some (c, d) => Some (c, MkCached d (<[id:=item]> (items s)) (orderedIDs_add (order s) id))
  | None => None
  end.

Definition CachedSQLiteStore_Delete c s (id : string) : (Z * CachedSQLiteStore T) * bool :=
  let '((c, d), removed) := SQLiteStore_Delete c (disk s) id in
  ((c, MkCached d (delete id (items s)) (orderedIDs_remove (order s) id)), removed).

Definition CachedSQLiteStore_List s : list T := (map_to_list (items s)).*2.
Definition CachedSQLiteStore_Filter s (fn : T → bool) : list T := filter (λ v, fn v = true) (CachedSQLiteStore_List s).
Definition CachedSQLiteStore_ListPrefix s (prefix : string) : list (string * T) := snapshotPrefix (items s) (order s) prefix.
Definition CachedSQLiteStore_Len s : nat := size (items s).

Definition CachedSQLiteStore_Update c s (id : string) (fn : T → T) : option ((Z * CachedSQLiteStore T) * bool) :=
  match items s !! id with
  | None => Some ((c, s), false)
  | Some v =>
      match SQLiteStore_Put marshal c (disk s) id (fn v) with
      | Some (c, d) => Some ((c, MkCached d (<[id:=fn v]> (items s)) (order s)), true)
      | None => None
      end
  end.

Definition CachedSQLiteStore_Upsert c s (id : string) (fn : T → T) : option (Z * CachedSQLiteStore T) :=
  let v := default zero (items s !! id) in
  match SQLiteStore_Put marshal c (disk s) id (fn v) with
  | Some (c, d) => Some (c, MkCached d (<[id:=fn v]> (items s)) (orderedIDs_add (order s) id))
  | None => None
  end.

Definition CachedSQLiteStore_Generation s : Z := sq_generation (disk s).
Definition CachedSQLiteStore_keys s : list string := (map_to_list (items s)).*1.

(** The batches of a prune: the candidates come from memory, in the order a map
    is ranged over. *)
Fixpoint batch_loop (fuel : nat) (busy : nat → bool) (n : nat) c s (doomed : list string) (expired : T → bool) (pruned : nat)
    : option ((Z * CachedSQLiteStore T) * nat) :=
  match fuel, doomed with
  | O, _ | _, [] => Some ((c, s), pruned)
  | S fuel, _ =>
      match deleteExpired unmarshal c (disk s) (busy n) (take pruneBatch doomed) expired with
      | None => None
      | Some ((c, d), (deleted, stop)) =>
          let s := MkCached d (foldr delete (items s) deleted) (foldl orderedIDs_remove (order s) deleted) in
          let pruned := (pruned + length deleted)%nat in
          if stop : bool then Some ((c, s), pruned)
          else batch_loop fuel busy (S n) c s (drop pruneBatch doomed) expired pruned
      end
  end.

Definition CachedSQLiteStore_Prune (busy : nat → bool) c s (expired : T → bool) : option ((Z * CachedSQLiteStore T) * nat) :=
  let doomed := (map_to_list (filter (λ kv, expired kv.2 = true) (items s))).*1 in
  batch_loop (length doomed) busy 0 c s doomed expired 0.
End CachedStore.

(** ** What the cached store holds *)

Section CachedSpec.
Context {T : Type} `{!GoZero T} (marshal : T → option string) (unmarshal : string → option T).
Context (keep : T → T) (Hcodec : codec_keeps keep marshal unmarshal).
Abbreviation decoded := (Sqlite.decoded unmarshal).
Abbreviation table_ok := (Sqlite.table_ok unmarshal).

(** The memory part, as an in-memory store. *)
Definition memory (s : CachedSQLiteStore T) : MemoryStore T := mkMemoryStore (items s) (order s) 0.

(** The rows of a table and the items in memory: the same ids, and each row
    decodes to the item or to what the blob keeps of it. *)
Definition backs (items on_disk : gmap string T) : Prop :=
  map_Forall2 (λ _ v d, d = v ∨ d = keep v) items on_disk.

(** Memory holds the rows of the table under its sorted ids. *)
Record cached_ok (s : CachedSQLiteStore T) : Prop := {
  ck_table : table_ok (rows (disk s));
  ck_items : backs (items s) (decoded (rows (disk s)));
  ck_order : MemoryStore_wf (memory s)
}.

(** A prune whose predicate does not look at what the blob drops. *)
Definition reads_kept (expired : T → bool) : Prop := ∀ v, expired (keep v) = expired v.

Lemma cached_Put c s id v :
  cached_ok s → ∃ c' s', CachedSQLiteStore_Put marshal c s id v = Some (c', s') ∧ cached_ok s' ∧ items s' = <[id:=v]> (items s).
Proof.
  intros [Ht Hi Ho]. unfold CachedSQLiteStore_Put. destruct (Put_total marshal unmarshal keep Hcodec c (disk s) id v Ht) as (c' & d & -> & Ht' & Hd).
  eexists _, _. split; [done|]. split; [|done]. split; simpl; [done| |exact (Put_wf 0 (memory s) id v Ho)].
  rewrite Hd. apply map_Forall2_insert_2; [by right|done].
Qed.

Lemma cached_Upsert c s id fn :
  cached_ok s → ∃ c' s', CachedSQLiteStore_Upsert marshal c s id fn = Some (c', s') ∧ cached_ok s' ∧
    items s' = <[id:=fn (default zero (items s !! id))]> (items s).
Proof.
  intros Hs. unfold CachedSQLiteStore_Upsert. cbv zeta.
  destruct (cached_Put c s id (fn (default zero (items s !! id))) Hs) as (c' & s' & E & H). exists c', s'. split; [exact E|exact H].
Qed.

Lemma cached_Update c s id fn :
  cached_ok s → ∃ c' s', CachedSQLiteStore_Update marshal c s id fn = Some ((c', s'), bool_decide (is_Some (items s !! id))) ∧
    cached_ok s' ∧ items s' = alter fn id (items s).
Proof.
  intros [Ht Hi Ho]. unfold CachedSQLiteStore_Update. destruct (items s !! id) as [v|] eqn:E.
  - destruct (Put_total marshal unmarshal keep Hcodec c (disk s) id (fn v) Ht) as (c' & d & -> & Ht' & Hd).
    eexists _, _. split; [done|]. split; [split; simpl; [done| |]|].
    + rewrite Hd. apply map_Forall2_insert_2; [by right|done].
    + pose proof (Update_wf 0 (memory s) id fn Ho) as Hu. unfold MemoryStore_Update in Hu. simpl in Hu. rewrite E in Hu. exact Hu.
    + simpl. apply map_eq. intros j. rewrite lookup_insert, lookup_alter. case_decide; [subst; by rewrite E|done].
  - exists c, s. split; [done|]. split; [done|]. apply map_eq. intros j. rewrite lookup_alter. case_decide; [subst; by rewrite E|done].
Qed.

Lemma backs_Some m m' k : backs m m' → is_Some (m' !! k) ↔ is_Some (m !! k).
Proof. intros Hb. specialize (Hb k). destruct (m !! k), (m' !! k); simpl in Hb; [by split; eexists|by destruct Hb|by destruct Hb|by split; intros [? ?]]. Qed.

Lemma cached_Delete c s id :
  cached_ok s → let r := CachedSQLiteStore_Delete c s id in
  cached_ok r.1.2 ∧ items r.1.2 = delete id (items s) ∧ r.2 = bool_decide (is_Some (items s !! id)).
Proof.
  intros [Ht Hi [Hs Hd]]. unfold CachedSQLiteStore_Delete. simpl in *.
  pose proof (Delete_total unmarshal c (disk s) id Ht) as (D1 & D2 & D3).
  destruct (SQLiteStore_Delete c (disk s) id) as [[c' d] removed]. simpl in *.
  split_and!; [|done|rewrite D3; by apply bool_decide_ext, backs_Some].
  split; simpl; [done|by rewrite D2; apply map_Forall2_delete|].
  destruct (orderedIDs_remove_spec (order s) id Hs) as [Hs' He]. split; [done|].
  intros k. simpl. rewrite He, Hd, lookup_delete_is_Some. naive_solver.
Qed.

(** *** Pruning *)

(** The store after a batch whose transaction removed [gone]. *)
Definition without (d : SQLiteStore) s (gone : list string) : CachedSQLiteStore T :=
  MkCached d (foldr delete (items s) gone) (foldl orderedIDs_remove (order s) gone).

Lemma doomed_item s expired k :
  cached_ok s → reads_kept expired →
  doomed_in unmarshal expired (rows (disk s)) k = true ↔ ∃ v, items s !! k = Some v ∧ expired v = true.
Proof.
  intros [Ht Hi _] Hk. specialize (Hi k). unfold doomed_in. rewrite decoded_lookup in Hi.
  destruct (rows (disk s) !! k) as [d|] eqn:E; simpl in Hi.
  - unfold row_expired. rewrite (decode_Some _ _ _ _ Ht E) in Hi. inversion Hi as [v d' Hv Ei Ed'|].
    destruct Hv as [->| ->]; rewrite ?Hk; naive_solver.
  - inversion Hi. naive_solver.
Qed.

(** One batch: what the transaction removes, all of it expired, goes from
    memory too; with no busy database that is every candidate. *)
Lemma cached_batch c s busy keys expired :
  cached_ok s → reads_kept expired →
  ∃ c' d gone, deleteExpired unmarshal c (disk s) busy keys expired = Some ((c', d), (gone, busy)) ∧
    cached_ok (without d s gone) ∧ (∀ k, k ∈ gone → ∃ v, items s !! k = Some v ∧ expired v = true) ∧
    (busy = false → NoDup keys → (∀ k, k ∈ keys → ∃ v, items s !! k = Some v ∧ expired v = true) → gone = keys).
Proof.
  intros Hok Hk. pose proof Hok as [Ht Hi [Hs Hd]].
  destruct (deleteExpired_swept unmarshal expired c (disk s) busy keys Ht) as (c' & d & gone & E & [Hsub _] & Hrows & Hgone).
  exists c', d, gone. split; [done|]. split; [|split].
  - split; simpl.
    + by eapply table_ok_sub.
    + intros k. rewrite decoded_lookup, Hrows. specialize (Hi k). rewrite decoded_lookup in Hi. case_decide as Hin.
      * rewrite lookup_foldr_delete by done. constructor.
      * by rewrite lookup_foldr_delete_not_elem_of.
    + destruct (foldl_remove_spec gone (order s) Hs) as [Hs' He]. split; [done|]. intros k. simpl. rewrite He, Hd. simpl.
      destruct (decide (k ∈ gone)) as [Hin|Hin]; [rewrite lookup_foldr_delete by done|rewrite lookup_foldr_delete_not_elem_of by done].
      * split; [by intros [? _]|by intros [? ?]].
      * tauto.
  - intros k Hin. apply doomed_item; auto.
  - intros -> Hn Hall. unfold deleteExpired in E. rewrite delete_loop_spec in E by done.
    rewrite filter_all in E by (apply Forall_forall; intros k Hin; apply doomed_item; auto).
    destruct keys as [|k0 keys]; by injection E as _ _ <-.
Qed.

(** A sweep of expired items. *)
Definition swept_items (expired : T → bool) (m m' : gmap string T) : Prop :=
  m' ⊆ m ∧ ∀ k v, m !! k = Some v → m' !! k = None → expired v = true.

Lemma swept_items_refl expired m : swept_items expired m m.
Proof. split; [done|]. intros. congruence. Qed.

Lemma swept_items_trans expired m1 m2 m3 : swept_items expired m1 m2 → swept_items expired m2 m3 → swept_items expired m1 m3.
Proof.
  intros [S1 E1] [S2 E2]. split; [by transitivity m2|]. intros k d Hk Hn.
  destruct (m2 !! k) as [d'|] eqn:E; [|by eapply E1]. pose proof (lookup_weaken _ _ _ _ E S1). simplify_eq. by eapply E2.
Qed.

Lemma swept_items_delete expired (m : gmap string T) gone :
  (∀ k, k ∈ gone → ∃ v, m !! k = Some v ∧ expired v = true) → swept_items expired m (foldr delete m gone).
Proof.
  intros Hg. split.
  - apply map_subseteq_spec. intros k v. by intros [_ ?]%lookup_foldr_delete_Some.
  - intros k v Hk Hn. destruct (decide (k ∈ gone)) as [Hin|Hin].
    + destruct (Hg k Hin) as (v' & ? & ?). by simplify_eq.
    + rewrite lookup_foldr_delete_not_elem_of in Hn by done. congruence.
Qed.

Lemma foldr_delete_app (m : gmap string T) l1 l2 : foldr delete (foldr delete m l1) l2 = foldr delete m (l1 ++ l2).
Proof.
  apply map_eq. intros k. apply option_eq. intros v. rewrite !lookup_foldr_delete_Some, elem_of_app. tauto.
Qed.

(** The batches of a sweep, whatever databases they meet. *)
Lemma cached_batches fuel busy n c s doomed expired pruned :
  cached_ok s → reads_kept expired →
  ∃ c' s' pruned', batch_loop unmarshal fuel busy n c s doomed expired pruned = Some ((c', s'), pruned') ∧
    cached_ok s' ∧ swept_items expired (items s) (items s') ∧
    ((∀ i, busy i = false) → NoDup doomed → (∀ k, k ∈ doomed → ∃ v, items s !! k = Some v ∧ expired v = true) →
     (length doomed ≤ fuel)%nat → items s' = foldr delete (items s) doomed ∧ pruned' = (pruned + length doomed)%nat).
Proof.
  intros Hs Hk. revert n c s doomed pruned Hs. induction fuel as [|fuel IH]; intros n c s doomed pruned Hs; cbn [batch_loop].
  { exists c, s, pruned. split; [done|]. split; [done|]. split; [apply swept_items_refl|].
    intros _ _ _ Hf. destruct doomed; [|simpl in Hf; lia]. simpl. split; [done|lia]. }
  destruct doomed as [|k0 doomed'] eqn:Ed.
  { exists c, s, pruned. split; [done|]. split; [done|]. split; [apply swept_items_refl|]. simpl. intros. split; [done|lia]. }
  rewrite <- Ed. assert (0 < length doomed)%nat as Hpos by (rewrite Ed; simpl; lia). clear Ed k0 doomed'.
  pose proof (take_drop pruneBatch doomed) as Etd.
  destruct (cached_batch c s (busy n) (take pruneBatch doomed) expired Hs Hk) as (c1 & d1 & gone & -> & Hok1 & Hg & Hall).
  cbv zeta. fold (without d1 s gone). pose proof (swept_items_delete expired (items s) gone Hg) as Hsw.
  destruct (busy n) eqn:Eb.
  { eexists _, _, _. split; [done|]. split; [done|]. split; [done|]. intros Hb. by rewrite Hb in Eb. }
  destruct (IH (S n) c1 (without d1 s gone) (drop pruneBatch doomed) (pruned + length gone)%nat Hok1)
    as (c' & s' & p' & -> & Hok' & Hsw' & Hfull).
  eexists _, _, _. split; [done|]. split; [done|]. split; [by eapply swept_items_trans|].
  intros Hb Hn Hin Hf. rewrite <- Etd in Hn. apply NoDup_app in Hn as (Hn1 & Hdisj & Hn2).
  assert (gone = take pruneBatch doomed) as ->.
  { apply Hall; [done|done|]. intros k Hk'. apply Hin. rewrite <- Etd. apply elem_of_app. by left. }
  destruct Hfull as [-> ->]; [done|done| | |].
  - intros k Hk'. destruct (Hin k) as (v & Hv & Hx); [rewrite <- Etd; apply elem_of_app; by right|]. exists v. split; [|done]. simpl.
    rewrite lookup_foldr_delete_not_elem_of; [done|]. intros Hk''. by apply (Hdisj k).
  - rewrite length_drop. pose proof pruneBatch_pos. lia.
  - simpl. rewrite foldr_delete_app, Etd. split; [done|]. rewrite <- Etd at 3. rewrite length_app. lia.
Qed.

(** A prune removes only expired items, and all of them when the database is
    never busy. *)
Lemma cached_Prune busy c s expired :
  cached_ok s → reads_kept expired →
  ∃ c' s' n, CachedSQLiteStore_Prune unmarshal busy c s expired = Some ((c', s'), n) ∧
    cached_ok s' ∧ swept_items expired (items s) (items s') ∧
    ((∀ i, busy i = false) → items s' = filter (λ r, expired r.2 = false) (items s) ∧
       n = size (filter (λ r, expired r.2 = true) (items s))).
Proof.
  intros Hs Hk. unfold CachedSQLiteStore_Prune. cbv zeta. set (doomed := (map_to_list _).*1).
  destruct (cached_batches (length doomed) busy 0 c s doomed expired 0 Hs Hk) as (c' & s' & n & E1 & E2 & E3 & E4).
  exists c', s', n. do 3 (split; [done|]). intros Hb. destruct E4 as [E4 E5]; [done|..|done|].
  - apply NoDup_fst_map_to_list.
  - intros k Hin. by apply (prune_doomed (memory s)).
  - rewrite E4, E5. split; [by apply (prune_items (memory s))|]. unfold doomed. by rewrite length_fmap, length_map_to_list.
Qed.

(** Opening a table whose rows decode loads what they decode to. *)
Lemma NewCached_ok c table :
  table_ok table → ∃ c' s, NewCachedSQLiteStore unmarshal c table = Some (c', s) ∧ cached_ok s ∧ items s = decoded table ∧ rows (disk s) = table.
Proof.
  intros Ht. unfold NewCachedSQLiteStore, NewSQLiteStore. set (d := MkSQLite table _).
  assert (∀ keys (m : gmap string T), load unmarshal d keys m = Some (foldl (λ (m : gmap string T) k, match decoded table !! k with Some v => <[k:=v]> m | None => m end) m keys)) as ->.
  { induction keys as [|k keys IH]; intros m; [done|]. simpl. rewrite Get_total by done. simpl. destruct (decoded table !! k); apply IH. }
  assert (∀ keys (m : gmap string T) k, foldl (λ (m : gmap string T) k, match decoded table !! k with Some v => <[k:=v]> m | None => m end) m keys !! k =
    if decide (k ∈ keys) then match decoded table !! k with Some v => Some v | None => m !! k end else m !! k) as Hload.
  { clear. induction keys as [|k' keys IH]; intros m k; [done|]. cbn [foldl]. rewrite IH.
    destruct (decide (k ∈ keys)) as [Hin|Hin].
    - rewrite decide_True by (by right). destruct (decoded table !! k) eqn:E; [done|].
      destruct (decoded table !! k') eqn:E'; [|done]. rewrite lookup_insert_ne; [done|]. intros ->. congruence.
    - destruct (decide (k ∈ k' :: keys)) as [Hc|Hc].
      + apply elem_of_cons in Hc as [->|?]; [|done]. destruct (decoded table !! k'); [by rewrite lookup_insert_eq|done].
      + apply not_elem_of_cons in Hc as [Hne _]. destruct (decoded table !! k'); [by rewrite lookup_insert_ne|done]. }
  set (m := foldl _ ∅ _). assert (m = decoded table) as Hm.
  { apply map_eq. intros k. subst m. rewrite Hload, lookup_empty. destruct (decide _) as [Hin|Hin]; [by destruct (decoded table !! k)|].
    symmetry. destruct (decoded table !! k) as [v|] eqn:E; [|done]. destruct Hin. rewrite decoded_lookup in E.
    destruct (table !! k) as [dd|] eqn:Ed; [|done]. unfold SQLiteStore_keys. apply list_elem_of_fmap. exists (k, dd). split; [done|]. by apply elem_of_map_to_list. }
  eexists _, _. split; [done|]. rewrite Hm. split; [|done]. split; simpl; [done| |split; simpl].
  - intros k. destruct (decoded table !! k); constructor; by left.
  - apply sort_strings_strict, NoDup_fst_map_to_list.
  - intros k. unfold orderedIDsOf. rewrite SliceStable_perm, list_elem_of_fmap. split.
    + intros ([k' v] & -> & Hin%elem_of_map_to_list). by exists v.
    + intros [v Hv]. exists (k, v). split; [done|]. by apply elem_of_map_to_list.
Qed.
End CachedSpec.

(** ** The interface *)

Section CachedInterface.
Context {T : Type} `{!GoZero T} (marshal : T → option string) (unmarshal : string → option T).
Context (Hcodec : codec_keeps id marshal unmarshal).

Definition cached_store : Store (Z * CachedSQLiteStore T) T := {|
  store_get w k := CachedSQLiteStore_Get w.2 k;
  store_put w k v := default w (CachedSQLiteStore_Put marshal w.1 w.2 k v);
  store_delete w k := CachedSQLiteStore_Delete w.1 w.2 k;
  store_list w := CachedSQLiteStore_List w.2;
  store_list_prefix w p := CachedSQLiteStore_ListPrefix w.2 p;
  store_len w := CachedSQLiteStore_Len w.2;
  store_update w k f := default (w, false) (CachedSQLiteStore_Update marshal w.1 w.2 k f);
  store_upsert w k f := default w (CachedSQLiteStore_Upsert marshal w.1 w.2 k f);
  store_prune w f := default (w, 0%nat) (CachedSQLiteStore_Prune unmarshal (λ _, false) w.1 w.2 f);
|}.
#[local] Existing Instance cached_store.

(** With a codec that keeps all of a value, the cached store keeps every
    promise of the interface. *)
#[local, refine] Instance cached_store_spec : StoreSpec (Z * CachedSQLiteStore T) T := {
  contents w := items w.2;
  store_ok w := cached_ok unmarshal id w.2;
}.
Proof.
  - done.
  - intros [c s] k v Hs. simpl in *. by destruct (cached_Put marshal unmarshal id Hcodec c s k v Hs) as (c' & s' & -> & ? & ?).
  - intros [c s] k Hs. simpl in *. by apply cached_Delete.
  - done.
  - intros [c s] p Hs. simpl in *. exact (ListPrefix_spec (memory s) p (ck_order _ _ s Hs)).
  - done.
  - intros [c s] k f Hs. simpl in *. by destruct (cached_Update marshal unmarshal id Hcodec c s k f Hs) as (c' & s' & -> & ? & ?).
  - intros [c s] k f Hs. simpl in *. by destruct (cached_Upsert marshal unmarshal id Hcodec c s k f Hs) as (c' & s' & -> & ? & ?).
  - intros [c s] f Hs. simpl in *.
    destruct (cached_Prune unmarshal id (λ _, false) c s f Hs (λ v, eq_refl)) as (c' & s' & n & -> & ? & _ & Hf).
    by destruct (Hf (λ _, eq_refl)) as [? ->].
Defined.
End CachedInterface.

(** ** The life of a persistent store *)

Section Life.
Context {T : Type} `{!GoZero T} (marshal : T → option string) (unmarshal : string → option T).

(** A write, and which statements of it, if it is a prune, meet a busy
    database. *)
Abbreviation persistent_write := (store_write (T:=T) * (nat → bool))%type.

(** A sequence of writes; a panic ends it. *)
Definition sqlite_write (w : Z * SQLiteStore) (x : persistent_write) : option (Z * SQLiteStore) :=
  match x.1 with
  | WPut id v => SQLiteStore_Put marshal w.1 w.2 id v
  | WDelete id => Some (SQLiteStore_Delete w.1 w.2 id).1
  | WUpdate id fn => fst <$> SQLiteStore_Update marshal unmarshal w.1 w.2 id fn
  | WUpsert id fn => SQLiteStore_Upsert marshal unmarshal w.1 w.2 id fn
  | WPrune expired => fst <$> SQLiteStore_Prune unmarshal x.2 w.1 w.2 expired
  end.

Definition cached_write (w : Z * CachedSQLiteStore T) (x : persistent_write) : option (Z * CachedSQLiteStore T) :=
  match x.1 with
  | WPut id v => CachedSQLiteStore_Put marshal w.1 w.2 id v
  | WDelete id => Some (CachedSQLiteStore_Delete w.1 w.2 id).1
  | WUpdate id fn => fst <$> CachedSQLiteStore_Update marshal w.1 w.2 id fn
  | WUpsert id fn => CachedSQLiteStore_Upsert marshal w.1 w.2 id fn
  | WPrune expired => fst <$> CachedSQLiteStore_Prune unmarshal x.2 w.1 w.2 expired
  end.

Fixpoint write_all {S} (write : S → persistent_write → option S) (s : S) (xs : list persistent_write) : option S :=
  match xs with [] => Some s | x :: xs => match write s x with Some s => write_all write s xs | None => None end end.

(** What a write does to a finite map: a prune takes expired items away, all of
    them when it never meets a busy database, and nothing else. *)
Definition map_step (m : gmap string T) (x : persistent_write) (m' : gmap string T) : Prop :=
  match x.1 with
  | WPrune expired => swept_items expired m m' ∧ ((∀ i, x.2 i = false) → m' = map_write m x.1)
  | w => m' = map_write m w
  end.

Fixpoint map_steps (m : gmap string T) (xs : list persistent_write) (m' : gmap string T) : Prop :=
  match xs with
  | [] => m' = m
  | x :: xs => ∃ m1, map_step m x m1 ∧ map_steps m1 xs m'
  end.

(** The write as the blobs keep it: each value it stores is read back. *)
Definition through (keep : T → T) (x : persistent_write) : persistent_write :=
  (match x.1 with
   | WPut id v => WPut id (keep v)
   | WUpdate id fn => WUpdate id (λ v, keep (fn v))
   | WUpsert id fn => WUpsert id (λ v, keep (fn v))
   | w => w
   end, x.2).

Context (keep : T → T) (Hcodec : codec_keeps keep marshal unmarshal).
Abbreviation decoded := (Sqlite.decoded unmarshal).
Abbreviation table_ok := (Sqlite.table_ok unmarshal).

(** The prunes of the sequence look only at what the blobs keep. *)
Definition prunes_ok (x : persistent_write) : Prop :=
  match x.1 with WPrune expired => reads_kept keep expired | _ => True end.

(** Writes that keep a store well-formed and act on its contents as on a map do
    so in any number. *)
Lemma write_all_refines {S} (write : S → persistent_write → option S) (ok : S → Prop) (map_of : S → gmap string T)
    (good : persistent_write → Prop) (f : persistent_write → persistent_write) s xs :
  (∀ s x, ok s → good x → ∃ s', write s x = Some s' ∧ ok s' ∧ map_step (map_of s) (f x) (map_of s')) →
  ok s → Forall good xs →
  ∃ s', write_all write s xs = Some s' ∧ ok s' ∧ map_steps (map_of s) (f <$> xs) (map_of s').
Proof.
  intros Hw Hs Hxs. revert s Hs. induction Hxs as [|x xs Hx _ IH]; intros s Hs; [by exists s|]. csimpl.
  destruct (Hw s x Hs Hx) as (s1 & -> & Hs1 & Hm). destruct (IH s1 Hs1) as (s' & -> & ? & ?). exists s'. eauto.
Qed.

Lemma swept_decoded expired m m' :
  table_ok m → swept unmarshal expired m m' → swept_items expired (decoded m) (decoded m').
Proof.
  intros Ht [Hs He]. split.
  - apply map_subseteq_spec. intros k v. rewrite !decoded_lookup. intros (d & Hd & Hv)%bind_Some.
    by rewrite (lookup_weaken _ _ _ _ Hd Hs).
  - intros k v. rewrite !decoded_lookup. intros (d & Hd & Hv)%bind_Some Hn.
    assert (m' !! k = None) as Hk.
    { destruct (m' !! k) as [d'|] eqn:E; [|done]. pose proof (lookup_weaken _ _ _ _ E Hs). simplify_eq. simpl in Hn. congruence. }
    specialize (He k d Hd Hk). unfold row_expired, Sqlite.decode in He. by rewrite Hv in He.
Qed.

Lemma prune_loop_ext fuel (b b' : nat → bool) n c s a (expired : T → bool) pruned :
  (∀ i, b i = b' i) → prune_loop unmarshal fuel b n c s a expired pruned = prune_loop unmarshal fuel b' n c s a expired pruned.
Proof.
  intros Hb. revert n c s a pruned. induction fuel as [|fuel IH]; intros n c s a pruned; simpl; [done|]. rewrite !Hb.
  destruct (b' n); [done|]. destruct (pruneScan _ _ _ _) as [[keys doomed]|]; [|done]. destruct (last keys); [|done].
  destruct doomed; [by rewrite IH|]. destruct (deleteExpired _ _ _ _ _ _) as [[[] [? []]]|]; [done|by rewrite IH|done].
Qed.

Lemma sqlite_write_refines w x :
  table_ok (rows w.2) →
  ∃ w', sqlite_write w x = Some w' ∧ table_ok (rows w'.2) ∧ map_step (decoded (rows w.2)) (through keep x) (decoded (rows w'.2)).
Proof.
  destruct w as [c s], x as [x busy]. intros Hs. simpl in Hs. destruct x as [id v|id|id fn|id fn|f]; unfold sqlite_write, map_step; simpl.
  - destruct (Put_total marshal unmarshal keep Hcodec c s id v Hs) as (c' & s' & -> & H). by exists (c', s').
  - destruct (Delete_total unmarshal c s id Hs) as (D1 & D2 & _). eexists. split; [done|]. by split.
  - destruct (Update_total marshal unmarshal keep Hcodec c s id fn Hs) as (c' & s' & -> & H). by exists (c', s').
  - destruct (Upsert_total marshal unmarshal keep Hcodec c s id fn Hs) as (c' & s' & -> & H). by exists (c', s').
  - destruct (prune_loop_swept unmarshal f (S (size (rows s))) busy 0 c s None 0 Hs) as (c' & s' & n & E & H).
    unfold SQLiteStore_Prune. rewrite E. exists (c', s'). split; [done|]. split; [eapply table_ok_sub; [done|apply H]|].
    split; [by apply swept_decoded|]. intros Hb. destruct (Prune_total unmarshal c s f Hs) as (c1 & s1 & E1 & _ & H1).
    unfold SQLiteStore_Prune in E1. rewrite (prune_loop_ext _ _ busy) in E1 by done. rewrite E in E1. by injection E1 as _ -> _.
Qed.

Lemma cached_write_refines w x :
  cached_ok unmarshal keep w.2 → prunes_ok x →
  ∃ w', cached_write w x = Some w' ∧ cached_ok unmarshal keep w'.2 ∧ map_step (items w.2) x (items w'.2).
Proof.
  destruct w as [c s], x as [x busy]. intros Hs Hx. simpl in Hs.
  destruct x as [id v|id|id fn|id fn|f]; unfold cached_write, map_step; simpl.
  - destruct (cached_Put marshal unmarshal keep Hcodec c s id v Hs) as (c' & s' & -> & H). by exists (c', s').
  - destruct (cached_Delete unmarshal keep c s id Hs) as (D1 & D2 & _). eexists. split; [done|]. by split.
  - destruct (cached_Update marshal unmarshal keep Hcodec c s id fn Hs) as (c' & s' & -> & H). by exists (c', s').
  - destruct (cached_Upsert marshal unmarshal keep Hcodec c s id fn Hs) as (c' & s' & -> & H). by exists (c', s').
  - destruct (cached_Prune unmarshal keep busy c s f Hs Hx) as (c' & s' & n & -> & ? & ? & Hf). exists (c', s').
    split; [done|]. split; [done|]. split; [done|]. intros Hb. by destruct (Hf Hb).
Qed.

(** Both stores over any codec that can read what it writes. *)
Lemma stores_refine_map c table xs :
  table_ok table → Forall prunes_ok xs →
  (∃ w m, write_all sqlite_write (NewSQLiteStore c table) xs = Some w ∧ map_steps (decoded table) (through keep <$> xs) m ∧
     (∀ id, SQLiteStore_Get unmarshal w.2 id = Some (m !! id)) ∧ SQLiteStore_Len w.2 = size m ∧
     ∀ p, ∃ l, SQLiteStore_ListPrefix unmarshal w.2 p = Some l ∧ prefix_listing m p l) ∧
  (∃ w0 w m, NewCachedSQLiteStore unmarshal c table = Some w0 ∧ write_all cached_write w0 xs = Some w ∧ map_steps (decoded table) xs m ∧
     (∀ id, CachedSQLiteStore_Get w.2 id = m !! id) ∧ CachedSQLiteStore_Len w.2 = size m ∧
     (∀ p, prefix_listing m p (CachedSQLiteStore_ListPrefix w.2 p)) ∧
     ∀ c', ∃ w', NewCachedSQLiteStore unmarshal c' (rows (disk w.2)) = Some w' ∧ backs keep m (items w'.2)).
Proof.
  intros Ht Hxs. split.
  - destruct (write_all_refines sqlite_write (λ w, table_ok (rows w.2)) (λ w, decoded (rows w.2)) (λ _, True) (through keep)
      (NewSQLiteStore c table) xs) as (w & E & Hok & Em); [intros; by apply sqlite_write_refines|done|by apply Forall_true|].
    exists w, (decoded (rows w.2)). split_and!; [done|done|..].
    + intros id. by apply Get_total.
    + symmetry. by apply decoded_size.
    + intros p. by apply ListPrefix_total.
  - destruct (NewCached_ok unmarshal keep c table Ht) as (c0 & s0 & E0 & Hok0 & Ei & _).
    destruct (write_all_refines cached_write (λ w, cached_ok unmarshal keep w.2) (λ w, items w.2) prunes_ok id (c0, s0) xs)
      as (w & E & Hok & Em); [by apply cached_write_refines|done|done|]. simpl in Em. rewrite Ei, list_fmap_id in Em.
    exists (c0, s0), w, (items w.2). split_and!; [done|done|done|done|done| |].
    + intros p. exact (ListPrefix_spec (memory w.2) p (ck_order _ _ _ Hok)).
    + intros c'. destruct (NewCached_ok unmarshal keep c' (rows (disk w.2)) (ck_table _ _ _ Hok)) as (c1 & s1 & E1 & _ & Ei1 & _).
      exists (c1, s1). split; [done|]. simpl. rewrite Ei1. apply Hok.
Qed.
End Life.

(** ** Values as the stores keep them *)

(** The zero struct. *)
#[local] Instance struct_zero {V} : GoZero (gmap string V) := (∅ : gmap string V).

(** What a value reads back as. *)
Definition reread {V} (fields : list StructField) (zero_field : V) json_struct struct_of json_field field_of json_envelope
    envelope_of (v : gmap string V) : gmap string V :=
  default v (marshalPersistentValue fields json_struct json_field json_envelope zero_field v ≫=
             unmarshalPersistentValue fields struct_of field_of envelope_of).

(** [C3] The persistent stores, over the blobs of [marshalPersistentValue] and
    with [encoding/json] as it is documented, opened over any table whose rows
    decode. They go through any sequence of writes without a panic, prunes that
    meet a busy database included. The SQLite store then answers as the finite
    map those writes build from the table when every value written is first
    read back, which zeroes unexported and disposable fields and keeps all
    others; the cached store answers as the map of the values as they were
    written. [Get] looks an id up, [Len] counts, [ListPrefix] returns exactly
    the rows whose id has the prefix, in id order. A prune takes expired items
    away and nothing else, and every expired one unless it met a busy database;
    its predicate is taken not to look at what reading back zeroes. What the
    cached store wrote is on disk: a process that opens its table again finds
    the same ids, each with its value or what that reads back as. *)
Theorem persistent_stores_refine_map {V} (fields : list StructField) (zero_field : V)
    json_struct struct_of json_field field_of json_envelope envelope_of
    (c : Z) (table : gmap string string) (xs : list (store_write (T:=gmap string V) * (nat → bool))) :
  let marshal := marshalPersistentValue fields json_struct json_field json_envelope zero_field in
  let unmarshal := unmarshalPersistentValue fields struct_of field_of envelope_of in
  let keep := reread fields zero_field json_struct struct_of json_field field_of json_envelope envelope_of in
  json_ok fields zero_field json_struct struct_of json_field field_of json_envelope envelope_of →
  table_ok unmarshal table → Forall (prunes_ok keep) xs →
  (∀ v n, value zero_field (keep v) n = if named fields kept n then value zero_field v n else zero_field) ∧
  (∃ w m, write_all (sqlite_write marshal unmarshal) (NewSQLiteStore c table) xs = Some w ∧
     map_steps (decoded unmarshal table) (through keep <$> xs) m ∧
     (∀ id, SQLiteStore_Get unmarshal w.2 id = Some (m !! id)) ∧ SQLiteStore_Len w.2 = size m ∧
     ∀ p, ∃ l, SQLiteStore_ListPrefix unmarshal w.2 p = Some l ∧ prefix_listing m p l) ∧
  (∃ w0 w m, NewCachedSQLiteStore unmarshal c table = Some w0 ∧ write_all (cached_write marshal unmarshal) w0 xs = Some w ∧
     map_steps (decoded unmarshal table) xs m ∧
     (∀ id, CachedSQLiteStore_Get w.2 id = m !! id) ∧ CachedSQLiteStore_Len w.2 = size m ∧
     (∀ p, prefix_listing m p (CachedSQLiteStore_ListPrefix w.2 p)) ∧
     ∀ c', ∃ w', NewCachedSQLiteStore unmarshal c' (rows (disk w.2)) = Some w' ∧ backs keep m (items w'.2)).
Proof.
  intros marshal unmarshal keep Hj Ht Hxs. pose proof (envelope_roundtrip _ _ _ _ _ _ _ _ Hj) as Hr.
  assert (∀ v, ∃ data, marshal v = Some data ∧ unmarshal data = Some (keep v) ∧
    ∀ n, value zero_field (keep v) n = if named fields kept n then value zero_field v n else zero_field) as Hk.
  { intros v. destruct (Hr v) as (data & out & E1 & E2 & E3). exists data. unfold keep, reread. rewrite E1. simpl. by rewrite E2. }
  split; [intros v; by destruct (Hk v) as (? & _ & _ & ?)|].
  apply stores_refine_map; [|done|done]. intros v. destruct (Hk v) as (data & ? & ? & _). by exists data.
Qed.

Definition w_value (name secret : string) : gmap string string := list_to_map [("Name", name); ("Secret", secret)].
Definition w_rename (v : gmap string string) : gmap string string := <["Name":="new"]> v.
Definition w_writes : list (store_write * (nat → bool)) :=
  [(WPut "b" (w_value "x" "s"), λ _, false); (WUpdate "b" w_rename, λ _, false); (WDelete "a", λ _, false);
   (WPrune (λ _, true), λ _, true)].

Lemma persistent_stores_refine_map_witness :
  ∃ w0 w m, NewCachedSQLiteStore (unmarshalPersistentValue w_fields w_struct_of Some w_envelope_of) 7 {[ "a" := "old" ]} = Some w0 ∧
    write_all (cached_write (marshalPersistentValue w_fields w_struct Some w_envelope "")
      (unmarshalPersistentValue w_fields w_struct_of Some w_envelope_of)) w0 w_writes = Some w ∧
    (∀ id, CachedSQLiteStore_Get w.2 id = m !! id) ∧ swept_items (λ _, true) {[ "b" := w_value "new" "s" ]} m.
Proof.
  destruct (persistent_stores_refine_map w_fields "" w_struct w_struct_of Some Some w_envelope w_envelope_of 7 {[ "a" := "old" ]} w_writes)
    as (_ & _ & w0 & w & m & E1 & E2 & (m1 & E3 & m2 & E4 & m3 & E5 & m4 & E6 & E7) & E8 & _).
  - exact w_json_ok.
  - intros k d [<- <-]%lookup_singleton_Some. exists {[ "Name" := "old" ]}. vm_compute. reflexivity.
  - by repeat constructor.
  - exists w0, w, m. split_and!; [done|done|done|..]; unfold map_step in *; simpl in *; destruct E6 as [E6 _]; subst.
    all: match type of E6 with swept_items _ ?a _ => replace a with ({[ "b" := w_value "new" "s" ]} : gmap string (gmap string string)) in E6
      by (vm_compute; reflexivity) end; apply E6.
Defined.
