(* ===== verification/Eventbus.v ===== *)
(** * Event fan-out: [src/sim/eventbus/eventbus.go]

    A [Bus] hands published events to the subscriptions that admit them, batched
    and transformed, either to a sink or to a dispatcher. The cloud's callbacks
    are functions of the configuration; what the bus does to the outside is a
    trace of calls, in order. [sim.NewUUID] is a supply of identities. *)

From S2P Require Import Prelude.

Record Limits := MkLimits { MaxEvents : Z; MaxBytes : Z }.

(** The loop of [Batches]: the batches so far, the open batch, its bytes. *)
Fixpoint batch_loop {E} (limits : Limits) (size : option (E → Z)) (events : list E)
    (batches : list (list E)) (current : list E) (bytes : Z) : list (list E) :=
  match events with
  | [] => if bool_decide (current = []) then batches else batches ++ [current]
  | event :: events =>
      let n := match size with Some f => f event | None => 0 end in
      let full := (Z.of_nat (length current) =? Z.max (MaxEvents limits) 1)
                  || ((0 <? MaxBytes limits) && (MaxBytes limits <? i64 (bytes + n))) in
      if negb (bool_decide (current = [])) && full
      then batch_loop limits size events (batches ++ [current]) [event] (i64 (0 + n))
      else batch_loop limits size events batches (current ++ [event]) (i64 (bytes + n))
  end.

Definition Batches {E} (events : list E) (limits : Limits) (size : option (E → Z)) : list (list E) :=
  batch_loop limits size events [] [] 0.

Section Bus.
Context {E S P : Type}.

Record Config := MkConfig {
  Subscriptions : string → list S;
  Admits : option (S → E → bool);
  Batch : option (S → Limits);
  Size : option (E → Z);
  Transform : option (S → list E → option P);
  HasArchive : bool;
  HasSink : bool;
  HasDelivery : bool;
  Inline : option (P → bool)
}.

(** What the bus calls: the archive, the sink, and the dispatcher's [Submit] or
    [SubmitAttempted]. *)
Inductive call :=
| Archived (source : string) (event : E)
| Sunk (sub : S) (payload : P)
| Submitted (id : string) (payload : P)
| SubmittedAttempted (id : string) (payload : P).

Record Result := MkResult { rs_Subscriptions : Z; rs_Deliveries : Z }.

(** [New] panics without a transformation, or without exactly one of a sink and
    a delivery. *)
Definition New (cfg : Config) : option Config :=
  match Transform cfg with
  | None => None
  | Some _ => if Bool.eqb (HasSink cfg) (HasDelivery cfg) then None else Some cfg
  end.

Context (NewUUID : nat → string).

(** State threaded through a fan-out: identities used, calls made, counts. *)
Record st := MkSt { used : nat; calls : list call; result_ : Result }.

Definition submit (cfg : Config) (s : st) (id : string) (payload : P) : st :=
  let attempted := match Inline cfg with Some f => f payload | None => false end in
  MkSt (used s) (calls s ++ [if attempted then SubmittedAttempted id payload else Submitted id payload]) (result_ s).

Fixpoint deliver_batches (cfg : Config) (transform : S → list E → option P) (sub : S) (batches : list (list E)) (s : st) : st :=
  match batches with
  | [] => s
  | batch :: batches =>
      match transform sub batch with
      | None => deliver_batches cfg transform sub batches s
      | Some payload =>
          let s := MkSt (used s) (calls s)
                     (MkResult (rs_Subscriptions (result_ s)) (rs_Deliveries (result_ s) + 1)) in
          let s := if HasSink cfg then MkSt (used s) (calls s ++ [Sunk sub payload]) (result_ s)
                   else submit cfg (MkSt (used s + 1) (calls s) (result_ s)) (NewUUID (used s)) payload in
          deliver_batches cfg transform sub batches s
      end
  end.

Definition admitted (cfg : Config) (filter_ : bool) (sub : S) (events : list E) : list E :=
  match Admits cfg with
  | Some f => if filter_ then List.filter (f sub) events else events
  | None => events
  end.

Fixpoint fan_subs (cfg : Config) (transform : S → list E → option P) (subs : list S) (events : list E) (filter_ : bool) (s : st) : st :=
  match subs with
  | [] => s
  | sub :: subs =>
      let adm := admitted cfg filter_ sub events in
      if bool_decide (adm = []) then fan_subs cfg transform subs events filter_ s
      else
        let s := MkSt (used s) (calls s) (MkResult (rs_Subscriptions (result_ s) + 1) (rs_Deliveries (result_ s))) in
        let limits := match Batch cfg with Some f => f sub | None => MkLimits 0 0 end in
        fan_subs cfg transform subs events filter_
          (deliver_batches cfg transform sub (Batches adm limits (Size cfg)) s)
  end.

Definition fanOut (cfg : Config) (subs : list S) (events : list E) (filter_ : bool) (s : st) : st :=
  match Transform cfg with
  | Some transform => fan_subs cfg transform subs events filter_ (MkSt (used s) (calls s) (MkResult 0 0))
  | None => s
  end.

Definition Publish (cfg : Config) (source : string) (events : list E) (s : st) : st :=
  let s := if HasArchive cfg then MkSt (used s) (calls s ++ map (Archived source) events) (result_ s) else s in
  fanOut cfg (Subscriptions cfg source) events true s.

Definition Replay (cfg : Config) (source : string) (events : list E) (only : option (S → bool)) (s : st) : st :=
  let subs := Subscriptions cfg source in
  let subs := match only with Some f => List.filter f subs | None => subs end in
  fanOut cfg subs events true s.

Definition DeliverTo (cfg : Config) (subs : list S) (events : list E) (s : st) : st :=
  fanOut cfg subs events false s.

(** [Submit] panics on a bus without a dispatcher. *)
Definition Submit (cfg : Config) (payload : P) (s : st) : option (st * string) :=
  if HasDelivery cfg
  then Some (submit cfg (MkSt (used s + 1) (calls s) (result_ s)) (NewUUID (used s)) payload, NewUUID (used s))
  else None.
End Bus.

(** ** Batches *)

Definition event_size {E} (size : option (E → Z)) (event : E) : Z := match size with Some f => f event | None => 0 end.
Definition total_size {E} (size : option (E → Z)) (events : list E) : Z := foldr (λ e n, event_size size e + n) 0 events.

Lemma total_size_app {E} (size : option (E → Z)) a b : total_size size (a ++ b) = total_size size a + total_size size b.
Proof. induction a as [|e a IH]; simpl; [done|]. unfold total_size in *. simpl. rewrite IH. lia. Qed.

(** A batch within the limits; an event over the byte limit travels alone. *)
Record batch_ok {E} (limits : Limits) (size : option (E → Z)) (b : list E) : Prop := {
  bo_some : b ≠ [];
  bo_events : Z.of_nat (length b) ≤ Z.max (MaxEvents limits) 1;
  bo_bytes : 0 < MaxBytes limits → total_size size b ≤ MaxBytes limits ∨ length b = 1%nat
}.

Lemma batch_loop_spec {E} limits (size : option (E → Z)) events : ∀ batches current,
  (∀ e, 0 ≤ event_size size e) → total_size size current + total_size size events < 2 ^ 63 →
  Forall (batch_ok limits size) batches → (current = [] ∨ batch_ok limits size current) →
  let r := batch_loop limits size events batches current (total_size size current) in
  concat r = concat batches ++ current ++ events ∧ Forall (batch_ok limits size) r.
Proof.
  assert (∀ l, (∀ e, 0 ≤ event_size size e) → 0 ≤ total_size size l) as Hpos.
  { induction l as [|e l IH]; intros H; [done|]. specialize (IH H). specialize (H e). unfold total_size in *. simpl. lia. }
  induction events as [|event events IH]; intros batches current Hsz Hsum Hb Hc; cbn [batch_loop].
  { destruct (bool_decide_reflect (current = [])) as [->|Hne]; [by rewrite !app_nil_r|].
    rewrite concat_app. simpl. rewrite !app_nil_r. split; [done|]. apply Forall_app. split; [done|].
    destruct Hc; [done|by constructor]. }
  pose proof (Hpos current Hsz). pose proof (Hpos events Hsz). pose proof (Hsz event) as He.
  change (total_size size (event :: events)) with (event_size size event + total_size size events) in Hsum.
  fold (event_size size event).
  rewrite (i64_id (0 + event_size size event)) by (unfold in_i64; lia).
  rewrite (i64_id (total_size size current + event_size size event)) by (unfold in_i64; lia).
  set (full := _ || _).
  assert (total_size size [event] = event_size size event) as E1 by (unfold total_size; simpl; lia).
  destruct (negb (bool_decide (current = [])) && full) eqn:Ef.
  - apply andb_true_iff in Ef as [Ene _]. bools.
    replace (0 + event_size size event) with (total_size size [event]) by lia.
    destruct (IH (batches ++ [current]) [event]) as [I1 I2]; [done|rewrite E1; lia| | |].
    + apply Forall_app. split; [done|]. destruct Hc; [done|by constructor].
    + right. split; [done|simpl; lia|intros _; by right].
    + split; [|done]. rewrite I1, concat_app. simpl. by rewrite app_nil_r, <- !app_assoc.
  - replace (total_size size current + event_size size event) with (total_size size (current ++ [event]))
      by (rewrite total_size_app, E1; lia).
    destruct (IH batches (current ++ [event])) as [I1 I2]; [done|rewrite total_size_app, E1; lia|done| |].
    + right. destruct (decide (current = [])) as [->|Hne].
      { split; [done|simpl; lia|intros _; by right]. }
      rewrite bool_decide_eq_false_2 in Ef by done. simpl in Ef. unfold full in Ef. bools. destruct Hc as [|[_ B2 _]]; [done|].
      split; [by destruct current| |].
      * rewrite length_app. simpl. lia.
      * intros Hm. left. rewrite total_size_app, E1. destruct H2; bools; lia.
    + split; [|done]. rewrite I1. by rewrite <- !app_assoc.
Qed.

Lemma Batches_spec {E} (events : list E) limits size :
  (∀ e, 0 ≤ event_size size e) → total_size size events < 2 ^ 63 →
  concat (Batches events limits size) = events ∧ Forall (batch_ok limits size) (Batches events limits size).
Proof.
  intros Hsz Hsum. destruct (batch_loop_spec limits size events [] []) as [H1 H2]; [done|done|constructor|by left|].
  split; [exact H1|exact H2].
Qed.

(** ** Fan-out *)

Section fan_out.
Context {E S P : Type} (NewUUID : nat → string) (cfg : @Config E S P) (transform : S → list E → option P).

(** The payloads one subscription gets, in order. *)
Definition sub_payloads (filter_ : bool) (events : list E) (sub : S) : list (S * P) :=
  omap (λ b, (pair sub) <$> transform sub b)
    (Batches (admitted cfg filter_ sub events)
       (match Batch cfg with Some f => f sub | None => MkLimits 0 0 end) (Size cfg)).

(** The calls that carry payloads out, the first identity being number [n]. *)
Fixpoint out_calls (n : nat) (l : list (S * P)) : list (@call E S P) :=
  match l with
  | [] => []
  | x :: l =>
      (if HasSink cfg then Sunk x.1 x.2
       else if match Inline cfg with Some f => f x.2 | None => false end
            then SubmittedAttempted (NewUUID n) x.2 else Submitted (NewUUID n) x.2)
      :: out_calls (n + 1) l
  end.

Lemma out_calls_app n a b : out_calls n (a ++ b) = out_calls n a ++ out_calls (n + length a) b.
Proof.
  revert n. induction a as [|x a IH]; intros n; simpl; [by rewrite Nat.add_0_r|].
  rewrite IH. do 3 f_equal. lia.
Qed.

Lemma out_calls_sink n n' l : HasSink cfg = true → out_calls n l = out_calls n' l.
Proof. intros H. revert n n'. induction l as [|x l IH]; intros n n'; simpl; [done|]. rewrite H. f_equal. apply IH. Qed.

(** A state after some payloads went out. *)
Definition sent (s : @st E S P) (l : list (S * P)) (subs : Z) : @st E S P :=
  MkSt (if HasSink cfg then used s else used s + length l)%nat (calls s ++ out_calls (used s) l)
    (MkResult (rs_Subscriptions (result_ s) + subs) (rs_Deliveries (result_ s) + Z.of_nat (length l))).

Lemma sent_sent s a b n m : sent (sent s a n) b m = sent s (a ++ b) (n + m).
Proof.
  unfold sent. simpl. rewrite out_calls_app, length_app, <- app_assoc. f_equal.
  - destruct (HasSink cfg); lia.
  - do 2 f_equal. destruct (HasSink cfg) eqn:Es; [|done]. by apply out_calls_sink.
  - f_equal; lia.
Qed.

Lemma sent_nil s : sent s [] 0 = s.
Proof. unfold sent. destruct s as [u c [a b]]. simpl. rewrite app_nil_r. f_equal; [destruct (HasSink cfg); lia|f_equal; lia]. Qed.

Lemma deliver_batches_spec sub batches s :
  deliver_batches NewUUID cfg transform sub batches s = sent s (omap (λ b, (pair sub) <$> transform sub b) batches) 0.
Proof.
  revert s. induction batches as [|b batches IH]; intros s; cbn [deliver_batches]; [by rewrite sent_nil|].
  csimpl. destruct (transform sub b) as [p|]; csimpl; [|apply IH].
  rewrite IH. change ((sub, p) :: ?l) with ([(sub, p)] ++ l).
  rewrite <- (Z.add_0_l 0) at 2. rewrite <- sent_sent. f_equal.
  unfold sent, submit. simpl. destruct (HasSink cfg) eqn:Es; simpl; f_equal; try lia; f_equal; lia.
Qed.

Lemma fan_subs_spec subs events filter_ s :
  fan_subs NewUUID cfg transform subs events filter_ s =
    sent s (concat (map (sub_payloads filter_ events) subs))
      (Z.of_nat (length (List.filter (λ sub, negb (bool_decide (admitted cfg filter_ sub events = []))) subs))).
Proof.
  revert s. induction subs as [|sub subs IH]; intros s; cbn [fan_subs map concat List.filter]; [by rewrite sent_nil|].
  destruct (bool_decide_reflect (admitted cfg filter_ sub events = [])) as [E0|E0]; cbn [negb].
  - rewrite IH. f_equal. unfold sub_payloads at 2. by rewrite E0.
  - rewrite IH, deliver_batches_spec. fold (sub_payloads filter_ events sub).
    rewrite sent_sent. unfold sent. simpl. f_equal. f_equal. lia.
Qed.
End fan_out.

Lemma filter_size {E} (size : option (E → Z)) (f : E → bool) l :
  (∀ e, 0 ≤ event_size size e) → total_size size (List.filter f l) ≤ total_size size l.
Proof.
  intros H. induction l as [|e l IH]; simpl; [done|]. specialize (H e). unfold total_size in *.
  destruct (f e); simpl; lia.
Qed.

(** A publish archives every event once and then gives each subscription,
    in order, the events it admits: cut into batches that hold each admitted
    event exactly once and in order, none empty or over the limits except a
    single event that is over the byte limit by itself, one call per batch the
    transformation keeps, to the sink or under a fresh identity to the
    dispatcher, and nothing else; the counts it returns are those of the calls
    and of the subscriptions reached. A replay does the same for the
    subscriptions it selects and archives nothing. *)
Theorem fan_out_is_complete {E S P} (NewUUID : nat → string) (cfg : @Config E S P) transform
    (source : string) (events : list E) (only : option (S → bool)) (s : @st E S P) :
  New cfg = Some cfg → Transform cfg = Some transform →
  (∀ e, 0 ≤ event_size (Size cfg) e) → total_size (Size cfg) events < 2 ^ 63 →
  let subs := Subscriptions cfg source in
  let out := concat (map (sub_payloads cfg transform true events) subs) in
  let s' := Publish NewUUID cfg source events s in
  calls s' = calls s ++ (if HasArchive cfg then map (Archived source) events else []) ++ out_calls NewUUID cfg (used s) out ∧
  rs_Deliveries (result_ s') = Z.of_nat (length out) ∧
  rs_Subscriptions (result_ s') =
    Z.of_nat (length (List.filter (λ sub, negb (bool_decide (admitted cfg true sub events = []))) subs)) ∧
  (∀ sub limits, let batches := Batches (admitted cfg true sub events) limits (Size cfg) in
     concat batches = admitted cfg true sub events ∧ Forall (batch_ok limits (Size cfg)) batches) ∧
  calls (Replay NewUUID cfg source events only s) =
    calls s ++ out_calls NewUUID cfg (used s)
      (concat (map (sub_payloads cfg transform true events)
         (match only with Some f => List.filter f subs | None => subs end))).
Proof.
  intros _ Ht Hsz Hsum subs out s'.
  unfold s', Publish, Replay, fanOut. rewrite Ht, !fan_subs_spec. fold subs out. unfold sent. simpl.
  split_and!.
  - destruct (HasArchive cfg); simpl; [by rewrite <- app_assoc|done].
  - lia.
  - lia.
  - intros sub limits. apply Batches_spec; [done|]. unfold admitted. destruct (Admits cfg) as [f|]; [|done].
    pose proof (filter_size (Size cfg) (f sub) events Hsz). lia.
  - done.
Qed.

Definition w_cfg : @Config Z string (list Z) :=
  MkConfig (λ _, ["even"; "all"]) (Some (λ sub e, bool_decide (sub = "all") || Z.even e))
    (Some (λ _, MkLimits 2 0)) None (Some (λ _ b, Some b)) true false true None.

Lemma fan_out_is_complete_witness :
  calls (Publish (λ n, pad 3 (Z.of_nat n)) w_cfg "bus" [1; 2; 4; 6] (MkSt 0 [] (MkResult 0 0))) =
    map (Archived "bus") [1; 2; 4; 6] ++
    [Submitted "000" [2; 4]; Submitted "001" [6]; Submitted "002" [1; 2]; Submitted "003" [4; 6]].
Proof.
  destruct (fan_out_is_complete (λ n, pad 3 (Z.of_nat n)) w_cfg (λ _ b, Some b) "bus" [1; 2; 4; 6] None
    (MkSt 0 [] (MkResult 0 0))) as [H _].
  - reflexivity.
  - reflexivity.
  - intros e. simpl. lia.
  - vm_compute. reflexivity.
  - rewrite H. vm_compute. reflexivity.
Defined.
