(* ===== verification/Netrules.v ===== *)
(** * Packet rules: [src/sim/netrules/rules.go]

    Port specifications, the expansion of a cloud's rule into packet rules, and
    the order in which a prioritized rule set is evaluated. Error texts are not
    modelled. *)

From S2P Require Import Prelude Gostd.

Record PacketRule := MkRule {
  Protocol : string; SourceCIDR : string; FromPort : Z; ToPort : Z; Action : string
}.

Definition parsePort (s : string) : option Z :=
  match Atoi (TrimSpace s) with
  | Some n => if (n <? 0) || (65535 <? n) then None else Some n
  | None => None
  end.

Definition PortRange (spec : string) : option (Z * Z) :=
  let spec := TrimSpace spec in
  if bool_decide (spec = "") || bool_decide (spec = "*") then Some (0, 0)
  else
    let (lo, hi) := match Cut spec "-" with Some (lo, hi) => (lo, hi) | None => (spec, spec) end in
    match parsePort lo, parsePort hi with
    | Some from, Some to => if to <? from then None else Some (from, to)
    | _, _ => None
    end.

Fixpoint parse_ranges (ports : list string) : option (list (Z * Z)) :=
  match ports with
  | [] => Some []
  | port :: ports =>
      match PortRange port with
      | Some r => (cons r) <$> parse_ranges ports
      | None => None
      end
  end.

Definition ExpandRules (protocol : string) (sources ports : list string) (action : string) : option (list PacketRule) :=
  let ports := if bool_decide (ports = []) then [""] else ports in
  match parse_ranges ports with
  | None => None
  | Some ranges =>
      Some (source ← sources; r ← ranges; [MkRule protocol source r.1 r.2 action])
  end.

Record PrioritizedRule := MkPrioritized { Priority : Z; Rule : PacketRule }.

(** [strings.EqualFold(action, "drop")]: no character outside ASCII folds to a
    letter of drop. *)
Definition lower_char (c : ascii) : ascii :=
  let b := byte_of c in if (65 <=? b) && (b <=? 90) then char_of (b + 32) else c.
Definition isDrop (rule : PacketRule) : bool :=
  bool_decide (text (map lower_char (chars (Action rule))) = "drop").

Definition rule_less (a b : PrioritizedRule) : bool :=
  if negb (Priority a =? Priority b) then Priority a <? Priority b
  else isDrop (Rule a) && negb (isDrop (Rule b)).

Definition FlattenByPriority (rules : list PrioritizedRule) : list PacketRule :=
  map Rule (SliceStable rule_less rules).

(** ** First match *)

(** Where a rule stands: its priority, drops before the others. *)
Definition rank (r : PrioritizedRule) : Z := Priority r * 2 + (if isDrop (Rule r) then 0 else 1).

Lemma rule_less_rank a b : rule_less a b = (rank a <? rank b).
Proof.
  unfold rule_less, rank. destruct (Z.eqb_spec (Priority a) (Priority b)) as [E|E]; cbn [negb].
  - rewrite E. destruct (isDrop (Rule a)), (isDrop (Rule b)); simpl; symmetry;
      [apply Z.ltb_ge|apply Z.ltb_lt|apply Z.ltb_ge|apply Z.ltb_ge]; lia.
  - destruct (Z.ltb_spec (Priority a) (Priority b)); symmetry; [apply Z.ltb_lt|apply Z.ltb_ge];
      destruct (isDrop (Rule a)), (isDrop (Rule b)); lia.
Qed.

Lemma flatten_sorted rules : StronglySorted (λ a b, rank a ≤ rank b) (SliceStable rule_less rules).
Proof.
  eapply StronglySorted_impl; [|apply SliceStable_sorted]; unfold not_after.
  - intros a b. rewrite rule_less_rank, Z.ltb_ge. done.
  - intros a b. rewrite !rule_less_rank, Z.ltb_lt, Z.ltb_ge. lia.
  - intros a b c. rewrite !rule_less_rank, !Z.ltb_ge. lia.
Qed.

Lemma find_sorted {A} (f : A → bool) (key : A → Z) l x :
  StronglySorted (λ a b, key a ≤ key b) l → find f l = Some x →
  x ∈ l ∧ f x = true ∧ ∀ y, y ∈ l → f y = true → key x ≤ key y.
Proof.
  induction 1 as [|a l Hl IH Ha]; [done|]. simpl. rewrite Forall_forall in Ha. destruct (f a) eqn:E.
  - intros [= <-]. split_and!; [left|done|]. intros y [->|Hy]%elem_of_cons _; [lia|by apply Ha].
  - intros Hf. destruct (IH Hf) as (H1 & H2 & H3). split_and!; [by right|done|].
    intros y [->|Hy]%elem_of_cons Hfy; [congruence|auto].
Qed.

(** Stability of the sort, and so of the evaluation order. *)
Lemma flatten_stable rules z :
  filter (λ r, rank r = z) (SliceStable rule_less rules) = filter (λ r, rank r = z) rules.
Proof.
  apply SliceStable_stable. intros a b Ha Hb. rewrite rule_less_rank. apply Z.ltb_ge. lia.
Qed.

Lemma find_fmap {A B} (g : A → B) (f : B → bool) l : find f (map g l) = g <$> find (λ x, f (g x)) l.
Proof. induction l as [|x l IH]; simpl; [done|]. by destruct (f (g x)). Qed.

(** Evaluating the flattened rules first match decides as the clouds do:
    the rule that applies to a packet is a matching rule of the lowest priority
    value, a drop if any matching rule of that priority drops, the first such
    rule in the order written; and no rule applies only when none matches. The
    flattened list holds the same rules. *)
Theorem first_match_by_priority (rules : list PrioritizedRule) (matches : PacketRule → bool) :
  FlattenByPriority rules ≡ₚ map Rule rules ∧
  match find matches (FlattenByPriority rules) with
  | None => ∀ r, r ∈ rules → matches (Rule r) = false
  | Some rule => ∃ r, Rule r = rule ∧ r ∈ rules ∧ matches rule = true ∧
      (∀ r', r' ∈ rules → matches (Rule r') = true →
         Priority r ≤ Priority r' ∧ (Priority r = Priority r' → isDrop (Rule r') = true → isDrop rule = true)) ∧
      find (λ x, matches (Rule x)) (filter (λ x, rank x = rank r) rules) = Some r
  end.
Proof.
  split; [unfold FlattenByPriority; by rewrite SliceStable_perm|].
  unfold FlattenByPriority. rewrite find_fmap.
  destruct (find (λ x, matches (Rule x)) (SliceStable rule_less rules)) as [r|] eqn:Ef; simpl.
  - destruct (find_sorted _ rank _ _ (flatten_sorted rules) Ef) as (Hin & Hm & Hmin).
    exists r. rewrite SliceStable_perm in Hin. split_and!; [done|done|done|..].
    + intros r' Hr' Hm'. specialize (Hmin r'). rewrite SliceStable_perm in Hmin. specialize (Hmin Hr' Hm').
      unfold rank in Hmin. destruct (isDrop (Rule r)), (isDrop (Rule r')); split; (lia || (intros; done || lia)).
    + rewrite <- flatten_stable. clear Hin Hm. revert Ef Hmin. generalize (SliceStable rule_less rules). intros l.
      induction l as [|a l IH]; simpl; [done|]. rewrite filter_cons. destruct (matches (Rule a)) eqn:Ea.
      * intros [= ->] _. rewrite decide_True by done. simpl. by rewrite Ea.
      * intros Hf Hmin. case_decide; simpl; [rewrite Ea|]; apply IH; try done; intros y Hy; apply Hmin; by right.
  - intros r Hr. apply (find_none _ _ Ef). rewrite <- list_elem_of_In, SliceStable_perm. done.
Qed.

Lemma parsePort_range s n : parsePort s = Some n → 0 ≤ n ≤ 65535.
Proof.
  unfold parsePort. destruct (Atoi (TrimSpace s)) as [m|]; [|done].
  destruct (Z.ltb_spec m 0), (Z.ltb_spec 65535 m); intros [= <-]. lia.
Qed.

(** Every port range accepted is a range of ports. *)
Lemma PortRange_range spec from to : PortRange spec = Some (from, to) → 0 ≤ from ≤ to ∧ to ≤ 65535.
Proof.
  unfold PortRange. destruct (_ || _); [intros [= <- <-]; lia|].
  destruct (match Cut (TrimSpace spec) "-" with Some _ => _ | None => _ end) as [lo hi].
  destruct (parsePort lo) as [a|] eqn:E1; [|done]. destruct (parsePort hi) as [b|] eqn:E2; [|done].
  apply parsePort_range in E1, E2. destruct (Z.ltb_spec b a); intros [= <- <-]. lia.
Qed.

(** A rule expands to one packet rule per source and port range. *)
Lemma ExpandRules_spec protocol sources ports action rules :
  ExpandRules protocol sources ports action = Some rules →
  ∀ r, r ∈ rules ↔ Protocol r = protocol ∧ Action r = action ∧ SourceCIDR r ∈ sources ∧
    ∃ port, port ∈ (if bool_decide (ports = []) then [""] else ports) ∧ PortRange port = Some (FromPort r, ToPort r).
Proof.
  unfold ExpandRules. set (ps := if bool_decide (ports = []) then [""] else ports).
  destruct (parse_ranges ps) as [ranges|] eqn:Er; [|done]. intros [= <-] r.
  assert (∀ x, x ∈ ranges ↔ ∃ port, port ∈ ps ∧ PortRange port = Some x) as Hranges.
  { clearbody ps. revert ranges Er. induction ps as [|port ps IH]; intros ranges Er x; simpl in Er.
    - injection Er as <-. split; [by intros ?%not_elem_of_nil|]. by intros (port & ?%not_elem_of_nil & _).
    - destruct (PortRange port) as [y|] eqn:Ep; [|done]. destruct (parse_ranges ps) as [rest|]; [|done].
      injection Er as <-. rewrite elem_of_cons, (IH rest eq_refl). split.
      + intros [->|(q & ? & ?)]; [exists port; split; [left|done]|exists q; split; [by right|done]].
      + intros (q & [->|Hq]%elem_of_cons & Hx); [left; congruence|right; eauto]. }
  rewrite list_elem_of_bind. split.
  - intros (source & H & Hs). apply list_elem_of_bind in H as ([a b] & Hx & Hr).
    apply list_elem_of_singleton in Hx as ->. simpl. split_and!; [done|done|done|]. by apply Hranges.
  - intros (<- & <- & Hs & Hp). exists (SourceCIDR r). split; [|done].
    apply list_elem_of_bind. exists (FromPort r, ToPort r). split; [by destruct r; left|by apply Hranges].
Qed.
