(* ===== verification/Rwmutex.v ===== *)
(** * Read-write mutexes: [sync.RWMutex], as [src/sim/kvstore/locks.go] embeds it

    The table entry of a lock key, [rwEntry]: Go's read-write mutex and a count
    of users. The lemmas say that every operation keeps the mutex consistent
    with what its goroutines own and wait for. *)

From S2P Require Import Prelude.

(** ** The mutex: [sync.RWMutex]

    [wr] holds it for writing; [pend] is the writer that bars new readers while
    the readers in [rd] finish; [waitr] are the readers it bars. A writer that
    finds another one there waits without effect. *)
Record rwEntry := MkEntry {
  wr : option nat; pend : option nat; rd : gset nat; waitr : gset nat; users : Z
}.

Definition new_entry : rwEntry := MkEntry None None ∅ ∅ 0.

Definition RLock (t : nat) (e : rwEntry) : rwEntry * bool :=
  match wr e, pend e with
  | None, None => (MkEntry None None ({[t]} ∪ rd e) (waitr e) (users e), true)
  | _, _ => (MkEntry (wr e) (pend e) (rd e) ({[t]} ∪ waitr e) (users e), false)
  end.

Definition WLock (t : nat) (e : rwEntry) : option (rwEntry * bool) :=
  match wr e, pend e with
  | None, None =>
      if bool_decide (rd e = ∅) then Some (MkEntry (Some t) None ∅ (waitr e) (users e), true)
      else Some (MkEntry None (Some t) (rd e) (waitr e) (users e), false)
  | _, _ => None
  end.

Definition RUnlock (t : nat) (e : rwEntry) : rwEntry :=
  let rd' := rd e ∖ {[t]} in
  match pend e with
  | Some u => if bool_decide (rd' = ∅) then MkEntry (Some u) None ∅ (waitr e) (users e)
              else MkEntry (wr e) (Some u) rd' (waitr e) (users e)
  | None => MkEntry (wr e) None rd' (waitr e) (users e)
  end.

Definition WUnlock (e : rwEntry) : rwEntry := MkEntry None None (waitr e) ∅ (users e).

(** A goroutine that waited has been let in. *)
Definition granted (w : bool) (t : nat) (e : rwEntry) : bool :=
  if w then bool_decide (wr e = Some t) else bool_decide (t ∈ rd e).

Definition set_users (n : Z) (e : rwEntry) : rwEntry := MkEntry (wr e) (pend e) (rd e) (waitr e) n.

(** ** The mutex, seen from its goroutines

    A role says whether a goroutine owns the mutex or waits for it, and whether
    for writing. *)
Definition roles := nat → option (bool * bool).
Definition upd (ρ : roles) (t : nat) (r : option (bool * bool)) : roles := λ u, if decide (u = t) then r else ρ u.

Record mutex_ok (ρ : roles) (e : rwEntry) : Prop := {
  mo_wr t : wr e = Some t → pend e = None ∧ rd e = ∅ ∧ ∃ o, ρ t = Some (true, o);
  mo_rd t : t ∈ rd e → ∃ o, ρ t = Some (false, o);
  mo_pend t : pend e = Some t → rd e ≠ ∅ ∧ ρ t = Some (true, false);
  mo_waitr t : t ∈ waitr e → ρ t = Some (false, false) ∧ t ∉ rd e ∧ (wr e ≠ None ∨ pend e ≠ None);
  mo_own_w t : ρ t = Some (true, true) → wr e = Some t;
  mo_own_r t : ρ t = Some (false, true) → t ∈ rd e;
  mo_wait_w t : ρ t = Some (true, false) → pend e = Some t ∨ wr e = Some t;
  mo_wait_r t : ρ t = Some (false, false) → t ∈ waitr e ∨ t ∈ rd e
}.

Lemma mutex_ok_ext ρ ρ' e : (∀ t, ρ t = ρ' t) → mutex_ok ρ e → mutex_ok ρ' e.
Proof.
  intros E []. split; intros t; rewrite <- ?E; auto.
Qed.

Lemma mutex_ok_users ρ e n : mutex_ok ρ e → mutex_ok ρ (set_users n e).
Proof. intros []. by split. Qed.

Lemma mutex_ok_new ρ : (∀ t, ρ t = None) → mutex_ok ρ new_entry.
Proof. intros E. split; intros t; rewrite ?E; try done; simpl; set_solver. Qed.

Lemma upd_eq ρ t r : upd ρ t r t = r.
Proof. unfold upd. by rewrite decide_True. Qed.
Lemma upd_ne ρ t u r : u ≠ t → upd ρ t r u = ρ u.
Proof. intros. unfold upd. by rewrite decide_False. Qed.

(** Cases on whether a goroutine is the one that moved. *)
Ltac who u t := destruct (decide (u = t)) as [->|?]; [rewrite ?upd_eq in *|rewrite ?upd_ne in * by done].

Ltac mutex :=
  repeat match goal with
  | H : _ ∈ {[_]} ∪ _ |- _ => apply elem_of_union in H as [H%elem_of_singleton|H]
  | H : _ ∈ _ ∖ {[_]} |- _ => apply elem_of_difference in H as [H ?]
  | H : _ ∈ ∅ |- _ => by apply not_elem_of_empty in H
  | H : _ ∧ _ |- _ => destruct H
  | H : ∃ _, _ |- _ => destruct H
  | H : _ ∨ _ |- _ => destruct H
  | _ => progress simplify_eq
  end.

(** Everything a consistent mutex says of one goroutine. *)
Ltac facts H u :=
  pose proof (mo_wr _ _ H u); pose proof (mo_rd _ _ H u); pose proof (mo_pend _ _ H u);
  pose proof (mo_waitr _ _ H u); pose proof (mo_own_w _ _ H u); pose proof (mo_own_r _ _ H u);
  pose proof (mo_wait_w _ _ H u); pose proof (mo_wait_r _ _ H u).

Ltac mutex_cases H t :=
  split; simpl; let u := fresh "u" in intros u; facts H t; facts H u; who u t; intros; clear H; mutex; try done;
  try solve [set_unfold; naive_solver].

Lemma mutex_RLock ρ t e e' b :
  mutex_ok ρ e → ρ t = None → RLock t e = (e', b) → mutex_ok (upd ρ t (Some (false, b))) e'.
Proof.
  intros H Ht. unfold RLock. destruct (wr e) as [x|] eqn:Ew, (pend e) as [y|] eqn:Ep; intros [= <- <-]; mutex_cases H t.
Qed.

Lemma mutex_WLock ρ t e e' b :
  mutex_ok ρ e → ρ t = None → WLock t e = Some (e', b) → mutex_ok (upd ρ t (Some (true, b))) e'.
Proof.
  intros H Ht. unfold WLock. destruct (wr e) as [x|] eqn:Ew, (pend e) as [y|] eqn:Ep; try done.
  destruct (bool_decide_reflect (rd e = ∅)) as [Er|Er]; intros [= <- <-]; mutex_cases H t.
Qed.

Lemma mutex_granted ρ t w e :
  mutex_ok ρ e → ρ t = Some (w, false) → granted w t e = true → mutex_ok (upd ρ t (Some (w, true))) e.
Proof.
  intros H Ht. unfold granted. destruct w; intros Hg; bools; mutex_cases H t.
Qed.

Lemma mutex_RUnlock ρ t e :
  mutex_ok ρ e → ρ t = Some (false, true) → mutex_ok (upd ρ t None) (RUnlock t e).
Proof.
  intros H Ht. unfold RUnlock. destruct (pend e) as [y|] eqn:Ep;
    [facts H y; destruct (bool_decide_reflect (rd e ∖ {[t]} = ∅))|]; mutex_cases H t.
Qed.

Lemma mutex_WUnlock ρ t e :
  mutex_ok ρ e → ρ t = Some (true, true) → mutex_ok (upd ρ t None) (WUnlock e).
Proof.
  intros H Ht. unfold WUnlock. mutex_cases H t.
Qed.
