(* ===== verification/Locks.v ===== *)
(** * Read-write locks per key: [src/sim/kvstore/locks.go]

    The lock table [RWLocks] and the goroutines that use it, as a transition
    system: a goroutine calls [Lock], enters and takes its keys one by one in
    sorted order, holds them, and releases them in reverse. The read-write mutex
    is Go's: a waiting writer bars new readers, and a writer that unlocks lets
    in the readers that wait. A goroutine that holds keys takes no more. Table
    entries are pointers, which goroutines keep across steps. *)

From S2P Require Import Prelude Rwmutex.

(** ** Goroutines and the table *)

(** Where a goroutine stands with the next key it needs. *)
Inductive stage := NotYet | Entered (p : nat) | Waiting (p : nat).

Inductive goroutine :=
| Idle
| Acquiring (write : bool) (entries : list (string * nat)) (sg : stage) (todo : list string)
| Holding (write : bool) (entries : list (string * nat))
| Releasing (write : bool) (rest : list (string * nat)) (unlocked : bool).

Record RWLocks := MkLocks {
  held : gmap string nat;
  heap : gmap nat rwEntry;
  next_pointer : nat;
  acquired : Z;
  threads : list goroutine
}.

Definition set_thread (s : RWLocks) (t : nat) (g : goroutine) : RWLocks :=
  MkLocks (held s) (heap s) (next_pointer s) (acquired s) (<[t:=g]> (threads s)).

Definition set_entry (s : RWLocks) (p : nat) (e : rwEntry) : RWLocks :=
  MkLocks (held s) (<[p:=e]> (heap s)) (next_pointer s) (acquired s) (threads s).

Definition entry_at (s : RWLocks) (p : nat) : rwEntry := default new_entry (heap s !! p).

Definition enter (s : RWLocks) (key : string) : RWLocks * nat :=
  match held s !! key with
  | Some p => (set_entry s p (set_users (users (entry_at s p) + 1) (entry_at s p)), p)
  | None =>
      let p := next_pointer s in
      (MkLocks (<[key:=p]> (held s)) (<[p:=set_users 1 new_entry]> (heap s)) (S p) (acquired s) (threads s), p)
  end.

Definition leave (s : RWLocks) (key : string) (p : nat) : RWLocks :=
  let e := set_users (users (entry_at s p) - 1) (entry_at s p) in
  let s := set_entry s p e in
  if users e =? 0 then MkLocks (delete key (held s)) (heap s) (next_pointer s) (acquired s) (threads s) else s.

(** The keys of a call: not empty, each once, sorted. *)
Fixpoint unique (seen : list string) (keys : list string) : list string :=
  match keys with
  | [] => []
  | key :: keys =>
      if bool_decide (key = "") || bool_decide (key ∈ seen) then unique seen keys
      else key :: unique (key :: seen) keys
  end.

Definition lock_keys (keys : list string) : list string := SliceStable sltb (unique [] keys).

(** [Lock] begins. *)
Definition call_Lock (s : RWLocks) (t : nat) (write : bool) (keys : list string) : option RWLocks :=
  match threads s !! t with
  | Some Idle =>
      let ks := lock_keys keys in
      let s := MkLocks (held s) (heap s) (next_pointer s) (u64 (acquired s + Z.of_nat (length ks))) (threads s) in
      Some (set_thread s t (Acquiring write [] NotYet ks))
  | _ => None
  end.

(** The release function begins. *)
Definition call_release (s : RWLocks) (t : nat) : option RWLocks :=
  match threads s !! t with
  | Some (Holding write entries) => Some (set_thread s t (Releasing write (rev entries) false))
  | _ => None
  end.

(** One step of a goroutine inside [Lock] or the release; [None] when it has
    none, because it is outside or the mutex makes it wait. *)
Definition step_thread (s : RWLocks) (t : nat) : option RWLocks :=
  match threads s !! t with
  | Some (Acquiring w es NotYet []) => Some (set_thread s t (Holding w es))
  | Some (Acquiring w es NotYet (k :: todo)) =>
      let (s, p) := enter s k in Some (set_thread s t (Acquiring w es (Entered p) (k :: todo)))
  | Some (Acquiring w es (Entered p) (k :: todo)) =>
      match (if w then WLock t (entry_at s p) else Some (RLock t (entry_at s p))) with
      | None => None
      | Some (e, true) => Some (set_thread (set_entry s p e) t (Acquiring w (es ++ [(k, p)]) NotYet todo))
      | Some (e, false) => Some (set_thread (set_entry s p e) t (Acquiring w es (Waiting p) (k :: todo)))
      end
  | Some (Acquiring w es (Waiting p) (k :: todo)) =>
      if granted w t (entry_at s p) then Some (set_thread s t (Acquiring w (es ++ [(k, p)]) NotYet todo)) else None
  | Some (Releasing w ((k, p) :: rest) false) =>
      let e := if w then WUnlock (entry_at s p) else RUnlock t (entry_at s p) in
      Some (set_thread (set_entry s p e) t (Releasing w ((k, p) :: rest) true))
  | Some (Releasing w ((k, p) :: rest) true) => Some (set_thread (leave s k p) t (Releasing w rest false))
  | Some (Releasing w [] _) => Some (set_thread s t Idle)
  | _ => None
  end.

Inductive step (s : RWLocks) : RWLocks → Prop :=
| step_call t w keys s' : call_Lock s t w keys = Some s' → step s s'
| step_release t s' : call_release s t = Some s' → step s s'
| step_inside t s' : step_thread s t = Some s' → step s s'.

Definition start (n : nat) : RWLocks := MkLocks ∅ ∅ 0 0 (replicate n Idle).

(** [Held]: the keys held or awaited. *)
Definition Held (s : RWLocks) : nat := size (held s).

(** ** The invariant of the table *)

(** The references into the table a goroutine keeps, and the mutexes it owns. *)
Definition refs (g : goroutine) : list (string * nat) :=
  match g with
  | Idle => []
  | Acquiring _ es sg todo =>
      es ++ match sg, todo with
            | Entered p, k :: _ | Waiting p, k :: _ => [(k, p)]
            | _, _ => []
            end
  | Holding _ es => es
  | Releasing _ rest _ => rest
  end.

Definition owns (g : goroutine) : list (string * nat) :=
  match g with
  | Idle => []
  | Acquiring _ es _ _ => es
  | Holding _ es => es
  | Releasing _ rest false => rest
  | Releasing _ rest true => tail rest
  end.

Definition waits (g : goroutine) : option nat :=
  match g with Acquiring _ _ (Waiting p) _ => Some p | _ => None end.

Definition writes (g : goroutine) : bool :=
  match g with Idle => false | Acquiring w _ _ _ | Holding w _ | Releasing w _ _ => w end.

Definition role_in (g : goroutine) (p : nat) : option (bool * bool) :=
  if decide (p ∈ (owns g).*2) then Some (writes g, true)
  else if decide (waits g = Some p) then Some (writes g, false) else None.

Definition roles_of (gs : list goroutine) (p : nat) : roles :=
  λ t, match gs !! t with Some g => role_in g p | None => None end.

(** How many goroutines refer to an entry. *)
Definition refers (p : nat) (g : goroutine) : nat := if decide (p ∈ (refs g).*2) then 1 else 0.
Definition refcount (gs : list goroutine) (p : nat) : nat := sum_list_with (refers p) gs.

Lemma sum_insert {A} (f : A → nat) l i x y :
  l !! i = Some x → (sum_list_with f (<[i:=y]> l) + f x = sum_list_with f l + f y)%nat.
Proof. revert i. induction l as [|a l IH]; intros [|i] H; simpl in *; simplify_eq; [lia|]. specialize (IH i H). lia. Qed.

(** What a goroutine keeps in order: keys once each, ascending while it takes
    them, and a next key whenever it stands at one. *)
Definition goroutine_ok (g : goroutine) : Prop :=
  NoDup (refs g).*1 ∧
  match g with
  | Acquiring _ es sg todo => StronglySorted slt (es.*1 ++ todo) ∧ (todo = [] → sg = NotYet)
  | Releasing _ rest true => rest ≠ []
  | _ => True
  end.

Record locks_ok (s : RWLocks) : Prop := {
  lk_threads t g : threads s !! t = Some g → goroutine_ok g;
  lk_refs t g k p : threads s !! t = Some g → (k, p) ∈ refs g → held s !! k = Some p;
  lk_inj k k' p : held s !! k = Some p → held s !! k' = Some p → k = k';
  lk_fresh k p : held s !! k = Some p → (p < next_pointer s)%nat;
  lk_entry k p : held s !! k = Some p → ∃ e, heap s !! p = Some e ∧
    mutex_ok (roles_of (threads s) p) e ∧ users e = Z.of_nat (refcount (threads s) p) ∧ 0 < users e
}.

Lemma roles_insert gs t g p u :
  (t < length gs)%nat → roles_of (<[t:=g]> gs) p u = upd (roles_of gs p) t (role_in g p) u.
Proof.
  intros Ht. unfold roles_of, upd. case_decide as Hu; [subst; by rewrite list_lookup_insert_eq|].
  by rewrite list_lookup_insert_ne.
Qed.

Lemma owns_refs g x : x ∈ owns g → x ∈ refs g.
Proof.
  destruct g as [|w es sg todo|w es|w rest u]; simpl; [done|by intros; apply elem_of_app; left|done|].
  destruct u, rest; simpl; try done. by right.
Qed.

Lemma waits_refs g p : goroutine_ok g → waits g = Some p → ∃ k, (k, p) ∈ refs g.
Proof.
  intros [_ Hg]. destruct g as [|w es sg todo|w es|w rest u]; simpl; try done.
  destruct sg as [|q|q]; try done. intros [= ->]. destruct Hg as [_ Hg]. destruct todo as [|k todo]; [by specialize (Hg eq_refl)|].
  exists k. apply elem_of_app. right. by left.
Qed.

(** A goroutine with a role at an entry refers to it. *)
Lemma role_refs g p r : goroutine_ok g → role_in g p = Some r → p ∈ (refs g).*2.
Proof.
  intros Hok. unfold role_in. case_decide as Ho.
  - intros _. apply list_elem_of_fmap in Ho as (x & -> & Hx). apply list_elem_of_fmap. exists x. split; [done|by apply owns_refs].
  - case_decide as Hw; [|done]. intros _. destruct (waits_refs g p Hok Hw) as (k & Hk). apply list_elem_of_fmap. by exists (k, p).
Qed.

(** A goroutine that moves without touching an entry leaves the entry as it is. *)
Definition same_at (g g' : goroutine) (p : nat) : Prop :=
  role_in g' p = role_in g p ∧ (p ∈ (refs g').*2 ↔ p ∈ (refs g).*2).

Lemma refcount_same gs t g g' p :
  gs !! t = Some g → (p ∈ (refs g').*2 ↔ p ∈ (refs g).*2) → refcount (<[t:=g']> gs) p = refcount gs p.
Proof.
  intros Ht Hp. pose proof (sum_insert (refers p) gs t g g' Ht) as H. unfold refcount.
  assert (refers p g' = refers p g) as E by (unfold refers; repeat case_decide; tauto). lia.
Qed.

Lemma entry_frame s t g g' k p :
  locks_ok s → threads s !! t = Some g → same_at g g' p → held s !! k = Some p →
  ∃ e, heap s !! p = Some e ∧ mutex_ok (roles_of (<[t:=g']> (threads s)) p) e ∧
    users e = Z.of_nat (refcount (<[t:=g']> (threads s)) p) ∧ 0 < users e.
Proof.
  intros Hok Ht [Hr Hf] Hk. destruct (lk_entry s Hok k p Hk) as (e & He & Hm & Hu & Hpos).
  exists e. split_and!; [done| |by rewrite (refcount_same _ _ g)|done].
  eapply mutex_ok_ext; [|exact Hm]. intros u. rewrite roles_insert by (by eapply lookup_lt_Some).
  unfold upd. case_decide as E; [subst|done]. unfold roles_of. by rewrite Ht.
Qed.

(** Steps that touch one entry [p], for key [k], and one goroutine. *)
Lemma step_at s t g g' k p e' :
  locks_ok s → threads s !! t = Some g → held s !! k = Some p → goroutine_ok g' →
  (∀ x, x ∈ refs g' → x ∈ refs g ∨ x = (k, p)) → (∀ q, q ≠ p → same_at g g' q) →
  mutex_ok (upd (roles_of (threads s) p) t (role_in g' p)) e' →
  users e' = Z.of_nat (refcount (<[t:=g']> (threads s)) p) → 0 < users e' →
  locks_ok (set_thread (set_entry s p e') t g').
Proof.
  intros Hok Ht Hk Hg' Hrefs Hother Hm Hu Hpos. pose proof (lookup_lt_Some _ _ _ Ht) as Hlt. split; simpl.
  - intros u h [[-> [<- _]]|[_ Hu']]%list_lookup_insert_Some; [done|by eapply lk_threads].
  - intros u h k' p' [[-> [<- _]]|[_ Hu']]%list_lookup_insert_Some Hin; [|by eapply lk_refs].
    destruct (Hrefs _ Hin) as [?|[= -> ->]]; [by eapply lk_refs|done].
  - apply (lk_inj s Hok).
  - apply (lk_fresh s Hok).
  - intros k' q Hk'. destruct (decide (q = p)) as [->|Hne].
    + exists e'. rewrite lookup_insert_eq. split_and!; [done| |done|done].
      eapply mutex_ok_ext; [|exact Hm]. intros u. symmetry. by apply roles_insert.
    + rewrite lookup_insert_ne by done. eapply entry_frame; [done|done|by apply Hother|done].
Qed.

(** Steps that touch no entry. *)
Lemma step_plain s t g g' :
  locks_ok s → threads s !! t = Some g → goroutine_ok g' → (∀ x, x ∈ refs g' → x ∈ refs g) →
  (∀ p, same_at g g' p) → locks_ok (set_thread s t g').
Proof.
  intros Hok Ht Hg' Hrefs Hsame. split; simpl.
  - intros u h [[-> [<- _]]|[_ Hu']]%list_lookup_insert_Some; [done|by eapply lk_threads].
  - intros u h k' p' [[-> [<- _]]|[_ Hu']]%list_lookup_insert_Some Hin; [|by eapply lk_refs].
    eapply lk_refs; [done|done|by apply Hrefs].
  - apply (lk_inj s Hok).
  - apply (lk_fresh s Hok).
  - intros k' q Hk'. eapply entry_frame; [done|done|apply Hsame|done].
Qed.

(** References of one goroutine to one pointer are for one key. *)
Lemma refs_key s t g k k' p :
  locks_ok s → threads s !! t = Some g → (k, p) ∈ refs g → (k', p) ∈ refs g → k = k'.
Proof. intros Hok Ht H1 H2. eapply (lk_inj s Hok); by eapply lk_refs. Qed.

Lemma elem_snd (l : list (string * nat)) p : p ∈ l.*2 ↔ ∃ k, (k, p) ∈ l.
Proof.
  rewrite list_elem_of_fmap. split; [intros ([k q] & -> & H); by exists k|intros (k & H); by exists (k, p)].
Qed.

Lemma elem_fst (l : list (string * nat)) k : k ∈ l.*1 ↔ ∃ p, (k, p) ∈ l.
Proof.
  rewrite list_elem_of_fmap. split; [intros ([k' q] & -> & H); by exists q|intros (p & H); by exists (k, p)].
Qed.

(** ** Every step keeps the invariant *)

Lemma sorted_NoDup (l : list string) : StronglySorted slt l → NoDup l.
Proof.
  induction 1 as [|x l Hl IH Hx]; constructor; [|done].
  intros Hin. rewrite Forall_forall in Hx. by eapply slt_irrefl, Hx.
Qed.

Lemma role_none g p : goroutine_ok g → p ∉ (refs g).*2 → role_in g p = None.
Proof. intros Hok Hp. destruct (role_in g p) as [r|] eqn:E; [|done]. by destruct Hp; eapply role_refs. Qed.

Lemma upd_same s t g g' p u :
  threads s !! t = Some g → role_in g' p = role_in g p →
  roles_of (threads s) p u = upd (roles_of (threads s) p) t (role_in g' p) u.
Proof. intros Ht E. unfold upd. case_decide; [subst|done]. unfold roles_of. by rewrite Ht. Qed.

Lemma refcount_add gs t g g' p :
  gs !! t = Some g → p ∉ (refs g).*2 → p ∈ (refs g').*2 → refcount (<[t:=g']> gs) p = S (refcount gs p).
Proof.
  intros Ht H1 H2. pose proof (sum_insert (refers p) gs t g g' Ht) as H. unfold refcount.
  unfold refers in H at 2 4. rewrite decide_False, decide_True in H by done. lia.
Qed.

Lemma refcount_drop gs t g g' p :
  gs !! t = Some g → p ∈ (refs g).*2 → p ∉ (refs g').*2 → S (refcount (<[t:=g']> gs) p) = refcount gs p.
Proof.
  intros Ht H1 H2. pose proof (sum_insert (refers p) gs t g g' Ht) as H. unfold refcount.
  unfold refers in H at 2 4. rewrite decide_True, decide_False in H by done. lia.
Qed.

Lemma refcount_zero gs p : refcount gs p = 0%nat ↔ ∀ t g, gs !! t = Some g → p ∉ (refs g).*2.
Proof.
  unfold refcount. induction gs as [|g gs IH]; simpl.
  - split; [|done]. intros _ t g. by rewrite lookup_nil.
  - rewrite Nat.eq_add_0, IH. unfold refers. split.
    + intros [H1 H2] [|t] h E; simpl in E; simplify_eq; [by case_decide|by apply (H2 t)].
    + intros H. split; [rewrite decide_False; [done|by apply (H 0%nat)]|]. intros t h E. by apply (H (S t)).
Qed.

(** The other keys of a goroutine use other entries. *)
Lemma other_entry s t g k p l :
  locks_ok s → threads s !! t = Some g → (∀ x, x ∈ l → x ∈ refs g) → held s !! k = Some p → k ∉ l.*1 → p ∉ l.*2.
Proof.
  intros Hok Ht Hl Hk Hn. rewrite elem_snd. intros (k' & Hin). apply Hn, elem_fst. exists p.
  by rewrite (lk_inj s Hok k k' p) by (done || eapply lk_refs; eauto).
Qed.

Lemma users_RLock t e e' b : RLock t e = (e', b) → users e' = users e.
Proof. unfold RLock. repeat case_match; by intros [= <- <-]. Qed.
Lemma users_WLock t e e' b : WLock t e = Some (e', b) → users e' = users e.
Proof. unfold WLock. repeat case_match; by intros [= <- <-]. Qed.
Lemma users_RUnlock t e : users (RUnlock t e) = users e.
Proof. unfold RUnlock. by repeat case_match. Qed.

(** A goroutine at a key stands behind the keys it owns. *)
Lemma next_key w es sg k todo :
  goroutine_ok (Acquiring w es sg (k :: todo)) → k ∉ es.*1 ∧ NoDup (es.*1 ++ [k]) ∧ k ∉ todo.
Proof.
  intros (_ & Hs & _). destruct (StronglySorted_split _ _ _ _ Hs) as (Hk & _ & _ & _).
  apply not_elem_of_app in Hk as [H1 H2]. split_and!; [done| |done].
  apply sorted_NoDup. replace (es.*1 ++ k :: todo) with ((es.*1 ++ [k]) ++ todo) in Hs by (by rewrite <- app_assoc).
  by apply StronglySorted_app_1_l in Hs.
Qed.

Lemma at_key_ok w es sg sg' k todo p :
  goroutine_ok (Acquiring w es sg (k :: todo)) → sg' = Entered p ∨ sg' = Waiting p →
  goroutine_ok (Acquiring w es sg' (k :: todo)).
Proof.
  intros Hok Hsg. destruct (next_key _ _ _ _ _ Hok) as (_ & Hn & _). destruct Hok as (_ & Hs & _).
  split_and!; [|done|done]. destruct Hsg as [->| ->]; simpl; by rewrite fmap_app.
Qed.

Lemma took_key_ok w es sg k todo p :
  goroutine_ok (Acquiring w es sg (k :: todo)) → goroutine_ok (Acquiring w (es ++ [(k, p)]) NotYet todo).
Proof.
  intros Hok. destruct (next_key _ _ _ _ _ Hok) as (_ & Hn & _). destruct Hok as (_ & Hs & _).
  split_and!; [|by rewrite fmap_app, <- app_assoc|done]. simpl. by rewrite app_nil_r, fmap_app.
Qed.

(** Roles at an entry once its key has been taken. *)
Lemma took_role w es k p todo q :
  role_in (Acquiring w (es ++ [(k, p)]) NotYet todo) q =
  if decide (q = p) then Some (w, true) else role_in (Acquiring w es NotYet todo) q.
Proof.
  unfold role_in. simpl. rewrite fmap_app. simpl. destruct (decide (q = p)) as [->|Hne].
  - rewrite decide_True; [done|]. apply elem_of_app. right. by left.
  - destruct (decide (q ∈ es.*2)) as [Hin|Hin]; [rewrite decide_True; [done|by apply elem_of_app; left]|].
    rewrite decide_False; [done|]. rewrite elem_of_app, list_elem_of_singleton. tauto.
Qed.

Lemma keep_enter_held s t w es k todo p :
  locks_ok s → threads s !! t = Some (Acquiring w es NotYet (k :: todo)) → held s !! k = Some p →
  locks_ok (set_thread (set_entry s p (set_users (users (entry_at s p) + 1) (entry_at s p))) t
              (Acquiring w es (Entered p) (k :: todo))).
Proof.
  intros Hok Ht Hk. pose proof (lk_threads s Hok _ _ Ht) as Hg.
  destruct (lk_entry s Hok k p Hk) as (e & He & Hm & Hu & Hpos). unfold entry_at. rewrite He. simpl.
  destruct (next_key _ _ _ _ _ Hg) as (Hn & _).
  assert (p ∉ es.*2) as Hp.
  { eapply other_entry; [done|exact Ht| |done|done]. intros x. simpl. by rewrite app_nil_r. }
  eapply step_at; [done|exact Ht|exact Hk|by eapply at_key_ok; [|left]| | | | |].
  - intros x. simpl. rewrite app_nil_r, elem_of_app, list_elem_of_singleton. tauto.
  - intros q Hq. split; [done|]. simpl. rewrite fmap_app, app_nil_r, elem_of_app. simpl. rewrite list_elem_of_singleton. tauto.
  - eapply mutex_ok_ext; [|by apply mutex_ok_users]. intros u. by eapply upd_same.
  - rewrite (refcount_add _ _ _ _ _ Ht); [simpl; lia|simpl; by rewrite app_nil_r|].
    simpl. rewrite fmap_app, elem_of_app. right. by left.
  - simpl. lia.
Qed.

Lemma keep_enter_fresh s t w es k todo :
  locks_ok s → threads s !! t = Some (Acquiring w es NotYet (k :: todo)) → held s !! k = None →
  let p := next_pointer s in
  locks_ok (set_thread (MkLocks (<[k:=p]> (held s)) (<[p:=set_users 1 new_entry]> (heap s)) (S p) (acquired s) (threads s)) t
              (Acquiring w es (Entered p) (k :: todo))).
Proof.
  intros Hok Ht Hk p. pose proof (lk_threads s Hok _ _ Ht) as Hg. pose proof (lookup_lt_Some _ _ _ Ht) as Hlt.
  assert (∀ u h, threads s !! u = Some h → p ∉ (refs h).*2) as Hfresh.
  { intros u h Hu (k' & Hin)%elem_snd. pose proof (lk_fresh s Hok k' p (lk_refs s Hok _ _ _ _ Hu Hin)). lia. }
  assert (∀ q, q ≠ p → same_at (Acquiring w es NotYet (k :: todo)) (Acquiring w es (Entered p) (k :: todo)) q) as Hsame.
  { intros q Hq. split; [done|]. simpl. rewrite fmap_app, app_nil_r, elem_of_app. simpl. rewrite list_elem_of_singleton. tauto. }
  split; simpl.
  - intros u h [[-> [<- _]]|[_ Hu']]%list_lookup_insert_Some; [|by eapply lk_threads]. by eapply at_key_ok; [|left].
  - intros u h k' p' [[-> [<- _]]|[_ Hu']]%list_lookup_insert_Some Hin.
    + simpl in Hin. apply elem_of_app in Hin as [Hin| [= -> ->]%list_elem_of_singleton]; [|by rewrite lookup_insert_eq].
      assert (held s !! k' = Some p') as E by (eapply lk_refs; [done|exact Ht|]; simpl; by rewrite app_nil_r).
      rewrite lookup_insert_ne; [done|]. intros ->. congruence.
    + pose proof (lk_refs s Hok _ _ _ _ Hu' Hin) as E. rewrite lookup_insert_ne; [done|]. intros ->. congruence.
  - intros k1 k2 q [[<- <-]|[? H1]]%lookup_insert_Some [[<- E]|[? H2]]%lookup_insert_Some; try done.
    + pose proof (lk_fresh s Hok _ _ H2). lia.
    + subst. pose proof (lk_fresh s Hok _ _ H1). lia.
    + by eapply (lk_inj s Hok).
  - intros k1 q [[<- <-]|[? H1]]%lookup_insert_Some; [lia|]. pose proof (lk_fresh s Hok _ _ H1). lia.
  - intros k1 q [[<- <-]|[? H1]]%lookup_insert_Some.
    + exists (set_users 1 new_entry). rewrite lookup_insert_eq. split_and!; [done| |simpl|simpl; lia].
      * apply mutex_ok_users, mutex_ok_new. intros u. unfold roles_of.
        destruct (<[t:=_]> (threads s) !! u) as [h|] eqn:E; [|done].
        apply list_lookup_insert_Some in E as [[-> [<- _]]|[_ Hu']].
        -- change (role_in (Acquiring w es NotYet (k :: todo)) p = None). apply role_none; [done|by eapply Hfresh].
        -- apply role_none; [by eapply lk_threads|by eapply Hfresh].
      * rewrite (refcount_add _ _ _ _ _ Ht); [|by eapply Hfresh|simpl; rewrite fmap_app, elem_of_app; right; by left].
        by rewrite (proj2 (refcount_zero _ p) Hfresh).
    + pose proof (lk_fresh s Hok _ _ H1). rewrite lookup_insert_ne by lia.
      eapply entry_frame; [done|done|apply Hsame; lia|done].
Qed.

(** The entry a goroutine stands at, and that it has no role there yet. *)
Lemma at_entry s t w es sg k p todo :
  locks_ok s → threads s !! t = Some (Acquiring w es sg (k :: todo)) → sg = Entered p ∨ sg = Waiting p →
  held s !! k = Some p ∧ p ∉ es.*2 ∧ (k, p) ∈ refs (Acquiring w es sg (k :: todo)).
Proof.
  intros Hok Ht Hsg. assert ((k, p) ∈ refs (Acquiring w es sg (k :: todo))) as Hin.
  { destruct Hsg as [->| ->]; simpl; apply elem_of_app; right; by left. }
  assert (held s !! k = Some p) as Hk by (by eapply lk_refs). split_and!; [done| |done].
  destruct (next_key _ _ _ _ _ (lk_threads s Hok _ _ Ht)) as (Hn & _).
  eapply other_entry; [done|exact Ht| |done|done]. intros x Hx. simpl. apply elem_of_app. by left.
Qed.

(** A goroutine that takes its next key, or begins to wait for it, keeps the
    number of users. *)
Lemma keep_at s t w es sg g' k p todo e' :
  locks_ok s → threads s !! t = Some (Acquiring w es sg (k :: todo)) → sg = Entered p ∨ sg = Waiting p →
  g' = Acquiring w (es ++ [(k, p)]) NotYet todo ∨ g' = Acquiring w es (Waiting p) (k :: todo) →
  mutex_ok (upd (roles_of (threads s) p) t (role_in g' p)) e' → users e' = users (entry_at s p) →
  locks_ok (set_thread (set_entry s p e') t g').
Proof.
  intros Hok Ht Hsg Hg' Hm Hu. pose proof (lk_threads s Hok _ _ Ht) as Hg.
  destruct (at_entry s t w es sg k p todo Hok Ht Hsg) as (Hk & Hp & Hin).
  destruct (lk_entry s Hok k p Hk) as (e & He & _ & Hue & Hpos). unfold entry_at in Hu. rewrite He in Hu. simpl in Hu.
  assert (∀ x, x ∈ refs g' ↔ x ∈ refs (Acquiring w es sg (k :: todo))) as Hrefs.
  { intros x. destruct Hg' as [->| ->], Hsg as [->| ->]; simpl; by rewrite ?app_nil_r. }
  assert (∀ q, q ∈ (refs g').*2 ↔ q ∈ (refs (Acquiring w es sg (k :: todo))).*2) as Hrefs2.
  { intros q. rewrite !elem_snd. by setoid_rewrite Hrefs. }
  eapply step_at; [done|exact Ht|exact Hk| | | |done| |lia].
  - destruct Hg' as [->| ->]; [by eapply took_key_ok|by eapply at_key_ok; [|right]].
  - intros x. rewrite Hrefs. by left.
  - intros q Hq. split; [|apply Hrefs2].
    destruct Hg' as [->| ->]; rewrite ?took_role, ?decide_False by done;
      destruct Hsg as [->| ->]; unfold role_in; simpl; case_decide; try done; repeat case_decide; naive_solver.
  - rewrite (refcount_same _ _ _ _ _ Ht (Hrefs2 p)). lia.
Qed.

Lemma keep_try s t w es k p todo e' b :
  locks_ok s → threads s !! t = Some (Acquiring w es (Entered p) (k :: todo)) →
  (if w then WLock t (entry_at s p) else Some (RLock t (entry_at s p))) = Some (e', b) →
  locks_ok (set_thread (set_entry s p e') t
    (if b then Acquiring w (es ++ [(k, p)]) NotYet todo else Acquiring w es (Waiting p) (k :: todo))).
Proof.
  intros Hok Ht E. destruct (at_entry s t _ _ _ _ _ _ Hok Ht (or_introl eq_refl)) as (Hk & Hp & _).
  destruct (lk_entry s Hok k p Hk) as (e & He & Hm & _). unfold entry_at in E. rewrite He in E. simpl in E.
  assert (roles_of (threads s) p t = None) as Hr.
  { unfold roles_of. rewrite Ht. unfold role_in. simpl. by rewrite decide_False. }
  set (g' := if b then _ else _).
  assert (role_in g' p = Some (w, b)) as Hr'.
  { subst g'. destruct b; [by rewrite took_role, decide_True|]. unfold role_in. simpl. by rewrite decide_False, decide_True. }
  eapply keep_at; [done|exact Ht|by left|subst g'; destruct b; auto| |].
  - rewrite Hr'. destruct w; [by eapply mutex_WLock|]. injection E as E. by eapply mutex_RLock.
  - unfold entry_at. rewrite He. simpl. destruct w; [by eapply users_WLock|]. injection E as E. by eapply users_RLock.
Qed.

Lemma set_entry_same s p e : heap s !! p = Some e → set_entry s p e = s.
Proof. intros He. unfold set_entry. rewrite insert_id by done. by destruct s. Qed.

Lemma keep_granted s t w es k p todo :
  locks_ok s → threads s !! t = Some (Acquiring w es (Waiting p) (k :: todo)) → granted w t (entry_at s p) = true →
  locks_ok (set_thread s t (Acquiring w (es ++ [(k, p)]) NotYet todo)).
Proof.
  intros Hok Ht E. destruct (at_entry s t _ _ _ _ _ _ Hok Ht (or_intror eq_refl)) as (Hk & Hp & _).
  destruct (lk_entry s Hok k p Hk) as (e & He & Hm & _). unfold entry_at in E. rewrite He in E. simpl in E.
  rewrite <- (set_entry_same s p e He). eapply keep_at; [done|exact Ht|by right|by left| |by unfold entry_at; rewrite He].
  rewrite took_role, decide_True by done. apply mutex_granted; [done| |done].
  unfold roles_of. rewrite Ht. unfold role_in. simpl. by rewrite decide_False, decide_True.
Qed.

Lemma keep_unlock s t w k p rest :
  locks_ok s → threads s !! t = Some (Releasing w ((k, p) :: rest) false) →
  locks_ok (set_thread (set_entry s p (if w then WUnlock (entry_at s p) else RUnlock t (entry_at s p))) t
              (Releasing w ((k, p) :: rest) true)).
Proof.
  intros Hok Ht. pose proof (lk_threads s Hok _ _ Ht) as [Hn _]. simpl in Hn. apply NoDup_cons in Hn as [Hn Hnd].
  assert (held s !! k = Some p) as Hk by (eapply lk_refs; [done|exact Ht|by left]).
  destruct (lk_entry s Hok k p Hk) as (e & He & Hm & Hu & Hpos). unfold entry_at. rewrite He. simpl.
  assert (p ∉ rest.*2) as Hp by (eapply other_entry; [done|exact Ht|intros x ?; by right|done|done]).
  assert (roles_of (threads s) p t = Some (w, true)) as Hr.
  { unfold roles_of. rewrite Ht. unfold role_in. simpl. rewrite decide_True; [done|by left]. }
  assert (users (if w then WUnlock e else RUnlock t e) = users e) as Hu' by (destruct w; [done|apply users_RUnlock]).
  eapply step_at; [done|exact Ht|exact Hk|by split; [constructor|]|by left| | | |lia].
  - intros q Hq. split; [|done]. unfold role_in. simpl. repeat case_decide; try done; set_solver.
  - replace (role_in _ _) with (@None (bool * bool)) by (unfold role_in; simpl; by rewrite decide_False).
    destruct w; [by apply mutex_WUnlock|by apply mutex_RUnlock].
  - rewrite (refcount_same _ _ _ _ _ Ht); [lia|done].
Qed.

Lemma keep_leave s t w k p rest :
  locks_ok s → threads s !! t = Some (Releasing w ((k, p) :: rest) true) →
  locks_ok (set_thread (leave s k p) t (Releasing w rest false)).
Proof.
  intros Hok Ht. pose proof (lk_threads s Hok _ _ Ht) as [Hn _]. simpl in Hn. apply NoDup_cons in Hn as [Hn Hnd].
  assert (held s !! k = Some p) as Hk by (eapply lk_refs; [done|exact Ht|by left]).
  destruct (lk_entry s Hok k p Hk) as (e & He & Hm & Hu & Hpos). unfold leave, entry_at. rewrite He. simpl.
  assert (p ∉ rest.*2) as Hp by (eapply other_entry; [done|exact Ht|intros x ?; by right|done|done]).
  assert (goroutine_ok (Releasing w rest false)) as Hg' by done.
  assert (∀ q, role_in (Releasing w rest false) q = role_in (Releasing w ((k, p) :: rest) true) q) as Hrole by done.
  assert (∀ q, q ≠ p → same_at (Releasing w ((k, p) :: rest) true) (Releasing w rest false) q) as Hsame.
  { intros q Hq. split; [done|]. simpl. rewrite elem_of_cons. tauto. }
  pose proof (refcount_drop _ _ _ (Releasing w rest false) p Ht ltac:(simpl; by left) Hp) as Hdrop.
  destruct (Z.eqb_spec (users e - 1) 0) as [Hz|Hz].
  - assert (∀ u h, <[t:=Releasing w rest false]> (threads s) !! u = Some h → p ∉ (refs h).*2) as Hgone.
    { apply refcount_zero. lia. }
    split; simpl.
    + intros u h [[-> [<- _]]|[_ Hu']]%list_lookup_insert_Some; [done|by eapply lk_threads].
    + intros u h k' p' Hu' Hin. assert (held s !! k' = Some p') as E.
      { apply list_lookup_insert_Some in Hu' as [[-> [<- _]]|[_ Hu'']]; [|by eapply lk_refs].
        eapply lk_refs; [done|exact Ht|by right]. }
      rewrite lookup_delete_ne; [done|]. intros ->. destruct (Hgone u h Hu'). apply elem_snd. exists k'. congruence.
    + intros k1 k2 q [_ H1]%lookup_delete_Some [_ H2]%lookup_delete_Some. by eapply (lk_inj s Hok).
    + intros k1 q [_ H1]%lookup_delete_Some. by eapply (lk_fresh s Hok).
    + intros k1 q [Hne H1]%lookup_delete_Some. assert (q ≠ p) as Hq by (intros ->; by apply Hne, (lk_inj s Hok k k1 p)).
      rewrite lookup_insert_ne by done. eapply entry_frame; [done|done|by apply Hsame|done].
  - change (locks_ok (set_thread (set_entry s p (set_users (users e - 1) e)) t (Releasing w rest false))).
    eapply step_at; [done|exact Ht|exact Hk|done| |done| |simpl; lia|simpl; lia].
    + intros x Hx. left. by right.
    + eapply mutex_ok_ext; [|by apply mutex_ok_users]. intros u. by eapply upd_same.
Qed.

Lemma idle_ok : goroutine_ok Idle.
Proof. by split; [apply NoDup_nil_2|]. Qed.

(** Stepping inside keeps the invariant. *)
Lemma keep_step_thread s t s' : locks_ok s → step_thread s t = Some s' → locks_ok s'.
Proof.
  intros Hok. unfold step_thread. destruct (threads s !! t) as [g|] eqn:Ht; [|done].
  pose proof (lk_threads s Hok _ _ Ht) as Hg.
  destruct g as [|w es [|p|p] [|k todo]|w es|w [|[k p] rest] [|]]; try done; intros E.
  - injection E as <-. eapply step_plain; [done|exact Ht| | |].
    + destruct Hg as [Hn _]. simpl in Hn. rewrite app_nil_r in Hn. done.
    + simpl. intros x. by rewrite app_nil_r.
    + intros q. split; [done|]. simpl. by rewrite app_nil_r.
  - unfold enter in E. destruct (held s !! k) as [p|] eqn:Hk; injection E as <-.
    + by apply keep_enter_held.
    + by apply keep_enter_fresh.
  - destruct (if w then _ else _) as [[e' b]|] eqn:Ew; [|done].
    pose proof (keep_try s t w es k p todo e' b Hok Ht Ew) as H. by destruct b; injection E as <-.
  - destruct (granted _ _ _) eqn:Eg; [|done]. injection E as <-. by eapply keep_granted.
  - injection E as <-. eapply step_plain; [done|exact Ht|apply idle_ok|done|done].
  - injection E as <-. eapply step_plain; [done|exact Ht|apply idle_ok|done|done].
  - injection E as <-. by apply keep_leave.
  - injection E as <-. by apply keep_unlock.
Qed.

Lemma unique_spec seen keys :
  NoDup (unique seen keys) ∧ ∀ k, k ∈ unique seen keys ↔ k ∈ keys ∧ k ≠ "" ∧ k ∉ seen.
Proof.
  revert seen. induction keys as [|key keys IH]; intros seen; simpl.
  - split; [by apply NoDup_nil_2|]. intros k. rewrite !elem_of_nil. tauto.
  - destruct (bool_decide _ || bool_decide _) eqn:E.
    + destruct (IH seen) as [Hn Hin]. split; [done|]. intros k. rewrite Hin, elem_of_cons. bools.
      destruct E as [E|E]; bools; naive_solver.
    + bools. destruct (IH (key :: seen)) as [Hn Hin]. split.
      * constructor; [|done]. rewrite Hin, elem_of_cons. tauto.
      * intros k. rewrite !elem_of_cons, Hin, elem_of_cons. destruct (decide (k = key)); naive_solver.
Qed.

(** The keys of a call: those it names that are not empty, once each, ascending. *)
Lemma lock_keys_spec keys :
  StronglySorted slt (lock_keys keys) ∧ ∀ k, k ∈ lock_keys keys ↔ k ∈ keys ∧ k ≠ "".
Proof.
  unfold lock_keys. destruct (unique_spec [] keys) as [Hn Hin]. split.
  - by apply sort_strings_strict.
  - intros k. rewrite SliceStable_perm, Hin. set_solver.
Qed.

Lemma keep_step s s' : locks_ok s → step s s' → locks_ok s'.
Proof.
  intros Hok [t w keys s1 E|t s1 E|t s1 E]; [| |by eapply keep_step_thread].
  - unfold call_Lock in E. destruct (threads s !! t) as [[]|] eqn:Ht; try done. injection E as <-.
    destruct (lock_keys_spec keys) as [Hs _].
    assert (locks_ok (set_thread s t (Acquiring w [] NotYet (lock_keys keys)))) as [H1 H2 H3 H4 H5]; [|by split].
    eapply step_plain; [done|exact Ht| |done|done]. split_and!; [by apply NoDup_nil_2|done|done].
  - unfold call_release in E. destruct (threads s !! t) as [[]|] eqn:Ht; try done. injection E as <-.
    destruct (lk_threads s Hok _ _ Ht) as [Hn _]. simpl in Hn.
    assert (∀ q, q ∈ (rev entries).*2 ↔ q ∈ entries.*2) as Hq by (intros q; by rewrite <- Permutation_rev).
    eapply step_plain; [done|exact Ht|split; [|done]| |].
    + simpl. by rewrite <- Permutation_rev.
    + simpl. intros x. by rewrite <- Permutation_rev.
    + intros q. split; [|apply Hq]. unfold role_in. simpl. by rewrite (decide_ext _ _ _ _ (Hq q)).
Qed.

Lemma start_ok n : locks_ok (start n).
Proof.
  split; simpl; [| |by intros; simplify_map_eq..].
  - intros t g [-> _]%lookup_replicate. apply idle_ok.
  - intros t g k p [-> _]%lookup_replicate. simpl. by rewrite elem_of_nil.
Qed.

(** The states calls, releases and steps reach. *)
Definition reachable (n : nat) (s : RWLocks) : Prop := rtc step (start n) s.

Lemma reachable_ok n s : reachable n s → locks_ok s.
Proof. intros H. apply (rtc_ind_r locks_ok (start n)) in H; [done|apply start_ok|]. intros x y _ ? ?. by eapply keep_step. Qed.

(** ** Exclusion *)

Lemma refcount_pos gs p : refcount gs p ≠ 0%nat → ∃ t g, gs !! t = Some g ∧ p ∈ (refs g).*2.
Proof.
  unfold refcount. induction gs as [|g gs IH]; simpl; [done|]. unfold refers at 1. case_decide as Hp; intros H.
  - by exists 0%nat, g.
  - destruct (IH H) as (t & h & Ht & Hin). by exists (S t), h.
Qed.

Lemma owner_role s t g k :
  locks_ok s → threads s !! t = Some g → k ∈ (owns g).*1 →
  ∃ p e, held s !! k = Some p ∧ heap s !! p = Some e ∧ mutex_ok (roles_of (threads s) p) e ∧
    roles_of (threads s) p t = Some (writes g, true).
Proof.
  intros Hok Ht (p & Hin)%elem_fst. pose proof (lk_refs s Hok _ _ _ _ Ht (owns_refs _ _ Hin)) as Hk.
  destruct (lk_entry s Hok k p Hk) as (e & He & Hm & _). exists p, e. split_and!; try done.
  unfold roles_of. rewrite Ht. unfold role_in. rewrite decide_True; [done|]. apply elem_snd. by exists k.
Qed.

(** The keys a call takes: those it has and those still to do. *)
Definition wanted (g : goroutine) : list string :=
  match g with Acquiring _ es _ todo => es.*1 ++ todo | Holding _ es => es.*1 | _ => [] end.

Definition is_acquiring (g : goroutine) : bool := match g with Acquiring _ _ _ _ => true | _ => false end.

Lemma acquiring_keeps s t g s' :
  threads s !! t = Some g → is_acquiring g = true → step_thread s t = Some s' →
  ∃ g', threads s' !! t = Some g' ∧ (is_acquiring g' = true ∨ owns g' = refs g' ∧ (owns g').*1 = wanted g') ∧
    writes g' = writes g ∧ wanted g' = wanted g.
Proof.
  intros Ht Hg E. pose proof (lookup_lt_Some _ _ _ Ht) as Hlt. unfold step_thread in E. rewrite Ht in E.
  destruct g as [|w es sg todo|w es|w rest u]; try done.
  destruct sg as [|p|p], todo as [|k todo]; try done.
  - injection E as <-. eexists. simpl. rewrite list_lookup_insert_eq by done. split; [done|]. simpl. rewrite app_nil_r. auto.
  - unfold enter in E. destruct (held s !! k); injection E as <-; eexists; simpl; rewrite list_lookup_insert_eq by done; (split; [done|]); simpl; auto.
  - destruct (if w then _ else _) as [[e [|]]|]; try done; injection E as <-; eexists; simpl; rewrite list_lookup_insert_eq by done;
      (split; [done|]); simpl; rewrite ?fmap_app, <- ?app_assoc; auto.
  - destruct (granted _ _ _); [|done]. injection E as <-. eexists. simpl. rewrite list_lookup_insert_eq by done.
    (split; [done|]); simpl; rewrite ?fmap_app, <- ?app_assoc; auto.
Qed.

(** [C14] Mutual exclusion, in every state that any number of goroutines reach by
    calling [Lock], stepping inside it and releasing, in any interleaving: a key
    one goroutine holds for writing is held by no other, neither for writing nor
    for reading; and the lock table has an entry for exactly the keys some
    goroutine holds or awaits. A call takes for its mode exactly the keys it
    names that are not empty, and keeps to them until it returns holding them. *)
Theorem a_writer_holds_its_keys_alone n s :
  reachable n s →
  (∀ t u g h k, threads s !! t = Some g → threads s !! u = Some h →
     k ∈ (owns g).*1 → k ∈ (owns h).*1 → writes g = true → t = u) ∧
  (∀ k, is_Some (held s !! k) ↔ ∃ t g, threads s !! t = Some g ∧ k ∈ (refs g).*1) ∧
  (∀ t w keys s', call_Lock s t w keys = Some s' → ∃ g, threads s' !! t = Some g ∧
     writes g = w ∧ ∀ k, k ∈ wanted g ↔ k ∈ keys ∧ k ≠ "") ∧
  (∀ t g s', threads s !! t = Some g → is_acquiring g = true → step_thread s t = Some s' →
     ∃ g', threads s' !! t = Some g' ∧ (is_acquiring g' = true ∨ owns g' = refs g' ∧ (owns g').*1 = wanted g') ∧
       writes g' = writes g ∧ wanted g' = wanted g).
Proof.
  intros Hok%reachable_ok.
  assert (∀ k, is_Some (held s !! k) ↔ ∃ t g, threads s !! t = Some g ∧ k ∈ (refs g).*1) as Htable.
  { intros k. split.
    - intros [p Hk]. destruct (lk_entry s Hok k p Hk) as (e & He & Hm & Hu & Hpos).
      destruct (refcount_pos (threads s) p) as (t & g & Ht & (k' & Hin)%elem_snd); [lia|].
      exists t, g. split; [done|]. apply elem_fst. exists p.
      by rewrite (lk_inj s Hok k k' p) by (done || eapply lk_refs; eauto).
    - intros (t & g & Ht & (p & Hin)%elem_fst). exists p. by eapply lk_refs. }
  split_and!; [|exact Htable| |].
  - intros t u g h k Ht Hu Hg Hh Hw. destruct (owner_role s t g k Hok Ht Hg) as (p & e & Hk & He & Hm & Hr).
    destruct (owner_role s u h k Hok Hu Hh) as (p' & e' & Hk' & He' & _ & Hr'). simplify_eq. rewrite Hw in Hr.
    pose proof (mo_own_w _ _ Hm t Hr) as E. destruct (writes h).
    + pose proof (mo_own_w _ _ Hm u Hr') as E'. congruence.
    + pose proof (mo_own_r _ _ Hm u Hr') as E'. destruct (mo_wr _ _ Hm t E) as (_ & E0 & _). rewrite E0 in E'. set_solver.
  - intros t w keys s' E. unfold call_Lock in E. destruct (threads s !! t) as [[]|] eqn:Ht; try done. injection E as <-.
    simpl. rewrite list_lookup_insert_eq by (by eapply lookup_lt_Some). eexists. split; [done|]. split; [done|].
    apply lock_keys_spec.
  - intros t g s' Ht Hg E. by eapply acquiring_keeps.
Qed.

(** ** Progress *)

(** The goroutine's remaining work. *)
Definition stage_work (sg : stage) : nat := match sg with NotYet => 2 | Entered _ => 1 | Waiting _ => 0 end.
Definition work (g : goroutine) : nat :=
  match g with
  | Idle => 0
  | Acquiring _ es sg todo => 5 * length todo + stage_work sg + 2 * length es + 2
  | Holding _ es => 2 * length es + 3
  | Releasing _ rest unlocked => 2 * length rest + (if unlocked then 1 else 2)
  end.
Definition total_work (s : RWLocks) : nat := sum_list_with work (threads s).

(** The steps that lead out of the locks: those inside, and releases. *)
Definition drain (s s' : RWLocks) : Prop := ∃ t, step_thread s t = Some s' ∨ call_release s t = Some s'.

Lemma work_set_thread s s0 t g g' :
  threads s0 = threads s → threads s !! t = Some g → (work g' < work g)%nat →
  (total_work (set_thread s0 t g') < total_work s)%nat.
Proof.
  intros E Ht Hlt. unfold total_work. simpl. rewrite E. pose proof (sum_insert work _ t g g' Ht). lia.
Qed.

Lemma drain_work s s' : drain s s' → (total_work s' < total_work s)%nat.
Proof.
  intros (t & [E|E]); [unfold step_thread in E|unfold call_release in E];
    destruct (threads s !! t) as [g|] eqn:Ht; try done; destruct g as [|w es sg todo|w es|w rest u]; try done.
  - destruct sg as [|p|p], todo as [|k todo]; try done.
    + injection E as <-. eapply work_set_thread; [done|exact Ht|]. simpl. lia.
    + unfold enter in E. destruct (held s !! k); injection E as <-; (eapply work_set_thread; [done|exact Ht|]; simpl; lia).
    + destruct (if w then _ else _) as [[e [|]]|]; try done; injection E as <-;
        (eapply work_set_thread; [done|exact Ht|]); simpl; rewrite ?length_app; simpl; lia.
    + destruct (granted _ _ _); [|done]. injection E as <-. eapply work_set_thread; [done|exact Ht|]. simpl. rewrite length_app. simpl. lia.
  - destruct rest as [|[k p] rest], u; injection E as <-; (eapply work_set_thread; [|exact Ht|]); simpl; try done; try lia.
    unfold leave. by destruct (_ =? 0).
  - injection E as <-. eapply work_set_thread; [done|exact Ht|]. simpl. rewrite length_rev. lia.
Qed.

Lemma drain_step s s' : drain s s' → step s s'.
Proof. intros (t & [E|E]); [by eapply step_inside|by eapply step_release]. Qed.

(** The key a goroutine stands at. *)
Definition current (g : goroutine) : option string :=
  match g with Acquiring _ _ _ (k :: _) => Some k | _ => None end.

(** A goroutine that cannot step waits for an entry someone else is in. *)
Lemma stuck_goroutine s t g :
  locks_ok s → (¬ ∃ s', drain s s') → threads s !! t = Some g → g ≠ Idle →
  ∃ w es sg k todo p e u, g = Acquiring w es sg (k :: todo) ∧ held s !! k = Some p ∧ heap s !! p = Some e ∧
    mutex_ok (roles_of (threads s) p) e ∧ (wr e = Some u ∨ u ∈ rd e).
Proof.
  intros Hok Hno Ht Hidle. pose proof (lk_threads s Hok _ _ Ht) as Hg.
  assert (∀ s', step_thread s t ≠ Some s') as Hst by (intros s' E; apply Hno; exists s', t; by left).
  assert (∀ s', call_release s t ≠ Some s') as Hcr by (intros s' E; apply Hno; exists s', t; by right).
  unfold step_thread, call_release in *. rewrite Ht in Hst, Hcr.
  destruct g as [|w es sg todo|w es|w [|[k p] rest] [|]]; try done; try (exfalso; by eapply Hst); try (exfalso; by eapply Hcr).
  destruct todo as [|k todo]; [destruct Hg as (_ & _ & Hg); rewrite (Hg eq_refl) in Hst; exfalso; by eapply Hst|].
  destruct sg as [|p|p]; [destruct (enter s k); exfalso; by eapply Hst| |].
  - destruct (at_entry s t _ _ _ _ p _ Hok Ht ltac:(auto)) as (Hk & Hp & _).
    destruct (lk_entry s Hok k p Hk) as (e & He & Hm & _). unfold entry_at in Hst. rewrite He in Hst. simpl in Hst.
    enough (∃ u, wr e = Some u ∨ u ∈ rd e) as [u Hu] by (by exists w, es, (Entered p), k, todo, p, e, u).
    destruct w; [|destruct (RLock t e) as [? [|]]; exfalso; by eapply Hst].
    unfold WLock in Hst. destruct (wr e) as [u|] eqn:Ew; [by exists u; left|]. destruct (pend e) as [u|] eqn:Ep.
    + destruct (mo_pend _ _ Hm u Ep) as [Hrd _]. apply set_choose_L in Hrd as [v Hv]. exists v. by right.
    + destruct (bool_decide _); exfalso; by eapply Hst.
  - destruct (at_entry s t _ _ _ _ p _ Hok Ht ltac:(auto)) as (Hk & Hp & _).
    destruct (lk_entry s Hok k p Hk) as (e & He & Hm & _). unfold entry_at in Hst. rewrite He in Hst. simpl in Hst.
    enough (∃ u, wr e = Some u ∨ u ∈ rd e) as [u Hu] by (by exists w, es, (Waiting p), k, todo, p, e, u).
    assert (roles_of (threads s) p t = Some (w, false)) as Hr.
    { unfold roles_of. rewrite Ht. unfold role_in. simpl. by rewrite decide_False, decide_True. }
    assert (∀ u, pend e = Some u → ∃ v, wr e = Some v ∨ v ∈ rd e) as Hpend.
    { intros u Ep. destruct (mo_pend _ _ Hm u Ep) as [Hrd _]. apply set_choose_L in Hrd as [v Hv]. exists v. by right. }
    destruct w.
    + destruct (mo_wait_w _ _ Hm t Hr) as [?|?]; [by eapply Hpend|by exists t; left].
    + destruct (mo_wait_r _ _ Hm t Hr) as [Hw|?]; [|by exists t; right].
      destruct (mo_waitr _ _ Hm t Hw) as (_ & _ & [H|H]).
      * destruct (wr e) as [v|]; [by exists v; left|done].
      * destruct (pend e) as [v|] eqn:Ep; [by eapply Hpend|done].
Qed.

(** Whoever is in an entry of a state without steps owns its key. *)
Lemma stuck_owner s k p e u :
  locks_ok s → (¬ ∃ s', drain s s') → held s !! k = Some p → heap s !! p = Some e →
  mutex_ok (roles_of (threads s) p) e → wr e = Some u ∨ u ∈ rd e →
  ∃ h, threads s !! u = Some h ∧ k ∈ (owns h).*1.
Proof.
  intros Hok Hno Hk He Hm Hu.
  assert (∃ w o, roles_of (threads s) p u = Some (w, o) ∧ granted w u e = true) as (w & o & Hr & Hgr).
  { destruct Hu as [Hu|Hu].
    - destruct (mo_wr _ _ Hm u Hu) as (_ & _ & o & Ho). exists true, o. split; [done|]. by apply bool_decide_eq_true.
    - destruct (mo_rd _ _ Hm u Hu) as (o & Ho). exists false, o. split; [done|]. by apply bool_decide_eq_true. }
  unfold roles_of in Hr. destruct (threads s !! u) as [h|] eqn:Ht; [|done]. exists h. split; [done|].
  pose proof (lk_threads s Hok _ _ Ht) as Hh. unfold role_in in Hr. case_decide as Hown.
  - apply elem_snd in Hown as (k' & Hin). apply elem_fst. exists p.
    by rewrite (lk_inj s Hok k k' p) by (done || eapply lk_refs, owns_refs; eauto).
  - case_decide as Hw; [|done]. destruct h as [|w' es [|q|q] [|k' todo]|w' es|w' rest b]; try done; simpl in Hw.
    + destruct Hh as (_ & _ & Hh). by specialize (Hh eq_refl).
    + simpl in Hr. simplify_eq. destruct Hno. eexists. exists u. left. unfold step_thread. rewrite Ht.
      unfold entry_at. rewrite He. simpl. by rewrite Hgr.
Qed.

Lemma greatest_string (l : list string) : l ≠ [] → ∃ m, m ∈ l ∧ ∀ x, x ∈ l → ¬ slt m x.
Proof.
  induction l as [|a [|b l] IH]; intros H; [done| |].
  - exists a. split; [by left|]. intros x ->%list_elem_of_singleton. apply slt_irrefl.
  - destruct IH as (m & Hm & Hmax); [done|]. destruct (decide (slt m a)) as [Hlt|Hlt].
    + exists a. split; [by left|]. intros x [->|Hx]%elem_of_cons; [apply slt_irrefl|]. intros Hax.
      apply (Hmax x Hx). by transitivity a.
    + exists m. split; [by right|]. by intros x [->|Hx]%elem_of_cons; [|apply Hmax].
Qed.

(** A state without steps out of the locks has every goroutine outside. *)
Lemma no_deadlock s : locks_ok s → (¬ ∃ s', drain s s') → Forall (λ g, g = Idle) (threads s).
Proof.
  intros Hok Hno.
  assert (∀ t g, threads s !! t = Some g → g ≠ Idle → ∃ k, current g = Some k) as Hcur.
  { intros t g Ht Hi. destruct (stuck_goroutine s t g Hok Hno Ht Hi) as (w & es & sg & k & todo & _ & _ & _ & -> & _). by exists k. }
  destruct (decide (omap current (threads s) = [])) as [Hnil|Hne].
  - apply Forall_lookup. intros t g Ht. destruct (decide (work g = 0%nat)) as [Hz|Hz].
    { destruct g as [|? ? [] ?|?|? ? []]; simpl in Hz; try done; lia. }
    destruct (Hcur t g Ht) as [k Hk]; [by intros ->|].
    assert (k ∈ omap current (threads s)) as Hin by (apply list_elem_of_omap; exists g; split; [by eapply list_elem_of_lookup_2|done]).
    rewrite Hnil in Hin. by apply elem_of_nil in Hin.
  - destruct (greatest_string _ Hne) as (m & Hm & Hmax).
    apply list_elem_of_omap in Hm as (g & (t & Ht)%list_elem_of_lookup & Hg).
    destruct (stuck_goroutine s t g Hok Hno Ht) as (w & es & sg & k & todo & p & e & u & -> & Hk & He & Hmx & Hu); [by intros ->|].
    simpl in Hg. injection Hg as ->. destruct (stuck_owner s m p e u Hok Hno Hk He Hmx Hu) as (h & Hh & Hown).
    destruct (stuck_goroutine s u h Hok Hno Hh) as (w2 & es2 & sg2 & k2 & todo2 & _ & _ & _ & -> & _).
    { intros ->. by apply elem_of_nil in Hown. }
    destruct (lk_threads s Hok _ _ Hh) as (_ & Hs & _). destruct (StronglySorted_split _ _ _ _ Hs) as (_ & _ & Hlt & _).
    rewrite Forall_forall in Hlt. destruct (Hmax k2); [|by apply Hlt].
    apply list_elem_of_omap. eexists. split; [by eapply list_elem_of_lookup_2|done].
Qed.

(** [C15] Calls that name overlapping keys, in whatever order they name them,
    never deadlock. From every reachable state, however the scheduler picks
    among the steps inside [Lock], the releases of callers that hold keys and
    the steps inside the release function, the picks come to an end (no infinite
    run of such steps exists), and they end only where every [Lock] call has
    returned and been released: all goroutines outside and the table empty. *)
Theorem locks_never_deadlock n s :
  reachable n s →
  Acc (λ s2 s1, drain s1 s2) s ∧
  (∀ s', rtc drain s s' → (¬ ∃ s'', drain s' s'') → Forall (λ g, g = Idle) (threads s') ∧ held s' = ∅).
Proof.
  intros Hr. split.
  - clear Hr. remember (total_work s) as n0 eqn:E. revert s E. induction n0 as [n0 IH] using lt_wf_ind. intros s ->.
    constructor. intros s' Hd. eapply IH; [by apply drain_work|done].
  - intros s' Hrun Hno. assert (locks_ok s') as Hok.
    { apply (reachable_ok n). unfold reachable in *. etrans; [exact Hr|]. clear Hno. induction Hrun as [|x y z Hd _ IH]; [done|].
      eapply rtc_l; [by apply drain_step|]. apply IH. by eapply rtc_r; [|apply drain_step]. }
    pose proof (no_deadlock s' Hok Hno) as Hidle. split; [done|]. apply map_empty. intros k.
    destruct (held s' !! k) as [p|] eqn:Hk; [|done]. destruct (lk_entry s' Hok k p Hk) as (e & _ & _ & Hu & Hpos).
    destruct (refcount_pos (threads s') p) as (t & g & Ht & Hin); [lia|].
    rewrite Forall_lookup in Hidle. rewrite (Hidle t g Ht) in Hin. by apply elem_of_nil in Hin.
Qed.

(** ** A run of two goroutines *)

Inductive action := DoLock (t : nat) (w : bool) (keys : list string) | DoRelease (t : nat) | DoStep (t : nat).

Definition act (s : RWLocks) (a : action) : option RWLocks :=
  match a with DoLock t w keys => call_Lock s t w keys | DoRelease t => call_release s t | DoStep t => step_thread s t end.

Fixpoint run (s : RWLocks) (l : list action) : option RWLocks :=
  match l with [] => Some s | a :: l => match act s a with Some s' => run s' l | None => None end end.

Lemma run_reachable s l s' : run s l = Some s' → rtc step s s'.
Proof.
  revert s. induction l as [|a l IH]; simpl; intros s E; [by injection E as ->|].
  destruct (act s a) as [s1|] eqn:Ea; [|done]. eapply rtc_l; [|by apply IH].
  destruct a; [by eapply step_call|by eapply step_release|by eapply step_inside].
Qed.

(** The first writes "a" and "b"; the second, which reads "b" and "c", waits at "b". *)
Definition w_run : list action :=
  [DoLock 0 true ["b"; ""; "a"; "b"]; DoStep 0; DoStep 0; DoLock 1 false ["c"; "b"]; DoStep 0; DoStep 0; DoStep 1; DoStep 0; DoStep 1].
Definition w_state : RWLocks := default (start 2) (run (start 2) w_run).

(** [w_state] is reached, with the first goroutine holding and the second
    waiting; then exclusion holds there. *)
Lemma a_writer_holds_its_keys_alone_witness :
  threads w_state = [Holding true [("a", 0%nat); ("b", 1%nat)]; Acquiring false [] (Waiting 1) ["b"; "c"]] ∧
  ∀ u h, threads w_state !! u = Some h → "b" ∈ (owns h).*1 → 0%nat = u.
Proof.
  split; [by vm_compute|]. intros u h Hu Hh.
  refine (proj1 (a_writer_holds_its_keys_alone 2 w_state _) 0%nat u (Holding true [("a", 0%nat); ("b", 1%nat)]) h "b" _ Hu _ Hh _).
  - apply (run_reachable _ w_run). by vm_compute.
  - by vm_compute.
  - right. by left.
  - done.
Defined.

(** The same state drains: the reader gets "b" and "c" once the writer releases. *)
Lemma locks_never_deadlock_witness :
  run w_state [DoStep 1] = None ∧
  threads <$> run w_state [DoRelease 0; DoStep 0; DoStep 1] =
    Some [Releasing true [("b", 1%nat); ("a", 0%nat)] true; Acquiring false [("b", 1%nat)] NotYet ["c"]] ∧
  Acc (λ s2 s1, drain s1 s2) w_state.
Proof.
  split_and!; [by vm_compute..|]. refine (proj1 (locks_never_deadlock 2 w_state _)).
  apply (run_reachable _ w_run). by vm_compute.
Defined.
