(* ===== verification/Xdr.v ===== *)
(** * XDR items of the file server: [src/sim/fileshare/xdr.go]

    The encoder appends items to a buffer; the decoder reads them back with a
    sticky error, which a short or an overlong item sets. A slice expression out
    of range is a panic, [None]: the decoder's reads are proved never to reach
    one. A message is a sequence of items, as the request handlers read and
    write them. *)

From S2P Require Import Prelude Gostd.

(** ** [encoding/binary]: big-endian integers *)

Fixpoint be_bytes (k : nat) (v : Z) : list ascii :=
  match k with
  | O => []
  | S k => char_of (v / 256 ^ Z.of_nat k mod 256) :: be_bytes k v
  end.

Definition be_value (l : list ascii) : Z := foldl (λ a c, a * 256 + byte_of c) 0 l.

Lemma length_be_bytes k v : length (be_bytes k v) = k.
Proof. induction k; simpl; auto. Qed.

Lemma be_value_app l a : foldl (λ a c, a * 256 + byte_of c) a l = a * 256 ^ Z.of_nat (length l) + be_value l.
Proof.
  unfold be_value. revert a. induction l as [|c l IH]; intros a; [simpl; lia|]. cbn [foldl length].
  rewrite (IH (a * 256 + byte_of c)), (IH (0 * 256 + byte_of c)), Nat2Z.inj_succ, Z.pow_succ_r by lia. ring.
Qed.

Lemma be_value_bytes k v : be_value (be_bytes k v) = v mod 256 ^ Z.of_nat k.
Proof.
  unfold be_value. induction k as [|k IH]; [simpl; by rewrite Z.mod_1_r|]. cbn [be_bytes foldl].
  rewrite be_value_app, length_be_bytes. unfold be_value. rewrite IH, byte_of_char by (apply Z.mod_pos_bound; lia).
  rewrite Nat2Z.inj_succ, Z.pow_succ_r by lia. set (p := 256 ^ Z.of_nat k). assert (0 < p) by (apply Z.pow_pos_nonneg; lia).
  rewrite (Z.mul_comm 256 p), Z.rem_mul_r by lia. ring.
Qed.

Lemma be_value_range l : 0 ≤ be_value l < 256 ^ Z.of_nat (length l).
Proof.
  induction l as [|c l IH]; [done|]. unfold be_value. cbn [foldl length]. rewrite be_value_app.
  pose proof (byte_of_range c). rewrite Nat2Z.inj_succ, Z.pow_succ_r by lia. nia.
Qed.

(** A slice expression [b[lo:hi]]. *)
Definition slice (b : list ascii) (lo hi : Z) : option (list ascii) :=
  if (0 <=? lo) && (lo <=? hi) && (hi <=? Z.of_nat (length b))
  then Some (take (Z.to_nat (hi - lo)) (drop (Z.to_nat lo) b)) else None.

(** ** The encoder *)

Definition encoder := list ascii.

Definition encoder_uint32 (v : Z) (e : encoder) : encoder := e ++ be_bytes 4 v.
Definition encoder_uint64 (v : Z) (e : encoder) : encoder := e ++ be_bytes 8 v.
Definition encoder_bool (v : bool) (e : encoder) : encoder := encoder_uint32 (if v then 1 else 0) e.

Definition encoder_fixed (b : list ascii) (e : encoder) : encoder :=
  (e ++ b) ++ replicate (Z.to_nat (Z.rem (4 - Z.rem (Z.of_nat (length b)) 4) 4)) (char_of 0).

Definition encoder_opaque (b : list ascii) (e : encoder) : encoder :=
  encoder_fixed b (encoder_uint32 (Z.of_nat (length b) mod 2 ^ 32) e).

Definition encoder_str (s : string) (e : encoder) : encoder := encoder_opaque (chars s) e.

(** ** The decoder *)

Inductive xdr_error := errShort | errOpaque (n len : Z).

Record decoder := MkDecoder { buf : list ascii; off : Z; err : option xdr_error }.

Definition with_err (e : xdr_error) (d : decoder) : decoder := MkDecoder (buf d) (off d) (Some e).
Definition blen (d : decoder) : Z := Z.of_nat (length (buf d)).

(** [binary.BigEndian.Uint32] of the rest of the buffer, which panics on fewer
    than four bytes. *)
Definition decoder_uint32 (d : decoder) : option (decoder * Z) :=
  match err d with
  | Some _ => Some (d, 0)
  | None =>
      if blen d <? off d + 4 then Some (with_err errShort d, 0)
      else match slice (buf d) (off d) (off d + 4) with
           | Some b => Some (MkDecoder (buf d) (off d + 4) None, be_value b)
           | None => None
           end
  end.

Definition decoder_uint64 (d : decoder) : option (decoder * Z) :=
  match decoder_uint32 d with
  | None => None
  | Some (d, hi) =>
      match decoder_uint32 d with
      | None => None
      | Some (d, lo) => Some (d, Z.lor (Z.shiftl hi 32) lo)
      end
  end.

Definition decoder_bool (d : decoder) : option (decoder * bool) :=
  match decoder_uint32 d with Some (d, v) => Some (d, negb (v =? 0)) | None => None end.

Definition decoder_fixed (n : Z) (d : decoder) : option (decoder * list ascii) :=
  match err d with
  | Some _ => Some (d, [])
  | None =>
      let padded := i64 (n + Z.rem (4 - Z.rem n 4) 4) in
      if (n <? 0) || (blen d <? i64 (off d + padded)) then Some (with_err errShort d, [])
      else match slice (buf d) (off d) (off d + n) with
           | Some b => Some (MkDecoder (buf d) (off d + padded) None, b)
           | None => None
           end
  end.

Definition decoder_opaque (d : decoder) : option (decoder * list ascii) :=
  match decoder_uint32 d with
  | None => None
  | Some (d, n) =>
      if blen d mod 2 ^ 32 <? n then Some (with_err (errOpaque n (blen d)) d, [])
      else decoder_fixed n d
  end.

Definition decoder_str (d : decoder) : option (decoder * string) :=
  match decoder_opaque d with Some (d, b) => Some (d, text b) | None => None end.

Definition done (d : decoder) : bool := bool_decide (err d = None) && (off d =? blen d).

(** ** Messages *)

Inductive item := IUint32 (v : Z) | IUint64 (v : Z) | IBool (v : bool) | IFixed (b : list ascii) | IOpaque (b : list ascii) | IStr (s : string).
Inductive kind := KUint32 | KUint64 | KBool | KFixed (n : Z) | KOpaque | KStr.

Definition kind_of (i : item) : kind :=
  match i with
  | IUint32 _ => KUint32 | IUint64 _ => KUint64 | IBool _ => KBool
  | IFixed b => KFixed (Z.of_nat (length b)) | IOpaque _ => KOpaque | IStr _ => KStr
  end.

Definition encode (i : item) : encoder → encoder :=
  match i with
  | IUint32 v => encoder_uint32 v | IUint64 v => encoder_uint64 v | IBool v => encoder_bool v
  | IFixed b => encoder_fixed b | IOpaque b => encoder_opaque b | IStr s => encoder_str s
  end.

Definition result_of {A} (f : A → item) (r : option (decoder * A)) : option (decoder * item) :=
  match r with Some (d, v) => Some (d, f v) | None => None end.

Definition decode (k : kind) (d : decoder) : option (decoder * item) :=
  match k with
  | KUint32 => result_of IUint32 (decoder_uint32 d)
  | KUint64 => result_of IUint64 (decoder_uint64 d)
  | KBool => result_of IBool (decoder_bool d)
  | KFixed n => result_of IFixed (decoder_fixed n d)
  | KOpaque => result_of IOpaque (decoder_opaque d)
  | KStr => result_of IStr (decoder_str d)
  end.

Definition encode_all (l : list item) : encoder := foldl (λ e i, encode i e) [] l.

Fixpoint decode_all (ks : list kind) (d : decoder) : option (decoder * list item) :=
  match ks with
  | [] => Some (d, [])
  | k :: ks =>
      match decode k d with
      | None => None
      | Some (d, i) => match decode_all ks d with Some (d, l) => Some (d, i :: l) | None => None end
      end
  end.

(** What fits its item: integers of the width, lengths a [uint32] holds. *)
Definition fits (i : item) : Prop :=
  match i with
  | IUint32 v => 0 ≤ v < 2 ^ 32
  | IUint64 v => 0 ≤ v < 2 ^ 64
  | IBool _ => True
  | IFixed b | IOpaque b => Z.of_nat (length b) < 2 ^ 32
  | IStr s => Z.of_nat (String.length s) < 2 ^ 32
  end.

(** ** Encodings append *)

Definition bytes_of (i : item) : list ascii := encode i [].

Lemma encode_app i e : encode i e = e ++ bytes_of i.
Proof.
  unfold bytes_of. destruct i; simpl; unfold encoder_str, encoder_opaque, encoder_fixed, encoder_bool, encoder_uint32, encoder_uint64;
    by rewrite <- ?app_assoc.
Qed.

Lemma encode_all_app l e : foldl (λ e i, encode i e) e l = e ++ concat (bytes_of <$> l).
Proof.
  revert e. induction l as [|i l IH]; intros e; csimpl; [by rewrite app_nil_r|]. by rewrite IH, encode_app, app_assoc.
Qed.

Definition pad4 (n : Z) : Z := Z.rem (4 - Z.rem n 4) 4.

Lemma pad4_spec n : 0 ≤ n → 0 ≤ pad4 n < 4 ∧ (n + pad4 n) mod 4 = 0.
Proof. intros. unfold pad4. rewrite !(Z.rem_mod_nonneg n) by lia. rewrite Z.rem_mod_nonneg by dlia. dlia. Qed.

Lemma length_bytes_of i : Z.of_nat (length (bytes_of i)) mod 4 = 0.
Proof.
  assert (∀ b e, Z.of_nat (length e) mod 4 = 0 → Z.of_nat (length (encoder_fixed b e)) mod 4 = 0) as Hf.
  { intros b e He. unfold encoder_fixed. rewrite !length_app, length_replicate.
    pose proof (pad4_spec (Z.of_nat (length b))) as Hp. unfold pad4 in Hp. dlia. }
  destruct i; unfold bytes_of; cbn [encode]; try done; by apply Hf.
Qed.

(** ** Reading back *)

Lemma slice_middle (a b c : list ascii) :
  slice (a ++ b ++ c) (Z.of_nat (length a)) (Z.of_nat (length a) + Z.of_nat (length b)) = Some b.
Proof.
  unfold slice. rewrite !length_app, (proj2 (Z.leb_le _ _)), (proj2 (Z.leb_le _ _)), (proj2 (Z.leb_le _ _)) by lia. simpl.
  rewrite Nat2Z.id, drop_app_length. replace (Z.to_nat _) with (length b) by lia. by rewrite take_app_length.
Qed.

(** A decoder that has read [a] of [a ++ b]. *)
Definition at_pos (a b : list ascii) : decoder := MkDecoder (a ++ b) (Z.of_nat (length a)) None.

Lemma at_pos_app a b c : MkDecoder (a ++ b ++ c) (Z.of_nat (length a) + Z.of_nat (length b)) None = at_pos (a ++ b) c.
Proof. unfold at_pos. rewrite length_app, <- app_assoc. f_equal. lia. Qed.

Lemma blen_at a b : blen (at_pos a b) = Z.of_nat (length a) + Z.of_nat (length b).
Proof. unfold blen. simpl. rewrite length_app. lia. Qed.

Lemma be_bytes_8 v : be_bytes 8 v = be_bytes 4 (v / 2 ^ 32) ++ be_bytes 4 v.
Proof.
  cbn [be_bytes app]. by rewrite !Z.div_div by done.
Qed.

#[local] Arguments be_bytes : simpl never.

Lemma read_uint32 a v c :
  decoder_uint32 (at_pos a (be_bytes 4 v ++ c)) = Some (at_pos (a ++ be_bytes 4 v) c, v mod 2 ^ 32).
Proof.
  unfold decoder_uint32. rewrite blen_at, length_app, length_be_bytes. cbn [err off buf at_pos].
  rewrite (proj2 (Z.ltb_ge _ _)) by lia. pose proof (slice_middle a (be_bytes 4 v) c) as Hs.
  rewrite length_be_bytes in Hs. change (Z.of_nat 4) with 4 in Hs. rewrite Hs, be_value_bytes, <- at_pos_app, length_be_bytes. done.
Qed.

Lemma short_uint32 a c : (length c < 4)%nat → decoder_uint32 (at_pos a c) = Some (with_err errShort (at_pos a c), 0).
Proof. intros. unfold decoder_uint32. rewrite blen_at. simpl. by rewrite (proj2 (Z.ltb_lt _ _)) by lia. Qed.

Lemma testbit_small lo k : 0 ≤ lo < 2 ^ 32 → 32 ≤ k → Z.testbit lo k = false.
Proof.
  intros Hlo Hk. apply Z.bits_above_log2; [lia|]. destruct (Z.eq_dec lo 0) as [->|]; [simpl; lia|].
  apply Z.log2_lt_pow2; [lia|]. eapply Z.lt_le_trans; [apply Hlo|]. apply Z.pow_le_mono_r; lia.
Qed.

Lemma lor_shiftl_add hi lo : 0 ≤ lo < 2 ^ 32 → Z.lor (Z.shiftl hi 32) lo = hi * 2 ^ 32 + lo.
Proof.
  intros Hlo. rewrite <- Z.shiftl_mul_pow2 by lia.
  assert (Z.land (Z.shiftl hi 32) lo = 0) as Hland.
  { apply Z.bits_inj'. intros k Hk. rewrite Z.land_spec, Z.bits_0.
    destruct (Z.lt_ge_cases k 32); [by rewrite Z.shiftl_spec_low|]. rewrite (testbit_small lo k) by done. apply andb_false_r. }
  by rewrite (Z.add_nocarry_lxor _ _ Hland), (Z.lxor_lor _ _ Hland).
Qed.

(** What reading an item does with the whole of it, and with less. *)
Lemma read_fixed a b c :
  Z.of_nat (length (a ++ encoder_fixed b [] ++ c)) < 2 ^ 33 →
  decoder_fixed (Z.of_nat (length b)) (at_pos a (encoder_fixed b [] ++ c)) = Some (at_pos (a ++ encoder_fixed b []) c, b).
Proof.
  intros Hlen. unfold encoder_fixed in *. fold (pad4 (Z.of_nat (length b))) in *. cbn [app] in *.
  set (z := replicate (Z.to_nat (pad4 (Z.of_nat (length b)))) (char_of 0)) in *.
  pose proof (pad4_spec (Z.of_nat (length b)) ltac:(lia)) as [Hp _].
  assert (Z.of_nat (length z) = pad4 (Z.of_nat (length b))) as Hz by (subst z; rewrite length_replicate; lia).
  unfold decoder_fixed. fold (pad4 (Z.of_nat (length b))). rewrite blen_at, !length_app in *. cbn [err off buf at_pos].
  rewrite !i64_id by (unfold in_i64; rewrite ?i64_id by (unfold in_i64; lia); lia).
  rewrite (proj2 (Z.ltb_ge (Z.of_nat (length b)) 0)), (proj2 (Z.ltb_ge _ _)) by lia. cbn [orb].
  rewrite <- app_assoc, slice_middle. rewrite <- Hz, (app_assoc b z c), <- at_pos_app, length_app. by rewrite Nat2Z.inj_add, Z.add_assoc.
Qed.

Lemma short_fixed a n c :
  0 ≤ n < 2 ^ 32 → Z.of_nat (length (a ++ c)) < 2 ^ 33 → Z.of_nat (length c) < n + pad4 n →
  decoder_fixed n (at_pos a c) = Some (with_err errShort (at_pos a c), []).
Proof.
  intros Hn Hlen Hs. pose proof (pad4_spec n ltac:(lia)) as [Hp _]. rewrite length_app in Hlen.
  unfold decoder_fixed. fold (pad4 n). rewrite blen_at. cbn [err off buf at_pos].
  rewrite !i64_id by (unfold in_i64; rewrite ?i64_id by (unfold in_i64; lia); lia).
  by rewrite (proj2 (Z.ltb_ge n 0)), (proj2 (Z.ltb_lt _ _)) by lia.
Qed.

Lemma fixed_length b : Z.of_nat (length (encoder_fixed b [])) = Z.of_nat (length b) + pad4 (Z.of_nat (length b)).
Proof.
  unfold encoder_fixed. fold (pad4 (Z.of_nat (length b))). pose proof (pad4_spec (Z.of_nat (length b))).
  rewrite !length_app, length_replicate. simpl. lia.
Qed.

Lemma opaque_split b : encoder_opaque b [] = be_bytes 4 (Z.of_nat (length b) mod 2 ^ 32) ++ encoder_fixed b [].
Proof. unfold encoder_opaque, encoder_fixed, encoder_uint32. by rewrite <- !app_assoc. Qed.

Lemma read_opaque a b c :
  Z.of_nat (length b) < 2 ^ 32 → Z.of_nat (length (a ++ encoder_opaque b [] ++ c)) < 2 ^ 32 →
  decoder_opaque (at_pos a (encoder_opaque b [] ++ c)) = Some (at_pos (a ++ encoder_opaque b []) c, b).
Proof.
  intros Hb Hlen. rewrite opaque_split in *. rewrite !Z.mod_small in * by lia. rewrite <- !app_assoc in *.
  unfold decoder_opaque. rewrite read_uint32. cbv beta iota. rewrite (Z.mod_small (Z.of_nat (length b))) by lia. rewrite blen_at.
  rewrite !length_app in Hlen. pose proof (fixed_length b). pose proof (pad4_spec (Z.of_nat (length b))).
  rewrite Z.mod_small by (rewrite !length_app; lia). rewrite (proj2 (Z.ltb_ge _ _)) by (rewrite !length_app; lia).
  rewrite read_fixed by (rewrite !length_app; lia). by rewrite <- !app_assoc.
Qed.

(** Every item that fits reads back, and leaves the decoder after it. *)
Lemma read_item a i c :
  fits i → Z.of_nat (length (a ++ bytes_of i ++ c)) < 2 ^ 32 →
  decode (kind_of i) (at_pos a (bytes_of i ++ c)) = Some (at_pos (a ++ bytes_of i) c, i).
Proof.
  intros Hf Hlen. destruct i as [v|v|v|b|b|s]; unfold bytes_of in *; cbn [encode decode kind_of fits] in *.
  - unfold encoder_uint32. cbn [app]. rewrite read_uint32, Z.mod_small by lia. done.
  - unfold encoder_uint64. cbn [app]. unfold decoder_uint64. rewrite be_bytes_8, <- app_assoc, read_uint32, read_uint32.
    rewrite lor_shiftl_add by (apply Z.mod_pos_bound; lia). cbn [result_of]. rewrite <- app_assoc. do 3 f_equal. dlia.
  - unfold encoder_bool, encoder_uint32. cbn [app]. unfold decoder_bool. rewrite read_uint32. by destruct v.
  - rewrite read_fixed by lia. done.
  - rewrite read_opaque by lia. done.
  - unfold encoder_str in *. unfold decoder_str.
    assert (length (chars s) = String.length s) as E by (clear; induction s; simpl; auto).
    rewrite read_opaque by lia. cbn [result_of]. by rewrite text_chars.
Qed.

(** An error sticks: later reads change nothing. *)
Lemma decode_sticky k d : err d ≠ None → ∃ v, decode k d = Some (d, v).
Proof.
  intros He. assert (decoder_uint32 d = Some (d, 0)) as H32 by (unfold decoder_uint32; by destruct (err d)).
  assert (∀ n, decoder_fixed n d = Some (d, [])) as Hf by (intros n; unfold decoder_fixed; by destruct (err d)).
  assert (decoder_opaque d = Some (d, [])) as Ho.
  { unfold decoder_opaque. rewrite H32, Hf. by rewrite (proj2 (Z.ltb_ge _ _)) by (apply Z.mod_pos_bound; lia). }
  destruct k; simpl; unfold decoder_uint64, decoder_bool, decoder_str; rewrite ?H32, ?Hf, ?Ho; eauto.
Qed.

Lemma decode_all_sticky ks d : err d ≠ None → ∃ vs, decode_all ks d = Some (d, vs).
Proof.
  intros He. induction ks as [|k ks [vs IH]]; simpl; [by exists []|].
  destruct (decode_sticky k d He) as [v ->]. rewrite IH. eauto.
Qed.

Lemma cut_cases (x r cut more : list ascii) :
  x ++ r = cut ++ more → more ≠ [] →
  (length cut < length x)%nat ∨ ∃ cut', cut = x ++ cut' ∧ r = cut' ++ more.
Proof.
  intros E Hm. apply app_eq_inv in E as [(k & -> & ->)|(k & -> & ->)]; [|right; by exists k].
  destruct k as [|c k]; [right; exists []; by rewrite !app_nil_r|left]. rewrite length_app. simpl. lia.
Qed.

Definition fails (r : option (decoder * item)) : Prop := ∃ d v, r = Some (d, v) ∧ err d ≠ None.

Lemma cut_fixed a b cut more :
  Z.of_nat (length b) < 2 ^ 32 → Z.of_nat (length (a ++ cut)) < 2 ^ 33 → encoder_fixed b [] = cut ++ more → more ≠ [] →
  decoder_fixed (Z.of_nat (length b)) (at_pos a cut) = Some (with_err errShort (at_pos a cut), []).
Proof.
  intros Hb Hlen E Hm. apply short_fixed; [lia|done|]. pose proof (fixed_length b) as H. rewrite E, length_app in H.
  destruct more; [done|]. simpl in H. lia.
Qed.

Lemma cut_opaque a b cut more :
  Z.of_nat (length b) < 2 ^ 32 → Z.of_nat (length (a ++ cut)) < 2 ^ 32 → encoder_opaque b [] = cut ++ more → more ≠ [] →
  ∃ d, decoder_opaque (at_pos a cut) = Some (d, []) ∧ err d ≠ None.
Proof.
  intros Hb Hlen E Hm. rewrite opaque_split in E. rewrite Z.mod_small in E by lia. unfold decoder_opaque.
  destruct (cut_cases _ _ _ _ E Hm) as [Hs|(cut' & -> & E')].
  - rewrite length_be_bytes in Hs. rewrite short_uint32 by done.
    rewrite (proj2 (Z.ltb_ge _ _)) by (apply Z.mod_pos_bound; lia). eexists. split; [reflexivity|done].
  - rewrite read_uint32. cbv beta iota. rewrite (Z.mod_small (Z.of_nat (length b))) by lia.
    destruct (_ <? _); [eexists; split; [reflexivity|done]|]. rewrite (cut_fixed _ _ _ more Hb); [| |done|done].
    + eexists. split; [reflexivity|done].
    + rewrite <- app_assoc. lia.
Qed.

(** An item cut short sets the error. *)
Lemma cut_item a i cut more :
  fits i → Z.of_nat (length (a ++ cut)) < 2 ^ 32 → bytes_of i = cut ++ more → more ≠ [] →
  fails (decode (kind_of i) (at_pos a cut)).
Proof.
  intros Hf Hlen E Hm. unfold fails.
  assert (∀ v, be_bytes 4 v = cut ++ more → decoder_uint32 (at_pos a cut) = Some (with_err errShort (at_pos a cut), 0)) as H32.
  { intros v E'. apply short_uint32. apply (f_equal length) in E'. rewrite length_be_bytes, length_app in E'. destruct more; [done|]. simpl in E'. lia. }
  destruct i as [v|v|v|b|b|s]; unfold bytes_of in *; cbn [encode decode kind_of fits] in *.
  - rewrite (H32 _ E). eexists _, _. split; [reflexivity|done].
  - unfold encoder_uint64 in E. cbn [app] in E. rewrite be_bytes_8 in E. unfold decoder_uint64.
    destruct (cut_cases _ _ _ _ E Hm) as [Hs|(cut' & -> & E')].
    + rewrite length_be_bytes in Hs. rewrite short_uint32 by done. simpl. eexists _, _. split; [reflexivity|done].
    + rewrite read_uint32, short_uint32; [eexists _, _; split; [reflexivity|done]|].
      apply (f_equal length) in E'. rewrite length_be_bytes, length_app in E'. destruct more; [done|]. simpl in E'. lia.
  - unfold decoder_bool. rewrite (H32 _ E). eexists _, _. split; [reflexivity|done].
  - rewrite (cut_fixed _ _ _ more) by (done || lia). eexists _, _. split; [reflexivity|done].
  - destruct (cut_opaque a b cut more) as (d & -> & ?); [done..|]. eexists _, _. split; [reflexivity|done].
  - unfold encoder_str in E. unfold decoder_str.
    assert (length (chars s) = String.length s) as El by (clear; induction s; simpl; auto).
    destruct (cut_opaque a (chars s) cut more) as (d & -> & ?); [lia|done..|]. eexists _, _. split; [reflexivity|done].
Qed.

Lemma read_all a l c :
  Forall fits l → Z.of_nat (length (a ++ concat (bytes_of <$> l) ++ c)) < 2 ^ 32 →
  decode_all (kind_of <$> l) (at_pos a (concat (bytes_of <$> l) ++ c)) = Some (at_pos (a ++ concat (bytes_of <$> l)) c, l).
Proof.
  intros Hf. revert a. induction Hf as [|i l Hi Hf IH]; intros a Hlen; csimpl in *; [by rewrite app_nil_r|].
  rewrite <- app_assoc in *. rewrite (read_item a i) by done. rewrite IH by (by rewrite <- app_assoc). by rewrite <- app_assoc.
Qed.

Lemma cut_all a l cut more :
  Forall fits l → Z.of_nat (length (a ++ cut)) < 2 ^ 32 → concat (bytes_of <$> l) = cut ++ more → more ≠ [] →
  ∃ d vs, decode_all (kind_of <$> l) (at_pos a cut) = Some (d, vs) ∧ err d ≠ None.
Proof.
  intros Hf. revert a cut. induction Hf as [|i l Hi Hf IH]; intros a cut Hlen E Hm; csimpl in *.
  { by destruct cut, more. }
  destruct (cut_cases _ _ _ _ E Hm) as [Hs|(cut' & -> & E')].
  - apply app_eq_inv in E as [(k & E & _)|(k & -> & _)]; [|rewrite length_app in Hs; lia].
    destruct (cut_item a i cut k) as (d & v & -> & He); [done|done|done| |].
    { intros ->. rewrite app_nil_r in E. rewrite E in Hs. lia. }
    destruct (decode_all_sticky (kind_of <$> l) d He) as [vs ->]. eexists _, _. split; [reflexivity|done].
  - rewrite (read_item a i) by done. destruct (IH (a ++ bytes_of i) cut') as (d & vs & -> & He); [by rewrite <- app_assoc|done|done|].
    eexists _, _. split; [reflexivity|done].
Qed.

(** [C38] Whatever items a handler writes, within the widths of their types and
    in a message of less than 4 GiB, the message is a multiple of four bytes
    long, and reading items of the same kinds gives back the same items and ends
    at the end of the message without error; reading them from a message that
    lost any bytes at its end, padding included, sets the decoder's error, which
    the handlers test, and so [done] is false too. *)
Theorem xdr_roundtrip l :
  Forall fits l → Z.of_nat (length (encode_all l)) < 2 ^ 32 →
  Z.of_nat (length (encode_all l)) mod 4 = 0 ∧
  (∃ d, decode_all (kind_of <$> l) (MkDecoder (encode_all l) 0 None) = Some (d, l) ∧ done d = true) ∧
  (∀ cut more, encode_all l = cut ++ more → more ≠ [] →
     ∃ d vs, decode_all (kind_of <$> l) (MkDecoder cut 0 None) = Some (d, vs) ∧ err d ≠ None ∧ done d = false).
Proof.
  intros Hf. unfold encode_all. rewrite encode_all_app. cbn [app]. intros Hlen. split_and!.
  - clear. induction l as [|i l IH]; csimpl; [done|]. rewrite length_app. pose proof (length_bytes_of i). dlia.
  - pose proof (read_all [] l [] Hf) as H. rewrite !app_nil_r in H. cbn [app] in H. specialize (H Hlen).
    eexists. split; [exact H|]. unfold done. rewrite blen_at. simpl. by apply Z.eqb_eq; lia.
  - intros cut more E Hm. rewrite E, length_app in Hlen.
    destruct (cut_all [] l cut more Hf) as (d & vs & H & He); [cbn [app]; lia|done|done|].
    exists d, vs. split; [exact H|]. split; [exact He|]. unfold done. by rewrite bool_decide_eq_false_2.
Qed.

Definition w_items : list item := [IUint32 7; IUint64 (2 ^ 63 + 5); IBool true; IFixed (chars "abc"); IStr "share"; IOpaque []].

Lemma xdr_roundtrip_witness :
  length (encode_all w_items) = 36%nat ∧
  ∃ d, decode_all (kind_of <$> w_items) (MkDecoder (encode_all w_items) 0 None) = Some (d, w_items) ∧ done d = true.
Proof.
  split; [by vm_compute|]. refine (proj1 (proj2 (xdr_roundtrip w_items _ _))); [|by vm_compute].
  repeat constructor; vm_compute; try done; by split.
Defined.

(** ** Any bytes at all *)

Definition decoder_ok (d : decoder) : Prop := 0 ≤ off d ≤ blen d ∧ blen d < 2 ^ 62.
Definition kind_ok (k : kind) : Prop := match k with KFixed n => n ≤ 2 ^ 61 | _ => True end.

(** What a read may do to the decoder: move on inside the buffer, or fail. *)
Definition moves (d d' : decoder) : Prop := buf d' = buf d ∧ off d ≤ off d' ∧ decoder_ok d'.

Lemma slice_some b lo hi : 0 ≤ lo ≤ hi → hi ≤ Z.of_nat (length b) →
  ∃ r, slice b lo hi = Some r ∧ Z.of_nat (length r) = hi - lo.
Proof.
  intros H1 H2. unfold slice. rewrite (proj2 (Z.leb_le 0 lo)), (proj2 (Z.leb_le lo hi)), (proj2 (Z.leb_le hi _)) by lia.
  simpl. eexists. split; [done|]. rewrite length_take, length_drop. lia.
Qed.

Lemma moves_uint32 d : decoder_ok d → ∃ d' v, decoder_uint32 d = Some (d', v) ∧ moves d d' ∧ 0 ≤ v < 2 ^ 32.
Proof.
  intros [Hoff Hlen]. unfold decoder_uint32. destruct (err d) as [e|]; [by exists d, 0|].
  destruct (Z.ltb_spec (blen d) (off d + 4)) as [Hs|Hs]; [by eexists _, _; split; [reflexivity|]|].
  destruct (slice_some (buf d) (off d) (off d + 4)) as (r & -> & Hr); [lia|done|]. eexists _, _. split; [reflexivity|].
  pose proof (be_value_range r) as Hv. rewrite Hr in Hv. replace (off d + 4 - off d) with 4 in Hv by lia.
  split; [|exact Hv]. unfold moves, decoder_ok, blen in *. simpl. split_and!; try done; lia.
Qed.

Lemma moves_fixed n d : decoder_ok d → n ≤ 2 ^ 61 → ∃ d' b, decoder_fixed n d = Some (d', b) ∧ moves d d'.
Proof.
  intros [Hoff Hlen] Hn. unfold decoder_fixed. destruct (err d) as [e|]; [by exists d, []|].
  fold (pad4 n). destruct (Z.ltb_spec n 0) as [Hneg|Hpos]; [by eexists _, _; split; [reflexivity|]|]. cbn [orb].
  pose proof (pad4_spec n Hpos) as [Hp _]. rewrite !i64_id by (unfold in_i64; rewrite ?i64_id by (unfold in_i64; lia); lia).
  destruct (Z.ltb_spec (blen d) (off d + (n + pad4 n))) as [Hs|Hs]; [by eexists _, _; split; [reflexivity|]|].
  destruct (slice_some (buf d) (off d) (off d + n)) as (r & -> & Hr); [lia|unfold blen in *; lia|]. eexists _, _. split; [reflexivity|].
  unfold moves, decoder_ok, blen in *. simpl. split_and!; try done; lia.
Qed.

Lemma moves_trans d1 d2 d3 : moves d1 d2 → moves d2 d3 → moves d1 d3.
Proof. intros (H1 & H2 & H3) (H4 & H5 & H6). split_and!; [congruence|lia|done]. Qed.

Lemma moves_opaque d : decoder_ok d → ∃ d' b, decoder_opaque d = Some (d', b) ∧ moves d d'.
Proof.
  intros Hok. unfold decoder_opaque. destruct (moves_uint32 d Hok) as (d1 & n & -> & Hm & Hn).
  destruct (_ <? _); [eexists _, _; split; [reflexivity|exact Hm]|].
  destruct (moves_fixed n d1) as (d2 & b & -> & Hm2); [apply Hm|lia|]. eexists _, _. split; [reflexivity|by eapply moves_trans].
Qed.

(** A client's bytes cannot make the decoder read outside them: whatever
    the buffer holds and whatever items a handler asks for, in any number, every
    slice the decoder takes is in range, the buffer stays as it is, and the
    offset only moves forward and never past the end. *)
Theorem xdr_reads_stay_inside ks d :
  decoder_ok d → Forall kind_ok ks → ∃ d' vs, decode_all ks d = Some (d', vs) ∧ moves d d' ∧ length vs = length ks.
Proof.
  intros Hok Hks. revert d Hok. induction Hks as [|k ks Hk Hks IH]; intros d Hok; [by exists d, []|]. simpl.
  assert (∃ d1 v, decode k d = Some (d1, v) ∧ moves d d1) as (d1 & v & -> & Hm).
  { destruct k; simpl in *.
    - destruct (moves_uint32 d Hok) as (d1 & v & -> & Hm & _). by eexists _, _.
    - unfold decoder_uint64. destruct (moves_uint32 d Hok) as (d1 & v & -> & Hm & _).
      destruct (moves_uint32 d1) as (d2 & v2 & -> & Hm2 & _); [apply Hm|]. eexists _, _. split; [reflexivity|by eapply moves_trans].
    - unfold decoder_bool. destruct (moves_uint32 d Hok) as (d1 & v & -> & Hm & _). by eexists _, _.
    - destruct (moves_fixed n d Hok Hk) as (d1 & b & -> & Hm). by eexists _, _.
    - destruct (moves_opaque d Hok) as (d1 & b & -> & Hm). by eexists _, _.
    - unfold decoder_str. destruct (moves_opaque d Hok) as (d1 & b & -> & Hm). by eexists _, _. }
  destruct (IH d1) as (d2 & vs & -> & Hm2 & Hl); [apply Hm|]. eexists _, _. split; [reflexivity|].
  split; [by eapply moves_trans|simpl; lia].
Qed.

(** A length far past the end. *)
Lemma xdr_reads_stay_inside_witness :
  ∃ d' vs, decode_all [KOpaque; KUint64] (MkDecoder (be_bytes 4 (2 ^ 32 - 1) ++ chars "xy") 0 None) = Some (d', vs) ∧
    err d' = Some (errOpaque 4294967295 6) ∧ off d' = 4.
Proof.
  destruct (xdr_reads_stay_inside [KOpaque; KUint64] (MkDecoder (be_bytes 4 (2 ^ 32 - 1) ++ chars "xy") 0 None)) as (d' & vs & E & _).
  - by vm_compute.
  - by repeat constructor.
  - exists d', vs. split; [exact E|]. vm_compute in E. by injection E as <- <-.
Defined.
