(* ===== verification/Health.v ===== *)
(** * Target health: [src/sim/lbplane/health.go]

    The tracker keeps one record per target and folds check results into it.
    Its methods run under one mutex and are atomic; a sweep issues the checks
    that are due and folds their results as they answer, in any order. The
    counters are integers without a bound. *)

From S2P Require Import Prelude.

(** ** Records *)

Inductive HealthState := HealthInitial | HealthHealthy | HealthUnhealthy.

#[global] Instance HealthState_dec : EqDecision HealthState.
Proof. solve_decision. Defined.

Record HealthPolicy := MkPolicy {
  Interval : Duration; InitialHealthyThreshold : Z; HealthyThreshold : Z; UnhealthyThreshold : Z
}.

(** An error is its text. *)
Record Health := MkHealth {
  State : HealthState; Checks : Z; Successes : Z; Failures : Z;
  LastStatus : Z; LastErr : option string; LastFailure : option string; LastChecked : Time; nextCheck : Time
}.

Definition zero_Health : Health := MkHealth HealthInitial 0 0 0 0 None None 0 0.

(** A completed check: its status and error. *)
Definition answer : Type := Z * option string.

(** [record], on the record of its target. *)
Definition record_answer (policy : HealthPolicy) (issued : Time) (a : answer) (r : Health) : Health :=
  let '(status, err) := a in
  match err with
  | None =>
      let successes := Successes r + 1 in
      let threshold := if decide (State r = HealthUnhealthy) then HealthyThreshold policy else InitialHealthyThreshold policy in
      MkHealth (if Z.max threshold 1 <=? successes then HealthHealthy else State r)
        (Checks r + 1) successes 0 status None (LastFailure r) issued (nextCheck r)
  | Some e =>
      let failures := Failures r + 1 in
      MkHealth (if Z.max (UnhealthyThreshold policy) 1 <=? failures then HealthUnhealthy else State r)
        (Checks r + 1) 0 failures status (Some e) (Some e) issued (nextCheck r)
  end.

(** ** The tracker: the record of each target. *)

Abbreviation HealthTracker K := (gmap K Health).

Section Tracker.
Context {K : Type} `{Countable K}.

Record HealthTarget := MkTarget { Key : K; Policy : HealthPolicy }.

Definition NewHealthTracker : HealthTracker K := ∅.
Definition Health_of (t : HealthTracker K) (key : K) : option Health := t !! key.
Definition Forget (t : HealthTracker K) (key : K) : HealthTracker K := delete key t.
Definition Reset (t : HealthTracker K) : HealthTracker K := ∅.

Definition record (t : HealthTracker K) (key : K) (policy : HealthPolicy) (issued : Time) (a : answer) : HealthTracker K * bool :=
  match t !! key with
  | None => (t, false)
  | Some r => let r' := record_answer policy issued a r in (<[key:=r']> t, bool_decide (State r' ≠ State r))
  end.

Definition book (next : Time) (r : Health) : Health :=
  MkHealth (State r) (Checks r) (Successes r) (Failures r) (LastStatus r) (LastErr r) (LastFailure r) (LastChecked r) next.

(** The loop of [schedule] over the targets: the records and the targets due. *)
Fixpoint schedule_loop (now : Time) (t : HealthTracker K) (targets : list HealthTarget) : HealthTracker K * list HealthTarget :=
  match targets with
  | [] => (t, [])
  | target :: targets =>
      let next := now + Interval (Policy target) in
      match t !! Key target with
      | Some r =>
          if now <? nextCheck r then schedule_loop now t targets
          else let '(t', due) := schedule_loop now (<[Key target:=book next r]> t) targets in (t', target :: due)
      | None =>
          let '(t', due) := schedule_loop now (<[Key target:=book next zero_Health]> t) targets in (t', target :: due)
      end
  end.

Definition schedule (now : Time) (t : HealthTracker K) (targets : list HealthTarget) : HealthTracker K * list HealthTarget :=
  let '(t, due) := schedule_loop now t targets in
  (filter (λ kr, kr.1 ∈ map Key targets) t, due).

(** The checks in flight answer one by one; the channel gets the keys whose
    state changed. *)
Fixpoint answers (now : Time) (probe : HealthTarget → answer) (t : HealthTracker K) (due : list HealthTarget) : HealthTracker K * list K :=
  match due with
  | [] => (t, [])
  | target :: due =>
      let '(t, changed) := record t (Key target) (Policy target) now (probe target) in
      let '(t, keys) := answers now probe t due in
      (t, if changed : bool then Key target :: keys else keys)
  end.

(** [Sweep], when the due checks answer in the order [arrive] puts them. *)
Definition Sweep (arrive : list HealthTarget → list HealthTarget) (probe : HealthTarget → answer)
    (now : Time) (t : HealthTracker K) (targets : list HealthTarget) : HealthTracker K * list K :=
  let '(t, due) := schedule now t targets in answers now probe t (arrive due).
End Tracker.
Arguments HealthTarget K : clear implicits.

(** ** When a target is in service

    The results of one target's checks, oldest first. *)
Definition replay (policy : HealthPolicy) (l : list (Time * answer)) (r : Health) : Health :=
  foldl (λ r x, record_answer policy x.1 x.2 r) r l.

Definition passed (x : Time * answer) : bool := match x.2.2 with None => true | Some _ => false end.

(** At least [n] results in a row, and at least one, of the kind [b]. *)
Definition streak (b : bool) (n : Z) (l : list bool) : Prop :=
  ∃ pre post, l = pre ++ replicate (Z.to_nat (Z.max n 1)) b ++ post.

(** The results of the kind [b] at the end of a list. *)
Fixpoint leading (b : bool) (l : list bool) : nat :=
  match l with x :: l => if Bool.eqb x b then S (leading b l) else 0 | [] => 0 end.
Definition trailing (b : bool) (l : list bool) : nat := leading b (rev l).

(** ** Streaks *)

Lemma trailing_snoc b l x : trailing b (l ++ [x]) = if Bool.eqb x b then S (trailing b l) else 0%nat.
Proof. unfold trailing. by rewrite rev_app_distr. Qed.

Lemma leading_split b l : ∃ m, l = replicate (leading b l) b ++ m.
Proof.
  induction l as [|x l [m IH]]; [by exists []|]. simpl. destruct (Bool.eqb_spec x b) as [->|]; [|by exists (x :: l)].
  exists m. simpl. by f_equal.
Qed.

Lemma leading_replicate b n m : (n ≤ leading b (replicate n b ++ m))%nat.
Proof. induction n as [|n IH]; simpl; [lia|]. rewrite Bool.eqb_reflx. lia. Qed.

Lemma rev_replicate_b n (b : bool) : rev (replicate n b) = replicate n b.
Proof. induction n as [|n IH]; [done|]. simpl. by rewrite IH, <- replicate_S_end. Qed.

Lemma trailing_split b l : ∃ pre, l = pre ++ replicate (trailing b l) b.
Proof.
  destruct (leading_split b (rev l)) as [m E]. exists (rev m). unfold trailing.
  rewrite <- (rev_involutive l), E at 1. by rewrite rev_app_distr, rev_replicate_b.
Qed.

Lemma trailing_ge b n pre : (n ≤ trailing b (pre ++ replicate n b))%nat.
Proof. unfold trailing. rewrite rev_app_distr, rev_replicate_b. apply leading_replicate. Qed.

(** A result of the other kind ends a run. *)
Lemma trailing_stop b pre x l : x ≠ b → trailing b (pre ++ x :: l) = trailing b l.
Proof.
  intros Hx. unfold trailing. rewrite rev_app_distr. simpl. rewrite <- app_assoc. simpl.
  induction (rev l) as [|y k IH]; simpl.
  - destruct (Bool.eqb_spec x b); done.
  - destruct (Bool.eqb y b); [by rewrite IH|done].
Qed.

Definition long (n : Z) (k : nat) : Prop := (Z.to_nat (Z.max n 1) ≤ k)%nat.

Lemma streak_snoc b n l x : streak b n (l ++ [x]) ↔ streak b n l ∨ long n (trailing b (l ++ [x])).
Proof.
  unfold streak, long. split.
  - intros (pre & post & E). destruct post as [|y post _] using rev_ind.
    + right. rewrite app_nil_r in E. rewrite E. apply trailing_ge.
    + left. exists pre, post. rewrite !app_assoc in E. apply app_inj_tail in E as [E _]. by rewrite E, <- app_assoc.
  - intros [(pre & post & ->)|Hl]; [exists pre, (post ++ [x]); by rewrite <- !app_assoc|].
    destruct (trailing_split b (l ++ [x])) as [pre E]. set (k := trailing b (l ++ [x])) in *.
    exists (pre ++ replicate (k - Z.to_nat (Z.max n 1)) b), []. rewrite E, app_nil_r, <- app_assoc, <- replicate_add. do 2 f_equal. lia.
Qed.

Lemma streak_nil b n : ¬ streak b n [].
Proof.
  intros (pre & post & E). symmetry in E. apply app_eq_nil in E as [_ [E _]%app_eq_nil].
  apply (f_equal length) in E. rewrite length_replicate in E. simpl in E. lia.
Qed.

(** Taken out of service, and no streak of successes since. *)
Definition down (policy : HealthPolicy) (l : list bool) : Prop :=
  ∃ pre post, l = pre ++ replicate (Z.to_nat (Z.max (UnhealthyThreshold policy) 1)) false ++ post ∧
    ¬ streak true (HealthyThreshold policy) post.

Lemma trailing_after_failures n pre post :
  trailing true (pre ++ replicate (Z.to_nat (Z.max n 1)) false ++ post) = trailing true post.
Proof.
  destruct (Z.to_nat (Z.max n 1)) as [|k] eqn:E; [lia|]. rewrite replicate_S_end, <- app_assoc. simpl.
  rewrite app_assoc. by apply trailing_stop.
Qed.

Lemma down_snoc policy l x :
  down policy (l ++ [x]) ↔
  long (UnhealthyThreshold policy) (trailing false (l ++ [x])) ∨
  (down policy l ∧ ¬ long (HealthyThreshold policy) (trailing true (l ++ [x]))).
Proof.
  unfold down. split.
  - intros (pre & post & E & Hno). destruct post as [|y post _] using rev_ind.
    + left. rewrite app_nil_r in E. rewrite E. apply trailing_ge.
    + right. rewrite streak_snoc in Hno. split.
      * exists pre, post. split; [|tauto]. rewrite !app_assoc in E. apply app_inj_tail in E as [E _]. by rewrite E, <- app_assoc.
      * rewrite E, trailing_after_failures. tauto.
  - intros [Hl|[(pre & post & -> & Hno) Hs]].
    + destruct (trailing_split false (l ++ [x])) as [pre E]. set (k := trailing false (l ++ [x])) in *. unfold long in Hl.
      exists (pre ++ replicate (k - Z.to_nat (Z.max (UnhealthyThreshold policy) 1)) false), [].
      split; [|apply streak_nil]. rewrite E, app_nil_r, <- app_assoc, <- replicate_add. do 2 f_equal. lia.
    + exists pre, (post ++ [x]). split; [by rewrite <- !app_assoc|]. rewrite <- !app_assoc, trailing_after_failures in Hs.
      rewrite streak_snoc. tauto.
Qed.

Lemma long_leb n k : (Z.max n 1 <=? Z.of_nat k) = true ↔ long n k.
Proof. unfold long. rewrite Z.leb_le. lia. Qed.

Lemma not_long_0 n : ¬ long n 0.
Proof. unfold long. lia. Qed.

(** One more success, or one more failure, from what the state stood for. *)
Lemma state_success st (ini out : Prop) policy k :
  (st = HealthInitial ↔ ini) → (st = HealthUnhealthy ↔ out) →
  let threshold := if decide (st = HealthUnhealthy) then HealthyThreshold policy else InitialHealthyThreshold policy in
  let st' := if Z.max threshold 1 <=? Z.of_nat k then HealthHealthy else st in
  (st' = HealthInitial ↔ ini ∧ ¬ long (InitialHealthyThreshold policy) k) ∧
  (st' = HealthUnhealthy ↔ out ∧ ¬ long (HealthyThreshold policy) k).
Proof.
  intros Hi Ho. cbv zeta. rewrite <- Hi, <- Ho. clear Hi Ho. case_decide as Hu; (destruct (_ <=? _) eqn:E; [|apply not_true_iff_false in E]); rewrite long_leb in E;
    destruct st; try done; intuition discriminate.
Qed.

Lemma state_failure st (ini out : Prop) n k :
  (st = HealthInitial ↔ ini) → (st = HealthUnhealthy ↔ out) →
  let st' := if Z.max n 1 <=? Z.of_nat k then HealthUnhealthy else st in
  (st' = HealthInitial ↔ ini ∧ ¬ long n k) ∧ (st' = HealthUnhealthy ↔ long n k ∨ out).
Proof.
  intros Hi Ho. cbv zeta. rewrite <- Hi, <- Ho. clear Hi Ho. (destruct (_ <=? _) eqn:E; [|apply not_true_iff_false in E]); rewrite long_leb in E;
    destruct st; intuition discriminate.
Qed.

(** A target's record, after any results its checks may have, counts the
    checks and the consecutive results of the latest kind, and puts the target
    exactly where its thresholds do: it is still initial when there was neither
    the streak of successes that puts a new target in service nor the streak of
    failures that takes one out, and it is out of service when there was such a
    streak of failures and, since then, no streak of successes that returns it.
    A threshold below one counts as one. *)
Theorem health_follows_streaks policy l :
  let r := replay policy l zero_Health in
  let results := passed <$> l in
  Checks r = Z.of_nat (length l) ∧
  Successes r = Z.of_nat (trailing true results) ∧ Failures r = Z.of_nat (trailing false results) ∧
  (State r = HealthInitial ↔
     ¬ streak true (InitialHealthyThreshold policy) results ∧ ¬ streak false (UnhealthyThreshold policy) results) ∧
  (State r = HealthUnhealthy ↔ down policy results).
Proof.
  induction l as [|[issued [status err]] l IH] using rev_ind.
  - simpl. split_and!; try done; split; try done.
    + intros _. split; apply streak_nil.
    + intros (pre & post & E & _). destruct (streak_nil false (UnhealthyThreshold policy)). by exists pre, post.
  - cbv zeta in *. unfold replay. rewrite foldl_snoc. fold (replay policy l zero_Health).
    rewrite fmap_app. simpl fmap. set (r := replay policy l zero_Health) in *. set (bs := passed <$> l) in *.
    destruct IH as (Hc & Hs & Hf & Hi & Hu). rewrite !streak_snoc, !down_snoc, !trailing_snoc, length_app.
    pose proof (not_long_0 (InitialHealthyThreshold policy)); pose proof (not_long_0 (HealthyThreshold policy));
    pose proof (not_long_0 (UnhealthyThreshold policy)).
    destruct err as [e|]; unfold passed; cbn [Bool.eqb snd fst record_answer Checks Successes Failures State length].
    + rewrite Hf. replace (Z.of_nat (trailing false bs) + 1) with (Z.of_nat (S (trailing false bs))) by lia.
      destruct (state_failure _ _ _ (UnhealthyThreshold policy) (S (trailing false bs)) Hi Hu) as [-> ->].
      split_and!; [lia|done|lia|tauto|tauto].
    + rewrite Hs. replace (Z.of_nat (trailing true bs) + 1) with (Z.of_nat (S (trailing true bs))) by lia.
      destruct (state_success _ _ _ policy (S (trailing true bs)) Hi Hu) as [-> ->].
      split_and!; [lia|lia|done|tauto|tauto].
Qed.

(** ** Sweeps *)

Section Sweeps.
Context {K : Type} `{Countable K}.
Implicit Types (t : HealthTracker K) (targets due : list (HealthTarget K)).

Definition due_now (now : Time) (t : HealthTracker K) (target : HealthTarget K) : bool :=
  match t !! Key target with Some r => negb (now <? nextCheck r) | None => true end.

(** What a sweep makes of one target's record. *)
Definition swept (now : Time) (probe : HealthTarget K → answer) (t : HealthTracker K) (target : HealthTarget K) : Health :=
  let r := default zero_Health (t !! Key target) in
  if due_now now t target
  then record_answer (Policy target) now (probe target) (book (now + Interval (Policy target)) r) else r.

Definition booked (now : Time) (t : HealthTracker K) (target : HealthTarget K) : Health :=
  let r := default zero_Health (t !! Key target) in
  if due_now now t target then book (now + Interval (Policy target)) r else r.

Lemma due_insert now t k r target : Key target ≠ k → due_now now (<[k:=r]> t) target = due_now now t target.
Proof. intros. unfold due_now. by rewrite lookup_insert_ne. Qed.

Lemma booked_insert now t k r target : Key target ≠ k → booked now (<[k:=r]> t) target = booked now t target.
Proof. intros. unfold booked. rewrite due_insert by done. by rewrite lookup_insert_ne. Qed.

Lemma schedule_loop_spec now targets t :
  NoDup (map Key targets) →
  let r := schedule_loop now t targets in
  r.2 = filter (λ target, due_now now t target = true) targets ∧
  (∀ k, r.1 !! k = match list_find (λ target, Key target = k) targets with
                   | Some (_, target) => Some (booked now t target) | None => t !! k end).
Proof.
  revert t. induction targets as [|target targets IH]; intros t Hn; [done|]. cbv zeta.
  apply NoDup_cons in Hn as [Hk Hn].
  assert (∀ x, x ∈ targets → Key x ≠ Key target) as Hne.
  { intros x Hx E. apply Hk. rewrite <- E. apply list_elem_of_fmap. by exists x. }
  assert (∀ r', filter (λ x, due_now now (<[Key target:=r']> t) x = true) targets = filter (λ x, due_now now t x = true) targets) as Hfilter.
  { intros r'. apply filter_ext_elem. intros x Hx. by rewrite due_insert by auto. }
  assert (∀ r' k, r' = booked now t target →
    match list_find (λ x, Key x = k) targets with
    | Some (_, x) => Some (booked now (<[Key target:=r']> t) x) | None => <[Key target:=r']> t !! k end =
    match list_find (λ x, Key x = k) (target :: targets) with
    | Some (_, x) => Some (booked now t x) | None => t !! k end) as Hlook.
  { intros r' k ->. simpl. destruct (decide (Key target = k)) as [<-|Hkk].
    - destruct (list_find _ targets) as [[i x]|] eqn:E; [|by rewrite lookup_insert_eq].
      apply list_find_Some in E as (Hx & E & _). apply list_elem_of_lookup_2 in Hx. by destruct (Hne x Hx).
    - destruct (list_find _ targets) as [[i x]|] eqn:E; simpl; [|by rewrite lookup_insert_ne].
      apply list_find_Some in E as (Hx & _ & _). apply list_elem_of_lookup_2 in Hx. by rewrite booked_insert by auto. }
  cbn [schedule_loop]. rewrite filter_cons. destruct (t !! Key target) as [r|] eqn:Et.
  - destruct (now <? nextCheck r) eqn:Ed.
    + destruct (IH t Hn) as [E1 E2]. rewrite decide_False by (unfold due_now; by rewrite Et, Ed). split; [done|]. intros k. rewrite E2.
      rewrite <- (Hlook r) by (unfold booked, due_now; by rewrite Et; simpl; rewrite Ed). by rewrite insert_id.
    + specialize (IH (<[Key target:=book (now + Interval (Policy target)) r]> t) Hn).
      destruct (schedule_loop _ _ _) as [t' due'] eqn:El. destruct IH as [E1 E2]. simpl in *.
      rewrite decide_True by (unfold due_now; by rewrite Et, Ed). split; [by rewrite E1, Hfilter|]. intros k. rewrite E2. apply Hlook. unfold booked, due_now. by rewrite Et; simpl; rewrite Ed.
  - specialize (IH (<[Key target:=book (now + Interval (Policy target)) zero_Health]> t) Hn).
    destruct (schedule_loop _ _ _) as [t' due'] eqn:El. destruct IH as [E1 E2]. simpl in *.
    rewrite decide_True by (unfold due_now; by rewrite Et). split; [by rewrite E1, Hfilter|]. intros k. rewrite E2. apply Hlook. unfold booked, due_now. by rewrite Et.
Qed.

Definition moved (now : Time) (probe : HealthTarget K → answer) (t : HealthTracker K) (target : HealthTarget K) : bool :=
  match t !! Key target with
  | Some r => bool_decide (State (record_answer (Policy target) now (probe target) r) ≠ State r)
  | None => false
  end.

Lemma moved_insert now probe t k r target : Key target ≠ k → moved now probe (<[k:=r]> t) target = moved now probe t target.
Proof. intros. unfold moved. by rewrite lookup_insert_ne. Qed.

Lemma answers_spec now probe due t :
  NoDup (map Key due) →
  let r := answers now probe t due in
  r.2 = map Key (filter (λ target, moved now probe t target = true) due) ∧
  (∀ target, target ∈ due → r.1 !! Key target = record_answer (Policy target) now (probe target) <$> t !! Key target) ∧
  (∀ k, k ∉ map Key due → r.1 !! k = t !! k).
Proof.
  revert t. induction due as [|target due IH]; intros t Hn; cbv zeta.
  { split_and!; [done| |done]. intros x Hx. by apply elem_of_nil in Hx. }
  apply NoDup_cons in Hn as [Hk Hn].
  assert (∀ x, x ∈ due → Key x ≠ Key target) as Hne.
  { intros x Hx E. apply Hk. rewrite <- E. apply list_elem_of_fmap. by exists x. }
  cbn [answers]. unfold record. rewrite filter_cons. destruct (t !! Key target) as [r|] eqn:Et.
  - set (r' := record_answer (Policy target) now (probe target) r). specialize (IH (<[Key target:=r']> t) Hn).
    destruct (answers now probe _ due) as [t' keys]. destruct IH as (E1 & E2 & E3). simpl in *.
    assert (moved now probe t target = bool_decide (State r' ≠ State r)) as Em by (unfold moved; by rewrite Et).
    split_and!.
    + rewrite Em, E1, (filter_ext_elem _ (λ x, moved now probe t x = true)) by (intros; by rewrite moved_insert by auto).
      by destruct (bool_decide _).
    + intros x [->|Hx]%elem_of_cons.
      * rewrite Et. simpl. by rewrite E3, lookup_insert_eq.
      * rewrite E2 by done. by rewrite lookup_insert_ne by (symmetry; auto).
    + intros k [Hk1 Hk2]%not_elem_of_cons. rewrite E3 by done. by rewrite lookup_insert_ne.
  - specialize (IH t Hn). destruct (answers now probe _ due) as [t' keys]. destruct IH as (E1 & E2 & E3). simpl in *.
    rewrite decide_False by (unfold moved; by rewrite Et). split_and!; [done| |].
    + intros x [->|Hx]%elem_of_cons; [|by apply E2]. rewrite Et. simpl. by rewrite E3.
    + intros k [Hk1 Hk2]%not_elem_of_cons. by apply E3.
Qed.

(** What [schedule] leaves: the targets' records, and no others. *)
Lemma schedule_spec now t targets :
  NoDup (map Key targets) →
  let r := schedule now t targets in
  r.2 = filter (λ target, due_now now t target = true) targets ∧
  (∀ target, target ∈ targets → r.1 !! Key target = Some (booked now t target)) ∧
  (∀ k, k ∉ map Key targets → r.1 !! k = None).
Proof.
  intros Hn. unfold schedule. pose proof (schedule_loop_spec now targets t Hn) as Hs.
  destruct (schedule_loop now t targets) as [t1 due]. destruct Hs as [E1 E2]. simpl in *. split_and!; [done| |].
  - intros target Hin. apply map_lookup_filter_Some. split; [|simpl; apply list_elem_of_fmap; by exists target]. rewrite E2.
    destruct (list_find _ targets) as [[i x]|] eqn:E.
    + apply list_find_Some in E as (Hx & E & _). apply list_elem_of_lookup_2 in Hx.
      assert (x = target) as ->; [|done].
      apply list_elem_of_lookup in Hin as [j Hj]. apply list_elem_of_lookup in Hx as [i' Hi'].
      assert (i' = j) as ->; [|congruence]. eapply (NoDup_lookup (map Key targets)); [done|..].
      * change (map Key targets) with (Key <$> targets). rewrite list_lookup_fmap, Hi'. done.
      * change (map Key targets) with (Key <$> targets). rewrite list_lookup_fmap, Hj. simpl. by rewrite E.
    + apply list_find_None in E. rewrite Forall_forall in E. by destruct (E target Hin).
  - intros k Hk. apply map_lookup_filter_None. right. intros r _ Hin. by apply Hk.
Qed.

Lemma nextCheck_record policy now a r : nextCheck (record_answer policy now a r) = nextCheck r.
Proof. by destruct a as [? [|]]. Qed.

(** A sweep over targets with distinct keys, whichever order their checks
    answer in: every target has a record afterwards and nothing else has one; a
    target was checked exactly once when it is new or its next check had come
    due, and then its next check is one interval from this sweep, so that no
    sweep before then checks it again; every other record is as it was; and the
    keys it returns are those whose state changed, once each. *)
Theorem sweep_checks_what_is_due arrive probe now t targets :
  NoDup (map Key targets) → (∀ l, arrive l ≡ₚ l) →
  let r := Sweep arrive probe now t targets in
  (∀ target, target ∈ targets → r.1 !! Key target = Some (swept now probe t target)) ∧
  (∀ k, k ∉ map Key targets → r.1 !! k = None) ∧
  (∀ target now', target ∈ targets → due_now now t target = true →
     due_now now' r.1 target = negb (now' <? now + Interval (Policy target))) ∧
  NoDup r.2 ∧
  (∀ target, target ∈ targets →
     Key target ∈ r.2 ↔ State (swept now probe t target) ≠ State (default zero_Health (t !! Key target))).
Proof.
  intros Hn Harr. cbv zeta. unfold Sweep. pose proof (schedule_spec now t targets Hn) as Hs.
  destruct (schedule now t targets) as [t1 due]. destruct Hs as (E1 & E2 & E3). simpl in E1, E2, E3.
  assert (∀ target, target ∈ arrive due ↔ target ∈ targets ∧ due_now now t target = true) as Hdue.
  { intros x. rewrite (Harr due), E1, list_elem_of_filter. tauto. }
  assert (NoDup (map Key (arrive due))) as Hnd.
  { change (NoDup (Key <$> arrive due)). rewrite (Harr due), E1. eapply sublist_NoDup; [exact Hn|]. apply sublist_fmap, sublist_filter. }
  pose proof (answers_spec now probe (arrive due) t1 Hnd) as (A1 & A2 & A3).
  destruct (answers now probe t1 (arrive due)) as [t2 keys]. simpl in A1, A2, A3. cbn [fst snd].
  assert (∀ x y, x ∈ targets → y ∈ targets → Key x = Key y → x = y) as Hinj.
  { intros x y [i Hi]%list_elem_of_lookup [j Hj]%list_elem_of_lookup E. assert (i = j) as ->; [|congruence].
    eapply (NoDup_lookup (Key <$> targets)); [done|by rewrite list_lookup_fmap, Hi|by rewrite list_lookup_fmap, Hj, E]. }
  assert (∀ target, target ∈ targets → due_now now t target = false → Key target ∉ map Key (arrive due)) as Hnot.
  { intros x Hx Hd (y & E & [Hy Hy']%Hdue)%list_elem_of_fmap. rewrite (Hinj x y) in Hd by done. congruence. }
  assert (∀ target, target ∈ targets → t2 !! Key target = Some (swept now probe t target)) as Hswept.
  { intros x Hx. unfold swept. specialize (E2 x Hx). unfold booked in E2. destruct (due_now now t x) eqn:Hd.
    - by rewrite (A2 x) by (by apply Hdue); rewrite E2.
    - by rewrite (A3 (Key x)) by auto. }
  split_and!; [done| | | |].
  - intros k Hk. rewrite A3; [by apply E3|]. intros (y & -> & [Hy _]%Hdue)%list_elem_of_fmap. apply Hk, list_elem_of_fmap. by exists y.
  - intros x now' Hx Hd. unfold due_now at 1. rewrite Hswept by done. unfold swept. rewrite Hd. by rewrite nextCheck_record.
  - rewrite A1. eapply sublist_NoDup; [exact Hnd|]. apply sublist_fmap, sublist_filter.
  - intros x Hx. rewrite A1. unfold swept. specialize (E2 x Hx). unfold booked in E2. split.
    + intros (y & E & [Hm [Hy Hd]%Hdue]%list_elem_of_filter)%list_elem_of_fmap. assert (y = x) as -> by (symmetry; by apply Hinj). rewrite Hd in E2 |- *.
      unfold moved in Hm. rewrite E2 in Hm. by apply bool_decide_eq_true in Hm.
    + destruct (due_now now t x) eqn:Hd; [|done]. intros Hst. apply list_elem_of_fmap. exists x. split; [done|].
      apply list_elem_of_filter. split; [|by apply Hdue]. unfold moved. rewrite E2. by apply bool_decide_eq_true.
Qed.
End Sweeps.

Definition w_policy : HealthPolicy := MkPolicy (30 * Second) 1 3 2.
Definition w_targets : list (HealthTarget string) := [MkTarget "a" w_policy; MkTarget "b" w_policy].
Definition w_probe (target : HealthTarget string) : answer :=
  if bool_decide (Key target = "a") then (200, None) else (0, Some "refused").

Lemma sweep_checks_what_is_due_witness :
  let r := Sweep (@rev _) w_probe (100 * Second) {[ "gone" := zero_Health ]} w_targets in
  r.2 = ["a"] ∧ r.1 !! "gone" = None ∧ (Failures <$> (r.1 !! "b")) = Some 1.
Proof.
  destruct (sweep_checks_what_is_due (@rev _) w_probe (100 * Second) {[ "gone" := zero_Health ]} w_targets) as (H1 & H2 & _).
  - by vm_compute; repeat constructor; set_solver.
  - intros l. by rewrite <- Permutation_rev.
  - split_and!; [by vm_compute| |].
    + apply H2. by vm_compute; set_solver.
    + specialize (H1 (MkTarget "b" w_policy)). cbn [Key] in H1. rewrite H1; [by vm_compute|]. right. by left.
Defined.
