(* ===== verification/Resp.v ===== *)
(** * The Redis wire protocol: [src/sim/cacheengine/resp.go]

    Commands and replies on a byte stream. A reader is the bytes it has not yet
    returned; at their end it reports an error. An outcome tells a value, an
    error, and a run-time panic apart, and says what the reader has left. The
    fuel of the recursive reads is twice the bytes to read: [ReadReply_returns]
    and [ReadCommand_returns] show that it never runs out. *)

From S2P Require Import Prelude Gostd.

(** ** Readers: [bufio.Reader] and [io.ReadFull] *)

Inductive resp_error :=
| ErrEOF | ErrEmpty | ErrInt (payload : string) | ErrBulk (payload : string) | ErrArray (payload : string)
| ErrUnknown (line : string) | ErrArgument (header : string) | ErrWrite
| Error (message : string).

Inductive outcome (A : Type) :=
| Got (a : A) (rest : string)
| Failed (e : resp_error) (rest : string)
| Panicked
| OutOfFuel.
Arguments Got {A} a rest.
Arguments Failed {A} e rest.
Arguments Panicked {A}.
Arguments OutOfFuel {A}.

Definition obind {A B} (o : outcome A) (f : A → string → outcome B) : outcome B :=
  match o with Got a rest => f a rest | Failed e rest => Failed e rest | Panicked => Panicked | OutOfFuel => OutOfFuel end.

Definition CR : ascii := char_of 13.
Definition LF : ascii := char_of 10.
Definition CRLF : string := String CR (String LF "").

Definition ReadString (r : string) : outcome string :=
  match Cut r (String LF "") with
  | Some (a, b) => Got (a +:+ String LF "") b
  | None => Failed ErrEOF ""
  end.

Definition take_s (n : nat) (s : string) : string := text (take n (chars s)).
Definition drop_s (n : nat) (s : string) : string := text (drop n (chars s)).

(** [make] of [n] elements of [size] bytes panics when the length is negative or
    the allocation exceeds the address space (48 bits). *)
Definition make_ok (n size : Z) : bool := (0 <=? n) && (n * size <=? 2 ^ 48).

Definition slen (s : string) : Z := Z.of_nat (String.length s).

(** [make([]byte, n)] and [io.ReadFull]. *)
Definition ReadFull (n : Z) (r : string) : outcome string :=
  if negb (make_ok n 1) then Panicked
  else if slen r <? n then Failed ErrEOF ""
  else Got (take_s (Z.to_nat n) r) (drop_s (Z.to_nat n) r).

(** [strings.TrimSuffix] and [strings.TrimRight] at the line's end. *)
Definition TrimSuffix (s suffix : string) : string :=
  if bool_decide (drop_s (String.length s - String.length suffix) s = suffix)
  then take_s (String.length s - String.length suffix) s else s.

Fixpoint drop_while (p : ascii → bool) (l : list ascii) : list ascii :=
  match l with c :: l' => if p c then drop_while p l' else l | [] => [] end.

Definition TrimRight (s cutset : string) : string :=
  text (rev (drop_while (λ c, bool_decide (c ∈ chars cutset)) (rev (chars s)))).

(** [strings.Fields]: the runs between white space. *)
Fixpoint fields_loop (fuel : nat) (l word : list ascii) : list string :=
  let flush := match word with [] => [] | _ => [text (rev word)] end in
  match fuel with
  | O => flush
  | S fuel =>
      match l with
      | [] => flush
      | c :: l' =>
          match strip_any spaces l with
          | Some rest => flush ++ fields_loop fuel rest []
          | None => fields_loop fuel l' (c :: word)
          end
      end
  end.
Definition Fields (s : string) : list string := fields_loop (String.length s) (chars s) [].

(** ** Replies *)

(** What [ReadReply] returns as [any]. *)
Inductive reply := RStr (s : string) | RInt (z : Z) | RArr (items : list reply) | RNil.

Fixpoint read_reply (fuel : nat) (r : string) : outcome reply :=
  match fuel with
  | O => OutOfFuel
  | S fuel =>
      obind (ReadString r) (λ line r,
        let line := TrimSuffix line CRLF in
        match line with
        | EmptyString => Failed ErrEmpty r
        | String c payload =>
            if byte_of c =? 43 then Got (RStr payload) r
            else if byte_of c =? 45 then Failed (Error payload) r
            else if byte_of c =? 58 then
              match ParseInt payload with Some z => Got (RInt z) r | None => Failed (ErrInt payload) r end
            else if byte_of c =? 36 then
              match Atoi payload with
              | None => Failed (ErrBulk payload) r
              | Some size =>
                  if size <? 0 then Got RNil r
                  else obind (ReadFull (i64 (size + 2)) r) (λ data r, Got (RStr (take_s (Z.to_nat size) data)) r)
              end
            else if byte_of c =? 42 then
              match Atoi payload with
              | None => Failed (ErrArray payload) r
              | Some count =>
                  if count <? 0 then Got RNil r
                  else if negb (make_ok count 16) then Panicked
                  else obind (read_items fuel count r) (λ items r, Got (RArr items) r)
              end
            else Failed (ErrUnknown line) r
        end)
  end
with read_items (fuel : nat) (n : Z) (r : string) : outcome (list reply) :=
  match fuel with
  | O => OutOfFuel
  | S fuel =>
      if n <=? 0 then Got [] r
      else obind (read_reply fuel r) (λ item r, obind (read_items fuel (n - 1) r) (λ items r, Got (item :: items) r))
  end.

Definition ReadReply (r : string) : outcome reply := read_reply (2 * String.length r + 1) r.

(** ** Commands *)

(** [fmt.Fprintf] with [%d] and [%s]. *)
Definition EncodeCommand (args : list string) : string :=
  foldl (λ b arg, b +:+ ("$" +:+ Itoa (slen arg) +:+ CRLF +:+ arg +:+ CRLF))
    ("*" +:+ Itoa (Z.of_nat (length args)) +:+ CRLF) args.

(** The loop over the arguments: they and the bytes as they arrived. *)
Fixpoint read_args (fuel : nat) (count : Z) (args : list string) (raw : string) (r : string) : outcome (list string * string) :=
  match fuel with
  | O => OutOfFuel
  | S fuel =>
      if count <=? 0 then Got (args, raw) r
      else obind (ReadString r) (λ header r,
        match CutPrefix header "$" with
        | None => Failed (ErrArgument header) r
        | Some size =>
            match Atoi (TrimRight size CRLF) with
            | None => Failed (ErrBulk header) r
            | Some size =>
                if size <? 0 then Failed (ErrBulk header) r
                else obind (ReadFull (i64 (size + 2)) r) (λ data r,
                  read_args fuel (count - 1) (args ++ [take_s (Z.to_nat size) data]) (raw +:+ header +:+ data) r)
            end
        end)
  end.

Definition ReadCommand (r : string) : outcome (list string * string) :=
  obind (ReadString r) (λ line r,
    match CutPrefix line "*" with
    | None => Got (Fields line, line) r
    | Some count =>
        match Atoi (TrimRight count CRLF) with
        | None => Failed (ErrArray line) r
        | Some count =>
            if negb (make_ok (Z.max count 0) 16) then Panicked
            else read_args (S (String.length r)) count [] line r
        end
    end).

(** ** Connections *)

(** What a client has sent, what the engine has sent back and the client not
    yet read, and whether writes fail. *)
Record Conn := MkConn { sent : string; inbox : string; broken : bool }.

Definition set_inbox (c : Conn) (r : string) : Conn := MkConn (sent c) r (broken c).

Definition Write (c : Conn) (b : string) : option Conn :=
  if broken c then None else Some (MkConn (sent c +:+ b) (inbox c) false).

Inductive answered (A : Type) := Answer (a : A) | Refused (e : resp_error) | Crashed.
Arguments Answer {A} a.
Arguments Refused {A} e.
Arguments Crashed {A}.

Definition Do (c : Conn) (args : list string) : Conn * answered reply :=
  match Write c (EncodeCommand args) with
  | None => (c, Refused ErrWrite)
  | Some c =>
      match ReadReply (inbox c) with
      | Got v r => (set_inbox c r, Answer v)
      | Failed e r => (set_inbox c r, Refused e)
      | Panicked | OutOfFuel => (c, Crashed)
      end
  end.

Definition toleratedRefusal (refused : string) (tolerated : list string) : bool :=
  existsb (λ prefix, HasPrefix refused prefix) tolerated.

(** The loop that reads a reply per command. The error [Pipeline] returns once
    all are read names the command that failed. *)
Fixpoint read_replies (tolerated : list string) (commands : list (list string)) (c : Conn)
    (replies : list reply) (failed : option (list string * string)) : Conn * answered (list reply * option (list string * string)) :=
  match commands with
  | [] => (c, Answer (replies, failed))
  | args :: commands =>
      match ReadReply (inbox c) with
      | Got v r => read_replies tolerated commands (set_inbox c r) (replies ++ [v]) failed
      | Failed (Error refused) r =>
          let failed := match failed with
                        | Some f => Some f
                        | None => if toleratedRefusal refused tolerated then None else Some (args, refused)
                        end in
          read_replies tolerated commands (set_inbox c r) (replies ++ [RNil]) failed
      | Failed e r => (set_inbox c r, Refused e)
      | Panicked | OutOfFuel => (c, Crashed)
      end
  end.

Definition Pipeline (c : Conn) (commands : list (list string)) (tolerated : list string)
    : Conn * answered (list reply * option (list string * string)) :=
  match Write c (foldl (λ b args, b +:+ EncodeCommand args) "" commands) with
  | None => (c, Refused ErrWrite)
  | Some c => read_replies tolerated commands c [] None
  end.

(** ** [INFO] replies and RDB files *)

Definition ParseInfo (s : string) : gmap string string :=
  foldl (λ fields line, match Cut (TrimSpace line) ":" with Some (key, value) => <[key:=value]> fields | None => fields end)
    ∅ (Split s (String LF "")).

Definition IsRDB (data : string) : bool := HasPrefix data "REDIS".

(** ** Lines and blocks *)

Lemma length_chars s : length (chars s) = String.length s.
Proof. induction s; simpl; auto. Qed.

Lemma take_s_app a b : take_s (String.length a) (a +:+ b) = a.
Proof. unfold take_s. rewrite chars_app, <- length_chars, take_app_length. apply text_chars. Qed.

Lemma drop_s_app a b : drop_s (String.length a) (a +:+ b) = b.
Proof. unfold drop_s. rewrite chars_app, <- length_chars, drop_app_length. apply text_chars. Qed.

Lemma take_drop_s n s : take_s n s +:+ drop_s n s = s.
Proof. apply chars_inj. unfold take_s, drop_s. by rewrite chars_app, !chars_text, take_drop. Qed.

Lemma ReadString_CRLF a b : LF ∉ chars a → ReadString (a +:+ CRLF +:+ b) = Got (a +:+ CRLF) b.
Proof.
  intros Ha. unfold ReadString. replace (a +:+ CRLF +:+ b) with ((a +:+ String CR "") +:+ String LF "" +:+ b)
    by (by rewrite !append_assoc_s). rewrite Cut_char.
  - by rewrite append_assoc_s.
  - rewrite chars_app, elem_of_app. intros [?|Hc]; [done|]. apply list_elem_of_singleton in Hc. by vm_compute in Hc.
Qed.

(** What a line read takes from the reader. *)
Lemma ReadString_inv r line rest :
  ReadString r = Got line rest → r = line +:+ rest ∧ (String.length rest < String.length r)%nat.
Proof.
  unfold ReadString. destruct (Cut r _) as [[a b]|] eqn:E; [|done]. intros [= <- <-]. apply Cut_Some in E as ->.
  split; [by rewrite append_assoc_s|]. rewrite !length_append_s. simpl. lia.
Qed.

Lemma ReadFull_app a b n : n = slen a → slen a ≤ 2 ^ 48 → ReadFull n (a +:+ b) = Got a b.
Proof.
  intros -> Ha. unfold ReadFull, make_ok, slen in *. rewrite (proj2 (Z.leb_le 0 _)), (proj2 (Z.leb_le _ (2 ^ 48))) by lia. simpl.
  rewrite (proj2 (Z.ltb_ge _ _)) by (rewrite length_append_s; lia). by rewrite Nat2Z.id, take_s_app, drop_s_app.
Qed.

Lemma ReadFull_inv n r data rest : ReadFull n r = Got data rest → r = data +:+ rest ∧ slen data = n.
Proof.
  unfold ReadFull, make_ok. destruct (negb _) eqn:E1; [done|]. bools. destruct (Z.ltb_spec (slen r) n); [done|]. intros [= <- <-].
  split; [by rewrite take_drop_s|]. unfold slen in *. rewrite <- length_chars in *. unfold take_s. rewrite chars_text, length_take. lia.
Qed.

Lemma TrimSuffix_CRLF a : TrimSuffix (a +:+ CRLF) CRLF = a.
Proof.
  unfold TrimSuffix. rewrite length_append_s, Nat.add_sub, drop_s_app, bool_decide_eq_true_2 by done. apply take_s_app.
Qed.

Lemma TrimRight_CRLF a : Forall is_digit (chars a) → TrimRight (a +:+ CRLF) CRLF = a.
Proof.
  intros Ha. unfold TrimRight. rewrite chars_app, rev_app_distr.
  assert (rev (chars CRLF) = [LF; CR]) as -> by done. cbn [app drop_while].
  assert (chars CRLF = [CR; LF]) as -> by done. rewrite !bool_decide_eq_true_2 by set_solver.
  destruct (rev (chars a)) as [|c l] eqn:E.
  - simpl. apply (f_equal (@rev _)) in E. rewrite rev_involutive in E. rewrite <- (text_chars a), E. done.
  - simpl. rewrite bool_decide_eq_false_2.
    + change (rev l ++ [c]) with (rev (c :: l)). rewrite <- E, rev_involutive. apply text_chars.
    + intros Hc. assert (c ∈ chars a) as Hin by (rewrite Permutation_rev, E; by left).
      rewrite Forall_forall in Ha. specialize (Ha c Hin). unfold is_digit in Ha.
      apply elem_of_cons in Hc as [->|Hc%list_elem_of_singleton]; [|subst c]; vm_compute in Ha; tauto.
Qed.

Lemma LF_digits s : Forall is_digit (chars s) → LF ∉ chars s.
Proof. apply not_digit. unfold is_digit. vm_compute. tauto. Qed.

(** ** Commands *)

Definition arg_bytes (arg : string) : string := "$" +:+ Itoa (slen arg) +:+ CRLF +:+ arg +:+ CRLF.
Definition args_bytes (args : list string) : string := foldr (λ arg b, arg_bytes arg +:+ b) "" args.

Lemma EncodeCommand_eq args :
  EncodeCommand args = "*" +:+ Itoa (Z.of_nat (length args)) +:+ CRLF +:+ args_bytes args.
Proof.
  unfold EncodeCommand. generalize (length args). intros n.
  assert (∀ b, foldl (λ b arg, b +:+ arg_bytes arg) b args = b +:+ args_bytes args) as H.
  { induction args as [|a args IH]; intros b; simpl; [by rewrite append_nil_s|]. by rewrite IH, append_assoc_s. }
  change (foldl (λ b arg, b +:+ arg_bytes arg) ("*" +:+ Itoa (Z.of_nat n) +:+ CRLF) args = "*" +:+ Itoa (Z.of_nat n) +:+ CRLF +:+ args_bytes args).
  by rewrite H, !append_assoc_s.
Qed.

(** A length a command may carry: the size of its argument and of its list. *)
Definition arg_ok (arg : string) : Prop := slen arg + 2 ≤ 2 ^ 48.

Lemma i64_small z : 0 ≤ z < 2 ^ 63 → i64 z = z.
Proof. intros. apply i64_id. unfold in_i64. lia. Qed.

Lemma slen_CRLF a : slen (a +:+ CRLF) = slen a + 2.
Proof. unfold slen. rewrite length_append_s. change (String.length CRLF) with 2%nat. lia. Qed.

Lemma header_line c n rest :
  0 ≤ n → c ≠ LF → ReadString (String c (Itoa n) +:+ CRLF +:+ rest) = Got (String c (Itoa n) +:+ CRLF) rest.
Proof.
  intros Hn Hc. apply ReadString_CRLF. change (chars (String c (Itoa n))) with (c :: chars (Itoa n)).
  rewrite not_elem_of_cons. split; [done|]. by apply LF_digits, Itoa_digits.
Qed.

Lemma read_args_spec args fuel pre raw rest :
  Forall arg_ok args → (length args < fuel)%nat →
  read_args fuel (Z.of_nat (length args)) pre raw (args_bytes args +:+ rest) = Got (pre ++ args, raw +:+ args_bytes args) rest.
Proof.
  intros Hok. revert fuel pre raw. induction Hok as [|arg args Harg Hok IH]; intros fuel pre raw Hf;
    (destruct fuel as [|fuel]; [simpl in Hf; lia|]).
  { simpl. by rewrite append_nil_s, app_nil_r. }
  cbn [read_args]. rewrite (proj2 (Z.leb_gt _ _)) by (simpl; lia). cbn [args_bytes foldr]. fold (args_bytes args).
  unfold arg_ok in Harg. assert (0 ≤ slen arg) by (unfold slen; lia).
  unfold arg_bytes at 1. rewrite !append_assoc_s.
  replace ("$" +:+ Itoa (slen arg) +:+ CRLF +:+ arg +:+ CRLF +:+ args_bytes args +:+ rest)
    with (String (char_of 36) (Itoa (slen arg)) +:+ CRLF +:+ (arg +:+ CRLF +:+ args_bytes args +:+ rest)) by done.
  rewrite header_line by (done || lia). cbn [obind].
  replace (String (char_of 36) (Itoa (slen arg)) +:+ CRLF) with ("$" +:+ (Itoa (slen arg) +:+ CRLF)) by done. rewrite CutPrefix_append.
  rewrite TrimRight_CRLF by (by apply Itoa_digits). unfold Atoi. rewrite ParseInt_Itoa by (unfold in_i64; lia).
  rewrite (proj2 (Z.ltb_ge _ _)), i64_small by lia.
  rewrite <- (append_assoc_s arg CRLF). rewrite ReadFull_app by (rewrite slen_CRLF; lia).
  cbn [obind]. replace (Z.to_nat (slen arg)) with (String.length arg) by (unfold slen; lia). rewrite take_s_app.
  replace (Z.of_nat (length (arg :: args)) - 1) with (Z.of_nat (length args)) by (simpl; lia).
  rewrite IH by (simpl in Hf; lia). rewrite <- app_assoc. cbn [app]. f_equal. f_equal. unfold arg_bytes. by rewrite !append_assoc_s.
Qed.

(** The bytes a command came in are those it took from the reader. *)
Lemma read_args_raw fuel count pre raw r args raw' rest :
  read_args fuel count pre raw r = Got (args, raw') rest → raw +:+ r = raw' +:+ rest.
Proof.
  revert count pre raw r. induction fuel as [|fuel IH]; intros count pre raw r; [done|]. cbn [read_args].
  destruct (count <=? 0); [by intros [= <- <- <-]|].
  destruct (ReadString r) as [header r1| | |] eqn:Eh; try done. apply ReadString_inv in Eh as [-> _]. cbn [obind].
  destruct (CutPrefix header "$") as [size|]; [|done]. destruct (Atoi _) as [n|]; [|done]. destruct (n <? 0); [done|].
  destruct (ReadFull _ r1) as [data r2| | |] eqn:Ed; try done. apply ReadFull_inv in Ed as [-> _]. cbn [obind].
  intros E%IH. rewrite <- E. by rewrite !append_assoc_s.
Qed.

Lemma read_args_returns fuel count pre raw r :
  (String.length r < fuel)%nat → read_args fuel count pre raw r ≠ OutOfFuel.
Proof.
  revert count pre raw r. induction fuel as [|fuel IH]; intros count pre raw r Hf; [lia|]. cbn [read_args].
  destruct (count <=? 0); [done|].
  destruct (ReadString r) as [header r1| | |] eqn:Eh; try done; [|unfold ReadString in Eh; by repeat case_match].
  apply ReadString_inv in Eh as [_ Hlt]. cbn [obind].
  destruct (CutPrefix header "$") as [size|]; [|done]. destruct (Atoi _) as [n|]; [|done]. destruct (n <? 0); [done|].
  destruct (ReadFull _ r1) as [data r2| | |] eqn:Ed; try done; [|unfold ReadFull in Ed; by repeat case_match].
  apply ReadFull_inv in Ed as [-> _]. cbn [obind]. apply IH. rewrite length_append_s in Hlt. lia.
Qed.

(** *** Announced lengths *)

(** Somewhere in the bytes stands a number after ["*"] or ["$"] that announces
    more than an allocation can hold: a list of 2^44 items or a block of 2^48
    bytes. *)
Definition announces (r : string) : Prop :=
  ∃ before c num rest n, r = before +:+ String c num +:+ rest ∧ Atoi num = Some n ∧
    (byte_of c = 42 ∧ 2 ^ 48 < n * 16 ∨ byte_of c = 36 ∧ 2 ^ 48 < n + 2).

Lemma announces_app a r : announces r → announces (a +:+ r).
Proof.
  intros (before & c & num & rest & n & -> & H). exists (a +:+ before), c, num, rest, n. split; [|done]. by rewrite append_assoc_s.
Qed.

Lemma announces_here c num rest n :
  Atoi num = Some n → (byte_of c = 42 ∧ 2 ^ 48 < n * 16 ∨ byte_of c = 36 ∧ 2 ^ 48 < n + 2) → announces (String c num +:+ rest).
Proof. intros Hn Hc. by exists "", c, num, rest, n. Qed.

Lemma drop_while_suffix (q : ascii → bool) l : ∃ k, l = k ++ drop_while q l.
Proof.
  induction l as [|c l [k IH]]; simpl; [by exists []|]. destruct (q c); [|by exists []]. exists (c :: k). simpl. by rewrite <- IH.
Qed.

Lemma text_append a b : text (a ++ b) = text a +:+ text b.
Proof. induction a as [|c a IH]; simpl; [done|]. unfold text in *. simpl. by rewrite IH. Qed.

Lemma TrimRight_prefix a cutset : ∃ eol, a = TrimRight a cutset +:+ eol.
Proof.
  unfold TrimRight. destruct (drop_while_suffix (λ c, bool_decide (c ∈ chars cutset)) (rev (chars a))) as [k Hk].
  exists (text (rev k)). rewrite <- text_append, <- rev_app_distr, <- Hk, rev_involutive. symmetry. apply text_chars.
Qed.

Lemma TrimSuffix_prefix a suffix : ∃ eol, a = TrimSuffix a suffix +:+ eol.
Proof.
  unfold TrimSuffix. case_bool_decide; [|exists ""; by rewrite append_nil_s]. eexists. symmetry. apply take_drop_s.
Qed.

Lemma ReadFull_panics n r : 0 ≤ n → ReadFull (i64 (n + 2)) r = Panicked → 2 ^ 48 < n + 2.
Proof.
  intros Hn. unfold ReadFull, make_ok. destruct (Z.le_gt_cases (n + 2) (2 ^ 48)) as [Hle|]; [|done].
  rewrite i64_small by lia. rewrite (proj2 (Z.leb_le 0 (n + 2))), (proj2 (Z.leb_le _ (2 ^ 48))) by lia. simpl. by case_match.
Qed.

Lemma read_args_panics fuel count pre raw r : read_args fuel count pre raw r = Panicked → announces r.
Proof.
  revert count pre raw r. induction fuel as [|fuel IH]; intros count pre raw r; [done|]. cbn [read_args].
  destruct (count <=? 0); [done|].
  destruct (ReadString r) as [header r1| | |] eqn:Eh; try done; [|unfold ReadString in Eh; by repeat case_match].
  apply ReadString_inv in Eh as [-> _]. cbn [obind].
  destruct (CutPrefix header "$") as [size|] eqn:Ec; [|done]. apply CutPrefix_Some in Ec as ->.
  destruct (TrimRight_prefix size CRLF) as [eol Eeol]. destruct (Atoi _) as [n|] eqn:En; [|done].
  destruct (Z.ltb_spec n 0); [done|]. destruct (ReadFull _ r1) as [data r2| | |] eqn:Ed; try done; cbn [obind].
  - apply ReadFull_inv in Ed as [-> _]. intros Hp%IH. by repeat apply announces_app.
  - intros _. apply ReadFull_panics in Ed; [|done]. rewrite Eeol.
    replace (("$" +:+ TrimRight size CRLF +:+ eol) +:+ r1) with (String (char_of 36) (TrimRight size CRLF) +:+ (eol +:+ r1))
      by (rewrite !append_assoc_s; done).
    eapply announces_here; [exact En|]. by right.
Qed.

Lemma ReadCommand_panics r : ReadCommand r = Panicked → announces r.
Proof.
  unfold ReadCommand. destruct (ReadString r) as [line r1| | |] eqn:E; try done; [|unfold ReadString in E; by repeat case_match].
  apply ReadString_inv in E as [-> _]. cbn [obind]. destruct (CutPrefix line "*") as [num|] eqn:Ec; [|done].
  apply CutPrefix_Some in Ec as ->. destruct (TrimRight_prefix num CRLF) as [eol Eeol].
  destruct (Atoi _) as [n|] eqn:En; [|done]. unfold make_ok. rewrite (proj2 (Z.leb_le 0 (Z.max n 0))) by lia. cbn [andb].
  destruct (Z.leb_spec (Z.max n 0 * 16) (2 ^ 48)); cbn [negb]; [intros Hp%read_args_panics; by apply announces_app|].
  intros _. rewrite Eeol. replace (("*" +:+ TrimRight num CRLF +:+ eol) +:+ r1) with (String (char_of 42) (TrimRight num CRLF) +:+ (eol +:+ r1))
    by (rewrite !append_assoc_s; done).
  eapply announces_here; [exact En|]. left. split; [done|lia].
Qed.

(** [C36] The relay between a client and an engine neither alters nor loses a
    byte of a command: what [ReadCommand] returns as the bytes of a command,
    together with what it leaves in the reader, is what was there, whatever the
    client sent. It never loops: it returns a command or an error, or panics,
    and it panics only when a number among the client's bytes announces a list
    of more than 2^44 arguments or an argument of more than 2^48 - 2 bytes. A
    command that [EncodeCommand] wrote within those limits, whatever bytes its
    arguments hold, is read back as the same arguments, with what follows it
    left in the reader. *)
Theorem commands_roundtrip r :
  ReadCommand r ≠ OutOfFuel ∧ (ReadCommand r = Panicked → announces r) ∧
  (∀ args raw rest, ReadCommand r = Got (args, raw) rest → r = raw +:+ rest) ∧
  (∀ args rest, Forall arg_ok args → Z.of_nat (length args) * 16 ≤ 2 ^ 48 → r = EncodeCommand args +:+ rest →
     ReadCommand r = Got (args, EncodeCommand args) rest).
Proof.
  split_and!.
  - unfold ReadCommand. destruct (ReadString r) as [line r1| | |] eqn:E; try done; [|unfold ReadString in E; by repeat case_match].
    cbn [obind]. repeat case_match; try done. apply read_args_returns. lia.
  - apply ReadCommand_panics.
  - intros args raw rest. unfold ReadCommand. destruct (ReadString r) as [line r1| | |] eqn:E; try done. apply ReadString_inv in E as [-> _].
    cbn [obind]. destruct (CutPrefix line "*") as [count|]; [|by intros [= _ <- <-]].
    destruct (Atoi _) as [n|]; [|done]. destruct (negb _); [done|]. apply read_args_raw.
  - intros args rest Hok Hn ->. rewrite EncodeCommand_eq. set (n := Z.of_nat (length args)) in *.
    assert (0 ≤ n) by (subst n; lia).
    replace (("*" +:+ Itoa n +:+ CRLF +:+ args_bytes args) +:+ rest) with (String (char_of 42) (Itoa n) +:+ CRLF +:+ (args_bytes args +:+ rest))
      by (rewrite !append_assoc_s; done).
    unfold ReadCommand. rewrite header_line by (done || lia). cbn [obind].
    replace (String (char_of 42) (Itoa n) +:+ CRLF) with ("*" +:+ (Itoa n +:+ CRLF)) by done. rewrite CutPrefix_append.
    rewrite TrimRight_CRLF by (by apply Itoa_digits). unfold Atoi. rewrite ParseInt_Itoa by (unfold in_i64; lia).
    unfold make_ok. rewrite Z.max_l, (proj2 (Z.leb_le 0 n)), (proj2 (Z.leb_le _ (2 ^ 48))) by lia. cbn [andb negb].
    subst n. rewrite read_args_spec; [by rewrite !append_assoc_s|done|].
    rewrite length_append_s. clear. induction args as [|a args IH]; simpl; [lia|]. rewrite !length_append_s in *. simpl. lia.
Qed.

(** ** Replies, as the protocol writes them *)

Inductive wire :=
| WStatus (s : string) | WInt (z : Z) | WBulk (s : string) | WNullBulk | WArr (items : list wire) | WNullArr.

Fixpoint wire_bytes (w : wire) : string :=
  match w with
  | WStatus s => "+" +:+ s +:+ CRLF
  | WInt z => ":" +:+ Itoa z +:+ CRLF
  | WBulk s => "$" +:+ Itoa (slen s) +:+ CRLF +:+ s +:+ CRLF
  | WNullBulk => "$-1" +:+ CRLF
  | WArr items => "*" +:+ Itoa (Z.of_nat (length items)) +:+ CRLF +:+ foldr (λ w b, wire_bytes w +:+ b) "" items
  | WNullArr => "*-1" +:+ CRLF
  end.

Fixpoint wire_value (w : wire) : reply :=
  match w with
  | WStatus s | WBulk s => RStr s
  | WInt z => RInt z
  | WNullBulk | WNullArr => RNil
  | WArr items => RArr (map wire_value items)
  end.

(** A status is one line; numbers and lengths are in range. *)
Fixpoint wire_ok (w : wire) : Prop :=
  match w with
  | WStatus s => LF ∉ chars s
  | WInt z => in_i64 z
  | WBulk s => slen s + 2 ≤ 2 ^ 48
  | WArr items => Z.of_nat (length items) * 16 ≤ 2 ^ 48 ∧ foldr (λ w P, wire_ok w ∧ P) True items
  | WNullBulk | WNullArr => True
  end.

Lemma wire_induction (P : wire → Prop) :
  (∀ s, P (WStatus s)) → (∀ z, P (WInt z)) → (∀ s, P (WBulk s)) → P WNullBulk → P WNullArr →
  (∀ items, Forall P items → P (WArr items)) → ∀ w, P w.
Proof.
  intros H1 H2 H3 H4 H5 H6. fix IH 1. intros [s|z|s| |items|]; [apply H1|apply H2|apply H3|apply H4| |apply H5].
  apply H6. induction items as [|w items IHl]; constructor; [apply IH|exact IHl].
Qed.

Lemma read_line c payload rest fuel :
  c ≠ LF → LF ∉ chars payload →
  read_reply (S fuel) (String c payload +:+ CRLF +:+ rest) =
    if byte_of c =? 43 then Got (RStr payload) rest
    else if byte_of c =? 45 then Failed (Error payload) rest
    else if byte_of c =? 58 then
      match ParseInt payload with Some z => Got (RInt z) rest | None => Failed (ErrInt payload) rest end
    else if byte_of c =? 36 then
      match Atoi payload with
      | None => Failed (ErrBulk payload) rest
      | Some size =>
          if size <? 0 then Got RNil rest
          else obind (ReadFull (i64 (size + 2)) rest) (λ data r, Got (RStr (take_s (Z.to_nat size) data)) r)
      end
    else if byte_of c =? 42 then
      match Atoi payload with
      | None => Failed (ErrArray payload) rest
      | Some count =>
          if count <? 0 then Got RNil rest
          else if negb (make_ok count 16) then Panicked
          else obind (read_items fuel count rest) (λ items r, Got (RArr items) r)
      end
    else Failed (ErrUnknown (String c payload)) rest.
Proof.
  intros Hc Hp. cbn [read_reply]. rewrite ReadString_CRLF.
  - cbn [obind]. by rewrite TrimSuffix_CRLF.
  - change (chars (String c payload)) with (c :: chars payload). by apply not_elem_of_cons.
Qed.

Lemma Itoa_line z : LF ∉ chars (Itoa z).
Proof.
  destruct (Z.ltb_spec z 0) as [Hz|Hz]; [|by apply LF_digits, Itoa_digits].
  unfold Itoa. rewrite (proj2 (Z.ltb_lt _ _)) by done. change (chars (String minus ?x)) with (minus :: chars x).
  apply not_elem_of_cons. split; [done|]. apply LF_digits, dec_loop_digits. constructor.
Qed.

Definition size_s (w : wire) : nat := String.length (wire_bytes w).

(** A reply reads as its value, and leaves what follows it. *)
Lemma read_wire w : ∀ fuel rest, wire_ok w → (2 * size_s w < fuel)%nat →
  read_reply fuel (wire_bytes w +:+ rest) = Got (wire_value w) rest.
Proof.
  unfold size_s. induction w as [s|z|s| | |items IH] using wire_induction; intros fuel rest Hok Hf;
    (destruct fuel as [|fuel]; [lia|]); cbn [wire_bytes wire_value wire_ok] in *.
  - replace (("+" +:+ s +:+ CRLF) +:+ rest) with (String (char_of 43) s +:+ CRLF +:+ rest) by (rewrite !append_assoc_s; done).
    by rewrite read_line.
  - replace ((":" +:+ Itoa z +:+ CRLF) +:+ rest) with (String (char_of 58) (Itoa z) +:+ CRLF +:+ rest) by (rewrite !append_assoc_s; done).
    rewrite read_line by (done || apply Itoa_line). cbn -[Itoa ParseInt]. by rewrite ParseInt_Itoa.
  - replace (("$" +:+ Itoa (slen s) +:+ CRLF +:+ s +:+ CRLF) +:+ rest)
      with (String (char_of 36) (Itoa (slen s)) +:+ CRLF +:+ (s +:+ CRLF) +:+ rest) by (rewrite !append_assoc_s; done).
    assert (0 ≤ slen s) by (unfold slen; lia).
    rewrite read_line by (done || apply Itoa_line). cbn -[Itoa Atoi ReadFull]. unfold Atoi. rewrite ParseInt_Itoa by (unfold in_i64; lia).
    rewrite (proj2 (Z.ltb_ge _ _)), i64_small by lia. rewrite ReadFull_app by (rewrite slen_CRLF; lia).
    cbn [obind]. replace (Z.to_nat (slen s)) with (String.length s) by (unfold slen; lia). by rewrite take_s_app.
  - replace (("$-1" +:+ CRLF) +:+ rest) with (String (char_of 36) "-1" +:+ CRLF +:+ rest) by (rewrite !append_assoc_s; done).
    rewrite read_line; [done|done|]. vm_compute. set_solver.
  - replace (("*-1" +:+ CRLF) +:+ rest) with (String (char_of 42) "-1" +:+ CRLF +:+ rest) by (rewrite !append_assoc_s; done).
    rewrite read_line; [done|done|]. vm_compute. set_solver.
  - destruct Hok as [Hn Hok]. set (body := foldr (λ w b, wire_bytes w +:+ b) "" items) in *.
    replace (("*" +:+ Itoa (Z.of_nat (length items)) +:+ CRLF +:+ body) +:+ rest)
      with (String (char_of 42) (Itoa (Z.of_nat (length items))) +:+ CRLF +:+ (body +:+ rest)) by (rewrite !append_assoc_s; done).
    rewrite read_line by (done || apply Itoa_line). cbn -[Itoa Atoi read_items make_ok]. unfold Atoi. rewrite ParseInt_Itoa by (unfold in_i64; lia).
    rewrite (proj2 (Z.ltb_ge _ _)) by lia. unfold make_ok. rewrite (proj2 (Z.leb_le 0 _)), (proj2 (Z.leb_le _ (2 ^ 48))) by lia. cbn [andb negb].
    rewrite !length_append_s in Hf. change (String.length CRLF) with 2%nat in Hf.
    enough (read_items fuel (Z.of_nat (length items)) (body +:+ rest) = Got (map wire_value items) rest) as -> by done.
    assert (2 * String.length body + 1 < fuel)%nat as Hb by lia. clear Hf Hn. subst body. revert fuel Hb Hok.
    induction IH as [|w items Hw _ IHl]; intros fuel Hb Hok; (destruct fuel as [|fuel]; [lia|]); [done|].
    cbn [read_items foldr length]. rewrite (proj2 (Z.leb_gt _ _)) by lia. destruct Hok as [Hokw Hok].
    cbn [foldr] in Hb. rewrite length_append_s in Hb. rewrite append_assoc_s, Hw by (done || lia). cbn [obind].
    replace (Z.of_nat (S (length items)) - 1) with (Z.of_nat (length items)) by lia.
    rewrite IHl; [done| |done]. enough (0 < String.length (wire_bytes w))%nat by lia.
    destruct w; simpl wire_bytes; rewrite ?length_append_s; simpl; lia.
Qed.

(** What a read leaves is the end of what was there. *)
Lemma read_suffix fuel :
  (∀ r v rest, read_reply fuel r = Got v rest → ∃ a, r = a +:+ rest) ∧
  (∀ n r v rest, read_items fuel n r = Got v rest → ∃ a, r = a +:+ rest).
Proof.
  induction fuel as [|fuel [IHr IHi]]; [done|]. split.
  - intros r v rest. cbn [read_reply]. destruct (ReadString r) as [line r1| | |] eqn:E; cbn [obind]; try done.
    apply ReadString_inv in E as [-> _]. destruct (TrimSuffix line CRLF) as [|c payload]; [done|].
    repeat (case_match; try (intros; simplify_eq; by eexists)); try done.
    + destruct (ReadFull _ r1) as [data r2| | |] eqn:Ed; cbn [obind]; try done. apply ReadFull_inv in Ed as [-> _].
      intros [= <- <-]. exists (line +:+ data). by rewrite append_assoc_s.
    + match goal with |- context [read_items fuel ?n r1] => destruct (read_items fuel n r1) as [l r2| | |] eqn:Ei end; cbn [obind]; try done.
      intros [= <- <-]. apply IHi in Ei as [a ->]. exists (line +:+ a). by rewrite append_assoc_s.
  - intros n r v rest. cbn [read_items]. destruct (n <=? 0); [intros [= <- <-]; by exists ""|].
    destruct (read_reply fuel r) as [x r1| | |] eqn:E; cbn [obind]; try done. apply IHr in E as [a ->].
    destruct (read_items fuel (n - 1) r1) as [l r2| | |] eqn:Ei; cbn [obind]; try done. apply IHi in Ei as [b ->].
    intros [= <- <-]. exists (a +:+ b). by rewrite append_assoc_s.
Qed.

(** Whatever arrives, the reads return. *)
Lemma read_total fuel :
  (∀ r, (2 * String.length r < fuel)%nat →
     read_reply fuel r ≠ OutOfFuel ∧ ∀ v rest, read_reply fuel r = Got v rest → (String.length rest < String.length r)%nat) ∧
  (∀ n r, (2 * String.length r + 1 < fuel)%nat →
     read_items fuel n r ≠ OutOfFuel ∧ ∀ v rest, read_items fuel n r = Got v rest → (String.length rest ≤ String.length r)%nat).
Proof.
  induction fuel as [|fuel [IHr IHi]]; [split; intros; lia|]. split.
  - intros r Hf. cbn [read_reply]. destruct (ReadString r) as [line r1| | |] eqn:E; cbn [obind]; try done; [|unfold ReadString in E; by repeat case_match].
    apply ReadString_inv in E as [-> Hlt]. destruct (TrimSuffix line CRLF) as [|c payload]; [done|].
    repeat (case_match; try (split; [done|]; intros; simplify_eq; lia)); try done.
    + destruct (ReadFull _ r1) as [data r2| | |] eqn:Ed; cbn [obind]; try done; [|unfold ReadFull in Ed; by repeat case_match].
      apply ReadFull_inv in Ed as [-> _]. split; [done|]. intros v rest [= <- <-]. rewrite !length_append_s in *. lia.
    + match goal with |- context [read_items fuel ?n r1] => destruct (IHi n r1) as [Hi1 Hi2]; [lia|]; destruct (read_items fuel n r1) as [v r2| | |] end;
        cbn [obind]; try done.
      split; [done|]. intros v' rest [= <- <-]. specialize (Hi2 v r2 eq_refl). lia.
  - intros n r Hf. cbn [read_items]. destruct (n <=? 0); [split; [done|]; intros v rest [= <- <-]; lia|].
    destruct (IHr r) as [H1 H2]; [lia|]. destruct (read_reply fuel r) as [v r1| | |]; cbn [obind]; try done.
    specialize (H2 v r1 eq_refl). destruct (IHi (n - 1) r1) as [H3 H4]; [lia|].
    destruct (read_items fuel (n - 1) r1) as [vs r2| | |]; cbn [obind]; try done. split; [done|].
    intros v' rest [= <- <-]. specialize (H4 vs r2 eq_refl). lia.
Qed.

Lemma ReadReply_returns r : ReadReply r ≠ OutOfFuel.
Proof. unfold ReadReply. apply read_total. lia. Qed.

(** A read panics only over an announced length. *)
Lemma read_panics fuel :
  (∀ r, read_reply fuel r = Panicked → announces r) ∧
  (∀ n r, read_items fuel n r = Panicked → announces r).
Proof.
  induction fuel as [|fuel [IHr IHi]]; [done|]. split.
  - intros r. cbn [read_reply]. destruct (ReadString r) as [line r1| | |] eqn:E; cbn [obind]; try done; [|unfold ReadString in E; by repeat case_match].
    apply ReadString_inv in E as [-> _]. destruct (TrimSuffix_prefix line CRLF) as [eol Eeol].
    destruct (TrimSuffix line CRLF) as [|c payload]; [done|].
    destruct (byte_of c =? 43); [done|]. destruct (byte_of c =? 45); [done|].
    destruct (byte_of c =? 58); [by destruct (ParseInt payload)|].
    rewrite Eeol, append_assoc_s. destruct (Z.eqb_spec (byte_of c) 36) as [Hc|_].
    + destruct (Atoi payload) as [n|] eqn:En; [|done]. destruct (Z.ltb_spec n 0); [done|].
      destruct (ReadFull _ r1) as [data r2| | |] eqn:Ed; cbn [obind]; try done. intros _.
      apply ReadFull_panics in Ed; [|done]. eapply announces_here; [exact En|]. by right.
    + destruct (Z.eqb_spec (byte_of c) 42) as [Hc|_]; [|done]. destruct (Atoi payload) as [n|] eqn:En; [|done].
      destruct (Z.ltb_spec n 0); [done|]. unfold make_ok. rewrite (proj2 (Z.leb_le 0 n)) by done. cbn [andb].
      destruct (Z.leb_spec (n * 16) (2 ^ 48)); cbn [negb].
      * destruct (read_items fuel n r1) eqn:Ei; cbn [obind]; try done. intros _. apply announces_app, announces_app. by eapply IHi.
      * intros _. eapply announces_here; [exact En|]. by left.
  - intros n r. cbn [read_items]. destruct (n <=? 0); [done|]. destruct (read_reply fuel r) as [v r1| | |] eqn:E; cbn [obind]; try done.
    + destruct (read_items fuel (n - 1) r1) eqn:Ei; cbn [obind]; try done. intros _. apply IHi in Ei.
      apply read_suffix in E as [a ->]. by apply announces_app.
    + intros _. by apply IHr.
Qed.

(** ** Pipelines *)

(** What an engine answers a command with: a value, without errors among the
    items of an array, or an error reply. *)
Definition engine_answer : Type := wire + string.
Definition answer_bytes (a : engine_answer) : string :=
  match a with inl w => wire_bytes w | inr e => "-" +:+ e +:+ CRLF end.
Definition answer_ok (a : engine_answer) : Prop := match a with inl w => wire_ok w | inr e => LF ∉ chars e end.
Definition answer_value (a : engine_answer) : reply := match a with inl w => wire_value w | inr _ => RNil end.
Definition answers_bytes (l : list engine_answer) : string := foldr (λ a b, answer_bytes a +:+ b) "" l.

(** The command an answer refuses, when the caller does not tolerate it. *)
Definition refusal (tolerated : list string) (x : list string * engine_answer) : option (list string * string) :=
  match x.2 with inr e => if toleratedRefusal e tolerated then None else Some (x.1, e) | inl _ => None end.

Lemma ReadReply_answer a rest :
  answer_ok a →
  ReadReply (answer_bytes a +:+ rest) = match a with inl w => Got (wire_value w) rest | inr e => Failed (Error e) rest end.
Proof.
  intros Hok. unfold ReadReply. rewrite length_append_s. destruct a as [w|e]; simpl in Hok.
  - apply read_wire; [done|]. unfold size_s. simpl. lia.
  - rewrite Nat.add_comm. simpl Nat.add. simpl answer_bytes.
    replace (("-" +:+ e +:+ CRLF) +:+ rest) with (String (char_of 45) e +:+ CRLF +:+ rest) by (rewrite !append_assoc_s; done).
    by rewrite read_line.
Qed.

Lemma read_replies_spec tolerated commands answers c replies failed rest :
  length answers = length commands → Forall answer_ok answers → inbox c = answers_bytes answers +:+ rest →
  read_replies tolerated commands c replies failed =
    (set_inbox c rest,
     Answer (replies ++ (answer_value <$> answers),
             match failed with Some f => Some f | None => head (omap (refusal tolerated) (zip commands answers)) end)).
Proof.
  intros Hlen Hok. revert commands c replies failed Hlen.
  induction Hok as [|a answers Ha Hok IH]; intros [|args commands] c replies failed Hlen Hin; try done; csimpl.
  { simpl in Hin. rewrite app_nil_r. destruct c as [s i b]. simpl in *. subst. by destruct failed. }
  rewrite Hin. cbn [answers_bytes foldr]. fold (answers_bytes answers). rewrite append_assoc_s, ReadReply_answer by done.
  injection Hlen as Hlen. destruct a as [w|e]; cbn [refusal snd fst answer_value].
  - rewrite IH by done. by rewrite <- app_assoc.
  - rewrite IH by done. rewrite <- app_assoc. cbn [app set_inbox inbox sent broken]. f_equal. f_equal. f_equal.
    destruct failed as [f|]; [done|]. by destruct (toleratedRefusal e tolerated).
Qed.

Definition commands_bytes (commands : list (list string)) : string := foldr (λ args b, EncodeCommand args +:+ b) "" commands.

(** [C37] A pipeline sends its commands in order and, whatever mix of values and
    error replies the engine answers the commands with, no error standing inside
    an array, returns one reply per command in order, with nothing for the
    refused ones; it fails exactly when some refusal is not tolerated, naming the
    first; and it leaves the connection in step, at the first byte after the
    last reply. An error inside an array, as [EXEC] may send, is outside this
    claim: [array_error_leaves_the_step] shows the connection out of step.
    Reading a reply never loops, and panics only when a number among the bytes
    announces more than an allocation can hold. *)
Theorem pipelines_stay_in_step c commands tolerated answers rest :
  broken c = false → length answers = length commands → Forall answer_ok answers → inbox c = answers_bytes answers +:+ rest →
  Pipeline c commands tolerated =
    (MkConn (sent c +:+ commands_bytes commands) rest false,
     Answer (answer_value <$> answers, head (omap (refusal tolerated) (zip commands answers)))) ∧
  (∀ r, ReadReply r ≠ OutOfFuel ∧ (ReadReply r = Panicked → announces r)).
Proof.
  intros Hb Hlen Hok Hin. split; [|intros r; split; [apply ReadReply_returns|apply read_panics]]. unfold Pipeline, Write. rewrite Hb.
  assert (∀ b, foldl (λ b args, b +:+ EncodeCommand args) b commands = b +:+ commands_bytes commands) as ->.
  { clear. induction commands as [|a l IH]; intros b; simpl; [by rewrite append_nil_s|]. by rewrite IH, append_assoc_s. }
  by rewrite (read_replies_spec _ _ answers _ _ _ rest).
Qed.

Lemma pipelines_stay_in_step_witness :
  Pipeline (MkConn "" (answers_bytes [inr "BUSYGROUP exists"; inl (WArr [WInt 7; WBulk "v"]); inr "ERR no"] +:+ "+next") false)
    [["XGROUP"]; ["EXEC"]; ["NOPE"; "x"]] ["BUSYGROUP"] =
  (MkConn (commands_bytes [["XGROUP"]; ["EXEC"]; ["NOPE"; "x"]]) "+next" false,
   Answer ([RNil; RArr [RInt 7; RStr "v"]; RNil], Some (["NOPE"; "x"], "ERR no"))).
Proof.
  refine (proj1 (pipelines_stay_in_step _ _ _ [inr "BUSYGROUP exists"; inl (WArr [WInt 7; WBulk "v"]); inr "ERR no"] "+next" _ _ _ _)); try done.
  repeat constructor; try (vm_compute; set_solver); by vm_compute.
Defined.

(** An error reply inside an array, as [EXEC] answers with, ends the read there:
    the rest of the array is taken for the replies of later commands, although
    the pipeline is said to stay in step. *)
Theorem array_error_leaves_the_step :
  Pipeline (MkConn "" ("*2" +:+ CRLF +:+ "-ERR x" +:+ CRLF +:+ ":1" +:+ CRLF +:+ ":7" +:+ CRLF) false) [["EXEC"]; ["GET"; "n"]] ["ERR"] =
  (MkConn (commands_bytes [["EXEC"]; ["GET"; "n"]]) (":7" +:+ CRLF) false, Answer ([RNil; RInt 1], None)).
Proof. by vm_compute. Qed.

(** A client that announces an argument of 2^63 - 1 bytes makes the allocation
    of the argument panic, in a goroutine that does not recover. *)
Theorem huge_argument_panics :
  ReadCommand ("*1" +:+ CRLF +:+ "$9223372036854775807" +:+ CRLF) = Panicked.
Proof. by vm_compute. Qed.
