(* ===== verification/Parsecore.v ===== *)
(** * Primitives of the hand-written parsers: [src/sim/parsecore.go], [src/sim/safeparse.go]

    The cursor over a text ([Scanner]), the budget of a recursive parser
    ([ParseGuard]), the cursor over a wire buffer ([FrameReader]) and the search
    that ignores ASCII case. An index or slice expression out of range is a
    panic, [None]; the theorems show that no input and no sequence of calls
    reaches one. Positions and counters are Go [int]s. *)

From S2P Require Import Prelude Gostd.

Definition slen (s : string) : Z := Z.of_nat (String.length s).

(** [s[i]] and [s[i:j]]. *)
Definition index (s : string) (i : Z) : option ascii :=
  if 0 <=? i then chars s !! Z.to_nat i else None.

Definition substr (s : string) (i j : Z) : option string :=
  if (0 <=? i) && (i <=? j) && (j <=? slen s)
  then Some (text (take (Z.to_nat (j - i)) (drop (Z.to_nat i) (chars s)))) else None.

(** ** [Scanner] *)

Record Scanner := MkScanner { s : string; pos : Z }.

Definition NewScanner (text : string) : Scanner := MkScanner text 0.
Definition Pos (sc : Scanner) : Z := pos sc.
Definition Len (sc : Scanner) : Z := slen (s sc).
Definition Eof (sc : Scanner) : bool := slen (s sc) <=? pos sc.
Definition zero_byte : ascii := char_of 0.

Definition Peek (sc : Scanner) : option ascii :=
  if pos sc <? slen (s sc) then index (s sc) (pos sc) else Some zero_byte.

Definition PeekAt (sc : Scanner) (n : Z) : option ascii :=
  let i := i64 (pos sc + n) in
  if (0 <=? i) && (i <? slen (s sc)) then index (s sc) i else Some zero_byte.

Definition Next (sc : Scanner) : option (ascii * Scanner) :=
  if pos sc <? slen (s sc) then
    match index (s sc) (pos sc) with
    | Some b => Some (b, MkScanner (s sc) (i64 (pos sc + 1)))
    | None => None
    end
  else Some (zero_byte, sc).

Definition Slice (sc : Scanner) (start end_ : Z) : option string :=
  let start := if start <? 0 then 0 else start in
  let end_ := if slen (s sc) <? end_ then slen (s sc) else end_ in
  if end_ <=? start then Some "" else substr (s sc) start end_.

(** ** [ParseGuard] *)

Definition DefaultMaxParseDepth : Z := 512.
Definition DefaultMaxParseNodes : Z := 100000.

Record ParseGuard := MkGuard { depth : Z; maxDepth : Z; nodes : Z; maxNodes : Z }.

Definition NewParseGuard (maxDepth maxNodes : Z) : ParseGuard :=
  MkGuard 0 (if maxDepth <=? 0 then DefaultMaxParseDepth else maxDepth) 0 (if maxNodes <=? 0 then DefaultMaxParseNodes else maxNodes).

Definition Enter (g : ParseGuard) : ParseGuard * bool :=
  let g := MkGuard (i64 (depth g + 1)) (maxDepth g) (i64 (nodes g + 1)) (maxNodes g) in
  (g, (depth g <=? maxDepth g) && (nodes g <=? maxNodes g)).

Definition Leave (g : ParseGuard) : ParseGuard :=
  if 0 <? depth g then MkGuard (depth g - 1) (maxDepth g) (nodes g) (maxNodes g) else g.

(** ** [ASCIIFold] and the searches *)

(** Both fold functions change a copy of the bytes in place and return the
    original when nothing changed. *)
Fixpoint fold_bytes (lo hi delta : Z) (l : list ascii) : list ascii * bool :=
  match l with
  | [] => ([], false)
  | c :: l =>
      let '(l', changed) := fold_bytes lo hi delta l in
      if (lo <=? byte_of c) && (byte_of c <=? hi) then (char_of (byte_of c + delta) :: l', true) else (c :: l', changed)
  end.

Definition ASCIIFold (s : string) : string :=
  let '(b, changed) := fold_bytes 65 90 32 (chars s) in if negb changed then s else text b.

Definition ASCIIFoldUpper (s : string) : string :=
  let '(b, changed) := fold_bytes 97 122 (-32) (chars s) in if negb changed then s else text b.

(** [strings.Index] and [strings.LastIndex]: the first and the last offset at
    which [sub] begins, or -1. *)
Definition begins_at (s sub : string) (i : nat) : bool := HasPrefix (text (drop i (chars s))) sub.

Definition first_index (s sub : string) : Z :=
  match list_find (λ i, begins_at s sub i = true) (seq 0 (S (String.length s))) with Some (_, i) => Z.of_nat i | None => -1 end.

Definition last_index (s sub : string) : Z :=
  match list_find (λ i, begins_at s sub i = true) (reverse (seq 0 (S (String.length s)))) with Some (_, i) => Z.of_nat i | None => -1 end.

Definition CaseInsensitiveIndex (s sub : string) : Z := first_index (ASCIIFold s) (ASCIIFold sub).
Definition CaseInsensitiveLastIndex (s sub : string) : Z := last_index (ASCIIFold s) (ASCIIFold sub).

(** ** [FrameReader] *)

Record FrameReader := MkFrame { data : string; off : Z }.

Definition NewFrameReader (data : string) : FrameReader := MkFrame data 0.
Definition Remaining (r : FrameReader) : Z := slen (data r) - off r.

(** [io.ErrUnexpectedEOF] is the one error. *)
Definition Take (r : FrameReader) (n : Z) : option (FrameReader * result unit string) :=
  if (n <? 0) || (Remaining r <? n) then Some (r, Err ())
  else match substr (data r) (off r) (off r + n) with
       | Some b => Some (MkFrame (data r) (off r + n), Ok b)
       | None => None
       end.

(** ** Cursors stay in bounds *)

Lemma length_chars_p s : length (chars s) = String.length s.
Proof. induction s; simpl; auto. Qed.

Lemma index_app a c b : index (text (a ++ c :: b)) (Z.of_nat (length a)) = Some c.
Proof.
  unfold index. rewrite (proj2 (Z.leb_le _ _)), Nat2Z.id, chars_text by lia. by rewrite lookup_app_r, Nat.sub_diag by lia.
Qed.

Lemma slen_text l : slen (text l) = Z.of_nat (length l).
Proof. unfold slen. by rewrite <- length_chars_p, chars_text. Qed.

Lemma index_in s i : 0 ≤ i < slen s → is_Some (index s i).
Proof.
  intros Hi. unfold index, slen in *. rewrite (proj2 (Z.leb_le _ _)) by lia. apply lookup_lt_is_Some. rewrite length_chars_p. lia.
Qed.

Lemma substr_app a b c : substr (text (a ++ b ++ c)) (Z.of_nat (length a)) (Z.of_nat (length a) + Z.of_nat (length b)) = Some (text b).
Proof.
  unfold substr. rewrite slen_text, !length_app, !(proj2 (Z.leb_le _ _)) by lia. simpl.
  rewrite chars_text, Nat2Z.id, drop_app_length. replace (Z.to_nat _) with (length b) by lia. by rewrite take_app_length.
Qed.

(** The bytes [k] calls of [Next] return, and the scanner after them. *)
Fixpoint nexts (k : nat) (sc : Scanner) : option (list ascii * Scanner) :=
  match k with
  | O => Some ([], sc)
  | S k =>
      match Next sc with
      | None => None
      | Some (b, sc) => match nexts k sc with Some (bs, sc) => Some (b :: bs, sc) | None => None end
      end
  end.

(** A scanner that has read [a] of [a ++ b]. *)
Definition scan_at (a b : list ascii) : Scanner := MkScanner (text (a ++ b)) (Z.of_nat (length a)).

Lemma Next_byte a c b : Z.of_nat (length a) < 2 ^ 62 → Next (scan_at a (c :: b)) = Some (c, scan_at (a ++ [c]) b).
Proof.
  intros Hl. unfold Next, scan_at. cbn [s pos]. rewrite slen_text, length_app, (proj2 (Z.ltb_lt _ _)) by (simpl; lia).
  rewrite index_app, i64_id by (unfold in_i64; lia). rewrite <- app_assoc, length_app. do 3 f_equal. simpl. lia.
Qed.

Lemma Next_end a : Next (scan_at a []) = Some (zero_byte, scan_at a []).
Proof. unfold Next, scan_at. cbn [s pos]. rewrite slen_text, app_nil_r, (proj2 (Z.ltb_ge _ _)) by lia. done. Qed.

Lemma nexts_spec k a b :
  Z.of_nat (length (a ++ b)) < 2 ^ 62 →
  nexts k (scan_at a b) = Some (take k b ++ replicate (k - length b) zero_byte, scan_at (a ++ take k b) (drop k b)).
Proof.
  revert a b. induction k as [|k IH]; intros a b Hl; [rewrite take_0, drop_0, (app_nil_r a); done|]. cbn [nexts]. destruct b as [|c b].
  - rewrite Next_end, IH by done. rewrite !take_nil, !drop_nil. simpl. by rewrite Nat.sub_0_r.
  - rewrite Next_byte, IH by (rewrite ?length_app in *; simpl in *; lia). simpl. by rewrite <- app_assoc.
Qed.

(** The clamped bounds of [Slice]. *)
Definition clamp (lo hi z : Z) : Z := Z.max lo (Z.min hi z).

Lemma Slice_clamped sc a b :
  Slice sc a b = Some (text (take (Z.to_nat (clamp 0 (slen (s sc)) b - Z.max a 0)) (drop (Z.to_nat a) (chars (s sc))))).
Proof.
  unfold Slice, clamp. assert (0 ≤ slen (s sc)) as H0 by (unfold slen; lia).
  set (start := if a <? 0 then 0 else a). set (stop := if slen (s sc) <? b then slen (s sc) else b).
  assert (start = Z.max a 0) as -> by (subst start; destruct (Z.ltb_spec a 0); lia).
  assert (stop = Z.min (slen (s sc)) b) as -> by (subst stop; destruct (Z.ltb_spec (slen (s sc)) b); lia).
  replace (Z.to_nat a) with (Z.to_nat (Z.max a 0)) by lia.
  destruct (Z.leb_spec (Z.min (slen (s sc)) b) (Z.max a 0)).
  - replace (Z.to_nat (Z.max 0 _ - _)) with 0%nat by lia. done.
  - unfold substr. rewrite !(proj2 (Z.leb_le _ _)) by lia. simpl. rewrite (Z.max_r 0) by lia. done.
Qed.

(** The requests a decoder makes of a frame, and what it gets. *)
Fixpoint takes (ns : list Z) (r : FrameReader) : option (FrameReader * list (result unit string)) :=
  match ns with
  | [] => Some (r, [])
  | n :: ns =>
      match Take r n with
      | None => None
      | Some (r, x) => match takes ns r with Some (r, xs) => Some (r, x :: xs) | None => None end
      end
  end.

Definition got (xs : list (result unit string)) : list ascii :=
  concat (map (λ x, match x with Ok b => chars b | Err _ => [] end) xs).

Definition frame_at (a b : list ascii) : FrameReader := MkFrame (text (a ++ b)) (Z.of_nat (length a)).

Lemma Take_spec a b n :
  Take (frame_at a b) n =
  if (n <? 0) || (Z.of_nat (length b) <? n) then Some (frame_at a b, Err ())
  else Some (frame_at (a ++ take (Z.to_nat n) b) (drop (Z.to_nat n) b), Ok (text (take (Z.to_nat n) b))).
Proof.
  unfold Take, Remaining, frame_at. cbn [data off]. rewrite slen_text, length_app.
  replace (Z.of_nat (length a + length b) - Z.of_nat (length a)) with (Z.of_nat (length b)) by lia.
  destruct ((n <? 0) || _) eqn:E; [done|]. bools.
  assert (Z.of_nat (length (take (Z.to_nat n) b)) = n) as Hn by (rewrite length_take; lia).
  rewrite <- (take_drop (Z.to_nat n) b) at 1. rewrite <- Hn at 3. rewrite substr_app.
  rewrite <- app_assoc, take_drop. do 3 f_equal. rewrite length_app, length_take. lia.
Qed.

Lemma takes_spec ns a b :
  ∃ xs k, takes ns (frame_at a b) = Some (frame_at (a ++ take k b) (drop k b), xs) ∧ got xs = take k b ∧ length xs = length ns.
Proof.
  revert a b. induction ns as [|n ns IH]; intros a b; [exists [], 0%nat; by rewrite app_nil_r|].
  cbn [takes]. rewrite Take_spec. destruct (_ || _) eqn:E.
  - destruct (IH a b) as (xs & k & -> & Hg & Hl). exists (Err () :: xs), k. split_and!; [done|done|simpl; lia].
  - bools. destruct (IH (a ++ take (Z.to_nat n) b) (drop (Z.to_nat n) b)) as (xs & k & -> & Hg & Hl).
    exists (Ok (text (take (Z.to_nat n) b)) :: xs), (Z.to_nat n + k)%nat.
    assert (take (Z.to_nat n + k) b = take (Z.to_nat n) b ++ take k (drop (Z.to_nat n) b)) as Ht.
    { rewrite <- (take_drop (Z.to_nat n) b) at 1. rewrite take_app_add'; [done|rewrite length_take; lia]. }
    split_and!.
    + by rewrite drop_drop, <- app_assoc, Ht.
    + unfold got in *. simpl. by rewrite Hg, chars_text, Ht.
    + simpl. lia.
Qed.

(** No text and no sequence of calls makes a parser's cursor index or slice
    out of range. After any number of [Next] calls a scanner has returned the
    bytes of the text in order, then zeros, and stands after them; there, [Peek]
    and [PeekAt] at any offset answer, and [Slice] of any two integers is the
    text between them, both clamped into the text. A frame reader asked for any
    lengths returns or refuses each, and the bytes it returned are, in order and
    without a gap, the bytes before its offset. *)
Theorem cursors_stay_in_bounds txt k ns :
  slen txt < 2 ^ 62 →
  (∃ sc, nexts k (NewScanner txt) = Some (take k (chars txt) ++ replicate (k - String.length txt) zero_byte, sc) ∧
     s sc = txt ∧ pos sc = Z.min (Z.of_nat k) (slen txt) ∧
     Peek sc = Some (default zero_byte (chars txt !! k)) ∧ (∀ n, is_Some (PeekAt sc n)) ∧
     (∀ a b, Slice sc a b = Some (text (take (Z.to_nat (clamp 0 (slen txt) b - Z.max a 0)) (drop (Z.to_nat a) (chars txt)))))) ∧
  (∃ r xs, takes ns (NewFrameReader txt) = Some (r, xs) ∧ length xs = length ns ∧
     data r = txt ∧ 0 ≤ off r ≤ slen txt ∧ got xs = take (Z.to_nat (off r)) (chars txt)).
Proof.
  intros Hl. assert (Z.of_nat (length (chars txt)) = slen txt) as Hlen by (unfold slen; by rewrite length_chars_p). split.
  - assert (NewScanner txt = scan_at [] (chars txt)) as -> by (unfold NewScanner, scan_at; simpl; by rewrite text_chars).
    rewrite nexts_spec by (simpl; lia). rewrite length_chars_p. eexists. split; [done|]. cbn [app]. unfold scan_at. cbn [s pos].
    rewrite take_drop, text_chars. split_and!; [done|rewrite length_take; lia| | |].
    + unfold Peek. cbn [s pos]. rewrite length_take. destruct (Z.ltb_spec (Z.of_nat (k `min` length (chars txt))) (slen txt)) as [Hk|Hk].
      * unfold index. rewrite (proj2 (Z.leb_le _ _)), Nat2Z.id by lia. rewrite Nat.min_l by lia.
        destruct (chars txt !! k) as [c|] eqn:E; [done|]. apply lookup_ge_None in E. lia.
      * rewrite (proj2 (lookup_ge_None _ _)); [done|lia].
    + intros n. unfold PeekAt. cbn [s pos]. destruct (_ && _) eqn:E; [|done]. bools. apply index_in. lia.
    + intros a b. apply Slice_clamped.
  - assert (NewFrameReader txt = frame_at [] (chars txt)) as -> by (unfold NewFrameReader, frame_at; simpl; by rewrite text_chars).
    destruct (takes_spec ns [] (chars txt)) as (xs & j & -> & Hg & Hx). exists (frame_at ([] ++ take j (chars txt)) (drop j (chars txt))), xs.
    unfold frame_at. cbn [data off app]. rewrite take_drop, text_chars, length_take. split_and!; [done|done|done|lia|lia|].
    rewrite Hg, Nat2Z.id. destruct (Nat.min_spec j (length (chars txt))) as [[? ->]|[? ->]]; [done|]. by rewrite take_ge, firstn_all by lia.
Qed.

Lemma cursors_stay_in_bounds_witness :
  ∃ sc, nexts 4 (NewScanner "ab") = Some (chars "ab" ++ [zero_byte; zero_byte], sc) ∧ Slice sc (-5) 99 = Some "ab" ∧ Slice sc 2 1 = Some "".
Proof.
  destruct (cursors_stay_in_bounds "ab" 4 []) as [(sc & E & _ & _ & _ & _ & Hs) _]; [done|].
  exists sc. split; [exact E|]. rewrite !Hs. by vm_compute.
Defined.

(** ** The budget of a parse *)

Inductive guard_call := CEnter | CLeave.

Definition guard_step (g : ParseGuard) (c : guard_call) : ParseGuard :=
  match c with CEnter => (Enter g).1 | CLeave => Leave g end.
Definition guard_after (calls : list guard_call) (g : ParseGuard) : ParseGuard := foldl guard_step g calls.

(** How deep the calls nest, and how many productions they entered. *)
Definition nesting (calls : list guard_call) : Z :=
  foldl (λ d c, match c with CEnter => d + 1 | CLeave => Z.max 0 (d - 1) end) 0 calls.
Definition entered (calls : list guard_call) : Z :=
  foldl (λ n c, match c with CEnter => n + 1 | CLeave => n end) 0 calls.

(** How many of them the guard allowed. *)
Definition allowed (g : ParseGuard) (calls : list guard_call) : Z :=
  (foldl (λ '(g, n) c, (guard_step g c, match c with CEnter => if (Enter g).2 then n + 1 else n | CLeave => n end)) (g, 0) calls).2.

Lemma nesting_snoc calls c : nesting (calls ++ [c]) = match c with CEnter => nesting calls + 1 | CLeave => Z.max 0 (nesting calls - 1) end.
Proof. unfold nesting. by rewrite foldl_snoc. Qed.
Lemma entered_snoc calls c : entered (calls ++ [c]) = match c with CEnter => entered calls + 1 | CLeave => entered calls end.
Proof. unfold entered. by rewrite foldl_snoc. Qed.

Lemma counters_bound calls : 0 ≤ nesting calls ≤ entered calls ∧ entered calls ≤ Z.of_nat (length calls).
Proof.
  induction calls as [|c calls IH] using rev_ind; [done|]. rewrite nesting_snoc, entered_snoc, length_app. destruct c; simpl; lia.
Qed.

Lemma guard_after_spec g calls :
  depth g = 0 → nodes g = 0 → Z.of_nat (length calls) < 2 ^ 62 →
  guard_after calls g = MkGuard (nesting calls) (maxDepth g) (entered calls) (maxNodes g).
Proof.
  intros Hd Hn. induction calls as [|c calls IH] using rev_ind; intros Hl; [destruct g; simpl in *; by subst|].
  rewrite length_app in Hl. simpl in Hl. pose proof (counters_bound calls) as Hb.
  unfold guard_after. rewrite foldl_snoc. fold (guard_after calls g). rewrite IH, nesting_snoc, entered_snoc by lia. destruct c; simpl.
  - by rewrite !i64_id by (unfold in_i64; lia).
  - unfold Leave. simpl. destruct (Z.ltb_spec 0 (nesting calls)); f_equal; lia.
Qed.

(** A parser that asks the guard before every production is bounded by it:
    however the calls of [Enter] and [Leave] interleave, the next [Enter] is
    allowed exactly when the productions then open, itself included, are no more
    than the depth cap and the productions ever entered no more than the node
    cap (caps that are not positive stand for 512 and 100000), so that no more
    productions are ever allowed than the node cap. A surplus [Leave] gives no
    credit. *)
Theorem guard_bounds_the_parse md mn calls :
  Z.of_nat (length calls) < 2 ^ 62 - 1 →
  let g := NewParseGuard md mn in
  maxDepth g = (if md <=? 0 then 512 else md) ∧ maxNodes g = (if mn <=? 0 then 100000 else mn) ∧
  ((Enter (guard_after calls g)).2 = true ↔ nesting calls + 1 ≤ maxDepth g ∧ entered calls + 1 ≤ maxNodes g) ∧
  allowed g calls ≤ maxNodes g.
Proof.
  intros Hl. cbv zeta. set (g := NewParseGuard md mn).
  assert (depth g = 0 ∧ nodes g = 0 ∧ 0 ≤ maxNodes g) as (Hd & Hn & Hm).
  { split_and!; [done|done|]. simpl. unfold DefaultMaxParseNodes. destruct (Z.leb_spec mn 0); lia. }
  assert (∀ l, Z.of_nat (length l) < 2 ^ 62 - 1 →
    ((Enter (guard_after l g)).2 = true ↔ nesting l + 1 ≤ maxDepth g ∧ entered l + 1 ≤ maxNodes g)) as HE.
  { intros l Hl'. pose proof (counters_bound l). rewrite guard_after_spec by (done || lia). unfold Enter. cbn [depth nodes maxDepth maxNodes snd].
    rewrite !i64_id by (unfold in_i64; lia). rewrite andb_true_iff, !Z.leb_le. done. }
  split_and!; [done|done|by apply HE|]. unfold allowed.
  enough (∃ n, foldl (λ '(g, n) c, (guard_step g c, match c with CEnter => if (Enter g).2 then n + 1 else n | CLeave => n end)) (g, 0) calls
     = (guard_after calls g, n) ∧ 0 ≤ n ≤ entered calls ∧ n ≤ maxNodes g) as (n & -> & _ & H) by done.
  induction calls as [|c calls IH] using rev_ind; [by exists 0|]. rewrite length_app in Hl. simpl in Hl.
  destruct IH as (n & E & H1 & H2); [lia|]. rewrite foldl_snoc, E, entered_snoc. unfold guard_after. rewrite foldl_snoc.
  fold (guard_after calls g). eexists. split; [done|]. destruct c; [|lia].
  destruct (Enter (guard_after calls g)).2 eqn:Ee; [apply HE in Ee; lia|lia].
Qed.

Lemma guard_bounds_the_parse_witness :
  allowed (NewParseGuard 2 3) [CEnter; CEnter; CEnter; CLeave; CLeave; CLeave; CLeave; CEnter; CEnter] ≤ 3 ∧
  allowed (NewParseGuard 2 9) [CEnter; CEnter; CEnter; CLeave; CLeave; CLeave; CLeave; CEnter; CEnter] = 4.
Proof.
  split; [|by vm_compute].
  exact (proj2 (proj2 (proj2 (guard_bounds_the_parse 2 3 [CEnter; CEnter; CEnter; CLeave; CLeave; CLeave; CLeave; CEnter; CEnter] eq_refl)))).
Defined.

(** ** Searching without regard to case *)

Definition fold_char (c : ascii) : ascii :=
  if (65 <=? byte_of c) && (byte_of c <=? 90) then char_of (byte_of c + 32) else c.

Lemma fold_bytes_spec l :
  fold_bytes 65 90 32 l = (map fold_char l, existsb (λ c, (65 <=? byte_of c) && (byte_of c <=? 90)) l).
Proof.
  induction l as [|c l IH]; [done|]. cbn [fold_bytes map existsb]. rewrite IH. unfold fold_char at 3.
  by destruct (_ && _).
Qed.

Lemma ASCIIFold_map s : ASCIIFold s = text (map fold_char (chars s)).
Proof.
  unfold ASCIIFold. rewrite fold_bytes_spec. destruct (existsb _ _) eqn:E; simpl; [done|].
  rewrite <- (text_chars s) at 1. f_equal. induction (chars s) as [|c l IH]; [done|]. cbn [existsb map] in *.
  bools. f_equal; [|auto]. unfold fold_char. destruct (_ && _) eqn:E'; [|done]. bools. lia.
Qed.

Lemma length_ASCIIFold s : String.length (ASCIIFold s) = String.length s.
Proof. by rewrite ASCIIFold_map, <- !length_chars_p, chars_text, length_map. Qed.

(** [sub] occurs at [i], whatever the case of its letters: the slice of the
    original text there is in range and folds to what [sub] folds to. *)
Definition occurs (s sub : string) (i : Z) : Prop :=
  ∃ x, substr s i (i + slen sub) = Some x ∧ ASCIIFold x = ASCIIFold sub.

Lemma text_inj a b : text a = text b → a = b.
Proof. intros E. rewrite <- (chars_text a), E. apply chars_text. Qed.

Lemma begins_occurs s sub i : begins_at (ASCIIFold s) (ASCIIFold sub) i = true ↔ occurs s sub (Z.of_nat i) ∨ (sub = "" ∧ (String.length s < i)%nat).
Proof.
  unfold begins_at, occurs. rewrite HasPrefix_spec, !ASCIIFold_map, chars_text. split.
  - intros [r E]. rewrite <- (text_chars r) in E. apply (f_equal chars) in E. rewrite chars_app, !chars_text in E.
    change (map fold_char (chars s)) with (fold_char <$> chars s) in E. rewrite <- fmap_drop in E.
    apply fmap_app_inv in E as (l1 & l2 & E1 & E2 & E3).
    assert (length l1 = length (chars sub)) as El by (apply (f_equal length) in E1; by rewrite length_map, length_fmap in E1).
    destruct (Nat.le_gt_cases i (String.length s)) as [Hi|Hi].
    + left. exists (text l1). split; [|by rewrite !ASCIIFold_map, chars_text; f_equal].
      rewrite <- (text_chars s), <- (take_drop i (chars s)), E3. unfold slen. rewrite <- (length_chars_p sub), <- El.
      assert (length (take i (chars s)) = i) as Ht by (rewrite length_take, length_chars_p; lia). rewrite <- Ht at 2 3. apply substr_app.
    + right. split; [|done]. rewrite drop_ge in E3 by (rewrite length_chars_p; lia). destruct l1; [|done].
      rewrite <- (text_chars sub). by destruct (chars sub).
  - intros [(x & Hs & Hx)|[-> Hi]].
    + unfold substr in Hs. destruct (_ && _) eqn:E; [|done]. bools. injection Hs as <-. rewrite ASCIIFold_map, chars_text in Hx.
      apply text_inj in Hx. rewrite Nat2Z.id in Hx. exists (text (map fold_char (drop (Z.to_nat (Z.of_nat i + slen sub - Z.of_nat i)) (drop i (chars s))))).
      apply chars_inj. rewrite chars_app, !chars_text, <- Hx, <- map_app, take_drop.
      change (map fold_char (chars s)) with (fold_char <$> chars s). by rewrite <- fmap_drop.
    + exists (text (drop i (map fold_char (chars s)))). done.
Qed.

Lemma occurs_range s sub i : occurs s sub i → 0 ≤ i ≤ slen s.
Proof. intros (x & Hs & _). unfold substr in Hs. destruct (_ && _) eqn:E; [|done]. bools. unfold slen in *. lia. Qed.

Lemma begins_in_range s sub i :
  (i ≤ String.length s)%nat → begins_at (ASCIIFold s) (ASCIIFold sub) i = true ↔ occurs s sub (Z.of_nat i).
Proof. intros Hi. rewrite begins_occurs. split; [intros [?|[_ ?]]; [done|lia]|by left]. Qed.

(** Searching without regard to ASCII case answers in offsets of the
    original text, for any bytes: the first search returns the least offset at
    which the slice of the text, in range, differs from what is sought in the
    case of letters only; the last search returns the greatest; both return -1
    exactly when there is none. *)
Theorem case_insensitive_search s sub :
  (let i := CaseInsensitiveIndex s sub in
   (occurs s sub i ∧ ∀ j, occurs s sub j → i ≤ j) ∨ (i = -1 ∧ ∀ j, ¬ occurs s sub j)) ∧
  (let i := CaseInsensitiveLastIndex s sub in
   (occurs s sub i ∧ ∀ j, occurs s sub j → j ≤ i) ∨ (i = -1 ∧ ∀ j, ¬ occurs s sub j)).
Proof.
  cbv zeta. unfold CaseInsensitiveIndex, CaseInsensitiveLastIndex, first_index, last_index. rewrite length_ASCIIFold.
  assert (∀ j, occurs s sub j → ∃ k, j = Z.of_nat k ∧ (k ≤ String.length s)%nat ∧ begins_at (ASCIIFold s) (ASCIIFold sub) k = true) as Hocc.
  { intros j Hj. pose proof (occurs_range _ _ _ Hj) as Hr. unfold slen in Hr. exists (Z.to_nat j). split_and!; [lia|lia|].
    apply begins_in_range; [lia|]. by rewrite Z2Nat.id by lia. }
  split.
  - destruct (list_find _ (seq 0 _)) as [[k i]|] eqn:E.
    + apply list_find_Some in E as (Hk & Hi & Hmin). apply lookup_seq in Hk as [-> Hk]. rewrite Nat.add_0_l in *. left. split.
      * by apply begins_in_range; [lia|].
      * intros j (m & -> & Hm & Hb)%Hocc. destruct (Nat.le_gt_cases k m); [lia|].
        destruct (Hmin m m); [by apply (lookup_seq 0 (S (String.length s))); lia|lia|done].
    + right. split; [done|]. intros j (m & -> & Hm & Hb)%Hocc. apply list_find_None in E. rewrite Forall_forall in E.
      apply (E m); [apply elem_of_seq; lia|done].
  - destruct (list_find _ (reverse _)) as [[k i]|] eqn:E.
    + apply list_find_Some in E as (Hk & Hi & Hmin). pose proof (lookup_lt_Some _ _ _ Hk) as Hlt. rewrite length_reverse, length_seq in Hlt.
      rewrite reverse_lookup in Hk by (rewrite length_seq; lia). rewrite length_seq in Hk. apply lookup_seq in Hk as [-> _]. left. split.
      * by apply begins_in_range; [lia|].
      * intros j (m & -> & Hm & Hb)%Hocc. destruct (Nat.le_gt_cases m (0 + (S (String.length s) - S k))); [lia|].
        destruct (Hmin (String.length s - m)%nat m); [|lia|done].
        rewrite reverse_lookup by (rewrite length_seq; lia). rewrite length_seq. apply lookup_seq. lia.
    + right. split; [done|]. intros j (m & -> & Hm & Hb)%Hocc. apply list_find_None in E. rewrite Forall_forall in E.
      apply (E m); [apply elem_of_reverse, elem_of_seq; lia|done].
Qed.
