(* ===== verification/Utf8.v ===== *)
(** * UTF-8 and letter case

    The conversions between Go strings and runes ([[]rune(s)], [string(rs)]) and
    the parts of [strings] that work on runes. The tables of [unicode], how a
    rune folds and its lower case, are operations of the class [Unicode]. *)

From S2P Require Import Prelude Gostd Wildcard.

(** ** Decoding and encoding *)

Definition RuneError : Z := 65533.

Definition continues (b : Z) : bool := (128 <=? b) && (b <=? 191).

(** Two, three and four bytes that encode a rune, in the ranges of the table
    well-formed UTF-8 is defined by. *)
Definition two_bytes (b0 b1 : Z) : bool := (194 <=? b0) && (b0 <=? 223) && continues b1.
Definition three_bytes (b0 b1 b2 : Z) : bool :=
  (224 <=? b0) && (b0 <=? 239) && continues b1 && continues b2 &&
  (if b0 =? 224 then 160 <=? b1 else if b0 =? 237 then b1 <=? 159 else true).
Definition four_bytes (b0 b1 b2 b3 : Z) : bool :=
  (240 <=? b0) && (b0 <=? 244) && continues b1 && continues b2 && continues b3 &&
  (if b0 =? 240 then 144 <=? b1 else if b0 =? 244 then b1 <=? 143 else true).

(** A byte that starts no encoding is one [RuneError]. *)
Fixpoint decode_runes (l : list Z) : list Z :=
  match l with
  | [] => []
  | b0 :: l1 =>
      if b0 <? 128 then b0 :: decode_runes l1
      else match l1 with
           | [] => RuneError :: decode_runes l1
           | b1 :: l2 =>
               if two_bytes b0 b1 then (b0 mod 32 * 64 + b1 mod 64) :: decode_runes l2
               else match l2 with
                    | [] => RuneError :: decode_runes l1
                    | b2 :: l3 =>
                        if three_bytes b0 b1 b2 then (b0 mod 16 * 4096 + b1 mod 64 * 64 + b2 mod 64) :: decode_runes l3
                        else match l3 with
                             | [] => RuneError :: decode_runes l1
                             | b3 :: l4 =>
                                 if four_bytes b0 b1 b2 b3
                                 then (b0 mod 8 * 262144 + b1 mod 64 * 4096 + b2 mod 64 * 64 + b3 mod 64) :: decode_runes l4
                                 else RuneError :: decode_runes l1
                             end
                    end
           end
  end.

Definition valid_rune (r : Z) : bool := ((0 <=? r) && (r <? 55296)) || ((57344 <=? r) && (r <=? 1114111)).

Definition encode_rune (r : Z) : list Z :=
  let r := if valid_rune r then r else RuneError in
  if r <? 128 then [r]
  else if r <? 2048 then [192 + r / 64; 128 + r mod 64]
  else if r <? 65536 then [224 + r / 4096; 128 + r / 64 mod 64; 128 + r mod 64]
  else [240 + r / 262144; 128 + r / 4096 mod 64; 128 + r / 64 mod 64; 128 + r mod 64].

Definition runes (s : string) : list Z := decode_runes (byte_of <$> chars s).
Definition string_of_runes (l : list Z) : string := text (char_of <$> mjoin (encode_rune <$> l)).

(** ** Letter case *)

Class Unicode := { SimpleFold : Z → Z; ToLower_rune : Z → Z }.

Section Case.
Context `{!Unicode}.

(** [strings.ToLower]. *)
Definition ToLower (s : string) : string := string_of_runes (ToLower_rune <$> runes s).

(** [strings.EqualFold]: rune by rune, up to the orbits of [SimpleFold]. *)
Fixpoint equal_fold (a b : list Z) : bool :=
  match a, b with
  | [], [] => true
  | x :: a, y :: b => same SimpleFold (MkWildcard false [] true) x y && equal_fold a b
  | _, _ => false
  end.
Definition EqualFold (a b : string) : bool := equal_fold (runes a) (runes b).

Lemma EqualFold_length a b : EqualFold a b = true → length (runes a) = length (runes b).
Proof.
  unfold EqualFold. generalize (runes a), (runes b). clear a b. intros l. induction l as [|x l IH]; intros [|y l']; simpl; try done.
  intros [_ ?]%andb_true_iff. f_equal. by apply IH.
Qed.
End Case.

(** ** Decoding what was encoded *)

Lemma encode_rune_bytes r : Forall (λ b, 0 ≤ b < 256) (encode_rune r).
Proof.
  unfold encode_rune. set (x := if valid_rune r then r else RuneError).
  assert (0 ≤ x ≤ 1114111) as Hx.
  { subst x. unfold valid_rune, RuneError. destruct (_ || _) eqn:E; [|lia]. bools. destruct E as [E|E]; bools; lia. }
  repeat case_match; bools; repeat constructor; try lia; Z.to_euclidean_division_equations; lia.
Qed.

(** The tail of an encoding holds six bits. *)
Lemma tail_byte m : 0 ≤ m < 64 → continues (128 + m) = true ∧ (128 + m) mod 64 = m.
Proof.
  intros Hm. split; [unfold continues; rewrite andb_true_iff, !Z.leb_le; lia|].
  Z.to_euclidean_division_equations; lia.
Qed.

Lemma lead_byte k b q : 0 ≤ q < k → (k | b) → (b + q) mod k = q.
Proof. intros Hq [c ->]. rewrite Z.add_comm, Z.mod_add by lia. by apply Z.mod_small. Qed.

(** Which of the byte sequences starts with a lead byte. *)
Ltac range_bool :=
  unfold two_bytes, three_bytes, four_bytes;
  repeat match goal with
  | |- context [?a <? ?b] => destruct (Z.ltb_spec a b); try lia
  | |- context [?a <=? ?b] => destruct (Z.leb_spec a b); try lia
  | |- context [?a =? ?b] => destruct (Z.eqb_spec a b); try lia
  end; cbn [andb].

Lemma decode_two q m l : 2 ≤ q < 32 → 0 ≤ m < 64 → decode_runes (192 + q :: 128 + m :: l) = q * 64 + m :: decode_runes l.
Proof.
  intros Hq Hm. destruct (tail_byte m Hm) as [C1 M1]. cbn [decode_runes].
  replace (192 + q <? 128) with false by (symmetry; apply Z.ltb_ge; lia).
  replace (two_bytes (192 + q) (128 + m)) with true by (symmetry; range_bool; done).
  by rewrite M1, (lead_byte 32) by (done || lia || by exists 6).
Qed.

Lemma decode_three q n m l :
  0 ≤ q < 16 → 0 ≤ n < 64 → 0 ≤ m < 64 → 2048 ≤ q * 4096 + n * 64 + m → q * 4096 + n * 64 + m < 55296 ∨ 57344 ≤ q * 4096 + n * 64 + m →
  decode_runes (224 + q :: 128 + n :: 128 + m :: l) = q * 4096 + n * 64 + m :: decode_runes l.
Proof.
  intros Hq Hn Hm H1 H2. destruct (tail_byte m Hm) as [C1 M1]. destruct (tail_byte n Hn) as [C2 M2]. cbn [decode_runes].
  replace (224 + q <? 128) with false by (symmetry; apply Z.ltb_ge; lia).
  replace (two_bytes (224 + q) (128 + n)) with false by (symmetry; range_bool; done).
  replace (three_bytes (224 + q) (128 + n) (128 + m)) with true.
  - by rewrite M1, M2, (lead_byte 16) by (done || lia || by exists 14).
  - unfold three_bytes. rewrite C1, C2. range_bool; done.
Qed.

Lemma decode_four q n k m l :
  0 ≤ q < 8 → 0 ≤ n < 64 → 0 ≤ k < 64 → 0 ≤ m < 64 → 65536 ≤ q * 262144 + n * 4096 + k * 64 + m ≤ 1114111 →
  decode_runes (240 + q :: 128 + n :: 128 + k :: 128 + m :: l) = q * 262144 + n * 4096 + k * 64 + m :: decode_runes l.
Proof.
  intros Hq Hn Hk Hm H. destruct (tail_byte m Hm) as [C1 M1]. destruct (tail_byte n Hn) as [C2 M2]. destruct (tail_byte k Hk) as [C3 M3].
  cbn [decode_runes]. replace (240 + q <? 128) with false by (symmetry; apply Z.ltb_ge; lia).
  replace (two_bytes (240 + q) (128 + n)) with false by (symmetry; range_bool; done).
  replace (three_bytes (240 + q) (128 + n) (128 + k)) with false by (symmetry; range_bool; done).
  replace (four_bytes (240 + q) (128 + n) (128 + k) (128 + m)) with true.
  - by rewrite M1, M2, M3, (lead_byte 8) by (done || lia || by exists 30).
  - unfold four_bytes. rewrite C1, C2, C3. range_bool; done.
Qed.

Lemma decode_encode_rune r l : valid_rune r = true → decode_runes (encode_rune r ++ l) = r :: decode_runes l.
Proof.
  intros Hr. unfold encode_rune. rewrite Hr. assert (0 ≤ r ≤ 1114111 ∧ (r < 55296 ∨ 57344 ≤ r)) as [Hb Hs].
  { unfold valid_rune in Hr. bools. destruct Hr; bools; lia. }
  pose proof (Z.div_mod r 64) as E1. pose proof (Z.mod_pos_bound r 64) as B1.
  pose proof (Z.div_mod (r / 64) 64) as E2. pose proof (Z.mod_pos_bound (r / 64) 64) as B2.
  pose proof (Z.div_mod (r / 64 / 64) 64) as E3. pose proof (Z.mod_pos_bound (r / 64 / 64) 64) as B3.
  rewrite !Z.div_div in E2, E3, B3 by lia. rewrite !Z.div_div in E3 by lia.
  change (64 * 64) with 4096 in *. change (4096 * 64) with 262144 in *.
  destruct (Z.ltb_spec r 128) as [H1|H1]; [|destruct (Z.ltb_spec r 2048) as [H2|H2]; [|destruct (Z.ltb_spec r 65536) as [H3|H3]]]; cbn [app].
  - cbn [decode_runes]. by rewrite (proj2 (Z.ltb_lt _ _)) by lia.
  - rewrite decode_two by lia. f_equal. lia.
  - rewrite decode_three by lia. f_equal. lia.
  - rewrite decode_four by lia. f_equal. lia.
Qed.

Lemma runes_string_of_runes l : Forall (λ r, valid_rune r = true) l → runes (string_of_runes l) = l.
Proof.
  intros Hl. unfold runes, string_of_runes. rewrite chars_text, <- list_fmap_compose.
  assert ((byte_of ∘ char_of) <$> mjoin (encode_rune <$> l) = mjoin (encode_rune <$> l)) as ->.
  { clear Hl. induction l as [|r l IH]; [done|]. csimpl. rewrite fmap_app, IH. f_equal.
    rewrite <- (list_fmap_id (encode_rune r)) at 2. apply Forall_fmap_ext_1. eapply Forall_impl; [apply encode_rune_bytes|].
    intros b Hb. by apply byte_of_char. }
  induction Hl as [|r l Hr Hl IH]; [done|]. csimpl. rewrite decode_encode_rune by done. by rewrite IH.
Qed.

Lemma runes_ascii s : Forall (λ c, byte_of c < 128) (chars s) → runes s = byte_of <$> chars s.
Proof.
  unfold runes. induction 1 as [|c l Hc Hl IH]; [done|]. csimpl. by rewrite (proj2 (Z.ltb_lt _ _)), IH.
Qed.
