(* ===== verification/Iam.v ===== *)
(** * Policy evaluation: [src/simulator-aws/iam_policy_sim.go]

    How a set of IAM policy documents answers for an action on a resource: the
    principal, action, resource and condition of each statement, policy
    variables, and the decision. A document is modelled once parsed;
    [encoding/json] is not. A Go map that is ranged over is the list of its
    entries in the order of the range, which the theorems take to be any. The
    parsers of [strconv], [time] and [net] that conditions use are operations of
    the class [Parsers]. *)

From S2P Require Import Prelude Gostd Wildcard Utf8.

(** ** Documents *)

Record iamPrincipal := MkPrincipal {
  p_Wildcard : bool; p_AWS : list string; p_Service : list string;
  p_Federated : list string; p_Other : list string; p_set : bool
}.
Definition no_principal : iamPrincipal := MkPrincipal false [] [] [] [] false.

Abbreviation entries A := (list (string * A)) (only parsing).

Record iamStatement := MkStatement {
  Sid : string; Effect : string;
  Action : list string; NotAction : list string;
  Resource : list string; NotResource : list string;
  Principal : iamPrincipal; NotPrincipal : iamPrincipal;
  Condition : entries (entries (list string))
}.

Record iamPolicyDoc := MkDoc { Version : string; Statement : list iamStatement }.

Inductive iamPrincipalMatch := iamPrincipalNoMatch | iamPrincipalDelegated | iamPrincipalNamed | iamPrincipalEntity.
#[global] Instance iamPrincipalMatch_dec : EqDecision iamPrincipalMatch.
Proof. solve_decision. Defined.

Inductive decision := explicitDeny | allowed | implicitDeny.
#[global] Instance decision_dec : EqDecision decision.
Proof. solve_decision. Defined.

(** [strconv.ParseFloat] with the order of floats, [time.Parse] of an RFC 3339
    text as nanoseconds since the year 1, [net.ParseIP] and [net.ParseCIDR]. *)
Class Parsers := {
  Float : Type; ParseFloat : string → option Float;
  float_eq : Float → Float → bool; float_lt : Float → Float → bool; float_le : Float → Float → bool;
  ParseRFC3339 : string → option Z;
  IP : Type; ParseIP : string → option IP; IP_Equal : IP → IP → bool;
  ParseCIDR : string → option (IP → bool)
}.

Section Iam.
Context `{!Unicode, !Parsers} (awsRegion : string).
Abbreviation eqs := String.eqb (only parsing).

(** A context of condition keys, in the order it is ranged over. *)
Abbreviation context := (entries (list string)).

Fixpoint ctx_at (ctx : context) (key : string) : option (list string) :=
  match ctx with
  | [] => None
  | (k, v) :: ctx => if eqs k key then Some v else ctx_at ctx key
  end.

Definition iamGlobMatch (pattern value : string) : bool :=
  Match SimpleFold (MkWildcard true [] false) (runes pattern) (runes value).

(** ** Principals *)

Definition all_digits (s : string) : bool := forallb (λ c, (48 <=? byte_of c) && (byte_of c <=? 57)) (chars s).

Definition iamAccountFromArn (s : string) : string :=
  if negb (ContainsStr s ":") then (if (String.length s =? 12)%nat && all_digits s then s else "")
  else if negb (HasSuffix s ":root") then ""
  else match Split s ":" !! 4%nat with
       | Some acct => if (String.length acct =? 12)%nat then acct else ""
       | None => ""
       end.

Definition iamRoleNameFromArn (arn : string) : string :=
  match Cut arn ":role/" with
  | None => arn
  | Some (_, rest) => AfterLast rest (char_of 47)
  end.

Definition iamServicePrincipalNames (principal service : string) : bool :=
  if eqs principal service then true
  else match CutSuffix service ".amazonaws.com" with
       | Some name => eqs principal (name +:+ "." +:+ awsRegion +:+ ".amazonaws.com")
       | None => false
       end.

(** How one entry of an AWS principal matches the caller, [None] to go on. *)
Definition aws_principal (callerArn entityArn want : string) : option iamPrincipalMatch :=
  if eqs want "*" || iamGlobMatch want callerArn then Some iamPrincipalNamed
  else if negb (eqs entityArn "") && iamGlobMatch want entityArn then Some iamPrincipalEntity
  else let acct := iamAccountFromArn want in
  if negb (eqs acct "") && ContainsStr callerArn (":" +:+ acct +:+ ":") then Some iamPrincipalDelegated
  else let rn := iamRoleNameFromArn want in
  if ContainsStr want ":role/" && negb (eqs rn "") && ContainsStr callerArn (":assumed-role/" +:+ rn +:+ "/") then Some iamPrincipalEntity
  else None.

Fixpoint first_match {A B} (f : A → option B) (l : list A) : option B :=
  match l with
  | [] => None
  | x :: l => match f x with Some y => Some y | None => first_match f l end
  end.

Definition matchOne (p : iamPrincipal) (callerArn entityArn : string) (ctx : context) : iamPrincipalMatch :=
  if p_Wildcard p then iamPrincipalNamed
  else match first_match (aws_principal callerArn entityArn) (p_AWS p) with
  | Some k => k
  | None =>
      if existsb (λ want, existsb (iamServicePrincipalNames want) (default [] (ctx_at ctx "aws:CalledVia"))) (p_Service p)
      then iamPrincipalNamed
      else match CutPrefix callerArn "federated:" with
      | Some provider =>
          if existsb (λ want, eqs want provider || HasSuffix provider ("-provider/" +:+ want)) (p_Federated p)
          then iamPrincipalNamed else iamPrincipalNoMatch
      | None => iamPrincipalNoMatch
      end
  end.

Definition iamPrincipalMatchKind (stmt : iamStatement) (callerArn entityArn : string) (ctx : context) : iamPrincipalMatch :=
  if p_set (NotPrincipal stmt) && negb (bool_decide (matchOne (NotPrincipal stmt) callerArn entityArn ctx = iamPrincipalNoMatch))
  then iamPrincipalNoMatch
  else if negb (p_set (Principal stmt)) then iamPrincipalNamed
  else matchOne (Principal stmt) callerArn entityArn ctx.

(** ** Actions and resources *)

Definition iamActionMatches (stmt : iamStatement) (action : string) : bool :=
  let lower := ToLower action in
  match NotAction stmt with
  | [] => existsb (λ p, iamGlobMatch (ToLower p) lower) (Action stmt)
  | not => negb (existsb (λ p, iamGlobMatch (ToLower p) lower) not)
  end.

Definition iamLogGroupPatternMatches (pattern resource : string) : bool :=
  if negb (HasSuffix pattern ":*") then false
  else if negb (ContainsStr resource ":log-group:") || ContainsStr resource ":log-stream:" then false
  else iamGlobMatch (TrimSuffix pattern ":*") resource.

Definition resource_match (resource pattern : string) : bool :=
  iamGlobMatch pattern resource || iamLogGroupPatternMatches pattern resource.

Definition iamResourceMatches (stmt : iamStatement) (resource : string) : bool :=
  match NotResource stmt with
  | [] => match Resource stmt with
          | [] => true
          | patterns => existsb (resource_match resource) patterns
          end
  | not => negb (existsb (resource_match resource) not)
  end.

(** ** Conditions *)

Definition iamAnyMatch (ctxVals wantVals : list string) (eq : string → string → bool) : bool :=
  existsb (λ c, existsb (eq c) wantVals) ctxVals.

Definition iamBinaryEqual (c w : string) : bool :=
  match DecodeString StdEncoding (TrimSpace c), DecodeString StdEncoding (TrimSpace w) with
  | Some cb, Some wb => eqs cb wb
  | _, _ => false
  end.

Inductive comparison_op := OpEq | OpLt | OpLe | OpGt | OpGe.

Definition iamNumCmp (cmp : comparison_op) (c w : string) : bool :=
  match ParseFloat (TrimSpace c), ParseFloat (TrimSpace w) with
  | Some cf, Some wf =>
      match cmp with
      | OpEq => float_eq cf wf | OpLt => float_lt cf wf | OpLe => float_le cf wf
      | OpGt => float_lt wf cf | OpGe => float_le wf cf
      end
  | _, _ => false
  end.

(** [time.Unix] counts from the year 1 in an [int64] of seconds. *)
Definition iamParseDate (s : string) : option Z :=
  let s := TrimSpace s in
  match ParseRFC3339 s with
  | Some t => Some t
  | None => match ParseInt s with
            | Some n => Some (i64 (n + 62135596800) * 1000000000)
            | None => None
            end
  end.

Definition iamDateCmp (cmp : comparison_op) (c w : string) : bool :=
  match iamParseDate c, iamParseDate w with
  | Some ct, Some wt =>
      match cmp with
      | OpEq => ct =? wt | OpLt => ct <? wt | OpLe => ct <=? wt | OpGt => wt <? ct | OpGe => wt <=? ct
      end
  | _, _ => false
  end.

Definition iamIPInCIDR (c w : string) : bool :=
  match ParseIP (TrimSpace c) with
  | None => false
  | Some ip =>
      let w := TrimSpace w in
      if negb (ContainsStr w "/") then match ParseIP w with Some ip' => IP_Equal ip ip' | None => false end
      else match ParseCIDR w with Some contains => contains ip | None => false end
  end.

Definition iamEvalConditionOp (op : string) (ctxVals wantVals : list string) : bool :=
  let any := iamAnyMatch ctxVals wantVals in
  if eqs op "StringEquals" || eqs op "ArnEquals" then any String.eqb
  else if eqs op "StringNotEquals" || eqs op "ArnNotEquals" then negb (any String.eqb)
  else if eqs op "StringEqualsIgnoreCase" then any EqualFold
  else if eqs op "StringNotEqualsIgnoreCase" then negb (any EqualFold)
  else if eqs op "StringLike" || eqs op "ArnLike" then any (λ c w, iamGlobMatch w c)
  else if eqs op "StringNotLike" || eqs op "ArnNotLike" then negb (any (λ c w, iamGlobMatch w c))
  else if eqs op "Bool" then any EqualFold
  else if eqs op "NumericEquals" then any (iamNumCmp OpEq)
  else if eqs op "NumericNotEquals" then negb (any (iamNumCmp OpEq))
  else if eqs op "NumericLessThan" then any (iamNumCmp OpLt)
  else if eqs op "NumericLessThanEquals" then any (iamNumCmp OpLe)
  else if eqs op "NumericGreaterThan" then any (iamNumCmp OpGt)
  else if eqs op "NumericGreaterThanEquals" then any (iamNumCmp OpGe)
  else if eqs op "DateEquals" then any (iamDateCmp OpEq)
  else if eqs op "DateNotEquals" then negb (any (iamDateCmp OpEq))
  else if eqs op "DateLessThan" then any (iamDateCmp OpLt)
  else if eqs op "DateLessThanEquals" then any (iamDateCmp OpLe)
  else if eqs op "DateGreaterThan" then any (iamDateCmp OpGt)
  else if eqs op "DateGreaterThanEquals" then any (iamDateCmp OpGe)
  else if eqs op "IpAddress" then any iamIPInCIDR
  else if eqs op "NotIpAddress" then negb (any iamIPInCIDR)
  else if eqs op "BinaryEquals" then any iamBinaryEqual
  else false.

(** The keys of a context are compared without regard to case. *)
Definition iamCtxLookup (ctx : context) (key : string) : option (list string) :=
  match ctx_at ctx key with
  | Some v => Some v
  | None => first_match (λ kv, if EqualFold kv.1 key then Some kv.2 else None) ctx
  end.

Inductive set_op := SetDefault | SetAll | SetAny.

Definition iamEvalConditionSet (setOp : set_op) (base : string) (ctxVals wantVals : list string) : bool :=
  match setOp with
  | SetAll => forallb (λ c, iamEvalConditionOp base [c] wantVals) ctxVals
  | _ => iamEvalConditionOp base ctxVals wantVals
  end.

(** An operator's name: its set qualifier, its base and whether it ends in
    [IfExists]. *)
Definition split_op (op : string) : set_op * string * bool :=
  let '(setOp, base) :=
    match CutPrefix op "ForAllValues:" with
    | Some b => (SetAll, b)
    | None => match CutPrefix op "ForAnyValue:" with Some b => (SetAny, b) | None => (SetDefault, op) end
    end in
  (setOp, TrimSuffix base "IfExists", HasSuffix base "IfExists").

Definition null_condition (wantVals : list string) (present : bool) : bool :=
  let wantAbsent := match wantVals with w :: _ => EqualFold w "true" | [] => false end in
  negb (Bool.eqb wantAbsent present).

(** The loop over one operator's keys; false leaves the function. *)
Fixpoint condition_keys (setOp : set_op) (base : string) (ifExists : bool) (kv : entries (list string)) (ctx : context)
    (missing : list string) : bool * list string :=
  match kv with
  | [] => (true, missing)
  | (key, wantVals) :: kv =>
      if eqs base "Null" then
        let present := match iamCtxLookup ctx key with Some _ => true | None => false end in
        if negb (null_condition wantVals present) then (false, missing)
        else condition_keys setOp base ifExists kv ctx missing
      else match iamCtxLookup ctx key with
      | None => if ifExists then condition_keys setOp base ifExists kv ctx missing else (false, missing ++ [key])
      | Some ctxVals =>
          if iamEvalConditionSet setOp base ctxVals wantVals then condition_keys setOp base ifExists kv ctx missing
          else (false, missing)
      end
  end.

Fixpoint condition_ops (ops : entries (entries (list string))) (ctx : context) (missing : list string) : bool * list string :=
  match ops with
  | [] => (true, missing)
  | (op, kv) :: ops =>
      let '(setOp, base, ifExists) := split_op op in
      match condition_keys setOp base ifExists kv ctx missing with
      | (false, missing) => (false, missing)
      | (true, missing) => condition_ops ops ctx missing
      end
  end.

Definition iamConditionMatches (stmt : iamStatement) (ctx : context) : bool * list string :=
  condition_ops (Condition stmt) ctx [].

(** ** Policy variables *)

Definition variable (ctx : context) (key : string) : string :=
  match ctx_at ctx key with
  | Some (v :: _) => v
  | _ => if eqs key "*" || eqs key "?" || eqs key "$" then key else ""
  end.

(** The loop from position [i]: the text that is left. *)
Fixpoint subst_loop (fuel : nat) (s : string) (ctx : context) : string :=
  match fuel, s with
  | O, _ | _, EmptyString => ""
  | S fuel, String c rest =>
      match CutPrefix s "${" with
      | Some t => match Cut t "}" with
                  | Some (key, rest') => variable ctx key +:+ subst_loop fuel rest' ctx
                  | None => String c (subst_loop fuel rest ctx)
                  end
      | None => String c (subst_loop fuel rest ctx)
      end
  end.

Definition iamSubstituteVars (s : string) (ctx : context) : string :=
  if negb (ContainsStr s "${") then s else subst_loop (String.length s) s ctx.

Definition iamSubstituteVarsStmt (stmt : iamStatement) (ctx : context) : iamStatement :=
  let subst := map (λ p, iamSubstituteVars p ctx) in
  MkStatement (Sid stmt) (Effect stmt) (Action stmt) (NotAction stmt) (subst (Resource stmt)) (subst (NotResource stmt))
    (Principal stmt) (NotPrincipal stmt) (Condition stmt).

(** ** The decision *)

(** The loop over the statements of all documents; a deny leaves it. *)
Fixpoint eval_stmts (stmts : list iamStatement) (action resource callerArn entityArn : string) (ctx : context)
    (missing : list string) (allows direct : bool) : decision * list string * bool :=
  match stmts with
  | [] => if allows then (allowed, missing, direct) else (implicitDeny, missing, false)
  | stmt :: stmts =>
      let continue := eval_stmts stmts action resource callerArn entityArn ctx in
      match iamPrincipalMatchKind stmt callerArn entityArn ctx with
      | iamPrincipalNoMatch => continue missing allows direct
      | kind =>
          if negb (iamActionMatches stmt action) || negb (iamResourceMatches (iamSubstituteVarsStmt stmt ctx) resource)
          then continue missing allows direct
          else
            let '(ok, miss) := iamConditionMatches stmt ctx in
            let missing := missing ++ miss in
            if negb ok then continue missing allows direct
            else if eqs (ToLower (Effect stmt)) "deny" then (explicitDeny, missing, false)
            else if eqs (ToLower (Effect stmt)) "allow" then
              match kind with
              | iamPrincipalDelegated => continue missing allows direct
              | _ => continue missing true (direct || bool_decide (kind = iamPrincipalNamed))
              end
            else continue missing allows direct
      end
  end.

Definition iamEvalResourceDecision (docs : list iamPolicyDoc) (action resource callerArn entityArn : string) (ctx : context)
    : decision * list string * bool :=
  eval_stmts (mjoin (Statement <$> docs)) action resource callerArn entityArn ctx [] false false.

Definition iamEvalDecisionForPrincipal (docs : list iamPolicyDoc) (action resource callerArn : string) (ctx : context)
    : decision * list string :=
  let '(d, missing, _) := iamEvalResourceDecision docs action resource callerArn "" ctx in (d, missing).

Definition iamEvalDecision (docs : list iamPolicyDoc) (action resource : string) (ctx : context) : decision * list string :=
  iamEvalDecisionForPrincipal docs action resource "" ctx.

(** [iamResourcePolicyAdmitsAccount] of [iam_enforcement.go]. *)
Definition iamResourcePolicyAdmitsAccount (docs : list iamPolicyDoc) (action resource callerArn : string) (ctx : context) : bool :=
  existsb (λ stmt,
    EqualFold (Effect stmt) "allow" && bool_decide (iamPrincipalMatchKind stmt callerArn "" ctx = iamPrincipalDelegated) &&
    iamActionMatches stmt action && iamResourceMatches (iamSubstituteVarsStmt stmt ctx) resource &&
    (iamConditionMatches stmt ctx).1) (mjoin (Statement <$> docs)).
End Iam.

(** ** What a statement says of a request *)

Section Decision.
Context `{!Unicode, !Parsers} (awsRegion : string).
Abbreviation context := (entries (list string)).
Implicit Types (stmt : iamStatement) (docs : list iamPolicyDoc) (ctx : context).

(** One operator on one key. *)
Definition condition_holds (ctx : context) (op key : string) (wantVals : list string) : bool :=
  let '(setOp, base, ifExists) := split_op op in
  if String.eqb base "Null" then null_condition wantVals (match iamCtxLookup ctx key with Some _ => true | None => false end)
  else match iamCtxLookup ctx key with
       | Some ctxVals => iamEvalConditionSet setOp base ctxVals wantVals
       | None => ifExists
       end.

Definition conditions_hold (ctx : context) (ops : entries (entries (list string))) : bool :=
  forallb (λ o, forallb (λ kv, condition_holds ctx o.1 kv.1 kv.2) o.2) ops.

Lemma condition_keys_holds ctx op setOp base ifExists kv missing :
  split_op op = (setOp, base, ifExists) →
  (condition_keys setOp base ifExists kv ctx missing).1 = forallb (λ kv, condition_holds ctx op kv.1 kv.2) kv.
Proof.
  intros E. revert missing. induction kv as [|[key want] kv IH]; intros missing; [done|].
  cbn [condition_keys forallb]. unfold condition_holds at 1. rewrite E. cbn [fst snd].
  destruct (String.eqb base "Null").
  - destruct (null_condition _ _); simpl; [apply IH|done].
  - destruct (iamCtxLookup ctx key) as [vals|].
    + destruct (iamEvalConditionSet _ _ _ _); simpl; [apply IH|done].
    + destruct ifExists; simpl; [apply IH|done].
Qed.

Lemma iamConditionMatches_holds stmt ctx : (iamConditionMatches stmt ctx).1 = conditions_hold ctx (Condition stmt).
Proof.
  unfold iamConditionMatches, conditions_hold. generalize (@nil string) as missing.
  induction (Condition stmt) as [|[op kv] ops IH]; intros missing; [done|]. cbn [condition_ops forallb fst snd].
  destruct (split_op op) as [[setOp base] ifExists] eqn:E.
  pose proof (condition_keys_holds ctx op setOp base ifExists kv missing E) as <-.
  destruct (condition_keys _ _ _ _ _ _) as [[] m]; simpl; [apply IH|done].
Qed.

Section Request.
Context (action resource callerArn entityArn : string) (ctx : context).

Definition kind stmt : iamPrincipalMatch := iamPrincipalMatchKind awsRegion stmt callerArn entityArn ctx.

(** The statement is about this caller, action and resource, and its
    conditions hold. *)
Definition applies stmt : bool :=
  negb (bool_decide (kind stmt = iamPrincipalNoMatch)) && iamActionMatches stmt action &&
  iamResourceMatches (iamSubstituteVarsStmt stmt ctx) resource && conditions_hold ctx (Condition stmt).

Definition has_effect (e : string) stmt : bool := String.eqb (ToLower (Effect stmt)) e.
Definition denies stmt : bool := applies stmt && has_effect "deny" stmt.
Definition grants stmt : bool := applies stmt && has_effect "allow" stmt && negb (bool_decide (kind stmt = iamPrincipalDelegated)).
Definition grants_by_name stmt : bool := grants stmt && bool_decide (kind stmt = iamPrincipalNamed).

Lemma denies_spec stmt : denies stmt = true ↔ applies stmt = true ∧ ToLower (Effect stmt) = "deny".
Proof. unfold denies, has_effect. by rewrite andb_true_iff, String.eqb_eq. Qed.

Lemma grants_spec stmt :
  grants stmt = true ↔ (applies stmt = true ∧ ToLower (Effect stmt) = "allow") ∧ kind stmt ≠ iamPrincipalDelegated.
Proof. unfold grants, has_effect. by rewrite !andb_true_iff, String.eqb_eq, negb_true_iff, bool_decide_eq_false. Qed.

Lemma grants_by_name_spec stmt :
  grants_by_name stmt = true ↔ (applies stmt = true ∧ ToLower (Effect stmt) = "allow") ∧ kind stmt = iamPrincipalNamed.
Proof. unfold grants_by_name. rewrite andb_true_iff, grants_spec, bool_decide_eq_true. naive_solver congruence. Qed.

Lemma eval_stmts_spec stmts missing allows direct :
  let r := eval_stmts awsRegion stmts action resource callerArn entityArn ctx missing allows direct in
  (r.1.1, r.2) =
    if existsb denies stmts then (explicitDeny, false)
    else if allows || existsb grants stmts then (allowed, direct || existsb grants_by_name stmts)
    else (implicitDeny, false).
Proof.
  revert missing allows direct. induction stmts as [|stmt stmts IH]; intros missing allows direct.
  { simpl. by destruct allows; rewrite ?orb_false_r. }
  cbn [eval_stmts existsb].
  assert (Ha : applies stmt = negb (bool_decide (kind stmt = iamPrincipalNoMatch)) && iamActionMatches stmt action &&
    iamResourceMatches (iamSubstituteVarsStmt stmt ctx) resource && (iamConditionMatches stmt ctx).1)
    by (unfold applies; by rewrite iamConditionMatches_holds).
  assert (Hd : denies stmt = applies stmt && has_effect "deny" stmt) by done.
  assert (Hg : grants stmt = applies stmt && has_effect "allow" stmt && negb (bool_decide (kind stmt = iamPrincipalDelegated))) by done.
  assert (Hn : grants_by_name stmt = grants stmt && bool_decide (kind stmt = iamPrincipalNamed)) by done.
  rewrite Hn, Hg, Hd, Ha. clear Hn Hg Hd Ha. change (iamPrincipalMatchKind awsRegion stmt callerArn entityArn ctx) with (kind stmt).
  unfold has_effect. generalize (kind stmt) as k. intros k.
  destruct (iamActionMatches stmt action); [|rewrite ?andb_false_r; destruct k; simpl; apply IH].
  destruct (iamResourceMatches _ resource); [|rewrite ?andb_false_r; destruct k; simpl; apply IH].
  destruct (iamConditionMatches stmt ctx) as [[] miss]; [|rewrite ?andb_false_r; destruct k; simpl; apply IH]. cbn [negb orb fst].
  rewrite !andb_true_r. destruct k; [apply IH|..]; simpl;
    (destruct (String.eqb (ToLower (Effect stmt)) "deny"); [done|]);
    (destruct (String.eqb (ToLower (Effect stmt)) "allow"); [|apply IH]);
    simpl; rewrite IH; by rewrite ?orb_true_r, ?orb_false_r.
Qed.

Lemma decision_spec docs :
  let r := iamEvalResourceDecision awsRegion docs action resource callerArn entityArn ctx in
  (r.1.1, r.2) =
    let stmts := mjoin (Statement <$> docs) in
    if existsb denies stmts then (explicitDeny, false)
    else if existsb grants stmts then (allowed, existsb grants_by_name stmts)
    else (implicitDeny, false).
Proof. apply eval_stmts_spec. Qed.
End Request.

(** *** Maps in another order *)

(** Two ranges over the same maps of conditions. *)
Definition conditions_equiv (c c' : entries (entries (list string))) : Prop :=
  ∃ m, c ≡ₚ m ∧ Forall2 (λ x y, x.1 = y.1 ∧ x.2 ≡ₚ y.2) m c'.

Definition stmt_equiv stmt stmt' : Prop :=
  Effect stmt = Effect stmt' ∧ Action stmt = Action stmt' ∧ NotAction stmt = NotAction stmt' ∧
  Resource stmt = Resource stmt' ∧ NotResource stmt = NotResource stmt' ∧
  Principal stmt = Principal stmt' ∧ NotPrincipal stmt = NotPrincipal stmt' ∧
  conditions_equiv (Condition stmt) (Condition stmt').

(** The same statements in any order and any documents. *)
Definition docs_equiv docs docs' : Prop :=
  ∃ m, mjoin (Statement <$> docs) ≡ₚ m ∧ Forall2 stmt_equiv m (mjoin (Statement <$> docs')).

#[global] Instance conditions_equiv_refl : Reflexive conditions_equiv.
Proof. intros c. exists c. split; [done|]. by apply Forall_Forall2_diag, Forall_forall. Qed.

#[global] Instance stmt_equiv_refl : Reflexive stmt_equiv.
Proof. done. Qed.

(** A map has one entry per key; this one has no two keys that differ only in
    case either. Nothing in the source rules such keys out: where they occur,
    [iamCtxLookup] ranges over a Go map and takes whichever comes first
    ([case_twins_depend_on_order]). *)
Definition context_ok ctx : Prop :=
  NoDup ctx.*1 ∧ ∀ key k k', k ∈ ctx.*1 → k' ∈ ctx.*1 → EqualFold k key = true → EqualFold k' key = true → k = k'.

(** Two ranges over one context: the same order, or any two orders where no two
    keys are equal up to case. *)
Definition same_context ctx ctx' : Prop := ctx = ctx' ∨ (context_ok ctx ∧ ctx ≡ₚ ctx').

Lemma ctx_at_Some ctx key v : NoDup ctx.*1 → ctx_at ctx key = Some v ↔ (key, v) ∈ ctx.
Proof.
  induction ctx as [|[k v'] ctx IH]; csimpl; [by rewrite elem_of_nil|]. rewrite NoDup_cons, elem_of_cons. intros [Hk Hn].
  destruct (String.eqb_spec k key) as [->|Hne].
  - split; [intros [= ->]; by left|]. intros [[= ->]|Hin]; [done|]. exfalso. apply Hk, list_elem_of_fmap. by exists (key, v).
  - rewrite IH by done. split; [by right|]. intros [[=]|?]; congruence.
Qed.

Lemma ctx_at_perm ctx ctx' key : NoDup ctx.*1 → ctx ≡ₚ ctx' → ctx_at ctx key = ctx_at ctx' key.
Proof.
  intros Hn Hp. assert (NoDup ctx'.*1) as Hn' by (by rewrite <- Hp). apply option_eq. intros v.
  rewrite !ctx_at_Some by done. by rewrite Hp.
Qed.

Lemma first_match_Some {A B} (f : A → option B) l y : first_match f l = Some y → ∃ x, x ∈ l ∧ f x = Some y.
Proof.
  induction l as [|x l IH]; [done|]. simpl. destruct (f x) as [z|] eqn:E.
  - intros [= ->]. exists x. by split; [left|].
  - intros (x' & Hx & Hf)%IH. exists x'. by split; [right|].
Qed.

Lemma first_match_None {A B} (f : A → option B) l : first_match f l = None ↔ ∀ x, x ∈ l → f x = None.
Proof.
  induction l as [|x l IH]; simpl; [split; [by intros _ x ?%elem_of_nil|done]|]. destruct (f x) as [z|] eqn:E.
  - split; [done|]. intros Hl. rewrite Hl in E by left. done.
  - rewrite IH. split; [intros Hl y [->|Hy]%elem_of_cons; auto|]. intros Hl y Hy. apply Hl. by right.
Qed.

(** Where the test accepts at most one value the order does not matter. *)
Lemma first_match_perm {A B} (f : A → option B) l l' :
  (∀ x x' y y', x ∈ l → x' ∈ l → f x = Some y → f x' = Some y' → y = y') → l ≡ₚ l' → first_match f l = first_match f l'.
Proof.
  intros Hu Hp. destruct (first_match f l) as [y|] eqn:E.
  - apply first_match_Some in E as (x & Hx & Hf). destruct (first_match f l') as [y'|] eqn:E'.
    + apply first_match_Some in E' as (x' & Hx' & Hf'). rewrite <- Hp in Hx'. by rewrite (Hu x x' y y').
    + rewrite first_match_None in E'. rewrite Hp in Hx. rewrite (E' x Hx) in Hf. done.
  - symmetry. apply first_match_None. intros x Hx. rewrite <- Hp in Hx. by apply (proj1 (first_match_None f l)).
Qed.

Lemma iamCtxLookup_perm ctx ctx' key : context_ok ctx → ctx ≡ₚ ctx' → iamCtxLookup ctx key = iamCtxLookup ctx' key.
Proof.
  intros [Hn Hf] Hp. unfold iamCtxLookup. rewrite (ctx_at_perm ctx ctx') by done. destruct (ctx_at ctx' key); [done|].
  apply first_match_perm; [|done]. intros [k v] [k' v'] y y' Hx Hx'. simpl.
  destruct (EqualFold k key) eqn:E1, (EqualFold k' key) eqn:E2; try done. intros [= ->] [= ->].
  assert (k = k') as ->.
  { apply (Hf key); [apply list_elem_of_fmap; by exists (k, y)|apply list_elem_of_fmap; by exists (k', y')|done|done]. }
  apply ctx_at_Some in Hx, Hx'; [|done|done]. congruence.
Qed.

Lemma condition_holds_perm ctx ctx' op key want :
  same_context ctx ctx' → condition_holds ctx op key want = condition_holds ctx' op key want.
Proof. intros [->|[Hok Hp]]; [done|]. unfold condition_holds. by rewrite (iamCtxLookup_perm ctx ctx') by done. Qed.

Lemma conditions_hold_perm ctx ctx' c c' :
  same_context ctx ctx' → conditions_equiv c c' → conditions_hold ctx c = conditions_hold ctx' c'.
Proof.
  intros Hs (m & Hm & Hc). unfold conditions_hold. rewrite Hm. eapply forallb_Forall2; [|exact Hc].
  intros [op kv] [op' kv'] [Ho Hkv]. simpl in *. subst op'. rewrite Hkv.
  apply (forallb_Forall2 eq); [|by apply Forall_Forall2_diag, Forall_forall]. intros [k w] ? <-. simpl. by apply condition_holds_perm.
Qed.

Lemma subst_perm ctx ctx' s : same_context ctx ctx' → iamSubstituteVars s ctx = iamSubstituteVars s ctx'.
Proof.
  intros [->|[[Hn _] Hp]]; [done|]. unfold iamSubstituteVars. destruct (negb _); [done|]. generalize (String.length s) as fuel. intros fuel.
  revert s. induction fuel as [|fuel IH]; intros [|c s]; [done..|]. cbn [subst_loop].
  destruct (CutPrefix (String c s) "${") as [t|]; [|by rewrite IH]. destruct (Cut t "}") as [[key rest]|]; [|by rewrite IH].
  rewrite IH. f_equal. unfold variable. by rewrite (ctx_at_perm ctx ctx').
Qed.

Section Equiv.
Context (action resource callerArn entityArn : string) (ctx ctx' : context) (Hs : same_context ctx ctx').

Lemma kind_equiv stmt stmt' : stmt_equiv stmt stmt' → kind callerArn entityArn ctx stmt = kind callerArn entityArn ctx' stmt'.
Proof.
  intros (_ & _ & _ & _ & _ & EP & EN & _). unfold kind, iamPrincipalMatchKind. rewrite EP, EN.
  assert (∀ p, matchOne awsRegion p callerArn entityArn ctx = matchOne awsRegion p callerArn entityArn ctx') as Hm.
  { intros p. destruct Hs as [->|[[Hn _] Hp]]; [done|]. unfold matchOne. by rewrite (ctx_at_perm ctx ctx') by done. }
  by rewrite !Hm.
Qed.

Lemma applies_equiv stmt stmt' :
  stmt_equiv stmt stmt' → applies action resource callerArn entityArn ctx stmt = applies action resource callerArn entityArn ctx' stmt'.
Proof.
  intros He. unfold applies. rewrite (kind_equiv stmt stmt' He). destruct He as (EE & EA & ENA & ER & ENR & _ & _ & EC).
  f_equal; [f_equal; [f_equal|]|].
  - unfold iamActionMatches. by rewrite EA, ENA.
  - unfold iamResourceMatches, iamSubstituteVarsStmt. simpl. rewrite ER, ENR.
    assert (∀ l, map (λ p, iamSubstituteVars p ctx) l = map (λ p, iamSubstituteVars p ctx') l) as Hv by (intros l; apply map_ext; intros p; by apply subst_perm).
    by rewrite !Hv.
  - by apply conditions_hold_perm.
Qed.

Lemma effects_equiv stmt stmt' :
  stmt_equiv stmt stmt' →
  denies action resource callerArn entityArn ctx stmt = denies action resource callerArn entityArn ctx' stmt' ∧
  grants action resource callerArn entityArn ctx stmt = grants action resource callerArn entityArn ctx' stmt' ∧
  grants_by_name action resource callerArn entityArn ctx stmt = grants_by_name action resource callerArn entityArn ctx' stmt'.
Proof.
  intros He. unfold grants_by_name, grants, denies, has_effect. rewrite (applies_equiv stmt stmt' He), (kind_equiv stmt stmt' He).
  by destruct He as (-> & _).
Qed.

Lemma existsb_docs_equiv (f f' : iamStatement → bool) docs docs' :
  (∀ stmt stmt', stmt_equiv stmt stmt' → f stmt = f' stmt') → docs_equiv docs docs' →
  existsb f (mjoin (Statement <$> docs)) = existsb f' (mjoin (Statement <$> docs')).
Proof. intros Hf (m & Hm & H2). rewrite Hm. by eapply existsb_Forall2. Qed.

Lemma decision_equiv docs docs' :
  docs_equiv docs docs' →
  let r := iamEvalResourceDecision awsRegion docs action resource callerArn entityArn ctx in
  let r' := iamEvalResourceDecision awsRegion docs' action resource callerArn entityArn ctx' in
  (r.1.1, r.2) = (r'.1.1, r'.2).
Proof.
  intros Hd. cbv zeta. rewrite !decision_spec. cbv zeta.
  rewrite !(existsb_docs_equiv _ _ docs docs' (λ s s' H, proj1 (effects_equiv s s' H)) Hd).
  rewrite !(existsb_docs_equiv _ _ docs docs' (λ s s' H, proj1 (proj2 (effects_equiv s s' H))) Hd).
  by rewrite !(existsb_docs_equiv _ _ docs docs' (λ s s' H, proj2 (proj2 (effects_equiv s s' H))) Hd).
Qed.
End Equiv.

(** *** Variables *)

Definition dollar : ascii := char_of 36.
Definition brace : ascii := char_of 125.

Definition subst (ctx : context) (s : string) : string := subst_loop (String.length s) s ctx.

Lemma subst_fuel ctx f1 f2 s :
  (String.length s ≤ f1)%nat → (String.length s ≤ f2)%nat → subst_loop f1 s ctx = subst_loop f2 s ctx.
Proof.
  revert f2 s. induction f1 as [|f1 IH]; intros f2 [|c s] H1 H2; simpl in H1; [by destruct f2|lia|by destruct f2|].
  destruct f2 as [|f2]; simpl in H2; [lia|]. cbn [subst_loop].
  assert (∀ rest, (String.length rest ≤ String.length s)%nat → subst_loop f1 rest ctx = subst_loop f2 rest ctx) as Hr
    by (intros rest Hrest; apply IH; lia).
  destruct (CutPrefix (String c s) "${") as [t|] eqn:Et; [|by rewrite Hr]. destruct (Cut t "}") as [[key rest]|] eqn:Ec; [|by rewrite Hr].
  rewrite Hr; [done|]. apply CutPrefix_Some in Et. apply Cut_Some in Ec. subst t.
  apply (f_equal String.length) in Et. rewrite !length_append_s in Et. simpl in Et. lia.
Qed.

Lemma subst_literal ctx c s : c ≠ dollar → subst ctx (String c s) = String c (subst ctx s).
Proof.
  intros Hc. unfold subst. cbn [String.length subst_loop].
  destruct (CutPrefix (String c s) "${") as [t|] eqn:E; [|done]. apply CutPrefix_Some in E. by injection E as ->.
Qed.

Lemma subst_variable ctx key s : brace ∉ chars key → subst ctx ("${" +:+ key +:+ "}" +:+ s) = variable ctx key +:+ subst ctx s.
Proof.
  intros Hk. unfold subst. pose proof (Cut_char brace key s Hk : Cut (key +:+ "}" +:+ s) "}" = Some (key, s)) as Hc. set (t := key +:+ "}" +:+ s) in *.
  pose proof (CutPrefix_append "${" t) as Hp. change (String.length ("${" +:+ t)) with (S (S (String.length t))).
  assert (∀ f, (String.length s ≤ f)%nat → subst_loop f s ctx = subst_loop (String.length s) s ctx) as Hf by (intros; by apply subst_fuel).
  assert (String.length s ≤ S (String.length t))%nat as Hl by (subst t; rewrite !length_append_s; simpl; lia).
  generalize dependent (S (String.length t)). intros f Hl.
  change ("${" +:+ t) with (String dollar (String (char_of 123) t)) in Hp |- *. cbn [subst_loop]. rewrite Hp.
  rewrite Hc. by rewrite Hf.
Qed.

Lemma subst_plain ctx s : ContainsStr s "${" = false → subst ctx s = s.
Proof.
  unfold ContainsStr. rewrite bool_decide_eq_false, <- eq_None_not_Some. unfold subst. induction s as [|c s IH]; [done|].
  cbn [Cut String.length subst_loop]. destruct (CutPrefix (String c s) "${"); [done|].
  destruct (Cut s "${") as [[]|]; [done|]. intros _. by rewrite IH.
Qed.

Lemma iamSubstituteVars_subst ctx s : iamSubstituteVars s ctx = subst ctx s.
Proof. unfold iamSubstituteVars. destruct (ContainsStr s "${") eqn:E; [done|]. simpl. by rewrite subst_plain. Qed.

(** A pattern as the texts and variables it is made of. *)
Inductive segment := Text (s : string) | Var (key : string).
Definition segment_ok (g : segment) : Prop :=
  match g with Text s => dollar ∉ chars s | Var key => brace ∉ chars key end.
Definition written (g : segment) : string := match g with Text s => s | Var key => "${" +:+ key +:+ "}" end.
Definition filled (ctx : context) (g : segment) : string := match g with Text s => s | Var key => variable ctx key end.
Definition pattern_of (f : segment → string) (l : list segment) : string := foldr (λ g s, f g +:+ s) "" l.

Lemma subst_text ctx s t : dollar ∉ chars s → subst ctx (s +:+ t) = s +:+ subst ctx t.
Proof.
  induction s as [|c s IH]; [done|]. intros Hs. change (chars (String c s)) with (c :: chars s) in Hs.
  apply not_elem_of_cons in Hs as [Hc Hs]. rewrite !append_cons_s, subst_literal by done. by rewrite IH.
Qed.
End Decision.

(** Policy variables: every [${key}] of a pattern is replaced by the first
    value the request's context has for the key, by nothing where it has none,
    and the text around it is left as it is, whatever the pattern. *)
Theorem variables_are_filled_in (ctx : list (string * list string)) (l : list segment) :
  Forall segment_ok l → iamSubstituteVars (pattern_of written l) ctx = pattern_of (filled ctx) l.
Proof.
  rewrite iamSubstituteVars_subst. induction 1 as [|[s|key] l Hg Hl IH]; [done|..]; simpl in *.
  - by rewrite subst_text, IH.
  - by rewrite !append_assoc_s, subst_variable, IH.
Qed.

(** [C16] Policy evaluation is deny-overrides over the statements that apply:
    a request is explicitly denied exactly when some statement about its
    principal, action and resource whose conditions all hold says deny, and
    allowed exactly when none does and one that does more than delegate to the
    caller's account says allow. A grant is direct exactly when one names the
    caller itself. The order of documents, statements and conditions never
    changes the answer, nor does that of the context's keys when no two of them
    are equal up to letter case. *)
Theorem policy_decision_is_deny_overrides `{!Unicode, !Parsers} (awsRegion : string) (docs : list iamPolicyDoc)
    (action resource callerArn entityArn : string) (ctx : list (string * list string)) :
  let stmts := mjoin (Statement <$> docs) in
  let says effect stmt := applies awsRegion action resource callerArn entityArn ctx stmt = true ∧ ToLower (Effect stmt) = effect in
  let kind := kind awsRegion callerArn entityArn ctx in
  let r := iamEvalResourceDecision awsRegion docs action resource callerArn entityArn ctx in
  (r.1.1 = explicitDeny ↔ ∃ stmt, stmt ∈ stmts ∧ says "deny" stmt) ∧
  (r.1.1 = allowed ↔ (∀ stmt, stmt ∈ stmts → ¬ says "deny" stmt) ∧
                     ∃ stmt, stmt ∈ stmts ∧ says "allow" stmt ∧ kind stmt ≠ iamPrincipalDelegated) ∧
  (r.2 = true ↔ r.1.1 = allowed ∧ ∃ stmt, stmt ∈ stmts ∧ says "allow" stmt ∧ kind stmt = iamPrincipalNamed) ∧
  (∀ docs' ctx', same_context ctx ctx' → docs_equiv docs docs' →
     let r' := iamEvalResourceDecision awsRegion docs' action resource callerArn entityArn ctx' in
     r'.1.1 = r.1.1 ∧ r'.2 = r.2).
Proof.
  intros stmts says kind r. pose proof (decision_spec awsRegion action resource callerArn entityArn ctx docs) as E.
  change (iamEvalResourceDecision _ _ _ _ _ _ _) with r in E. cbv zeta in E. change (mjoin (Statement <$> docs)) with stmts in E.
  assert (Hd : existsb (denies awsRegion action resource callerArn entityArn ctx) stmts = true ↔ ∃ stmt, stmt ∈ stmts ∧ says "deny" stmt).
  { rewrite existsb_elem. by setoid_rewrite denies_spec. }
  assert (Hg : existsb (grants awsRegion action resource callerArn entityArn ctx) stmts = true ↔
    ∃ stmt, stmt ∈ stmts ∧ says "allow" stmt ∧ kind stmt ≠ iamPrincipalDelegated).
  { rewrite existsb_elem. by setoid_rewrite grants_spec. }
  assert (Hn : existsb (grants_by_name awsRegion action resource callerArn entityArn ctx) stmts = true ↔
    ∃ stmt, stmt ∈ stmts ∧ says "allow" stmt ∧ kind stmt = iamPrincipalNamed).
  { rewrite existsb_elem. by setoid_rewrite grants_by_name_spec. }
  assert (Hno : existsb (denies awsRegion action resource callerArn entityArn ctx) stmts = false ↔ ∀ stmt, stmt ∈ stmts → ¬ says "deny" stmt).
  { rewrite <- not_true_iff_false, Hd. naive_solver. }
  repeat setoid_rewrite <- Hno. rewrite <- Hd. setoid_rewrite <- Hg. setoid_rewrite <- Hn. clear Hd Hg Hn Hno.
  split_and!.
  4: { intros docs' ctx' Hs He. pose proof (decision_equiv awsRegion action resource callerArn entityArn ctx ctx' Hs docs docs' He) as Eq.
       cbv zeta in Eq. injection Eq as E1 E2. split; [exact (eq_sym E1)|exact (eq_sym E2)]. }
  all: destruct (existsb (denies awsRegion action resource callerArn entityArn ctx) stmts);
    [|destruct (existsb (grants awsRegion action resource callerArn entityArn ctx) stmts)];
    injection E as E1 E2; rewrite ?E1, ?E2; naive_solver.
Qed.

(** ** Concrete requests *)

(** Letter case for ASCII, and parsers that read decimal numbers only. *)
Definition ascii_unicode : Unicode := {|
  SimpleFold r := if (65 <=? r) && (r <=? 90) then r + 32 else if (97 <=? r) && (r <=? 122) then r - 32 else r;
  ToLower_rune r := if (65 <=? r) && (r <=? 90) then r + 32 else r
|}.
Definition decimal_parsers : Parsers := {|
  Float := Z; ParseFloat := ParseInt; float_eq := Z.eqb; float_lt := Z.ltb; float_le := Z.leb;
  ParseRFC3339 _ := None; IP := Z; ParseIP := ParseInt; IP_Equal := Z.eqb; ParseCIDR _ := None
|}.
#[local] Existing Instances ascii_unicode decimal_parsers.

Definition statement (effect : string) (action resource : list string) (principal : iamPrincipal)
    (condition : list (string * list (string * list string))) : iamStatement :=
  MkStatement "" effect action [] resource [] principal no_principal condition.

Definition w_allow : iamStatement :=
  statement "Allow" ["s3:*"] ["arn:aws:s3:::b/${aws:username}/*"] no_principal
    [("StringEquals", [("aws:RequestedRegion", ["eu-west-1"]); ("AWS:UserName", ["ann"])])].
Definition w_deny : iamStatement := statement "Deny" ["s3:delete*"] [] no_principal [].
Definition w_ctx : list (string * list string) := [("aws:username", ["ann"]); ("aws:RequestedRegion", ["eu-west-1"])].

Lemma policy_decision_is_deny_overrides_witness :
  let eval docs action ctx := (iamEvalResourceDecision "us-east-1" docs action "arn:aws:s3:::b/ann/x" "arn:aws:iam::123456789012:user/ann" "" ctx).1.1 in
  eval [MkDoc "" [w_allow; w_deny]] "s3:GetObject" w_ctx = allowed ∧
  eval [MkDoc "" [w_deny]; MkDoc "" [w_allow]] "s3:GetObject" (rev w_ctx) = allowed ∧
  eval [MkDoc "" [w_allow; w_deny]] "s3:DeleteObject" w_ctx = explicitDeny.
Proof.
  intros eval.
  destruct (policy_decision_is_deny_overrides "us-east-1" [MkDoc "" [w_allow; w_deny]] "s3:GetObject"
    "arn:aws:s3:::b/ann/x" "arn:aws:iam::123456789012:user/ann" "" w_ctx) as (_ & Ha & _ & Ho).
  destruct (policy_decision_is_deny_overrides "us-east-1" [MkDoc "" [w_allow; w_deny]] "s3:DeleteObject"
    "arn:aws:s3:::b/ann/x" "arn:aws:iam::123456789012:user/ann" "" w_ctx) as (Hd & _).
  assert (eval [MkDoc "" [w_allow; w_deny]] "s3:GetObject" w_ctx = allowed) as Hallow.
  { apply Ha. split.
    - intros stmt [->|[->|[]%elem_of_nil]%elem_of_cons]%elem_of_cons; vm_compute; intros [? ?]; done.
    - exists w_allow. split; [by left|]. by vm_compute. }
  split_and!; [done| |].
  - rewrite <- Hallow. apply Ho.
    + right. split; [|by apply Permutation_rev]. split; [by apply (bool_decide_unpack _); vm_compute|].
      intros key k k' Hk Hk' E E'. simpl in Hk, Hk'.
      apply elem_of_cons in Hk as [->|[->|[]%elem_of_nil]%elem_of_cons]; apply elem_of_cons in Hk' as [->|[->|[]%elem_of_nil]%elem_of_cons]; try done;
        apply EqualFold_length in E, E'; rewrite <- E in E'; by vm_compute in E'.
    + exists [w_deny; w_allow]. split; [apply Permutation_swap|].
      apply (Forall_Forall2_diag stmt_equiv [w_deny; w_allow]), Forall_forall. intros stmt _. reflexivity.
  - apply Hd. exists w_deny. split; [by right; left|]. by vm_compute.
Defined.

(** The variables [${*}], [${?}] and [${$}] are said to be literal escapes, but the
    pattern they leave is matched as a pattern: a statement about the one object
    named [*] applies to every object. *)
Lemma escaped_star_is_a_wildcard :
  iamResourceMatches (iamSubstituteVarsStmt (statement "Allow" ["s3:*"] ["arn:aws:s3:::b/${*}"] no_principal []) []) "arn:aws:s3:::b/secret" = true.
Proof. by vm_compute. Qed.

(** A statement that names the caller is said to authorize it outright. The
    first entry that matches decides: the caller's account before the caller's
    ARN makes the statement a delegation, and the request is denied. *)
Lemma account_entry_hides_the_name :
  let ann := "arn:aws:iam::123456789012:user/ann" in
  let eval l := (iamEvalResourceDecision "us-east-1" [MkDoc "" [statement "Allow" ["s3:*"] [] (MkPrincipal false l [] [] [] true) []]]
    "s3:GetObject" "arn:aws:s3:::b/x" ann "" []).1.1 in
  eval [ann; "123456789012"] = allowed ∧ eval ["123456789012"; ann] = implicitDeny.
Proof. by vm_compute. Qed.

(** An operator is said to hold if any value of the context satisfies it; the
    negated ones hold only if every value does. *)
Lemma negated_operators_want_every_value :
  iamEvalConditionOp "StringNotEquals" ["b"] ["a"] = true ∧ iamEvalConditionOp "StringNotEquals" ["a"; "b"] ["a"] = false.
Proof. by vm_compute. Qed.

(** Two context keys that are equal up to letter case: a condition that spells
    the key in a third way gets the value of whichever of the two the range over
    the map meets first, so one request is allowed or denied by chance. *)
Example case_twins_depend_on_order :
  let ctx := [("aws:PrincipalTag/Team", ["a"]); ("aws:PrincipalTag/team", ["b"])] in
  let eval ctx := (iamEvalResourceDecision "us-east-1"
    [MkDoc "" [statement "Allow" ["s3:*"] [] no_principal [("StringEquals", [("aws:PrincipalTag/TEAM", ["a"])])]]]
    "s3:GetObject" "arn:aws:s3:::b/x" "arn:aws:iam::123456789012:user/ann" "" ctx).1.1 in
  eval ctx = allowed ∧ eval (rev ctx) = implicitDeny.
Proof. by vm_compute. Qed.
