(* ===== verification/Org.v ===== *)
(** * Service control policies: [src/simulator-aws/organizations_scp.go]

    The organization's entities, the policies attached to them, and how the
    service control policies on the way from an account to the root answer for
    a request. The stores are finite maps; the parser of a policy document,
    [encoding/json], is a parameter, and a stored policy that does not parse is a
    panic, [None]. *)

From S2P Require Import Prelude Gostd Wildcard Utf8 Iam.

(** The fields of a policy the evaluation reads. *)
Record OrgPolicy := MkOrgPolicy { op_Type : string; op_Content : string }.
Record OrgPolicyAttachment := MkAttachment { PolicyId : string; TargetId : string }.

(** An OU and an account are their parent's id; a root is whether its service
    control policies are disabled. *)
Record Org := MkOrg {
  orgOrg : bool;
  orgRoots : gmap string bool;
  orgOUs : gmap string string;
  orgAccounts : gmap string string;
  orgPolicies : gmap string OrgPolicy;
  orgPolicyAttachments : gmap string OrgPolicyAttachment
}.

Definition set_roots r o := MkOrg (orgOrg o) r (orgOUs o) (orgAccounts o) (orgPolicies o) (orgPolicyAttachments o).
Definition set_attachments a o := MkOrg (orgOrg o) (orgRoots o) (orgOUs o) (orgAccounts o) (orgPolicies o) a.

Definition orgSCPType : string := "SERVICE_CONTROL_POLICY".
Definition orgFullAWSAccessPolicyID : string := "p-FullAWSAccess".
Definition orgRootID : string := "r-sim0".
Definition orgAttachmentKey (policyID targetID : string) : string := policyID +:+ "|" +:+ targetID.

Definition orgSCPEnabled (o : Org) : bool :=
  match orgRoots o !! orgRootID with Some disabled => negb disabled | None => false end.

Definition orgAttachFullAWSAccess (o : Org) (targetID : string) : Org :=
  if negb (orgSCPEnabled o) then o
  else set_attachments (<[orgAttachmentKey orgFullAWSAccessPolicyID targetID := MkAttachment orgFullAWSAccessPolicyID targetID]>
         (orgPolicyAttachments o)) o.

Definition orgSCPTargets (o : Org) : list string :=
  orgRootID :: (map_to_list (orgOUs o)).*1 ++ (map_to_list (orgAccounts o)).*1.

Definition attachments (o : Org) : list OrgPolicyAttachment := (map_to_list (orgPolicyAttachments o)).*2.

(** The index answers what a scan of the attachments would. *)
Definition orgSCPsAttachedTo (o : Org) (targetID : string) : list OrgPolicy :=
  omap (λ at_, if String.eqb (TargetId at_) targetID
               then match orgPolicies o !! PolicyId at_ with
                    | Some p => if String.eqb (op_Type p) orgSCPType then Some p else None
                    | None => None
                    end
               else None) (attachments o).

Definition orgAttachFullAWSAccessToUncovered (o : Org) : Org :=
  if negb (orgOrg o) || negb (orgSCPEnabled o) then o
  else foldl (λ o target, match orgSCPsAttachedTo o target with [] => orgAttachFullAWSAccess o target | _ => o end) o (orgSCPTargets o).

Definition orgEnableSCPs (o : Org) (root : string) : Org :=
  let o := set_roots (<[root := false]> (orgRoots o)) o in
  foldl orgAttachFullAWSAccess o (orgSCPTargets o).

Definition is_scp (o : Org) (at_ : OrgPolicyAttachment) : bool :=
  match orgPolicies o !! PolicyId at_ with Some p => String.eqb (op_Type p) orgSCPType | None => false end.

Definition detach (o : Org) (at_ : OrgPolicyAttachment) : Org :=
  set_attachments (delete (orgAttachmentKey (PolicyId at_) (TargetId at_)) (orgPolicyAttachments o)) o.

Definition orgDisableSCPs (o : Org) (root : string) : Org :=
  let o := set_roots (<[root := true]> (orgRoots o)) o in
  foldl (λ o at_, if is_scp o at_ then detach o at_ else o) o (attachments o).

Definition orgDetachLeavesNoSCP (o : Org) (policyID targetID : string) : bool :=
  match orgPolicies o !! policyID with
  | None => false
  | Some p => if negb (String.eqb (op_Type p) orgSCPType) || negb (orgSCPEnabled o) then false
              else (length (orgSCPsAttachedTo o targetID) <=? 1)%nat
  end.

Definition orgDetachAll (o : Org) (targetID : string) : Org :=
  foldl (λ o at_, if String.eqb (TargetId at_) targetID then detach o at_ else o) o (attachments o).

(** [orgPathToRoot] of [organizations.go]: the loop and its bound. *)
Definition orgParent (o : Org) (cur : string) : option string :=
  match orgAccounts o !! cur with Some p => Some p | None => orgOUs o !! cur end.

Fixpoint path_loop (n : nat) (o : Org) (cur : string) : list string :=
  match n with
  | O => []
  | S n =>
      match orgParent o cur with
      | None => []
      | Some parent =>
          if String.eqb parent "" then []
          else parent :: (if HasPrefix parent "r-" then [] else path_loop n o parent)
      end
  end.
Definition orgPathToRoot (o : Org) (targetID : string) : list string := targetID :: path_loop 64 o targetID.

Section Decision.
Context `{!Unicode, !Parsers} (awsRegion : string) (parseIAMPolicy : string → option iamPolicyDoc).

(** The loop over the levels, from the account up. *)
Fixpoint scp_levels (o : Org) (path : list string) (action resource : string) (ctx : list (string * list string)) (d : decision)
    : option decision :=
  match path with
  | [] => Some d
  | target :: path =>
      match mapM (λ p, parseIAMPolicy (op_Content p)) (orgSCPsAttachedTo o target) with
      | None => None
      | Some docs =>
          match (iamEvalDecision awsRegion docs action resource ctx).1 with
          | explicitDeny => Some explicitDeny
          | allowed => scp_levels o path action resource ctx d
          | implicitDeny => scp_levels o path action resource ctx implicitDeny
          end
      end
  end.

(** [account] is the caller's; [exempt] that it is the management account's or
    a service-linked role. *)
Definition orgSCPDecision (o : Org) (exempt : bool) (account action resource : string) (ctx : list (string * list string)) : option decision :=
  if exempt then Some allowed
  else if negb (orgOrg o) || negb (orgSCPEnabled o) then Some allowed
  else match orgAccounts o !! account with
       | None => Some allowed
       | Some _ => scp_levels o (orgPathToRoot o account) action resource ctx allowed
       end.
End Decision.

(** ** The levels above an account *)

(** [above o c t]: the way up from [c] passes [t]; it ends at a root. *)
Inductive above (o : Org) : string → string → Prop :=
| above_parent c p : orgParent o c = Some p → p ≠ "" → above o c p
| above_further c p t : orgParent o c = Some p → p ≠ "" → HasPrefix p "r-" = false → above o p t → above o c t.

(** The organization is a forest in which no entity is deeper than [n]. *)
Definition depth_at_most (o : Org) (n : nat) (account : string) : Prop :=
  ∃ depth : string → nat, (∀ c p, orgParent o c = Some p → (depth p < depth c)%nat) ∧ (depth account ≤ n)%nat.

Lemma path_loop_above o n depth cur :
  (∀ c p, orgParent o c = Some p → (depth p < depth c)%nat) → (depth cur ≤ n)%nat →
  ∀ t, t ∈ path_loop n o cur ↔ above o cur t.
Proof.
  intros Hd. revert cur. induction n as [|n IH]; intros cur Hn t; cbn [path_loop].
  { rewrite elem_of_nil. split; [done|]. intros H. assert (∃ p, orgParent o cur = Some p) as [p Hp] by (inversion H; eauto).
    apply Hd in Hp. lia. }
  destruct (orgParent o cur) as [p|] eqn:Ep.
  2: { rewrite elem_of_nil. split; [done|]. intros H. inversion H; congruence. }
  pose proof (Hd cur p Ep). destruct (String.eqb_spec p "") as [->|Hne].
  { rewrite elem_of_nil. split; [done|]. intros H'. inversion H'; congruence. }
  rewrite elem_of_cons. split.
  - intros [->|Ht]; [by apply above_parent|]. destruct (HasPrefix p "r-") eqn:Er; [by apply elem_of_nil in Ht|].
    apply IH in Ht; [|lia]. by eapply above_further.
  - intros H'. inversion H' as [? p' Hp' _|? p' t' Hp' _ Hr Ha]; subst; rewrite Ep in Hp'; injection Hp' as <-; [by left|right].
    rewrite Hr. apply IH; [lia|done].
Qed.

Lemma path_spec o account t : depth_at_most o 64 account → t ∈ orgPathToRoot o account ↔ t = account ∨ above o account t.
Proof. intros (depth & Hd & Hn). unfold orgPathToRoot. rewrite elem_of_cons. by rewrite (path_loop_above o 64 depth). Qed.

Section Levels.
Context `{!Unicode, !Parsers} (awsRegion : string) (parseIAMPolicy : string → option iamPolicyDoc).
Context (o : Org) (action resource : string) (ctx : list (string * list string)).

(** What the policies attached to one entity answer. *)
Definition level_docs (target : string) : option (list iamPolicyDoc) :=
  mapM (λ p, parseIAMPolicy (op_Content p)) (orgSCPsAttachedTo o target).
Definition level (target : string) : option decision :=
  (λ docs, (iamEvalDecision awsRegion docs action resource ctx).1) <$> level_docs target.

(** Every stored service control policy parses. *)
Definition policies_parse : Prop :=
  ∀ id p, orgPolicies o !! id = Some p → op_Type p = orgSCPType → is_Some (parseIAMPolicy (op_Content p)).

Lemma attached_policy target p : p ∈ orgSCPsAttachedTo o target → op_Type p = orgSCPType ∧ ∃ id, orgPolicies o !! id = Some p.
Proof.
  intros (at_ & _ & Hat)%list_elem_of_omap. destruct (String.eqb (TargetId at_) target); [|done].
  destruct (orgPolicies o !! PolicyId at_) as [p'|] eqn:E; [|done]. destruct (String.eqb_spec (op_Type p') orgSCPType); [|done].
  injection Hat as ->. eauto.
Qed.

Lemma level_total target : policies_parse → is_Some (level target).
Proof.
  intros Hp. unfold level, level_docs. rewrite fmap_is_Some. apply mapM_is_Some, Forall_forall.
  intros p (Ht & id & Hid)%attached_policy. by eapply Hp.
Qed.

Lemma scp_levels_spec path d :
  policies_parse → d ≠ explicitDeny →
  ∃ r, scp_levels awsRegion parseIAMPolicy o path action resource ctx d = Some r ∧
    (r = explicitDeny ↔ ∃ t, t ∈ path ∧ level t = Some explicitDeny) ∧
    (r = allowed ↔ d = allowed ∧ ∀ t, t ∈ path → level t = Some allowed).
Proof.
  intros Hp. revert d. induction path as [|t path IH]; intros d Hd.
  { exists d. split; [done|]. split; [split; [done|by intros (? & ?%elem_of_nil & _)]|].
    split; [intros ->; split; [done|by intros ? ?%elem_of_nil]|by intros [? _]]. }
  cbn [scp_levels]. destruct (level_total t Hp) as [x Hx]. pose proof Hx as Hx'. unfold level, level_docs in Hx'.
  destruct (mapM _ _) as [docs|]; [|done]. simpl in Hx'. injection Hx' as ->. setoid_rewrite elem_of_cons.
  destruct x.
  - exists explicitDeny. split; [done|]. split; [split; [|done]; intros _; eauto|]. split; [done|].
    intros [_ Ha]. specialize (Ha t (or_introl eq_refl)). congruence.
  - destruct (IH d Hd) as (r & E & H1 & H2). exists r. split; [done|]. rewrite H1, H2. naive_solver congruence.
  - destruct (IH implicitDeny) as (r & E & H1 & H2); [done|]. exists r. split; [done|]. rewrite H1, H2. naive_solver congruence.
Qed.
End Levels.

(** Service control policies cap a member account's request by every level
    from the account up to the root: it passes exactly when each of them allows
    it, and one explicit deny anywhere refuses it; they govern nobody else.
    Evaluation never panics while the stored policies parse. *)
Theorem every_level_must_allow `{!Unicode, !Parsers} (awsRegion : string) (parseIAMPolicy : string → option iamPolicyDoc)
    (o : Org) (exempt : bool) (account action resource : string) (ctx : list (string * list string)) :
  policies_parse parseIAMPolicy o → depth_at_most o 64 account →
  let level := level awsRegion parseIAMPolicy o action resource ctx in
  let governed := exempt = false ∧ orgOrg o = true ∧ orgSCPEnabled o = true ∧ is_Some (orgAccounts o !! account) in
  ∃ r, orgSCPDecision awsRegion parseIAMPolicy o exempt account action resource ctx = Some r ∧
    (r = allowed ↔ (governed → ∀ t, t = account ∨ above o account t → level t = Some allowed)) ∧
    (r = explicitDeny ↔ governed ∧ ∃ t, (t = account ∨ above o account t) ∧ level t = Some explicitDeny).
Proof.
  intros Hp Hd level governed. unfold orgSCPDecision, governed.
  destruct exempt; [exists allowed; naive_solver|]. destruct (orgOrg o); [|exists allowed; naive_solver].
  destruct (orgSCPEnabled o); [|exists allowed; naive_solver].
  destruct (orgAccounts o !! account) as [parent|]; [|exists allowed; split; [done|]; split; [|naive_solver]; by split; [intros _ (_ & _ & _ & [? ?])|]].
  destruct (scp_levels_spec awsRegion parseIAMPolicy o action resource ctx (orgPathToRoot o account) allowed Hp) as (r & E & H1 & H2); [done|].
  exists r. split; [done|]. pose proof (λ t, path_spec o account t Hd) as Hpath.
  setoid_rewrite Hpath in H1. setoid_rewrite Hpath in H2. rewrite H1, H2. unfold level. naive_solver eauto.
Qed.

(** An organization of one unit that denies leaving its region. *)
Definition w_policy (content : string) : option iamPolicyDoc :=
  if String.eqb content "full" then Some (MkDoc "" [statement "Allow" ["*"] ["*"] no_principal []])
  else if String.eqb content "region" then Some (MkDoc "" [statement "Deny" ["*"] ["*"] no_principal [("StringNotEquals", [("aws:RequestedRegion", ["eu-west-1"])])]])
  else None.
Definition w_org : Org := MkOrg true {[ orgRootID := false ]} {[ "ou-1" := orgRootID ]} {[ "210987654321" := "ou-1" ]}
  {[ orgFullAWSAccessPolicyID := MkOrgPolicy orgSCPType "full"; "p-region" := MkOrgPolicy orgSCPType "region" ]}
  (list_to_map ((λ a, (orgAttachmentKey a.1 a.2, MkAttachment a.1 a.2)) <$>
    [(orgFullAWSAccessPolicyID, orgRootID); (orgFullAWSAccessPolicyID, "ou-1"); ("p-region", "ou-1"); (orgFullAWSAccessPolicyID, "210987654321")])).

Lemma every_level_must_allow_witness :
  orgSCPDecision (H := ascii_unicode) (H0 := decimal_parsers) "us-east-1" w_policy w_org false "210987654321" "s3:GetObject" "*"
    [("aws:RequestedRegion", ["us-east-1"])] = Some explicitDeny.
Proof.
  destruct (every_level_must_allow (H := ascii_unicode) (H0 := decimal_parsers) "us-east-1" w_policy w_org false "210987654321" "s3:GetObject" "*"
    [("aws:RequestedRegion", ["us-east-1"])]) as (r & E & _ & Hd).
  - intros id p Hid _. unfold w_org in Hid. simpl in Hid.
    apply lookup_insert_Some in Hid as [[<- <-]|[_ [<- <-]%lookup_singleton_Some]]; simpl; eauto.
  - exists (λ s, if String.eqb s "210987654321" then 2 else if String.eqb s "ou-1" then 1 else 0)%nat. split; [|simpl; lia].
    intros c p. unfold orgParent. simpl.
    destruct ({["210987654321" := "ou-1"]} !! c) as [q|] eqn:Ea.
    + apply lookup_singleton_Some in Ea as [<- <-]. intros [= <-]. simpl. lia.
    + intros [<- <-]%lookup_singleton_Some. simpl. lia.
  - rewrite E. f_equal. apply Hd. split; [split_and!; try done; by eexists|]. exists "ou-1". split; [right; by apply above_parent|]. by vm_compute.
Defined.

(** ** Every entity keeps a service control policy *)

Section Coverage.
Implicit Types (o : Org) (t : string).

Definition bar : ascii := char_of 124.

(** Attachments are stored under their own keys; policy ids have no bar. *)
Definition attachments_ok o : Prop :=
  ∀ k a, orgPolicyAttachments o !! k = Some a → k = orgAttachmentKey (PolicyId a) (TargetId a) ∧ bar ∉ chars (PolicyId a).
Definition full_access_ok o : Prop := ∃ p, orgPolicies o !! orgFullAWSAccessPolicyID = Some p ∧ op_Type p = orgSCPType.

Definition has_scp o t : Prop := ∃ k a, orgPolicyAttachments o !! k = Some a ∧ TargetId a = t ∧ is_scp o a = true.

Lemma attachmentKey_inj p t p' t' : bar ∉ chars p → bar ∉ chars p' → orgAttachmentKey p t = orgAttachmentKey p' t' → p = p' ∧ t = t'.
Proof.
  intros Hp Hp' E. pose proof (Cut_char bar p t Hp) as C. pose proof (Cut_char bar p' t' Hp') as C'.
  change (String bar "") with "|" in C, C'. unfold orgAttachmentKey in E. rewrite E, C' in C. by injection C as -> ->.
Qed.

Lemma attached_has_scp o t : orgSCPsAttachedTo o t ≠ [] ↔ has_scp o t.
Proof.
  assert (∀ p, p ∈ orgSCPsAttachedTo o t ↔ ∃ k a, orgPolicyAttachments o !! k = Some a ∧ TargetId a = t ∧ is_scp o a = true ∧ orgPolicies o !! PolicyId a = Some p) as Hin.
  { intros p. unfold orgSCPsAttachedTo, attachments, is_scp. rewrite list_elem_of_omap. split.
    - intros (a & ([k a'] & -> & Hk)%list_elem_of_fmap & E). simpl in E. apply elem_of_map_to_list in Hk. exists k, a'.
      destruct (String.eqb_spec (TargetId a') t); [|done]. destruct (orgPolicies o !! PolicyId a') as [p'|]; [|done].
      destruct (String.eqb (op_Type p') orgSCPType) eqn:Et; [|done]. by simplify_eq.
    - intros (k & a & Hk & <- & Hs & Hp). exists a. split; [apply list_elem_of_fmap; exists (k, a); by rewrite elem_of_map_to_list|].
      rewrite String.eqb_refl, Hp in *. by rewrite Hs. }
  split.
  - destruct (orgSCPsAttachedTo o t) as [|p l] eqn:E; [done|]. intros _. destruct (proj1 (Hin p)) as (k & a & ? & ? & ? & _); [by left|].
    by exists k, a.
  - intros (k & a & Hk & Ht & Hs) E. unfold is_scp in Hs. destruct (orgPolicies o !! PolicyId a) as [p|] eqn:Ep; [|done].
    assert (p ∈ orgSCPsAttachedTo o t) as Hp; [|by rewrite E in Hp; apply elem_of_nil in Hp].
    apply Hin. exists k, a. unfold is_scp. by rewrite Ep.
Qed.

(** The state service control policies are enforced in, with the entities [T]. *)
Record enforced (T : list string) o : Prop := {
  en_keys : attachments_ok o; en_full : full_access_ok o; en_on : orgSCPEnabled o = true; en_targets : orgSCPTargets o = T
}.

Lemma no_bar s : existsb (Ascii.eqb bar) (chars s) = false → bar ∉ chars s.
Proof. intros E Hin. rewrite (proj2 (existsb_elem _ _)) in E; [done|]. exists bar. by rewrite Ascii.eqb_refl. Qed.

Lemma full_access_no_bar : bar ∉ chars orgFullAWSAccessPolicyID.
Proof. by apply no_bar. Qed.

(** Attaching full access covers its target and uncovers nobody. *)
Lemma attach_covers T o t0 :
  enforced T o → enforced T (orgAttachFullAWSAccess o t0) ∧ has_scp (orgAttachFullAWSAccess o t0) t0 ∧
  ∀ t, has_scp o t → has_scp (orgAttachFullAWSAccess o t0) t.
Proof.
  intros [Hk (p & Hp & Ht) Hon HT]. unfold orgAttachFullAWSAccess. rewrite Hon. simpl. pose proof full_access_no_bar as Hb.
  assert (Hfull : ∀ t, is_scp o (MkAttachment orgFullAWSAccessPolicyID t) = true).
  { intros t. unfold is_scp. simpl. rewrite Hp. by apply String.eqb_eq. }
  split_and!.
  - split; [|by exists p|done|done]. intros k a E. simpl in E. apply lookup_insert_Some in E as [[<- <-]|[_ E]]; [done|by apply Hk].
  - eexists _, (MkAttachment _ t0). split; [by apply lookup_insert_eq|]. split; [done|apply Hfull].
  - intros t (k & a & E & <- & Hs). destruct (decide (k = orgAttachmentKey orgFullAWSAccessPolicyID t0)) as [->|Hne].
    + destruct (Hk _ _ E) as [Ek Hba]. apply attachmentKey_inj in Ek as [_ <-]; [|done|done].
      eexists _, (MkAttachment _ t0). split; [by apply lookup_insert_eq|]. split; [done|apply Hfull].
    + exists k, a. split; [by apply lookup_insert_Some; right|done].
Qed.

Lemma fold_covers T (f : Org → string → Org) l o :
  (∀ o t0, enforced T o → enforced T (f o t0) ∧ has_scp (f o t0) t0 ∧ ∀ t, has_scp o t → has_scp (f o t0) t) →
  enforced T o → enforced T (foldl f o l) ∧ (∀ t, t ∈ l → has_scp (foldl f o l) t) ∧ ∀ t, has_scp o t → has_scp (foldl f o l) t.
Proof.
  intros Hf. revert o. induction l as [|t0 l IH]; intros o Ho; simpl; [split_and!; [done|by intros ? ?%elem_of_nil|done]|].
  destruct (Hf o t0 Ho) as (Ho' & H0 & Hm). destruct (IH _ Ho') as (He & Hl & Hm'). split_and!; [done| |auto].
  intros t [->|Ht]%elem_of_cons; auto.
Qed.

(** Detaching an attachment takes that one away. *)
Lemma detach_lookup o a k b :
  attachments_ok o → bar ∉ chars (PolicyId a) →
  orgPolicyAttachments (detach o a) !! k = Some b ↔ orgPolicyAttachments o !! k = Some b ∧ b ≠ a.
Proof.
  intros Hk Ha. simpl. rewrite lookup_delete_Some. split.
  - intros [Hne E]. split; [done|]. intros ->. by destruct (Hk _ _ E).
  - intros [E Hne]. split; [|done]. intros <-. destruct (Hk _ _ E) as [Ek Hb]. apply attachmentKey_inj in Ek as [E1 E2]; [|done|done].
    destruct a, b. simpl in *. congruence.
Qed.

Lemma detach_ok o a : attachments_ok o → attachments_ok (detach o a).
Proof. intros Hk k b E. simpl in E. apply lookup_delete_Some in E as [_ E]. by apply Hk. Qed.

Lemma fold_detach (f : OrgPolicyAttachment → bool) (g : Org → OrgPolicyAttachment → bool) l o :
  (∀ o' a, orgPolicies o' = orgPolicies o → g o' a = f a) → attachments_ok o → Forall (λ a, bar ∉ chars (PolicyId a)) l →
  let o' := foldl (λ o a, if g o a then detach o a else o) o l in
  orgPolicies o' = orgPolicies o ∧
  ∀ k b, orgPolicyAttachments o' !! k = Some b ↔ orgPolicyAttachments o !! k = Some b ∧ (b ∉ l ∨ f b = false).
Proof.
  revert o. induction l as [|a l IH]; intros o Hg Hk Hl; simpl; [split; [done|]; intros; set_solver|].
  apply Forall_cons in Hl as [Ha Hl]. rewrite (Hg o a) by done. destruct (f a) eqn:Ef.
  - destruct (IH (detach o a)) as [H1 H2]; [done|by apply detach_ok|done|]. split; [done|]. intros k b.
    rewrite H2, detach_lookup by done. rewrite not_elem_of_cons. split; [intros [[? ?] [?|?]]; auto|].
    intros [E [[? ?]|Hf]]; [auto|]. split; [|by right]. split; [done|]. intros ->. congruence.
  - destruct (IH o) as [H1 H2]; [done|done|done|]. split; [done|]. intros k b. rewrite H2, not_elem_of_cons.
    split; [intros [E [Hn|Hf]]|intros [E [[_ Hn]|Hf]]; auto].
    + split; [done|]. destruct (f b) eqn:Eb; [left; split; [congruence|done]|by right].
    + auto.
Qed.

Lemma attachments_bars o : attachments_ok o → Forall (λ a, bar ∉ chars (PolicyId a)) (attachments o).
Proof.
  intros Hk. apply Forall_forall. intros a ([k a'] & -> & Hin)%list_elem_of_fmap. apply elem_of_map_to_list in Hin. by apply (Hk k).
Qed.

Lemma elem_of_attachments o k a : orgPolicyAttachments o !! k = Some a → a ∈ attachments o.
Proof. intros E. apply list_elem_of_fmap. exists (k, a). by rewrite elem_of_map_to_list. Qed.
End Coverage.

(** Detaching one of two leaves one. *)
Lemma detach_leaves_one o p t0 :
  attachments_ok o → bar ∉ chars p → orgSCPEnabled o = true → orgDetachLeavesNoSCP o p t0 = false →
  ∀ t, has_scp o t → has_scp (detach o (MkAttachment p t0)) t.
Proof.
  intros Hk Hp Hon Hl t (k & a & E & Ht & Hs). set (key := orgAttachmentKey p t0).
  destruct (decide (k = key)) as [->|Hne].
  2: { exists k, a. split; [|done]. simpl. by rewrite lookup_delete_ne. }
  destruct (Hk _ _ E) as [Ek Hb]. apply attachmentKey_inj in Ek as [Ep Et]; [|done|done]. subst t. subst p t0.
  unfold orgDetachLeavesNoSCP in Hl. unfold is_scp in Hs. destruct (orgPolicies o !! PolicyId a) as [q|] eqn:Eq; [|done].
  rewrite Hs, Hon in Hl. simpl in Hl. apply Nat.leb_gt in Hl. apply attached_has_scp.
  pose proof (map_to_list_delete (orgPolicyAttachments o) key a E) as Hperm.
  unfold orgSCPsAttachedTo, attachments in *. simpl orgPolicyAttachments. fold key.
  rewrite <- Hperm in Hl. csimpl in Hl. rewrite String.eqb_refl, Eq, Hs in Hl. simpl in Hl. simpl orgPolicies.
  destruct (omap _ _); simpl in Hl; [lia|done].
Qed.

(** While service control policies are enabled no root, unit or account is
    left without one, which would deny it everything: enabling them, and the
    repair at start-up, give every entity one, and a detachment that is let
    through leaves one on every entity that had one. Disabling them takes away
    every one and no other policy, and an entity that leaves loses exactly its
    own attachments. *)
Theorem entities_keep_a_control_policy (o : Org) (root : string) :
  attachments_ok o → full_access_ok o →
  let covered o' := ∀ t, t ∈ orgSCPTargets o → orgSCPsAttachedTo o' t ≠ [] in
  (root = orgRootID → orgSCPEnabled (orgEnableSCPs o root) = true ∧ covered (orgEnableSCPs o root)) ∧
  (orgOrg o = true → orgSCPEnabled o = true → covered (orgAttachFullAWSAccessToUncovered o)) ∧
  (∀ p t, bar ∉ chars p → orgSCPEnabled o = true → orgDetachLeavesNoSCP o p t = false → covered o → covered (detach o (MkAttachment p t))) ∧
  (∀ k a, orgPolicyAttachments (orgDisableSCPs o root) !! k = Some a ↔ orgPolicyAttachments o !! k = Some a ∧ is_scp o a = false) ∧
  (∀ t k a, orgPolicyAttachments (orgDetachAll o t) !! k = Some a ↔ orgPolicyAttachments o !! k = Some a ∧ TargetId a ≠ t).
Proof.
  intros Hk Hfull covered. split_and!.
  - intros ->. set (o1 := set_roots (<[orgRootID := false]> (orgRoots o)) o). assert (enforced (orgSCPTargets o) o1) as Ho.
    { split; [done|done| |done]. unfold orgSCPEnabled, o1. simpl. by rewrite lookup_insert_eq. }
    destruct (fold_covers _ orgAttachFullAWSAccess (orgSCPTargets o1) o1 (attach_covers _) Ho) as (He & Hc & _).
    split; [apply (en_on _ _ He)|]. intros t Ht. apply attached_has_scp. by apply Hc.
  - intros Ho Hon. unfold orgAttachFullAWSAccessToUncovered. rewrite Ho, Hon. simpl negb. cbn [orb].
    match goal with |- covered (foldl ?f _ _) =>
      destruct (fold_covers (orgSCPTargets o) f (orgSCPTargets o) o) as (_ & Hc & _); [|done|] end.
    + intros o' t0 Ho'. destruct (orgSCPsAttachedTo o' t0) as [|q l] eqn:E; [by apply attach_covers|].
      split; [done|]. split; [|done]. apply attached_has_scp. by rewrite E.
    + intros t Ht. apply attached_has_scp. by apply Hc.
  - intros p t Hp Hon Hl Hc t' Ht'. apply attached_has_scp, detach_leaves_one; [done..|]. by apply attached_has_scp, Hc.
  - intros k a. unfold orgDisableSCPs. set (o1 := set_roots (<[root := true]> (orgRoots o)) o).
    destruct (fold_detach (is_scp o) is_scp (attachments o1) o1) as [_ Hd]; [|done|by apply attachments_bars|].
    { intros o' b E. unfold is_scp. by rewrite E. }
    rewrite Hd. split; [|intros [E Hf]; split; [done|by right]].
    intros [E [Hn|Hf]]; [|done]. destruct Hn. by eapply elem_of_attachments.
  - intros t k a. unfold orgDetachAll.
    destruct (fold_detach (λ b, String.eqb (TargetId b) t) (λ _ b, String.eqb (TargetId b) t) (attachments o) o) as [_ Hd];
      [done|done|by apply attachments_bars|].
    rewrite Hd, String.eqb_neq. split; [|intros [E Hf]; split; [done|by right]].
    intros [E [Hn|Hf]]; [|done]. destruct Hn. by eapply elem_of_attachments.
Qed.

Lemma entities_keep_a_control_policy_witness :
  orgSCPsAttachedTo (detach w_org (MkAttachment "p-region" "ou-1")) "ou-1" ≠ [] ∧
  orgPolicyAttachments (orgDisableSCPs w_org orgRootID) !! orgAttachmentKey "p-region" "ou-1" = None.
Proof.
  destruct (entities_keep_a_control_policy w_org orgRootID) as (_ & _ & Hdet & Hdis & _).
  - intros k a E. apply elem_of_list_to_map_2, list_elem_of_fmap in E as ([p t] & [= -> ->] & Hin). split; [done|]. simpl.
    assert (Forall (λ x, existsb (Ascii.eqb bar) (chars x.1) = false)
      [(orgFullAWSAccessPolicyID, orgRootID); (orgFullAWSAccessPolicyID, "ou-1"); ("p-region", "ou-1"); (orgFullAWSAccessPolicyID, "210987654321")]) as Hb
      by (repeat constructor).
    rewrite Forall_forall in Hb. apply Hb in Hin. apply no_bar, Hin.
  - by eexists.
  - split.
    + assert (orgSCPTargets w_org = [orgRootID; "ou-1"; "210987654321"]) as HT by (vm_compute; reflexivity).
      rewrite HT in Hdet. apply (Hdet "p-region" "ou-1"); [by apply no_bar|vm_compute; reflexivity|vm_compute; reflexivity| |right; left].
      assert (Forall (λ t, length (orgSCPsAttachedTo w_org t) ≠ 0%nat) [orgRootID; "ou-1"; "210987654321"]) as Hall
        by (repeat constructor; vm_compute; discriminate).
      intros t Ht E. rewrite Forall_forall in Hall. apply (Hall t Ht). by rewrite E.
    + destruct (_ !! _) as [a|] eqn:E; [|done]. apply Hdis in E as [E1 E2]. vm_compute in E1. injection E1 as <-. by vm_compute in E2.
Defined.
