(* ===== verification/Authz.v ===== *)
(** * Authorization: [src/simulator-aws/iam_enforcement.go]

    How the policies that govern a request combine: service control policies,
    identity-based policies, the resource's policy, the permissions boundary and
    the session's policies, within an account and across accounts, and what a
    refusal reports. The stores it reads are finite maps. The caller behind an
    access key and the condition context of a request are arguments; the parser
    of a policy document is a parameter. *)

From S2P Require Import Prelude Gostd Wildcard Utf8 Iam Org.

(** ** The caller and the refusal *)

Record iamCaller := MkCaller {
  c_Arn : string; c_UserName : string; c_Identity : list iamPolicyDoc; c_Unrestricted : bool;
  c_Boundary : list iamPolicyDoc; c_SessionCaps : bool; c_Session : list iamPolicyDoc;
  c_Federated : bool; c_EntityArn : string; c_SessionToken : bool; c_MFA : bool; c_Account : string; c_Root : bool;
  c_ServiceLinked : bool; c_SourceIdentity : string
}.

Inductive iamPolicyKind :=
| iamIdentityBasedPolicy | iamResourceBasedPolicy | iamRoleTrustPolicy
| iamPermissionsBoundary | iamSessionPolicy | iamServiceControlPolicy.

Record iamDenial := MkDenial {
  d_Principal : string; d_Action : string; d_Policy : iamPolicyKind; d_Explicit : bool;
  d_Resource : string; d_Context : list (string * list string)
}.

Definition iamPolicyKindPhrases (k : iamPolicyKind) : string * string :=
  match k with
  | iamIdentityBasedPolicy => ("identity-based policy", "an identity-based policy")
  | iamResourceBasedPolicy => ("resource-based policy", "a resource-based policy")
  | iamRoleTrustPolicy => ("role trust policy", "the role trust policy")
  | iamPermissionsBoundary => ("permissions boundary", "a permissions boundary")
  | iamSessionPolicy => ("session policy", "a session policy")
  | iamServiceControlPolicy => ("service control policy", "a service control policy")
  end.

Definition iamDenial_head (d : iamDenial) : string :=
  let head := "User: " +:+ d_Principal d +:+ " is not authorized to perform: " +:+ d_Action d in
  if negb (String.eqb (d_Resource d) "") && negb (String.eqb (d_Resource d) "*") then head +:+ " on resource: " +:+ d_Resource d else head.

Definition iamDenial_message (d : iamDenial) : string :=
  let phrases := iamPolicyKindPhrases (d_Policy d) in
  if d_Explicit d then iamDenial_head d +:+ " with an explicit deny in " +:+ phrases.2
  else iamDenial_head d +:+ " because no " +:+ phrases.1 +:+ " allows the " +:+ d_Action d +:+ " action".

Definition iamTrustGatedAction (action : string) : bool :=
  String.eqb action "sts:AssumeRole" || String.eqb action "sts:TagSession" || String.eqb action "sts:SetSourceIdentity".

Definition iamResourcePolicyKindFor (action : string) : iamPolicyKind :=
  if iamTrustGatedAction action then iamRoleTrustPolicy else iamResourceBasedPolicy.

(** ** Accounts and resources *)

Record IAMRole := MkRole { r_Arn : string; r_AssumeRolePolicyDocument : string }.

(** The stores: the organization, the accounts that left it, the owners of
    buckets, resource policies by ARN and the roles of each account. *)
Record World := MkWorld {
  awsAccountID : string; org : Org; orgStandaloneAccounts : gmap string string;
  s3Buckets : gmap string string; iamResourcePolicies : gmap string string;
  iamRoles : gmap (string * string) IAMRole
}.

Section Authz.
Context `{!Unicode, !Parsers} (awsRegion : string) (parseIAMPolicy : string → option iamPolicyDoc) (w : World).
Abbreviation context := (list (string * list string)).

Definition iamIsManagementAccount (account : string) : bool := String.eqb account "" || String.eqb account (awsAccountID w).

Definition iamHostedAccount (account : string) : bool :=
  (if iamIsManagementAccount account then false
   else match orgAccounts (org w) !! account, orgStandaloneAccounts w !! account with None, None => false | _, _ => true end)
  || iamIsManagementAccount account.

Definition iamOrganizationMember (account : string) : bool :=
  if negb (orgOrg (org w)) then false
  else if iamIsManagementAccount account then true
  else match orgAccounts (org w) !! account with Some _ => true | None => false end.

Definition iamArnAccount (arn : string) : string :=
  match SplitN arn ":" 6 with [_; _; _; _; acct; _] => acct | _ => "" end.

Definition iamResourceOwnerAccount (arn : string) : string :=
  let acct := iamArnAccount arn in
  if negb (String.eqb acct "") then acct
  else match CutPrefix arn "arn:aws:s3:::" with
       | None => ""
       | Some rest =>
           let bucket := match Cut rest "/" with Some (b, _) => b | None => rest end in
           match s3Buckets w !! bucket with
           | None => ""
           | Some owner => if negb (String.eqb owner "") then owner else awsAccountID w
           end
       end.

Definition iamCrossAccount (principalArn resource : string) : bool :=
  let caller := iamArnAccount principalArn in
  if String.eqb caller "" then false
  else if match CutPrefix resource "arn:aws:organizations::" with
          | Some organizations => iamOrganizationMember caller || ContainsStr organizations ":handshake/"
          | None => false
          end then false
  else let owner := iamResourceOwnerAccount resource in
  if String.eqb owner "" || String.eqb owner caller || String.eqb owner "aws" then false
  else if iamIsManagementAccount caller then negb (iamIsManagementAccount owner) && iamHostedAccount owner
  else true.

Definition iamResourcePolicyDocsForARN (arn : string) : list iamPolicyDoc :=
  if String.eqb arn "" then []
  else match iamResourcePolicies w !! arn with
       | None => []
       | Some policy =>
           if String.eqb policy "" then []
           else match parseIAMPolicy policy with Some doc => [doc] | None => [] end
       end.

Definition iamIsRoleARN (v : string) : bool := HasPrefix v "arn:aws:iam::" && ContainsStr v ":role/".

Definition iamRoleTrustDocs (roleArn : string) : list iamPolicyDoc :=
  let acct := iamArnAccount roleArn in
  if negb (iamIsRoleARN roleArn) then []
  else match iamRoles w !! (acct, iamRoleNameFromArn roleArn) with
       | None => []
       | Some role =>
           if negb (String.eqb (r_Arn role) roleArn) then []
           else match parseIAMPolicy (r_AssumeRolePolicyDocument role) with Some trust => [trust] | None => [] end
       end.

(** [attributes] are the [Attributes] of the request's body, where it has one
    that parses. *)
Definition iamRootManagesOwnPolicy (attributes : option (gmap string string)) (action resource principalArn : string) : bool :=
  let owner := iamResourceOwnerAccount resource in
  if String.eqb owner "" || negb (String.eqb principalArn ("arn:aws:iam::" +:+ owner +:+ ":root")) then false
  else if String.eqb action "s3:GetBucketPolicy" || String.eqb action "s3:PutBucketPolicy" || String.eqb action "s3:DeleteBucketPolicy" ||
          String.eqb action "sqs:GetQueueUrl" || String.eqb action "sqs:GetQueueAttributes" then true
  else if String.eqb action "sqs:SetQueueAttributes"
  then match attributes with
       | None => false
       | Some m => (size m =? 1)%nat && match m !! "Policy" with Some policy => String.eqb policy "" | None => false end
       end
  else false.

(** An object's policy is its bucket's. *)
Definition policy_arn (resource : string) : string :=
  match CutPrefix resource "arn:aws:s3:::" with
  | None => resource
  | Some rest => match Cut rest "/" with Some (bucket, _) => "arn:aws:s3:::" +:+ bucket | None => resource end
  end.

Definition resource_docs (attributes : option (gmap string string)) (action resource principalArn : string) : list iamPolicyDoc :=
  let rdocs := iamResourcePolicyDocsForARN (policy_arn resource) in
  let rdocs := if iamRootManagesOwnPolicy attributes action resource principalArn then [] else rdocs in
  if iamTrustGatedAction action then rdocs ++ iamRoleTrustDocs resource else rdocs.

(** ** The decision *)

Definition decide_on (docs : list iamPolicyDoc) (action resource : string) (ctx : context) : decision :=
  (iamEvalDecision awsRegion docs action resource ctx).1.

(** The resource's part: a refusal, or whether it allows and whether directly. *)
Definition resource_decision (attributes : option (gmap string string)) (caller : iamCaller) (action resource : string) (ctx : context)
    : option (bool * bool) :=
  if String.eqb resource "*" then Some (false, false)
  else match resource_docs attributes action resource (c_Arn caller) with
  | [] => Some (false, false)
  | rdocs =>
      let '(rdec, _, direct) := iamEvalResourceDecision awsRegion rdocs action resource (c_Arn caller) (c_EntityArn caller) ctx in
      match rdec with
      | explicitDeny => None
      | allowed => Some (true, direct)
      | implicitDeny =>
          Some (iamCrossAccount (c_Arn caller) resource && iamResourcePolicyAdmitsAccount awsRegion rdocs action resource (c_Arn caller) ctx, direct)
      end
  end.

Definition iamAuthorizeDenial (caller : option iamCaller) (ctx : context) (attributes : option (gmap string string)) (action resource : string)
    : option (iamDenial * bool * bool) :=
  match caller with
  | None => Some (MkDenial "" action iamIdentityBasedPolicy false "" [], false, false)
  | Some caller =>
      let refuse policy explicit := Some (MkDenial (c_Arn caller) action policy explicit resource ctx, false, true) in
      let permit := Some (MkDenial (c_Arn caller) action iamIdentityBasedPolicy false resource ctx, true, true) in
      match orgSCPDecision awsRegion parseIAMPolicy (org w) (iamIsManagementAccount (c_Account caller) || c_ServiceLinked caller)
              (c_Account caller) action resource ctx with
      | None => None
      | Some explicitDeny => refuse iamServiceControlPolicy true
      | Some implicitDeny => refuse iamServiceControlPolicy false
      | Some allowed =>
          let identity := decide_on (c_Identity caller) action resource ctx in
          if bool_decide (identity = explicitDeny) then refuse iamIdentityBasedPolicy true else
          let identityAllows := bool_decide (identity = allowed) || c_Unrestricted caller in
          match resource_decision attributes caller action resource ctx with
          | None => refuse (iamResourcePolicyKindFor action) true
          | Some (resourceAllows, resourceDirect) =>
              let boundary := match c_Boundary caller with [] => allowed | docs => decide_on docs action resource ctx end in
              if bool_decide (boundary = explicitDeny) then refuse iamPermissionsBoundary true else
              let session := if c_SessionCaps caller then decide_on (c_Session caller) action resource ctx else allowed in
              if bool_decide (session = explicitDeny) then refuse iamSessionPolicy true else
              let crossAccount := negb (String.eqb action "sts:AssumeRoot") && iamCrossAccount (c_Arn caller) resource in
              if crossAccount && negb identityAllows then refuse iamIdentityBasedPolicy false
              else if crossAccount && negb resourceAllows then refuse (iamResourcePolicyKindFor action) false
              else if negb crossAccount && resourceDirect then permit
              else if negb identityAllows && negb resourceAllows then refuse iamIdentityBasedPolicy false
              else if negb (bool_decide (boundary = allowed)) then refuse iamPermissionsBoundary false
              else if negb (bool_decide (session = allowed)) then refuse iamSessionPolicy false
              else permit
          end
      end
  end.
End Authz.

(** ** What the policies say *)

Section Combined.
Context `{!Unicode, !Parsers} (awsRegion : string) (parseIAMPolicy : string → option iamPolicyDoc) (w : World).
Context (caller : iamCaller) (ctx : list (string * list string)) (attributes : option (gmap string string)) (action resource : string).

(** Some statement of the documents denies, grants, or grants by name; a
    resource's policy is read for the caller, the others for nobody in
    particular. *)
Definition says (f : iamStatement → bool) (docs : list iamPolicyDoc) : bool := existsb f (mjoin (Statement <$> docs)).
Definition denied := says (denies awsRegion action resource "" "" ctx).
Definition granted := says (grants awsRegion action resource "" "" ctx).

Definition rdocs : list iamPolicyDoc :=
  if String.eqb resource "*" then [] else resource_docs parseIAMPolicy w attributes action resource (c_Arn caller).
Definition resource_denied : bool := says (denies awsRegion action resource (c_Arn caller) (c_EntityArn caller) ctx) rdocs.
Definition resource_granted : bool := says (grants awsRegion action resource (c_Arn caller) (c_EntityArn caller) ctx) rdocs.
Definition resource_names : bool := says (grants_by_name awsRegion action resource (c_Arn caller) (c_EntityArn caller) ctx) rdocs.

Definition identity_allows : bool := granted (c_Identity caller) || c_Unrestricted caller.
Definition resource_allows : bool :=
  resource_granted ||
  iamCrossAccount w (c_Arn caller) resource && iamResourcePolicyAdmitsAccount awsRegion rdocs action resource (c_Arn caller) ctx.
Definition boundary_allows : bool := bool_decide (c_Boundary caller = []) || granted (c_Boundary caller).
Definition session_allows : bool := negb (c_SessionCaps caller) || granted (c_Session caller).
Definition session_denied : bool := c_SessionCaps caller && denied (c_Session caller).
Definition cross : bool := negb (String.eqb action "sts:AssumeRoot") && iamCrossAccount w (c_Arn caller) resource.

(** Nothing that governs the request denies it. *)
Definition not_denied : Prop :=
  denied (c_Identity caller) = false ∧ resource_denied = false ∧ denied (c_Boundary caller) = false ∧ session_denied = false.

(** Within an account a policy that names the caller suffices, and otherwise one
    of both sides must allow within the boundary and the session; across
    accounts both sides must. *)
Definition permitted : Prop :=
  if cross then identity_allows = true ∧ resource_allows = true ∧ boundary_allows = true ∧ session_allows = true
  else resource_names = true ∨
       ((identity_allows = true ∨ resource_allows = true) ∧ boundary_allows = true ∧ session_allows = true).

(** What a refusal reports is so. *)
Definition reported (scp : decision) (d : iamDenial) : Prop :=
  match d_Policy d, d_Explicit d with
  | iamServiceControlPolicy, true => scp = explicitDeny
  | iamServiceControlPolicy, false => scp = implicitDeny
  | iamIdentityBasedPolicy, true => denied (c_Identity caller) = true
  | iamIdentityBasedPolicy, false => identity_allows = false
  | iamResourceBasedPolicy, true | iamRoleTrustPolicy, true => resource_denied = true
  | iamResourceBasedPolicy, false | iamRoleTrustPolicy, false => resource_allows = false
  | iamPermissionsBoundary, true => denied (c_Boundary caller) = true
  | iamPermissionsBoundary, false => boundary_allows = false
  | iamSessionPolicy, true => session_denied = true
  | iamSessionPolicy, false => session_allows = false
  end.

Lemma decide_on_spec docs :
  decide_on awsRegion docs action resource ctx = if denied docs then explicitDeny else if granted docs then allowed else implicitDeny.
Proof.
  unfold decide_on, iamEvalDecision, iamEvalDecisionForPrincipal. pose proof (decision_spec awsRegion action resource "" "" ctx docs) as E.
  destruct (iamEvalResourceDecision _ _ _ _ _ _ _) as [[d m] b]. cbv zeta in E. simpl in *. unfold denied, granted, says.
  destruct (existsb _ _); [by injection E|]. destruct (existsb _ _); by injection E.
Qed.

(** A decision's two tests. *)
Lemma decision_tests (d g : bool) :
  bool_decide ((if d then explicitDeny else if g then allowed else implicitDeny) = explicitDeny) = d ∧
  bool_decide ((if d then explicitDeny else if g then allowed else implicitDeny) = allowed) = negb d && g.
Proof. by destruct d, g. Qed.

Lemma boundary_spec :
  match c_Boundary caller with [] => allowed | docs => decide_on awsRegion docs action resource ctx end =
  if denied (c_Boundary caller) then explicitDeny else if boundary_allows then allowed else implicitDeny.
Proof. unfold boundary_allows. destruct (c_Boundary caller) as [|doc docs]; [done|]. apply decide_on_spec. Qed.

Lemma session_spec :
  (if c_SessionCaps caller then decide_on awsRegion (c_Session caller) action resource ctx else allowed) =
  if session_denied then explicitDeny else if session_allows then allowed else implicitDeny.
Proof. unfold session_denied, session_allows. destruct (c_SessionCaps caller); [apply decide_on_spec|done]. Qed.

Lemma resource_decision_spec :
  resource_decision awsRegion parseIAMPolicy w attributes caller action resource ctx =
    if resource_denied then None else Some (resource_allows, resource_names).
Proof.
  unfold resource_decision, resource_denied, resource_allows, resource_names, resource_granted, rdocs.
  destruct (String.eqb resource "*"); [by unfold says, iamResourcePolicyAdmitsAccount; simpl; rewrite andb_false_r|].
  destruct (resource_docs _ _ _ _ _ _) as [|doc docs]; [by unfold says, iamResourcePolicyAdmitsAccount; simpl; rewrite andb_false_r|].
  pose proof (decision_spec awsRegion action resource (c_Arn caller) (c_EntityArn caller) ctx (doc :: docs)) as E.
  destruct (iamEvalResourceDecision _ _ _ _ _ _ _) as [[d m] b]. cbv zeta in E. cbn [fst snd] in E. unfold says.
  set (stmts := mjoin (Statement <$> doc :: docs)) in *.
  destruct (existsb (denies _ _ _ _ _ _) stmts); [by injection E as -> ->|].
  destruct (existsb (grants awsRegion action resource (c_Arn caller) (c_EntityArn caller) ctx) stmts) eqn:Eg; injection E as -> ->; simpl; [done|].
  do 2 f_equal. symmetry. apply not_true_iff_false. intros (stmt & Hin & Hn)%existsb_elem.
  unfold grants_by_name in Hn. apply andb_true_iff in Hn as [Hn _]. rewrite (proj2 (existsb_elem _ _)) in Eg; [done|eauto].
Qed.
End Combined.

(** [C17] A request of a registered caller is authorized exactly as the policy
    evaluation logic says: the service control policies allow it, no statement
    of an identity, resource, boundary or session policy that applies denies it,
    and it is granted: across accounts by the caller's own policies and the
    resource's both, within an account by either, inside the permissions
    boundary and the session policies, or by a resource policy that names the
    caller. A refusal reports a policy that did refuse, and explicitly only when
    a statement denied. *)
Theorem authorization_combines_policies `{!Unicode, !Parsers} (awsRegion : string) (parseIAMPolicy : string → option iamPolicyDoc) (w : World)
    (caller : iamCaller) (ctx : list (string * list string)) (attributes : option (gmap string string)) (action resource : string) (scp : decision) :
  orgSCPDecision awsRegion parseIAMPolicy (org w) (iamIsManagementAccount w (c_Account caller) || c_ServiceLinked caller)
    (c_Account caller) action resource ctx = Some scp →
  ∃ d ok, iamAuthorizeDenial awsRegion parseIAMPolicy w (Some caller) ctx attributes action resource = Some (d, ok, true) ∧
    (ok = true ↔ scp = allowed ∧ not_denied awsRegion parseIAMPolicy w caller ctx attributes action resource ∧
                 permitted awsRegion parseIAMPolicy w caller ctx attributes action resource) ∧
    (ok = false → reported awsRegion parseIAMPolicy w caller ctx attributes action resource scp d).
Proof.
  intros Hscp. unfold iamAuthorizeDenial. rewrite Hscp.
  destruct scp; [eexists _, _; split; [done|]; naive_solver| |eexists _, _; split; [done|]; naive_solver].
  rewrite resource_decision_spec, boundary_spec, session_spec, decide_on_spec.
  destruct (decision_tests (denied awsRegion ctx action resource (c_Identity caller)) (granted awsRegion ctx action resource (c_Identity caller))) as [-> ->].
  destruct (decision_tests (denied awsRegion ctx action resource (c_Boundary caller)) (boundary_allows awsRegion caller ctx action resource)) as [-> ->].
  destruct (decision_tests (session_denied awsRegion caller ctx action resource) (session_allows awsRegion caller ctx action resource)) as [-> ->].
  fold (cross w caller action resource). unfold not_denied, permitted, reported.
  set (identity := identity_allows awsRegion caller ctx action resource).
  destruct (denied awsRegion ctx action resource (c_Identity caller)); [eexists _, _; split; [done|]; naive_solver|].
  change (negb false && granted awsRegion ctx action resource (c_Identity caller) || c_Unrestricted caller) with identity.
  unfold iamResourcePolicyKindFor.
  destruct (resource_denied _ _ _ _ _ _ _ _); [eexists _, _; split; [done|]; simpl; destruct (iamTrustGatedAction action); naive_solver|].
  destruct (denied awsRegion ctx action resource (c_Boundary caller)); [eexists _, _; split; [done|]; naive_solver|].
  destruct (session_denied _ _ _ _ _); [eexists _, _; split; [done|]; naive_solver|]. simpl negb. cbn [andb].
  destruct (cross w caller action resource), identity, (resource_allows _ _ _ _ _ _ _ _), (resource_names _ _ _ _ _ _ _ _),
    (boundary_allows _ _ _ _ _), (session_allows _ _ _ _ _), (iamTrustGatedAction action);
    cbn; eexists _, _; (split; [reflexivity|]); naive_solver.
Qed.

(** A user of the management account whose boundary covers reads only. *)
Definition w_world : World := MkWorld "123456789012" (MkOrg false ∅ ∅ ∅ ∅ ∅) ∅ {[ "b" := "" ]} ∅ ∅.
Definition w_caller : iamCaller :=
  MkCaller "arn:aws:iam::123456789012:user/ann" "ann" [MkDoc "" [w_allow]] false
    [MkDoc "" [statement "Allow" ["s3:Get*"] ["*"] no_principal []]] false [] false "" false false "123456789012" false false "".

Lemma authorization_combines_policies_witness :
  let auth action := iamAuthorizeDenial (H := ascii_unicode) (H0 := decimal_parsers) "us-east-1" w_policy w_world (Some w_caller) w_ctx None action "arn:aws:s3:::b/ann/x" in
  (∃ d, auth "s3:GetObject" = Some (d, true, true)) ∧
  ∃ d, auth "s3:PutObject" = Some (d, false, true) ∧ d_Policy d = iamPermissionsBoundary.
Proof.
  intros auth. split.
  - destruct (authorization_combines_policies (H := ascii_unicode) (H0 := decimal_parsers) "us-east-1" w_policy w_world w_caller w_ctx None
      "s3:GetObject" "arn:aws:s3:::b/ann/x" allowed) as (d & ok & E & Hok & _); [by vm_compute|].
    exists d. unfold auth. rewrite E. do 2 f_equal. f_equal. apply Hok. split; [done|]. split; [split_and!; vm_compute; reflexivity|].
    right. split; [left; vm_compute; reflexivity|split; vm_compute; reflexivity].
  - destruct (authorization_combines_policies (H := ascii_unicode) (H0 := decimal_parsers) "us-east-1" w_policy w_world w_caller w_ctx None
      "s3:PutObject" "arn:aws:s3:::b/ann/x" allowed) as (d & ok & E & Hok & Hr); [by vm_compute|].
    exists d. unfold auth. vm_compute in E. injection E as <- <-. by vm_compute.
Defined.
