(* ===== verification/Signals.v ===== *)
(** * Announcements: [src/sim/signals/signals.go], [src/sim/announcing.go]

    A table that wakes the goroutines waiting for a key, and the store that
    announces its writes to it. A channel is a number; making one counts up, and
    closing one adds it to a set. A goroutine inside [Await] and a writer between
    its write, its announcement and the closing of the channels it took are
    separate steps of a transition system, which interleaves any number of both. *)

From S2P Require Import Prelude Store.

(** ** The table *)

Record Keyed := MkKeyed { chans : nat; waiters : gmap string nat; any_chan : option nat }.

Definition NewKeyed : Keyed := MkKeyed 0 ∅ None.

Definition Changed (s : Keyed) (k : string) : Keyed * nat :=
  match waiters s !! k with
  | Some ch => (s, ch)
  | None => (MkKeyed (S (chans s)) (<[k:=chans s]> (waiters s)) (any_chan s), chans s)
  end.

Definition AnyChanged (s : Keyed) : Keyed * nat :=
  match any_chan s with
  | Some ch => (s, ch)
  | None => (MkKeyed (S (chans s)) (waiters s) (Some (chans s)), chans s)
  end.

(** The part under the lock, and the channels to close after it. *)
Definition Announce (s : Keyed) (k : string) : Keyed * list nat :=
  (MkKeyed (chans s) (delete k (waiters s)) None,
   match waiters s !! k with Some ch => [ch] | None => [] end ++ match any_chan s with Some ch => [ch] | None => [] end).

Definition AnnounceAll (s : Keyed) : Keyed * list nat :=
  (MkKeyed (chans s) ∅ None, (map_to_list (waiters s)).*2 ++ match any_chan s with Some ch => [ch] | None => [] end).

(** ** The announcing store *)

Inductive announcement := One_key (k : string) | All_keys.

Section Announcing.
Context {S T : Type} `{StoreSpec S T}.

Definition announcing_Put (s : S) (id : string) (item : T) : S * list announcement := (store_put s id item, [One_key id]).

Definition announcing_Delete (s : S) (id : string) : S * list announcement * bool :=
  let '(s, deleted) := store_delete s id in (s, if deleted : bool then [One_key id] else [], deleted).

Definition announcing_Update (s : S) (id : string) (fn : T → T) : S * list announcement * bool :=
  let '(s, updated) := store_update s id fn in (s, if updated : bool then [One_key id] else [], updated).

Definition announcing_Upsert (s : S) (id : string) (fn : T → T) : S * list announcement := (store_upsert s id fn, [One_key id]).

Definition announcing_Prune (s : S) (expired : T → bool) : S * list announcement * nat :=
  let '(s, pruned) := store_prune s expired in (s, if (0 <? pruned)%nat then [All_keys] else [], pruned).

Definition announcing_write (s : S) (x : store_write (T:=T)) : S * list announcement :=
  match x with
  | WPut id item => announcing_Put s id item
  | WDelete id => (announcing_Delete s id).1
  | WUpdate id fn => (announcing_Update s id fn).1
  | WUpsert id fn => announcing_Upsert s id fn
  | WPrune expired => (announcing_Prune s expired).1
  end.

(** ** Goroutines *)

(** Where a goroutine is in [Await]: taking the channel, about to call [ready],
    asleep, returned, or given up as its context ended. *)
Inductive pc := Taking | Checking (ch : nat) | Asleep (ch : nat) | Returned | GaveUp.

Record wait := MkWait { w_key : string; w_ready : option T → bool; w_pc : pc }.

Record Sys := MkSys {
  store : S; table : Keyed; closed : gset nat;
  announcing : list announcement;   (* writes done, announcements to make *)
  closing : list nat;               (* channels taken from the table, to close *)
  waits : list wait
}.

Definition set_pc (w : wait) (p : pc) : wait := MkWait (w_key w) (w_ready w) p.

(** One step of [Await]; [None] where it cannot go on. *)
Definition Await_step (s : Sys) (w : wait) : option (Keyed * pc) :=
  match w_pc w with
  | Taking => let '(t, ch) := Changed (table s) (w_key w) in Some (t, Checking ch)
  | Checking ch => Some (table s, if w_ready w (store_get (store s) (w_key w)) then Returned else Asleep ch)
  | Asleep ch => if bool_decide (ch ∈ closed s) then Some (table s, Taking) else None
  | Returned | GaveUp => None
  end.

Definition run_Await (s : Sys) (i : nat) : option Sys :=
  match waits s !! i with
  | None => None
  | Some w => match Await_step s w with
              | Some (t, p) => Some (MkSys (store s) t (closed s) (announcing s) (closing s) (<[i:=set_pc w p]> (waits s)))
              | None => None
              end
  end.

Definition take_announcement (t : Keyed) (a : announcement) : Keyed * list nat :=
  match a with One_key k => Announce t k | All_keys => AnnounceAll t end.

Inductive step : Sys → Sys → Prop :=
| step_write s x :
    let r := announcing_write (store s) x in
    step s (MkSys r.1 (table s) (closed s) (r.2 ++ announcing s) (closing s) (waits s))
| step_announce s l1 a l2 :
    announcing s = l1 ++ a :: l2 →
    let r := take_announcement (table s) a in
    step s (MkSys (store s) r.1 (closed s) (l1 ++ l2) (r.2 ++ closing s) (waits s))
| step_close s l1 ch l2 :
    closing s = l1 ++ ch :: l2 →
    step s (MkSys (store s) (table s) ({[ch]} ∪ closed s) (announcing s) (l1 ++ l2) (waits s))
| step_Await s i s' : run_Await s i = Some s' → step s s'
| step_start s k ready :
    step s (MkSys (store s) (table s) (closed s) (announcing s) (closing s) (waits s ++ [MkWait k ready Taking]))
| step_give_up s i w ch :
    waits s !! i = Some w → w_pc w = Asleep ch →
    step s (MkSys (store s) (table s) (closed s) (announcing s) (closing s) (<[i:=set_pc w GaveUp]> (waits s)))
| step_Any s :
    step s (MkSys (store s) (AnyChanged (table s)).1 (closed s) (announcing s) (closing s) (waits s)).

Inductive reachable (s0 : S) : Sys → Prop :=
| reach_start : reachable s0 (MkSys s0 NewKeyed ∅ [] [] [])
| reach_step s s' : reachable s0 s → step s s' → reachable s0 s'.
End Announcing.

(** ** Channels are closed once *)

(** A channel waiters of the table can still be given. *)
Definition live (t : Keyed) (ch : nat) : Prop := (∃ k, waiters t !! k = Some ch) ∨ any_chan t = Some ch.

Record channels_ok (t : Keyed) (closed : gset nat) (closing : list nat) : Prop := {
  ch_made ch : live t ch ∨ ch ∈ closing ∨ ch ∈ closed → (ch < chans t)%nat;
  ch_key k k' ch : waiters t !! k = Some ch → waiters t !! k' = Some ch → k = k';
  ch_any k ch : any_chan t = Some ch → waiters t !! k ≠ Some ch;
  ch_live ch : live t ch → ch ∉ closing ∧ ch ∉ closed;
  ch_once : NoDup closing;
  ch_open ch : ch ∈ closing → ch ∉ closed
}.

Lemma channels_start : channels_ok NewKeyed ∅ [].
Proof.
  assert (∀ ch, ¬ live NewKeyed ch) as Hl by (intros ch [[k [=]]|[=]]).
  split; [|done..| |constructor|by intros ch ?%elem_of_nil].
  - intros ch [?%Hl|[?%elem_of_nil|?%elem_of_empty]]; done.
  - by intros ch ?%Hl.
Qed.

Lemma channels_Changed t closed closing k :
  channels_ok t closed closing → let r := Changed t k in
  channels_ok r.1 closed closing ∧ waiters r.1 !! k = Some r.2 ∧ ∀ k' ch, waiters t !! k' = Some ch → waiters r.1 !! k' = Some ch.
Proof.
  intros Hok. unfold Changed. destruct (waiters t !! k) as [ch|] eqn:E; [done|]. simpl.
  assert (Hnew : ∀ ch, live t ch ∨ ch ∈ closing ∨ ch ∈ closed → ch ≠ chans t) by (intros ch Hc ->; apply (ch_made _ _ _ Hok) in Hc; lia).
  assert (Hlive : ∀ ch, live (MkKeyed (S (chans t)) (<[k:=chans t]> (waiters t)) (any_chan t)) ch → ch = chans t ∨ live t ch).
  { unfold live. simpl. intros ch [[k' [[-> <-]|[_ Hk]]%lookup_insert_Some]|Ha]; [by left|right; left; eauto|right; by right]. }
  split_and!; [split|by rewrite lookup_insert_eq|].
  - intros ch [[->|Hl]%Hlive|Hc]; simpl; [lia|..].
    + pose proof (ch_made _ _ _ Hok ch (or_introl Hl)). lia.
    + pose proof (ch_made _ _ _ Hok ch (or_intror Hc)). lia.
  - simpl. intros k1 k2 ch [[<- <-]|[Hn1 H1]]%lookup_insert_Some [[<- E2]|[Hn2 H2]]%lookup_insert_Some.
    + done.
    + exfalso. apply (Hnew (chans t)); [left; left; eauto|done].
    + subst. exfalso. apply (Hnew (chans t)); [left; left; eauto|done].
    + by eapply (ch_key _ _ _ Hok).
  - simpl. intros k' ch Ha [[_ E']|[_ Hk']]%lookup_insert_Some; [|by eapply (ch_any _ _ _ Hok)].
    apply (Hnew ch); [left; by right|done].
  - intros ch [->|Hl]%Hlive; [|by apply (ch_live _ _ _ Hok)].
    split; intros Hc; apply (Hnew (chans t)); auto.
  - apply (ch_once _ _ _ Hok).
  - apply (ch_open _ _ _ Hok).
  - intros k' ch Hk'. rewrite lookup_insert_ne; [done|]. intros ->. congruence.
Qed.

Lemma channels_Any t closed closing : channels_ok t closed closing → channels_ok (AnyChanged t).1 closed closing ∧ waiters (AnyChanged t).1 = waiters t.
Proof.
  intros Hok. unfold AnyChanged. destruct (any_chan t) as [ch|] eqn:E; [done|]. simpl. split; [|done].
  assert (Hnew : ∀ ch, live t ch ∨ ch ∈ closing ∨ ch ∈ closed → ch ≠ chans t) by (intros ch Hc ->; apply (ch_made _ _ _ Hok) in Hc; lia).
  assert (Hlive : ∀ ch, live (MkKeyed (S (chans t)) (waiters t) (Some (chans t))) ch → ch = chans t ∨ live t ch).
  { intros ch [Hk|[= <-]]; [right; by left|by left]. }
  split.
  - intros ch [[->|Hl]%Hlive|Hc]; simpl; [lia|..].
    + pose proof (ch_made _ _ _ Hok ch (or_introl Hl)). lia.
    + pose proof (ch_made _ _ _ Hok ch (or_intror Hc)). lia.
  - apply (ch_key _ _ _ Hok).
  - simpl. intros k ch [= <-] Hk. apply (Hnew (chans t)); [left; left; eauto|done].
  - intros ch [->|Hl]%Hlive; [|by apply (ch_live _ _ _ Hok)]. split; intros Hc; apply (Hnew (chans t)); auto.
  - apply (ch_once _ _ _ Hok).
  - apply (ch_open _ _ _ Hok).
Qed.

Lemma take_NoDup t closed closing a : channels_ok t closed closing → NoDup (take_announcement t a).2.
Proof.
  intros Hok. destruct a as [k|]; simpl; apply NoDup_app; split_and!.
  - destruct (waiters t !! k); [apply NoDup_singleton|constructor].
  - intros ch Hc Ha. destruct (waiters t !! k) eqn:E; [|by apply elem_of_nil in Hc]. apply list_elem_of_singleton in Hc as ->.
    destruct (any_chan t) eqn:Ea; [|by apply elem_of_nil in Ha]. apply list_elem_of_singleton in Ha as ->. by apply (ch_any _ _ _ Hok k) in Ea.
  - destruct (any_chan t); [apply NoDup_singleton|constructor].
  - apply NoDup_fmap_2_strong; [|apply NoDup_map_to_list]. intros [k ch] [k' ch'] H1%elem_of_map_to_list H2%elem_of_map_to_list. simpl.
    intros ->. f_equal. by eapply (ch_key _ _ _ Hok).
  - intros ch ([k ch'] & -> & Hin%elem_of_map_to_list)%list_elem_of_fmap Ha. simpl in Ha.
    destruct (any_chan t) eqn:Ea; [|by apply elem_of_nil in Ha]. apply list_elem_of_singleton in Ha as ->. by apply (ch_any _ _ _ Hok k) in Ea.
  - destruct (any_chan t); [apply NoDup_singleton|constructor].
Qed.

(** An announcement takes channels out of the table; every one it takes was
    live, and it takes each once. *)
Lemma channels_take t closed closing a :
  channels_ok t closed closing → let r := take_announcement t a in
  channels_ok r.1 closed (r.2 ++ closing) ∧
  (∀ k ch, waiters t !! k = Some ch → waiters r.1 !! k = Some ch ∧ a ≠ All_keys ∧ a ≠ One_key k ∨ ch ∈ r.2).
Proof.
  intros Hok r. assert (Ht : ∀ ch, ch ∈ r.2 → live t ch ∧ ¬ live r.1 ch).
  { intros ch. unfold r. destruct a as [k|]; simpl; rewrite elem_of_app; intros Hch.
    - assert (live t ch ∧ (waiters t !! k = Some ch ∨ any_chan t = Some ch)) as [Hl Hw].
      { destruct Hch as [Hc|Hc]; [destruct (waiters t !! k) eqn:E|destruct (any_chan t) eqn:E]; try (by apply elem_of_nil in Hc);
          apply list_elem_of_singleton in Hc as ->; split; auto; [left; eauto|by right]. }
      split; [done|]. unfold live. simpl. intros [[k' [Hn Hk']%lookup_delete_Some]|[=]]. destruct Hw as [Hw|Hw].
      + by apply Hn, (ch_key _ _ _ Hok k k' ch).
      + by apply (ch_any _ _ _ Hok k' ch).
    - split; [|intros [[k' [=]]|[=]]]. destruct Hch as [([k ch'] & -> & Hin%elem_of_map_to_list)%list_elem_of_fmap|Hc]; [left; eauto|].
      right. destruct (any_chan t); [by apply list_elem_of_singleton in Hc as ->|by apply elem_of_nil in Hc]. }
  assert (Hsub : ∀ ch, live r.1 ch → live t ch).
  { intros ch. unfold r, live. destruct a as [k|]; simpl.
    - intros [[k' [_ Hk']%lookup_delete_Some]|[=]]. left; eauto.
    - intros [[k' [=]]|[=]]. }
  assert (Hc : chans r.1 = chans t) by (unfold r; by destruct a).
  split; [split|].
  - intros ch. rewrite Hc, elem_of_app. intros [Hl%Hsub|[[Hr%Ht|Hr]|Hr]]; apply (ch_made _ _ _ Hok); [by left|left; apply Hr|auto|auto].
  - intros k k' ch. unfold r. destruct a as [k0|]; simpl; [|done]. intros [_ H1]%lookup_delete_Some [_ H2]%lookup_delete_Some.
    by eapply (ch_key _ _ _ Hok).
  - intros k ch. unfold r. by destruct a.
  - intros ch Hl. destruct (ch_live _ _ _ Hok ch (Hsub ch Hl)) as [H1 H2]. split; [|done]. rewrite elem_of_app. intros [[_ Hn]%Ht|Hn]; done.
  - apply NoDup_app. split_and!; [by eapply take_NoDup|intros ch [Hl _]%Ht; by apply (ch_live _ _ _ Hok)|apply (ch_once _ _ _ Hok)].
  - intros ch [[Hl _]%Ht|Hr]%elem_of_app; [by apply (ch_live _ _ _ Hok)|by apply (ch_open _ _ _ Hok)].
  - intros k ch Hk. unfold r. destruct a as [k0|]; simpl.
    + destruct (decide (k0 = k)) as [->|Hne]; [right; rewrite Hk; left|left]. rewrite lookup_delete_ne by done. split; [done|]. split; congruence.
    + right. apply elem_of_app. left. apply list_elem_of_fmap. exists (k, ch). by rewrite elem_of_map_to_list.
Qed.

Lemma channels_close t closed l1 ch l2 :
  channels_ok t closed (l1 ++ ch :: l2) → channels_ok t ({[ch]} ∪ closed) (l1 ++ l2).
Proof.
  intros Hok. assert (Hin : ∀ x, x ∈ l1 ++ ch :: l2 ↔ x = ch ∨ x ∈ l1 ++ l2) by (intros x; rewrite !elem_of_app, elem_of_cons; tauto).
  pose proof (ch_once _ _ _ Hok) as Hn. rewrite <- Permutation_middle in Hn. apply NoDup_cons in Hn as [Hch Hn].
  split; [|apply Hok|apply Hok| |done|].
  - intros x Hx. apply (ch_made _ _ _ Hok). rewrite Hin. rewrite elem_of_union, elem_of_singleton in Hx. tauto.
  - intros x Hl. destruct (ch_live _ _ _ Hok x Hl) as [H1 H2]. rewrite Hin in H1. rewrite elem_of_union, elem_of_singleton. tauto.
  - intros x Hx. rewrite elem_of_union, elem_of_singleton. intros [->|Hc]; [done|].
    apply (ch_open _ _ _ Hok x); [apply Hin; by right|done].
Qed.

(** ** Nobody sleeps through a write *)

Section Waiting.
Context {S T : Type} `{StoreSpec S T}.
Implicit Types (s : Sys (S:=S) (T:=T)) (w : wait (T:=T)).

(** The channel a goroutine holds will be closed, or is the one the next
    announcement of its key takes. *)
Definition held s (k : string) (ch : nat) : Prop := ch ∈ closed s ∨ ch ∈ closing s ∨ waiters (table s) !! k = Some ch.

(** Asleep, in addition: what it waits for does not hold, or an announcement of
    its key is to come. *)
Definition wait_ok s w : Prop :=
  match w_pc w with
  | Checking ch => held s (w_key w) ch
  | Asleep ch =>
      ch ∈ closed s ∨ ch ∈ closing s ∨
      waiters (table s) !! w_key w = Some ch ∧
      (w_ready w (contents (store s) !! w_key w) = false ∨ One_key (w_key w) ∈ announcing s ∨ All_keys ∈ announcing s)
  | _ => True
  end.

Record sys_ok s : Prop := {
  so_store : store_ok (store s);
  so_channels : channels_ok (table s) (closed s) (closing s);
  so_waits : Forall (wait_ok s) (waits s)
}.

(** A write changes a key's value only if it announces the key. *)
Lemma write_announces (st : S) x :
  store_ok st → let r := announcing_write st x in
  store_ok r.1 ∧ ∀ k, contents r.1 !! k = contents st !! k ∨ One_key k ∈ r.2 ∨ All_keys ∈ r.2.
Proof.
  intros Hok. destruct x as [id item|id|id fn|id fn|expired]; simpl.
  - destruct (put_spec st id item Hok) as [Hok' E]. split; [done|]. intros k. rewrite E, lookup_insert. case_decide as Hk; [|by left].
    subst. right; left. by left.
  - unfold announcing_Delete. destruct (delete_spec st id Hok) as (Hok' & E & Eb). destruct (store_delete st id) as [st' b]. simpl in *.
    split; [done|]. intros k. rewrite E, lookup_delete. case_decide as Hk; [|by left]. subst k.
    destruct (contents st !! id) eqn:Ei; subst b; [|by left]. right; left. by left.
  - unfold announcing_Update. destruct (update_spec st id fn Hok) as (Hok' & E & Eb). destruct (store_update st id fn) as [st' b]. simpl in *.
    split; [done|]. intros k. rewrite E. destruct (decide (k = id)) as [->|Hk]; [|left; by rewrite lookup_alter_ne].
    rewrite lookup_alter_eq. destruct (contents st !! id) eqn:Ei; subst b; [|by left]. right; left. by left.
  - destruct (upsert_spec st id fn Hok) as [Hok' E]. split; [done|]. intros k. rewrite E, lookup_insert. case_decide as Hk; [|by left].
    subst. right; left. by left.
  - unfold announcing_Prune. destruct (prune_spec st expired Hok) as (Hok' & E & En). destruct (store_prune st expired) as [st' n]. simpl in *.
    split; [done|]. intros k. destruct (Nat.ltb_spec 0 n) as [Hn|Hn]; [right; right; by left|left].
    rewrite E, map_lookup_filter. destruct (contents st !! k) as [v|] eqn:Ek; [|done]. simpl.
    destruct (expired v) eqn:Ex; [|by rewrite option_guard_True].
    exfalso. assert (filter (λ kv, expired kv.2 = true) (contents st) !! k = Some v) as Hk by (apply map_lookup_filter_Some; done).
    assert (size (filter (λ kv, expired kv.2 = true) (contents st)) = 0%nat) as Hz by lia.
    apply map_size_empty_iff in Hz. rewrite Hz in Hk. done.
Qed.

(** What a step of others may do to a goroutine. *)
Record keeps s s' : Prop := {
  kp_closed ch : ch ∈ closed s ∨ ch ∈ closing s → ch ∈ closed s' ∨ ch ∈ closing s';
  kp_table k ch : waiters (table s) !! k = Some ch →
    waiters (table s') !! k = Some ch ∧ (One_key k ∈ announcing s ∨ All_keys ∈ announcing s → One_key k ∈ announcing s' ∨ All_keys ∈ announcing s')
    ∨ ch ∈ closed s' ∨ ch ∈ closing s';
  kp_store k : contents (store s') !! k = contents (store s) !! k ∨ One_key k ∈ announcing s' ∨ All_keys ∈ announcing s'
}.

Lemma wait_ok_keeps s s' w : keeps s s' → wait_ok s w → wait_ok s' w.
Proof.
  intros [Hc Ht Hs]. unfold wait_ok, held. destruct (w_pc w) as [|ch|ch| |]; [done| | |done..].
  - intros [Hw|[Hw|Hw]]; [specialize (Hc ch); tauto..|]. destruct (Ht _ _ Hw) as [[? _]|?]; tauto.
  - intros [Hw|[Hw|[Hw Hr]]]; [specialize (Hc ch); tauto..|]. destruct (Ht _ _ Hw) as [[Hw' Ha]|?]; [|tauto].
    right; right. split; [done|]. destruct (Hs (w_key w)) as [E|?]; [|tauto]. rewrite E. tauto.
Qed.

Lemma keeps_refl_waits s l : keeps s (MkSys (store s) (table s) (closed s) (announcing s) (closing s) l).
Proof. split; simpl; tauto. Qed.

Lemma sys_ok_keeps s s' :
  keeps s s' → waits s' = waits s → sys_ok s → store_ok (store s') → channels_ok (table s') (closed s') (closing s') → sys_ok s'.
Proof.
  intros Hk Hw Hok Hst Hch. split; [done..|]. rewrite Hw. eapply Forall_impl; [apply (so_waits _ Hok)|]. intros w. by apply wait_ok_keeps.
Qed.

(** A goroutine's own step. *)
Lemma sys_ok_own s t p i w :
  sys_ok s → waits s !! i = Some w → channels_ok t (closed s) (closing s) →
  (∀ k ch, waiters (table s) !! k = Some ch → waiters t !! k = Some ch) →
  let s' := MkSys (store s) t (closed s) (announcing s) (closing s) (<[i:=set_pc w p]> (waits s)) in
  wait_ok s' (set_pc w p) → sys_ok s'.
Proof.
  intros Hok Hi Ht Hk s' Hw. split; [apply Hok|done|]. apply Forall_insert; [|done].
  eapply Forall_impl; [apply (so_waits _ Hok)|]. intros w'. apply wait_ok_keeps. split; simpl; [tauto| |tauto].
  intros k ch Hch. left. split; [by apply Hk|done].
Qed.

Lemma Await_ok s i s' : sys_ok s → run_Await s i = Some s' → sys_ok s'.
Proof.
  intros Hok. unfold run_Await, Await_step. destruct (waits s !! i) as [w|] eqn:Hi; [|done].
  assert (wait_ok s w) as Hw by (pose proof (so_waits _ Hok) as HF; rewrite Forall_forall in HF; by eapply HF, list_elem_of_lookup_2).
  unfold wait_ok in Hw. destruct (w_pc w) as [|ch|ch| |] eqn:Ep; [..|done|done].
  - destruct (channels_Changed (table s) (closed s) (closing s) (w_key w) (so_channels _ Hok)) as (Hch & Hk & Hm).
    destruct (Changed (table s) (w_key w)) as [t ch]. intros [= <-]. eapply sys_ok_own; [done..|]. simpl. right; by right.
  - intros [= <-]. eapply sys_ok_own; [done|done|apply Hok|done|]. unfold wait_ok. simpl.
    rewrite get_spec by apply Hok. destruct (w_ready w _) eqn:Er; [done|]. unfold held in Hw. simpl. tauto.
  - case_bool_decide as Hc; [|done]. intros [= <-]. eapply sys_ok_own; [done|done|apply Hok|done|done].
Qed.

Lemma sys_step_ok s s' : sys_ok s → step s s' → sys_ok s'.
Proof.
  intros Hok Hs. destruct Hs as [s x r|s l1 a l2 E r|s l1 ch l2 E|s i s' E|s k ready|s i w ch Hi Ep|s].
  - subst r. destruct (write_announces (store s) x (so_store _ Hok)) as [Hst Hw]. apply (sys_ok_keeps s); [|reflexivity|exact Hok|done|apply Hok].
    split; simpl; [tauto|..]; setoid_rewrite elem_of_app; [tauto|]. intros k. destruct (Hw k) as [?|[?|?]]; tauto.
  - subst r. destruct (channels_take (table s) (closed s) (closing s) a (so_channels _ Hok)) as [Hch Ht].
    apply (sys_ok_keeps s); [|reflexivity|exact Hok|apply Hok|exact Hch]. split; simpl; setoid_rewrite elem_of_app; [tauto| |tauto].
    intros k c Hk. destruct (Ht k c Hk) as [(Hk' & Ha & Hb)|Hr]; [left|tauto]. split; [done|].
    rewrite E, !elem_of_app, !elem_of_cons. intros [[?|[?|?]]|[?|[?|?]]]; subst; tauto.
  - pose proof (so_channels _ Hok) as Hch. rewrite E in Hch. apply (sys_ok_keeps s); [|reflexivity|exact Hok|apply Hok|by apply channels_close].
    split; simpl; [|tauto|tauto]. intros c. rewrite E, !elem_of_union, elem_of_singleton, !elem_of_app, elem_of_cons. tauto.
  - by eapply Await_ok.
  - split; [apply Hok|apply Hok|]. apply Forall_app. split; [|by constructor].
    eapply Forall_impl; [apply (so_waits _ Hok)|]. intros w. apply wait_ok_keeps, keeps_refl_waits.
  - eapply sys_ok_own; [done|done|apply Hok|done|done].
  - destruct (channels_Any (table s) (closed s) (closing s) (so_channels _ Hok)) as [Hch Hw].
    apply (sys_ok_keeps s); [|reflexivity|exact Hok|apply Hok|exact Hch]. split; simpl; [tauto| |tauto]. intros k c. rewrite Hw. tauto.
Qed.

Lemma sys_reachable_ok (s0 : S) s : store_ok s0 → reachable s0 s → sys_ok s.
Proof.
  intros Hs0. induction 1 as [|s s' _ IH Hs]; [|by eapply sys_step_ok]. split; [done|apply channels_start|constructor].
Qed.

(** The goroutine [i] alone, for [n] steps. *)
Fixpoint run_alone (n : nat) s (i : nat) : Sys (S:=S) (T:=T) :=
  match n with
  | O => s
  | Datatypes.S n => match run_Await s i with Some s' => run_alone n s' i | None => s end
  end.

Lemma run_alone_returned n s i w : waits s !! i = Some w → w_pc w = Returned → run_alone n s i = s.
Proof. intros Hi Ep. destruct n; [done|]. simpl. unfold run_Await, Await_step. by rewrite Hi, Ep. Qed.

(** A goroutine whose condition holds, from each place it can be at. *)
Lemma alone_check n s i w ch :
  waits s !! i = Some w → w_pc w = Checking ch → w_ready w (store_get (store s) (w_key w)) = true →
  w_pc <$> waits (run_alone (Datatypes.S n) s i) !! i = Some Returned.
Proof.
  intros Hi Ep Hr. cbn [run_alone]. unfold run_Await, Await_step. rewrite Hi, Ep, Hr.
  assert (i < length (waits s))%nat by (by eapply lookup_lt_Some).
  erewrite run_alone_returned; simpl; [|by rewrite list_lookup_insert_eq|done]. by rewrite list_lookup_insert_eq.
Qed.

Lemma alone_take s i w n :
  waits s !! i = Some w → w_pc w = Taking → w_ready w (store_get (store s) (w_key w)) = true →
  w_pc <$> waits (run_alone (2 + n) s i) !! i = Some Returned.
Proof.
  intros Hi Ep Hr. assert (i < length (waits s))%nat by (by eapply lookup_lt_Some).
  assert (∃ t ch, run_Await s i = Some (MkSys (store s) t (closed s) (announcing s) (closing s) (<[i:=set_pc w (Checking ch)]> (waits s))))
    as (t & ch & E).
  { unfold run_Await, Await_step. rewrite Hi, Ep. destruct (Changed _ _) as [t ch]. eauto. }
  change (2 + n)%nat with (Datatypes.S (1 + n)). cbn [run_alone]. rewrite E.
  apply (alone_check n _ i (set_pc w (Checking ch)) ch); [by apply list_lookup_insert_eq|done|done].
Qed.

Lemma alone_asleep s i w ch :
  waits s !! i = Some w → w_pc w = Asleep ch → w_ready w (store_get (store s) (w_key w)) = true → ch ∈ closed s →
  w_pc <$> waits (run_alone 3 s i) !! i = Some Returned.
Proof.
  intros Hi Ep Hr Hc. assert (i < length (waits s))%nat by (by eapply lookup_lt_Some).
  assert (run_Await s i = Some (MkSys (store s) (table s) (closed s) (announcing s) (closing s) (<[i:=set_pc w Taking]> (waits s)))) as E.
  { unfold run_Await, Await_step. rewrite Hi, Ep. by rewrite bool_decide_eq_true_2. }
  change 3%nat with (Datatypes.S 2). cbn [run_alone]. rewrite E.
  apply (alone_take _ i (set_pc w Taking) 0); [by apply list_lookup_insert_eq|done|done].
Qed.
End Waiting.

(** [C18] A goroutine that waits for a key of an announcing store never sleeps
    through the write it waits for, however writers, announcements, the closing
    of channels and other goroutines interleave: once the announcements made so
    far are through, a goroutine whose condition holds is not asleep on an open
    channel and returns within three steps of its own. No channel is ever closed
    twice, which would be a panic. *)
Theorem no_write_is_slept_through {S T} `{StoreSpec S T} (s0 : S) (s : Sys (S:=S) (T:=T)) :
  store_ok s0 → reachable s0 s →
  NoDup (closing s) ∧ (∀ ch, ch ∈ closing s → ch ∉ closed s) ∧
  (announcing s = [] → closing s = [] →
   ∀ i w, waits s !! i = Some w → w_pc w ≠ GaveUp → w_ready w (store_get (store s) (w_key w)) = true →
   w_pc <$> waits (run_alone 3 s i) !! i = Some Returned).
Proof.
  intros Hs0 Hr. pose proof (sys_reachable_ok s0 s Hs0 Hr) as Hok. split_and!; [apply Hok|apply Hok|].
  intros Ha Hc i w Hi Hg Hready. destruct (w_pc w) as [|ch|ch| |] eqn:Ep; [..|done].
  - by eapply alone_take.
  - by eapply (alone_check 2).
  - apply (alone_asleep s i w ch); [done..|]. pose proof (so_waits _ Hok) as HF. rewrite Forall_forall in HF.
    specialize (HF w ltac:(by eapply list_elem_of_lookup_2)). unfold wait_ok in HF. rewrite Ep, Ha, Hc, <- get_spec in HF by apply Hok.
    destruct HF as [?|[?%elem_of_nil|[_ [?|[?%elem_of_nil|?%elem_of_nil]]]]]; congruence || done.
  - erewrite run_alone_returned by done. rewrite Hi. simpl. by rewrite Ep.
Qed.

(** A goroutine waits for a value; it is written while the goroutine sleeps. *)
#[local] Instance GoZero_nat : GoZero nat := 0%nat.
Definition w_store : Z * MemoryStore nat := NewStateStore 0.
Definition w_await (p : pc) : wait (T:=nat) := MkWait "op" (λ v, bool_decide (is_Some v)) p.
Definition w_sys : Sys (S:=Z * MemoryStore nat) (T:=nat) :=
  MkSys (store_put w_store "op" 7%nat) (MkKeyed 1 ∅ None) {[ 0%nat ]} [] [] [w_await (Asleep 0)].

Lemma w_sys_reachable : reachable w_store w_sys.
Proof.
  unfold w_sys.
  assert (reachable w_store (MkSys w_store NewKeyed ∅ [] [] [w_await Taking])) as H1
    by (exact (reach_step _ _ _ (reach_start _) (step_start _ "op" _))).
  assert (reachable w_store (MkSys w_store (MkKeyed 1 {[ "op" := 0%nat ]} None) ∅ [] [] [w_await (Checking 0)])) as H2
    by (eapply reach_step; [exact H1|]; apply (step_Await _ 0); reflexivity).
  assert (reachable w_store (MkSys w_store (MkKeyed 1 {[ "op" := 0%nat ]} None) ∅ [] [] [w_await (Asleep 0)])) as H3
    by (eapply reach_step; [exact H2|]; apply (step_Await _ 0); reflexivity).
  assert (reachable w_store (MkSys (store_put w_store "op" 7%nat) (MkKeyed 1 {[ "op" := 0%nat ]} None) ∅ [One_key "op"] [] [w_await (Asleep 0)])) as H4
    by (exact (reach_step _ _ _ H3 (step_write _ (WPut "op" 7%nat)))).
  assert (reachable w_store (MkSys (store_put w_store "op" 7%nat) (MkKeyed 1 ∅ None) ∅ [] [0%nat] [w_await (Asleep 0)])) as H5
    by (refine (reach_step _ _ _ H4 _); exact (step_announce (MkSys (store_put w_store "op" 7%nat) (MkKeyed 1 {[ "op" := 0%nat ]} None) ∅
          [One_key "op"] [] [w_await (Asleep 0)]) [] (One_key "op") [] eq_refl)).
  pose proof (reach_step _ _ _ H5 (step_close (MkSys (store_put w_store "op" 7%nat) (MkKeyed 1 ∅ None) ∅ [] [0%nat] [w_await (Asleep 0)])
    [] 0%nat [] eq_refl)) as H6. simpl in H6.
  by rewrite union_empty_r_L in H6.
Qed.

Lemma no_write_is_slept_through_witness :
  w_pc <$> waits (run_alone 3 w_sys 0) !! 0%nat = Some Returned.
Proof.
  destruct (no_write_is_slept_through w_store w_sys) as (_ & _ & Hw).
  - apply NewStateStore_wf.
  - apply w_sys_reachable.
  - apply (Hw eq_refl eq_refl 0%nat (w_await (Asleep 0))); by vm_compute.
Defined.
