(* ===== verification/Revisions.v ===== *)
(** * Traffic splitting: [src/sim/revisions/revisions.go]

    The choice of the revision a request goes to, in proportion to the weights.
    The number [rand.IntN] draws is an argument. A signature is a digest of a
    template's JSON and is not modelled. *)

From S2P Require Import Prelude.

Record Weighted (T : Type) := MkWeighted { Revision : T; Weight : Z }.
Arguments MkWeighted {T} _ _.
Arguments Revision {T} _.
Arguments Weight {T} _.

Section Pick.
Context {T : Type}.
Implicit Types (candidates : list (Weighted T)).

(** [total]; the sum wraps as an [int] does. *)
Definition total_weight candidates : Z :=
  foldl (λ total c, if 0 <? Weight c then i64 (total + Weight c) else total) 0 candidates.

Fixpoint pick_loop (n : Z) candidates : option T :=
  match candidates with
  | [] => None
  | c :: candidates =>
      if Weight c <=? 0 then pick_loop n candidates
      else let n := n - Weight c in if n <? 0 then Some (Revision c) else pick_loop n candidates
  end.

(** [IntN total] is the number drawn, which panics for a total that is not
    positive; [None] of the outer option is that panic. *)
Definition Pick (IntN : Z → Z) candidates : option (option T) :=
  let total := total_weight candidates in
  if total =? 0 then Some None
  else if total <? 0 then None
  else Some (pick_loop (IntN total) candidates).

(** ** Proportions *)

Definition share (c : Weighted T) : Z := Z.max 0 (Weight c).
Definition shares candidates : Z := foldr (λ c z, share c + z) 0 candidates.

Lemma shares_nonneg candidates : 0 ≤ shares candidates.
Proof. induction candidates as [|c l IH]; simpl; [lia|]. unfold share. lia. Qed.

Lemma total_weight_shares candidates : shares candidates < 2 ^ 63 → total_weight candidates = shares candidates.
Proof.
  intros Hs. unfold total_weight. assert (∀ z, 0 ≤ z → z + shares candidates < 2 ^ 63 →
    foldl (λ total c, if 0 <? Weight c then i64 (total + Weight c) else total) z candidates = z + shares candidates) as Hz;
    [|by rewrite Hz by lia].
  clear Hs. induction candidates as [|c l IH]; intros z Hz Hs; simpl in *; [lia|]. pose proof (shares_nonneg l). unfold share in *.
  destruct (Z.ltb_spec 0 (Weight c)).
  - rewrite i64_id by (unfold in_i64; lia). rewrite IH by lia. lia.
  - rewrite IH by lia. lia.
Qed.

(** The draws that pick a candidate are those from the shares before it on, as
    many as its share. *)
Lemma pick_loop_spec l1 c l2 n :
  shares l1 ≤ n < shares l1 + share c → pick_loop n (l1 ++ c :: l2) = Some (Revision c).
Proof.
  revert n. induction l1 as [|d l1 IH]; intros n Hn; cbn [app pick_loop shares foldr] in *; unfold share in *.
  - destruct (Z.leb_spec (Weight c) 0); [lia|]. by rewrite (proj2 (Z.ltb_lt _ _)) by lia.
  - pose proof (shares_nonneg l1). destruct (Z.leb_spec (Weight d) 0).
    + apply IH. unfold shares, share in *. lia.
    + rewrite (proj2 (Z.ltb_ge _ _)) by (unfold shares, share in *; lia). apply IH. unfold shares, share in *. lia.
Qed.
End Pick.

(** A request goes to each revision in proportion to its weight: of the draws
    the total allows, exactly as many as its positive weight pick a candidate, in
    the order of the list; none is picked when no weight is positive, and a draw
    never fails to pick otherwise. *)
Theorem picks_follow_the_weights {T} (IntN : Z → Z) (candidates : list (Weighted T)) :
  shares candidates < 2 ^ 63 → (∀ t, 0 < t → 0 ≤ IntN t < t) →
  (Pick IntN candidates = Some None ↔ shares candidates = 0) ∧
  ∀ l1 c l2, candidates = l1 ++ c :: l2 →
    shares l1 ≤ IntN (shares candidates) < shares l1 + share c → Pick IntN candidates = Some (Some (Revision c)).
Proof.
  intros Hs Hr. unfold Pick. rewrite total_weight_shares by done. pose proof (shares_nonneg candidates).
  destruct (Z.eqb_spec (shares candidates) 0) as [E|E].
  - split; [done|]. intros l1 c l2 -> Hc. exfalso. pose proof (shares_nonneg l1). pose proof (shares_nonneg l2).
    assert (shares (l1 ++ c :: l2) = shares l1 + share c + shares l2) as Hx.
    { clear. unfold shares. rewrite foldr_app. simpl. generalize (foldr (λ c z, share c + z) 0 l2) as z. intros z.
      induction l1 as [|d l1 IH]; simpl; [lia|]. rewrite IH. lia. }
    unfold share in *. lia.
  - rewrite (proj2 (Z.ltb_ge _ _)) by lia. split; [|intros l1 c l2 -> Hc; by rewrite pick_loop_spec].
    split; [|done]. intros [= Hp]. exfalso. assert (0 ≤ IntN (shares candidates) < shares candidates) as Hn by (apply Hr; lia).
    revert Hp Hn. generalize (IntN (shares candidates)). clear. induction candidates as [|c l IH]; intros n; simpl; [lia|].
    unfold share. destruct (Z.leb_spec (Weight c) 0).
    + intros Hp Hn. apply (IH n); [done|lia].
    + destruct (Z.ltb_spec (n - Weight c) 0); [done|]. intros Hp Hn. apply (IH (n - Weight c)); [done|lia].
Qed.
