(* ===== verification/Bigrat.v ===== *)
(** * [math/big]: the exact rationals of [big.Rat] and the decimals of [big.Int]

    DynamoDB's numbers carry 38 digits, so the simulator reads, compares and
    encodes them as [*big.Rat]. A [Rat] is a fraction in lowest terms; this file
    models [SetString] with its signs, base prefixes, digit separators, fractions
    and exponents, [Cmp], [RatString] and [Int.String], and proves that the
    decimals of [Int.String] are the padded decimals of [Prelude] at their own
    width, which is how their order is known. *)

From S2P Require Import Prelude Gostd.

(** ** Decimals of any size ([Int.String]) *)

Definition big_String (n : Z) : string :=
  let digits n := dec_loop (S (Z.to_nat (Z.log2 n))) n "" in
  if n <? 0 then String minus (digits (- n)) else digits n.

(** [Int.SetString(s, 10)]: a sign, then at least one digit. *)
Definition Int_SetString (s : string) : option Z :=
  let (neg, ds) :=
    match s with
    | String c r => if Ascii.eqb c minus then (true, r) else if Ascii.eqb c plus then (false, r) else (false, s)
    | EmptyString => (false, s)
    end in
  if bool_decide (ds = EmptyString) then None
  else (λ n, if neg : bool then - n else n) <$> parse_digits ds 0.

(** ** [Rat] *)

Record Rat := MkRat { num : Z; den : Z }.

Definition rat_ok (r : Rat) : Prop := 0 < den r ∧ Z.gcd (num r) (den r) = 1.

(** [norm]: lowest terms, and zero over one. *)
Definition norm (a b : Z) : Rat := let g := Z.gcd a b in MkRat (a / g) (b / g).

Definition Sign (r : Rat) : Z := Z.sgn (num r).
Definition Cmp (x y : Rat) : comparison := Z.compare (num x * den y) (num y * den x).

Definition RatString (r : Rat) : string :=
  if den r =? 1 then big_String (num r) else big_String (num r) +:+ "/" +:+ big_String (den r).

(** *** [nat.scan] with base 0 *)

(** The previously seen character: a digit, a separator, or anything else. *)
Inductive prev_char := PrevDigit | PrevSep | PrevOther.

Definition digit_of (c : ascii) : Z :=
  let b := byte_of c in
  if (48 <=? b) && (b <=? 57) then b - 48
  else if (97 <=? b) && (b <=? 122) then b - 97 + 10
  else if (65 <=? b) && (b <=? 90) then b - 65 + 10
  else 63.

Record scan_state := MkScan { prev : prev_char; invalSep : bool; dp : Z; count : Z; acc : Z }.

Definition dot : ascii := char_of 46.
Definition underscore : ascii := char_of 95.

Fixpoint scan_loop (b : Z) (fracOk : bool) (st : scan_state) (l : list ascii) : scan_state * list ascii :=
  match l with
  | [] => (st, [])
  | ch :: l' =>
      if Ascii.eqb ch dot && fracOk then
        scan_loop b false
          (MkScan PrevOther (match prev st with PrevSep => true | _ => invalSep st end) (count st) (count st) (acc st)) l'
      else if Ascii.eqb ch underscore then
        scan_loop b fracOk
          (MkScan PrevSep (match prev st with PrevDigit => invalSep st | _ => true end) (dp st) (count st) (acc st)) l'
      else if b <=? digit_of ch then (st, l)
      else scan_loop b fracOk (MkScan PrevDigit (invalSep st) (dp st) (count st + 1) (acc st * b + digit_of ch)) l'
  end.

(** The base prefix: the base, whether it is the lone octal [0], the digits
    counted so far, and the input at the first digit. *)
Definition scan_prefix (fracOk : bool) (l : list ascii) : Z * bool * prev_char * Z * list ascii :=
  match l with
  | c :: l' =>
      if negb (Ascii.eqb c (char_of 48)) then (10, false, PrevOther, 0, l)
      else match l' with
           | [] => (10, false, PrevDigit, 1, [])
           | ch :: l'' =>
               let b := byte_of ch in
               if (b =? 98) || (b =? 66) then (2, false, PrevDigit, 0, l'')
               else if (b =? 111) || (b =? 79) then (8, false, PrevDigit, 0, l'')
               else if (b =? 120) || (b =? 88) then (16, false, PrevDigit, 0, l'')
               else if negb fracOk then (8, true, PrevDigit, 0, l')
               else (10, false, PrevDigit, 1, l')
           end
  | [] => (10, false, PrevOther, 0, [])
  end.

(** The natural number, its base, the digits counted (negative: how many follow
    the point) and the unread input; [None] is an error. *)
Definition nat_scan (fracOk : bool) (l : list ascii) : option (Z * Z * Z * list ascii) :=
  let '(b, octal0, p, n, l) := scan_prefix fracOk l in
  let '(st, rest) := scan_loop b fracOk (MkScan p false (-1) n 0) l in
  if invalSep st || (match prev st with PrevSep => true | _ => false end) then None
  else if count st =? 0 then if octal0 : bool then Some (0, 10, 1, rest) else None
  else Some (acc st, b, (if 0 <=? dp st then dp st - count st else count st), rest).

(** [scanSign]. *)
Definition scanSign (l : list ascii) : option (bool * list ascii) :=
  match l with
  | [] => None
  | c :: l' => if Ascii.eqb c minus then Some (true, l') else if Ascii.eqb c plus then Some (false, l') else Some (false, l)
  end.

(** *** [scanExponent] with base-2 exponents and separators *)

Fixpoint exponent_loop (p : prev_char) (inval : bool) (digits : list ascii) (l : list ascii) : prev_char * bool * list ascii * list ascii :=
  match l with
  | [] => (p, inval, digits, [])
  | ch :: l' =>
      if (48 <=? byte_of ch) && (byte_of ch <=? 57) then exponent_loop PrevDigit inval (digits ++ [ch]) l'
      else if Ascii.eqb ch underscore then exponent_loop PrevSep (match p with PrevDigit => inval | _ => true end) digits l'
      else (p, inval, digits, l)
  end.

(** The exponent, its base and the unread input; [None] is an error. *)
Definition scanExponent (l : list ascii) : option (Z * Z * list ascii) :=
  match l with
  | [] => Some (0, 10, [])
  | ch :: l' =>
      let b := byte_of ch in
      let base := if (b =? 101) || (b =? 69) then Some 10 else if (b =? 112) || (b =? 80) then Some 2 else None in
      match base with
      | None => Some (0, 10, l)
      | Some base =>
          let (neg, l') :=
            match l' with
            | c :: l'' => if Ascii.eqb c minus then (true, l'') else if Ascii.eqb c plus then (false, l'') else (false, l')
            | [] => (false, l')
            end in
          let '(p, inval, digits, rest) := exponent_loop PrevOther false [] l' in
          if bool_decide (digits = []) then None
          else match ParseInt (text (if neg : bool then minus :: digits else digits)) with
               | None => None
               | Some e => if inval || (match p with PrevSep => true | _ => false end) then None else Some (e, base, rest)
               end
      end
  end.

(** *** [SetString] *)

(** [a/b]: a signed integer over an unsigned one. *)
Definition set_fraction (a b : string) : option Rat :=
  match scanSign (chars a) with
  | None => None
  | Some (neg, l) =>
      match nat_scan false l, nat_scan false (chars b) with
      | Some (n, _, _, []), Some (d, _, _, []) =>
          if d =? 0 then None else Some (norm (if neg : bool then - n else n) d)
      | _, _ => None
      end
  end.

(** The powers of five and of two a mantissa's fraction and exponent stand for. *)
Definition exponents (base fcount exp ebase : Z) : Z * Z :=
  let d := if fcount <? 0 then fcount else 0 in
  let e5 := if base =? 10 then d else 0 in
  let e2 := if (base =? 10) || (base =? 2) then d else if base =? 8 then d * 3 else if base =? 16 then d * 4 else 0 in
  (if ebase =? 10 then i64 (e5 + exp) else e5, i64 (e2 + exp)).

Definition set_decimal (s : string) : option Rat :=
  match scanSign (chars s) with
  | None => None
  | Some (neg, l) =>
      match nat_scan true l with
      | None => None
      | Some (a, base, fcount, l) =>
          match scanExponent l with
          | Some (exp, ebase, []) =>
              if a =? 0 then Some (MkRat 0 1)
              else
                let '(exp5, exp2) := exponents base fcount exp ebase in
                let n := if exp5 <? 0 then i64 (- exp5) else exp5 in
                if (n <? 0) || (1000000 <? n) then None
                else if (exp2 <? -10000000) || (10000000 <? exp2) then None
                else
                  let a := if neg : bool then - a else a in
                  Some (norm (a * 5 ^ Z.max 0 exp5 * 2 ^ Z.max 0 exp2) (5 ^ Z.max 0 (- exp5) * 2 ^ Z.max 0 (- exp2)))
          | _ => None
          end
      end
  end.

Definition SetString (s : string) : option Rat :=
  if bool_decide (s = "") then None
  else match Cut s "/" with
       | Some (a, b) => set_fraction a b
       | None => set_decimal s
       end.

(** ** Lowest terms *)

Lemma norm_ok a b : 0 < b → rat_ok (norm a b).
Proof.
  intros Hb. assert (Z.gcd a b ≠ 0) as Hg by (intros E%Z.gcd_eq_0; lia). pose proof (Z.gcd_nonneg a b).
  unfold rat_ok, norm. simpl. split.
  - pose proof (Z.gcd_divide_r a b) as [q Hq]. rewrite Hq at 1. rewrite Z.div_mul by done. nia.
  - by apply Z.gcd_div_gcd.
Qed.

Lemma digit_of_nonneg c : 0 ≤ digit_of c.
Proof. unfold digit_of. repeat case_match; bools; lia. Qed.

Lemma scan_loop_nonneg b fracOk st l : 0 ≤ b → 0 ≤ acc st → 0 ≤ acc (scan_loop b fracOk st l).1.
Proof.
  intros Hb. revert fracOk st. induction l as [|c l IH]; intros fracOk st Ha; [done|]. cbn [scan_loop].
  pose proof (digit_of_nonneg c). repeat case_match; try apply IH; simpl; try done; nia.
Qed.

Lemma nat_scan_nonneg fracOk l n b k r : nat_scan fracOk l = Some (n, b, k, r) → 0 ≤ n.
Proof.
  unfold nat_scan. destruct (scan_prefix fracOk l) as [[[[b' o] p] c] l'] eqn:E.
  assert (0 ≤ b') as Hb by (unfold scan_prefix in E; repeat case_match; simplify_eq; lia).
  pose proof (scan_loop_nonneg b' fracOk (MkScan p false (-1) c 0) l' Hb ltac:(simpl; lia)) as Hn.
  destruct (scan_loop b' fracOk _ l') as [st rest]. intros H. repeat case_match; simplify_eq/=; lia.
Qed.

Lemma SetString_ok s r : SetString s = Some r → rat_ok r.
Proof.
  unfold SetString. case_bool_decide; [done|]. destruct (Cut s "/") as [[a b]|].
  - unfold set_fraction. intros H'. destruct (scanSign _) as [[neg l]|]; [|done].
    destruct (nat_scan false l) as [[[[n ?] ?] [|]]|]; try done.
    destruct (nat_scan false (chars b)) as [[[[d ?] ?] [|]]|] eqn:E; try done.
    apply nat_scan_nonneg in E. destruct (Z.eqb_spec d 0); simplify_eq. apply norm_ok. lia.
  - unfold set_decimal. intros H'. destruct (scanSign _) as [[neg l]|]; [|done].
    destruct (nat_scan true l) as [[[[a base] fc] l1]|]; [|done]. destruct (scanExponent l1) as [[[e eb] [|]]|]; try done.
    destruct (a =? 0); [simplify_eq; split; [simpl; lia|done]|]. destruct (exponents _ _ _ _) as [e5 e2].
    repeat case_match; simplify_eq; apply norm_ok, Z.mul_pos_pos; apply Z.pow_pos_nonneg; lia.
Qed.

Lemma Cmp_refl x : Cmp x x = Eq.
Proof. apply Z.compare_refl. Qed.

(** In lowest terms, rationals that compare equal are equal. *)
Lemma Cmp_eq x y : rat_ok x → rat_ok y → Cmp x y = Eq → x = y.
Proof.
  unfold rat_ok, Cmp. destruct x as [a b], y as [c d]. simpl. intros [Hb Hab] [Hd Hcd] E%Z.compare_eq_iff.
  assert (b = d) as ->.
  { apply Z.divide_antisym_nonneg; try lia.
    - apply (Z.gauss _ a); [|by rewrite Z.gcd_comm]. rewrite Z.mul_comm in E. exists c. lia.
    - apply (Z.gauss _ c); [|by rewrite Z.gcd_comm]. exists a. lia. }
  f_equal. nia.
Qed.

(** ** The digits of a decimal *)

(** A padded decimal ends in its last digit. *)
Lemma pad_snoc k n : 0 ≤ n < 10 ^ Z.of_nat (S k) → pad (S k) n = pad k (n / 10) +:+ String (digit (n mod 10)) "".
Proof.
  revert n. induction k as [|k IH]; intros n Hn.
  { change (10 ^ _) with 10 in Hn. simpl. rewrite Z.div_1_r, Z.mod_small by lia. done. }
  assert (0 < 10 ^ Z.of_nat k) as Hp by (apply Z.pow_pos_nonneg; lia).
  assert (10 ^ Z.of_nat (S k) = 10 * 10 ^ Z.of_nat k) as E by (rewrite Nat2Z.inj_succ, Z.pow_succ_r; lia).
  remember (S k) as k' eqn:Ek. cbn [pad]. rewrite Ek in *. rewrite IH by (apply Z.mod_pos_bound; lia). cbn [pad].
  rewrite append_cons_s, E, Z.rem_mul_r, <- Z.div_div by lia.
  rewrite (Z.mul_comm 10 ((n / 10) mod _)), Z.div_add, Z.mod_add by lia.
  pose proof (Z.mod_pos_bound n 10 ltac:(lia)).
  rewrite (Z.div_small (n mod 10)), Z.mod_mod by lia. done.
Qed.

(** [dec_loop] writes the decimal at its own width. *)
Lemma dec_loop_pad fuel n acc :
  0 ≤ n < 10 ^ Z.of_nat (S fuel) →
  ∃ k, dec_loop (S fuel) n acc = pad (S k) n +:+ acc ∧ n < 10 ^ Z.of_nat (S k) ∧ (k ≠ 0%nat → 10 ^ Z.of_nat k ≤ n).
Proof.
  revert n acc. induction fuel as [|fuel IH]; intros n acc Hn.
  - change (10 ^ _) with 10 in Hn. exists 0%nat. cbn [dec_loop pad]. rewrite Z.div_small by lia. simpl.
    rewrite Z.mod_small, Z.div_1_r by lia. split; [done|]. split; [change (10 ^ _) with 10; lia|done].
  - remember (S fuel) as f eqn:Ef. cbn [dec_loop]. subst f. destruct (Z.eqb_spec (n / 10) 0) as [E|E].
    + assert (n < 10) by dlia. exists 0%nat. simpl. rewrite Z.div_1_r, (Z.mod_small n 10) by lia.
      split; [done|]. split; [change (10 ^ _) with 10; lia|done].
    + assert (10 ≤ n) by dlia.
      destruct (IH (n / 10) (String (digit (n mod 10)) acc)) as (k & -> & Hlt & Hge).
      { rewrite (Nat2Z.inj_succ (S fuel)), Z.pow_succ_r in Hn by lia. dlia. }
      exists (S k). rewrite (Nat2Z.inj_succ (S k)), Z.pow_succ_r by lia.
      split; [|split; [dlia|intros _]].
      * rewrite (pad_snoc (S k) n), append_assoc_s by (rewrite (Nat2Z.inj_succ (S k)), Z.pow_succ_r by lia; dlia). done.
      * rewrite Nat2Z.inj_succ, Z.pow_succ_r by lia. destruct k; [change (10 ^ _) with 1; lia|]. specialize (Hge ltac:(lia)). dlia.
Qed.

Lemma log2_digits n : 0 < n → n < 10 ^ Z.of_nat (S (Z.to_nat (Z.log2 n))).
Proof.
  intros Hn. pose proof (Z.log2_spec n Hn) as [_ H]. pose proof (Z.log2_nonneg n).
  eapply Z.lt_le_trans; [exact H|]. rewrite Nat2Z.inj_succ, Z2Nat.id by lia. apply Z.pow_le_mono_l. lia.
Qed.

(** A positive integer prints as its digits, the first of them not zero. *)
Lemma big_String_pad n :
  0 < n → ∃ k, big_String n = pad (S k) n ∧ 10 ^ Z.of_nat k ≤ n < 10 ^ Z.of_nat (S k).
Proof.
  intros Hn. unfold big_String. rewrite (proj2 (Z.ltb_ge n 0)) by lia. pose proof (log2_digits n Hn).
  destruct (dec_loop_pad (Z.to_nat (Z.log2 n)) n "") as (k & E & Hlt & Hge); [lia|].
  exists k. rewrite E, append_nil_s. split; [done|]. split; [|done]. destruct k; [change (10 ^ _) with 1; lia|]. apply Hge. lia.
Qed.

(** A decimal reads back as the integer it spells. *)
Lemma Int_SetString_String n : Int_SetString (big_String n) = Some n.
Proof.
  assert (∀ z, 0 ≤ z → z < 10 ^ Z.of_nat (S (Z.to_nat (Z.log2 z)))) as Hb.
  { intros z Hz. destruct (decide (z = 0)) as [->|]; [by vm_compute|]. apply log2_digits. lia. }
  unfold Int_SetString, big_String. destruct (Z.ltb_spec n 0).
  - rewrite Ascii.eqb_refl. destruct (dec_loop_head (Z.to_nat (Z.log2 (- n))) (- n) "") as (d & r & _ & E); [lia|].
    rewrite E, bool_decide_eq_false_2, <- E, parse_dec_loop by (done || (split; [lia|apply Hb; lia])). simpl. f_equal. lia.
  - destruct (dec_loop_head (Z.to_nat (Z.log2 n)) n "") as (d & r & Hd & E); [lia|]. rewrite E.
    destruct (digit_not_sign d Hd) as [-> ->]. rewrite bool_decide_eq_false_2, <- E, parse_dec_loop by (done || (split; [lia|apply Hb; lia])). done.
Qed.

(** Decimals that do not end in zero sort, as strings, like the fractions their
    digits spell after a decimal point. *)
Definition no_trailing_zero (k : nat) (n : Z) : Prop := k = 0%nat ∨ n mod 10 ≠ 0.

Lemma no_trailing_zero_tail k n : no_trailing_zero (S k) n → no_trailing_zero k (n mod 10 ^ Z.of_nat k).
Proof.
  intros [?|H]; [done|]. destruct k as [|k]; [by left|right]. rewrite Nat2Z.inj_succ, Z.pow_succ_r by lia.
  assert (0 < 10 ^ Z.of_nat k) by (apply Z.pow_pos_nonneg; lia).
  rewrite Z.rem_mul_r, Z.mul_comm, Z.mod_add, Z.mod_mod by lia. done.
Qed.

Lemma pow10_pos k : 0 < 10 ^ Z.of_nat k.
Proof. apply Z.pow_pos_nonneg; lia. Qed.

Lemma pow10_split m k : (k ≤ m)%nat → 10 ^ Z.of_nat m = 10 ^ Z.of_nat k * 10 ^ Z.of_nat (m - k).
Proof. intros. rewrite <- Z.pow_add_r by lia. f_equal. lia. Qed.

(** The first digit of a fraction weighs more than all that follow. *)
Lemma fraction_first_digit m k n :
  (k ≤ m)%nat → 0 ≤ n →
  n * 10 ^ Z.of_nat (m - k) = n / 10 ^ Z.of_nat k * 10 ^ Z.of_nat m + (n mod 10 ^ Z.of_nat k) * 10 ^ Z.of_nat (m - k) ∧
  0 ≤ (n mod 10 ^ Z.of_nat k) * 10 ^ Z.of_nat (m - k) < 10 ^ Z.of_nat m.
Proof.
  intros Hk Hn. pose proof (pow10_pos k). pose proof (pow10_pos (m - k)). rewrite (pow10_split m k Hk).
  pose proof (Z.mod_pos_bound n (10 ^ Z.of_nat k) ltac:(lia)). split; [|nia].
  rewrite (Z.div_mod n (10 ^ Z.of_nat k)) at 1 by lia. ring.
Qed.

Lemma no_trailing_zero_pos k n : 0 ≤ n → no_trailing_zero (S k) n → 0 < n.
Proof. intros ? [?|Hn]; [done|]. destruct (decide (n = 0)) as [->|]; [done|lia]. Qed.

Lemma fraction_compare k1 k2 a b m :
  0 ≤ a < 10 ^ Z.of_nat k1 → 0 ≤ b < 10 ^ Z.of_nat k2 → no_trailing_zero k1 a → no_trailing_zero k2 b →
  (k1 ≤ m)%nat → (k2 ≤ m)%nat →
  String.compare (pad k1 a) (pad k2 b) = Z.compare (a * 10 ^ Z.of_nat (m - k1)) (b * 10 ^ Z.of_nat (m - k2)).
Proof.
  revert k2 a b m. induction k1 as [|k1 IH]; intros [|k2] a b m Ha Hb Na Nb H1 H2.
  - change (10 ^ Z.of_nat 0) with 1 in Ha, Hb. replace a with 0 by lia. by replace b with 0 by lia.
  - change (10 ^ Z.of_nat 0) with 1 in Ha. replace a with 0 by lia. pose proof (no_trailing_zero_pos k2 b ltac:(lia) Nb).
    pose proof (pow10_pos (m - S k2)). symmetry. apply Z.compare_lt_iff. nia.
  - change (10 ^ Z.of_nat 0) with 1 in Hb. replace b with 0 by lia. pose proof (no_trailing_zero_pos k1 a ltac:(lia) Na).
    pose proof (pow10_pos (m - S k1)). symmetry. apply Z.compare_gt_iff. nia.
  - destruct m as [|m]; [lia|]. pose proof (digit_bound a k1 Ha). pose proof (digit_bound b k2 Hb).
    destruct (fraction_first_digit m k1 a ltac:(lia) ltac:(lia)) as [Ea Ba].
    destruct (fraction_first_digit m k2 b ltac:(lia) ltac:(lia)) as [Eb Bb].
    rewrite !Nat.sub_succ, Ea, Eb. cbn [pad]. simpl String.compare. unfold Ascii.compare. rewrite !N_of_digit by lia.
    rewrite (IH k2 _ _ m) by (try apply Z.mod_pos_bound, pow10_pos; auto using no_trailing_zero_tail; lia).
    set (da := a / _) in *. set (db := b / _) in *. set (ra := _ mod _ * _) in *. set (rb := b mod _ * _) in *.
    destruct (N.compare_spec (48 + Z.to_N da) (48 + Z.to_N db)) as [E|E|E].
    + assert (da = db) as -> by lia. by rewrite Z.add_compare_mono_l.
    + symmetry. apply Z.compare_lt_iff. assert (da + 1 ≤ db) by lia. nia.
    + symmetry. apply Z.compare_gt_iff. assert (db + 1 ≤ da) by lia. nia.
Qed.
