(* ===== verification/Ddbkeys.v ===== *)
(** * DynamoDB items and their store keys: [src/simulator-aws/dynamodb_keys.go]

    An item is a map of attribute names to typed values. It is stored under a key
    made of its table's name and the encodings of its partition and sort keys; the
    encodings are chosen so that the order of the strings is the order DynamoDB
    gives the values. This file models the values, the encodings, the store key,
    the validation of keys and the choice of a partition's keys from a listing
    ([dynamodb_query_partition.go]), and proves the order. *)

From S2P Require Import Prelude Gostd Store Bigrat.

(** ** Values *)

(** A value of Go type [any] decoded from JSON. A number is a [float64], kept as
    the text [fmt] prints for it; a DynamoDB number is a string. *)
Inductive any : Type :=
| Nil
| Bool (b : bool)
| Num (printed : string)
| Str (s : string)
| Arr (l : list any)
| Obj (m : gmap string any).

Abbreviation attributes := (gmap string any).

(** [m[k]]: the zero value when the key is absent. *)
Definition at_key (m : gmap string any) (k : string) : any := default Nil (m !! k).

(** The type assertions [v.(string)], [v.([]any)] and [v.(map[string]any)]. *)
Definition as_string (v : any) : option string := match v with Str s => Some s | _ => None end.
Definition as_list (v : any) : option (list any) := match v with Arr l => Some l | _ => None end.
Definition as_map (v : any) : option (gmap string any) := match v with Obj m => Some m | _ => None end.

(** ** Tables: the fields of [DDBTable] that keys and indexes depend on *)

Record DDBAttributeDef := MkAttrDef { def_name : string; AttributeType : string }.
Record DDBKeySchemaEntry := MkKeyEntry { AttributeName : string; KeyType : string }.
Record DDBProjection := MkProjection { ProjectionType : string; NonKeyAttributes : list string }.
Record DDBIndexDef := MkIndexDef { IndexName : string; index_keys : list DDBKeySchemaEntry; Projection : option DDBProjection }.

Record DDBTable := MkTable {
  TableName : string;
  AttributeDefinitions : list DDBAttributeDef;
  KeySchema : list DDBKeySchemaEntry;
  GlobalSecondaryIndexes : list DDBIndexDef;
  LocalSecondaryIndexes : list DDBIndexDef;
}.

(** ** Encodings *)

Definition ddbKeySeparator : string := String (char_of 1) "".

(** Writes the code of each byte in turn. *)
Fixpoint map_bytes (f : ascii → string) (s : string) : string :=
  match s with EmptyString => "" | String c s => f c +:+ map_bytes f s end.

Definition escape_byte (c : ascii) : string :=
  if byte_of c <=? 2 then String (char_of 2) (String (char_of (byte_of c + 3)) "") else String c "".

(** [strings.ContainsAny(s, "\x00\x01\x02")]. *)
Definition contains_low (s : string) : bool := existsb (λ c, byte_of c <=? 2) (chars s).

Definition ddbEscapeKeyText (s : string) : string :=
  if negb (contains_low s) then s else map_bytes escape_byte s.

(** [hex.EncodeToString]. *)
Definition hex_digit (v : Z) : ascii := char_of (if v <? 10 then 48 + v else 87 + v).
Definition hex_byte (c : ascii) : string := String (hex_digit (byte_of c / 16)) (String (hex_digit (byte_of c mod 16)) "").
Definition hex_EncodeToString (s : string) : string := map_bytes hex_byte s.

(** The loop that scales the numerator until the denominator divides it. *)
Fixpoint scale_loop (fuel : nat) (scaled denominator shift : Z) : option (Z * Z) :=
  if Z.rem scaled denominator =? 0 then Some (scaled, shift)
  else match fuel with
       | O => None
       | S fuel => if 400 <? shift + 1 then None else scale_loop fuel (scaled * 10) denominator (shift + 1)
       end.

(** [strings.TrimRight(digits, "0")]. *)
Fixpoint drop_zeros (l : list ascii) : list ascii :=
  match l with c :: l' => if Ascii.eqb c (char_of 48) then drop_zeros l' else l | [] => [] end.
Definition TrimRight_zeros (s : string) : string := text (rev (drop_zeros (rev (chars s)))).

(** [complement[i] = '9' - (d - '0')]. *)
Definition nines_complement (s : string) : string := text (map (λ d, char_of (57 - (byte_of d - 48))) (chars s)).

Definition tilde : string := String (char_of 126) "".

Definition ordered_rat (r : Rat) : option string :=
  if Sign r =? 0 then Some "1"
  else
    match scale_loop 401 (Z.abs (num r)) (den r) 0 with
    | None => None
    | Some (scaled, shift) =>
        let digits := big_String (Z.quot scaled (den r)) in
        let exponent := Z.of_nat (String.length digits) - shift + 500 in
        let digits := TrimRight_zeros digits in
        if (exponent <? 0) || (999 <? exponent) then None
        else if negb (Sign r <? 0) then Some ("2" +:+ pad 3 exponent +:+ digits)
        else Some ("0" +:+ pad 3 (999 - exponent) +:+ nines_complement digits +:+ tilde)
    end.

Definition ddbOrderedNumber (s : string) : option string :=
  match SetString (TrimSpace s) with None => None | Some r => ordered_rat r end.

Definition ddbExtractAttrValue (v : any) : string :=
  match as_map v with
  | None => ""
  | Some m =>
      match as_string (at_key m "S") with
      | Some s => "S" +:+ ddbEscapeKeyText s
      | None =>
          match as_string (at_key m "N") with
          | Some n => match ddbOrderedNumber n with Some encoded => "N" +:+ encoded | None => "" end
          | None =>
              match as_string (at_key m "B") with
              | Some b => match DecodeString StdEncoding b with None => "" | Some raw => "B" +:+ hex_EncodeToString raw end
              | None => ""
              end
          end
      end
  end.

(** The hash and range values a key schema picks from an item; the last entry
    of each kind wins. *)
Definition key_part (item : attributes) (parts : string * string) (k : DDBKeySchemaEntry) : string * string :=
  let value := ddbExtractAttrValue (at_key item (AttributeName k)) in
  if String.eqb (KeyType k) "HASH" then (value, parts.2)
  else if String.eqb (KeyType k) "RANGE" then (parts.1, value) else parts.

Definition key_parts (schema : list DDBKeySchemaEntry) (item : attributes) : string * string :=
  foldl (key_part item) ("", "") schema.

Definition ddbItemKey (table : DDBTable) (item : attributes) : string :=
  let '(hash, rng) := key_parts (KeySchema table) item in
  if negb (String.eqb rng "") then TableName table +:+ "/" +:+ hash +:+ ddbKeySeparator +:+ rng
  else TableName table +:+ "/" +:+ hash.

(** ** Validation of keys; the empty message is valid *)

(** The nesting of a value, which bounds the walk through it. *)
Fixpoint height (v : any) : nat :=
  match v with
  | Arr l => S (foldr (λ v n, height v `max` n)%nat 0%nat l)
  | Obj m => S (map_fold (λ _ v n, height v `max` n)%nat 0%nat m)
  | _ => 0
  end.

Definition is_bad_number (n : string) : bool := match ddbOrderedNumber n with Some _ => false | None => true end.

Fixpoint has_bad_number (fuel : nat) (value : any) : bool :=
  match fuel, as_map value with
  | S fuel, Some typed =>
      match as_string (at_key typed "N") with
      | Some n => is_bad_number n
      | None =>
          existsb (λ member, match as_string member with Some n => is_bad_number n | None => true end) (default [] (as_list (at_key typed "NS"))) ||
          existsb (has_bad_number fuel) (default [] (as_list (at_key typed "L"))) ||
          existsb (has_bad_number fuel) (map_to_list (default ∅ (as_map (at_key typed "M")))).*2
      end
  | _, _ => false
  end.

Definition ddbValueHasBadNumber (value : any) : bool := has_bad_number (height value) value.

Definition ddbNumbersError (attrs : attributes) : string :=
  if existsb ddbValueHasBadNumber (map_to_list attrs).*2 then "A value provided cannot be converted into a number" else "".

(** The declared type of an attribute: the last definition of the name. *)
Definition declared_type (t : DDBTable) (name : string) : string :=
  foldl (λ declared d, if String.eqb (def_name d) name then AttributeType d else declared) "" (AttributeDefinitions t).

Definition type_mismatch : string := "One or more parameter values were invalid: Type mismatch for key".
Definition index_type_mismatch : string := "One or more parameter values were invalid: Type mismatch for Index Key".
Definition empty_key (name : string) : string :=
  "One or more parameter values are not valid. The AttributeValue for a key attribute cannot contain an empty string value. Key: " +:+ name.
Definition empty_index_key (index name : string) : string :=
  "One or more parameter values are not valid. A value specified for a secondary index key is not supported. " +:+
  "The AttributeValue for a key attribute cannot contain an empty string value. IndexName: " +:+ index +:+ ", IndexKey: " +:+ name.

Definition ddbKeyValueError (t : DDBTable) (name : string) (value : any) : string :=
  let declared := declared_type t name in
  match as_map value with
  | None => type_mismatch
  | Some typed =>
      if negb (size typed =? 1)%nat then type_mismatch
      else match typed !! declared with
           | None => type_mismatch
           | Some raw =>
               match as_string raw with
               | Some text =>
                   if String.eqb text "" && (String.eqb declared "S" || String.eqb declared "B") then empty_key name else ""
               | None => ""
               end
           end
  end.

Record ddbIndex := MkIndex { index_name : string; index_schema : list DDBKeySchemaEntry; projection : option DDBProjection }.

Definition ddbIndexes (t : DDBTable) : list ddbIndex :=
  map (λ g, MkIndex (IndexName g) (index_keys g) (Projection g)) (GlobalSecondaryIndexes t) ++
  map (λ l, MkIndex (IndexName l) (index_keys l) (Projection l)) (LocalSecondaryIndexes t).

Definition index_key_error (t : DDBTable) (item : attributes) (index : ddbIndex) (k : DDBKeySchemaEntry) : string :=
  match item !! AttributeName k with
  | None => ""
  | Some value =>
      match default ∅ (as_map value) !! declared_type t (AttributeName k) with
      | None => index_type_mismatch
      | Some raw => match as_string raw with
                    | Some text => if String.eqb text "" then empty_index_key (index_name index) (AttributeName k) else ""
                    | None => ""
                    end
      end
  end.

(** The first message of a list of checks. *)
Definition first_error (checks : list string) : string := default "" (head (filter (λ m, m ≠ "") checks)).

Definition ddbIndexKeyError (t : DDBTable) (item : attributes) : string :=
  first_error (flat_map (λ index, map (index_key_error t item index) (index_schema index)) (ddbIndexes t)).

Definition ddbItemKeyError (t : DDBTable) (item : attributes) : string :=
  first_error
    (ddbNumbersError item ::
     map (λ k, match item !! AttributeName k with
               | None => "One of the required keys was not given a value"
               | Some value => ddbKeyValueError t (AttributeName k) value
               end) (KeySchema t) ++
     [ddbIndexKeyError t item]).

Definition wrong_key_count : string := "The number of conditions on the keys is invalid".

Definition ddbKeyParamError (t : DDBTable) (key : attributes) : string :=
  if negb (size key =? length (KeySchema t))%nat then wrong_key_count
  else first_error
         (map (λ k, match key !! AttributeName k with
                    | None => wrong_key_count
                    | Some value => ddbKeyValueError t (AttributeName k) value
                    end) (KeySchema t) ++
          [ddbNumbersError key]).

(** ** A partition's keys in a sorted listing *)

Definition ddbKeyInPartition (key prefix : string) : bool :=
  String.eqb key prefix || HasPrefix key (prefix +:+ ddbKeySeparator).

Fixpoint partition_run (prefix : string) (keys : list string) : list string :=
  match keys with
  | k :: keys => if ddbKeyInPartition k prefix then k :: partition_run prefix keys else []
  | [] => []
  end.

Definition ddbKeysInPartition (keys : list string) (prefix : string) : list string :=
  partition_run prefix (drop (SearchStrings keys prefix) keys).

(** ** Byte codes that keep the order *)

(** Codes compare as the bytes they stand for, whatever follows. *)
Definition order_code (f : ascii → string) : Prop :=
  (∀ c, f c ≠ "") ∧
  ∀ x y r r', String.compare (f x +:+ r) (f y +:+ r') = match Ascii.compare x y with Eq => String.compare r r' | c => c end.

Lemma map_bytes_compare f a b : order_code f → String.compare (map_bytes f a) (map_bytes f b) = String.compare a b.
Proof.
  intros [Hne Hf]. revert b. induction a as [|x a IH]; intros [|y b]; cbn [map_bytes].
  - done.
  - specialize (Hne y). by destruct (f y).
  - specialize (Hne x). by destruct (f x).
  - rewrite Hf, IH. done.
Qed.

Lemma Ascii_compare_byte x y : Ascii.compare x y = Z.compare (byte_of x) (byte_of y).
Proof. unfold Ascii.compare, byte_of. by rewrite N2Z.inj_compare. Qed.

Lemma compare_cons x y a b :
  String.compare (String x a) (String y b) = match Z.compare (byte_of x) (byte_of y) with Eq => String.compare a b | c => c end.
Proof. cbn [String.compare]. by rewrite Ascii_compare_byte. Qed.

Lemma escape_order : order_code escape_byte.
Proof.
  split; [intros c; unfold escape_byte; by case_match|]. intros x y r r'. rewrite Ascii_compare_byte.
  pose proof (byte_of_range x). pose proof (byte_of_range y). unfold escape_byte.
  destruct (Z.leb_spec (byte_of x) 2), (Z.leb_spec (byte_of y) 2); rewrite !append_cons_s, compare_cons, ?compare_cons;
    rewrite ?byte_of_char by lia; rewrite ?Z.compare_refl, ?(Z.add_comm _ 3), ?Z.add_compare_mono_l.
  - by destruct (_ ?= _)%Z.
  - rewrite !(proj2 (Z.compare_lt_iff _ _)) by lia. done.
  - rewrite !(proj2 (Z.compare_gt_iff _ _)) by lia. done.
  - by destruct (_ ?= _)%Z.
Qed.

Lemma byte_hex v : 0 ≤ v < 16 → byte_of (hex_digit v) = if v <? 10 then 48 + v else 87 + v.
Proof. intros. unfold hex_digit. apply byte_of_char. case_match; lia. Qed.

Lemma hex_compare v w : 0 ≤ v < 16 → 0 ≤ w < 16 → Z.compare (byte_of (hex_digit v)) (byte_of (hex_digit w)) = Z.compare v w.
Proof.
  intros. rewrite !byte_hex by done. destruct (Z.ltb_spec v 10), (Z.ltb_spec w 10), (Z.compare_spec v w); subst;
    rewrite ?Z.compare_refl, ?Z.compare_lt_iff, ?Z.compare_gt_iff; try done; try lia.
Qed.

Lemma hex_order : order_code hex_byte.
Proof.
  split; [done|]. intros x y r r'. rewrite Ascii_compare_byte. pose proof (byte_of_range x). pose proof (byte_of_range y).
  unfold hex_byte. rewrite !append_cons_s, !compare_cons, !hex_compare by dlia.
  destruct (Z.compare_spec (byte_of x) (byte_of y)) as [E|E|E].
  - rewrite E, !Z.compare_refl. done.
  - destruct (Z.compare_spec (byte_of x / 16) (byte_of y / 16)); [|done|dlia].
    rewrite (proj2 (Z.compare_lt_iff _ _)) by dlia. done.
  - destruct (Z.compare_spec (byte_of x / 16) (byte_of y / 16)); [|dlia|done].
    rewrite (proj2 (Z.compare_gt_iff _ _)) by dlia. done.
Qed.

(** The shortcut for a text without low bytes changes nothing. *)
Lemma ddbEscapeKeyText_map s : ddbEscapeKeyText s = map_bytes escape_byte s.
Proof.
  unfold ddbEscapeKeyText. destruct (contains_low s) eqn:E; [done|]. simpl. unfold contains_low in E.
  induction s as [|c s IH]; [done|]. cbn in E. apply orb_false_iff in E as [Ec Es]. cbn [map_bytes].
  unfold escape_byte at 1. rewrite Ec, append_cons_s. by rewrite <- IH.
Qed.

(** ** The order of encoded numbers *)

Lemma scale_loop_spec fuel a b shift x k :
  0 < b → 0 ≤ shift ≤ 400 → scale_loop fuel a b shift = Some (x, k) →
  ∃ j, x = a * 10 ^ j ∧ k = shift + j ∧ 0 ≤ j ∧ k ≤ 400 ∧ (b | x).
Proof.
  intros Hb. revert a shift. induction fuel as [|fuel IH]; intros a shift Hs; cbn [scale_loop];
    (destruct (Z.eqb_spec (Z.rem a b) 0) as [E|E]; [intros [= <- <-]; exists 0; rewrite Z.pow_0_r; split_and!; try lia;
       apply Z.rem_divide in E; [|lia]; by rewrite ?Z.mul_1_r|]); [done|].
  destruct (Z.ltb_spec 400 (shift + 1)); [done|]. intros Hx%IH; [|lia]. destruct Hx as (j & -> & -> & Hj & Hk & Hd). exists (j + 1).
  rewrite Z.pow_add_r by lia. change (10 ^ 1) with 10. split_and!; try lia. by replace (a * (10 ^ j * 10)) with (a * 10 * 10 ^ j) by ring.
Qed.

Lemma chars_snoc s c : chars (s +:+ String c "") = chars s ++ [c].
Proof. by rewrite chars_app. Qed.

(** Dropping the zeros a decimal ends in divides it by powers of ten. *)
Lemma TrimRight_zeros_pad k n :
  0 < n < 10 ^ Z.of_nat k →
  ∃ j m, (j ≤ k)%nat ∧ TrimRight_zeros (pad k n) = pad j m ∧ n = m * 10 ^ Z.of_nat (k - j) ∧ 0 ≤ m < 10 ^ Z.of_nat j ∧ m mod 10 ≠ 0.
Proof.
  revert n. induction k as [|k IH]; intros n Hn; [change (10 ^ Z.of_nat 0) with 1 in Hn; lia|].
  rewrite pad_snoc by lia. unfold TrimRight_zeros. rewrite chars_snoc, rev_app_distr. cbn [rev app drop_zeros].
  pose proof (Z.mod_pos_bound n 10 ltac:(lia)). rewrite Nat2Z.inj_succ, Z.pow_succ_r in Hn by lia.
  destruct (decide (n mod 10 = 0)) as [E|E].
  - rewrite E. change (Ascii.eqb (digit 0) (char_of 48)) with true. cbn iota.
    destruct (IH (n / 10)) as (j & m & Hj & Ht & Hm & Hb & Hz); [dlia|]. exists j, m.
    unfold TrimRight_zeros in Ht. rewrite Ht. split_and!; try done; try lia.
    replace (S k - j)%nat with (S (k - j)) by lia. rewrite Nat2Z.inj_succ, Z.pow_succ_r by lia.
    replace (m * (10 * 10 ^ Z.of_nat (k - j))) with (10 * (n / 10)) by lia. dlia.
  - destruct (Ascii.eqb_spec (digit (n mod 10)) (char_of 48)) as [Ed|_].
    { apply (f_equal Ascii.N_of_ascii) in Ed. rewrite N_of_digit in Ed by done. vm_compute (Ascii.N_of_ascii (char_of 48)) in Ed. lia. }
    exists (S k), n. rewrite Nat.sub_diag, Z.mul_1_r. split_and!; try done; try lia.
    + rewrite <- rev_unit, rev_involutive, <- chars_snoc, text_chars.
      rewrite pad_snoc; [done|]. rewrite Nat2Z.inj_succ, Z.pow_succ_r by lia. lia.
    + rewrite Nat2Z.inj_succ, Z.pow_succ_r by lia. lia.
Qed.

(** The positive rational [a / d] is [0.m × 10^(x - 500)], where [m] has [j]
    digits, the first and the last of them not zero. *)
Definition decimal_shape (a d x : Z) (j : nat) (m : Z) : Prop :=
  a * 10 ^ (Z.of_nat j + 500) = m * 10 ^ x * d ∧ 10 ^ (Z.of_nat j - 1) ≤ m < 10 ^ Z.of_nat j ∧ m mod 10 ≠ 0 ∧ (0 < j)%nat ∧ 0 ≤ x ≤ 999.

Lemma ordered_rat_shape r e :
  rat_ok r → num r ≠ 0 → ordered_rat r = Some e →
  ∃ x j m, decimal_shape (Z.abs (num r)) (den r) x j m ∧
    e = if num r <? 0 then "0" +:+ pad 3 (999 - x) +:+ nines_complement (pad j m) +:+ tilde else "2" +:+ pad 3 x +:+ pad j m.
Proof.
  intros [Hd _] Hn. unfold ordered_rat, Sign. destruct (Z.eqb_spec (Z.sgn (num r)) 0) as [|_]; [lia|].
  destruct (scale_loop _ _ _ _) as [[a s]|] eqn:E; [|done].
  apply scale_loop_spec in E as (s' & -> & -> & Hs & Hs4 & [q Hq]); [|lia..]. rewrite Z.add_0_l.
  assert (0 < 10 ^ s') by (apply Z.pow_pos_nonneg; lia). assert (0 < q) by nia.
  rewrite Hq, Z.quot_mul by lia.
  destruct (big_String_pad q) as (k & -> & Hk); [done|]. rewrite length_pad.
  destruct (TrimRight_zeros_pad (S k) q) as (j & m & Hj & -> & Hm & Hb & Hz); [lia|].
  set (x := Z.of_nat (S k) - s' + 500). destruct (orb _ _) eqn:Ex; [done|]. bools. intros He. exists x, j, m. split.
  - assert (0 < j)%nat by (destruct j; [change (10 ^ Z.of_nat 0) with 1 in Hb; replace m with 0 in Hz by lia; done|lia]).
    assert (10 ^ Z.of_nat k = 10 ^ (Z.of_nat j - 1) * 10 ^ Z.of_nat (S k - j)) as P by (rewrite <- Z.pow_add_r by lia; f_equal; lia).
    pose proof (pow10_pos (S k - j)). split_and!; try lia; [|nia].
    replace (Z.of_nat j + 500) with (s' + (Z.of_nat j + 500 - s')) by lia. rewrite Z.pow_add_r, Z.mul_assoc, Hq, Hm by lia.
    replace x with (Z.of_nat (S k - j) + (Z.of_nat j + 500 - s')) by lia. rewrite Z.pow_add_r by lia. ring.
  - destruct (Z.ltb_spec (Z.sgn (num r)) 0), (Z.ltb_spec (num r) 0); try lia; cbn [negb] in He; congruence.
Qed.

Lemma shape_cross a1 d1 x1 j1 m1 a2 d2 x2 j2 m2 :
  0 < d1 → 0 < d2 → decimal_shape a1 d1 x1 j1 m1 → decimal_shape a2 d2 x2 j2 m2 →
  Z.compare (a1 * d2) (a2 * d1) = Z.compare (m1 * 10 ^ (x1 + Z.of_nat j2)) (m2 * 10 ^ (x2 + Z.of_nat j1)).
Proof.
  intros H1 H2 (E1 & _ & _ & _ & ?) (E2 & _ & _ & _ & ?).
  set (p := 10 ^ (Z.of_nat j1 + Z.of_nat j2 + 500)). assert (0 < p) by (apply Z.pow_pos_nonneg; lia).
  rewrite (Zmult_compare_compat_r (a1 * d2) _ p) by lia. rewrite (Zmult_compare_compat_r (m1 * _) _ (d1 * d2)) by nia.
  f_equal.
  - replace p with (10 ^ (Z.of_nat j1 + 500) * 10 ^ Z.of_nat j2) by (subst p; rewrite <- Z.pow_add_r by lia; f_equal; lia).
    rewrite (Z.pow_add_r 10 x1) by lia. transitivity (a1 * 10 ^ (Z.of_nat j1 + 500) * d2 * 10 ^ Z.of_nat j2); [ring|]. rewrite E1. ring.
  - replace p with (10 ^ (Z.of_nat j2 + 500) * 10 ^ Z.of_nat j1) by (subst p; rewrite <- Z.pow_add_r by lia; f_equal; lia).
    rewrite (Z.pow_add_r 10 x2) by lia. transitivity (a2 * 10 ^ (Z.of_nat j2 + 500) * d1 * 10 ^ Z.of_nat j1); [ring|]. rewrite E2. ring.
Qed.

(** A larger exponent outweighs every digit. *)
Lemma shape_exponent a1 d1 x1 j1 m1 a2 d2 x2 j2 m2 :
  decimal_shape a1 d1 x1 j1 m1 → decimal_shape a2 d2 x2 j2 m2 → x1 < x2 →
  m1 * 10 ^ (x1 + Z.of_nat j2) < m2 * 10 ^ (x2 + Z.of_nat j1).
Proof.
  intros (_ & H1 & _ & ? & ?) (_ & H2 & _ & ? & ?) Hx.
  assert (∀ z, 0 ≤ z → 0 < 10 ^ z) as P by (intros; apply Z.pow_pos_nonneg; lia).
  apply Z.lt_le_trans with (10 ^ (Z.of_nat j1 + (x1 + Z.of_nat j2))).
  - rewrite (Z.pow_add_r 10 (Z.of_nat j1)) by lia. apply Z.mul_lt_mono_pos_r; [apply P; lia|lia].
  - transitivity (10 ^ ((Z.of_nat j2 - 1) + (x2 + Z.of_nat j1))); [apply Z.pow_le_mono_r; lia|].
    rewrite (Z.pow_add_r 10 (Z.of_nat j2 - 1)) by lia. apply Z.mul_le_mono_pos_r; [apply P; lia|lia].
Qed.

Lemma compare_same_length (a b x y : string) :
  String.length a = String.length b →
  String.compare (a +:+ x) (b +:+ y) = match String.compare a b with Eq => String.compare x y | c => c end.
Proof.
  revert b. induction a as [|c a IH]; intros [|d b] H; try done. rewrite !append_cons_s, !compare_cons, IH by (simpl in H; lia).
  by destruct (_ ?= _)%Z.
Qed.

Lemma pad3_compare x y : 0 ≤ x ≤ 999 → 0 ≤ y ≤ 999 → String.compare (pad 3 x) (pad 3 y) = Z.compare x y.
Proof. intros. apply pad_compare; change (10 ^ Z.of_nat 3) with 1000; lia. Qed.

Lemma decimal_compare a1 d1 x1 j1 m1 a2 d2 x2 j2 m2 :
  0 < d1 → 0 < d2 → decimal_shape a1 d1 x1 j1 m1 → decimal_shape a2 d2 x2 j2 m2 →
  Z.compare (a1 * d2) (a2 * d1) = match Z.compare x1 x2 with Eq => String.compare (pad j1 m1) (pad j2 m2) | c => c end.
Proof.
  intros H1 H2 S1 S2. rewrite (shape_cross _ _ _ _ _ _ _ _ _ _ H1 H2 S1 S2).
  destruct (Z.compare_spec x1 x2) as [<-|Hx|Hx].
  - destruct S1 as (_ & B1 & Z1 & P1 & X1), S2 as (_ & B2 & Z2 & P2 & X2).
    assert (∀ j : nat, (0 < j)%nat → 0 < 10 ^ (Z.of_nat j - 1)) as P by (intros; apply Z.pow_pos_nonneg; lia).
    pose proof (P j1 P1). pose proof (P j2 P2).
    rewrite (fraction_compare j1 j2 m1 m2 (j1 + j2)%nat) by (try (by right); lia).
    replace (j1 + j2 - j1)%nat with j2 by lia. replace (j1 + j2 - j2)%nat with j1 by lia.
    rewrite !(Z.pow_add_r 10 x1), !(Z.mul_comm (10 ^ x1)), !Z.mul_assoc by lia.
    symmetry. apply Zmult_compare_compat_r, Z.lt_gt, Z.pow_pos_nonneg; lia.
  - apply Z.compare_lt_iff. eapply shape_exponent; eauto.
  - apply Z.compare_gt_iff. eapply shape_exponent; eauto.
Qed.

Lemma nines_cons x a : nines_complement (String x a) = String (char_of (57 - (byte_of x - 48))) (nines_complement a).
Proof. done. Qed.

Lemma nines_compare a b :
  Forall is_digit (chars a) → Forall is_digit (chars b) →
  String.compare (nines_complement a +:+ tilde) (nines_complement b +:+ tilde) = String.compare b a.
Proof.
  unfold tilde. revert b. induction a as [|x a IH]; intros [|y b] Ha Hb; rewrite ?nines_cons.
  - done.
  - apply Forall_cons in Hb as [Hy _]. unfold is_digit in Hy. rewrite append_cons_s.
    change (nines_complement "" +:+ ?t) with t. rewrite compare_cons, !byte_of_char by lia.
    by rewrite (proj2 (Z.compare_gt_iff _ _)) by lia.
  - apply Forall_cons in Ha as [Hx _]. unfold is_digit in Hx. rewrite append_cons_s.
    change (nines_complement "" +:+ ?t) with t. rewrite compare_cons, !byte_of_char by lia.
    by rewrite (proj2 (Z.compare_lt_iff _ _)) by lia.
  - apply Forall_cons in Ha as [Hx Ha]. apply Forall_cons in Hb as [Hy Hb]. unfold is_digit in Hx, Hy.
    rewrite !append_cons_s, !compare_cons, !byte_of_char, <- (IH b Ha Hb) by lia.
    destruct (Z.compare_spec (byte_of y) (byte_of x)) as [E|E|E].
    + by rewrite E, Z.compare_refl.
    + by rewrite (proj2 (Z.compare_lt_iff _ _)) by lia.
    + by rewrite (proj2 (Z.compare_gt_iff _ _)) by lia.
Qed.

Lemma shape_digits a d x j m : decimal_shape a d x j m → Forall is_digit (chars (pad j m)).
Proof. intros (_ & H & _ & ? & _). apply pad_digits. split; [|lia]. transitivity (10 ^ (Z.of_nat j - 1)); [apply Z.pow_nonneg|]; lia. Qed.

(** Encoded numbers compare as the numbers. *)
Lemma ordered_rat_compare r1 r2 e1 e2 :
  rat_ok r1 → rat_ok r2 → ordered_rat r1 = Some e1 → ordered_rat r2 = Some e2 → String.compare e1 e2 = Cmp r1 r2.
Proof.
  intros R1 R2 E1 E2. pose proof (proj1 R1). pose proof (proj1 R2). unfold Cmp.
  assert (∀ r e, num r = 0 → ordered_rat r = Some e → e = "1") as Z0.
  { intros r e Hr. unfold ordered_rat, Sign. rewrite Hr. simpl. congruence. }
  destruct (decide (num r1 = 0)) as [N1|N1], (decide (num r2 = 0)) as [N2|N2].
  - rewrite (Z0 _ _ N1 E1), (Z0 _ _ N2 E2), N1, N2, !Z.mul_0_l. done.
  - apply ordered_rat_shape in E2 as (x & j & m & _ & ->); [|done..]. rewrite (Z0 _ _ N1 E1), N1, Z.mul_0_l.
    symmetry. destruct (Z.ltb_spec (num r2) 0); [apply Z.compare_gt_iff|apply Z.compare_lt_iff]; nia.
  - apply ordered_rat_shape in E1 as (x & j & m & _ & ->); [|done..]. rewrite (Z0 _ _ N2 E2), N2, Z.mul_0_l.
    symmetry. destruct (Z.ltb_spec (num r1) 0); [apply Z.compare_lt_iff|apply Z.compare_gt_iff]; nia.
  - apply ordered_rat_shape in E1 as (x1 & j1 & m1 & S1 & ->); [|done..].
    apply ordered_rat_shape in E2 as (x2 & j2 & m2 & S2 & ->); [|done..].
    pose proof S1 as (_ & _ & _ & _ & X1). pose proof S2 as (_ & _ & _ & _ & X2).
    destruct (Z.ltb_spec (num r1) 0), (Z.ltb_spec (num r2) 0).
    + rewrite compare_append_l, compare_same_length, pad3_compare by (rewrite ?length_pad; lia).
      rewrite nines_compare by (eapply shape_digits; eauto). rewrite Z.abs_neq in S1, S2 by lia.
      assert (Z.compare (num r1 * den r2) (num r2 * den r1) = Z.compare (- num r2 * den r1) (- num r1 * den r2)) as ->.
      { by rewrite !Z.mul_opp_l, Z.compare_opp. }
      rewrite (decimal_compare _ _ _ _ _ _ _ _ _ _ (proj1 R2) (proj1 R1) S2 S1).
      rewrite (Z.compare_sub (_ - _)), (Z.compare_sub x2 x1). by replace (999 - x1 - (999 - x2)) with (x2 - x1) by lia.
    + symmetry. apply Z.compare_lt_iff. nia.
    + symmetry. apply Z.compare_gt_iff. nia.
    + rewrite compare_append_l, compare_same_length, pad3_compare by (rewrite ?length_pad; lia).
      rewrite Z.abs_eq in S1, S2 by lia. symmetry. by apply decimal_compare.
Qed.

(** ** Key values and their order *)

(** What a key attribute means: a string, a number or a binary. *)
Inductive scalar := StringKey (s : string) | NumberKey (r : Rat) | BinaryKey (raw : string).

Definition scalar_of (v : any) : option scalar :=
  m ← as_map v;
  match as_string (at_key m "S"), as_string (at_key m "N"), as_string (at_key m "B") with
  | Some s, _, _ => Some (StringKey s)
  | None, Some n, _ => NumberKey <$> SetString (TrimSpace n)
  | None, None, Some b => BinaryKey <$> DecodeString StdEncoding b
  | None, None, None => None
  end.

(** Strings and binaries by their bytes, numbers by their value, and the types
    apart. *)
Definition scalar_compare (a b : scalar) : comparison :=
  match a, b with
  | StringKey s, StringKey s' => String.compare s s'
  | NumberKey r, NumberKey r' => Cmp r r'
  | BinaryKey x, BinaryKey x' => String.compare x x'
  | BinaryKey _, _ | NumberKey _, StringKey _ => Lt
  | _, _ => Gt
  end.

Definition encode_scalar (a : scalar) : option string :=
  match a with
  | StringKey s => Some ("S" +:+ map_bytes escape_byte s)
  | NumberKey r => (λ e, "N" +:+ e) <$> ordered_rat r
  | BinaryKey raw => Some ("B" +:+ map_bytes hex_byte raw)
  end.

Definition scalar_ok (a : scalar) : Prop := match a with NumberKey r => rat_ok r | _ => True end.

Lemma extract_scalar v :
  ddbExtractAttrValue v ≠ "" →
  ∃ a, scalar_of v = Some a ∧ scalar_ok a ∧ encode_scalar a = Some (ddbExtractAttrValue v).
Proof.
  unfold ddbExtractAttrValue, scalar_of. destruct (as_map v) as [m|]; [|done]. simpl. intros Hv.
  destruct (as_string (at_key m "S")) as [s|].
  { exists (StringKey s). simpl. by rewrite ddbEscapeKeyText_map. }
  destruct (as_string (at_key m "N")) as [n|].
  { unfold ddbOrderedNumber in *. destruct (SetString _) as [r|] eqn:E; [|done]. exists (NumberKey r). simpl.
    apply SetString_ok in E. by destruct (ordered_rat r). }
  destruct (as_string (at_key m "B")) as [b|]; [|done]. destruct (DecodeString _ _) as [raw|]; [|done]. by exists (BinaryKey raw).
Qed.

Lemma encode_compare a b x y :
  scalar_ok a → scalar_ok b → encode_scalar a = Some x → encode_scalar b = Some y → String.compare x y = scalar_compare a b.
Proof.
  intros Ha Hb Hx Hy. destruct a, b; simpl in Hx, Hy; simplify_option_eq; cbn [scalar_compare]; try done.
  all: rewrite compare_append_l; auto using map_bytes_compare, escape_order, hex_order, ordered_rat_compare.
Qed.

Lemma scalar_compare_eq a b : scalar_ok a → scalar_ok b → scalar_compare a b = Eq → a = b.
Proof.
  destruct a, b; simpl; try done; intros ?? E; f_equal; try by apply String.compare_eq_iff. by apply Cmp_eq.
Qed.

Lemma scalar_compare_refl a : scalar_compare a a = Eq.
Proof. destruct a; simpl; auto using compare_refl_s, Cmp_refl. Qed.

(** ** Encoded components hold no separator *)

Definition component (s : string) : Prop := Forall (λ c, 2 ≤ byte_of c) (chars s).

Lemma component_check s : forallb (λ c, 2 <=? byte_of c) (chars s) = true → component s.
Proof. rewrite forallb_elem. intros H. apply Forall_forall. intros c Hc. apply Z.leb_le. auto. Qed.

Lemma component_app a b : component (a +:+ b) ↔ component a ∧ component b.
Proof. unfold component. by rewrite chars_app, Forall_app. Qed.

Lemma component_map f s : (∀ c, component (f c)) → component (map_bytes f s).
Proof. intros Hf. induction s as [|c s IH]; [constructor|]. apply component_app. auto. Qed.

Lemma component_digits s : Forall is_digit (chars s) → component s.
Proof. intros H. eapply Forall_impl; [exact H|]. unfold is_digit. lia. Qed.

Lemma component_nines s : Forall is_digit (chars s) → component (nines_complement s).
Proof.
  unfold nines_complement, component. rewrite chars_text. intros H. apply Forall_map. eapply Forall_impl; [exact H|].
  intros c. unfold is_digit. simpl. intros. rewrite byte_of_char; lia.
Qed.

Lemma component_ordered r e : rat_ok r → ordered_rat r = Some e → component e.
Proof.
  intros Hr He. destruct (decide (num r = 0)) as [N|N].
  { unfold ordered_rat, Sign in He. rewrite N in He. simpl in He. simplify_eq. by apply component_check. }
  apply ordered_rat_shape in He as (x & j & m & Hs & ->); [|done..]. pose proof (shape_digits _ _ _ _ _ Hs) as Hd.
  destruct Hs as (_ & _ & _ & _ & Hx).
  assert (∀ z, 0 ≤ z ≤ 999 → component (pad 3 z)) as Hp by (intros; apply component_digits, pad_digits; change (10 ^ Z.of_nat 3) with 1000; lia).
  case_match; rewrite !component_app; split_and!; auto using component_digits, component_nines; try (apply Hp; lia).
  all: by apply component_check.
Qed.

Lemma component_extract v : component (ddbExtractAttrValue v).
Proof.
  destruct (decide (ddbExtractAttrValue v = "")) as [->|N]; [constructor|].
  destruct (extract_scalar v N) as (a & _ & Ha & He). generalize dependent (ddbExtractAttrValue v). intros e _ He.
  destruct a; simpl in He; simplify_option_eq; apply component_app.
  all: split; [by apply component_check|].
  - apply component_map. intros c. unfold escape_byte, component. pose proof (byte_of_range c).
    destruct (Z.leb_spec (byte_of c) 2); repeat constructor; rewrite ?byte_of_char by lia; lia.
  - by eapply component_ordered.
  - apply component_map. intros c. unfold hex_byte, component. pose proof (byte_of_range c).
    repeat constructor; rewrite byte_hex by dlia; case_match; dlia.
Qed.

(** ** Store keys *)

(** What follows the hash in a key: nothing, or a separator and the range. *)
Definition range_tail (rng : string) : string := if negb (String.eqb rng "") then ddbKeySeparator +:+ rng else "".

Lemma ddbItemKey_parts t item :
  ddbItemKey t item = TableName t +:+ "/" +:+ (key_parts (KeySchema t) item).1 +:+ range_tail (key_parts (KeySchema t) item).2.
Proof.
  unfold ddbItemKey, range_tail. destruct (key_parts _ _) as [hash rng]. simpl. case_match; [done|]. by rewrite append_nil_s.
Qed.

Lemma key_parts_component schema item :
  component (key_parts schema item).1 ∧ component (key_parts schema item).2.
Proof.
  assert (∀ p, component p.1 ∧ component p.2 → component (foldl (key_part item) p schema).1 ∧ component (foldl (key_part item) p schema).2) as H.
  { induction schema as [|k schema IH]; intros p [H1 H2]; [done|]. apply IH. unfold key_part.
    repeat case_match; simpl; auto using component_extract. }
  apply H. split; constructor.
Qed.

Lemma sep_not_in s : component s → char_of 1 ∉ chars s.
Proof. intros H Hin. unfold component in H. rewrite Forall_forall in H. specialize (H _ Hin). rewrite byte_of_char in H; lia. Qed.

Lemma Cut_sep a r : component a → Cut (a +:+ ddbKeySeparator +:+ r) ddbKeySeparator = Some (a, r).
Proof. intros Ha. by apply (Cut_char (char_of 1)), sep_not_in. Qed.

Lemma Cut_sep_none a : component a → Cut a ddbKeySeparator = None.
Proof. intros Ha. by apply (Cut_char_none (char_of 1)), sep_not_in. Qed.

(** The hash ends where the separator, which it cannot hold, begins. *)
Lemma hash_cut a b x y : component a → component b → a +:+ range_tail x = b +:+ range_tail y → a = b ∧ x = y.
Proof.
  intros Ha Hb E. pose proof (f_equal (λ s, Cut s ddbKeySeparator) E) as C. simpl in C. unfold range_tail in *.
  destruct (String.eqb_spec x ""), (String.eqb_spec y ""); cbn [negb] in *; rewrite ?append_nil_s, ?Cut_sep, ?Cut_sep_none in * by done; simplify_eq.
  all: done.
Qed.

Lemma append_inj_l (p a b : string) : p +:+ a = p +:+ b → a = b.
Proof. induction p as [|c p IH]; [done|]. rewrite !append_cons_s. intros [= E]. auto. Qed.

Lemma ddbItemKey_inj t i j :
  ddbItemKey t i = ddbItemKey t j → key_parts (KeySchema t) i = key_parts (KeySchema t) j.
Proof.
  rewrite !ddbItemKey_parts. intros E%append_inj_l%append_inj_l. apply hash_cut in E as [E1 E2]; [|apply key_parts_component..].
  destruct (key_parts _ i), (key_parts _ j). simpl in *. congruence.
Qed.

(** ** Partitions *)

(** A key of table [t] whose hash is [hash]. *)
Definition key_of_hash (t : DDBTable) (hash key : string) : Prop :=
  ∃ rng, component rng ∧ key = TableName t +:+ "/" +:+ hash +:+ range_tail rng.

Lemma ddbItemKey_hash t item : key_of_hash t (key_parts (KeySchema t) item).1 (ddbItemKey t item).
Proof. eexists. split; [apply (key_parts_component (KeySchema t) item)|apply ddbItemKey_parts]. Qed.

Lemma ddbKeyInPartition_spec t hash hash' key :
  component hash → component hash' → key_of_hash t hash key →
  ddbKeyInPartition key (TableName t +:+ "/" +:+ hash') = true ↔ hash = hash'.
Proof.
  intros Hh Hh' (rng & Hr & ->). unfold ddbKeyInPartition. rewrite orb_true_iff, String.eqb_eq, HasPrefix_spec. split.
  - intros [E|[r E]].
    + apply append_inj_l, append_inj_l in E. rewrite <- (append_nil_s hash') in E.
      by apply (hash_cut hash hash' rng "") in E as [??].
    + rewrite !append_assoc_s in E. apply append_inj_l, append_inj_l in E.
      apply (f_equal (λ s, Cut s ddbKeySeparator)) in E. rewrite (Cut_sep hash') in E by done. unfold range_tail in E.
      destruct (negb _); rewrite ?append_nil_s, ?Cut_sep, ?Cut_sep_none in E by done; by simplify_eq.
  - intros ->. unfold range_tail. destruct (negb _); [right|left; by rewrite append_nil_s]. exists rng. by rewrite !append_assoc_s.
Qed.

(** The keys of a table's items. *)
Definition table_keys (t : DDBTable) (keys : list string) : Prop :=
  ∀ k, k ∈ keys → ∃ hash, component hash ∧ key_of_hash t hash k.

Lemma in_partition_prefix key prefix : ddbKeyInPartition key prefix = true → HasPrefix key prefix = true.
Proof.
  unfold ddbKeyInPartition. rewrite orb_true_iff, String.eqb_eq. intros [->|[r ->]%HasPrefix_spec].
  - rewrite <- (append_nil_s prefix) at 1. apply HasPrefix_append.
  - rewrite append_assoc_s. apply HasPrefix_append.
Qed.

Lemma in_partition_self prefix : ddbKeyInPartition prefix prefix = true.
Proof. unfold ddbKeyInPartition. by rewrite String.eqb_refl. Qed.

(** No byte of a key's body sorts below the separator, so nothing outside a
    partition sorts between its keys. *)
Lemma key_body_bytes t hash hash' key c r :
  component hash → key_of_hash t hash key → key = TableName t +:+ "/" +:+ hash' +:+ String c r → 1 ≤ byte_of c.
Proof.
  intros Hh (rng & Hr & ->) E. apply append_inj_l, append_inj_l in E.
  assert (Forall (λ c, 1 ≤ byte_of c) (chars (hash +:+ range_tail rng))) as HF.
  { unfold range_tail. rewrite chars_app, Forall_app. split; [eapply Forall_impl; [exact Hh|]; simpl; lia|].
    destruct (negb _); [|constructor]. rewrite chars_app, Forall_app. split; [repeat constructor; done|].
    eapply Forall_impl; [exact Hr|]; simpl; lia. }
  rewrite E, chars_app, Forall_app in HF. destruct HF as [_ HF]. by apply Forall_cons in HF as [? _].
Qed.

Lemma partition_gap t hash k k' h :
  component h → key_of_hash t h k → let p := TableName t +:+ "/" +:+ hash in
  sltb k p = false → ddbKeyInPartition k p = false → slt k k' → ddbKeyInPartition k' p = false.
Proof.
  intros Hh Hk p Hge Hout Hlt. apply not_true_iff_false. intros Hin. pose proof (in_partition_prefix _ _ Hin) as Hp.
  destruct (HasPrefix k p) eqn:Hkp.
  - apply HasPrefix_spec in Hkp as [s Hs]. destruct s as [|c s].
    { rewrite append_nil_s in Hs. by rewrite Hs, in_partition_self in Hout. }
    assert (1 ≤ byte_of c) as Hc by (eapply (key_body_bytes t h hash k); [done..|]; rewrite Hs; subst p; by rewrite !append_assoc_s).
    unfold ddbKeyInPartition in Hin. apply orb_true_iff in Hin as [Hin%String.eqb_eq|[r Hr]%HasPrefix_spec].
    + rewrite Hin, Hs in Hlt. rewrite <- (append_nil_s p) in Hlt at 2. by apply slt_append_l in Hlt.
    + rewrite Hr, Hs, append_assoc_s in Hlt. apply slt_append_l in Hlt. unfold ddbKeySeparator in Hlt. rewrite append_cons_s in Hlt.
      apply slt_cons in Hlt as [Hlt|[-> _]].
      * change (Ascii.N_of_ascii (char_of 1)) with 1%N in Hlt. unfold byte_of in Hc. lia.
      * unfold ddbKeyInPartition in Hout. apply orb_false_iff in Hout as [_ Hout]. rewrite Hs in Hout.
        change (String (char_of 1) s) with (ddbKeySeparator +:+ s) in Hout. by rewrite <- append_assoc_s, HasPrefix_append in Hout.
  - pose proof (prefix_run _ _ _ Hkp Hge Hp) as Hlt'. eapply slt_irrefl. etrans; [exact Hlt|exact Hlt'].
Qed.

Lemma partition_run_filter t hash keys :
  let p := TableName t +:+ "/" +:+ hash in
  table_keys t keys → StronglySorted slt keys → Forall (λ k, sltb k p = false) keys →
  partition_run p keys = filter (λ k, ddbKeyInPartition k p = true) keys.
Proof.
  intros p Hk Hs Hge. induction Hs as [|k keys Hs IH Hlt]; [done|]. apply Forall_cons in Hge as [Hgk Hge]. cbn [partition_run].
  rewrite filter_cons. destruct (ddbKeyInPartition k p) eqn:E.
  - rewrite decide_True by done. rewrite IH; [done| |done]. intros k' ?. apply Hk. by right.
  - rewrite decide_False by done. symmetry. apply filter_none. destruct (Hk k) as (h & ? & ?); [by left|].
    eapply Forall_impl; [exact Hlt|]. intros k' Hlt' Hin. apply not_false_iff_true in Hin. apply Hin. by apply (partition_gap t hash k k' h).
Qed.

Lemma ddbKeysInPartition_filter t hash keys :
  let p := TableName t +:+ "/" +:+ hash in
  table_keys t keys → StronglySorted slt keys →
  ddbKeysInPartition keys p = filter (λ k, ddbKeyInPartition k p = true) keys.
Proof.
  intros p Hk Hs. unfold ddbKeysInPartition. destruct (SearchStrings_spec keys p Hs) as (_ & Hlo & Hhi).
  set (i := SearchStrings keys p) in *. rewrite <- (take_drop i keys) at 2. rewrite filter_app, (filter_none _ (take i keys)).
  - apply partition_run_filter; [| |done].
    + intros k Hin. apply Hk. rewrite <- (take_drop i keys). apply elem_of_app. by right.
    + rewrite <- (take_drop i keys) in Hs. by apply StronglySorted_app_1_r in Hs.
  - eapply Forall_impl; [exact Hlo|]. intros k Hlt Hin%in_partition_prefix%HasPrefix_le. apply sltb_slt in Hlt. congruence.
Qed.

(** ** Validation *)

Lemma height_obj m k v : m !! k = Some v → (height v < height (Obj m))%nat.
Proof.
  intros Hk. cbn [height]. apply Nat.lt_succ_r. revert k v Hk.
  apply (map_fold_weak_ind (λ r m, ∀ k v, m !! k = Some v → (height v ≤ r)%nat)); [done|].
  intros i x m' r _ IH k v [[-> ->]|[_ Hk%IH]]%lookup_insert_Some; lia.
Qed.

Lemma height_arr l v : v ∈ l → (height v < height (Arr l))%nat.
Proof.
  intros Hv. cbn [height]. apply Nat.lt_succ_r. induction Hv as [v l|v w l Hv IH]; cbn [foldr]; lia.
Qed.

Lemma at_key_Some m k v : at_key m k = v → v ≠ Nil → m !! k = Some v.
Proof. unfold at_key. destruct (m !! k); simpl; congruence. Qed.

Lemma height_list m k v : v ∈ default [] (as_list (at_key m k)) → (height v < height (Obj m))%nat.
Proof.
  destruct (at_key m k) as [| | | |l|] eqn:E; cbn [as_list from_option]; try by intros ?%elem_of_nil. intros Hv%height_arr.
  apply at_key_Some, height_obj in E; [|done]. unfold id in Hv. lia.
Qed.

Lemma height_map m k v : v ∈ (map_to_list (default ∅ (as_map (at_key m k)))).*2 → (height v < height (Obj m))%nat.
Proof.
  destruct (at_key m k) as [| | | | |m'] eqn:E; cbn [as_map from_option]; try (rewrite map_to_list_empty; by intros ?%elem_of_nil).
  intros ([k' v'] & -> & Hv%elem_of_map_to_list%height_obj)%list_elem_of_fmap. apply at_key_Some, height_obj in E; [|done]. cbn [snd] in *. unfold id in Hv. lia.
Qed.

Lemma existsb_ext_elem {A} (f g : A → bool) l : (∀ x, x ∈ l → f x = g x) → existsb f l = existsb g l.
Proof. induction l as [|x l IH]; intros H; [done|]. simpl. rewrite H, IH; [done| |by left]. intros. apply H. by right. Qed.

(** The walk is never cut short: any fuel from the value's nesting up gives the
    same answer. *)
Lemma has_bad_number_fuel n n' v : (height v ≤ n)%nat → (height v ≤ n')%nat → has_bad_number n v = has_bad_number n' v.
Proof.
  revert n' v. induction n as [|n IH]; intros n' v Hn Hn'.
  { destruct v; cbn in Hn; try lia; by destruct n'. }
  destruct v as [| | | | |m]; try by destruct n'. destruct n' as [|n']; [simpl in Hn'; lia|]. cbn [has_bad_number as_map].
  destruct (as_string (at_key m "N")); [done|]. f_equal; [f_equal|]; apply existsb_ext_elem; intros v Hv.
  - apply height_list in Hv. apply IH; lia.
  - apply height_map in Hv. apply IH; lia.
Qed.

Lemma ddbValueHasBadNumber_map typed :
  ddbValueHasBadNumber (Obj typed) =
  match as_string (at_key typed "N") with
  | Some n => is_bad_number n
  | None =>
      existsb (λ member, match as_string member with Some n => is_bad_number n | None => true end) (default [] (as_list (at_key typed "NS"))) ||
      existsb ddbValueHasBadNumber (default [] (as_list (at_key typed "L"))) ||
      existsb ddbValueHasBadNumber (map_to_list (default ∅ (as_map (at_key typed "M")))).*2
  end.
Proof.
  unfold ddbValueHasBadNumber at 1. assert (height (Obj typed) = S (pred (height (Obj typed)))) as -> by done.
  cbn [has_bad_number as_map]. destruct (as_string (at_key typed "N")); [done|].
  f_equal; [f_equal|]; apply existsb_ext_elem; intros v Hv; apply has_bad_number_fuel; try done;
    [apply height_list in Hv|apply height_map in Hv]; lia.
Qed.

Lemma first_error_none checks : first_error checks = "" ↔ ∀ m, m ∈ checks → m = "".
Proof.
  unfold first_error. induction checks as [|c checks IH]; [split; [by intros _ m ?%elem_of_nil|done]|]. rewrite filter_cons.
  case_decide as Hc; simpl.
  - split; [done|]. intros H. apply H. by left.
  - subst c. rewrite IH. split; [intros H m [->|?]%elem_of_cons; auto|intros H m ?; apply H; by right].
Qed.

(** A key attribute whose typed value is the text it should be: a string, a
    number, or base64. *)
Definition readable_key (v : any) : Prop :=
  ∃ typed, v = Obj typed ∧
    ((∃ s, typed !! "S" = Some (Str s)) ∨ (∃ n, typed !! "N" = Some (Str n)) ∨
     ∃ b, typed !! "B" = Some (Str b) ∧ is_Some (DecodeString StdEncoding b)).

(** An accepted item has every key attribute, and each one that is readable is
    encoded. *)
Lemma accepted_keys_encode t item k :
  ddbItemKeyError t item = "" → k ∈ KeySchema t →
  ∃ v, item !! AttributeName k = Some v ∧ (readable_key v → ddbExtractAttrValue v ≠ "").
Proof.
  unfold ddbItemKeyError. rewrite first_error_none. intros H Hk.
  assert (ddbNumbersError item = "") as Hnum by (apply H; by left).
  specialize (H (match item !! AttributeName k with None => "One of the required keys was not given a value" | Some value => ddbKeyValueError t (AttributeName k) value end)).
  destruct (item !! AttributeName k) as [v|] eqn:Hv; [|discriminate H; right; apply elem_of_app; left; apply list_elem_of_In, in_map_iff; exists k; rewrite Hv; split; [done|by apply list_elem_of_In]].
  exists v. split; [done|]. intros (typed & -> & Hr). clear H.
  assert (ddbValueHasBadNumber (Obj typed) = false) as Hb.
  { unfold ddbNumbersError in Hnum. destruct (existsb _ _) eqn:E; [done|]. rewrite <- not_true_iff_false in E |- *. intros Hbad.
    apply E, existsb_elem. exists (Obj typed). split; [|done]. apply list_elem_of_fmap. exists (AttributeName k, Obj typed). split; [done|]. by apply elem_of_map_to_list. }
  rewrite ddbValueHasBadNumber_map in Hb. unfold is_bad_number in Hb. unfold ddbExtractAttrValue. cbn [as_map].
  destruct (as_string (at_key typed "S")) as [s|] eqn:ES; [done|].
  destruct (as_string (at_key typed "N")) as [n|] eqn:EN; [by destruct (ddbOrderedNumber n)|].
  destruct Hr as [[s Hs]|[[n Hn]|(b & Hbb & [raw Hraw])]].
  - unfold at_key in ES. by rewrite Hs in ES.
  - unfold at_key in EN. by rewrite Hn in EN.
  - unfold at_key. rewrite Hbb. simpl. by rewrite Hraw.
Qed.

(** ** The theorems *)

Lemma key_parts_hash_range h r item :
  key_parts [MkKeyEntry h "HASH"; MkKeyEntry r "RANGE"] item = (ddbExtractAttrValue (at_key item h), ddbExtractAttrValue (at_key item r)).
Proof. done. Qed.

Lemma accepted_key_scalar t item k :
  ddbItemKeyError t item = "" → k ∈ KeySchema t → readable_key (at_key item (AttributeName k)) →
  ∃ a, scalar_of (at_key item (AttributeName k)) = Some a ∧ scalar_ok a ∧
       encode_scalar a = Some (ddbExtractAttrValue (at_key item (AttributeName k))).
Proof.
  intros He Hk Hr. destruct (accepted_keys_encode t item k He Hk) as (v & Hv & Hne). 
  assert (at_key item (AttributeName k) = v) as E by (unfold at_key; by rewrite Hv). rewrite E in Hr |- *. by apply extract_scalar, Hne.
Qed.

Lemma encode_eq a b x y :
  scalar_ok a → scalar_ok b → encode_scalar a = Some x → encode_scalar b = Some y → x = y ↔ a = b.
Proof.
  intros Ha Hb Hx Hy. split; [|intros ->; congruence]. intros ->. apply scalar_compare_eq; [done..|].
  rewrite <- (encode_compare _ _ _ _ Ha Hb Hx Hy). apply compare_refl_s.
Qed.

(** [C33] Store keys are the items' primary keys in DynamoDB's order. For two
    items a table with a partition key and a sort key accepts, whose key
    attributes are readable texts of their type, the store keys are equal exactly
    when both key values are equal (numbers by value, binaries by their bytes),
    and within one partition the keys compare as the sort keys do: strings and
    binaries bytewise, numbers numerically, negative ones and fractions included. *)
Theorem item_keys_follow_the_key_order t h r i j :
  KeySchema t = [MkKeyEntry h "HASH"; MkKeyEntry r "RANGE"] →
  ddbItemKeyError t i = "" → ddbItemKeyError t j = "" →
  readable_key (at_key i h) → readable_key (at_key i r) → readable_key (at_key j h) → readable_key (at_key j r) →
  ∃ hi ri hj rj,
    scalar_of (at_key i h) = Some hi ∧ scalar_of (at_key i r) = Some ri ∧
    scalar_of (at_key j h) = Some hj ∧ scalar_of (at_key j r) = Some rj ∧
    (ddbItemKey t i = ddbItemKey t j ↔ hi = hj ∧ ri = rj) ∧
    (hi = hj → String.compare (ddbItemKey t i) (ddbItemKey t j) = scalar_compare ri rj).
Proof.
  intros Hs Ei Ej Rih Rir Rjh Rjr.
  assert (MkKeyEntry h "HASH" ∈ KeySchema t ∧ MkKeyEntry r "RANGE" ∈ KeySchema t) as [Kh Kr] by (rewrite Hs; split; set_solver).
  destruct (accepted_key_scalar t i _ Ei Kh Rih) as (hi & ? & Ohi & Xhi), (accepted_key_scalar t i _ Ei Kr Rir) as (ri & ? & Ori & Xri).
  destruct (accepted_key_scalar t j _ Ej Kh Rjh) as (hj & ? & Ohj & Xhj), (accepted_key_scalar t j _ Ej Kr Rjr) as (rj & ? & Orj & Xrj).
  cbn [AttributeName] in *. exists hi, ri, hj, rj. do 4 (split; [done|]).
  pose proof (encode_eq _ _ _ _ Ohi Ohj Xhi Xhj) as Eh. pose proof (encode_eq _ _ _ _ Ori Orj Xri Xrj) as Er.
  assert (∀ x a, encode_scalar a = Some x → range_tail x = ddbKeySeparator +:+ x) as Ht.
  { intros x a Ha. unfold range_tail. destruct (String.eqb_spec x ""); [|done]. subst x. destruct a; simpl in Ha; simplify_option_eq. }
  split.
  - rewrite <- Eh, <- Er. split.
    + intros E%ddbItemKey_inj. rewrite Hs, !key_parts_hash_range in E. by simplify_eq.
    + intros [E1 E2]. rewrite !ddbItemKey_parts, Hs, !key_parts_hash_range. simpl. by rewrite E1, E2.
  - intros ->. rewrite !ddbItemKey_parts, Hs, !key_parts_hash_range. cbn [fst snd]. rewrite (proj2 Eh eq_refl).
    rewrite !compare_append_l, (Ht _ _ Xri), (Ht _ _ Xrj), compare_append_l. by apply encode_compare.
Qed.

Definition sample_table : DDBTable :=
  MkTable "t" [MkAttrDef "p" "S"; MkAttrDef "q" "N"] [MkKeyEntry "p" "HASH"; MkKeyEntry "q" "RANGE"] [] [].
Definition typed (ty text : string) : any := Obj {[ ty := Str text ]}.
Definition sample_item (p q : string) : attributes := {[ "p" := typed "S" p; "q" := typed "N" q ]}.

Lemma item_keys_follow_the_key_order_witness :
  ∃ r s, scalar_of (typed "N" "-9.5") = Some (NumberKey r) ∧ scalar_of (typed "N" "1e1") = Some (NumberKey s) ∧
    String.compare (ddbItemKey sample_table (sample_item "a" "-9.5")) (ddbItemKey sample_table (sample_item "a" "1e1")) = Cmp r s.
Proof.
  assert (∀ ty x, ty = "S" ∨ ty = "N" → readable_key (typed ty x)) as R.
  { intros ty x Hty. eexists. split; [done|]. destruct Hty as [->| ->]; [left|right; left]; by exists x. }
  destruct (item_keys_follow_the_key_order sample_table "p" "q" (sample_item "a" "-9.5") (sample_item "a" "1e1"))
    as (hi & ri & hj & rj & E1 & E2 & E3 & E4 & _ & Ho); [reflexivity|by vm_compute|by vm_compute|apply R; auto..|].
  vm_compute in E1, E2, E3, E4. simplify_eq. eexists _, _. split; [by vm_compute|]. split; [by vm_compute|]. by apply Ho.
Defined.

(** A binary key that is not base64 passes validation and is stored under the
    empty hash, where it meets every other such item. *)
Example unreadable_binary_keys_collide :
  let t := MkTable "t" [MkAttrDef "p" "B"] [MkKeyEntry "p" "HASH"] [] [] in
  let i := {[ "p" := typed "B" "!" ]} in let j := {[ "p" := typed "B" "?" ]} in
  ddbItemKeyError t i = "" ∧ ddbItemKeyError t j = "" ∧ ddbItemKey t i = "t/" ∧ ddbItemKey t j = "t/".
Proof. by vm_compute. Qed.
