(* ===== verification/Ddbindex.v ===== *)
(** * DynamoDB item writes and secondary indexes: [src/simulator-aws/dynamodb_index.go]

    An item is written to three stores: the items, the names of their keys for
    ordered listing, and one entry per index that holds it. This file models the
    two item writers, the rebuilding and dropping of a table's entries, and the
    deletion of a table ([dynamodb.go]), over any stores that satisfy [StoreSpec],
    and proves that the entries are always those the items call for. *)

From S2P Require Import Prelude Gostd Store Bigrat Ddbkeys.

#[global] Instance GoZero_attributes : GoZero attributes := (∅ : attributes).

Definition ddbIndexPrefix (table index : string) : string := table +:+ "#" +:+ index +:+ "/".

Definition ddbIndexEntryKey (t : DDBTable) (index : ddbIndex) (item : attributes) : option string :=
  if existsb (λ k, String.eqb (ddbExtractAttrValue (at_key item (AttributeName k))) "") (index_schema index) then None
  else
    let '(hash, rng) := key_parts (index_schema index) item in
    Some (ddbIndexPrefix (TableName t) (index_name index) +:+ hash +:+ ddbKeySeparator +:+
          (if negb (String.eqb rng "") then rng +:+ ddbKeySeparator else "") +:+
          TrimPrefix (ddbItemKey t item) (TableName t +:+ "/")).

Definition ddbIndexByName (t : DDBTable) (name : string) : option ddbIndex :=
  find (λ index, String.eqb (index_name index) name) (ddbIndexes t).

Section Items.
Context {SI SN SE : Type} `{!Store SI attributes, !Store SN string, !Store SE string}.

Record items_db := MkDb { ddbItems : SI; ddbItemNames : SN; ddbIndexEntries : SE }.

Definition reindex_entry (t : DDBTable) (key : string) (old updated : option attributes) (entries : SE) (index : ddbIndex) : SE :=
  let entries := match old ≫= ddbIndexEntryKey t index with
                 | Some entry => (store_delete entries entry).1
                 | None => entries
                 end in
  match updated ≫= ddbIndexEntryKey t index with Some entry => store_put entries entry key | None => entries end.

Definition ddbReindexItem (t : DDBTable) (key : string) (old updated : option attributes) (entries : SE) : SE :=
  foldl (reindex_entry t key old updated) entries (ddbIndexes t).

Definition ddbPutItem (t : DDBTable) (key : string) (item : attributes) (db : items_db) : items_db :=
  let old := store_get (ddbItems db) key in
  MkDb (store_put (ddbItems db) key item) (store_put (ddbItemNames db) key key)
       (ddbReindexItem t key old (Some item) (ddbIndexEntries db)).

Definition ddbDeleteItem (t : DDBTable) (key : string) (db : items_db) : items_db :=
  let old := store_get (ddbItems db) key in
  MkDb (store_delete (ddbItems db) key).1 (store_delete (ddbItemNames db) key).1
       (ddbReindexItem t key old None (ddbIndexEntries db)).

Definition ddbTableSortedKeys (db : items_db) (prefix : string) : list string :=
  (store_list_prefix (ddbItemNames db) prefix).*1.

Definition ddbDropTableIndexes (table : string) (entries : SE) : SE :=
  foldl (λ entries row, (store_delete entries row.1).1) entries (store_list_prefix entries (table +:+ "#")).

Definition ddbRebuildTableIndexes (t : DDBTable) (db : items_db) : items_db :=
  let entries := ddbDropTableIndexes (TableName t) (ddbIndexEntries db) in
  MkDb (ddbItems db) (ddbItemNames db)
    (foldl (λ entries key,
       match store_get (ddbItems db) key with
       | Some item => ddbReindexItem t key None (Some item) entries
       | None => entries
       end) entries (ddbTableSortedKeys db (TableName t +:+ "/"))).

(** The part of [handleDDBDeleteTable] that removes the items. *)
Definition delete_table_items (table : string) (db : items_db) : items_db :=
  let db := foldl (λ db k, MkDb (store_delete (ddbItems db) k).1 (store_delete (ddbItemNames db) k).1 (ddbIndexEntries db))
              db (ddbTableSortedKeys db (table +:+ "/")) in
  MkDb (ddbItems db) (ddbItemNames db) (ddbDropTableIndexes table (ddbIndexEntries db)).

End Items.
Arguments items_db : clear implicits.
Arguments MkDb {SI SN SE}.

(** ** Entries name their table, index and item *)

Definition no_char (c : ascii) (s : string) : Prop := c ∉ chars s.
Definition slash : ascii := char_of 47.
Definition sharp : ascii := char_of 35.

(** Names as DynamoDB documents them hold neither of the key's punctuation
    characters, and a table's indexes have different names. The handlers that
    create and update tables check none of this: [twin_indexes_lose_an_entry] and
    [deleting_a_table_takes_its_namesakes] show what happens then. *)
Record well_named (t : DDBTable) : Prop := {
  table_no_slash : no_char slash (TableName t);
  table_no_sharp : no_char sharp (TableName t);
  index_no_slash : ∀ ix, ix ∈ ddbIndexes t → no_char slash (index_name ix);
  index_names_differ : NoDup (map index_name (ddbIndexes t));
}.

Lemma cut_at c a b x y : no_char c a → no_char c b → a +:+ String c "" +:+ x = b +:+ String c "" +:+ y → a = b ∧ x = y.
Proof.
  intros Ha Hb E. apply (f_equal (λ s, Cut s (String c ""))) in E. rewrite !Cut_char in E by done. by simplify_eq.
Qed.

Lemma index_prefix_cut T T' n n' x y :
  no_char sharp T → no_char sharp T' → no_char slash n → no_char slash n' →
  ddbIndexPrefix T n +:+ x = ddbIndexPrefix T' n' +:+ y → T = T' ∧ n = n' ∧ x = y.
Proof.
  unfold ddbIndexPrefix. rewrite !append_assoc_s. intros HT HT' Hn Hn' E.
  apply (cut_at sharp) in E as [-> E]; [|done..]. apply (cut_at slash) in E as [-> ->]; done.
Qed.

(** With no key attribute missing, the range part is empty exactly when the
    schema has no range. *)
Definition has_range (schema : list DDBKeySchemaEntry) : bool :=
  existsb (λ k, negb (String.eqb (KeyType k) "HASH") && String.eqb (KeyType k) "RANGE") schema.

Lemma key_parts_range schema item :
  existsb (λ k, String.eqb (ddbExtractAttrValue (at_key item (AttributeName k))) "") schema = false →
  negb (String.eqb (key_parts schema item).2 "") = has_range schema.
Proof.
  unfold key_parts, has_range.
  assert (∀ p, existsb (λ k, String.eqb (ddbExtractAttrValue (at_key item (AttributeName k))) "") schema = false →
    negb (String.eqb (foldl (key_part item) p schema).2 "") =
    existsb (λ k, negb (String.eqb (KeyType k) "HASH") && String.eqb (KeyType k) "RANGE") schema || negb (String.eqb p.2 "")) as H.
  { induction schema as [|k schema IH]; intros p; [done|]. cbn [existsb foldl]. intros [Hk Hs]%orb_false_iff. rewrite IH by done.
    unfold key_part. destruct (String.eqb (KeyType k) "HASH"), (String.eqb (KeyType k) "RANGE"); cbn [negb andb orb fst snd]; try done.
    rewrite Hk. cbn [negb]. by rewrite orb_true_r. }
  intros Hs. rewrite H by done. cbn. by rewrite orb_false_r.
Qed.

Lemma TrimPrefix_key t item : TableName t +:+ "/" +:+ TrimPrefix (ddbItemKey t item) (TableName t +:+ "/") = ddbItemKey t item.
Proof.
  rewrite ddbItemKey_parts. set (body := _ +:+ range_tail _).
  assert (TableName t +:+ "/" +:+ body = (TableName t +:+ "/") +:+ body) as E by by rewrite append_assoc_s.
  rewrite E at 1. by rewrite TrimPrefix_append.
Qed.

(** An entry of an index is of one item. *)
Lemma entry_item t ix i j e :
  ddbIndexEntryKey t ix i = Some e → ddbIndexEntryKey t ix j = Some e → ddbItemKey t i = ddbItemKey t j.
Proof.
  unfold ddbIndexEntryKey. destruct (existsb _ _) eqn:Ei; [done|]. destruct (existsb (λ k, String.eqb (ddbExtractAttrValue (at_key j _)) _) _) eqn:Ej; [done|].
  apply key_parts_range in Ei, Ej. pose proof (key_parts_component (index_schema ix) i) as [Ci Cir]. pose proof (key_parts_component (index_schema ix) j) as [Cj Cjr].
  destruct (key_parts _ i) as [hi ri], (key_parts _ j) as [hj rj]. cbn [fst snd] in *. rewrite Ei, Ej. intros [= <-] [= E].
  apply append_inj_l in E. apply (f_equal (λ s, Cut s ddbKeySeparator)) in E. rewrite !Cut_sep in E by done. injection E as _ E.
  rewrite <- (TrimPrefix_key t i), <- (TrimPrefix_key t j). do 2 f_equal. destruct (has_range _); [|done].
  rewrite !append_assoc_s in E. apply (f_equal (λ s, Cut s ddbKeySeparator)) in E. rewrite !Cut_sep in E by done. by injection E.
Qed.

Lemma entry_prefix t ix i e : ddbIndexEntryKey t ix i = Some e → ∃ r, e = ddbIndexPrefix (TableName t) (index_name ix) +:+ r.
Proof.
  unfold ddbIndexEntryKey. destruct (existsb _ _); [done|]. destruct (key_parts _ i). intros [= <-]. by eexists.
Qed.

(** An entry is of one index of one table. *)
Lemma entry_index t t' ix ix' i j e :
  well_named t → well_named t' → ix ∈ ddbIndexes t → ix' ∈ ddbIndexes t' →
  ddbIndexEntryKey t ix i = Some e → ddbIndexEntryKey t' ix' j = Some e →
  TableName t = TableName t' ∧ index_name ix = index_name ix'.
Proof.
  intros W W' Hix Hix' [r ->]%entry_prefix [r' E]%entry_prefix. 
  by destruct (index_prefix_cut _ _ _ _ _ _ (table_no_sharp t W) (table_no_sharp t' W') (index_no_slash t W ix Hix) (index_no_slash t' W' ix' Hix') E) as (? & ? & _).
Qed.

Lemma same_index t ix ix' : well_named t → ix ∈ ddbIndexes t → ix' ∈ ddbIndexes t → index_name ix = index_name ix' → ix = ix'.
Proof.
  intros W. pose proof (index_names_differ t W) as N. induction (ddbIndexes t) as [|y l IH]; [by intros ?%elem_of_nil|].
  cbn [map] in N. apply NoDup_cons in N as [Hy N]. intros [->|H1]%elem_of_cons [->|H2]%elem_of_cons E; try done.
  - destruct Hy. rewrite E. apply list_elem_of_In, in_map, list_elem_of_In, H2.
  - destruct Hy. rewrite <- E. apply list_elem_of_In, in_map, list_elem_of_In, H1.
  - by apply IH.
Qed.

(** ** What a reindexing leaves *)

(** Each index contributes the entry to delete and the entry to put. *)
Definition apply_entry (key : string) (m : gmap string string) (p : option string * option string) : gmap string string :=
  let m := match p.1 with Some e => delete e m | None => m end in
  match p.2 with Some e => <[e := key]> m | None => m end.

Lemma apply_entry_lookup key m p e k :
  apply_entry key m p !! e = Some k ↔ (p.2 = Some e ∧ k = key) ∨ (p.2 ≠ Some e ∧ p.1 ≠ Some e ∧ m !! e = Some k).
Proof.
  unfold apply_entry. destruct p as [[o|] [n|]]; simpl; rewrite ?lookup_insert_Some, ?lookup_delete_Some; naive_solver.
Qed.

(** No entry deleted later was put earlier. *)
Fixpoint no_clash (ps : list (option string * option string)) : Prop :=
  match ps with [] => True | p :: ps => (∀ q e, q ∈ ps → p.2 = Some e → q.1 ≠ Some e) ∧ no_clash ps end.

Lemma apply_entries_lookup key ps m e k :
  no_clash ps →
  foldl (apply_entry key) m ps !! e = Some k ↔
  (k = key ∧ ∃ p, p ∈ ps ∧ p.2 = Some e) ∨ (m !! e = Some k ∧ ∀ p, p ∈ ps → p.1 ≠ Some e ∧ p.2 ≠ Some e).
Proof.
  revert m. induction ps as [|p ps IH]; intros m; cbn [foldl no_clash].
  { intros _. split; [intros H; right; split; [done|by intros p ?%elem_of_nil]|intros [(_ & p & ?%elem_of_nil & _)|[? _]]; done]. }
  intros [Hp Hps]. rewrite IH, apply_entry_lookup by done. setoid_rewrite elem_of_cons. split.
  - intros [(-> & q & Hq & ?)|[[[He ->]|(H2 & H1 & Hm)] Hall]].
    + left. split; [done|]. exists q. auto.
    + left. split; [done|]. exists p. auto.
    + right. split; [done|]. intros q [->|Hq]; auto.
  - intros [(-> & q & [->|Hq] & He)|[Hm Hall]].
    + destruct (decide (Exists (λ q, q.2 = Some e) ps)) as [Hex|Hno].
      * apply Exists_exists in Hex as (q' & ? & ?). left. eauto.
      * right. split; [by left|]. intros q' Hq'. split; [by eapply Hp|]. intros E. apply Hno, Exists_exists. eauto.
    + left. eauto.
    + right. split; [|auto]. right. destruct (Hall p); auto.
Qed.

Section Invariant.
Context {SI SN SE : Type} `{!Store SI attributes, !Store SN string, !Store SE string}.
Context `{!StoreSpec SI attributes, !StoreSpec SN string, !StoreSpec SE string}.

Notation db := (items_db SI SN SE).

Definition stores_ok (d : db) : Prop := store_ok (ddbItems d) ∧ store_ok (ddbItemNames d) ∧ store_ok (ddbIndexEntries d).

Definition items_of (d : db) : gmap string attributes := contents (ddbItems d).
Definition names_of (d : db) : gmap string string := contents (ddbItemNames d).
Definition entries_of (d : db) : gmap string string := contents (ddbIndexEntries d).

Definition entry_pairs (t : DDBTable) (old updated : option attributes) : list (option string * option string) :=
  map (λ ix, (old ≫= ddbIndexEntryKey t ix, updated ≫= ddbIndexEntryKey t ix)) (ddbIndexes t).

Lemma ddbReindexItem_contents t key old updated entries :
  store_ok entries →
  store_ok (ddbReindexItem t key old updated entries) ∧
  contents (ddbReindexItem t key old updated entries) = foldl (apply_entry key) (contents entries) (entry_pairs t old updated).
Proof.
  unfold ddbReindexItem, entry_pairs. revert entries. induction (ddbIndexes t) as [|ix l IH]; intros entries Hok; [done|]. cbn [foldl map].
  assert (store_ok (reindex_entry t key old updated entries ix) ∧
    contents (reindex_entry t key old updated entries ix) =
    apply_entry key (contents entries) (old ≫= ddbIndexEntryKey t ix, updated ≫= ddbIndexEntryKey t ix)) as [Hs Hc].
  { unfold reindex_entry, apply_entry. cbn [fst snd].
    destruct (old ≫= _) as [e|]; [destruct (delete_spec entries e Hok) as (Hd & Hdc & _)|];
      (destruct (updated ≫= _) as [e'|]; [|by rewrite ?Hdc]).
    - destruct (put_spec _ e' key Hd) as [? ->]. by rewrite Hdc.
    - by destruct (put_spec _ e' key Hok) as [? ->]. }
  destruct (IH _ Hs) as [? ->]. by rewrite Hc.
Qed.

Lemma entry_pairs_no_clash t old updated : well_named t → no_clash (entry_pairs t old updated).
Proof.
  intros W. unfold entry_pairs. pose proof (index_names_differ t W) as N.
  assert (∀ ix, ix ∈ ddbIndexes t → ix ∈ ddbIndexes t) as Hin by done. revert N Hin. generalize (ddbIndexes t) at 1 2 4. intros l.
  induction l as [|ix l IH]; intros N Hin; [done|]. cbn [map no_clash] in *. apply NoDup_cons in N as [Hix N]. split.
  - intros q e (ix' & <- & Hix')%list_elem_of_In%in_map_iff He He'. cbn [fst snd] in *. apply list_elem_of_In in Hix'.
    destruct updated as [u|], old as [o|]; simpl in He, He'; try done.
    destruct (entry_index t t ix ix' u o e) as [_ E]; try done; [apply Hin; by left|apply Hin; by right|].
    destruct Hix. rewrite E. apply list_elem_of_In, in_map, list_elem_of_In, Hix'.
  - apply IH; [done|]. intros ix' ?. apply Hin. by right.
Qed.

Lemma reindexed t key old updated entries e k :
  well_named t → store_ok entries →
  contents (ddbReindexItem t key old updated entries) !! e = Some k ↔
  (k = key ∧ ∃ ix, ix ∈ ddbIndexes t ∧ updated ≫= ddbIndexEntryKey t ix = Some e) ∨
  (contents entries !! e = Some k ∧
   ∀ ix, ix ∈ ddbIndexes t → old ≫= ddbIndexEntryKey t ix ≠ Some e ∧ updated ≫= ddbIndexEntryKey t ix ≠ Some e).
Proof.
  intros W Hok. rewrite (proj2 (ddbReindexItem_contents t key old updated entries Hok)), apply_entries_lookup by by apply entry_pairs_no_clash.
  unfold entry_pairs. split.
  - intros [(-> & p & (ix & <- & Hix)%list_elem_of_In%in_map_iff & He)|[Hm Hall]].
    + left. split; [done|]. exists ix. split; [by apply list_elem_of_In|done].
    + right. split; [done|]. intros ix Hix. apply (Hall (_, _)), list_elem_of_In, in_map_iff. exists ix. split; [done|by apply list_elem_of_In].
  - intros [(-> & ix & Hix & He)|[Hm Hall]].
    + left. split; [done|]. eexists. split; [apply list_elem_of_In, in_map_iff; exists ix; split; [done|by apply list_elem_of_In]|done].
    + right. split; [done|]. intros p (ix & <- & Hix)%list_elem_of_In%in_map_iff. apply Hall. by apply list_elem_of_In.
Qed.

(** ** The invariant *)

Definition tables_ok (ts : gmap string DDBTable) : Prop := ∀ n t, ts !! n = Some t → n = TableName t ∧ well_named t.

(** The entry an index calls for: one of its table's items carries its keys. *)
Definition entry_for (ts : gmap string DDBTable) (items : gmap string attributes) (e k : string) : Prop :=
  ∃ t ix item, ts !! TableName t = Some t ∧ ix ∈ ddbIndexes t ∧ items !! k = Some item ∧
    k = ddbItemKey t item ∧ ddbIndexEntryKey t ix item = Some e.

Record db_inv (ts : gmap string DDBTable) (d : db) : Prop := {
  inv_tables : tables_ok ts;
  inv_stores : stores_ok d;
  inv_names : ∀ k v, names_of d !! k = Some v ↔ v = k ∧ is_Some (items_of d !! k);
  inv_placed : ∀ k item, items_of d !! k = Some item → ∃ t, ts !! TableName t = Some t ∧ k = ddbItemKey t item;
  inv_entries : ∀ e k, entries_of d !! e = Some k ↔ entry_for ts (items_of d) e k;
}.

Lemma key_in_table t item : ∃ r, ddbItemKey t item = TableName t +:+ String slash "" +:+ r.
Proof. rewrite ddbItemKey_parts. by eexists. Qed.

Lemma key_table t t' r r' :
  well_named t → well_named t' → TableName t +:+ String slash "" +:+ r = TableName t' +:+ String slash "" +:+ r' → TableName t = TableName t'.
Proof. intros W W' E. by apply (cut_at slash) in E as [-> _]; [|apply table_no_slash..]. Qed.

Lemma same_table (ts : gmap string DDBTable) t t' :
  ts !! TableName t = Some t → ts !! TableName t' = Some t' → TableName t = TableName t' → t = t'.
Proof. intros H H' E. rewrite E in H. congruence. Qed.

(** Keys of two tables of the catalogue name their table. *)
Lemma key_owner ts t t' i j :
  tables_ok ts → ts !! TableName t = Some t → ts !! TableName t' = Some t' → ddbItemKey t i = ddbItemKey t' j → t = t'.
Proof.
  intros Ht H H' E. eapply same_table; [done..|]. destruct (key_in_table t i) as [r Er], (key_in_table t' j) as [r' Er'].
  rewrite Er, Er' in E. eapply key_table; [..|exact E]; [by apply (Ht (TableName t))|by apply (Ht (TableName t'))].
Qed.

(** Entries of two items of the catalogue name their table, index and key. *)
Lemma entry_owner ts t t' ix ix' i j e :
  tables_ok ts → ts !! TableName t = Some t → ts !! TableName t' = Some t' → ix ∈ ddbIndexes t → ix' ∈ ddbIndexes t' →
  ddbIndexEntryKey t ix i = Some e → ddbIndexEntryKey t' ix' j = Some e → t = t' ∧ ddbItemKey t i = ddbItemKey t' j.
Proof.
  intros Ht H H' Hix Hix' E E'. assert (well_named t ∧ well_named t') as [W W'] by (split; [by apply (Ht (TableName t))|by apply (Ht (TableName t'))]).
  destruct (entry_index t t' ix ix' i j e W W' Hix Hix' E E') as [ET EI]. pose proof (same_table ts t t' H H' ET) as <-.
  pose proof (same_index t ix ix' W Hix Hix' EI) as <-. split; [done|]. by eapply entry_item.
Qed.

Lemma put_names (items : gmap string attributes) (names : gmap string string) key item :
  (∀ k v, names !! k = Some v ↔ v = k ∧ is_Some (items !! k)) →
  ∀ k v, <[key := key]> names !! k = Some v ↔ v = k ∧ is_Some (<[key := item]> items !! k).
Proof.
  intros H k v. destruct (decide (k = key)) as [->|N]; [rewrite !lookup_insert_eq|rewrite !lookup_insert_ne by done; apply H].
  split; [intros [= <-]; eauto|intros [-> _]; done].
Qed.

Lemma delete_names (items : gmap string attributes) (names : gmap string string) key :
  (∀ k v, names !! k = Some v ↔ v = k ∧ is_Some (items !! k)) →
  ∀ k v, delete key names !! k = Some v ↔ v = k ∧ is_Some (delete key items !! k).
Proof.
  intros H k v. destruct (decide (k = key)) as [->|N]; [rewrite !lookup_delete_eq|rewrite !lookup_delete_ne by done; apply H].
  split; [done|by intros [_ [? ?]]].
Qed.

Lemma put_entries ts (items : gmap string attributes) t key item old e k :
  tables_ok ts → (∀ k item, items !! k = Some item → ∃ t, ts !! TableName t = Some t ∧ k = ddbItemKey t item) →
  ts !! TableName t = Some t → key = ddbItemKey t item → old = items !! key →
  (k = key ∧ ∃ ix, ix ∈ ddbIndexes t ∧ Some item ≫= ddbIndexEntryKey t ix = Some e) ∨
  (entry_for ts items e k ∧ ∀ ix, ix ∈ ddbIndexes t → old ≫= ddbIndexEntryKey t ix ≠ Some e ∧ Some item ≫= ddbIndexEntryKey t ix ≠ Some e) ↔
  entry_for ts (<[key := item]> items) e k.
Proof.
  intros Ht Hp H Hkey ->. cbn [mbind option_bind]. split.
  - intros [(-> & ix & Hix & He)|[(t' & ix' & item' & H' & Hix' & Hi' & Hk & He) Hall]].
    + exists t, ix, item. by rewrite lookup_insert_eq.
    + destruct (decide (k = key)) as [->|N]; [|exists t', ix', item'; by rewrite lookup_insert_ne].
      rewrite Hkey in Hk. pose proof (key_owner ts t t' _ _ Ht H H' Hk) as <-. destruct (Hall ix' Hix') as [Ho _]. by rewrite Hi' in Ho.
  - intros (t' & ix' & item' & H' & Hix' & Hi' & Hk & He). destruct (decide (k = key)) as [->|N].
    + rewrite lookup_insert_eq in Hi'. injection Hi' as <-. rewrite Hkey in Hk. pose proof (key_owner ts t t' _ _ Ht H H' Hk) as <-. left. eauto.
    + rewrite lookup_insert_ne in Hi' by done. right. split; [exists t', ix', item'; done|]. intros ix Hix. split.
      * destruct (items !! key) as [o|] eqn:Eo; [|done]. cbn. intros He'. apply N. destruct (Hp _ _ Eo) as (t2 & H2 & E2).
        rewrite Hkey in E2. pose proof (key_owner ts t t2 _ _ Ht H H2 E2) as <-.
        destruct (entry_owner ts t t' ix ix' o item' e Ht H H' Hix Hix' He' He) as [_ E]. congruence.
      * intros He'. apply N. destruct (entry_owner ts t t' ix ix' item item' e Ht H H' Hix Hix' He' He) as [_ E]. congruence.
Qed.

Lemma put_inv ts d t item :
  db_inv ts d → ts !! TableName t = Some t → db_inv ts (ddbPutItem t (ddbItemKey t item) item d).
Proof.
  intros [Ht (Hsi & Hsn & Hse) Hn Hp He] H. set (key := ddbItemKey t item).
  destruct (put_spec (ddbItems d) key item Hsi) as [Hsi' Ci], (put_spec (ddbItemNames d) key key Hsn) as [Hsn' Cn].
  assert (well_named t) as W by by apply (Ht (TableName t)).
  destruct (ddbReindexItem_contents t key (store_get (ddbItems d) key) (Some item) (ddbIndexEntries d) Hse) as [Hse' _].
  split; unfold stores_ok, items_of, names_of, entries_of in *; cbn [ddbPutItem ddbItems ddbItemNames ddbIndexEntries]; rewrite ?Ci, ?Cn.
  - done.
  - done.
  - by apply put_names.
  - intros k i [[<- <-]|[_ Hk]]%lookup_insert_Some; [by exists t|auto].
  - intros e k. rewrite reindexed by done. setoid_rewrite He. apply put_entries; auto. by apply get_spec.
Qed.

Lemma delete_inv ts d t key :
  db_inv ts d → ts !! TableName t = Some t → HasPrefix key (TableName t +:+ "/") = true → db_inv ts (ddbDeleteItem t key d).
Proof.
  intros [Ht (Hsi & Hsn & Hse) Hn Hp He] H [r Hkey]%HasPrefix_spec.
  assert (key = TableName t +:+ String slash "" +:+ r) as Hkey' by by rewrite Hkey, append_assoc_s.
  destruct (delete_spec (ddbItems d) key Hsi) as (Hsi' & Ci & _), (delete_spec (ddbItemNames d) key Hsn) as (Hsn' & Cn & _).
  assert (well_named t) as W by by apply (Ht (TableName t)).
  destruct (ddbReindexItem_contents t key (store_get (ddbItems d) key) None (ddbIndexEntries d) Hse) as [Hse' _].
  assert (∀ t' i, ts !! TableName t' = Some t' → key = ddbItemKey t' i → t = t') as Own.
  { intros t' i H' E. eapply same_table; [done..|]. destruct (key_in_table t' i) as [r' Er]. rewrite Hkey', Er in E.
    eapply key_table; [done|by apply (Ht (TableName t'))|exact E]. }
  split; unfold stores_ok, items_of, names_of, entries_of in *; cbn [ddbDeleteItem ddbItems ddbItemNames ddbIndexEntries]; rewrite ?Ci, ?Cn.
  - done.
  - done.
  - by apply delete_names.
  - intros k i [_ Hk]%lookup_delete_Some. auto.
  - intros e k. rewrite reindexed by done. rewrite He, get_spec by done. cbn [mbind option_bind]. split.
    + intros [(_ & ix & _ & ?)|[(t' & ix' & item' & H' & Hix' & Hi' & Hk & He') Hall]]; [done|]. exists t', ix', item'.
      split_and!; try done. rewrite lookup_delete_ne; [done|]. intros <-. pose proof (Own _ _ H' Hk) as <-.
      destruct (Hall ix' Hix') as [Ho _]. by rewrite Hi' in Ho.
    + intros (t' & ix' & item' & H' & Hix' & [N Hi']%lookup_delete_Some & Hk & He'). right. split; [exists t', ix', item'; done|].
      intros ix Hix. split; [|done]. destruct (contents (ddbItems d) !! key) as [o|] eqn:Eo; [|done]. cbn. intros He2. apply N.
      destruct (Hp _ _ Eo) as (t2 & H2 & E2). pose proof (Own _ _ H2 E2) as <-.
      destruct (entry_owner ts t t' ix ix' o item' e Ht H H' Hix Hix' He2 He') as [_ E]. congruence.
Qed.

(** *** Dropping a table's entries *)

Lemma delete_listed {S T V} `{!Store S T, !GoZero T, !StoreSpec S T} (rows : list (string * V)) (s : S) :
  store_ok s →
  let s' := foldl (λ s row, (store_delete s row.1).1) s rows in
  store_ok s' ∧ ∀ k, contents s' !! k = if decide (k ∈ rows.*1) then None else contents s !! k.
Proof.
  revert s. induction rows as [|row rows IH]; intros s Hs; cbn [foldl fmap list_fmap].
  { split; [done|]. intros k. rewrite decide_False; [done|by intros ?%elem_of_nil]. }
  destruct (delete_spec s row.1 Hs) as (Hs' & Hc & _). destruct (IH _ Hs') as [? Hk]. split; [done|]. intros k. rewrite Hk, Hc.
  destruct (decide (k ∈ rows.*1)) as [Hin|Hout].
  - by rewrite decide_True by (apply elem_of_cons; by right).
  - destruct (decide (k = row.1)) as [->|N]; [rewrite lookup_delete_eq, decide_True; [done|by left]|].
    rewrite lookup_delete_ne, decide_False; [done| |done]. intros [?|?]%elem_of_cons; done.
Qed.

Lemma drop_contents table (entries : SE) :
  store_ok entries →
  store_ok (ddbDropTableIndexes table entries) ∧
  ∀ e k, contents (ddbDropTableIndexes table entries) !! e = Some k ↔ contents entries !! e = Some k ∧ HasPrefix e (table +:+ "#") = false.
Proof.
  intros Hs. unfold ddbDropTableIndexes. destruct (delete_listed (store_list_prefix entries (table +:+ "#")) entries Hs) as [? Hk].
  split; [done|]. intros e k. cbn zeta in Hk. rewrite Hk. destruct (list_prefix_spec entries (table +:+ "#") Hs) as [_ Hl].
  case_decide as Hin.
  - split; [done|]. intros [He Hp]. apply list_elem_of_fmap in Hin as ([e' k'] & -> & Hin). apply Hl in Hin as [_ Hp']. simpl in Hp. congruence.
  - split; [|by intros [? _]]. intros He. split; [done|]. apply not_true_iff_false. intros Hp. apply Hin.
    apply list_elem_of_fmap. exists (e, k). split; [done|]. by apply Hl.
Qed.

Lemma entry_sharp t ix i e : ddbIndexEntryKey t ix i = Some e → HasPrefix e (TableName t +:+ "#") = true.
Proof. intros [r ->]%entry_prefix. unfold ddbIndexPrefix. rewrite <- !append_assoc_s, !append_assoc_s, <- append_assoc_s. apply HasPrefix_append. Qed.

Lemma sharp_table t t' ix i e :
  well_named t → well_named t' → ddbIndexEntryKey t ix i = Some e → HasPrefix e (TableName t' +:+ "#") = true → TableName t = TableName t'.
Proof.
  intros W W' [r ->]%entry_prefix [r' E]%HasPrefix_spec. unfold ddbIndexPrefix in E. rewrite !append_assoc_s in E.
  apply (cut_at sharp) in E as [? _]; [done|by apply table_no_sharp..].
Qed.

(** *** Rebuilding them *)

Definition rebuild_entry (items : SI) (t : DDBTable) (entries : SE) (key : string) : SE :=
  match store_get items key with Some item => ddbReindexItem t key None (Some item) entries | None => entries end.

Lemma rebuild_contents (items : SI) t keys entries :
  well_named t → store_ok items → store_ok entries →
  (∀ key item, key ∈ keys → contents items !! key = Some item → key = ddbItemKey t item) →
  let entries' := foldl (rebuild_entry items t) entries keys in
  store_ok entries' ∧
  ∀ e k, contents entries' !! e = Some k ↔
    (k ∈ keys ∧ ∃ item ix, contents items !! k = Some item ∧ ix ∈ ddbIndexes t ∧ ddbIndexEntryKey t ix item = Some e) ∨
    (contents entries !! e = Some k ∧
     ∀ key item ix, key ∈ keys → contents items !! key = Some item → ix ∈ ddbIndexes t → ddbIndexEntryKey t ix item ≠ Some e).
Proof.
  intros W Hi. revert entries. induction keys as [|key keys IH]; intros entries Hs Hk; cbn [foldl].
  { split; [done|]. intros e k. split; [|intros [[?%elem_of_nil _]|[? _]]; done]. right. split; [done|]. by intros ? ? ? ?%elem_of_nil. }
  assert (∀ key' item, key' ∈ keys → contents items !! key' = Some item → key' = ddbItemKey t item) as Hk' by (intros; apply Hk; [by right|done]).
  unfold rebuild_entry at 2 4. rewrite get_spec by done. destruct (contents items !! key) as [item|] eqn:E.
  - destruct (ddbReindexItem_contents t key None (Some item) entries Hs) as [Hs' _]. destruct (IH _ Hs' Hk') as [? IHk]. split; [done|].
    intros e k. rewrite IHk, reindexed by done. cbn [mbind option_bind]. split.
    + intros [(Hin & it & ix & ?)|[[(-> & ix & Hix & He)|[Hm Hall]] Hno]].
      * left. split; [by right|eauto].
      * left. split; [by left|eauto].
      * right. split; [done|]. intros key' it ix [->|Hin]%elem_of_cons Hit Hix; [|by eapply Hno].
        rewrite E in Hit. injection Hit as <-. by apply Hall.
    + intros [(Hin & it & ix & Hit & Hix & He)|[Hm Hno]].
      * destruct (decide (k ∈ keys)) as [Y|N]; [left; split; eauto|]. apply elem_of_cons in Hin as [Ek|Y]; [|by destruct N]. right. rewrite Ek in *. clear Ek. rewrite E in Hit. injection Hit as <-.
        split; [left; eauto|]. intros key' it' ix' Hin' Hit' Hix' He'.
        destruct (entry_index t t ix ix' item it' e W W Hix Hix' He He') as [_ EI]. pose proof (same_index t ix ix' W Hix Hix' EI) as <-.
        assert (key = key') as ->; [|done]. rewrite (Hk key item), (Hk key' it'); [by eapply entry_item|by right|done|by left|done].
      * right. split; [right|]; [|intros; eapply Hno; [by right|done..]]. split; [done|]. intros ix Hix. split; [done|].
        eapply Hno; [by left|done..].
  - destruct (IH entries Hs Hk') as [? IHk]. split; [done|]. intros e k. rewrite IHk. split.
    + intros [(Hin & ?)|[Hm Hno]]; [left; split; [by right|done]|right; split; [done|]]. intros key' it ix [->|Hin]%elem_of_cons; [congruence|eauto].
    + intros [(Hin & it & ix & Hit & ?)|[Hm Hno]]; [left|right].
      * apply elem_of_cons in Hin as [->|?]; [congruence|eauto].
      * split; [done|]. intros. eapply Hno; [by right|done..].
Qed.

Lemma listed_keys ts d t k :
  db_inv ts d → ts !! TableName t = Some t →
  k ∈ ddbTableSortedKeys d (TableName t +:+ "/") ↔ ∃ item, items_of d !! k = Some item ∧ k = ddbItemKey t item.
Proof.
  intros [Ht (Hsi & Hsn & Hse) Hn Hp He] H. unfold ddbTableSortedKeys. destruct (list_prefix_spec (ddbItemNames d) (TableName t +:+ "/") Hsn) as [_ Hl].
  split.
  - intros ([k' v] & -> & [Hv [r Hr]%HasPrefix_spec]%Hl)%list_elem_of_fmap. apply Hn in Hv as [-> [item Hi]]. exists item. split; [done|].
    destruct (Hp _ _ Hi) as (t' & H' & E). simpl. rewrite E. f_equal. eapply same_table; [done..|].
    destruct (key_in_table t' item) as [r' Er]. rewrite Hr, append_assoc_s in E. rewrite Er in E. symmetry in E.
    eapply key_table; [..|exact E]; [by apply (Ht (TableName t'))|by apply (Ht (TableName t))].
  - intros (item & Hi & ->). apply list_elem_of_fmap. exists (ddbItemKey t item, ddbItemKey t item). split; [done|]. apply Hl. split; [by apply Hn|].
    destruct (key_in_table t item) as [r ->]. change (String slash "") with "/". rewrite <- append_assoc_s. apply HasPrefix_append.
Qed.

Lemma insert_tables_ok ts t : tables_ok ts → well_named t → tables_ok (<[TableName t := t]> ts).
Proof. intros Ht W n t' [[<- <-]|[_ H]]%lookup_insert_Some; [done|by apply Ht]. Qed.

Lemma ddbItemKey_schema t t' item : TableName t = TableName t' → KeySchema t = KeySchema t' → ddbItemKey t item = ddbItemKey t' item.
Proof. unfold ddbItemKey. by intros -> ->. Qed.

(** The entries of the other tables are untouched. *)
Lemma rebuild_entries ts d t t' e k :
  db_inv ts d → ts !! TableName t' = Some t → KeySchema t' = KeySchema t → well_named t' →
  (k ∈ ddbTableSortedKeys d (TableName t' +:+ "/") ∧
     ∃ item ix, items_of d !! k = Some item ∧ ix ∈ ddbIndexes t' ∧ ddbIndexEntryKey t' ix item = Some e) ∨
  ((entry_for ts (items_of d) e k ∧ HasPrefix e (TableName t' +:+ "#") = false) ∧
   ∀ key item ix, key ∈ ddbTableSortedKeys d (TableName t' +:+ "/") → items_of d !! key = Some item →
     ix ∈ ddbIndexes t' → ddbIndexEntryKey t' ix item ≠ Some e) ↔
  entry_for (<[TableName t' := t']> ts) (items_of d) e k.
Proof.
  intros Hinv H Hs W. pose proof (inv_tables _ _ Hinv) as Ht. destruct (Ht _ _ H) as [ET Wt].
  assert (ts !! TableName t = Some t) as Htt by by rewrite <- ET.
  pose proof (λ k, listed_keys ts d t k Hinv Htt) as Hl. rewrite <- ET in Hl. split.
  - intros [(Hin & item & ix & Hi & Hix & He)|[[(t2 & ix2 & i2 & H2 & Hix2 & Hi2 & Hk & He) Hno] _]].
    + apply Hl in Hin as (item' & Hi' & Hk). assert (item' = item) as -> by congruence. exists t', ix, item. rewrite lookup_insert_eq.
      split_and!; try done. by rewrite (ddbItemKey_schema t' t).
    + exists t2, ix2, i2. split_and!; try done. rewrite lookup_insert_ne; [done|]. intros E. apply entry_sharp in He. rewrite <- E in He. congruence.
  - intros (t2 & ix2 & i2 & H2 & Hix2 & Hi2 & Hk & He). apply lookup_insert_Some in H2 as [[E2 <-]|[N2 H2]].
    + left. split; [|eauto]. apply Hl. exists i2. split; [done|]. by rewrite Hk, (ddbItemKey_schema t' t).
    + right. assert (well_named t2) as W2 by by apply (Ht (TableName t2)). split; [split; [exists t2, ix2, i2; done|]|].
      * apply not_true_iff_false. intros Hpre. apply N2. symmetry. by eapply (sharp_table t2 t').
      * intros key it ix _ _ Hix He'. apply N2. by destruct (entry_index t' t2 ix ix2 it i2 e W W2 Hix Hix2 He' He).
Qed.

Lemma rebuild_inv ts d t t' :
  db_inv ts d → ts !! TableName t' = Some t → KeySchema t' = KeySchema t → well_named t' →
  db_inv (<[TableName t' := t']> ts) (ddbRebuildTableIndexes t' d).
Proof.
  intros Hinv H Hs W. pose proof Hinv as [Ht (Hsi & Hsn & Hse) Hn Hp He]. destruct (Ht _ _ H) as [ET _].
  assert (ts !! TableName t = Some t) as Htt by by rewrite <- ET.
  destruct (drop_contents (TableName t') (ddbIndexEntries d) Hse) as [Hd Hdc].
  destruct (rebuild_contents (ddbItems d) t' (ddbTableSortedKeys d (TableName t' +:+ "/")) _ W Hsi Hd) as [Hs' Hc].
  { intros key item Hin Hi. rewrite ET in Hin. apply (listed_keys ts d t key Hinv Htt) in Hin as (item' & Hi' & ->).
    unfold items_of in Hi'. assert (item' = item) as -> by congruence. by apply ddbItemKey_schema. }
  split; unfold stores_ok, items_of, names_of, entries_of in *; cbn [ddbRebuildTableIndexes ddbItems ddbItemNames ddbIndexEntries].
  - by apply insert_tables_ok.
  - done.
  - done.
  - intros k item Hi. destruct (Hp k item Hi) as (t2 & H2 & ->). destruct (decide (TableName t2 = TableName t')) as [E|N].
    + exists t'. rewrite lookup_insert_eq. split; [done|]. assert (t2 = t) as -> by (eapply same_table; [done..|congruence]).
      symmetry. by apply ddbItemKey_schema.
    + exists t2. by rewrite lookup_insert_ne by done.
  - intros e k. change (foldl _ _ _) with (foldl (rebuild_entry (ddbItems d) t') (ddbDropTableIndexes (TableName t') (ddbIndexEntries d)) (ddbTableSortedKeys d (TableName t' +:+ "/"))).
    rewrite Hc, Hdc. setoid_rewrite He. by eapply rebuild_entries.
Qed.

Lemma create_inv ts d t : db_inv ts d → ts !! TableName t = None → well_named t → db_inv (<[TableName t := t]> ts) d.
Proof.
  intros Hinv H W. pose proof Hinv as [Ht Hs Hn Hp He]. split; try done.
  - by apply insert_tables_ok.
  - intros k item (t' & H' & ->)%Hp. exists t'. rewrite lookup_insert_ne; [done|congruence].
  - intros e k. rewrite He. split; intros (t2 & ix2 & i2 & H2 & Hix2 & Hi2 & Hk & He2); exists t2, ix2, i2; split_and!; try done.
    + rewrite lookup_insert_ne; [done|congruence].
    + apply lookup_insert_Some in H2 as [[_ <-]|[_ H2]]; [|done]. destruct (Hp _ _ Hi2) as (t3 & H3 & E3). exfalso.
      rewrite E3 in Hk. destruct (key_in_table t i2) as [r Er], (key_in_table t3 i2) as [r3 Er3]. rewrite Er, Er3 in Hk.
      apply key_table in Hk; [congruence|by apply (Ht (TableName t3))|done].
Qed.

(** *** Deleting a table *)

Lemma delete_keys_contents keys (d : db) :
  stores_ok d →
  let d' := foldl (λ d k, MkDb (store_delete (ddbItems d) k).1 (store_delete (ddbItemNames d) k).1 (ddbIndexEntries d)) d keys in
  stores_ok d' ∧ ddbIndexEntries d' = ddbIndexEntries d ∧
  (∀ k, items_of d' !! k = if decide (k ∈ keys) then None else items_of d !! k) ∧
  (∀ k, names_of d' !! k = if decide (k ∈ keys) then None else names_of d !! k).
Proof.
  revert d. induction keys as [|key keys IH]; intros d Hs; cbn [foldl].
  { split_and!; try done; intros k; rewrite decide_False; done || by intros ?%elem_of_nil. }
  destruct Hs as (Hsi & Hsn & Hse). destruct (delete_spec (ddbItems d) key Hsi) as (Hsi' & Ci & _), (delete_spec (ddbItemNames d) key Hsn) as (Hsn' & Cn & _).
  destruct (IH (MkDb (store_delete (ddbItems d) key).1 (store_delete (ddbItemNames d) key).1 (ddbIndexEntries d))) as (Hok & Hent & Hi & Hnm); [done|].
  split_and!; try done; intros k; [rewrite Hi|rewrite Hnm]; unfold items_of, names_of; cbn [ddbItems ddbItemNames]; rewrite ?Ci, ?Cn.
  all: destruct (decide (k ∈ keys)); [by rewrite decide_True by (apply elem_of_cons; by right)|].
  all: destruct (decide (k = key)) as [->|N]; [rewrite lookup_delete_eq, decide_True; [done|by left]|].
  all: rewrite lookup_delete_ne, decide_False; [done| |done]; intros [?|?]%elem_of_cons; done.
Qed.

Lemma delete_table_inv ts d t :
  db_inv ts d → ts !! TableName t = Some t → db_inv (delete (TableName t) ts) (delete_table_items (TableName t) d).
Proof.
  intros Hinv H. pose proof Hinv as [Ht Hs Hn Hp He]. assert (well_named t) as W by by apply (Ht (TableName t)).
  pose proof (λ k, listed_keys ts d t k Hinv H) as Hl. set (keys := ddbTableSortedKeys d (TableName t +:+ "/")) in *.
  destruct (delete_keys_contents keys d Hs) as ((Hsi & Hsn & Hse) & Hent & Hi & Hnm).
  destruct (drop_contents (TableName t) (ddbIndexEntries d) (proj2 (proj2 Hs))) as [Hd Hdc].
  assert (∀ k item t', items_of d !! k = Some item → ts !! TableName t' = Some t' → k = ddbItemKey t' item → k ∉ keys ↔ TableName t' ≠ TableName t) as Own.
  { intros k item t' Hk H' E. rewrite Hl. split.
    - intros N ET. apply N. exists item. split; [done|]. pose proof (same_table ts t' t H' H ET) as ->. done.
    - intros N (item' & Hk' & E'). assert (item' = item) as -> by congruence. apply N. rewrite E in E'. by rewrite (key_owner ts t' t item item Ht H' H E'). }
  unfold delete_table_items. fold keys. set (d' := foldl _ d keys) in *.
  split; unfold stores_ok, items_of, names_of, entries_of in *; cbn [ddbItems ddbItemNames ddbIndexEntries]; rewrite ?Hent.
  - intros n t' [_ H']%lookup_delete_Some. by apply Ht.
  - done.
  - intros k v. rewrite Hi, Hnm. case_decide; [split; [done|by intros [_ [? ?]]]|apply Hn].
  - intros k item. rewrite Hi. case_decide as Hk; [done|]. intros Hit. destruct (Hp k item Hit) as (t' & H' & E). exists t'.
    rewrite lookup_delete_ne; [done|]. intros EN. by apply (Own k item t' Hit H' E) in Hk.
  - intros e k. rewrite Hdc, He. split.
    + intros [(t2 & ix2 & i2 & H2 & Hix2 & Hi2 & Hk & He2) Hno].
      assert (TableName t2 ≠ TableName t) as N by (intros E; apply entry_sharp in He2; rewrite E in He2; congruence).
      exists t2, ix2, i2. rewrite lookup_delete_ne, Hi, decide_False by (done || by apply (Own k i2 t2)). done.
    + intros (t2 & ix2 & i2 & [N H2]%lookup_delete_Some & Hix2 & Hi2 & Hk & He2). rewrite Hi in Hi2. case_decide; [done|].
      split; [exists t2, ix2, i2; done|]. apply not_true_iff_false. intros Hpre. apply N. symmetry.
      eapply (sharp_table t2 t); [by apply (Ht (TableName t2))|done..].
Qed.

(** ** Every history *)

(** A table is created, an item is put under its own key or deleted by a key of
    the table, the indexes of a table are changed and rebuilt, a table is
    deleted with its items. *)
Inductive db_step : gmap string DDBTable * db → gmap string DDBTable * db → Prop :=
| step_create ts d t : ts !! TableName t = None → well_named t → db_step (ts, d) (<[TableName t := t]> ts, d)
| step_put ts d t item : ts !! TableName t = Some t → db_step (ts, d) (ts, ddbPutItem t (ddbItemKey t item) item d)
| step_delete ts d t key :
    ts !! TableName t = Some t → HasPrefix key (TableName t +:+ "/") = true → db_step (ts, d) (ts, ddbDeleteItem t key d)
| step_update ts d t t' :
    ts !! TableName t' = Some t → KeySchema t' = KeySchema t → well_named t' →
    db_step (ts, d) (<[TableName t' := t']> ts, ddbRebuildTableIndexes t' d)
| step_delete_table ts d t :
    ts !! TableName t = Some t → db_step (ts, d) (delete (TableName t) ts, delete_table_items (TableName t) d).

Lemma db_step_inv ts d ts' d' : db_inv ts d → db_step (ts, d) (ts', d') → db_inv ts' d'.
Proof.
  intros Hinv Hstep. inversion Hstep; subst; eauto using create_inv, put_inv, delete_inv, rebuild_inv, delete_table_inv.
Qed.

Lemma history_inv (d : db) ts d' :
  stores_ok d → items_of d = ∅ → names_of d = ∅ → entries_of d = ∅ → rtc db_step (∅, d) (ts, d') → db_inv ts d'.
Proof.
  intros Hok Hi Hn He Hrun.
  assert (db_inv ∅ d) as H0.
  { split; [done|done| | |]; rewrite ?Hi, ?Hn, ?He; [|done|].
    - intros k v. rewrite !lookup_empty. split; [done|by intros [_ [? ?]]].
    - intros e k. rewrite lookup_empty. split; [done|]. by intros (t & ix & item & ? & _). }
  assert (∀ x y, rtc db_step x y → db_inv x.1 x.2 → db_inv y.1 y.2) as Hind.
  { induction 1 as [|[ts1 d1] [ts2 d2] y Hs _ IH]; [done|]. intros H1. apply IH. by eapply db_step_inv. }
  exact (Hind _ _ Hrun H0).
Qed.

(** [C31] Secondary indexes mirror the items, for tables whose names hold no ['/']
    and no ['#'] and whose index names hold no ['/'] and are distinct, which
    CreateTable and UpdateTable do not enforce. After any sequence of creations
    and deletions of such tables, item puts and deletes, and index changes, an index
    entry exists for exactly the items of its table that carry all of its key
    attributes, and points to the item's store key; every item lies under its own
    key in a table of the catalogue, and the name list used for ordered listing
    names exactly the stored items. *)
Theorem secondary_indexes_mirror_the_items (d : db) ts d' :
  stores_ok d → items_of d = ∅ → names_of d = ∅ → entries_of d = ∅ →
  rtc db_step (∅, d) (ts, d') →
  (∀ e k, entries_of d' !! e = Some k ↔
     ∃ t ix item, ts !! TableName t = Some t ∧ ix ∈ ddbIndexes t ∧ items_of d' !! k = Some item ∧
       k = ddbItemKey t item ∧ ddbIndexEntryKey t ix item = Some e) ∧
  (∀ k item, items_of d' !! k = Some item → ∃ t, ts !! TableName t = Some t ∧ k = ddbItemKey t item) ∧
  (∀ k v, names_of d' !! k = Some v ↔ v = k ∧ is_Some (items_of d' !! k)).
Proof. intros Hok Hi Hn He Hrun. by destruct (history_inv d ts d' Hok Hi Hn He Hrun) as [_ _ Hn' Hp' He']. Qed.
End Invariant.

(** ** A concrete history *)

Definition w_table : DDBTable :=
  MkTable "t" [MkAttrDef "p" "S"; MkAttrDef "g" "N"] [MkKeyEntry "p" "HASH"] [MkIndexDef "byg" [MkKeyEntry "g" "HASH"] None] [].
Definition w_item : attributes := {[ "p" := typed "S" "a"; "g" := typed "N" "7" ]}.
Definition w_db : items_db (Z * MemoryStore attributes) (Z * MemoryStore string) (Z * MemoryStore string) :=
  MkDb (NewStateStore 0) (NewStateStore 1) (NewStateStore 2).

Lemma w_table_named : well_named w_table.
Proof.
  split; unfold no_char; [by apply (bool_decide_unpack _)| by apply (bool_decide_unpack _)| |].
  - intros ix Hix. apply list_elem_of_singleton in Hix as ->. by apply (bool_decide_unpack _).
  - apply NoDup_singleton.
Qed.

Lemma secondary_indexes_mirror_the_items_witness :
  ∃ e, entries_of (ddbPutItem w_table (ddbItemKey w_table w_item) w_item w_db) !! e = Some "t/Sa".
Proof.
  destruct (secondary_indexes_mirror_the_items w_db (<[TableName w_table := w_table]> ∅) (ddbPutItem w_table (ddbItemKey w_table w_item) w_item w_db)) as [He _].
  - split; [|split]; apply NewStateStore_wf.
  - reflexivity.
  - reflexivity.
  - reflexivity.
  - eapply rtc_l; [apply (step_create ∅ w_db w_table); [done|apply w_table_named]|]. apply rtc_once.
    apply (step_put (<[TableName w_table := w_table]> ∅) w_db w_table w_item). reflexivity.
  - exists ("t#byg/N25017" +:+ ddbKeySeparator +:+ "Sa"). apply He. exists w_table, (MkIndex "byg" [MkKeyEntry "g" "HASH"] None), w_item.
    split_and!; try reflexivity. by left.
Defined.

(** ** Names the handlers do not check *)

(** Two indexes of one name, on [g] and on [h]: an update that swaps the two
    values deletes, for the second index, the entry it just put for the first. *)
Definition w_twins : DDBTable :=
  MkTable "t" [MkAttrDef "p" "S"; MkAttrDef "g" "S"; MkAttrDef "h" "S"] [MkKeyEntry "p" "HASH"]
    [MkIndexDef "i" [MkKeyEntry "g" "HASH"] None; MkIndexDef "i" [MkKeyEntry "h" "HASH"] None] [].
Definition w_pair (g h : string) : attributes := {[ "p" := typed "S" "a"; "g" := typed "S" g; "h" := typed "S" h ]}.

Example twin_indexes_lose_an_entry :
  let put item d := ddbPutItem w_twins (ddbItemKey w_twins item) item d in
  let d := put (w_pair "y" "x") (put (w_pair "x" "y") w_db) in
  map (λ ix, ddbIndexEntryKey w_twins ix (w_pair "y" "x") ≫= store_get (ddbIndexEntries d)) (ddbIndexes w_twins) = [None; Some "t/Sa"].
Proof. vm_compute. reflexivity. Qed.

(** Deleting the table [a] deletes the items of the table [a/b]. *)
Example deleting_a_table_takes_its_namesakes :
  let t := MkTable "a/b" [MkAttrDef "p" "S"] [MkKeyEntry "p" "HASH"] [] [] in
  let item := {[ "p" := typed "S" "x" ]} in
  let d := ddbPutItem t (ddbItemKey t item) item w_db in
  store_get (ddbItems d) (ddbItemKey t item) = Some item ∧
  store_get (ddbItems (delete_table_items "a" d)) (ddbItemKey t item) = None.
Proof. vm_compute. done. Qed.
