(* ===== verification/Ddbcond.v ===== *)
(** * DynamoDB conditions and their evaluation: [src/simulator-aws/dynamodb_expr.go]

    The conditions a compiled expression consists of, the document paths they
    read, the comparison of attribute values ([dynamodb.go]) and the partition a
    key condition confines a query to ([dynamodb_query_partition.go]). The parser
    that builds them is in [Ddbexpr]. *)

From S2P Require Import Prelude Gostd Parsecore Utf8 Bigrat Ddbkeys.

(** ** Printing and comparing values *)

Fixpoint join (sep : string) (l : list string) : string :=
  match l with [] => "" | [s] => s | s :: l => s +:+ sep +:+ join sep l end.

(** [fmt.Sprint] of a decoded value: a map prints its keys in order. *)
Fixpoint Sprint (v : any) : string :=
  match v with
  | Nil => "<nil>"
  | Bool b => if b then "true" else "false"
  | Num printed => printed
  | Str s => s
  | Arr l => "[" +:+ join " " (map Sprint l) +:+ "]"
  | Obj m =>
      let fields := map_fold (λ k v acc, (k, k +:+ ":" +:+ Sprint v) :: acc) [] m in
      "map[" +:+ join " " (SliceStable (λ a b, sltb a.1 b.1) fields).*2 +:+ "]"
  end.

Definition ddbCanonicalNumber (s : string) : string :=
  match SetString (TrimSpace s) with Some r => RatString r | None => TrimSpace s end.

(** The value under the first of the keys that is present. *)
Fixpoint first_present (m : gmap string any) (ks : list string) : option (string * any) :=
  match ks with [] => None | k :: ks => match m !! k with Some v => Some (k, v) | None => first_present m ks end end.

Definition ddbScalarString (v : any) : string :=
  match as_map v ≫= λ m, first_present m ["S"; "N"; "B"] with Some (_, s) => Sprint s | None => Sprint v end.

(** The loop over the types compared by their text: [None] when no type decides. *)
Fixpoint equal_by_text (av bv : gmap string any) (keys : list string) : option bool :=
  match keys with
  | [] => None
  | key :: keys =>
      if negb (String.eqb (Sprint (at_key av key)) (Sprint (at_key bv key))) then Some false
      else match av !! key with Some _ => Some true | None => equal_by_text av bv keys end
  end.

Definition ddbAttrValuesEqual (a b : any) : bool :=
  match as_map a, as_map b with
  | Some av, Some bv =>
      match av !! "N", bv !! "N" with
      | Some an, Some bn => String.eqb (ddbCanonicalNumber (Sprint an)) (ddbCanonicalNumber (Sprint bn))
      | Some _, None | None, Some _ => false
      | None, None =>
          match equal_by_text av bv ["S"; "B"; "BOOL"; "NULL"] with
          | Some r => r
          | None => String.eqb (Sprint a) (Sprint b)
          end
      end
  | _, _ => String.eqb (Sprint a) (Sprint b)
  end.

(** A comparator other than [=] and [<>], from the order of its operands. *)
Definition by_order (op : string) (c : comparison) : bool :=
  if String.eqb op "<" then match c with Lt => true | _ => false end
  else if String.eqb op "<=" then match c with Gt => false | _ => true end
  else if String.eqb op ">" then match c with Gt => true | _ => false end
  else if String.eqb op ">=" then match c with Lt => false | _ => true end
  else false.

Definition ddbCompare (a b : any) (op : string) : bool :=
  if String.eqb op "=" then ddbAttrValuesEqual a b
  else if String.eqb op "<>" then negb (ddbAttrValuesEqual a b)
  else
    let x := ddbScalarString a in let y := ddbScalarString b in
    match SetString x, SetString y with
    | Some r, Some r' => by_order op (Cmp r r')
    | _, _ => by_order op (String.compare x y)
    end.

(** ** Document paths *)

Definition ddbResolveAttrName (name : string) (aliases : gmap string string) : string :=
  let name := TrimSpace name in
  if HasPrefix name "#" then
    let v := default "" (aliases !! name) in if negb (String.eqb v "") then v else name
  else name.

(** The bytes up to and including the first [']'], and what follows. *)
Fixpoint until_bracket (l : list ascii) : option (list ascii * list ascii) :=
  match l with
  | [] => None
  | c :: l' =>
      if Ascii.eqb c (char_of 93) then Some ([c], l')
      else match until_bracket l' with Some (a, b) => Some (c :: a, b) | None => None end
  end.

Definition flush (cur : list ascii) (segs : list string) : list string := if bool_decide (cur = []) then segs else segs ++ [text cur].

Fixpoint split_path (fuel : nat) (l cur : list ascii) (segs : list string) : list string :=
  match fuel, l with
  | O, _ | _, [] => flush cur segs
  | S fuel, c :: l' =>
      if Ascii.eqb c (char_of 46) then split_path fuel l' [] (flush cur segs)
      else if Ascii.eqb c (char_of 91) then
        match until_bracket l with
        | None => flush cur segs
        | Some (seg, rest) => split_path fuel rest [] (flush cur segs ++ [text seg])
        end
      else split_path fuel l' (cur ++ [c]) segs
  end.

Definition ddbSplitPath (path : string) : list string := split_path (String.length path) (chars path) [] [].

(** [strings.Trim(seg, "[]")]. *)
Definition trim_brackets (seg : string) : string := text (trim [[char_of 91]; [char_of 93]] (chars seg)).

Definition resolve_segment (names : gmap string string) (cur : any) (seg : string) : option any :=
  av ← as_map cur;
  if HasPrefix seg "[" then
    idx ← Atoi (trim_brackets seg);
    lst ← as_list (at_key av "L");
    if (idx <? 0) || (Z.of_nat (length lst) <=? idx) then None else lst !! Z.to_nat idx
  else
    m ← as_map (at_key av "M");
    m !! ddbResolveAttrName seg names.

(** [None] is absent. *)
Definition ddbResolvePath (item : attributes) (path : string) (names : gmap string string) : option any :=
  match ddbSplitPath path with
  | [] => None
  | seg :: segs =>
      cur ← item !! ddbResolveAttrName seg names;
      foldl (λ cur seg, cur ≫= λ v, resolve_segment names v seg) (Some cur) segs
  end.

Definition ddbAttrTypeCode (v : any) : string :=
  match as_map v ≫= λ m, first_present m ["S"; "N"; "B"; "BOOL"; "NULL"; "M"; "L"; "SS"; "NS"; "BS"] with
  | Some (code, _) => code
  | None => ""
  end.

Definition ddbAttrSize (v : any) : Z :=
  match as_map v with
  | None => 0
  | Some m =>
      match as_string (at_key m "S"), as_string (at_key m "B"), as_list (at_key m "L"), as_map (at_key m "M") with
      | Some s, _, _, _ => slen s
      | None, Some b, _, _ => slen b
      | None, None, Some l, _ => Z.of_nat (length l)
      | None, None, None, Some mm => Z.of_nat (size mm)
      | None, None, None, None =>
          match omap (λ code, as_list (at_key m code)) ["SS"; "NS"; "BS"] with
          | set :: _ => Z.of_nat (length set)
          | [] => 0
          end
      end
  end.

(** ** Conditions *)

Inductive ddbOperand :=
| OperandValue (ref : string)
| OperandPath (path : string)
| OperandSize (path : string).

Inductive ddbCond :=
| CondOr (l r : ddbCond)
| CondAnd (l r : ddbCond)
| CondNot (inner : ddbCond)
| CondFalse
| CondCompare (l r : ddbOperand) (op : string)
| CondBetween (v lo hi : ddbOperand)
| CondIn (v : ddbOperand) (list : list ddbOperand)
| CondFunc (name path : string) (arg : option ddbOperand).

Record ddbEvalCtx := MkCtx { item : attributes; exists_ : bool; names : gmap string string; values : gmap string any }.

Definition operand_eval (c : ddbEvalCtx) (o : ddbOperand) : option any :=
  match o with
  | OperandValue ref => values c !! ref
  | OperandPath path => ddbResolvePath (item c) path (names c)
  | OperandSize path => (λ v, Obj {[ "N" := Str (Itoa (ddbAttrSize v)) ]}) <$> ddbResolvePath (item c) path (names c)
  end.

(** The first of the set types a value has. *)
Fixpoint first_set (m : gmap string any) (types : list string) : option (string * list any) :=
  match types with
  | [] => None
  | st :: types => match as_list (at_key m st) with Some set => Some (st, set) | None => first_set m types end
  end.

Definition contains_value (val want : any) : bool :=
  let by_text := ContainsStr (ddbScalarString val) (ddbScalarString want) in
  match as_map val with
  | None => by_text
  | Some m =>
      match as_list (at_key m "L") with
      | Some lst => existsb (λ e, ddbAttrValuesEqual e want) lst
      | None =>
          match first_set m ["SS"; "NS"; "BS"] with
          | Some (st, set) =>
              let canon s := if String.eqb st "NS" then ddbCanonicalNumber s else s in
              let target := canon (ddbScalarString want) in
              existsb (λ e, match as_string e with Some s => String.eqb (canon s) target | None => false end) set
          | None => by_text
          end
      end
  end.

(** A function condition without its second argument panics on the nil
    interface; the parser never builds one. *)
Definition func_eval (c : ddbEvalCtx) (name path : string) (arg : option ddbOperand) : option bool :=
  let val := ddbResolvePath (item c) path (names c) in
  let is_value := match val with Some Nil | None => false | Some _ => true end in
  if String.eqb name "attribute_exists" then Some (exists_ c && is_value)
  else if String.eqb name "attribute_not_exists" then Some (negb (exists_ c) || negb is_value)
  else if String.eqb name "begins_with" || String.eqb name "contains" || String.eqb name "attribute_type" then
    match arg with
    | None => None
    | Some arg =>
        Some (match operand_eval c arg, val with
              | Some want, Some val =>
                  if String.eqb name "begins_with" then HasPrefix (ddbScalarString val) (ddbScalarString want)
                  else if String.eqb name "contains" then contains_value val want
                  else String.eqb (ddbAttrTypeCode val) (ddbScalarString want)
              | _, _ => false
              end)
    end
  else Some false.

(** [||] and [&&] do not evaluate their right side when the left decides. *)
Fixpoint cond_eval (c : ddbEvalCtx) (n : ddbCond) : option bool :=
  match n with
  | CondOr l r => match cond_eval c l with Some false => cond_eval c r | b => b end
  | CondAnd l r => match cond_eval c l with Some true => cond_eval c r | b => b end
  | CondNot inner => negb <$> cond_eval c inner
  | CondFalse => Some false
  | CondCompare l r op =>
      Some (match operand_eval c l, operand_eval c r with Some lv, Some rv => ddbCompare lv rv op | _, _ => false end)
  | CondBetween v lo hi =>
      Some (match operand_eval c v, operand_eval c lo, operand_eval c hi with
            | Some v, Some lo, Some hi => ddbCompare v lo ">=" && ddbCompare v hi "<="
            | _, _, _ => false
            end)
  | CondIn v list =>
      Some (match operand_eval c v with
            | None => false
            | Some v => existsb (λ o, match operand_eval c o with Some ov => ddbAttrValuesEqual v ov | None => false end) list
            end)
  | CondFunc name path arg => func_eval c name path arg
  end.

(** A compiled expression; [None] of one is the nil pointer, which matches every
    item. *)
Record ddbCompiledExpr := MkCompiled { node : ddbCond; expr_names : gmap string string; expr_values : gmap string any }.

Definition match_ (e : option ddbCompiledExpr) (item : attributes) (ex : bool) : option bool :=
  match e with None => Some true | Some e => cond_eval (MkCtx item ex (expr_names e) (expr_values e)) (node e) end.

(** Only an argument function needs its argument. *)
Fixpoint evaluable (n : ddbCond) : Prop :=
  match n with
  | CondOr l r | CondAnd l r => evaluable l ∧ evaluable r
  | CondNot inner => evaluable inner
  | CondFunc name _ None => name ∉ ["begins_with"; "contains"; "attribute_type"]
  | _ => True
  end.

Definition evaluable_expr (e : option ddbCompiledExpr) : Prop := ∀ c, e = Some c → evaluable (node c).

Lemma evaluable_eval c n : evaluable n → is_Some (cond_eval c n).
Proof.
  induction n as [l IHl r IHr|l IHl r IHr|n IH| |l r op|v lo hi|v list|name path arg]; cbn [evaluable cond_eval]; try (intros _; by eexists).
  - intros [[[] ->]%IHl ?]; auto.
  - intros [[[] ->]%IHl ?]; auto.
  - intros [b ->]%IH. by eexists.
  - intros He. unfold func_eval. destruct (String.eqb name "attribute_exists"); [by eexists|]. destruct (String.eqb name "attribute_not_exists"); [by eexists|].
    destruct arg as [arg|]; [destruct (_ || _); by eexists|].
    destruct (String.eqb_spec name "begins_with") as [->|]; [by destruct He; left|]. destruct (String.eqb_spec name "contains") as [->|]; [by destruct He; right; left|].
    destruct (String.eqb_spec name "attribute_type") as [->|]; [by destruct He; right; right; left|]. by eexists.
Qed.

Lemma evaluable_match e item ex : evaluable_expr e → is_Some (match_ e item ex).
Proof. destruct e as [e|]; [|by eexists]. intros He. by apply evaluable_eval, He. Qed.

(** ** The partition a key condition fixes *)

Section Partition.
Context `{!Unicode}.

Definition ddbComparedValueFor (path other : ddbOperand) (attr : string) (names : gmap string string) : option string :=
  match path with
  | OperandPath p =>
      let name := default p (names !! p) in
      if negb (EqualFold name attr) then None
      else match other with OperandValue ref => Some ref | _ => None end
  | _ => None
  end.

Fixpoint ddbEqualityValueFor (node : ddbCond) (attr : string) (names : gmap string string) (values : gmap string any) : option any :=
  match node with
  | CondAnd l r =>
      match ddbEqualityValueFor l attr names values with
      | Some v => Some v
      | None => ddbEqualityValueFor r attr names values
      end
  | CondCompare l r op =>
      if negb (String.eqb op "=") then None
      else match ddbComparedValueFor l r attr names with
           | Some ref => values !! ref
           | None =>
               match ddbComparedValueFor r l attr names with
               | Some ref => values !! ref
               | None => None
               end
           end
  | _ => None
  end.

(** The last hash attribute of a key schema. *)
Definition hash_attribute (schema : list DDBKeySchemaEntry) : string :=
  foldl (λ hash k, if String.eqb (KeyType k) "HASH" then AttributeName k else hash) "" schema.

Definition ddbQueryPartitionPrefix (t : DDBTable) (keyExpr : option ddbCompiledExpr) : option string :=
  e ← keyExpr;
  let hash := hash_attribute (KeySchema t) in
  if String.eqb hash "" then None
  else
    value ← ddbEqualityValueFor (node e) hash (expr_names e) (expr_values e);
    let scalar := ddbExtractAttrValue value in
    if String.eqb scalar "" then None else Some (TableName t +:+ "/" +:+ scalar).
End Partition.

(** ** Equal values have equal encodings *)

Lemma big_String_pos_inj a b : 0 < a → 0 < b → big_String a = big_String b → a = b.
Proof.
  intros Ha Hb E. destruct (big_String_pad a Ha) as (k & Ea & Ba), (big_String_pad b Hb) as (k' & Eb & Bb).
  rewrite Ea, Eb in E. assert (k = k') as <- by (apply (f_equal String.length) in E; rewrite !length_pad in E; lia).
  apply Z.compare_eq. rewrite <- (pad_compare (S k)) by (split; [lia|apply Ba || apply Bb]). rewrite E. apply compare_refl_s.
Qed.

Lemma big_String_pos_digits a : 0 < a → Forall is_digit (chars (big_String a)).
Proof. intros Ha. destruct (big_String_pad a Ha) as (k & -> & B). apply pad_digits. lia. Qed.

Lemma big_String_inj a b : big_String a = big_String b → a = b.
Proof.
  assert (∀ n, n < 0 → big_String n = String minus (big_String (- n))) as Hneg.
  { intros n Hn. unfold big_String. rewrite (proj2 (Z.ltb_lt n 0)), (proj2 (Z.ltb_ge (- n) 0)) by lia. done. }
  assert (∀ n, 0 < n → ∀ s, big_String n ≠ String minus s) as Hne.
  { intros n Hn s E. pose proof (big_String_pos_digits n Hn) as D. rewrite E in D. apply Forall_cons in D as [D _]. vm_compute in D. destruct D as [D _]. by apply D. }
  assert (∀ n, 0 < n → big_String n ≠ "0") as H0.
  { intros n Hn E. destruct (big_String_pad n Hn) as (k & Ek & B). rewrite Ek in E. destruct k; [|apply (f_equal String.length) in E; rewrite length_pad in E; simpl in E; lia].
    change (10 ^ Z.of_nat 0) with 1 in B. change (10 ^ Z.of_nat 1) with 10 in B.
    assert (String.compare (pad 1 n) (pad 1 0) = Eq) as C by (rewrite E; done). rewrite pad_compare in C by (change (10 ^ Z.of_nat 1) with 10; lia).
    apply Z.compare_eq in C. lia. }
  intros E. destruct (Z.lt_trichotomy a 0) as [Ha|[->|Ha]], (Z.lt_trichotomy b 0) as [Hb|[->|Hb]]; try done.
  - rewrite (Hneg a), (Hneg b) in E by lia. injection E as E. apply big_String_pos_inj in E; lia.
  - rewrite (Hneg a) in E by lia. done.
  - rewrite (Hneg a) in E by lia. symmetry in E. by apply Hne in E.
  - rewrite (Hneg b) in E by lia. done.
  - symmetry in E. by apply H0 in E.
  - rewrite (Hneg b) in E by lia. by apply Hne in E.
  - by apply H0 in E.
  - by apply big_String_pos_inj.
Qed.

Lemma big_String_no_slash n : char_of 47 ∉ chars (big_String n).
Proof.
  assert (∀ m, 0 < m → char_of 47 ∉ chars (big_String m)) as H.
  { intros m Hm. apply not_digit; [|by apply big_String_pos_digits]. unfold is_digit. rewrite byte_of_char; lia. }
  destruct (Z.lt_trichotomy n 0) as [Hn|[->|Hn]]; [|by apply (bool_decide_unpack _)|auto].
  assert (big_String n = String minus (big_String (- n))) as ->.
  { unfold big_String. rewrite (proj2 (Z.ltb_lt n 0)), (proj2 (Z.ltb_ge (- n) 0)) by lia. done. }
  cbn. intros [E|Hin]%elem_of_cons; [done|]. by apply (H (- n)); [lia|].
Qed.

Lemma RatString_inj r r' : rat_ok r → rat_ok r' → RatString r = RatString r' → r = r'.
Proof.
  intros [D _] [D' _]. pose proof (big_String_no_slash (num r)) as N. pose proof (big_String_no_slash (num r')) as N'.
  unfold RatString. destruct r as [n d], r' as [n' d']. cbn [num den] in *. destruct (Z.eqb_spec d 1), (Z.eqb_spec d' 1); intros E.
  - subst. by apply big_String_inj in E as ->.
  - apply (f_equal (λ s, Cut s "/")) in E. rewrite (Cut_char (char_of 47)), (Cut_char_none (char_of 47)) in E by done. done.
  - apply (f_equal (λ s, Cut s "/")) in E. rewrite (Cut_char (char_of 47)), (Cut_char_none (char_of 47)) in E by done. done.
  - apply (f_equal (λ s, Cut s "/")) in E. rewrite !(Cut_char (char_of 47)) in E by done. injection E as E1%big_String_inj E2%big_String_inj. congruence.
Qed.

(** A key value: one text under a key type. *)
Definition key_type (ty : string) : Prop := ty = "S" ∨ ty = "N" ∨ ty = "B".

Lemma typed_at (ty x k : string) : at_key {[ ty := Str x ]} k = if String.eqb ty k then Str x else Nil.
Proof. unfold at_key. destruct (String.eqb_spec ty k) as [->|N]; [by rewrite lookup_singleton_eq|by rewrite lookup_singleton_ne]. Qed.

Lemma equal_strings x y : ddbAttrValuesEqual (typed "S" x) (typed "S" y) = true → x = y.
Proof.
  unfold ddbAttrValuesEqual, typed. cbn [as_map]. rewrite !lookup_singleton_ne by done. cbn [equal_by_text]. rewrite !typed_at, lookup_singleton_eq.
  change (String.eqb "S" "S") with true. cbn [Sprint]. destruct (String.eqb_spec x y); done.
Qed.

Lemma equal_binaries x y : ddbAttrValuesEqual (typed "B" x) (typed "B" y) = true → x = y.
Proof.
  unfold ddbAttrValuesEqual, typed. cbn [as_map]. rewrite !lookup_singleton_ne by done. cbn [equal_by_text]. rewrite !typed_at, lookup_singleton_eq.
  rewrite lookup_singleton_ne by done. change (String.eqb "B" "S") with false. change (String.eqb "B" "B") with true. cbn [Sprint].
  rewrite String.eqb_refl. cbn [negb]. destruct (String.eqb_spec x y); done.
Qed.

Lemma equal_numbers x y :
  ddbAttrValuesEqual (typed "N" x) (typed "N" y) = true → ddbCanonicalNumber x = ddbCanonicalNumber y.
Proof. unfold ddbAttrValuesEqual, typed. cbn [as_map]. rewrite !lookup_singleton_eq. apply String.eqb_eq. Qed.

Lemma canonical_rat x e : ddbOrderedNumber x = Some e → ∃ r, SetString (TrimSpace x) = Some r ∧ rat_ok r ∧ ddbCanonicalNumber x = RatString r ∧ ordered_rat r = Some e.
Proof.
  unfold ddbOrderedNumber, ddbCanonicalNumber. destruct (SetString _) as [r|] eqn:E; [|done]. intros He. exists r. split_and!; try done. by eapply SetString_ok.
Qed.

(** Values the evaluator calls equal are stored under the same key. *)
Lemma equal_keys_encode ty x y :
  key_type ty → ddbExtractAttrValue (typed ty x) ≠ "" → ddbExtractAttrValue (typed ty y) ≠ "" →
  ddbAttrValuesEqual (typed ty x) (typed ty y) = true → ddbExtractAttrValue (typed ty x) = ddbExtractAttrValue (typed ty y).
Proof.
  intros [->|[->| ->]] Hx Hy E; [apply equal_strings in E; by rewrite E| |apply equal_binaries in E; by rewrite E].
  apply equal_numbers in E. unfold ddbExtractAttrValue, typed in *. cbn [as_map] in *. rewrite !typed_at in *.
  change (String.eqb "N" "S") with false in *. change (String.eqb "N" "N") with true in *. cbn [as_string] in *.
  destruct (ddbOrderedNumber x) as [ex|] eqn:Ex; [|done]. destruct (ddbOrderedNumber y) as [ey|] eqn:Ey; [|done].
  apply canonical_rat in Ex as (r & _ & Ok & Cx & Ox), Ey as (r' & _ & Ok' & Cy & Oy). rewrite Cx, Cy in E.
  apply RatString_inj in E as ->; [|done..]. congruence.
Qed.

Lemma equal_keys_sym ty x y : key_type ty → ddbAttrValuesEqual (typed ty x) (typed ty y) = true → ddbAttrValuesEqual (typed ty y) (typed ty x) = true.
Proof.
  intros [->|[->| ->]] E; [pose proof (equal_strings _ _ E); congruence| |pose proof (equal_binaries _ _ E); congruence].
  apply equal_numbers in E. unfold ddbAttrValuesEqual, typed. cbn [as_map]. rewrite !lookup_singleton_eq. by apply String.eqb_eq.
Qed.

(** ** A key condition confines soundly *)

Definition operand_paths (o : ddbOperand) : list string := match o with OperandPath p | OperandSize p => [p] | OperandValue _ => [] end.
Definition operand_refs (o : ddbOperand) : list string := match o with OperandValue r => [r] | _ => [] end.

Fixpoint cond_operands (n : ddbCond) : list ddbOperand :=
  match n with
  | CondOr l r | CondAnd l r => cond_operands l ++ cond_operands r
  | CondNot inner => cond_operands inner
  | CondFalse => []
  | CondCompare l r _ => [l; r]
  | CondBetween v lo hi => [v; lo; hi]
  | CondIn v list => v :: list
  | CondFunc _ path arg => OperandPath path :: match arg with Some a => [a] | None => [] end
  end.

(** A path that is one attribute name, written without spaces. *)
Definition plain_path (p : string) : Prop := ddbSplitPath p = [p] ∧ TrimSpace p = p.

Section Confine.
Context `{!Unicode}.

(** The condition names the hash attribute in its own letter case, by a plain
    path; aliases begin with a hash sign. *)
Definition names_hash_exactly (e : ddbCompiledExpr) (hash : string) : Prop :=
  (∀ a v, expr_names e !! a = Some v → HasPrefix a "#" = true) ∧
  ∀ p, OperandPath p ∈ cond_operands (node e) → EqualFold (default p (expr_names e !! p)) hash = true →
    default p (expr_names e !! p) = hash ∧ plain_path p.

Lemma resolve_plain item p names hash :
  (∀ a v, names !! a = Some v → HasPrefix a "#" = true) → plain_path p → default p (names !! p) = hash → hash ≠ "" →
  ddbResolvePath item p names = item !! hash.
Proof.
  intros Ha [Hs Ht] Hn Hne. unfold ddbResolvePath. rewrite Hs. cbn [foldl].
  assert (ddbResolveAttrName p names = hash) as ->.
  { unfold ddbResolveAttrName. rewrite Ht. destruct (names !! p) as [v|] eqn:E; simpl in Hn; subst.
    - rewrite (Ha _ _ E). cbn [default from_option id]. by destruct (String.eqb_spec hash "").
    - by destruct (HasPrefix _ _). }
  by destruct (item !! hash).
Qed.

Lemma equality_holds node hash names values item v :
  (∀ a w, names !! a = Some w → HasPrefix a "#" = true) →
  (∀ p, OperandPath p ∈ cond_operands node → EqualFold (default p (names !! p)) hash = true → default p (names !! p) = hash ∧ plain_path p) →
  hash ≠ "" → ddbEqualityValueFor node hash names values = Some v → cond_eval (MkCtx item true names values) node = Some true →
  ∃ w, item !! hash = Some w ∧ (ddbAttrValuesEqual w v = true ∨ ddbAttrValuesEqual v w = true).
Proof.
  intros Ha. induction node as [| l IHl r IHr | | |l r op| | | ]; intros Hp Hne Hv Hev; cbn [ddbEqualityValueFor cond_operands cond_eval] in *; try done.
  - destruct (cond_eval _ l) as [[]|]; try done. destruct (ddbEqualityValueFor l hash names values) as [v'|].
    + simplify_eq. apply IHl; try done. intros p Hin. apply Hp. apply elem_of_app. by left.
    + apply IHr; try done. intros p Hin. apply Hp. apply elem_of_app. by right.
  - destruct (String.eqb_spec op "=") as [->|]; [|done]. cbn [negb] in Hv. injection Hev as Hev.
    destruct (ddbComparedValueFor l r hash names) as [ref|] eqn:E1.
    + unfold ddbComparedValueFor in E1. destruct l as [|p|]; try done. destruct (EqualFold _ _) eqn:EF; [|done].
      destruct r as [ref'| |]; simplify_eq/=. destruct (Hp p) as [Hn Hpl]; [by left|done|].
      rewrite (resolve_plain item p names hash Ha Hpl Hn Hne), Hv in Hev. destruct (item !! hash) as [w|]; [|done]. exists w. auto.
    + destruct (ddbComparedValueFor r l hash names) as [ref|] eqn:E2; [|done].
      unfold ddbComparedValueFor in E2. destruct r as [|p|]; try done. destruct (EqualFold _ _) eqn:EF; [|done].
      destruct l as [ref'| |]; simplify_eq/=. destruct (Hp p) as [Hn Hpl]; [right; by left|done|].
      rewrite (resolve_plain item p names hash Ha Hpl Hn Hne), Hv in Hev. destruct (item !! hash) as [w|]; [|done]. exists w. auto.
Qed.
End Confine.

(** ** Where evaluation departs from DynamoDB *)

(** Strings that look like numbers are ordered as numbers, so [10] is not below
    [9] as the strings, and the store's keys, are. *)
Example number_like_strings_compare_as_numbers :
  ddbCompare (typed "S" "10") (typed "S" "9") "<" = false ∧ slt "10" "9" ∧
  slt (ddbExtractAttrValue (typed "S" "10")) (ddbExtractAttrValue (typed "S" "9")).
Proof. by vm_compute. Qed.

(** The text an absent member prints as makes a string equal to any value that is
    not a number or a string. *)
Example nil_text_equals_other_types :
  ddbAttrValuesEqual (typed "S" "<nil>") (Obj {[ "BOOL" := Bool true ]}) = true ∧
  ddbAttrValuesEqual (Obj {[ "BOOL" := Bool true ]}) (typed "S" "<nil>") = false.
Proof. by vm_compute. Qed.

(** Lists and sets are equal when they print the same: a string can spell the
    boundary between two elements, and the order of a set matters. *)
Example printed_values_collide :
  let list l := Obj {[ "L" := Arr l ]} in let set l := Obj {[ "SS" := Arr l ]} in
  ddbAttrValuesEqual (list [typed "S" "a"; typed "S" "b"]) (list [typed "S" "a] map[S:b"]) = true ∧
  ddbAttrValuesEqual (set [Str "a"; Str "b"]) (set [Str "b"; Str "a"]) = false.
Proof. by vm_compute. Qed.

(** The size of a binary value is the length of its base64 text. *)
Example binary_size_counts_base64 : ddbAttrSize (typed "B" "AAAA") = 4.
Proof. by vm_compute. Qed.

Definition ascii_case : Unicode := {|
  SimpleFold r := if (65 <=? r) && (r <=? 90) then r + 32 else if (97 <=? r) && (r <=? 122) then r - 32 else r;
  ToLower_rune r := if (65 <=? r) && (r <=? 90) then r + 32 else r
|}.

(** Attribute names differ by letter case, but the equality that confines a query
    is looked up without it: the item matches the condition and lies outside the
    partition read. *)
Example case_folded_name_confines_wrongly :
  let t := MkTable "t" [MkAttrDef "PK" "S"] [MkKeyEntry "PK" "HASH"] [] [] in
  let e := MkCompiled (CondCompare (OperandPath "pk") (OperandValue ":v") "=") ∅ {[ ":v" := typed "S" "b" ]} in
  let item := {[ "PK" := typed "S" "a"; "pk" := typed "S" "b" ]} in
  match_ (Some e) item true = Some true ∧
  ddbQueryPartitionPrefix (H := ascii_case) t (Some e) = Some "t/Sb" ∧ ddbKeyInPartition (ddbItemKey t item) "t/Sb" = false.
Proof. by vm_compute. Qed.
