(* ===== verification/Ddbexpr.v ===== *)
(** * The DynamoDB expression parser: [src/simulator-aws/dynamodb_expr.go]

    Condition, filter and key-condition expressions: the tokenizer over
    [Parsecore]'s scanner, the recursive-descent parser with its budget of nested
    parentheses, the check of references, and compilation. The parser keeps going
    after its first error, with sentinel nodes; indexing past the tokens would
    panic. The theorem is that it never does, that it always finishes, and that it
    accepts exactly a grammar. *)

From S2P Require Import Prelude Gostd Parsecore Utf8 Bigrat Ddbkeys Ddbcond.

(** [unicode.ToUpper]. *)
Class Upper := ToUpper_rune : Z → Z.

(** ** Tokens *)

Inductive ddbTokKind :=
| TokEOF | TokLParen | TokRParen | TokComma | TokOp | TokAnd | TokOr | TokNot | TokBetween | TokIn | TokWord.
#[global] Instance ddbTokKind_dec : EqDecision ddbTokKind.
Proof. solve_decision. Defined.

Record ddbExprTok := MkTok { kind : ddbTokKind; tok_text : string }.

Definition is_kind (k : ddbTokKind) (t : ddbExprTok) : bool := bool_decide (kind t = k).

(** Opens an existential or a conjunction completely. *)
Ltac unpack :=
  cbv beta in *; repeat match goal with Y : ∃ _, _ |- _ => destruct Y | Y : _ ∧ _ |- _ => destruct Y end; subst.

Section Expr.
Context `{!Unicode, !Upper}.

Definition ToUpper (s : string) : string := string_of_runes (ToUpper_rune <$> runes s).

(** The characters that end a word. *)
Definition is_space (c : ascii) : bool := (byte_of c =? 32) || (byte_of c =? 9) || (byte_of c =? 10).
Definition is_open (c : ascii) : bool := byte_of c =? 40.
Definition is_close (c : ascii) : bool := byte_of c =? 41.
Definition is_comma (c : ascii) : bool := byte_of c =? 44.
Definition is_op (c : ascii) : bool := (byte_of c =? 61) || (byte_of c =? 60) || (byte_of c =? 62).
Definition ends_word (c : ascii) : bool := is_space c || is_open c || is_close c || is_comma c || is_op c.
Definition joins_op (c : ascii) : bool := (byte_of c =? 61) || (byte_of c =? 62).

Definition word_token (word : string) : ddbExprTok :=
  let up := ToUpper word in
  if String.eqb up "AND" then MkTok TokAnd word
  else if String.eqb up "OR" then MkTok TokOr word
  else if String.eqb up "NOT" then MkTok TokNot word
  else if String.eqb up "BETWEEN" then MkTok TokBetween word
  else if String.eqb up "IN" then MkTok TokIn word
  else MkTok TokWord word.

Definition advance_sc (sc : Scanner) : option Scanner := snd <$> Next sc.

(** The scanner at the end of the word; [None] covers a panic and the end of the
    fuel, and neither occurs. *)
Fixpoint word_loop (fuel : nat) (sc : Scanner) : option Scanner :=
  match fuel with
  | O => None
  | S fuel =>
      if Eof sc then Some sc
      else ch ← Peek sc; if ends_word ch then Some sc else sc ← advance_sc sc; word_loop fuel sc
  end.

Fixpoint tokenize_loop (fuel : nat) (sc : Scanner) (toks : list ddbExprTok) : option (list ddbExprTok) :=
  match fuel with
  | O => None
  | S fuel =>
      if Eof sc then Some toks
      else
        c ← Peek sc;
        if is_space c then sc ← advance_sc sc; tokenize_loop fuel sc toks
        else if is_open c then sc ← advance_sc sc; tokenize_loop fuel sc (toks ++ [MkTok TokLParen "("])
        else if is_close c then sc ← advance_sc sc; tokenize_loop fuel sc (toks ++ [MkTok TokRParen ")"])
        else if is_comma c then sc ← advance_sc sc; tokenize_loop fuel sc (toks ++ [MkTok TokComma ","])
        else if is_op c then
          sc ← advance_sc sc;
          n ← Peek sc;
          if joins_op n then
            sc ← advance_sc sc; tokenize_loop fuel sc (toks ++ [MkTok TokOp (String c (String n ""))])
          else tokenize_loop fuel sc (toks ++ [MkTok TokOp (String c "")])
        else
          let start := Pos sc in
          sc ← word_loop fuel sc;
          word ← Slice sc start (Pos sc);
          tokenize_loop fuel sc (toks ++ [word_token word])
  end.

Definition ddbExprTokenize (s : string) : option (list ddbExprTok) :=
  toks ← tokenize_loop (S (S (String.length s))) (NewScanner s) [];
  Some (toks ++ [MkTok TokEOF ""]).

(** ** The parser *)

Inductive expr_error :=
| ErrTooDeep | ErrExpectedClose | ErrComparator (op : string) | ErrCloseIn | ErrOpenIn | ErrExpectedComparator
| ErrEnd | ErrUnexpected (tok : string) | ErrOpenFunction | ErrExpectedPath | ErrExpectedComma
| ErrUndefinedValue (ref : string) | ErrUndefinedName (name : string).

Record ddbExprParser := MkParser {
  toks : list ddbExprTok;
  at_pos : nat;
  guard : ParseGuard;
  err : option expr_error;
  valueRefs : gset string;
  paths : list string;
}.

(** A step of the parser returns, panics, or is out of fuel. *)
Inductive outcome (A : Type) := Done (a : A) (p : ddbExprParser) | Panic | OutOfFuel.
#[local] Arguments Done {A}.
#[local] Arguments Panic {A}.
#[local] Arguments OutOfFuel {A}.

Definition P (A : Type) : Type := ddbExprParser → outcome A.
#[global] Instance P_ret : MRet P := λ A a p, Done a p.
#[global] Instance P_bind : MBind P := λ A B f m p, match m p with Done a p => f a p | Panic => Panic | OutOfFuel => OutOfFuel end.

Definition no_fuel {A} : P A := λ _, OutOfFuel.

Definition fail (e : expr_error) : P unit := λ p,
  Done () (MkParser (toks p) (at_pos p) (guard p) (match err p with None => Some e | Some e => Some e end) (valueRefs p) (paths p)).
Definition recordValueRef (ref : string) : P unit := λ p,
  Done () (MkParser (toks p) (at_pos p) (guard p) (err p) ({[ ref ]} ∪ valueRefs p) (paths p)).
Definition recordPath (path : string) : P unit := λ p,
  Done () (MkParser (toks p) (at_pos p) (guard p) (err p) (valueRefs p)
             (if negb (String.eqb path "") then paths p ++ [path] else paths p)).
Definition enter : P bool := λ p,
  let '(g, ok) := Enter (guard p) in Done ok (MkParser (toks p) (at_pos p) g (err p) (valueRefs p) (paths p)).
Definition leave : P unit := λ p,
  Done () (MkParser (toks p) (at_pos p) (Leave (guard p)) (err p) (valueRefs p) (paths p)).

Definition peek : P ddbExprTok := λ p, match toks p !! at_pos p with Some t => Done t p | None => Panic end.
Definition next : P ddbExprTok := λ p,
  match toks p !! at_pos p with
  | Some t => Done t (MkParser (toks p) (S (at_pos p)) (guard p) (err p) (valueRefs p) (paths p))
  | None => Panic
  end.

(** [if p.peek().kind == k { p.next() } else { p.fail(e) }]. *)
Definition expect (k : ddbTokKind) (e : expr_error) : P unit :=
  t ← peek;
  if is_kind k t then _ ← next; mret () else fail e.

Definition maxExprParseDepth : Z := 1000.

Definition ddbValidComparator (op : string) : bool :=
  existsb (String.eqb op) ["="; "<>"; "<"; "<="; ">"; ">="].

Definition paren_path_word : P string :=
  t ← peek;
  if is_kind TokWord t then t ← next; _ ← recordPath (tok_text t); mret (tok_text t)
  else _ ← fail ErrExpectedPath; mret "".

Definition parseParenPath : P string :=
  _ ← expect TokLParen ErrOpenFunction;
  path ← paren_path_word;
  _ ← expect TokRParen ErrExpectedClose;
  mret path.

Definition parseOperand : P ddbOperand :=
  t ← peek;
  if is_kind TokWord t && String.eqb (ToLower (tok_text t)) "size" then
    _ ← next; path ← parseParenPath; mret (OperandSize path)
  else if negb (is_kind TokWord t) then
    _ ← (if is_kind TokEOF t then fail ErrEnd else _ ← fail (ErrUnexpected (tok_text t)); _ ← next; mret ());
    mret (OperandValue "")
  else
    w ← next;
    let w := tok_text w in
    if HasPrefix w ":" then _ ← recordValueRef w; mret (OperandValue w)
    else _ ← recordPath w; mret (OperandPath w).

Definition parseParenPathArg : P (string * ddbOperand) :=
  _ ← expect TokLParen ErrOpenFunction;
  path ← paren_path_word;
  _ ← expect TokComma ErrExpectedComma;
  arg ← parseOperand;
  _ ← expect TokRParen ErrExpectedClose;
  mret (path, arg).

(** The operands of an [IN] list. *)
Fixpoint in_loop (fuel : nat) (ops : list ddbOperand) : P (list ddbOperand) :=
  match fuel with
  | O => no_fuel
  | S fuel =>
      t ← peek;
      if is_kind TokRParen t || is_kind TokEOF t then mret ops
      else
        o ← parseOperand;
        t ← peek;
        _ ← (if is_kind TokComma t then _ ← next; mret () else mret ());
        in_loop fuel (ops ++ [o])
  end.

Definition exists_functions : list string := ["attribute_exists"; "attribute_not_exists"].
Definition argument_functions : list string := ["begins_with"; "contains"; "attribute_type"].
Definition one_of (names : list string) (s : string) : bool := existsb (String.eqb s) names.

(** The end of [parseTerm]: a comparison, a [BETWEEN] or an [IN]. *)
Definition parse_comparison (fuel : nat) : P ddbCond :=
  left ← parseOperand;
  t ← peek;
  if is_kind TokOp t then
    op ← next;
    _ ← (if negb (ddbValidComparator (tok_text op)) then fail (ErrComparator (tok_text op)) else mret ());
    r ← parseOperand;
    mret (CondCompare left r (tok_text op))
  else if is_kind TokBetween t then
    _ ← next;
    lo ← parseOperand;
    t ← peek;
    _ ← (if is_kind TokAnd t then _ ← next; mret () else mret ());
    hi ← parseOperand;
    mret (CondBetween left lo hi)
  else if is_kind TokIn t then
    _ ← next;
    t ← peek;
    ops ← (if is_kind TokLParen t then
             _ ← next;
             ops ← in_loop fuel [];
             _ ← expect TokRParen ErrCloseIn;
             mret ops
           else _ ← fail ErrOpenIn; mret []);
    mret (CondIn left ops)
  else _ ← fail ErrExpectedComparator; mret CondFalse.

Fixpoint parseOr (fuel : nat) : P ddbCond :=
  match fuel with
  | O => no_fuel
  | S fuel => left ← parseAnd fuel; or_loop fuel left
  end
with or_loop (fuel : nat) (left : ddbCond) : P ddbCond :=
  match fuel with
  | O => no_fuel
  | S fuel =>
      t ← peek;
      if is_kind TokOr t then _ ← next; r ← parseAnd fuel; or_loop fuel (CondOr left r) else mret left
  end
with parseAnd (fuel : nat) : P ddbCond :=
  match fuel with
  | O => no_fuel
  | S fuel => left ← parseNot fuel; and_loop fuel left
  end
with and_loop (fuel : nat) (left : ddbCond) : P ddbCond :=
  match fuel with
  | O => no_fuel
  | S fuel =>
      t ← peek;
      if is_kind TokAnd t then _ ← next; r ← parseNot fuel; and_loop fuel (CondAnd left r) else mret left
  end
with parseNot (fuel : nat) : P ddbCond :=
  match fuel with
  | O => no_fuel
  | S fuel =>
      t ← peek;
      if is_kind TokNot t then _ ← next; inner ← parseNot fuel; mret (CondNot inner) else parseTerm fuel
  end
with parseTerm (fuel : nat) : P ddbCond :=
  match fuel with
  | O => no_fuel
  | S fuel =>
      t ← peek;
      if is_kind TokLParen t then
        _ ← next;
        ok ← enter;
        if negb ok then _ ← leave; _ ← fail ErrTooDeep; mret CondFalse
        else
          inner ← parseOr fuel;
          _ ← leave;
          _ ← expect TokRParen ErrExpectedClose;
          mret inner
      else if is_kind TokWord t && one_of exists_functions (ToLower (tok_text t)) then
        fn ← next;
        path ← parseParenPath;
        mret (CondFunc (ToLower (tok_text fn)) path None)
      else if is_kind TokWord t && one_of argument_functions (ToLower (tok_text t)) then
        fn ← next;
        pa ← parseParenPathArg;
        mret (CondFunc (ToLower (tok_text fn)) pa.1 (Some pa.2))
      else parse_comparison fuel
  end.

(** Every call that consumes no token is one of at most five in a row. *)
Definition parse_fuel (p : ddbExprParser) : nat := 6 * length (toks p) + 4.

(** The undefined value a map's order puts first, then the first undefined name. *)
Definition undefined_name (names : gmap string string) (path : string) : option string :=
  find (λ seg, HasPrefix seg "#" && String.eqb (default "" (names !! seg)) "") (ddbSplitPath path).

Definition checkRefs (p : ddbExprParser) (names : gmap string string) (values : gmap string any) : option expr_error :=
  match find (λ ref, match values !! ref with None => true | Some _ => false end) (elements (valueRefs p)) with
  | Some ref => Some (ErrUndefinedValue ref)
  | None => match omap (undefined_name names) (paths p) with seg :: _ => Some (ErrUndefinedName seg) | [] => None end
  end.

(** [if p.err == nil && p.peek().kind != ddbTokEOF { p.fail(...) }]. *)
Definition check_end : P unit := λ p,
  match err p with
  | None => (t ← peek; if negb (is_kind TokEOF t) then fail (ErrUnexpected (tok_text t)) else mret ()) p
  | Some _ => Done () p
  end.

(** An empty expression compiles to the nil pointer; the outer [None] is a panic
    or the end of the fuel. *)
Definition ddbCompileExpr (expr : string) (names : gmap string string) (values : gmap string any) :
    option (result expr_error (option ddbCompiledExpr)) :=
  let expr := TrimSpace expr in
  if String.eqb expr "" then Some (Ok None)
  else
    ts ← ddbExprTokenize expr;
    let p := MkParser ts 0 (NewParseGuard maxExprParseDepth (2 ^ 62)) None ∅ [] in
    match (node ← parseOr (parse_fuel p); _ ← check_end; mret node) p with
    | Done node p =>
        match err p with
        | Some e => Some (Err e)
        | None =>
            match checkRefs p names values with
            | Some e => Some (Err e)
            | None => Some (Ok (Some (MkCompiled node names values)))
            end
        end
    | Panic | OutOfFuel => None
    end.

Definition ddbEvalExpr (item : attributes) (ex : bool) (expr : string) (names : gmap string string) (values : gmap string any) :
    option (result expr_error bool) :=
  match ddbCompileExpr expr names values with
  | None => None
  | Some (Err e) => Some (Err e)
  | Some (Ok c) => match match_ c item ex with Some b => Some (Ok b) | None => None end
  end.

(** ** The tokens of a text *)

(** One pass over the bytes, with the word collected so far. *)
Definition end_word (cur : list ascii) : list ddbExprTok := if bool_decide (cur = []) then [] else [word_token (text cur)].

Fixpoint lex (l cur : list ascii) : list ddbExprTok :=
  match l with
  | [] => end_word cur
  | c :: l' =>
      if is_space c then end_word cur ++ lex l' []
      else if is_open c then end_word cur ++ MkTok TokLParen "(" :: lex l' []
      else if is_close c then end_word cur ++ MkTok TokRParen ")" :: lex l' []
      else if is_comma c then end_word cur ++ MkTok TokComma "," :: lex l' []
      else if is_op c then
        end_word cur ++
        match l' with
        | n :: l'' => if joins_op n then MkTok TokOp (String c (String n "")) :: lex l'' [] else MkTok TokOp (String c "") :: lex l' []
        | [] => [MkTok TokOp (String c "")]
        end
      else lex l' (cur ++ [c])
  end.

Lemma Eof_at a b : Eof (scan_at a b) = bool_decide (b = []).
Proof.
  unfold Eof, scan_at. cbn [s pos]. rewrite slen_text, length_app. destruct b; simpl.
  - apply Z.leb_le. lia.
  - apply Z.leb_gt. lia.
Qed.

Lemma Peek_at a c b : Peek (scan_at a (c :: b)) = Some c.
Proof. unfold Peek, scan_at. cbn [s pos]. rewrite slen_text, length_app, (proj2 (Z.ltb_lt _ _)) by (simpl; lia). apply index_app. Qed.

Lemma Peek_end a : Peek (scan_at a []) = Some zero_byte.
Proof. unfold Peek, scan_at. cbn [s pos]. rewrite slen_text, app_nil_r, (proj2 (Z.ltb_ge _ _)) by lia. done. Qed.

Lemma advance_at a c b : Z.of_nat (length (a ++ c :: b)) < 2 ^ 62 → advance_sc (scan_at a (c :: b)) = Some (scan_at (a ++ [c]) b).
Proof. rewrite length_app. intros Hn. unfold advance_sc. rewrite Next_byte by lia. done. Qed.

(** The bytes of a word from the cursor on. *)
Fixpoint word_prefix (l : list ascii) : list ascii * list ascii :=
  match l with
  | [] => ([], [])
  | c :: l' => if ends_word c then ([], l) else let '(w, r) := word_prefix l' in (c :: w, r)
  end.

Lemma word_prefix_app l : l = (word_prefix l).1 ++ (word_prefix l).2.
Proof. induction l as [|c l IH]; [done|]. simpl. destruct (ends_word c); [done|]. destruct (word_prefix l). simpl in *. by rewrite IH at 1. Qed.

Lemma word_loop_at fuel a b :
  Z.of_nat (length (a ++ b)) < 2 ^ 62 → (length b < fuel)%nat →
  word_loop fuel (scan_at a b) = Some (scan_at (a ++ (word_prefix b).1) (word_prefix b).2).
Proof.
  revert a b. induction fuel as [|fuel IH]; intros a b Hl Hf; [lia|]. cbn [word_loop]. rewrite Eof_at. destruct b as [|c b].
  { simpl. by rewrite app_nil_r. }
  rewrite bool_decide_eq_false_2 by done. rewrite Peek_at. cbn [mbind option_bind word_prefix].
  destruct (ends_word c); [by rewrite app_nil_r|]. rewrite advance_at by done. cbn [mbind option_bind].
  rewrite IH by (simpl in Hf; rewrite <- ?app_assoc; (done || lia)). destruct (word_prefix b). simpl. by rewrite <- app_assoc.
Qed.

Lemma Slice_at a w r : Slice (scan_at (a ++ w) r) (Z.of_nat (length a)) (Pos (scan_at (a ++ w) r)) = Some (text w).
Proof.
  rewrite Slice_clamped. unfold Pos, scan_at, clamp. cbn [s pos]. rewrite slen_text, !length_app, chars_text, Nat2Z.id.
  rewrite <- app_assoc, drop_app_length. do 2 f_equal.
  replace (Z.to_nat _) with (length w) by lia. apply take_app_length.
Qed.

(** Collecting a word byte by byte yields the same token. *)
Lemma lex_word l cur :
  lex l cur = end_word (cur ++ (word_prefix l).1) ++ lex (word_prefix l).2 [].
Proof.
  revert cur. induction l as [|c l IH]; intros cur; [cbn; by rewrite !app_nil_r|]. cbn [word_prefix].
  destruct (ends_word c) eqn:E.
  - cbn [fst snd]. rewrite app_nil_r. unfold ends_word in E. cbn [lex].
    destruct (is_space c); [done|]. destruct (is_open c); [done|]. destruct (is_close c); [done|]. destruct (is_comma c); [done|].
    destruct (is_op c); done.
  - destruct (word_prefix l) as [w r] eqn:Ew. cbn [fst snd]. unfold ends_word in E. bools. cbn [lex].
    repeat match goal with H : _ = false |- _ => rewrite H; clear H end. rewrite IH. cbn [fst snd]. by rewrite <- app_assoc.
Qed.

Lemma tokenize_loop_at fuel a b ts :
  Z.of_nat (length (a ++ b)) < 2 ^ 62 → (length b + 1 < fuel)%nat →
  tokenize_loop fuel (scan_at a b) ts = Some (ts ++ lex b []).
Proof.
  revert a b ts. induction fuel as [|fuel IH]; intros a b ts Hl Hf; [lia|]. cbn [tokenize_loop]. rewrite Eof_at. destruct b as [|c b].
  { cbn. by rewrite app_nil_r. }
  rewrite bool_decide_eq_false_2 by done. rewrite Peek_at. cbn [mbind option_bind]. simpl in Hf.
  assert (Z.of_nat (length ((a ++ [c]) ++ b)) < 2 ^ 62) as Hl' by by rewrite <- app_assoc.
  assert (∀ ts', tokenize_loop fuel (scan_at (a ++ [c]) b) ts' = Some (ts' ++ lex b [])) as Step by (intros; apply IH; [done|lia]).
  pose proof (advance_at a c b Hl) as Adv. cbn [lex]. change (end_word []) with (@nil ddbExprTok). cbn [app].
  destruct (is_space c) eqn:E1; [rewrite Adv; apply Step|].
  destruct (is_open c) eqn:E2; [rewrite Adv; cbn [mbind option_bind]; rewrite Step, <- app_assoc; done|].
  destruct (is_close c) eqn:E3; [rewrite Adv; cbn [mbind option_bind]; rewrite Step, <- app_assoc; done|].
  destruct (is_comma c) eqn:E4; [rewrite Adv; cbn [mbind option_bind]; rewrite Step, <- app_assoc; done|].
  destruct (is_op c) eqn:E5.
  - rewrite Adv. cbn [mbind option_bind]. destruct b as [|n b].
    + rewrite Peek_end. cbn [mbind option_bind]. change (joins_op zero_byte) with false. cbn iota. rewrite Step, <- app_assoc. done.
    + rewrite Peek_at. cbn [mbind option_bind]. destruct (joins_op n); [|rewrite Step, <- app_assoc; done].
      rewrite advance_at by done. cbn [mbind option_bind]. rewrite IH, <- app_assoc by (rewrite <- ?app_assoc in *; simpl in *; (done || lia)). done.
  - assert (ends_word c = false) as Ew by (unfold ends_word; by rewrite E1, E2, E3, E4, E5).
    rewrite word_loop_at by (simpl; (done || lia)). cbn [mbind option_bind]. change (Pos (scan_at a (c :: b))) with (Z.of_nat (length a)).
    rewrite Slice_at. cbn [mbind option_bind word_prefix]. rewrite Ew, (lex_word b [c]). pose proof (word_prefix_app b) as Eb.
    destruct (word_prefix b) as [w r]. cbn [fst snd] in *. subst b.
    rewrite IH by (rewrite ?length_app in *; simpl in *; rewrite ?length_app in *; lia). rewrite <- app_assoc. done.
Qed.

Definition tokens (s : string) : list ddbExprTok := lex (chars s) [].

Lemma ddbExprTokenize_lex s : Z.of_nat (String.length s) < 2 ^ 62 → ddbExprTokenize s = Some (tokens s ++ [MkTok TokEOF ""]).
Proof.
  intros Hl. unfold ddbExprTokenize, tokens. assert (NewScanner s = scan_at [] (chars s)) as -> by (unfold NewScanner, scan_at; simpl; by rewrite text_chars).
  rewrite tokenize_loop_at; [done|cbn [app]; by rewrite length_chars_p|rewrite length_chars_p; lia].
Qed.

(** No token of the text is the end marker. *)
Lemma lex_not_eof l cur : Forall (λ t, kind t ≠ TokEOF) (lex l cur).
Proof.
  assert (∀ cur, Forall (λ t, kind t ≠ TokEOF) (end_word cur)) as Hw.
  { intros w. unfold end_word. case_bool_decide; constructor; [|constructor]. unfold word_token. repeat case_match; done. }
  revert cur. induction l as [l IH] using (induction_ltof1 _ length). intros cur. destruct l as [|c l]; [apply Hw|]. cbn [lex].
  assert (∀ cur, Forall (λ t, kind t ≠ TokEOF) (lex l cur)) as Hl by (intros; apply IH; unfold ltof; simpl; lia).
  destruct (is_space c); [apply Forall_app; auto|]. destruct (is_open c); [apply Forall_app; auto|]. destruct (is_close c); [apply Forall_app; auto|].
  destruct (is_comma c); [apply Forall_app; auto|]. destruct (is_op c); [|done]. apply Forall_app. split; [done|].
  destruct l as [|n l]; [by constructor|]. destruct (joins_op n); constructor; try done. apply IH. unfold ltof. simpl. lia.
Qed.

(** ** The grammar *)

(** The language the parser accepts, over tokens. It is looser than the grammar
    the source documents, which is [doc_or] below: the [AND] of a [BETWEEN] and
    the commas of an [IN] list are optional, the list may be empty or end in a
    comma, [NOT] may be repeated, and any word that is not a value reference is a
    path. The index bounds the nesting of parentheses. *)
Inductive gen_operand : list ddbExprTok → ddbOperand → Prop :=
| gen_size w o t c :
    kind w = TokWord → ToLower (tok_text w) = "size" → kind o = TokLParen → kind t = TokWord → kind c = TokRParen →
    gen_operand [w; o; t; c] (OperandSize (tok_text t))
| gen_value w :
    kind w = TokWord → ToLower (tok_text w) ≠ "size" → HasPrefix (tok_text w) ":" = true → gen_operand [w] (OperandValue (tok_text w))
| gen_path w :
    kind w = TokWord → ToLower (tok_text w) ≠ "size" → HasPrefix (tok_text w) ":" = false → gen_operand [w] (OperandPath (tok_text w)).

Inductive gen_list : list ddbExprTok → list ddbOperand → Prop :=
| gen_nil : gen_list [] []
| gen_cons l o l' os : gen_operand l o → gen_list l' os → gen_list (l ++ l') (o :: os)
| gen_cons_comma l o c l' os : gen_operand l o → kind c = TokComma → gen_list l' os → gen_list (l ++ c :: l') (o :: os).

(** A word that [parseTerm] does not take for a function. *)
Definition not_function (l : list ddbExprTok) : Prop :=
  match l with
  | t :: _ => kind t = TokWord → one_of exists_functions (ToLower (tok_text t)) = false ∧ one_of argument_functions (ToLower (tok_text t)) = false
  | [] => True
  end.

Definition optional (k : ddbTokKind) (l : list ddbExprTok) : Prop := l = [] ∨ ∃ t, l = [t] ∧ kind t = k.

Inductive gen_or : nat → list ddbExprTok → ddbCond → Prop :=
| or_one n l c : gen_and n l c → gen_or n l c
| or_more n l1 t l2 c1 c2 : gen_or n l1 c1 → kind t = TokOr → gen_and n l2 c2 → gen_or n (l1 ++ t :: l2) (CondOr c1 c2)
with gen_and : nat → list ddbExprTok → ddbCond → Prop :=
| and_one n l c : gen_not n l c → gen_and n l c
| and_more n l1 t l2 c1 c2 : gen_and n l1 c1 → kind t = TokAnd → gen_not n l2 c2 → gen_and n (l1 ++ t :: l2) (CondAnd c1 c2)
with gen_not : nat → list ddbExprTok → ddbCond → Prop :=
| not_term n l c : gen_term n l c → gen_not n l c
| not_not n t l c : kind t = TokNot → gen_not n l c → gen_not n (t :: l) (CondNot c)
with gen_term : nat → list ddbExprTok → ddbCond → Prop :=
| term_paren n o l c cl : kind o = TokLParen → gen_or n l c → kind cl = TokRParen → gen_term (S n) (o :: l ++ [cl]) c
| term_exists n w o t c :
    kind w = TokWord → one_of exists_functions (ToLower (tok_text w)) = true →
    kind o = TokLParen → kind t = TokWord → kind c = TokRParen →
    gen_term n [w; o; t; c] (CondFunc (ToLower (tok_text w)) (tok_text t) None)
| term_func n w o t cm l a c :
    kind w = TokWord → one_of exists_functions (ToLower (tok_text w)) = false → one_of argument_functions (ToLower (tok_text w)) = true →
    kind o = TokLParen → kind t = TokWord → kind cm = TokComma → gen_operand l a → kind c = TokRParen →
    gen_term n (w :: o :: t :: cm :: l ++ [c]) (CondFunc (ToLower (tok_text w)) (tok_text t) (Some a))
| term_compare n l1 x op l2 y :
    gen_operand l1 x → not_function l1 → kind op = TokOp → ddbValidComparator (tok_text op) = true → gen_operand l2 y →
    gen_term n (l1 ++ op :: l2) (CondCompare x y (tok_text op))
| term_between n l1 x b l2 lo an l3 hi :
    gen_operand l1 x → not_function l1 → kind b = TokBetween → gen_operand l2 lo → optional TokAnd an → gen_operand l3 hi →
    gen_term n (l1 ++ b :: l2 ++ an ++ l3) (CondBetween x lo hi)
| term_in n l1 x i o l2 os c :
    gen_operand l1 x → not_function l1 → kind i = TokIn → kind o = TokLParen → gen_list l2 os → kind c = TokRParen →
    gen_term n (l1 ++ i :: o :: l2 ++ [c]) (CondIn x os).

(** ** What a parse records *)

Definition nonempty (ps : list string) : list string := filter (λ s, s ≠ "") ps.
Definition cond_refs (c : ddbCond) : list string := flat_map operand_refs (cond_operands c).
Definition cond_paths (c : ddbCond) : list string := nonempty (flat_map operand_paths (cond_operands c)).

Definition eof_tok : ddbExprTok := MkTok TokEOF "".

(** The parser has [r] left before the end marker, and its guard has room to
    count. *)
Record sees (p : ddbExprParser) (r : list ddbExprTok) : Prop := {
  sees_toks : ∃ pre, toks p = pre ++ r ++ [eof_tok] ∧ at_pos p = length pre;
  sees_body : Forall (λ t, kind t ≠ TokEOF) r;
  sees_max : maxDepth (guard p) = maxExprParseDepth ∧ maxNodes (guard p) = 2 ^ 62;
  sees_depth : 0 ≤ depth (guard p) ≤ maxExprParseDepth;
  sees_nodes : 0 ≤ nodes (guard p) ∧ nodes (guard p) + Z.of_nat (length r) < 2 ^ 62;
}.

Definition head_tok (r : list ddbExprTok) : ddbExprTok := match r with t :: _ => t | [] => eof_tok end.

Definition recorded (p p' : ddbExprParser) (rs ps : list string) : Prop :=
  valueRefs p' = valueRefs p ∪ list_to_set rs ∧ paths p' = paths p ++ ps.

(** The step returns; it leaves a suffix of what it saw, at least [k] tokens
    shorter, and the guard's depth as it was; and if there is no error after it,
    there was none before, and it read a [G] and recorded what is in it. *)
Definition yields_k (k : nat) {A} (G : list ddbExprTok → A → list string → list string → Prop) (m : P A) (p : ddbExprParser) (r : list ddbExprTok) : Prop :=
  ∃ a p' r', m p = Done a p' ∧ sees p' r' ∧ (k + length r' ≤ length r)%nat ∧ depth (guard p') = depth (guard p) ∧
    (err p' = None → err p = None ∧ ∃ l rs ps, r = l ++ r' ∧ G l a rs ps ∧ recorded p p' rs ps).
Abbreviation yields := (yields_k 0).

Lemma recorded_nil p : recorded p p [] [].
Proof. split; [set_solver|by rewrite app_nil_r]. Qed.

Lemma recorded_app p p1 p2 rs ps rs' ps' : recorded p p1 rs ps → recorded p1 p2 rs' ps' → recorded p p2 (rs ++ rs') (ps ++ ps').
Proof. intros [E1 E2] [E3 E4]. split; [rewrite E3, E1, list_to_set_app_L; set_solver|by rewrite E4, E2, app_assoc]. Qed.

Lemma yields_weaken k k' {A} (G G' : list ddbExprTok → A → list string → list string → Prop) m p r :
  yields_k k G m p r → (k' ≤ k)%nat → (∀ l a rs ps, G l a rs ps → G' l a rs ps) → yields_k k' G' m p r.
Proof.
  intros (a & p' & r' & E & S & L & D & K) Hk HG. exists a, p', r'. split_and!; try done; [lia|]. intros Hn.
  destruct (K Hn) as (? & l & rs & ps & ? & ? & ?). split; [done|]. exists l, rs, ps. auto.
Qed.

Lemma yields_conseq k {A} (G G' : list ddbExprTok → A → list string → list string → Prop) m p r :
  yields_k k G m p r → (∀ l a rs ps, G l a rs ps → G' l a rs ps) → yields G' m p r.
Proof. intros Y HG. eapply yields_weaken; [exact Y|lia|done]. Qed.

Lemma yields_ret {A} (a : A) p r : sees p r → yields (λ l b rs ps, l = [] ∧ b = a ∧ rs = [] ∧ ps = []) (mret a) p r.
Proof. intros S. exists a, p, r. split_and!; try done. intros ?. split; [done|]. exists [], [], []. split_and!; auto using recorded_nil. Qed.

Lemma yields_bind k {A B} G1 (G2 : A → _) (m : P A) (f : A → P B) p r :
  yields_k k G1 m p r → (∀ a p1 r1, sees p1 r1 → (k + length r1 ≤ length r)%nat → depth (guard p1) = depth (guard p) → yields (G2 a) (f a) p1 r1) →
  yields_k k (λ l b rs ps, ∃ a l1 l2 rs1 rs2 ps1 ps2, l = l1 ++ l2 ∧ rs = rs1 ++ rs2 ∧ ps = ps1 ++ ps2 ∧ G1 l1 a rs1 ps1 ∧ G2 a l2 b rs2 ps2) (m ≫= f) p r.
Proof.
  intros (a & p1 & r1 & E & S & L & D & K) Hf. destruct (Hf a p1 r1 S L D) as (b & p2 & r2 & E2 & S2 & L2 & D2 & K2).
  exists b, p2, r2. split_and!; [|done|lia|congruence|].
  - unfold mbind, P_bind. rewrite E. done.
  - intros Hn. destruct (K2 Hn) as (Hn1 & l2 & rs2 & ps2 & -> & HG2 & R2). destruct (K Hn1) as (Hn0 & l1 & rs1 & ps1 & -> & HG1 & R1).
    split; [done|]. exists (l1 ++ l2), (rs1 ++ rs2), (ps1 ++ ps2). split; [by rewrite app_assoc|]. split; [|by eapply recorded_app].
    exists a, l1, l2, rs1, rs2, ps1, ps2. done.
Qed.

Lemma peek_sees p r : sees p r → peek p = Done (head_tok r) p.
Proof.
  intros [(pre & E & E') _ _ _ _]. unfold peek. rewrite E, E', lookup_app_r, Nat.sub_diag by lia. by destruct r.
Qed.

Lemma yields_peek n {A} G (k : ddbExprTok → P A) p r : sees p r → yields_k n G (k (head_tok r)) p r → yields_k n G (peek ≫= k) p r.
Proof. intros S (a & p' & r' & E & Y). exists a, p', r'. split; [|done]. unfold mbind, P_bind. by rewrite (peek_sees p r S). Qed.

(** The parser past one token. *)
Definition stepped (p : ddbExprParser) : ddbExprParser := MkParser (toks p) (S (at_pos p)) (guard p) (err p) (valueRefs p) (paths p).

Lemma next_sees p t r : sees p (t :: r) → next p = Done t (stepped p) ∧ sees (stepped p) r.
Proof.
  intros [(pre & E & E') B M D N]. split.
  - unfold next, stepped. by rewrite E, E', lookup_app_r, Nat.sub_diag by lia.
  - split; try done; simpl.
    + exists (pre ++ [t]). rewrite <- app_assoc. split; [done|]. rewrite length_app, E'. simpl. lia.
    + by apply Forall_cons in B as [_ ?].
    + simpl in N. lia.
Qed.

Lemma yields_next n {A} G (k : ddbExprTok → P A) p t r :
  sees p (t :: r) → yields_k n G (k t) (stepped p) r → yields_k (S n) (λ l a rs ps, ∃ l', l = t :: l' ∧ G l' a rs ps) (next ≫= k) p (t :: r).
Proof.
  intros S (a & p' & r' & E & S' & L & D & K). destruct (next_sees p t r S) as [En _]. exists a, p', r'.
  split_and!; try done; [unfold mbind, P_bind; by rewrite En|simpl; lia|]. intros Hn.
  destruct (K Hn) as (? & l & rs & ps & -> & HG & R). split; [done|]. exists (t :: l), rs, ps. split_and!; try done. eauto.
Qed.

Lemma yields_fail n {A} G e (k : P A) p r :
  sees p r → (∀ p1, sees p1 r → yields_k n (λ _ _ _ _, True) k p1 r) → yields_k n G (_ ← fail e; k) p r.
Proof.
  intros [T B M D N] Hk. set (p1 := MkParser (toks p) (at_pos p) (guard p) (match err p with None => Some e | Some e => Some e end) (valueRefs p) (paths p)).
  assert (sees p1 r) as S1 by by split. destruct (Hk p1 S1) as (a & p' & r' & E & S' & L & D' & K).
  exists a, p', r'. split_and!; try done. intros Hn. destruct (K Hn) as [He _]. subst p1. simpl in He. by destruct (err p).
Qed.

(** ** The parts of a term *)

Lemma head_kind k r : is_kind k (head_tok r) = true → k ≠ TokEOF → ∃ t r', r = t :: r' ∧ kind t = k.
Proof. unfold is_kind. rewrite bool_decide_eq_true. destruct r as [|t r]; simpl; [intros <-; done|]. intros E _. eauto. Qed.

Lemma head_kind_eq k t r : is_kind k (head_tok (t :: r)) = true ↔ kind t = k.
Proof. unfold is_kind. apply bool_decide_eq_true. Qed.

Definition sentinel {A} : list ddbExprTok → A → list string → list string → Prop := λ _ _ _ _, True.

Lemma ret_sentinel {A} (a : A) p r : sees p r → yields sentinel (mret a) p r.
Proof. intros S. eapply yields_conseq; [by apply yields_ret|done]. Qed.

(** After an error only the return matters. *)
Lemma yields_fail_ret {A} G e (a : A) p r : sees p r → yields G (_ ← fail e; mret a) p r.
Proof. intros S. apply yields_fail; [done|]. intros. by apply ret_sentinel. Qed.

Lemma fail_yields G e p r : sees p r → yields G (fail e) p r.
Proof.
  intros [T B M D N]. eexists (), _, r. split; [reflexivity|]. split_and!; [by split|done|done|]. simpl. by destruct (err p).
Qed.

Lemma expect_yields k e p r :
  k ≠ TokEOF → sees p r → yields (λ l _ rs ps, ∃ t, l = [t] ∧ kind t = k ∧ rs = [] ∧ ps = []) (expect k e) p r.
Proof.
  intros Hk S. unfold expect. apply yields_peek; [done|]. destruct (is_kind k (head_tok r)) eqn:E; [|by apply fail_yields].
  apply head_kind in E as (t & r' & -> & Ht); [|done]. destruct (next_sees p t r' S) as [_ S'].
  eapply yields_conseq; [apply yields_next; [done|by apply yields_ret]|]. intros l a rs ps (l' & -> & -> & _ & -> & ->). eauto.
Qed.

Lemma recordPath_yields path p r : sees p r → yields (λ l _ rs ps, l = [] ∧ rs = [] ∧ ps = nonempty [path]) (recordPath path) p r.
Proof.
  intros [T B M D N]. eexists (), _, r. split; [reflexivity|]. split_and!; [by split|done|done|]. simpl. intros He. split; [done|].
  exists [], [], (nonempty [path]). split_and!; try done. split; simpl; [set_solver|]. unfold nonempty. rewrite filter_cons, filter_nil.
  destruct (String.eqb_spec path ""); cbn [negb]; [rewrite decide_False by (intros X; by apply X); by rewrite app_nil_r|by rewrite decide_True].
Qed.

Lemma recordValueRef_yields ref p r : sees p r → yields (λ l _ rs ps, l = [] ∧ rs = [ref] ∧ ps = []) (recordValueRef ref) p r.
Proof.
  intros [T B M D N]. eexists (), _, r. split; [reflexivity|]. split_and!; [by split|done|done|]. simpl. intros He. split; [done|].
  exists [], [ref], []. split_and!; try done. split; simpl; [set_solver|by rewrite app_nil_r].
Qed.

Lemma paren_path_word_yields p r :
  sees p r → yields (λ l a rs ps, ∃ t, l = [t] ∧ kind t = TokWord ∧ a = tok_text t ∧ rs = [] ∧ ps = nonempty [tok_text t]) paren_path_word p r.
Proof.
  intros S. unfold paren_path_word. apply yields_peek; [done|]. destruct (is_kind TokWord _) eqn:E; [|by apply yields_fail_ret].
  apply head_kind in E as (t & r' & -> & Ht); [|done]. destruct (next_sees p t r' S) as [_ S'].
  eapply yields_conseq; [apply yields_next; [done|]; eapply yields_bind; [by apply recordPath_yields|intros; by apply yields_ret]|].
  intros l a rs ps (l' & -> & [] & l1 & l2 & rs1 & rs2 & ps1 & ps2 & -> & -> & -> & (-> & -> & ->) & (-> & -> & -> & ->)).
  exists t. rewrite !app_nil_r. done.
Qed.

Lemma parseParenPath_yields p r :
  sees p r →
  yields (λ l a rs ps, ∃ o t c, l = [o; t; c] ∧ kind o = TokLParen ∧ kind t = TokWord ∧ kind c = TokRParen ∧ a = tok_text t ∧
    rs = [] ∧ ps = nonempty [tok_text t]) parseParenPath p r.
Proof.
  intros S. unfold parseParenPath. eapply yields_conseq.
  - eapply yields_bind; [by apply expect_yields|]. intros. eapply yields_bind; [by apply paren_path_word_yields|]. intros.
    eapply yields_bind; [by apply expect_yields|]. intros. by apply yields_ret.
  - intros l a rs ps Hl. unpack. cbn [app].
    rewrite ?app_nil_r. do 3 eexists. split_and!; done.
Qed.

Definition reads_operand (l : list ddbExprTok) (a : ddbOperand) (rs ps : list string) : Prop :=
  gen_operand l a ∧ rs = operand_refs a ∧ ps = nonempty (operand_paths a).

(** An operand takes at least one token, well formed or not. *)
Lemma parseOperand_yields_1 p t r : sees p (t :: r) → yields_k 1 reads_operand parseOperand p (t :: r).
Proof.
  intros S. unfold parseOperand. apply yields_peek; [done|]. cbn [head_tok]. destruct (next_sees p t r S) as [_ S'].
  destruct (is_kind TokWord t) eqn:E; cbn [andb negb].
  - apply bool_decide_eq_true in E. destruct (String.eqb_spec (ToLower (tok_text t)) "size") as [Es|Es].
    + eapply yields_weaken; [apply yields_next; [done|]; eapply yields_bind; [by apply parseParenPath_yields|intros; by apply yields_ret]|lia|].
      intros l a rs ps Hl. unpack. cbn [app]. rewrite ?app_nil_r. split_and!; [by constructor|done|done].
    + destruct (HasPrefix (tok_text t) ":") eqn:Ep.
      * eapply yields_weaken; [apply yields_next; [done|]; cbn zeta; rewrite Ep; eapply yields_bind; [by apply recordValueRef_yields|intros; by apply yields_ret]|lia|].
        intros l a rs ps Hl. unpack. cbn [app]. split_and!; [by constructor|done|done].
      * eapply yields_weaken; [apply yields_next; [done|]; cbn zeta; rewrite Ep; eapply yields_bind; [by apply recordPath_yields|intros; by apply yields_ret]|lia|].
        intros l a rs ps Hl. unpack. cbn [app]. rewrite ?app_nil_r. split_and!; [by constructor|done|done].
  - destruct (is_kind TokEOF t) eqn:E2.
    { apply bool_decide_eq_true in E2. by destruct S as [_ [? _]%Forall_cons _ _ _]. }
    eapply (yields_weaken 1); [|lia|].
    + eapply (yields_bind 1 (λ _ _ _ _, False)); [|intros; by apply ret_sentinel].
      apply yields_fail; [done|]. intros p1 S1. destruct (next_sees p1 t r S1) as [_ S1'].
      eapply yields_weaken; [apply yields_next; [done|by apply ret_sentinel]|lia|done].
    + intros l a rs ps Hl. by unpack.
Qed.

Lemma parseOperand_yields p r : sees p r → yields reads_operand parseOperand p r.
Proof.
  intros S. destruct r as [|t r]; [|eapply yields_conseq; [by apply parseOperand_yields_1|done]].
  unfold parseOperand. apply yields_peek; [done|]. cbn. by apply yields_fail_ret.
Qed.

Lemma nonempty_app a b : nonempty (a ++ b) = nonempty a ++ nonempty b.
Proof. apply filter_app. Qed.

Lemma parseParenPathArg_yields p r :
  sees p r →
  yields (λ l pa rs ps, ∃ o t cm la c, l = o :: t :: cm :: la ++ [c] ∧ kind o = TokLParen ∧ kind t = TokWord ∧ kind cm = TokComma ∧
    gen_operand la pa.2 ∧ kind c = TokRParen ∧ pa.1 = tok_text t ∧
    rs = operand_refs pa.2 ∧ ps = nonempty (tok_text t :: operand_paths pa.2)) parseParenPathArg p r.
Proof.
  intros S. unfold parseParenPathArg. eapply yields_conseq.
  - eapply yields_bind; [by apply expect_yields|]. intros. eapply yields_bind; [by apply paren_path_word_yields|]. intros.
    eapply yields_bind; [by apply expect_yields|]. intros. eapply yields_bind; [by apply parseOperand_yields|]. intros.
    eapply yields_bind; [by apply expect_yields|]. intros. by apply yields_ret.
  - intros l a rs ps Hl. unfold reads_operand in Hl. unpack. cbn [app fst snd]. rewrite ?app_nil_r. do 5 eexists. split_and!; try done.
    by rewrite <- nonempty_app.
Qed.

Definition reads_list (ops : list ddbOperand) (l : list ddbExprTok) (a : list ddbOperand) (rs ps : list string) : Prop :=
  ∃ os, a = ops ++ os ∧ gen_list l os ∧ rs = flat_map operand_refs os ∧ ps = nonempty (flat_map operand_paths os).

Definition optional_reads (k : ddbTokKind) (l : list ddbExprTok) (_ : unit) (rs ps : list string) : Prop := optional k l ∧ rs = [] ∧ ps = [].

Lemma optional_yields k p r :
  k ≠ TokEOF → sees p r → yields (optional_reads k) (if is_kind k (head_tok r) then _ ← next; mret () else mret ()) p r.
Proof.
  intros Hk S. destruct (is_kind k (head_tok r)) eqn:E.
  - apply head_kind in E as (t & r' & -> & Ht); [|done]. destruct (next_sees p t r' S) as [_ S'].
    eapply yields_conseq; [apply yields_next; [done|by apply yields_ret]|]. intros l a rs ps Hl. unpack. split_and!; try done. right. eauto.
  - eapply yields_conseq; [by apply yields_ret|]. intros l a rs ps Hl. unpack. split_and!; try done. by left.
Qed.

Lemma in_loop_yields fuel ops p r : (length r < fuel)%nat → sees p r → yields (reads_list ops) (in_loop fuel ops) p r.
Proof.
  revert ops p r. induction fuel as [|fuel IH]; intros ops p r Hf S; [lia|]. cbn [in_loop]. apply yields_peek; [done|].
  destruct (is_kind TokRParen (head_tok r) || is_kind TokEOF (head_tok r)) eqn:E.
  { eapply yields_conseq; [by apply yields_ret|]. intros l a rs ps Hl. unpack. exists []. rewrite app_nil_r. split_and!; try done. constructor. }
  destruct r as [|t r]; [done|]. eapply yields_conseq.
  - eapply yields_bind; [by apply parseOperand_yields_1|]. intros o p1 r1 S1 L1 _. apply yields_peek; [done|].
    eapply yields_bind; [by apply optional_yields|]. intros u p2 r2 S2 L2 _. apply (IH (ops ++ [o])); [simpl in *; lia|done].
  - intros l a rs ps (o & l1 & l2 & rs1 & rs2 & ps1 & ps2 & -> & -> & -> & (Ho & -> & ->) & u & l3 & l4 & rs3 & rs4 & ps3 & ps4 &
      -> & -> & -> & (Hopt & -> & ->) & (os & -> & Hos & -> & ->)).
    exists (o :: os). rewrite <- app_assoc. split_and!; [done| |done|cbn [app flat_map]; by rewrite nonempty_app].
    destruct Hopt as [->|(c & -> & Hc)]; cbn [app]; by constructor.
Qed.

Definition reads_cond (G : list ddbExprTok → ddbCond → Prop) (l : list ddbExprTok) (c : ddbCond) (rs ps : list string) : Prop :=
  G l c ∧ rs = cond_refs c ∧ ps = cond_paths c.

Lemma yields_prefix k {A} (G : list ddbExprTok → A → list string → list string → Prop) m p r :
  yields_k k G m p r → yields_k k (λ l a rs ps, G l a rs ps ∧ ∃ r', r = l ++ r') m p r.
Proof.
  intros (a & p' & r' & E & S & L & D & K). exists a, p', r'. split_and!; try done. intros Hn.
  destruct (K Hn) as (? & l & rs & ps & -> & ? & ?). split; [done|]. exists l, rs, ps. split_and!; eauto.
Qed.

(** What may follow a term's first operand. *)
Definition continues_term (n : nat) (left : ddbOperand) (l : list ddbExprTok) (c : ddbCond) (rs ps : list string) : Prop :=
  ∃ os, cond_operands c = left :: os ∧ rs = flat_map operand_refs os ∧ ps = nonempty (flat_map operand_paths os) ∧
    ∀ l1, gen_operand l1 left → not_function l1 → gen_term n (l1 ++ l) c.

Lemma comparator_yields n left p t r :
  kind t = TokOp → sees p (t :: r) →
  yields (continues_term n left)
    (op ← next; _ ← (if negb (ddbValidComparator (tok_text op)) then fail (ErrComparator (tok_text op)) else mret ());
     r ← parseOperand; mret (CondCompare left r (tok_text op))) p (t :: r).
Proof.
  intros Ht S. destruct (next_sees p t r S) as [_ S']. eapply yields_conseq.
  - apply yields_next; [done|]. eapply (yields_bind 0 (λ l _ rs ps, l = [] ∧ rs = [] ∧ ps = [] ∧ ddbValidComparator (tok_text t) = true)).
    + destruct (ddbValidComparator (tok_text t)); cbn [negb]; [|by apply fail_yields].
      eapply yields_conseq; [by apply yields_ret|]. intros l a rs ps Hl. by unpack.
    + intros u p1 r1 S1 _ _. eapply yields_bind; [by apply parseOperand_yields|]. intros. by apply yields_ret.
  - intros l a rs ps Hl. unfold reads_operand in Hl. unpack. eexists [_]. cbn [app flat_map]. rewrite ?app_nil_r. split_and!; try done. intros. by constructor.
Qed.

Lemma between_yields n left p t r :
  kind t = TokBetween → sees p (t :: r) →
  yields (continues_term n left)
    (_ ← next; lo ← parseOperand; t ← peek; _ ← (if is_kind TokAnd t then _ ← next; mret () else mret ());
     hi ← parseOperand; mret (CondBetween left lo hi)) p (t :: r).
Proof.
  intros Ht S. destruct (next_sees p t r S) as [_ S']. eapply yields_conseq.
  - apply yields_next; [done|]. eapply yields_bind; [by apply parseOperand_yields|]. intros. apply yields_peek; [done|].
    eapply yields_bind; [by apply optional_yields|]. intros. eapply yields_bind; [by apply parseOperand_yields|]. intros. by apply yields_ret.
  - intros l a rs ps Hl. unfold reads_operand, optional_reads in Hl. unpack. eexists [_; _]. cbn [app flat_map].
    rewrite ?app_nil_r, ?nonempty_app. split_and!; try done. intros. by apply term_between.
Qed.

Lemma in_yields fuel n left p t r :
  kind t = TokIn → sees p (t :: r) → (length r ≤ fuel)%nat →
  yields (continues_term n left)
    (_ ← next; t ← peek;
     ops ← (if is_kind TokLParen t then _ ← next; ops ← in_loop fuel []; _ ← expect TokRParen ErrCloseIn; mret ops
            else _ ← fail ErrOpenIn; mret []);
     mret (CondIn left ops)) p (t :: r).
Proof.
  intros Ht S Hf. destruct (next_sees p t r S) as [_ S']. eapply yields_conseq.
  - apply yields_next; [done|]. apply yields_peek; [done|].
    eapply (yields_bind 0 (λ l os rs ps, ∃ o l2 c, l = o :: l2 ++ [c] ∧ kind o = TokLParen ∧ gen_list l2 os ∧ kind c = TokRParen ∧
        rs = flat_map operand_refs os ∧ ps = nonempty (flat_map operand_paths os))); [|intros; by apply yields_ret].
    destruct (is_kind TokLParen (head_tok r)) eqn:E; [|by apply yields_fail_ret].
    apply head_kind in E as (o & r' & -> & Ho); [|done]. destruct (next_sees _ o r' S') as [_ S2].
    eapply yields_conseq; [apply yields_next; [done|]; eapply yields_bind; [apply in_loop_yields; [simpl in Hf; lia|done]|]; intros;
      eapply yields_bind; [by apply expect_yields|]; intros; by apply yields_ret|].
    intros l a rs ps Hl. unfold reads_list in Hl. unpack. cbn [app]. rewrite ?app_nil_r. do 3 eexists. split_and!; done.
  - intros l a rs ps Hl. unpack. eexists. rewrite ?app_nil_r. split_and!; try done. intros. by apply term_in.
Qed.

Lemma parse_comparison_yields fuel n p r :
  (length r ≤ fuel)%nat → not_function r → sees p r → yields (reads_cond (gen_term n)) (parse_comparison fuel) p r.
Proof.
  intros Hf Hn S. unfold parse_comparison. eapply yields_conseq.
  - eapply yields_bind; [apply yields_prefix; by apply parseOperand_yields|]. intros left p1 r1 S1 L1 _. apply yields_peek; [done|].
    destruct (is_kind TokOp (head_tok r1)) eqn:E1.
    { apply head_kind in E1 as (t & r' & -> & Ht); [|done]. by apply (comparator_yields n). }
    destruct (is_kind TokBetween (head_tok r1)) eqn:E2.
    { apply head_kind in E2 as (t & r' & -> & Ht); [|done]. by apply (between_yields n). }
    destruct (is_kind TokIn (head_tok r1)) eqn:E3; [|by apply yields_fail_ret].
    apply head_kind in E3 as (t & r' & -> & Ht); [|done]. apply (in_yields fuel n); try done. simpl in *. lia.
  - intros l c rs ps Hl. unfold reads_operand, continues_term in Hl. unpack. rename select (cond_operands _ = _) into Ec.
    unfold reads_cond, cond_refs, cond_paths. rewrite Ec. cbn [flat_map]. rewrite nonempty_app. split_and!; try done.
    rename select (∀ l1, _) into Hc. apply Hc; [done|]. rename select (gen_operand _ _) into Ho. destruct Ho; done.
Qed.

(** ** Parentheses and the guard *)

Definition with_guard (g : ParseGuard) (p : ddbExprParser) : ddbExprParser := MkParser (toks p) (at_pos p) g (err p) (valueRefs p) (paths p).

(** The nesting the guard still allows. *)
Definition nest (p : ddbExprParser) : nat := Z.to_nat (maxExprParseDepth - depth (guard p)).

Lemma enter_sees p t r :
  sees p (t :: r) → ∃ g, enter (stepped p) = Done (depth (guard p) <? maxExprParseDepth) (with_guard g (stepped p)) ∧
    depth g = depth (guard p) + 1 ∧ sees (with_guard (Leave g) (stepped p)) r ∧ depth (Leave g) = depth (guard p) ∧
    (depth (guard p) < maxExprParseDepth → sees (with_guard g (stepped p)) r).
Proof.
  intros S. destruct (next_sees p t r S) as [_ [T B M D _]]. destruct S as [_ _ [M1 M2] D' [N1 N2]]. simpl in N2, T, B.
  unfold maxExprParseDepth in *. eexists. split; [|split; [|split; [|split]]].
  - unfold enter, Enter. cbn [guard stepped depth nodes maxDepth maxNodes]. rewrite M1, M2, !i64_id by (unfold in_i64; lia).
    f_equal. rewrite (proj2 (Z.leb_le (nodes (guard p) + 1) _)), andb_true_r by lia.
    destruct (Z.leb_spec (depth (guard p) + 1) 1000), (Z.ltb_spec (depth (guard p)) 1000); (done || lia).
  - done.
  - split; cbn [with_guard toks at_pos guard]; try done; unfold Leave; cbn [depth];
      rewrite (proj2 (Z.ltb_lt 0 _)) by lia; cbn [depth nodes maxDepth maxNodes]; unfold maxExprParseDepth; split_and?; (done || lia).
  - unfold Leave. cbn [depth]. rewrite (proj2 (Z.ltb_lt 0 _)) by lia. cbn [depth]. lia.
  - intros Hd. split; cbn [with_guard toks at_pos guard depth nodes maxDepth maxNodes]; unfold maxExprParseDepth; split_and?; (done || lia).
Qed.

Lemma leave_sees p r :
  sees p r → 0 < depth (guard p) →
  leave p = Done () (with_guard (Leave (guard p)) p) ∧ sees (with_guard (Leave (guard p)) p) r ∧ depth (Leave (guard p)) = depth (guard p) - 1.
Proof.
  intros [T B M D N] Hd. split; [done|]. unfold Leave. rewrite (proj2 (Z.ltb_lt 0 _)) by lia. split; [|done].
  split; cbn [with_guard toks at_pos guard depth nodes maxDepth maxNodes]; try done; lia.
Qed.

Lemma paren_yields fuel p t r :
  kind t = TokLParen → sees p (t :: r) →
  (∀ p1, sees p1 r → yields (reads_cond (gen_or (nest p1))) (parseOr fuel) p1 r) →
  yields (reads_cond (gen_term (nest p)))
    (_ ← next; ok ← enter;
     if negb ok then _ ← leave; _ ← fail ErrTooDeep; mret CondFalse
     else inner ← parseOr fuel; _ ← leave; _ ← expect TokRParen ErrExpectedClose; mret inner) p (t :: r).
Proof.
  intros Ht Sp IH. pose proof (sees_depth _ _ Sp) as Hd. destruct (enter_sees p t r Sp) as (g & Ee & Hg & Sl & Hl & Sg). destruct (next_sees p t r Sp) as [En _].
  unfold yields_k, mbind, P_bind. rewrite En, Ee. destruct (Z.ltb_spec (depth (guard p)) maxExprParseDepth) as [Hlt|Hge]; cbn [negb].
  - specialize (Sg Hlt). destruct (IH _ Sg) as (c & p2 & r2 & E2 & S2 & L2 & D2 & K2). rewrite E2. cbn [with_guard guard] in D2.
    destruct (leave_sees p2 r2 S2) as (El & S3 & D3); [lia|]. rewrite El.
    destruct (expect_yields TokRParen ErrExpectedClose _ r2 ltac:(done) S3) as ([] & p4 & r4 & E4 & S4 & L4 & D4 & K4). rewrite E4.
    exists c, p4, r4. split; [done|]. split; [done|]. split; [simpl in *; lia|]. split; [cbn [with_guard guard] in D4; lia|].
    intros Hn. destruct (K4 Hn) as (Hn3 & l4 & rs4 & ps4 & -> & (cl & -> & Hcl & -> & ->) & R4).
    destruct (K2 Hn3) as (Hn0 & l2 & rs2 & ps2 & -> & (HG & -> & ->) & R2). split; [done|].
    exists (t :: l2 ++ [cl]), (cond_refs c), (cond_paths c). split; [cbn [app]; by rewrite <- app_assoc|]. split.
    + split; [|done]. replace (nest p) with (S (nest (with_guard g (stepped p)))); [by constructor|].
      unfold nest. cbn [with_guard guard]. rewrite Hg. lia.
    + destruct R2 as [Q1 Q2], R4 as [Q3 Q4]. split; [rewrite Q3; simpl; rewrite Q1; set_solver|rewrite Q4, app_nil_r; simpl; by rewrite Q2].
  - unfold leave. cbn [guard with_guard]. unfold fail, mret, P_ret. eexists CondFalse, _, r. split; [reflexivity|].
    destruct Sl as [T B M D N]. split; [by split|]. split; [simpl; lia|]. split; [done|]. simpl. by destruct (err p).
Qed.

(** ** The parser returns, and what it accepts is in the grammar *)

(** A loop extends the condition on its left. *)
Definition extends_cond (G : list ddbExprTok → ddbCond → Prop) (left : ddbCond) (l : list ddbExprTok) (c : ddbCond) (rs ps : list string) : Prop :=
  (∀ l1, G l1 left → G (l1 ++ l) c) ∧ cond_refs c = cond_refs left ++ rs ∧ cond_paths c = cond_paths left ++ ps.

Lemma cond_refs_or l r : cond_refs (CondOr l r) = cond_refs l ++ cond_refs r ∧ cond_paths (CondOr l r) = cond_paths l ++ cond_paths r.
Proof. unfold cond_refs, cond_paths. cbn [cond_operands]. by rewrite !flat_map_app, nonempty_app. Qed.

Lemma cond_refs_and l r : cond_refs (CondAnd l r) = cond_refs l ++ cond_refs r ∧ cond_paths (CondAnd l r) = cond_paths l ++ cond_paths r.
Proof. unfold cond_refs, cond_paths. cbn [cond_operands]. by rewrite !flat_map_app, nonempty_app. Qed.

Lemma nest_eq p p' : depth (guard p') = depth (guard p) → nest p' = nest p.
Proof. unfold nest. by intros ->. Qed.

Record fuel_ok (fuel : nat) : Prop := {
  or_ok p r : (6 * length r + 4 ≤ fuel)%nat → sees p r → yields (reads_cond (gen_or (nest p))) (parseOr fuel) p r;
  or_loop_ok left p r : (6 * length r + 1 ≤ fuel)%nat → sees p r → yields (extends_cond (gen_or (nest p)) left) (or_loop fuel left) p r;
  and_ok p r : (6 * length r + 3 ≤ fuel)%nat → sees p r → yields (reads_cond (gen_and (nest p))) (parseAnd fuel) p r;
  and_loop_ok left p r : (6 * length r + 1 ≤ fuel)%nat → sees p r → yields (extends_cond (gen_and (nest p)) left) (and_loop fuel left) p r;
  not_ok p r : (6 * length r + 2 ≤ fuel)%nat → sees p r → yields (reads_cond (gen_not (nest p))) (parseNot fuel) p r;
  term_ok p r : (6 * length r + 1 ≤ fuel)%nat → sees p r → yields (reads_cond (gen_term (nest p))) (parseTerm fuel) p r;
}.

(** A production, then its loop. *)
Lemma chain_yields G G' left_p (loop : ddbCond → P ddbCond) p r :
  yields (reads_cond G) left_p p r → (∀ l c, G l c → G' l c) →
  (∀ c p1 r1, sees p1 r1 → (length r1 ≤ length r)%nat → depth (guard p1) = depth (guard p) → yields (extends_cond G' c) (loop c) p1 r1) →
  yields (reads_cond G') (left ← left_p; loop left) p r.
Proof.
  intros Y HG Hl. eapply yields_conseq; [eapply yields_bind; [exact Y|]; intros; by apply Hl|].
  intros l c rs ps (c1 & l1 & l2 & rs1 & rs2 & ps1 & ps2 & -> & -> & -> & (G1 & -> & ->) & (E & R & Q)). split; [auto|]. done.
Qed.

(** One round of a loop, or its end. *)
Lemma loop_yields k G G' (mk : ddbCond → ddbCond → ddbCond) item (loop : ddbCond → P ddbCond) left p r :
  k ≠ TokEOF → sees p r →
  (∀ l r, cond_refs (mk l r) = cond_refs l ++ cond_refs r ∧ cond_paths (mk l r) = cond_paths l ++ cond_paths r) →
  (∀ l1 t l2 c1 c2, G l1 c1 → kind t = k → G' l2 c2 → G (l1 ++ t :: l2) (mk c1 c2)) →
  (∀ t r', r = t :: r' → yields (reads_cond G') item (stepped p) r' ∧
     ∀ c p1 r1, sees p1 r1 → (length r1 ≤ length r')%nat → depth (guard p1) = depth (guard p) → yields (extends_cond G c) (loop c) p1 r1) →
  yields (extends_cond G left) (t ← peek; if is_kind k t then _ ← next; x ← item; loop (mk left x) else mret left) p r.
Proof.
  intros Hk S Hmk HG Hr. apply yields_peek; [done|]. destruct (is_kind k (head_tok r)) eqn:E.
  - apply head_kind in E as (t & r' & -> & Ht); [|done]. destruct (Hr t r' eq_refl) as [Y Hl].
    eapply yields_conseq; [apply yields_next; [done|]; eapply yields_bind; [exact Y|]; intros; by apply Hl|].
    intros l c rs ps (l' & -> & x & l1 & l2 & rs1 & rs2 & ps1 & ps2 & -> & -> & -> & (H1 & -> & ->) & (E & R & Q)).
    destruct (Hmk left x) as [Er Eq]. rewrite Er in R. rewrite Eq in Q. rewrite <- app_assoc in R, Q. split_and!; try done.
    intros l0 G0. specialize (E (l0 ++ t :: l1) (HG _ _ _ _ _ G0 Ht H1)). by rewrite <- app_assoc in E.
  - eapply yields_conseq; [by apply yields_ret|]. intros l c rs ps (-> & -> & -> & ->). split_and!; intros; by rewrite ?app_nil_r.
Qed.

Lemma parser_total fuel : fuel_ok fuel.
Proof.
  induction fuel as [|fuel IH]; [split; intros; lia|]. destruct IH as [Ior Iorl Iand Iandl Inot Iterm]. split.
  - intros p r Hf S. cbn [parseOr]. eapply chain_yields; [apply Iand; [lia|done]|by constructor|].
    intros c p1 r1 S1 L1 D1. rewrite <- (nest_eq p p1 D1). apply Iorl; [lia|done].
  - intros left p r Hf S. cbn [or_loop]. eapply (loop_yields TokOr _ (gen_and (nest p)) CondOr); [done|done|apply cond_refs_or|by constructor|].
    intros t r' ->. destruct (next_sees p t r' S) as [_ S']. simpl in Hf. split; [apply (Iand (stepped p)); [lia|done]|].
    intros c p1 r1 S1 L1 D1. rewrite <- (nest_eq p p1 D1). apply Iorl; [lia|done].
  - intros p r Hf S. cbn [parseAnd]. eapply chain_yields; [apply Inot; [lia|done]|by constructor|].
    intros c p1 r1 S1 L1 D1. rewrite <- (nest_eq p p1 D1). apply Iandl; [lia|done].
  - intros left p r Hf S. cbn [and_loop]. eapply (loop_yields TokAnd _ (gen_not (nest p)) CondAnd); [done|done|apply cond_refs_and|by constructor|].
    intros t r' ->. destruct (next_sees p t r' S) as [_ S']. simpl in Hf. split; [apply (Inot (stepped p)); [lia|done]|].
    intros c p1 r1 S1 L1 D1. rewrite <- (nest_eq p p1 D1). apply Iandl; [lia|done].
  - intros p r Hf S. cbn [parseNot]. apply yields_peek; [done|]. destruct (is_kind TokNot (head_tok r)) eqn:E.
    + apply head_kind in E as (t & r' & -> & Ht); [|done]. destruct (next_sees p t r' S) as [_ S']. simpl in Hf.
      eapply yields_conseq; [apply yields_next; [done|]; eapply yields_bind; [apply (Inot (stepped p)); [lia|done]|intros; by apply yields_ret]|].
      intros l c rs ps Hl. unfold reads_cond in Hl. unpack. rewrite ?app_nil_r. split_and!; [by constructor|done|done].
    + eapply yields_conseq; [apply Iterm; [lia|done]|]. intros l c rs ps (HG & -> & ->). split_and!; [by constructor|done|done].
  - intros p r Hf S. cbn [parseTerm]. apply yields_peek; [done|]. destruct (is_kind TokLParen (head_tok r)) eqn:E1.
    { apply head_kind in E1 as (t & r' & -> & Ht); [|done]. apply paren_yields; [done|done|]. intros p1 S1. simpl in Hf. apply Ior; [lia|done]. }
    destruct (is_kind TokWord (head_tok r)) eqn:E2; cbn [andb].
    + apply head_kind in E2 as (t & r' & -> & Ht); [|done]. cbn [head_tok]. destruct (next_sees p t r' S) as [_ S'].
      destruct (one_of exists_functions (ToLower (tok_text t))) eqn:E3; [|destruct (one_of argument_functions (ToLower (tok_text t))) eqn:E4].
      * eapply yields_conseq; [apply yields_next; [done|]; eapply yields_bind; [by apply parseParenPath_yields|intros; by apply yields_ret]|].
        intros l c rs ps Hl. unpack. rewrite ?app_nil_r. split_and!; [by constructor|done|done].
      * eapply yields_conseq; [apply yields_next; [done|]; eapply yields_bind; [by apply parseParenPathArg_yields|intros; by apply yields_ret]|].
        intros l c rs ps (l' & -> & [path arg] & Hl). unpack. cbn [fst snd] in *. subst. rewrite ?app_nil_r.
        split_and!; [by constructor|unfold cond_refs; simpl; by rewrite app_nil_r|unfold cond_paths; simpl; by rewrite app_nil_r].
      * apply parse_comparison_yields; [simpl in *; lia|done|done].
    + apply parse_comparison_yields; [lia| |done]. destruct r as [|t r]; [done|]. intros Ht. by rewrite (proj2 (head_kind_eq TokWord t r) Ht) in E2.
Qed.

(** ** Everything in the grammar is accepted *)

(** The step returns [a], leaves [r], and reports nothing. *)
Definition accepts {A} (m : P A) (a : A) (p : ddbExprParser) (r : list ddbExprTok) : Prop :=
  ∃ p', m p = Done a p' ∧ sees p' r ∧ err p' = err p ∧ depth (guard p') = depth (guard p).

Lemma accepts_bind {A B} (m : P A) (f : A → P B) a b p r1 r :
  accepts m a p r1 → (∀ p1, sees p1 r1 → depth (guard p1) = depth (guard p) → accepts (f a) b p1 r) → accepts (m ≫= f) b p r.
Proof.
  intros (p1 & E1 & S1 & X1 & D1) Hf. destruct (Hf p1 S1 D1) as (p2 & E2 & S2 & X2 & D2). exists p2.
  split_and!; [|done|congruence|congruence]. unfold mbind, P_bind. by rewrite E1.
Qed.

Lemma accepts_ret {A} (a : A) p r : sees p r → accepts (mret a) a p r.
Proof. intros S. by exists p. Qed.

Lemma accepts_peek {A} (k : ddbExprTok → P A) a p r0 r : sees p r0 → accepts (k (head_tok r0)) a p r → accepts (peek ≫= k) a p r.
Proof. intros S (p' & E & Y). exists p'. split; [|done]. unfold mbind, P_bind. by rewrite (peek_sees p r0 S). Qed.

Lemma accepts_next p t r : sees p (t :: r) → accepts next t p r.
Proof. intros S. destruct (next_sees p t r S) as [E S']. by exists (stepped p). Qed.

Lemma is_kind_true k t : kind t = k → is_kind k t = true.
Proof. intros. by apply bool_decide_eq_true. Qed.
Lemma is_kind_false k t : kind t ≠ k → is_kind k t = false.
Proof. intros. by apply bool_decide_eq_false. Qed.

Lemma accepts_expect k e p t r : sees p (t :: r) → kind t = k → accepts (expect k e) () p r.
Proof.
  intros S Ht. unfold expect. eapply accepts_peek; [done|]. cbn [head_tok]. rewrite is_kind_true by done.
  eapply accepts_bind; [by eapply accepts_next|]. intros. by eapply accepts_ret.
Qed.

Lemma accepts_recordPath path p r : sees p r → accepts (recordPath path) () p r.
Proof. intros [T B M D N]. eexists. split; [reflexivity|]. split_and!; [by split|done|done]. Qed.

Lemma accepts_recordValueRef ref p r : sees p r → accepts (recordValueRef ref) () p r.
Proof. intros [T B M D N]. eexists. split; [reflexivity|]. split_and!; [by split|done|done]. Qed.

Lemma accepts_path_word p t r : sees p (t :: r) → kind t = TokWord → accepts paren_path_word (tok_text t) p r.
Proof.
  intros S Ht. unfold paren_path_word. eapply accepts_peek; [done|]. cbn [head_tok]. rewrite is_kind_true by done.
  eapply accepts_bind; [by eapply accepts_next|]. intros. eapply accepts_bind; [by eapply accepts_recordPath|]. intros. by eapply accepts_ret.
Qed.

Lemma accepts_paren_path p o t c r :
  sees p (o :: t :: c :: r) → kind o = TokLParen → kind t = TokWord → kind c = TokRParen → accepts parseParenPath (tok_text t) p r.
Proof.
  intros S Ho Ht Hc. unfold parseParenPath. eapply accepts_bind; [by eapply accepts_expect|]. intros.
  eapply accepts_bind; [by eapply accepts_path_word|]. intros. eapply accepts_bind; [by eapply accepts_expect|]. intros. by eapply accepts_ret.
Qed.

Lemma accepts_operand l o p r : gen_operand l o → sees p (l ++ r) → accepts parseOperand o p r.
Proof.
  intros Hg S. unfold parseOperand. destruct Hg as [w op t c Hw Hs Ho Ht Hc|w Hw Hs Hp|w Hw Hs Hp]; (eapply accepts_peek; [done|]); cbn [head_tok app] in *;
    rewrite is_kind_true by done; cbn [andb negb].
  - rewrite (proj2 (String.eqb_eq _ _) Hs). eapply accepts_bind; [by eapply accepts_next|]. intros.
    eapply accepts_bind; [by eapply accepts_paren_path|]. intros. by eapply accepts_ret.
  - rewrite (proj2 (String.eqb_neq _ _) Hs). eapply accepts_bind; [by eapply accepts_next|]. intros. cbn zeta. rewrite Hp.
    eapply accepts_bind; [by eapply accepts_recordValueRef|]. intros. by eapply accepts_ret.
  - rewrite (proj2 (String.eqb_neq _ _) Hs). eapply accepts_bind; [by eapply accepts_next|]. intros. cbn zeta. rewrite Hp.
    eapply accepts_bind; [by eapply accepts_recordPath|]. intros. by eapply accepts_ret.
Qed.

Lemma operand_head l o r : gen_operand l o → kind (head_tok (l ++ r)) = TokWord.
Proof. by destruct 1. Qed.

Lemma accepts_optional k p l r :
  sees p (l ++ r) → optional k l → (l = [] → kind (head_tok r) ≠ k) →
  accepts (if is_kind k (head_tok (l ++ r)) then _ ← next; mret () else mret ()) () p r.
Proof.
  intros S [->|(t & -> & Ht)] Hr; cbn [app head_tok] in *.
  - rewrite is_kind_false by auto. by eapply accepts_ret.
  - rewrite is_kind_true by done. eapply accepts_bind; [by eapply accepts_next|]. intros. by eapply accepts_ret.
Qed.

Lemma list_head l os c r : gen_list l os → kind c = TokRParen → kind (head_tok (l ++ c :: r)) ≠ TokComma.
Proof.
  intros Hl Hc. destruct Hl as [|l o l' os Ho _|l o cm l' os Ho _ _]; [cbn; congruence|..];
    rewrite <- app_assoc, (operand_head _ _ _ Ho); done.
Qed.

Lemma accepts_in_loop fuel l os ops p c r :
  gen_list l os → kind c = TokRParen → sees p (l ++ c :: r) → (length l < fuel)%nat → accepts (in_loop fuel ops) (ops ++ os) p (c :: r).
Proof.
  intros Hg Hc. revert fuel ops p. induction Hg as [|l o l' os Ho Hl IH|l o cm l' os Ho Hcm Hl IH]; intros [|fuel] ops p S Hf; try lia; cbn [in_loop].
  - eapply accepts_peek; [done|]. cbn [head_tok app]. rewrite is_kind_true by done. cbn [orb]. rewrite app_nil_r. by eapply accepts_ret.
  - assert (1 ≤ length l)%nat by (destruct Ho; simpl; lia). rewrite length_app in Hf. rewrite <- app_assoc in S.
    eapply accepts_peek; [done|]. rewrite !is_kind_false by (rewrite (operand_head _ _ _ Ho); done). cbn [orb].
    eapply accepts_bind; [by eapply accepts_operand|]. intros p1 S1 _. eapply accepts_peek; [done|].
    eapply accepts_bind; [apply (accepts_optional TokComma p1 []); [done|by left|]|].
    + intros _. by eapply list_head.
    + intros p2 S2 _. rewrite (cons_middle o ops os), app_assoc. apply IH; [done|lia].
  - assert (1 ≤ length l)%nat by (destruct Ho; simpl; lia). rewrite length_app in Hf. simpl in Hf. rewrite <- app_assoc in S. cbn [app] in S.
    eapply accepts_peek; [done|]. rewrite !is_kind_false by (rewrite (operand_head _ _ _ Ho); done). cbn [orb].
    eapply accepts_bind; [by eapply accepts_operand|]. intros p1 S1 _. eapply accepts_peek; [done|].
    eapply accepts_bind; [apply (accepts_optional TokComma p1 [cm]); [done|right; eauto|done]|].
    intros p2 S2 _. rewrite (cons_middle o ops os), app_assoc. apply IH; [done|lia].
Qed.

(** The three kinds of comparison. *)
Lemma accepts_compare fuel l1 x op l2 y p r :
  gen_operand l1 x → kind op = TokOp → ddbValidComparator (tok_text op) = true → gen_operand l2 y → sees p (l1 ++ op :: l2 ++ r) →
  accepts (parse_comparison fuel) (CondCompare x y (tok_text op)) p r.
Proof.
  intros H1 Hop Hv H2 S. unfold parse_comparison. eapply accepts_bind; [by apply (accepts_operand l1 x)|]. intros. eapply accepts_peek; [done|].
  cbn [head_tok]. rewrite is_kind_true by done. eapply accepts_bind; [by eapply accepts_next|]. intros. rewrite Hv. cbn [negb].
  eapply accepts_bind; [by eapply accepts_ret|]. intros. eapply accepts_bind; [by apply (accepts_operand l2 y)|]. intros. by eapply accepts_ret.
Qed.

Lemma accepts_between fuel l1 x b l2 lo an l3 hi p r :
  gen_operand l1 x → kind b = TokBetween → gen_operand l2 lo → optional TokAnd an → gen_operand l3 hi → sees p (l1 ++ b :: l2 ++ an ++ l3 ++ r) →
  accepts (parse_comparison fuel) (CondBetween x lo hi) p r.
Proof.
  intros H1 Hb H2 Ha H3 S. unfold parse_comparison. eapply accepts_bind; [by apply (accepts_operand l1 x)|]. intros. eapply accepts_peek; [done|].
  cbn [head_tok]. rewrite is_kind_false by (by rewrite Hb). rewrite is_kind_true by done.
  eapply accepts_bind; [by eapply accepts_next|]. intros. eapply accepts_bind; [by apply (accepts_operand l2 lo)|]. intros. eapply accepts_peek; [done|].
  eapply accepts_bind; [eapply accepts_optional; [done|done|]; by rewrite (operand_head _ _ _ H3)|]. intros.
  eapply accepts_bind; [by apply (accepts_operand l3 hi)|]. intros. by eapply accepts_ret.
Qed.

Lemma accepts_in fuel l1 x i o l2 os c p r :
  gen_operand l1 x → kind i = TokIn → kind o = TokLParen → gen_list l2 os → kind c = TokRParen → (length l2 < fuel)%nat →
  sees p (l1 ++ i :: o :: l2 ++ c :: r) → accepts (parse_comparison fuel) (CondIn x os) p r.
Proof.
  intros H1 Hi Ho Hl Hc Hf S. unfold parse_comparison. eapply accepts_bind; [by apply (accepts_operand l1 x)|]. intros. eapply accepts_peek; [done|].
  cbn [head_tok]. rewrite !is_kind_false by (by rewrite Hi). rewrite is_kind_true by done.
  eapply accepts_bind; [by eapply accepts_next|]. intros. eapply accepts_peek; [done|]. cbn [head_tok]. rewrite is_kind_true by done.
  eapply accepts_bind; [|intros; by eapply accepts_ret]. eapply accepts_bind; [by eapply accepts_next|]. intros.
  eapply accepts_bind; [by eapply (accepts_in_loop fuel l2 os [])|]. intros. eapply accepts_bind; [by eapply accepts_expect|]. intros. by eapply accepts_ret.
Qed.

(** [parseTerm] reaches a comparison past its tests for a function. *)
Lemma term_is_comparison fuel l1 x c p r0 r :
  gen_operand l1 x → not_function l1 → sees p (l1 ++ r0) → accepts (parse_comparison fuel) c p r → accepts (parseTerm (S fuel)) c p r.
Proof.
  intros Hg Hn S Hc. cbn [parseTerm]. eapply accepts_peek; [done|]. pose proof (operand_head _ _ r0 Hg) as Hk.
  rewrite is_kind_false by (by rewrite Hk). rewrite is_kind_true by done. cbn [andb].
  assert (one_of exists_functions (ToLower (tok_text (head_tok (l1 ++ r0)))) = false ∧
          one_of argument_functions (ToLower (tok_text (head_tok (l1 ++ r0)))) = false) as [-> ->]; [|done].
  by destruct Hg; apply Hn.
Qed.

Lemma accepts_parens fuel n c p o cl l r :
  kind o = TokLParen → kind cl = TokRParen → sees p (o :: l ++ cl :: r) → (S n ≤ nest p)%nat →
  (∀ p1, sees p1 (l ++ cl :: r) → (n ≤ nest p1)%nat → accepts (parseOr fuel) c p1 (cl :: r)) → accepts (parseTerm (S fuel)) c p r.
Proof.
  intros Ho Hcl Sp Hn IH. cbn [parseTerm]. eapply accepts_peek; [done|]. cbn [head_tok]. rewrite is_kind_true by done.
  destruct (next_sees p o _ Sp) as [En _]. destruct (enter_sees p o _ Sp) as (g & Ee & Hg & _ & _ & Sg). pose proof (sees_depth _ _ Sp).
  unfold nest in Hn. assert (depth (guard p) < maxExprParseDepth) as Hlt by lia. specialize (Sg Hlt).
  destruct (IH _ Sg) as (p2 & E2 & S2 & X2 & D2); [unfold nest; cbn [with_guard guard]; lia|]. cbn [with_guard guard] in D2.
  destruct (leave_sees p2 _ S2) as (El & S3 & D3); [lia|].
  destruct (accepts_expect TokRParen ErrExpectedClose _ cl r S3 Hcl) as (p4 & E4 & S4 & X4 & D4). cbn [with_guard guard] in D4.
  exists p4. split; [|split_and!; [done|rewrite X4; simpl; by rewrite X2|lia]].
  unfold mbind, P_bind. rewrite En, Ee, (proj2 (Z.ltb_lt _ _) Hlt). cbn [negb]. by rewrite E2, El, E4.
Qed.

(** A chain read so far, with the loop that continues it. *)
Definition reaches (start : nat → P ddbCond) (loop : nat → ddbCond → P ddbCond) (k : nat) (stop : ddbExprTok → Prop) (n : nat) (l : list ddbExprTok) (c : ddbCond) : Prop :=
  ∀ fuel p r, (6 * length (l ++ r) + k ≤ fuel)%nat → sees p (l ++ r) → (n ≤ nest p)%nat → stop (head_tok r) →
  ∃ fuel' p', (6 * length r + 1 ≤ fuel')%nat ∧ start fuel p = loop fuel' c p' ∧ sees p' r ∧ err p' = err p ∧ depth (guard p') = depth (guard p).

Definition taken (m : nat → P ddbCond) (k : nat) (n : nat) (l : list ddbExprTok) (c : ddbCond) : Prop :=
  ∀ fuel p r, (6 * length (l ++ r) + k ≤ fuel)%nat → sees p (l ++ r) → (n ≤ nest p)%nat → accepts (m fuel) c p r.

Scheme gen_or_mut := Induction for gen_or Sort Prop
with gen_and_mut := Induction for gen_and Sort Prop
with gen_not_mut := Induction for gen_not Sort Prop
with gen_term_mut := Induction for gen_term Sort Prop.
Combined Scheme gen_mutind from gen_or_mut, gen_and_mut, gen_not_mut, gen_term_mut.

Lemma and_stops fuel c p r : sees p r → (1 ≤ fuel)%nat → kind (head_tok r) ≠ TokAnd → and_loop fuel c p = Done c p.
Proof.
  intros S Hf Hk. destruct fuel as [|fuel]; [lia|]. cbn [and_loop]. unfold mbind, P_bind. rewrite (peek_sees p r S). by rewrite is_kind_false.
Qed.

Lemma or_stops fuel c p r : sees p r → (1 ≤ fuel)%nat → kind (head_tok r) ≠ TokOr → or_loop fuel c p = Done c p.
Proof.
  intros S Hf Hk. destruct fuel as [|fuel]; [lia|]. cbn [or_loop]. unfold mbind, P_bind. rewrite (peek_sees p r S). by rewrite is_kind_false.
Qed.

(** A chain begins with its first member, *)
Lemma chain_begins (start : nat → P ddbCond) loop (m : nat → P ddbCond) k stop n l c :
  (∀ fuel, start (S fuel) = (left ← m fuel; loop fuel left)) → (1 ≤ k)%nat →
  (∀ fuel p r, (6 * length (l ++ r) + k ≤ fuel)%nat → sees p (l ++ r) → (n ≤ nest p)%nat → stop (head_tok r) → accepts (m fuel) c p r) →
  reaches start loop (S k) stop n l c.
Proof.
  intros Hstart Hk Hm [|fuel] p r Hf S Hn Hs; [lia|]. destruct (Hm fuel p r ltac:(lia) S Hn Hs) as (p' & E & S' & X & D). exists fuel, p'.
  rewrite Hstart. rewrite length_app in Hf. split_and!; try done; [lia|]. unfold mbind, P_bind. by rewrite E.
Qed.

(** and goes on with a separator and a further member. *)
Lemma chain_continues sep (start : nat → P ddbCond) (loop : nat → ddbCond → P ddbCond) (m : nat → P ddbCond) mk k k' stop n l1 t l2 c1 c2 :
  (∀ fuel left, loop (S fuel) left = (t ← peek; if is_kind sep t then _ ← next; x ← m fuel; loop fuel (mk left x) else mret left)) →
  (k' ≤ 6)%nat → kind t = sep → stop t → reaches start loop k stop n l1 c1 →
  (∀ fuel p r, (6 * length (l2 ++ r) + k' ≤ fuel)%nat → sees p (l2 ++ r) → (n ≤ nest p)%nat → stop (head_tok r) → accepts (m fuel) c2 p r) →
  reaches start loop k stop n (l1 ++ t :: l2) (mk c1 c2).
Proof.
  intros Hloop Hk' Ht Hst R Hm fuel p r Hf S Hn Hs. rewrite <- app_assoc in Hf, S. cbn [app] in Hf, S.
  destruct (R fuel p (t :: l2 ++ r) Hf S Hn Hst) as (f1 & p1 & Hf1 & E1 & S1 & X1 & D1). destruct f1 as [|f1]; [lia|].
  destruct (next_sees p1 t _ S1) as [En S2]. cbn [length] in Hf1.
  destruct (Hm f1 (stepped p1) r) as (p3 & E3 & S3 & X3 & D3); [lia|done|unfold nest in *; cbn [stepped guard]; by rewrite D1|done|].
  exists f1, p3. rewrite length_app in Hf1. split_and!; [lia| |done|rewrite X3; simpl; done|rewrite D3; simpl; done].
  rewrite E1, Hloop. unfold mbind, P_bind. rewrite (peek_sees _ _ S1). cbn [head_tok]. rewrite is_kind_true by done. by rewrite En, E3.
Qed.

Lemma and_taken n l c fuel p r :
  reaches parseAnd and_loop 3 (λ _, True) n l c →
  (6 * length (l ++ r) + 3 ≤ fuel)%nat → sees p (l ++ r) → (n ≤ nest p)%nat → kind (head_tok r) ≠ TokAnd → accepts (parseAnd fuel) c p r.
Proof.
  intros R Hf S Hn Hs. destruct (R fuel p r Hf S Hn I) as (f & p' & Hf' & E & S' & X & D). exists p'. rewrite E.
  split_and!; try done. eapply and_stops; [done|lia|done].
Qed.

Lemma or_taken n l c fuel p r :
  reaches parseOr or_loop 4 (λ t, kind t ≠ TokAnd) n l c →
  (6 * length (l ++ r) + 4 ≤ fuel)%nat → sees p (l ++ r) → (n ≤ nest p)%nat → kind (head_tok r) ≠ TokAnd → kind (head_tok r) ≠ TokOr →
  accepts (parseOr fuel) c p r.
Proof.
  intros R Hf S Hn Ha Ho. destruct (R fuel p r Hf S Hn Ha) as (f & p' & Hf' & E & S' & X & D). exists p'. rewrite E.
  split_and!; try done. eapply or_stops; [done|lia|done].
Qed.

Lemma term_head n l c r : gen_term n l c → kind (head_tok (l ++ r)) ≠ TokNot.
Proof.
  destruct 1; rewrite <- ?app_assoc; cbn [app head_tok]; try congruence;
    match goal with Hg : gen_operand ?l _ |- context [head_tok (?l ++ _)] => rewrite (operand_head _ _ _ Hg); done end.
Qed.

Lemma grammar_accepted :
  (∀ n l c, gen_or n l c → reaches parseOr or_loop 4 (λ t, kind t ≠ TokAnd) n l c) ∧
  (∀ n l c, gen_and n l c → reaches parseAnd and_loop 3 (λ _, True) n l c) ∧
  (∀ n l c, gen_not n l c → taken parseNot 2 n l c) ∧
  (∀ n l c, gen_term n l c → taken parseTerm 1 n l c).
Proof.
  apply gen_mutind.
  - intros n l c _ IH. apply (chain_begins _ _ parseAnd); [done|lia|]. intros. by eapply and_taken.
  - intros n l1 t l2 c1 c2 _ IH1 Ht _ IH2. eapply (chain_continues TokOr _ _ parseAnd _ _ 3); [done|lia|done|by rewrite Ht|done|].
    intros. by eapply and_taken.
  - intros n l c _ IH. apply (chain_begins _ _ parseNot); [done|lia|]. intros. by apply IH.
  - intros n l1 t l2 c1 c2 _ IH1 Ht _ IH2. eapply (chain_continues TokAnd _ _ parseNot _ _ 2); [done|lia|done|done|done|]. intros. by apply IH2.
  - intros n l c Hg IH [|fuel] p r Hf S Hn; [lia|]. cbn [parseNot]. eapply accepts_peek; [done|].
    rewrite is_kind_false by by eapply term_head. apply IH; [lia|done..].
  - intros n t l c Ht _ IH [|fuel] p r Hf S Hn; [lia|]. cbn [parseNot app] in *. eapply accepts_peek; [done|]. cbn [head_tok]. rewrite is_kind_true by done.
    eapply accepts_bind; [by eapply accepts_next|]. intros p1 S1 D1. cbn [length] in Hf.
    eapply accepts_bind; [apply (IH fuel p1 r); [lia|done|by rewrite (nest_eq p p1 D1)]|]. intros. by eapply accepts_ret.
  - intros n o l c cl Ho _ IH Hcl [|fuel] p r Hf S Hn; [lia|]. cbn [app length] in Hf, S. rewrite <- app_assoc in Hf, S. cbn [app] in Hf, S.
    eapply (accepts_parens fuel n c p o cl l r); try done. intros p1 S1 Hn1. eapply or_taken; try done; try (cbn; congruence). lia.
  - intros n w o t c Hw Hf' Ho Ht Hc [|fuel] p r Hf S Hn; [lia|]. cbn [parseTerm app] in *. eapply accepts_peek; [done|]. cbn [head_tok].
    rewrite is_kind_false by congruence. rewrite is_kind_true, Hf' by done. cbn [andb].
    eapply accepts_bind; [by eapply accepts_next|]. intros. eapply accepts_bind; [by eapply accepts_paren_path|]. intros. by eapply accepts_ret.
  - intros n w o t cm l a c Hw Hf1 Hf2 Ho Ht Hcm Hg Hc [|fuel] p r Hf S Hn; [lia|]. cbn [parseTerm app] in *. rewrite <- app_assoc in S.
    eapply accepts_peek; [done|]. cbn [head_tok app] in *. rewrite is_kind_false by congruence. rewrite is_kind_true, Hf1, Hf2 by done. cbn [andb].
    eapply accepts_bind; [by eapply accepts_next|]. intros. eapply (accepts_bind _ _ (tok_text t, a)); [|intros; by eapply accepts_ret].
    unfold parseParenPathArg. eapply accepts_bind; [by eapply accepts_expect|]. intros. eapply accepts_bind; [by eapply accepts_path_word|]. intros.
    eapply accepts_bind; [by eapply accepts_expect|]. intros. eapply accepts_bind; [by apply (accepts_operand l a)|]. intros.
    eapply accepts_bind; [by eapply accepts_expect|]. intros. by eapply accepts_ret.
  - intros n l1 x op l2 y H1 Hn1 Hop Hv H2 [|fuel] p r Hf S Hn; [lia|]. rewrite <- app_assoc in S. cbn [app] in S.
    eapply (term_is_comparison fuel l1 x); [done..|]. by eapply accepts_compare.
  - intros n l1 x b l2 lo an l3 hi H1 Hn1 Hb H2 Ha H3 [|fuel] p r Hf S Hn; [lia|]. rewrite <- !app_assoc in S. cbn [app] in S. rewrite <- !app_assoc in S.
    eapply (term_is_comparison fuel l1 x); [done..|]. by eapply accepts_between.
  - intros n l1 x i o l2 os c H1 Hn1 Hi Ho Hl Hc [|fuel] p r Hf S Hn; [lia|]. rewrite <- app_assoc in S. cbn [app] in S. rewrite <- app_assoc in S. cbn [app] in S.
    eapply (term_is_comparison fuel l1 x); [done..|]. eapply accepts_in; try done. rewrite !length_app in Hf. simpl in Hf. rewrite length_app in Hf. simpl in Hf. lia.
Qed.

(** ** Compilation *)

Lemma lex_length l cur : (length (lex l cur) ≤ length l + length (end_word cur))%nat.
Proof.
  assert (length (end_word []) = 0)%nat as E0 by done.
  revert cur. induction l as [l IH] using (induction_ltof1 _ length). intros cur. destruct l as [|c l]; [simpl; lia|]. cbn [lex].
  assert (∀ cur, (length (lex l cur) ≤ length l + length (end_word cur))%nat) as Hl by (intros; apply IH; unfold ltof; simpl; lia).
  pose proof (Hl []). pose proof (Hl (cur ++ [c])). assert (length (end_word (cur ++ [c])) ≤ 1)%nat by (unfold end_word; case_bool_decide; simpl; lia).
  destruct (is_space c); [rewrite length_app; simpl; lia|]. destruct (is_open c); [rewrite length_app; simpl; lia|].
  destruct (is_close c); [rewrite length_app; simpl; lia|]. destruct (is_comma c); [rewrite length_app; simpl; lia|].
  destruct (is_op c); [|simpl; lia]. rewrite length_app. destruct l as [|n l]; [simpl; lia|]. destruct (joins_op n); [|simpl in *; lia].
  pose proof (IH l ltac:(unfold ltof; simpl; lia) []). simpl. lia.
Qed.

Definition start_parser (ts : list ddbExprTok) : ddbExprParser :=
  MkParser (ts ++ [eof_tok]) 0 (NewParseGuard maxExprParseDepth (2 ^ 62)) None ∅ [].

Lemma start_sees s : Z.of_nat (String.length s) < 2 ^ 62 → sees (start_parser (tokens s)) (tokens s).
Proof.
  intros Hl. split; simpl; try done.
  - by exists [].
  - apply lex_not_eof.
  - unfold tokens. pose proof (lex_length (chars s) []) as L. rewrite length_chars_p in L. simpl in L. lia.
Qed.

Lemma check_end_yields p r : sees p r → yields (λ l _ rs ps, l = [] ∧ rs = [] ∧ ps = []) check_end p r ∧ (∀ p', check_end p = Done () p' → err p' = None → r = []).
Proof.
  intros S. unfold yields_k, check_end. destruct (err p) as [e|] eqn:He.
  { split; [|intros p' [= <-] ?; congruence]. exists (), p, r. split_and!; try done. intros. congruence. }
  unfold mbind, P_bind. rewrite (peek_sees p r S). destruct r as [|t r].
  { cbn [head_tok]. rewrite is_kind_true by done. cbn [negb]. split; [|done]. exists (), p, []. split_and!; try done. intros _. split; [done|].
    exists [], [], []. split_and!; auto using recorded_nil. }
  cbn [head_tok]. rewrite is_kind_false by (by destruct S as [_ [? _]%Forall_cons _ _ _]). cbn [negb]. split.
  - destruct (fail_yields (λ l _ rs ps, l = [] ∧ rs = [] ∧ ps = []) (ErrUnexpected (tok_text t)) p (t :: r) S) as (a & p' & r' & E & ? & ? & ? & K).
    exists a, p', r'. split_and!; try done. intros Hn. by destruct (K Hn).
  - intros p' [= <-]. simpl. by rewrite He.
Qed.

Lemma find_none {A} (f : A → bool) l : find f l = None ↔ ∀ x, x ∈ l → f x = false.
Proof.
  split; [intros Hf x Hx; by apply (find_none f l Hf), list_elem_of_In|]. intros Hf. destruct (find f l) eqn:E; [|done].
  apply find_some in E as [Hin E]. rewrite Hf in E; [done|by apply list_elem_of_In].
Qed.

Definition references_defined (c : ddbCond) (names : gmap string string) (values : gmap string any) : Prop :=
  (∀ ref, ref ∈ cond_refs c → is_Some (values !! ref)) ∧
  (∀ path seg, path ∈ cond_paths c → seg ∈ ddbSplitPath path → HasPrefix seg "#" = true → default "" (names !! seg) ≠ "").

Lemma checkRefs_spec p c names values :
  valueRefs p = list_to_set (cond_refs c) → paths p = cond_paths c → checkRefs p names values = None ↔ references_defined c names values.
Proof.
  intros Hr Hp. unfold checkRefs, references_defined. rewrite Hr, Hp. destruct (find _ (elements _)) as [ref|] eqn:E.
  - split; [done|]. intros [Hv _]. apply find_some in E as [Hin E]. apply list_elem_of_In, elem_of_elements, elem_of_list_to_set in Hin.
    destruct (Hv ref Hin) as [v Hv']. by rewrite Hv' in E.
  - rewrite find_none in E. assert (∀ ref, ref ∈ cond_refs c → is_Some (values !! ref)) as Hv.
    { intros ref Hin. specialize (E ref). destruct (values !! ref); [eauto|]. discriminate E. by apply elem_of_elements, elem_of_list_to_set. }
    assert (omap (undefined_name names) (cond_paths c) = [] ↔ ∀ path, path ∈ cond_paths c → undefined_name names path = None) as Ho.
    { clear. induction (cond_paths c) as [|x l IH]; [split; [by intros _ ? ?%elem_of_nil|done]|]. cbn. destruct (undefined_name names x) eqn:E.
      - split; [done|]. intros Hx. rewrite Hx in E; [done|by left].
      - rewrite IH. split; [intros Hl path [->|?]%elem_of_cons; auto|intros Hl path ?; apply Hl; by right]. }
    destruct (omap _ _) as [|seg l].
    + split; [intros _; split; [done|]|done]. intros path seg Hpath Hseg Hh Hd. pose proof (proj1 Ho eq_refl path Hpath) as Hu.
      unfold undefined_name in Hu. rewrite find_none in Hu. specialize (Hu seg Hseg). by rewrite Hh, Hd in Hu.
    + split; [done|]. intros [_ Hn]. exfalso. enough (seg :: l = []) by done. apply Ho. intros path Hpath. apply find_none.
      intros seg' Hseg. destruct (HasPrefix seg' "#") eqn:Hh; [|done]. cbn [andb]. apply String.eqb_neq. by eapply Hn.
Qed.

(** The run of the parser over the tokens of a text. *)
Lemma parse_run s :
  Z.of_nat (String.length s) < 2 ^ 62 →
  ∃ c p, (node ← parseOr (parse_fuel (start_parser (tokens s))); _ ← check_end; mret node) (start_parser (tokens s)) = Done c p ∧
    (err p = None → gen_or 1000 (tokens s) c ∧ valueRefs p = list_to_set (cond_refs c) ∧ paths p = cond_paths c) ∧
    (∀ c', gen_or 1000 (tokens s) c' → c = c' ∧ err p = None).
Proof.
  intros Hl. pose proof (start_sees s Hl) as S0. set (p0 := start_parser (tokens s)) in *.
  assert (6 * length (tokens s) + 4 ≤ parse_fuel p0)%nat as Hf by (unfold parse_fuel; simpl; rewrite length_app; lia).
  assert (nest p0 = 1000%nat) as Hn by done.
  destruct (or_ok _ (parser_total _) p0 (tokens s) Hf S0) as (c & p1 & r1 & E1 & S1 & _ & _ & K1). rewrite Hn in K1.
  destruct (check_end_yields p1 r1 S1) as [([] & p2 & r2 & E2 & _ & _ & _ & K2) Hend]. specialize (Hend p2 E2).
  exists c, p2. unfold mbind, P_bind. rewrite E1, E2. split; [done|]. split.
  - intros Hn2. specialize (Hend Hn2) as ->. destruct (K2 Hn2) as (Hn1 & l2 & rs2 & ps2 & _ & (-> & -> & ->) & [Q1 Q2]).
    destruct (K1 Hn1) as (_ & l1 & rs1 & ps1 & Et & (G & -> & ->) & [Q3 Q4]). rewrite app_nil_r in Et. subst l1. split; [done|].
    rewrite Q1, Q3, Q2, Q4. simpl. split; [set_solver|by rewrite app_nil_r].
  - intros c' G. destruct (or_taken 1000 (tokens s) c' (parse_fuel p0) p0 []) as (p' & E' & S' & X' & _);
      rewrite ?app_nil_r; [by apply grammar_accepted|done|done|by rewrite Hn|done|done|]. rewrite E1 in E'. injection E' as -> ->. split; [done|].
    unfold check_end in E2. rewrite X' in E2. simpl in E2. unfold mbind, P_bind in E2. rewrite (peek_sees p' [] S') in E2. cbn in E2. by injection E2 as <-.
Qed.

(** An argument function is written with its argument. *)
Lemma grammar_evaluable :
  (∀ n l c, gen_or n l c → evaluable c) ∧ (∀ n l c, gen_and n l c → evaluable c) ∧
  (∀ n l c, gen_not n l c → evaluable c) ∧ (∀ n l c, gen_term n l c → evaluable c).
Proof.
  apply (gen_mutind (λ _ _ c _, evaluable c) (λ _ _ c _, evaluable c) (λ _ _ c _, evaluable c) (λ _ _ c _, evaluable c)); intros; cbn [evaluable]; auto.
  intros Hin. match goal with E : one_of exists_functions _ = true |- _ => revert E end.
  apply elem_of_cons in Hin as [->|[->|[->|?%elem_of_nil]%elem_of_cons]%elem_of_cons]; done.
Qed.

(** *** The documented grammar

    The grammar written at the top of [dynamodb_expr.go], over tokens: a [BETWEEN]
    has its [AND], an [IN] list is not empty and has its commas, a term has at
    most one [NOT], and a path is made of names and indexes. A word that spells a
    function does not begin an operand. *)

Definition doc_name (s : string) : Prop := s ≠ "" ∧ HasPrefix s ":" = false ∧ Forall (λ c, c ∉ chars s) (chars ".[]").
Definition doc_index (s : string) : Prop := s ≠ "" ∧ Forall (λ c, c ∈ chars "0123456789") (chars s).

Inductive doc_path : string → Prop :=
| path_name s : doc_name s → doc_path s
| path_member p s : doc_path p → doc_name s → doc_path (p +:+ "." +:+ s)
| path_element p i : doc_path p → doc_index i → doc_path (p +:+ "[" +:+ i +:+ "]").

Inductive doc_operand : list ddbExprTok → ddbOperand → Prop :=
| doc_size w o t c :
    kind w = TokWord → ToLower (tok_text w) = "size" → kind o = TokLParen → kind t = TokWord → doc_path (tok_text t) → kind c = TokRParen →
    doc_operand [w; o; t; c] (OperandSize (tok_text t))
| doc_value w :
    kind w = TokWord → ToLower (tok_text w) ≠ "size" → HasPrefix (tok_text w) ":" = true → doc_operand [w] (OperandValue (tok_text w))
| doc_attr w : kind w = TokWord → ToLower (tok_text w) ≠ "size" → doc_path (tok_text w) → doc_operand [w] (OperandPath (tok_text w)).

Inductive doc_list : list ddbExprTok → list ddbOperand → Prop :=
| doc_last l o : doc_operand l o → doc_list l [o]
| doc_more l o c l' os : doc_operand l o → kind c = TokComma → doc_list l' os → doc_list (l ++ c :: l') (o :: os).

Inductive doc_or : nat → list ddbExprTok → ddbCond → Prop :=
| doc_or_one n l c : doc_and n l c → doc_or n l c
| doc_or_more n l1 t l2 c1 c2 : doc_or n l1 c1 → kind t = TokOr → doc_and n l2 c2 → doc_or n (l1 ++ t :: l2) (CondOr c1 c2)
with doc_and : nat → list ddbExprTok → ddbCond → Prop :=
| doc_and_one n l c : doc_not n l c → doc_and n l c
| doc_and_more n l1 t l2 c1 c2 : doc_and n l1 c1 → kind t = TokAnd → doc_not n l2 c2 → doc_and n (l1 ++ t :: l2) (CondAnd c1 c2)
with doc_not : nat → list ddbExprTok → ddbCond → Prop :=
| doc_not_none n l c : doc_term n l c → doc_not n l c
| doc_not_one n t l c : kind t = TokNot → doc_term n l c → doc_not n (t :: l) (CondNot c)
with doc_term : nat → list ddbExprTok → ddbCond → Prop :=
| doc_paren n o l c cl : kind o = TokLParen → doc_or n l c → kind cl = TokRParen → doc_term (S n) (o :: l ++ [cl]) c
| doc_exists n w o t c :
    kind w = TokWord → one_of exists_functions (ToLower (tok_text w)) = true →
    kind o = TokLParen → kind t = TokWord → doc_path (tok_text t) → kind c = TokRParen →
    doc_term n [w; o; t; c] (CondFunc (ToLower (tok_text w)) (tok_text t) None)
| doc_func n w o t cm l a c :
    kind w = TokWord → one_of exists_functions (ToLower (tok_text w)) = false → one_of argument_functions (ToLower (tok_text w)) = true →
    kind o = TokLParen → kind t = TokWord → doc_path (tok_text t) → kind cm = TokComma → doc_operand l a → kind c = TokRParen →
    doc_term n (w :: o :: t :: cm :: l ++ [c]) (CondFunc (ToLower (tok_text w)) (tok_text t) (Some a))
| doc_compare n l1 x op l2 y :
    doc_operand l1 x → not_function l1 → kind op = TokOp → tok_text op ∈ ["="; "<>"; "<"; "<="; ">"; ">="] → doc_operand l2 y →
    doc_term n (l1 ++ op :: l2) (CondCompare x y (tok_text op))
| doc_between n l1 x b l2 lo an l3 hi :
    doc_operand l1 x → not_function l1 → kind b = TokBetween → doc_operand l2 lo → kind an = TokAnd → doc_operand l3 hi →
    doc_term n (l1 ++ b :: l2 ++ [an] ++ l3) (CondBetween x lo hi)
| doc_in n l1 x i o l2 os c :
    doc_operand l1 x → not_function l1 → kind i = TokIn → kind o = TokLParen → doc_list l2 os → kind c = TokRParen →
    doc_term n (l1 ++ i :: o :: l2 ++ [c]) (CondIn x os).

Scheme doc_or_mut := Minimality for doc_or Sort Prop
with doc_and_mut := Minimality for doc_and Sort Prop
with doc_not_mut := Minimality for doc_not Sort Prop
with doc_term_mut := Minimality for doc_term Sort Prop.
Combined Scheme doc_mutind from doc_or_mut, doc_and_mut, doc_not_mut, doc_term_mut.

Lemma doc_path_prefix p : doc_path p → p ≠ "" ∧ HasPrefix p ":" = false.
Proof.
  assert (∀ p s, p ≠ "" ∧ HasPrefix p ":" = false → p +:+ s ≠ "" ∧ HasPrefix (p +:+ s) ":" = false) as Happ.
  { intros [|c q] s [Hne Hp]; [done|]. split; [done|]. rewrite <- not_true_iff_false, HasPrefix_spec in *. intros [r E]. apply Hp. injection E as -> _. by exists q. }
  induction 1 as [s (Hne & Hp & _)|p s _ IH _|p i _ IH _]; [done|by apply Happ..].
Qed.

Lemma doc_operand_accepted l o : doc_operand l o → gen_operand l o.
Proof. destruct 1; constructor; try done. by apply doc_path_prefix. Qed.

Lemma doc_list_accepted l os : doc_list l os → gen_list l os.
Proof.
  induction 1 as [l o Ho|l o c l' os Ho Hc _ IH].
  - rewrite <- (app_nil_r l). by constructor; [apply doc_operand_accepted|constructor].
  - by constructor; [apply doc_operand_accepted|..].
Qed.

Lemma doc_comparator s : s ∈ ["="; "<>"; "<"; "<="; ">"; ">="] → ddbValidComparator s = true.
Proof. intros Hs. repeat (apply elem_of_cons in Hs as [->|Hs]; [done|]). by apply elem_of_nil in Hs. Qed.

(** The parser accepts every expression of the documented grammar. *)
Lemma documented_accepted :
  (∀ n l c, doc_or n l c → gen_or n l c) ∧ (∀ n l c, doc_and n l c → gen_and n l c) ∧
  (∀ n l c, doc_not n l c → gen_not n l c) ∧ (∀ n l c, doc_term n l c → gen_term n l c).
Proof.
  apply (doc_mutind gen_or gen_and gen_not gen_term); intros;
    try (constructor; eauto using doc_operand_accepted, doc_list_accepted, doc_comparator; fail).
  - constructor; [done|by constructor].
  - apply term_between; eauto using doc_operand_accepted. right. eauto.
Qed.

(** What a text compiles to, by the implemented grammar. *)
Lemma compile_spec expr names values :
  Z.of_nat (String.length (TrimSpace expr)) < 2 ^ 62 → TrimSpace expr ≠ "" →
  (∀ c, ddbCompileExpr expr names values = Some (Ok (Some (MkCompiled c names values))) ↔
        gen_or 1000 (tokens (TrimSpace expr)) c ∧ references_defined c names values) ∧
  ((∃ c, ddbCompileExpr expr names values = Some (Ok (Some (MkCompiled c names values)))) ∨
   ∃ e, ddbCompileExpr expr names values = Some (Err e)) ∧
  (∀ c item ex, ddbCompileExpr expr names values = Some (Ok (Some c)) → is_Some (match_ (Some c) item ex)).
Proof.
  intros Hl Hne. unfold ddbCompileExpr. rewrite (proj2 (String.eqb_neq _ _) Hne), ddbExprTokenize_lex by done. cbn [mbind option_bind].
  change (MkParser (tokens (TrimSpace expr) ++ _) 0 _ None ∅ []) with (start_parser (tokens (TrimSpace expr))).
  destruct (parse_run _ Hl) as (c & p & E & Hs & Hc). rewrite E. destruct (err p) as [e|].
  - split_and!; [|eauto|done]. intros c'. split; [done|]. intros [G _]. by destruct (Hc c' G).
  - destruct (Hs eq_refl) as (G & Hr & Hp). pose proof (checkRefs_spec p c names values Hr Hp) as Hk.
    destruct (checkRefs p names values) as [e|]; (split_and!; [|eauto|]).
    + intros c'. split; [done|]. intros [G' R]. destruct (Hc c' G') as [<- _]. by apply Hk in R.
    + done.
    + intros c'. split; [intros [= <-]; split; [done|by apply Hk]|]. intros [G' R]. by destruct (Hc c' G') as [<- _].
    + intros c' item ex [= <-]. apply evaluable_match. intros c' [= <-]. cbn [node]. by apply (proj1 grammar_evaluable) in G.
Qed.

(** [C34] Expressions compile exactly by the grammar the parser implements, and
    every expression of the documented grammar compiles. Whatever the text,
    tokenizing and parsing end without an index out of range. A non-empty text
    compiles to a condition exactly when its tokens derive that condition in the
    implemented grammar [gen_or] with parentheses nested at most 1000 deep, every
    value reference in it is among the values and every name alias in it among the
    names; any other text is reported as an error. The implemented grammar is
    looser than the one documented ([loose_between_and_in_compile]): a [BETWEEN]
    may lack its [AND], an [IN] list its commas and its elements, [NOT] may be
    repeated, and any word is a path. A text that derives a condition in the
    documented grammar [doc_or], with its references defined, compiles to that
    condition. A compiled condition evaluates on every item. *)
Theorem expressions_compile_by_the_grammar expr names values :
  Z.of_nat (String.length (TrimSpace expr)) < 2 ^ 62 → TrimSpace expr ≠ "" →
  (∀ c, ddbCompileExpr expr names values = Some (Ok (Some (MkCompiled c names values))) ↔
        gen_or 1000 (tokens (TrimSpace expr)) c ∧ references_defined c names values) ∧
  (∀ c, doc_or 1000 (tokens (TrimSpace expr)) c → references_defined c names values →
        ddbCompileExpr expr names values = Some (Ok (Some (MkCompiled c names values)))) ∧
  ((∃ c, ddbCompileExpr expr names values = Some (Ok (Some (MkCompiled c names values)))) ∨
   ∃ e, ddbCompileExpr expr names values = Some (Err e)) ∧
  (∀ c item ex, ddbCompileExpr expr names values = Some (Ok (Some c)) → is_Some (match_ (Some c) item ex)).
Proof.
  intros Hl Hne. destruct (compile_spec expr names values Hl Hne) as (Hc & Hr). split; [done|]. split; [|done].
  intros c Hd Hrefs. apply Hc. split; [|done]. by apply documented_accepted.
Qed.
End Expr.

Definition ascii_upper : Upper := λ r, if (97 <=? r) && (r <=? 122) then r - 32 else r.

Definition w_condition : ddbCond :=
  CondNot (CondOr (CondCompare (OperandSize "#a") (OperandValue ":n") ">=") (CondIn (OperandPath "b[0].c") [OperandValue ":n"])).

(** An expression of the documented grammar. *)
Lemma w_documented :
  doc_or (H := ascii_case) 1000 (tokens (H0 := ascii_upper) "NOT (size(#a) >= :n OR b[0].c IN (:n))") w_condition.
Proof.
  assert (∀ s, bool_decide (s ≠ "") && negb (HasPrefix s ":") && bool_decide (Forall (λ c, c ∉ chars s) (chars ".[]")) = true → doc_name s) as Hname.
  { intros s [[H1%bool_decide_eq_true H2%negb_true_iff]%andb_true_iff H3%bool_decide_eq_true]%andb_true_iff. done. }
  assert (doc_path "b[0].c") as Hpath.
  { apply (path_member "b[0]" "c"); [|by apply Hname]. apply (path_element "b" "0"); [by apply path_name, Hname|].
    split; [done|]. by apply (bool_decide_unpack _). }
  pose (open := MkTok TokLParen "("). pose (close := MkTok TokRParen ")"). pose (word s := MkTok TokWord s).
  assert (tokens (H0 := ascii_upper) "NOT (size(#a) >= :n OR b[0].c IN (:n))" =
    MkTok TokNot "NOT" :: open ::
    (([word "size"; open; word "#a"; close] ++ MkTok TokOp ">=" :: [word ":n"]) ++ MkTok TokOr "OR" ::
     [word "b[0].c"] ++ MkTok TokIn "IN" :: open :: [word ":n"] ++ [close]) ++ [close]) as -> by by vm_compute.
  assert (doc_operand (H := ascii_case) [word ":n"] (OperandValue ":n")) as Hn by (apply (doc_value (word ":n")); by vm_compute).
  apply doc_or_one, doc_and_one, doc_not_one; [done|]. apply doc_paren; [done| |done]. apply doc_or_more; [|done|].
  - apply doc_or_one, doc_and_one, doc_not_none. apply (doc_compare _ _ _ (MkTok TokOp ">=")); [|by vm_compute|done| |done].
    + apply (doc_size (word "size") open (word "#a") close); try done. by apply path_name, Hname.
    + by apply (bool_decide_unpack _).
  - apply doc_and_one, doc_not_none. apply doc_in; [|by vm_compute|done|done| |done].
    + apply (doc_attr (word "b[0].c")); [done|by vm_compute|done].
    + by apply doc_last.
Qed.

Lemma expressions_compile_by_the_grammar_witness :
  ∃ c, ddbCompileExpr (H := ascii_case) (H0 := ascii_upper) "NOT (size(#a) >= :n OR b[0].c IN (:n))" {[ "#a" := "a" ]} {[ ":n" := typed "N" "1" ]} =
    Some (Ok (Some (MkCompiled c {[ "#a" := "a" ]} {[ ":n" := typed "N" "1" ]}))) ∧
    gen_or (H := ascii_case) 1000 (tokens (H0 := ascii_upper) "NOT (size(#a) >= :n OR b[0].c IN (:n))") c ∧
    doc_or (H := ascii_case) 1000 (tokens (H0 := ascii_upper) "NOT (size(#a) >= :n OR b[0].c IN (:n))") c.
Proof.
  exists w_condition.
  assert (ddbCompileExpr (H := ascii_case) (H0 := ascii_upper) "NOT (size(#a) >= :n OR b[0].c IN (:n))" {[ "#a" := "a" ]} {[ ":n" := typed "N" "1" ]} =
    Some (Ok (Some (MkCompiled w_condition
      {[ "#a" := "a" ]} {[ ":n" := typed "N" "1" ]})))) as E by by vm_compute.
  split; [exact E|]. split; [|exact w_documented].
  apply (proj1 (expressions_compile_by_the_grammar (H := ascii_case) (H0 := ascii_upper) "NOT (size(#a) >= :n OR b[0].c IN (:n))" {[ "#a" := "a" ]} {[ ":n" := typed "N" "1" ]} ltac:(reflexivity) ltac:(discriminate))) in E.
  exact (proj1 E).
Defined.

(** The separators the documented grammar requires are optional. *)
Example loose_between_and_in_compile :
  let ok expr := match ddbCompileExpr (H := ascii_case) (H0 := ascii_upper) expr ∅ {[ ":x" := typed "N" "1"; ":y" := typed "N" "2" ]} with
                 | Some (Ok (Some _)) => true | _ => false end in
  ok "a BETWEEN :x :y" = true ∧ ok "a IN (:x :y)" = true ∧ ok "a IN (:x,)" = true ∧ ok "a IN ()" = true ∧ ok "NOT NOT a = :x" = true ∧ ok "a..b = :x" = true.
Proof. by vm_compute. Qed.

(** Parentheses are counted against the nesting limit, negations are not, though
    the parser recurses on both: where one more parenthesis is too deep, any number
    of negations is parsed. *)
Example negations_nest_without_limit :
  let at_limit := MkGuard maxExprParseDepth maxExprParseDepth 0 (2 ^ 62) in
  let run text := let ts := tokens (H0 := ascii_upper) text ++ [eof_tok] in
                  match parseOr (H := ascii_case) (6 * length ts + 4) (MkParser ts 0 at_limit None ∅ []) with
                  | Done _ c p => Some (c, err p) | _ => None end in
  let equals := CondCompare (OperandPath "a") (OperandValue ":x") "=" in
  (∃ c, run "(a = :x)" = Some (c, Some ErrTooDeep)) ∧
  run "NOT NOT NOT NOT NOT NOT a = :x" = Some (Nat.iter 6 CondNot equals, None).
Proof. split; [eexists|]; by vm_compute. Qed.
