(* ===== verification/Ddbquery.v ===== *)
(** * DynamoDB queries: [handleDDBQuery] of [src/simulator-aws/dynamodb.go]

    A query lists candidate keys in order (a partition of the table, the whole
    table, or a run of an index's entries), resumes after an exclusive start key,
    examines at most [Limit] items that satisfy the key condition, and keeps those
    that pass the filter; the last item examined is the cursor of the next page.
    This file models that part of the handler, with the scan's segments, over the
    stores of [Ddbindex] and the conditions of [Ddbcond], and proves that walking
    the pages returns every matching item once, in key order. *)

From S2P Require Import Prelude Gostd Store Utf8 Bigrat Ddbkeys Ddbindex Ddbcond.

(** ** Cursors *)

Definition ddbExtractKey (t : DDBTable) (item : attributes) : attributes :=
  foldl (λ key k, match item !! AttributeName k with Some v => <[AttributeName k := v]> key | None => key end) ∅ (KeySchema t).

Definition ddbIndexLastEvaluatedKey (t : DDBTable) (index : ddbIndex) (item : attributes) : attributes :=
  foldl (λ key k, match item !! AttributeName k with Some v => <[AttributeName k := v]> key | None => key end)
    (ddbExtractKey t item) (index_schema index).

Definition ddbResumeIndex (keys : list string) (startKey prefix tablePrefix : string) : nat :=
  if String.eqb startKey prefix || String.eqb startKey tablePrefix then 0
  else Search (length keys) (λ i, sltb startKey (keys !!! i)).

Definition ddbQueryCandidateKeys (keys : list string) (t : DDBTable) (exclusiveStart : attributes) (prefix : string) (forward : bool) : list string :=
  let startKey := ddbItemKey t exclusiveStart in
  if forward then drop (ddbResumeIndex keys startKey prefix (TableName t +:+ "/")) keys
  else
    let end_ := if negb (String.eqb startKey prefix) && negb (String.eqb startKey (TableName t +:+ "/"))
                then Search (length keys) (λ i, negb (sltb (keys !!! i) startKey)) else length keys in
    reverse (take end_ keys).

(** ** Projections *)

Definition ddbIsGSI (t : DDBTable) (name : string) : bool :=
  negb (String.eqb name "") && existsb (λ g, String.eqb (IndexName g) name) (GlobalSecondaryIndexes t).

Definition ddbProjectToIndex (t : DDBTable) (index : ddbIndex) (item : attributes) : attributes :=
  match projection index with
  | None => item
  | Some p =>
      if String.eqb (ProjectionType p) "" || String.eqb (ProjectionType p) "ALL" then item
      else
        let keep := map AttributeName (KeySchema t) ++ map AttributeName (index_schema index) ++
                    (if String.eqb (ProjectionType p) "INCLUDE" then NonKeyAttributes p else []) in
        filter (λ kv, kv.1 ∈ keep) item
  end.

(** ** Segments of a scan *)

(** [fnv.New32a]: xor, then multiply, at 32 bits. *)
Definition fnv32a (s : string) : Z := foldl (λ h c, (Z.lxor h (byte_of c) * 16777619) mod 2 ^ 32) 2166136261 (chars s).

(** A remainder by zero panics. *)
Definition ddbScanSegment (itemKey : string) (total : Z) : option Z :=
  let partition := match Cut itemKey ddbKeySeparator with Some (a, _) => a | None => itemKey end in
  let divisor := total mod 2 ^ 32 in
  if divisor =? 0 then None else Some (fnv32a partition mod divisor).

Section Query.
Context {SI SN SE : Type} `{!Store SI attributes, !Store SN string, !Store SE string, !Unicode}.
Notation db := (items_db SI SN SE).

(** ** Candidates *)

(** The entries an index query reads: the equality on the hash attribute narrows
    the index's prefix. *)
Definition index_query_prefix (t : DDBTable) (index : ddbIndex) (keyExpr : option ddbCompiledExpr) : string :=
  let prefix0 := ddbIndexPrefix (TableName t) (index_name index) in
  match keyExpr with
  | None => prefix0
  | Some e =>
      foldl (λ prefix k,
        if negb (String.eqb (KeyType k) "HASH") then prefix
        else match ddbEqualityValueFor (node e) (AttributeName k) (expr_names e) (expr_values e) with
             | Some value =>
                 let encoded := ddbExtractAttrValue value in
                 if negb (String.eqb encoded "") then prefix +:+ encoded +:+ ddbKeySeparator else prefix
             | None => prefix
             end) prefix0 (index_schema index)
  end.

Definition ddbIndexCandidateKeys (d : db) (t : DDBTable) (index : ddbIndex) (keyExpr : option ddbCompiledExpr) (exclusiveStart : attributes) (forward : bool) : list string :=
  let prefix := index_query_prefix t index keyExpr in
  let rows := store_list_prefix (ddbIndexEntries d) prefix in
  let start := if (0 <? size exclusiveStart)%nat then default "" (ddbIndexEntryKey t index exclusiveStart) else "" in
  if forward then (filter (λ row, String.eqb start "" || sltb start row.1 = true) rows).*2
  else (filter (λ row, String.eqb start "" || sltb row.1 start = true) (reverse rows)).*2.

Record query := MkQuery {
  q_index : option ddbIndex;
  q_key : option ddbCompiledExpr;
  q_filter : option ddbCompiledExpr;
  q_limit : Z;
  q_start : attributes;
  q_forward : bool;
}.

Definition query_remaining (d : db) (t : DDBTable) (q : query) : list string :=
  match q_index q with
  | Some index => ddbIndexCandidateKeys d t index (q_key q) (q_start q) (q_forward q)
  | None =>
      let prefix := TableName t +:+ "/" in
      let candidates := match ddbQueryPartitionPrefix t (q_key q) with
                        | Some partition => ddbKeysInPartition (ddbTableSortedKeys d partition) partition
                        | None => ddbTableSortedKeys d prefix
                        end in
      ddbQueryCandidateKeys candidates t (q_start q) prefix (q_forward q)
  end.

(** ** Examining the candidates *)

(** What the filter of a query sees of an item: a global index holds only what it
    projects. *)
Definition query_view (t : DDBTable) (q : query) (stored : attributes) : attributes :=
  match q_index q with
  | Some index => if ddbIsGSI t (index_name index) then ddbProjectToIndex t index stored else stored
  | None => stored
  end.

(** The matches, how many items were examined, the last of them, and whether the
    candidates were exhausted. *)
Fixpoint query_loop (items : SI) (t : DDBTable) (q : query) (keys : list string) (matched : list attributes) (scanned : Z) (last : option attributes) :
    option (list attributes * Z * option attributes * bool) :=
  match keys with
  | [] => Some (matched, scanned, last, true)
  | k :: keys =>
      match store_get items k with
      | None => query_loop items t q keys matched scanned last
      | Some stored =>
          m ← match_ (q_key q) stored true;
          if negb m then query_loop items t q keys matched scanned last
          else
            let scanned := scanned + 1 in
            f ← match_ (q_filter q) (query_view t q stored) true;
            let matched := if f : bool then matched ++ [stored] else matched in
            if (0 <? q_limit q) && (q_limit q <=? scanned) then Some (matched, scanned, Some stored, false)
            else query_loop items t q keys matched scanned (Some stored)
      end
  end.

Record page := MkPage { page_items : list attributes; ScannedCount : Z; LastEvaluatedKey : option attributes }.

Definition run_query (d : db) (t : DDBTable) (q : query) : option page :=
  r ← query_loop (ddbItems d) t q (query_remaining d t q) [] 0 None;
  let '(matched, scanned, last, exhausted) := r in
  Some (MkPage matched scanned
    (match exhausted, last with
     | false, Some item =>
         if (size item =? 0)%nat then None
         else Some (match q_index q with Some index => ddbIndexLastEvaluatedKey t index item | None => ddbExtractKey t item end)
     | _, _ => None
     end)).

(** A client that follows the cursor. *)
Definition next_query (q : query) (start : attributes) : query :=
  MkQuery (q_index q) (q_key q) (q_filter q) (q_limit q) start (q_forward q).

Fixpoint walk (fuel : nat) (d : db) (t : DDBTable) (q : query) : option (list attributes) :=
  match fuel with
  | O => None
  | S fuel =>
      p ← run_query d t q;
      match LastEvaluatedKey p with
      | None => Some (page_items p)
      | Some start => rest ← walk fuel d t (next_query q start); Some (page_items p ++ rest)
      end
  end.

(** ** Cursors resume after the item they name *)

Lemma key_parts_ext schema i j :
  (∀ k, k ∈ schema → at_key i (AttributeName k) = at_key j (AttributeName k)) → key_parts schema i = key_parts schema j.
Proof.
  unfold key_parts. generalize ("", ""). induction schema as [|k schema IH]; intros p Hk; [done|]. cbn [foldl].
  assert (key_part i p k = key_part j p k) as -> by (unfold key_part; by rewrite (Hk k (list_elem_of_here _ _))).
  apply IH. intros k' ?. apply Hk. by right.
Qed.

Lemma extract_lookup (item : attributes) (schema : list DDBKeySchemaEntry) (acc : attributes) (n : string) :
  (∀ m v, acc !! m = Some v → item !! m = Some v) →
  foldl (λ (key : attributes) k, match item !! AttributeName k with Some v => <[AttributeName k := v]> key | None => key end) acc schema !! n =
  if decide (n ∈ map AttributeName schema) then item !! n else acc !! n.
Proof.
  revert acc. induction schema as [|k schema IH]; intros acc Hacc; cbn [foldl map]; [rewrite decide_False; [done|by intros ?%elem_of_nil]|].
  rewrite IH.
  - destruct (decide (n ∈ map AttributeName schema)) as [Hin|Hout]; [by rewrite decide_True by (apply elem_of_cons; by right)|].
    destruct (decide (n = AttributeName k)) as [->|N].
    + rewrite decide_True by (by left). destruct (item !! AttributeName k) as [v|] eqn:E; [by rewrite lookup_insert_eq|].
      destruct (acc !! AttributeName k) as [v|] eqn:Ea; [|done]. apply Hacc in Ea. congruence.
    + rewrite decide_False by (intros [?|?]%elem_of_cons; done). destruct (item !! AttributeName k); [by rewrite lookup_insert_ne|done].
  - intros m v. destruct (item !! AttributeName k) as [w|] eqn:E; [|apply Hacc].
    intros [[<- <-]|[_ ?]]%lookup_insert_Some; auto.
Qed.

Lemma ddbItemKey_extract t item : ddbItemKey t (ddbExtractKey t item) = ddbItemKey t item.
Proof.
  rewrite !ddbItemKey_parts. rewrite (key_parts_ext (KeySchema t) (ddbExtractKey t item) item); [done|]. intros k Hk.
  unfold at_key, ddbExtractKey. rewrite extract_lookup, decide_True; [done| |by intros m v ?%lookup_empty_Some].
  by apply list_elem_of_In, in_map, list_elem_of_In.
Qed.

Lemma key_parts_empty schema : key_parts schema ∅ = ("", "").
Proof.
  unfold key_parts. induction schema as [|k schema IH]; [done|]. cbn [foldl].
  assert (key_part ∅ ("", "") k = ("", "")) as -> by (unfold key_part, at_key; rewrite lookup_empty; by repeat case_match). done.
Qed.

Lemma ddbItemKey_empty t : ddbItemKey t ∅ = TableName t +:+ "/".
Proof. rewrite ddbItemKey_parts, key_parts_empty. simpl. by rewrite append_nil_s. Qed.

Lemma sorted_lookup_lt (keys : list string) i j a b :
  StronglySorted slt keys → keys !! i = Some a → keys !! j = Some b → (i < j)%nat → slt a b.
Proof. intros. eapply (StronglySorted_lookup_lt slt keys); eauto. Qed.

Lemma search_after pre k post :
  StronglySorted slt (pre ++ k :: post) →
  Search (length (pre ++ k :: post)) (λ i, sltb k ((pre ++ k :: post) !!! i)) = S (length pre) ∧
  Search (length (pre ++ k :: post)) (λ i, negb (sltb ((pre ++ k :: post) !!! i) k)) = length pre.
Proof.
  intros Hs. set (keys := pre ++ k :: post) in *. assert (keys !! length pre = Some k) as Hk by (subst keys; by rewrite lookup_app_r, Nat.sub_diag).
  assert (∀ i, (i < length keys)%nat → ∃ a, keys !! i = Some a ∧ keys !!! i = a) as Hl.
  { intros i Hi. apply lookup_lt_is_Some_2 in Hi as [a Ha]. exists a. split; [done|]. by apply list_lookup_total_correct. }
  assert (length pre < length keys)%nat as Hlt by (subst keys; rewrite length_app; simpl; lia).
  assert (∀ i, (i < length keys)%nat → (i < length pre → slt (keys !!! i) k)%nat ∧ (i = length pre → keys !!! i = k) ∧ (length pre < i → slt k (keys !!! i))%nat) as Ho.
  { intros i Hi. destruct (Hl i Hi) as (a & Ha & ->). split_and!; intros H'; [by eapply (sorted_lookup_lt keys i (length pre))|subst; congruence|by eapply (sorted_lookup_lt keys (length pre) i)]. }
  assert (∀ x, sltb k x = true ↔ slt k x) as B1 by (intros; apply sltb_slt). assert (∀ x, sltb x k = true ↔ slt x k) as B2 by (intros; apply sltb_slt).
  split.
  - destruct (Search_spec (length keys) (λ i, sltb k (keys !!! i))) as (Hle & Hlo & Hhi).
    { intros i j [Hij Hj] Hi. apply B1. apply B1 in Hi. destruct (Ho i ltac:(lia)) as (O1 & O2 & O3). destruct (Ho j ltac:(lia)) as (P1 & P2 & P3).
      apply P3. destruct (decide (length pre < i)%nat); [lia|]. exfalso. destruct (decide (i = length pre)) as [->|].
      - rewrite O2 in Hi by done. by apply slt_irrefl in Hi.
      - eapply slt_irrefl. etrans; [exact Hi|]. apply O1. lia. }
    set (n := Search _ _) in *. destruct (decide (n < S (length pre))%nat) as [H1|H1]; [|destruct (decide (S (length pre) < n)%nat) as [H2|]; [|lia]].
    + specialize (Hhi (length pre)). destruct (Ho (length pre) Hlt) as (_ & O2 & _). rewrite O2 in Hhi by done.
      rewrite (proj2 (sltb_false k k)) in Hhi by (by left). specialize (Hhi ltac:(lia)). done.
    + specialize (Hlo (S (length pre)) H2). destruct (Ho (S (length pre)) ltac:(lia)) as (_ & _ & O3). apply B1 in O3; [congruence|lia].
  - destruct (Search_spec (length keys) (λ i, negb (sltb (keys !!! i) k))) as (Hle & Hlo & Hhi).
    { intros i j [Hij Hj] Hi. apply negb_true_iff. apply negb_true_iff in Hi. destruct (Ho i ltac:(lia)) as (O1 & O2 & O3). destruct (Ho j ltac:(lia)) as (P1 & P2 & P3).
      apply sltb_false. destruct (decide (i < length pre)%nat) as [H1|]; [apply B2 in O1; [congruence|done]|].
      destruct (decide (j = length pre)); [left; auto|right; apply P3; lia]. }
    set (n := Search _ _) in *. destruct (decide (n < length pre)%nat) as [H1|H1]; [|destruct (decide (length pre < n)%nat) as [H2|]; [|lia]].
    + specialize (Hhi n ltac:(lia)). destruct (Ho n ltac:(lia)) as (O1 & _ & _). apply B2 in O1; [|done]. rewrite O1 in Hhi. done.
    + specialize (Hlo (length pre) H2). destruct (Ho (length pre) Hlt) as (_ & O2 & _). rewrite O2 in Hlo by done.
      rewrite (proj2 (sltb_false k k)) in Hlo by (by left). done.
Qed.

(** ** Following the cursor *)

Definition accepts (e : option ddbCompiledExpr) (it : attributes) : bool := default false (match_ e it true).

(** The items of the listed keys that a query returns. *)
Definition answer (items : SI) (t : DDBTable) (q : query) (keys : list string) : list attributes :=
  filter (λ it, accepts (q_key q) it && accepts (q_filter q) (query_view t q it) = true) (omap (store_get items) keys).

(** Both conditions have a value on every item, as compiled ones do. *)
Definition evaluates (q : query) : Prop := evaluable_expr (q_key q) ∧ evaluable_expr (q_filter q).

Definition cursor (t : DDBTable) (q : query) (it : attributes) : attributes :=
  match q_index q with Some index => ddbIndexLastEvaluatedKey t index it | None => ddbExtractKey t it end.

Lemma answer_app items t q a b : answer items t q (a ++ b) = answer items t q a ++ answer items t q b.
Proof. unfold answer. by rewrite omap_app, filter_app. Qed.

Lemma answer_one items t q k :
  answer items t q [k] =
  match store_get items k with
  | Some it => if accepts (q_key q) it && accepts (q_filter q) (query_view t q it) then [it] else []
  | None => []
  end.
Proof.
  unfold answer. cbn [omap list_omap]. destruct (store_get items k); [|done]. rewrite filter_cons, filter_nil.
  destruct (_ && _); [by rewrite decide_True|by rewrite decide_False].
Qed.

Lemma answer_next items t q start keys : answer items t (next_query q start) keys = answer items t q keys.
Proof. done. Qed.

Lemma query_loop_spec items t q keys matched scanned last :
  evaluates q →
  (∃ n l, query_loop items t q keys matched scanned last = Some (matched ++ answer items t q keys, n, l, true)) ∨
  (∃ n pre k post it, keys = pre ++ k :: post ∧ store_get items k = Some it ∧
    query_loop items t q keys matched scanned last = Some (matched ++ answer items t q (pre ++ [k]), n, Some it, false)).
Proof.
  revert matched scanned last. induction keys as [|k keys IH]; intros matched scanned last Hev; [left; eexists _, _; cbn; by rewrite app_nil_r|].
  cbn [query_loop]. rewrite (answer_app items t q [k] keys : answer items t q (k :: keys) = _).
  assert (∀ matched' n l, matched' = matched ++ answer items t q [k] →
    (∃ n' l', query_loop items t q keys matched' n l = Some (matched ++ answer items t q [k] ++ answer items t q keys, n', l', true)) ∨
    ∃ n' pre k' post it, k :: keys = pre ++ k' :: post ∧ store_get items k' = Some it ∧
      query_loop items t q keys matched' n l = Some (matched ++ answer items t q (pre ++ [k']), n', Some it, false)) as Hrest.
  { intros matched' n l ->. rewrite app_assoc. destruct (IH (matched ++ answer items t q [k]) n l Hev) as [?|(n' & pre & k' & post & it & -> & Hg & E)]; [by left|right].
    exists n', (k :: pre), k', post, it. split_and!; [done..|]. rewrite E. rewrite <- app_assoc, <- answer_app. done. }
  rewrite (answer_one items t q k) in *. destruct (store_get items k) as [it|] eqn:Hk; [|apply Hrest; by rewrite app_nil_r].
  destruct (evaluable_match _ it true (proj1 Hev)) as [m Hm], (evaluable_match _ (query_view t q it) true (proj2 Hev)) as [f Hf]. unfold accepts in *. rewrite Hm, Hf in *. cbn [mbind option_bind default from_option id] in *.
  destruct m; cbn [negb andb] in *; [|apply Hrest; by rewrite app_nil_r].
  destruct ((0 <? q_limit q) && _); [|apply Hrest; destruct f; by rewrite ?app_nil_r].
  right. exists (scanned + 1), [], k, keys, it. split_and!; [done..|]. cbn [app]. rewrite answer_one, Hk. unfold accepts. rewrite Hm, Hf. destruct f; cbn; by rewrite ?app_nil_r.
Qed.

(** When every cursor resumes right after the item it names, following the cursor
    yields the whole answer. *)
Lemma walk_spec (d : db) t q order :
  query_remaining d t q = order → evaluates q →
  (∀ pre k post it, order = pre ++ k :: post → store_get (ddbItems d) k = Some it →
    it ≠ ∅ ∧ query_remaining d t (next_query q (cursor t q it)) = post) →
  ∀ fuel, (length order < fuel)%nat → walk fuel d t q = Some (answer (ddbItems d) t q order).
Proof.
  intros Hr Hev Hnext fuel0 Hfuel0.
  assert (∀ fuel q' pre rem, q' = next_query q (q_start q') → query_remaining d t q' = rem → order = pre ++ rem → (length rem < fuel)%nat →
    walk fuel d t q' = Some (answer (ddbItems d) t q rem)) as Hw; [|apply (Hw _ _ []); [by destruct q|done..]].
  intros fuel. induction fuel as [|fuel IH]; intros q' pre rem Hq Hrem Ho Hlen; [lia|]. cbn [walk]. unfold run_query. rewrite Hrem.
  assert (q_index q' = q_index q) as Hi by (by rewrite Hq).
  destruct (query_loop_spec (ddbItems d) t q' rem [] 0 None) as [(n & l & E)|(n & rpre & k & post & it & -> & Hk & E)].
  { by rewrite Hq. }
  - rewrite E. cbn. by rewrite Hq.
  - destruct (Hnext (pre ++ rpre) k post it) as [Hne Hpost]; [by rewrite <- app_assoc|done|]. rewrite E. cbn [mbind option_bind].
    assert (size it =? 0 = false)%nat as -> by (apply Nat.eqb_neq; by intros ?%map_size_empty_inv).
    cbn [LastEvaluatedKey page_items app]. rewrite (IH _ (pre ++ rpre ++ [k]) post).
    + cbn. rewrite Hq at 1. rewrite answer_next, <- answer_app, <- app_assoc. done.
    + by rewrite Hq.
    + rewrite <- Hpost, Hq. done.
    + rewrite Ho. by rewrite <- !app_assoc.
    + rewrite length_app in Hlen. cbn in Hlen. lia.
Qed.
End Query.

(** ** A key condition confines a query to its partition *)

(** The first attribute of a schema is its hash, and its only one. *)
Definition keyed_by (schema : list DDBKeySchemaEntry) (h : string) : Prop :=
  h ≠ "" ∧ ∃ rest, schema = MkKeyEntry h "HASH" :: rest ∧ Forall (λ k, KeyType k ≠ "HASH") rest.

Lemma keyed_by_fold {A} (f : A → DDBKeySchemaEntry → A) rest a :
  (∀ a k, KeyType k ≠ "HASH" → f a k = a) → Forall (λ k, KeyType k ≠ "HASH") rest → foldl f a rest = a.
Proof. intros Hf Hr. induction Hr as [|k rest Hk Hr IH]; [done|]. cbn. by rewrite Hf. Qed.

Lemma keyed_by_attribute schema h : keyed_by schema h → hash_attribute schema = h.
Proof.
  intros (_ & rest & -> & Hr). unfold hash_attribute. cbn [foldl KeyType AttributeName]. change (String.eqb "HASH" "HASH") with true. cbn iota.
  apply keyed_by_fold; [|done]. intros a k Hk. by destruct (String.eqb_spec (KeyType k) "HASH").
Qed.

Lemma keyed_by_parts schema h item : keyed_by schema h → (key_parts schema item).1 = ddbExtractAttrValue (at_key item h).
Proof.
  intros (_ & rest & -> & Hr). unfold key_parts. cbn [foldl]. unfold key_part at 2. cbn [KeyType AttributeName]. change (String.eqb "HASH" "HASH") with true. cbn iota.
  generalize (ddbExtractAttrValue (at_key item h)). cbn [fst snd]. generalize "". induction Hr as [|k rest Hk Hr IH]; intros r v; [done|].
  cbn [foldl]. unfold key_part at 2. destruct (String.eqb_spec (KeyType k) "HASH"); [done|]. cbn [fst snd]. destruct (String.eqb _ "RANGE"); apply IH.
Qed.

(** A value of the key's type that its encoding reads. *)
Definition key_value (ty : string) (v : option any) : Prop := ∃ x, v = Some (typed ty x) ∧ ddbExtractAttrValue (typed ty x) ≠ "".

Lemma key_value_nonempty ty (it : attributes) h : key_value ty (it !! h) → it ≠ ∅.
Proof. intros (x & Hx & _) ->. by rewrite lookup_empty in Hx. Qed.

Section Confined.
Context `{!Unicode}.

(** The condition names the hash attribute exactly, and compares it with a value
    of its type. The source finds the equality with [strings.EqualFold], so it
    confines the read by a condition on another attribute too when the two names
    differ only in case. *)
Definition keyed_condition (h ty : string) (e : ddbCompiledExpr) : Prop :=
  names_hash_exactly e h ∧ ∀ v, ddbEqualityValueFor (node e) h (expr_names e) (expr_values e) = Some v → ∃ y, v = typed ty y.

Lemma accepted_in_partition h ty e it v :
  key_type ty → h ≠ "" → keyed_condition h ty e → key_value ty (it !! h) → accepts (Some e) it = true →
  ddbEqualityValueFor (node e) h (expr_names e) (expr_values e) = Some v → ddbExtractAttrValue v ≠ "" →
  ddbExtractAttrValue (at_key it h) = ddbExtractAttrValue v.
Proof.
  intros Hty Hh [[Hn Hp] Hv] (x & Hx & Nx) Ha Hev Nv. destruct (Hv v Hev) as [y ->].
  assert (cond_eval (MkCtx it true (expr_names e) (expr_values e)) (node e) = Some true) as Hc.
  { unfold accepts, match_ in Ha. by destruct (cond_eval _ _) as [[]|]. }
  destruct (equality_holds (node e) h (expr_names e) (expr_values e) it _ Hn Hp Hh Hev Hc) as (w & Hw & E).
  unfold at_key. rewrite Hw. cbn. rewrite Hx in Hw. injection Hw as <-. apply (equal_keys_encode ty); try done.
  destruct E as [E|E]; [done|by apply equal_keys_sym].
Qed.
End Confined.

Section Answers.
Context {SI : Type} `{!Store SI attributes}.

(** Candidates whose items the key condition rejects can be left out. *)
Lemma answer_filter {A} (items : SI) t q (f : A → string) (P : A → bool) l :
  (∀ x it, x ∈ l → store_get items (f x) = Some it → P x = false → accepts (q_key q) it = false) →
  answer items t q (f <$> filter (λ x, P x = true) l) = answer items t q (f <$> l).
Proof.
  induction l as [|x l IH]; intros Hx; [done|]. cbn [fmap list_fmap]. rewrite (answer_app items t q [f x] (f <$> l) : answer items t q (f x :: (f <$> l)) = _).
  rewrite filter_cons, <- IH by (intros y it ?; apply Hx; by right). destruct (P x) eqn:E.
  - rewrite decide_True by done. apply (answer_app items t q [f x]).
  - rewrite decide_False by done. rewrite answer_one. destruct (store_get items (f x)) as [it|] eqn:Hg; [|done].
    by rewrite (Hx x it (list_elem_of_here _ _) Hg E).
Qed.
End Answers.

(** ** Pages of a query on the table *)

Definition in_direction {A} (q : query) (l : list A) : list A := if q_forward q then l else reverse l.

Lemma elem_of_in_direction {A} q (l : list A) x : x ∈ in_direction q l ↔ x ∈ l.
Proof. unfold in_direction. destruct (q_forward q); [done|apply elem_of_reverse]. Qed.

Lemma in_direction_filter {A} q (P : A → bool) l : in_direction q (filter (λ x, P x = true) l) = filter (λ x, P x = true) (in_direction q l).
Proof. unfold in_direction. destruct (q_forward q); [done|]. symmetry. apply filter_reverse. Qed.

Section Table.
Context {SI SN SE : Type} `{!Store SI attributes, !Store SN string, !Store SE string, !Unicode}.
Context `{!StoreSpec SI attributes, !StoreSpec SN string, !StoreSpec SE string}.
Notation db := (items_db SI SN SE).
Context (ts : gmap string DDBTable) (d : db) (t : DDBTable) (Hinv : db_inv ts d) (Htable : ts !! TableName t = Some t).

Definition table_keys_of : list string := ddbTableSortedKeys d (TableName t +:+ "/").

Lemma table_keys_sorted prefix : StronglySorted slt (ddbTableSortedKeys d prefix).
Proof using Hinv. destruct Hinv as [_ (_ & Hsn & _) _ _ _]. apply (list_prefix_spec (ddbItemNames d) prefix Hsn). Qed.

Lemma table_item k : k ∈ table_keys_of → ∃ it, store_get (ddbItems d) k = Some it ∧ items_of d !! k = Some it ∧ k = ddbItemKey t it.
Proof using Hinv Htable.
  intros Hk. pose proof (proj1 (listed_keys ts d t k Hinv Htable) Hk) as (it & Hi & E). exists it. split_and!; [|done..].
  destruct Hinv as [_ (Hsi & _) _ _ _]. by rewrite (get_spec (ddbItems d) k Hsi).
Qed.

Lemma narrowed_keys s :
  ddbTableSortedKeys d (TableName t +:+ "/" +:+ s) = filter (λ k, HasPrefix k (TableName t +:+ "/" +:+ s) = true) table_keys_of.
Proof using Hinv.
  apply (StronglySorted_elem_unique slt); [apply table_keys_sorted|eapply sublist_StronglySorted; [apply sublist_filter|apply table_keys_sorted]|].
  intros k. unfold table_keys_of, ddbTableSortedKeys. destruct Hinv as [_ (_ & Hsn & _) _ _ _].
  destruct (list_prefix_spec (ddbItemNames d) (TableName t +:+ "/" +:+ s) Hsn) as [_ L1]. destruct (list_prefix_spec (ddbItemNames d) (TableName t +:+ "/") Hsn) as [_ L2].
  rewrite list_elem_of_filter. split.
  - intros ([k' v] & -> & [Hv Hp]%L1)%list_elem_of_fmap. split; [done|]. apply list_elem_of_fmap. exists (k', v). split; [done|]. apply L2. split; [done|].
    apply HasPrefix_spec in Hp as [r ->]. cbn. rewrite !append_assoc_s, <- append_assoc_s. apply HasPrefix_append.
  - intros [Hp ([k' v] & -> & [Hv _]%L2)%list_elem_of_fmap]. apply list_elem_of_fmap. exists (k', v). split; [done|]. by apply L1.
Qed.

(** Every item of the table has a readable hash value of one type. *)
Definition table_hashes (h ty : string) : Prop :=
  ∀ k it, items_of d !! k = Some it → k = ddbItemKey t it → key_value ty (it !! h).

Definition table_candidates (q : query) : list string :=
  match ddbQueryPartitionPrefix t (q_key q) with
  | Some partition => ddbKeysInPartition (ddbTableSortedKeys d partition) partition
  | None => table_keys_of
  end.

(** The candidates are the table's keys, less keys of items that the key condition
    rejects. *)
Lemma table_candidates_filter q h ty :
  key_type ty → keyed_by (KeySchema t) h → table_hashes h ty → (∀ e, q_key q = Some e → keyed_condition h ty e) →
  ∃ P : string → bool, table_candidates q = filter (λ k, P k = true) table_keys_of ∧
    ∀ k it, k ∈ table_keys_of → store_get (ddbItems d) k = Some it → P k = false → accepts (q_key q) it = false.
Proof using Hinv Htable.
  intros Hty Hk Hh Hc. unfold table_candidates, ddbQueryPartitionPrefix.
  assert (∃ P : string → bool, table_keys_of = filter (λ k, P k = true) table_keys_of ∧
    ∀ k it, k ∈ table_keys_of → store_get (ddbItems d) k = Some it → P k = false → accepts (q_key q) it = false) as Hall.
  { exists (λ _, true). split; [|done]. symmetry. apply filter_all. by apply Forall_true. }
  destruct (q_key q) as [e|] eqn:Eq; [|done]. cbn [mbind option_bind]. rewrite (keyed_by_attribute _ h) by done.
  destruct (String.eqb_spec h "") as [->|Nh]; [done|]. destruct (ddbEqualityValueFor _ _ _ _) as [v|] eqn:Ev; [|done]. cbn [mbind option_bind].
  destruct (String.eqb_spec (ddbExtractAttrValue v) "") as [_|Nv]; [done|]. set (hash := ddbExtractAttrValue v) in *.
  exists (λ k, ddbKeyInPartition k (TableName t +:+ "/" +:+ hash)). split.
  - rewrite narrowed_keys, ddbKeysInPartition_filter.
    + rewrite list_filter_filter_l; [done|]. intros k. apply in_partition_prefix.
    + intros k [_ Hin]%list_elem_of_filter. destruct (table_item k Hin) as (it & _ & _ & ->). exists (key_parts (KeySchema t) it).1. split; [apply key_parts_component|apply ddbItemKey_hash].
    + eapply sublist_StronglySorted; [apply sublist_filter|apply table_keys_sorted].
  - intros k it (it' & Hg' & Hi & ->)%table_item Hg HP. assert (it' = it) as -> by congruence. apply not_true_iff_false. intros Ha. apply not_true_iff_false in HP. apply HP.
    apply (ddbKeyInPartition_spec t (key_parts (KeySchema t) it).1 hash); [apply key_parts_component|apply component_extract|apply ddbItemKey_hash|].
    rewrite (keyed_by_parts _ h) by done. apply (accepted_in_partition h ty e it v); auto. by eapply Hh.
Qed.

(** A cursor resumes right after the item it names. *)
Lemma table_resume q h ty pre k post it :
  q_index q = None → keyed_by (KeySchema t) h → table_hashes h ty → items_of d !! k = Some it → k = ddbItemKey t it →
  StronglySorted slt (table_candidates q) → in_direction q (table_candidates q) = pre ++ k :: post →
  query_remaining d t (next_query q (cursor t q it)) = post.
Proof.
  intros Hix Hk Hh Hi -> Hs Ho. unfold query_remaining, cursor. cbn [q_index q_key q_start q_forward next_query]. rewrite Hix.
  fold table_keys_of. fold (table_candidates q). unfold ddbQueryCandidateKeys. rewrite ddbItemKey_extract.
  assert (String.eqb (ddbItemKey t it) (TableName t +:+ "/") = false) as Hne.
  { apply String.eqb_neq. rewrite ddbItemKey_parts, (keyed_by_parts _ h) by done. intros E. destruct (Hh _ _ Hi eq_refl) as (x & Hx & Nx).
    unfold at_key in E. rewrite Hx in E. cbn [default from_option id] in E. rewrite <- (append_nil_s (TableName t +:+ "/")), append_assoc_s in E.
    apply append_inj_l, append_inj_l in E. by destruct (ddbExtractAttrValue (typed ty x)). }
  unfold ddbResumeIndex. rewrite Hne. cbn [orb negb andb]. unfold in_direction in Ho. destruct (q_forward q).
  - rewrite Ho in *. destruct (search_after pre _ post Hs) as [E _]. rewrite E. change (ddbItemKey t it :: post) with ([ddbItemKey t it] ++ post). rewrite app_assoc. apply drop_app_length'. rewrite length_app. cbn. lia.
  - apply (f_equal reverse) in Ho. rewrite reverse_involutive, reverse_app, reverse_cons, <- app_assoc in Ho. cbn [app] in Ho. rewrite Ho in *.
    destruct (search_after (reverse post) _ (reverse pre) Hs) as [_ E]. rewrite E, take_app_length. apply reverse_involutive.
Qed.

Lemma table_walk q h ty :
  q_index q = None → q_start q = ∅ → key_type ty → keyed_by (KeySchema t) h → table_hashes h ty →
  (∀ e, q_key q = Some e → keyed_condition h ty e) → evaluates q →
  ∀ fuel, (length table_keys_of < fuel)%nat → walk fuel d t q = Some (answer (ddbItems d) t q (in_direction q table_keys_of)).
Proof using Hinv Htable.
  intros Hix Hst Hty Hk Hh Hc Hev fuel Hf. destruct (table_candidates_filter q h ty Hty Hk Hh Hc) as (P & HP & Hout).
  assert (StronglySorted slt (table_candidates q)) as Hs by (rewrite HP; eapply sublist_StronglySorted; [apply sublist_filter|apply table_keys_sorted]).
  rewrite (walk_spec d t q (in_direction q (table_candidates q))).
  - f_equal. rewrite HP, in_direction_filter. pose proof (answer_filter (ddbItems d) t q id P (in_direction q table_keys_of)) as Hans.
    rewrite !list_fmap_id in Hans. apply Hans. intros k it Hin%elem_of_in_direction. by apply Hout.
  - unfold query_remaining. rewrite Hix. fold table_keys_of. fold (table_candidates q). unfold ddbQueryCandidateKeys, ddbResumeIndex, in_direction.
    rewrite Hst, ddbItemKey_empty, String.eqb_refl. cbn [orb negb andb]. destruct (q_forward q); [done|by rewrite take_ge by done].
  - done.
  - intros pre k post it Ho Hg. assert (k ∈ table_keys_of) as (it' & Hg' & Hi & E)%table_item.
    { assert (k ∈ in_direction q (table_candidates q)) as Hin by (rewrite Ho; apply elem_of_app; right; left).
      rewrite elem_of_in_direction, HP in Hin. by apply list_elem_of_filter in Hin as [_ ?]. }
    assert (it' = it) as -> by congruence. split; [by eapply key_value_nonempty, (Hh k it)|by eapply (table_resume q h ty pre k post it)].
  - unfold in_direction. rewrite HP. pose proof (length_filter (λ k, P k = true) table_keys_of). destruct (q_forward q); rewrite ?length_reverse; lia.
Qed.

(** ** Pages of a query on an index *)

Definition index_rows (ix : ddbIndex) : list (string * string) :=
  store_list_prefix (ddbIndexEntries d) (ddbIndexPrefix (TableName t) (index_name ix)).

Lemma index_row ix e k :
  ix ∈ ddbIndexes t → (e, k) ∈ index_rows ix ↔ ∃ it, items_of d !! k = Some it ∧ k = ddbItemKey t it ∧ ddbIndexEntryKey t ix it = Some e.
Proof using Hinv Htable.
  intros Hix. destruct Hinv as [Ht (_ & _ & Hse) _ _ He]. destruct (list_prefix_spec (ddbIndexEntries d) (ddbIndexPrefix (TableName t) (index_name ix)) Hse) as [_ L].
  unfold index_rows. rewrite L. fold (entries_of d). rewrite He. destruct (Ht _ _ Htable) as [_ W]. split.
  - intros [(t' & ix' & it & Ht' & Hix' & Hi & E & Hent) [r Hr]%HasPrefix_spec]. exists it. destruct (Ht _ _ Ht') as [_ W'].
    destruct (entry_prefix _ _ _ _ Hent) as [r' Hr']. rewrite Hr' in Hr.
    destruct (index_prefix_cut _ _ _ _ _ _ (table_no_sharp _ W') (table_no_sharp _ W) (index_no_slash _ W' _ Hix') (index_no_slash _ W _ Hix) Hr) as (ET & EI & _).
    assert (t' = t) as -> by (rewrite ET in Ht'; congruence). by rewrite (same_index t ix' ix W Hix' Hix EI) in Hent.
  - intros (it & Hi & E & Hent). split; [by exists t, ix, it|]. destruct (entry_prefix _ _ _ _ Hent) as [r ->]. apply HasPrefix_append.
Qed.

Lemma cursor_lookup ix it n :
  n ∈ map AttributeName (KeySchema t) ++ map AttributeName (index_schema ix) → ddbIndexLastEvaluatedKey t ix it !! n = it !! n.
Proof using.
  intros Hn. unfold ddbIndexLastEvaluatedKey. rewrite extract_lookup.
  - destruct (decide (n ∈ map AttributeName (index_schema ix))) as [|Hout]; [done|]. apply elem_of_app in Hn as [Hn|]; [|done].
    unfold ddbExtractKey. rewrite extract_lookup, decide_True; [done..|by intros m v ?%lookup_empty_Some].
  - intros m v. unfold ddbExtractKey. rewrite extract_lookup by (by intros ? ? ?%lookup_empty_Some). by destruct (decide _).
Qed.

Lemma cursor_entry ix it : ddbIndexEntryKey t ix (ddbIndexLastEvaluatedKey t ix it) = ddbIndexEntryKey t ix it.
Proof using.
  set (c := ddbIndexLastEvaluatedKey t ix it).
  assert (∀ k, k ∈ index_schema ix → at_key c (AttributeName k) = at_key it (AttributeName k)) as H1.
  { intros k Hk. unfold at_key, c. rewrite cursor_lookup; [done|]. apply elem_of_app. right. by apply list_elem_of_In, in_map, list_elem_of_In. }
  assert (∀ k, k ∈ KeySchema t → at_key c (AttributeName k) = at_key it (AttributeName k)) as H2.
  { intros k Hk. unfold at_key, c. rewrite cursor_lookup; [done|]. apply elem_of_app. left. by apply list_elem_of_In, in_map, list_elem_of_In. }
  unfold ddbIndexEntryKey. rewrite (key_parts_ext (index_schema ix) c it H1), !ddbItemKey_parts, (key_parts_ext (KeySchema t) c it H2).
  rewrite (existsb_ext_elem _ (λ k, String.eqb (ddbExtractAttrValue (at_key it (AttributeName k))) "") (index_schema ix)); [done|].
  intros k Hk. by rewrite H1.
Qed.

Definition row_lt (x y : string * string) : Prop := slt x.1 y.1.
#[local] Instance row_lt_strict : StrictOrder row_lt.
Proof using. split; [intros [a b] H1; by apply slt_irrefl in H1|intros [] [] []; unfold row_lt; cbn; intros; by etrans]. Qed.

Lemma index_sorted prefix : StronglySorted row_lt (store_list_prefix (ddbIndexEntries d) prefix).
Proof using Hinv.
  destruct Hinv as [_ (_ & _ & Hse) _ _ _]. destruct (list_prefix_spec (ddbIndexEntries d) prefix Hse) as [Hl _]. by apply StronglySorted_fmap_inv in Hl.
Qed.

Definition index_hashes (ix : ddbIndex) (h ty : string) : Prop :=
  ∀ e k it, (e, k) ∈ index_rows ix → items_of d !! k = Some it → key_value ty (it !! h).

Lemma narrowed_rows ix s :
  store_list_prefix (ddbIndexEntries d) (ddbIndexPrefix (TableName t) (index_name ix) +:+ s) =
  filter (λ row, HasPrefix row.1 (ddbIndexPrefix (TableName t) (index_name ix) +:+ s) = true) (index_rows ix).
Proof using Hinv.
  apply (StronglySorted_elem_unique row_lt); [apply index_sorted|eapply sublist_StronglySorted; [apply sublist_filter|apply index_sorted]|].
  intros [e k]. rewrite list_elem_of_filter. unfold index_rows. destruct Hinv as [_ (_ & _ & Hse) _ _ _].
  rewrite !(proj2 (list_prefix_spec (ddbIndexEntries d) _ Hse)). cbn [fst]. split; [|naive_solver].
  intros [He Hp]. split_and!; [done..|]. apply HasPrefix_spec in Hp as [r ->]. rewrite append_assoc_s. apply HasPrefix_append.
Qed.

Lemma index_candidates_filter q ix h ty :
  ix ∈ ddbIndexes t → key_type ty → keyed_by (index_schema ix) h → index_hashes ix h ty → (∀ e, q_key q = Some e → keyed_condition h ty e) →
  ∃ P : string * string → bool, store_list_prefix (ddbIndexEntries d) (index_query_prefix t ix (q_key q)) = filter (λ row, P row = true) (index_rows ix) ∧
    ∀ row it, row ∈ index_rows ix → store_get (ddbItems d) row.2 = Some it → P row = false → accepts (q_key q) it = false.
Proof using Hinv Htable.
  intros Hix Hty Hk Hh Hc. unfold index_query_prefix.
  assert (∃ P : string * string → bool, index_rows ix = filter (λ row, P row = true) (index_rows ix) ∧
    ∀ row it, row ∈ index_rows ix → store_get (ddbItems d) row.2 = Some it → P row = false → accepts (q_key q) it = false) as Hall.
  { exists (λ _, true). split; [|done]. symmetry. apply filter_all. by apply Forall_true. }
  destruct (q_key q) as [e|] eqn:Eq; [|done]. pose proof Hk as (Nh & rest & Hsch & Hrest). rewrite Hsch. cbn [foldl KeyType AttributeName]. change (String.eqb "HASH" "HASH") with true. cbn [negb].
  rewrite keyed_by_fold; [|intros a k Hkt; by destruct (String.eqb_spec (KeyType k) "HASH")|done].
  destruct (ddbEqualityValueFor _ _ _ _) as [v|] eqn:Ev; [|done]. destruct (String.eqb_spec (ddbExtractAttrValue v) "") as [|Nv]; [done|]. cbn [negb].
  rewrite narrowed_rows. eexists. split; [reflexivity|]. intros [en k] it Hrow Hg HP. cbn [fst snd] in *. apply not_true_iff_false. intros Ha.
  apply not_true_iff_false in HP. apply HP. pose proof (proj1 (index_row ix en k Hix) Hrow) as (it' & Hi & _ & Hent).
  assert (it' = it) as -> by (destruct Hinv as [_ (Hsi & _) _ _ _]; rewrite (get_spec _ _ Hsi) in Hg; unfold items_of in Hi; congruence).
  pose proof (accepted_in_partition h ty e it v Hty Nh (Hc e eq_refl) (Hh _ _ _ Hrow Hi) Ha Ev Nv) as E.
  unfold ddbIndexEntryKey in Hent. destruct (existsb _ _); [done|]. pose proof (keyed_by_parts (index_schema ix) h it Hk) as Hp.
  destruct (key_parts _ it) as [hash rng]. cbn [fst] in Hp. injection Hent as <-. rewrite Hp, E. apply HasPrefix_spec.
  eexists. rewrite !append_assoc_s. reflexivity.
Qed.

Lemma filter_after (P : string * string → bool) pre x post :
  Forall (λ y, P y = false) pre → P x = false → Forall (λ y, P y = true) post → filter (λ y, P y = true) (pre ++ x :: post) = post.
Proof using.
  intros Hpre Hx Hpost. rewrite filter_app, filter_cons, decide_False, filter_none, filter_all; [done|done| |congruence].
  eapply Forall_impl; [exact Hpre|]. intros y E. cbn in E. congruence.
Qed.

Lemma split_sorted (rows pre post : list (string * string)) x :
  StronglySorted row_lt rows → rows = pre ++ x :: post → Forall (λ y, slt y.1 x.1) pre ∧ Forall (λ y, slt x.1 y.1) post.
Proof using.
  intros Hs ->. apply StronglySorted_app in Hs as (Hlt & _ & Hs). apply StronglySorted_cons in Hs as [Hpost _]. split; [|done].
  apply Forall_forall. intros y Hy. apply (Hlt y x Hy). by left.
Qed.

Lemma sltb_above a b : slt a b → sltb b a = false.
Proof using. intros Hlt. apply sltb_false. by right. Qed.

Lemma index_resume q ix h ty pre e k post it :
  q_index q = Some ix → keyed_by (index_schema ix) h → key_value ty (it !! h) → ddbIndexEntryKey t ix it = Some e →
  in_direction q (store_list_prefix (ddbIndexEntries d) (index_query_prefix t ix (q_key q))) = pre ++ (e, k) :: post →
  query_remaining d t (next_query q (cursor t q it)) = post.*2.
Proof using Hinv Htable.
  intros Hix Hk (x & Hx & _) Hent Ho. unfold query_remaining, cursor. cbn [q_index q_key q_start q_forward next_query]. rewrite Hix.
  unfold ddbIndexCandidateKeys. pose proof (index_sorted (index_query_prefix t ix (q_key q))) as Hs. set (rows := store_list_prefix _ _) in *.
  assert (0 <? size (ddbIndexLastEvaluatedKey t ix it) = true)%nat as ->.
  { apply Nat.ltb_lt. destruct (size _) eqn:Es; [|lia]. apply map_size_empty_inv in Es. destruct Hk as (_ & rest & Hsch & _).
    assert (ddbIndexLastEvaluatedKey t ix it !! h = it !! h) as E by (apply cursor_lookup, elem_of_app; right; rewrite Hsch; left).
    rewrite Es, Hx, lookup_empty in E. done. }
  rewrite cursor_entry, Hent. cbn [default from_option id].
  assert (String.eqb e "" = false) as ->. { apply String.eqb_neq. intros ->. apply entry_prefix in Hent as [r Hr]. unfold ddbIndexPrefix in Hr. by destruct (TableName t). }
  cbn [orb]. unfold in_direction in Ho. assert (sltb e e = false) as He by (apply sltb_false; by left). destruct (q_forward q).
  - destruct (split_sorted rows pre post (e, k) Hs Ho) as [Hpre Hpost]. rewrite Ho. f_equal. apply (filter_after (λ row, sltb e row.1)); [|done|].
    + eapply Forall_impl; [exact Hpre|]. intros y. apply sltb_above.
    + eapply Forall_impl; [exact Hpost|]. intros y. apply sltb_slt.
  - rewrite Ho. apply (f_equal reverse) in Ho. rewrite reverse_involutive, reverse_app, reverse_cons, <- app_assoc in Ho. cbn [app] in Ho.
    destruct (split_sorted rows _ _ (e, k) Hs Ho) as [Hpost Hpre]. rewrite Forall_reverse in Hpost, Hpre. f_equal. apply (filter_after (λ row, sltb row.1 e)); [|done|].
    + eapply Forall_impl; [exact Hpre|]. intros y. apply sltb_above.
    + eapply Forall_impl; [exact Hpost|]. intros y. apply sltb_slt.
Qed.

Lemma index_walk q ix h ty :
  q_index q = Some ix → ix ∈ ddbIndexes t → q_start q = ∅ → key_type ty → keyed_by (index_schema ix) h → index_hashes ix h ty →
  (∀ e, q_key q = Some e → keyed_condition h ty e) → evaluates q →
  ∀ fuel, (length (index_rows ix) < fuel)%nat → walk fuel d t q = Some (answer (ddbItems d) t q (in_direction q (index_rows ix)).*2).
Proof using Hinv Htable.
  intros Hq Hix Hst Hty Hk Hh Hc Hev fuel Hf. destruct (index_candidates_filter q ix h ty Hix Hty Hk Hh Hc) as (P & HP & Hout).
  rewrite (walk_spec d t q (in_direction q (store_list_prefix (ddbIndexEntries d) (index_query_prefix t ix (q_key q)))).*2).
  - f_equal. rewrite HP, in_direction_filter. apply (answer_filter (ddbItems d) t q snd P). intros row it Hin%elem_of_in_direction. by apply Hout.
  - unfold query_remaining. rewrite Hq. unfold ddbIndexCandidateKeys, in_direction. rewrite Hst, map_size_empty. cbn [Nat.ltb Nat.leb].
    change (String.eqb "" "") with true. cbn [orb]. destruct (q_forward q); (rewrite filter_all; [done|by apply Forall_true]).
  - done.
  - intros pre k post it (pre' & rest & -> & E2 & Ho)%fmap_app_inv Hg. symmetry in E2. apply fmap_cons_inv in E2 as ([e k'] & post' & -> & -> & ->). cbn [snd] in *.
    assert ((e, k') ∈ index_rows ix) as Hrow.
    { assert ((e, k') ∈ in_direction q (filter (λ row, P row = true) (index_rows ix))) as Hin by (rewrite <- HP, Ho; apply elem_of_app; right; left).
      rewrite elem_of_in_direction in Hin. by apply list_elem_of_filter in Hin as [_ ?]. }
    pose proof (proj1 (index_row ix e k' Hix) Hrow) as (it' & Hi & _ & Hent).
    assert (it' = it) as -> by (destruct Hinv as [_ (Hsi & _) _ _ _]; rewrite (get_spec _ _ Hsi) in Hg; unfold items_of in Hi; congruence).
    split; [by eapply key_value_nonempty, (Hh e k' it)|]. eapply (index_resume q ix h ty); [done..|by eapply Hh|done|exact Ho].
  - rewrite length_fmap. unfold in_direction. rewrite HP. pose proof (length_filter (λ row, P row = true) (index_rows ix)). destruct (q_forward q); rewrite ?length_reverse; lia.
Qed.

(** ** Walking the pages of any query *)

Definition query_schema (q : query) : list DDBKeySchemaEntry := match q_index q with Some ix => index_schema ix | None => KeySchema t end.

(** The item keys a query ranges over, in the order of the table's keys or of the
    index's entries, or in reverse. *)
Definition query_order (q : query) : list string :=
  match q_index q with Some ix => (in_direction q (index_rows ix)).*2 | None => in_direction q table_keys_of end.

Definition on_index (q : query) (it : attributes) : Prop := ∀ ix, q_index q = Some ix → is_Some (ddbIndexEntryKey t ix it).

Lemma in_query_order q k :
  (∀ ix, q_index q = Some ix → ix ∈ ddbIndexes t) →
  k ∈ query_order q ↔ ∃ it, items_of d !! k = Some it ∧ k = ddbItemKey t it ∧ on_index q it.
Proof using Hinv Htable.
  intros Hix. unfold query_order, on_index. destruct (q_index q) as [ix|].
  - specialize (Hix ix eq_refl). rewrite list_elem_of_fmap. setoid_rewrite elem_of_in_direction. split.
    + intros ([e k'] & -> & (it & Hi & E & Hent)%index_row); [|done]. exists it. split_and!; [done..|]. intros ? [= <-]. by eexists.
    + intros (it & Hi & E & Hent). destruct (Hent ix eq_refl) as [e He]. exists (e, k). split; [done|]. apply index_row; eauto.
  - rewrite elem_of_in_direction. unfold table_keys_of. rewrite (listed_keys ts d t k Hinv Htable). naive_solver.
Qed.

Lemma query_order_NoDup q : (∀ ix, q_index q = Some ix → ix ∈ ddbIndexes t) → NoDup (query_order q).
Proof using Hinv Htable.
  intros Hix. assert (∀ {A} (l : list A), NoDup l → NoDup (in_direction q l)) as Hd.
  { intros A l Hl. unfold in_direction. destruct (q_forward q); [done|]. by rewrite reverse_Permutation. }
  unfold query_order. destruct (q_index q) as [ix|].
  - specialize (Hix ix eq_refl). apply NoDup_fmap_2_strong; [|apply Hd, (StronglySorted_NoDup row_lt), index_sorted].
    intros [e k] [e' k'] H1%elem_of_in_direction H2%elem_of_in_direction E. cbn in E. subst k'.
    apply index_row in H1 as (it & Hi & _ & He); [|done]. apply index_row in H2 as (it' & Hi' & _ & He'); [|done]. congruence.
  - apply Hd, (StronglySorted_NoDup slt), table_keys_sorted.
Qed.
End Table.

Section Contract.
Context {SI SN SE : Type} `{!Store SI attributes, !Store SN string, !Store SE string, !Unicode}.
Context `{!StoreSpec SI attributes, !StoreSpec SN string, !StoreSpec SE string}.

(** [C32] Following a query's cursor returns every match once, in order. On a table
    or one of its indexes, forwards or backwards, whatever [Limit] is, reading
    pages until there is no [LastEvaluatedKey] gives exactly the items that
    satisfy the key condition and the filter, each once, in the order of the
    table's keys or of the index's entries; the partition read never leaves a
    match out. The key condition names the hash attribute by a plain path in its
    own letter case and compares it with a value of the key's type, and the items
    read hold a value of that type there; a condition that names the attribute in
    another letter case confines the read wrongly
    ([Ddbcond.case_folded_name_confines_wrongly]). The names map holds only
    aliases that begin with [#]. *)
Theorem queries_return_every_match_once_in_order ts (d : items_db SI SN SE) t q h ty :
  db_inv ts d → ts !! TableName t = Some t → (∀ ix, q_index q = Some ix → ix ∈ ddbIndexes t) → q_start q = ∅ →
  key_type ty → keyed_by (query_schema t q) h → (∀ k it, k ∈ query_order d t q → items_of d !! k = Some it → key_value ty (it !! h)) →
  (∀ e, q_key q = Some e → keyed_condition h ty e) → evaluates q →
  (∀ k, k ∈ query_order d t q ↔ ∃ it, items_of d !! k = Some it ∧ k = ddbItemKey t it ∧ on_index t q it) ∧ NoDup (query_order d t q) ∧
  ∀ fuel, (length (query_order d t q) < fuel)%nat → walk fuel d t q = Some (answer (ddbItems d) t q (query_order d t q)).
Proof.
  intros Hinv Ht Hix Hst Hty Hk Hv Hc Hev. split_and!; [intros k; by eapply in_query_order|by eapply query_order_NoDup|].
  pose proof (λ k, in_query_order ts d t Hinv Ht q k Hix) as Hin. unfold query_order, query_schema in *. destruct (q_index q) as [ix|] eqn:Eq.
  - intros fuel Hf. eapply (index_walk ts d t Hinv Ht q ix h ty); auto.
    + intros e k it Hrow Hi. apply (Hv k it); [|done]. apply list_elem_of_fmap. exists (e, k). split; [done|]. by apply elem_of_in_direction.
    + rewrite length_fmap in Hf. unfold in_direction in Hf. destruct (q_forward q); by rewrite ?length_reverse in Hf.
  - intros fuel Hf. eapply (table_walk ts d t Hinv Ht q h ty); auto.
    + intros k it Hi E. apply (Hv k it); [|done]. apply Hin. exists it. split_and!; [done..|]. unfold on_index. by rewrite Eq.
    + unfold in_direction in Hf. destruct (q_forward q); by rewrite ?length_reverse in Hf.
Qed.
End Contract.

(** ** A concrete query *)

Definition w_items_db : items_db (Z * MemoryStore attributes) (Z * MemoryStore string) (Z * MemoryStore string) :=
  let put p d := let item := {[ "p" := typed "S" p; "g" := typed "N" "7" ]} in ddbPutItem w_table (ddbItemKey w_table item) item d in
  put "b" (put "a" w_db).

(** Backwards over an index, one item a page, filtered by another attribute. *)
Definition w_query : query :=
  MkQuery (Some (MkIndex "byg" [MkKeyEntry "g" "HASH"] None))
    (Some (MkCompiled (CondCompare (OperandPath "g") (OperandValue ":v") "=") ∅ {[ ":v" := typed "N" "7.0" ]}))
    (Some (MkCompiled (CondCompare (OperandPath "p") (OperandValue ":p") ">=") ∅ {[ ":p" := typed "S" "a" ]})) 1 ∅ false.

Lemma w_items_db_inv : db_inv (<[TableName w_table := w_table]> ∅) w_items_db.
Proof.
  apply (history_inv w_db); [split; [|split]; apply NewStateStore_wf|reflexivity..|].
  eapply rtc_l; [apply (step_create ∅ w_db w_table); [done|apply w_table_named]|]. 
  eapply rtc_l; [apply (step_put (<[TableName w_table := w_table]> ∅) w_db w_table {[ "p" := typed "S" "a"; "g" := typed "N" "7" ]}); reflexivity|]. apply rtc_once.
  apply (step_put (<[TableName w_table := w_table]> ∅) _ w_table {[ "p" := typed "S" "b"; "g" := typed "N" "7" ]}). reflexivity.
Qed.

Lemma queries_return_every_match_once_in_order_witness :
  walk (H := ascii_case) 3 w_items_db w_table w_query = Some [ {[ "p" := typed "S" "b"; "g" := typed "N" "7" ]}; {[ "p" := typed "S" "a"; "g" := typed "N" "7" ]} ].
Proof.
  destruct (queries_return_every_match_once_in_order (H := ascii_case) (<[TableName w_table := w_table]> ∅) w_items_db w_table w_query "g" "N") as (_ & _ & Hw).
  - apply w_items_db_inv.
  - reflexivity.
  - intros ix [= <-]. left.
  - reflexivity.
  - by right; left.
  - split; [done|]. by exists [].
  - intros k it Hin Hi.
    assert (query_order w_items_db w_table w_query = ["t/Sb"; "t/Sa"]) as Ho by by vm_compute. rewrite Ho in Hin.
    apply elem_of_cons in Hin as [Hk|[Hk|Hin]%elem_of_cons]; [rewrite Hk in Hi..|destruct (not_elem_of_nil _ Hin)].
    + assert (items_of w_items_db !! "t/Sb" = Some {[ "p" := typed "S" "b"; "g" := typed "N" "7" ]}) as E by by vm_compute.
      rewrite E in Hi. injection Hi as <-. exists "7". split; [by vm_compute|]. by vm_compute.
    + assert (items_of w_items_db !! "t/Sa" = Some {[ "p" := typed "S" "a"; "g" := typed "N" "7" ]}) as E by by vm_compute.
      rewrite E in Hi. injection Hi as <-. exists "7". split; [by vm_compute|]. by vm_compute.
  - intros e [= <-]. split; [split; cbn [node expr_names expr_values]; [by intros a v ?%lookup_empty_Some|]|].
    + intros p [[= ->]|[?|?%elem_of_nil]%elem_of_cons]%elem_of_cons _; [|done..]. by vm_compute.
    + intros v Hv. exists "7.0". vm_compute in Hv. injection Hv as <-. by vm_compute.
  - by split; intros c [= <-].
  - rewrite (Hw 3%nat); [by vm_compute|]. apply (bool_decide_unpack _). by vm_compute.
Defined.

(** ** Where a scan departs from its intention *)

(** The number of segments is cut to 32 bits before it divides, so [2 ^ 32]
    segments divide by zero. *)
Example segment_count_wraps_to_zero : ddbScanSegment "t/Sa" (2 ^ 32) = None ∧ ddbScanSegment "t/Sa" (2 ^ 32 - 1) ≠ None.
Proof. by vm_compute. Qed.
