(* ===== verification/Replicas.v ===== *)
(** * Replica sets: [src/sim/replicas]

    A set keeps a count of replicas of one specification running. Its counts and
    its list of replicas are guarded by one mutex; starting, supervising,
    restarting, replacing and stopping a replica happen on goroutines of their own.
    The critical sections of [replicas.go] are functions on the set, and what the
    goroutines do between them is a transition system whose threads stand where a
    goroutine waits. The file proves that no interleaving loses count of a replica,
    keeps too many, or forgets one it no longer holds; that [Pick] takes turns; and
    what the crash-loop back-off of [backoff.go] computes. Counts are unbounded
    integers: they would need 2 ^ 63 calls to leave their type. *)

From S2P Require Import Prelude Gostd.

(** ** Back-off *)

Definition second : Z := 1000000000.

Fixpoint double_loop (n : nat) (wait : Z) : Z :=
  match n with
  | O => wait
  | S n => let wait := wait * 2 in if 300 * second <=? wait then 300 * second else double_loop n wait
  end.

Definition CrashLoopBackoff (consecutive : Z) : Z := double_loop (Z.to_nat (consecutive - 1)) (10 * second).

(** ** Data *)

Inductive Restart := Always | OnFailure | Never.

Record Spec := MkSpec { Restart_ : Restart; InPlace : bool; Settled : Z }.

(** The groups a workload starts are opaque here; a replica that waits to restart
    has none. [canceled] is its context, [ended] its [done] channel. *)
Section Replicas.
Context {Group : Type}.

Record Replica := MkReplica {
  ID : string;
  created : Z;
  canceled : bool;
  ended : bool;
  group : option Group;
  started : Z;
  restarts_count : Z;
  crashes : Z;
  stopped : bool;
}.

(** A replica is a pointer; the heap holds what it points to. *)
Abbreviation heap := (gmap nat Replica).

Record Set_ := MkSet {
  want : Z;
  replicas : list nat;
  starting : Z;
  next : Z;
  closed : bool;
  set_crashes : Z;
}.

Definition New : Set_ := MkSet 0 [] 0 0 false 0.

Definition held (s : Set_) : Z := Z.of_nat (length (replicas s)).

(** ** Critical sections *)

Definition reserve (s : Set_) : Z * Set_ :=
  let missing := want s - held s - starting s in
  if missing <=? 0 then (0, s)
  else (missing, MkSet (want s) (replicas s) (starting s + missing) (next s) (closed s) (set_crashes s)).

Definition created_at (h : heap) (r : nat) : Z := match h !! r with Some x => created x | None => 0 end.
Definition older (h : heap) (a b : nat) : bool := created_at h a <? created_at h b.

Inductive scale_result :=
| ScaleClosed
| ScalePanics (** a slice bound below zero *)
| Scaled (surplus : list nat) (missing : Z) (s : Set_).

Definition Scale (h : heap) (n : Z) (s : Set_) : scale_result :=
  if closed s then ScaleClosed
  else
    let trim := n <? held s in
    if trim && (n <? 0) then ScalePanics
    else
      let sorted := if trim then SliceStable (older h) (replicas s) else replicas s in
      let surplus := if trim then drop (Z.to_nat n) sorted else [] in
      let kept := if trim then take (Z.to_nat n) sorted else replicas s in
      let '(missing, s) := reserve (MkSet n kept (starting s) (next s) (closed s) (set_crashes s)) in
      Scaled surplus missing s.

(** [None] is [ErrClosed]. *)
Definition Raise (n : Z) (s : Set_) : option (Z * Set_) :=
  if closed s then None
  else if n <=? want s then Some (0, s)
  else Some (reserve (MkSet n (replicas s) (starting s) (next s) (closed s) (set_crashes s))).

Inductive add_result := AddClosed | AddFull | AddStarts (s : Set_).

Definition Add (limit : Z) (s : Set_) : add_result :=
  if closed s then AddClosed
  else if limit <=? want s then AddFull
  else AddStarts (MkSet (want s + 1) (replicas s) (starting s + 1) (next s) (closed s) (set_crashes s)).

(** What a failed [Add] undoes. *)
Definition add_undo (s : Set_) : Set_ := MkSet (want s - 1) (replicas s) (starting s) (next s) (closed s) (set_crashes s).

Definition newReplica (id : string) (g : Group) (started : Z) (ctx_ended : bool) : Replica :=
  MkReplica id started ctx_ended false (Some g) started 0 0 false.

(** [startOne] once its start failed, and once it succeeded. *)
Definition start_failed (s : Set_) : Set_ := MkSet (want s) (replicas s) (starting s - 1) (next s) (closed s) (set_crashes s).

Definition start_done (r : nat) (s : Set_) : bool * Set_ :=
  let keep := negb (closed s) && (held s <? want s) in
  (keep, MkSet (want s) (if keep then replicas s ++ [r] else replicas s) (starting s - 1) (next s) (closed s) (set_crashes s)).

Definition short (s : Set_) : bool := negb (closed s) && (held s + starting s <? want s).

Definition Adopt (r : nat) (s : Set_) : Set_ :=
  let rs := replicas s ++ [r] in
  let n := Z.of_nat (length rs) in
  MkSet (if want s <? n then n else want s) rs (starting s) (next s) (closed s) (set_crashes s).

(** The list without the first occurrence of a replica. *)
Fixpoint drop_replica (r : nat) (l : list nat) : list nat :=
  match l with [] => [] | x :: l => if bool_decide (x = r) then l else x :: drop_replica r l end.

Definition restarts (sp : Spec) (exit_code : Z) : bool :=
  match Restart_ sp with Always => true | OnFailure => negb (exit_code =? 0) | Never => false end.

Definition set_replica_crashes (n : Z) (x : Replica) : Replica :=
  MkReplica (ID x) (created x) (canceled x) (ended x) (group x) (started x) (restarts_count x) n (stopped x).

Definition crashed (sp : Spec) (now : Z) (x : Replica) (s : Set_) : Z * Replica * Set_ :=
  let settled := Settled sp <=? now - started x in
  if InPlace sp then
    let n := (if settled then 0 else crashes x) + 1 in (n, set_replica_crashes n x, s)
  else
    let n := (if settled then 0 else set_crashes s) + 1 in
    (n, x, MkSet (want s) (replicas s) (starting s) (next s) (closed s) n).

Definition set_replicas (rs : list nat) (s : Set_) : Set_ := MkSet (want s) rs (starting s) (next s) (closed s) (set_crashes s).

(** The critical section of [supervise] after an exit of the replica's own:
    whether it restarts, its consecutive exits, the replica and the set. *)
Definition exit_locked (sp : Spec) (exit_code now : Z) (r : nat) (x : Replica) (s : Set_) : bool * Z * Replica * Set_ :=
  let is_held := bool_decide (r ∈ replicas s) in
  let s := if is_held && negb (InPlace sp) then set_replicas (drop_replica r (replicas s)) s else s in
  let restart := is_held && negb (closed s) && restarts sp exit_code in
  let s := if InPlace sp && is_held && negb restart then set_replicas (drop_replica r (replicas s)) s else s in
  let '(n, x, s) := crashed sp now x s in
  (restart, n, x, s).

Definition replace_locked (s : Set_) : bool * Set_ :=
  let wanted := short s in
  (wanted, if wanted then MkSet (want s) (replicas s) (starting s + 1) (next s) (closed s) (set_crashes s) else s).

Definition replace_failed (s : Set_) : Z * Set_ :=
  (set_crashes s + 1, MkSet (want s) (replicas s) (starting s) (next s) (closed s) (set_crashes s + 1)).

Definition end_ (x : Replica) : Replica :=
  MkReplica (ID x) (created x) (canceled x) true (group x) (started x) (restarts_count x) (crashes x) (stopped x).

(** [await] takes the group away and reports whether the set stopped the
    replica. *)
Definition await_done (x : Replica) : bool * Replica :=
  (stopped x, MkReplica (ID x) (created x) (canceled x) (ended x) None (started x) (restarts_count x) (crashes x) (stopped x)).

(** [restartInPlace] once a start succeeded: [None] when the set stopped the
    replica first. *)
Definition restart_done (g : Group) (now : Z) (x : Replica) : option Replica :=
  if stopped x then None
  else Some (MkReplica (ID x) (created x) (canceled x) (ended x) (Some g) now (restarts_count x + 1) (crashes x) (stopped x)).

Definition stop (x : Replica) : Replica :=
  MkReplica (ID x) (created x) true (ended x) (group x) (started x) (restarts_count x) (crashes x) true.

Definition Stop (s : Set_) : list nat * Set_ :=
  (replicas s, MkSet (want s) [] (starting s) (next s) true (set_crashes s)).

Definition Replicas (h : heap) (s : Set_) : list nat := SliceStable (older h) (replicas s).

(** [next] is read modulo the length; the loop runs once per replica. *)
Fixpoint pick_loop (n : nat) (h : heap) (ready : nat → bool) (rs : list nat) (nx : Z) : option (nat * Group) * Z :=
  match n with
  | O => (None, nx)
  | S n =>
      let r := default O (rs !! Z.to_nat (nx mod Z.of_nat (length rs))) in
      match (x ← h !! r; group x), ready r with
      | Some g, true => (Some (r, g), nx + 1)
      | _, _ => pick_loop n h ready rs (nx + 1)
      end
  end.

Definition Pick (h : heap) (ready : nat → bool) (s : Set_) : option (nat * Group) * Set_ :=
  let '(r, nx) := pick_loop (length (replicas s)) h ready (replicas s) (next s) in
  (r, MkSet (want s) (replicas s) (starting s) nx (closed s) (set_crashes s)).

End Replicas.
Arguments Replica : clear implicits.

(** ** Goroutines *)

(** Who asked for a start: [Scale] or [Raise], [Add], or a replacement. *)
Inductive why := ForMissing | ForAdd | ForReplace.

(** Where a goroutine stands: in [Start]; in [Add] between a failed start and its
    undoing; in [replace], backing off or between a failed start and its count;
    about to stop a replica, or to cancel the set and stop every replica [Stop]
    took; supervising a replica, past its exit, or restarting it in place. *)
Inductive thread :=
| Starting (w : why)
| AddFailed
| Replacing (crashes : Z)
| ReplaceFailed
| Stopping (r : nat)
| StopAll (rs : list nat)
| Supervising (r : nat)
| Exiting (r : nat) (exit_code : Z)
| Restarting (r : nat) (crashes : Z).

Section Run.
Context {Group : Type} (sp : Spec).
Abbreviation heap := (gmap nat (Replica Group)).

(** The last three fields record the history and are read by no step: the starts
    of [Scale] and [Raise] that failed and the replicas that exited for good, the
    [Add]s undone, and the replicas adopted by a set already stopped. *)
Record world := MkWorld {
  the_set : Set_;
  objects : heap;
  threads : list thread;
  set_canceled : bool;
  lost : Z;
  undone : Z;
  late : list nat;
}.

Definition init : world := MkWorld New ∅ [] false 0 0 [].

(** One step of one goroutine or one call of the interface. *)
Inductive step : world → world → Prop :=
| step_Scale s h ts c l u a n surplus missing s' :
    Scale h n s = Scaled surplus missing s' →
    step (MkWorld s h ts c l u a)
         (MkWorld s' h (map Stopping surplus ++ replicate (Z.to_nat missing) (Starting ForMissing) ++ ts) c l u a)
| step_Raise s h ts c l u a n missing s' :
    Raise n s = Some (missing, s') →
    step (MkWorld s h ts c l u a) (MkWorld s' h (replicate (Z.to_nat missing) (Starting ForMissing) ++ ts) c l u a)
| step_Add s h ts c l u a limit s' :
    Add limit s = AddStarts s' → step (MkWorld s h ts c l u a) (MkWorld s' h (Starting ForAdd :: ts) c l u a)
| step_started s h ts c l u a w rest r id g now :
    ts ≡ₚ Starting w :: rest → h !! r = None →
    step (MkWorld s h ts c l u a)
         (MkWorld (start_done r s).2 (<[r := newReplica id g now c]> h)
            (Supervising r :: (if (start_done r s).1 then [] else [Stopping r]) ++ rest) c l u a)
| step_start_failed s h ts c l u a w rest :
    ts ≡ₚ Starting w :: rest →
    step (MkWorld s h ts c l u a)
         (MkWorld (start_failed s) h
            (match w with ForMissing => [] | ForAdd => [AddFailed] | ForReplace => [ReplaceFailed] end ++ rest)
            c (l + match w with ForMissing => 1 | _ => 0 end) u a)
| step_add_undo s h ts c l u a rest :
    ts ≡ₚ AddFailed :: rest → step (MkWorld s h ts c l u a) (MkWorld (add_undo s) h rest c l (u + 1) a)
| step_replace_again s h ts c l u a rest :
    ts ≡ₚ ReplaceFailed :: rest →
    step (MkWorld s h ts c l u a) (MkWorld (replace_failed s).2 h (Replacing (replace_failed s).1 :: rest) c l u a)
| step_replace s h ts c l u a n rest :
    ts ≡ₚ Replacing n :: rest →
    step (MkWorld s h ts c l u a)
         (MkWorld (replace_locked s).2 h ((if (replace_locked s).1 then [Starting ForReplace] else []) ++ rest) c l u a)
| step_replace_canceled s h ts l u a n rest :
    ts ≡ₚ Replacing n :: rest → step (MkWorld s h ts true l u a) (MkWorld s h rest true l u a)
| step_stop s h ts c l u a r x rest :
    ts ≡ₚ Stopping r :: rest → h !! r = Some x → step (MkWorld s h ts c l u a) (MkWorld s (<[r := stop x]> h) rest c l u a)
| step_exit_stopped s h ts c l u a r x rest :
    ts ≡ₚ Supervising r :: rest → h !! r = Some x → (await_done x).1 = true →
    step (MkWorld s h ts c l u a) (MkWorld s (<[r := end_ (await_done x).2]> h) rest c l u a)
| step_exit s h ts c l u a r x code rest :
    ts ≡ₚ Supervising r :: rest → h !! r = Some x → (await_done x).1 = false →
    step (MkWorld s h ts c l u a) (MkWorld s (<[r := (await_done x).2]> h) (Exiting r code :: rest) c l u a)
| step_exit_locked s h ts c l u a r x code now restart n x' s' rest :
    ts ≡ₚ Exiting r code :: rest → h !! r = Some x → exit_locked sp code now r x s = (restart, n, x', s') →
    step (MkWorld s h ts c l u a)
         (MkWorld s' (<[r := if restart && InPlace sp then x' else end_ x']> h)
            ((if restart then [if InPlace sp then Restarting r n else Replacing n] else []) ++ rest)
            c (l + b2z (bool_decide (r ∈ replicas s) && negb (closed s) && negb restart)) u a)
| step_restarted s h ts c l u a r x n g now rest :
    ts ≡ₚ Restarting r n :: rest → h !! r = Some x →
    step (MkWorld s h ts c l u a)
         (match restart_done g now x with
          | Some x' => MkWorld s (<[r := x']> h) (Supervising r :: rest) c l u a
          | None => MkWorld s (<[r := end_ x]> h) rest c l u a
          end)
| step_restart_failed s h ts c l u a r x n rest :
    ts ≡ₚ Restarting r n :: rest → h !! r = Some x →
    step (MkWorld s h ts c l u a)
         (MkWorld s (<[r := set_replica_crashes (crashes x + 1) x]> h) (Restarting r (crashes x + 1) :: rest) c l u a)
| step_restart_canceled s h ts c l u a r x n rest :
    ts ≡ₚ Restarting r n :: rest → h !! r = Some x → canceled x || c = true →
    step (MkWorld s h ts c l u a) (MkWorld s (<[r := end_ x]> h) rest c l u a)
| step_Adopt s h ts c l u a r id g started :
    h !! r = None →
    step (MkWorld s h ts c l u a)
         (MkWorld (Adopt r s) (<[r := newReplica id g started c]> h) (Supervising r :: ts) c l u (if closed s then r :: a else a))
| step_Pick s h ts c l u a ready :
    step (MkWorld s h ts c l u a) (MkWorld (Pick h ready s).2 h ts c l u a)
| step_Stop s h ts c l u a :
    step (MkWorld s h ts c l u a) (MkWorld (Stop s).2 h (StopAll (Stop s).1 :: ts) c l u a)
| step_cancel s h ts c l u a rs rest :
    ts ≡ₚ StopAll rs :: rest → step (MkWorld s h ts c l u a) (MkWorld s h (map Stopping rs ++ rest) true l u a).

(** ** Counting threads *)

Definition countb (p : thread → bool) (ts : list thread) : Z := Z.of_nat (length (filter (λ t, p t = true) ts)).

Lemma countb_perm p ts ts' : ts ≡ₚ ts' → countb p ts = countb p ts'.
Proof. intros E. unfold countb. by rewrite E. Qed.

Lemma countb_cons p t ts : countb p (t :: ts) = b2z (p t) + countb p ts.
Proof. unfold countb, b2z. rewrite filter_cons. destruct (p t); [rewrite decide_True by done|rewrite decide_False by done]; cbn; lia. Qed.

Lemma countb_app p ts ts' : countb p (ts ++ ts') = countb p ts + countb p ts'.
Proof. unfold countb. rewrite filter_app, length_app. lia. Qed.

Lemma countb_replicate p n t : countb p (replicate n t) = Z.of_nat n * b2z (p t).
Proof. induction n as [|n IH]; [done|]. cbn [replicate]. rewrite countb_cons, IH. lia. Qed.

Lemma countb_map {A} p (f : A → thread) l : (∀ x, p (f x) = false) → countb p (map f l) = 0.
Proof. intros Hp. induction l as [|x l IH]; [done|]. cbn [map]. rewrite countb_cons, IH, Hp. done. Qed.

Lemma countb_nonneg p ts : 0 ≤ countb p ts.
Proof. unfold countb. lia. Qed.

Lemma countb_zero p ts : countb p ts = 0 ↔ ∀ t, t ∈ ts → p t = false.
Proof.
  induction ts as [|t ts IH]; [split; [by intros _ ? ?%elem_of_nil|done]|]. rewrite countb_cons. pose proof (countb_nonneg p ts). split.
  - intros E t' [->|Hin]%elem_of_cons; [destruct (p t); [cbn in E; lia|done]|]. apply IH; [destruct (p t); cbn in E; lia|done].
  - intros Hall. rewrite (Hall t (list_elem_of_here _ _)). cbn. apply IH. intros t' ?. apply Hall. by right.
Qed.

(** ** Counts *)

Definition is_start (t : thread) : bool := match t with Starting _ => true | _ => false end.
(** A goroutine that will start a replica or give up its place. *)
Definition is_pending (t : thread) : bool := match t with AddFailed | Replacing _ | ReplaceFailed => true | _ => false end.

Definition is_stop_all (t : thread) : bool := match t with StopAll _ => true | _ => false end.

Record counts_inv (w : world) : Prop := {
  starting_counts : starting (the_set w) = countb is_start (threads w);
  none_forgotten : closed (the_set w) = false →
    want (the_set w) ≤ held (the_set w) + starting (the_set w) + countb is_pending (threads w) + lost w;
  none_beyond : held (the_set w) ≤ Z.max (want (the_set w)) 0 + undone w;
  histories : 0 ≤ lost w ∧ 0 ≤ undone w;
  canceled_closed : set_canceled w = true ∨ 0 < countb is_stop_all (threads w) → closed (the_set w) = true;
}.

Lemma drop_replica_perm r l : r ∈ l → l ≡ₚ r :: drop_replica r l.
Proof.
  induction l as [|x l IH]; [by intros ?%elem_of_nil|]. cbn [drop_replica]. intros Hin. case_bool_decide as E; [by subst|].
  apply elem_of_cons in Hin as [->|Hin]; [done|]. etrans; [by apply perm_skip, IH|]. apply perm_swap.
Qed.

Lemma held_drop r l : r ∈ l → Z.of_nat (length (drop_replica r l)) = Z.of_nat (length l) - 1.
Proof. intros Hin%drop_replica_perm. apply Permutation_length in Hin. cbn in Hin. lia. Qed.

Lemma reserve_spec s missing s' :
  reserve s = (missing, s') → 0 ≤ missing ∧ want s' = want s ∧ replicas s' = replicas s ∧ starting s' = starting s + missing ∧
    closed s' = closed s ∧ want s ≤ held s + starting s'.
Proof. unfold reserve. destruct (Z.leb_spec (want s - held s - starting s) 0); intros [= <- <-]; cbn; split_and!; lia || done. Qed.

Lemma Scale_spec (h : heap) n s surplus missing s' :
  Scale h n s = Scaled surplus missing s' →
  closed s = false ∧ closed s' = false ∧ want s' = n ∧ 0 ≤ missing ∧ starting s' = starting s + missing ∧ n ≤ held s' + starting s' ∧
    held s' ≤ Z.max n 0 ∧ replicas s ≡ₚ replicas s' ++ surplus ∧ (n < 0 → replicas s = []).
Proof.
  unfold Scale. destruct (closed s) eqn:Ec; [done|]. destruct (Z.ltb_spec n (held s)) as [Ht|Ht]; cbn [andb].
  - destruct (Z.ltb_spec n 0); [done|]. destruct (reserve _) as [m s1] eqn:Er. apply reserve_spec in Er as (? & Ew & Ers & ? & Ecl & ?). intros [= <- <- <-].
    unfold held in *. cbn in Ew, Ers, Ecl. cbn [want replicas starting] in *. rewrite Ers, Ew, Ecl. rewrite length_take, (Permutation_length (SliceStable_perm _ _)) in *.
    split_and!; try done; try lia. rewrite take_drop. symmetry. apply SliceStable_perm.
  - destruct (reserve _) as [m s1] eqn:Er. apply reserve_spec in Er as (? & Ew & Ers & ? & Ecl & ?). intros [= <- <- <-].
    unfold held in *. cbn in Ew, Ers, Ecl. cbn [want replicas starting] in *. rewrite Ers, Ew, Ecl. split_and!; try done; try lia. by rewrite app_nil_r.
Qed.

Lemma exit_locked_spec code now r (x : Replica Group) s restart n x' s' :
  exit_locked sp code now r x s = (restart, n, x', s') →
  want s' = want s ∧ starting s' = starting s ∧ closed s' = closed s ∧ ended x' = ended x ∧ stopped x' = stopped x ∧ canceled x' = canceled x ∧
    (restart = true → r ∈ replicas s ∧ closed s = false) ∧
    replicas s' = if bool_decide (r ∈ replicas s) && negb (restart && InPlace sp) then drop_replica r (replicas s) else replicas s.
Proof.
  unfold exit_locked, crashed. case_bool_decide as Hr; destruct (InPlace sp) eqn:Ei; cbn; destruct (closed s) eqn:Ec; cbn; destruct (restarts sp code) eqn:Ers; cbn;
    intros [= <- <- <- <-]; cbn; rewrite ?Ec; split_and!; naive_solver.
Qed.

Ltac count_threads :=
  repeat match goal with
  | E : _ ≡ₚ _ |- _ => rewrite ?(countb_perm is_start _ _ E), ?(countb_perm is_pending _ _ E), ?(countb_perm is_stop_all _ _ E) in *; clear E
  end;
  cbn [the_set threads lost undone set_canceled want replicas starting closed fst snd negb andb app] in *;
  rewrite ?countb_app, ?countb_replicate, ?countb_cons in *; cbn [b2z is_start is_pending is_stop_all want replicas starting closed fst snd negb andb] in *;
  rewrite ?(countb_map is_start Stopping) in * by done; rewrite ?(countb_map is_pending Stopping) in * by done; rewrite ?(countb_map is_stop_all Stopping) in * by done.

Ltac counted :=
  split; count_threads; unfold held in *; cbn [want replicas starting closed] in *; rewrite ?length_app in *; cbn [length] in *;
  repeat match goal with
  | |- context [countb ?p ?ts] => assert_fails (assert (0 ≤ countb p ts) by assumption); pose proof (countb_nonneg p ts)
  | _ : context [countb ?p ?ts] |- _ => assert_fails (assert (0 ≤ countb p ts) by assumption); pose proof (countb_nonneg p ts)
  end;
  try split; intros; destruct_or?; repeat match goal with Hf : ?b = false → _, Hp : ?b = false |- _ => specialize (Hf Hp) end; try lia; try congruence;
  try (match goal with Hc : _ ∨ _ → ?b = true |- _ => assert (b = true) by (apply Hc; first [by left|right; lia]); first [done|congruence] end).

Lemma Raise_spec n s missing s' :
  Raise n s = Some (missing, s') →
  0 ≤ missing ∧ want s ≤ want s' ∧ replicas s' = replicas s ∧ starting s' = starting s + missing ∧ closed s' = closed s ∧
    (s' = s ∨ want s' ≤ held s + starting s').
Proof.
  unfold Raise. destruct (closed s) eqn:Ec; [done|]. destruct (Z.leb_spec n (want s)); [intros [= <- <-]; split_and!; lia || auto|].
  intros [= E]. apply reserve_spec in E as (? & Ew & ? & ? & Ecl & ?). unfold held in *. cbn in *. rewrite Ew, Ecl. split_and!; try lia; done.
Qed.

Lemma counts_step w w' : counts_inv w → step w w' → counts_inv w'.
Proof.
  intros [Is If Ib [Il Iu] Ic] Hstep. destruct Hstep as
    [s h ts c l u a n surplus missing s' E|s h ts c l u a n missing s' E|s h ts c l u a limit s' E|s h ts c l u a y rest r id g now E _
    |s h ts c l u a y rest E|s h ts c l u a rest E|s h ts c l u a rest E|s h ts c l u a n rest E|s h ts l u a n rest E|s h ts c l u a r x rest E _
    |s h ts c l u a r x rest E _ _|s h ts c l u a r x code rest E _ _|s h ts c l u a r x code now restart n x' s' rest E _ Ex|s h ts c l u a r x n g now rest E _
    |s h ts c l u a r x n rest E _|s h ts c l u a r x n rest E _ _|s h ts c l u a r id g t0 _|s h ts c l u a ready|s h ts c l u a|s h ts c l u a rs rest E];
    cbn [the_set threads lost undone set_canceled] in *.
  - apply Scale_spec in E as (? & ? & ? & ? & ? & ? & ? & Hp & ?). counted.
  - apply Raise_spec in E as (? & ? & Er & ? & Ec & [->|?]); [|unfold held in *; rewrite <- Er, <- Ec in *]; counted.
  - unfold Add in E. destruct (closed s) eqn:Ec; [done|]. destruct (limit <=? want s); [done|]. injection E as <-. counted.
  - unfold start_done in *. destruct (closed s) eqn:Ec, (Z.ltb_spec (held s) (want s)); counted.
  - destruct y; unfold start_failed; counted.
  - unfold add_undo. counted.
  - unfold replace_failed. counted.
  - unfold replace_locked, short in *. destruct (closed s) eqn:Ec, (Z.ltb_spec (held s + starting s) (want s)); counted.
  - counted.
  - counted.
  - counted.
  - counted.
  - apply exit_locked_spec in Ex as (Ew & Es & Ecl & _ & _ & _ & Hr & Er). unfold held in *.
    assert (Z.of_nat (length (replicas s')) = Z.of_nat (length (replicas s)) - b2z (bool_decide (r ∈ replicas s) && negb (restart && InPlace sp))) as El.
    { rewrite Er. case_bool_decide; cbn [andb]; [|cbn; lia]. destruct (negb _); [|cbn; lia]. by rewrite held_drop. }
    destruct restart, (InPlace sp), (closed s) eqn:Ec; case_bool_decide; try (destruct (Hr eq_refl); done); cbn [andb negb b2z] in *; counted.
  - destruct (restart_done g now x); counted.
  - counted.
  - counted.
  - unfold Adopt. destruct (Z.ltb_spec (want s) (Z.of_nat (length (replicas s ++ [r])))); counted.
  - unfold Pick. destruct (pick_loop _ _ _ _ _). counted.
  - unfold Stop. counted.
  - counted.
Qed.

(** ** Watching and stopping *)

Definition watches (r : nat) (t : thread) : bool :=
  match t with Supervising r' | Exiting r' _ | Restarting r' _ => bool_decide (r = r') | _ => false end.
Definition stops (r : nat) (t : thread) : bool :=
  match t with Stopping r' => bool_decide (r = r') | StopAll rs => bool_decide (r ∈ rs) | _ => false end.
Definition redoes (r : nat) (t : thread) : bool := match t with Restarting r' _ => bool_decide (r = r') | _ => false end.

(** What holds of one replica: it has one supervisor until it has ended; the set
    holds it, live and with no stop under way; or it has ended, was stopped, or
    someone is about to stop it. *)
Definition ok_at (cl member : bool) (o : option (Replica Group)) (watching stopping redoing : Z) : Prop :=
  match o with
  | None => member = false ∧ watching = 0 ∧ stopping = 0 ∧ redoing = 0
  | Some x =>
      watching = b2z (negb (ended x)) ∧
      if member
      then ended x = false ∧ stopped x = false ∧ stopping = 0 ∧ (cl = true → redoing = 0) ∧ (canceled x = true → cl = true)
      else ended x = true ∨ stopped x = true ∨ 0 < stopping
  end.

Definition ok_replica (w : world) (r : nat) : Prop :=
  ok_at (closed (the_set w)) (bool_decide (r ∈ replicas (the_set w))) (objects w !! r)
    (countb (watches r) (threads w)) (countb (stops r) (threads w)) (countb (redoes r) (threads w)).

Record replicas_inv (w : world) : Prop := {
  distinct : NoDup (replicas (the_set w));
  each_ok : ∀ r, ok_replica w r;
  late_only : closed (the_set w) = true → ∀ r, r ∈ replicas (the_set w) → r ∈ late w;
}.

Lemma countb_Stopping r l : countb (stops r) (map Stopping l) = 0 ↔ r ∉ l.
Proof.
  rewrite countb_zero. split.
  - intros Hall Hin. assert (stops r (Stopping r) = false) as E by (apply Hall, list_elem_of_fmap; eauto). cbn in E. by rewrite bool_decide_true in E.
  - intros Hout t (r' & -> & Hin)%list_elem_of_fmap. cbn. apply bool_decide_false. by intros ->.
Qed.

Lemma elem_of_drop_replica r l x : NoDup l → x ∈ drop_replica r l ↔ x ∈ l ∧ x ≠ r.
Proof.
  induction l as [|y l IH]; [cbn; set_solver|]. intros [Hy Hl]%NoDup_cons. cbn [drop_replica]. case_bool_decide as E; [subst; set_solver|].
  rewrite !elem_of_cons, IH by done. naive_solver.
Qed.

Lemma drop_replica_NoDup r l : NoDup l → NoDup (drop_replica r l).
Proof.
  intros Hl. destruct (decide (r ∈ l)) as [Hin|Hout]; [pose proof (drop_replica_perm r l Hin) as E; rewrite E in Hl; by apply NoDup_cons in Hl as [_ ?]|].
  assert (drop_replica r l = l) as ->; [|done]. clear Hl. induction l as [|x l IH]; [done|]. apply not_elem_of_cons in Hout as [? ?]. cbn. rewrite bool_decide_false by done. by rewrite IH.
Qed.

Ltac count_at r :=
  repeat match goal with
  | E : _ ≡ₚ _ :: _ |- _ => rewrite ?(countb_perm (watches r) _ _ E), ?(countb_perm (stops r) _ _ E), ?(countb_perm (redoes r) _ _ E) in *; clear E
  end;
  rewrite ?countb_app, ?countb_replicate, ?countb_cons in *; cbn [watches stops redoes b2z] in *;
  rewrite ?(countb_map (watches r) Stopping) in * by done; rewrite ?(countb_map (redoes r) Stopping) in * by done; rewrite ?Z.mul_0_r, ?Z.add_0_l in *.

Ltac nonneg_counts :=
  repeat match goal with
  | |- context [countb ?p ?ts] => assert_fails (assert (0 ≤ countb p ts) by assumption); pose proof (countb_nonneg p ts)
  | _ : context [countb ?p ?ts] |- _ => assert_fails (assert (0 ≤ countb p ts) by assumption); pose proof (countb_nonneg p ts)
  end.

(** A step that leaves the list of held replicas and the closed flag alone. *)
Lemma ok_same (s s' : Set_) (h h' : heap) ts ts' c c' l l' u u' a a' :
  replicas s' = replicas s → closed s' = closed s → a' = a →
  (∀ r, ok_replica (MkWorld s h ts c l u a) r → ok_replica (MkWorld s' h' ts' c' l' u' a') r) →
  replicas_inv (MkWorld s h ts c l u a) → replicas_inv (MkWorld s' h' ts' c' l' u' a').
Proof. intros Er Ec -> Hok [D O L]. split; cbn in *; rewrite ?Er, ?Ec; auto. Qed.

Ltac at_replica r0 r :=
  destruct (decide (r0 = r)) as [->|?];
  [rewrite ?lookup_insert_eq, ?(bool_decide_true (r = r)) in * by done|rewrite ?lookup_insert_ne, ?(bool_decide_false (r0 = r)) in * by done]; cbn [b2z] in *.

Ltac settle :=
  nonneg_counts; repeat match goal with |- context [if ?b then _ else _] => destruct b eqn:? end; intros; destruct_and?;
  try match goal with x : Replica _ |- _ => destruct (ended x) eqn:? end; cbn in *;
  split_and?; intros; destruct_or?; repeat match goal with Hf : ?b = true → _, Hp : ?b = true |- _ => specialize (Hf Hp) end;
  try done; try congruence; try lia; auto with lia.

Lemma replicas_step w w' : counts_inv w → replicas_inv w → step w w' → replicas_inv w'.
Proof.
  intros [_ _ _ _ Ic] HI Hstep. destruct Hstep as
    [s h ts c l u a n surplus missing s' E|s h ts c l u a n missing s' E|s h ts c l u a limit s' E|s h ts c l u a y rest r id g now E Hr
    |s h ts c l u a y rest E|s h ts c l u a rest E|s h ts c l u a rest E|s h ts c l u a n rest E|s h ts l u a n rest E|s h ts c l u a r x rest E Hr
    |s h ts c l u a r x rest E Hr Ha|s h ts c l u a r x code rest E Hr Ha|s h ts c l u a r x code now restart n x' s' rest E Hr Ex|s h ts c l u a r x n g now rest E Hr
    |s h ts c l u a r x n rest E Hr|s h ts c l u a r x n rest E Hr Hcan|s h ts c l u a r id g t0 Hr|s h ts c l u a ready|s h ts c l u a|s h ts c l u a rs rest E];
    cbn [the_set threads lost undone set_canceled] in *.
  - apply Scale_spec in E as (Ec & Ec' & _ & _ & _ & _ & _ & Hp & _). destruct HI as [D O L]. cbn in *. rewrite Hp in D. apply NoDup_app in D as (D1 & D2 & _).
    split; cbn; [done| |congruence]. intros r0. specialize (O r0). unfold ok_replica in *. cbn in *. count_at r0. rewrite Ec in O. rewrite Ec'. pose proof (countb_Stopping r0 surplus) as Hz.
    pose proof (countb_nonneg (stops r0) (map Stopping surplus)). rewrite (bool_decide_ext _ (r0 ∈ replicas s' ++ surplus)) in O by (by rewrite Hp).
    destruct (decide (r0 ∈ surplus)) as [Hin|Hout].
    + rewrite bool_decide_true in O by (apply elem_of_app; by right). rewrite bool_decide_false by (intros ?; by apply (D2 r0)).
      assert (0 < countb (stops r0) (map Stopping surplus)) by (destruct (decide (countb (stops r0) (map Stopping surplus) = 0)) as [Z0|]; [by apply Hz in Z0|lia]).
      unfold ok_at in *. destruct (h !! r0); [settle|by destruct O].
    + rewrite (proj2 Hz Hout). rewrite (bool_decide_ext _ (r0 ∈ replicas s')) in O by (rewrite elem_of_app; naive_solver). done.
  - apply Raise_spec in E as (_ & _ & Er & _ & Ec & _). revert HI. apply ok_same; [done..|]. intros r0. unfold ok_replica. cbn. rewrite Er, Ec. by count_at r0.
  - unfold Add in E. destruct (closed s) eqn:Ec; [done|]. destruct (limit <=? want s); [done|]. injection E as <-. revert HI. apply ok_same; [done..|].
    intros r0. unfold ok_replica. cbn. rewrite Ec. by count_at r0.
  - destruct HI as [D O L]. assert (r ∉ replicas s) as Hout by (intros Hin; specialize (O r); unfold ok_replica in O; cbn in O; rewrite Hr, bool_decide_true in O by done; by destruct O).
    unfold start_done in *. cbn [fst snd]. set (keep := negb (closed s) && (held s <? want s)) in *.
    assert (keep = true → closed s = false) as Hk by (subst keep; by destruct (closed s)). split; cbn.
    + destruct keep; [|done]. apply NoDup_app. split_and!; [done|by intros y' Hy ?%list_elem_of_singleton; subst|apply NoDup_singleton].
    + intros r0. specialize (O r0). unfold ok_replica in *. cbn in *. count_at r0. destruct (decide (r0 = r)) as [->|N].
      * rewrite Hr in O. rewrite lookup_insert_eq. destruct O as (_ & Ow & Os & Ore). unfold ok_at. cbn. rewrite (bool_decide_true (r = r)) by done. cbn [b2z].
        destruct keep; [rewrite bool_decide_true by set_solver|rewrite bool_decide_false by done]; cbn [app]; count_at r; rewrite ?(bool_decide_true (r = r)) by done; cbn [b2z]; split_and!; try lia; try done.
        intros ->. apply Ic. by left.
      * rewrite lookup_insert_ne, (bool_decide_false (r0 = r)) by done. cbn [b2z]. rewrite Z.add_0_l.
        destruct keep; [rewrite (bool_decide_ext _ (r0 ∈ replicas s)) by set_solver|]; cbn [app]; count_at r0; rewrite ?(bool_decide_false (r0 = r)) by done; cbn [b2z]; by rewrite ?Z.add_0_l.
    + intros Hc. destruct keep; [rewrite Hk in Hc; done|]. auto.
  - revert HI. apply ok_same; [done..|]. intros r0. unfold ok_replica. cbn. destruct y; cbn [app]; by count_at r0.
  - revert HI. apply ok_same; [done..|]. intros r0. unfold ok_replica. cbn. by count_at r0.
  - revert HI. apply ok_same; [done..|]. intros r0. unfold ok_replica. cbn. by count_at r0.
  - unfold replace_locked. destruct (short s); revert HI; (apply ok_same; [done..|]); intros r0; unfold ok_replica; cbn; by count_at r0.
  - revert HI. apply ok_same; [done..|]. intros r0. unfold ok_replica. cbn. by count_at r0.
  - revert HI. apply ok_same; [done..|]. intros r0. unfold ok_replica. cbn. count_at r0. at_replica r0 r; [rewrite Hr|done]. unfold ok_at. cbn. settle.
  - revert HI. apply ok_same; [done..|]. intros r0. unfold ok_replica. cbn. count_at r0. at_replica r0 r; [rewrite Hr|done]. unfold ok_at. cbn in *. settle.
  - revert HI. apply ok_same; [done..|]. intros r0. unfold ok_replica. cbn. count_at r0. at_replica r0 r; [rewrite Hr|done]. unfold ok_at. cbn in *. settle.
  - destruct HI as [D O L]. apply exit_locked_spec in Ex as (_ & _ & Ec & Een & Est & Eca & Hre & Ers). cbn in *. split; cbn; rewrite ?Ec, ?Ers.
    + destruct (_ && _); [by apply drop_replica_NoDup|done].
    + intros r0. specialize (O r0). unfold ok_replica in *. cbn in *. rewrite Ec, Ers.
      assert (r0 ∈ (if bool_decide (r ∈ replicas s) && negb (restart && InPlace sp) then drop_replica r (replicas s) else replicas s) ↔
        r0 ∈ replicas s ∧ (r0 = r → restart && InPlace sp = true)) as Hm.
      { case_bool_decide; cbn [andb]; [destruct (restart && InPlace sp); cbn [negb]; [naive_solver|rewrite elem_of_drop_replica by done; naive_solver]|naive_solver]. }
      rewrite (bool_decide_ext _ _ Hm). count_at r0. at_replica r0 r.
      * rewrite Hr in O. destruct (restart && InPlace sp) eqn:Eri.
        -- apply andb_true_iff in Eri as [-> Eip]. rewrite Eip. destruct (Hre eq_refl) as [Hin Hcl]. cbn [app]. count_at r. rewrite (bool_decide_true (r = r)) by done. cbn [b2z].
           rewrite bool_decide_true in O |- * by done. unfold ok_at in *. rewrite Een, Est, Eca, Hcl in *. settle.
        -- rewrite (bool_decide_false (r ∈ replicas s ∧ _)) by naive_solver. unfold ok_at. cbn.
           assert (1 + countb (watches r) rest = 1) by (unfold ok_at in O; destruct O as [O _]; pose proof (countb_nonneg (watches r) rest); destruct (ended x); cbn in O; lia).
           destruct restart, (InPlace sp); try done; cbn [app]; count_at r; (split; [lia|by left]).
      * rewrite (bool_decide_ext _ (r0 ∈ replicas s)) by naive_solver. destruct restart, (InPlace sp); cbn [app]; count_at r0; rewrite ?(bool_decide_false (r0 = r)) by done; cbn [b2z]; by rewrite ?Z.add_0_l.
    + intros Hc r0 Hin. apply L; [done|]. destruct (_ && _); [|done]. by apply elem_of_drop_replica in Hin as [? _].
  - unfold restart_done. destruct (stopped x) eqn:Es; revert HI; (apply ok_same; [done..|]); intros r0; unfold ok_replica; cbn; count_at r0; (at_replica r0 r; [rewrite Hr|done]); unfold ok_at; cbn in *; settle.
  - revert HI. apply ok_same; [done..|]. intros r0. unfold ok_replica. cbn. count_at r0. at_replica r0 r; [rewrite Hr|done]. unfold ok_at. cbn in *. settle.
  - revert HI. apply ok_same; [done..|]. intros r0. unfold ok_replica. cbn. count_at r0. at_replica r0 r; [rewrite Hr|done].
    assert (c = true → closed s = true) as Hcc by (intros; apply Ic; by left). unfold ok_at. cbn in *. destruct (canceled x), c; try done; settle.
  - destruct HI as [D O L]. assert (r ∉ replicas s) as Hout by (intros Hin; specialize (O r); unfold ok_replica in O; cbn in O; rewrite Hr, bool_decide_true in O by done; by destruct O).
    split; unfold Adopt; cbn.
    + apply NoDup_app. split_and!; [done|by intros y Hy ?%list_elem_of_singleton; subst|apply NoDup_singleton].
    + intros r0. specialize (O r0). unfold ok_replica, Adopt in *. cbn in *. count_at r0. destruct (decide (r0 = r)) as [->|N].
      * rewrite Hr in O. rewrite lookup_insert_eq, (bool_decide_true (r = r)), bool_decide_true by (done || set_solver). unfold ok_at in *. cbn. destruct O as (_ & ? & ? & ?).
        split_and!; try lia; try done. intros ->. apply Ic. by left.
      * rewrite lookup_insert_ne, (bool_decide_false (r0 = r)) by done. cbn. rewrite Z.add_0_l. rewrite (bool_decide_ext _ (r0 ∈ replicas s)) by set_solver. done.
    + intros Hc r0 Hin. rewrite Hc. apply elem_of_app in Hin as [Hin|Hin]; [right; auto|apply list_elem_of_singleton in Hin as ->; left].
  - unfold Pick. destruct (pick_loop _ _ _ _ _). revert HI. by apply ok_same.
  - destruct HI as [D O L]. split; cbn; [constructor| |by intros _ ? ?%elem_of_nil]. intros r0. specialize (O r0). unfold ok_replica, ok_at in *. cbn in *. count_at r0.
    destruct (h !! r0); case_bool_decide; settle.
  - revert HI. apply ok_same; [done..|]. intros r0. unfold ok_replica. cbn. count_at r0. pose proof (countb_Stopping r0 rs) as Hz. pose proof (countb_nonneg (stops r0) (map Stopping rs)).
    unfold ok_at. destruct (decide (r0 ∈ rs)) as [Hin|Hout].
    + assert (0 < countb (stops r0) (map Stopping rs)) by (destruct (decide (countb (stops r0) (map Stopping rs) = 0)) as [Z0|]; [by apply Hz in Z0|lia]).
      rewrite (bool_decide_true (r0 ∈ rs)) by done. destruct (h !! r0); cbn; settle.
    + rewrite (proj2 Hz Hout), (bool_decide_false (r0 ∈ rs)) by done. destruct (h !! r0); cbn; settle.
Qed.

Lemma init_inv : counts_inv init ∧ replicas_inv init.
Proof.
  split; [by split; cbn; [..|intros [|]]|]. split; cbn; [constructor| |done]. intros r. unfold ok_replica. cbn. by rewrite lookup_empty.
Qed.

Lemma set_reachable_inv w : rtc step init w → counts_inv w ∧ replicas_inv w.
Proof.
  intros Hrun. assert (∀ v w, rtc step v w → counts_inv v ∧ replicas_inv v → counts_inv w ∧ replicas_inv w) as Hind; [|by eapply Hind, init_inv].
  clear. induction 1 as [|v v' w Hs _ IH]; [done|]. intros [Hc Hr]. apply IH. split; [by eapply counts_step|by eapply replicas_step].
Qed.

(** Nothing is being started, replaced or undone. *)
Definition quiet (w : world) : Prop := countb is_start (threads w) = 0 ∧ countb is_pending (threads w) = 0.

(** [C19] A replica set never loses count of its replicas. However calls, starts,
    exits, restarts, replacements and stops interleave: the set counts as starting
    exactly the starts under way; it holds no more replicas than it wants, but for
    failed [Add]s undone; every replica it wants is held, starting, waiting to be
    replaced, or was given up with a reported failure or an exit that its policy
    does not restart, so that a quiet set with none given up holds exactly as many
    as it wants; a held replica is live, unstopped and watched by one supervisor;
    one no longer held has ended, was stopped or is about to be; and a stopped set
    holds only what it adopted afterwards. *)
Theorem replica_sets_keep_their_count w :
  rtc step init w →
  let s := the_set w in
  starting s = countb is_start (threads w) ∧
  held s ≤ Z.max (want s) 0 + undone w ∧
  (closed s = false → want s ≤ held s + starting s + countb is_pending (threads w) + lost w) ∧
  (quiet w → closed s = false → lost w = 0 → undone w = 0 → held s = Z.max (want s) 0) ∧
  NoDup (replicas s) ∧
  (∀ r, r ∈ replicas s → ∃ x, objects w !! r = Some x ∧ ended x = false ∧ stopped x = false ∧ countb (watches r) (threads w) = 1) ∧
  (∀ r x, objects w !! r = Some x → r ∉ replicas s → ended x = true ∨ stopped x = true ∨ 0 < countb (stops r) (threads w)) ∧
  (closed s = true → ∀ r, r ∈ replicas s → r ∈ late w).
Proof.
  intros Hrun s. destruct (set_reachable_inv w Hrun) as [[Is If Ib [Il Iu] Ic] [D O L]]. subst s. split_and!; try done.
  - intros [Q1 Q2] Hc Hl Hu. specialize (If Hc). unfold held in *. lia.
  - intros r Hr. specialize (O r). unfold ok_replica, ok_at in O. rewrite bool_decide_true in O by done. destruct (objects w !! r) as [x|]; [|by destruct O].
    exists x. destruct O as (Hw & He & Hs & _). rewrite He in Hw. done.
  - intros r x Hx Hr. specialize (O r). unfold ok_replica, ok_at in O. rewrite bool_decide_false, Hx in O by done. by destruct O.
Qed.

(** ** Taking turns *)

Definition runs (h : heap) (ready : nat → bool) (r : nat) (g : Group) : Prop := ∃ x, h !! r = Some x ∧ group x = Some g ∧ ready r = true.

(** The replica at a position of the turn. *)
Definition turn (rs : list nat) (i : Z) : nat := default O (rs !! Z.to_nat (i mod Z.of_nat (length rs))).

Lemma turn_loop_spec n (h : heap) ready rs nx :
  match pick_loop n h ready rs nx with
  | (Some (r, g), nx') => nx < nx' ≤ nx + Z.of_nat n ∧ r = turn rs (nx' - 1) ∧ runs h ready r g ∧ ∀ i, nx ≤ i < nx' - 1 → ∀ g, ¬ runs h ready (turn rs i) g
  | (None, nx') => nx' = nx + Z.of_nat n ∧ ∀ i, nx ≤ i < nx' → ∀ g, ¬ runs h ready (turn rs i) g
  end.
Proof.
  revert nx. induction n as [|n IH]; intros nx; cbn [pick_loop]; [split; [lia|]; intros; lia|]. fold (turn rs nx).
  assert ((∀ g, ¬ runs h ready (turn rs nx) g) →
    match pick_loop n h ready rs (nx + 1) with
    | (Some (r, g), nx') => nx < nx' ≤ nx + Z.of_nat (S n) ∧ r = turn rs (nx' - 1) ∧ runs h ready r g ∧ ∀ i, nx ≤ i < nx' - 1 → ∀ g, ¬ runs h ready (turn rs i) g
    | (None, nx') => nx' = nx + Z.of_nat (S n) ∧ ∀ i, nx ≤ i < nx' → ∀ g, ¬ runs h ready (turn rs i) g
    end) as Hskip.
  { intros Hno. specialize (IH (nx + 1)). destruct (pick_loop n h ready rs (nx + 1)) as [[[r g]|] nx'].
    - destruct IH as (? & ? & ? & Hb). split_and!; try lia; try done. intros i Hi. destruct (decide (i = nx)) as [->|]; [done|]. apply Hb. lia.
    - destruct IH as (? & Hb). split; [lia|]. intros i Hi. destruct (decide (i = nx)) as [->|]; [done|]. apply Hb. lia. }
  destruct (h !! turn rs nx) as [x|] eqn:Ex; cbn [mbind option_bind]; [|apply Hskip; intros g (x & ? & _); congruence].
  destruct (group x) as [g|] eqn:Eg; [|apply Hskip; intros g (x' & ? & ? & _); congruence].
  destruct (ready (turn rs nx)) eqn:Er; [|apply Hskip; intros g' (x' & _ & _ & ?); congruence].
  split_and!; [lia|lia|f_equal; lia|by exists x|intros; lia].
Qed.

Lemma turn_covers rs nx r : r ∈ rs → ∃ i, nx ≤ i < nx + Z.of_nat (length rs) ∧ turn rs i = r.
Proof.
  intros [k Hk]%list_elem_of_lookup. pose proof (lookup_lt_Some _ _ _ Hk) as Hlt. set (n := Z.of_nat (length rs)).
  exists (nx + (Z.of_nat k - nx) mod n). pose proof (Z.mod_pos_bound (Z.of_nat k - nx) n ltac:(lia)). split; [lia|]. unfold turn. fold n.
  rewrite Z.add_mod_idemp_r by lia. replace (nx + (Z.of_nat k - nx)) with (Z.of_nat k) by lia. rewrite Z.mod_small by lia. by rewrite Nat2Z.id, Hk.
Qed.

(** [Pick] takes turns: it answers the first replica, from the turn on and
    round the list once, that is running and ready, and leaves the turn just past
    it; it answers none only when no held replica is running and ready. *)
Theorem pick_takes_turns (h : heap) ready s :
  match (Pick h ready s).1 with
  | Some (r, g) =>
      runs h ready r g ∧ r = turn (replicas s) (next (Pick h ready s).2 - 1) ∧
      next s < next (Pick h ready s).2 ≤ next s + held s ∧
      ∀ i, next s ≤ i < next (Pick h ready s).2 - 1 → ∀ g, ¬ runs h ready (turn (replicas s) i) g
  | None => ∀ r g, r ∈ replicas s → ¬ runs h ready r g
  end.
Proof.
  unfold Pick, held. pose proof (turn_loop_spec (length (replicas s)) h ready (replicas s) (next s)) as H.
  destruct (pick_loop _ _ _ _ _) as [[[r g]|] nx']; cbn in *; [naive_solver|]. destruct H as [-> Hno]. intros r g Hin.
  destruct (turn_covers (replicas s) (next s) r Hin) as (i & Hi & <-). by apply Hno.
Qed.
End Run.
Arguments world : clear implicits.

(** ** Back-off *)

(** The wait doubles with each exit in a row from ten seconds to five minutes. *)
Lemma CrashLoopBackoff_doubles n :
  CrashLoopBackoff n = Z.min (10 * second * 2 ^ Z.max (n - 1) 0) (300 * second).
Proof.
  unfold CrashLoopBackoff. rewrite <- (Z2Nat.id (Z.max (n - 1) 0)) by lia. replace (Z.to_nat (n - 1)) with (Z.to_nat (Z.max (n - 1) 0)) by lia.
  assert (∀ k w, 0 < w < 300 * second → double_loop k w = Z.min (w * 2 ^ Z.of_nat k) (300 * second)) as Hd; [|apply Hd; unfold second; lia].
  induction k as [|k IH]; intros w Hw; cbn [double_loop]; [rewrite Z.mul_1_r; lia|].
  assert (1 ≤ 2 ^ Z.of_nat k) by (apply (Z.pow_le_mono_r 2 0); lia). replace (2 ^ Z.of_nat (S k)) with (2 * 2 ^ Z.of_nat k) by (rewrite Nat2Z.inj_succ, Z.pow_succ_r; lia).
  destruct (Z.leb_spec (300 * second) (w * 2)); [rewrite Z.min_r by nia; done|]. rewrite IH by lia. f_equal. lia.
Qed.

(** ** Concrete runs *)

Definition w_spec : Spec := MkSpec Always false 0.

(** A set scaled to one replica whose replica exited and was replaced. *)
Definition w_end : world unit :=
  MkWorld (MkSet 1 [1%nat] 0 0 false 1)
    (<[1%nat := newReplica "b" () 3 false]> (<[0%nat := MkReplica "a" 1 false true None 1 0 0 false]> ∅)) [Supervising 1] false 0 0 [].

Lemma w_end_reachable : rtc (step w_spec) init w_end.
Proof.
  eapply rtc_l; [by apply (step_Scale w_spec New ∅ [] false 0 0 [] 1)|].
  eapply rtc_l; [by apply (step_started w_spec _ _ _ _ _ _ _ ForMissing [] 0%nat "a" () 1)|].
  eapply rtc_l; [by eapply (step_exit w_spec _ _ _ _ _ _ _ 0%nat _ 1 [])|].
  eapply rtc_l; [by eapply (step_exit_locked w_spec _ _ _ _ _ _ _ 0%nat _ 1 2 true 1 _ _ [])|].
  eapply rtc_l; [by eapply (step_replace w_spec _ _ _ _ _ _ _ 1 [])|].
  eapply rtc_l; [by apply (step_started w_spec _ _ _ _ _ _ _ ForReplace [] 1%nat "b" () 3)|].
  match goal with |- rtc _ ?a ?b => replace a with b by by vm_compute end. apply rtc_refl.
Qed.

Lemma replica_sets_keep_their_count_witness : rtc (step w_spec) init w_end ∧ quiet w_end ∧ held (the_set w_end) = 1.
Proof.
  split; [exact w_end_reachable|]. split; [by split|].
  destruct (replica_sets_keep_their_count w_spec w_end w_end_reachable) as (_ & _ & _ & Hq & _). apply Hq; [by split|reflexivity..].
Defined.

(** ** Where a set departs from its documentation *)

(** A failed [Add] takes one off whatever count the set has by then: scaled to
    three while an [Add] was starting, the set ends up wanting, and holding, two. *)
Example failed_add_undoes_a_later_scale :
  let h : gmap nat (Replica unit) := ∅ in
  match Add 1 New with
  | AddStarts s =>
      match Scale h 3 s with
      | Scaled [] missing s =>
          let s := add_undo (start_failed (start_done 1 (start_done 0 s).2).2) in
          missing = 2 ∧ want s = 2 ∧ held s = 2 ∧ starting s = 0
      | _ => False
      end
  | _ => False
  end.
Proof. by vm_compute. Qed.

(** A [Scale] whose replicas another call is already starting reserves none and
    returns at once; when those starts fail, the set stays without them, and only
    the first caller is told. *)
Example covered_scale_returns_before_its_replicas_run :
  let h : gmap nat (Replica unit) := ∅ in
  match Scale h 2 New with
  | Scaled _ 2 s =>
      match Scale h 2 s with
      | Scaled _ missing s => let s := start_failed (start_failed s) in missing = 0 ∧ want s = 2 ∧ held s = 0 ∧ starting s = 0
      | _ => False
      end
  | _ => False
  end.
Proof. by vm_compute. Qed.
