(* ===== verification/S3versions.v ===== *)
(** * Object versions: [src/simulator-aws/s3_versioning.go], [s3_bodies.go], [s3_object_lock.go]

    S3 keeps a key's current object in one store, its tags in a second and every
    other version, delete markers included, in a third. This file models the
    writes, deletes and lookups that move versions between them, and proves that
    each key behaves as a stack of versions, newest first. What a bucket is
    configured to do (its versioning status, its default retention), a minted
    version id and the clock are arguments; [time.Parse] is a parameter. Contents
    live in a payload store of their own: an operation returns the contents it
    releases. Notifications and annotations are not modelled. *)

From stdpp Require Import functions.
From S2P Require Import Prelude Gostd Store.

(** ** Data *)

Abbreviation tag_set := (gmap string string).

(** The fields of an object that neither versions nor locks depend on. *)
Record s3Attributes := MkAttributes {
  ContentType : string;
  Metadata : gmap string string;
  ACL : string;
  RestoreRequested : bool;
  RestoreInProgress : bool;
  RestoreExpiryDate : string;
  SSEAlgorithm : string;
  SSEKMSKeyID : string;
  StorageClass : string;
}.

Record S3Object := MkObject {
  Key : string;
  Body : string;
  LegacyData : string;
  Attributes : s3Attributes;
  ETag : string;
  LastModified : Z;
  Size : Z;
  LegalHoldStatus : string;
  RetentionMode : string;
  RetainUntilDate : string;
  VersionID : string;
  VersionSeq : Z;
}.

Record s3ObjectVersion := MkVersion { Object : S3Object; DeleteMarker : bool; Tags : tag_set }.

#[global] Instance GoZero_s3Attributes : GoZero s3Attributes := MkAttributes "" ∅ "" false false "" "" "" "".
#[global] Instance GoZero_S3Object : GoZero S3Object := MkObject "" "" "" zero "" 0 0 "" "" "" "" 0.
#[global] Instance GoZero_s3ObjectVersion : GoZero s3ObjectVersion := MkVersion zero false ∅.
#[global] Instance GoZero_tags : GoZero tag_set := (∅ : tag_set).
#[global] Instance s3Attributes_eq_dec : EqDecision s3Attributes.
Proof. solve_decision. Defined.
#[global] Instance s3Object_eq_dec : EqDecision S3Object.
Proof. solve_decision. Defined.
#[global] Instance s3ObjectVersion_eq_dec : EqDecision s3ObjectVersion.
Proof. solve_decision. Defined.

Definition s3VersioningEnabled : string := "Enabled".
Definition s3VersioningSuspended : string := "Suspended".
Definition s3NullVersionID : string := "null".

Definition s3VersionLabel (versionID : string) : string := if String.eqb versionID "" then s3NullVersionID else versionID.
Definition s3VersionIDFromLabel (label : string) : string := if String.eqb label s3NullVersionID then "" else label.
Definition s3VersionStoreKey (storeKey versionID : string) : string := storeKey +:+ NUL +:+ s3VersionLabel versionID.
Definition s3ObjectKey (bucket key : string) : string := bucket +:+ "/" +:+ key.

Definition with_version (id : string) (seq : Z) (o : S3Object) : S3Object :=
  MkObject (Key o) (Body o) (LegacyData o) (Attributes o) (ETag o) (LastModified o) (Size o) (LegalHoldStatus o) (RetentionMode o) (RetainUntilDate o) id seq.
Definition with_body (body : string) (size : Z) (o : S3Object) : S3Object :=
  MkObject (Key o) body "" (Attributes o) (ETag o) (LastModified o) size (LegalHoldStatus o) (RetentionMode o) (RetainUntilDate o) (VersionID o) (VersionSeq o).
Definition with_retention (mode until : string) (o : S3Object) : S3Object :=
  MkObject (Key o) (Body o) (LegacyData o) (Attributes o) (ETag o) (LastModified o) (Size o) (LegalHoldStatus o) mode until (VersionID o) (VersionSeq o).

(** ** Object Lock *)

Section Lock.
Context (ParseRFC3339 : string → option Z).

Definition s3LockedUntil (o : S3Object) : option Z := if String.eqb (RetentionMode o) "" then None else ParseRFC3339 (RetainUntilDate o).

Definition s3VersionProtected (o : S3Object) (bypassGovernance : bool) (now : Z) : bool :=
  if String.eqb (LegalHoldStatus o) "ON" then true
  else match s3LockedUntil o with
       | Some until => (now <? until) && (String.eqb (RetentionMode o) "COMPLIANCE" || negb bypassGovernance)
       | None => false
       end.

Definition s3RetentionChangeAllowed (o : S3Object) (mode : string) (until : Z) (bypassGovernance : bool) (now : Z) : bool :=
  match s3LockedUntil o with
  | Some current =>
      if negb (now <? current) then true
      else if String.eqb (RetentionMode o) "GOVERNANCE" && bypassGovernance then true
      else if String.eqb mode "" || (until <? current) then false
      else negb (String.eqb (RetentionMode o) "COMPLIANCE") || negb (String.eqb mode "GOVERNANCE")
  | None => true
  end.
(** What [PutObjectRetention] applies to the version it addresses; [until] is
    the date it parsed, [FormatLock] writes one with milliseconds. *)
Definition put_retention (FormatLock : Z → string) (mode : string) (until : Z) (bypass : bool) (now : Z)
    (o : S3Object) (t : tag_set) : S3Object * tag_set :=
  if negb (s3RetentionChangeAllowed o mode until bypass now) then (o, t)
  else (with_retention mode (if negb (String.eqb mode "") then FormatLock until else "") o, t).
End Lock.

(** ** The stores *)

Section S3.
Context {SO ST SV : Type} `{!Store SO S3Object, !Store ST tag_set, !Store SV s3ObjectVersion}.

Record s3_db := MkS3 { s3Objects : SO; s3ObjectTags : ST; s3ObjectVersions : SV; s3VersionClock : Z }.

Definition set_current (o : SO) (t : ST) (d : s3_db) : s3_db := MkS3 o t (s3ObjectVersions d) (s3VersionClock d).
Definition set_versions (v : SV) (d : s3_db) : s3_db := MkS3 (s3Objects d) (s3ObjectTags d) v (s3VersionClock d).

Definition s3NextVersionSeq (now : Z) (d : s3_db) : Z * s3_db :=
  let next := Z.max now (s3VersionClock d + 1) in (next, MkS3 (s3Objects d) (s3ObjectTags d) (s3ObjectVersions d) next).

Definition tags_of (d : s3_db) (storeKey : string) : tag_set := default ∅ (store_get (s3ObjectTags d) storeKey).

Definition s3ArchiveCurrent (storeKey : string) (d : s3_db) : s3_db :=
  match store_get (s3Objects d) storeKey with
  | None => d
  | Some current =>
      let v := store_put (s3ObjectVersions d) (s3VersionStoreKey storeKey (VersionID current)) (MkVersion current false (tags_of d storeKey)) in
      MkS3 (store_delete (s3Objects d) storeKey).1 (store_delete (s3ObjectTags d) storeKey).1 v (s3VersionClock d)
  end.

Definition s3DropNoncurrentNull (storeKey : string) (d : s3_db) : string * s3_db :=
  let id := s3VersionStoreKey storeKey "" in
  match store_get (s3ObjectVersions d) id with
  | None => ("", d)
  | Some version =>
      let '(v, deleted) := store_delete (s3ObjectVersions d) id in
      (if deleted : bool then Body (Object version) else "", set_versions v d)
  end.

Definition newer_version (a b : s3ObjectVersion) : bool := VersionSeq (Object b) <? VersionSeq (Object a).

Definition s3NoncurrentVersions (storeKey : string) (d : s3_db) : list s3ObjectVersion :=
  SliceStable newer_version (store_list_prefix (s3ObjectVersions d) (storeKey +:+ NUL)).*2.

Definition s3LatestDeleteMarker (storeKey : string) (d : s3_db) : option S3Object :=
  match store_get (s3Objects d) storeKey with
  | Some _ => None
  | None =>
      match s3NoncurrentVersions storeKey d with
      | v :: _ => if DeleteMarker v then Some (Object v) else None
      | [] => None
      end
  end.

Definition s3PromoteNewest (storeKey : string) (d : s3_db) : s3_db :=
  match s3NoncurrentVersions storeKey d with
  | [] => d
  | newest :: _ =>
      if DeleteMarker newest then d
      else
        let t := if (0 <? size (Tags newest))%nat then store_put (s3ObjectTags d) storeKey (Tags newest) else s3ObjectTags d in
        MkS3 (store_put (s3Objects d) storeKey (Object newest)) t
             (store_delete (s3ObjectVersions d) (s3VersionStoreKey storeKey (VersionID (Object newest)))).1 (s3VersionClock d)
  end.

Definition s3LookupVersion (storeKey versionID : string) (d : s3_db) : option s3ObjectVersion :=
  let noncurrent := store_get (s3ObjectVersions d) (s3VersionStoreKey storeKey versionID) in
  match store_get (s3Objects d) storeKey with
  | Some current => if String.eqb (VersionID current) versionID then Some (MkVersion current false (tags_of d storeKey)) else noncurrent
  | None => noncurrent
  end.

(** ** Writes *)

(** [status] and [retention] are what the bucket's configuration says, [id] the
    version id minted when one is. *)
Definition s3StoreObject (status : string) (retention : option (string * string)) (now : Z) (id : string)
    (obj : S3Object) (body : string) (size : Z) (d : s3_db) : S3Object * list string * s3_db :=
  let obj := with_body body size obj in
  let '(seq, d) := s3NextVersionSeq now d in
  let obj := with_version "" seq obj in
  let obj := match String.eqb (RetentionMode obj) "", retention with true, Some (mode, until) => with_retention mode until obj | _, _ => obj end in
  let '(obj, released, d) :=
    if String.eqb status s3VersioningEnabled then (with_version id seq obj, [], s3ArchiveCurrent (Key obj) d)
    else if String.eqb status s3VersioningSuspended then
      let '(dropped, d) := s3DropNoncurrentNull (Key obj) d in
      (obj, [dropped],
       match store_get (s3Objects d) (Key obj) with
       | Some current => if negb (String.eqb (VersionID current) "") then s3ArchiveCurrent (Key obj) d else d
       | None => d
       end)
    else (obj, [], d) in
  let replaced := Body (default zero (store_get (s3Objects d) (Key obj))) in
  (obj, released ++ [replaced], set_current (store_upsert (s3Objects d) (Key obj) (λ _, obj)) (s3ObjectTags d) d).

Record s3DeleteResult := MkDeleteResult { dr_VersionID : string; dr_DeleteMarker : bool; dr_MarkerCreated : bool }.

Definition s3DeleteVersion (storeKey versionLabel : string) (d : s3_db) : s3DeleteResult * list string * s3_db :=
  let versionID := s3VersionIDFromLabel versionLabel in
  let result := MkDeleteResult versionLabel false false in
  let id := s3VersionStoreKey storeKey versionID in
  let from_versions :=
    match store_get (s3ObjectVersions d) id with
    | None => (result, [], d)
    | Some version =>
        let '(v, deleted) := store_delete (s3ObjectVersions d) id in
        let d := set_versions v d in
        if negb deleted then (result, [], d)
        else
          let d := match store_get (s3Objects d) storeKey with None => s3PromoteNewest storeKey d | Some _ => d end in
          (MkDeleteResult versionLabel (DeleteMarker version) false, [Body (Object version)], d)
    end in
  match store_get (s3Objects d) storeKey with
  | Some current =>
      if String.eqb (VersionID current) versionID then
        let d := set_current (store_delete (s3Objects d) storeKey).1 (store_delete (s3ObjectTags d) storeKey).1 d in
        (result, [Body current], s3PromoteNewest storeKey d)
      else from_versions
  | None => from_versions
  end.

(** [None] is [errS3ObjectLocked]. *)
Definition s3DeleteObject (ParseRFC3339 : string → option Z) (status : string) (now seq_now : Z) (id : string)
    (storeKey versionLabel : string) (bypassGovernance : bool) (d : s3_db) : option (s3DeleteResult * list string * s3_db) :=
  if negb (String.eqb versionLabel "") then
    if match s3LookupVersion storeKey (s3VersionIDFromLabel versionLabel) d with
       | Some version => negb (DeleteMarker version) && s3VersionProtected ParseRFC3339 (Object version) bypassGovernance now
       | None => false
       end then None
    else Some (s3DeleteVersion storeKey versionLabel d)
  else
    let '(released, d) := if String.eqb status s3VersioningSuspended then let '(r, d) := s3DropNoncurrentNull storeKey d in ([r], d) else ([], d) in
    let '(released, d) :=
      match store_get (s3Objects d) storeKey with
      | None => (released, d)
      | Some current =>
          if String.eqb status s3VersioningEnabled || (String.eqb status s3VersioningSuspended && negb (String.eqb (VersionID current) ""))
          then (released, s3ArchiveCurrent storeKey d)
          else (released ++ [Body current], set_current (store_delete (s3Objects d) storeKey).1 (store_delete (s3ObjectTags d) storeKey).1 d)
      end in
    if String.eqb status "" then Some (MkDeleteResult "" false false, released, d)
    else
      let '(seq, d) := s3NextVersionSeq seq_now d in
      let marker := MkObject storeKey "" "" zero "" now 0 "" "" "" (if String.eqb status s3VersioningEnabled then id else "") seq in
      let d := set_versions (store_put (s3ObjectVersions d) (s3VersionStoreKey storeKey (VersionID marker)) (MkVersion marker true ∅)) d in
      Some (MkDeleteResult (s3VersionLabel (VersionID marker)) true true, released, d).

(** ** Reads *)

Inductive addressed :=
| Found (v : s3ObjectVersion)
| NoSuchKey (marker : option S3Object)
| NoSuchVersion
| MethodNotAllowed (v : s3ObjectVersion).

(** [label] is the version id the request names, if it names one. *)
Definition s3AddressedVersion (storeKey : string) (label : option string) (d : s3_db) : addressed :=
  match label with
  | None =>
      match store_get (s3Objects d) storeKey with
      | Some current => Found (MkVersion current false (tags_of d storeKey))
      | None => NoSuchKey (s3LatestDeleteMarker storeKey d)
      end
  | Some label =>
      match s3LookupVersion storeKey (s3VersionIDFromLabel label) d with
      | None => NoSuchVersion
      | Some v => if DeleteMarker v then MethodNotAllowed v else Found v
      end
  end.

(** [fn] updates an object and its tags in place. *)
Definition s3UpdateVersion (storeKey versionID : string) (fn : S3Object → tag_set → S3Object * tag_set) (d : s3_db) : bool * s3_db :=
  let noncurrent :=
    let id := s3VersionStoreKey storeKey versionID in
    let updated := match store_get (s3ObjectVersions d) id with Some v => negb (DeleteMarker v) | None => false end in
    let change v := if DeleteMarker v then v else let '(o, t) := fn (Object v) (Tags v) in MkVersion o false t in
    (updated, set_versions (store_update (s3ObjectVersions d) id change).1 d) in
  match store_get (s3Objects d) storeKey with
  | Some current =>
      if String.eqb (VersionID current) versionID then
        let '(o, t) := fn current (tags_of d storeKey) in
        (true, set_current (store_put (s3Objects d) storeKey o)
                 (if (0 <? size t)%nat then store_put (s3ObjectTags d) storeKey t else (store_delete (s3ObjectTags d) storeKey).1) d)
      else noncurrent
  | None => noncurrent
  end.

Definition s3BucketHoldsVersions (bucket : string) (d : s3_db) : bool :=
  (0 <? length (store_list_prefix (s3ObjectVersions d) (bucket +:+ "/")))%nat.
End S3.
Arguments s3_db : clear implicits.

(** ** Histories: what the stores promise of a key

    A key's history is the list of its versions, newest first. *)

Abbreviation history := (list s3ObjectVersion).

Definition vid (v : s3ObjectVersion) : string := VersionID (Object v).
Definition vseq (v : s3ObjectVersion) : Z := VersionSeq (Object v).
Arguments vid : simpl never.
Arguments vseq : simpl never.
Definition later (a b : s3ObjectVersion) : Prop := vseq b < vseq a.
Definition without (id : string) (h : history) : history := filter (λ v, vid v ≠ id) h.

(** The latest version is current unless it is a delete marker. *)
Definition current (h : history) : option s3ObjectVersion :=
  match h with v :: _ => if DeleteMarker v then None else Some v | [] => None end.
Definition noncurrent (h : history) : history :=
  match h with v :: r => if DeleteMarker v then h else r | [] => [] end.

Definition version_of (id : string) (h : history) : option s3ObjectVersion :=
  head (filter (λ v, vid v = id) h).

(** A version that replaces the null version it follows takes over its tags. *)
Definition inherited_tags (h : history) : tag_set :=
  match current h with Some v => if String.eqb (vid v) "" then Tags v else ∅ | None => ∅ end.

Definition hist_put (status : string) (o : S3Object) (h : history) : history :=
  if String.eqb status s3VersioningEnabled then MkVersion o false ∅ :: h
  else MkVersion o false (inherited_tags h) :: without "" h.

Definition hist_delete (status : string) (marker : S3Object) (h : history) : history :=
  if String.eqb status "" then []
  else MkVersion marker true ∅ :: (if String.eqb status s3VersioningEnabled then h else without "" h).

Definition updated_version (fn : S3Object → tag_set → S3Object * tag_set) (v : s3ObjectVersion) : s3ObjectVersion :=
  if DeleteMarker v then v else let '(o, t) := fn (Object v) (Tags v) in MkVersion o false t.

Arguments updated_version : simpl never.

Definition hist_update (id : string) (fn : S3Object → tag_set → S3Object * tag_set) (h : history) : history :=
  (λ v, if String.eqb (vid v) id then updated_version fn v else v) <$> h.

(** What a request that addresses a key, or a version of it, is answered. *)
Definition hist_addressed (label : option string) (h : history) : addressed :=
  match label with
  | None => match h with v :: _ => if DeleteMarker v then NoSuchKey (Some (Object v)) else Found v | [] => NoSuchKey None end
  | Some label =>
      match version_of (s3VersionIDFromLabel label) h with
      | None => NoSuchVersion
      | Some v => if DeleteMarker v then MethodNotAllowed v else Found v
      end
  end.

Definition hist_ok (clock : Z) (h : history) : Prop :=
  StronglySorted later h ∧ NoDup (vid <$> h) ∧ Forall (λ v, vid v ≠ "null" ∧ vseq v ≤ clock) h.

(** The object a write stores, and the marker a delete leaves. *)
Definition new_object (status : string) (retention : option (string * string)) (id : string) (seq : Z)
    (obj : S3Object) (body : string) (size : Z) : S3Object :=
  let o := with_version (if String.eqb status s3VersioningEnabled then id else "") seq (with_body body size obj) in
  match retention with Some (mode, until) => if String.eqb (RetentionMode obj) "" then with_retention mode until o else o | None => o end.

Definition new_marker (status id storeKey : string) (now seq : Z) : S3Object :=
  MkObject storeKey "" "" zero "" now 0 "" "" "" (if String.eqb status s3VersioningEnabled then id else "") seq.

(** What a bucket's status and a minted id promise a key's history: a bucket
    whose status was never set has no versions, and a minted id is new. The
    source does not keep a bucket with versions from returning to no status:
    [handleS3PutBucketSubresource] stores any versioning body, one without a
    [Status] too, and writes then lose versions
    ([cleared_status_loses_versions]). *)
Definition may_write (status id : string) (h : history) : Prop :=
  (status = "" ∧ Forall (λ v, vid v = "" ∧ DeleteMarker v = false) h) ∨
  (status = s3VersioningEnabled ∧ id ≠ "" ∧ id ≠ "null" ∧ id ∉ vid <$> h) ∨
  status = s3VersioningSuspended.

#[global] Instance later_strict : StrictOrder later.
Proof. split; [intros x|intros x y z]; unfold later, complement; lia. Qed.

Lemma s3VersionLabel_inj a b : a ≠ "null" → b ≠ "null" → s3VersionLabel a = s3VersionLabel b → a = b.
Proof.
  unfold s3VersionLabel, s3NullVersionID. intros Ha Hb.
  destruct (String.eqb_spec a ""), (String.eqb_spec b ""); congruence.
Qed.

Lemma s3VersionStoreKey_inj k a k' b :
  nul_free k → nul_free k' → a ≠ "null" → b ≠ "null" →
  s3VersionStoreKey k a = s3VersionStoreKey k' b → k = k' ∧ a = b.
Proof.
  intros Hk Hk' Ha Hb H. unfold s3VersionStoreKey in H. apply nul_free_cut in H as [-> H]; [|done..].
  split; [done|]. by apply s3VersionLabel_inj.
Qed.

Lemma s3VersionIDFromLabel_id label : s3VersionIDFromLabel label ≠ "null".
Proof. unfold s3VersionIDFromLabel, s3NullVersionID. destruct (String.eqb_spec label "null"); congruence. Qed.

Lemma version_of_Some id h v : NoDup (vid <$> h) → version_of id h = Some v ↔ v ∈ h ∧ vid v = id.
Proof.
  unfold version_of. induction h as [|x h IH]; simpl; [rewrite elem_of_nil; naive_solver|].
  intros [Hx Hnd]%NoDup_cons. rewrite filter_cons, elem_of_cons. case_decide as He; simpl.
  - split; [naive_solver|]. intros [[->|Hv] Hid]; [done|]. destruct Hx. rewrite He, <- Hid. by apply list_elem_of_fmap_2.
  - rewrite IH by done. split; [naive_solver|]. intros [[->|Hv] Hid]; done.
Qed.

(** Histories are what a stable sort by age makes of their versions. *)
Lemma newer_sorted l h : l ≡ₚ h → StronglySorted later h → SliceStable newer_version l = h.
Proof.
  intros Hp Hh. apply (SliceStable_by _ (λ v, - vseq v)); [|done|].
  - intros x y _ _. unfold newer_version. change (VersionSeq (Object x)) with (vseq x). change (VersionSeq (Object y)) with (vseq y).
    destruct (Z.ltb_spec (vseq y) (vseq x)), (Z.ltb_spec (- vseq x) (- vseq y)); lia.
  - eapply StronglySorted_impl; [|exact Hh]. unfold later. lia.
Qed.

Lemma history_split h : h = option_list (current h) ++ noncurrent h.
Proof. destruct h as [|v r]; simpl; [done|]. by destruct (DeleteMarker v). Qed.

Lemma current_null h v : current h = Some v → h = v :: noncurrent h ∧ DeleteMarker v = false.
Proof. destruct h as [|x r]; simpl; [done|]. destruct (DeleteMarker x) eqn:E; [done|]. intros [= ->]. done. Qed.

Lemma elem_of_without id h v : v ∈ without id h ↔ v ∈ h ∧ vid v ≠ id.
Proof. unfold without. rewrite list_elem_of_filter. tauto. Qed.

Lemma hist_ok_sublist c c' h h' : hist_ok c h → h' `sublist_of` h → c ≤ c' → hist_ok c' h'.
Proof.
  intros (Hs & Hn & Hf) Hsub Hc. split; [by eapply sublist_StronglySorted|]. split.
  - eapply sublist_NoDup; [exact Hn|]. by apply sublist_fmap.
  - apply (sublist_Forall _ _ _ Hsub) in Hf. eapply Forall_impl; [exact Hf|]. simpl. intros v []. split; [done|lia].
Qed.

Lemma hist_ok_cons c v h :
  hist_ok c h → c < vseq v → vid v ≠ "null" → vid v ∉ vid <$> h → hist_ok (vseq v) (v :: h).
Proof.
  intros (Hs & Hn & Hf) Hc Hnull Hid. rewrite Forall_forall in Hf. split; [|split].
  - constructor; [done|]. apply Forall_forall. intros x [_ Hx]%Hf. unfold later. lia.
  - simpl. by constructor.
  - constructor; [split; [done|lia]|]. apply Forall_forall. intros x [? Hx]%Hf. split; [done|lia].
Qed.

Lemma hist_ok_parts c h :
  hist_ok c h → StronglySorted later (noncurrent h) ∧ NoDup (vid <$> noncurrent h) ∧
  ∀ v, current h = Some v → vid v ≠ "null" ∧ vid v ∉ vid <$> noncurrent h.
Proof.
  intros (Hs & Hn & Hf). assert (noncurrent h `sublist_of` h) as Hsub.
  { rewrite (history_split h) at 2. by apply sublist_inserts_l. }
  split; [by eapply sublist_StronglySorted|]. split; [eapply sublist_NoDup; [exact Hn|by apply sublist_fmap]|].
  intros v [E Hm]%current_null. rewrite E in Hn, Hf. simpl in Hn. apply NoDup_cons in Hn as [Hv _].
  apply Forall_cons in Hf as [[? _] _]. done.
Qed.

Lemma without_absent id h : id ∉ vid <$> h → without id h = h.
Proof.
  intros Hn. unfold without. apply filter_all, Forall_forall. intros x Hx Hid. apply Hn. rewrite <- Hid. by apply list_elem_of_fmap_2.
Qed.

Lemma without_head v h : NoDup (vid <$> v :: h) → without (vid v) (v :: h) = h.
Proof.
  intros [Hv _]%NoDup_cons. unfold without. rewrite filter_cons_False by (intros []; done). by apply without_absent.
Qed.

Lemma without_cons id v h : vid v ≠ id → without id (v :: h) = v :: without id h.
Proof. intros H. unfold without. by rewrite filter_cons_True. Qed.

Lemma version_of_None id h : version_of id h = None ↔ id ∉ vid <$> h.
Proof.
  unfold version_of. rewrite head_None, list_elem_of_fmap. split.
  - intros E (x & -> & Hx). assert (x ∈ filter (λ v, vid v = vid x) h) as Hin by by apply list_elem_of_filter.
    rewrite E in Hin. by apply not_elem_of_nil in Hin.
  - intros Hn. apply elem_of_nil_inv. intros x [<- Hx]%list_elem_of_filter. apply Hn. eauto.
Qed.

(** An update touches neither a version's id nor its age. *)
Definition keeps_version (fn : S3Object → tag_set → S3Object * tag_set) : Prop :=
  ∀ o t, VersionID (fn o t).1 = VersionID o ∧ VersionSeq (fn o t).1 = VersionSeq o.

Lemma updated_version_id fn v : keeps_version fn →
  vid (updated_version fn v) = vid v ∧ vseq (updated_version fn v) = vseq v ∧ DeleteMarker (updated_version fn v) = DeleteMarker v.
Proof.
  intros Hfn. unfold updated_version, vid, vseq. destruct (DeleteMarker v) eqn:E; [done|].
  destruct (Hfn (Object v) (Tags v)). destruct (fn (Object v) (Tags v)). simpl in *. done.
Qed.

Lemma hist_update_ok c id fn h : keeps_version fn → hist_ok c h → hist_ok c (hist_update id fn h).
Proof.
  intros Hfn (Hs & Hn & Hf). pose proof (λ v, updated_version_id fn v Hfn) as Hv. unfold hist_update. split; [|split].
  - eapply StronglySorted_fmap_in; [|exact Hs]. intros x y _ _ Hl. unfold later in *.
    destruct (Hv x) as (_ & Ex & _), (Hv y) as (_ & Ey & _). repeat case_match; lia.
  - rewrite <- list_fmap_compose, (list_fmap_ext _ vid h); [exact Hn|].
    intros i v _. simpl. case_match; [apply Hv|done].
  - apply Forall_fmap. eapply Forall_impl; [exact Hf|]. intros v. simpl. case_match; [|done]. destruct (Hv v) as (-> & -> & _). done.
Qed.

Lemma hist_update_parts id fn h : keeps_version fn →
  current (hist_update id fn h) = (λ v, if String.eqb (vid v) id then updated_version fn v else v) <$> current h ∧
  noncurrent (hist_update id fn h) = hist_update id fn (noncurrent h).
Proof.
  intros Hfn. destruct h as [|v h]; simpl; [done|]. destruct (updated_version_id fn v Hfn) as (_ & _ & Hm).
  unfold hist_update. destruct (String.eqb (vid v) id) eqn:E; rewrite ?Hm; destruct (DeleteMarker v); simpl; by rewrite ?E.
Qed.

Lemma hist_update_absent id fn h : id ∉ vid <$> h → hist_update id fn h = h.
Proof.
  intros Hn. unfold hist_update. rewrite <- (list_fmap_id h) at 2. apply list_fmap_ext. intros i v Hv%list_elem_of_lookup_2. simpl.
  destruct (String.eqb_spec (vid v) id) as [E|]; [|done]. destruct Hn. rewrite <- E. by apply list_elem_of_fmap_2.
Qed.

(** ** The stores hold the histories *)

Section Refine.
Context {SO ST SV : Type} `{!Store SO S3Object, !Store ST tag_set, !Store SV s3ObjectVersion}.
Context `{!StoreSpec SO S3Object, !StoreSpec ST tag_set, !StoreSpec SV s3ObjectVersion}.
Abbreviation db := (s3_db SO ST SV).
Implicit Types (d : db) (h : history) (k : string) (v : s3ObjectVersion).

(** [c] is what is current under each key. *)
Definition cur_ok (o : SO) (t : ST) (c : string → option s3ObjectVersion) : Prop :=
  store_ok o ∧ store_ok t ∧
  ∀ k, contents o !! k = Object <$> c k ∧
       default ∅ (contents t !! k) = default ∅ (Tags <$> c k) ∧
       from_option DeleteMarker false (c k) = false.

(** [n] is what else is kept under each key. *)
Definition ver_ok (s : SV) (n : string → history) : Prop :=
  store_ok s ∧
  (∀ k v, v ∈ n k → nul_free k ∧ vid v ≠ "null") ∧
  (∀ i v, contents s !! i = Some v ↔ ∃ k, v ∈ n k ∧ i = s3VersionStoreKey k (vid v)).

Definition holds (d : db) (c : string → option s3ObjectVersion) (n : string → history) : Prop :=
  cur_ok (s3Objects d) (s3ObjectTags d) c ∧ ver_ok (s3ObjectVersions d) n.

Definition represents (d : db) (f : string → history) : Prop :=
  holds d (λ k, current (f k)) (λ k, noncurrent (f k)) ∧ ∀ k, hist_ok (s3VersionClock d) (f k).

Lemma cur_ok_ext o t c c' : cur_ok o t c → (∀ k, c k = c' k) → cur_ok o t c'.
Proof. intros (? & ? & H) Hc. split; [done|]. split; [done|]. intros k. rewrite <- Hc. apply H. Qed.

Lemma ver_ok_ext s n n' : ver_ok s n → (∀ k v, v ∈ n k ↔ v ∈ n' k) → ver_ok s n'.
Proof.
  intros (Hs & Hb & Hr) He. split; [done|]. split.
  - intros k v Hv%He. by apply Hb.
  - intros i v. rewrite Hr. split; intros (k & Hv & ->); exists k; by rewrite ?He in *.
Qed.

Lemma ver_ok_same s n k l : ver_ok s n → (∀ v, v ∈ n k ↔ v ∈ l) → ver_ok s (<[k := l]> n).
Proof.
  intros Hv Hl. eapply ver_ok_ext; [exact Hv|]. intros k' x.
  destruct (decide (k' = k)) as [->|]; [by rewrite fn_lookup_insert|by rewrite fn_lookup_insert_ne].
Qed.

Lemma holds_same d c n k cv l :
  holds d c n → c k = cv → (∀ v, v ∈ n k ↔ v ∈ l) → holds d (<[k := cv]> c) (<[k := l]> n).
Proof.
  intros [Hc Hv] Ec Hl. split; [|by apply ver_ok_same]. eapply cur_ok_ext; [exact Hc|]. intros k'.
  destruct (decide (k' = k)) as [->|]; [by rewrite fn_lookup_insert|by rewrite fn_lookup_insert_ne].
Qed.

Lemma cur_ok_change o t c o' t' k cv :
  cur_ok o t c → store_ok o' → store_ok t' →
  (∀ k', k' ≠ k → contents o' !! k' = contents o !! k' ∧ contents t' !! k' = contents t !! k') →
  contents o' !! k = Object <$> cv → default ∅ (contents t' !! k) = default ∅ (Tags <$> cv) →
  from_option DeleteMarker false cv = false →
  cur_ok o' t' (<[k := cv]> c).
Proof.
  intros (_ & _ & H) Ho Ht He Hk Htk Hm. split; [done|]. split; [done|]. intros k'.
  destruct (decide (k' = k)) as [->|Hne].
  - by rewrite fn_lookup_insert.
  - rewrite fn_lookup_insert_ne by done. destruct (He k' Hne) as [-> ->]. apply H.
Qed.

Lemma ver_ok_put s n k v l :
  ver_ok s n → nul_free k → vid v ≠ "null" → (∀ x, x ∈ l ↔ x = v ∨ (x ∈ n k ∧ vid x ≠ vid v)) →
  ver_ok (store_put s (s3VersionStoreKey k (vid v)) v) (<[k := l]> n).
Proof.
  intros (Hs & Hb & Hr) Hk Hv Hl. destruct (put_spec s (s3VersionStoreKey k (vid v)) v Hs) as [Hok Hc].
  split; [done|]. rewrite Hc. split.
  - intros k' x. destruct (decide (k' = k)) as [->|].
    + rewrite fn_lookup_insert, Hl. intros [->|[Hx _]]; [done|]. by apply Hb.
    + rewrite fn_lookup_insert_ne by done. apply Hb.
  - intros i x. rewrite lookup_insert_Some, Hr. split.
    + intros [[<- <-]|[Hne (k' & Hx & ->)]].
      * exists k. rewrite fn_lookup_insert, Hl. auto.
      * exists k'. split; [|done]. destruct (decide (k' = k)) as [->|]; [|by rewrite fn_lookup_insert_ne].
        rewrite fn_lookup_insert, Hl. right. split; [done|congruence].
    + intros (k' & Hx & ->). destruct (decide (k' = k)) as [->|].
      * rewrite fn_lookup_insert, Hl in Hx. destruct Hx as [->|[Hx Hne]]; [by left|].
        right. split; [|eauto]. destruct (Hb _ _ Hx). intros [_ ?]%s3VersionStoreKey_inj; [congruence|done..].
      * rewrite fn_lookup_insert_ne in Hx by done. right. split; [|eauto].
        destruct (Hb _ _ Hx). intros [? _]%s3VersionStoreKey_inj; [congruence|done..].
Qed.

Lemma ver_ok_delete s n k id l :
  ver_ok s n → nul_free k → id ≠ "null" → (∀ x, x ∈ l ↔ x ∈ n k ∧ vid x ≠ id) →
  ver_ok (store_delete s (s3VersionStoreKey k id)).1 (<[k := l]> n).
Proof.
  intros (Hs & Hb & Hr) Hk Hid Hl. destruct (delete_spec s (s3VersionStoreKey k id) Hs) as (Hok & Hc & _).
  split; [done|]. rewrite Hc. split.
  - intros k' x. destruct (decide (k' = k)) as [->|].
    + rewrite fn_lookup_insert, Hl. intros [Hx _]. by apply Hb.
    + rewrite fn_lookup_insert_ne by done. apply Hb.
  - intros i x. rewrite lookup_delete_Some, Hr. split.
    + intros [Hne (k' & Hx & ->)]. exists k'. split; [|done].
      destruct (decide (k' = k)) as [->|]; [|by rewrite fn_lookup_insert_ne].
      rewrite fn_lookup_insert, Hl. split; [done|congruence].
    + intros (k' & Hx & ->). destruct (decide (k' = k)) as [->|].
      * rewrite fn_lookup_insert, Hl in Hx. destruct Hx as [Hx Hne]. split; [|eauto].
        destruct (Hb _ _ Hx). intros [_ ?]%s3VersionStoreKey_inj; [congruence|done..].
      * rewrite fn_lookup_insert_ne in Hx by done. split; [|eauto].
        destruct (Hb _ _ Hx). intros [? _]%s3VersionStoreKey_inj; [congruence|done..].
Qed.

Lemma ver_ok_lookup s n k id :
  ver_ok s n → nul_free k → id ≠ "null" → NoDup (vid <$> n k) →
  store_get s (s3VersionStoreKey k id) = version_of id (n k).
Proof.
  intros (Hs & Hb & Hr) Hk Hid Hnd. rewrite get_spec by done. apply option_eq. intros v. rewrite Hr.
  rewrite (version_of_Some id (n k) v Hnd). split.
  - intros (k' & Hv & He). destruct (Hb _ _ Hv). apply s3VersionStoreKey_inj in He as [-> ->]; done.
  - intros [Hv <-]. eauto.
Qed.

(** The versions listed under a key are those kept under it, newest first. *)
Lemma noncurrent_listed d c n k :
  holds d c n → nul_free k → StronglySorted later (n k) → s3NoncurrentVersions k d = n k.
Proof.
  intros [_ (Hs & Hb & Hr)] Hk Hn. destruct (list_prefix_spec _ (k +:+ NUL) Hs) as [Hl He].
  set (rows := store_list_prefix (s3ObjectVersions d) (k +:+ NUL)) in *.
  assert (∀ i v, (i, v) ∈ rows ↔ v ∈ n k ∧ i = s3VersionStoreKey k (vid v)) as Hrows.
  { intros i v. rewrite He, Hr. split.
    - intros [(k' & Hv & ->) [r Hp]%HasPrefix_spec]. destruct (Hb _ _ Hv).
      unfold s3VersionStoreKey in Hp. rewrite append_assoc_s in Hp. apply nul_free_cut in Hp as [-> _]; done.
    - intros [Hv ->]. split; [eauto|]. unfold s3VersionStoreKey. rewrite <- append_assoc_s. apply HasPrefix_append. }
  assert (rows.*2 ≡ₚ n k) as Hp.
  { apply NoDup_Permutation.
    - apply (NoDup_fmap_1 (λ v, s3VersionStoreKey k (vid v))).
      rewrite <- list_fmap_compose. rewrite (list_fmap_ext _ fst rows).
      + by apply (StronglySorted_NoDup slt).
      + intros j [i v] Hj%list_elem_of_lookup_2. apply Hrows in Hj as [_ ->]. done.
    - by apply (StronglySorted_NoDup later).
    - intros v. rewrite list_elem_of_fmap. split.
      + intros ([i w] & -> & Hw). by apply Hrows in Hw as [? _].
      + intros Hv. exists (s3VersionStoreKey k (vid v), v). split; [done|]. by apply Hrows. }
  unfold s3NoncurrentVersions. fold rows. by apply newer_sorted.
Qed.

Lemma holds_current d c n k :
  holds d c n → store_get (s3Objects d) k = Object <$> c k ∧ tags_of d k = default ∅ (Tags <$> c k).
Proof.
  intros [(Ho & Ht & H) _]. unfold tags_of. rewrite !get_spec by done. destruct (H k) as (-> & -> & _). done.
Qed.

Lemma holds_drop_current d c n k :
  holds d c n → holds (set_current (store_delete (s3Objects d) k).1 (store_delete (s3ObjectTags d) k).1 d) (<[k := None]> c) n.
Proof.
  intros [Hc Hv]. split; [|done]. pose proof Hc as (Ho & Ht & H).
  destruct (delete_spec (s3Objects d) k Ho) as (Ho' & Eo & _), (delete_spec (s3ObjectTags d) k Ht) as (Ht' & Et & _).
  apply (cur_ok_change (s3Objects d) (s3ObjectTags d)); simpl; rewrite ?Eo, ?Et, ?lookup_delete_eq; [exact Hc|done|done| |done|done|done].
  intros k' Hne. by rewrite !lookup_delete_ne.
Qed.

Lemma holds_archive d c n k :
  holds d c n → nul_free k → (∀ v, c k = Some v → vid v ≠ "null" ∧ vid v ∉ vid <$> n k) →
  holds (s3ArchiveCurrent k d) (<[k := None]> c) (<[k := option_list (c k) ++ n k]> n) ∧
  s3VersionClock (s3ArchiveCurrent k d) = s3VersionClock d.
Proof.
  intros H Hk Hc. destruct (holds_current _ _ _ k H) as [Eo Et]. unfold s3ArchiveCurrent. rewrite Eo, Et.
  destruct (c k) as [v|] eqn:E; simpl; (split; [|done]).
  - destruct (Hc v eq_refl) as [Hn Hf]. destruct (holds_drop_current _ _ _ k H) as [Hcur _]. split; [exact Hcur|].
    destruct H as [(_ & _ & Hm) Hver]. specialize (Hm k). rewrite E in Hm. simpl in Hm. destruct Hm as (_ & _ & Hm).
    replace (MkVersion (Object v) false (Tags v)) with v by (destruct v; simpl in *; by subst).
    apply ver_ok_put; [done..|]. intros x. rewrite elem_of_cons. split; [|naive_solver].
    intros [->|Hx]; [by left|]. right. split; [done|]. intros He. apply Hf. rewrite <- He. by apply list_elem_of_fmap_2.
  - by apply holds_same.
Qed.

Lemma holds_drop_null d c n k :
  holds d c n → nul_free k →
  holds (s3DropNoncurrentNull k d).2 c (<[k := without "" (n k)]> n) ∧
  s3VersionClock (s3DropNoncurrentNull k d).2 = s3VersionClock d.
Proof.
  intros [Hc Hv] Hk. unfold s3DropNoncurrentNull.
  assert (∀ x, x ∈ without "" (n k) ↔ x ∈ n k ∧ vid x ≠ "") as Hw.
  { intros x. unfold without. rewrite list_elem_of_filter. tauto. }
  destruct (store_get (s3ObjectVersions d) _) as [v|] eqn:E.
  - pose proof (ver_ok_delete _ _ k "" _ Hv Hk ltac:(done) Hw) as Hd.
    destruct (store_delete _ _) as [s deleted]. split; [by split|done].
  - split; [|done]. split; [done|]. apply ver_ok_same; [done|]. intros x. rewrite Hw.
    split; [|naive_solver]. intros Hx. split; [done|]. intros Hid. destruct Hv as (Hs & Hb & Hr).
    rewrite get_spec in E by done. assert (contents (s3ObjectVersions d) !! s3VersionStoreKey k "" = Some x) as Hsome; [|congruence].
    apply Hr. exists k. by rewrite Hid.
Qed.

Lemma holds_store d c n k o :
  holds d c n →
  holds (set_current (store_upsert (s3Objects d) k (λ _, o)) (s3ObjectTags d) d)
    (<[k := Some (MkVersion o false (default ∅ (Tags <$> c k)))]> c) n.
Proof.
  intros [Hc Hv]. split; [|done]. pose proof Hc as (Ho & Ht & H).
  destruct (upsert_spec (s3Objects d) k (λ _, o) Ho) as (Ho' & Eo).
  apply (cur_ok_change (s3Objects d) (s3ObjectTags d)); simpl; rewrite ?Eo, ?lookup_insert_eq; [exact Hc|done|done| |done|apply H|done].
  intros k' Hne. by rewrite lookup_insert_ne.
Qed.

(** With nothing current, the newest version becomes current unless it is a
    delete marker. *)
Lemma holds_promote d c n k :
  holds d c n → nul_free k → c k = None → StronglySorted later (n k) → NoDup (vid <$> n k) →
  holds (s3PromoteNewest k d) (<[k := current (n k)]> c) (<[k := noncurrent (n k)]> n) ∧
  s3VersionClock (s3PromoteNewest k d) = s3VersionClock d.
Proof.
  intros H Hk Ec Hs Hnd. unfold s3PromoteNewest. rewrite (noncurrent_listed d c n k H Hk Hs).
  pose proof (holds_same d c n k None (n k) H Ec ltac:(done)) as Hsame.
  destruct (n k) as [|v r] eqn:En; simpl; [done|]. destruct (DeleteMarker v) eqn:Em; [done|]. split; [|done].
  destruct H as [Hcur Hver]. pose proof Hver as (_ & Hb & _). destruct (Hb k v) as [_ Hid]; [rewrite En; left|]. split; simpl.
  - pose proof Hcur as (Ho & Ht & H). destruct (put_spec (s3Objects d) k (Object v) Ho) as (Ho' & Eo).
    destruct (put_spec (s3ObjectTags d) k (Tags v) Ht) as (Ht' & Et).
    assert (default ∅ (contents (s3ObjectTags d) !! k) = ∅) as Hempty by (destruct (H k) as (_ & -> & _); by rewrite Ec).
    eapply cur_ok_change; [exact Hcur|done|case_match; done| |by rewrite Eo, lookup_insert_eq| |done].
    + intros k' Hne. rewrite Eo, lookup_insert_ne by done. split; [done|]. case_match; [|done]. by rewrite Et, lookup_insert_ne.
    + simpl. destruct (Nat.ltb_spec 0 (size (Tags v))) as [|Hz]; [by rewrite Et, lookup_insert_eq|].
      rewrite Hempty. symmetry. apply map_size_empty_inv. lia.
  - apply (ver_ok_delete _ _ k (vid v)); [done..|]. intros x. rewrite En, elem_of_cons. simpl in Hnd. apply NoDup_cons in Hnd as [Hv _].
    split; [|naive_solver]. intros Hx. split; [by right|]. intros He. apply Hv. rewrite <- He. by apply list_elem_of_fmap_2.
Qed.

(** An operation on one key ends with that key's history in the stores. *)
Lemma settle d f d' c n k h :
  represents d f → holds d' c n →
  (∀ k', k' ≠ k → c k' = current (f k') ∧ n k' = noncurrent (f k')) →
  c k = current h → (∀ v, v ∈ n k ↔ v ∈ noncurrent h) →
  s3VersionClock d ≤ s3VersionClock d' → hist_ok (s3VersionClock d') h →
  represents d' (<[k := h]> f).
Proof.
  intros [_ Hok] [Hc Hv] He Ec En Hclock Hh. split; [split|].
  - eapply cur_ok_ext; [exact Hc|]. intros k'. destruct (decide (k' = k)) as [->|Hne]; [by rewrite fn_lookup_insert|].
    rewrite fn_lookup_insert_ne by done. by apply He.
  - eapply ver_ok_ext; [exact Hv|]. intros k' x. destruct (decide (k' = k)) as [->|Hne]; [by rewrite fn_lookup_insert|].
    rewrite fn_lookup_insert_ne by done. by rewrite (proj2 (He _ Hne)).
  - intros k'. destruct (decide (k' = k)) as [->|Hne]; [by rewrite fn_lookup_insert|].
    rewrite fn_lookup_insert_ne by done. by apply (hist_ok_sublist _ _ _ _ (Hok k')).
Qed.

Lemma represents_clock d f now : represents d f →
  holds (s3NextVersionSeq now d).2 (λ k, current (f k)) (λ k, noncurrent (f k)) ∧
  s3VersionClock (s3NextVersionSeq now d).2 = (s3NextVersionSeq now d).1 ∧ s3VersionClock d < (s3NextVersionSeq now d).1.
Proof. intros [H _]. simpl. split; [done|]. split; [done|lia]. Qed.

(** In a suspended bucket the null version makes way, current or not. *)
Lemma holds_suspended d f k :
  represents d f → nul_free k →
  ∀ d0, holds d0 (λ k, current (f k)) (λ k, noncurrent (f k)) →
  let d1 := (s3DropNoncurrentNull k d0).2 in
  let d2 := match store_get (s3Objects d1) k with
            | Some current => if negb (String.eqb (VersionID current) "") then s3ArchiveCurrent k d1 else d1
            | None => d1
            end in
  s3VersionClock d2 = s3VersionClock d0 ∧
  ∃ c n, holds d2 c n ∧ (∀ k', k' ≠ k → c k' = current (f k') ∧ n k' = noncurrent (f k')) ∧
    (∀ v, c k = Some v → current (f k) = Some v ∧ vid v = "") ∧
    default ∅ (Tags <$> c k) = inherited_tags (f k) ∧
    (∀ v, v ∈ n k ↔ v ∈ without "" (f k)).
Proof.
  intros [_ Hok] Hk d0 H0 d1 d2. destruct (hist_ok_parts _ _ (Hok k)) as (_ & _ & Hcur).
  destruct (holds_drop_null _ _ _ k H0 Hk) as [H1 Hc1]. fold d1 in H1, Hc1. unfold d2, inherited_tags.
  destruct (holds_current _ _ _ k H1) as [-> _].
  destruct (current (f k)) as [v|] eqn:E; simpl.
  - destruct (current_null _ _ E) as [Hsplit _]. change (VersionID (Object v)) with (vid v).
    destruct (String.eqb_spec (vid v) "") as [Hv|Hv]; simpl.
    + split; [done|]. eexists _, _. split; [exact H1|]. simpl. rewrite E, fn_lookup_insert. split_and!.
      * intros k' Hne. by rewrite fn_lookup_insert_ne.
      * naive_solver.
      * done.
      * intros x. rewrite Hsplit at 2. rewrite !elem_of_without, elem_of_cons. naive_solver.
    + destruct (holds_archive _ _ _ k H1 Hk) as [H2 Hc2].
      { rewrite E. intros w [= <-]. destruct (Hcur v eq_refl) as [? Hf]. split; [done|]. rewrite fn_lookup_insert.
        intros (x & Hx & Hin)%list_elem_of_fmap. apply elem_of_without in Hin as [Hin _]. apply Hf. rewrite Hx. by apply list_elem_of_fmap_2. }
      split; [congruence|]. eexists _, _. split; [exact H2|]. rewrite !fn_lookup_insert. simpl. rewrite E. split_and!.
      * intros k' Hne. by rewrite !fn_lookup_insert_ne.
      * done.
      * done.
      * intros x. simpl. rewrite Hsplit at 2. rewrite elem_of_cons, !elem_of_without, elem_of_cons. naive_solver.
  - split; [done|]. eexists _, _. split; [exact H1|]. rewrite fn_lookup_insert. simpl. rewrite E. split_and!; [|done|done|].
    + intros k' Hne. by rewrite fn_lookup_insert_ne.
    + intros x. rewrite (history_split (f k)) at 2. by rewrite E.
Qed.

Lemma hist_ok_head (status id : string) c h v :
  hist_ok c h → may_write status id h → c < vseq v →
  vid v = (if String.eqb status s3VersioningEnabled then id else "") →
  hist_ok (vseq v) (v :: (if String.eqb status s3VersioningEnabled then h else without "" h)).
Proof.
  intros Hok Hw Hseq Hid. assert (String.eqb status s3VersioningEnabled = true → status = s3VersioningEnabled) as He by apply String.eqb_eq.
  destruct (String.eqb status s3VersioningEnabled).
  - specialize (He eq_refl). destruct Hw as [[-> _]|[(_ & ? & ? & ?) | -> ]]; [done| |done].
    apply (hist_ok_cons c); [done..| |]; by rewrite Hid.
  - apply (hist_ok_cons c); [|done|by rewrite Hid|].
    + apply (hist_ok_sublist _ _ _ _ Hok); [apply sublist_filter|lia].
    + rewrite Hid. intros (x & Hx & Hin)%list_elem_of_fmap. by apply elem_of_without in Hin as [_ []].
Qed.

Lemma new_object_version status retention id seq obj body size :
  vid (MkVersion (new_object status retention id seq obj body size) false ∅) = (if String.eqb status s3VersioningEnabled then id else "") ∧
  vseq (MkVersion (new_object status retention id seq obj body size) false ∅) = seq ∧
  Key (new_object status retention id seq obj body size) = Key obj.
Proof. unfold new_object, vid, vseq. destruct retention as [[]|]; simpl; [|done]. by destruct (String.eqb (RetentionMode obj) ""). Qed.

Lemma unversioned_history c h :
  hist_ok c h → Forall (λ v, vid v = "" ∧ DeleteMarker v = false) h →
  noncurrent h = [] ∧ without "" h = [] ∧ inherited_tags h = default ∅ (Tags <$> current h).
Proof.
  intros (_ & Hnd & _) Hf. assert (without "" h = []) as ->.
  { apply elem_of_nil_inv. intros x [Hx Hne]%elem_of_without. rewrite Forall_forall in Hf. by destruct (Hf x Hx). }
  destruct h as [|v [|w h]]; [done|..].
  - apply Forall_cons in Hf as [[Hv Hm] _]. unfold inherited_tags. simpl. rewrite Hm. simpl. by rewrite Hv.
  - apply Forall_cons in Hf as [[Hv _] Hf]. apply Forall_cons in Hf as [[Hw _] _].
    simpl in Hnd. rewrite Hv, Hw in Hnd. apply NoDup_cons in Hnd as [[] _]. left.
Qed.

(** What a write leaves of the versions it finds, before it stores its own. *)
Definition room (status k : string) (d : db) : list string * db :=
  if String.eqb status s3VersioningEnabled then ([], s3ArchiveCurrent k d)
  else if String.eqb status s3VersioningSuspended then
    let '(dropped, d1) := s3DropNoncurrentNull k d in
    ([dropped], match store_get (s3Objects d1) k with
                | Some current => if negb (String.eqb (VersionID current) "") then s3ArchiveCurrent k d1 else d1
                | None => d1
                end)
  else ([], d).

Lemma s3StoreObject_room status retention now id obj body size d :
  let '(seq, d0) := s3NextVersionSeq now d in
  let o := new_object status retention id seq obj body size in
  let '(released, d1) := room status (Key obj) d0 in
  s3StoreObject status retention now id obj body size d =
  (o, released ++ [Body (default zero (store_get (s3Objects d1) (Key obj)))],
   set_current (store_upsert (s3Objects d1) (Key obj) (λ _, o)) (s3ObjectTags d1) d1).
Proof.
  unfold s3StoreObject, room, new_object. simpl.
  destruct retention as [[mode until]|]; simpl; destruct (String.eqb (RetentionMode obj) ""); simpl;
    (destruct (String.eqb status s3VersioningEnabled); simpl; [done|]);
    (destruct (String.eqb status s3VersioningSuspended); simpl; [|done]);
    destruct (s3DropNoncurrentNull _ _); done.
Qed.

Lemma put_makes_room d f d0 status id k :
  represents d f → nul_free k → may_write status id (f k) → holds d0 (λ k, current (f k)) (λ k, noncurrent (f k)) →
  s3VersionClock (room status k d0).2 = s3VersionClock d0 ∧
  ∃ c n, holds (room status k d0).2 c n ∧ (∀ k', k' ≠ k → c k' = current (f k') ∧ n k' = noncurrent (f k')) ∧
    default ∅ (Tags <$> c k) = (if String.eqb status s3VersioningEnabled then ∅ else inherited_tags (f k)) ∧
    (∀ v, v ∈ n k ↔ v ∈ if String.eqb status s3VersioningEnabled then f k else without "" (f k)).
Proof.
  intros H Hk Hw H0. unfold room. destruct Hw as [[-> Hu]|[[-> _]| ->]]; simpl.
  - split; [done|]. eexists _, _. split; [exact H0|]. simpl.
    destruct (unversioned_history _ _ (proj2 H k) Hu) as (-> & -> & ->). done.
  - destruct (hist_ok_parts _ _ (proj2 H k)) as (_ & _ & Hcur).
    destruct (holds_archive _ _ _ k H0 Hk Hcur) as [H1 Hc]. split; [done|]. eexists _, _. split; [exact H1|].
    rewrite !fn_lookup_insert. split; [|split; [done|]].
    + intros k' Hne. by rewrite !fn_lookup_insert_ne.
    + intros v. simpl. by rewrite <- history_split.
  - pose proof (holds_suspended d f k H Hk d0 H0) as Hs. destruct (s3DropNoncurrentNull k d0) as [dropped d1]. simpl in *.
    destruct Hs as (Hc & c & n & H2 & Hother & _ & Ht & Hn). eauto 10.
Qed.

Lemma hist_put_eq status o h :
  hist_put status o h =
  MkVersion o false (if String.eqb status s3VersioningEnabled then ∅ else inherited_tags h) ::
  (if String.eqb status s3VersioningEnabled then h else without "" h).
Proof. unfold hist_put. by destruct (String.eqb status s3VersioningEnabled). Qed.

(** A write puts its object on top of the key's history. *)
Lemma put_refines d f status retention now id obj body size :
  represents d f → nul_free (Key obj) → may_write status id (f (Key obj)) →
  let seq := Z.max now (s3VersionClock d + 1) in
  let o := new_object status retention id seq obj body size in
  let r := s3StoreObject status retention now id obj body size d in
  r.1.1 = o ∧ s3VersionClock r.2 = seq ∧ represents r.2 (<[Key obj := hist_put status o (f (Key obj))]> f).
Proof.
  intros H Hk Hw seq o r. destruct (represents_clock d f now H) as (H0 & Hclock & Hlt).
  pose proof (s3StoreObject_room status retention now id obj body size d) as Er. fold r in Er.
  destruct (put_makes_room d f _ status id (Key obj) H Hk Hw H0) as (Hc1 & c & n & H1 & Hother & Ht & Hn).
  destruct (s3NextVersionSeq now d) as [seq' d0] eqn:E. injection E as E _. simpl in *. subst seq'. fold seq in Er, Hlt, Hclock. fold o in Er.
  destruct (room status (Key obj) d0) as [released d1]. simpl in *. rewrite Er. simpl. split; [done|]. split; [congruence|].
  destruct (new_object_version status retention id seq obj body size) as (Hvid & Hvseq & _). fold o in Hvid, Hvseq.
  rewrite hist_put_eq, <- Ht. set (v := MkVersion o false _).
  eapply settle; [exact H|apply (holds_store _ _ _ (Key obj) o H1)| | |done|simpl; lia|].
  - intros k' Hne. rewrite fn_lookup_insert_ne by done. by apply Hother.
  - by rewrite fn_lookup_insert.
  - simpl. rewrite Hc1, Hclock. rewrite <- Hvseq. apply (hist_ok_head status id _ _ v (proj2 H (Key obj)) Hw); [|exact Hvid].
    change (vseq v) with (VersionSeq o). unfold vseq in Hvseq. simpl in Hvseq. lia.
Qed.

(** What a delete that names no version leaves before it writes its marker. *)
Definition cleared (status k : string) (d : db) : list string * db :=
  let '(released, d) := if String.eqb status s3VersioningSuspended then let '(r, d) := s3DropNoncurrentNull k d in ([r], d) else ([], d) in
  match store_get (s3Objects d) k with
  | None => (released, d)
  | Some current =>
      if String.eqb status s3VersioningEnabled || (String.eqb status s3VersioningSuspended && negb (String.eqb (VersionID current) ""))
      then (released, s3ArchiveCurrent k d)
      else (released ++ [Body current], set_current (store_delete (s3Objects d) k).1 (store_delete (s3ObjectTags d) k).1 d)
  end.

Lemma holds_no_current d c n k : holds d c n → c k = None → holds d (<[k := None]> c) n.
Proof.
  intros [Hc Hv] E. split; [|done]. eapply cur_ok_ext; [exact Hc|]. intros k'.
  destruct (decide (k' = k)) as [->|]; [by rewrite fn_lookup_insert|by rewrite fn_lookup_insert_ne].
Qed.

Lemma delete_clears d f status id k :
  represents d f → nul_free k → may_write status id (f k) →
  s3VersionClock (cleared status k d).2 = s3VersionClock d ∧
  ∃ c n, holds (cleared status k d).2 c n ∧ (∀ k', k' ≠ k → c k' = current (f k') ∧ n k' = noncurrent (f k')) ∧
    c k = None ∧ (∀ v, v ∈ n k ↔ v ∈ if String.eqb status s3VersioningEnabled then f k else without "" (f k)).
Proof.
  intros H Hk Hw. pose proof H as [H0 Hok].
  unfold cleared. destruct Hw as [[-> Hu]|[[-> _]| ->]].
  - simpl. destruct (unversioned_history _ _ (Hok k) Hu) as (En & -> & _). destruct (holds_current _ _ _ k H0) as [-> _].
    pose proof (holds_drop_current _ _ _ k H0) as Hd.
    destruct (current (f k)) as [v|] eqn:Ec; simpl; (split; [done|]).
    + eexists _, _. split; [exact Hd|]. rewrite fn_lookup_insert. simpl. rewrite En. split; [|done].
      intros k' Hne. by rewrite fn_lookup_insert_ne.
    + eexists _, _. split; [exact H0|]. simpl. by rewrite Ec, En.
  - simpl. destruct (hist_ok_parts _ _ (Hok k)) as (_ & _ & Hcur).
    destruct (holds_archive _ _ _ k H0 Hk Hcur) as [H1 Hc].
    assert (∀ x : list string, (match store_get (s3Objects d) k with None => (x, d) | Some _ => (x, s3ArchiveCurrent k d) end).2 = s3ArchiveCurrent k d) as E.
    { intros x. unfold s3ArchiveCurrent. by destruct (store_get (s3Objects d) k). }
    rewrite E. split; [done|]. eexists _, _. split; [exact H1|]. rewrite !fn_lookup_insert. split; [|split; [done|]].
    + intros k' Hne. by rewrite !fn_lookup_insert_ne.
    + intros v. simpl. by rewrite <- history_split.
  - simpl. pose proof (holds_suspended d f k H Hk d H0) as Hs. destruct (holds_drop_null _ _ _ k H0 Hk) as [H1 _].
    destruct (holds_current _ _ _ k H1) as [Ecur _]. destruct (s3DropNoncurrentNull k d) as [dropped d1]. simpl in *.
    destruct Hs as (Hc & c & n & H2 & Hother & Hnull & _ & Hn).
    destruct (store_get (s3Objects d1) k) as [o|] eqn:Eo; simpl in *.
    + destruct (String.eqb (VersionID o) "") eqn:Eid; simpl in *.
      * split; [done|]. eexists _, _. split; [apply (holds_drop_current _ _ _ k H2)|]. rewrite fn_lookup_insert. split; [|done].
        intros k' Hne. rewrite fn_lookup_insert_ne by done. by apply Hother.
      * split; [done|]. exists c, n. split; [done|]. split; [done|]. split; [|done].
        destruct (c k) as [v|]; [|done]. destruct (Hnull v eq_refl) as [Ec Hv]. rewrite Ec in Ecur. simpl in Ecur.
        apply String.eqb_neq in Eid. injection Ecur as ->. by destruct Eid.
    + split; [done|]. exists c, n. split; [done|]. split; [done|]. split; [|done].
      destruct (holds_current _ _ _ k H2) as [E _]. rewrite Eo in E. by destruct (c k).
Qed.

Lemma s3DeleteObject_cleared parse status now seq_now id k bypass d :
  let '(released, d1) := cleared status k d in
  let seq := Z.max seq_now (s3VersionClock d1 + 1) in
  let marker := new_marker status id k now seq in
  s3DeleteObject parse status now seq_now id k "" bypass d =
  Some (if String.eqb status "" then (MkDeleteResult "" false false, released, d1)
        else (MkDeleteResult (s3VersionLabel (VersionID marker)) true true, released,
              MkS3 (s3Objects d1) (s3ObjectTags d1)
                (store_put (s3ObjectVersions d1) (s3VersionStoreKey k (VersionID marker)) (MkVersion marker true ∅)) seq)).
Proof.
  unfold s3DeleteObject, cleared. simpl. destruct (String.eqb status s3VersioningSuspended); simpl.
  - destruct (s3DropNoncurrentNull k d) as [r d1]. destruct (store_get (s3Objects d1) k); [|by destruct (String.eqb status "")].
    destruct (_ || _); by destruct (String.eqb status "").
  - destruct (store_get (s3Objects d) k); [|by destruct (String.eqb status "")]. destruct (_ || _); by destruct (String.eqb status "").
Qed.

(** A delete that names no version puts a marker on top of the history, or
    empties that of a bucket without versions. *)
Lemma delete_refines parse d f status now seq_now id k bypass :
  represents d f → nul_free k → may_write status id (f k) →
  let seq := Z.max seq_now (s3VersionClock d + 1) in
  ∃ result released d', s3DeleteObject parse status now seq_now id k "" bypass d = Some (result, released, d') ∧
    s3VersionClock d' = (if String.eqb status "" then s3VersionClock d else seq) ∧
    represents d' (<[k := hist_delete status (new_marker status id k now seq) (f k)]> f).
Proof.
  intros H Hk Hw seq. destruct (delete_clears d f status id k H Hk Hw) as (Hc1 & c & n & H1 & Hother & Eck & Hn).
  pose proof (s3DeleteObject_cleared parse status now seq_now id k bypass d) as E.
  destruct (cleared status k d) as [released d1]. simpl in Hc1, H1. rewrite E, Hc1. fold seq. clear E.
  unfold hist_delete. destruct (String.eqb status "") eqn:Es.
  - apply String.eqb_eq in Es as ->. eexists _, _, _. split; [done|]. split; [done|].
    destruct Hw as [[_ Hu]|[[? _]|?]]; [|done..].
    destruct (unversioned_history _ _ (proj2 H k) Hu) as (_ & Hwo & _). simpl in Hn. rewrite Hwo in Hn.
    eapply settle; [exact H|exact H1|exact Hother|exact Eck|exact Hn|lia|]. split; [constructor|]. split; constructor.
  - eexists _, _, _. split; [done|]. split; [done|]. set (v := MkVersion (new_marker status id k now seq) true ∅).
    pose proof (hist_ok_head status id _ (f k) v (proj2 H k) Hw ltac:(unfold vseq; simpl; lia) eq_refl) as Hh.
    pose proof Hh as (_ & Hnd & Hf). apply Forall_cons in Hf as [[Hnull _] _]. simpl in Hnd. apply NoDup_cons in Hnd as [Hfresh _].
    eapply (settle d f _ c (<[k := v :: (if String.eqb status s3VersioningEnabled then f k else without "" (f k))]> n) k); [exact H| | | | | |exact Hh].
    + destruct H1 as [Hcur Hver]. split; [exact Hcur|]. apply (ver_ok_put _ _ k v _ Hver Hk Hnull).
      intros x. rewrite elem_of_cons, Hn. split; [|naive_solver]. intros [->|Hx]; [by left|]. right. split; [done|].
      intros Hid. apply Hfresh. rewrite <- Hid. by apply list_elem_of_fmap_2.
    + intros k' Hne. rewrite fn_lookup_insert_ne by done. by apply Hother.
    + exact Eck.
    + intros x. by rewrite fn_lookup_insert.
    + simpl. lia.
Qed.

Lemma represents_same d f k : represents d f → represents d (<[k := f k]> f).
Proof. intros H. eapply (settle d f d _ _ k (f k)); [exact H|apply H| |reflexivity|reflexivity|lia|apply H]. done. Qed.

Lemma holds_remove d c n k id w :
  holds d c n → nul_free k → id ≠ "null" → store_get (s3ObjectVersions d) (s3VersionStoreKey k id) = Some w →
  ∃ s, store_delete (s3ObjectVersions d) (s3VersionStoreKey k id) = (s, true) ∧
    holds (set_versions s d) c (<[k := without id (n k)]> n).
Proof.
  intros [Hc Hv] Hk Hid Hget. pose proof Hv as (Hs & _). rewrite get_spec in Hget by done.
  destruct (delete_spec (s3ObjectVersions d) (s3VersionStoreKey k id) Hs) as (_ & _ & Hb).
  pose proof (ver_ok_delete _ _ k id (without id (n k)) Hv Hk Hid (elem_of_without id (n k))) as Hd.
  destruct (store_delete _ _) as [s b]. simpl in *. exists s. split; [|by split].
  by rewrite Hb, bool_decide_eq_true_2 by (by rewrite Hget).
Qed.

(** A delete that names a version removes it and nothing else. *)
Lemma delete_version_refines d f k label :
  represents d f → nul_free k →
  let r := s3DeleteVersion k label d in
  s3VersionClock r.2 = s3VersionClock d ∧ represents r.2 (<[k := without (s3VersionIDFromLabel label) (f k)]> f).
Proof.
  intros H Hk r. pose proof H as [H0 Hok]. pose proof (Hok k) as Hh. destruct (hist_ok_parts _ _ Hh) as (Hs & Hnd & Hcur).
  set (id := s3VersionIDFromLabel label) in *. pose proof (s3VersionIDFromLabel_id label : id ≠ "null") as Hid.
  assert (hist_ok (s3VersionClock d) (without id (f k))) as Hh' by (apply (hist_ok_sublist _ _ _ _ Hh); [apply sublist_filter|lia]).
  unfold r, s3DeleteVersion. fold id. destruct (holds_current _ _ _ k H0) as [-> _].
  assert (store_get (s3ObjectVersions d) (s3VersionStoreKey k id) = version_of id (noncurrent (f k))) as Eget
    by exact (ver_ok_lookup _ (λ k, noncurrent (f k)) k id (proj2 H0) Hk Hid Hnd).
  rewrite Eget.
  destruct (current (f k)) as [v|] eqn:Ec; simpl.
  - destruct (current_null _ _ Ec) as [Esplit Hm]. change (VersionID (Object v)) with (vid v).
    destruct (String.eqb_spec (vid v) id) as [Ev|Ev].
    + simpl. pose proof (holds_drop_current _ _ _ k H0) as H1.
      destruct (holds_promote _ _ _ k H1 Hk (fn_lookup_insert _ _ _) Hs Hnd) as [H2 Hc2]. split; [by rewrite Hc2|].
      assert (without id (f k) = noncurrent (f k)) as Ew.
      { rewrite Esplit at 1. rewrite <- Ev. apply without_head. rewrite <- Esplit. apply Hh. }
      rewrite Ew in *. eapply settle; [exact H|exact H2| | | |rewrite Hc2; simpl; lia|by rewrite Hc2].
      * intros k' Hne. by rewrite !fn_lookup_insert_ne.
      * by rewrite fn_lookup_insert.
      * intros x. by rewrite fn_lookup_insert.
    + assert (without id (f k) = v :: without id (noncurrent (f k))) as Ew by (rewrite Esplit at 1; by apply without_cons).
      destruct (version_of id (noncurrent (f k))) as [w|] eqn:Ew'; simpl.
      * destruct (holds_remove _ _ _ k id w H0 Hk Hid Eget) as (s & Es & H1). rewrite Es. simpl.
        destruct (holds_current _ _ _ k H1) as [Ecur _]. simpl in Ecur. rewrite Ecur, Ec. simpl. split; [done|].
        eapply settle; [exact H|exact H1| | | |simpl; lia|done].
        -- intros k' Hne. by rewrite fn_lookup_insert_ne.
        -- simpl. by rewrite Ew, Ec; simpl; rewrite Hm.
        -- intros x. rewrite fn_lookup_insert, Ew. simpl. by rewrite Hm.
      * split; [done|]. apply version_of_None in Ew'. rewrite (without_absent id (noncurrent (f k)) Ew') in Ew.
        rewrite Ew, <- Esplit. by apply represents_same.
  - assert (noncurrent (f k) = f k) as En by (rewrite (history_split (f k)) at 2; by rewrite Ec).
    rewrite En in *. destruct (version_of id (f k)) as [w|] eqn:Ew'; simpl.
    * destruct (holds_remove _ _ _ k id w H0 Hk Hid Eget) as (s & Es & H1). rewrite Es. simpl.
      destruct (holds_current _ _ _ k H1) as [Ecur _]. simpl in Ecur. rewrite Ecur, Ec. simpl. rewrite En in H1.
      destruct (holds_promote _ _ _ k H1 Hk Ec) as [H2 Hc2]; [rewrite fn_lookup_insert; apply Hh'..|].
      split; [by rewrite Hc2|]. rewrite fn_lookup_insert in H2.
      eapply settle; [exact H|exact H2| | | |rewrite Hc2; simpl; lia|by rewrite Hc2].
      -- intros k' Hne. by rewrite !fn_lookup_insert_ne.
      -- by rewrite fn_lookup_insert.
      -- intros x. by rewrite fn_lookup_insert.
    * split; [done|]. apply version_of_None in Ew'. rewrite without_absent by done.
      by apply represents_same.
Qed.

Lemma ver_ok_update s n k id fn :
  ver_ok s n → nul_free k → id ≠ "null" → keeps_version fn →
  ver_ok (store_update s (s3VersionStoreKey k id) (updated_version fn)).1 (<[k := hist_update id fn (n k)]> n).
Proof.
  intros (Hs & Hb & Hr) Hk Hid Hfn. destruct (update_spec s (s3VersionStoreKey k id) (updated_version fn) Hs) as (Hok & Hc & _).
  pose proof (λ v, updated_version_id fn v Hfn) as Hv. split; [done|]. rewrite Hc. split.
  - intros k' x. destruct (decide (k' = k)) as [->|]; [|rewrite fn_lookup_insert_ne by done; apply Hb].
    rewrite fn_lookup_insert. intros (v & -> & Hx)%list_elem_of_fmap. destruct (Hb _ _ Hx).
    case_match; [destruct (Hv v) as (-> & _)|]; done.
  - intros i x. destruct (decide (i = s3VersionStoreKey k id)) as [->|Hne].
    + rewrite lookup_alter_eq, fmap_Some. setoid_rewrite Hr. split.
      * intros (v & (k' & Hx & E) & ->). destruct (Hb _ _ Hx) as [Hk' Hvid].
        apply s3VersionStoreKey_inj in E as [<- ->]; [|done..]. exists k. rewrite fn_lookup_insert. destruct (Hv v) as (-> & _).
        split; [|done]. apply list_elem_of_fmap. exists v. split; [|done]. by rewrite String.eqb_refl.
      * intros (k' & Hx & E). destruct (decide (k' = k)) as [->|Hne].
        -- rewrite fn_lookup_insert in Hx. apply list_elem_of_fmap in Hx as (v & -> & Hx). destruct (Hb _ _ Hx) as [_ Hvid].
           assert (vid v = id) as Ev.
           { apply s3VersionStoreKey_inj in E as [_ E]; [|done..|]; case_match; destruct (Hv v) as (Hve & _); congruence. }
           exists v. rewrite Ev, String.eqb_refl. split; [|done]. by exists k.
        -- rewrite fn_lookup_insert_ne in Hx by done. destruct (Hb _ _ Hx). apply s3VersionStoreKey_inj in E as [E _]; [congruence|done..].
    + rewrite lookup_alter_ne by done. rewrite Hr. split; intros (k' & Hx & ->); exists k'; (split; [|done]);
        (destruct (decide (k' = k)) as [->|]; [|by rewrite ?fn_lookup_insert_ne in * by done]).
      * rewrite fn_lookup_insert. apply list_elem_of_fmap. exists x. split; [|done].
        destruct (String.eqb_spec (vid x) id) as [E|]; [|done]. by rewrite E in Hne.
      * rewrite fn_lookup_insert in Hx. apply list_elem_of_fmap in Hx as (v & -> & Hx).
        destruct (String.eqb_spec (vid v) id) as [E|]; [|done]. destruct (Hv v) as (Ev & _). by rewrite Ev, E in Hne.
Qed.

Lemma holds_set_current d c n k o t :
  holds d c n →
  holds (set_current (store_put (s3Objects d) k o)
           (if (0 <? size t)%nat then store_put (s3ObjectTags d) k t else (store_delete (s3ObjectTags d) k).1) d)
    (<[k := Some (MkVersion o false t)]> c) n.
Proof.
  intros [Hc Hv]. split; [|done]. pose proof Hc as (Ho & Ht & _). destruct (put_spec (s3Objects d) k o Ho) as (Ho' & Eo).
  destruct (put_spec (s3ObjectTags d) k t Ht) as (Hp & Ep), (delete_spec (s3ObjectTags d) k Ht) as (Hd & Ed & _).
  apply (cur_ok_change (s3Objects d) (s3ObjectTags d)); simpl; [done|done|by case_match| |by rewrite Eo, lookup_insert_eq| |done].
  - intros k' Hne. rewrite Eo, lookup_insert_ne by done. split; [done|].
    case_match; [by rewrite Ep, lookup_insert_ne|by rewrite Ed, lookup_delete_ne].
  - destruct (Nat.ltb_spec 0 (size t)) as [|Hz]; [by rewrite Ep, lookup_insert_eq|].
    rewrite Ed, lookup_delete_eq. simpl. symmetry. apply map_size_empty_inv. lia.
Qed.

(** An update changes the version it names, current or not, unless that is a
    delete marker. *)
Lemma update_refines d f k id fn :
  represents d f → nul_free k → id ≠ "null" → keeps_version fn →
  let r := s3UpdateVersion k id fn d in
  r.1 = match version_of id (f k) with Some v => negb (DeleteMarker v) | None => false end ∧
  s3VersionClock r.2 = s3VersionClock d ∧ represents r.2 (<[k := hist_update id fn (f k)]> f).
Proof.
  intros H Hk Hid Hfn r. pose proof H as [H0 Hok]. pose proof (Hok k) as Hh. destruct (hist_ok_parts _ _ Hh) as (_ & Hnd & Hcur).
  destruct (hist_update_parts id fn (f k) Hfn) as [Euc Eun]. pose proof (hist_update_ok _ id fn _ Hfn Hh) as Hh'.
  pose proof (ver_ok_lookup _ (λ k, noncurrent (f k)) k id (proj2 H0) Hk Hid Hnd) as Eget.
  unfold r, s3UpdateVersion. destruct (holds_current _ _ _ k H0) as [-> ->].
  assert (∀ d', s3ObjectVersions d' = (store_update (s3ObjectVersions d) (s3VersionStoreKey k id) (updated_version fn)).1 →
    s3Objects d' = s3Objects d → s3ObjectTags d' = s3ObjectTags d → s3VersionClock d' = s3VersionClock d →
    current (hist_update id fn (f k)) = current (f k) → represents d' (<[k := hist_update id fn (f k)]> f)) as Hstored.
  { intros d' Ev Eo Et Eclock Ecur. destruct H0 as [Hc Hv]. eapply settle; [exact H| | | | |lia|by rewrite Eclock].
    - split; [rewrite Eo, Et; exact Hc|rewrite Ev; exact (ver_ok_update _ _ k id fn Hv Hk Hid Hfn)].
    - intros k' Hne. by rewrite fn_lookup_insert_ne.
    - by rewrite Ecur.
    - intros x. rewrite fn_lookup_insert, Eun. done. }
  rewrite Eget. destruct (current (f k)) as [v|] eqn:Ec; simpl.
  - destruct (current_null _ _ Ec) as [Esplit Hm]. destruct (Hcur v eq_refl) as [_ Hfresh]. change (VersionID (Object v)) with (vid v).
    assert (version_of id (f k) = if String.eqb (vid v) id then Some v else version_of id (noncurrent (f k))) as ->.
    { rewrite Esplit at 1. unfold version_of. rewrite filter_cons. destruct (String.eqb_spec (vid v) id); by case_decide. }
    simpl in Euc. destruct (String.eqb_spec (vid v) id) as [Ev|Ev].
    + rewrite Hm. unfold updated_version in Euc. rewrite Hm in Euc.
      destruct (fn (Object v) (Tags v)) as [o t]. simpl. split; [done|]. split; [done|].
      rewrite (hist_update_absent id fn (noncurrent (f k))) in Eun by (by rewrite <- Ev).
      eapply settle; [exact H|apply (holds_set_current _ _ _ k o t H0)| | | |simpl; lia|done].
      * intros k' Hne. by rewrite fn_lookup_insert_ne.
      * by rewrite fn_lookup_insert, Euc.
      * intros x. by rewrite Eun.
    + split; [done|]. split; [done|]. by apply Hstored.
  - assert (noncurrent (f k) = f k) as -> by (rewrite (history_split (f k)) at 2; by rewrite Ec).
    split; [done|]. split; [done|]. apply Hstored; [done..|]. by rewrite Euc.
Qed.

(** Reads answer what the history says. *)
Lemma lookup_refines d f k id :
  represents d f → nul_free k → id ≠ "null" → s3LookupVersion k id d = version_of id (f k).
Proof.
  intros [H0 Hok] Hk Hid. destruct (hist_ok_parts _ _ (Hok k)) as (_ & Hnd & _). unfold s3LookupVersion.
  destruct (holds_current _ _ _ k H0) as [-> ->]. rewrite (ver_ok_lookup _ _ k id (proj2 H0) Hk Hid Hnd).
  destruct (current (f k)) as [v|] eqn:Ec; simpl.
  - destruct (current_null _ _ Ec) as [Esplit Hm]. change (VersionID (Object v)) with (vid v). rewrite Esplit at 2.
    unfold version_of. rewrite filter_cons. destruct (String.eqb_spec (vid v) id); case_decide; try done.
    simpl. destruct v; simpl in *; by subst.
  - by rewrite (history_split (f k)) at 2; rewrite Ec.
Qed.

Lemma addressed_refines d f k label :
  represents d f → nul_free k → s3AddressedVersion k label d = hist_addressed label (f k).
Proof.
  intros H Hk. unfold s3AddressedVersion, hist_addressed. destruct label as [label|].
  - by rewrite (lookup_refines d f k _ H Hk (s3VersionIDFromLabel_id label)).
  - pose proof H as [H0 Hok]. destruct (hist_ok_parts _ _ (Hok k)) as (Hs & _ & _). unfold s3LatestDeleteMarker.
    rewrite (noncurrent_listed _ _ _ k H0 Hk Hs). destruct (holds_current _ _ _ k H0) as [-> ->].
    destruct (f k) as [|v h]; simpl; [done|]. destruct (DeleteMarker v) eqn:Em; simpl; [by rewrite Em|]. destruct v; simpl in *; by subst.
Qed.

(** ** Sequences of operations *)

Context (ParseRFC3339 : string → option Z).

Inductive s3op :=
| PutObject (status : string) (retention : option (string * string)) (now : Z) (id : string) (obj : S3Object) (body : string) (size : Z)
| DeleteObject (status : string) (now seq_now : Z) (id storeKey : string)
| DeleteObjectVersion (now : Z) (storeKey label : string) (bypass : bool)
| UpdateVersion (storeKey id : string) (fn : S3Object → tag_set → S3Object * tag_set).

Definition s3_step (d : db) (op : s3op) : db :=
  match op with
  | PutObject status retention now id obj body size => (s3StoreObject status retention now id obj body size d).2
  | DeleteObject status now seq_now id k =>
      from_option snd d (s3DeleteObject ParseRFC3339 status now seq_now id k "" false d)
  | DeleteObjectVersion now k label bypass =>
      from_option snd d (s3DeleteObject ParseRFC3339 "" now now "" k label bypass d)
  | UpdateVersion k id fn => (s3UpdateVersion k id fn d).2
  end.

(** The same operations on the histories, with the clock that orders them. *)
Definition hist_step (a : Z * (string → history)) (op : s3op) : Z * (string → history) :=
  let '(clock, f) := a in
  match op with
  | PutObject status retention now id obj body size =>
      let seq := Z.max now (clock + 1) in
      (seq, <[Key obj := hist_put status (new_object status retention id seq obj body size) (f (Key obj))]> f)
  | DeleteObject status now seq_now id k =>
      let seq := Z.max seq_now (clock + 1) in
      (if String.eqb status "" then clock else seq, <[k := hist_delete status (new_marker status id k now seq) (f k)]> f)
  | DeleteObjectVersion now k label bypass =>
      let id := s3VersionIDFromLabel label in
      match version_of id (f k) with
      | Some v => if negb (DeleteMarker v) && s3VersionProtected ParseRFC3339 (Object v) bypass now then a else (clock, <[k := without id (f k)]> f)
      | None => (clock, <[k := without id (f k)]> f)
      end
  | UpdateVersion k id fn => (clock, <[k := hist_update id fn (f k)]> f)
  end.

Definition op_valid (a : Z * (string → history)) (op : s3op) : Prop :=
  match op with
  | PutObject status _ _ id obj _ _ => nul_free (Key obj) ∧ may_write status id (a.2 (Key obj))
  | DeleteObject status _ _ id k => nul_free k ∧ may_write status id (a.2 k)
  | DeleteObjectVersion _ k label _ => nul_free k ∧ label ≠ ""
  | UpdateVersion k id fn => nul_free k ∧ id ≠ "null" ∧ keeps_version fn
  end.

Fixpoint ops_valid (a : Z * (string → history)) (ops : list s3op) : Prop :=
  match ops with [] => True | op :: ops => op_valid a op ∧ ops_valid (hist_step a op) ops end.

Lemma step_refines d f op :
  represents d f → op_valid (s3VersionClock d, f) op →
  let a := hist_step (s3VersionClock d, f) op in
  s3VersionClock (s3_step d op) = a.1 ∧ represents (s3_step d op) a.2.
Proof.
  intros H Hv. destruct op as [status retention now id obj body size|status now seq_now id k|now k label bypass|k id fn];
    simpl in Hv; destruct Hv as [Hk Hv]; simpl.
  - apply put_refines; done.
  - destruct (delete_refines ParseRFC3339 d f status now seq_now id k false H Hk Hv) as (res & rel & d' & -> & Hc & Hr). done.
  - unfold s3DeleteObject. destruct (String.eqb_spec label "") as [|_]; [done|]. simpl.
    rewrite (lookup_refines d f k _ H Hk (s3VersionIDFromLabel_id label)).
    destruct (delete_version_refines d f k label H Hk) as [Hc Hr].
    destruct (version_of _ (f k)) as [v|]; [|by split]. destruct (_ && _); by split.
  - destruct Hv as [Hid Hfn]. destruct (update_refines d f k id fn H Hk Hid Hfn) as (_ & ? & ?). done.
Qed.

#[local] Arguments hist_step : simpl never.
#[local] Arguments s3_step : simpl never.

Lemma ops_valid_app a ops ops' : ops_valid a (ops ++ ops') ↔ ops_valid a ops ∧ ops_valid (foldl hist_step a ops) ops'.
Proof. revert a. induction ops as [|op ops IH]; intros a; simpl; [tauto|]. rewrite IH. tauto. Qed.

Lemma steps_refine d f ops :
  represents d f → ops_valid (s3VersionClock d, f) ops →
  s3VersionClock (foldl s3_step d ops) = (foldl hist_step (s3VersionClock d, f) ops).1 ∧
  represents (foldl s3_step d ops) (foldl hist_step (s3VersionClock d, f) ops).2.
Proof.
  revert d f. induction ops as [|op ops IH]; intros d f H Hv; [done|]. simpl. destruct Hv as [Hop Hv].
  destruct (step_refines d f op H Hop) as [Hc Hr]. destruct (hist_step (s3VersionClock d, f) op) as [c f'] eqn:E.
  simpl in Hc, Hr. rewrite <- Hc in *. by apply IH.
Qed.

Definition empty_db (d : db) : Prop :=
  store_ok (s3Objects d) ∧ store_ok (s3ObjectTags d) ∧ store_ok (s3ObjectVersions d) ∧
  contents (s3Objects d) = ∅ ∧ contents (s3ObjectTags d) = ∅ ∧ contents (s3ObjectVersions d) = ∅.

Lemma empty_db_represents d : empty_db d → represents d (λ _, []).
Proof.
  intros (Ho & Ht & Hv & Eo & Et & Ev). split; [split|].
  - split; [done|]. split; [done|]. intros k. rewrite Eo, Et, !lookup_empty. done.
  - split; [done|]. split; [intros k v []%not_elem_of_nil|]. intros i v. rewrite Ev, lookup_empty. split; [done|].
    intros (k & []%not_elem_of_nil & _).
  - intros k. split; [constructor|]. split; constructor.
Qed.

(** [C24] Whatever writes, deletes, version deletes and updates a bucket's keys
    see, while its versioning is not configured yet and then enabled or suspended,
    each key without a NUL character answers as the stack of its versions would:
    a request for the key gets the newest version, or the delete marker that
    hides it; a request for a version gets that version; and the listing of
    noncurrent versions is the rest of the stack, newest first. This supposes
    ([op_valid]) that a bucket that has versions does not return to having no
    status, that the version ids minted are new, and that an update leaves the
    version's id and number as they are. *)
Theorem keys_are_stacks_of_versions (d : db) (ops : list s3op) (k : string) (label : option string) :
  empty_db d → ops_valid (s3VersionClock d, λ _, []) ops → nul_free k →
  let d' := foldl s3_step d ops in
  let h := (foldl hist_step (s3VersionClock d, λ _, []) ops).2 k in
  s3AddressedVersion k label d' = hist_addressed label h ∧ s3NoncurrentVersions k d' = noncurrent h ∧
  StronglySorted later h ∧ NoDup (vid <$> h).
Proof.
  intros He Hv Hk d' h. destruct (steps_refine d _ ops (empty_db_represents d He) Hv) as [_ H].
  split; [by apply addressed_refines|]. destruct H as [H Hok]. specialize (Hok k). destruct (hist_ok_parts _ _ Hok) as (Hs & _ & _).
  split; [|split; apply Hok]. exact (noncurrent_listed _ _ _ k H Hk Hs).
Qed.

(** ** Compliance retention

    Dates are nanoseconds; a written date keeps its milliseconds, for the years
    of four digits. *)
Context (FormatLock : Z → string) (year_10000 : Z).
Context (format_parses : ∀ u, 0 ≤ u < year_10000 → ParseRFC3339 (FormatLock u) = Some (u / 10^6 * 10^6)).

Definition retained (T : Z) (body : string) (v : s3ObjectVersion) : Prop :=
  DeleteMarker v = false ∧ Body (Object v) = body ∧ RetentionMode (Object v) = "COMPLIANCE" ∧
  ∃ u, ParseRFC3339 (RetainUntilDate (Object v)) = Some (u * 10^6) ∧ T ≤ u * 10^6.

Definition keeps_lock (fn : S3Object → tag_set → S3Object * tag_set) : Prop :=
  ∀ o t, Body (fn o t).1 = Body o ∧ RetentionMode (fn o t).1 = RetentionMode o ∧ RetainUntilDate (fn o t).1 = RetainUntilDate o.

(** Before [T]: any operation of a versioning-enabled bucket, with or without
    the governance bypass. The handler accepts a date whose UTC year is 10000
    (9999 with a negative offset); its stored form does not parse again, so such
    changes are left out here. *)
Definition before (T : Z) (op : s3op) : Prop :=
  match op with
  | PutObject status _ _ _ _ _ _ | DeleteObject status _ _ _ _ => status = s3VersioningEnabled
  | DeleteObjectVersion now _ _ _ => now < T
  | UpdateVersion _ _ fn =>
      keeps_lock fn ∨
      ∃ mode until bypass now, fn = put_retention ParseRFC3339 FormatLock mode until bypass now ∧ now < T ∧
        mode ∈ [""; "GOVERNANCE"; "COMPLIANCE"] ∧ 0 ≤ until < year_10000
  end.

Lemma retained_protected T body v bypass now :
  retained T body v → now < T → s3VersionProtected ParseRFC3339 (Object v) bypass now = true.
Proof.
  intros (_ & _ & Hm & u & Hp & Hu) Hnow. unfold s3VersionProtected, s3LockedUntil. rewrite Hm, Hp. simpl.
  destruct (String.eqb (LegalHoldStatus (Object v)) "ON"); [done|]. rewrite andb_true_r. apply Z.ltb_lt. lia.
Qed.

Lemma retained_updated T body v fn : retained T body v → before T (UpdateVersion "" "" fn) → retained T body (updated_version fn v).
Proof using format_parses.
  intros Hv [Hk|(mode & until & bypass & now & -> & Hnow & Hmode & Huntil)];
    pose proof Hv as (Hd & Hb & Hm & u & Hp & Hu); unfold updated_version; rewrite Hd.
  - destruct (Hk (Object v) (Tags v)) as (E1 & E2 & E3). destruct (fn (Object v) (Tags v)) as [o t]. simpl in *.
    unfold retained. simpl. rewrite E1, E2, E3. eauto 10.
  - unfold put_retention, s3RetentionChangeAllowed, s3LockedUntil. rewrite Hm, Hp. simpl.
    rewrite (proj2 (Z.ltb_lt now (u * 10^6))) by lia. simpl.
    destruct (String.eqb mode "") eqn:E0; simpl; [unfold retained; simpl; eauto 10|].
    destruct (Z.ltb_spec until (u * 10^6)) as [|Hle]; simpl; [unfold retained; simpl; eauto 10|].
    destruct (String.eqb mode "GOVERNANCE") eqn:E1; simpl; [unfold retained; simpl; eauto 10|].
    apply String.eqb_neq in E0, E1. assert (mode = "COMPLIANCE") as -> by set_solver.
    split; [done|]. split; [done|]. split; [done|]. exists (until / 10^6). split; [by apply format_parses|].
    pose proof (Z.div_le_mono (u * 10^6) until (10^6) ltac:(lia) Hle) as Hdiv. rewrite Z.div_mul in Hdiv by lia. lia.
Qed.

Lemma retained_step T body k id a op :
  NoDup (vid <$> a.2 k) → op_valid a op → before T op →
  (∃ v, v ∈ a.2 k ∧ vid v = id ∧ retained T body v) →
  ∃ v, v ∈ (hist_step a op).2 k ∧ vid v = id ∧ retained T body v.
Proof using format_parses.
  destruct a as [c f]. simpl. intros Hnd Hv Hb (v & Hin & Hid & Hr).
  assert (∀ k' h, (k' = k → v ∈ h) → v ∈ (<[k' := h]> f) k) as Hother.
  { intros k' h Hh. destruct (decide (k' = k)) as [->|]; [rewrite fn_lookup_insert; auto|by rewrite fn_lookup_insert_ne]. }
  destruct op as [status retention now id' obj body' size|status now seq_now id' k'|now k' label bypass|k' id' fn]; unfold hist_step; simpl in *.
  - exists v. split; [|done]. apply Hother. intros ->. subst status. by right.
  - exists v. split; [|done]. apply Hother. intros ->. subst status. by right.
  - exists v. split; [|done]. destruct (decide (k' = k ∧ s3VersionIDFromLabel label = id)) as [[-> El]|Hne].
    + rewrite El, (proj2 (version_of_Some id (f k) v Hnd) (conj Hin Hid)). pose proof Hr as (Hd & _). rewrite Hd. simpl.
      by rewrite (retained_protected T body v bypass now Hr Hb).
    + assert (∀ h, h = without (s3VersionIDFromLabel label) (f k') → v ∈ (<[k' := h]> f) k) as Hw.
      { intros h ->. apply Hother. intros ->. apply elem_of_without. split; [done|]. naive_solver. }
      repeat case_match; simpl; auto.
  - destruct (decide (k' = k ∧ id' = id)) as [[-> ->]|Hne].
    + exists (updated_version fn v). destruct (updated_version_id fn v) as (-> & _); [apply Hv|]. split; [|split; [done|by apply retained_updated]].
      simpl. rewrite fn_lookup_insert. apply list_elem_of_fmap. exists v. rewrite Hid, String.eqb_refl. done.
    + exists v. split; [|done]. apply Hother. intros ->. apply list_elem_of_fmap. exists v. split; [|done].
      destruct (String.eqb_spec (vid v) id'); naive_solver.
Qed.

Lemma retained_steps T body k id ops d f :
  represents d f → ops_valid (s3VersionClock d, f) ops → Forall (before T) ops →
  (∃ v, v ∈ f k ∧ vid v = id ∧ retained T body v) →
  ∃ v, v ∈ (foldl hist_step (s3VersionClock d, f) ops).2 k ∧ vid v = id ∧ retained T body v.
Proof using format_parses.
  revert d f. induction ops as [|op ops IH]; intros d f H Hv Hb Hr; [done|]. simpl. destruct Hv as [Hop Hv]. apply Forall_cons in Hb as [Hb1 Hb].
  destruct (step_refines d f op H Hop) as [Hc Hr']. apply (retained_step T body k id (s3VersionClock d, f) op) in Hr; [|apply H|done..].
  destruct (hist_step (s3VersionClock d, f) op) as [c f'] eqn:E. simpl in Hc, Hr, Hr'. rewrite <- Hc in *. by apply (IH (s3_step d op)).
Qed.

(** [C25] Object Lock in compliance mode holds in a bucket whose versioning stays
    enabled: a version with an id of its own (not the null version) under a key
    without a NUL character, retained until [T] or later by a date of whole
    milliseconds, is still there, with its contents and a retention that still
    runs to [T], after any writes, deletes and version deletes made before [T]
    and any retention changes made before [T] whose date lies before the year
    10000 in UTC, governance bypass or not. *)
Theorem compliance_retention_holds (d : db) (ops ops' : list s3op) (k id body : string) (T : Z) (v : s3ObjectVersion) :
  empty_db d → ops_valid (s3VersionClock d, λ _, []) (ops ++ ops') → nul_free k → id ≠ "null" → Forall (before T) ops' →
  s3LookupVersion k id (foldl s3_step d ops) = Some v → retained T body v →
  ∃ v', s3LookupVersion k id (foldl s3_step d (ops ++ ops')) = Some v' ∧ retained T body v'.
Proof using format_parses.
  intros He Hv Hk Hid Hb Hl Hr. pose proof (empty_db_represents d He) as H0.
  apply ops_valid_app in Hv as [Hv1 Hv2].
  destruct (steps_refine d _ ops H0 Hv1) as [Hc H1]. destruct (foldl hist_step _ ops) as [c f] eqn:E. simpl in Hc, H1.
  rewrite <- Hc in *. rewrite (lookup_refines _ f k id H1 Hk Hid) in Hl.
  apply version_of_Some in Hl as [Hin Hvid]; [|apply H1]. rewrite foldl_app.
  destruct (retained_steps T body k id ops' _ f H1 Hv2 Hb) as (v' & Hin' & Hid' & Hr'); [eauto|].
  exists v'. split; [|done]. destruct (steps_refine _ _ ops' H1 Hv2) as [_ H2].
  rewrite (lookup_refines _ _ k id H2 Hk Hid). apply version_of_Some; [apply H2|done].
Qed.

End Refine.

(** ** Witnesses *)

Definition w_db : s3_db (Z * MemoryStore S3Object) (Z * MemoryStore tag_set) (Z * MemoryStore s3ObjectVersion) :=
  MkS3 (NewStateStore 0) (NewStateStore 0) (NewStateStore 0) 0.

Definition w_object (key mode until : string) : S3Object := MkObject key "" "" zero "e" 0 0 "" mode until "" 0.

(** A versioned object is deleted, and its delete marker is deleted in turn. *)
Definition w_ops : list s3op :=
  [PutObject s3VersioningEnabled None 5 "v1" (w_object "b/a" "" "") "c1" 3;
   DeleteObject s3VersioningEnabled 6 6 "m1" "b/a";
   DeleteObjectVersion 7 "b/a" "m1" false].

Definition w_format (u : Z) : string := Itoa (u / 10^6 * 10^6).
Definition w_retention : s3op := PutObject s3VersioningEnabled None 5 "v1" (w_object "b/a" "COMPLIANCE" "9000000") "c1" 3.
Definition w_attack : list s3op :=
  [DeleteObject s3VersioningEnabled 6 6 "m1" "b/a";
   UpdateVersion "b/a" "v1" (put_retention ParseInt w_format "" 0 true 7);
   DeleteObjectVersion 8 "b/a" "v1" true].

Lemma w_db_empty : empty_db w_db.
Proof. split; [apply NewStateStore_wf|]. split; [apply NewStateStore_wf|]. split; [apply NewStateStore_wf|done]. Qed.

Lemma w_may_write id h : id ≠ "" → id ≠ "null" → id ∉ vid <$> h → may_write s3VersioningEnabled id h.
Proof. intros. right. by left. Qed.

Lemma put_retention_keeps parse format mode until bypass now : keeps_version (put_retention parse format mode until bypass now).
Proof. intros o t. unfold put_retention. by destruct (negb _). Qed.

Lemma w_ops_valid : ops_valid ParseInt (0, λ _, []) w_ops.
Proof.
  split; [split; [by apply (bool_decide_unpack _)|apply w_may_write; [done|done|apply not_elem_of_nil]]|].
  split; [split; [by apply (bool_decide_unpack _)|apply w_may_write; [done|done|]]|].
  - by apply (bool_decide_unpack _).
  - split; [|done]. by split; [apply (bool_decide_unpack _)|].
Qed.

Lemma keys_are_stacks_of_versions_witness :
  s3AddressedVersion "b/a" None (foldl (s3_step ParseInt) w_db w_ops) =
  Found (MkVersion (MkObject "b/a" "c1" "" zero "e" 0 3 "" "" "" "v1" 5) false ∅).
Proof.
  destruct (keys_are_stacks_of_versions ParseInt w_db w_ops "b/a" None w_db_empty w_ops_valid) as [H _].
  - by apply (bool_decide_unpack _).
  - rewrite H. reflexivity.
Defined.

Lemma w_format_parses u : 0 ≤ u < 2^62 → ParseInt (w_format u) = Some (u / 10^6 * 10^6).
Proof.
  intros Hu. apply ParseInt_Itoa. pose proof (Z.mul_div_le u (10^6) ltac:(lia)). pose proof (Z.div_pos u (10^6) ltac:(lia) ltac:(lia)).
  unfold in_i64. lia.
Qed.

Lemma w_attack_valid : ops_valid ParseInt (0, λ _, []) ([w_retention] ++ w_attack).
Proof.
  split; [split; [by apply (bool_decide_unpack _)|apply w_may_write; [done|done|apply not_elem_of_nil]]|].
  split; [split; [by apply (bool_decide_unpack _)|apply w_may_write; [done|done|by apply (bool_decide_unpack _)]]|].
  split; [split; [by apply (bool_decide_unpack _)|split; [done|apply put_retention_keeps]]|].
  split; [|done]. by split; [apply (bool_decide_unpack _)|].
Qed.

Lemma compliance_retention_holds_witness :
  ∃ v, s3LookupVersion "b/a" "v1" (foldl (s3_step ParseInt) w_db ([w_retention] ++ w_attack)) = Some v ∧ retained ParseInt 9 "c1" v.
Proof.
  apply (compliance_retention_holds ParseInt w_format (2^62) w_format_parses w_db [w_retention] w_attack "b/a" "v1" "c1" 9
           (MkVersion (MkObject "b/a" "c1" "" zero "e" 0 3 "" "COMPLIANCE" "9000000" "v1" 5) false ∅) w_db_empty w_attack_valid).
  - by apply (bool_decide_unpack _).
  - done.
  - constructor; [done|]. constructor; [|constructor; [done|constructor]].
    right. exists "", 0, true, 7. split; [done|]. split; [lia|]. split; [left|lia].
  - vm_compute. reflexivity.
  - split; [done|]. split; [done|]. split; [done|]. exists 9. split; [vm_compute; reflexivity|lia].
Defined.

(** ** Behaviour to note *)

(** A write that replaces an object in a bucket without versioning takes over
    the tags of the object it replaces; [PutObject] then sets its own, a copy
    and a completed multipart upload do not. *)
Example overwrite_keeps_tags :
  let put body := PutObject "" None 5 "" (w_object "b/a" "" "") body 3 in
  match s3AddressedVersion "b/a" None
          (foldl (s3_step ParseInt) w_db [put "c1"; UpdateVersion "b/a" "" (λ o _, (o, {["class" := "secret"]})); put "c2"]) with
  | Found v => (Body (Object v), Tags v !! "class")
  | _ => ("", None)
  end = ("c2", Some "secret").
Proof. vm_compute. reflexivity. Qed.

(** The versions of a key that continues another with a NUL count as that
    key's: deleting [b/a] for good brings back a version of the other key. *)
Example nul_keys_share_versions :
  let put k id body := PutObject s3VersioningEnabled None 5 id (w_object k "" "") body 3 in
  let other := "b/a" +:+ NUL +:+ "x" in
  match s3AddressedVersion "b/a" None
          (foldl (s3_step ParseInt) w_db [put other "v1" "c1"; put other "v2" "c2"; put "b/a" "v3" "c3"; DeleteObjectVersion 9 "b/a" "v3" false]) with
  | Found v => (Key (Object v), Body (Object v))
  | _ => ("", "")
  end = ("b/a" +:+ NUL +:+ "x", "c1").
Proof. vm_compute. reflexivity. Qed.

(** A versioning body without a [Status] clears a bucket's status. A write then
    replaces the newest version instead of archiving it, and a delete removes it
    for good: no request finds the version again. *)
Example cleared_status_loses_versions :
  let put status id body := PutObject status None 5 id (w_object "b/a" "" "") body 3 in
  let found ops := bool_decide (is_Some (s3LookupVersion "b/a" "v1" (foldl (s3_step ParseInt) w_db ops))) in
  found [put s3VersioningEnabled "v1" "c1"; put s3VersioningEnabled "v2" "c2"] = true ∧
  found [put s3VersioningEnabled "v1" "c1"; put "" "v2" "c2"] = false ∧
  found [put s3VersioningEnabled "v1" "c1"; DeleteObject "" 6 6 "m1" "b/a"] = false.
Proof. vm_compute. done. Qed.
