(* ===== verification/Kinesis.v ===== *)
(** * Stream shards: [src/simulator-aws/kinesis_resharding.go], [kinesis.go]

    A Kinesis stream divides the 128-bit hash keys among its open shards. Shards
    are split and merged on request or towards a target count; a replaced shard
    is closed and stays for its readers. This file models the shards, the
    resharding behind [SplitShard], [MergeShards] and [UpdateShardCount] and the
    placement of records, over the record log of [Streamlog], and proves that
    the open shards always divide the whole key space and that a uniform
    resharding reaches its target. Fields of a stream that are only echoed back
    are left out. A range that does not parse is a nil [*big.Int], and a
    comparison with it a panic: the outer [None]. *)

From stdpp Require Import functions.
From S2P Require Import Prelude Gostd Store Streamlog Bigrat.

(** ** Data *)

Record KinesisShard := MkShard {
  ShardId : string;
  HashKeyRange : gmap string string;
  SequenceNumberRange : gmap string string;
  ParentShardId : string;
  AdjacentParentShardId : string;
}.

Record KinesisStream := MkStream {
  StreamName : string;
  StreamStatus : string;
  StreamModeDetails : gmap string string;
  Shards : list KinesisShard;
  RetentionPeriodHours : Z;
  OpenShardCount : Z;
  RecordDistributionStrategy : string;
  ScalingTimes : list Z;
}.

#[global] Instance GoZero_KinesisShard : GoZero KinesisShard := MkShard "" ∅ ∅ "" "".

Definition set_shards (shards : list KinesisShard) (s : KinesisStream) : KinesisStream :=
  MkStream (StreamName s) (StreamStatus s) (StreamModeDetails s) shards (RetentionPeriodHours s) (OpenShardCount s)
    (RecordDistributionStrategy s) (ScalingTimes s).
Definition set_count (n : Z) (s : KinesisStream) : KinesisStream :=
  MkStream (StreamName s) (StreamStatus s) (StreamModeDetails s) (Shards s) (RetentionPeriodHours s) n
    (RecordDistributionStrategy s) (ScalingTimes s).
Definition set_status (status : string) (s : KinesisStream) : KinesisStream :=
  MkStream (StreamName s) status (StreamModeDetails s) (Shards s) (RetentionPeriodHours s) (OpenShardCount s)
    (RecordDistributionStrategy s) (ScalingTimes s).
Definition set_scaling_times (times : list Z) (s : KinesisStream) : KinesisStream :=
  MkStream (StreamName s) (StreamStatus s) (StreamModeDetails s) (Shards s) (RetentionPeriodHours s) (OpenShardCount s)
    (RecordDistributionStrategy s) times.

Definition StartingHashKey : string := "StartingHashKey".
Definition EndingHashKey : string := "EndingHashKey".
Definition EndingSequenceNumber : string := "EndingSequenceNumber".

(** Indexing a Go map of strings. *)
Definition index (m : gmap string string) (k : string) : string := default "" (m !! k).

(** ** Shards *)

(** [fmt.Sprintf("%012d", n)]: zeros up to twelve columns, the sign included. *)
Definition zero_pad (width : nat) (s : string) : string := text (replicate (width - String.length s) (digit 0)) +:+ s.
Definition pad12 (n : Z) : string := if n <? 0 then String minus (zero_pad 11 (Itoa (- n))) else zero_pad 12 (Itoa n).

Definition shard_prefix : string := "shardId-".

Definition hash_keys (start ending : string) : gmap string string := {[StartingHashKey := start; EndingHashKey := ending]}.
Definition first_sequence : gmap string string := {["StartingSequenceNumber" := "1"]}.

Definition maxHash : Z := Z.shiftl 1 128 - 1.

Definition make_shard (count i : Z) : KinesisShard :=
  let start := maxHash * i / count in
  let ending := maxHash * (i + 1) / count in
  let start := if 0 <? i then start + 1 else start in
  MkShard (shard_prefix +:+ pad12 i) (hash_keys (big_String start) (big_String ending)) first_sequence "" "".

Definition kinesisMakeShards (count : Z) : list KinesisShard :=
  let count := if count <? 1 then 1 else count in
  make_shard count <$> seqZ 0 count.

Definition kinesisShardClosed (shard : KinesisShard) : bool := bool_decide (is_Some (SequenceNumberRange shard !! EndingSequenceNumber)).
Definition open (shard : KinesisShard) : bool := negb (kinesisShardClosed shard).

Definition kinesisHashRange (shard : KinesisShard) : option Z * option Z :=
  (Int_SetString (index (HashKeyRange shard) StartingHashKey), Int_SetString (index (HashKeyRange shard) EndingHashKey)).

(** [Cmp] of two results of [SetString]. *)
Definition cmp (x y : option Z) : option comparison :=
  match x, y with Some x, Some y => Some (Z.compare x y) | None, None => Some Eq | _, _ => None end.

Definition starts_before (a b : KinesisShard) : bool :=
  match cmp (kinesisHashRange a).1 (kinesisHashRange b).1 with Some Lt => true | _ => false end.

(** Sorting two shards or more compares each of them with another. *)
Definition kinesisOpenShards (stream : KinesisStream) : option (list KinesisShard) :=
  let shards := filter (λ s, open s = true) (Shards stream) in
  if (length shards <=? 1)%nat || forallb (λ s, bool_decide (is_Some (kinesisHashRange s).1)) shards
  then Some (SliceStable starts_before shards) else None.

Definition kinesisSequenceNumber (seq : Z) : string := Itoa (i64 (seq + 1)).
Definition kinesisShardRecordKey (streamName shardID : string) : string := streamName +:+ "/" +:+ shardID.

Definition next_number (maxN : Z) (sh : KinesisShard) : Z :=
  match ParseInt (TrimPrefix (ShardId sh) shard_prefix) with Some n => if maxN <? n then n else maxN | None => maxN end.

Definition kinesisNextShardID (stream : KinesisStream) : string :=
  shard_prefix +:+ pad12 (i64 (foldl next_number (-1) (Shards stream) + 1)).

Definition kinesisOpenShardCount (shards : list KinesisShard) : Z := Z.of_nat (length (filter (λ s, open s = true) shards)).

Definition kinesisFindShard (stream : KinesisStream) (shardID : string) : option KinesisShard :=
  List.find (λ sh, String.eqb (ShardId sh) shardID) (Shards stream).

Definition kinesisAdjacent (a b : KinesisShard) : option bool :=
  let '(aStart, aEnd) := kinesisHashRange a in
  let '(bStart, bEnd) := kinesisHashRange b in
  aEnd ← aEnd; c ← cmp (Some (aEnd + 1)) bStart;
  if bool_decide (c = Eq) then Some true
  else (bEnd ← bEnd; c ← cmp (Some (bEnd + 1)) aStart; Some (bool_decide (c = Eq))).

(** ** Resharding *)

Section Reshard.
Context {Sr Sh V : Type} `{!GoZero V, !Store Sr (Record_ V), !Store Sh Head}.
Context (log : Log Sr Sh).

Definition close_shard (streamName shardID : string) (sh : KinesisShard) : KinesisShard :=
  if negb (String.eqb (ShardId sh) shardID) || kinesisShardClosed sh then sh
  else
    let head := HeadOf log (kinesisShardRecordKey streamName shardID) in
    MkShard (ShardId sh) (HashKeyRange sh)
      (<[EndingSequenceNumber := kinesisSequenceNumber (Z.max (i64 (Next head - 1)) 0)]> (SequenceNumberRange sh))
      (ParentShardId sh) (AdjacentParentShardId sh).

Definition kinesisCloseShard (shardID : string) (stream : KinesisStream) : KinesisStream :=
  set_shards (close_shard (StreamName stream) shardID <$> Shards stream) stream.

Definition add_shard (sh : KinesisShard) (stream : KinesisStream) : KinesisStream := set_shards (Shards stream ++ [sh]) stream.

Definition kinesisSplitShard (parent : KinesisShard) (newStart : Z) (stream : KinesisStream) : KinesisStream :=
  let low := MkShard (kinesisNextShardID stream) (hash_keys (index (HashKeyRange parent) StartingHashKey) (big_String (newStart - 1)))
               first_sequence (ShardId parent) "" in
  let stream := add_shard low stream in
  let high := MkShard (kinesisNextShardID stream) (hash_keys (big_String newStart) (index (HashKeyRange parent) EndingHashKey))
                first_sequence (ShardId parent) "" in
  let stream := kinesisCloseShard (ShardId parent) (add_shard high stream) in
  set_count (kinesisOpenShardCount (Shards stream)) stream.

Definition kinesisMergeShards (parent adjacent : KinesisShard) (stream : KinesisStream) : option KinesisStream :=
  c ← cmp (kinesisHashRange parent).1 (kinesisHashRange adjacent).1;
  let '(lower, upper) := if bool_decide (c = Gt) then (adjacent, parent) else (parent, adjacent) in
  let child := MkShard (kinesisNextShardID stream)
                 (hash_keys (index (HashKeyRange lower) StartingHashKey) (index (HashKeyRange upper) EndingHashKey))
                 first_sequence (ShardId parent) (ShardId adjacent) in
  let stream := kinesisCloseShard (ShardId adjacent) (kinesisCloseShard (ShardId parent) (add_shard child stream)) in
  Some (set_count (kinesisOpenShardCount (Shards stream)) stream).
(** The first open shard the boundary falls inside. *)
Fixpoint find_spanning (boundary : option Z) (shards : list KinesisShard) : option (option KinesisShard) :=
  match shards with
  | [] => Some None
  | shard :: shards =>
      let '(start, ending) := kinesisHashRange shard in
      c ← cmp start boundary;
      if bool_decide (c = Lt) then
        c ← cmp boundary ending;
        if bool_decide (c ≠ Gt) then Some (Some shard) else find_spanning boundary shards
      else find_spanning boundary shards
  end.

Fixpoint split_boundaries (targets : list KinesisShard) (stream : KinesisStream) : option KinesisStream :=
  match targets with
  | [] => Some stream
  | targetShard :: targets =>
      let boundary := (kinesisHashRange targetShard).1 in
      open ← kinesisOpenShards stream;
      spanning ← find_spanning boundary open;
      split_boundaries targets
        (match spanning, boundary with Some shard, Some b => kinesisSplitShard shard b stream | _, _ => stream end)
  end.

(** The open shards inside a target range. *)
Fixpoint pieces_of (targetStart targetEnd : option Z) (shards : list KinesisShard) : option (list KinesisShard) :=
  match shards with
  | [] => Some []
  | shard :: shards =>
      let '(start, ending) := kinesisHashRange shard in
      c ← cmp start targetStart;
      inside ← (if bool_decide (c ≠ Lt) then c ← cmp ending targetEnd; Some (bool_decide (c ≠ Gt)) else Some false);
      pieces ← pieces_of targetStart targetEnd shards;
      Some (if inside : bool then shard :: pieces else pieces)
  end.

(** Each merge leaves one open shard less, so their number bounds the rounds. *)
Fixpoint merge_pieces (fuel : nat) (targetStart targetEnd : option Z) (stream : KinesisStream) : option KinesisStream :=
  match fuel with
  | O => Some stream
  | S fuel =>
      open ← kinesisOpenShards stream;
      pieces ← pieces_of targetStart targetEnd open;
      match pieces with
      | p0 :: p1 :: _ => stream ← kinesisMergeShards p0 p1 stream; merge_pieces fuel targetStart targetEnd stream
      | _ => Some stream
      end
  end.

Fixpoint merge_targets (targets : list KinesisShard) (stream : KinesisStream) : option KinesisStream :=
  match targets with
  | [] => Some stream
  | targetShard :: targets =>
      let '(targetStart, targetEnd) := kinesisHashRange targetShard in
      stream ← merge_pieces (length (Shards stream)) targetStart targetEnd stream;
      merge_targets targets stream
  end.

Definition kinesisReshardUniformly (target : Z) (stream : KinesisStream) : option KinesisStream :=
  let uniform := kinesisMakeShards target in
  stream ← split_boundaries (tail uniform) stream;
  merge_targets uniform stream.

(** ** The requests *)

(** What a request leaves for the background to apply. *)
Inductive reshard :=
| Split (parent : KinesisShard) (newStart : Z)
| Merge (leftShard rightShard : KinesisShard)
| Uniform (target : Z).

Definition apply_reshard (r : reshard) (stream : KinesisStream) : option KinesisStream :=
  match r with
  | Split parent newStart => Some (kinesisSplitShard parent newStart stream)
  | Merge leftShard rightShard => kinesisMergeShards leftShard rightShard stream
  | Uniform target => kinesisReshardUniformly target stream
  end.

(** The background half of [kinesisReshardInBackground]; [None] inside is a
    stream that is no longer updating. *)
Definition finish_reshard (r : reshard) (stream : KinesisStream) : option (option KinesisStream) :=
  if String.eqb (StreamStatus stream) "UPDATING" then
    stream ← apply_reshard r stream; Some (Some (set_status "ACTIVE" stream))
  else Some None.
End Reshard.

Definition kinesisReshardInBackground (stream : KinesisStream) (r : reshard) : KinesisStream * reshard :=
  (set_status "UPDATING" stream, r).

Inductive kinesis_error :=
| ResourceInUse
| ShardNotFound
| NotEligible (shardID : string)
| NotAdjacent
| NotANumber
| OutOfRange
| TargetTooSmall
| OnDemand
| ScaledTooOften
| OverDouble
| BelowHalf
| OverLimit.

Definition kinesisShardLimit : Z := 10000.

Definition handleKinesisSplitShard (stream : KinesisStream) (ShardToSplit NewStartingHashKey : string)
    : option (result kinesis_error (KinesisStream * reshard)) :=
  if negb (String.eqb (StreamStatus stream) "ACTIVE") then Some (Err ResourceInUse)
  else match kinesisFindShard stream ShardToSplit with
  | None => Some (Err ShardNotFound)
  | Some parent =>
      if kinesisShardClosed parent then Some (Err (NotEligible (ShardId parent)))
      else match Int_SetString NewStartingHashKey with
      | None => Some (Err NotANumber)
      | Some newStart =>
          let '(start, ending) := kinesisHashRange parent in
          c ← cmp (Some newStart) start;
          if bool_decide (c ≠ Gt) then Some (Err OutOfRange)
          else (c ← cmp (Some newStart) ending;
                if bool_decide (c = Gt) then Some (Err OutOfRange)
                else Some (Ok (kinesisReshardInBackground stream (Split parent newStart))))
      end
  end.

Definition handleKinesisMergeShards (stream : KinesisStream) (ShardToMerge AdjacentShardToMerge : string)
    : option (result kinesis_error (KinesisStream * reshard)) :=
  if negb (String.eqb (StreamStatus stream) "ACTIVE") then Some (Err ResourceInUse)
  else match kinesisFindShard stream ShardToMerge, kinesisFindShard stream AdjacentShardToMerge with
  | Some leftShard, Some rightShard =>
      if kinesisShardClosed leftShard then Some (Err (NotEligible (ShardId leftShard)))
      else if kinesisShardClosed rightShard then Some (Err (NotEligible (ShardId rightShard)))
      else adjacent ← kinesisAdjacent leftShard rightShard;
           if negb adjacent then Some (Err NotAdjacent)
           else Some (Ok (kinesisReshardInBackground stream (Merge leftShard rightShard)))
  | _, _ => Some (Err ShardNotFound)
  end.

(** [now] in nanoseconds, scaling times in seconds. *)
Definition handleKinesisUpdateShardCount (stream : KinesisStream) (now TargetShardCount : Z)
    : result kinesis_error (KinesisStream * reshard) :=
  if TargetShardCount <? 1 then Err TargetTooSmall
  else if String.eqb (index (StreamModeDetails stream) "StreamMode") "ON_DEMAND" then Err OnDemand
  else if negb (String.eqb (StreamStatus stream) "ACTIVE") then Err ResourceInUse
  else
    let current := kinesisOpenShardCount (Shards stream) in
    let recent := filter (λ at_, now - at_ * 10^9 < 24 * 3600 * 10^9) (ScalingTimes stream) in
    if (10 <=? length recent)%nat then Err ScaledTooOften
    else if 2 * current <? TargetShardCount then Err OverDouble
    else if i64 (2 * TargetShardCount) <? current then Err BelowHalf
    else if kinesisShardLimit <? TargetShardCount then Err OverLimit
    else Ok (kinesisReshardInBackground (set_scaling_times (recent ++ [now / 10^9]) stream) (Uniform TargetShardCount)).

(** The stream [CreateStream] stores: four shards for an on-demand stream and one
    for any other that names no count. [onDemand] is whether the mode is
    [ON_DEMAND] up to letter case. *)
Definition handleKinesisCreateStream (onDemand : bool) (name : string) (ShardCount : Z) (mode : option (gmap string string)) (strategy : string) : KinesisStream :=
  let mode := default {["StreamMode" := "PROVISIONED"]} mode in
  let shardCount := if onDemand && (ShardCount =? 0) then 4 else ShardCount in
  let shardCount := if shardCount =? 0 then 1 else shardCount in
  MkStream name "ACTIVE" mode (kinesisMakeShards shardCount) 24 shardCount strategy [].

(** The open shard count [DescribeLimits] reports. *)
Definition handleKinesisDescribeLimits (streams : list KinesisStream) : Z :=
  foldl (λ open stream, open + Z.of_nat (length (Shards stream))) 0 streams.

(** ** Placement of records *)

Definition open_ranges (shards : list KinesisShard) : list HashRange :=
  omap (λ shard, if kinesisShardClosed shard then None
                 else match kinesisHashRange shard with
                      | (Some start, Some ending) => Some (MkHashRange (ShardId shard) start ending)
                      | _ => None
                      end) shards.

Definition kinesisSelectShard (stream : KinesisStream) (partitionKey explicitHashKey : string) : string :=
  let ranges := open_ranges (Shards stream) in
  if String.eqb explicitHashKey "" then HashRanges_Partition ranges partitionKey
  else match Int_SetString explicitHashKey with
       | Some hash => PartitionHash ranges hash
       | None => HashRanges_Partition ranges partitionKey
       end.

Section Records.
Context {Sr Sh V : Type} `{!GoZero V, !Store Sr (Record_ V), !Store Sh Head}.

Definition least_step (log : Log Sr Sh) (name : string) (acc : KinesisShard * Z) (shard : KinesisShard) : KinesisShard * Z :=
  if kinesisShardClosed shard then acc
  else
    let h := HeadOf log (kinesisShardRecordKey name (ShardId shard)) in
    let n := i64 (Next h - First h) in
    if (acc.2 <? 0) || (n <? acc.2) then (shard, n) else acc.

Definition kinesisLeastLoadedOpenShard (log : Log Sr Sh) (stream : KinesisStream) : KinesisShard :=
  (foldl (least_step log (StreamName stream)) (zero, -1) (Shards stream)).1.

Definition kinesisTrim (log : Log Sr Sh) (stream : KinesisStream) (shardID : string) (now : Z) : Log Sr Sh :=
  let hours := if RetentionPeriodHours stream <=? 0 then 24 else RetentionPeriodHours stream in
  (Trim log (kinesisShardRecordKey (StreamName stream) shardID) (now - hours * 3600 * 10^9)).1.

(** The shard and sequence number a record gets, and the log with it. *)
Definition kinesisAppendRecord (log : Log Sr Sh) (stream : KinesisStream) (now : Z) (value : V) (partitionKey explicitHashKey : string)
    : string * option string * Log Sr Sh :=
  let shardID := if String.eqb (RecordDistributionStrategy stream) "AUTO" then ShardId (kinesisLeastLoadedOpenShard log stream)
                 else kinesisSelectShard stream partitionKey explicitHashKey in
  let log := kinesisTrim log stream shardID now in
  let '(log, recs) := Append log (kinesisShardRecordKey (StreamName stream) shardID) now [value] in
  (shardID, kinesisSequenceNumber ∘ rec_Seq <$> head recs, log).
End Records.

(** ** Shard ids *)

Lemma parse_digits_zeros k s acc : acc = 0 → parse_digits (text (replicate k (digit 0)) +:+ s) acc = parse_digits s 0.
Proof.
  intros ->. induction k as [|k IH]; [done|]. cbn [replicate]. unfold text in *. cbn [String.string_of_list_ascii].
  rewrite append_cons_s. cbn [parse_digits]. by rewrite digit_val_digit by lia.
Qed.

Lemma ParseInt_digits d r n :
  0 ≤ d < 10 → parse_digits (String (digit d) r) 0 = Some n → 0 ≤ n < 2 ^ 63 → ParseInt (String (digit d) r) = Some n.
Proof.
  intros Hd Hp Hn. unfold ParseInt. destruct (digit_not_sign d Hd) as [-> ->]. rewrite bool_decide_eq_false_2 by done. rewrite Hp.
  by rewrite (proj2 (Z.leb_le _ _)), (proj2 (Z.ltb_lt _ _)) by lia.
Qed.

Lemma ParseInt_pad12 n : 0 ≤ n < 2 ^ 63 → ParseInt (pad12 n) = Some n.
Proof.
  intros Hn. unfold pad12, zero_pad, Itoa. rewrite !(proj2 (Z.ltb_ge n 0)) by lia.
  assert (parse_digits (dec_loop 19 n "") 0 = Some n) as Hp by (rewrite parse_dec_loop; [done|change (10 ^ _) with 10000000000000000000; lia]).
  destruct (_ - _)%nat as [|k].
  - destruct (dec_loop_head 18 n "") as (d & r & Hd & E); [lia|]. unfold text. cbn [replicate String.string_of_list_ascii]. change ("" +:+ ?x) with x.
    rewrite E in *. by apply ParseInt_digits.
  - pose proof (parse_digits_zeros (S k) (dec_loop 19 n "") 0 eq_refl) as Hz. rewrite Hp in Hz.
    unfold text in *. cbn [replicate String.string_of_list_ascii] in *. rewrite append_cons_s in *. by apply ParseInt_digits.
Qed.

(** A stream's shards carry the numbers of their positions. *)
Definition ids_ok (shards : list KinesisShard) : Prop :=
  Z.of_nat (length shards) < 2 ^ 62 ∧
  ∀ i sh, shards !! i = Some sh → ShardId sh = shard_prefix +:+ pad12 (Z.of_nat i).

Lemma next_number_id maxN i sh :
  0 ≤ i < 2 ^ 63 → ShardId sh = shard_prefix +:+ pad12 i → next_number maxN sh = Z.max maxN i.
Proof.
  intros Hi E. unfold next_number. rewrite E, TrimPrefix_append, ParseInt_pad12 by done. destruct (Z.ltb_spec maxN i); lia.
Qed.

Lemma next_number_all shards : ids_ok shards → foldl next_number (-1) shards = Z.of_nat (length shards) - 1.
Proof.
  induction shards as [|sh shards IH] using rev_ind; [done|]. intros [Hl Hi]. rewrite length_app in *. simpl in *.
  rewrite foldl_snoc, IH.
  - rewrite (next_number_id _ (Z.of_nat (length shards))); [lia|lia|]. apply Hi. by rewrite lookup_app_r, Nat.sub_diag by lia.
  - split; [lia|]. intros i s Hs. apply Hi. by apply lookup_app_l_Some.
Qed.

Lemma kinesisNextShardID_spec stream :
  ids_ok (Shards stream) → kinesisNextShardID stream = shard_prefix +:+ pad12 (Z.of_nat (length (Shards stream))).
Proof.
  intros H. unfold kinesisNextShardID. rewrite next_number_all by done. destruct H as [H _]. f_equal. f_equal.
  replace (_ - 1 + 1) with (Z.of_nat (length (Shards stream))) by lia. apply i64_id. unfold in_i64. lia.
Qed.

Lemma ids_ok_snoc shards sh :
  ids_ok shards → Z.of_nat (length shards) + 1 < 2 ^ 62 → ShardId sh = shard_prefix +:+ pad12 (Z.of_nat (length shards)) →
  ids_ok (shards ++ [sh]).
Proof.
  intros [Hl Hi] Hn E. split; [rewrite length_app; simpl; lia|]. intros i s [Hs|[Hle Hs]]%lookup_app_Some; [by apply Hi|].
  apply list_lookup_singleton_Some in Hs as [Hz <-]. by replace i with (length shards) by lia.
Qed.

Lemma ids_ok_fmap f shards : (∀ sh, ShardId (f sh) = ShardId sh) → ids_ok shards → ids_ok (f <$> shards).
Proof.
  intros Hf [Hl Hi]. split; [by rewrite length_fmap|]. intros i s Hs. apply list_lookup_fmap_Some in Hs as (s' & -> & Hs).
  rewrite Hf. by apply Hi.
Qed.

Lemma ids_NoDup shards : ids_ok shards → NoDup (ShardId <$> shards).
Proof.
  intros [Hl Hi]. apply NoDup_alt. intros i j id Hx Hy. apply list_lookup_fmap_Some in Hx as (s & -> & Hs), Hy as (s' & E & Hs').
  pose proof (lookup_lt_Some _ _ _ Hs). pose proof (lookup_lt_Some _ _ _ Hs').
  rewrite (Hi _ _ Hs), (Hi _ _ Hs') in E. apply (f_equal (λ x, ParseInt (TrimPrefix x shard_prefix))) in E.
  rewrite !TrimPrefix_append, !ParseInt_pad12 in E by lia. injection E. lia.
Qed.

(** ** The open shards divide the key space *)

Definition key_space : Z := 2 ^ 128.

Definition parsed (sh : KinesisShard) : Prop := ∃ a b, kinesisHashRange sh = (Some a, Some b).

#[local] Arguments kinesisHashRange : simpl never.

Definition hash_range (sh : KinesisShard) : HashRange :=
  MkHashRange (ShardId sh) (default 0 (kinesisHashRange sh).1) (default 0 (kinesisHashRange sh).2).

Abbreviation start_of := (λ sh, hr_Start (hash_range sh)).
Abbreviation end_of := (λ sh, hr_End (hash_range sh)).
Abbreviation opened := (filter (λ s, open s = true)).

(** [os] lists the open shards in key order. *)
Record stream_ok (st : KinesisStream) (os : list KinesisShard) : Prop := {
  ok_ids : ids_ok (Shards st);
  ok_parsed : Forall parsed (Shards st);
  ok_open : os ≡ₚ opened (Shards st);
  ok_tiles : tiles 0 (hash_range <$> os) key_space;
  ok_count : OpenShardCount st = kinesisOpenShardCount (Shards st);
}.

Lemma parsed_range sh : parsed sh → kinesisHashRange sh = (Some (start_of sh), Some (end_of sh)).
Proof. intros (a & b & E). unfold hash_range, kinesisHashRange in *. simpl in *. by injection E as -> ->. Qed.

Lemma tiles_app lo l1 l2 hi : tiles lo (l1 ++ l2) hi ↔ ∃ m, tiles lo l1 m ∧ tiles m l2 hi.
Proof.
  revert lo. induction l1 as [|p l1 IH]; intros lo; simpl; [naive_solver|]. rewrite IH. naive_solver.
Qed.

Lemma tiles_le lo rs hi : tiles lo rs hi → lo ≤ hi.
Proof. revert lo. induction rs as [|p rs IH]; intros lo; simpl; [lia|]. intros (_ & ? & H%IH). lia. Qed.

Lemma tiles_upper lo rs hi p : tiles lo rs hi → p ∈ rs → hr_End p < hi ∧ hr_Start p ≤ hr_End p.
Proof.
  intros Ht (l & r & ->)%list_elem_of_split. apply tiles_app in Ht as (m & _ & Hs & He & Ht). apply tiles_le in Ht. lia.
Qed.

Lemma tiles_sorted lo rs hi : tiles lo rs hi → StronglySorted (λ a b, hr_End a < hr_Start b) rs.
Proof.
  revert lo. induction rs as [|p rs IH]; intros lo; [constructor|]. intros (Hs & He & Ht). constructor; [by eapply IH|].
  apply Forall_forall. intros q Hq. pose proof (tiles_bounds _ _ _ _ Ht Hq). lia.
Qed.

Lemma tiles_starts lo rs hi : tiles lo rs hi → StronglySorted Z.lt (hr_Start <$> rs).
Proof.
  intros Ht. eapply StronglySorted_fmap_in; [|by eapply tiles_sorted]. intros a b Ha _ Hab. simpl in Hab.
  pose proof (tiles_upper _ _ _ _ Ht Ha). lia.
Qed.

Lemma open_in_parsed st os sh : stream_ok st os → sh ∈ os → parsed sh ∧ open sh = true ∧ sh ∈ Shards st.
Proof.
  intros H Hs. rewrite (ok_open _ _ H) in Hs. apply list_elem_of_filter in Hs as [Ho Hs]. split; [|done].
  pose proof (ok_parsed _ _ H) as Hp. rewrite Forall_forall in Hp. by apply Hp.
Qed.

Lemma kinesisOpenShards_ok st os : stream_ok st os → kinesisOpenShards st = Some os.
Proof.
  intros H. unfold kinesisOpenShards. set (l := opened (Shards st)).
  assert (∀ s, s ∈ os → kinesisHashRange s = (Some (start_of s), Some (end_of s))) as Hp.
  { intros s Hs. apply parsed_range. by apply (open_in_parsed st os s H). }
  replace (forallb _ l) with true.
  2: { symmetry. apply forallb_forall. intros s Hs%list_elem_of_In. unfold l in Hs. rewrite <- (ok_open _ _ H) in Hs.
       by rewrite (Hp s Hs). }
  rewrite orb_true_r. f_equal.
  assert (∀ s s', s ∈ os → s' ∈ os → starts_before s s' = (start_of s <? start_of s')) as Hb.
  { intros s s' Hs Hs'. unfold starts_before. rewrite (Hp s Hs), (Hp s' Hs'). simpl. unfold Z.ltb. by destruct (_ ?= _). }
  pose proof (tiles_starts _ _ _ (ok_tiles _ _ H)) as Hst. rewrite <- list_fmap_compose in Hst.
  apply (SliceStable_by _ start_of); [exact Hb|symmetry; apply H|exact (StronglySorted_fmap_inv _ _ _ Hst)].
Qed.

Section Resharding.
Context {Sr Sh V : Type} `{!GoZero V, !Store Sr (Record_ V), !Store Sh Head}.
Context (log : Log Sr Sh).

Lemma set_count_shards n st : Shards (set_count n st) = Shards st.
Proof. done. Qed.

Lemma close_shard_same name id sh :
  ShardId (close_shard log name id sh) = ShardId sh ∧ HashKeyRange (close_shard log name id sh) = HashKeyRange sh ∧
  open (close_shard log name id sh) = open sh && negb (String.eqb (ShardId sh) id).
Proof.
  unfold close_shard. destruct (String.eqb (ShardId sh) id) eqn:E; simpl; [|by rewrite andb_true_r].
  destruct (kinesisShardClosed sh) eqn:Ec; simpl; [by unfold open; rewrite Ec|]. split; [done|]. split; [done|].
  unfold open at 2. rewrite Ec. unfold open, kinesisShardClosed. simpl. rewrite lookup_insert_eq. done.
Qed.

Lemma close_shard_other name id sh : ShardId sh ≠ id → close_shard log name id sh = sh.
Proof. intros H. unfold close_shard. by rewrite (proj2 (String.eqb_neq _ _) H). Qed.

(** Closing a shard takes it, and no other, out of the open ones. *)
Lemma open_close (q : string → bool) name id (shards : list KinesisShard) :
  filter (λ s, open s && q (ShardId s) = true) (close_shard log name id <$> shards) =
  filter (λ s, open s && (negb (String.eqb (ShardId s) id) && q (ShardId s)) = true) shards.
Proof.
  induction shards as [|sh shards IH]; [done|]. rewrite fmap_cons, !filter_cons.
  destruct (close_shard_same name id sh) as (Hid & _ & Ho). rewrite Hid, Ho, <- andb_assoc.
  case_decide as Hd; [|done]. rewrite IH. f_equal. apply close_shard_other. bools. by apply String.eqb_neq.
Qed.

Lemma open_close_open p a name (shards : list KinesisShard) :
  opened (close_shard log name a <$> (close_shard log name p <$> shards)) =
  filter (λ s, open s && (negb (String.eqb (ShardId s) p) && negb (String.eqb (ShardId s) a)) = true) shards.
Proof.
  etrans; [|etrans; [apply (open_close (λ _, true))|etrans; [apply (open_close (λ id, negb (String.eqb id a) && true))|]]];
    apply list_filter_iff; intros s; by rewrite !andb_true_r.
Qed.

(** What stays open of shards in order, when some of them are closed. *)
Lemma open_without (os ss : list KinesisShard) (q : string → bool) :
  os ≡ₚ opened ss → filter (λ s, open s && q (ShardId s) = true) ss ≡ₚ filter (λ s, q (ShardId s) = true) os.
Proof.
  intros ->. rewrite list_filter_filter. apply reflexive_eq, list_filter_iff. intros s. rewrite andb_true_iff. tauto.
Qed.

(** Shards that replace others in place: the new ones are open, parse, carry
    the next numbers and cover what the old ones did. *)
Lemma stream_ok_replace st os l old new r (q : string → bool) st' :
  stream_ok st os → os = l ++ old ++ r →
  (∀ s, s ∈ l ++ r → q (ShardId s) = true) → (∀ s, s ∈ old → q (ShardId s) = false) → (∀ s, s ∈ new → q (ShardId s) = true) →
  Forall parsed new → Forall (λ s, open s = true) new →
  (∀ lo hi, tiles lo (hash_range <$> old) hi → tiles lo (hash_range <$> new) hi) →
  ids_ok (Shards st') → Forall parsed (Shards st') → OpenShardCount st' = kinesisOpenShardCount (Shards st') →
  opened (Shards st') = filter (λ s, open s && q (ShardId s) = true) (Shards st ++ new) →
  stream_ok st' (l ++ new ++ r).
Proof.
  intros H -> Hlr Hold Hnew Hp Ho Htiles Hids Hpar Hcount Hopen. split; [done|done| | |done].
  - rewrite Hopen, filter_app, (open_without _ _ q (ok_open _ _ H)). rewrite !filter_app.
    rewrite (filter_none _ old); [|by apply Forall_forall; intros s Hs; rewrite (Hold s Hs)].
    rewrite (filter_all _ l), (filter_all _ r), (filter_all _ new).
    + simpl. rewrite <- !app_assoc. apply Permutation_app_head, Permutation_app_comm.
    + rewrite Forall_forall in Ho |- *. intros s Hs. by rewrite (Ho s Hs), (Hnew s Hs).
    + apply Forall_forall. intros s Hs. apply Hlr. set_solver.
    + apply Forall_forall. intros s Hs. apply Hlr. set_solver.
  - pose proof (ok_tiles _ _ H) as Ht. rewrite !fmap_app in *. apply tiles_app in Ht as (m & H1 & H2).
    apply tiles_app in H2 as (m' & H2 & H3). apply tiles_app. exists m. split; [done|]. apply tiles_app. exists m'. split; [by apply Htiles|done].
Qed.

Lemma hash_keys_range id st en seqs p a q r :
  Int_SetString st = Some q → Int_SetString en = Some r → kinesisHashRange (MkShard id (hash_keys st en) seqs p a) = (Some q, Some r).
Proof. intros E1 E2. unfold kinesisHashRange, hash_keys, index. cbn [HashKeyRange]. rewrite lookup_insert_eq, lookup_insert_ne, lookup_singleton_eq by done.
  by f_equal. Qed.

Lemma parsed_texts sh : parsed sh →
  Int_SetString (index (HashKeyRange sh) StartingHashKey) = Some (start_of sh) ∧
  Int_SetString (index (HashKeyRange sh) EndingHashKey) = Some (end_of sh).
Proof. intros H%parsed_range. unfold kinesisHashRange in H at 1. by injection H as -> ->. Qed.

Lemma range_parsed sh a b : kinesisHashRange sh = (Some a, Some b) → parsed sh ∧ start_of sh = a ∧ end_of sh = b.
Proof. intros E. split; [by exists a, b|]. pose proof (parsed_range sh (ex_intro _ a (ex_intro _ b E))) as E'. rewrite E in E'. by injection E' as -> ->. Qed.

(** Shards closed by any number of ids keep their ids and ranges. *)
Lemma close_keeps name id shards :
  (ids_ok shards → ids_ok (close_shard log name id <$> shards)) ∧
  (Forall parsed shards → Forall parsed (close_shard log name id <$> shards)).
Proof.
  split; [apply ids_ok_fmap; intros sh; apply close_shard_same|]. intros H. apply Forall_fmap. eapply Forall_impl; [exact H|].
  intros sh (a & b & E). exists a, b. simpl. unfold kinesisHashRange in *. destruct (close_shard_same name id sh) as (_ & -> & _). done.
Qed.

Lemma fresh_id shards new sh : ids_ok (shards ++ new) → sh ∈ shards → ∀ s, s ∈ new → ShardId s ≠ ShardId sh.
Proof.
  intros H Hsh s Hs E. apply ids_NoDup in H. rewrite fmap_app in H. apply NoDup_app in H as (_ & H & _).
  apply (H (ShardId sh)); [by apply list_elem_of_fmap_2|]. rewrite <- E. by apply list_elem_of_fmap_2.
Qed.

Lemma distinct_ids st os l p r : stream_ok st os → os = l ++ p :: r → ∀ s, s ∈ l ++ r → ShardId s ≠ ShardId p.
Proof.
  intros H -> s Hs E. assert (NoDup (ShardId <$> l ++ p :: r)) as Hnd.
  { rewrite (ok_open _ _ H). eapply sublist_NoDup; [apply ids_NoDup, H|]. apply sublist_fmap, sublist_filter. }
  rewrite fmap_app, fmap_cons in Hnd. apply NoDup_app in Hnd as (_ & Hd & Hnd). apply NoDup_cons in Hnd as [Hp _].
  apply elem_of_app in Hs as [Hs|Hs].
  - apply (Hd (ShardId s)); [by apply list_elem_of_fmap_2|]. rewrite E. left.
  - apply Hp. rewrite <- E. by apply list_elem_of_fmap_2.
Qed.

(** A split adds its boundary to the boundaries. *)
Lemma split_ok st os p b :
  stream_ok st os → p ∈ os → start_of p < b ≤ end_of p → Z.of_nat (length (Shards st)) + 2 < 2 ^ 62 →
  let st' := kinesisSplitShard log p b st in
  ∃ os', stream_ok st' os' ∧ (∀ x, x ∈ start_of <$> os' ↔ x = b ∨ x ∈ start_of <$> os) ∧
    length os' = S (length os) ∧ length (Shards st') = (2 + length (Shards st))%nat ∧
    StreamStatus st' = StreamStatus st.
Proof.
  intros H Hp Hb Hl st'. destruct (open_in_parsed _ _ _ H Hp) as (Hpar & _ & Hin). destruct (parsed_texts p Hpar) as [Ea Eb].
  apply list_elem_of_split in Hp as (l & r & E). pose proof (distinct_ids _ _ l p r H E) as Hdist.
  unfold st', kinesisSplitShard. set (low := MkShard (kinesisNextShardID st) _ _ _ _). set (st1 := add_shard low st).
  set (high := MkShard (kinesisNextShardID st1) _ _ _ _).
  pose proof (ok_ids _ _ H) as Hids.
  assert (ids_ok (Shards st1)) as Hids1 by (apply ids_ok_snoc; [done|lia|by apply kinesisNextShardID_spec]).
  assert (length (Shards st1) = S (length (Shards st))) as Hl1 by (unfold st1; simpl; rewrite length_app; simpl; lia).
  assert (ids_ok (Shards st ++ [low; high])) as Hids2.
  { change (Shards st ++ [low; high]) with (Shards st ++ [low] ++ [high]). rewrite app_assoc.
    apply ids_ok_snoc; [done|change (Shards st ++ [low]) with (Shards st1); lia|by apply kinesisNextShardID_spec]. }
  destruct (range_parsed low (start_of p) (b - 1)) as (Plow & Slow & Elow); [apply hash_keys_range; [done|apply Int_SetString_String]|].
  destruct (range_parsed high b (end_of p)) as (Phigh & Shigh & Ehigh); [apply hash_keys_range; [apply Int_SetString_String|done]|].
  assert (Shards (add_shard high st1) = Shards st ++ [low; high]) as Eadd by (unfold st1; simpl; by rewrite <- app_assoc).
  set (st2 := kinesisCloseShard log (ShardId p) (add_shard high st1)).
  assert (Shards st2 = close_shard log (StreamName st) (ShardId p) <$> (Shards st ++ [low; high])) as E2 
    by (change (Shards st2) with (close_shard log (StreamName st) (ShardId p) <$> Shards (add_shard high st1)); by rewrite Eadd).
  exists (l ++ [low; high] ++ r). split; [|split; [|split; [|split; [|done]]]].
  - pose proof (fresh_id _ _ p Hids2 Hin) as Hfresh. destruct (close_keeps (StreamName st) (ShardId p) (Shards st ++ [low; high])) as [Hk1 Hk2].
    eapply (stream_ok_replace st os l [p] [low; high] r (λ id, negb (String.eqb id (ShardId p)))); [exact H|exact E|..].
    + intros s Hs. apply negb_true_iff, String.eqb_neq. by apply Hdist.
    + intros s ->%list_elem_of_singleton. by rewrite String.eqb_refl.
    + intros s Hs. apply negb_true_iff, String.eqb_neq. by apply Hfresh.
    + by repeat constructor.
    + by repeat constructor.
    + intros lo hi. rewrite !fmap_cons, fmap_nil. cbn [tiles]. cbv beta in *. intros (S1 & S2 & S3). rewrite Slow. split; [done|]. split; [rewrite Elow; lia|]. split; [rewrite Elow, Shigh; lia|].
      split; [rewrite Elow, Ehigh; lia|]. by rewrite Ehigh.
    + rewrite set_count_shards, E2. by apply Hk1.
    + rewrite set_count_shards, E2. apply Hk2, Forall_app. split; [apply H|by repeat constructor].
    + done.
    + rewrite set_count_shards, E2. etrans; [|etrans; [apply (open_close (λ _, true))|]]; apply list_filter_iff; intros s; by rewrite andb_true_r.
  - intros x. rewrite E, !fmap_app, !fmap_cons, fmap_nil, Slow, Shigh, !elem_of_app, !elem_of_cons, elem_of_nil. tauto.
  - rewrite E, !length_app. simpl. lia.
  - rewrite set_count_shards, E2, length_fmap, length_app. simpl. lia.
Qed.

(** A merge of neighbours removes the boundary between them. *)
Lemma merge_ok st os l x y r p a :
  stream_ok st os → os = l ++ x :: y :: r → (p = x ∧ a = y) ∨ (p = y ∧ a = x) → Z.of_nat (length (Shards st)) + 1 < 2 ^ 62 →
  ∃ st' os', kinesisMergeShards log p a st = Some st' ∧ stream_ok st' os' ∧
    (∀ z, z ∈ start_of <$> os' ↔ z ≠ start_of y ∧ z ∈ start_of <$> os) ∧
    S (length os') = length os ∧ length (Shards st') = S (length (Shards st)) ∧ StreamStatus st' = StreamStatus st.
Proof.
  intros H E Hpa Hl. assert (x ∈ os ∧ y ∈ os) as [Hx Hy] by (rewrite E; set_solver).
  destruct (open_in_parsed _ _ _ H Hx) as (Px & _ & Ix), (open_in_parsed _ _ _ H Hy) as (Py & _ & Iy).
  destruct (parsed_texts x Px) as [Sx _], (parsed_texts y Py) as [_ Ey].
  pose proof (ok_tiles _ _ H) as Ht. rewrite E, fmap_app, !fmap_cons in Ht. apply tiles_app in Ht as (m & _ & T1 & T2 & T3 & T4 & _).
  set (child := MkShard (kinesisNextShardID st)
    (hash_keys (index (HashKeyRange x) StartingHashKey) (index (HashKeyRange y) EndingHashKey)) first_sequence (ShardId p) (ShardId a)).
  set (st2 := kinesisCloseShard log (ShardId a) (kinesisCloseShard log (ShardId p) (add_shard child st))).
  assert (kinesisMergeShards log p a st = Some (set_count (kinesisOpenShardCount (Shards st2)) st2)) as Em.
  { unfold kinesisMergeShards. destruct Hpa as [[-> ->]|[-> ->]]; rewrite (parsed_range x Px), (parsed_range y Py); simpl; cbv beta.
    - by rewrite (proj2 (Z.compare_lt_iff _ _)) by (simpl in *; lia).
    - by rewrite (proj2 (Z.compare_gt_iff _ _)) by (simpl in *; lia). }
  destruct (range_parsed child (start_of x) (end_of y)) as (Pc & Sc & Ec); [by apply hash_keys_range|].
  assert (ids_ok (Shards st ++ [child])) as Hids by (apply ids_ok_snoc; [apply H|done|apply kinesisNextShardID_spec, H]).
  set (X := Shards st ++ [child]) in *. set (q := λ id, negb (String.eqb id (ShardId p)) && negb (String.eqb id (ShardId a))).
  assert (Shards st2 = close_shard log (StreamName st) (ShardId a) <$> (close_shard log (StreamName st) (ShardId p) <$> X)) as E2 by done.
  assert (∀ s, s ∈ X → ShardId s ≠ ShardId x → ShardId s ≠ ShardId y → q (ShardId s) = true) as Hq.
  { intros s _ N1 N2. apply String.eqb_neq in N1, N2. unfold q. destruct Hpa as [[-> ->]|[-> ->]]; by rewrite N1, N2. }
  assert (∀ s, s ∈ l ++ r → ShardId s ≠ ShardId x ∧ ShardId s ≠ ShardId y) as Hdist.
  { intros s Hs. split.
    - apply (distinct_ids _ _ l x (y :: r) H E). clear -Hs. set_solver.
    - apply (distinct_ids _ _ (l ++ [x]) y r H); [by rewrite E, <- app_assoc|]. clear -Hs. set_solver. }
  exists (set_count (kinesisOpenShardCount (Shards st2)) st2), (l ++ [child] ++ r).
  split; [done|]. split; [|split; [|split; [|split; [|done]]]].
  - destruct (close_keeps (StreamName st) (ShardId p) X) as [K1 K2], (close_keeps (StreamName st) (ShardId a) (close_shard log (StreamName st) (ShardId p) <$> X)) as [K3 K4].
    eapply (stream_ok_replace st os l [x; y] [child] r q); [exact H|exact E|..].
    + intros s Hs. destruct (Hdist s Hs). apply Hq; [|done..]. apply elem_of_app. left.
      apply (open_in_parsed st os s H). rewrite E. clear -Hs. set_solver.
    + unfold q. intros s Hs. apply elem_of_cons in Hs as [-> | ->%list_elem_of_singleton]; destruct Hpa as [[-> ->]|[-> ->]];
        by rewrite String.eqb_refl, ?andb_false_r.
    + intros s ->%list_elem_of_singleton. apply Hq; [apply elem_of_app; right; left|..];
        [apply (fresh_id _ _ x Hids Ix)|apply (fresh_id _ _ y Hids Iy)]; by apply list_elem_of_singleton.
    + by repeat constructor.
    + by repeat constructor.
    + intros lo hi. rewrite !fmap_cons, !fmap_nil. cbn [tiles]. cbv beta in *. intros (? & ? & ? & ? & ?). rewrite Sc, Ec.
      split; [done|]. split; [lia|done].
    + rewrite set_count_shards, E2. auto.
    + rewrite set_count_shards, E2. apply K4, K2, Forall_app. split; [apply H|by repeat constructor].
    + done.
    + rewrite set_count_shards, E2. apply open_close_open.
  - intros z. rewrite E, !fmap_app, !fmap_cons, fmap_nil, Sc, !elem_of_app, !elem_of_cons, elem_of_nil.
    assert (start_of y ∉ (start_of <$> l) ++ start_of x :: (start_of <$> r)) as Hny.
    { pose proof (StronglySorted_lt_NoDup _ (tiles_starts _ _ _ (ok_tiles _ _ H))) as Hnd.
      rewrite <- list_fmap_compose, E, fmap_app, !fmap_cons in Hnd.
      assert ((start_of <$> l) ++ start_of x :: start_of y :: (start_of <$> r) ≡ₚ start_of y :: (start_of <$> l) ++ start_of x :: (start_of <$> r)) as Hperm by solve_Permutation.
      unfold compose in Hnd. rewrite Hperm in Hnd. by apply NoDup_cons in Hnd as [? _]. }
    rewrite elem_of_app, elem_of_cons in Hny. clear -Hny. naive_solver.
  - rewrite E, !length_app. simpl. lia.
  - rewrite set_count_shards, E2, !length_fmap. unfold X. rewrite length_app. simpl. lia.
Qed.

Lemma hash_range_ID sh : hr_ID (hash_range sh) = ShardId sh.
Proof. done. Qed.

#[local] Opaque hash_range kinesisHashRange.

(** *** The boundaries of a uniform division *)

Definition boundary (count i : Z) : Z := if 0 <? i then maxHash * i / count + 1 else 0.

Lemma boundary_lt count i : 1 ≤ count ≤ maxHash → 0 ≤ i → boundary count i < boundary count (i + 1).
Proof.
  intros Hc Hi. unfold boundary. rewrite (proj2 (Z.ltb_lt 0 (i + 1))) by lia.
  assert (maxHash * i / count + 1 ≤ maxHash * (i + 1) / count).
  { apply Z.div_le_lower_bound; [lia|]. pose proof (Z.mul_div_le (maxHash * i) count ltac:(lia)). nia. }
  assert (0 ≤ maxHash * i / count) by (apply Z.div_pos; nia). destruct (0 <? i); lia.
Qed.

Lemma boundary_last count : 1 ≤ count → boundary count count = key_space.
Proof.
  intros Hc. unfold boundary. rewrite (proj2 (Z.ltb_lt 0 count)) by lia. rewrite Z.div_mul by lia.
  unfold maxHash, key_space. rewrite Z.shiftl_mul_pow2 by lia. lia.
Qed.

Lemma make_shard_range count i : 1 ≤ count → 0 ≤ i →
  parsed (make_shard count i) ∧ start_of (make_shard count i) = boundary count i ∧ end_of (make_shard count i) = boundary count (i + 1) - 1.
Proof.
  intros Hc Hi. apply range_parsed. unfold make_shard. apply hash_keys_range; rewrite Int_SetString_String; f_equal; unfold boundary.
  - destruct (Z.ltb_spec 0 i); [done|]. replace i with 0 by lia. by rewrite Z.mul_0_r.
  - rewrite (proj2 (Z.ltb_lt 0 (i + 1))) by lia. lia.
Qed.

Lemma make_shards_tile count i n : 1 ≤ count ≤ maxHash → 0 ≤ i →
  tiles (boundary count i) (hash_range <$> (make_shard count <$> seqZ i (Z.of_nat n))) (boundary count (i + Z.of_nat n)).
Proof.
  intros Hc. revert i. induction n as [|n IH]; intros i Hi; [by rewrite Z.add_0_r|].
  rewrite seqZ_cons by lia. rewrite !fmap_cons. destruct (make_shard_range count i) as (_ & Es & Ee); [lia|lia|].
  pose proof (boundary_lt count i Hc Hi). cbn [tiles]. cbv beta in *. split; [done|]. split; [lia|].
  rewrite Ee. replace (boundary count (i + 1) - 1 + 1) with (boundary count (i + 1)) by lia.
  replace (Z.pred (Z.of_nat (S n))) with (Z.of_nat n) by lia. replace (i + Z.of_nat (S n)) with (i + 1 + Z.of_nat n) by lia. apply IH. lia.
Qed.

Lemma kinesisMakeShards_spec count :
  1 ≤ count < 2 ^ 62 → kinesisMakeShards count = make_shard count <$> seqZ 0 count ∧
  tiles 0 (hash_range <$> kinesisMakeShards count) key_space ∧ Forall parsed (kinesisMakeShards count) ∧
  length (kinesisMakeShards count) = Z.to_nat count ∧ ids_ok (kinesisMakeShards count) ∧
  Forall (λ s, open s = true) (kinesisMakeShards count).
Proof.
  intros Hc. assert (1 ≤ count ≤ maxHash) as Hm by (split; [lia|]; unfold maxHash; rewrite Z.shiftl_mul_pow2 by lia; lia).
  assert (kinesisMakeShards count = make_shard count <$> seqZ 0 count) as E by (unfold kinesisMakeShards; by rewrite (proj2 (Z.ltb_ge count 1)) by lia).
  split; [done|]. rewrite E. split; [|split; [|split; [|split]]].
  - rewrite <- (boundary_last count) by lia. pose proof (make_shards_tile count 0 (Z.to_nat count) Hm ltac:(lia)) as H.
    rewrite Z2Nat.id, Z.add_0_l in H by lia. exact H.
  - apply Forall_fmap, Forall_forall. intros i Hi%elem_of_seqZ. apply make_shard_range; lia.
  - by rewrite length_fmap, length_seqZ.
  - split; [rewrite length_fmap, length_seqZ; lia|]. intros i sh Hi. apply list_lookup_fmap_Some in Hi as (z & -> & Hz).
    apply lookup_seqZ in Hz as [-> _]. unfold make_shard. simpl. done.
  - apply Forall_fmap, Forall_forall. intros i _. done.
Qed.

(** *** Splitting at the boundaries *)

Lemma find_spanning_spec b os :
  Forall parsed os →
  ∃ found, find_spanning (Some b) os = Some found ∧
  match found with
  | Some s => s ∈ os ∧ start_of s < b ≤ end_of s
  | None => ∀ s, s ∈ os → ¬ (start_of s < b ≤ end_of s)
  end.
Proof.
  induction 1 as [|s os Hs Hos IH]; cbn [find_spanning]; [exists None; split; [done|]; intros s []%not_elem_of_nil|].
  destruct IH as (found & E & IH). rewrite (parsed_range s Hs), E. unfold cmp. cbn [mbind option_bind]. cbv beta.
  assert (∀ q : bool, (start_of s < b ≤ end_of s ↔ q = true) →
    ∃ f, (if q then Some (Some s) else Some found) = Some f ∧
      match f with Some s' => s' ∈ s :: os ∧ start_of s' < b ≤ end_of s' | None => ∀ s', s' ∈ s :: os → ¬ (start_of s' < b ≤ end_of s') end) as Hq.
  { intros q Hq. destruct q.
    - exists (Some s). split; [done|]. split; [left|]. by apply Hq.
    - exists found. split; [done|]. destruct found as [s'|]; [destruct IH; split; [by right|done]|].
      intros s' [->|Hs']%elem_of_cons; [|by apply IH]. intros ?%Hq. done. }
  cbv beta in Hq. destruct (Z.compare_spec (hr_Start (hash_range s)) b) as [C|C|C]; simpl.
  - apply (Hq false). split; [lia|done].
  - destruct (Z.compare_spec b (hr_End (hash_range s))) as [D|D|D]; simpl; [apply (Hq true)|apply (Hq true)|apply (Hq false)]; (split; [lia||done|lia||done]).
  - apply (Hq false). split; [lia|done].
Qed.

Lemma open_parsed st os : stream_ok st os → Forall parsed os.
Proof. intros H. apply Forall_forall. intros s Hs. by apply (open_in_parsed st os). Qed.

(** A boundary no shard spans is already one. *)
Lemma unspanned_boundary st os b :
  stream_ok st os → 0 ≤ b < key_space → (∀ s, s ∈ os → ¬ (start_of s < b ≤ end_of s)) → b ∈ start_of <$> os.
Proof.
  intros H Hb Hn. destruct (tiles_owner _ _ _ b (ok_tiles _ _ H) Hb) as (p & Hp & Ho & _).
  apply list_elem_of_fmap in Hp as (s & -> & Hs). specialize (Hn s Hs). unfold owns in Ho. cbv beta in *.
  apply list_elem_of_fmap. exists s. split; [lia|done].
Qed.

Lemma split_boundaries_ok targets st os :
  stream_ok st os → Forall (λ t, parsed t ∧ 0 ≤ start_of t < key_space) targets →
  Z.of_nat (length (Shards st)) + 2 * Z.of_nat (length targets) < 2 ^ 62 →
  ∃ st' os', split_boundaries log targets st = Some st' ∧ stream_ok st' os' ∧
    (∀ z, z ∈ start_of <$> os' ↔ z ∈ start_of <$> os ∨ z ∈ start_of <$> targets) ∧
    (length (Shards st') ≤ length (Shards st) + 2 * length targets)%nat ∧ (length os' ≤ length os + length targets)%nat ∧
    StreamStatus st' = StreamStatus st.
Proof.
  revert st os. induction targets as [|t targets IH]; intros st os H Ht Hl.
  { exists st, os. split; [done|]. split; [done|]. split; [|split; [lia|split; [lia|done]]]. intros z. rewrite elem_of_nil. tauto. }
  apply Forall_cons in Ht as [[Pt Ht1] Ht]. cbn [split_boundaries]. rewrite (kinesisOpenShards_ok st os H), (parsed_range t Pt). cbn [mbind option_bind fst].
  destruct (find_spanning_spec (start_of t) os (open_parsed st os H)) as (found & E & Hf). rewrite E. cbn [mbind option_bind].
  cbn [length] in Hl. destruct found as [s|].
  - destruct Hf as [Hs Hspan]. destruct (split_ok st os s (start_of t) H Hs Hspan) as (os1 & H1 & Hst1 & Hlos & Hlen & Hstat); [lia|].
    destruct (IH _ _ H1 Ht) as (st' & os' & E' & H' & Hst' & Hl1 & Hl2 & Hs'); [rewrite Hlen; lia|].
    exists st', os'. split; [done|]. split; [done|]. split; [|cbn [length]; split; [lia|split; [lia|congruence]]].
    intros z. rewrite Hst', Hst1, fmap_cons, elem_of_cons. tauto.
  - destruct (IH _ _ H Ht) as (st' & os' & E' & H' & Hst' & Hl1 & Hl2 & Hs'); [lia|].
    exists st', os'. split; [done|]. split; [done|]. split; [|cbn [length]; split; [lia|split; [lia|done]]].
    pose proof (unspanned_boundary st os (start_of t) H Ht1 Hf) as Hin.
    intros z. rewrite Hst', fmap_cons, elem_of_cons. split; [tauto|]. intros [?|[->|?]]; tauto.
Qed.

(** *** Merging the pieces *)

Definition inside (ts te : Z) (s : KinesisShard) : Prop := ts ≤ start_of s ∧ end_of s ≤ te.

Lemma pieces_of_spec ts te os : Forall parsed os → pieces_of (Some ts) (Some te) os = Some (filter (inside ts te) os).
Proof.
  induction 1 as [|s os Hs Hos IH]; [done|]. cbn [pieces_of]. rewrite (parsed_range s Hs), IH, filter_cons. unfold cmp. cbn [mbind option_bind].
  unfold inside in *. cbv beta in *.
  destruct (Z.compare_spec (hr_Start (hash_range s)) ts) as [C|C|C]; simpl;
    [| by rewrite decide_False by lia |];
    (destruct (Z.compare_spec (hr_End (hash_range s)) te) as [D|D|D]; simpl;
     [by rewrite decide_True by lia|by rewrite decide_True by lia|by rewrite decide_False by lia]).
Qed.

(** The first two pieces of a range are neighbours. *)
Lemma pieces_adjacent lo hi os ts te p0 p1 rest :
  tiles lo (hash_range <$> os) hi → filter (inside ts te) os = p0 :: p1 :: rest → ∃ l r, os = l ++ p0 :: p1 :: r.
Proof.
  revert lo. induction os as [|s os IH]; intros lo Ht Hf; [done|]. rewrite fmap_cons in Ht. destruct Ht as (T1 & T2 & T3).
  rewrite filter_cons in Hf. case_decide as Hs.
  - injection Hf as -> Hf. destruct os as [|s' os]; [done|]. exists [], os. simpl. f_equal.
    rewrite filter_cons in Hf. case_decide as Hs'; [by injection Hf as -> _|]. destruct Hs'.
    rewrite fmap_cons in T3. destruct T3 as (T4 & T5 & T6).
    assert (p1 ∈ filter (inside ts te) os) as Hp by (rewrite Hf; left). apply list_elem_of_filter in Hp as [[_ Hp] Hin].
    pose proof (tiles_bounds _ _ _ _ T6 (list_elem_of_fmap_2 hash_range _ _ Hin)).
    pose proof (tiles_upper _ _ _ _ T6 (list_elem_of_fmap_2 hash_range _ _ Hin)). unfold inside in *. cbv beta in *. lia.
  - destruct (IH _ T3 Hf) as (l & r & ->). by exists (s :: l), r.
Qed.

(** While a boundary is left inside the range, two pieces are. *)
Lemma pieces_left st os ts te z :
  stream_ok st os → ts ∈ start_of <$> os → (te + 1 ∈ start_of <$> os ∨ te + 1 = key_space) →
  z ∈ start_of <$> os → ts < z ≤ te → ∃ p0 p1 rest, filter (inside ts te) os = p0 :: p1 :: rest.
Proof.
  intros H Hts Hte Hz Hb. pose proof (ok_tiles _ _ H) as Ht. pose proof (tiles_sorted _ _ _ Ht) as Hs.
  assert (∀ s w, s ∈ os → w ∈ start_of <$> os → start_of s < w → end_of s < w) as Hend.
  { intros s w Hin (s' & -> & Hin')%list_elem_of_fmap Hlt. apply list_elem_of_lookup in Hin as [i Hi], Hin' as [j Hj].
    assert (i ≠ j) by (intros ->; rewrite Hi in Hj; injection Hj as ->; lia).
    pose proof (list_elem_of_lookup_2 _ _ _ Hi) as Hm. pose proof (list_elem_of_lookup_2 _ _ _ Hj) as Hm'.
    pose proof (tiles_upper _ _ _ _ Ht (list_elem_of_fmap_2 hash_range _ _ Hm')) as [_ Hu].
    apply (list_lookup_fmap_Some_2 hash_range) in Hi, Hj. cbv beta in *. destruct (Nat.lt_ge_cases i j) as [Hij|Hij].
    - pose proof (StronglySorted_lookup_lt _ _ _ _ _ _ Hs Hi Hj Hij). simpl in *. lia.
    - pose proof (StronglySorted_lookup_lt _ _ _ _ _ _ Hs Hj Hi ltac:(lia)). simpl in *. lia. }
  apply list_elem_of_fmap in Hts as (s & -> & Hin). pose proof Hz as Hz'. apply list_elem_of_fmap in Hz' as (s' & -> & Hin').
  assert (inside (start_of s) te s) as I1 by (split; [lia|]; specialize (Hend s (start_of s') Hin Hz); cbv beta in *; lia).
  assert (inside (start_of s) te s') as I2.
  { split; [lia|]. destruct Hte as [Hte|Hte]; [specialize (Hend s' (te + 1) Hin' Hte); cbv beta in *; lia|].
    pose proof (tiles_upper _ _ _ _ Ht (list_elem_of_fmap_2 hash_range _ _ Hin')). cbv beta in *. lia. }
  assert (s ≠ s') as Hne by (intros ->; lia).
  assert (s ∈ filter (inside (start_of s) te) os) as M1 by (by apply list_elem_of_filter).
  assert (s' ∈ filter (inside (start_of s) te) os) as M2 by (by apply list_elem_of_filter).
  destruct (filter _ os) as [|p0 [|p1 rest]]; [by apply not_elem_of_nil in M1| |eauto].
  apply list_elem_of_singleton in M1, M2. congruence.
Qed.

Lemma merge_loop_ok fuel ts te st os :
  stream_ok st os → (length os ≤ fuel)%nat → ts ∈ start_of <$> os → (te + 1 ∈ start_of <$> os ∨ te + 1 = key_space) →
  Z.of_nat (length (Shards st)) + Z.of_nat (length os) < 2 ^ 62 →
  ∃ st' os', merge_pieces log fuel (Some ts) (Some te) st = Some st' ∧ stream_ok st' os' ∧
    (∀ z, z ∈ start_of <$> os' ↔ z ∈ start_of <$> os ∧ ¬ (ts < z ≤ te)) ∧
    (length (Shards st') + length os' = length (Shards st) + length os)%nat ∧ StreamStatus st' = StreamStatus st.
Proof.
  revert st os. induction fuel as [|fuel IH]; intros st os H Hf Hts Hte Hl.
  { destruct os; [|simpl in Hf; lia]. by apply not_elem_of_nil in Hts. }
  cbn [merge_pieces]. rewrite (kinesisOpenShards_ok st os H). cbn [mbind option_bind].
  rewrite (pieces_of_spec ts te os (open_parsed st os H)). cbn [mbind option_bind].
  pose proof (λ z, pieces_left st os ts te z H Hts Hte) as Hleft.
  assert ((∀ z, z ∈ start_of <$> os → ¬ (ts < z ≤ te)) → ∃ st' os', Some st = Some st' ∧ stream_ok st' os' ∧
    (∀ z, z ∈ start_of <$> os' ↔ z ∈ start_of <$> os ∧ ¬ (ts < z ≤ te)) ∧
    (length (Shards st') + length os' = length (Shards st) + length os)%nat ∧ StreamStatus st' = StreamStatus st) as Hstop.
  { intros Hn. exists st, os. split; [done|]. split; [done|]. split; [|done]. intros z. split; [|tauto]. intros Hz. split; [done|by apply Hn]. }
  destruct (filter (inside ts te) os) as [|p0 [|p1 rest]] eqn:E.
  1-2: apply Hstop; intros z Hz Hb; destruct (Hleft z Hz Hb) as (? & ? & ? & ?); done.
  destruct (pieces_adjacent _ _ os ts te p0 p1 rest (ok_tiles _ _ H) E) as (l & r & Eos).
  destruct (merge_ok st os l p0 p1 r p0 p1 H Eos ltac:(by left)) as (st1 & os1 & -> & H1 & Hst1 & Hl1 & Hlen & Hstat); [rewrite Eos, length_app in Hl; simpl in Hl; lia|].
  assert (p0 ∈ filter (inside ts te) os ∧ p1 ∈ filter (inside ts te) os) as [I0 I1] by (rewrite E; split; [left|right; left]).
  apply list_elem_of_filter in I0 as [[I0 _] M0], I1 as [[_ I1] M1]. cbv beta in *.
  pose proof (tiles_upper _ _ _ _ (ok_tiles _ _ H) (list_elem_of_fmap_2 hash_range _ _ M1)) as [U1 U2].
  pose proof (tiles_upper _ _ _ _ (ok_tiles _ _ H) (list_elem_of_fmap_2 hash_range _ _ M0)) as [_ U3].
  assert (hr_End (hash_range p0) + 1 = hr_Start (hash_range p1)) as Hadj.
  { pose proof (ok_tiles _ _ H) as Ht. rewrite Eos, fmap_app, !fmap_cons in Ht. apply tiles_app in Ht as (m & _ & _ & _ & T & _). lia. }
  destruct (IH st1 os1 H1) as (st' & os' & E' & H' & Hst' & Hsum & Hs').
  - lia.
  - apply Hst1. split; [lia|done].
  - destruct Hte as [Hte|Hte]; [left|by right]. apply Hst1. split; [lia|done].
  - lia.
  - exists st', os'. split; [done|]. split; [done|]. split; [|split; [lia|congruence]].
    intros z. rewrite Hst', Hst1. split; [tauto|]. intros [Hz Hn]. split; [|done]. split; [|done]. intros ->. apply Hn. lia.
Qed.

Lemma merge_targets_ok (B : Z → Prop) targets st os :
  stream_ok st os → (∀ z, B z → z ∈ start_of <$> os) →
  Forall (λ t, parsed t ∧ B (start_of t) ∧ (B (end_of t + 1) ∨ end_of t + 1 = key_space) ∧ ∀ z, B z → ¬ (start_of t < z ≤ end_of t)) targets →
  Z.of_nat (length (Shards st)) + Z.of_nat (length os) < 2 ^ 62 →
  ∃ st' os', merge_targets log targets st = Some st' ∧ stream_ok st' os' ∧
    (∀ z, z ∈ start_of <$> os' ↔ z ∈ start_of <$> os ∧ ∀ t, t ∈ targets → ¬ (start_of t < z ≤ end_of t)) ∧
    (length (Shards st') + length os' = length (Shards st) + length os)%nat ∧ StreamStatus st' = StreamStatus st.
Proof.
  revert st os. induction targets as [|t targets IH]; intros st os H HB Ht Hl.
  { exists st, os. split; [done|]. split; [done|]. split; [|done]. intros z. split; [|tauto]. intros Hz. split; [done|]. intros t []%not_elem_of_nil. }
  apply Forall_cons in Ht as [(Pt & Bs & Be & Bin) Ht]. cbn [merge_targets]. rewrite (parsed_range t Pt).
  assert (length os ≤ length (Shards st))%nat as Hos.
  { rewrite (ok_open _ _ H). apply length_filter. }
  destruct (merge_loop_ok (length (Shards st)) (start_of t) (end_of t) st os H Hos) as (st1 & os1 & E1 & H1 & Hst1 & Hsum & Hstat);
    [by apply HB|by destruct Be as [?%HB|]; [left|right]|done|]. rewrite E1. cbn [mbind option_bind].
  destruct (IH st1 os1 H1) as (st' & os' & E' & H' & Hst' & Hsum' & Hs').
  - intros z Hz. apply Hst1. split; [by apply HB|by apply Bin].
  - done.
  - lia.
  - exists st', os'. split; [done|]. split; [done|]. split; [|split; [lia|congruence]].
    intros z. rewrite Hst', Hst1. split.
    + intros [[Hz Hn] Hall]. split; [done|]. intros t' [->|Ht']%elem_of_cons; [done|by apply Hall].
    + intros [Hz Hall]. split; [split; [done|apply Hall; left]|]. intros t' Ht'. apply Hall. by right.
Qed.

Lemma tiles_determined lo hi rs rs' :
  tiles lo rs hi → tiles lo rs' hi → hr_Start <$> rs = hr_Start <$> rs' → hr_End <$> rs = hr_End <$> rs'.
Proof.
  revert lo rs'. induction rs as [|p rs IH]; intros lo [|p' rs'] Ht Ht' E; try done.
  rewrite !fmap_cons in *. injection E as E1 E2. destruct Ht as (T1 & T2 & T3), Ht' as (T1' & T2' & T3').
  assert (hr_End p = hr_End p') as Ee.
  { destruct rs as [|q rs], rs' as [|q' rs']; try done; simpl in *; [lia|]. injection E2 as E2 _. lia. }
  f_equal; [done|]. rewrite Ee in T3. by eapply IH.
Qed.

(** The targets' boundaries are theirs alone. *)
Lemma uniform_targets (us : list KinesisShard) :
  tiles 0 (hash_range <$> us) key_space → Forall parsed us →
  Forall (λ t, parsed t ∧ start_of t ∈ start_of <$> us ∧ (end_of t + 1 ∈ start_of <$> us ∨ end_of t + 1 = key_space) ∧
    ∀ z, z ∈ start_of <$> us → ¬ (start_of t < z ≤ end_of t)) us.
Proof.
  intros Ht Hp. apply Forall_forall. intros t Hin. rewrite Forall_forall in Hp. split; [by apply Hp|]. split; [by apply (list_elem_of_fmap_2 start_of)|].
  split.
  - apply list_elem_of_split in Hin as (l & r & ->). rewrite fmap_app, fmap_cons in Ht. apply tiles_app in Ht as (m & _ & _ & _ & Ht).
    destruct r as [|q r]; [by right|]. left. rewrite fmap_cons in Ht. destruct Ht as (Hq & _). cbv beta. rewrite <- Hq.
    apply (list_elem_of_fmap_2 start_of). set_solver.
  - intros z (s & -> & Hs)%list_elem_of_fmap Hb. cbv beta in *.
    destruct (tiles_owner _ _ _ (hr_Start (hash_range s)) Ht) as (p & _ & _ & Hu).
    { split; [by apply (tiles_bounds _ _ _ _ Ht), list_elem_of_fmap_2|]. pose proof (tiles_upper _ _ _ _ Ht (list_elem_of_fmap_2 hash_range _ _ Hs)). lia. }
    pose proof (tiles_upper _ _ _ _ Ht (list_elem_of_fmap_2 hash_range _ _ Hs)) as [_ Hle].
    assert (hash_range t = p) as E1 by (apply Hu; [by apply list_elem_of_fmap_2|unfold owns; lia]).
    assert (hash_range s = p) as E2 by (apply Hu; [by apply list_elem_of_fmap_2|unfold owns; lia]). rewrite E1, E2 in Hb. lia.
Qed.

Lemma reshard_uniformly_ok st os target :
  stream_ok st os → 1 ≤ target → 2 * Z.of_nat (length (Shards st)) + 3 * target < 2 ^ 62 →
  ∃ st' os', kinesisReshardUniformly log target st = Some st' ∧ stream_ok st' os' ∧
    start_of <$> os' = start_of <$> kinesisMakeShards target ∧ end_of <$> os' = end_of <$> kinesisMakeShards target ∧
    length os' = Z.to_nat target ∧ StreamStatus st' = StreamStatus st.
Proof.
  intros H Ht Hl. destruct (kinesisMakeShards_spec target) as (_ & Ht1 & Hp & Hlen & _ & _); [lia|].
  set (us := kinesisMakeShards target) in *. unfold kinesisReshardUniformly. fold us.
  pose proof (uniform_targets us Ht1 Hp) as Hus.
  assert (∀ z, z ∈ start_of <$> us → 0 ≤ z < key_space) as Hrange.
  { intros z (s & -> & Hs)%list_elem_of_fmap. pose proof (tiles_upper _ _ _ _ Ht1 (list_elem_of_fmap_2 hash_range _ _ Hs)).
    split; [by apply (tiles_bounds _ _ _ _ Ht1), list_elem_of_fmap_2|lia]. }
  assert (Forall (λ t, parsed t ∧ 0 ≤ start_of t < key_space) (tail us)) as Htail.
  { apply Forall_forall. intros t Hin. assert (t ∈ us) as Hin' by (destruct us; [done|by right]). rewrite Forall_forall in Hp.
    split; [by apply Hp|]. by apply Hrange, (list_elem_of_fmap_2 start_of). }
  assert (length (tail us) ≤ length us)%nat as Hlt by (destruct us; simpl; lia).
  destruct (split_boundaries_ok (tail us) st os H Htail) as (st1 & os1 & E1 & H1 & Hst1 & Hl1 & Hl2 & Hs1); [lia|]. rewrite E1. cbn [mbind option_bind].
  assert (length os ≤ length (Shards st))%nat as Hos by (rewrite (ok_open _ _ H); apply length_filter).
  assert (∀ z, z ∈ start_of <$> us → z ∈ start_of <$> os1) as HB.
  { intros z Hz. destruct us as [|u us']; [by apply not_elem_of_nil in Hz|]. rewrite fmap_cons, elem_of_cons in Hz.
    destruct Hz as [->|Hz]; [|by apply Hst1; right]. rewrite fmap_cons in Ht1. destruct Ht1 as (-> & _).
    apply (unspanned_boundary st1 os1 0 H1); [done|]. intros s Hs. pose proof (tiles_bounds _ _ _ _ (ok_tiles _ _ H1) (list_elem_of_fmap_2 hash_range _ _ Hs)). lia. }
  destruct (merge_targets_ok (λ z, z ∈ start_of <$> us) us st1 os1 H1 HB Hus) as (st' & os' & E' & H' & Hst' & Hsum & Hs'); [lia|].
  exists st', os'. split; [done|]. split; [done|].
  assert (∀ z, z ∈ start_of <$> os' ↔ z ∈ start_of <$> us) as Hsame.
  { intros z. rewrite Hst'. split.
    - intros [Hz Hn]. destruct (tiles_owner _ _ _ z Ht1) as (p & Hin & Ho & _).
      { apply list_elem_of_fmap in Hz as (s & -> & Hs). pose proof (tiles_upper _ _ _ _ (ok_tiles _ _ H1) (list_elem_of_fmap_2 hash_range _ _ Hs)).
        split; [by apply (tiles_bounds _ _ _ _ (ok_tiles _ _ H1)), list_elem_of_fmap_2|lia]. }
      apply list_elem_of_fmap in Hin as (t & -> & Hin). specialize (Hn t Hin). unfold owns in Ho. cbv beta in *.
      apply list_elem_of_fmap. exists t. split; [lia|done].
    - intros Hz. split; [by apply HB|]. intros t Hin. rewrite Forall_forall in Hus. by apply Hus. }
  assert (start_of <$> os' = start_of <$> us) as Es.
  { apply (StronglySorted_elem_unique Z.lt); [| |done].
    - pose proof (tiles_starts _ _ _ (ok_tiles _ _ H')) as Hst. by rewrite <- list_fmap_compose in Hst.
    - pose proof (tiles_starts _ _ _ Ht1) as Hst. by rewrite <- list_fmap_compose in Hst. }
  split; [done|]. split; [|split; [|congruence]].
  - pose proof (tiles_determined _ _ _ _ (ok_tiles _ _ H') Ht1) as Hd. rewrite <- !list_fmap_compose in Hd. by apply Hd.
  - apply (f_equal length) in Es. rewrite !length_fmap in Es. lia.
Qed.

End Resharding.

(** ** Requests and their background *)

Inductive request :=
| SplitShard (ShardToSplit NewStartingHashKey : string)
| MergeShards (ShardToMerge AdjacentShardToMerge : string)
| UpdateShardCount (now TargetShardCount : Z).

Definition handle (stream : KinesisStream) (req : request) : option (result kinesis_error (KinesisStream * reshard)) :=
  match req with
  | SplitShard id key => handleKinesisSplitShard stream id key
  | MergeShards a b => handleKinesisMergeShards stream a b
  | UpdateShardCount now target => Some (handleKinesisUpdateShardCount stream now target)
  end.

Section Machine.
Context {Sr Sh V : Type} `{!GoZero V, !Store Sr (Record_ V), !Store Sh Head}.

(** A stream with the reshardings that run behind its requests. A request is
    accepted or refused; a resharding finds whatever log there is when it
    runs. No stream holds as many as [2^60] shards. *)
Inductive kinesis_step : KinesisStream * list reshard → KinesisStream * list reshard → Prop :=
| step_accept st pending req st' r :
    handle st req = Some (Ok (st', r)) → Z.of_nat (length (Shards st)) < 2 ^ 60 →
    kinesis_step (st, pending) (st', r :: pending)
| step_finish (log : Log Sr Sh) st before r after st' :
    finish_reshard log r st = Some (Some st') →
    kinesis_step (st, before ++ r :: after) (st', before ++ after).

(** What a pending resharding relies on. *)
Definition pending_ok (st : KinesisStream) (os : list KinesisShard) (r : reshard) : Prop :=
  Z.of_nat (length (Shards st)) < 2 ^ 60 ∧
  match r with
  | Split p b => p ∈ os ∧ start_of p < b ≤ end_of p
  | Merge p a => ∃ l x y r, os = l ++ x :: y :: r ∧ ((p = x ∧ a = y) ∨ (p = y ∧ a = x))
  | Uniform target => 1 ≤ target ≤ kinesisShardLimit
  end.

Definition machine_ok (s : KinesisStream * list reshard) : Prop :=
  ∃ os, stream_ok s.1 os ∧
    ((StreamStatus s.1 = "ACTIVE" ∧ s.2 = []) ∨ (StreamStatus s.1 = "UPDATING" ∧ ∃ r, s.2 = [r] ∧ pending_ok s.1 os r)).

#[local] Opaque hash_range kinesisHashRange.

Lemma found_open st os id sh : stream_ok st os → kinesisFindShard st id = Some sh → kinesisShardClosed sh = false → sh ∈ os.
Proof.
  intros H Hf Hc. apply List.find_some in Hf as [Hin%list_elem_of_In _]. rewrite (ok_open _ _ H). apply list_elem_of_filter.
  split; [|done]. unfold open. by rewrite Hc.
Qed.

Lemma tiles_neighbours lo hi os x y :
  tiles lo (hash_range <$> os) hi → x ∈ os → y ∈ os → end_of x + 1 = start_of y → ∃ l r, os = l ++ x :: y :: r.
Proof.
  intros Ht Hx Hy E. apply list_elem_of_split in Hx as (l & r & ->). rewrite fmap_app, fmap_cons in Ht.
  pose proof Ht as Ht0. apply tiles_app in Ht as (m & T1 & T2 & T3 & T4). cbv beta in *.
  exists l. destruct r as [|q r]; cycle 1.
  - exists r. f_equal. f_equal. f_equal. rewrite fmap_cons in T4. destruct T4 as (T5 & T6 & T7).
    apply elem_of_app in Hy as [Hy|Hy].
    + pose proof (tiles_upper _ _ _ _ T1 (list_elem_of_fmap_2 hash_range _ _ Hy)). lia.
    + apply elem_of_cons in Hy as [->|Hy]; [lia|]. apply elem_of_cons in Hy as [->|Hy]; [done|].
      pose proof (tiles_bounds _ _ _ _ T7 (list_elem_of_fmap_2 hash_range _ _ Hy)). lia.
  - apply elem_of_app in Hy as [Hy|Hy%list_elem_of_singleton]; [|subst; lia].
    pose proof (tiles_upper _ _ _ _ T1 (list_elem_of_fmap_2 hash_range _ _ Hy)). lia.
Qed.

(** A request never panics, and what it leaves pending can be applied. *)
Lemma handle_ok st os req :
  stream_ok st os → Z.of_nat (length (Shards st)) < 2 ^ 60 →
  ∃ res, handle st req = Some res ∧
    match res with
    | Ok (st', r) => StreamStatus st = "ACTIVE" ∧ StreamStatus st' = "UPDATING" ∧ Shards st' = Shards st ∧
                     OpenShardCount st' = OpenShardCount st ∧ pending_ok st' os r
    | Err _ => True
    end.
Proof.
  intros H Hl. destruct req as [id key|id id'|now target]; cbn [handle].
  - unfold handleKinesisSplitShard. destruct (String.eqb_spec (StreamStatus st) "ACTIVE") as [Ea|]; [|by eexists]. cbn [negb].
    destruct (kinesisFindShard st id) as [p|] eqn:Ef; [|by eexists]. destruct (kinesisShardClosed p) eqn:Ec; [by eexists|].
    destruct (Int_SetString key) as [b|]; [|by eexists]. pose proof (found_open st os id p H Ef Ec) as Hp.
    destruct (open_in_parsed st os p H Hp) as (Pp & _ & _). rewrite (parsed_range p Pp). unfold cmp. cbn [mbind option_bind]. cbv beta.
    destruct (Z.compare_spec b (hr_Start (hash_range p))) as [C|C|C]; simpl; [by eexists|by eexists|].
    destruct (Z.compare_spec b (hr_End (hash_range p))) as [D|D|D]; simpl; [| |by eexists];
      (eexists; split; [done|]; split; [done|]; split; [done|]; split; [done|]; split; [done|]; split; [done|]; split; [done|]; cbv beta; lia).
  - unfold handleKinesisMergeShards. destruct (String.eqb_spec (StreamStatus st) "ACTIVE") as [Ea|]; [|by eexists]. cbn [negb].
    destruct (kinesisFindShard st id) as [p|] eqn:Ef; [|by eexists]. destruct (kinesisFindShard st id') as [a|] eqn:Ef'; [|by eexists].
    destruct (kinesisShardClosed p) eqn:Ec; [by eexists|]. destruct (kinesisShardClosed a) eqn:Ec'; [by eexists|].
    pose proof (found_open st os id p H Ef Ec) as Hp. pose proof (found_open st os id' a H Ef' Ec') as Ha.
    destruct (open_in_parsed st os p H Hp) as (Pp & _ & _), (open_in_parsed st os a H Ha) as (Pa & _ & _).
    unfold kinesisAdjacent. rewrite (parsed_range p Pp), (parsed_range a Pa). unfold cmp. cbn [mbind option_bind]. cbv beta.
    pose proof (λ x y, tiles_neighbours _ _ os x y (ok_tiles _ _ H)) as Hn. cbv beta in Hn.
    destruct (Z.compare_spec (hr_End (hash_range p) + 1) (hr_Start (hash_range a))) as [C|C|C]; simpl.
    1: { destruct (Hn p a Hp Ha C) as (l & r & E). eexists. split; [done|]. split; [done|]. split; [done|]. split; [done|]. split; [done|]. split; [done|].
         exists l, p, a, r. auto. }
    all: destruct (Z.compare_spec (hr_End (hash_range a) + 1) (hr_Start (hash_range p))) as [D|D|D]; simpl; [|by eexists..];
      destruct (Hn a p Ha Hp D) as (l & r & E); eexists; (split; [done|]); (split; [done|]); (split; [done|]); (split; [done|]); (split; [done|]); (split; [done|]);
      exists l, a, p, r; auto.
  - unfold handleKinesisUpdateShardCount. destruct (Z.ltb_spec target 1); [by eexists|]. destruct (String.eqb (index _ _) _); [by eexists|].
    destruct (String.eqb_spec (StreamStatus st) "ACTIVE") as [Ea|]; [|by eexists]. cbn [negb].
    destruct (10 <=? _)%nat; [by eexists|]. destruct (_ <? target); [by eexists|]. destruct (_ <? kinesisOpenShardCount _); [by eexists|].
    destruct (Z.ltb_spec kinesisShardLimit target); [by eexists|]. eexists. split; [done|]. split; [done|]. split; [done|]. split; [done|]. split; [done|].
    split; [done|]. simpl. lia.
Qed.

Lemma stream_ok_same st st' os : stream_ok st os → Shards st' = Shards st → OpenShardCount st' = OpenShardCount st → stream_ok st' os.
Proof. intros [] E1 E2. split; rewrite ?E1, ?E2; done. Qed.

Lemma finish_ok (log : Log Sr Sh) st os r :
  stream_ok st os → StreamStatus st = "UPDATING" → pending_ok st os r →
  ∃ st' os', finish_reshard log r st = Some (Some st') ∧ stream_ok st' os' ∧ StreamStatus st' = "ACTIVE".
Proof.
  intros H Hs [Hl Hr]. unfold finish_reshard. rewrite Hs, String.eqb_refl.
  enough (∃ st' os', apply_reshard log r st = Some st' ∧ stream_ok st' os') as (st' & os' & -> & H').
  { exists (set_status "ACTIVE" st'), os'. split; [done|]. split; [|done]. by apply (stream_ok_same st'). }
  destruct r as [p b|p a|target]; cbn [apply_reshard].
  - destruct Hr as [Hp Hb]. destruct (split_ok log st os p b H Hp Hb) as (os' & H' & _); [lia|]. eauto.
  - destruct Hr as (l & x & y & r & E & Hpa). destruct (merge_ok log st os l x y r p a H E Hpa) as (st' & os' & E' & H' & _); [lia|]. eauto.
  - unfold kinesisShardLimit in Hr. destruct (reshard_uniformly_ok log st os target H) as (st' & os' & E' & H' & _); [lia|lia|]. eauto.
Qed.

Lemma machine_step s s' : machine_ok s → kinesis_step s s' → machine_ok s'.
Proof.
  intros (os & H & Hst) Hstep. destruct Hstep as [st pending req st' r Hh Hl|log st before r after st' Hf]; simpl in *.
  - destruct (handle_ok st os req H Hl) as (res & E & Hres). rewrite Hh in E. injection E as <-. destruct Hres as (Ha & Hu & Es & Ec & Hp).
    destruct Hst as [[_ ->]|[Hu' _]]; [|congruence]. exists os. split; [by apply (stream_ok_same st)|]. right. eauto.
  - destruct Hst as [[_ E]|[Hu (r' & E & Hp)]]; [by destruct before|].
    destruct before as [|? before]; [|by destruct before]. injection E as -> ->.
    destruct (finish_ok log st os r' H Hu Hp) as (st1 & os' & E1 & H1 & Hs1). rewrite Hf in E1. injection E1 as ->.
    exists os'. split; [done|]. by left.
Qed.

Lemma created_ok onDemand name count mode strategy :
  0 ≤ count < 2 ^ 60 → machine_ok (handleKinesisCreateStream onDemand name count mode strategy, []).
Proof.
  intros Hc. unfold handleKinesisCreateStream. set (n := if _ =? 0 then 1 else _).
  assert (1 ≤ n < 2 ^ 60) as Hn by (subst n; repeat case_match; bools; lia).
  destruct (kinesisMakeShards_spec n) as (_ & Ht & Hp & Hlen & Hids & Ho); [lia|]. exists (kinesisMakeShards n). split; [|by left].
  assert (opened (kinesisMakeShards n) = kinesisMakeShards n) as E by (by apply filter_all). split; simpl; [done|done|by rewrite E|done|].
  unfold kinesisOpenShardCount. rewrite E, Hlen. lia.
Qed.

Lemma kinesis_reachable_ok s s' : machine_ok s → rtc kinesis_step s s' → machine_ok s'.
Proof. intros H Hr. induction Hr as [|s1 s2 s3 Hs _ IH]; [done|]. by apply IH, (machine_step s1). Qed.

(** ** Placement *)

(** The hash a record is placed by. *)
Definition placed_hash (partitionKey explicitHashKey : string) : Z :=
  if String.eqb explicitHashKey "" then KeyHash partitionKey else default (KeyHash partitionKey) (Int_SetString explicitHashKey).

Lemma open_ranges_ok st os : stream_ok st os → open_ranges (Shards st) = hash_range <$> opened (Shards st).
Proof.
  intros H. pose proof (ok_parsed _ _ H) as Hp. induction (Shards st) as [|s ss IH]; [done|].
  apply Forall_cons in Hp as [Hs Hp]. specialize (IH Hp). rewrite filter_cons.
  assert (open_ranges (s :: ss) = (if kinesisShardClosed s then [] else [hash_range s]) ++ open_ranges ss) as ->.
  { unfold open_ranges. cbn [omap list_omap]. rewrite (parsed_range s Hs). destruct (kinesisShardClosed s); [done|]. simpl. by f_equal. }
  rewrite IH. case_decide as Ho; unfold open in Ho; by destruct (kinesisShardClosed s).
Qed.

Lemma select_ok st os key explicit :
  stream_ok st os →
  ∃ s, s ∈ os ∧ kinesisSelectShard st key explicit = ShardId s ∧
    (0 ≤ placed_hash key explicit < key_space → owns (hash_range s) (placed_hash key explicit)).
Proof.
  intros H. assert (kinesisSelectShard st key explicit = PartitionHash (hash_range <$> opened (Shards st)) (placed_hash key explicit)) as ->.
  { unfold kinesisSelectShard, placed_hash. rewrite (open_ranges_ok st os H). destruct (String.eqb explicit ""); [done|]. by destruct (Int_SetString explicit). }
  unfold PartitionHash. pose proof (range_of_spec (hash_range <$> opened (Shards st)) (placed_hash key explicit)) as Hs.
  assert (∀ s, s ∈ opened (Shards st) ↔ s ∈ os) as Hin by (intros s; by rewrite (ok_open _ _ H)).
  destruct (range_of _ _) as [id|].
  - destruct Hs as (p & Hp & -> & Ho). apply list_elem_of_fmap in Hp as (s & -> & Hp). exists s. rewrite <- Hin. auto.
  - assert (∀ h, 0 ≤ h < key_space → ∃ p, p ∈ hash_range <$> opened (Shards st) ∧ owns p h) as Hall.
    { intros h Hh. destruct (tiles_owner _ _ _ h (ok_tiles _ _ H) Hh) as (p & Hp & Ho & _). exists p. split; [|done].
      apply list_elem_of_fmap in Hp as (s & -> & Hp). by apply list_elem_of_fmap_2, Hin. }
    destruct (opened (Shards st)) as [|s ss]; [destruct (Hall 0) as (p & []%not_elem_of_nil & _); done|].
    exists s. split; [apply Hin; left|]. split; [apply hash_range_ID|]. intros Hh. destruct (Hall _ Hh) as (p & Hp & Ho). by destruct (Hs p Hp).
Qed.

(** *** Appending to the log *)

Context `{!StoreSpec Sr (Record_ V), !StoreSpec Sh Head}.

(** How many records a shard holds. *)
Definition held (a : alog V) (name : string) (sh : KinesisShard) : nat := length (plog_of a (kinesisShardRecordKey name (ShardId sh))).2.

Lemma least_step_spec log a name acc sh :
  represents log a → 
  least_step log name acc sh =
  if kinesisShardClosed sh then acc
  else if (acc.2 <? 0) || (Z.of_nat (held a name sh) <? acc.2) then (sh, Z.of_nat (held a name sh)) else acc.
Proof.
  intros Hr. unfold least_step, HeadOf. rewrite (represents_head log a _ Hr). unfold head_row, next_of, held. simpl.
  replace (_ + _ - _) with (Z.of_nat (length (plog_of a (kinesisShardRecordKey name (ShardId sh))).2)) by lia.
  destruct (represents_plog_ok log a (kinesisShardRecordKey name (ShardId sh)) Hr) as [H0 H1]. unfold next_of in H1.
  rewrite i64_id by (unfold in_i64; lia). done.
Qed.

Lemma least_loaded_ok log a name shards :
  represents log a →
  let acc := foldl (least_step log name) (zero, -1) shards in
  match opened shards with
  | [] => acc = (zero, -1)
  | _ => acc.1 ∈ opened shards ∧ acc.2 = Z.of_nat (held a name acc.1) ∧ ∀ s, s ∈ opened shards → (held a name acc.1 ≤ held a name s)%nat
  end.
Proof.
  intros Hr. induction shards as [|sh shards IH] using rev_ind; [done|]. rewrite foldl_snoc, (least_step_spec log a) by done.
  rewrite filter_app, filter_cons, filter_nil. set (acc := foldl _ _ shards) in *. cbv zeta in IH |- *.
  destruct (kinesisShardClosed sh) eqn:Ec.
  - rewrite decide_False by (unfold open; by rewrite Ec). by rewrite app_nil_r.
  - rewrite decide_True by (unfold open; by rewrite Ec). destruct (opened shards) as [|s0 ss] eqn:Eo.
    + rewrite IH. simpl. split; [left|]. split; [done|]. intros s ->%list_elem_of_singleton. lia.
    + destruct IH as (I1 & I2 & I3). change ((s0 :: ss) ++ [sh]) with (s0 :: (ss ++ [sh])). cbv iota.
      change (s0 :: ss ++ [sh]) with ((s0 :: ss) ++ [sh]). rewrite I2. rewrite (proj2 (Z.ltb_ge _ 0)) by lia. cbn [orb].
      destruct (Z.ltb_spec (Z.of_nat (held a name sh)) (Z.of_nat (held a name acc.1))) as [Hlt|Hge]; cbn [fst snd].
      * split; [set_solver|]. split; [done|]. intros s [Hs| ->%list_elem_of_singleton]%elem_of_app; [|lia]. specialize (I3 s Hs). lia.
      * split; [set_solver|]. split; [done|]. intros s [Hs| ->%list_elem_of_singleton]%elem_of_app; [by apply I3|lia].
Qed.

(** Trimming leaves a partition's next number, and every other partition, as
    they were. *)
Lemma trim_ok log a p cutoff :
  represents log a →
  ∃ a', represents (Trim log p cutoff).1 a' ∧ (∀ q, q ≠ p → plog_of a' q = plog_of a q) ∧
    let n := aged (UnixMilli cutoff) (plog_of a p).2 in
    plog_of a' p = ((plog_of a p).1 + Z.of_nat n, drop n (plog_of a p).2) ∧ next_of (plog_of a' p) = next_of (plog_of a p).
Proof.
  intros Hr. destruct (trim_refines log a p cutoff Hr) as [H _]. eexists. split; [exact H|]. simpl. unfold plog_of, next_of.
  assert (∀ (l : list (option (Z * V))) c, (aged c l ≤ length l)%nat) as Ha.
  { intros l c. induction l as [|[[t v]|] l IH]; simpl; [lia| |lia]. destruct (t <? c); lia. }
  case_bool_decide as Hs.
  - split; [intros q Hq; by rewrite lookup_insert_ne|]. rewrite lookup_insert_eq. simpl. split; [done|]. rewrite length_drop.
    pose proof (Ha (default (0, []) (a !! p)).2 (UnixMilli cutoff)). lia.
  - split; [done|]. destruct (a !! p) as [pl|]; [by destruct Hs|]. done.
Qed.

(** The log after a record: the shard's aged records are gone, the record is
    its last, and no other shard changed. *)
Definition record_added (a a' : alog V) (p : string) (now cutoff : Z) (v : V) : Prop :=
  let n := aged (UnixMilli cutoff) (plog_of a p).2 in
  plog_of a' p = ((plog_of a p).1 + Z.of_nat n, drop n (plog_of a p).2 ++ [Some (UnixMilli now, v)]) ∧
  ∀ q, q ≠ p → plog_of a' q = plog_of a q.

Lemma append_record_ok log a st now v key explicit :
  represents log a → (∀ p, next_of (plog_of a p) + 1 < 2 ^ 63) →
  let '(id, seq, log') := kinesisAppendRecord log st now v key explicit in
  let p := kinesisShardRecordKey (StreamName st) id in
  id = (if String.eqb (RecordDistributionStrategy st) "AUTO" then ShardId (kinesisLeastLoadedOpenShard log st) else kinesisSelectShard st key explicit) ∧
  seq = Some (kinesisSequenceNumber (next_of (plog_of a p))) ∧
  ∃ a' cutoff, represents log' a' ∧ record_added a a' p now cutoff v.
Proof.
  intros Hr Hb. unfold kinesisAppendRecord. set (id := if String.eqb (RecordDistributionStrategy st) "AUTO" then _ else _).
  set (p := kinesisShardRecordKey (StreamName st) id). unfold kinesisTrim. fold p. set (cutoff := now - _).
  destruct (trim_ok log a p cutoff Hr) as (a1 & Hr1 & Ho1 & Hp1 & Hn1).
  destruct (append_refines _ a1 p now [v] Hr1) as [Hr2 Hrec]; [simpl; rewrite Hn1; specialize (Hb p); lia|].
  destruct (Append (Trim log p cutoff).1 p now [v]) as [log' recs]. simpl in Hr2, Hrec. injection Hrec as ->. simpl.
  split; [done|]. split; [by rewrite Hn1|]. eexists _, cutoff. split; [exact Hr2|]. split.
  - rewrite plog_of_insert, fn_lookup_insert, Hp1. done.
  - intros q Hq. by rewrite plog_of_insert, fn_lookup_insert_ne, Ho1.
Qed.

End Machine.

(** ** Properties *)

(** [C27] The open shards of a stream always divide the 128-bit hash keys: after
    any sequence of accepted splits, merges and uniform reshardings, whatever
    the log holds when they are applied, every key belongs to exactly one open
    shard, the stream counts its open shards, no two shards share an id, a
    record is placed on the open shard that owns its hash, no request makes a
    nil number be compared, and a pending resharding can always be applied. *)
Theorem open_shards_divide_the_keys {Sr Sh V : Type} `{!GoZero V, !Store Sr (Record_ V), !Store Sh Head}
    onDemand name count mode strategy (st : KinesisStream) (pending : list reshard) :
  0 ≤ count < 2 ^ 60 →
  rtc (kinesis_step (Sr:=Sr) (Sh:=Sh)) (handleKinesisCreateStream onDemand name count mode strategy, []) (st, pending) →
  ∃ os, kinesisOpenShards st = Some os ∧ tiles 0 (hash_range <$> os) (2 ^ 128) ∧
    OpenShardCount st = Z.of_nat (length os) ∧ NoDup (ShardId <$> Shards st) ∧
    (∀ key explicit, ∃ s, s ∈ os ∧ kinesisSelectShard st key explicit = ShardId s ∧
       (0 ≤ placed_hash key explicit < 2 ^ 128 → owns (hash_range s) (placed_hash key explicit))) ∧
    (Z.of_nat (length (Shards st)) < 2 ^ 60 → ∀ req, is_Some (handle st req)) ∧
    (∀ (log : Log Sr Sh) r, r ∈ pending → ∃ st', finish_reshard log r st = Some (Some st')).
Proof.
  intros Hc Hr. destruct (kinesis_reachable_ok _ _ (created_ok onDemand name count mode strategy Hc) Hr) as (os & H & Hst). simpl in H, Hst.
  exists os. split; [by apply kinesisOpenShards_ok|]. split; [apply H|]. split; [|split; [apply ids_NoDup, H|split; [|split]]].
  - rewrite (ok_count _ _ H). unfold kinesisOpenShardCount. by rewrite <- (ok_open _ _ H).
  - intros key explicit. by apply select_ok.
  - intros Hl req. destruct (handle_ok st os req H Hl) as (res & -> & _). done.
  - intros log r Hin. destruct Hst as [[_ ->]|[Hu (r' & -> & Hp)]]; [by apply not_elem_of_nil in Hin|].
    apply list_elem_of_singleton in Hin as ->. destruct (finish_ok log st os r' H Hu Hp) as (st' & _ & -> & _). eauto.
Qed.

#[local] Opaque hash_range kinesisHashRange.

(** [C28] A uniform resharding ends and reaches its target: from every stream the
    service can reach, splitting at the missing boundaries and merging the
    pieces in between leaves exactly the target number of open shards, over the
    ranges a new stream of that many shards has. *)
Theorem uniform_resharding_reaches_its_target {Sr Sh V : Type} `{!GoZero V, !Store Sr (Record_ V), !Store Sh Head}
    onDemand name count mode strategy (st : KinesisStream) (pending : list reshard) (log : Log Sr Sh) (target : Z) :
  0 ≤ count < 2 ^ 60 →
  rtc (kinesis_step (Sr:=Sr) (Sh:=Sh)) (handleKinesisCreateStream onDemand name count mode strategy, []) (st, pending) →
  1 ≤ target ≤ kinesisShardLimit → Z.of_nat (length (Shards st)) < 2 ^ 60 →
  ∃ st' os', kinesisReshardUniformly log target st = Some st' ∧ kinesisOpenShards st' = Some os' ∧
    kinesisHashRange <$> os' = kinesisHashRange <$> kinesisMakeShards target ∧ OpenShardCount st' = target.
Proof.
  intros Hc Hr Ht Hl. destruct (kinesis_reachable_ok _ _ (created_ok onDemand name count mode strategy Hc) Hr) as (os & H & _). simpl in H.
  unfold kinesisShardLimit in Ht. destruct (reshard_uniformly_ok log st os target H) as (st' & os' & E & H' & Es & Ee & Hn & _); [lia|lia|].
  exists st', os'. split; [done|]. split; [by apply kinesisOpenShards_ok|]. split.
  - destruct (kinesisMakeShards_spec target) as (_ & _ & Hp & _); [lia|]. pose proof (open_parsed _ _ H') as Hp'.
    revert Es Ee Hp Hp'. generalize (kinesisMakeShards target). clear. intros us. revert us.
    induction os' as [|s os IH]; intros [|u us]; rewrite ?fmap_cons; intros Es Ee Hp Hp'; try done.
    injection Es as Es1 Es2. injection Ee as Ee1 Ee2. apply Forall_cons in Hp as [Hu Hp], Hp' as [Hs Hp'].
    f_equal; [|by apply IH]. rewrite (parsed_range s Hs), (parsed_range u Hu). by rewrite Es1, Ee1.
  - rewrite (ok_count _ _ H'). unfold kinesisOpenShardCount. rewrite <- (ok_open _ _ H'), Hn. lia.
Qed.

#[local] Transparent hash_range kinesisHashRange.

(** A record joins an open shard: the one that owns its hash, or under the
    AUTO strategy one that holds no more records than any other; its sequence
    number is the next of that shard, it becomes the shard's last record, and
    the records of every other shard, closed ones included, stay as they were. *)
Theorem records_join_open_shards {Sr Sh V : Type} `{!GoZero V, !Store Sr (Record_ V), !Store Sh Head}
    `{!StoreSpec Sr (Record_ V), !StoreSpec Sh Head}
    onDemand name count mode strategy (st : KinesisStream) (pending : list reshard) (log : Log Sr Sh) (a : alog V) now v key explicit :
  0 ≤ count < 2 ^ 60 →
  rtc (kinesis_step (Sr:=Sr) (Sh:=Sh)) (handleKinesisCreateStream onDemand name count mode strategy, []) (st, pending) →
  represents log a → (∀ p, next_of (plog_of a p) + 1 < 2 ^ 63) →
  ∃ s log' a' cutoff, let p := kinesisShardRecordKey (StreamName st) (ShardId s) in
    kinesisAppendRecord log st now v key explicit = (ShardId s, Some (kinesisSequenceNumber (next_of (plog_of a p))), log') ∧
    s ∈ Shards st ∧ kinesisShardClosed s = false ∧
    (if String.eqb (RecordDistributionStrategy st) "AUTO"
     then ∀ s', s' ∈ Shards st → kinesisShardClosed s' = false → (held a (StreamName st) s ≤ held a (StreamName st) s')%nat
     else 0 ≤ placed_hash key explicit < 2 ^ 128 → owns (hash_range s) (placed_hash key explicit)) ∧
    represents log' a' ∧ record_added a a' p now cutoff v.
Proof.
  intros Hc Hr Hrep Hb. destruct (kinesis_reachable_ok _ _ (created_ok onDemand name count mode strategy Hc) Hr) as (os & H & _). simpl in H.
  pose proof (append_record_ok log a st now v key explicit Hrep Hb) as Ha.
  assert (∃ s, s ∈ opened (Shards st) ∧
    (if String.eqb (RecordDistributionStrategy st) "AUTO" then ShardId (kinesisLeastLoadedOpenShard log st) else kinesisSelectShard st key explicit) = ShardId s ∧
    (if String.eqb (RecordDistributionStrategy st) "AUTO" then ∀ s', s' ∈ opened (Shards st) → (held a (StreamName st) s ≤ held a (StreamName st) s')%nat
     else 0 ≤ placed_hash key explicit < 2 ^ 128 → owns (hash_range s) (placed_hash key explicit))) as (s & Hs & Eid & Hpl).
  { destruct (String.eqb (RecordDistributionStrategy st) "AUTO").
    - pose proof (least_loaded_ok log a (StreamName st) (Shards st) Hrep) as Hl. destruct (select_ok st os "" "" H) as (s0 & Hs0 & _).
      rewrite (ok_open _ _ H) in Hs0. destruct (opened (Shards st)) as [|s1 ss]; [by apply not_elem_of_nil in Hs0|].
      destruct Hl as (L1 & _ & L2). eauto.
    - destruct (select_ok st os key explicit H) as (s & Hs & E & Ho). rewrite (ok_open _ _ H) in Hs. eauto. }
  destruct (kinesisAppendRecord log st now v key explicit) as [[id seq] log']. destruct Ha as (-> & -> & a' & cutoff & Hr' & Hadd).
  rewrite Eid in *. apply list_elem_of_filter in Hs as [Ho Hs]. exists s, log', a', cutoff. cbv zeta.
  split; [done|]. split; [done|]. split; [by apply negb_true_iff in Ho|]. split; [|done].
  destruct (String.eqb (RecordDistributionStrategy st) "AUTO"); [|done]. intros s' Hs' Ho'. apply Hpl, list_elem_of_filter. split; [|done].
  unfold open. by rewrite Ho'.
Qed.

(** A stream whose resharding was interrupted, as by a restart, stays as it is:
    it is still updating, so no request is accepted, and nothing resumes it. *)
Theorem interrupted_resharding_stays {Sr Sh V : Type} `{!GoZero V, !Store Sr (Record_ V), !Store Sh Head} (st : KinesisStream) s :
  StreamStatus st = "UPDATING" → rtc (kinesis_step (Sr:=Sr) (Sh:=Sh)) (st, []) s → s = (st, []).
Proof.
  intros Hs Hr. apply rtc_inv in Hr as [<-|(s1 & Hstep & _)]; [done|]. inversion Hstep as [? ? req st' r Hh _|log st0 before r after st' Hf E]; subst; cycle 1.
  { by destruct before. }
  exfalso. destruct req as [id key|id id'|now target]; simpl in Hh.
  - unfold handleKinesisSplitShard in Hh. by rewrite Hs in Hh.
  - unfold handleKinesisMergeShards in Hh. by rewrite Hs in Hh.
  - unfold handleKinesisUpdateShardCount in Hh. rewrite Hs in Hh. repeat case_match; discriminate.
Qed.

(** ** Witnesses *)

(** A stream of two shards is resharded to three. *)
Definition w_created : KinesisStream := handleKinesisCreateStream false "s" 2 None "".
Definition w_updating : KinesisStream := set_status "UPDATING" (set_scaling_times [0] w_created).
Definition w_resharded : KinesisStream := default w_created (set_status "ACTIVE" <$> kinesisReshardUniformly w_log 3 w_updating).

Abbreviation w_step := (kinesis_step (Sr:=Z * MemoryStore (Record_ string)) (Sh:=Z * MemoryStore Head)).

Lemma w_reachable : rtc w_step (w_created, []) (w_resharded, []).
Proof.
  eapply rtc_l; [apply (step_accept w_created [] (UpdateShardCount 0 3) w_updating (Uniform 3)); vm_compute; reflexivity|].
  apply rtc_once. apply (step_finish w_log w_updating [] (Uniform 3) []). vm_compute. reflexivity.
Qed.

Lemma open_shards_divide_the_keys_witness :
  ∃ os, kinesisOpenShards w_resharded = Some os ∧ tiles 0 (hash_range <$> os) (2 ^ 128) ∧ OpenShardCount w_resharded = Z.of_nat (length os).
Proof.
  destruct (open_shards_divide_the_keys false "s" 2 None "" w_resharded [] ltac:(lia) w_reachable) as (os & H1 & H2 & H3 & _).
  exists os. split; [exact H1|]. split; [exact H2|exact H3].
Defined.

Lemma uniform_resharding_reaches_its_target_witness :
  ∃ st' os', kinesisReshardUniformly w_log 2 w_resharded = Some st' ∧ kinesisOpenShards st' = Some os' ∧
    kinesisHashRange <$> os' = kinesisHashRange <$> kinesisMakeShards 2 ∧ OpenShardCount st' = 2.
Proof.
  apply (uniform_resharding_reaches_its_target false "s" 2 None "" w_resharded [] w_log 2 ltac:(lia) w_reachable).
  - unfold kinesisShardLimit. lia.
  - vm_compute. reflexivity.
Defined.

Lemma w_log_represents : represents w_log ∅.
Proof. apply empty_represents; [apply NewStateStore_wf|apply NewStateStore_wf|done|done]. Qed.

Lemma records_join_open_shards_witness :
  ∃ s, s ∈ Shards w_resharded ∧ (kinesisAppendRecord w_log w_resharded 7 "v" "abc" "").1 = (ShardId s, Some "1") ∧
    owns (hash_range s) (KeyHash "abc").
Proof.
  destruct (records_join_open_shards false "s" 2 None "" w_resharded [] w_log ∅ 7 "v" "abc" "" ltac:(lia) w_reachable w_log_represents)
    as (s & log' & a' & cutoff & E & Hs & _ & Ho & _).
  - intros p. unfold plog_of. rewrite lookup_empty. done.
  - exists s. split; [exact Hs|]. rewrite E. cbn [fst]. split; [unfold plog_of; rewrite lookup_empty; reflexivity|].
    assert (RecordDistributionStrategy w_resharded = "") as R by (vm_compute; reflexivity).
    rewrite R in Ho. unfold placed_hash in Ho. rewrite String.eqb_refl in Ho. cbn [String.eqb] in Ho.
    exact (Ho (KeyHash_range "abc")).
Defined.

(** ** Behaviour to note *)

(** [CreateStream] takes any count: a negative one makes one shard and counts
    fewer than none. *)
Example negative_shard_count :
  let st := handleKinesisCreateStream false "s" (-3) None "" in (length (Shards st), OpenShardCount st) = (1%nat, -3).
Proof. reflexivity. Qed.

(** The open shard count of [DescribeLimits] counts closed shards too. *)
Example limits_count_closed_shards :
  (handleKinesisDescribeLimits [w_resharded], kinesisOpenShardCount (Shards w_resharded)) = (7, 3).
Proof. vm_compute. reflexivity. Qed.
