(* ===== verification/Funcrt.v ===== *)
(** * Execution environments: [src/sim/funcrt/limit.go] and [pool.go]

    A pool keeps the environments of one function version. [Acquire] leases one to
    an invocation, starting it when none is free; [Provision] keeps a number of
    them initialised ahead of invocations; both count against limits that several
    pools share. Each pool's state is guarded by its mutex: the critical sections
    are functions on the pool and the limits, and what its goroutines do between
    them is a transition system whose threads stand where a goroutine waits or
    where a caller holds a lease. The file proves that the limits account for every
    unit, whatever the interleaving; that no limit is passed; that no environment
    is stopped under an invocation, twice, or never; and that a pool keeps the
    environments it was asked to provision. It also shows the runs in which a
    caller that gives up waiting breaks the pool.

    A limit's search for its owner and its own critical section are one step; the
    channel a change closes ([changed]) is a count of the changes. Counts are
    unbounded integers: they would need 2 ^ 63 calls to leave their type. *)

From S2P Require Import Prelude.

(** ** Limits *)

(** A limit is a pointer: its index in the list of limits created. *)
Record Limit := MkLimit { parent : option nat; max : Z; inUse : Z; reserved : Z }.

Abbreviation limits := (list Limit).

Definition NewLimit (par : option nat) (m : Z) (ls : limits) : limits := ls ++ [MkLimit par m 0 0].

Definition set_max (m : Z) (l : Limit) : Limit := MkLimit (parent l) m (inUse l) (reserved l).
Definition SetMax (i : nat) (m : Z) (ls : limits) : limits := alter (set_max m) i ls.

(** A parent is older than its limit, so the list bounds the length of the chain. *)
Fixpoint owner_loop (fuel : nat) (ls : limits) (cur : option nat) : option nat :=
  match fuel, cur with
  | S fuel, Some i =>
      match ls !! i with
      | Some l => if 0 <=? max l then Some i else owner_loop fuel ls (parent l)
      | None => None
      end
  | _, _ => None
  end.

Definition owner (ls : limits) (i : nat) : option nat := owner_loop (length ls) ls (Some i).

Definition add_inUse (n : Z) (l : Limit) : Limit := MkLimit (parent l) (max l) (inUse l + n) (reserved l).
Definition add_reserved (n : Z) (l : Limit) : Limit := MkLimit (parent l) (max l) (inUse l) (reserved l + n).

(** [inl j] is the [ThrottledError] of limit [j]; otherwise the holder of the unit,
    nil when nothing bounds it, and the limits. *)
Definition Limit_take (ls : limits) (lim : option nat) : nat + option nat * limits :=
  match lim ≫= owner ls with
  | None => inr (None, ls)
  | Some j =>
      match ls !! j with
      | None => inr (None, ls)
      | Some l =>
          if (0 <=? max l) && (max l <=? inUse l + reserved l) then inl j
          else inr (Some j, alter (add_inUse 1) j ls)
      end
  end.

Definition Limit_reserve (ls : limits) (lim : option nat) (n : Z) : nat + option nat * limits :=
  if n =? 0 then inr (None, ls)
  else
    match lim ≫= owner ls with
    | None => inr (None, ls)
    | Some j =>
        match ls !! j with
        | None => inr (None, ls)
        | Some l =>
            if (0 <=? max l) && (max l <? inUse l + reserved l + n) then inl j
            else inr (Some j, alter (add_reserved n) j ls)
        end
    end.

Definition Limit_release (ls : limits) (h : option nat) : limits :=
  match h with Some j => alter (add_inUse (-1)) j ls | None => ls end.

Definition Limit_unreserve (ls : limits) (h : option nat) (n : Z) : limits :=
  match h with Some j => if n =? 0 then ls else alter (add_reserved (- n)) j ls | None => ls end.

(** ** The pool *)

Inductive Kind := OnDemand | Provisioned.
Inductive slotState := starting | ready | gone.

(** The environments and errors of the cloud's [Hooks.Start] are opaque. *)
Section Pool.
Context {E Err : Type}.

(** A slot is a pointer: its index in the heap of slots the pool created. [started]
    says that its channel of that name is closed. [park] is a channel, nil at
    first, by its number and whether it is closed. *)
Record slot := MkSlot {
  kind : Kind;
  state : slotState;
  env : option E;
  leases : Z;
  started : bool;
  err : option Err;
  park : option (nat * bool);
}.

(** [Hooks.Expires], when set, gives an environment's time, [None] the zero time. *)
Record Options := MkOptions { LimitOf : option nat; PerEnvironment : Z; Expires : option (E → option Time) }.

Record provision := MkProvision { provRequested : Z; provHolder : option nat; provReserved : Z; provErr : option Err }.

(** [canceled] is the pool's context; [chans] numbers its park channels. [stopped]
    records the slots whose environment's [Stop] has been called, and nothing reads
    it. *)
Record Pool := MkPool {
  opts : Options;
  canceled : bool;
  heap : list slot;
  slots : list nat;
  retired : bool;
  changed : Z;
  chans : nat;
  prov : provision;
  stopped : list nat;
}.

Definition New (o : Options) : Pool := MkPool o false [] [] false 0 0 (MkProvision 0 None 0 None) [].

Definition is_starting (s : slot) : bool := match state s with starting => true | _ => false end.
Definition is_ready (s : slot) : bool := match state s with ready => true | _ => false end.
Definition is_gone (s : slot) : bool := match state s with gone => true | _ => false end.
Definition is_provisioned (s : slot) : bool := match kind s with Provisioned => true | OnDemand => false end.

Definition idle (s : slot) : bool := is_ready s && (leases s =? 0).

Definition notifyLocked (p : Pool) : Pool :=
  MkPool (opts p) (canceled p) (heap p) (slots p) (retired p) (changed p + 1) (chans p) (prov p) (stopped p).

Definition with_heap (h : list slot) (p : Pool) : Pool :=
  MkPool (opts p) (canceled p) h (slots p) (retired p) (changed p) (chans p) (prov p) (stopped p).
Definition with_slots (l : list nat) (p : Pool) : Pool :=
  MkPool (opts p) (canceled p) (heap p) l (retired p) (changed p) (chans p) (prov p) (stopped p).
Definition with_prov (v : provision) (p : Pool) : Pool :=
  MkPool (opts p) (canceled p) (heap p) (slots p) (retired p) (changed p) (chans p) v (stopped p).

Definition update (i : nat) (f : slot → slot) (p : Pool) : Pool := with_heap (alter f i (heap p)) p.

Definition set_state (st : slotState) (s : slot) : slot := MkSlot (kind s) st (env s) (leases s) (started s) (err s) (park s).
Definition add_lease (n : Z) (s : slot) : slot := MkSlot (kind s) (state s) (env s) (leases s + n) (started s) (err s) (park s).
Definition set_park (c : option (nat * bool)) (s : slot) : slot := MkSlot (kind s) (state s) (env s) (leases s) (started s) (err s) c.

(** The slots of the pool's list, and how many of them satisfy a test. *)
Definition members (p : Pool) : list slot := omap (λ i, heap p !! i) (slots p).
Definition count (f : slot → bool) (p : Pool) : Z := total (λ s, b2z (f s)) (members p).

(** The provisioned environments of the pool that have not gone. *)
Definition have (p : Pool) : Z := count (λ s, is_provisioned s && negb (is_gone s)) p.

Definition provisionedReadyLocked (p : Pool) : bool :=
  if (provRequested (prov p) =? 0) || (if provErr (prov p) then true else false) then false
  else provRequested (prov p) <=? count (λ s, is_provisioned s && is_ready s) p.

Definition hasRoomLocked (p : Pool) (s : slot) : bool :=
  (PerEnvironment (opts p) =? 0) || (leases s <? PerEnvironment (opts p)).

Definition expiredLocked (p : Pool) (s : slot) (now : Time) : bool :=
  match Expires (opts p), env s with
  | Some expires, Some e => is_ready s && match expires e with Some at_ => at_ <=? now | None => false end
  | _, _ => false
  end.

Fixpoint pick_loop (p : Pool) (now : Time) (provReady : bool) (onDemand : option nat) (l : list nat) : option nat :=
  match l with
  | [] => onDemand
  | i :: l =>
      match heap p !! i with
      | None => pick_loop p now provReady onDemand l
      | Some s =>
          if negb (is_ready s) || negb (hasRoomLocked p s) || expiredLocked p s now then pick_loop p now provReady onDemand l
          else if is_provisioned s then
            if provReady then Some i else pick_loop p now provReady onDemand l
          else pick_loop p now provReady (match onDemand with None => Some i | Some _ => onDemand end) l
      end
  end.

Definition pickLocked (p : Pool) (now : Time) : option nat := pick_loop p now (provisionedReadyLocked p) None (slots p).

Definition startingWithRoomLocked (p : Pool) : option nat :=
  if PerEnvironment (opts p) =? 1 then None
  else List.find (λ i, match heap p !! i with
                       | Some s => is_starting s && negb (is_provisioned s) && hasRoomLocked p s
                       | None => false
                       end) (slots p).

Fixpoint remove_first (i : nat) (l : list nat) : list nat :=
  match l with [] => [] | x :: l => if (x =? i)%nat then l else x :: remove_first i l end.

Definition removeLocked (i : nat) (p : Pool) : Pool := with_slots (remove_first i (slots p)) p.

(** [close(s.park)] panics, here [None], on a nil channel and on one already
    closed. *)
Definition close_park (i : nat) (p : Pool) : option Pool :=
  match heap p !! i ≫= park with
  | Some (c, false) => Some (update i (set_park (Some (c, true))) p)
  | _ => None
  end.

(** An idle environment goes: [s.state = gone], [close(s.park)], [removeLocked]. *)
Definition drop_idle (i : nat) (p : Pool) : option Pool :=
  p ← close_park i (update i (set_state gone) p); Some (removeLocked i p).

(** Every idle slot of a list that satisfies a test goes; the ones that went. *)
Fixpoint drop_all (f : slot → bool) (l : list nat) (p : Pool) : option (list nat * Pool) :=
  match l with
  | [] => Some ([], p)
  | i :: l =>
      if match heap p !! i with Some s => idle s && f s | None => false end then
        p ← drop_idle i p;
        '(is_, p) ← drop_all f l p;
        Some (i :: is_, p)
      else drop_all f l p
  end.

Definition stopExpiredLocked (now : Time) (p : Pool) : option (list nat * Pool) :=
  drop_all (λ s, expiredLocked p s now) (slots p) p.

(** ** [Acquire] *)

(** How the first critical section of [Acquire] ends: refused; with a lease; about
    to wait for an environment another call starts; or about to start one. *)
Inductive reply :=
| ErrRetired
| Throttled (l : nat)
| Leased (i : nat) (holder : option nat)
| Joins (i : nat) (holder : option nat)
| Starts (i : nat) (holder : option nat).

Definition newSlot (k : Kind) (n : Z) : slot := MkSlot k starting None n false None None.

(** [Acquire] up to where it unlocks, with the two times it reads: its reply, the
    limits, the pool, and the expired environments it stops; [None] is a panic. *)
Definition Acquire (now now' : Time) (ls : limits) (p : Pool) : option (reply * limits * Pool * list nat) :=
  if retired p then Some (ErrRetired, ls, p, [])
  else
    '(expired, p) ← stopExpiredLocked now p;
    match pickLocked p now' with
    | Some i =>
        s ← heap p !! i;
        match (if is_provisioned s then inr (None, ls) else Limit_take ls (LimitOf (opts p))) with
        | inl l => Some (Throttled l, ls, p, expired)
        | inr (holder, ls) =>
            p ← (if leases s =? 0 then close_park i p else Some p);
            Some (Leased i holder, ls, notifyLocked (update i (add_lease 1) p), expired)
        end
    | None =>
        match startingWithRoomLocked p, Limit_take ls (LimitOf (opts p)) with
        | _, inl l => Some (Throttled l, ls, p, expired)
        | Some i, inr (holder, ls) => Some (Joins i holder, ls, notifyLocked (update i (add_lease 1) p), expired)
        | None, inr (holder, ls) =>
            let i := length (heap p) in
            Some (Starts i holder, ls, notifyLocked (with_slots (slots p ++ [i]) (with_heap (heap p ++ [newSlot OnDemand 1]) p)), expired)
        end
    end.

(** Its second critical section once [Hooks.Start] returned. *)
Definition set_started (e : E) (s : slot) : slot := MkSlot (kind s) ready (Some e) (leases s) true (err s) (park s).
Definition start_done (i : nat) (e : E) (p : Pool) : Pool := notifyLocked (update i (set_started e) p).

Definition set_failed (x : Err) (n : Z) (s : slot) : slot := MkSlot (kind s) gone (env s) (leases s - n) true (Some x) (park s).
Definition start_failed (i : nat) (x : Err) (p : Pool) : Pool := notifyLocked (removeLocked i (update i (set_failed x 1) p)).

(** ** The end of a lease *)

Definition excessProvisionedLocked (p : Pool) (s : slot) : bool :=
  if is_provisioned s then provRequested (prov p) <? have p else false.

(** [parkUnderLock]: the pool, and the number of the channel its watch waits on. *)
Definition parkUnderLock (i : nat) (p : Pool) : Pool :=
  let p := update i (set_park (Some (chans p, false))) p in
  MkPool (opts p) (canceled p) (heap p) (slots p) (retired p) (changed p) (S (chans p)) (prov p) (stopped p).

(** [Lease.end]: the limits, the pool, whether the environment stops, whether it is
    replaced, and the channel of a watch it starts. *)
Definition end_ (discard : bool) (now : Time) (i : nat) (holder : option nat) (ls : limits) (p : Pool) :
    option (limits * Pool * bool * bool * option nat) :=
  s0 ← heap p !! i;
  let s := add_lease (-1) s0 in
  let p := update i (add_lease (-1)) p in
  let last := leases s =? 0 in
  let '(p, stop, watch) :=
    if is_gone s then (p, last, None)
    else if discard || retired p || excessProvisionedLocked p s || expiredLocked p s now
    then (removeLocked i (update i (set_state gone) p), last, None)
    else if last then (parkUnderLock i p, false, Some (chans p))
    else (p, false, None) in
  let replace := discard && is_provisioned s && negb (retired p) in
  Some (Limit_release ls holder, notifyLocked p, stop, replace, watch).

(** What a parked environment's watch does once it woke, with whether the workload
    had exited and whether its time ran out: [None] is a panic, [Some None] nothing
    to do, and otherwise the pool and whether the environment is replaced. *)
Definition watch_done (exited expired : bool) (i c : nat) (p : Pool) : option (option (Pool * bool)) :=
  match heap p !! i with
  | Some s =>
      if bool_decide ((fst <$> park s) ≠ Some c) || negb (idle s) then Some None
      else if negb exited && negb expired then Some None
      else
        p ← drop_idle i p;
        Some (Some (notifyLocked p, is_provisioned s && negb (retired p)))
  | None => Some None
  end.

(** ** Provisioning *)

Fixpoint drop_excess (excess : Z) (l : list nat) (p : Pool) : option (list nat * Pool) :=
  match l with
  | [] => Some ([], p)
  | i :: l =>
      if negb (0 <? excess) then Some ([], p)
      else if match heap p !! i with Some s => negb (is_provisioned s) || negb (idle s) | None => true end then drop_excess excess l p
      else
        p ← drop_idle i p;
        '(is_, p) ← drop_excess (excess - 1) l p;
        Some (i :: is_, p)
  end.

Inductive provision_reply := ProvRetired | ProvThrottled (l : nat) | ProvStops (is_ : list nat).

Definition Provision (n : Z) (ls : limits) (p : Pool) : option (provision_reply * limits * Pool) :=
  if retired p then Some (ProvRetired, ls, p)
  else
    let v := prov p in
    let ls := Limit_unreserve ls (provHolder v) (provReserved v) in
    match Limit_reserve ls (LimitOf (opts p)) n with
    | inl l =>
        match Limit_reserve ls (LimitOf (opts p)) (provRequested v) with
        | inl _ => Some (ProvThrottled l, ls, with_prov (MkProvision (provRequested v) None 0 (provErr v)) p)
        | inr (prev, ls) =>
            Some (ProvThrottled l, ls, with_prov (MkProvision (provRequested v) prev (provRequested v) (provErr v)) p)
        end
    | inr (holder, ls) =>
        let p := with_prov (MkProvision n holder n (if n =? provRequested v then provErr v else None)) p in
        '(is_, p) ← drop_excess (have p - n) (rev (slots p)) p;
        Some (ProvStops is_, ls, notifyLocked p)
    end.

(** [topUp]: the pool and the slots whose environments start. *)
Definition topUp (p : Pool) : list nat * Pool :=
  if retired p || (if provErr (prov p) then true else false) then ([], p)
  else
    let n := Z.to_nat (provRequested (prov p) - have p) in
    let new := seq (length (heap p)) n in
    (new, notifyLocked (with_slots (slots p ++ new) (with_heap (heap p ++ replicate n (newSlot Provisioned 0)) p))).

(** [startProvisioned] once [Hooks.Start] returned. *)
Definition provision_failed (i : nat) (x : Err) (p : Pool) : Pool :=
  let p := removeLocked i (update i (set_failed x 0) p) in
  let v := prov p in
  notifyLocked (if negb (canceled p) && negb (retired p)
                then with_prov (MkProvision (provRequested v) (provHolder v) (provReserved v) (Some x)) p else p).

Definition set_env (e : E) (s : slot) : slot := MkSlot (kind s) (state s) (Some e) (leases s) true (err s) (park s).

(** With whether the environment is stopped again. *)
Definition provision_done (i : nat) (e : E) (p : Pool) : bool * Pool :=
  let p := update i (set_env e) p in
  if retired p || (provRequested (prov p) <? have p)
  then (true, notifyLocked (removeLocked i (update i (set_state gone) p)))
  else (false, notifyLocked (parkUnderLock i (update i (set_state ready) p))).

Record Provisioning := MkProvisioning { Requested : Z; Allocated : Z; Ready : bool; ProvErr : option Err }.

Definition Provisioning_ (p : Pool) : Provisioning :=
  let v := prov p in
  MkProvisioning (provRequested v) (Z.min (count (λ s, is_provisioned s && is_ready s) p) (provRequested v))
    (provisionedReadyLocked p) (provErr v).

Record Stats := MkStats { Starting_ : Z; Idle_ : Z; Busy_ : Z }.

Definition Stats_ (p : Pool) : Stats :=
  MkStats (count is_starting p) (count idle p) (count (λ s, is_ready s && negb (idle s)) p).

(** [Retire] up to where it unlocks, with the idle environments it stops. *)
Definition Retire (ls : limits) (p : Pool) : option (list nat * limits * Pool) :=
  if retired p then Some ([], ls, p)
  else
    let v := prov p in
    let ls := Limit_unreserve ls (provHolder v) (provReserved v) in
    let p := MkPool (opts p) (canceled p) (heap p) (slots p) true (changed p) (chans p) (MkProvision 0 None 0 (provErr v)) (stopped p) in
    '(is_, p) ← drop_all (λ _, true) (slots p) p;
    Some (is_, ls, notifyLocked p).

Definition cancel (p : Pool) : Pool :=
  MkPool (opts p) true (heap p) (slots p) (retired p) (changed p) (chans p) (prov p) (stopped p).

Definition stop_one (i : nat) (p : Pool) : Pool :=
  MkPool (opts p) (canceled p) (heap p) (slots p) (retired p) (changed p) (chans p) (prov p) (i :: stopped p).

End Pool.
Arguments slot : clear implicits.
Arguments Options : clear implicits.
Arguments Pool : clear implicits.

(** ** Goroutines *)

(** Where a goroutine stands: in [Hooks.Start] for an invocation, or waiting for
    another call's start; holding a lease; about to give a unit back; in
    [Hooks.Start] for a provisioned environment; watching a parked environment;
    stopping environments one after the other and then topping up; at the end of
    [Retire]. *)
Inductive thread :=
| Starting (i : nat) (holder : option nat)
| Joining (i : nat) (holder : option nat)
| Leasing (i : nat) (holder : option nat)
| Releasing (holder : option nat)
| Provisioning_start (i : nat)
| Watching (i c : nat)
| Stopping (is_ : list nat) (top_up : bool)
| Retiring (is_ : list nat).

Definition reply_threads (r : reply) : list thread :=
  match r with
  | ErrRetired | Throttled _ => []
  | Leased i h => [Leasing i h]
  | Joins i h => [Joining i h]
  | Starts i h => [Starting i h]
  end.

Definition stop_each (is_ : list nat) : list thread := map (λ i, Stopping [i] false) is_.

Section Run.
Context {E Err : Type}.
Abbreviation pool := (Pool E Err).

(** One step of a pool and its limits: the threads it takes and the ones it leaves.
    When [patient], a caller that waits for another call's start takes the
    environment once it has started, even if its own context is done as well; the
    code leaves that choice to [select]. *)
Inductive move (patient : bool) : limits → pool → list thread → limits → pool → list thread → Prop :=
| move_acquire ls p now now' r ls' p' expired :
    Acquire now now' ls p = Some (r, ls', p', expired) →
    move patient ls p [] ls' p' (reply_threads r ++ stop_each expired)
| move_started ls p i h e : move patient ls p [Starting i h] ls (start_done i e p) [Leasing i h]
| move_start_failed ls p i h x : move patient ls p [Starting i h] ls (start_failed i x p) [Releasing h]
| move_joined ls p i h s :
    heap p !! i = Some s → started s = true → err s = None → move patient ls p [Joining i h] ls p [Leasing i h]
| move_join_failed ls p i h s x :
    heap p !! i = Some s → started s = true → err s = Some x →
    move patient ls p [Joining i h] ls (update i (add_lease (-1)) p) [Releasing h]
| move_join_canceled ls p i h s :
    heap p !! i = Some s → (patient = true → started s = false) →
    move patient ls p [Joining i h] ls (update i (add_lease (-1)) p) [Releasing h]
| move_release ls p h : move patient ls p [Releasing h] (Limit_release ls h) p []
| move_end ls p discard now i h ls' p' stop replace watch :
    end_ discard now i h ls p = Some (ls', p', stop, replace, watch) →
    move patient ls p [Leasing i h] ls' p'
      (Stopping (if stop : bool then [i] else []) replace :: match watch with Some c => [Watching i c] | None => [] end)
| move_watch_none ls p i c exited expired :
    (exited = true ∨ expired = true ∨ canceled p = true ∨ (heap p !! i ≫= park) ≠ Some (c, false)) →
    watch_done exited expired i c p = Some None → move patient ls p [Watching i c] ls p []
| move_watch ls p i c exited expired p' replace :
    watch_done exited expired i c p = Some (Some (p', replace)) → move patient ls p [Watching i c] ls p' [Stopping [i] replace]
| move_stop ls p i is_ b : move patient ls p [Stopping (i :: is_) b] ls (stop_one i p) [Stopping is_ b]
| move_stopped ls p : move patient ls p [Stopping [] false] ls p []
| move_topUp ls p new p' : topUp p = (new, p') → move patient ls p [Stopping [] true] ls p' (map Provisioning_start new)
| move_provisioned ls p i e stop p' :
    provision_done i e p = (stop, p') →
    move patient ls p [Provisioning_start i] ls p' [if stop : bool then Stopping [i] false else Watching i (chans p)]
| move_provision_failed ls p i x : move patient ls p [Provisioning_start i] ls (provision_failed i x p) []
| move_Provision ls p n r ls' p' :
    0 ≤ n → Provision n ls p = Some (r, ls', p') →
    move patient ls p [] ls' p' (match r with ProvStops is_ => [Stopping is_ true] | _ => [] end)
| move_Retire ls p is_ ls' p' :
    Retire ls p = Some (is_, ls', p') → move patient ls p [] ls' p' (if retired p then [] else [Retiring is_])
| move_cancel ls p is_ : move patient ls p [Retiring is_] ls (cancel p) (stop_each is_)
| move_ctx_done ls p : move patient ls p [] ls (cancel p) [].

(** The limits, and the pools with their goroutines. *)
Record world := MkWorld { the_limits : limits; pools : list (pool * list thread) }.

Definition below (i : option nat) (n : nat) : Prop := match i with Some i => (i < n)%nat | None => True end.

Inductive step (patient : bool) : world → world → Prop :=
| step_NewLimit ls ps par m : below par (length ls) → step patient (MkWorld ls ps) (MkWorld (NewLimit par m ls) ps)
| step_SetMax ls ps i m : step patient (MkWorld ls ps) (MkWorld (SetMax i m ls) ps)
| step_New ls ps o : below (LimitOf o) (length ls) → step patient (MkWorld ls ps) (MkWorld ls (ps ++ [(New o, [])]))
| step_move ls ps k p ts taken rest ls' p' new :
    ps !! k = Some (p, ts) → ts ≡ₚ taken ++ rest → move patient ls p taken ls' p' new →
    step patient (MkWorld ls ps) (MkWorld ls' (<[k := (p', new ++ rest)]> ps)).

Definition empty_world : world := MkWorld [] [].

Definition reachable (patient : bool) (w : world) : Prop := rtc (step patient) empty_world w.

(** ** What an operation does to the limits *)

Definition load (l : Limit) : Z := inUse l + reserved l.

(** [n] units, if a given limit holds them. *)
Definition delta (h : option nat) (n : Z) (j : nat) : Z := if bool_decide (h = Some j) then n else 0.

(** The limits keep their parents and caps, gain [du] units in use and [dr]
    reserved ones, and none grows past its cap. *)
Record effect (ls ls' : limits) (du dr : nat → Z) : Prop := {
  effect_length : length ls' = length ls;
  effect_at j l : ls !! j = Some l →
    ∃ l', ls' !! j = Some l' ∧ parent l' = parent l ∧ max l' = max l ∧ inUse l' = inUse l + du j ∧ reserved l' = reserved l + dr j ∧
      (0 ≤ max l → load l' ≤ Z.max (load l) (max l));
}.

Lemma effect_refl ls du dr : (∀ j, du j = 0) → (∀ j, dr j = 0) → effect ls ls du dr.
Proof. intros Hu Hr. split; [done|]. intros j l Hl. exists l. rewrite Hu, Hr. split_and!; try done; lia. Qed.

Lemma effect_trans ls1 ls2 ls3 du dr du' dr' du'' dr'' :
  effect ls1 ls2 du dr → effect ls2 ls3 du' dr' → (∀ j, du'' j = du j + du' j) → (∀ j, dr'' j = dr j + dr' j) → effect ls1 ls3 du'' dr''.
Proof.
  intros [L1 A1] [L2 A2] Hu Hr. split; [congruence|]. intros j l Hl. destruct (A1 _ _ Hl) as (l2 & H2 & P2 & M2 & U2 & R2 & C2).
  destruct (A2 _ _ H2) as (l3 & H3 & P3 & M3 & U3 & R3 & C3). exists l3. rewrite Hu, Hr. unfold load in *. split_and!; try congruence; try lia.
Qed.

Lemma effect_ext ls ls' du dr du' dr' : effect ls ls' du dr → (∀ j, du' j = du j) → (∀ j, dr' j = dr j) → effect ls ls' du' dr'.
Proof. intros [L A] Hu Hr. split; [done|]. intros j l Hl. rewrite Hu, Hr. by apply A. Qed.

Lemma effect_alter ls i f n m :
  (∀ l, ls !! i = Some l → parent (f l) = parent l ∧ max (f l) = max l ∧ inUse (f l) = inUse l + n ∧ reserved (f l) = reserved l + m ∧
    (0 ≤ max l → load (f l) ≤ Z.max (load l) (max l))) →
  effect ls (alter f i ls) (delta (Some i) n) (delta (Some i) m).
Proof.
  intros Hf. split; [apply length_alter|]. intros j l Hl. unfold delta. destruct (decide (i = j)) as [->|Hne].
  - rewrite !bool_decide_true by done. exists (f l). rewrite list_lookup_alter_eq, Hl. split; [done|]. by apply Hf.
  - rewrite !bool_decide_false by congruence. exists l. rewrite list_lookup_alter_ne by done. split_and!; try done; lia.
Qed.

Lemma delta_zero h j : delta h 0 j = 0.
Proof. unfold delta. by case_bool_decide. Qed.

Lemma delta_none n j : delta None n j = 0.
Proof. done. Qed.

Lemma take_effect ls lim h ls' : Limit_take ls lim = inr (h, ls') → effect ls ls' (delta h 1) (λ _, 0) ∧ below h (length ls).
Proof.
  unfold Limit_take. destruct (lim ≫= owner ls) as [j|]; [|intros [= <- <-]; split; [by apply effect_refl|done]].
  destruct (ls !! j) as [l|] eqn:Hl; [|intros [= <- <-]; split; [by apply effect_refl|done]].
  destruct (_ && _) eqn:Hc; intros [= <- <-]. split; [|by eapply lookup_lt_Some].
  eapply effect_ext; [apply (effect_alter _ _ (add_inUse 1) 1 0)|done|intros; by rewrite delta_zero].
  intros l0 Hl0. simplify_eq. cbn. split_and!; try done; try lia. unfold load in *. cbn. intros ?. destruct (Z.leb_spec 0 (max l)); [cbn in Hc; lia|lia].
Qed.

Lemma reserve_effect ls lim n h ls' : 0 ≤ n → Limit_reserve ls lim n = inr (h, ls') → effect ls ls' (λ _, 0) (delta h n) ∧ below h (length ls).
Proof.
  intros Hn. unfold Limit_reserve. destruct (Z.eqb_spec n 0) as [->|Hz]; [intros [= <- <-]; split; [by apply effect_refl|done]|].
  destruct (lim ≫= owner ls) as [j|]; [|intros [= <- <-]; split; [by apply effect_refl|done]].
  destruct (ls !! j) as [l|] eqn:Hl; [|intros [= <- <-]; split; [by apply effect_refl|done]].
  destruct (_ && _) eqn:Hc; intros [= <- <-]. split; [|by eapply lookup_lt_Some].
  eapply effect_ext; [apply (effect_alter _ _ (add_reserved n) 0 n)|intros; by rewrite delta_zero|done].
  intros l0 Hl0. simplify_eq. cbn. split_and!; try done; try lia. unfold load in *. cbn. intros ?. destruct (Z.leb_spec 0 (max l)); [cbn in Hc; lia|lia].
Qed.

Lemma release_effect ls h : effect ls (Limit_release ls h) (λ j, - delta h 1 j) (λ _, 0).
Proof.
  destruct h as [i|]; [|by apply effect_refl].
  eapply effect_ext; [apply (effect_alter _ _ (add_inUse (-1)) (-1) 0)| |intros; by rewrite delta_zero].
  - intros l Hl. unfold load. cbn. split_and!; done || lia.
  - intros j. unfold delta. case_bool_decide; lia.
Qed.

Lemma unreserve_effect ls h n : 0 ≤ n → effect ls (Limit_unreserve ls h n) (λ _, 0) (λ j, - delta h n j).
Proof.
  intros Hn. destruct h as [i|]; [|by apply effect_refl]. cbn. destruct (Z.eqb_spec n 0) as [->|?]; [apply effect_refl; [done|intros; by rewrite delta_zero]|].
  eapply effect_ext; [apply (effect_alter _ _ (add_reserved (- n)) 0 (- n))|intros; by rewrite delta_zero|].
  - intros l Hl. unfold load. cbn. split_and!; done || lia.
  - intros j. unfold delta. case_bool_decide; lia.
Qed.

(** ** Units *)

Definition holder_of (t : thread) : option nat :=
  match t with Starting _ h | Joining _ h | Leasing _ h | Releasing h => h | _ => None end.

(** The units of a limit that goroutines and leases hold, and the ones a pool
    keeps reserved for provisioned environments, by its own books: after a
    refused [Provision] that is fewer than the environments it has
    ([refused_provision_loses_the_reservation]). *)
Definition holds (j : nat) (ts : list thread) : Z := total (λ t, delta (holder_of t) 1 j) ts.
Definition reservation (j : nat) (p : pool) : Z := delta (provHolder (prov p)) (provReserved (prov p)) j.

Definition prov_ok (n : nat) (p : pool) : Prop :=
  below (provHolder (prov p)) n ∧ 0 ≤ provReserved (prov p) ∧ 0 ≤ provRequested (prov p).

Lemma holds_app j ts ts' : holds j (ts ++ ts') = holds j ts + holds j ts'.
Proof. apply total_app. Qed.

Lemma holds_stop_each j is_ : holds j (stop_each is_) = 0.
Proof. unfold holds, stop_each. rewrite total_map. by apply total_zero. Qed.

Lemma holds_provision j is_ : holds j (map Provisioning_start is_) = 0.
Proof. unfold holds. rewrite total_map. by apply total_zero. Qed.

(** ** What going leaves alone *)

Definition same (p p' : pool) : Prop :=
  opts p' = opts p ∧ canceled p' = canceled p ∧ retired p' = retired p ∧ prov p' = prov p ∧ stopped p' = stopped p ∧ chans p' = chans p.

Lemma same_refl p : same p p.
Proof. by repeat split. Qed.

Lemma same_trans p p' p'' : same p p' → same p' p'' → same p p''.
Proof. intros (?&?&?&?&?&?) (?&?&?&?&?&?). repeat split; congruence. Qed.

Lemma drop_idle_same i p p' : drop_idle i p = Some p' → same p p'.
Proof.
  unfold drop_idle, close_park. destruct (_ ≫= park) as [[c []]|]; intros; simplify_eq/=. by repeat split.
Qed.

Lemma drop_all_same f l p is_ p' : drop_all f l p = Some (is_, p') → same p p'.
Proof.
  revert p is_ p'. induction l as [|i l IH]; intros p is_ p'; cbn [drop_all]; [intros [= _ <-]; apply same_refl|].
  case_match; [|apply IH]. destruct (drop_idle i p) as [p1|] eqn:E1; [|done]. cbn.
  destruct (drop_all f l p1) as [[is1 p2]|] eqn:E2; [|done]. intros [= _ <-]. eapply same_trans; [by eapply drop_idle_same|by eapply IH].
Qed.

Lemma drop_excess_same n l p is_ p' : drop_excess n l p = Some (is_, p') → same p p'.
Proof.
  revert n p is_ p'. induction l as [|i l IH]; intros n p is_ p'; cbn [drop_excess]; [intros [= _ <-]; apply same_refl|].
  case_match; [intros [= _ <-]; apply same_refl|]. case_match; [apply IH|]. destruct (drop_idle i p) as [p1|] eqn:E1; [|done]. cbn.
  destruct (drop_excess _ l p1) as [[is1 p2]|] eqn:E2; [|done]. intros [= _ <-]. eapply same_trans; [by eapply drop_idle_same|by eapply IH].
Qed.

Lemma close_park_same i p p' : close_park i p = Some p' → same p p'.
Proof. unfold close_park. destruct (_ ≫= park) as [[c []]|]; intros; simplify_eq/=. by repeat split. Qed.

Ltac chain := repeat (eapply same_trans; [eassumption|]); by repeat split.

(** The unit an [Acquire] takes is the one its goroutine holds. *)
Lemma Acquire_effect now now' ls p r ls' p' expired :
  Acquire now now' ls p = Some (r, ls', p', expired) →
  effect ls ls' (λ j, holds j (reply_threads r)) (λ _, 0) ∧ same p p' ∧ Forall (λ t, below (holder_of t) (length ls)) (reply_threads r).
Proof.
  unfold Acquire. destruct (retired p); [intros [= <- <- <- <-]; split_and!; [by apply effect_refl|apply same_refl|constructor]|].
  destruct (stopExpiredLocked now p) as [[ex p1]|] eqn:E1; [|done]. apply drop_all_same in E1. cbn.
  assert (∀ l, effect ls ls (λ j, holds j (reply_threads (Throttled l))) (λ _, 0)) by (intros; by apply effect_refl).
  destruct (pickLocked p1 now') as [i|].
  - destruct (heap p1 !! i) as [s|]; [|done]. cbn. destruct (is_provisioned s).
    + intros Hr. destruct (leases s =? 0); [destruct (close_park i p1) as [p2|] eqn:E2; [apply close_park_same in E2|done]|];
        simplify_eq/=; (split_and!; [by apply effect_refl|chain|by repeat constructor]).
    + destruct (Limit_take _ _) as [l|[h ls1]] eqn:Et; [intros [= <- <- <- <-]; split_and!; done|]. apply take_effect in Et as [He Hb].
      intros Hr. destruct (leases s =? 0); [destruct (close_park i p1) as [p2|] eqn:E2; [apply close_park_same in E2|done]|];
        simplify_eq/=; (split_and!; [eapply effect_ext; [done|intros; cbn; lia|done]|chain|by repeat constructor]).
  - destruct (Limit_take _ _) as [l|[h ls1]] eqn:Et; [by destruct (startingWithRoomLocked p1); intros [= <- <- <- <-]|].
    apply take_effect in Et as [He Hb].
    destruct (startingWithRoomLocked p1) as [i|]; intros [= <- <- <- <-];
      (split_and!; [eapply effect_ext; [done|intros; cbn; lia|done]|chain|by repeat constructor]).
Qed.

Lemma Provision_effect n ls p r ls' p' :
  0 ≤ n → prov_ok (length ls) p → Provision n ls p = Some (r, ls', p') →
  effect ls ls' (λ _, 0) (λ j, reservation j p' - reservation j p) ∧ prov_ok (length ls) p'.
Proof.
  intros Hn (Hb & Hv & Hq). unfold Provision. destruct (retired p); [intros [= <- <- <-]; split; [apply effect_refl; [done|intros; lia]|done]|].
  pose proof (unreserve_effect ls (provHolder (prov p)) _ Hv) as He1. set (ls1 := Limit_unreserve _ _ _) in *.
  assert (length ls1 = length ls) as HL by apply He1. destruct (Limit_reserve ls1 _ n) as [l|[h ls2]] eqn:E2.
  - destruct (Limit_reserve ls1 _ (provRequested (prov p))) as [l'|[h ls2]] eqn:E3.
    + intros [= <- <- <-]. split; [eapply effect_ext; [done|done|intros j; unfold reservation; cbn [prov with_prov provHolder provReserved notifyLocked]; rewrite ?delta_none; lia]|done].
    + apply reserve_effect in E3 as [He2 Hb2]; [|done]. intros [= <- <- <-]. rewrite HL in Hb2.
      split; [eapply effect_trans; [done..|done|intros j; unfold reservation; cbn [prov with_prov provHolder provReserved notifyLocked]; rewrite ?delta_none; lia]|done].
  - apply reserve_effect in E2 as [He2 Hb2]; [|done]. rewrite HL in Hb2. destruct (drop_excess _ _ _) as [[is_ p2]|] eqn:Ed; [|done].
    apply drop_excess_same in Ed as (_ & _ & _ & Ep & _). cbn. intros [= <- <- <-]. unfold reservation, prov_ok. cbn. rewrite Ep. cbn.
    split; [eapply effect_trans; [done..|done|intros j; unfold reservation; cbn [prov with_prov provHolder provReserved notifyLocked]; rewrite ?delta_none; lia]|done].
Qed.

Lemma Retire_effect ls p is_ ls' p' :
  prov_ok (length ls) p → Retire ls p = Some (is_, ls', p') →
  effect ls ls' (λ _, 0) (λ j, reservation j p' - reservation j p) ∧ prov_ok (length ls) p'.
Proof.
  intros (Hb & Hv & Hq). unfold Retire. destruct (retired p); [intros [= <- <- <-]; split; [apply effect_refl; [done|intros; lia]|done]|].
  destruct (drop_all _ _ _) as [[is1 p2]|] eqn:Ed; [|done]. apply drop_all_same in Ed as (_ & _ & _ & Ep & _). cbn. intros [= <- <- <-].
  unfold reservation, prov_ok. cbn. rewrite Ep. cbn. split; [|done].
  eapply effect_ext; [by apply unreserve_effect|done|intros j; rewrite ?delta_none; lia].
Qed.

(** What a pool's record of its provisioned environments says of units. *)
Definition units (v : provision (Err:=Err)) : option nat * Z * Z := (provHolder v, provReserved v, provRequested v).

Lemma Forall_stop_each n is_ : Forall (λ t, below (holder_of t) n) (stop_each is_).
Proof. apply Forall_forall. intros t (? & <- & _)%list_elem_of_In%in_map_iff. done. Qed.

Lemma end_effect discard now i h ls p ls' p' stop replace watch :
  end_ discard now i h ls p = Some (ls', p', stop, replace, watch) → ls' = Limit_release ls h ∧ prov (E:=E) (Err:=Err) p' = prov p.
Proof. unfold end_. destruct (heap p !! i) as [s|]; [|done]. cbn. repeat case_match; intros; simplify_eq/=; done. Qed.

(** What a step changes of the limits is what it changes of the units its threads
    and its pool hold. *)
Lemma move_effect patient ls p tk ls' p' nw :
  move patient ls p tk ls' p' nw → prov_ok (length ls) p → Forall (λ t, below (holder_of t) (length ls)) tk →
  effect ls ls' (λ j, holds j nw - holds j tk) (λ j, reservation j p' - reservation j p) ∧ prov_ok (length ls) p' ∧
    Forall (λ t, below (holder_of t) (length ls)) nw.
Proof.
  intros Hm Hp Ht.
  assert (∀ q : pool, units (prov q) = units (prov p) → prov_ok (length ls) q ∧ ∀ j, reservation j q = reservation j p) as Hq.
  { intros q [= E1 E2 E3]. unfold prov_ok, reservation. by rewrite E1, E2, E3. }
  assert (∀ q ts, units (prov q) = units (prov p) → (∀ j, holds j ts = holds j tk) → Forall (λ t, below (holder_of t) (length ls)) ts →
    effect ls ls (λ j, holds j ts - holds j tk) (λ j, reservation j q - reservation j p) ∧ prov_ok (length ls) q ∧
      Forall (λ t, below (holder_of t) (length ls)) ts) as Hk.
  { intros q ts Eq Eh Hb. destruct (Hq _ Eq) as [? E2]. split_and!; [apply effect_refl; intros j; [rewrite Eh|rewrite E2]; lia|done|done]. }
  destruct Hm as [? ? ? ? ? ? ? ? Ha| | | | | |ls p h|ls p discard now i h ls' p' stop replace watch He| |? ? ? ? ? ? ? ? Hw| | |ls p new p' Hu|ls p i e stop p' Hd| |? ? ? ? ? ? Hn Hv|? ? ? ? ? Hr| |];
    try (apply Hk; [done|first [done|intros; by rewrite holds_stop_each]|first [apply Forall_stop_each|inversion_clear Ht; by repeat constructor]]).
  - apply Acquire_effect in Ha as (He & (_ & _ & _ & Ep & _) & Hb). destruct (Hq _ (f_equal units Ep)) as [Hq1 Hq2].
    split_and!; [|done|apply Forall_app; split; [done|apply Forall_stop_each]].
    eapply effect_ext; [done| |]; intros j; cbn beta; [rewrite holds_app, holds_stop_each; cbn; lia|rewrite Hq2; lia].
  - split_and!; [|done|constructor]. eapply effect_ext; [apply release_effect|intros j; unfold holds; cbn [total holder_of]; lia|intros; cbv beta; lia].
  - apply end_effect in He as [-> Ep]. destruct (Hq _ (f_equal units Ep)) as [Hq1 Hq2]. split_and!; [|done|by destruct watch; repeat constructor].
    eapply effect_ext; [apply release_effect|intros j|intros; rewrite Hq2; lia]. destruct watch; unfold holds; cbn [total holder_of]; rewrite ?delta_none; lia.
  - apply Hk; [|done|by repeat constructor]. unfold watch_done in Hw. repeat case_match; simplify_eq. destruct (drop_idle _ _) eqn:Ed; simplify_eq/=. by apply drop_idle_same in Ed as (_ & _ & _ & -> & _).
  - apply Hk; [|intros; by rewrite holds_provision|apply Forall_forall; intros ? (? & <- & _)%list_elem_of_In%in_map_iff; done].
    unfold topUp in Hu. by case_match; simplify_eq/=.
  - apply Hk; [|by destruct stop|by destruct stop; repeat constructor]. unfold provision_done in Hd. by case_match; simplify_eq/=.
  - apply Hk; [unfold provision_failed; by case_match|done|constructor].
  - apply Provision_effect in Hv as [He Hok]; [|done..]. split_and!; [|done|by destruct r; repeat constructor].
    eapply effect_ext; [done|intros j; by destruct r|done].
  - apply Retire_effect in Hr as [He Hok]; [|done]. split_and!; [|done|by destruct (retired p); repeat constructor].
    eapply effect_ext; [done|intros j; by destruct (retired p)|done].
Qed.

(** ** The limits of a world *)

Record units_ok (w : world) : Prop := {
  parents_older j l : the_limits w !! j = Some l → below (parent l) j;
  holders_known k p ts : pools w !! k = Some (p, ts) →
    prov_ok (length (the_limits w)) p ∧ Forall (λ t, below (holder_of t) (length (the_limits w))) ts;
  accounted j l : the_limits w !! j = Some l →
    inUse l = total (λ '(_, ts), holds j ts) (pools w) ∧ reserved l = total (λ '(p, _), reservation j p) (pools w);
}.

Lemma below_le h n m : (n ≤ m)%nat → below h n → below h m.
Proof. destruct h; cbn; lia. Qed.

Lemma prov_ok_le n m p : (n ≤ m)%nat → prov_ok n p → prov_ok m p.
Proof. intros Hl (? & ? & ?). split_and!; try done. by eapply below_le. Qed.

Lemma delta_above h n x : below h n → delta h x n = 0.
Proof. intros Hb. unfold delta. rewrite bool_decide_false; [done|]. intros ->. cbn in Hb. lia. Qed.

Lemma units_ok_step patient w w' : units_ok w → step patient w w' → units_ok w'.
Proof.
  intros [Hpar Hkn Hacc] Hs. destruct Hs as [ls ps par m Hb|ls ps i m|ls ps o Hb|ls ps k p ts tk rest ls' p' nw Hk Hts Hm]; cbn in *.
  - split; cbn; unfold NewLimit; rewrite ?length_app; cbn.
    + intros j l [Hl|(Hl & Heq)]%lookup_app_Some; [by eapply Hpar|]. apply list_lookup_singleton_Some in Heq as [Hj <-]. cbn. replace j with (length ls) by lia. done.
    + intros k p ts Hk. destruct (Hkn _ _ _ Hk) as [H1 H2]. split; [eapply prov_ok_le; [|done]; lia|].
      eapply Forall_impl; [done|]. intros t. cbn. apply below_le. lia.
    + intros j l [Hl|(Hl & Heq)]%lookup_app_Some; [by eapply Hacc|]. apply list_lookup_singleton_Some in Heq as [Hj <-]. cbn. replace j with (length ls) by lia.
      split; symmetry; apply total_zero; intros [p ts] (k & Hk)%list_elem_of_lookup; destruct (Hkn _ _ _ Hk) as [(H1 & _) H2].
      * apply total_zero. intros t Ht. apply delta_above. rewrite Forall_forall in H2. by apply H2.
      * by apply delta_above.
  - unfold SetMax. split; cbn; rewrite ?length_alter; [|done|]; intros j l Hl;
      (destruct (decide (i = j)) as [->|Hne]; [rewrite list_lookup_alter_eq in Hl; destruct (ls !! j) as [l0|] eqn:H0; [|done]; simplify_eq/=|rewrite list_lookup_alter_ne in Hl by done]); eauto.
  - split; cbn; [done| |].
    + intros k p ts [Hk|(Hl & Heq)]%lookup_app_Some; [by eapply Hkn|]. apply list_lookup_singleton_Some in Heq as [_ [= <- <-]]. by split; [repeat split|constructor].
    + intros j l Hl. rewrite !total_app. destruct (Hacc _ _ Hl) as [-> ->]. unfold reservation, holds. cbn [total prov New provHolder]. rewrite delta_none. lia.
  - destruct (Hkn _ _ _ Hk) as [Hp Hh]. rewrite Hts in Hh. apply Forall_app in Hh as [Htk Hrest].
    destruct (move_effect _ _ _ _ _ _ _ Hm Hp Htk) as ([HL Hat] & Hp' & Hnw). split; cbn; rewrite ?HL.
    + intros j l' Hl'. destruct (ls !! j) as [l|] eqn:Hl; [|apply lookup_lt_Some in Hl'; apply lookup_ge_None in Hl; lia].
      destruct (Hat _ _ Hl) as (l2 & H2 & E2 & _); simplify_eq. rewrite E2. eauto.
    + intros k' p2 ts2 Hk2. destruct (decide (k = k')) as [->|Hne]; [|rewrite list_lookup_insert_ne in Hk2 by done; by eapply Hkn].
      rewrite list_lookup_insert_eq in Hk2 by (by eapply lookup_lt_Some). simplify_eq. split; [done|]. apply Forall_app. done.
    + intros j l' Hl'. destruct (ls !! j) as [l|] eqn:Hl; [|apply lookup_lt_Some in Hl'; apply lookup_ge_None in Hl; lia].
      destruct (Hat _ _ Hl) as (l2 & H2 & _ & _ & Hu & Hr & _); simplify_eq. destruct (Hacc _ _ Hl) as [Ha1 Ha2].
      rewrite !(total_insert _ _ _ _ _ Hk), <- Ha1, <- Ha2, Hu, Hr. unfold holds in *. rewrite Hts, !total_app. lia.
Qed.

Lemma units_ok_reachable patient w : reachable patient w → units_ok w.
Proof.
  intros Hr. unfold reachable in Hr. remember empty_world as w0 eqn:E0. assert (units_ok w0) as H0 by (by subst; split; intros; simplify_eq/=).
  clear E0. induction Hr as [|? ? ? Hs ? IH]; [done|]. by apply IH, (units_ok_step patient x).
Qed.

(** The nearest bounded ancestor of a limit, itself included. *)
Inductive nearest (ls : limits) : option nat → option nat → Prop :=
| nearest_none : nearest ls None None
| nearest_here i l : ls !! i = Some l → 0 ≤ max l → nearest ls (Some i) (Some i)
| nearest_up i l r : ls !! i = Some l → max l < 0 → nearest ls (parent l) r → nearest ls (Some i) r.

Lemma owner_nearest ls cur fuel :
  (∀ j l, ls !! j = Some l → below (parent l) j) → below cur (length ls) → (match cur with Some i => S i | None => 0 end ≤ fuel)%nat →
  nearest ls cur (owner_loop fuel ls cur).
Proof.
  intros Hpar. revert cur. induction fuel as [|fuel IH]; intros [i|] Hc Hf; cbn; try (constructor; lia); try lia. cbn in Hc.
  destruct (lookup_lt_is_Some_2 _ _ Hc) as [l Hl]. rewrite Hl. specialize (Hpar _ _ Hl).
  destruct (Z.leb_spec 0 (max l)); [by eapply nearest_here|]. eapply nearest_up; [done..|]. apply IH; destruct (parent l); cbn in *; lia.
Qed.

Lemma nearest_det ls i r r' : nearest ls i r → nearest ls i r' → r = r'.
Proof. intros H. revert r'. induction H; inversion 1; simplify_eq; auto; lia. Qed.

(** Steps that keep the cap of a limit. *)
Definition keeps (patient : bool) (j : nat) (m : Z) (w w' : world) : Prop :=
  step patient w w' ∧ max <$> the_limits w' !! j = Some m.

Lemma step_load patient w w' j l :
  units_ok w → the_limits w !! j = Some l → 0 ≤ max l → keeps patient j (max l) w w' →
  ∃ l', the_limits w' !! j = Some l' ∧ max l' = max l ∧ load l' ≤ Z.max (load l) (max l).
Proof.
  intros [_ Hkn _] Hl Hm [Hs Hk]. destruct Hs as [ls ps par m Hb|ls ps i m|ls ps o Hb|ls ps k p ts tk rest ls' p' nw Hp Hts Hmv]; cbn in *.
  - exists l. unfold NewLimit. rewrite lookup_app_l by (by eapply lookup_lt_Some). split_and!; done || lia.
  - unfold SetMax in *. destruct (decide (i = j)) as [->|Hne].
    + rewrite list_lookup_alter_eq, Hl in *. cbn in Hk. simplify_eq/=. eexists. split_and!; [done|done|]. unfold load. cbn. lia.
    + rewrite list_lookup_alter_ne by done. exists l. split_and!; done || lia.
  - exists l. split_and!; done || lia.
  - destruct (Hkn _ _ _ Hp) as [Hpo Hh]. rewrite Hts in Hh. apply Forall_app in Hh as [Htk _].
    destruct (move_effect _ _ _ _ _ _ _ Hmv Hpo Htk) as ([_ Hat] & _). destruct (Hat _ _ Hl) as (l' & ? & ? & ? & ? & ? & ?). eauto.
Qed.

(** ** Slots and the threads that know them *)

Definition at_ (j i : nat) : Z := b2z (i =? j)%nat.
Definition occ (j : nat) (l : list nat) : Z := total (at_ j) l.

(** What threads do with a slot: start it, wait for it, lease it, provision it, or
    stop it. *)
Inductive role := RStart | RJoin | RLease | RProvision | RStop.

Definition weight (q : role) (j : nat) (t : thread) : Z :=
  match q, t with
  | RStart, Starting i _ | RJoin, Joining i _ | RLease, Leasing i _ | RProvision, Provisioning_start i => at_ j i
  | RStop, Stopping l _ | RStop, Retiring l => occ j l
  | _, _ => 0
  end.

Definition cnt (q : role) (j : nat) (ts : list thread) : Z := total (weight q j) ts.

Definition no_err (s : slot E Err) : bool := match err s with None => true | Some _ => false end.

(** A slot agrees with the threads: its leases are the calls that start it, wait for
    it or hold it; it is listed until it goes; it starts while one thread starts it;
    an idle one is parked on an open channel, and watched; an environment that went
    is stopped once, when nothing holds it. *)
Record slot_ok (p : Pool E Err) (ts : list thread) (i : nat) (s : slot E Err) : Prop := {
  so_leases : leases s = cnt RStart i ts + cnt RJoin i ts + cnt RLease i ts;
  so_listed : i ∈ slots p ↔ state s ≠ gone;
  so_start : cnt RStart i ts = b2z (is_starting s && negb (is_provisioned s));
  so_prov : cnt RProvision i ts = b2z (is_starting s && is_provisioned s);
  so_lease : is_starting s = true → cnt RLease i ts = 0;
  so_unleased : is_starting s = true → is_provisioned s = true → leases s = 0;
  so_started : started s = negb (is_starting s);
  so_err : no_err s = false → state s = gone;
  so_env : is_starting s = false → no_err s = true → env s ≠ None;
  so_park : idle s = true → ∃ c, park s = Some (c, false) ∧ (canceled p = false → Watching i c ∈ ts);
  so_stop : cnt RStop i ts + occ i (stopped p) = b2z (is_gone s && (leases s =? 0) && no_err s);
  so_room : PerEnvironment (opts p) ≠ 0 → leases s ≤ Z.max 1 (PerEnvironment (opts p));
  so_unheld : no_err s = false → cnt RLease i ts = 0;
}.

(** A slot not yet created is known to nobody. *)
Definition slot_at (p : Pool E Err) (ts : list thread) (i : nat) : Prop :=
  match heap p !! i with
  | Some s => slot_ok p ts i s
  | None => i ∉ slots p ∧ (∀ q, cnt q i ts = 0) ∧ occ i (stopped p) = 0
  end.

Record site_ok (p : Pool E Err) (ts : list thread) : Prop := {
  site_nodup : NoDup (slots p);
  site_slots i : slot_at p ts i;
  site_alone : PerEnvironment (opts p) = 1 → ∀ i h, Joining i h ∉ ts;
}.

Lemma cnt_app q j ts ts' : cnt q j (ts ++ ts') = cnt q j ts + cnt q j ts'.
Proof. apply total_app. Qed.

Lemma cnt_cons q j t ts : cnt q j (t :: ts) = weight q j t + cnt q j ts.
Proof. done. Qed.

Lemma at_nonneg j i : 0 ≤ at_ j i.
Proof. unfold at_, b2z. case_match; lia. Qed.

Lemma occ_nonneg j l : 0 ≤ occ j l.
Proof. apply total_nonneg, at_nonneg. Qed.

Lemma weight_nonneg q j t : 0 ≤ weight q j t.
Proof. destruct q, t; cbn; try lia; try apply at_nonneg; apply occ_nonneg. Qed.

Lemma cnt_nonneg q j ts : 0 ≤ cnt q j ts.
Proof. apply total_nonneg. intros. apply weight_nonneg. Qed.

Lemma at_eq j : at_ j j = 1.
Proof. unfold at_. by rewrite Nat.eqb_refl. Qed.

Lemma at_ne j i : i ≠ j → at_ j i = 0.
Proof. intros Hne. unfold at_. by apply Nat.eqb_neq in Hne as ->. Qed.

Lemma occ_cons j i l : occ j (i :: l) = at_ j i + occ j l.
Proof. done. Qed.

Lemma occ_app j l l' : occ j (l ++ l') = occ j l + occ j l'.
Proof. apply total_app. Qed.

Lemma cnt_stop_each q j is_ : cnt q j (stop_each is_) = match q with RStop => occ j is_ | _ => 0 end.
Proof.
  unfold cnt, stop_each. rewrite total_map. destruct q; try (by apply total_zero).
  apply total_ext. intros i _. cbn. lia.
Qed.

(** The threads count only by what they do with each slot. *)
Lemma slot_at_frame p ts p' ts' i :
  slot_at p ts i → opts p' = opts p → (canceled p' = false → canceled p = false) → heap p' !! i = heap p !! i → (i ∈ slots p' ↔ i ∈ slots p) →
  (∀ q, cnt q i ts' + (if q is RStop then occ i (stopped p') else 0) = cnt q i ts + (if q is RStop then occ i (stopped p) else 0)) →
  (∀ c, Watching i c ∈ ts → Watching i c ∈ ts') → slot_at p' ts' i.
Proof.
  intros Hs Ho Hc Hh Hm Hq Hw. unfold slot_at in *. rewrite Hh. pose proof (Hq RStart) as Q1. pose proof (Hq RJoin) as Q2. pose proof (Hq RLease) as Q3.
  pose proof (Hq RProvision) as Q4. pose proof (Hq RStop) as Q5. cbn in *. destruct (heap p !! i) as [s|].
  - destruct Hs as [H1 H2 H3 H4 H5 H6 H7 H8 H9 H10 H11 H12 H13]. split; rewrite ?Ho, ?Hm; try done; try lia; [intros; specialize (H5 ltac:(done)); lia| |intros; specialize (H13 ltac:(done)); lia].
    intros Hi. destruct (H10 Hi) as (c & ? & ?). exists c. auto.
  - destruct Hs as (H1 & H2 & H3). pose proof (cnt_nonneg RStop i ts'). pose proof (occ_nonneg i (stopped p')). pose proof (H2 RStop).
    split_and!; [by rewrite Hm| |lia]. intros []; rewrite ?H2 in *; lia.
Qed.

Lemma site_ok_perm p ts ts' : ts ≡ₚ ts' → site_ok p ts → site_ok p ts'.
Proof.
  intros Hp [H1 H2 H3]. split; [done| |setoid_rewrite <- Hp; done]. intros i. eapply slot_at_frame; eauto; [|intros c; by rewrite Hp].
  intros q. unfold cnt. by rewrite Hp.
Qed.

(** A step that touches one slot. *)
Lemma site_ok_one p ts p' ts' i :
  site_ok p ts → opts p' = opts p → (canceled p' = false → canceled p = false) → NoDup (slots p') →
  (∀ j, j ≠ i → heap p' !! j = heap p !! j ∧ (j ∈ slots p' ↔ j ∈ slots p) ∧
    (∀ q, cnt q j ts' + (if q is RStop then occ j (stopped p') else 0) = cnt q j ts + (if q is RStop then occ j (stopped p) else 0)) ∧
    ∀ c, Watching j c ∈ ts → Watching j c ∈ ts') →
  (∀ j h, Joining j h ∈ ts' → Joining j h ∈ ts ∨ PerEnvironment (opts p) ≠ 1) → slot_at p' ts' i → site_ok p' ts'.
Proof.
  intros [H1 H2 H3] Ho Hc Hn Hj Hjo Hi. split; [done| |].
  - intros j. destruct (decide (j = i)) as [->|Hne]; [done|]. destruct (Hj _ Hne) as (? & ? & ? & ?). by eapply slot_at_frame.
  - rewrite Ho. intros Hpe j h Hin. destruct (Hjo _ _ Hin) as [Hin'|?]; [by eapply H3|done].
Qed.

(** ** Steps on one slot *)

Lemma remove_first_elem i l j : NoDup l → j ∈ remove_first i l ↔ j ∈ l ∧ j ≠ i.
Proof.
  induction l as [|x l IH]; cbn; [set_solver|]. intros [Hx Hl]%NoDup_cons. destruct (Nat.eqb_spec x i) as [->|?]; [set_solver|].
  rewrite !elem_of_cons, IH by done. naive_solver.
Qed.

Lemma remove_first_none i l : i ∉ l → remove_first i l = l.
Proof.
  induction l as [|x l IH]; cbn; [done|]. rewrite not_elem_of_cons. intros [? ?]. destruct (Nat.eqb_spec x i); [congruence|]. f_equal. by apply IH.
Qed.

Lemma remove_first_NoDup i l : NoDup l → NoDup (remove_first i l).
Proof.
  induction l as [|x l IH]; cbn; [done|]. intros [Hx Hl]%NoDup_cons. destruct (x =? i)%nat; [done|]. constructor; [|by apply IH].
  rewrite remove_first_elem by done. naive_solver.
Qed.

(** The counts of threads about the slot at hand, and about another one. *)
Ltac counts :=
  rewrite ?cnt_cons, ?cnt_app, ?cnt_stop_each, ?cnt_cons in *; cbn [weight] in *; rewrite ?occ_cons, ?at_eq in *; rewrite ?at_ne in * by done; cbn [occ total] in *.

(** The other slots of a step on one. *)
Ltac fields :=
  cbn [opts canceled slots stopped update with_heap with_slots removeLocked notifyLocked parkUnderLock with_prov stop_one cancel heap retired prov chans changed] in *.

Ltac others H :=
  let j := fresh "j" in let Hne := fresh "Hne" in
  intros j Hne; fields;
  split_and!;
  [by rewrite ?list_lookup_alter_ne by done
  |rewrite ?remove_first_elem by apply H; naive_solver
  |intros []; counts; lia
  |clear -Hne; set_solver].

Lemma slot_of p ts i s : site_ok p ts → heap p !! i = Some s → slot_ok p ts i s.
Proof. intros [_ H _] Hs. specialize (H i). unfold slot_at in H. by rewrite Hs in H. Qed.

(** The slot a step is about: from what held of it before. *)
Ltac zcases :=
  repeat match goal with
  | |- context [?a =? ?b] => destruct (Z.eqb_spec a b)
  | H : context [?a =? ?b] |- _ => destruct (Z.eqb_spec a b)
  end.

Ltac flags :=
  unfold idle, is_starting, is_ready, is_gone, is_provisioned, no_err in *;
  cbn [kind state env leases started err park set_state set_park add_lease set_started set_failed set_env newSlot] in *.

Ltac known :=
  repeat match goal with
  | F : true = true → _ |- _ => specialize (F eq_refl)
  | F : false = false → _ |- _ => specialize (F eq_refl)
  | F : false = true → _ |- _ => clear F
  | F : true = false → _ |- _ => clear F
  | F : true = true |- _ => clear F
  | F : false = false |- _ => clear F
  end.

Ltac nonneg :=
  repeat match goal with
  | _ : context [cnt ?q ?j ?l] |- _ => assert_fails (assert (0 ≤ cnt q j l) by assumption); pose proof (cnt_nonneg q j l)
  | _ : context [occ ?j ?l] |- _ => assert_fails (assert (0 ≤ occ j l) by assumption); pose proof (occ_nonneg j l)
  end.

Ltac settle H Ho s :=
  let k := fresh "k" in let st := fresh "st" in let er := fresh "er" in
  destruct Ho as [F1 F2 F3 F4 F5 F6 F7 F8 F9 F10 F11 F12 F13]; destruct s as [k st ? ? ? er ?]; counts; nonneg; flags; destruct st, k, er;
  cbn [andb negb b2z] in *; known; try done; try (exfalso; first [lia|congruence]);
  split; flags; fields;
  intros; counts; rewrite ?remove_first_elem by apply H; zcases; cbn [andb negb b2z] in *; known;
  try done; try lia; try (exfalso; lia); try solve [clear -F2; naive_solver].

Lemma drop_idle_ok p ts i s :
  site_ok p ts → heap p !! i = Some s → idle s = true →
  ∃ p', drop_idle i p = Some p' ∧ site_ok p' (Stopping [i] false :: ts) ∧
    ∃ c, heap p' !! i = Some (set_park (Some (c, true)) (set_state gone s)) ∧ ∀ j, j ≠ i → heap p' !! j = heap p !! j.
Proof.
  intros H Hs Hi. pose proof (slot_of _ _ _ _ H Hs) as Ho. destruct (so_park _ _ _ _ Ho Hi) as (c & Hc & Hw).
  unfold drop_idle, close_park. cbn. rewrite list_lookup_alter_eq, Hs. cbn. rewrite Hc. cbn. eexists. split; [done|]. split.
  - eapply (site_ok_one _ _ _ _ i H); [done|done|by apply remove_first_NoDup, H|others H|set_solver|].
    unfold slot_at. cbn. rewrite !list_lookup_alter_eq, Hs. cbn. settle H Ho s.
  - exists c. cbn. rewrite !list_lookup_alter_eq, Hs. split; [done|]. intros j Hne. by rewrite !list_lookup_alter_ne by done.
Qed.

(** Only slots that were idle go, and the ones that stay idle fail the test. *)
Lemma drop_all_ok f l p ts :
  site_ok p ts → ∃ is_ p', drop_all f l p = Some (is_, p') ∧ site_ok p' (stop_each is_ ++ ts) ∧
    ∀ i s, heap p' !! i = Some s → idle s = true → heap p !! i = Some s ∧ (i ∈ l → f s = false).
Proof.
  revert p ts. induction l as [|i l IH]; intros p ts H; cbn [drop_all].
  { exists [], p. split_and!; [done|done|]. intros i s Hs _. split; [done|]. by intros ?%elem_of_nil. }
  destruct (heap p !! i) as [s|] eqn:Hs; [destruct (idle s && f s) eqn:Hif|].
  - apply andb_true_iff in Hif as [Hi Hf]. destruct (drop_idle_ok _ _ _ _ H Hs Hi) as (p1 & -> & H1 & c & Hc & Hne). cbn.
    destruct (IH _ _ H1) as (is_ & p' & -> & H' & Hid). cbn. exists (i :: is_), p'. split; [done|]. split.
    + eapply site_ok_perm; [|done]. cbn. symmetry. apply Permutation_middle.
    + intros j s' Hs' Hi'. destruct (Hid _ _ Hs' Hi') as [Hj Hl]. destruct (decide (j = i)) as [->|Hn].
      * rewrite Hc in Hj. by simplify_eq.
      * rewrite Hne in Hj by done. split; [done|]. intros [?|?]%elem_of_cons; [done|by apply Hl].
  - destruct (IH _ _ H) as (is_ & p' & -> & H' & Hid). exists is_, p'. split_and!; [done|done|]. intros j s' Hs' Hi'.
    destruct (Hid _ _ Hs' Hi') as [Hj Hl]. split; [done|]. intros [->|?]%elem_of_cons; [|auto]. simplify_eq. rewrite Hi' in Hif. done.
  - destruct (IH _ _ H) as (is_ & p' & -> & H' & Hid). exists is_, p'. split_and!; [done|done|]. intros j s' Hs' Hi'.
    destruct (Hid _ _ Hs' Hi') as [Hj Hl]. split; [done|]. intros [->|?]%elem_of_cons; [congruence|auto].
Qed.

Lemma picked_has_room (p : pool) now b od l i :
  pick_loop p now b od l = Some i →
  od = Some i ∨ (i ∈ l ∧ ∃ s, heap p !! i = Some s ∧ is_ready s = true ∧ hasRoomLocked p s = true ∧ (is_provisioned s = true → b = true)).
Proof.
  revert od. induction l as [|x l IH]; intros od; cbn [pick_loop]; [by left|]. destruct (heap p !! x) as [s|] eqn:Hs.
  - destruct (negb _ || negb _ || _) eqn:Ht; [intros [?|[? ?]]%IH; [by left|right; split; [by right|done]]|].
    apply orb_false_iff in Ht as [[Hr%negb_false_iff Hm%negb_false_iff]%orb_false_iff _]. destruct (is_provisioned s) eqn:Hk.
    + destruct b; [intros [= ->]; right; split; [left|eauto]|]. intros [?|[? ?]]%IH; [by left|right; split; [by right|done]].
    + intros [Hod|[? ?]]%IH; [|right; split; [by right|done]]. destruct od; simplify_eq; [by left|]. right. split; [left|]. exists s. split_and!; congruence.
  - intros [?|[? ?]]%IH; [by left|right; split; [by right|done]].
Qed.

Lemma starting_spec (p : pool) i :
  startingWithRoomLocked p = Some i →
  PerEnvironment (opts p) ≠ 1 ∧ ∃ s, heap p !! i = Some s ∧ is_starting s = true ∧ is_provisioned s = false ∧ hasRoomLocked p s = true.
Proof.
  unfold startingWithRoomLocked. destruct (Z.eqb_spec (PerEnvironment (opts p)) 1); [done|]. intros [_ Hf]%List.find_some. split; [done|].
  destruct (heap p !! i) as [s|]; [|done]. exists s. bools. split_and!; done.
Qed.

Lemma room_leases (p : pool) s : hasRoomLocked p s = true → PerEnvironment (opts p) ≠ 0 → leases s + 1 ≤ Z.max 1 (PerEnvironment (opts p)).
Proof. unfold hasRoomLocked. intros Hr Hp. bools. lia. Qed.

(** A slot that is not gone is in the list, at its place in the heap. *)
Lemma fresh_slot p ts : site_ok p ts → length (heap p) ∉ slots p ∧ (∀ q, cnt q (length (heap p)) ts = 0) ∧ occ (length (heap p)) (stopped p) = 0.
Proof.
  intros [_ Hs _]. specialize (Hs (length (heap p))). unfold slot_at in Hs. by rewrite lookup_ge_None_2 in Hs by done.
Qed.

Lemma lease_ok p ts i s h :
  site_ok p ts → heap p !! i = Some s → is_ready s = true → hasRoomLocked p s = true →
  ∃ p', (if leases s =? 0 then close_park i p else Some p) = Some p' ∧ site_ok (notifyLocked (update i (add_lease 1) p')) (Leasing i h :: ts).
Proof.
  intros H Hs Hr Hroom. pose proof (slot_of _ _ _ _ H Hs) as Ho. pose proof (room_leases _ _ Hroom) as Hm. destruct (Z.eqb_spec (leases s) 0) as [Hz|Hz].
  - assert (idle s = true) as Hi by (unfold idle; rewrite Hr, Hz; done). destruct (so_park _ _ _ _ Ho Hi) as (c & Hc & _).
    unfold close_park. rewrite Hs. cbn. rewrite Hc. eexists. split; [done|].
    eapply (site_ok_one _ _ _ _ i H); [done|done|apply H|others H|set_solver|].
    unfold slot_at. cbn. rewrite !list_lookup_alter_eq, Hs. cbn. settle H Ho s.
  - eexists. split; [done|]. eapply (site_ok_one _ _ _ _ i H); [done|done|apply H|others H|set_solver|].
    unfold slot_at. cbn. rewrite !list_lookup_alter_eq, Hs. cbn. settle H Ho s.
Qed.

(** [Acquire] does not panic. *)
Lemma Acquire_ok now now' ls p ts :
  site_ok p ts → ∃ r ls' p' ex, Acquire now now' ls p = Some (r, ls', p', ex) ∧ site_ok p' ((reply_threads r ++ stop_each ex) ++ ts).
Proof.
  intros H. unfold Acquire. destruct (retired p); [by eexists _, _, _, _|].
  destruct (drop_all_ok (λ s, expiredLocked p s now) (slots p) _ _ H) as (ex & p1 & Ed & H1 & _). unfold stopExpiredLocked. rewrite Ed. cbn. clear Ed H.
  destruct (pickLocked p1 now') as [i|] eqn:Ep.
  - apply picked_has_room in Ep as [?|(_ & s & Hs & Hr & Hm & _)]; [done|]. rewrite Hs. cbn.
    destruct (if is_provisioned s then _ else _) as [l|[h ls1]]; [by eexists _, _, _, _|].
    destruct (lease_ok _ _ _ _ h H1 Hs Hr Hm) as (p2 & -> & H2). cbn. eexists _, _, _, _. split; [done|]. done.
  - destruct (Limit_take _ _) as [l|[h ls1]]; [destruct (startingWithRoomLocked p1); by eexists _, _, _, _|].
    destruct (startingWithRoomLocked p1) as [i|] eqn:Es; eexists _, _, _, _; (split; [done|]); cbn [reply_threads app].
    + apply starting_spec in Es as (Hpe & s & Hs & Hst & Hk & Hm). pose proof (slot_of _ _ _ _ H1 Hs) as Ho. pose proof (room_leases _ _ Hm).
      eapply (site_ok_one _ _ _ _ i H1); [done|done|apply H1|others H1|set_solver|].
      unfold slot_at. cbn. rewrite list_lookup_alter_eq, Hs. cbn. settle H1 Ho s.
    + destruct (fresh_slot _ _ H1) as (F1 & F2 & F3). set (i := length (heap p1)) in *.
      eapply (site_ok_one _ _ _ _ i H1); [done|done| | |set_solver|].
      * cbn. apply NoDup_app. split_and!; [apply H1|set_solver|apply NoDup_singleton].
      * intros j Hne. fields. split_and!; [|set_solver|intros []; counts; lia|set_solver].
        destruct (decide (j < i)%nat); [by rewrite lookup_app_l|]. rewrite !lookup_ge_None_2; [done|unfold i in *; lia|rewrite length_app; cbn; unfold i in *; lia].
      * unfold slot_at. fields. rewrite lookup_app_r, Nat.sub_diag by done. cbn [lookup list_lookup].
        pose proof (F2 RStart). pose proof (F2 RJoin). pose proof (F2 RLease). pose proof (F2 RProvision). pose proof (F2 RStop).
        split; flags; fields; intros; counts; cbn [andb negb b2z]; try done; try lia. set_solver.
Qed.

(** The slot of a thread exists. *)
Lemma slot_known q p t ts i : site_ok p (t :: ts) → weight q i t = 1 → ∃ s, heap p !! i = Some s ∧ slot_ok p (t :: ts) i s.
Proof.
  intros H Hw. pose proof (site_slots _ _ H i) as Hi. unfold slot_at in Hi. destruct (heap p !! i) as [s|]; [by exists s|].
  destruct Hi as (_ & Hc & _). specialize (Hc q). rewrite cnt_cons in Hc. pose proof (cnt_nonneg q i ts). lia.
Qed.

Ltac on_slot H i s Ho :=
  eapply (site_ok_one _ _ _ _ i H);
  [done|done|first [apply remove_first_NoDup, H|apply H]|others H|set_solver
  |unfold slot_at; fields; rewrite !list_lookup_alter_eq; match goal with Hs : heap _ !! i = Some s |- _ => rewrite Hs end; cbn [fmap option_fmap option_map]; settle H Ho s].

Lemma started_ok p ts i h e : site_ok p (Starting i h :: ts) → site_ok (start_done i e p) (Leasing i h :: ts).
Proof.
  intros H. destruct (slot_known RStart _ _ _ i H (at_eq i)) as (s & Hs & Ho). unfold start_done. on_slot H i s Ho.
Qed.

Lemma start_failed_ok p ts i h x : site_ok p (Starting i h :: ts) → site_ok (start_failed i x p) (Releasing h :: ts).
Proof.
  intros H. destruct (slot_known RStart _ _ _ i H (at_eq i)) as (s & Hs & Ho). unfold start_failed. on_slot H i s Ho.
Qed.

Lemma joined_ok p ts i h s :
  site_ok p (Joining i h :: ts) → heap p !! i = Some s → started s = true → err s = None → site_ok p (Leasing i h :: ts).
Proof.
  intros H Hs Hst He. pose proof (slot_of _ _ _ _ H Hs) as Ho.
  eapply (site_ok_one _ _ _ _ i H); [done|done|apply H|others H|set_solver|]. unfold slot_at. rewrite Hs. settle H Ho s.
Qed.

Lemma join_failed_ok p ts i h s x :
  site_ok p (Joining i h :: ts) → heap p !! i = Some s → err s = Some x → site_ok (update i (add_lease (-1)) p) (Releasing h :: ts).
Proof.
  intros H Hs He. pose proof (slot_of _ _ _ _ H Hs) as Ho. on_slot H i s Ho.
Qed.

Lemma join_canceled_ok p ts i h s :
  site_ok p (Joining i h :: ts) → heap p !! i = Some s → started s = false ∨ PerEnvironment (opts p) = 1 →
  site_ok (update i (add_lease (-1)) p) (Releasing h :: ts).
Proof.
  intros H Hs Hc. destruct Hc as [Hc|Hc]; [|exfalso; eapply (site_alone _ _ H Hc); left].
  pose proof (slot_of _ _ _ _ H Hs) as Ho. pose proof (so_started _ _ _ _ Ho). on_slot H i s Ho.
Qed.

Lemma end_ok discard now i h ls p ts :
  site_ok p (Leasing i h :: ts) →
  ∃ ls' p' stop replace watch, end_ discard now i h ls p = Some (ls', p', stop, replace, watch) ∧
    site_ok p' ((Stopping (if stop : bool then [i] else []) replace :: match watch with Some c => [Watching i c] | None => [] end) ++ ts).
Proof.
  intros H. destruct (slot_known RLease _ _ _ i H (at_eq i)) as (s & Hs & Ho). unfold end_. rewrite Hs. cbn [mbind option_bind].
  destruct (is_gone (add_lease (-1) s)) eqn:Hg; [|destruct (discard || _ || _ || _); [|destruct (leases (add_lease (-1) s) =? 0) eqn:Hz]];
    eexists _, _, _, _, _; (split; [done|]).
  - destruct (leases (add_lease (-1) s) =? 0) eqn:Hz; cbn [app]; on_slot H i s Ho.
  - destruct (leases (add_lease (-1) s) =? 0) eqn:Hz; cbn [app]; on_slot H i s Ho.
  - cbn [app]. on_slot H i s Ho; (eexists; split; [done|intros; by right; left]).
  - cbn [app]. on_slot H i s Ho.
Qed.

Lemma watch_ok exited expired i c p ts :
  site_ok p (Watching i c :: ts) →
  (exited = true ∨ expired = true ∨ canceled p = true ∨ (heap p !! i ≫= park) ≠ Some (c, false)) →
  (watch_done exited expired i c p = Some None ∧ site_ok p ts) ∨
  ∃ p' replace, watch_done exited expired i c p = Some (Some (p', replace)) ∧ site_ok p' (Stopping [i] replace :: ts).
Proof.
  intros H Hwake.
  (* Unless the slot is idle on that channel, it does not need the watch. *)
  assert ((∀ s, heap p !! i = Some s → idle s = true → canceled p = false → ∃ c', park s = Some (c', false) ∧ c' ≠ c) → site_ok p ts) as Hdrop.
  { intros Hd. destruct H as [H1 H2 H3]. split; [done| |set_solver]. intros j. specialize (H2 j). unfold slot_at in *.
    destruct (heap p !! j) as [s|] eqn:Hs; [|split_and!; [apply H2| |apply H2]; intros q; destruct H2 as (_ & H2 & _); specialize (H2 q); rewrite cnt_cons in H2; destruct q; cbn in H2; lia].
    pose proof H2 as Ho. settle H3 Ho s; destruct F10 as (c' & ? & Hw); exists c'; (split; [done|]); intros Hc; specialize (Hw Hc);
      apply elem_of_cons in Hw as [[= -> ->]|?]; try done; exfalso;
      (destruct (Hd _ Hs) as (c2 & ? & ?); [by apply Z.eqb_eq|done|]); cbn in *; congruence. }
  unfold watch_done. destruct (heap p !! i) as [s|] eqn:Hs; [|left; split; [done|by apply Hdrop]].
  destruct (bool_decide _ || negb _) eqn:Ht.
  - left. split; [done|]. apply Hdrop. intros s' [= <-] Hi _. apply orb_true_iff in Ht as [Ht|Ht]; [|by rewrite Hi in Ht].
    destruct (so_park _ _ _ _ (slot_of _ _ _ _ H Hs) Hi) as (c' & Hc & _). exists c'. split; [done|]. apply bool_decide_eq_true in Ht. rewrite Hc in Ht. cbn in Ht. congruence.
  - apply orb_false_iff in Ht as [Hp%bool_decide_eq_false Hi%negb_false_iff]. destruct (so_park _ _ _ _ (slot_of _ _ _ _ H Hs) Hi) as (c' & Hc & _).
    rewrite Hc in Hp. cbn in Hp. assert (c' = c) as -> by (destruct (decide (c' = c)); [done|exfalso; apply Hp; congruence]).
    destruct (negb exited && negb expired) eqn:Hx.
    + left. split; [done|]. apply Hdrop. intros s' [= <-] _ Hcan. exfalso. cbn in Hwake. rewrite Hc in Hwake.
      apply andb_true_iff in Hx as [?%negb_true_iff ?%negb_true_iff]. destruct Hwake as [?|[?|[?|?]]]; congruence.
    + right. destruct (drop_idle_ok _ _ _ _ H Hs Hi) as (p' & -> & H' & c' & Hc' & _). cbn. eexists _, _. split; [done|].
      eapply (site_ok_one _ _ _ _ i H'); [done|done|apply H'| |set_solver|].
      * intros j Hne. fields. split_and!; [done|done|intros []; counts; lia|clear -Hne; set_solver].
      * pose proof (slot_of _ _ _ _ H' Hc') as Ho. unfold slot_at. fields. rewrite Hc'. clear -Ho H'.
        destruct Ho as [F1 F2 F3 F4 F5 F6 F7 F8 F9 F10 F11 F12 F13]. split; flags; fields; intros; counts; try done; auto.
Qed.

(** Steps that leave the slots alone. *)
Lemma site_ok_frame p ts p' ts' :
  site_ok p ts → opts p' = opts p → (canceled p' = false → canceled p = false) → heap p' = heap p → slots p' = slots p →
  (∀ q i, cnt q i ts' + (if q is RStop then occ i (stopped p') else 0) = cnt q i ts + (if q is RStop then occ i (stopped p) else 0)) →
  (∀ i c, Watching i c ∈ ts → Watching i c ∈ ts') → (∀ i h, Joining i h ∈ ts' → Joining i h ∈ ts) → site_ok p' ts'.
Proof.
  intros [H1 H2 H3] Ho Hc Hh Hs Hq Hw Hj. split; [by rewrite Hs| |rewrite Ho; naive_solver].
  intros i. eapply slot_at_frame; eauto; by rewrite ?Hh, ?Hs.
Qed.

Lemma stop_ok p ts i is_ b : site_ok p (Stopping (i :: is_) b :: ts) → site_ok (stop_one i p) (Stopping is_ b :: ts).
Proof. intros H. eapply site_ok_frame; [exact H|done..| |set_solver|set_solver]. intros [] j; counts; fields; rewrite ?occ_cons; lia. Qed.

(** How one goroutine stops several environments, or several goroutines one each. *)
Lemma stops_ok p p' ts is_ t :
  (t = Retiring is_ ∨ ∃ b, t = Stopping is_ b) → site_ok p (stop_each is_ ++ ts) → opts p' = opts p → (canceled p' = false → canceled p = false) →
  heap p' = heap p → slots p' = slots p → stopped p' = stopped p → site_ok p' (t :: ts).
Proof.
  intros Ht H ? ? ? ? Hst. eapply site_ok_frame; [exact H|done..| | |].
  - intros q j. rewrite Hst. destruct Ht as [->|[b ->]]; destruct q; counts; lia.
  - intros i c. rewrite elem_of_app. intros [(? & ? & _)%list_elem_of_In%in_map_iff|?]; [done|by right].
  - destruct Ht as [->|[b ->]]; set_solver.
Qed.

Lemma stops_each_ok p p' ts is_ :
  site_ok p (Retiring is_ :: ts) → opts p' = opts p → (canceled p' = false → canceled p = false) →
  heap p' = heap p → slots p' = slots p → stopped p' = stopped p → site_ok p' (stop_each is_ ++ ts).
Proof.
  intros H ? ? ? ? Hst. eapply site_ok_frame; [exact H|done..| | |].
  - intros q j. rewrite Hst. destruct q; counts; lia.
  - intros i c. rewrite elem_of_app, elem_of_cons. naive_solver.
  - intros i c. rewrite elem_of_app. intros [(? & ? & _)%list_elem_of_In%in_map_iff|?]; [done|by right].
Qed.

Lemma cnt_provision q j a n :
  cnt q j (map Provisioning_start (seq a n)) = match q with RProvision => b2z ((a <=? j)%nat && (j <? a + n)%nat) | _ => 0 end.
Proof.
  unfold cnt. rewrite total_map. destruct q; try (by apply total_zero). cbn [weight]. revert a. induction n as [|n IH]; intros a; cbn [seq total].
  - destruct (Nat.leb_spec a j), (Nat.ltb_spec j (a + 0)); cbn; lia.
  - rewrite IH. unfold at_.
    destruct (Nat.eqb_spec a j), (Nat.leb_spec a j), (Nat.leb_spec (S a) j), (Nat.ltb_spec j (a + S n)), (Nat.ltb_spec j (S a + n)); cbn [b2z andb]; lia.
Qed.

Lemma topUp_ok p ts b new p' : site_ok p (Stopping [] b :: ts) → topUp p = (new, p') → site_ok p' (map Provisioning_start new ++ ts).
Proof.
  intros H. unfold topUp. case_match; [intros [= <- <-]; eapply site_ok_frame; [exact H|done..|intros [] j; counts; cbn; lia|set_solver|set_solver]|].
  set (n := Z.to_nat _). intros [= <- <-]. set (a := length (heap p)). pose proof (site_slots _ _ H) as Hsl.
  assert (∀ j, (a ≤ j)%nat → j ∉ slots p ∧ (∀ q, cnt q j (Stopping [] b :: ts) = 0) ∧ occ j (stopped p) = 0) as Hfresh.
  { intros j Hj. specialize (Hsl j). unfold slot_at in Hsl. by rewrite lookup_ge_None_2 in Hsl by done. }
  assert (∀ i h, Joining i h ∈ map Provisioning_start (seq a n) ++ ts → Joining i h ∈ ts) as Hjo.
  { intros i h. rewrite elem_of_app. by intros [(? & ? & _)%list_elem_of_In%in_map_iff|?]. }
  split; fields; [apply NoDup_app; split_and!; [apply H| |apply NoDup_seq]; intros j Hj Hin%elem_of_seq; eapply Hfresh; [|done]; lia| |].
  - intros j. destruct (decide (j < a)%nat) as [Hlt|Hge].
    + eapply slot_at_frame; [apply Hsl|done|done| | | |].
      * fields. by rewrite lookup_app_l.
      * fields. rewrite elem_of_app, elem_of_seq. naive_solver lia.
      * intros q. fields. rewrite cnt_app, cnt_provision, cnt_cons. destruct q; cbn [weight occ total]; try lia. destruct (Nat.leb_spec a j); cbn; lia.
      * clear -b. set_solver.
    + destruct (Hfresh j) as (F1 & F2 & F3); [lia|]. assert (∀ q, cnt q j ts = 0) as F4.
      { intros q. specialize (F2 q). rewrite cnt_cons in F2. destruct q; cbn [weight occ total] in F2; lia. }
      unfold slot_at. fields. rewrite lookup_app_r by (unfold a in *; lia). destruct (decide (j < a + n)%nat) as [Hn|Hn].
      * rewrite lookup_replicate_2 by (unfold a in *; lia).
        assert (∀ q, cnt q j (map Provisioning_start (seq a n) ++ ts) = if q is RProvision then 1 else 0) as Hc.
        { intros q. rewrite cnt_app, cnt_provision, F4. destruct q; try done. destruct (Nat.leb_spec a j), (Nat.ltb_spec j (a + n)); cbn; lia. }
        split; flags; intros; rewrite ?Hc; cbn; try done; try lia. rewrite elem_of_app, elem_of_seq. split; [done|]. right. lia.
      * rewrite lookup_ge_None_2 by (rewrite length_replicate; unfold a in *; lia). rewrite elem_of_app, elem_of_seq.
        split_and!; [intros [?|?]; [done|lia]| |done]. intros q. rewrite cnt_app, cnt_provision, F4. destruct q; try done.
        destruct (Nat.leb_spec a j), (Nat.ltb_spec j (a + n)); cbn; lia.
  - intros Hpe i h Hin%Hjo. eapply (site_alone _ _ H Hpe). by right.
Qed.

Lemma provision_done_ok p ts i e stop p' :
  site_ok p (Provisioning_start i :: ts) → provision_done i e p = (stop, p') →
  site_ok p' ((if stop : bool then Stopping [i] false else Watching i (chans p)) :: ts).
Proof.
  intros H. destruct (slot_known RProvision _ _ _ i H (at_eq i)) as (s & Hs & Ho). unfold provision_done. case_match; intros [= <- <-].
  - on_slot H i s Ho.
  - on_slot H i s Ho; (eexists; split; [done|intros; left]).
Qed.

Lemma provision_failed_ok p ts i x : site_ok p (Provisioning_start i :: ts) → site_ok (provision_failed i x p) ts.
Proof.
  intros H. destruct (slot_known RProvision _ _ _ i H (at_eq i)) as (s & Hs & Ho). unfold provision_failed. case_match; on_slot H i s Ho.
Qed.

Lemma drop_excess_ok n l p ts :
  site_ok p ts → ∃ is_ p', drop_excess n l p = Some (is_, p') ∧ site_ok p' (stop_each is_ ++ ts).
Proof.
  revert n p ts. induction l as [|i l IH]; intros n p ts H; cbn [drop_excess]; [by exists [], p|].
  destruct (negb (0 <? n)); [by exists [], p|]. destruct (heap p !! i) as [s|] eqn:Hs; [destruct (negb _ || negb _) eqn:Ht|]; [by apply IH| |by apply IH].
  apply orb_false_iff in Ht as [_ Hi%negb_false_iff]. destruct (drop_idle_ok _ _ _ _ H Hs Hi) as (p1 & -> & H1 & _). cbn.
  destruct (IH (n - 1) _ _ H1) as (is_ & p' & -> & H'). cbn. exists (i :: is_), p'. split; [done|]. eapply site_ok_perm; [|done]. symmetry. apply Permutation_middle.
Qed.

Lemma Provision_ok n ls p ts :
  site_ok p ts → ∃ r ls' p', Provision n ls p = Some (r, ls', p') ∧
    site_ok p' (match r with ProvStops is_ => [Stopping is_ true] | _ => [] end ++ ts).
Proof.
  intros H. unfold Provision. destruct (retired p); [by eexists _, _, _|]. destruct (Limit_reserve _ _ n) as [l|[h ls1]].
  - destruct (Limit_reserve _ _ _) as [l'|[h ls1]]; eexists _, _, _; (split; [done|]); by eapply site_ok_frame; [exact H|done..].
  - set (p1 := with_prov _ p). assert (site_ok p1 ts) as H1 by (by eapply site_ok_frame; [exact H|done..]).
    destruct (drop_excess_ok (have p1 - n) (rev (slots p1)) _ _ H1) as (is_ & p2 & -> & H2). cbn [mbind option_bind]. eexists _, _, _. split; [done|].
    cbn [app]. eapply stops_ok; [right; by eexists|exact H2|done..].
Qed.

Lemma Retire_ok ls p ts :
  site_ok p ts → ∃ is_ ls' p', Retire ls p = Some (is_, ls', p') ∧ site_ok p' ((if retired p then [] else [Retiring is_]) ++ ts).
Proof.
  intros H. unfold Retire. destruct (retired p) eqn:Er; [by eexists _, _, _|]. set (p1 := MkPool _ _ _ _ true _ _ _ _).
  assert (site_ok p1 ts) as H1 by (by eapply site_ok_frame; [exact H|done..]).
  destruct (drop_all_ok (λ _, true) (slots p1) _ _ H1) as (is_ & p2 & Ed & H2 & _). cbv zeta. fold p1. rewrite Ed. cbn [mbind option_bind].
  eexists _, _, _. split; [done|]. cbn [app]. eapply stops_ok; [by left|exact H2|done..].
Qed.

(** Every step keeps the slots and the threads in agreement, unless a caller that
    shares an environment gives up after it started. *)
Lemma move_site_ok patient ls p tk ls' p' nw ts :
  move patient ls p tk ls' p' nw → patient = true ∨ PerEnvironment (opts p) = 1 → site_ok p (tk ++ ts) → site_ok p' (nw ++ ts).
Proof.
  intros Hm Hpat H.
  destruct Hm as [? ? ? ? ? ? ? ? Ha| | |? ? ? ? ? Hs Hst He|? ? ? ? ? ? Hs Hst He|? ? ? ? ? Hs Hst| |? ? ? ? ? ? ? ? ? ? ? He|? ? ? ? ? ? Hw Hd|? ? ? ? ? ? ? ? Hd| | |? ? ? ? Hu|? ? ? ? ? ? Hd| |? ? ? ? ? ? _ Hv|? ? ? ? ? Hr| |]; cbn [app] in *.
  - destruct (Acquire_ok now now' ls p _ H) as (? & ? & ? & ? & E1 & E2). by simplify_eq.
  - by apply started_ok.
  - by apply start_failed_ok.
  - by eapply joined_ok.
  - by eapply join_failed_ok.
  - eapply join_canceled_ok; [done..|]. destruct Hpat; [left|right]; auto.
  - eapply site_ok_frame; [exact H|done..|intros [] ?; counts; lia|set_solver|set_solver].
  - destruct (end_ok discard now i h ls _ _ H) as (? & ? & ? & ? & ? & E1 & E2). by simplify_eq.
  - destruct (watch_ok _ _ _ _ _ _ H Hw) as [[_ ?]|(? & ? & ? & _)]; [done|congruence].
  - destruct (watch_ok true true _ _ _ _ H ltac:(by left)) as [[E1 _]|(? & ? & E1 & E2)]; unfold watch_done in *; repeat case_match; simplify_eq/=; done.
  - by apply stop_ok.
  - eapply site_ok_frame; [exact H|done..|intros [] ?; counts; lia|set_solver|set_solver].
  - by eapply topUp_ok.
  - by eapply provision_done_ok.
  - by eapply provision_failed_ok.
  - destruct (Provision_ok n ls p _ H) as (? & ? & ? & E1 & E2). by simplify_eq.
  - destruct (Retire_ok ls p _ H) as (? & ? & ? & E1 & E2). by simplify_eq.
  - by eapply stops_each_ok.
  - eapply site_ok_frame; [exact H|done..].
Qed.

(** ** A retired pool *)

Definition retired_ok (p : Pool E Err) : Prop := retired p = true → ∀ i s, heap p !! i = Some s → idle s = false.

Lemma leased_not_idle p ts i s q : slot_ok p ts i s → q = RStart ∨ q = RJoin ∨ q = RLease → 0 < cnt q i ts → idle s = false.
Proof.
  intros Ho Hq Hc. pose proof (so_leases _ _ _ _ Ho). pose proof (cnt_nonneg RStart i ts). pose proof (cnt_nonneg RJoin i ts). pose proof (cnt_nonneg RLease i ts).
  unfold idle. destruct (Z.eqb_spec (leases s) 0); [|by rewrite andb_false_r]. destruct Hq as [->|[->| ->]]; lia.
Qed.

Lemma alter_cases {A} (f : A → A) (i : nat) (l : list A) (j : nat) (x : A) :
  alter f i l !! j = Some x → (j ≠ i ∧ l !! j = Some x) ∨ ∃ y, j = i ∧ x = f y ∧ l !! i = Some y.
Proof.
  destruct (decide (j = i)) as [->|Hne]; [|rewrite list_lookup_alter_ne by done; by left].
  rewrite list_lookup_alter_eq. intros (y & -> & ?)%fmap_Some. right. eauto.
Qed.

Lemma retired_update p i f :
  retired_ok p → (retired p = true → ∀ s, heap p !! i = Some s → idle s = false → idle (f s) = false) → retired_ok (update i f p).
Proof.
  intros Hr Hf Hp j s. cbn in Hp |- *. intros [[Hne Hs]|(s0 & -> & -> & Hs)]%alter_cases; [by eapply Hr|]. eapply Hf; [done..|by eapply Hr].
Qed.

Lemma move_static patient ls p tk ls' p' nw :
  move patient ls p tk ls' p' nw → opts p' = opts p ∧ (retired p = true → retired p' = true) ∧ (canceled p = true → canceled p' = true).
Proof.
  destruct 1 as [? ? ? ? ? ? ? ? Ha| | | | | | |? ? ? ? ? ? ? ? ? ? ? He| |? ? ? ? ? ? ? ? Hd| | |? ? ? ? Hu|? ? ? ? ? ? Hd|? ? ? ?|? ? ? ? ? ? _ Hv|? ? ? ? ? Hr| |]; try done.
  - apply Acquire_effect in Ha as (_ & (-> & -> & -> & _) & _). done.
  - unfold end_ in He. destruct (heap p !! i) as [s|]; [|done]. cbn in He. repeat case_match; simplify_eq/=; done.
  - unfold watch_done in Hd. repeat case_match; simplify_eq/=. destruct (drop_idle i p) eqn:Ed; simplify_eq/=. apply drop_idle_same in Ed as (-> & -> & -> & _). done.
  - unfold topUp in Hu. by case_match; simplify_eq/=.
  - unfold provision_done in Hd. by case_match; simplify_eq/=.
  - unfold provision_failed. by case_match.
  - unfold Provision in Hv. destruct (retired p) eqn:Er; [by simplify_eq|]. destruct (Limit_reserve _ _ n) as [l|[h ls1]].
    + destruct (Limit_reserve _ _ _) as [?|[? ?]]; simplify_eq/=; done.
    + destruct (drop_excess _ _ _) as [[? p2]|] eqn:Ed; simplify_eq/=. apply drop_excess_same in Ed as (-> & -> & _). done.
  - unfold Retire in Hr. destruct (retired p) eqn:Er; [by simplify_eq|]. destruct (drop_all _ _ _) as [[? p2]|] eqn:Ed; simplify_eq/=.
    apply drop_all_same in Ed as (-> & -> & -> & _). done.
Qed.

Lemma drop_idle_gone i (p p' : pool) : drop_idle i p = Some p' → ∀ j s, heap p' !! j = Some s → idle s = true → heap p !! j = Some s.
Proof.
  unfold drop_idle, close_park. destruct (_ ≫= park) as [[c []]|]; intros; simplify_eq/=.
  destruct (decide (j = i)) as [->|?]; [|by rewrite !list_lookup_alter_ne in * by done]. rewrite !list_lookup_alter_eq in *. by destruct (heap p !! i); simplify_eq/=.
Qed.

Lemma move_retired_ok patient ls p tk ls' p' nw ts :
  move patient ls p tk ls' p' nw → patient = true ∨ PerEnvironment (opts p) = 1 → site_ok p (tk ++ ts) → retired_ok p → retired_ok p'.
Proof.
  intros Hm Hpat H Hr. pose proof (move_site_ok _ _ _ _ _ _ _ _ Hm Hpat H) as H'.
  destruct Hm as [? ? ? ? ? ? ? ? Ha| | |? ? ? ? ? Hs Hst He|? ? ? ? ? ? Hs Hst He|? ? ? ? ? Hs Hst| |? ? ? ? ? ? ? ? ? ? ? He|? ? ? ? ? ? Hw Hd|? ? ? ? ? ? ? ? Hd| | |? ? ? ? Hu|? ? ? ? ? ? Hd| |? ? ? ? ? ? _ Hv|? ? ? ? ? Hrt| |]; cbn [app] in *; try done.
  - intros Hp'. destruct (retired p) eqn:Er; [unfold Acquire in Ha; rewrite Er in Ha; simplify_eq; by apply Hr|].
    apply Acquire_effect in Ha as (_ & (_ & _ & E1 & _) & _). congruence.
  - intros Hp' j s. unfold start_done. cbn. intros [[Hne Hs]|(s0 & -> & -> & Hs)]%alter_cases; [by eapply Hr|].
    eapply (leased_not_idle _ _ i _ RLease); [eapply slot_of; [exact H'|]|auto|]; [cbn; by rewrite list_lookup_alter_eq, Hs|rewrite cnt_cons; cbn [weight]; rewrite at_eq; pose proof (cnt_nonneg RLease i ts); lia].
  - unfold start_failed. apply (retired_update p); [done|]. done.
  - apply retired_update; [done|]. intros _ s' Hs' _. simplify_eq. pose proof (slot_of _ _ _ _ H Hs) as Ho. pose proof (so_err _ _ _ _ Ho) as Hg.
    unfold no_err in Hg. rewrite He in Hg. unfold idle, is_ready. cbn. by rewrite Hg.
  - apply retired_update; [done|]. intros _ s' Hs' _. simplify_eq. destruct Hpat as [->|Hpe]; [|exfalso; eapply (site_alone _ _ H Hpe); left].
    pose proof (so_started _ _ _ _ (slot_of _ _ _ _ H Hs)) as Hg. rewrite Hst in Hg by done. unfold idle, is_ready, is_starting in *. cbn. by destruct (state s).
  - unfold end_ in He. destruct (heap p !! i) as [s|] eqn:Hs; [|done]. cbn [mbind option_bind] in He. destruct (is_gone _) eqn:Hg; simplify_eq/=.
    + apply (retired_update p); [done|]. intros _ s' Hs' _. simplify_eq. unfold idle, is_ready, is_gone in *. cbn in *. by destruct (state s).
    + destruct (discard || retired p || _ || _) eqn:Ht; simplify_eq/=.
      * intros Hp' j s'. cbn. intros [[Hne Hs']|(s0 & -> & -> & _)]%alter_cases; [|done]. rewrite list_lookup_alter_ne in Hs' by done. by eapply Hr.
      * assert (retired p = false) as Er by (destruct discard, (retired p); done). repeat case_match; simplify_eq/=; intros Hp'; cbn in Hp'; congruence.
  - unfold watch_done in Hd. repeat case_match; simplify_eq/=. destruct (drop_idle i p) as [p1|] eqn:Ed; simplify_eq/=.
    intros Hp' j s'. cbn in *. intros Hs'. destruct (idle s') eqn:Hi; [|done]. pose proof (drop_idle_gone _ _ _ Ed _ _ Hs' Hi). apply drop_idle_same in Ed as (_ & _ & E1 & _).
    rewrite E1 in Hp'. by rewrite (Hr Hp' j s') in Hi by done.
  - unfold topUp in Hu. case_match; simplify_eq/=; [done|]. intros Hp'. cbn in Hp'. destruct (retired p); done.
  - unfold provision_done in Hd. destruct (retired _ || _) eqn:Ht; injection Hd as <- <-.
    + intros Hp' j s'. cbn. intros [[Hne Hs']|(s0 & -> & -> & _)]%alter_cases; [|done]. rewrite list_lookup_alter_ne in Hs' by done. by eapply Hr.
    + intros Hp'. cbn in Hp'. apply orb_false_iff in Ht as [Ht _]. cbn in Ht. congruence.
  - unfold provision_failed. case_match; apply (retired_update p); done.
  - intros Hp'. destruct (retired p) eqn:Er; [unfold Provision in Hv; rewrite Er in Hv; simplify_eq; by apply Hr|].
    unfold Provision in Hv. rewrite Er in Hv. destruct (Limit_reserve _ _ n) as [l|[h ls1]].
    + destruct (Limit_reserve _ _ _) as [?|[? ?]]; simplify_eq/=; congruence.
    + destruct (drop_excess _ _ _) as [[? p2]|] eqn:Ed; simplify_eq/=. apply drop_excess_same in Ed as (_ & _ & E1 & _). cbn in E1. congruence.
  - unfold Retire in Hrt. destruct (retired p) eqn:Er; [by simplify_eq|]. set (p1 := MkPool _ _ _ _ true _ _ _ _) in *.
    assert (site_ok p1 ts) as H1 by (by eapply site_ok_frame; [exact H|done..]).
    destruct (drop_all_ok (λ _, true) (slots p1) _ _ H1) as (is1 & p2 & Ed & H2 & Hid). rewrite Ed in Hrt. simplify_eq/=.
    intros _ j s' Hs'. cbn in Hs'. destruct (idle s') eqn:Hi; [|done]. exfalso. destruct (Hid _ _ Hs' Hi) as [Hs Hl].
    pose proof (so_listed _ _ _ _ (slot_of _ _ _ _ H1 Hs)) as Hli. assert (j ∈ slots p1) as Hin; [|by specialize (Hl Hin)].
    apply Hli. unfold idle, is_ready in Hi. by destruct (state s').
Qed.

(** ** Provisioned environments *)

(** A listed slot has not gone, and no slot changes its kind: the provisioned
    environments are the listed slots of that kind. *)
Definition prov_at (p : Pool E Err) (i : nat) : Z := match heap p !! i with Some s => b2z (is_provisioned s) | None => 0 end.
Definition provs (p : Pool E Err) : Z := total (prov_at p) (slots p).

Lemma total_omap {A B} (f : A → option B) (g : B → Z) l : total g (omap f l) = total (λ x, match f x with Some y => g y | None => 0 end) l.
Proof. induction l as [|x l IH]; [done|]. cbn. destruct (f x); cbn; lia. Qed.

Lemma have_provs p : (∀ i s, i ∈ slots p → heap p !! i = Some s → is_gone s = false) → have p = provs p.
Proof.
  intros Hg. unfold have, count, members, provs. rewrite total_omap. apply total_ext. intros i Hi. unfold prov_at.
  destruct (heap p !! i) as [s|] eqn:Hs; [|done]. rewrite (Hg _ _ Hi Hs). cbn. by rewrite andb_true_r.
Qed.

Lemma site_listed p ts : site_ok p ts → ∀ i s, i ∈ slots p → heap p !! i = Some s → is_gone s = false.
Proof. intros H i s Hi Hs. apply (so_listed _ _ _ _ (slot_of _ _ _ _ H Hs)) in Hi. unfold is_gone. by destruct (state s). Qed.

Lemma provs_update i f p : (∀ s, kind (f s) = kind s) → provs (update i f p) = provs p.
Proof.
  intros Hf. unfold provs. cbn. apply total_ext. intros j _. unfold prov_at. cbn. destruct (decide (j = i)) as [->|?]; [|by rewrite list_lookup_alter_ne].
  rewrite list_lookup_alter_eq. destruct (heap p !! i) as [s|]; cbn; [|done]. unfold is_provisioned. by rewrite Hf.
Qed.

Lemma total_remove (f : nat → Z) i l : i ∈ l → total f (remove_first i l) = total f l - f i.
Proof.
  induction l as [|x l IH]; [by intros ?%elem_of_nil|]. cbn. intros [->|Hin]%elem_of_cons; [rewrite Nat.eqb_refl; lia|].
  destruct (Nat.eqb_spec x i) as [->|?]; [lia|]. cbn. rewrite IH by done. lia.
Qed.

Lemma provs_remove i p : i ∈ slots p → provs (removeLocked i p) = provs p - prov_at p i.
Proof. intros Hi. unfold provs. cbn. by rewrite <- (total_remove (prov_at p) _ _ Hi). Qed.

Lemma drop_all_none f l p : (∀ s, f s = false) → drop_all (E:=E) (Err:=Err) f l p = Some ([], p).
Proof.
  intros Hf. induction l as [|i l IH]; cbn; [done|]. destruct (heap p !! i) as [s|]; [rewrite Hf, andb_false_r|]; done.
Qed.

Lemma drop_idle_provs i p p' s :
  drop_idle i p = Some p' → heap p !! i = Some s → i ∈ slots p → provs p' = provs p - b2z (is_provisioned s).
Proof.
  unfold drop_idle, close_park. destruct (_ ≫= park) as [[c []]|]; intros Hd Hs Hi; simplify_eq/=.
  rewrite provs_remove by done. rewrite !provs_update by done. unfold prov_at. cbn. rewrite !list_lookup_alter_eq, Hs. done.
Qed.

(** Environments are missing only while something tops them up. *)
Definition topping_up (ts : list thread) : Prop := ∃ is_, Stopping is_ true ∈ ts.

Definition kept (p : Pool E Err) (ts : list thread) : Prop :=
  Expires (opts p) = None → retired p = false → canceled p = false → provErr (prov p) = None →
  provRequested (prov p) ≤ provs p ∨ topping_up ts.

Lemma kept_frame p ts p' ts' :
  kept p ts → opts p' = opts p → retired p' = retired p → canceled p' = canceled p → prov p' = prov p → provs p' = provs p →
  (topping_up ts → topping_up ts') → kept p' ts'.
Proof. unfold kept. intros Hk -> -> -> -> -> Ht ? ? ? ?. destruct Hk; auto. Qed.

Lemma topping_app nw tk ts : (topping_up tk → topping_up nw) → topping_up (tk ++ ts) → topping_up (nw ++ ts).
Proof.
  intros Ht (is_ & Hin). apply elem_of_app in Hin as [Hin|Hin]; [destruct Ht as (is1 & ?); [by exists is_|]; exists is1|exists is_]; apply elem_of_app; auto.
Qed.

Lemma site_bounded p ts : site_ok p ts → ∀ i, i ∈ slots p → (i < length (heap p))%nat.
Proof.
  intros H i Hi. pose proof (site_slots _ _ H i) as Hs. unfold slot_at in Hs. destruct (heap p !! i) as [s|] eqn:E1; [by eapply lookup_lt_Some|]. by destruct Hs.
Qed.

(** New slots at the end. *)
Lemma provs_grow p n s :
  (∀ i, i ∈ slots p → (i < length (heap p))%nat) →
  provs (with_slots (slots p ++ seq (length (heap p)) n) (with_heap (heap p ++ replicate n s) p)) = provs p + Z.of_nat n * b2z (is_provisioned s).
Proof.
  intros Hb. unfold provs. cbn [slots with_slots with_heap]. rewrite total_app. f_equal.
  - apply total_ext. intros i Hi%Hb. unfold prov_at. cbn. by rewrite lookup_app_l.
  - rewrite (total_ext _ (λ _, b2z (is_provisioned s))).
    + generalize (length (heap p)). clear. induction n as [|n IH]; intros a; cbn [seq total]; [lia|]. rewrite IH. lia.
    + intros i Hi%elem_of_seq. unfold prov_at. cbn. rewrite lookup_app_r by lia. rewrite lookup_replicate_2 by lia. done.
Qed.

Lemma Acquire_provs now now' ls p r ls' p' ex :
  (∀ i, i ∈ slots p → (i < length (heap p))%nat) → Expires (opts p) = None → Acquire now now' ls p = Some (r, ls', p', ex) →
  provs p' = provs p ∧ ex = [].
Proof.
  intros Hb He. unfold Acquire. destruct (retired p); [by intros [= <- <- <- <-]|]. unfold stopExpiredLocked. rewrite drop_all_none; [|intros s; unfold expiredLocked; by rewrite He].
  cbn [mbind option_bind]. destruct (pickLocked p now') as [i|].
  - destruct (heap p !! i) as [s|] eqn:Hs; [|done]. cbn [mbind option_bind]. destruct (if is_provisioned s then _ else _) as [l|[h ls1]]; [by intros [= <- <- <- <-]|].
    destruct (leases s =? 0); cbn [mbind option_bind].
    + unfold close_park. destruct (_ ≫= park) as [[c []]|]; cbn [mbind option_bind]; [done| |done]. intros [= <- <- <- <-].
      change (provs (update i (add_lease 1) (update i (set_park (Some (c, true))) p)) = provs p ∧ @nil nat = []). by rewrite !provs_update.
    + intros [= <- <- <- <-]. change (provs (update i (add_lease 1) p) = provs p ∧ @nil nat = []). by rewrite !provs_update.
  - destruct (startingWithRoomLocked p) as [i|], (Limit_take _ _) as [l|[h ls1]]; intros [= <- <- <- <-]; try done.
    + change (provs (update i (add_lease 1) p) = provs p ∧ @nil nat = []). by rewrite !provs_update.
    + split; [|done]. etrans; [apply (provs_grow p 1 (newSlot OnDemand 1) Hb)|]. cbn. lia.
Qed.

Lemma end_kept discard now i h ls p ts ls' p' stop replace watch :
  site_ok p (Leasing i h :: ts) → kept p (Leasing i h :: ts) → end_ discard now i h ls p = Some (ls', p', stop, replace, watch) →
  kept p' ((Stopping (if stop : bool then [i] else []) replace :: match watch with Some c => [Watching i c] | None => [] end) ++ ts).
Proof.
  intros H Hk. destruct (slot_known RLease _ _ _ i H (at_eq i)) as (s & Hs & Ho). unfold end_. rewrite Hs. cbn [mbind option_bind].
  set (p1 := update i (add_lease (-1)) p). assert (provs p1 = provs p) as E1 by (by apply provs_update).
  assert (topping_up (Leasing i h :: ts) → ∀ t w, topping_up ((t :: w) ++ ts)) as Ht.
  { intros (is_ & [?|Hin]%elem_of_cons) t w; [done|]. exists is_. apply elem_of_app. by right. }
  destruct (is_gone (add_lease (-1) s)) eqn:Hg; [intros [= <- <- <- <- <-]; eapply kept_frame; [exact Hk|done..|]; auto|].
  destruct (discard || retired p1 || excessProvisionedLocked p1 (add_lease (-1) s) || expiredLocked p1 (add_lease (-1) s) now) eqn:Hc.
  - intros [= <- <- <- <- <-]. intros Hex Hr Hca Hpe. cbn in Hex, Hr, Hca, Hpe. destruct (Hk Hex Hr Hca Hpe) as [Hle|?]; [|right; auto].
    assert (i ∈ slots p) as Hin by (apply (so_listed _ _ _ _ Ho); intros Hst; unfold is_gone in Hg; cbn in Hg; by rewrite Hst in Hg).
    assert (provs (removeLocked i (update i (set_state gone) p1)) = provs p - b2z (is_provisioned s)) as E2.
    { rewrite provs_remove by done. rewrite provs_update, E1 by done. f_equal. unfold prov_at. cbn. rewrite !list_lookup_alter_eq, Hs. done. }
    change (provRequested (prov p) ≤ provs (removeLocked i (update i (set_state gone) p1)) ∨ topping_up (((Stopping (if leases (add_lease (-1) s) =? 0 then [i] else []) (discard && is_provisioned s && negb (retired p))) :: []) ++ ts)).
    rewrite E2. unfold is_provisioned in *. destruct (kind s) eqn:Hki; cbn [b2z]; [left; lia|]. destruct discard; cbn [orb andb] in Hc |- *.
    + right. rewrite Hr. eexists. apply elem_of_app. left. left.
    + left. change (retired p1) with (retired p) in Hc. rewrite Hr in Hc. cbn [orb] in Hc. unfold excessProvisionedLocked, is_provisioned, expiredLocked in Hc.
      cbn [kind add_lease] in Hc. rewrite Hki in Hc. change (Expires (opts p1)) with (Expires (opts p)) in Hc. rewrite Hex, orb_false_r in Hc.
      assert (have p1 = provs p) as E3; [|change (prov p1) with (prov p) in Hc; lia]. rewrite <- E1. apply have_provs. cbn. intros j s' Hj Hs'.
      apply alter_cases in Hs' as [[_ Hs']|(y & -> & -> & Hs')]; [by eapply (site_listed _ _ H)|]. unfold is_gone. cbn. by eapply (site_listed _ _ H) in Hs'.
  - destruct (leases (add_lease (-1) s) =? 0); intros [= <- <- <- <- <-]; (eapply kept_frame; [exact Hk|done|done|done|done| |by auto]); [|done].
    etrans; [|exact E1]. apply (provs_update i (set_park (Some (chans p1, false))) p1). done.
Qed.

Lemma topUp_kept p ts b new p' : site_ok p (Stopping [] b :: ts) → topUp p = (new, p') → kept p' (map Provisioning_start new ++ ts).
Proof.
  intros H. unfold topUp. destruct (retired p || (if provErr (prov p) then true else false)) eqn:Hc.
  - intros [= <- <-] _ Hr _ He. rewrite Hr, He in Hc. done.
  - intros [= <- <-] _ _ _ _. left. set (n := Z.to_nat _).
    change (provRequested (prov p) ≤ provs (with_slots (slots p ++ seq (length (heap p)) n) (with_heap (heap p ++ replicate n (newSlot Provisioned 0)) p))).
    rewrite provs_grow by (by eapply site_bounded). cbn. unfold n. rewrite (have_provs p) by (by eapply site_listed). lia.
Qed.

Lemma provision_done_kept p ts i e stop p' :
  site_ok p (Provisioning_start i :: ts) → kept p (Provisioning_start i :: ts) → provision_done i e p = (stop, p') →
  kept p' ((if stop : bool then Stopping [i] false else Watching i (chans p)) :: ts).
Proof.
  intros H Hk. destruct (slot_known RProvision _ _ _ i H (at_eq i)) as (s & Hs & Ho). unfold provision_done.
  set (p1 := update i (set_env e) p). assert (provs p1 = provs p) as E1 by (by apply provs_update).
  assert (∀ t, topping_up (Provisioning_start i :: ts) → topping_up (t :: ts)) as Ht.
  { intros t (is_ & [?|Hin]%elem_of_cons); [done|]. exists is_. by right. }
  assert (is_starting s && is_provisioned s = true) as [Hst Hki]%andb_true_iff.
  { pose proof (so_prov _ _ _ _ Ho) as Hp. rewrite cnt_cons in Hp. cbn [weight] in Hp. rewrite at_eq in Hp. pose proof (cnt_nonneg RProvision i ts).
    destruct (is_starting s && is_provisioned s); [done|]. cbn in Hp. lia. }
  destruct (retired p1 || _) eqn:Hc; intros [= <- <-].
  - intros Hex Hr Hca Hpe. cbn in Hr. change (retired p1) with (retired p) in Hc. rewrite Hr in Hc. cbn [orb] in Hc. left.
    assert (i ∈ slots p) as Hin by (apply (so_listed _ _ _ _ Ho); unfold is_starting in Hst; by destruct (state s)).
    change (provRequested (prov p) ≤ provs (removeLocked i (update i (set_state gone) p1))). rewrite provs_remove by done. rewrite provs_update, E1 by done.
    assert (have p1 = provs p) as E3; [|unfold prov_at; cbn [heap update with_heap p1]; rewrite !list_lookup_alter_eq, Hs; change (prov p1) with (prov p) in Hc].
    + rewrite <- E1. apply have_provs. cbn. intros j s' Hj Hs'.
      apply alter_cases in Hs' as [[_ Hs']|(y & -> & -> & Hs')]; [by eapply (site_listed _ _ H)|]. unfold is_gone. cbn. by eapply (site_listed _ _ H) in Hs'.
    + rewrite E3 in Hc. cbn [fmap option_fmap option_map]. change (is_provisioned (set_state gone (set_env e s))) with (is_provisioned s). rewrite Hki. cbn. lia.
  - eapply kept_frame; [exact Hk|done..| |auto]. etrans; [|exact E1]. etrans; [apply (provs_update i (set_park (Some (chans p1, false))) (update i (set_state ready) p1)); done|by apply provs_update].
Qed.

Lemma removed_kept p ts ts' i f :
  kept p ts → (∀ s, kind (f s) = kind s) → (∀ s, heap p !! i = Some s → is_provisioned s = false) → (topping_up ts → topping_up ts') →
  kept (notifyLocked (removeLocked i (update i f p))) ts'.
Proof.
  intros Hk Hf Hs Ht. eapply kept_frame; [exact Hk|done..| |done].
  change (provs (removeLocked i (update i f p)) = provs p). rewrite <- (provs_update i f p Hf). set (q := update i f p).
  assert (prov_at q i = 0) as E1.
  { unfold prov_at, q. cbn. rewrite list_lookup_alter_eq. destruct (heap p !! i) as [s|] eqn:E2; cbn; [|done]. specialize (Hs _ eq_refl). unfold is_provisioned in *. by rewrite Hf, Hs. }
  destruct (decide (i ∈ slots q)) as [Hi|Hi]; [rewrite provs_remove by done; lia|].
  unfold provs, removeLocked. cbn [slots with_slots]. by rewrite remove_first_none.
Qed.

Lemma move_kept patient ls p tk ls' p' nw ts :
  move patient ls p tk ls' p' nw → site_ok p (tk ++ ts) → kept p (tk ++ ts) → kept p' (nw ++ ts).
Proof.
  intros Hm H Hk.
  assert (∀ q nw, provs q = provs p → opts q = opts p ∧ canceled q = canceled p ∧ retired q = retired p ∧ prov q = prov p → (topping_up tk → topping_up nw) → kept q (nw ++ ts)) as Hsame.
  { intros q nw' Hp (? & ? & ? & ?) Ht. eapply kept_frame; [exact Hk|done..|]. by apply topping_app. }
  assert (∀ t, (∀ b, t ≠ Stopping b true) → ¬ topping_up [t]) as Hno by (intros t Ht (is_ & ?%list_elem_of_singleton); by eapply Ht).
  destruct Hm as [? ? ? ? ? ? ? ? Ha| | |? ? ? ? ? Hs Hst He|? ? ? ? ? ? Hs Hst He|? ? ? ? ? Hs Hst|? ? ?|? ? ? ? ? ? ? ? ? ? ? He|? ? ? ? ? ? Hw Hd|? ? ? ? ? ? ? ? Hd|? ? ? ? ?| |? ? ? ? Hu|? ? ? ? ? ? Hd|? ? ? ?|? ? ? ? ? ? _ Hv|? ? ? ? ? Hr| |]; cbn [app] in *.
  - intros Hex. assert (Expires (opts p) = None) as Hex0 by (apply Acquire_effect in Ha as (_ & (<- & _) & _); done).
    destruct (Acquire_provs _ _ _ _ _ _ _ _ (site_bounded _ _ H) Hex0 Ha) as [E1 ->]. apply Acquire_effect in Ha as (_ & (? & ? & ? & ? & _) & _).
    revert Hex. apply Hsame; [done|done|]. by intros (? & ?%elem_of_nil).
  - apply (Hsame _ [Leasing i h]); [by apply (provs_update i (set_started e))|by repeat split|]. intros Ht. by apply Hno in Ht.
  - destruct (slot_known RStart _ _ _ i H (at_eq i)) as (s & Hs & Ho). unfold start_failed. eapply removed_kept; [exact Hk|done| |].
    + intros s' [= <-]%(eq_trans (eq_sym Hs)). pose proof (so_start _ _ _ _ Ho) as Hp. rewrite cnt_cons in Hp. cbn [weight] in Hp. rewrite at_eq in Hp.
      pose proof (cnt_nonneg RStart i ts). destruct (is_provisioned s); [|done]. rewrite andb_false_r in Hp. cbn in Hp. lia.
    + apply (topping_app [Releasing h] [Starting i h]). intros Ht. by apply Hno in Ht.
  - apply (Hsame _ [Leasing i h]); [done|by repeat split|]. intros Ht. by apply Hno in Ht.
  - apply (Hsame _ [Releasing h]); [by apply provs_update|by repeat split|]. intros Ht. by apply Hno in Ht.
  - apply (Hsame _ [Releasing h]); [by apply provs_update|by repeat split|]. intros Ht. by apply Hno in Ht.
  - apply (Hsame _ []); [done|by repeat split|]. intros Ht. by apply Hno in Ht.
  - by eapply end_kept.
  - apply (Hsame _ []); [done|by repeat split|]. intros Ht. by apply Hno in Ht.
  - unfold watch_done in Hd. destruct (heap p !! i) as [s|] eqn:Hs; [|done]. destruct (bool_decide _ || negb _) eqn:Hi; [done|]. destruct (negb exited && _); [done|].
    destruct (drop_idle i p) as [p1|] eqn:Ed; [|done]. cbn [mbind option_bind] in Hd. injection Hd as <- <-. apply orb_false_iff in Hi as [_ Hi%negb_false_iff].
    pose proof (slot_of _ _ _ _ H Hs) as Ho. assert (i ∈ slots p) as Hin by (apply (so_listed _ _ _ _ Ho); unfold idle, is_ready in Hi; by destruct (state s)).
    pose proof (drop_idle_provs _ _ _ _ Ed Hs Hin) as Ep. apply drop_idle_same in Ed as (E1 & E2 & E3 & E4 & _). intros Hex Hre Hca Hpe. cbn in Hex, Hre, Hca, Hpe.
    rewrite E1 in Hex. rewrite E3 in Hre. rewrite E2 in Hca. rewrite E4 in Hpe.
    change (provRequested (prov p1) ≤ provs p1 ∨ topping_up (Stopping [i] (is_provisioned s && negb (retired p1)) :: ts)). rewrite Ep, E3, E4, Hre.
    destruct (is_provisioned s); cbn [b2z andb negb]; [right; exists [i]; left|]. destruct (Hk Hex Hre Hca Hpe) as [?|(is_ & [?|?]%elem_of_cons)]; [left; lia|done|right; exists is_; by right].
  - apply (Hsame _ [Stopping is_ b]); [done|by repeat split|]. intros (is1 & [= _ <-]%list_elem_of_singleton). exists is_. left.
  - apply (Hsame _ []); [done|by repeat split|]. intros Ht. by apply Hno in Ht.
  - by eapply topUp_kept.
  - by eapply provision_done_kept.
  - unfold provision_failed. set (q := removeLocked _ _). change (canceled q) with (canceled p). change (retired q) with (retired p).
    intros Hex Hre Hca Hpe. destruct (canceled p) eqn:Ec, (retired p) eqn:Er; cbn in *; congruence.
  - unfold Provision in Hv. destruct (retired p) eqn:Er; [by simplify_eq|]. destruct (Limit_reserve _ _ n) as [l|[h ls1]].
    + destruct (Limit_reserve _ _ _) as [?|[? ?]]; simplify_eq/=; exact Hk.
    + destruct (drop_excess _ _ _) as [[? p2]|] eqn:Ed; simplify_eq/=. intros _ _ _ _. right. eexists. left.
  - unfold Retire in Hr. destruct (retired p) eqn:Er; [by simplify_eq|]. destruct (drop_all _ _ _) as [[? p2]|] eqn:Ed; simplify_eq/=.
    apply drop_all_same in Ed as (_ & _ & E1 & _). intros _ Hre. cbn in Hre, E1. congruence.
  - intros _ _ Hca. done.
  - intros _ _ Hca. done.
Qed.

(** ** The pools of a world *)

Definition pool_ok (patient : bool) (p : Pool E Err) (ts : list thread) : Prop :=
  patient = true ∨ PerEnvironment (opts p) = 1 → site_ok p ts ∧ retired_ok p ∧ kept p ts.

Lemma new_pool_ok patient o : pool_ok patient (New o) [].
Proof.
  intros _. split_and!; [split; [apply NoDup_nil_2| |by intros _ i h ?%elem_of_nil]|done|by left].
  intros i. unfold slot_at. cbn. split_and!; [by intros ?%elem_of_nil|done|done].
Qed.

Lemma pool_ok_step patient w w' :
  (∀ k p ts, pools w !! k = Some (p, ts) → pool_ok patient p ts) → step patient w w' →
  ∀ k p ts, pools w' !! k = Some (p, ts) → pool_ok patient p ts.
Proof.
  intros Hw Hs. destruct Hs as [| |ls ps o Hb|ls ps k p ts tk rest ls' p' nw Hk Hts Hm]; cbn in *; [done|done| |].
  - intros k p ts [Hk|(_ & Heq)]%lookup_app_Some; [by eapply Hw|]. apply list_lookup_singleton_Some in Heq as [_ [= <- <-]]. apply new_pool_ok.
  - intros k' p2 ts2 Hk2. destruct (decide (k = k')) as [->|Hne]; [|rewrite list_lookup_insert_ne in Hk2 by done; by eapply Hw].
    rewrite list_lookup_insert_eq in Hk2 by (by eapply lookup_lt_Some). injection Hk2 as <- <-. intros Hpat.
    rewrite (proj1 (move_static _ _ _ _ _ _ _ Hm)) in Hpat. destruct (Hw _ _ _ Hk Hpat) as (H1 & H2 & H3).
    assert (site_ok p (tk ++ rest)) as H1' by (by eapply site_ok_perm).
    assert (kept p (tk ++ rest)) as H3'. { eapply kept_frame; [exact H3|done..|]. intros (is_ & Hin). exists is_. by rewrite <- Hts. }
    split_and!; [by eapply move_site_ok|by eapply move_retired_ok|by eapply move_kept].
Qed.

Lemma pool_ok_reachable patient w k p ts : reachable patient w → pools w !! k = Some (p, ts) → pool_ok patient p ts.
Proof.
  intros Hr. revert k p ts. unfold reachable in Hr. remember empty_world as w0 eqn:E0.
  assert (∀ k p ts, pools w0 !! k = Some (p, ts) → pool_ok patient p ts) as H0 by (subst; done).
  clear E0. induction Hr as [|? ? ? Hs ? IH]; [done|]. by eapply IH, (pool_ok_step patient x).
Qed.

Lemma settled_count p ts :
  site_ok p ts → (∀ i, Provisioning_start i ∉ ts) → count (λ s, is_provisioned s && is_ready s) p = provs p.
Proof.
  intros H Hn. unfold count, members, provs. rewrite total_omap. apply total_ext. intros i Hi. unfold prov_at.
  destruct (heap p !! i) as [s|] eqn:Hs; [|done]. pose proof (slot_of _ _ _ _ H Hs) as Ho. pose proof (so_prov _ _ _ _ Ho) as Hp.
  assert (cnt RProvision i ts = 0) as Hz.
  { apply total_zero. intros t Ht. destruct t; try done. cbn. destruct (decide (i0 = i)) as [->|?]; [by apply Hn in Ht|by apply at_ne]. }
  apply (so_listed _ _ _ _ Ho) in Hi. rewrite Hz in Hp. unfold is_starting, is_ready in *. destruct (is_provisioned s); [|done]. by destruct (state s).
Qed.

(** ** Theorems *)

(** [C20] In every state the pools of a process reach, whatever the order of
    invocations, cancellations, provisioning and changes of the caps, the units in
    use at a limit are exactly those held by calls that start, wait for, hold or are
    giving back an environment, and its reserved units exactly the sum of what the
    pools record as reserved there ([provReserved]): none is leaked and none is given
    back twice. How many provisioned environments a pool has is another matter: after
    a refused [Provision] it may hold more than it has reserved. *)
Theorem limits_account_for_every_unit patient w j l :
  reachable patient w → the_limits w !! j = Some l →
  inUse l = total (λ '(_, ts), holds j ts) (pools w) ∧ reserved l = total (λ '(p, _), reservation j p) (pools w) ∧ 0 ≤ inUse l ∧ 0 ≤ reserved l.
Proof.
  intros Hr%units_ok_reachable Hl. destruct (accounted _ Hr _ _ Hl) as [-> ->]. split_and!; [done..| |].
  - apply total_nonneg. intros [p ts]. apply total_nonneg. intros t. unfold delta. case_bool_decide; lia.
  - destruct Hr as [_ Hk _]. revert Hk. generalize (length (the_limits w)). induction (pools w) as [|[p ts] ps IH]; intros n Hk; cbn; [done|].
    destruct (Hk 0%nat _ _ eq_refl) as [(_ & Hp & _) _]. specialize (IH n (λ k, Hk (S k))). unfold reservation at 1, delta. case_bool_decide; lia.
Qed.

(** A unit is refused exactly when the nearest bounded limit is full. *)
Lemma take_refused (ls : limits) i k :
  (∀ j l, ls !! j = Some l → below (parent l) j) → (i < length ls)%nat →
  Limit_take ls (Some i) = inl k ↔ nearest ls (Some i) (Some k) ∧ ∃ b, ls !! k = Some b ∧ max b ≤ load b.
Proof.
  intros Hpar Hi.
  pose proof (owner_nearest ls (Some i) (length ls) Hpar Hi Hi) as Hn. unfold Limit_take. cbn [mbind option_bind]. unfold owner.
  destruct (owner_loop _ _ _) as [o|] eqn:Eo; [|split; [done|intros [Hk _]; by pose proof (nearest_det _ _ _ _ Hn Hk)]].
  assert (∃ b, ls !! o = Some b ∧ 0 ≤ max b) as (b & Hb & Hbm).
  { remember (Some o) as so eqn:E1. clear -Hn E1. induction Hn; simplify_eq; eauto. }
  rewrite Hb. unfold load. split.
  - destruct (_ && _) eqn:Hc; intros [= <-]. split; [done|]. exists b. split; [done|]. lia.
  - intros [Hk (b' & Hb' & Hle)]. pose proof (nearest_det _ _ _ _ Hn Hk) as [= ->]. simplify_eq. destruct (_ && _) eqn:Hc; [done|]. lia.
Qed.

(** An invocation is throttled exactly when it needs a unit, no provisioned
    environment serving it, and the unit is refused. *)
Lemma Acquire_throttled now now' ls (p p1 : pool) expired k :
  retired p = false → stopExpiredLocked now p = Some (expired, p1) →
  Acquire now now' ls p = Some (Throttled k, ls, p1, expired) ↔
  (∀ i s, pickLocked p1 now' = Some i → heap p1 !! i = Some s → is_provisioned s = false) ∧
  Limit_take ls (LimitOf (opts p)) = inl k.
Proof.
  intros Hr Hx. unfold Acquire. rewrite Hr, Hx. cbn [mbind option_bind].
  assert (opts p1 = opts p) as -> by (by apply drop_all_same in Hx as (-> & _)).
  destruct (pickLocked p1 now') as [i|] eqn:Ep.
  - apply picked_has_room in Ep as [?|(_ & s & Hs & _)]; [done|]. rewrite Hs. cbn. destruct (is_provisioned s) eqn:Hk.
    + split; [by destruct (leases s =? 0); [destruct (close_park i p1)|]|]. intros [Hn _]. specialize (Hn i s eq_refl Hs). congruence.
    + destruct (Limit_take ls _) as [l|[h ls1]]; [split; [intros [= ->]; split; [intros; by simplify_eq|done]|by intros [_ [= ->]]]|].
      split; [by destruct (leases s =? 0); [destruct (close_park i p1)|]|by intros [_ ?]].
  - destruct (Limit_take ls _) as [l|[h ls1]]; destruct (startingWithRoomLocked p1); split; try done; try (by intros [_ [= ->]]); by intros [= ->].
Qed.

(** [C21] A limit is not passed: as long as a bounded limit keeps its cap, no run
    brings it above the larger of the cap and what it held at the start, so
    invocations past a lowered cap only drain. A unit is refused exactly when the
    limit that owns the capacity, the nearest bounded one, is full, and the refusal
    names that limit. So an invocation of a pool that is not retired is throttled
    exactly when no provisioned environment that is ready and has room serves it,
    which takes no unit, and the limit that owns its capacity is full. *)
Theorem limit_is_never_passed patient w j l w' :
  reachable patient w → the_limits w !! j = Some l → 0 ≤ max l → rtc (keeps patient j (max l)) w w' →
  (∃ l', the_limits w' !! j = Some l' ∧ load l' ≤ Z.max (load l) (max l)) ∧
  (∀ i k, (i < length (the_limits w))%nat →
    Limit_take (the_limits w) (Some i) = inl k ↔ nearest (the_limits w) (Some i) (Some k) ∧ ∃ b, the_limits w !! k = Some b ∧ max b ≤ load b) ∧
  (∀ (p p1 : pool) expired now now' i k, retired p = false → stopExpiredLocked now p = Some (expired, p1) →
    LimitOf (opts p) = Some i → (i < length (the_limits w))%nat →
    Acquire now now' (the_limits w) p = Some (Throttled k, the_limits w, p1, expired) ↔
    (∀ i s, pickLocked p1 now' = Some i → heap p1 !! i = Some s → is_provisioned s = false) ∧
    nearest (the_limits w) (Some i) (Some k) ∧ ∃ b, the_limits w !! k = Some b ∧ max b ≤ load b).
Proof.
  intros Hr Hl Hm Hrun. apply units_ok_reachable in Hr as Hok. split; [|split].
  - remember (max l) as m eqn:Em.
    assert (∃ l0, the_limits w !! j = Some l0 ∧ max l0 = m ∧ load l0 ≤ Z.max (load l) m) as Hw by (exists l; split_and!; done || lia).
    clear Hr Hl Em. revert Hok Hw. induction Hrun as [w|w w1 w2 Hs _ IH]; intros Hok (l0 & Hl0 & Hm0 & Hb); [by exists l0|].
    subst m. destruct (step_load patient w w1 j l0 Hok Hl0 Hm Hs) as (l1 & Hl1 & Hm1 & Hb1). apply IH; [eapply units_ok_step; [exact Hok|apply Hs]|].
    exists l1. split_and!; [done|done|lia].
  - intros i k. apply take_refused, parents_older, Hok.
  - intros p p1 expired now now' i k Hre Hx Hli Hi. rewrite Acquire_throttled, Hli, take_refused by (done || apply parents_older, Hok). done.
Qed.

(** [C22] Environments have one life. In a pool whose environments serve one
    invocation each, or whose callers take an environment that has started rather
    than give up, no operation panics; an environment's leases are the calls that
    start it, wait for it or hold it, never more than its room; its [Stop] is called
    once it has gone and nothing holds it, and only then and only once; an idle one
    is listed, and watched for its exit. A retired pool that nothing uses any more
    has stopped every environment it started. *)
Theorem environments_stop_once patient w k p ts :
  reachable patient w → pools w !! k = Some (p, ts) → patient = true ∨ PerEnvironment (opts p) = 1 →
  (∀ now now' ls n, Acquire now now' ls p ≠ None ∧ Provision n ls p ≠ None ∧ Retire ls p ≠ None ∧
    (∀ i h discard, Leasing i h ∈ ts → end_ discard now i h ls p ≠ None) ∧ ∀ exited expired i c, watch_done exited expired i c p ≠ None) ∧
  (∀ i s, heap p !! i = Some s →
    leases s = cnt RStart i ts + cnt RJoin i ts + cnt RLease i ts ∧
    (PerEnvironment (opts p) ≠ 0 → leases s ≤ Z.max 1 (PerEnvironment (opts p))) ∧
    occ i (stopped p) + cnt RStop i ts = b2z (is_gone s && (leases s =? 0) && no_err s) ∧
    (idle s = true → i ∈ slots p ∧ ∃ c, park s = Some (c, false) ∧ (canceled p = false → Watching i c ∈ ts)) ∧
    (retired p = true → ts = [] → no_err s = true → occ i (stopped p) = 1)).
Proof.
  intros Hr Hk Hpat. destruct (pool_ok_reachable _ _ _ _ _ Hr Hk Hpat) as (H & Hre & _). split.
  - intros now now' ls n. split_and!.
    + by destruct (Acquire_ok now now' ls p ts H) as (? & ? & ? & ? & -> & _).
    + by destruct (Provision_ok n ls p ts H) as (? & ? & ? & -> & _).
    + by destruct (Retire_ok ls p ts H) as (? & ? & ? & -> & _).
    + intros i h discard (ts1 & ts2 & ->)%list_elem_of_split.
      destruct (end_ok discard now i h ls p (ts1 ++ ts2)) as (? & ? & ? & ? & ? & -> & _); [|done]. eapply site_ok_perm; [|exact H]. symmetry. apply Permutation_middle.
    + intros exited expired i c. unfold watch_done. destruct (heap p !! i) as [s|] eqn:Hs; [|done]. destruct (bool_decide _ || negb (idle s)) eqn:Hi; [done|].
      destruct (negb exited && _); [done|]. apply orb_false_iff in Hi as [_ Hi%negb_false_iff]. by destruct (drop_idle_ok _ _ _ _ H Hs Hi) as (? & -> & _).
  - intros i s Hs. pose proof (slot_of _ _ _ _ H Hs) as Ho. split_and!; [apply Ho|apply Ho|pose proof (so_stop _ _ _ _ Ho); lia| |].
    + intros Hi. split; [|by apply (so_park _ _ _ _ Ho)]. apply (so_listed _ _ _ _ Ho). unfold idle, is_ready in Hi. by destruct (state s).
    + intros Hret -> Hne. specialize (Hre Hret _ _ Hs). destruct Ho as [F1 F2 F3 F4 F5 F6 F7 F8 F9 F10 F11 F12 F13]. cbn in F1, F3, F4, F11.
      unfold idle, is_ready, is_starting, is_gone, is_provisioned in *. rewrite F1, Hne in *. by destruct (state s), (kind s).
Qed.

(** [C23] Provisioned environments are kept. In a pool whose environments serve one
    invocation each, or whose callers take an environment that has started rather
    than give up, which has no expiry hook ([Expires] is nil), is not retired, whose
    context is not cancelled and which records no failed provisioned start, once the
    goroutines that top it up and start environments are done, at least the requested
    number of provisioned environments has initialised: the pool reports all of them
    allocated, and ready to serve. *)
Theorem provisioned_environments_are_kept patient w k p ts :
  reachable patient w → pools w !! k = Some (p, ts) → patient = true ∨ PerEnvironment (opts p) = 1 →
  Expires (opts p) = None → retired p = false → canceled p = false → provErr (prov p) = None →
  (∀ is_, Stopping is_ true ∉ ts) → (∀ i, Provisioning_start i ∉ ts) →
  Allocated (Provisioning_ p) = Requested (Provisioning_ p) ∧ Ready (Provisioning_ p) = negb (provRequested (prov p) =? 0).
Proof.
  intros Hr Hk Hpat Hex Hre Hca Hpe Hst Hpr. destruct (pool_ok_reachable _ _ _ _ _ Hr Hk Hpat) as (H & _ & Hkept).
  destruct (Hkept Hex Hre Hca Hpe) as [Hle|(is_ & Hin)]; [|by apply Hst in Hin].
  unfold Provisioning_, provisionedReadyLocked. cbn [Allocated Requested Ready]. rewrite (settled_count _ _ H Hpr), Hpe. cbn. rewrite orb_false_r.
  split; [lia|]. destruct (provRequested (prov p) =? 0); [done|]. cbn. apply Z.leb_le. done.
Qed.

End Run.

(** ** A run *)

(** A pool of environments that serve one invocation each, under a limit of two: one
    is provisioned, another is leased. *)
Definition w_limits : limits := [MkLimit None 2 1 1].
Definition w_slot (k : Kind) (n : Z) (c : option (nat * bool)) : slot nat unit := MkSlot k ready (Some 7%nat) n true None c.
Definition w_pool : Pool nat unit :=
  MkPool (MkOptions (Some 0%nat) 1 None) false [w_slot OnDemand 1 None; w_slot Provisioned 0 (Some (0%nat, false))] [0; 1]%nat false 5 1
    (MkProvision 1 (Some 0%nat) 1 None) [].
Definition w_world : world := MkWorld w_limits [(w_pool, [Watching 1 0; Leasing 0 (Some 0%nat)])].

(** One step of the first pool: the threads it takes, the others, and how. *)
Tactic Notation "then_move" constr(tk) constr(rest) tactic3(t) :=
  eapply rtc_l; [eapply (step_move _ _ _ 0%nat _ _ tk rest); [reflexivity|reflexivity|t]|]; lazy.

Lemma w_pools_reachable : reachable true w_world.
Proof.
  unfold reachable. eapply rtc_l; [apply (step_NewLimit _ [] [] None 2); done|].
  eapply rtc_l; [apply (step_New _ _ _ (MkOptions (Some 0%nat) 1 None)); cbn; lia|]. lazy.
  then_move (@nil thread) (@nil thread) (eapply (move_acquire _ _ _ 0 0); lazy; reflexivity).
  then_move [Starting 0 (Some 0%nat)] (@nil thread) (apply (move_started _ _ _ 0 _ 7%nat)).
  then_move (@nil thread) [Leasing 0 (Some 0%nat)] (eapply (move_Provision _ _ _ 1); [lia|lazy; reflexivity]).
  then_move [Stopping [] true] [Leasing 0 (Some 0%nat)] (eapply move_topUp; lazy; reflexivity).
  then_move [Provisioning_start 1] [Leasing 0 (Some 0%nat)] (eapply (move_provisioned _ _ _ 1 7%nat); lazy; reflexivity).
  apply rtc_refl.
Qed.

(** The lease ends, and its environment is parked. *)
Definition w_pool' : Pool nat unit :=
  MkPool (MkOptions (Some 0%nat) 1 None) false [w_slot OnDemand 0 (Some (1%nat, false)); w_slot Provisioned 0 (Some (0%nat, false))] [0; 1]%nat false 6 2
    (MkProvision 1 (Some 0%nat) 1 None) [].
Definition w_world' : world := MkWorld [MkLimit None 2 0 1] [(w_pool', [Stopping [] false; Watching 0 1; Watching 1 0])].

Lemma w_run : rtc (keeps true 0 2) w_world w_world'.
Proof.
  eapply rtc_l; [|apply rtc_refl]. split; [|done].
  apply (step_move true w_limits [(w_pool, [Watching 1 0; Leasing 0 (Some 0%nat)])] 0%nat w_pool [Watching 1 0; Leasing 0 (Some 0%nat)]
    [Leasing 0 (Some 0%nat)] [Watching 1 0] [MkLimit None 2 0 1] w_pool' [Stopping [] false; Watching 0 1]);
    [done|apply perm_swap|]. apply (move_end _ _ _ false 0 0 _ _ _ false false (Some 1%nat)). lazy. reflexivity.
Qed.

Lemma limits_account_for_every_unit_witness :
  reachable true w_world ∧ the_limits w_world !! 0%nat = Some (MkLimit None 2 1 1) ∧
  1 = total (λ '(_, ts), holds 0 ts) (pools w_world) ∧ 1 = total (λ '(p, _), reservation 0 p) (pools w_world).
Proof.
  assert (the_limits w_world !! 0%nat = Some (MkLimit None 2 1 1)) as Hl by reflexivity.
  destruct (limits_account_for_every_unit true w_world 0 _ w_pools_reachable Hl) as (H1 & H2 & _). split; [exact w_pools_reachable|]. split; [exact Hl|]. split; [exact H1|exact H2].
Defined.

Lemma limit_is_never_passed_witness :
  reachable true w_world ∧ rtc (keeps true 0 2) w_world w_world' ∧ ∃ l', the_limits w_world' !! 0%nat = Some l' ∧ load l' ≤ Z.max 2 2.
Proof.
  assert (the_limits w_world !! 0%nat = Some (MkLimit None 2 1 1)) as Hl by reflexivity.
  destruct (limit_is_never_passed true w_world 0 _ w_world' w_pools_reachable Hl ltac:(done) w_run) as [H1 _]. split; [exact w_pools_reachable|]. split; [exact w_run|exact H1].
Defined.

Lemma environments_stop_once_witness :
  reachable true w_world ∧ ∃ p ts, pools w_world !! 0%nat = Some (p, ts) ∧ Acquire 0 0 (the_limits w_world) p ≠ None ∧
    (∀ s, heap p !! 0%nat = Some s → leases s = cnt RStart 0 ts + cnt RJoin 0 ts + cnt RLease 0 ts).
Proof.
  assert (pools w_world !! 0%nat = Some (w_pool, [Watching 1 0; Leasing 0 (Some 0%nat)])) as Hk by reflexivity.
  destruct (environments_stop_once true w_world 0 _ _ w_pools_reachable Hk (or_introl eq_refl)) as [H1 H2].
  split; [exact w_pools_reachable|]. eexists _, _. split; [exact Hk|]. split; [exact (proj1 (H1 0 0 (the_limits w_world) 0))|]. intros s Hs. exact (proj1 (H2 0%nat s Hs)).
Defined.

Lemma provisioned_environments_are_kept_witness :
  reachable true w_world ∧ Allocated (Provisioning_ w_pool) = Requested (Provisioning_ w_pool) ∧ Ready (Provisioning_ w_pool) = true.
Proof.
  split; [exact w_pools_reachable|].
  apply (provisioned_environments_are_kept true w_world 0 w_pool [Watching 1 0; Leasing 0 (Some 0%nat)] w_pools_reachable eq_refl (or_introl eq_refl) eq_refl eq_refl eq_refl eq_refl).
  - intros is_ [?|[?|?%elem_of_nil]%elem_of_cons]%elem_of_cons; done.
  - intros i [?|[?|?%elem_of_nil]%elem_of_cons]%elem_of_cons; done.
Defined.

(** ** Behaviour that is not meant *)

(** A pool whose environments serve every invocation. One call starts an environment
    and a second waits for it; the start is done and the first call releases its
    lease, and the second call, both its channels ready, gives up. The environment
    is left idle and not parked. *)
Definition j_pool : Pool nat unit :=
  MkPool (MkOptions None 0 None) false [w_slot OnDemand 0 None] [0%nat] false 4 0 (MkProvision 0 None 0 None) [].
Definition j_world : world := MkWorld [] [(j_pool, [Releasing None; Stopping [] false])].

Lemma j_reachable : reachable false j_world.
Proof.
  unfold reachable. eapply rtc_l; [apply (step_New _ _ _ (MkOptions None 0 None)); done|]. lazy.
  then_move (@nil thread) (@nil thread) (eapply (move_acquire _ _ _ 0 0); lazy; reflexivity).
  then_move (@nil thread) [Starting 0 None] (eapply (move_acquire _ _ _ 0 0); lazy; reflexivity).
  eapply rtc_l; [eapply (step_move _ _ _ 0%nat _ _ [Starting 0 None] [Joining 0 None]); [reflexivity|apply perm_swap|apply (move_started _ _ _ 0 _ 7%nat)]|]; lazy.
  then_move [Leasing 0 None] [Joining 0 None] (eapply (move_end _ _ _ false 0); lazy; reflexivity).
  eapply rtc_l; [eapply (step_move _ _ _ 0%nat _ _ [Joining 0 None] [Stopping [] false]); [reflexivity|apply perm_swap|eapply move_join_canceled; [reflexivity|done]]|]; lazy.
  apply rtc_refl.
Qed.

(** A caller that stops waiting for a shared environment once it has started breaks
    the pool: the next [Acquire] and [Retire] close a nil channel and panic. *)
Example canceled_wait_panics :
  reachable false j_world ∧ pools j_world !! 0%nat = Some (j_pool, [Releasing None; Stopping [] false]) ∧ Acquire 0 0 [] j_pool = None ∧ Retire [] j_pool = None.
Proof. split; [exact j_reachable|]. split_and!; reflexivity. Qed.

(** An environment provisioned until time 5, past it. *)
Definition x_pool : Pool nat unit :=
  MkPool (MkOptions None 1 (Some (λ _, Some 5))) false [w_slot Provisioned 0 (Some (0%nat, false))] [0%nat] false 3 1 (MkProvision 1 None 1 None) [].

(** An [Acquire] that finds a provisioned environment expired stops it, and nothing
    replaces it: the pool is left one short, without an error and without a
    goroutine that tops it up. *)
Example expired_provisioned_is_not_replaced :
  match Acquire 6 6 [] x_pool with
  | Some (r, _, p, expired) => (r, expired, provRequested (prov p), have p, provErr (prov p), Ready (Provisioning_ p)) = (Starts 1 None, [0%nat], 1, 0, None, false)
  | None => False
  end.
Proof. reflexivity. Qed.

(** A pool with two provisioned environments, whose limit was then lowered to one. *)
Definition r_pool : Pool nat unit :=
  MkPool (MkOptions (Some 0%nat) 1 None) false [w_slot Provisioned 0 (Some (0%nat, false)); w_slot Provisioned 0 (Some (1%nat, false))] [0; 1]%nat false 4 2
    (MkProvision 2 (Some 0%nat) 2 None) [].

(** A refused [Provision] gives the earlier reservation back and cannot take it
    again: the two environments go on serving and hold no unit of the limit. *)
Example refused_provision_loses_the_reservation :
  match Provision 3 (SetMax 0 1 [MkLimit None 2 0 2]) r_pool with
  | Some (r, ls, p) => (r, ls, provReserved (prov p), have p, Ready (Provisioning_ p)) = (ProvThrottled 0, [MkLimit None 1 0 0], 0, 2, true)
  | None => False
  end.
Proof. reflexivity. Qed.
