(* ===== verification/Slots.v ===== *)
(** * Hash slots of a cache cluster: [src/sim/cacheengine/slots.go]

    A Redis cluster divides its keys into 16384 hash slots by a checksum of the key
    or of its hash tag, and its slots among its primaries. When shards come or go,
    [PlanSlotMoves] decides which slots move where. The file proves that every key
    belongs to one shard and that keys with one hash tag stay together, that the
    checksum is the remainder of CRC-16/XMODEM, that the slots a node reports are
    read back, and that a plan moves each slot at most once, from its owner, and
    leaves every primary its exact share. Moving a slot's keys is Redis's work.
    [sort.Slice] is not stable; the slots it sorts by are distinct, so its result is
    the one the stable sort gives. *)

From Stdlib Require Import Ascii.
From S2P Require Import Prelude Gostd.

Definition ClusterSlots : Z := 16384.
Definition slotBatch : Z := 512.

(** [None] is the panic of a division by zero. *)
Definition SlotRange (shard shards : Z) : option (Z * Z) :=
  if shards =? 0 then None
  else Some (Z.quot (shard * ClusterSlots) shards, Z.quot ((shard + 1) * ClusterSlots) shards - 1).

(** ** Keys *)

(** 16-bit integers: a shift drops the bits above. *)
Definition crc_bit (crc : Z) : Z :=
  let shifted := Z.shiftl crc 1 mod 2 ^ 16 in
  if Z.land crc 0x8000 =? 0 then shifted else Z.lxor shifted 0x1021.

Definition crc_byte (crc b : Z) : Z := Nat.iter 8 crc_bit (Z.lxor crc (Z.shiftl b 8)).

Definition crc16 (data : list Z) : Z := foldl crc_byte 0 data.

Definition hash_tag (key : string) : string :=
  match Cut key "{" with
  | Some (_, rest) => match Cut rest "}" with Some (tag, _) => if String.eqb tag "" then key else tag | None => key end
  | None => key
  end.

Definition KeySlot (key : string) : Z := crc16 (map byte_of (chars (hash_tag key))) mod ClusterSlots.

(** ** The slots a node reports *)

Definition slot_field (field : string) : option (list Z) :=
  match Cut field "-" with
  | Some (first, last) =>
      low ← Atoi first; high ← Atoi last; Some (seqZ low (high - low + 1))
  | None => low ← Atoi field; Some [low]
  end.

Fixpoint slot_fields (fields : list string) : option (list Z) :=
  match fields with
  | [] => Some []
  | f :: fs => if HasPrefix f "[" then slot_fields fs else s ← slot_field f; r ← slot_fields fs; Some (s ++ r)
  end.

(** [None] is the error of a field that is no range. *)
Definition SlotList (fields : list string) : option (list Z) := SliceStable Z.ltb <$> slot_fields fields.

(** ** Plans *)

Record SlotMove := MkMove { From : Z; To : Z; Slots : list Z }.

Section Plan.
Context (owned : gmap Z (list Z)).

Definition owned_by (node : Z) : list Z := default [] (owned !! node).
Definition holds (node : Z) : Z := Z.of_nat (length (owned_by node)).

Definition share_at (n i : Z) : Z := Z.quot ClusterSlots n + (if i <? Z.rem ClusterSlots n then 1 else 0).

Fixpoint share_loop (n i : Z) (primaries : list Z) (share : gmap Z Z) : gmap Z Z :=
  match primaries with
  | [] => share
  | node :: l => share_loop n (i + 1) l (<[node := share_at n i]> share)
  end.

Definition shares (primaries : list Z) : gmap Z Z := share_loop (Z.of_nat (length primaries)) 0 primaries ∅.
Definition share (primaries : list Z) (node : Z) : Z := default 0 (shares primaries !! node).

(** A slot that is given up: who has it, and which. *)
Abbreviation freed := (Z * Z)%type.

Definition excess_of (primaries : list Z) (node : Z) : list Z :=
  let excess := holds node - share primaries node in
  if 0 <? excess then drop (Z.to_nat (holds node - excess)) (owned_by node) else [].

Definition pool (primaries donors : list Z) : list freed :=
  (node ← donors; pair node <$> owned_by node) ++ (node ← primaries; pair node <$> excess_of primaries node).

Definition lower_slot (a b : freed) : bool := a.2 <? b.2.

Definition record_move (f : freed) (node : Z) (index : gmap (Z * Z) nat) (moves : list SlotMove) : gmap (Z * Z) nat * list SlotMove :=
  let key := (f.1, node) in
  let '(i, index, moves) :=
    match index !! key with
    | Some i => (i, index, moves)
    | None => (length moves, <[key := length moves]> index, moves ++ [MkMove f.1 node []])
    end in
  (index, alter (λ m, MkMove (From m) (To m) (Slots m ++ [f.2])) i moves).

(** The pool from [next] on, the index and the moves. *)
Fixpoint fill_node (deficit : nat) (node : Z) (rest : list freed) (index : gmap (Z * Z) nat) (moves : list SlotMove) :
    list freed * gmap (Z * Z) nat * list SlotMove :=
  match deficit, rest with
  | S deficit, f :: rest =>
      let '(index, moves) := record_move f node index moves in fill_node deficit node rest index moves
  | _, _ => (rest, index, moves)
  end.

Fixpoint fill (primaries l : list Z) (rest : list freed) (index : gmap (Z * Z) nat) (moves : list SlotMove) : list SlotMove :=
  match l with
  | [] => moves
  | node :: l =>
      let '(rest, index, moves) := fill_node (Z.to_nat (share primaries node - holds node)) node rest index moves in
      fill primaries l rest index moves
  end.

Definition PlanSlotMoves (primaries donors : list Z) : list SlotMove :=
  fill primaries primaries (SliceStable lower_slot (pool primaries donors)) ∅ [].
End Plan.

(** [balanceSlots] moves a plan's slots in batches. *)
Fixpoint batches (fuel : nat) (slots : list Z) : list (list Z) :=
  match fuel, slots with
  | S fuel, _ :: _ => take (Z.to_nat slotBatch) slots :: batches fuel (drop (Z.to_nat slotBatch) slots)
  | _, _ => []
  end.

Definition move_batches (m : SlotMove) : list (list Z) := batches (length (Slots m)) (Slots m).

(** ** Ranges and keys *)

Lemma div_le_iff a n s : 0 < n → a / n ≤ s ↔ a < n * (s + 1).
Proof.
  intros Hn. pose proof (Z.div_mod a n ltac:(lia)). pose proof (Z.mod_pos_bound a n Hn). split; intros; nia.
Qed.

Lemma SlotRange_unique n s : 0 < n → 0 ≤ s < ClusterSlots →
  ∃ i, 0 ≤ i < n ∧ ∀ j, 0 ≤ j < n → (∃ first last, SlotRange j n = Some (first, last) ∧ first ≤ s ≤ last) ↔ j = i.
Proof.
  intros Hn Hs. unfold ClusterSlots in *. set (a := n * (s + 1) - 1).
  assert (0 ≤ a < n * 16384) as Ha by (unfold a; nia). exists (a / 16384).
  assert (∀ j, 0 ≤ j → (∃ first last, SlotRange j n = Some (first, last) ∧ first ≤ s ≤ last) ↔ j * 16384 ≤ a < (j + 1) * 16384) as Hr.
  { intros j Hj. unfold SlotRange, ClusterSlots. destruct (Z.eqb_spec n 0); [lia|]. rewrite !Z.quot_div_nonneg by lia.
    pose proof (div_le_iff (j * 16384) n s Hn) as H1. pose proof (div_le_iff ((j + 1) * 16384) n s Hn) as H2. unfold a. split.
    - intros (? & ? & [= <- <-] & ?). lia.
    - intros ?. eexists _, _. split; [done|]. lia. }
  split; [dlia|]. intros j Hj. rewrite Hr by lia. split; dlia.
Qed.

Lemma crc_bit_range c : 0 ≤ crc_bit c < 2 ^ 16.
Proof.
  unfold crc_bit. pose proof (Z.mod_pos_bound (Z.shiftl c 1) (2 ^ 16) ltac:(lia)) as Hm. destruct (_ =? 0); [done|].
  set (x := _ mod _) in *. assert (0 ≤ Z.lxor x 0x1021) by (apply Z.lxor_nonneg; lia). split; [done|].
  destruct (Z.eq_dec (Z.lxor x 0x1021) 0) as [->|?]; [lia|]. apply Z.log2_lt_pow2; [lia|].
  pose proof (Z.log2_lxor x 0x1021 ltac:(lia) ltac:(lia)). assert (Z.log2 x < 16) by (destruct (Z.eq_dec x 0) as [->|?]; [done|apply Z.log2_lt_pow2; lia]).
  change (Z.log2 0x1021) with 12 in *. lia.
Qed.

Lemma crc16_range data : 0 ≤ crc16 data < 2 ^ 16.
Proof.
  unfold crc16. destruct data as [|b l] using rev_ind; [done|]. rewrite foldl_app. cbn [foldl]. unfold crc_byte. cbn [Nat.iter nat_rect]. apply crc_bit_range.
Qed.

(** ** The checksum as a remainder *)

(** Multiplication by x^16 + x^12 + x^5 + 1 over polynomials of bits. *)
Definition times_generator (q : Z) : Z := Z.lxor (Z.shiftl q 16) (Z.lxor (Z.shiftl q 12) (Z.lxor (Z.shiftl q 5) q)).

Definition be_value (data : list Z) : Z := foldl (λ v b, Z.lxor (Z.shiftl v 8) b) 0 data.

Ltac xor_bits := apply Z.bits_inj'; intros ?n ?Hn; rewrite ?Z.lxor_spec; repeat (destruct (Z.testbit _ _)); done.

Lemma times_generator_xor q r : times_generator (Z.lxor q r) = Z.lxor (times_generator q) (times_generator r).
Proof. unfold times_generator. rewrite !Z.shiftl_lxor. xor_bits. Qed.

Lemma times_generator_shift q k : 0 ≤ k → times_generator (Z.shiftl q k) = Z.shiftl (times_generator q) k.
Proof. intros. unfold times_generator. rewrite !Z.shiftl_lxor, !Z.shiftl_shiftl by lia. rewrite !(Z.add_comm k). done. Qed.

Lemma land_pow2 c k : 0 ≤ k → 0 ≤ c < 2 ^ (k + 1) → (Z.land c (2 ^ k) =? 0) = (c <? 2 ^ k).
Proof.
  intros Hk Hc. assert (Z.testbit c k = negb (c <? 2 ^ k)) as Hb.
  { rewrite Z.testbit_odd, Z.shiftr_div_pow2 by done. rewrite Z.pow_add_r, Z.pow_1_r in Hc by lia. destruct (Z.ltb_spec c (2 ^ k)); cbn.
    - by rewrite Z.div_small by lia.
    - replace (c / 2 ^ k) with 1; [done|]. apply Z.div_unique with (c - 2 ^ k); lia. }
  assert (∀ m, 0 ≤ m → Z.testbit (Z.land c (2 ^ k)) m = (k =? m) && negb (c <? 2 ^ k)) as Hl.
  { intros m Hm. rewrite Z.land_spec, Z.pow2_bits_eqb by done. destruct (Z.eqb_spec k m) as [<-|?]; [by rewrite Hb, andb_true_r|by rewrite andb_false_r]. }
  destruct (c <? 2 ^ k) eqn:E; [apply Z.eqb_eq, Z.bits_inj'; intros m Hm; by rewrite Hl, andb_false_r, Z.bits_0|].
  apply Z.eqb_neq. intros E0. specialize (Hl k Hk). rewrite E0, Z.bits_0, Z.eqb_refl in Hl. done.
Qed.

Lemma crc_bit_step c : 0 ≤ c < 2 ^ 16 → ∃ q, Z.shiftl c 1 = Z.lxor (times_generator q) (crc_bit c).
Proof.
  intros Hc. unfold crc_bit. change 0x8000 with (2 ^ 15). rewrite land_pow2 by lia. rewrite Z.shiftl_mul_pow2 by lia. destruct (Z.ltb_spec c (2 ^ 15)).
  - exists 0. change (times_generator 0) with 0. rewrite Z.lxor_0_l, Z.mod_small by lia. done.
  - exists 1. change (times_generator 1) with (Z.lxor (2 ^ 16) 0x1021).
    replace ((c * 2 ^ 1) mod 2 ^ 16) with (c * 2 ^ 1 - 2 ^ 16) by (apply Z.mod_unique with 1; lia).
    transitivity (Z.lxor (2 ^ 16) (c * 2 ^ 1 - 2 ^ 16)); [|xor_bits]. rewrite <- Z.add_nocarry_lxor; [lia|].
    rewrite Z.land_comm. pose proof (land_pow2 (c * 2 ^ 1 - 2 ^ 16) 16 ltac:(lia) ltac:(lia)). lia.
Qed.

Lemma crc_bits_step k c : 0 ≤ c < 2 ^ 16 →
  ∃ q, Z.shiftl c (Z.of_nat k) = Z.lxor (times_generator q) (Nat.iter k crc_bit c) ∧ 0 ≤ Nat.iter k crc_bit c < 2 ^ 16.
Proof.
  intros Hc. induction k as [|k (q & E & Hr)]; [exists 0; split; [by rewrite Z.shiftl_0_r|done]|]. rewrite Nat.iter_succ.
  destruct (crc_bit_step _ Hr) as (r & Er). exists (Z.lxor (Z.shiftl q 1) r). split; [|apply crc_bit_range].
  rewrite Nat2Z.inj_succ, <- Z.add_1_r, <- Z.shiftl_shiftl, E, Z.shiftl_lxor, Er, times_generator_xor, times_generator_shift by lia. symmetry. apply Z.lxor_assoc.
Qed.

Lemma crc_remainder data : Forall (λ b, 0 ≤ b < 256) data →
  ∃ q, Z.shiftl (be_value data) 16 = Z.lxor (times_generator q) (crc16 data).
Proof.
  intros Hd. induction data as [|b l IH] using rev_ind; [exists 0; done|]. apply Forall_app in Hd as [Hl Hb]. apply Forall_cons in Hb as [Hb _].
  destruct (IH Hl) as (q & E). pose proof (crc16_range l) as Hr. unfold be_value, crc16 in *. rewrite !foldl_app. cbn [foldl]. set (v := foldl _ 0 l) in *. set (c := foldl crc_byte 0 l) in *.
  assert (0 ≤ Z.lxor c (Z.shiftl b 8) < 2 ^ 16) as Hx.
  { assert (0 ≤ Z.shiftl b 8 < 2 ^ 16) as Hs by (rewrite Z.shiftl_mul_pow2; lia). assert (0 ≤ Z.lxor c (Z.shiftl b 8)) by (apply Z.lxor_nonneg; lia). split; [done|].
    destruct (Z.eq_dec (Z.lxor c (Z.shiftl b 8)) 0) as [->|?]; [lia|]. apply Z.log2_lt_pow2; [lia|]. pose proof (Z.log2_lxor c (Z.shiftl b 8) ltac:(lia) ltac:(lia)).
    assert (∀ x, 0 ≤ x < 2 ^ 16 → Z.log2 x < 16) as Hlog by (intros x ?; destruct (Z.eq_dec x 0) as [->|?]; [done|apply Z.log2_lt_pow2; lia]).
    pose proof (Hlog _ Hr). pose proof (Hlog _ Hs). lia. }
  destruct (crc_bits_step 8 _ Hx) as (r & Er & _). change (Z.of_nat 8) with 8 in Er. exists (Z.lxor (Z.shiftl q 8) r).
  rewrite Z.shiftl_lxor, Z.shiftl_shiftl, times_generator_xor, times_generator_shift by lia. fold (crc_byte c b) in Er. rewrite Z.shiftl_lxor, Z.shiftl_shiftl in Er by lia.
  assert (Z.shiftl v (8 + 16) = Z.lxor (Z.shiftl (times_generator q) 8) (Z.shiftl c 8)) as Ev.
  { rewrite <- Z.shiftl_lxor, <- E, Z.shiftl_shiftl by lia. done. }
  rewrite Ev. change (8 + 8) with 16 in Er.
  transitivity (Z.lxor (Z.shiftl (times_generator q) 8) (Z.lxor (Z.shiftl c 8) (Z.shiftl b 16))); [xor_bits|]. rewrite Er. symmetry. apply Z.lxor_assoc.
Qed.

(** ** Hash tags and reported ranges *)

Lemma hash_tag_found a tag b :
  "{"%char ∉ chars a → "}"%char ∉ chars tag → tag ≠ "" → hash_tag (a +:+ "{" +:+ tag +:+ "}" +:+ b) = tag.
Proof.
  intros Ha Ht Hne. unfold hash_tag. rewrite (Cut_char ("{"%char) a (tag +:+ "}" +:+ b) Ha).
  rewrite (Cut_char ("}"%char) tag b Ht). destruct (String.eqb_spec tag ""); done.
Qed.

(** How a node prints a range of its slots. *)
Definition print_range (r : Z * Z) : string := if r.1 =? r.2 then Itoa r.1 else (Itoa r.1 +:+ "-" +:+ Itoa r.2)%string.

Definition range_ok (r : Z * Z) : Prop := 0 ≤ r.1 ∧ r.1 ≤ r.2 ∧ in_i64 r.2.

Lemma digits_no_dash n : 0 ≤ n → "-"%char ∉ chars (Itoa n).
Proof. intros Hn. apply not_digit; [|by apply Itoa_digits]. unfold is_digit. change (byte_of "-"%char) with 45. lia. Qed.

Lemma slot_field_range r : range_ok r → slot_field (print_range r) = Some (seqZ r.1 (r.2 - r.1 + 1)).
Proof.
  intros (H1 & H2 & H3). unfold in_i64 in H3. unfold slot_field, print_range, Atoi. destruct (Z.eqb_spec r.1 r.2) as [E|E].
  - rewrite (Cut_char_none ("-"%char)) by (by apply digits_no_dash). rewrite ParseInt_Itoa by (unfold in_i64; lia). cbn.
    rewrite E, Z.sub_diag. done.
  - rewrite (Cut_char ("-"%char)) by (by apply digits_no_dash). rewrite !ParseInt_Itoa by (unfold in_i64; lia). done.
Qed.

Lemma print_range_plain r : range_ok r → HasPrefix (print_range r) "[" = false.
Proof.
  intros (H1 & H2 & H3). assert (∀ x, HasPrefix (Itoa r.1 +:+ x) "[" = false) as Hx.
  { intros x. pose proof (Itoa_digits r.1 H1) as Hd. pose proof (Itoa_nonempty r.1) as Hne. destruct (Itoa r.1) as [|c s]; [done|]. cbn in Hd. apply Forall_cons in Hd as [Hc _].
    rewrite append_cons_s. unfold HasPrefix. cbn [String.prefix]. destruct (Ascii.ascii_dec _ c) as [<-|?]; [|done]. unfold is_digit in Hc. change (byte_of "["%char) with 91 in Hc. lia. }
  unfold print_range. destruct (r.1 =? r.2); [rewrite <- (append_nil_s (Itoa r.1))|]; apply Hx.
Qed.

Lemma slot_fields_ranges rs : Forall range_ok rs → slot_fields (map print_range rs) = Some (r ← rs; seqZ r.1 (r.2 - r.1 + 1)).
Proof.
  induction 1 as [|r rs Hr _ IH]; [done|]. cbn [map slot_fields]. rewrite print_range_plain, slot_field_range, IH by done. done.
Qed.

(** ** Shares *)

Lemma share_loop_lookup n i l m k node :
  NoDup l → l !! k = Some node → share_loop n i l m !! node = Some (share_at n (i + Z.of_nat k)).
Proof.
  revert i m k. induction l as [|x l IH]; intros i m k Hn Hk; [done|]. apply NoDup_cons in Hn as [Hx Hl]. cbn [share_loop]. destruct k as [|k].
  - cbn in Hk. injection Hk as ->. rewrite Z.add_0_r. assert (∀ l j m', node ∉ l → share_loop n j l m' !! node = m' !! node) as Hkeep.
    { clear. intros l. induction l as [|y l IH]; intros j m' Hin; [done|]. apply not_elem_of_cons in Hin as [Hy Hin]. cbn. rewrite IH by done. by apply lookup_insert_ne. }
    rewrite Hkeep by done. apply lookup_insert_eq.
  - cbn in Hk. rewrite (IH (i + 1) _ k Hl Hk). do 2 f_equal. lia.
Qed.

Lemma share_spec primaries k node :
  NoDup primaries → primaries !! k = Some node → share primaries node = share_at (Z.of_nat (length primaries)) (Z.of_nat k).
Proof. intros Hn Hk. unfold share, shares. by rewrite (share_loop_lookup _ _ _ _ _ _ Hn Hk). Qed.

Lemma share_total n : 0 < n → total (λ k, share_at n (Z.of_nat k)) (seq 0 (Z.to_nat n)) = ClusterSlots.
Proof.
  intros Hn. assert (∀ m i, total (λ k, share_at n (Z.of_nat k)) (seq i m) =
    Z.of_nat m * Z.quot ClusterSlots n + Z.max 0 (Z.min (Z.of_nat (i + m)) (Z.rem ClusterSlots n) - Z.of_nat i)) as Hm.
  { induction m as [|m IH]; intros i; cbn [seq total]; [lia|]. rewrite IH. unfold share_at.
    destruct (Z.ltb_spec (Z.of_nat i) (Z.rem ClusterSlots n)); lia. }
  rewrite Hm. pose proof (Z.quot_rem' ClusterSlots n). pose proof (Z.rem_bound_pos ClusterSlots n ltac:(done) Hn). unfold ClusterSlots in *. lia.
Qed.

Lemma share_sum primaries : primaries ≠ [] → NoDup primaries → total (share primaries) primaries = ClusterSlots.
Proof.
  intros Hne Hn. rewrite <- (share_total (Z.of_nat (length primaries))) by (destruct primaries; [done|cbn; lia]). rewrite Nat2Z.id.
  assert (∀ l i, (∀ k node, l !! k = Some node → primaries !! (i + k)%nat = Some node) →
    total (share primaries) l = total (λ k, share_at (Z.of_nat (length primaries)) (Z.of_nat k)) (seq i (length l))) as Hl.
  { induction l as [|x l IH]; intros i Hi; [done|]. cbn [total seq length]. f_equal.
    - apply share_spec; [done|]. specialize (Hi 0%nat x eq_refl). by rewrite Nat.add_0_r in Hi.
    - apply IH. intros k node Hk. rewrite Nat.add_succ_comm. by apply Hi. }
  by apply (Hl _ 0%nat).
Qed.

(** ** What a plan assigns *)

(** Every slot a list of moves moves, with who gives it and who takes it. *)
Definition triples (moves : list SlotMove) : list (Z * Z * Z) := m ← moves; (λ s, (From m, s, To m)) <$> Slots m.

Definition index_ok (index : gmap (Z * Z) nat) (moves : list SlotMove) : Prop :=
  ∀ key i, index !! key = Some i → ∃ m, moves !! i = Some m ∧ key = (From m, To m).

Lemma triples_alter moves i m s :
  moves !! i = Some m → triples (alter (λ m, MkMove (From m) (To m) (Slots m ++ [s])) i moves) ≡ₚ triples moves ++ [(From m, s, To m)].
Proof.
  unfold triples. revert i. induction moves as [|x l IH]; intros [|i] Hi; [done|done| |].
  - cbn in Hi. injection Hi as ->. cbn. rewrite fmap_app. cbn. solve_Permutation.
  - cbn in Hi. change (alter _ (S i) (x :: l)) with (x :: alter (λ m, MkMove (From m) (To m) (Slots m ++ [s])) i l). cbn. rewrite (IH _ Hi). by rewrite app_assoc.
Qed.

Lemma record_move_spec f node index moves index' moves' :
  index_ok index moves → record_move f node index moves = (index', moves') →
  index_ok index' moves' ∧ triples moves' ≡ₚ triples moves ++ [(f, node)].
Proof.
  intros Hi. unfold record_move. destruct f as [from s]. cbn [fst snd].
  assert (∀ ix ms i m, index_ok ix ms → ms !! i = Some m → (From m, To m) = (from, node) →
    index_ok ix (alter (λ m, MkMove (From m) (To m) (Slots m ++ [s])) i ms) ∧ triples (alter (λ m, MkMove (From m) (To m) (Slots m ++ [s])) i ms) ≡ₚ triples ms ++ [(from, s, node)]) as Hstep.
  { intros ix ms i m Hix Hm [= <- <-]. split; [|by apply triples_alter]. intros key j Hj. destruct (Hix _ _ Hj) as (m' & Hm' & ->). destruct (decide (j = i)) as [->|?].
    - exists (MkMove (From m) (To m) (Slots m ++ [s])). rewrite list_lookup_alter_eq, Hm. simplify_eq. done.
    - exists m'. by rewrite list_lookup_alter_ne. }
  destruct (index !! (from, node)) as [i|] eqn:E.
  - intros [= <- <-]. destruct (Hi _ _ E) as (m & Hm & Hk). by eapply Hstep.
  - intros [= <- <-]. set (m := MkMove from node []). assert (index_ok (<[(from, node) := length moves]> index) (moves ++ [m])) as Hi'.
    { intros key j. destruct (decide (key = (from, node))) as [->|Hne].
      - rewrite lookup_insert_eq. intros [= <-]. exists m. by rewrite lookup_app_r, Nat.sub_diag.
      - rewrite lookup_insert_ne by done. intros Hj. destruct (Hi _ _ Hj) as (m' & Hm' & ->). exists m'. split; [|done]. by apply lookup_app_l_Some. }
    destruct (Hstep _ _ (length moves) m Hi') as [H1 H2]; [by rewrite lookup_app_r, Nat.sub_diag|done|]. split; [done|]. rewrite H2. unfold triples. rewrite bind_app. cbn. by rewrite app_nil_r.
Qed.

Lemma fill_node_spec d node rest index moves rest' index' moves' :
  index_ok index moves → fill_node d node rest index moves = (rest', index', moves') →
  index_ok index' moves' ∧ rest' = drop d rest ∧ triples moves' ≡ₚ triples moves ++ ((λ f, (f, node)) <$> take d rest).
Proof.
  revert rest index moves. induction d as [|d IH]; intros [|f rest] index moves Hi; cbn [fill_node];
    try (intros [= <- <- <-]; split_and!; [done|done|by rewrite app_nil_r]).
  destruct (record_move f node index moves) as [ix ms] eqn:Er. destruct (record_move_spec _ _ _ _ _ _ Hi Er) as [H1 H2].
  intros Hf. destruct (IH _ _ _ H1 Hf) as (H3 & -> & H4). split_and!; [done|done|]. rewrite H4, H2, <- app_assoc. done.
Qed.

Section Balance.
Context (owned : gmap Z (list Z)) (primaries donors : list Z).

Abbreviation owns := (owned_by owned).
Abbreviation quota := (share primaries).

(** What a primary is short of. *)
Definition deficit (node : Z) : nat := Z.to_nat (quota node - holds owned node).

(** The freed slots the primaries take, in turn. *)
Fixpoint assign (l : list Z) (rest : list (Z * Z)) : list (Z * Z * Z) :=
  match l with
  | [] => []
  | node :: l => ((λ f, (f, node)) <$> take (deficit node) rest) ++ assign l (drop (deficit node) rest)
  end.

Lemma fill_spec l rest index moves :
  index_ok index moves → triples (fill owned primaries l rest index moves) ≡ₚ triples moves ++ assign l rest.
Proof.
  revert rest index moves. induction l as [|node l IH]; intros rest index moves Hi; cbn [fill assign]; [by rewrite app_nil_r|].
  destruct (fill_node _ _ _ _ _) as [[rest' ix] ms] eqn:Ef. destruct (fill_node_spec _ _ _ _ _ _ _ _ Hi Ef) as (H1 & -> & H2).
  rewrite IH by done. rewrite H2, <- app_assoc. done.
Qed.

Definition the_pool : list (Z * Z) := SliceStable lower_slot (pool owned primaries donors).
Definition plan : list SlotMove := PlanSlotMoves owned primaries donors.

Lemma plan_triples : triples plan ≡ₚ assign primaries the_pool.
Proof. unfold plan, PlanSlotMoves. rewrite fill_spec; [done|]. intros key i. by rewrite lookup_empty. Qed.

(** When the pool covers the deficits, it is used up in order. *)
Lemma assign_fst l rest : total (λ n, Z.of_nat (deficit n)) l = Z.of_nat (length rest) → fst <$> assign l rest = rest.
Proof.
  revert rest. induction l as [|node l IH]; intros rest; cbn [total assign].
  - destruct rest; [done|cbn; lia].
  - intros Hs. assert (0 ≤ total (λ n, Z.of_nat (deficit n)) l) by (apply total_nonneg; intros; lia).
    rewrite fmap_app, IH by (rewrite length_drop; lia). rewrite <- list_fmap_compose. cbn. rewrite list_fmap_id. apply take_drop.
Qed.

Lemma assign_to l rest node :
  NoDup l → total (λ n, Z.of_nat (deficit n)) l = Z.of_nat (length rest) →
  length (filter (λ t, t.2 = node) (assign l rest)) = if decide (node ∈ l) then deficit node else 0%nat.
Proof.
  revert rest. induction l as [|x l IH]; intros rest Hn; cbn [total assign].
  - intros _. by rewrite decide_False by set_solver.
  - apply NoDup_cons in Hn as [Hx Hl]. intros Hs. assert (0 ≤ total (λ n, Z.of_nat (deficit n)) l) by (apply total_nonneg; intros; lia).
    rewrite filter_app, length_app, IH by (done || rewrite length_drop; lia). destruct (decide (x = node)) as [->|Hne].
    + rewrite (filter_all (λ t, t.2 = node)) by (apply Forall_fmap, Forall_true; done). rewrite length_fmap, length_take.
      rewrite decide_False, decide_True by set_solver. lia.
    + rewrite (filter_none (λ t, t.2 = node)) by (apply Forall_fmap, Forall_true; done). cbn. case_decide; case_decide; set_solver.
Qed.

Lemma assign_elem l rest f node : (f, node) ∈ assign l rest → f ∈ rest ∧ node ∈ l ∧ (0 < deficit node)%nat.
Proof.
  revert rest. induction l as [|x l IH]; intros rest; cbn [assign]; [by intros ?%elem_of_nil|]. rewrite elem_of_app. intros [(g & [= <- <-] & Hg)%list_elem_of_fmap|Hin].
  - split_and!; [rewrite <- (take_drop (deficit node) rest); apply elem_of_app; by left|left|]. destruct (deficit node); [by apply elem_of_nil in Hg|lia].
  - destruct (IH _ Hin) as (H1 & ? & ?). split_and!; [rewrite <- (take_drop (deficit x) rest); apply elem_of_app; by right|by right|done].
Qed.

(** What a list of moves takes from a node, gives it, and leaves it with. *)
Definition given (moves : list SlotMove) (node : Z) : list Z := m ← moves; if decide (From m = node) then Slots m else [].
Definition taken (moves : list SlotMove) (node : Z) : list Z := m ← moves; if decide (To m = node) then Slots m else [].
Definition after (moves : list SlotMove) (node : Z) : list Z := filter (λ s, s ∉ given moves node) (owns node) ++ taken moves node.

Lemma given_triples moves node : given moves node = (λ t, t.1.2) <$> filter (λ t, t.1.1 = node) (triples moves).
Proof.
  induction moves as [|m l IH]; [done|]. unfold given, triples in *. cbn. rewrite filter_app, fmap_app, IH. f_equal. case_decide as E.
  - rewrite filter_all by (apply Forall_fmap, Forall_true; done). rewrite <- list_fmap_compose. symmetry. apply list_fmap_id.
  - rewrite filter_none by (apply Forall_fmap, Forall_true; done). done.
Qed.

Lemma taken_triples moves node : taken moves node = (λ t, t.1.2) <$> filter (λ t, t.2 = node) (triples moves).
Proof.
  induction moves as [|m l IH]; [done|]. unfold taken, triples in *. cbn. rewrite filter_app, fmap_app, IH. f_equal. case_decide as E.
  - rewrite filter_all by (apply Forall_fmap, Forall_true; done). rewrite <- list_fmap_compose. symmetry. apply list_fmap_id.
  - rewrite filter_none by (apply Forall_fmap, Forall_true; done). done.
Qed.

Lemma slots_triples moves : (m ← moves; Slots m) = (λ t, t.1.2) <$> triples moves.
Proof.
  induction moves as [|m l IH]; [done|]. unfold triples in *. cbn. rewrite fmap_app, IH. f_equal. rewrite <- list_fmap_compose. symmetry. apply list_fmap_id.
Qed.

(** The entries of one node among those of several. *)
Lemma tagged_of (g : Z → list Z) l node :
  NoDup l → snd <$> filter (λ f, f.1 = node) (n ← l; pair n <$> g n) = if decide (node ∈ l) then g node else [].
Proof.
  induction l as [|x l IH]; intros Hn; [done|]. apply NoDup_cons in Hn as [Hx Hl]. cbn. rewrite filter_app, fmap_app, IH by done.
  destruct (decide (x = node)) as [->|Hne].
  - rewrite filter_all by (apply Forall_fmap, Forall_true; done). rewrite <- list_fmap_compose, decide_False, decide_True by set_solver.
    rewrite app_nil_r. apply list_fmap_id.
  - rewrite filter_none by (apply Forall_fmap, Forall_true; done). cbn. case_decide; case_decide; set_solver.
Qed.

Lemma tagged_snd (g : Z → list Z) l : snd <$> (n ← l; pair n <$> g n) = (n ← l; g n).
Proof. induction l as [|x l IH]; [done|]. cbn. rewrite fmap_app, IH. f_equal. rewrite <- list_fmap_compose. apply list_fmap_id. Qed.

Lemma length_bind_total (g : Z → list Z) l : Z.of_nat (length (n ← l; g n)) = total (λ n, Z.of_nat (length (g n))) l.
Proof. induction l as [|x l IH]; [done|]. cbn. rewrite length_app. cbn in IH. lia. Qed.

Lemma bind_app_perm (f g : Z → list Z) l : (n ← l; f n ++ g n) ≡ₚ (n ← l; f n) ++ (n ← l; g n).
Proof. induction l as [|x l IH]; [done|]. cbn. rewrite IH. solve_Permutation. Qed.

(** Entries sorted by who takes them are all the entries. *)
Lemma taken_all (ts : list (Z * Z * Z)) l :
  NoDup l → (∀ t, t ∈ ts → t.2 ∈ l) → (n ← l; filter (λ t, t.2 = n) ts) ≡ₚ ts.
Proof.
  intros Hl. induction ts as [|t ts IH]; intros Ht; [clear; by induction l|].
  transitivity (t :: (n ← l; filter (λ t, t.2 = n) ts)); [|constructor; apply IH; set_solver].
  assert (t.2 ∈ l) as Hin by (apply Ht; left). clear IH Ht. induction l as [|n l IHl]; [by apply elem_of_nil in Hin|]. apply NoDup_cons in Hl as [Hn Hl].
  rewrite !bind_cons, filter_cons. destruct (decide (t.2 = n)) as [E|E].
  - rewrite <- app_comm_cons. constructor. f_equiv. clear -Hn E. induction l as [|m l IHl]; [done|].
    rewrite !bind_cons, filter_cons, decide_False by set_solver. rewrite IHl by set_solver. done.
  - rewrite IHl; [solve_Permutation|done|set_solver].
Qed.

Context (Hne : primaries ≠ []) (Hnodes : NoDup (primaries ++ donors)).
Context (Hall : (node ← primaries ++ donors; owns node) ≡ₚ seqZ 0 ClusterSlots).

Lemma primaries_NoDup : NoDup primaries.
Proof using Hnodes. clear -Hnodes. by apply NoDup_app in Hnodes as (? & _). Qed.
Lemma donors_NoDup : NoDup donors.
Proof using Hnodes. clear -Hnodes. by apply NoDup_app in Hnodes as (_ & _ & ?). Qed.

Lemma quota_nonneg node : 0 ≤ quota node.
Proof using Hnodes.
  clear -Hnodes. destruct (decide (node ∈ primaries)) as [(k & Hk)%list_elem_of_lookup|Hn].
  - rewrite (share_spec _ _ _ primaries_NoDup Hk). unfold share_at. pose proof (Z.quot_pos ClusterSlots (Z.of_nat (length primaries)) ltac:(done)) as Hq.
    apply lookup_lt_Some in Hk. destruct (_ <? _); lia.
  - unfold share, shares. assert (∀ l n i m, node ∉ l → share_loop n i l m !! node = m !! node) as Hkeep.
    { clear. intros l. induction l as [|y l IH]; intros n i m Hin; [done|]. apply not_elem_of_cons in Hin as [Hy Hin]. cbn. rewrite IH by done. by apply lookup_insert_ne. }
    by rewrite Hkeep, lookup_empty.
Qed.

(** What a primary keeps. *)
Definition kept (node : Z) : list Z := take (Z.to_nat (quota node)) (owns node).

Lemma owns_split node : owns node = kept node ++ excess_of owned primaries node.
Proof using Hnodes.
  clear -Hnodes. pose proof (quota_nonneg node). unfold kept, excess_of, holds. destruct (Z.ltb_spec 0 (Z.of_nat (length (owns node)) - quota node)).
  - replace (Z.of_nat (length (owns node)) - (Z.of_nat (length (owns node)) - quota node)) with (quota node) by lia. by rewrite take_drop.
  - rewrite app_nil_r, take_ge by lia. done.
Qed.

Lemma kept_deficit node : Z.of_nat (length (kept node) + deficit node) = quota node.
Proof using Hnodes. clear -Hnodes. pose proof (quota_nonneg node). unfold kept, deficit, holds. rewrite length_take. lia. Qed.

Lemma pool_perm : the_pool ≡ₚ pool owned primaries donors.
Proof. apply SliceStable_perm. Qed.

(** The freed slots are as many as the primaries are short of. *)
Lemma deficits_cover : total (λ n, Z.of_nat (deficit n)) primaries = Z.of_nat (length (the_pool)).
Proof using Hnodes Hne Hall.
  rewrite pool_perm. unfold pool. rewrite length_app.
  assert (∀ g l, Z.of_nat (length (n ← l; pair n <$> g n)) = total (λ n : Z, Z.of_nat (length (g n : list Z))) l) as Hlen.
  { intros g l. induction l as [|x l IH]; [done|]. cbn. rewrite length_app, length_fmap. cbn in IH. lia. }
  rewrite Nat2Z.inj_add, !Hlen. apply Permutation_length in Hall as HL. rewrite length_seqZ in HL. apply (f_equal Z.of_nat) in HL.
  rewrite length_bind_total, total_app in HL. pose proof (share_sum primaries Hne primaries_NoDup) as Hs.
  assert (∀ l, total quota l = total (λ n, Z.of_nat (length (owns n))) l - total (λ n, Z.of_nat (length (excess_of owned primaries n))) l + total (λ n, Z.of_nat (deficit n)) l) as Hq.
  { clear -Hnodes. intros l. induction l as [|x l IH]; [done|]. cbn [total]. rewrite IH. pose proof (kept_deficit x). pose proof (f_equal length (owns_split x)) as Ho. rewrite length_app in Ho. lia. }
  specialize (Hq primaries). unfold ClusterSlots in *. lia.
Qed.
Lemma filter_fst (ts : list (Z * Z * Z)) node : filter (λ f, f.1 = node) (fst <$> ts) = fst <$> filter (λ t, t.1.1 = node) ts.
Proof. induction ts as [|t ts IH]; [done|]. rewrite fmap_cons, !filter_cons, IH. by case_decide. Qed.

Lemma plan_pool : fst <$> triples plan ≡ₚ pool owned primaries donors.
Proof using Hnodes Hne Hall. rewrite plan_triples, assign_fst by apply deficits_cover. apply pool_perm. Qed.

Lemma owns_NoDup node : node ∈ primaries ++ donors → NoDup (owns node).
Proof using Hall.
  intros Hin. assert (NoDup (n ← primaries ++ donors; owns n)) as Hn by (rewrite Hall; apply NoDup_seqZ).
  apply list_elem_of_split in Hin as (l1 & l2 & E). rewrite E, bind_app, bind_cons in Hn. apply NoDup_app in Hn as (_ & _ & Hn). by apply NoDup_app in Hn as (Hn & _).
Qed.

Lemma given_plan node :
  given plan node ≡ₚ if decide (node ∈ donors) then owns node else if decide (node ∈ primaries) then excess_of owned primaries node else [].
Proof using Hnodes Hne Hall.
  rewrite given_triples. transitivity (snd <$> filter (λ f, f.1 = node) (pool owned primaries donors)).
  - rewrite <- plan_pool, filter_fst, <- list_fmap_compose. done.
  - unfold pool. rewrite filter_app, fmap_app, !tagged_of by apply primaries_NoDup || apply donors_NoDup.
    case_decide; case_decide; [|by rewrite app_nil_r|done|done]. exfalso. apply NoDup_app in Hnodes as (_ & Hd & _). by eapply Hd.
Qed.

Lemma taken_plan node : length (taken plan node) = if decide (node ∈ primaries) then deficit node else 0%nat.
Proof using Hnodes Hne Hall. rewrite taken_triples, length_fmap, plan_triples. apply assign_to; [apply primaries_NoDup|apply deficits_cover]. Qed.

Lemma stays_primary node : node ∈ primaries → filter (λ s, s ∉ given plan node) (owns node) = kept node.
Proof using Hnodes Hne Hall.
  intros Hin. assert (node ∉ donors) as Hd by (apply NoDup_app in Hnodes as (_ & Hd & _); by apply Hd).
  assert (∀ s, s ∈ given plan node ↔ s ∈ excess_of owned primaries node) as Hg.
  { intros s. rewrite given_plan. rewrite decide_False, decide_True by done. done. }
  pose proof (owns_NoDup node ltac:(set_solver)) as Hn. rewrite (owns_split node) in Hn at 1. apply NoDup_app in Hn as (_ & Hdis & _).
  rewrite (owns_split node), filter_app, (filter_all _ (kept node)), (filter_none _ (excess_of owned primaries node)); [apply app_nil_r| |];
    apply Forall_forall; intros s Hs; rewrite Hg; [tauto|by apply Hdis].
Qed.

Lemma stays_donor node : node ∈ donors → after plan node = [].
Proof using Hnodes Hne Hall.
  intros Hin. assert (node ∉ primaries) as Hp by (intros ?; apply NoDup_app in Hnodes as (_ & Hd & _); by eapply Hd).
  unfold after. pose proof (taken_plan node) as Ht. rewrite decide_False in Ht by done. destruct (taken plan node); [|done]. rewrite app_nil_r.
  apply filter_none, Forall_forall. intros s Hs. rewrite given_plan, decide_True by done. tauto.
Qed.

Lemma after_perm : (node ← primaries; after plan node) ≡ₚ seqZ 0 ClusterSlots.
Proof using Hnodes Hne Hall.
  rewrite <- Hall, bind_app. unfold after. rewrite bind_app_perm.
  transitivity ((n ← primaries; kept n) ++ ((λ t, t.1.2) <$> triples plan)).
  - f_equiv.
    + clear -Hnodes Hne Hall. assert (∀ l, (∀ n, n ∈ l → n ∈ primaries) → (n ← l; filter (λ s, s ∉ given plan n) (owns n)) = (n ← l; kept n)) as Hl; [|rewrite Hl; done].
      intros l. induction l as [|x l IH]; intros Hs; [done|]. rewrite !bind_cons, IH, stays_primary by set_solver. done.
    + transitivity ((λ t, t.1.2) <$> (n ← primaries; filter (λ t, t.2 = n) (triples plan))).
      * assert (∀ l, (n ← l; taken plan n) = (λ t, t.1.2) <$> (n ← l; filter (λ t, t.2 = n) (triples plan))) as Hl; [|by rewrite Hl].
        intros l. induction l as [|x l IH]; [done|]. rewrite !bind_cons, fmap_app, IH, taken_triples. done.
      * rewrite taken_all; [done|apply primaries_NoDup|]. intros [f node] Ht. rewrite plan_triples in Ht. by apply assign_elem in Ht as (_ & ? & _).
  - replace ((λ t : Z * Z * Z, t.1.2) <$> triples plan) with (snd <$> (fst <$> triples plan)) by (by rewrite <- list_fmap_compose).
    rewrite plan_pool. unfold pool. rewrite fmap_app, !tagged_snd.
    transitivity ((n ← primaries; kept n ++ excess_of owned primaries n) ++ (n ← donors; owns n)); [rewrite bind_app_perm; solve_Permutation|].
    assert (∀ l, (n ← l; kept n ++ excess_of owned primaries n) = (n ← l; owns n)) as Hl; [|by rewrite Hl].
    intros l. induction l as [|x l IH]; [done|]. rewrite !bind_cons, <- owns_split, IH. done.
Qed.
End Balance.

Lemma batches_spec fuel slots : (length slots ≤ fuel)%nat →
  concat (batches fuel slots) = slots ∧ Forall (λ b, b ≠ [] ∧ (length b ≤ Z.to_nat slotBatch)%nat) (batches fuel slots).
Proof.
  revert slots. induction fuel as [|fuel IH]; intros [|x slots] Hf; [by split; [|constructor]|cbn in Hf; lia|by split; [|constructor]|].
  cbn [batches concat]. assert (0 < Z.to_nat slotBatch)%nat as Hb by (unfold slotBatch; lia).
  destruct (IH (drop (Z.to_nat slotBatch) (x :: slots))) as [E HF]; [rewrite length_drop; cbn [length] in *; lia|].
  split; [rewrite E; apply take_drop|]. constructor; [|done]. rewrite length_take. split; [|lia]. destruct (Z.to_nat slotBatch); [lia|done].
Qed.

(** ** Theorems *)

(** [C29] A plan balances the cluster. When the primaries and the donors together own
    every slot once, the moves of a plan take each slot at most once, from a node
    that owns it, to another node, in batches that cover it; afterwards the donors own
    nothing, the primaries own every slot once, and the k-th primary owns exactly
    its share, one more for the first primaries when the slots do not divide evenly. *)
Theorem plan_gives_every_primary_its_share owned primaries donors :
  primaries ≠ [] → NoDup (primaries ++ donors) → (node ← primaries ++ donors; owned_by owned node) ≡ₚ seqZ 0 ClusterSlots →
  let moves := PlanSlotMoves owned primaries donors in
  NoDup (m ← moves; Slots m) ∧
  (∀ m, m ∈ moves → Slots m ⊆ owned_by owned (From m) ∧ (Slots m ≠ [] → From m ≠ To m ∧ To m ∈ primaries) ∧ concat (move_batches m) = Slots m) ∧
  (∀ node, node ∈ donors → after owned moves node = []) ∧
  (∀ k node, primaries !! k = Some node → Z.of_nat (length (after owned moves node)) = share_at (Z.of_nat (length primaries)) (Z.of_nat k)) ∧
  (node ← primaries; after owned moves node) ≡ₚ seqZ 0 ClusterSlots.
Proof.
  intros Hne Hnodes Hall moves. pose proof (plan_pool owned primaries donors Hne Hnodes Hall) as Hpool. change (plan owned primaries donors) with moves in Hpool.
  assert (∀ f node, f ∈ pool owned primaries donors → f.1 = node → f.2 ∈ owned_by owned node ∧ (node ∈ primaries → deficit owned primaries node = 0%nat)) as Hfrom.
  { intros [n s] node Hf <-. cbn. unfold pool in Hf. apply elem_of_app in Hf as [Hf|Hf]; apply list_elem_of_bind in Hf as (x & (s' & [= -> ->] & Hs)%list_elem_of_fmap & Hx).
    - split; [done|]. intros Hp. exfalso. apply NoDup_app in Hnodes as (_ & Hd & _). by eapply Hd.
    - split; [rewrite (owns_split owned primaries donors Hnodes); set_solver|]. intros _. unfold excess_of in Hs. unfold deficit. destruct (Z.ltb_spec 0 (holds owned x - share primaries x)); [lia|set_solver]. }
  split_and!.
  - rewrite slots_triples. replace ((λ t : Z * Z * Z, t.1.2) <$> triples moves) with (snd <$> (fst <$> triples moves)) by (by rewrite <- list_fmap_compose). rewrite Hpool.
    assert (NoDup (n ← primaries ++ donors; owned_by owned n)) as Hn by (rewrite Hall; apply NoDup_seqZ). rewrite bind_app in Hn.
    unfold pool. rewrite fmap_app, !tagged_snd.
    assert (∀ l, (n ← l; kept owned primaries n ++ excess_of owned primaries n) = (n ← l; owned_by owned n)) as Hl.
    { intros l. induction l as [|x l IH]; [done|]. rewrite !bind_cons, <- (owns_split owned primaries donors Hnodes), IH. done. }
    rewrite <- (Hl primaries), bind_app_perm in Hn. rewrite <- app_assoc in Hn. apply NoDup_app in Hn as (_ & _ & Hn). by rewrite Permutation_app_comm.
  - intros m Hm. assert (∀ s, s ∈ Slots m → (From m, s, To m) ∈ triples moves) as Ht.
    { intros s Hs. unfold triples. apply list_elem_of_bind. exists m. split; [|done]. apply list_elem_of_fmap. by exists s. }
    assert (∀ s, s ∈ Slots m → (From m, s) ∈ pool owned primaries donors) as Hp.
    { intros s Hs. rewrite <- Hpool. apply list_elem_of_fmap. exists (From m, s, To m). auto. }
    split_and!; [intros s Hs; exact (proj1 (Hfrom _ _ (Hp _ Hs) eq_refl))| |apply batches_spec; done].
    intros Hs. destruct (Slots m) as [|s l] eqn:El; [done|]. specialize (Ht s ltac:(left)). specialize (Hp s ltac:(left)).
    unfold moves in Ht. change (PlanSlotMoves owned primaries donors) with (plan owned primaries donors) in Ht. rewrite plan_triples in Ht.
    apply assign_elem in Ht as (_ & Hto & Hd). split; [|done]. intros E. destruct (Hfrom _ _ Hp eq_refl) as [_ Hz]. cbn in Hz. rewrite E in Hz. specialize (Hz Hto). lia.
  - intros node Hin. by apply stays_donor.
  - intros k node Hk. assert (node ∈ primaries) as Hin by (by eapply list_elem_of_lookup_2). unfold after. change moves with (plan owned primaries donors).
    rewrite stays_primary, length_app, taken_plan, decide_True by done. rewrite (kept_deficit owned primaries donors Hnodes). apply share_spec; [by eapply primaries_NoDup|done].
  - by apply after_perm.
Qed.

(** [C30] Keys find one shard. A key's slot is, modulo the number of slots, the
    CRC-16/XMODEM remainder of its hash tag's bytes; exactly one of the shards of a
    cluster has that slot in its range, however many shards there are; and keys with
    the same hash tag have the same slot. *)
Theorem every_key_has_one_shard n :
  0 < n →
  (∀ key, (∃ q r, Z.shiftl (be_value (map byte_of (chars (hash_tag key)))) 16 = Z.lxor (times_generator q) r ∧ 0 ≤ r < 2 ^ 16 ∧ KeySlot key = r mod ClusterSlots) ∧
    ∃ i, 0 ≤ i < n ∧ ∀ j, 0 ≤ j < n → (∃ first last, SlotRange j n = Some (first, last) ∧ first ≤ KeySlot key ≤ last) ↔ j = i) ∧
  (∀ a a' tag b b', "{"%char ∉ chars a → "{"%char ∉ chars a' → "}"%char ∉ chars tag → tag ≠ "" →
    KeySlot (a +:+ "{" +:+ tag +:+ "}" +:+ b) = KeySlot (a' +:+ "{" +:+ tag +:+ "}" +:+ b')).
Proof.
  intros Hn. split.
  - intros key. split.
    + destruct (crc_remainder (map byte_of (chars (hash_tag key)))) as (q & E).
      { apply Forall_forall. intros b (c & <- & _)%list_elem_of_In%in_map_iff. apply byte_of_range. }
      exists q, (crc16 (map byte_of (chars (hash_tag key)))). split_and!; [done|apply crc16_range|apply crc16_range|done].
    + apply SlotRange_unique; [done|]. unfold KeySlot. apply Z.mod_pos_bound. done.
  - intros. unfold KeySlot. by rewrite !hash_tag_found.
Qed.

(** The ranges a node reports are read back as its slots in ascending order. *)
Theorem reported_slots_are_read_back rs :
  Forall range_ok rs → ∃ l, SlotList (map print_range rs) = Some l ∧ l ≡ₚ (r ← rs; seqZ r.1 (r.2 - r.1 + 1)) ∧ StronglySorted (not_after Z.ltb) l.
Proof.
  intros Hr. unfold SlotList. rewrite slot_fields_ranges by done. eexists. split; [done|]. split; [apply SliceStable_perm|]. apply SliceStable_sorted; unfold not_after; intros; lia.
Qed.

(** Two primaries, one of them new, take the slots of an old one and of a node that
    leaves. *)
Definition w_owned : gmap Z (list Z) := <[1 := seqZ 0 4096]> (<[3 := seqZ 4096 12288]> ∅).

Lemma w_owned_all : (node ← [1; 2] ++ [3]; owned_by w_owned node) ≡ₚ seqZ 0 ClusterSlots.
Proof.
  assert (owned_by w_owned 1 = seqZ 0 4096) as E1 by (unfold owned_by, w_owned; by rewrite lookup_insert_eq).
  assert (owned_by w_owned 2 = []) as E2 by (unfold owned_by, w_owned; by rewrite !lookup_insert_ne, lookup_empty by lia).
  assert (owned_by w_owned 3 = seqZ 4096 12288) as E3 by (unfold owned_by, w_owned; by rewrite lookup_insert_ne, lookup_insert_eq by lia). rewrite bind_app, !bind_cons, E1, E2, E3. cbn [app mbind list_bind].
  rewrite !app_nil_r. unfold ClusterSlots. change 16384 with (4096 + 12288). rewrite seqZ_app by lia. done.
Qed.

Lemma plan_gives_every_primary_its_share_witness :
  (node ← [1; 2] ++ [3]; owned_by w_owned node) ≡ₚ seqZ 0 ClusterSlots ∧
  ∀ k node, [1; 2] !! k = Some node → Z.of_nat (length (after w_owned (PlanSlotMoves w_owned [1; 2] [3]) node)) = share_at 2 (Z.of_nat k).
Proof.
  split; [exact w_owned_all|].
  assert (NoDup ([1; 2] ++ [3])) as Hn by (repeat constructor; set_solver).
  exact (proj1 (proj2 (proj2 (proj2 (plan_gives_every_primary_its_share w_owned [1; 2] [3] ltac:(done) Hn w_owned_all))))).
Defined.

Lemma every_key_has_one_shard_witness :
  0 < 3 ∧ ∃ i, 0 ≤ i < 3 ∧ ∀ j, 0 ≤ j < 3 → (∃ first last, SlotRange j 3 = Some (first, last) ∧ first ≤ KeySlot "{user1}.name" ≤ last) ↔ j = i.
Proof. split; [lia|]. exact (proj2 (proj1 (every_key_has_one_shard 3 ltac:(lia)) "{user1}.name")). Defined.

(** The values Redis documents for its checksum and for a key. *)
Example crc16_check : crc16 (map byte_of (chars "123456789")) = 0x31C3 ∧ KeySlot "foo{}{bar}" = 8363 ∧ KeySlot "{user1000}.following" = KeySlot "{user1000}.followers".
Proof. vm_compute. done. Qed.

(** Three slots of a leaving node divided between two primaries. *)
Example small_plan : (fill_node 2 7 [(1, 5); (1, 6); (2, 8)] ∅ []).2 = [MkMove 1 7 [5; 6]].
Proof. reflexivity. Qed.
