(* ===== verification/Blobleases.v ===== *)
(** * Blob leases: [src/simulator-azure/blob_state.go] and [blob_lease_ops.go]

    A blob or container of the Azure simulator can be leased: while the lease holds,
    a write needs its id. The lease is stored as facts, and its state follows from
    them and the clock. The file models the states, the check a write passes, the
    parsing of a lease request and its five actions, and proves that a lease excludes
    everybody else for its whole term and that nothing but a lease keeps a resource
    from being leased. It also shows how a break can lock a resource that no lease
    holds any more, and how two requests can lease one container.

    Times are nanoseconds; a zero time is [None]. [Seconds() + 0.5] cut to an integer
    is computed exactly: the float sum is exact to a nanosecond below 2 ^ 23 seconds. *)

From S2P Require Import Prelude Gostd Wildcard Utf8.

Record BlobLease := MkLease { ID : string; Duration : Z; ExpiresAt : option Time; BreakAt : option Time; Broken : bool }.

Definition no_lease : BlobLease := MkLease "" 0 None None false.

Inductive lease_state := Available | Leased | Expired | Breaking | IsBroken.

Definition Before (now t : Time) : bool := now <? t.

Definition blobLeaseState (l : BlobLease) (now : Time) : lease_state :=
  if String.eqb (ID l) "" then if Broken l then IsBroken else Available
  else
    match BreakAt l with
    | Some t => if Before now t then Breaking else IsBroken
    | None =>
        match ExpiresAt l with
        | Some t => if (0 <? Duration l) && negb (Before now t) then Expired else Leased
        | None => Leased
        end
    end.

(** [locked] or not. *)
Definition blobLeaseStatus (s : lease_state) : bool := match s with Leased | Breaking => true | _ => false end.

Definition blobLeaseDurationType (l : BlobLease) (s : lease_state) : string :=
  match s with Leased | Breaking => if Duration l <? 0 then "infinite" else "fixed" | _ => "" end.

Definition blobLeaseHeld (l : BlobLease) (now : Time) : bool := blobLeaseStatus (blobLeaseState l now).

Definition blobLeaseResourceSuffix (resource : string) : string := if String.eqb resource "container" then "Container" else "Blob".
Definition blobLeaseMismatchCode (resource : string) : string := "LeaseIdMismatchWith" +:+ blobLeaseResourceSuffix resource +:+ "Operation".

Section Requests.
Context `{!Unicode}.

(** [None] lets the write pass; otherwise the code of its refusal. *)
Definition blobLeaseAccessOK (now : Time) (requested : string) (l : BlobLease) (resource : string) : option string :=
  let held := blobLeaseHeld l now in
  if held && String.eqb requested "" then Some "LeaseIdMissing"
  else if held && negb (EqualFold requested (ID l)) then Some (blobLeaseMismatchCode resource)
  else if negb held && negb (String.eqb requested "") then Some ("LeaseNotPresentWith" +:+ blobLeaseResourceSuffix resource +:+ "Operation")
  else None.

Record blobLeaseActionRequest := MkRequest {
  action : string; leaseID : string; proposedID : string; duration : option Z; breakPeriod : option Z
}.

Definition lease_actions : list string := ["acquire"; "renew"; "change"; "release"; "break"].

Definition header_number (raw : string) (ok : Z → bool) : option (option Z) :=
  if String.eqb raw "" then Some None
  else match Atoi raw with Some v => if ok v then Some (Some v) else None | None => None end.

(** [inl] is the code of the error; all are answered with a 400. *)
Definition parseBlobLeaseRequest (header : string → string) : string + blobLeaseActionRequest :=
  let action := ToLower (TrimSpace (header "x-ms-lease-action")) in
  if String.eqb action "" then inl "MissingRequiredHeader"
  else if negb (bool_decide (action ∈ lease_actions)) then inl "InvalidHeaderValue"
  else
    match header_number (header "x-ms-lease-duration") (λ v, (v =? -1) || ((15 <=? v) && (v <=? 60))) with
    | None => inl "InvalidHeaderValue"
    | Some d =>
        match header_number (header "x-ms-lease-break-period") (λ v, (0 <=? v) && (v <=? 60)) with
        | None => inl "InvalidHeaderValue"
        | Some b => inr (MkRequest action (header "x-ms-lease-id") (header "x-ms-proposed-lease-id") d b)
        end
    end.

(** A refusal with its code and status, or the new lease, the status, and the
    [x-ms-lease-id] and [x-ms-lease-time] of the answer. *)
Inductive lease_reply :=
| Refused (code : string) (status : Z)
| Accepted (next : BlobLease) (status : Z) (id : option string) (time : option Z).

(** [int32(d.Seconds() + 0.5)]. *)
Definition rounded_seconds (d : Z) : Z := Z.quot (d + 500000000) Second.

Definition plus_seconds (now : Time) (n : Z) : Time := now + n * Second.

Definition mismatch (l : BlobLease) (id : string) : bool := String.eqb (ID l) "" || negb (EqualFold id (ID l)).

Definition lease_acquire (now : Time) (uuid : string) (req : blobLeaseActionRequest) (cur : BlobLease) : lease_reply :=
  match duration req with
  | None => Refused "MissingRequiredHeader" 400
  | Some d =>
      let id := if String.eqb (proposedID req) "" then uuid else proposedID req in
      let next := MkLease id d (if 0 <? d then Some (plus_seconds now d) else None) None false in
      match blobLeaseState cur now with
      | Leased =>
          if String.eqb (proposedID req) "" || negb (EqualFold (proposedID req) (ID cur)) then Refused "LeaseAlreadyPresent" 409
          else Accepted next 201 (Some id) None
      | Breaking => Refused "LeaseIsBreakingAndCannotBeAcquired" 409
      | _ => Accepted next 201 (Some id) None
      end
  end.

Definition lease_renew (now : Time) (req : blobLeaseActionRequest) (cur : BlobLease) : lease_reply :=
  match blobLeaseState cur now with
  | IsBroken => Refused "LeaseIsBrokenAndCannotBeRenewed" 409
  | _ =>
      if mismatch cur (leaseID req) then Refused "LeaseIdMismatchWithLeaseOperation" 409
      else Accepted (MkLease (ID cur) (Duration cur) (if 0 <? Duration cur then Some (plus_seconds now (Duration cur)) else ExpiresAt cur) None false)
             200 (Some (ID cur)) None
  end.

Definition lease_change (now : Time) (req : blobLeaseActionRequest) (cur : BlobLease) : lease_reply :=
  if mismatch cur (leaseID req) then Refused "LeaseIdMismatchWithLeaseOperation" 409
  else match blobLeaseState cur now with
       | Breaking => Refused "LeaseIsBreakingAndCannotBeChanged" 409
       | _ =>
           if String.eqb (proposedID req) "" then Refused "MissingRequiredHeader" 400
           else Accepted (MkLease (proposedID req) (Duration cur) (ExpiresAt cur) (BreakAt cur) (Broken cur)) 200 (Some (proposedID req)) None
       end.

Definition lease_release (req : blobLeaseActionRequest) (cur : BlobLease) : lease_reply :=
  if mismatch cur (leaseID req) then Refused "LeaseIdMismatchWithLeaseOperation" 409 else Accepted no_lease 200 None None.

(** The seconds a break takes; [now'] and [now''] are the later readings of
    [time.Until]. *)
Definition break_seconds (now' now'' : Time) (state : lease_state) (req : blobLeaseActionRequest) (cur : BlobLease) : Z :=
  let remaining :=
    match breakPeriod req, ExpiresAt cur with
    | Some b, _ => b
    | None, Some t => if (0 <? Duration cur) && (0 <? t - now') then rounded_seconds (t - now') else 0
    | None, None => 0
    end in
  match state, BreakAt cur with
  | Breaking, Some t =>
      let left := rounded_seconds (t - now'') in
      if (0 <? left) && (match breakPeriod req with None => true | Some _ => left <? remaining end) then left else remaining
  | _, _ => remaining
  end.

Definition lease_break (now now' now'' : Time) (req : blobLeaseActionRequest) (cur : BlobLease) (resource : string) : lease_reply :=
  match blobLeaseState cur now with
  | Available => Refused ("LeaseNotPresentWith" +:+ blobLeaseResourceSuffix resource +:+ "Operation") 409
  | state =>
      let remaining := break_seconds now' now'' state req cur in
      if remaining <=? 0 then Accepted (MkLease "" 0 None None true) 202 None (Some 0)
      else Accepted (MkLease (ID cur) (Duration cur) (ExpiresAt cur) (Some (plus_seconds now remaining)) (Broken cur)) 202 None (Some remaining)
  end.

Definition applyBlobLeaseAction (now now' now'' : Time) (uuid : string) (req : blobLeaseActionRequest) (cur : BlobLease) (resource : string) : lease_reply :=
  if String.eqb (action req) "acquire" then lease_acquire now uuid req cur
  else if String.eqb (action req) "renew" then lease_renew now req cur
  else if String.eqb (action req) "change" then lease_change now req cur
  else if String.eqb (action req) "release" then lease_release req cur
  else if String.eqb (action req) "break" then lease_break now now' now'' req cur resource
  else Refused "InvalidHeaderValue" 400.

(** A request to lease a resource: its headers, the clock as it is read, and the id
    drawn for it. *)
Record lease_call := MkCall { header : string → string; c_now : Time; c_now' : Time; c_now'' : Time; c_uuid : string }.

(** [handleBlobLease] and [handleContainerLease] on the lease of the resource they
    find, [None] when there is no such resource. *)
Definition handle_lease (resource : string) (c : lease_call) (found : option BlobLease) : lease_reply :=
  match parseBlobLeaseRequest (header c) with
  | inl code => Refused code 400
  | inr req =>
      match found with
      | None => Refused (if String.eqb resource "blob" then "BlobNotFound" else "ContainerNotFound") 404
      | Some cur => applyBlobLeaseAction (c_now c) (c_now' c) (c_now'' c) (c_uuid c) req cur resource
      end
  end.

(** What they store. *)
Definition stored (cur : BlobLease) (r : lease_reply) : BlobLease := match r with Accepted next _ _ _ => next | Refused _ _ => cur end.

(** The requests to one blob run one after the other. *)
Definition lease_run (resource : string) (l : BlobLease) (cs : list lease_call) : BlobLease :=
  foldl (λ l c, stored l (handle_lease resource c (Some l))) l cs.

(** ** The term of a lease *)

(** When a lease ends, if it does. *)
Definition lease_end (l : BlobLease) : option Time :=
  match BreakAt l with Some t => Some t | None => if 0 <? Duration l then ExpiresAt l else None end.

Definition before (t : Time) (e : option Time) : Prop := match e with Some e => t < e | None => True end.

Lemma held_until l t : ID l ≠ "" → blobLeaseHeld l t = true ↔ before t (lease_end l).
Proof.
  intros Hid. unfold blobLeaseHeld, blobLeaseState, lease_end, Before. destruct (String.eqb_spec (ID l) ""); [done|]. destruct (BreakAt l) as [b|]; cbn.
  - destruct (Z.ltb_spec t b); cbn; split; done || lia.
  - destruct (ExpiresAt l) as [e|]; [|by destruct (0 <? Duration l)]. destruct (0 <? Duration l); cbn; [|done]. destruct (Z.ltb_spec t e); cbn; split; done || lia.
Qed.

Lemma held_states l t : blobLeaseHeld l t = true ↔ blobLeaseState l t = Leased ∨ blobLeaseState l t = Breaking.
Proof. unfold blobLeaseHeld. destruct (blobLeaseState l t); cbn; naive_solver. Qed.

(** A request of somebody who does not know the lease's id, and does not break it. *)
Definition stranger (x : string) (c : lease_call) : Prop :=
  EqualFold (header c "x-ms-lease-id") x = false ∧ EqualFold (header c "x-ms-proposed-lease-id") x = false ∧
  ToLower (TrimSpace (header c "x-ms-lease-action")) ≠ "break".

Lemma stranger_apply now now' now'' uuid req l resource :
  blobLeaseHeld l now = true → EqualFold (leaseID req) (ID l) = false → EqualFold (proposedID req) (ID l) = false → action req ≠ "break" →
  ∃ code status, applyBlobLeaseAction now now' now'' uuid req l resource = Refused code status.
Proof.
  intros Hh H1 H2 H3. assert (mismatch l (leaseID req) = true) as Hm by (unfold mismatch; rewrite H1; apply orb_true_r).
  unfold applyBlobLeaseAction. destruct (String.eqb (action req) "acquire").
  { unfold lease_acquire. destruct (duration req) as [d|]; [|by eexists _, _]. apply held_states in Hh as [-> | ->]; [|by eexists _, _].
    rewrite H2. cbn [negb]. rewrite orb_true_r. by eexists _, _. }
  destruct (String.eqb (action req) "renew").
  { unfold lease_renew. rewrite Hm. apply held_states in Hh as [-> | ->]; by eexists _, _. }
  destruct (String.eqb (action req) "change"); [unfold lease_change; rewrite Hm; by eexists _, _|].
  destruct (String.eqb (action req) "release"); [unfold lease_release; rewrite Hm; by eexists _, _|].
  destruct (String.eqb_spec (action req) "break"); [done|by eexists _, _].
Qed.

Lemma parse_fields h req :
  parseBlobLeaseRequest h = inr req →
  action req = ToLower (TrimSpace (h "x-ms-lease-action")) ∧ leaseID req = h "x-ms-lease-id" ∧ proposedID req = h "x-ms-proposed-lease-id" ∧
  (∀ d, duration req = Some d → d = -1 ∨ 15 ≤ d ≤ 60) ∧ (∀ b, breakPeriod req = Some b → 0 ≤ b ≤ 60).
Proof.
  unfold parseBlobLeaseRequest. destruct (String.eqb _ ""); [done|]. destruct (negb _); [done|].
  destruct (header_number (h "x-ms-lease-duration") _) as [d|] eqn:Ed; [|done]. destruct (header_number (h "x-ms-lease-break-period") _) as [b|] eqn:Eb; [|done].
  intros [= <-]. cbn [action leaseID proposedID duration breakPeriod]. split_and!; [done..| |].
  - intros x ->. unfold header_number in Ed. destruct (String.eqb _ ""); [done|]. destruct (Atoi _) as [v|]; [|done]. destruct (_ || _) eqn:E; [|done]. injection Ed as ->. bools. lia.
  - intros x ->. unfold header_number in Eb. destruct (String.eqb _ ""); [done|]. destruct (Atoi _) as [v|]; [|done]. destruct (_ && _) eqn:E; [|done]. injection Eb as ->. bools. lia.
Qed.

Lemma stranger_refused resource l c :
  ID l ≠ "" → before (c_now c) (lease_end l) → stranger (ID l) c → ∃ code status, handle_lease resource c (Some l) = Refused code status.
Proof.
  intros Hid Ht (H1 & H2 & H3). unfold handle_lease. destruct (parseBlobLeaseRequest (header c)) as [code|req] eqn:Ep; [by eexists _, _|].
  apply parse_fields in Ep as (E1 & E2 & E3 & _). apply stranger_apply; rewrite ?E1, ?E2, ?E3; try done. by apply held_until.
Qed.

(** ** Theorems *)

(** [C26] A lease excludes everybody else for its whole term. Whatever requests others
    make of a leased resource before the lease ends, short of breaking it, all are
    refused and the lease stays as it is; until then a write passes exactly when it
    names the lease's id; and once the lease has ended any valid acquire succeeds, and
    its lease in turn holds from then on for the duration asked, or for good. *)
Theorem a_lease_excludes_others resource l cs :
  ID l ≠ "" → Forall (λ c, before (c_now c) (lease_end l) ∧ stranger (ID l) c) cs →
  lease_run resource l cs = l ∧
  Forall (λ c, ∃ code status, handle_lease resource c (Some l) = Refused code status) cs ∧
  (∀ t id, before t (lease_end l) → blobLeaseAccessOK t id l resource = None ↔ id ≠ "" ∧ EqualFold id (ID l) = true) ∧
  (∀ c req d, parseBlobLeaseRequest (header c) = inr req → action req = "acquire" → duration req = Some d → c_uuid c ≠ "" → ¬ before (c_now c) (lease_end l) →
    ∃ next, handle_lease resource c (Some l) = Accepted next 201 (Some (ID next)) None ∧
      ID next = (if String.eqb (proposedID req) "" then c_uuid c else proposedID req) ∧
      ∀ t, blobLeaseHeld next t = true ↔ d = -1 ∨ t < c_now c + d * Second).
Proof.
  intros Hid Hcs. split_and!.
  - unfold lease_run. induction Hcs as [|c cs [Ht Hs] _ IH]; [done|]. cbn [foldl]. destruct (stranger_refused resource l c Hid Ht Hs) as (code & st & ->). done.
  - eapply Forall_impl; [exact Hcs|]. intros c [Ht Hs]. by apply stranger_refused.
  - intros t id Ht. apply (held_until l t Hid) in Ht. unfold blobLeaseAccessOK. rewrite Ht. cbn [andb negb].
    destruct (String.eqb_spec id ""); [naive_solver|]. destruct (EqualFold id (ID l)); cbn; naive_solver.
  - intros c req d Hp Ha Hd Hu Ht. apply parse_fields in Hp as Hf. destruct Hf as (_ & _ & _ & Hdur & _). specialize (Hdur _ Hd).
    assert (blobLeaseHeld l (c_now c) = false) as Hh by (apply not_true_iff_false; by rewrite held_until).
    unfold handle_lease. rewrite Hp. unfold applyBlobLeaseAction. rewrite Ha, String.eqb_refl. unfold lease_acquire. rewrite Hd.
    exists (MkLease (if String.eqb (proposedID req) "" then c_uuid c else proposedID req) d (if 0 <? d then Some (plus_seconds (c_now c) d) else None) None false).
    split; [unfold blobLeaseHeld in Hh; by destruct (blobLeaseState l (c_now c))|]. cbn [ID]. split; [done|].
    assert ((if String.eqb (proposedID req) "" then c_uuid c else proposedID req) ≠ "") as Hne by (destruct (String.eqb_spec (proposedID req) ""); done).
    intros t. rewrite held_until by done. unfold lease_end, plus_seconds. cbn [BreakAt Duration ExpiresAt]. destruct (Z.ltb_spec 0 d); cbn; [|naive_solver lia]. lia.
Qed.
Lemma rounded_bound d : d ≤ 60 * Second → rounded_seconds d ≤ 60.
Proof. unfold rounded_seconds. change Second with 1000000000. intros. dlia. Qed.

Lemma break_bound now' now'' state req l :
  (∀ b, breakPeriod req = Some b → 0 ≤ b ≤ 60) → (∀ e, ExpiresAt l = Some e → e ≤ now' + 60 * Second) →
  (∀ b, BreakAt l = Some b → b ≤ now'' + 60 * Second) → break_seconds now' now'' state req l ≤ 60.
Proof.
  intros Hper He Hb. unfold break_seconds. set (r := match breakPeriod req with Some b => b | None => _ end). assert (r ≤ 60) as H0.
  { subst r. destruct (breakPeriod req) as [b|]; [specialize (Hper _ eq_refl); lia|]. destruct (ExpiresAt l) as [e|]; [|lia]. specialize (He _ eq_refl).
    destruct (_ && _); [apply rounded_bound; lia|lia]. }
  destruct state; try done. destruct (BreakAt l) as [b|]; [|done]. specialize (Hb _ eq_refl). destruct (_ && _); [apply rounded_bound; lia|done].
Qed.

(** A break of a lease is accepted, and ends it exactly when its answer says: within
    a minute, given that no stored time is more than a minute away. *)
Theorem a_break_ends_the_lease resource c l req :
  ID l ≠ "" → parseBlobLeaseRequest (header c) = inr req → action req = "break" →
  (∀ e, ExpiresAt l = Some e → e ≤ c_now' c + 60 * Second) → (∀ b, BreakAt l = Some b → b ≤ c_now'' c + 60 * Second) →
  ∃ next n, handle_lease resource c (Some l) = Accepted next 202 None (Some n) ∧ 0 ≤ n ≤ 60 ∧
    ∀ t, c_now c ≤ t → blobLeaseHeld next t = true ↔ t < c_now c + n * Second.
Proof.
  intros Hid Hp Ha He Hb. pose proof (parse_fields _ _ Hp) as (_ & _ & _ & _ & Hper). unfold handle_lease. rewrite Hp. unfold applyBlobLeaseAction. rewrite Ha.
  change (String.eqb "break" "acquire") with false. change (String.eqb "break" "renew") with false. change (String.eqb "break" "change") with false.
  change (String.eqb "break" "release") with false. rewrite String.eqb_refl. cbv iota.
  assert (blobLeaseState l (c_now c) ≠ Available) as Hs.
  { unfold blobLeaseState. destruct (String.eqb_spec (ID l) ""); [done|]. repeat case_match; done. }
  pose proof (break_bound _ _ (blobLeaseState l (c_now c)) req l Hper He Hb) as Hr. set (r := break_seconds _ _ _ _ _) in Hr.
  assert (lease_break (c_now c) (c_now' c) (c_now'' c) req l resource = if r <=? 0 then Accepted (MkLease "" 0 None None true) 202 None (Some 0)
    else Accepted (MkLease (ID l) (Duration l) (ExpiresAt l) (Some (plus_seconds (c_now c) r)) (Broken l)) 202 None (Some r)) as ->.
  { unfold lease_break, r. by destruct (blobLeaseState l (c_now c)). }
  destruct (Z.leb_spec r 0); eexists _, _; (split; [reflexivity|]); (split; [lia|]); intros t Ht.
  - unfold blobLeaseHeld. cbn. split; [done|lia].
  - rewrite held_until by done. cbn. unfold plus_seconds. lia.
Qed.
End Requests.

(** ** A lease *)

(** Plain letters fold to the other case. *)
#[local] Instance w_unicode : Unicode := {
  SimpleFold r := if (65 <=? r) && (r <=? 90) then r + 32 else if (97 <=? r) && (r <=? 122) then r - 32 else r;
  ToLower_rune r := if (65 <=? r) && (r <=? 90) then r + 32 else r
}.

(** A lease from time 0 for 15 seconds, and a request with a few headers. *)
Definition w_lease : BlobLease := MkLease "a" 15 (Some (15 * Second)) None false.

Definition w_call (now : Time) (hs : list (string * string)) : lease_call :=
  MkCall (λ k, match List.find (λ kv, String.eqb kv.1 k) hs with Some kv => kv.2 | None => "" end) now now now "u".

Definition w_acquire : lease_call := w_call 0 [("x-ms-lease-action", "Acquire"); ("x-ms-lease-duration", "30"); ("x-ms-proposed-lease-id", "b")].

Lemma a_lease_excludes_others_witness :
  Forall (λ c, before (c_now c) (lease_end w_lease) ∧ stranger (ID w_lease) c) [w_acquire] ∧ lease_run "blob" w_lease [w_acquire] = w_lease.
Proof.
  assert (Forall (λ c, before (c_now c) (lease_end w_lease) ∧ stranger (ID w_lease) c) [w_acquire]) as Hs.
  { constructor; [|constructor]. split; [reflexivity|]. split; [vm_compute; reflexivity|]. split; [vm_compute; reflexivity|]. intros Ha. by vm_compute in Ha. }
  split; [exact Hs|]. exact (proj1 (a_lease_excludes_others "blob" w_lease [w_acquire] ltac:(done) Hs)).
Defined.

(** ** Behaviour that is not meant *)

Definition w_break (now : Time) (period : string) : lease_call := w_call now [("x-ms-lease-action", "break"); ("x-ms-lease-break-period", period)].

(** A lease that ran out 5 seconds ago holds nothing; a break of it with a period of
    60 seconds locks the resource for that minute, with the id of the old lease. *)
Example break_relocks_an_expired_lease :
  let l := lease_run "blob" w_lease [w_break (20 * Second) "60"] in
  blobLeaseHeld w_lease (20 * Second) = false ∧ blobLeaseHeld l (79 * Second) = true ∧ blobLeaseAccessOK (79 * Second) "" l "blob" = Some "LeaseIdMissing".
Proof. vm_compute. done. Qed.

(** A second break, asked for while less than half a second of the first is left,
    replaces it by its own period instead of shortening it. *)
Example second_break_lengthens :
  let l := MkLease "a" (-1) None (Some 400000000) false in
  blobLeaseState l 0 = Breaking ∧ lease_end (lease_run "blob" l [w_break 0 "60"]) = Some (60 * Second).
Proof. vm_compute. done. Qed.

(** [handleContainerLease] reads the container and stores it without a lock: two
    acquires that both read it before either stores are both accepted, and the first
    caller holds an id that names no lease. *)
Example container_acquires_race :
  let other := w_call 0 [("x-ms-lease-action", "acquire"); ("x-ms-lease-duration", "30"); ("x-ms-proposed-lease-id", "c")] in
  let r1 := handle_lease "container" w_acquire (Some no_lease) in
  let r2 := handle_lease "container" other (Some no_lease) in
  let after := stored (stored no_lease r1) r2 in
  match r1, r2 with
  | Accepted _ 201 (Some id1) _, Accepted _ 201 (Some id2) _ =>
      id1 = "b" ∧ id2 = "c" ∧ ID after = "c" ∧ blobLeaseAccessOK 1 id1 after "container" = Some "LeaseIdMismatchWithContainerOperation"
  | _, _ => False
  end.
Proof. vm_compute. done. Qed.
